(* ===== verification/_CoqProject ===== *)
-Q . S2P
Prelude.v
Text.v
Report.v
Poh.v
Structural.v
Verify.v
RangeSpec.v
Eras.v
Cli.v
Chain.v
Checkpoint.v
Runner.v
RunnerAccounting.v
RunnerSound.v
Fixtures.v
Witnesses.v
BTree.v
SlotCoverage.v
CoverageMap.v
HeadCoverage.v
BlockRanges.v
HeadCache.v
Banks.v
BanksSound.v
Cursors.v
HeadReaders.v
HeadIndex.v
HeadTxs.v
HeadReadersSound.v
BlockIndex.v
BlockIndexScan.v
Watermark.v
KeyIndex.v
KeyTasks.v
KeyFacts.v
KeyTasksSound.v
DiskReads.v
DiskReadsSound.v
SignatureStatuses.v
SignatureStatusesSound.v
Filler.v
FillerSound.v
Sdk.v
IngestTx.v
IngestBlock.v
IngestBlockSound.v
IngestTables.v
IngestGrpc.v
IngestGrpcSound.v
IngestGrpcTruth.v
Fumarole.v
FumaroleSound.v
Hydration.v
HydrationSound.v
IngestRpc.v
IngestRpcSound.v
BlockHydration.v
BlockHydrationSound.v
BlockRoundTrip.v
GetBlock.v
GetBlockSound.v
SlotCache.v
SlotCacheSound.v
RefreshCache.v
RefreshCacheSound.v
GetTransaction.v
GetTransactionSound.v
GetSignatures.v
GetSignaturesSound.v
RpcWitnesses.v
HeadWitnesses.v
IndexWitnesses.v
KeyWitnesses.v
IngestWitnesses.v
HydrationWitnesses.v
GetBlockWitnesses.v
ReadWitnesses.v
TransactionWitnesses.v
RefreshWitnesses.v
SignaturesWitnesses.v
