(* ===== verification/Prelude.v ===== *)
(** * Superbank: a verification library

    Superbank is an archive of the Solana ledger: an ingestor writes blocks, entries and
    transactions to ClickHouse ([crates/superbank], [ingest/]), a JSON-RPC server answers
    from it with an in-memory head cache and a local disk cache in front
    ([crates/superbank-rpc]), a validator re-derives the Proof-of-History chain of what was
    archived ([crates/superbank-verify]) and an exporter writes Parquet files
    ([crates/superbank-solparq]).  This library models the ingestor's streaming sources up
    to the rows they store and its backfill over RPC, the validator's verification pipeline,
    and of the server the caches, what decides which slots an answer is complete for, and the
    handlers of blocks, transactions, signatures and statuses, and proves what makes them
    correct.

    ** Conventions

    Unsigned machine integers are [Z] in the range of their width ([is_u64], [is_u32]);
    the saturating and checked operations of the source are definitions of this file, and a
    plain [+] of the source is a plain [+] unless the wrap-around matters, in which case it
    is [wrap64].  [Result] is [result], early returns are [let?].  A [BTreeMap] keyed by
    slots is the ordered association list of [BTree]; a [HashMap] is a [gmap].  Loops whose
    number of turns is not structural take fuel; each such loop has a theorem that the fuel
    its caller passes is enough (the fuel values are named below).  Third-party code and
    databases are parameters: SHA-256 and base58 are functions with the widths they
    promise, each ClickHouse client is a record or class of reads, with its laws as a class
    of its own.  Logging, metrics, tracing, progress bars and pacing are left out.

    ** The validator, [crates/superbank-verify/src]

    - [Text]: the [str] operations the parsers use, with print/parse round trips of
      decimal numbers.
    - [Report]: [report.rs], findings, their classes and stable codes, counters, the exit
      code and the report writer.
    - [Poh]: [verify/poh.rs], the hash chain and the signature Merkle root.  The iterative
      root computes the balanced tree ([merkle_root_is_tree]); [merkle_loop] takes the
      number of leaves as fuel, since a level at least halves its list.
    - [Structural]: [verify/structural.rs], the checks that need no hashing, exact against
      a declarative well-formedness ([check_structure_exact]).
    - [Verify]: [verify/mod.rs], one block.  Full mode reports nothing hard exactly on
      blocks whose entries are a valid chain ([verify_full_refines],
      [verify_full_replays]), its hashing work is bounded, and one corrupted hash is
      reported locally.
    - [RangeSpec], [Eras], [Cli]: [range.rs], [eras.rs], [cli.rs], parsing and validation
      with round trips.
    - [Chain]: [chain.rs], the walk over block rows that links parents and classifies
      every slot as skipped or missing.
    - [Checkpoint]: [checkpoint.rs], the resume rule, and saving as a program of file
      operations: a process that dies after any prefix of them leaves the old checkpoint or
      the new one ([save_crash_atomic]).
    - [Runner]: [runner.rs], fetching windows, verifying them, accounting slots, saving
      checkpoints and finishing.  [run_windows] takes one unit of fuel per slot of the
      range, because each turn moves at least one slot forward ([run_terminates]).
      [RunnerAccounting] proves that the counters of interrupted and resumed runs add up to
      the range; [RunnerSound] that exit code 0 means the range was verified.
    - [Fixtures], [Witnesses]: an in-memory archive and the theorems at concrete inputs.

    ** The server, [crates/superbank-rpc/src]

    - [BTree]: ordered maps.
    - [SlotCoverage]: [slot_coverage.rs], answers with completeness intervals, their gaps
      and the merge that drops contradictions.
    - [CoverageMap]: [disk_cache/coverage.rs], the set of cached slots as ranges, a
      refinement of a plain set of slots.
    - [HeadCoverage]: [head_cache/coverage.rs], the chain of recent banks that proves
      which recent slots are known.  [chain] takes the number of nodes as fuel; each turn
      moves to a strictly lower slot.
    - [HeadCache]: [head_cache/mod.rs], the published blocks and transactions of recent
      slots with their indices by signature, address and slot.  A commitment shared by a
      bank and its transactions is a cell of a token heap; converting a streamed
      transaction to a stored record is a parameter.
    - [Banks], [BanksSound]: [head_cache/banks.rs], the sessions of the subscription:
      staging, sealing, fork choice, publication, discards and retention.  After any
      stream the cache and its range proof show sealed, selected banks only
      ([head_shows_sealed_bank]), and a chosen bank stays chosen ([canonical_bank_final]).
    - [HeadReaders]: the queries of [head_cache/mod.rs].  [HeadIndex] and [HeadTxs] are the
      invariants of the address index and of the signature maps; [HeadReadersSound] proves
      that a served block is one whole bank ([get_block_exact]), that an address history is
      complete relative to what is cached, and that the transaction-count overlay is exact.
    - [Cursors]: the slot windows of address requests, from [disk_cache/key_reads.rs],
      [disk_cache/mod.rs] and [handlers/signatures.rs]: a local page and the remainder
      asked of the archive split a request.
    - [BlockRanges]: [handlers/block_ranges.rs] and the range part of [handlers/blocks.rs],
      how getBlocks and getBlocksWithLimit assemble an answer, and over which window
      ([resolved_end]).  [truthful_source] is the contract a cache must keep.
    - [BlockIndex], [BlockIndexScan]: [disk_cache/block_index.rs], the block-time index,
      its bitmaps, eviction, worker, durable tables and restart; it keeps
      [truthful_source] through any history ([index_worker_truthful]).  Loops over segments
      take the number of segments of the range as fuel, the loop over a word 64.
    - [Watermark]: [disk_cache/gsfa_watermark.rs], the bounded table of empty addresses, a
      refinement of the list of live entries, oldest first.
    - [KeyIndex]: [disk_cache/key_index.rs] and [key_index/signatures.rs], the Bloom filters
      that say which partitions may hold a key, one definition per critical section.
      [KeyTasks] is the step relation of the tasks that share them (fills, builders,
      poisoned slots, evictions, schema rebuilds), with the tables and the coverage they
      change; [KeyFacts] is what each critical section does to the index, and
      [KeyTasksSound] the invariant of every interleaving of calm steps: lookups skip no
      partition that holds a covered row, negative answers are right, equal tokens mean a
      snapshot.  A step is calm ([calm_step]) unless a writer beyond the 128 tracked ones starts
      beside a fill that has scanned its rows; then a lookup can miss rows
      ([untracked_writer_hides_row]).
    - [DiskReads]: the signature reads of [disk_cache/key_reads.rs], a transaction by a fused
      query or in two steps, statuses over a span or partition by partition.
      [DiskReadsSound] proves each answer exact against the rows in the tables, from what
      the filters promise ([IndexComplete], which every run of calm steps of [KeyTasks] has).
    - [SignatureStatuses]: getSignatureStatuses of [handlers/signatures.rs] with
      [status_history_cache.rs].  [SignatureStatusesSound] proves that remembering absent
      signatures changes no answer of any sequence of requests, from what the tiers promise
      ([observed_true]; the archive is never ahead of the head stream).
    - [Filler], [FillerSound]: [disk_cache/filler.rs], the attempts per slot, the plan of a
      round, the statuses a batch proves, and that every slot of a window settles.
      [chunk_run] takes the length of its run as fuel, since each turn takes a slot.
    - [Hydration]: [hydration/transaction.rs], [hydration/meta.rs] and the rows of
      [clickhouse/rows.rs], how a stored transaction becomes the SDK's, for the full and the
      accounts view, every refusal of inconsistent columns included.  [HydrationSound]
      composes it with the ingestor's [IngestTx]: what was streamed is what is served
      ([ingest_hydrate_roundtrip]).
    - [BlockHydration]: [hydration/block.rs] and the block builder of [handlers/blocks.rs],
      sequential and in parallel chunks.  [BlockHydrationSound] proves both paths equal, in
      bytes and in errors, from [LibraryLaws], the behaviour of the SDK encoder and of the
      JSON serializer the source relies on.  [BlockRoundTrip] composes it with the ingestor:
      a streamed block is the served block.
    - [GetBlock]: the getBlock handler of [handlers/blocks.rs] with [block_response_cache.rs]:
      the lookup, the choice of a tier, the build, and what is kept.  [GetBlockSound] proves
      every answer equal to the reference build of the whole block, for any interleaving of
      requests, evictions and shared evaluations, from what each tier promises
      ([tiers_true]); rows of the archive may be missing.
    - [SlotCache]: [clickhouse/cache.rs], the single-flight cache of signature positions, with
      the two loops that use it as a step relation.  [SlotCacheSound] proves that one request
      looks a signature up at a time, that all requests return ([work] bounds their steps, and
      when none can move by itself all are done) and that what is served is the answer of a
      logged lookup within its time to live.
    - [RefreshCache]: the latest slot and its block height, [state.rs], word by word as the
      source reads and writes them.  The accesses are relaxed: a load may return any value its
      word ever had, and the wall clock may go back.  [RefreshCacheSound] proves that an answer
      is the archive's or the initial one, that the stored slot never goes back, and when the
      height is coherent.
    - [GetTransaction]: [handlers/transactions.rs] from its JSON parameters on, with
      [get_transaction_primary_cache.rs] and the lookups of [clickhouse/transactions.rs].
      [GetTransactionSound] proves every answer right against the finalized history, for any
      interleaving of requests and evictions, and every refusal exact.
    - [GetSignatures]: getSignaturesForAddress of [handlers/signatures.rs] from its decoded
      options on: cursors, the race of the disk cache with the archive, the serial path,
      watermarks, deferred cursors and the merge.  [GetSignaturesSound] proves every page to
      be the newest rows between the cursors, on every path, from what the tiers promise
      ([tiers_true]), and that watermarks stay true.  It excludes an [until] position just
      below the disk floor, and for requests without cursors assumes that what the head cache
      proves was in it when its rows were read ([proof_in_rows]).
    - [RpcWitnesses], [HeadWitnesses], [IndexWitnesses], [KeyWitnesses], [HydrationWitnesses],
      [GetBlockWitnesses], [ReadWitnesses], [TransactionWitnesses], [RefreshWitnesses],
      [SignaturesWitnesses]: the theorems at concrete inputs, schedules that read a torn
      block height and a stale slot, and a page that misses a row because of the clamp in [Cursors].

    ** The ingestor, [crates/superbank/src]

    - [Sdk]: the transaction, message, status and error types of the SDK and the column
      groups both sides of the database share.
    - [IngestTx]: a streamed transaction as a row, from [ingest/grpc.rs]; base58, the wire
      form and hash of a message and the text of an error are the parameter [Codecs].
    - [IngestBlock]: the checks a streamed block passes, its rows, the row buffers and their
      flush, from [ingest/grpc.rs] and [clickhouse.rs].  The database answers every insert,
      and may store rows without acknowledging them.  [IngestBlockSound] proves that exactly
      the complete blocks are accepted and what a flush leaves; [IngestTables] that the
      tables are a prefix of the prepared blocks, for both sources below.
    - [IngestGrpc]: [ingest/grpc.rs], the join of finalized blocks with their bank identity
      and footer and the loop of the subscription.  [IngestGrpcSound] proves that a restart
      from the newest stored block loses no transaction of a stream in slot order,
      [IngestGrpcTruth] that identity and
      footer columns are what the subscription proved, and the bounds of the join.
    - [Fumarole], [FumaroleSound]: [ingest/fumarole.rs], the reassembly of blocks from a
      persisted stream: what is acknowledged is stored, and banks do not mix.
    - [IngestRpc]: [ingest/rpc.rs] and the slot list of [range.rs], the pipeline of a backfill
      over RPC as a step relation of its concurrent tasks over bounded channels.
      [IngestRpcSound] proves that a run that ends well stored what was asked for, that its
      tables are consistent in every state, and that it ends without being interrupted:
      every working step makes less of what [discovery_left] and [left_over] measure, and a
      state without one has returned.
    - [IngestWitnesses]: the theorems on concrete streams and runs, and two runs that lose
      data.

    ** Assumptions worth knowing

    The reads of one validator run see one block table with one row per slot ([ChDbLaws]).
    The head cache, the index and the caches are modelled as the sequence of their
    lock-protected operations; where the source releases one lock before taking another
    ([reserve_segments]) the state in between is a definition of its own and the readers'
    theorem holds there too.  The index's theorems assume that a source row says what the
    finalized chain says, not that the source has every row.  Slots are assumed to stay a
    segment below the largest 64-bit number where the source adds without checking.  A
    crash of the process is modelled, a power loss that reorders writes to the disk is not;
    nor are panics of the backfill's tasks.

    ** Not modelled

    The ingestor's Bigtable and Parquet sources, its mapping of RPC blocks to rows and the
    exporter, SQL text and network clients, protobuf and JSON encodings, a second interrupt
    during the last flush of an ingestor, and the handlers of the other RPC methods. *)

From Stdlib Require Export ZArith Lia.
From stdpp Require Export base decidable list gmap strings sorting.

#[export] Set Default Goal Selector "!".
#[export] Set Warnings "-clear-no-such-hyp".

Open Scope Z_scope.

(** ** Machine integers

    A Rust [u64], [u32] or [usize] is a [Z] in the range of its width.  The
    source is explicit about which additions saturate, so each saturating
    operation has a definition of its own; a plain [+] of the source is a plain
    [+] here and the theorems that need it carry the hypothesis that it does not
    overflow. *)

Definition u64_max : Z := 18446744073709551615.
Definition u32_max : Z := 4294967295.

Definition is_u64 (x : Z) : Prop := 0 <= x <= u64_max.
Definition is_u32 (x : Z) : Prop := 0 <= x <= u32_max.

#[export] Instance is_u64_dec x : Decision (is_u64 x).
Proof. unfold is_u64. apply _. Defined.
#[export] Instance is_u32_dec x : Decision (is_u32 x).
Proof. unfold is_u32. apply _. Defined.

(** [u64::saturating_add], [saturating_sub], [saturating_mul]. *)
Definition sat_add (a b : Z) : Z := Z.min u64_max (a + b).
Definition sat_sub (a b : Z) : Z := Z.max 0 (a - b).
Definition sat_mul (a b : Z) : Z := Z.min u64_max (a * b).
(** [u32::saturating_add]. *)
Definition sat_add32 (a b : Z) : Z := Z.min u32_max (a + b).
(** [x as u32]. *)
Definition as_u32 (x : Z) : Z := x mod (u32_max + 1).
(** A [u64] addition in a build without overflow checks. *)
Definition wrap64 (x : Z) : Z := x mod (u64_max + 1).
(** [u64::checked_add], [checked_mul]. *)
Definition checked_add (a b : Z) : option Z :=
  if a + b <=? u64_max then Some (a + b) else None.
Definition checked_mul (a b : Z) : option Z :=
  if a * b <=? u64_max then Some (a * b) else None.

(** A list length as the source's [len() as u64]. *)
Definition zlen {A} (l : list A) : Z := Z.of_nat (length l).

(** ** Fallible computations: Rust's [Result]. *)

Inductive result (A E : Type) : Type :=
| Ok (a : A)
| Err (e : E).
Arguments Ok {A E} a.
Arguments Err {A E} e.

Definition rbind {A B E} (m : result A E) (k : A -> result B E) : result B E :=
  match m with Ok a => k a | Err e => Err e end.

Declare Scope rust_scope.
Delimit Scope rust_scope with rust.
Notation "'let?' x ':=' m 'in' k" := (rbind m (fun x => k))
  (at level 10, x binder, m at level 100, k at level 200,
   format "'[v' 'let?'  x  ':='  m  'in' '/' k ']'") : rust_scope.
Open Scope rust_scope.

Lemma rbind_ok {A B X} (m : result A X) (k : A -> result B X) b : rbind m k = Ok b <-> exists a, m = Ok a /\ k a = Ok b.
Proof. destruct m; cbn; naive_solver. Qed.

Definition ok_or {A E} (o : option A) (e : E) : result A E :=
  match o with Some a => Ok a | None => Err e end.

Definition is_ok {A E} (r : result A E) : bool :=
  match r with Ok _ => true | Err _ => false end.

#[export] Instance result_eq_dec {A E} `{EqDecision A, EqDecision E} :
  EqDecision (result A E).
Proof. solve_decision. Defined.

(** [ensure!(c, e)] / an early [return Err(e)]. *)
Definition ensure {E} (c : bool) (e : E) : result unit E :=
  if c then Ok tt else Err e.

(** ** Tactics *)

(** Turn boolean comparisons of the source into propositions. *)
Ltac zbool :=
  repeat match goal with
  | H : (_ && _)%bool = true |- _ => apply andb_prop in H; destruct H
  | H : (_ && _)%bool = false |- _ => apply andb_false_iff in H
  | H : (_ || _)%bool = true |- _ => apply orb_prop in H
  | H : (_ || _)%bool = false |- _ => apply orb_false_elim in H; destruct H
  | H : negb _ = true |- _ => apply negb_true_iff in H
  | H : negb _ = false |- _ => apply negb_false_iff in H
  | H : (_ =? _)%Z = true |- _ => apply Z.eqb_eq in H
  | H : (_ =? _)%Z = false |- _ => apply Z.eqb_neq in H
  | H : (_ <? _)%Z = true |- _ => apply Z.ltb_lt in H
  | H : (_ <? _)%Z = false |- _ => apply Z.ltb_ge in H
  | H : (_ <=? _)%Z = true |- _ => apply Z.leb_le in H
  | H : (_ <=? _)%Z = false |- _ => apply Z.leb_gt in H
  | H : (_ >? _)%Z = true |- _ => rewrite Z.gtb_ltb in H
  | H : (_ >? _)%Z = false |- _ => rewrite Z.gtb_ltb in H
  | H : (_ >=? _)%Z = true |- _ => rewrite Z.geb_leb in H
  | H : (_ >=? _)%Z = false |- _ => rewrite Z.geb_leb in H
  | H : bool_decide _ = true |- _ => apply bool_decide_eq_true in H
  | H : bool_decide _ = false |- _ => apply bool_decide_eq_false in H
  end.

(** Case on every [if] of the goal, with the conditions as propositions. *)
Ltac case_ifs :=
  repeat (case_match; zbool; simplify_eq/=).

(** Unfold the saturating arithmetic and finish with [lia]. *)
Ltac sat_lia :=
  unfold sat_add, sat_sub, sat_mul, sat_add32, checked_add, checked_mul,
    is_u64, is_u32, u64_max, u32_max, zlen in *; lia.

(** Iterate a partial step on a bounded number of turns: the model of a loop
    whose number of turns is known before it starts ([for _ in a..b]). *)
Definition times {A} (n : Z) (f : A -> A) (x : A) : A := Nat.iter (Z.to_nat n) f x.

Lemma times_0 {A} (f : A -> A) n x : n <= 0 -> times n f x = x.
Proof. intros. unfold times. by replace (Z.to_nat n) with 0%nat by lia. Qed.

Lemma times_S {A} (f : A -> A) n x : 0 <= n -> times (n + 1) f x = f (times n f x).
Proof. intros. unfold times. by replace (Z.to_nat (n + 1)) with (S (Z.to_nat n)) by lia. Qed.

Lemma times_add {A} (f : A -> A) m n x :
  0 <= m -> 0 <= n -> times (m + n) f x = times m f (times n f x).
Proof.
  intros. unfold times. rewrite Z2Nat.inj_add by lia.
  induction (Z.to_nat m) as [|k IH]; simpl; [done|by rewrite IH].
Qed.

Lemma times_invariant {A} (P : A -> Prop) (f : A -> A) n x :
  P x -> (forall y, P y -> P (f y)) -> P (times n f x).
Proof. intros Hx Hf. unfold times. induction (Z.to_nat n); simpl; auto. Qed.

(** ** Lists *)

Lemma zlen_nil {A} : zlen (@nil A) = 0.
Proof. reflexivity. Qed.
Lemma zlen_cons {A} (x : A) l : zlen (x :: l) = zlen l + 1.
Proof. unfold zlen. simpl. lia. Qed.
Lemma zlen_app {A} (l k : list A) : zlen (l ++ k) = zlen l + zlen k.
Proof. unfold zlen. rewrite length_app. lia. Qed.
Lemma zlen_nonneg {A} (l : list A) : 0 <= zlen l.
Proof. unfold zlen. lia. Qed.

(** Sum of a measure over a list. *)
Definition zsum {A} (f : A -> Z) (l : list A) : Z := foldr (fun x s => f x + s) 0 l.

Lemma zsum_app {A} (f : A -> Z) l k : zsum f (l ++ k) = zsum f l + zsum f k.
Proof. induction l; simpl in *; lia. Qed.
Lemma zsum_nonneg {A} (f : A -> Z) l : (forall x, x ∈ l -> 0 <= f x) -> 0 <= zsum f l.
Proof.
  induction l as [|a l IH]; simpl; [lia|]. intros H.
  pose proof (H a (list_elem_of_here _ _)).
  assert (0 <= zsum f l); [|lia]. apply IH. intros x Hx. apply H. by right.
Qed.

(** Strictly ascending lists of keys: the order in which the ClickHouse reads
    and the ordered maps of the source deliver slots. *)
Definition ascending (l : list Z) : Prop := StronglySorted Z.lt l.

Lemma ascending_cons x l : ascending (x :: l) <-> Forall (Z.lt x) l /\ ascending l.
Proof.
  split.
  - intros H. inversion H. done.
  - intros []. by constructor.
Qed.

Lemma ascending_NoDup l : ascending l -> NoDup l.
Proof.
  induction 1 as [|x l Hs IH Hf]; constructor; [|done].
  intros Hin. rewrite Forall_forall in Hf. specialize (Hf _ Hin). lia.
Qed.

Lemma ascending_snoc x l : ascending (l ++ [x]) <-> ascending l /\ Forall (fun y => y < x) l.
Proof.
  induction l as [|a l IH]; cbn [app].
  - split; [|by repeat constructor]. intros _. split; constructor.
  - rewrite !ascending_cons, IH, Forall_app, !Forall_cons, Forall_nil. tauto.
Qed.

(** [sort_unstable_by_key] on slot-keyed pairs. *)
Definition key_le {V} (a b : Z * V) : Prop := fst a <= fst b.
#[export] Instance key_le_dec {V} (a b : Z * V) : Decision (key_le a b).
Proof. unfold key_le. apply _. Defined.
#[export] Instance key_le_trans {V} : Transitive (@key_le V).
Proof. intros a b c. unfold key_le. lia. Qed.
#[export] Instance key_le_total {V} : Total (@key_le V).
Proof. intros a b. unfold key_le. lia. Qed.
Definition sort_by_key {V} (l : list (Z * V)) : list (Z * V) := merge_sort key_le l.

Lemma sort_by_key_perm {V} (l : list (Z * V)) : sort_by_key l ≡ₚ l.
Proof. apply merge_sort_Permutation. Qed.
Lemma sort_by_key_sorted {V} (l : list (Z * V)) : StronglySorted key_le (sort_by_key l).
Proof. apply StronglySorted_merge_sort; apply _. Qed.

(** ** Sorted lists *)

Lemma sorted_rev {A} (R : A -> A -> Prop) l : StronglySorted R l -> StronglySorted (flip R) (rev l).
Proof.
  induction 1 as [|x l Hl IH Hf]; simpl; [constructor|]. apply StronglySorted_app. split_and!; [|done|repeat constructor].
  intros y z Hy ->%list_elem_of_singleton. rewrite list_elem_of_In, <- in_rev, <- list_elem_of_In in Hy. exact (proj1 (Forall_forall _ _) Hf y Hy).
Qed.

Lemma seqZ_sorted s n : StronglySorted Z.lt (seqZ s n).
Proof.
  remember (Z.to_nat n) as k eqn:E. revert s n E. induction k as [|k IH]; intros s n E.
  - rewrite seqZ_nil by lia. constructor.
  - rewrite seqZ_cons by lia. constructor; [apply IH; lia|]. apply Forall_forall. intros x Hx%elem_of_seqZ. lia.
Qed.

Lemma sublist_sorted {A} (R : A -> A -> Prop) l k : l `sublist_of` k -> StronglySorted R k -> StronglySorted R l.
Proof.
  induction 1 as [|x l k Hs IH|x l k Hs IH]; intros Hk; [done|..]; apply StronglySorted_inv in Hk as [Hk Hx]; [|by apply IH].
  constructor; [by apply IH|]. rewrite Forall_forall in *. intros z Hz. apply Hx. by eapply elem_of_sublist.
Qed.

(** ** Inclusive slot ranges *)

(** A slot lies in one of a list of inclusive ranges. *)
Definition in_ranges (x : Z) (l : list (Z * Z)) : Prop := exists r, r ∈ l /\ fst r <= x <= snd r.

Lemma in_ranges_nil x : in_ranges x [] <-> False.
Proof. split; [by intros (r & ?%elem_of_nil & _)|done]. Qed.
Lemma in_ranges_cons x a b l : in_ranges x ((a, b) :: l) <-> a <= x <= b \/ in_ranges x l.
Proof.
  unfold in_ranges. split.
  - intros (r & [->|Hin]%elem_of_cons & Hx); eauto.
  - intros [Hx|(r & Hin & Hx)].
    + exists (a, b). split; [apply list_elem_of_here|done].
    + exists r. split; [by apply list_elem_of_further|done].
Qed.
Lemma in_ranges_app x l k : in_ranges x (l ++ k) <-> in_ranges x l \/ in_ranges x k.
Proof.
  induction l as [|[a b] l IH]; simpl; [rewrite in_ranges_nil; tauto|].
  rewrite !in_ranges_cons, IH. tauto.
Qed.

Create HintDb superbank.
Create Rewrite HintDb superbank.
#[export] Hint Resolve zlen_nonneg : superbank.
#[export] Hint Rewrite @zlen_nil @zlen_cons @zlen_app : superbank.
