(* ===== verification/Text.v ===== *)
(** * Text: the Rust string operations the parsers use

    [str::trim], [str::split], [str::split_once], [str::contains] on a character,
    [str::parse::<u64>] and the decimal [Display] of an integer, on ASCII strings.
    The lemmas give the decimal round trip and the behaviour of the splitters on a
    text that is assembled from separator-free pieces, which is what the parsers of
    [RangeSpec] and [Eras] need. *)

From Stdlib Require Import Ascii String DecimalString DecimalN DecimalFacts.
From S2P Require Import Prelude.

Open Scope string_scope.
Open Scope Z_scope.

(** [char::is_whitespace] on ASCII. *)
Definition is_whitespace (c : ascii) : bool :=
  let n := Z.of_nat (nat_of_ascii c) in
  ((9 <=? n) && (n <=? 13) || (n =? 32))%bool.

Fixpoint trim_start (s : string) : string :=
  match s with
  | EmptyString => EmptyString
  | String c s' => if is_whitespace c then trim_start s' else s
  end.

Fixpoint trim_end (s : string) : string :=
  match s with
  | EmptyString => EmptyString
  | String c s' =>
      match trim_end s' with
      | EmptyString => if is_whitespace c then EmptyString else String c EmptyString
      | t => String c t
      end
  end.

Definition trim (s : string) : string := trim_end (trim_start s).

Definition is_empty (s : string) : bool :=
  match s with EmptyString => true | _ => false end.

Fixpoint contains (c : ascii) (s : string) : bool :=
  match s with
  | EmptyString => false
  | String d s' => Ascii.eqb c d || contains c s'
  end%bool.

Fixpoint split (c : ascii) (s : string) : list string :=
  match s with
  | EmptyString => [EmptyString]
  | String d s' =>
      if Ascii.eqb c d then EmptyString :: split c s'
      else match split c s' with
           | [] => [String d EmptyString]
           | h :: t => String d h :: t
           end
  end.

Fixpoint split_once (c : ascii) (s : string) : option (string * string) :=
  match s with
  | EmptyString => None
  | String d s' =>
      if Ascii.eqb c d then Some (EmptyString, s')
      else match split_once c s' with
           | Some (a, b) => Some (String d a, b)
           | None => None
           end
  end.

(** [slice.join(",")] of a vector of strings. *)
Fixpoint join (sep : string) (l : list string) : string :=
  match l with
  | [] => EmptyString
  | [s] => s
  | s :: l' => String.append s (String.append sep (join sep l'))
  end.

Definition digit_value (c : ascii) : option Z :=
  let n := Z.of_nat (nat_of_ascii c) in
  if ((48 <=? n) && (n <=? 57))%bool then Some (n - 48) else None.

Fixpoint parse_digits (s : string) (acc : Z) : option Z :=
  match s with
  | EmptyString => Some acc
  | String c s' =>
      match digit_value c with
      | Some d => parse_digits s' (acc * 10 + d)
      | None => None
      end
  end.

(** [str::parse::<u64>]: an optional [+], at least one digit, no overflow. *)
Definition parse_u64 (s : string) : option Z :=
  let digits := match s with String "+" rest => rest | _ => s end in
  if is_empty digits then None
  else match parse_digits digits 0 with
       | Some n => if n <=? u64_max then Some n else None
       | None => None
       end.

(** Decimal [Display] of an unsigned integer. *)
Definition to_string (n : Z) : string :=
  NilEmpty.string_of_uint (N.to_uint (Z.to_N n)).

(** ** Digits *)

Fixpoint all_digits (s : string) : bool :=
  match s with
  | EmptyString => true
  | String c s' =>
      match digit_value c with Some _ => all_digits s' | None => false end
  end.

Lemma string_of_uint_digits d : all_digits (NilEmpty.string_of_uint d) = true.
Proof. induction d; simpl; auto. Qed.

Lemma to_string_digits n : all_digits (to_string n) = true.
Proof. apply string_of_uint_digits. Qed.

Lemma to_uint_not_nil n : N.to_uint n <> Decimal.Nil.
Proof.
  intros H. pose proof (DecimalN.Unsigned.of_to n) as E. rewrite H in E.
  cbn in E. subst n. discriminate H.
Qed.

Lemma to_string_nonempty n : is_empty (to_string n) = false.
Proof.
  unfold to_string. pose proof (to_uint_not_nil (Z.to_N n)) as H.
  destruct (N.to_uint _); [done|reflexivity..].
Qed.

Ltac eval_digit :=
  match goal with
  | |- context [digit_value ?c] =>
      let v := eval vm_compute in (digit_value c) in change (digit_value c) with v
  end; cbn iota beta.

Lemma to_string_app_nonempty n t : is_empty (String.append (to_string n) t) = false.
Proof. pose proof (to_string_nonempty n). by destruct (to_string n). Qed.

Lemma parse_digits_acc d p :
  parse_digits (NilEmpty.string_of_uint d) (Zpos p) = Some (Zpos (Pos.of_uint_acc d p)).
Proof.
  revert p. induction d; intros p; [done|..];
    cbn [NilEmpty.string_of_uint parse_digits Pos.of_uint_acc]; eval_digit;
    rewrite <- IHd; apply (f_equal (parse_digits _)); lia.
Qed.

Lemma parse_digits_uint d :
  parse_digits (NilEmpty.string_of_uint d) 0 = Some (Z.of_N (N.of_uint d)).
Proof.
  unfold N.of_uint.
  induction d; [done|..]; cbn [NilEmpty.string_of_uint parse_digits Pos.of_uint]; eval_digit;
    [done|..]; cbn [Z.add Z.mul Z.of_N]; apply parse_digits_acc.
Qed.

Lemma all_digits_plus s : all_digits s = true ->
  match s with String "+" rest => rest | _ => s end = s.
Proof.
  destruct s as [|c s]; [done|]. simpl.
  destruct c as [[] [] [] [] [] [] [] []]; done.
Qed.

(** The decimal round trip: what the reports print, the parsers read back. *)
Lemma parse_to_string n : is_u64 n -> parse_u64 (to_string n) = Some n.
Proof.
  intros Hn. unfold parse_u64.
  rewrite all_digits_plus by apply to_string_digits.
  rewrite to_string_nonempty. unfold to_string.
  rewrite parse_digits_uint, DecimalN.Unsigned.of_to.
  rewrite Z2N.id by sat_lia.
  destruct (Z.leb_spec n u64_max); [done|sat_lia].
Qed.

Lemma parse_digits_nonneg s acc n : 0 <= acc -> parse_digits s acc = Some n -> 0 <= n.
Proof.
  revert acc. induction s as [|c s IH]; simpl; intros acc Ha H; [by simplify_eq|].
  destruct (digit_value c) as [d|] eqn:E; [|done]. eapply IH; [|done].
  unfold digit_value in E. case_match; [|done]. zbool. simplify_eq. lia.
Qed.

Lemma parse_u64_range s n : parse_u64 s = Some n -> is_u64 n.
Proof.
  unfold parse_u64. set (d := match s with String "+" rest => rest | _ => s end).
  intros H. destruct (is_empty d); [done|]. destruct (parse_digits d 0) eqn:E; [|done].
  apply parse_digits_nonneg in E; [|lia]. case_ifs. sat_lia.
Qed.

(** ** Trimming and splitting texts assembled from digits *)

Lemma digit_not_whitespace c d : digit_value c = Some d -> is_whitespace c = false.
Proof.
  unfold digit_value, is_whitespace. intros H. case_match; [|done]. zbool.
  destruct (_ && _)%bool eqn:E1; zbool; simpl; [lia|]. apply Z.eqb_neq. lia.
Qed.

Lemma trim_end_digits s : all_digits s = true -> trim_end s = s.
Proof.
  induction s as [|c s IH]; simpl; [done|]. intros H.
  destruct (digit_value c) eqn:E; [|done]. rewrite IH by done.
  rewrite (digit_not_whitespace _ _ E). by destruct s.
Qed.

Lemma trim_digits s : all_digits s = true -> trim s = s.
Proof.
  intros H. unfold trim. destruct s as [|c s]; [done|].
  simpl trim_start. simpl in H. destruct (digit_value c) eqn:E; [|done].
  rewrite (digit_not_whitespace _ _ E). apply trim_end_digits. simpl. by rewrite E.
Qed.

Lemma trim_to_string n : trim (to_string n) = to_string n.
Proof. apply trim_digits, to_string_digits. Qed.

Lemma contains_digits c s :
  digit_value c = None -> all_digits s = true -> contains c s = false.
Proof.
  intros Hc. induction s as [|d s IH]; simpl; [done|]. intros H.
  destruct (digit_value d) eqn:E; [|done]. rewrite IH by done.
  destruct (Ascii.eqb_spec c d); [congruence|done].
Qed.

Lemma contains_app c s t :
  contains c (String.append s t) = (contains c s || contains c t)%bool.
Proof. induction s as [|d s IH]; simpl; [done|]. by rewrite IH, orb_assoc. Qed.

Lemma split_none c s : contains c s = false -> split c s = [s].
Proof.
  induction s as [|d s IH]; simpl; [done|]. intros H. zbool.
  rewrite H, IH by done. done.
Qed.

Lemma split_app c s t : contains c s = false ->
  split c (String.append s (String c t)) = s :: split c t.
Proof.
  induction s as [|d s IH]; simpl.
  - by rewrite Ascii.eqb_refl.
  - intros H. zbool. rewrite H, IH by done. done.
Qed.

Lemma split_once_app c s t : contains c s = false ->
  split_once c (String.append s (String c t)) = Some (s, t).
Proof.
  induction s as [|d s IH]; simpl.
  - by rewrite Ascii.eqb_refl.
  - intros H. zbool. by rewrite H, IH.
Qed.

Lemma trim_end_app s t :
  is_empty (trim_end t) = false -> trim_end (String.append s t) = String.append s (trim_end t).
Proof.
  intros Ht. induction s as [|c s IH]; simpl; [done|].
  rewrite IH. destruct s; simpl; [|done]. by destruct (trim_end t).
Qed.

(** A text that starts and ends with a digit is its own trim. *)
Lemma trim_between a b sep :
  all_digits a = true -> is_empty a = false -> all_digits b = true -> is_empty b = false ->
  trim (String.append a (String sep b)) = String.append a (String sep b).
Proof.
  intros Ha Hae Hb Hbe. unfold trim.
  assert (E : trim_start (String.append a (String sep b)) = String.append a (String sep b)).
  { destruct a as [|c a]; [done|]. simpl in *. destruct (digit_value c) eqn:Ec; [|done].
    by rewrite (digit_not_whitespace _ _ Ec). }
  rewrite E, trim_end_app; simpl; rewrite trim_end_digits by done; destruct b; done.
Qed.

#[export] Hint Resolve to_string_digits to_string_nonempty : superbank.
#[export] Hint Rewrite trim_to_string to_string_nonempty : superbank.
