(* ===== verification/Report.v ===== *)
(** * Report: findings, slot statuses, run counters and the exit-code contract

    Models [crates/superbank-verify/src/report.rs].  [Finding] carries the text
    the JSONL report prints; [RunCounters] is the state the runner accumulates and
    the checkpoint persists; [exit_code] is the process' contract with its caller.
    Base-58 printing of hashes is the [bs58] package: a parameter ([Base58]). *)

From Stdlib Require Import Ascii String.
From S2P Require Import Prelude Text.

Open Scope string_scope.
Open Scope list_scope.
Open Scope Z_scope.

(** The [bs58] package's [encode(bytes).into_string()]. *)
Class Base58 := b58 : list Z -> string.

Inductive FindingClass := Fail_ | Unverifiable_ | Warn_.

Inductive FindingCode :=
| EntryHashMismatch
| BlockhashMismatch
| GenesisHashMismatch
| ChainBreak
| ParentSlotMismatch
| EntryCountMismatch
| EntryIndexGap
| TickCountMismatch
| TrailingEntry
| TickHashCountMismatch
| TxIndexMismatch
| DuplicateConflict
| AnchorMismatch
| NumHashesOutOfRange
| MissingEntries
| MissingTransactions
| MissingParent
| MissingBlock
| AnchorNotChecked
| ZeroNumHashesEntry.

#[export] Instance FindingClass_eq_dec : EqDecision FindingClass.
Proof. solve_decision. Defined.
#[export] Instance FindingCode_eq_dec : EqDecision FindingCode.
Proof. solve_decision. Defined.

(** [FindingCode::class] *)
Definition FindingCode_class (c : FindingCode) : FindingClass :=
  match c with
  | EntryHashMismatch | BlockhashMismatch | GenesisHashMismatch | ChainBreak
  | ParentSlotMismatch | EntryCountMismatch | EntryIndexGap | TickCountMismatch
  | TrailingEntry | TickHashCountMismatch | TxIndexMismatch | DuplicateConflict
  | AnchorMismatch | NumHashesOutOfRange => Fail_
  | MissingEntries | MissingTransactions | MissingParent | MissingBlock
  | AnchorNotChecked => Unverifiable_
  | ZeroNumHashesEntry => Warn_
  end.

(** [FindingCode::as_str] *)
Definition FindingCode_as_str (c : FindingCode) : string :=
  match c with
  | EntryHashMismatch => "entry_hash_mismatch"
  | BlockhashMismatch => "blockhash_mismatch"
  | GenesisHashMismatch => "genesis_hash_mismatch"
  | ChainBreak => "chain_break"
  | ParentSlotMismatch => "parent_slot_mismatch"
  | EntryCountMismatch => "entry_count_mismatch"
  | EntryIndexGap => "entry_index_gap"
  | TickCountMismatch => "tick_count_mismatch"
  | TrailingEntry => "trailing_entry"
  | TickHashCountMismatch => "tick_hash_count_mismatch"
  | TxIndexMismatch => "tx_index_mismatch"
  | DuplicateConflict => "duplicate_conflict"
  | AnchorMismatch => "anchor_mismatch"
  | NumHashesOutOfRange => "num_hashes_out_of_range"
  | MissingEntries => "missing_entries"
  | MissingTransactions => "missing_transactions"
  | MissingParent => "missing_parent"
  | MissingBlock => "missing_block"
  | AnchorNotChecked => "anchor_not_checked"
  | ZeroNumHashesEntry => "zero_num_hashes_entry"
  end.

Record Finding := mkFinding {
  f_slot : Z;
  f_code : FindingCode;
  f_class : FindingClass;
  f_entry_index : option Z;
  f_expected : option string;
  f_actual : option string;
  f_detail : string;
}.

#[export] Instance Finding_eq_dec : EqDecision Finding.
Proof. solve_decision. Defined.

(** [Finding::new] *)
Definition Finding_new (slot : Z) (code : FindingCode) (detail : string) : Finding :=
  mkFinding slot code (FindingCode_class code) None None None detail.

(** [Finding::with_entry_index] *)
Definition with_entry_index (i : Z) (f : Finding) : Finding :=
  mkFinding (f_slot f) (f_code f) (f_class f) (Some i) (f_expected f) (f_actual f) (f_detail f).

(** [Finding::with_expected_actual] *)
Definition with_expected_actual (e a : string) (f : Finding) : Finding :=
  mkFinding (f_slot f) (f_code f) (f_class f) (f_entry_index f) (Some e) (Some a) (f_detail f).

Inductive SlotStatus := SlotOk | SlotFailed | SlotUnverifiable | SlotSkipped | SlotMissing.

#[export] Instance SlotStatus_eq_dec : EqDecision SlotStatus.
Proof. solve_decision. Defined.

(** [SlotStatus::as_str] *)
Definition SlotStatus_as_str (s : SlotStatus) : string :=
  match s with
  | SlotOk => "ok"
  | SlotFailed => "failed"
  | SlotUnverifiable => "unverifiable"
  | SlotSkipped => "skipped"
  | SlotMissing => "missing"
  end.

Record RunCounters := mkCounters {
  slots_ok : Z;
  slots_failed : Z;
  slots_unverifiable : Z;
  slots_skipped : Z;
  slots_missing : Z;
  orphan_failures : Z;
  anchors_unchecked : Z;
  entries_verified : Z;
  hashes_computed : Z;
  findings_by_code : gmap string Z;
}.

(** [RunCounters::default] *)
Definition RunCounters_default : RunCounters := mkCounters 0 0 0 0 0 0 0 0 0 ∅.

(** [RunCounters::record_slot] *)
Definition record_slot (s : SlotStatus) (c : RunCounters) : RunCounters :=
  let '(mkCounters a b u k m o n e h fs) := c in
  match s with
  | SlotOk => mkCounters (a + 1) b u k m o n e h fs
  | SlotFailed => mkCounters a (b + 1) u k m o n e h fs
  | SlotUnverifiable => mkCounters a b (u + 1) k m o n e h fs
  | SlotSkipped => mkCounters a b u (k + 1) m o n e h fs
  | SlotMissing => mkCounters a b u k (m + 1) o n e h fs
  end.

(** [RunCounters::record_finding] *)
Definition record_finding (code : FindingCode) (c : RunCounters) : RunCounters :=
  let '(mkCounters a b u k m o n e h fs) := c in
  let key := FindingCode_as_str code in
  mkCounters a b u k m o n e h (<[ key := default 0 (fs !! key) + 1 ]> fs).

(** [counters.<field> += n], as the runner writes them. *)
Definition add_skipped (d : Z) (c : RunCounters) : RunCounters :=
  let '(mkCounters a b u k m o n e h fs) := c in mkCounters a b u (k + d) m o n e h fs.
Definition add_missing (d : Z) (c : RunCounters) : RunCounters :=
  let '(mkCounters a b u k m o n e h fs) := c in mkCounters a b u k (m + d) o n e h fs.
Definition add_orphan_failure (c : RunCounters) : RunCounters :=
  let '(mkCounters a b u k m o n e h fs) := c in mkCounters a b u k m (o + 1) n e h fs.
Definition add_anchor_unchecked (c : RunCounters) : RunCounters :=
  let '(mkCounters a b u k m o n e h fs) := c in mkCounters a b u k m o (n + 1) e h fs.
Definition add_verified (de dh : Z) (c : RunCounters) : RunCounters :=
  let '(mkCounters a b u k m o n e h fs) := c in mkCounters a b u k m o n (e + de) (h + dh) fs.

(** [RunCounters::has_failures], [has_unverifiable], [failure_count] *)
Definition has_failures (c : RunCounters) : bool :=
  ((0 <? slots_failed c) || (0 <? orphan_failures c))%bool.
Definition has_unverifiable (c : RunCounters) : bool :=
  ((0 <? slots_unverifiable c) || (0 <? slots_missing c) || (0 <? anchors_unchecked c))%bool.
Definition failure_count (c : RunCounters) : Z := slots_failed c + orphan_failures c.

Definition EXIT_OK : Z := 0.
Definition EXIT_OPERATIONAL_ERROR : Z := 1.
Definition EXIT_VERIFICATION_FAILED : Z := 2.
Definition EXIT_UNVERIFIABLE : Z := 3.

(** [exit_code] *)
Definition exit_code (c : RunCounters) (allow_unverifiable : bool) : Z :=
  if has_failures c then EXIT_VERIFICATION_FAILED
  else if (has_unverifiable c && negb allow_unverifiable)%bool then EXIT_UNVERIFIABLE
  else EXIT_OK.

(** The JSONL report file: no writer when no path was given; otherwise the
    findings written so far, one per line.  [ReportWriter::new] opens the file
    for appending on a resumed run and truncates it otherwise. *)
Definition ReportWriter := option (list Finding).

Definition ReportWriter_new (existing : option (list Finding)) (append : bool) : ReportWriter :=
  match existing with
  | Some lines => Some (if append then lines else [])
  | None => None
  end.

Definition write_finding (f : Finding) (w : ReportWriter) : ReportWriter :=
  match w with
  | Some lines => Some (lines ++ [f])
  | None => None
  end.

(** ** Well-formed findings *)

(** A finding's class is the class of its code: the constructors establish it,
    the builders keep it. *)
Definition finding_ok (f : Finding) : Prop := f_class f = FindingCode_class (f_code f).

Lemma finding_new_ok s c d : finding_ok (Finding_new s c d).
Proof. reflexivity. Qed.
Lemma with_entry_index_ok i f : finding_ok f -> finding_ok (with_entry_index i f).
Proof. done. Qed.
Lemma with_expected_actual_ok e a f : finding_ok f -> finding_ok (with_expected_actual e a f).
Proof. done. Qed.

#[export] Hint Resolve finding_new_ok with_entry_index_ok with_expected_actual_ok : superbank.

Definition is_fail (f : Finding) : bool := bool_decide (f_class f = Fail_).
Definition is_unverifiable (f : Finding) : bool := bool_decide (f_class f = Unverifiable_).

(** A finding that says the data contradicts the chain or leaves it unproven. *)
Definition hard (f : Finding) : bool := (is_fail f || is_unverifiable f)%bool.
Definition clean (fs : list Finding) : Prop := List.filter hard fs = [].

Lemma clean_app fs gs : clean (fs ++ gs) <-> clean fs /\ clean gs.
Proof. unfold clean. rewrite List.filter_app, app_nil. done. Qed.

Lemma clean_nil : clean [].
Proof. done. Qed.

Lemma clean_snoc fs f : clean (fs ++ [f]) <-> clean fs /\ hard f = false.
Proof. rewrite clean_app. unfold clean at 2. simpl. destruct (hard f); intuition congruence. Qed.

Lemma hard_code f :
  finding_ok f -> FindingCode_class (f_code f) <> Warn_ -> hard f = true.
Proof.
  intros Hok Hc. unfold hard, is_fail, is_unverifiable. rewrite Hok.
  destruct (FindingCode_class (f_code f)); done.
Qed.

(** ** Counters *)

Definition code_count (c : RunCounters) (code : FindingCode) : Z :=
  default 0 (findings_by_code c !! FindingCode_as_str code).

(** The slots a counter record accounts for. *)
Definition slots_accounted (c : RunCounters) : Z :=
  slots_ok c + slots_failed c + slots_unverifiable c + slots_skipped c + slots_missing c.

Lemma as_str_inj c d : FindingCode_as_str c = FindingCode_as_str d -> c = d.
Proof. destruct c, d; intros H; try reflexivity; discriminate H. Qed.

Lemma slots_accounted_record_slot s c : slots_accounted (record_slot s c) = slots_accounted c + 1.
Proof. destruct c, s; unfold slots_accounted; simpl; lia. Qed.

Lemma slots_accounted_record_finding f c :
  slots_accounted (record_finding f c) = slots_accounted c.
Proof. by destruct c. Qed.

Lemma code_count_record c code d :
  code_count (record_finding d c) code = code_count c code + (if decide (d = code) then 1 else 0).
Proof.
  destruct c. unfold code_count. simpl. case_decide as E.
  - subst. by rewrite lookup_insert_eq.
  - rewrite lookup_insert_ne; [lia|]. intros ?. by apply E, as_str_inj.
Qed.

#[export] Hint Rewrite slots_accounted_record_slot slots_accounted_record_finding : superbank.

(** ** The exit-code contract *)

Definition counters_nonneg (c : RunCounters) : Prop :=
  0 <= slots_ok c /\ 0 <= slots_failed c /\ 0 <= slots_unverifiable c /\ 0 <= slots_skipped c /\
  0 <= slots_missing c /\ 0 <= orphan_failures c /\ 0 <= anchors_unchecked c.

(** Exit 0 without [--allow-unverifiable] means that nothing failed and nothing
    was left unproven; exit 2 means exactly that something failed; exit 3 never
    hides a failure. *)
Lemma exit_code_cases c :
  counters_nonneg c ->
  (exit_code c false = EXIT_OK <->
     slots_failed c = 0 /\ orphan_failures c = 0 /\
     slots_unverifiable c = 0 /\ slots_missing c = 0 /\ anchors_unchecked c = 0) /\
  (forall allow, exit_code c allow = EXIT_VERIFICATION_FAILED <-> 0 < failure_count c) /\
  (forall allow, exit_code c allow = EXIT_UNVERIFIABLE ->
     failure_count c = 0 /\ allow = false) /\
  (forall allow, exit_code c allow <> EXIT_OPERATIONAL_ERROR).
Proof.
  intros (Ho & Hf & Hu & Hk & Hm & Hor & Ha).
  unfold exit_code, has_failures, has_unverifiable, failure_count,
    EXIT_OK, EXIT_VERIFICATION_FAILED, EXIT_UNVERIFIABLE, EXIT_OPERATIONAL_ERROR.
  destruct (Z.ltb_spec 0 (slots_failed c)), (Z.ltb_spec 0 (orphan_failures c)),
    (Z.ltb_spec 0 (slots_unverifiable c)), (Z.ltb_spec 0 (slots_missing c)),
    (Z.ltb_spec 0 (anchors_unchecked c)); simpl; (split; [|split; [|split]]);
    try intros []; simpl; intuition lia.
Qed.

(** The process exit code is a faithful verdict: without
    [--allow-unverifiable], 0 means nothing failed, nothing was unverifiable, nothing
    was missing and no anchor was left unchecked; 2 means exactly that something
    failed; 3 never hides a failure; and the verdict is never the operational error. *)
Theorem exit_code_contract c :
  counters_nonneg c ->
  (exit_code c false = EXIT_OK <->
     slots_failed c = 0 /\ orphan_failures c = 0 /\
     slots_unverifiable c = 0 /\ slots_missing c = 0 /\ anchors_unchecked c = 0) /\
  (forall allow, exit_code c allow = EXIT_VERIFICATION_FAILED <-> 0 < failure_count c) /\
  (forall allow, exit_code c allow = EXIT_UNVERIFIABLE ->
     failure_count c = 0 /\ allow = false) /\
  (forall allow, exit_code c allow <> EXIT_OPERATIONAL_ERROR).
Proof. apply exit_code_cases. Qed.
