(* ===== verification/Poh.v ===== *)
(** * Poh: the Proof-of-History hash and the signature Merkle root

    Models [crates/superbank-verify/src/verify/poh.rs].  SHA-256 is the [sha2]
    package: a parameter ([Sha256]); [Sha256::new] followed by a sequence of
    [update]s and [finalize] hashes the concatenation of the updates.  Hashes and
    signatures are byte strings (lists of [Z]). *)

From S2P Require Import Prelude.
From Equations Require Import Equations.

Open Scope Z_scope.

(** The digest of a byte string. *)
Class Sha256 := sha256 : list Z -> list Z.

Abbreviation Hash32 := (list Z) (only parsing).
Abbreviation Signature64 := (list Z) (only parsing).

Definition MERKLE_LEAF_PREFIX : list Z := [0].
Definition MERKLE_INTERMEDIATE_PREFIX : list Z := [1].

Section Poh.
Context `{Sha256}.

Definition sha256_chain (hash : Hash32) : Hash32 := sha256 hash.
Definition sha256_mixin (hash mixin : Hash32) : Hash32 := sha256 (hash ++ mixin).

(** [next_hash]: the loop [for _ in 1..num_hashes] runs [num_hashes - 1] times,
    and not at all when [num_hashes] is 0. *)
Definition next_hash (start : Hash32) (num_hashes : Z) (mixin : option Hash32) : Hash32 :=
  match mixin with
  | None =>
      if num_hashes =? 0 then start
      else sha256_chain (times (num_hashes - 1) sha256_chain start)
  | Some m => sha256_mixin (times (num_hashes - 1) sha256_chain start) m
  end.

Definition merkle_leaf (signature : Signature64) : Hash32 :=
  sha256 (MERKLE_LEAF_PREFIX ++ signature).
Definition merkle_node (l0 r0 : Hash32) : Hash32 :=
  sha256 (MERKLE_INTERMEDIATE_PREFIX ++ l0 ++ r0).

(** One turn of the [while level.len() > 1] loop: [level.chunks(2)], where an odd
    last chunk pairs its element with itself. *)
Fixpoint merkle_level (level : list Hash32) : list Hash32 :=
  match level with
  | [] => []
  | [l0] => [merkle_node l0 l0]
  | l0 :: r0 :: rest => merkle_node l0 r0 :: merkle_level rest
  end.

Lemma merkle_level_ind (P : list Hash32 -> Prop) :
  P [] -> (forall a, P [a]) -> (forall a b l, P l -> P (a :: b :: l)) -> forall l, P l.
Proof.
  intros H0 H1 H2 l.
  enough (P l /\ forall a, P (a :: l)) by tauto.
  induction l as [|b l [IH IH']]; split; auto.
Qed.

Lemma length_merkle_level l : length (merkle_level l) = Nat.div2 (S (length l)).
Proof. induction l using merkle_level_ind; simpl in *; auto. Qed.

Lemma merkle_level_shorter a b l :
  (length (merkle_level (a :: b :: l)) < length (a :: b :: l))%nat.
Proof.
  rewrite length_merkle_level. simpl length.
  change (Nat.div2 (S (S (S (length l))))) with (S (Nat.div2 (S (length l)))).
  pose proof (Nat.lt_div2 (S (length l))). lia.
Qed.

Equations? merkle_loop (level : list Hash32) : list Hash32 by wf (length level) lt :=
  merkle_loop (l0 :: r0 :: rest) := merkle_loop (merkle_level (l0 :: r0 :: rest));
  merkle_loop [top] := [top];
  merkle_loop [] := [].
Proof. pose proof (merkle_level_shorter l0 r0 rest). simpl in *. lia. Qed.

(** [signature_merkle_root]; the final [level[0]] is in range because the loop
    ends with one node ([merkle_loop_singleton]). *)
Definition signature_merkle_root (signatures : list Signature64) : Hash32 :=
  match signatures with
  | [] => replicate 32 0
  | _ => hd [] (merkle_loop (map merkle_leaf signatures))
  end.

(** ** The hash chain *)

Lemma next_hash_tick start n :
  1 <= n -> next_hash start n None = times n sha256_chain start.
Proof.
  intros. unfold next_hash. destruct (Z.eqb_spec n 0); [lia|].
  replace n with (n - 1 + 1) at 2 by lia. by rewrite times_S by lia.
Qed.

(** A chain of ticks followed by an entry is the same chain recorded as one
    longer entry: how the entries of a slot are cut does not matter. *)
Lemma next_hash_compose start m n mixin :
  1 <= m -> 1 <= n ->
  next_hash (next_hash start m None) n mixin = next_hash start (m + n) mixin.
Proof.
  intros Hm Hn. rewrite next_hash_tick by done.
  destruct mixin as [x|].
  - unfold next_hash. rewrite <- times_add by lia. do 2 f_equal. lia.
  - rewrite !next_hash_tick by lia. rewrite <- times_add by lia. f_equal. lia.
Qed.

(** ** The Merkle root *)

Lemma merkle_loop_singleton l : l <> [] -> exists top, merkle_loop l = [top].
Proof.
  remember (length l) as n eqn:E. revert l E.
  induction n as [n IH] using lt_wf_ind. intros l -> Hl.
  destruct l as [|a [|b l]]; [done|..]; simp merkle_loop; [eauto|].
  eapply IH; [apply merkle_level_shorter|done|]. simpl. done.
Qed.

(** The reference definition: a binary tree of height [h] over the leaves, split
    at the largest power of two; a missing right subtree repeats the left one. *)
Fixpoint tree_root (h : nat) (leaves : list Hash32) : Hash32 :=
  match h with
  | O => hd [] leaves
  | S h' =>
      let l0 := tree_root h' (take (2 ^ h') leaves) in
      match drop (2 ^ h') leaves with
      | [] => merkle_node l0 l0
      | rest => merkle_node l0 (tree_root h' rest)
      end
  end.

Lemma merkle_level_take k l : merkle_level (take (2 * k) l) = take k (merkle_level l).
Proof.
  revert l. induction k as [|k IH]; intros l; [by rewrite !take_0|].
  replace (2 * S k)%nat with (S (S (2 * k))) by lia.
  destruct l as [|a [|b l]]; simpl in *; [done| |].
  - by destruct k.
  - f_equal. apply IH.
Qed.

Lemma merkle_level_drop k l : merkle_level (drop (2 * k) l) = drop k (merkle_level l).
Proof.
  revert l. induction k as [|k IH]; intros l; [by rewrite !drop_0|].
  replace (2 * S k)%nat with (S (S (2 * k))) by lia.
  destruct l as [|a [|b l]]; simpl in *; [done| |].
  - by rewrite !drop_nil.
  - apply IH.
Qed.

Lemma merkle_level_nil l : merkle_level l = [] <-> l = [].
Proof. by destruct l as [|a [|b l]]. Qed.

(** Climbing one level leaves the root of the tree one level lower. *)
Lemma tree_root_level h l :
  l <> [] -> (length l <= 2 ^ S h)%nat ->
  tree_root (S h) l = tree_root h (merkle_level l).
Proof.
  revert l. induction h as [|h IH]; intros l Hl Hlen.
  - destruct l as [|a [|b [|c l]]]; simpl in *; [done|done|done|lia].
  - set (P := (2 ^ S h)%nat). set (Q := (2 ^ h)%nat).
    assert (EP : P = (2 * Q)%nat) by (unfold P, Q; simpl; lia).
    assert (HQ : (1 <= Q)%nat) by (unfold Q; pose proof (Nat.pow_nonzero 2 h); lia).
    assert (Hlen' : (length l <= 2 * P)%nat) by (unfold P; simpl in *; lia).
    change (tree_root (S (S h)) l) with
      (match drop P l with
       | [] => merkle_node (tree_root (S h) (take P l)) (tree_root (S h) (take P l))
       | rest => merkle_node (tree_root (S h) (take P l)) (tree_root (S h) rest)
       end).
    change (tree_root (S h) (merkle_level l)) with
      (match drop Q (merkle_level l) with
       | [] => merkle_node (tree_root h (take Q (merkle_level l)))
                 (tree_root h (take Q (merkle_level l)))
       | rest => merkle_node (tree_root h (take Q (merkle_level l))) (tree_root h rest)
       end).
    assert (Ht : take P l <> []).
    { intros E. apply (f_equal length) in E. rewrite length_take in E.
      destruct l; [done|]. simpl in E. lia. }
    rewrite (IH (take P l)); [|done|rewrite length_take; unfold P; lia].
    rewrite EP, merkle_level_take, <- merkle_level_drop.
    destruct (drop (2 * Q) l) as [|x r] eqn:Ed; [done|].
    rewrite IH; [|done|].
    + destruct (merkle_level (x :: r)) eqn:Em; [by apply (proj1 (merkle_level_nil _)) in Em|done].
    + rewrite <- Ed, length_drop. simpl in *. unfold P in *. lia.
Qed.

Lemma merkle_loop_tree h l :
  l <> [] -> (length l <= 2 ^ h)%nat -> (2 ^ h < 2 * length l)%nat ->
  merkle_loop l = [tree_root h l].
Proof.
  revert l. induction h as [|h IH]; intros l Hl Hle Hlt.
  - destruct l as [|a [|b l]]; simpl in *; [done|done|lia].
  - destruct l as [|a [|b l]]; [done| |].
    + simpl in *. pose proof (Nat.pow_nonzero 2 h). lia.
    + simp merkle_loop. rewrite (tree_root_level h) by done.
      set (k := a :: b :: l) in *.
      assert (El : length (merkle_level k) = Nat.div2 (S (length k))) by apply length_merkle_level.
      pose proof (Nat.div2_odd (S (length k))) as Eo.
      assert (Nat.b2n (Nat.odd (S (length k))) <= 1)%nat by (destruct (Nat.odd _); simpl; lia).
      simpl Nat.pow in *. apply IH; [by rewrite merkle_level_nil|lia|lia].
Qed.

(** The number of leaves determines the height: the least [h] with
    [length l <= 2 ^ h]. *)
Lemma merkle_root_tree l :
  l <> [] ->
  signature_merkle_root l = tree_root (Nat.log2_up (length l)) (map merkle_leaf l).
Proof.
  intros Hl. unfold signature_merkle_root. destruct l as [|x l]; [done|].
  rewrite (merkle_loop_tree (Nat.log2_up (length (x :: l)))); [done|done|..];
    rewrite length_map.
  - destruct (Nat.eq_dec (length (x :: l)) 1%nat) as [E|E]; [rewrite E; simpl; lia|].
    apply Nat.log2_up_spec. simpl in *. lia.
  - destruct (Nat.eq_dec (length (x :: l)) 1%nat) as [E|E]; [rewrite E; simpl; lia|].
    pose proof (Nat.log2_up_spec (length (x :: l))) as [H1 _]; [simpl in *; lia|].
    destruct (Nat.log2_up (length (x :: l))) as [|h] eqn:Eh; [simpl; lia|].
    simpl Nat.pred in H1. simpl Nat.pow. lia.
Qed.

(** ** Width *)

Lemma next_hash_width start n mixin :
  (forall m, length (sha256 m) = 32%nat) -> length start = 32%nat ->
  length (next_hash start n mixin) = 32%nat.
Proof. intros Hs H0. unfold next_hash. destruct mixin; [apply Hs|]. case_match; [done|apply Hs]. Qed.

Lemma merkle_root_width l :
  (forall m, length (sha256 m) = 32%nat) -> length (signature_merkle_root l) = 32%nat.
Proof.
  intros Hs. unfold signature_merkle_root. destruct l as [|x l]; [done|].
  set (k := map merkle_leaf (x :: l)).
  assert (Hk : k <> [] /\ Forall (fun h => length h = 32%nat) k).
  { split; [done|]. unfold k. generalize (x :: l). intros q.
    induction q; simpl; constructor; auto; apply Hs. }
  clearbody k. clear x l. destruct Hk as [Hne Hf].
  enough (Forall (fun h => length h = 32%nat) (merkle_loop k)) as HF.
  { destruct (merkle_loop_singleton k Hne) as [t Et]. rewrite Et in *. by inversion HF. }
  clear Hne. remember (length k) as n eqn:E. revert k E Hf.
  induction n as [n IH] using lt_wf_ind. intros k -> Hf.
  destruct k as [|a [|b k]]; simp merkle_loop.
  eapply IH; [apply merkle_level_shorter|done|].
  generalize (a :: b :: k). intros q. induction q using merkle_level_ind; simpl;
    repeat constructor; auto; apply Hs.
Qed.

(** ** Properties *)

(** hashing [m] times and then hashing [n] times, mixing in at the end, is
    hashing [m + n] times in one go: the number of entries a stretch of the hash
    chain is cut into does not change the chain. *)
Theorem next_hash_composes start m n mixin :
  1 <= m -> 1 <= n ->
  next_hash (next_hash start m None) n mixin = next_hash start (m + n) mixin.
Proof. apply next_hash_compose. Qed.

(** The iterative level-by-level routine computes the root of the balanced
    binary tree over the signature leaves in which a missing right subtree repeats
    the left one, for any number of signatures. *)
Theorem merkle_root_is_tree l :
  l <> [] ->
  signature_merkle_root l = tree_root (Nat.log2_up (length l)) (map merkle_leaf l).
Proof. apply merkle_root_tree. Qed.

End Poh.

#[export] Hint Resolve next_hash_width merkle_root_width : superbank.
