(* ===== verification/Structural.v ===== *)
(** * Structural: the Proof-of-History invariants that need no hashing

    Models [BlockInfo] and [EntryInfo] of
    [crates/superbank-verify/src/verify/mod.rs] and all of
    [crates/superbank-verify/src/verify/structural.rs].  A function that pushes on
    a [&mut Vec<Finding>] returns the findings it pushes, in order; the caller
    appends them.

    [structure_ok] states what a well-formed block is, without reference to the
    loops of the code, and [check_structure_exact] shows that the checker reports
    nothing exactly on the well-formed blocks. *)

From Stdlib Require Import Ascii String.
From S2P Require Import Prelude Text Report.

Open Scope string_scope.
Open Scope list_scope.
Open Scope Z_scope.

Record BlockInfo := mkBlockInfo {
  b_slot : Z;
  parent_slot : Z;
  blockhash : list Z;
  parent_blockhash : list Z;
  executed_transaction_count : Z;
  entry_count : Z;
}.

Record EntryInfo := mkEntryInfo {
  entry_index : Z;
  num_hashes : Z;
  e_hash : list Z;
  starting_transaction_index : Z;
  transaction_count : Z;
}.

(** [expected_tick_count] *)
Definition expected_tick_count (slot parent_slot ticks_per_slot : Z) : Z :=
  if slot =? 0 then ticks_per_slot
  else sat_mul (sat_sub slot parent_slot) ticks_per_slot.

Definition is_tick (e : EntryInfo) : bool := transaction_count e =? 0.

Section Structural.
Context `{Base58}.

(** The first loop of [check_structure_in_era]: the first position whose entry
    index is not the position. *)
Fixpoint check_entry_index (slot position : Z) (entries : list EntryInfo) : option Finding :=
  match entries with
  | [] => None
  | e :: rest =>
      if entry_index e =? as_u32 position then check_entry_index slot (position + 1) rest
      else Some (with_entry_index (entry_index e)
             (Finding_new slot EntryIndexGap
                ("entry_index " +:+ to_string (entry_index e) +:+ " at position " +:+
                 to_string position +:+ "; expected contiguous indices from 0")))
  end.

Definition check_entry_count (block : BlockInfo) (entries : list EntryInfo) : list Finding :=
  if ((0 <? entry_count block) && negb (zlen entries =? entry_count block))%bool then
    [with_expected_actual (to_string (entry_count block)) (to_string (zlen entries))
       (Finding_new (b_slot block) EntryCountMismatch
          "entries row count does not match blocks_metadata.entry_count")]
  else [].

(** [check_ticks] *)
Definition check_ticks (block : BlockInfo) (entries : list EntryInfo)
    (ticks_per_slot : Z) (alpenglow : bool) : list Finding :=
  let slot := b_slot block in
  let tick_count := zlen (List.filter is_tick entries) in
  let expected_ticks :=
    if alpenglow then 1 else expected_tick_count slot (parent_slot block) ticks_per_slot in
  if tick_count =? expected_ticks then []
  else
    let description :=
      if alpenglow then "Alpenglow block must carry exactly one ending Alpentick"
      else "block covers slots " +:+ to_string (sat_add (parent_slot block) 1) +:+ "..=" +:+
           to_string slot +:+ " and must carry " +:+ to_string expected_ticks +:+ " ticks" in
    [with_expected_actual (to_string expected_ticks) (to_string tick_count)
       (Finding_new slot TickCountMismatch description)].

(** [check_last_entry] *)
Definition check_last_entry (block : BlockInfo) (entries : list EntryInfo) : list Finding :=
  let slot := b_slot block in
  match last entries with
  | None => []
  | Some l =>
      (if negb (transaction_count l =? 0) then
         [with_entry_index (entry_index l)
            (Finding_new slot TrailingEntry "last entry of a block must be a tick")]
       else []) ++
      (if bool_decide (e_hash l <> blockhash block) then
         [with_expected_actual (b58 (blockhash block)) (b58 (e_hash l))
            (with_entry_index (entry_index l)
               (Finding_new slot BlockhashMismatch
                  "last entry hash does not match recorded blockhash"))]
       else [])
  end.

(** The historical branch of [check_hash_counts]: hashes accumulate over the
    entries and every tick must close exactly [hashes_per_tick]; the loop stops at
    the first tick that does not. *)
Fixpoint check_tick_hashes (slot hashes_per_tick tick_hash_count : Z)
    (entries : list EntryInfo) : list Finding :=
  match entries with
  | [] => []
  | e :: rest =>
      let count := sat_add tick_hash_count (num_hashes e) in
      if is_tick e then
        if ((num_hashes e =? 0) || negb (count =? hashes_per_tick))%bool then
          [with_expected_actual (to_string hashes_per_tick) (to_string count)
             (with_entry_index (entry_index e)
                (Finding_new slot TickHashCountMismatch
                   "hashes accumulated since the previous tick must equal hashes_per_tick"))]
        else check_tick_hashes slot hashes_per_tick 0 rest
      else check_tick_hashes slot hashes_per_tick count rest
  end.

(** [check_hash_counts] *)
Definition check_hash_counts (block : BlockInfo) (entries : list EntryInfo)
    (hashes_per_tick : option Z) (alpenglow : bool) : list Finding :=
  let slot := b_slot block in
  if alpenglow then
    match List.find (fun e => negb (num_hashes e =? 1)) entries with
    | Some e =>
        [with_expected_actual "1" (to_string (num_hashes e))
           (with_entry_index (entry_index e)
              (Finding_new slot TickHashCountMismatch
                 "Alpenglow low power entry must have num_hashes = 1"))]
    | None => []
    end
  else
    match hashes_per_tick with
    | Some h => if 0 <? h then check_tick_hashes slot h 0 entries else []
    | None => []
    end.

(** [check_transaction_ranges]: the loop over the entries, then the total. *)
Fixpoint check_tx_tiling (slot expected_next : Z) (entries : list EntryInfo) :
    result Z Finding :=
  match entries with
  | [] => Ok expected_next
  | e :: rest =>
      if negb (starting_transaction_index e =? expected_next) then
        Err (with_expected_actual (to_string expected_next)
               (to_string (starting_transaction_index e))
               (with_entry_index (entry_index e)
                  (Finding_new slot TxIndexMismatch
                     "entry starting_transaction_index does not continue the previous entry's range")))
      else check_tx_tiling slot (sat_add32 expected_next (transaction_count e)) rest
  end.

Definition check_transaction_ranges (block : BlockInfo) (entries : list EntryInfo) :
    list Finding :=
  let slot := b_slot block in
  match check_tx_tiling slot 0 entries with
  | Err f => [f]
  | Ok expected_next =>
      if negb (expected_next =? executed_transaction_count block) then
        [with_expected_actual (to_string (executed_transaction_count block))
           (to_string expected_next)
           (Finding_new slot TxIndexMismatch
              "entry transaction ranges do not sum to executed_transaction_count")]
      else []
  end.

(** [check_structure_in_era] *)
Definition check_structure_in_era (block : BlockInfo) (entries : list EntryInfo)
    (ticks_per_slot : Z) (hashes_per_tick : option Z) (alpenglow : bool) : list Finding :=
  let index_gap := check_entry_index (b_slot block) 0 entries in
  let findings := option_list index_gap ++ check_entry_count block entries in
  match index_gap with
  | Some _ => findings
  | None =>
      findings ++
      check_ticks block entries ticks_per_slot alpenglow ++
      check_last_entry block entries ++
      check_hash_counts block entries hashes_per_tick alpenglow ++
      check_transaction_ranges block entries
  end.

(** ** What a well-formed block is *)

(** Every tick closes a run of entries, the entries since the previous tick,
    whose hashes add up to [h], and does some hashing itself. *)
Definition ticks_paced (h : Z) (entries : list EntryInfo) : Prop :=
  forall pre run t post,
    entries = pre ++ run ++ t :: post ->
    (pre = [] \/ exists p q, pre = p ++ [q] /\ is_tick q = true) ->
    Forall (fun e => is_tick e = false) run ->
    is_tick t = true ->
    num_hashes t <> 0 /\ zsum num_hashes run + num_hashes t = h.

(** Entry transaction ranges tile [0, total). *)
Definition ranges_tile (total : Z) (entries : list EntryInfo) : Prop :=
  (forall pre e post, entries = pre ++ e :: post ->
     starting_transaction_index e = zsum transaction_count pre) /\
  zsum transaction_count entries = total.

Record structure_ok (block : BlockInfo) (entries : list EntryInfo)
    (ticks_per_slot : Z) (hashes_per_tick : option Z) (alpenglow : bool) : Prop := {
  so_indices : forall i e, entries !! i = Some e -> entry_index e = Z.of_nat i;
  so_count : entry_count block = 0 \/ entry_count block = zlen entries;
  so_ticks : zlen (List.filter is_tick entries) =
    if alpenglow then 1
    else expected_tick_count (b_slot block) (parent_slot block) ticks_per_slot;
  so_last : forall pre l, entries = pre ++ [l] ->
    is_tick l = true /\ e_hash l = blockhash block;
  so_pace : if alpenglow then Forall (fun e => num_hashes e = 1) entries
            else forall h, hashes_per_tick = Some h -> 0 < h -> ticks_paced h entries;
  so_tiles : ranges_tile (executed_transaction_count block) entries;
}.

(** The rows as the tables type them: widths, and totals the 32-bit transaction
    index can address. *)
Definition entry_typed (e : EntryInfo) : Prop :=
  is_u32 (entry_index e) /\ is_u64 (num_hashes e) /\
  is_u32 (starting_transaction_index e) /\ is_u32 (transaction_count e).

Definition rows_typed (block : BlockInfo) (entries : list EntryInfo)
    (hashes_per_tick : option Z) : Prop :=
  Forall entry_typed entries /\ zlen entries <= u32_max + 1 /\
  0 <= entry_count block /\ executed_transaction_count block < u32_max /\
  (forall h, hashes_per_tick = Some h -> h < u64_max).

(** ** Each check is exact *)

Lemma check_entry_index_exact slot pos entries :
  0 <= pos -> pos + zlen entries <= u32_max + 1 ->
  check_entry_index slot pos entries = None <->
  (forall i e, entries !! i = Some e -> entry_index e = pos + Z.of_nat i).
Proof.
  revert pos. induction entries as [|e l IH]; intros pos Hp Hl; simpl; [done|].
  rewrite zlen_cons in Hl. pose proof (zlen_nonneg l).
  assert (Ea : as_u32 pos = pos) by (unfold as_u32; apply Z.mod_small; lia).
  rewrite Ea. destruct (Z.eqb_spec (entry_index e) pos) as [E|E].
  - rewrite IH by lia. split.
    + intros HI [|i] x Hx; simplify_eq/=; [lia|]. rewrite (HI i x Hx). lia.
    + intros HI i x Hx. rewrite (HI (S i) x Hx). lia.
  - split; [done|]. intros HI. specialize (HI 0%nat e eq_refl). lia.
Qed.

Lemma check_entry_count_exact block entries :
  0 <= entry_count block ->
  check_entry_count block entries = [] <->
  entry_count block = 0 \/ entry_count block = zlen entries.
Proof.
  intros. unfold check_entry_count.
  destruct (Z.ltb_spec 0 (entry_count block)), (Z.eqb_spec (zlen entries) (entry_count block));
    simpl; split; intros; auto; try done; lia.
Qed.

Lemma check_ticks_exact block entries tps alp :
  check_ticks block entries tps alp = [] <->
  zlen (List.filter is_tick entries) =
    if alp then 1 else expected_tick_count (b_slot block) (parent_slot block) tps.
Proof. unfold check_ticks. case_match; zbool; split; auto; done. Qed.

Lemma check_last_entry_exact block entries :
  check_last_entry block entries = [] <->
  forall pre l, entries = pre ++ [l] -> is_tick l = true /\ e_hash l = blockhash block.
Proof.
  unfold check_last_entry, is_tick.
  destruct entries as [|l pre _] using rev_ind; simpl.
  - split; [|done]. intros _ pre l E. by destruct pre.
  - rewrite last_snoc. split.
    + intros E pre' l' E'. apply app_inj_tail in E' as [-> ->].
      apply app_nil in E as [E1 E2]. destruct (transaction_count l' =? 0); [|done].
      destruct (bool_decide _) eqn:Eb; [done|]. zbool. split; [done|]. by apply dec_stable.
    + intros HI. destruct (HI pre l eq_refl) as [-> Eh]. simpl.
      by rewrite bool_decide_eq_false_2 by tauto.
Qed.

(** The run that is open after [pre]: the entries since its last tick. *)
Lemma ticks_paced_nil h : ticks_paced h [].
Proof. intros pre run t post E. symmetry in E. by apply app_nil in E as [_ [_ ?]%app_nil]. Qed.

Lemma split_at_tick run t post run' t' post' :
  Forall (fun e => is_tick e = false) run -> Forall (fun e => is_tick e = false) run' ->
  is_tick t = true -> is_tick t' = true ->
  run ++ t :: post = run' ++ t' :: post' -> run = run' /\ t = t' /\ post = post'.
Proof.
  intros Hr. revert run'. induction Hr as [|x run Hx Hr IH]; intros run' Hr' Ht Ht' E.
  - destruct run'; simplify_eq/=; [done|]. inversion Hr'. congruence.
  - destruct run' as [|y run']; simplify_eq/=; [congruence|]. inversion Hr'; subst.
    destruct (IH run') as (-> & -> & ->); done.
Qed.

(** Cutting a stream after its first tick. *)
Lemma ticks_paced_cut h run t post :
  Forall (fun e => is_tick e = false) run -> is_tick t = true ->
  ticks_paced h (run ++ t :: post) <->
  (num_hashes t <> 0 /\ zsum num_hashes run + num_hashes t = h) /\ ticks_paced h post.
Proof.
  intros Hr Ht. split.
  - intros HP. split; [by apply (HP [] run t post); auto|].
    intros pre run' t' post' -> Hpre Hr' Ht'.
    apply (HP (run ++ t :: pre) run' t' post'); [by rewrite <- !app_assoc|right|done|done].
    destruct Hpre as [->|(p & q & -> & Hq)]; [by exists run, t|].
    exists (run ++ t :: p), q. by rewrite <- !app_assoc.
  - intros [H1 HP] pre run' t' post' E Hpre Hr' Ht'.
    destruct Hpre as [->|(p & q & -> & Hq)].
    + apply split_at_tick in E as (-> & -> & ->); auto.
    + assert (exists p', p ++ [q] = run ++ t :: p') as [p' Ep].
      { clear HP H1. revert p E. induction Hr as [|x run Hx Hr IH]; intros p E.
        - destruct p; simplify_eq/=; eauto.
        - destruct p as [|y p]; simplify_eq/=; [congruence|].
          destruct (IH p) as [p' Ep']; [done|]. exists p'. by rewrite Ep'. }
      rewrite Ep in E. rewrite <- app_assoc in E. apply app_inv_head in E. simplify_eq/=.
      apply (HP p' run' t' post'); auto.
      destruct p' as [|a p'' _] using rev_ind; [by left|right].
      exists p'', a. split; [done|]. rewrite app_comm_cons, app_assoc in Ep.
      by apply app_inj_tail in Ep as [_ <-].
Qed.

Lemma ticks_paced_no_tick h run :
  Forall (fun e => is_tick e = false) run -> ticks_paced h run.
Proof.
  intros Hr pre r t post -> _ _ Ht. rewrite !Forall_app, Forall_cons in Hr.
  destruct Hr as (_ & _ & ? & _). congruence.
Qed.

Lemma check_tick_hashes_exact slot h run entries :
  h < u64_max -> Forall entry_typed (run ++ entries) ->
  Forall (fun e => is_tick e = false) run ->
  check_tick_hashes slot h (Z.min u64_max (zsum num_hashes run)) entries = [] <->
  ticks_paced h (run ++ entries).
Proof.
  intros Hh. revert run. induction entries as [|e l IH]; intros run Hty Hr.
  - rewrite app_nil_r. simpl. split; [|done]. intros _. by apply ticks_paced_no_tick.
  - assert (Hnn : 0 <= zsum num_hashes run /\ 0 <= num_hashes e).
    { rewrite Forall_app, Forall_cons in Hty. destruct Hty as (Hrun & He & _).
      split; [|destruct He; sat_lia]. apply zsum_nonneg. intros x Hx.
      rewrite Forall_forall in Hrun. destruct (Hrun x Hx). sat_lia. }
    assert (Es : sat_add (Z.min u64_max (zsum num_hashes run)) (num_hashes e) =
                 Z.min u64_max (zsum num_hashes (run ++ [e]))).
    { rewrite zsum_app. simpl. sat_lia. }
    rewrite cons_middle, app_assoc in Hty.
    cbn [check_tick_hashes]. rewrite Es. destruct (is_tick e) eqn:Et.
    + rewrite ticks_paced_cut by done.
      assert (Er : check_tick_hashes slot h 0 l = [] <-> ticks_paced h l).
      { apply (IH []); [|done]. by apply Forall_app in Hty as [_ ?]. }
      rewrite zsum_app. simpl.
      destruct (Z.eqb_spec (num_hashes e) 0); simpl; [by split; [|tauto]|].
      destruct (Z.eqb_spec (Z.min u64_max (zsum num_hashes run + (num_hashes e + 0))) h); simpl.
      * rewrite Er. split; [|tauto]. intros. split; [split|]; [done|sat_lia|done].
      * split; [done|]. intros [[_ ?] _]. sat_lia.
    + rewrite (IH (run ++ [e])), <- app_assoc; [done|done|].
      apply Forall_app. split; [done|]. by constructor.
Qed.

Lemma check_hash_counts_exact block entries hpt alp :
  Forall entry_typed entries -> (forall h, hpt = Some h -> h < u64_max) ->
  check_hash_counts block entries hpt alp = [] <->
  if alp then Forall (fun e => num_hashes e = 1) entries
  else forall h, hpt = Some h -> 0 < h -> ticks_paced h entries.
Proof.
  intros Hty Hh. unfold check_hash_counts. destruct alp.
  - clear Hty. induction entries as [|e l IH]; simpl; [by repeat constructor|].
    rewrite Forall_cons. destruct (Z.eqb_spec (num_hashes e) 1); simpl; [by rewrite IH; tauto|].
    split; [done|tauto].
  - destruct hpt as [h|]; [|done].
    destruct (Z.ltb_spec 0 h).
    + rewrite (check_tick_hashes_exact (b_slot block) h [] entries); auto.
      split; [by intros ? ? [= <-]|auto].
    + split; [|done]. intros _ ? [= <-]. lia.
Qed.

Lemma check_tx_tiling_ok slot next entries n :
  check_tx_tiling slot next entries = Ok n ->
  Forall entry_typed entries -> 0 <= next -> n < u32_max ->
  n = next + zsum transaction_count entries /\
  forall pre e post, entries = pre ++ e :: post ->
    starting_transaction_index e = next + zsum transaction_count pre.
Proof.
  revert next. induction entries as [|e l IH]; simpl; intros next E Hty Hn Hlt.
  - simplify_eq. split; [lia|]. intros pre e post E. by destruct pre.
  - inversion Hty as [|? ? (_ & _ & _ & He) Hl]; subst.
    destruct (Z.eqb_spec (starting_transaction_index e) next) as [Ee|]; [|done]. simpl in E.
    destruct (IH _ E Hl) as [En HI]; [sat_lia|done|].
    assert (0 <= zsum transaction_count l).
    { apply zsum_nonneg. intros x Hx. rewrite Forall_forall in Hl.
      destruct (Hl x Hx) as (_ & _ & _ & Hc). sat_lia. }
    assert (Esat : sat_add32 next (transaction_count e) = next + transaction_count e) by sat_lia.
    split; [lia|]. intros [|x pre] e' post Ep; simplify_eq/=; [lia|].
    rewrite (HI pre e' post eq_refl), Esat. lia.
Qed.

Lemma check_tx_tiling_complete slot next entries :
  Forall entry_typed entries -> 0 <= next ->
  next + zsum transaction_count entries < u32_max ->
  (forall pre e post, entries = pre ++ e :: post ->
     starting_transaction_index e = next + zsum transaction_count pre) ->
  check_tx_tiling slot next entries = Ok (next + zsum transaction_count entries).
Proof.
  revert next. induction entries as [|e l IH]; simpl; intros next Hty Hn Hlt HI.
  - by rewrite Z.add_0_r.
  - inversion Hty as [|? ? (_ & _ & _ & He) Hl]; subst.
    rewrite (HI [] e l eq_refl). simpl. rewrite Z.add_0_r, Z.eqb_refl. simpl.
    assert (0 <= zsum transaction_count l).
    { apply zsum_nonneg. intros x Hx. rewrite Forall_forall in Hl.
      destruct (Hl x Hx) as (_ & _ & _ & Hc). sat_lia. }
    assert (Esat : sat_add32 next (transaction_count e) = next + transaction_count e) by sat_lia.
    rewrite Esat, IH; [f_equal; lia|done|sat_lia|lia|].
    intros pre e' post ->. rewrite (HI (e :: pre) e' post eq_refl). simpl. lia.
Qed.

Lemma check_transaction_ranges_exact block entries :
  Forall entry_typed entries -> executed_transaction_count block < u32_max ->
  check_transaction_ranges block entries = [] <->
  ranges_tile (executed_transaction_count block) entries.
Proof.
  intros Hty Hx. unfold check_transaction_ranges, ranges_tile. split.
  - destruct (check_tx_tiling _ 0 entries) as [n|] eqn:E; [|done].
    destruct (Z.eqb_spec n (executed_transaction_count block)) as [En|]; [|done]. intros _.
    apply check_tx_tiling_ok in E as [-> HI]; [|done|lia|lia].
    split; [|lia]. intros pre e post Ep. by rewrite (HI pre e post Ep).
  - intros [HI Es]. rewrite check_tx_tiling_complete; [|done|lia|lia|].
    + by rewrite Z.add_0_l, Es, Z.eqb_refl.
    + intros pre e post Ep. by rewrite (HI pre e post Ep).
Qed.

Lemma check_structure_nil block entries tps hpt alp :
  check_structure_in_era block entries tps hpt alp = [] <->
  check_entry_index (b_slot block) 0 entries = None /\
  check_entry_count block entries = [] /\ check_ticks block entries tps alp = [] /\
  check_last_entry block entries = [] /\ check_hash_counts block entries hpt alp = [] /\
  check_transaction_ranges block entries = [].
Proof.
  unfold check_structure_in_era. destruct (check_entry_index _ 0 entries); simpl.
  - split; [done|]. by intros [? _].
  - rewrite !app_nil. tauto.
Qed.

(** The checker reports nothing exactly on the well-formed blocks. *)
Lemma check_structure_iff block entries tps hpt alp :
  rows_typed block entries hpt ->
  check_structure_in_era block entries tps hpt alp = [] <->
  structure_ok block entries tps hpt alp.
Proof.
  intros (Hty & Hlen & Hec & Htx & Hh). rewrite check_structure_nil.
  rewrite check_entry_index_exact by lia.
  rewrite check_entry_count_exact by done.
  rewrite check_ticks_exact, check_last_entry_exact.
  rewrite check_hash_counts_exact, check_transaction_ranges_exact by done.
  split.
  - intros (? & ? & ? & ? & ? & ?). by constructor.
  - intros [? ? ? ? ? ?]. tauto.
Qed.

(** ** Every finding is well-formed and about the block's slot *)

Definition about_slot (slot : Z) (f : Finding) : Prop := f_slot f = slot /\ finding_ok f.

(** A structural finding is a failure: the checks compare recorded data with
    itself, so nothing they report is merely unproven. *)
Definition fails_at (slot : Z) (f : Finding) : Prop := about_slot slot f /\ f_class f = Fail_.

Lemma fails_new slot c d : FindingCode_class c = Fail_ -> fails_at slot (Finding_new slot c d).
Proof. by repeat split. Qed.
Lemma fails_entry_index slot i f : fails_at slot f -> fails_at slot (with_entry_index i f).
Proof. done. Qed.
Lemma fails_expected_actual slot e a f :
  fails_at slot f -> fails_at slot (with_expected_actual e a f).
Proof. done. Qed.

#[local] Hint Resolve fails_new fails_entry_index fails_expected_actual : superbank.
#[local] Hint Extern 0 (FindingCode_class _ = _) => reflexivity : superbank.
#[local] Hint Resolve Forall_nil_2 Forall_cons_2 Forall_app_2 : superbank.

Lemma check_entry_index_fails slot p entries :
  Forall (fails_at slot) (option_list (check_entry_index slot p entries)).
Proof.
  revert p. induction entries as [|e l IH]; intros p; simpl; auto 8 with superbank.
  case_match; simpl; auto 8 with superbank.
Qed.

Lemma check_tick_hashes_fails slot h n entries :
  Forall (fails_at slot) (check_tick_hashes slot h n entries).
Proof.
  revert n. induction entries as [|e l IH]; intros n; simpl; auto 8 with superbank.
  repeat case_match; auto 8 with superbank.
Qed.

Lemma check_transaction_ranges_fails block entries :
  Forall (fails_at (b_slot block)) (check_transaction_ranges block entries).
Proof.
  unfold check_transaction_ranges. generalize 0 at 1. intros n. revert n.
  induction entries as [|e l IH]; intros n; simpl.
  - case_match; auto 8 with superbank.
  - destruct (negb (starting_transaction_index e =? n)); auto 8 with superbank.
Qed.

Lemma check_structure_fails block entries tps hpt alp :
  Forall (fails_at (b_slot block)) (check_structure_in_era block entries tps hpt alp).
Proof.
  assert (Hc : Forall (fails_at (b_slot block)) (check_entry_count block entries)).
  { unfold check_entry_count. case_match; auto 8 with superbank. }
  assert (Ht : Forall (fails_at (b_slot block)) (check_ticks block entries tps alp)).
  { unfold check_ticks. case_match; auto 8 with superbank. }
  assert (Hl : Forall (fails_at (b_slot block)) (check_last_entry block entries)).
  { unfold check_last_entry. repeat case_match; simpl; auto 8 with superbank. }
  assert (Hh : Forall (fails_at (b_slot block)) (check_hash_counts block entries hpt alp)).
  { unfold check_hash_counts.
    repeat case_match; auto 8 using check_tick_hashes_fails with superbank. }
  pose proof (check_entry_index_fails (b_slot block) 0 entries).
  pose proof (check_transaction_ranges_fails block entries).
  unfold check_structure_in_era. destruct (check_entry_index _ _ _);
    repeat apply Forall_app_2; done.
Qed.

(** ** Properties *)

(** C36: the structural checker reports nothing exactly on the blocks whose entries
    are numbered from 0, match the declared count, hold the era's number of ticks,
    end in a tick carrying the blockhash, keep the era's hashing pace and tile the
    transaction indices; and whatever it reports is a failure of that slot. *)
Theorem check_structure_exact block entries tps hpt alp :
  rows_typed block entries hpt ->
  (check_structure_in_era block entries tps hpt alp = [] <->
   structure_ok block entries tps hpt alp) /\
  Forall (fails_at (b_slot block)) (check_structure_in_era block entries tps hpt alp).
Proof. intros HR. split; [by apply check_structure_iff|apply check_structure_fails]. Qed.

End Structural.
