(* ===== verification/Verify.v ===== *)
(** * Verify: verification of one block

    Models [crates/superbank-verify/src/verify/mod.rs]: the structural checks
    followed, in full mode, by the recomputation of the Proof-of-History chain from
    the recorded parent blockhash, with the transaction signatures mixed in. *)

From Stdlib Require Import Ascii String.
From S2P Require Import Prelude Text Report Poh Structural.

Open Scope string_scope.
Open Scope list_scope.
Open Scope Z_scope.

Inductive VerifyMode := Structural | Full.

#[export] Instance VerifyMode_eq_dec : EqDecision VerifyMode.
Proof. solve_decision. Defined.

Definition MAX_ENTRY_NUM_HASHES : Z := 10000000.

Record VerifyOutcome := mkOutcome {
  vo_findings : list Finding;
  vo_entries_verified : Z;
  vo_hashes_computed : Z;
}.

(** [outcome.findings.push(f)] *)
Definition push_finding (f : Finding) (o : VerifyOutcome) : VerifyOutcome :=
  mkOutcome (vo_findings o ++ [f]) (vo_entries_verified o) (vo_hashes_computed o).

Section Verify.
Context `{Base58, Sha256}.

(** The loop of [entry_mixin] over [slot_idx in start..end]. *)
Fixpoint collect_signatures (n : nat) (slot slot_idx : Z) (entry : EntryInfo)
    (tx_signatures : gmap Z (list Signature64)) (signatures : list Signature64) :
    result (list Signature64) Finding :=
  match n with
  | O => Ok signatures
  | S n' =>
      match tx_signatures !! slot_idx with
      | Some sigs =>
          collect_signatures n' slot (slot_idx + 1) entry tx_signatures (signatures ++ sigs)
      | None =>
          Err (with_entry_index (entry_index entry)
                 (Finding_new slot MissingTransactions
                    ("transaction at slot_idx " +:+ to_string slot_idx +:+
                     " not found; mixin uncomputable for entry")))
      end
  end.

(** [entry_mixin] *)
Definition entry_mixin (slot : Z) (entry : EntryInfo)
    (tx_signatures : gmap Z (list Signature64)) : result (option Hash32) Finding :=
  if transaction_count entry =? 0 then Ok None
  else
    let start := starting_transaction_index entry in
    let end_ := sat_add32 start (transaction_count entry) in
    let? signatures :=
      collect_signatures (Z.to_nat (end_ - start)) slot start entry tx_signatures [] in
    Ok (Some (signature_merkle_root signatures)).

(** One turn of the loop of [verify_hash_chain]: [prev] is the recorded hash of
    the previous entry, whatever happened to that entry. *)
Definition verify_entry (slot : Z) (tx_signatures : gmap Z (list Signature64))
    (prev : Hash32) (entry : EntryInfo) (outcome : VerifyOutcome) : VerifyOutcome :=
  let outcome :=
    if num_hashes entry =? 0 then
      push_finding
        (with_entry_index (entry_index entry)
           (Finding_new slot ZeroNumHashesEntry
              "entry with num_hashes = 0; never produced by Agave's recorder")) outcome
    else outcome in
  if MAX_ENTRY_NUM_HASHES <? num_hashes entry then
    push_finding
      (with_entry_index (entry_index entry)
         (Finding_new slot NumHashesOutOfRange
            ("entry claims " +:+ to_string (num_hashes entry) +:+ " hashes (ceiling " +:+
             to_string MAX_ENTRY_NUM_HASHES +:+ "); refusing to recompute"))) outcome
  else
    match entry_mixin slot entry tx_signatures with
    | Err finding => push_finding finding outcome
    | Ok mixin =>
        let computed := next_hash prev (num_hashes entry) mixin in
        let outcome :=
          mkOutcome (vo_findings outcome) (vo_entries_verified outcome + 1)
            (vo_hashes_computed outcome + num_hashes entry) in
        if bool_decide (computed <> e_hash entry) then
          push_finding
            (with_expected_actual (b58 (e_hash entry)) (b58 computed)
               (with_entry_index (entry_index entry)
                  (Finding_new slot EntryHashMismatch
                     "recomputed PoH hash does not match recorded entry hash"))) outcome
        else outcome
    end.

(** [verify_hash_chain] *)
Fixpoint verify_hash_chain_from (slot : Z) (tx_signatures : gmap Z (list Signature64))
    (prev : Hash32) (entries : list EntryInfo) (outcome : VerifyOutcome) : VerifyOutcome :=
  match entries with
  | [] => outcome
  | entry :: rest =>
      verify_hash_chain_from slot tx_signatures (e_hash entry) rest
        (verify_entry slot tx_signatures prev entry outcome)
  end.

Definition verify_hash_chain (block : BlockInfo) (entries : list EntryInfo)
    (tx_signatures : gmap Z (list Signature64)) (outcome : VerifyOutcome) : VerifyOutcome :=
  verify_hash_chain_from (b_slot block) tx_signatures (parent_blockhash block) entries outcome.

(** [verify_block_in_era] *)
Definition verify_block_in_era (mode : VerifyMode) (block : BlockInfo)
    (entries : list EntryInfo) (tx_signatures : gmap Z (list Signature64))
    (ticks_per_slot : Z) (hashes_per_tick : option Z) (alpenglow : bool) : VerifyOutcome :=
  let outcome :=
    mkOutcome (check_structure_in_era block entries ticks_per_slot hashes_per_tick alpenglow) 0 0 in
  let index_reliable :=
    negb (existsb (fun f => bool_decide (f_code f = EntryIndexGap)) (vo_findings outcome)) in
  if (bool_decide (mode = Full) && index_reliable)%bool then
    verify_hash_chain block entries tx_signatures outcome
  else outcome.

(** ** What a valid Proof-of-History chain is *)

(** The signatures of the transactions an entry records, in order. *)
Definition entry_signatures (tx : gmap Z (list Signature64)) (e : EntryInfo) :
    option (list Signature64) :=
  mjoin <$> mapM (fun i => tx !! i) (seqZ (starting_transaction_index e) (transaction_count e)).

Definition mixin_of (e : EntryInfo) (sigs : list Signature64) : option Hash32 :=
  if is_tick e then None else Some (signature_merkle_root sigs).

(** Every entry's recorded hash is the hash of its predecessor's, over its number
    of hashes and its transactions' signatures. *)
Fixpoint poh_chain (tx : gmap Z (list Signature64)) (prev : Hash32)
    (entries : list EntryInfo) : Prop :=
  match entries with
  | [] => True
  | e :: rest =>
      num_hashes e <= MAX_ENTRY_NUM_HASHES /\
      (exists sigs, entry_signatures tx e = Some sigs /\
         e_hash e = next_hash prev (num_hashes e) (mixin_of e sigs)) /\
      poh_chain tx (e_hash e) rest
  end.

(** Recomputing the whole entry stream from a starting hash, with no reference to
    the recorded hashes. *)
Fixpoint replay (tx : gmap Z (list Signature64)) (prev : Hash32) (entries : list EntryInfo) :
    option Hash32 :=
  match entries with
  | [] => Some prev
  | e :: rest =>
      match entry_signatures tx e with
      | Some sigs => replay tx (next_hash prev (num_hashes e) (mixin_of e sigs)) rest
      | None => None
      end
  end.

(** ** The mixin *)

Lemma seqZ_cons_pos m n : 0 < n -> seqZ m n = m :: seqZ (m + 1) (n - 1).
Proof.
  intros. by rewrite seqZ_cons by done.
Qed.

Lemma collect_signatures_spec n slot idx e tx acc :
  match collect_signatures n slot idx e tx acc, mapM (fun i => tx !! i) (seqZ idx (Z.of_nat n)) with
  | Ok sigs, Some ls => sigs = acc ++ mjoin ls
  | Err f, None => f_code f = MissingTransactions /\ about_slot slot f
  | _, _ => False
  end.
Proof.
  revert idx acc. induction n as [|n IH]; intros idx acc; simpl collect_signatures.
  - simpl. by rewrite app_nil_r.
  - rewrite seqZ_cons_pos by lia. replace (Z.of_nat (S n) - 1) with (Z.of_nat n) by lia.
    cbn [mapM]. destruct (tx !! idx) as [sigs|]; simpl; [|by repeat split].
    specialize (IH (idx + 1) (acc ++ sigs)).
    destruct (collect_signatures n slot (idx + 1) e tx (acc ++ sigs)),
      (mapM (fun i => tx !! i) (seqZ (idx + 1) (Z.of_nat n))); simpl in *; try done.
    by rewrite IH, <- app_assoc.
Qed.

(** The mixin is the Merkle root of exactly the entry's signatures; it is missing
    exactly when one of its transactions is. *)
Lemma entry_mixin_spec slot e tx :
  entry_typed e -> starting_transaction_index e + transaction_count e <= u32_max ->
  match entry_mixin slot e tx with
  | Ok mixin => exists sigs, entry_signatures tx e = Some sigs /\ mixin = mixin_of e sigs
  | Err f => entry_signatures tx e = None /\ f_code f = MissingTransactions /\ about_slot slot f
  end.
Proof.
  intros (_ & _ & Hs & Hc) Hle. unfold entry_mixin, mixin_of, is_tick.
  destruct (Z.eqb_spec (transaction_count e) 0) as [E|E].
  - exists []. unfold entry_signatures. by rewrite E.
  - assert (En : sat_add32 (starting_transaction_index e) (transaction_count e)
                 - starting_transaction_index e = transaction_count e) by sat_lia.
    rewrite En. set (n := Z.to_nat (transaction_count e)).
    pose proof (collect_signatures_spec n slot (starting_transaction_index e) e tx []) as HC.
    replace (Z.of_nat n) with (transaction_count e) in HC by (unfold n; sat_lia).
    unfold entry_signatures.
    destruct (collect_signatures n _ _ _ _ _), (mapM _ _) as [ls|]; simpl in *; try done.
    eexists. split; [done|]. by rewrite HC.
Qed.

(** ** The chain walk entry by entry *)

(** The findings of one entry depend on the entry and on its predecessor's
    recorded hash only. *)
Definition entry_findings (slot : Z) (tx : gmap Z (list Signature64)) (prev : Hash32)
    (e : EntryInfo) : list Finding :=
  vo_findings (verify_entry slot tx prev e (mkOutcome [] 0 0)).

Definition entry_hashes (slot : Z) (tx : gmap Z (list Signature64)) (e : EntryInfo) : Z :=
  if MAX_ENTRY_NUM_HASHES <? num_hashes e then 0
  else if is_ok (entry_mixin slot e tx) then num_hashes e else 0.

Lemma verify_entry_findings slot tx prev e o :
  vo_findings (verify_entry slot tx prev e o) = vo_findings o ++ entry_findings slot tx prev e.
Proof.
  unfold entry_findings, verify_entry, push_finding.
  repeat (case_match; simpl); rewrite ?app_nil_r, <- ?app_assoc; done.
Qed.

Lemma verify_entry_hashes slot tx prev e o :
  vo_hashes_computed (verify_entry slot tx prev e o) =
  vo_hashes_computed o + entry_hashes slot tx e.
Proof. unfold entry_hashes, verify_entry, push_finding. repeat (case_match; simpl); lia. Qed.

(** The recorded hashes the entries are checked against. *)
Definition recorded_prevs (prev : Hash32) (entries : list EntryInfo) : list Hash32 :=
  prev :: map e_hash entries.

Lemma hash_chain_findings slot tx prev entries o :
  vo_findings (verify_hash_chain_from slot tx prev entries o) =
  vo_findings o ++
  mjoin (zip_with (entry_findings slot tx) (recorded_prevs prev entries) entries).
Proof.
  revert prev o. induction entries as [|e l IH]; intros prev o; simpl; [by rewrite app_nil_r|].
  rewrite IH, verify_entry_findings, <- app_assoc. done.
Qed.

Lemma hash_chain_hashes slot tx prev entries o :
  vo_hashes_computed (verify_hash_chain_from slot tx prev entries o) =
  vo_hashes_computed o + zsum (entry_hashes slot tx) entries.
Proof.
  revert prev o. induction entries as [|e l IH]; intros prev o; simpl; [lia|].
  rewrite IH, verify_entry_hashes. lia.
Qed.

Lemma entry_findings_clean slot tx prev e :
  entry_typed e -> starting_transaction_index e + transaction_count e <= u32_max ->
  clean (entry_findings slot tx prev e) <->
  num_hashes e <= MAX_ENTRY_NUM_HASHES /\
  exists sigs, entry_signatures tx e = Some sigs /\
    e_hash e = next_hash prev (num_hashes e) (mixin_of e sigs).
Proof.
  intros Hty Hle. pose proof (entry_mixin_spec slot e tx Hty Hle) as HM.
  unfold entry_findings, verify_entry. cbv zeta.
  set (o := if num_hashes e =? 0 then _ else _).
  assert (Ho : clean (vo_findings o)) by (subst o; by destruct (num_hashes e =? 0)).
  destruct (Z.ltb_spec MAX_ENTRY_NUM_HASHES (num_hashes e)).
  { simpl. rewrite clean_snoc. split; [by intros []|lia]. }
  destruct (entry_mixin slot e tx) as [mixin|f].
  - destruct HM as (sigs & Es & ->). case_bool_decide as Hc; simpl.
    + rewrite clean_snoc. split; [by intros []|].
      intros (_ & sigs' & Es' & Eh). by simplify_eq.
    + split; eauto.
  - destruct HM as (Es & Hcode & Hab). simpl. rewrite clean_snoc.
    rewrite (hard_code f); [|by destruct Hab|by rewrite Hcode].
    split; [by intros []|]. intros (_ & sigs & Es' & _). congruence.
Qed.

Lemma hash_chain_clean slot tx prev entries o :
  Forall (fun e => entry_typed e /\
    starting_transaction_index e + transaction_count e <= u32_max) entries ->
  clean (vo_findings (verify_hash_chain_from slot tx prev entries o)) <->
  clean (vo_findings o) /\ poh_chain tx prev entries.
Proof.
  intros Hf. revert prev o. induction Hf as [|e l [Hty Hle] Hf IH]; intros prev o; simpl.
  - tauto.
  - rewrite IH, verify_entry_findings, clean_app, entry_findings_clean by done. tauto.
Qed.

(** ** The verdict on a block *)

Lemma ranges_tile_bound total entries :
  Forall entry_typed entries -> ranges_tile total entries -> total < u32_max ->
  Forall (fun e => entry_typed e /\
    starting_transaction_index e + transaction_count e <= u32_max) entries.
Proof.
  intros Hty [HI <-] Hlt. apply Forall_forall. intros e He.
  assert (Hnn : forall k, (forall x, x ∈ k -> x ∈ entries) -> 0 <= zsum transaction_count k).
  { intros k Hk. apply zsum_nonneg. intros x Hx. rewrite Forall_forall in Hty.
    destruct (Hty x (Hk x Hx)) as (_ & _ & _ & Hc). sat_lia. }
  split; [by rewrite Forall_forall in Hty; apply Hty|].
  apply list_elem_of_split in He as (pre & post & ->).
  rewrite (HI pre e post eq_refl). rewrite zsum_app in Hlt. simpl in Hlt.
  assert (0 <= zsum transaction_count post); [|lia].
  apply Hnn. intros x Hx. rewrite elem_of_app, elem_of_cons. auto.
Qed.

Lemma structure_findings_hard block entries tps hpt alp :
  clean (check_structure_in_era block entries tps hpt alp) ->
  check_structure_in_era block entries tps hpt alp = [].
Proof.
  pose proof (check_structure_fails block entries tps hpt alp) as HF. unfold clean.
  destruct HF as [|f fs [Hab Hc] _]; [done|]. simpl.
  destruct Hab as [_ Hok]. rewrite (hard_code f); [done|done|]. congruence.
Qed.

Lemma poh_chain_replay tx prev entries :
  poh_chain tx prev entries ->
  replay tx prev entries = Some (default prev (e_hash <$> last entries)).
Proof.
  revert prev. induction entries as [|e l IH]; intros prev; simpl; [done|].
  intros (_ & (sigs & -> & <-) & HC). rewrite (IH _ HC).
  destruct l using rev_ind; [done|]. by rewrite app_comm_cons, !last_snoc.
Qed.

Lemma verify_full_clean block entries tx tps hpt alp :
  rows_typed block entries hpt ->
  clean (vo_findings (verify_block_in_era Full block entries tx tps hpt alp)) <->
  structure_ok block entries tps hpt alp /\
  poh_chain tx (parent_blockhash block) entries.
Proof.
  intros HR. rewrite <- check_structure_iff by done.
  unfold verify_block_in_era, verify_hash_chain. cbn [vo_findings].
  split.
  - intros HC.
    assert (E : check_structure_in_era block entries tps hpt alp = []).
    { apply structure_findings_hard. destruct (_ && _)%bool; [|done].
      rewrite hash_chain_findings in HC. by apply clean_app in HC as [HC _]. }
    split; [done|]. rewrite E in HC. simpl in HC.
    apply hash_chain_clean in HC as [_ HC]; [done|].
    apply check_structure_iff in E; [|done]. destruct E as [_ _ _ _ _ Ht].
    destruct HR as (Hty & _ & _ & Hx & _). by eapply ranges_tile_bound.
  - intros [E HC]. rewrite E. simpl. apply hash_chain_clean; [|done].
    apply check_structure_iff in E; [|done]. destruct E as [_ _ _ _ _ Ht].
    destruct HR as (Hty & _ & _ & Hx & _). by eapply ranges_tile_bound.
Qed.

Lemma entry_hashes_bound slot tx e :
  entry_typed e -> 0 <= entry_hashes slot tx e <= MAX_ENTRY_NUM_HASHES.
Proof.
  intros (_ & Hn & _). unfold entry_hashes, MAX_ENTRY_NUM_HASHES. case_ifs; sat_lia.
Qed.

Lemma hash_chain_work slot tx prev entries o :
  Forall entry_typed entries ->
  vo_hashes_computed o <= vo_hashes_computed (verify_hash_chain_from slot tx prev entries o)
    <= vo_hashes_computed o + MAX_ENTRY_NUM_HASHES * zlen entries.
Proof.
  intros Hty. rewrite hash_chain_hashes.
  induction Hty as [|e l He Hl IH]; [rewrite (@zlen_nil EntryInfo); simpl zsum; lia|].
  rewrite zlen_cons. cbn [zsum foldr]. fold (zsum (entry_hashes slot tx) l).
  pose proof (entry_hashes_bound slot tx e He). lia.
Qed.

(** Replacing the recorded hash of entry [k] leaves the findings of every entry
    but [k] and its successor as they were. *)
Lemma hash_change_local slot tx prev pre e e' post i :
  i <> length pre -> i <> S (length pre) ->
  zip_with (entry_findings slot tx) (recorded_prevs prev (pre ++ e :: post)) (pre ++ e :: post)
    !! i =
  zip_with (entry_findings slot tx) (recorded_prevs prev (pre ++ e' :: post)) (pre ++ e' :: post)
    !! i.
Proof.
  intros H1 H2. rewrite !lookup_zip_with.
  assert (El : (pre ++ e :: post) !! i = (pre ++ e' :: post) !! i).
  { destruct (decide (i < length pre)%nat); [by rewrite !lookup_app_l|].
    rewrite !lookup_app_r by lia. by destruct (i - length pre)%nat eqn:E; [lia|]. }
  assert (Ep : recorded_prevs prev (pre ++ e :: post) !! i =
               recorded_prevs prev (pre ++ e' :: post) !! i).
  { unfold recorded_prevs. destruct i as [|j]; [done|]. simpl.
    rewrite !map_app. simpl. destruct (decide (j < length pre)%nat).
    - by rewrite !lookup_app_l by (rewrite length_map; lia).
    - rewrite !lookup_app_r by (rewrite length_map; lia). rewrite !length_map.
      by destruct (j - length pre)%nat eqn:E; [lia|]. }
  by rewrite El, Ep.
Qed.

(** ** Properties *)

(** C33: full verification of a block reports nothing hard exactly when the block
    is structurally well formed and every entry's recorded hash is the PoH hash of
    its predecessor's over its hash count and its transactions' signatures. *)
Theorem verify_full_refines block entries tx tps hpt alp :
  rows_typed block entries hpt ->
  clean (vo_findings (verify_block_in_era Full block entries tx tps hpt alp)) <->
  structure_ok block entries tps hpt alp /\ poh_chain tx (parent_blockhash block) entries.
Proof. apply verify_full_clean. Qed.

(** A block that passes full verification really ends in its blockhash:
    recomputing its entries from the parent blockhash, without using any recorded
    entry hash, produces the recorded blockhash. *)
Theorem verify_full_replays block entries tx tps hpt alp :
  rows_typed block entries hpt -> entries <> [] ->
  clean (vo_findings (verify_block_in_era Full block entries tx tps hpt alp)) ->
  replay tx (parent_blockhash block) entries = Some (blockhash block).
Proof.
  intros HR Hne HC. apply verify_full_clean in HC as [Hok Hpoh]; [|done].
  rewrite (poh_chain_replay _ _ _ Hpoh).
  destruct (exists_last Hne) as (pre & l & ->). rewrite last_snoc. simpl.
  f_equal. by apply (so_last _ _ _ _ _ Hok pre l).
Qed.

(** The SHA-256 work one block can cause is bounded by its number of entries,
    whatever hash counts the stored rows claim. *)
Theorem hash_work_bounded mode block entries tx tps hpt alp :
  Forall entry_typed entries ->
  0 <= vo_hashes_computed (verify_block_in_era mode block entries tx tps hpt alp)
    <= MAX_ENTRY_NUM_HASHES * zlen entries.
Proof.
  intros Hty. unfold verify_block_in_era, verify_hash_chain. cbv zeta. cbn [vo_findings].
  destruct (_ && _)%bool.
  - pose proof (hash_chain_work (b_slot block) tx (parent_blockhash block) entries
      (mkOutcome (check_structure_in_era block entries tps hpt alp) 0 0) Hty). simpl in *. lia.
  - pose proof (zlen_nonneg entries). unfold MAX_ENTRY_NUM_HASHES. simpl. lia.
Qed.

(** The hash chain is checked entry by entry against recorded hashes, so one
    corrupted entry changes the findings of that entry and of its successor only. *)
Theorem hash_corruption_local slot tx prev pre e e' post o :
  let per_entry es := zip_with (entry_findings slot tx) (recorded_prevs prev es) es in
  (forall es, vo_findings (verify_hash_chain_from slot tx prev es o) =
     vo_findings o ++ mjoin (per_entry es)) /\
  (forall i, i <> length pre -> i <> S (length pre) ->
     per_entry (pre ++ e :: post) !! i = per_entry (pre ++ e' :: post) !! i).
Proof.
  split; [intros es; apply hash_chain_findings|]. intros i. apply hash_change_local.
Qed.

End Verify.
