(* ===== verification/RangeSpec.v ===== *)
(** * RangeSpec: slot and epoch ranges on the command line

    Models [crates/superbank-verify/src/range.rs] ([parse_range_spec],
    [parse_part]); error messages are the constructors of [range_error]. *)

From Stdlib Require Import Ascii String.
From S2P Require Import Prelude Text.

Open Scope string_scope.
Open Scope list_scope.
Open Scope Z_scope.

Inductive RangeSpec :=
| Slots (start end_ : Z)
| Epochs (start end_ : Z).

#[export] Instance RangeSpec_eq_dec : EqDecision RangeSpec.
Proof. solve_decision. Defined.

Inductive range_error :=
| RangeEmpty
| SlotRangeFormat
| EpochRangeFormat
| PartEmpty (label : string)
| PartNotUnsigned (label : string)
| RangeInverted (start end_ : Z).

(** [parse_part] *)
Definition parse_part (label value : string) : result Z range_error :=
  let trimmed := trim value in
  if is_empty trimmed then Err (PartEmpty label)
  else ok_or (parse_u64 trimmed) (PartNotUnsigned label).

Definition parse_pair (c : ascii) (normalized lo hi : string) (format : range_error)
    (mk : Z -> Z -> RangeSpec) : result RangeSpec range_error :=
  match split c normalized with
  | [a; b] =>
      let? start := parse_part lo a in
      let? end_ := parse_part hi b in
      if end_ <? start then Err (RangeInverted start end_) else Ok (mk start end_)
  | _ => Err format
  end.

(** [parse_range_spec] *)
Definition parse_range_spec (value : string) : result RangeSpec range_error :=
  let normalized := trim value in
  if is_empty normalized then Err RangeEmpty
  else if contains ":" normalized then
    parse_pair ":" normalized "slot start" "slot end" SlotRangeFormat Slots
  else if contains "-" normalized then
    parse_pair "-" normalized "epoch start" "epoch end" EpochRangeFormat Epochs
  else
    let? epoch := parse_part "epoch" normalized in
    Ok (Epochs epoch epoch).

(** The way a range is written: what the usage text documents. *)
Definition print_range (r : RangeSpec) : string :=
  match r with
  | Slots a b => to_string a +:+ String ":" (to_string b)
  | Epochs a b => to_string a +:+ String "-" (to_string b)
  end.

Definition range_ok (r : RangeSpec) : Prop :=
  match r with Slots a b | Epochs a b => is_u64 a /\ is_u64 b /\ a <= b end.

(** ** Soundness: an accepted range is ordered and within [u64]. *)

Lemma parse_part_range label v n : parse_part label v = Ok n -> is_u64 n.
Proof.
  unfold parse_part. case_match; [done|]. unfold ok_or. case_match; [|done].
  intros [= <-]. by eapply parse_u64_range.
Qed.

Lemma parse_pair_ok c s lo hi e mk r :
  parse_pair c s lo hi e mk = Ok r ->
  exists a b, r = mk a b /\ is_u64 a /\ is_u64 b /\ a <= b.
Proof.
  unfold parse_pair. repeat (case_match; try done).
  destruct (parse_part lo s0) as [x|] eqn:E1; [|done]. simpl.
  destruct (parse_part hi s1) as [y|] eqn:E2; [|done]. simpl.
  destruct (Z.ltb_spec y x); [done|]. intros [= <-].
  apply parse_part_range in E1, E2. eauto 6.
Qed.

Lemma parse_range_ok value r : parse_range_spec value = Ok r -> range_ok r.
Proof.
  unfold parse_range_spec. case_match; [done|]. case_match.
  - intros (a & b & -> & ? & ? & ?)%parse_pair_ok. done.
  - case_match.
    + intros (a & b & -> & ? & ? & ?)%parse_pair_ok. done.
    + destruct (parse_part "epoch" (trim value)) eqn:E; [|done]. simpl. intros [= <-].
      apply parse_part_range in E. simpl. repeat split; try apply E. lia.
Qed.

(** ** Completeness: every printed range is read back. *)

Lemma parse_part_to_string label n : is_u64 n -> parse_part label (to_string n) = Ok n.
Proof.
  intros Hn. unfold parse_part.
  by rewrite trim_to_string, to_string_nonempty, parse_to_string.
Qed.

Lemma parse_pair_print c a b lo hi e mk :
  digit_value c = None -> is_u64 a -> is_u64 b -> a <= b ->
  parse_pair c (to_string a +:+ String c (to_string b)) lo hi e mk = Ok (mk a b).
Proof.
  intros Hc Ha Hb Hab. unfold parse_pair.
  rewrite split_app by (apply contains_digits; auto with superbank).
  rewrite split_none by (apply contains_digits; auto with superbank).
  rewrite !parse_part_to_string by done. simpl.
  by destruct (Z.ltb_spec b a); [lia|].
Qed.

Lemma trim_print a b c :
  trim (to_string a +:+ String c (to_string b)) = to_string a +:+ String c (to_string b).
Proof. apply trim_between; auto with superbank. Qed.

Lemma contains_print c a b d :
  digit_value c = None ->
  contains c (to_string a +:+ String d (to_string b)) = Ascii.eqb c d.
Proof.
  intros. rewrite contains_app. simpl.
  rewrite !contains_digits by auto with superbank. by rewrite orb_false_r.
Qed.

Lemma parse_print r : range_ok r -> parse_range_spec (print_range r) = Ok r.
Proof.
  unfold parse_range_spec. destruct r as [a b|a b]; intros (Ha & Hb & Hab); simpl;
    rewrite trim_print, to_string_app_nonempty, !contains_print by done; simpl;
    by rewrite parse_pair_print.
Qed.

(** A range the parser accepts is ordered and its bounds are 64-bit, and its
    documented spelling is parsed back to the same range. *)
Theorem range_spec_roundtrip value r :
  parse_range_spec value = Ok r ->
  range_ok r /\ parse_range_spec (print_range r) = Ok r.
Proof. intros Hr%parse_range_ok. split; [done|by apply parse_print]. Qed.
