(* ===== verification/Eras.v ===== *)
(** * Eras: the piecewise-constant [hashes_per_tick] schedule

    Models [crates/superbank-verify/src/eras.rs].  [slice::partition_point] is
    modelled on partitioned slices, which the schedule invariant [schedule_ok]
    guarantees: the length of the prefix that satisfies the predicate. *)

From Stdlib Require Import Ascii String.
From S2P Require Import Prelude Text.

Open Scope string_scope.
Open Scope list_scope.
Open Scope Z_scope.

Definition MAINNET_HASHES_PER_TICK : list (Z * Z) :=
  [(0, 12500); (253584001, 17500); (255312004, 27500);
   (255744008, 47500); (257040000, 57500); (257904000, 62500)].

Record HashesPerTickSchedule := mkSchedule { eras : list (Z * Z) }.

Definition mainnet : HashesPerTickSchedule := mkSchedule MAINNET_HASHES_PER_TICK.

Inductive eras_error :=
| EraFormat (part : string)
| EraFromSlot (part : string)
| EraValue (part : string)
| ErasEmpty
| ErasNotFromZero
| ErasNotAscending.

(** The loop of [HashesPerTickSchedule::parse] over [spec.split(',')]. *)
Fixpoint parse_eras (parts : list string) (acc : list (Z * Z)) :
    result (list (Z * Z)) eras_error :=
  match parts with
  | [] => Ok acc
  | part :: rest =>
      let part := trim part in
      if is_empty part then parse_eras rest acc
      else
        let? sv := ok_or (split_once ":" part) (EraFormat part) in
        let? from_slot := ok_or (parse_u64 (trim (fst sv))) (EraFromSlot part) in
        let? value := ok_or (parse_u64 (trim (snd sv))) (EraValue part) in
        parse_eras rest (acc ++ [(from_slot, value)])
  end.

(** [is_sorted_by_key] and [windows(2).any(..)] of the source. *)
Fixpoint is_sorted_by_slot (l : list (Z * Z)) : bool :=
  match l with
  | a :: ((b :: _) as l') => (fst a <=? fst b) && is_sorted_by_slot l'
  | _ => true
  end%bool.
Fixpoint has_equal_pair (l : list (Z * Z)) : bool :=
  match l with
  | a :: ((b :: _) as l') => (fst a =? fst b) || has_equal_pair l'
  | _ => false
  end%bool.

Arguments is_sorted_by_slot : simpl never.
Arguments has_equal_pair : simpl never.

(** [HashesPerTickSchedule::parse] *)
Definition parse_schedule (spec : string) : result HashesPerTickSchedule eras_error :=
  let? l := parse_eras (split "," spec) [] in
  match l with
  | [] => Err ErasEmpty
  | (s0, _) :: _ =>
      if negb (s0 =? 0) then Err ErasNotFromZero
      else if (negb (is_sorted_by_slot l) || has_equal_pair l)%bool then Err ErasNotAscending
      else Ok (mkSchedule l)
  end.

Definition era_to_spec (e : Z * Z) : string := to_string (fst e) +:+ String ":" (to_string (snd e)).

(** [HashesPerTickSchedule::to_spec] *)
Definition to_spec (s : HashesPerTickSchedule) : string := join "," (map era_to_spec (eras s)).

Fixpoint partition_point {A} (p : A -> bool) (l : list A) : nat :=
  match l with
  | [] => 0
  | x :: l' => if p x then S (partition_point p l') else 0
  end%nat.

(** [HashesPerTickSchedule::value_at] *)
Definition value_at (s : HashesPerTickSchedule) (slot : Z) : Z :=
  match partition_point (fun e => fst e <=? slot) (eras s) with
  | O => 0
  | S index => snd (nth index (eras s) (0, 0))
  end.

(** ** The schedule invariant *)

Record schedule_ok (s : HashesPerTickSchedule) : Prop := {
  sched_u64 : Forall (fun e => is_u64 (fst e) /\ is_u64 (snd e)) (eras s);
  sched_first : exists v rest, eras s = (0, v) :: rest;
  sched_ascending : ascending (map fst (eras s));
}.

Lemma is_sorted_cons a b l :
  is_sorted_by_slot (a :: b :: l) = ((fst a <=? fst b) && is_sorted_by_slot (b :: l))%bool.
Proof. reflexivity. Qed.
Lemma has_equal_cons a b l :
  has_equal_pair (a :: b :: l) = ((fst a =? fst b) || has_equal_pair (b :: l))%bool.
Proof. reflexivity. Qed.

Lemma ascending_of_checks l :
  is_sorted_by_slot l = true -> has_equal_pair l = false -> ascending (map fst l).
Proof.
  induction l as [|a [|b l] IH]; [constructor|repeat constructor|].
  intros Hs He. rewrite is_sorted_cons in Hs. rewrite has_equal_cons in He.
  apply andb_prop in Hs as [Hab Hs]. apply orb_false_elim in He as [Hne He].
  specialize (IH Hs He). zbool. cbn [map] in *. apply ascending_cons. split; [|done].
  apply ascending_cons in IH as [Hf _]. constructor; [lia|].
  eapply Forall_impl; [done|]. simpl. lia.
Qed.

Lemma checks_of_ascending l :
  ascending (map fst l) -> is_sorted_by_slot l = true /\ has_equal_pair l = false.
Proof.
  induction l as [|a [|b l] IH]; [done..|].
  intros Ha. cbn [map] in Ha. apply ascending_cons in Ha as [Hf Ha].
  destruct (IH Ha) as [Hs He]. inversion Hf; subst.
  rewrite is_sorted_cons, has_equal_cons, Hs, He.
  destruct (Z.leb_spec (fst a) (fst b)), (Z.eqb_spec (fst a) (fst b)); simpl; try done; lia.
Qed.

Lemma parse_eras_u64 parts acc l :
  parse_eras parts acc = Ok l ->
  Forall (fun e => is_u64 (fst e) /\ is_u64 (snd e)) acc ->
  Forall (fun e => is_u64 (fst e) /\ is_u64 (snd e)) l.
Proof.
  revert acc. induction parts as [|p ps IH]; simpl; intros acc E Ha; [by simplify_eq|].
  case_match; [eauto|].
  destruct (split_once ":" (trim p)) as [[a b]|]; [|done]. simpl in E.
  destruct (parse_u64 (trim a)) as [x|] eqn:Ex; [|done]. simpl in E.
  destruct (parse_u64 (trim b)) as [y|] eqn:Ey; [|done]. simpl in E.
  apply parse_u64_range in Ex, Ey. eapply IH; [done|].
  apply Forall_app_2; [done|]. by constructor.
Qed.

Lemma parse_schedule_ok spec s : parse_schedule spec = Ok s -> schedule_ok s.
Proof.
  unfold parse_schedule. destruct (parse_eras _ _) as [l|] eqn:E; [|done]. simpl.
  destruct l as [|[s0 v] l]; [done|]. destruct (Z.eqb_spec s0 0) as [->|]; [|done]. simpl.
  destruct (is_sorted_by_slot _) eqn:Hs; [|done].
  destruct (has_equal_pair _) eqn:He; [done|]. intros [= <-].
  split; simpl.
  - eapply parse_eras_u64; [done|constructor].
  - eauto.
  - by apply (ascending_of_checks ((0, v) :: l)).
Qed.

(** ** Reading back a printed schedule *)

Lemma split_join l :
  l <> [] -> Forall (fun s => contains "," s = false) l -> split "," (join "," l) = l.
Proof.
  intros Hne. induction 1 as [|s l Hs Hl IH]; [done|].
  destruct l as [|t l]; [by apply split_none|].
  change (join "," (s :: t :: l)) with (s +:+ String "," (join "," (t :: l))).
  rewrite split_app by done. f_equal. by apply IH.
Qed.

Lemma era_spec_no_comma e : contains "," (era_to_spec e) = false.
Proof.
  unfold era_to_spec. rewrite contains_app. simpl.
  by rewrite !contains_digits by auto with superbank.
Qed.

Lemma parse_eras_print l acc :
  Forall (fun e => is_u64 (fst e) /\ is_u64 (snd e)) l ->
  parse_eras (map era_to_spec l) acc = Ok (acc ++ l).
Proof.
  intros Hl. revert acc. induction Hl as [|[a b] l [Ha Hb] Hl IH]; intros acc; simpl.
  - by rewrite app_nil_r.
  - unfold era_to_spec at 1 2 3 4 5. simpl fst. simpl snd.
    rewrite trim_between by auto with superbank.
    rewrite to_string_app_nonempty, split_once_app by (apply contains_digits; auto with superbank). simpl.
    rewrite !trim_to_string, !parse_to_string by done. simpl.
    by rewrite IH, <- (app_assoc acc).
Qed.

Lemma parse_to_spec s : schedule_ok s -> parse_schedule (to_spec s) = Ok s.
Proof.
  destruct s as [l]. intros [Hu (v & rest & E) Ha]. simpl in *. subst l.
  unfold parse_schedule, to_spec. simpl eras.
  rewrite split_join; [|done|].
  - rewrite parse_eras_print by done. simpl app. cbn [rbind].
    destruct (checks_of_ascending _ Ha) as [Hs He]. by rewrite Z.eqb_refl, Hs, He.
  - apply Forall_forall. intros x Hx. apply list_elem_of_fmap in Hx as (e & -> & _).
    apply era_spec_no_comma.
Qed.

Lemma mainnet_ok : schedule_ok mainnet.
Proof.
  split; simpl.
  - repeat constructor; simpl; sat_lia.
  - eauto.
  - repeat constructor.
Qed.

(** ** The value in force *)

(** On an ascending schedule the partition point cuts the eras that have begun
    from the eras to come. *)
Lemma partition_point_eras slot (k : list (Z * Z)) :
  ascending (map fst k) ->
  exists pre post, k = pre ++ post /\ Forall (fun e => slot < fst e) post /\
    Forall (fun e => fst e <= slot) pre /\
    partition_point (fun e => fst e <=? slot) k = length pre.
Proof.
  induction k as [|a k IH]; intros Hk; [by exists [], []|].
  cbn [map] in Hk. apply ascending_cons in Hk as [Hf Hk]. cbn [partition_point].
  destruct (Z.leb_spec (fst a) slot).
  - destruct (IH Hk) as (pre & post & -> & Hpost & Hpre & ->).
    exists (a :: pre), post. by repeat split; auto.
  - exists [], (a :: k). repeat split; [|constructor]. constructor; [lia|].
    apply Forall_forall. intros e He. rewrite Forall_forall in Hf.
    apply (list_elem_of_fmap_2 fst) in He. specialize (Hf _ He). lia.
Qed.

Lemma value_at_spec s slot :
  schedule_ok s -> 0 <= slot ->
  exists pre f v post, eras s = pre ++ (f, v) :: post /\ f <= slot /\
    Forall (fun e => slot < fst e) post /\ value_at s slot = v.
Proof.
  destruct s as [l]. intros [_ (v0 & rest & E) Ha] Hslot. unfold value_at. simpl in *.
  destruct (partition_point_eras slot l Ha) as (pre & post & El & Hpost & Hpre & ->).
  destruct pre as [|[f v] pre _] using rev_ind.
  - simpl in El. subst post. rewrite E in Hpost. inversion Hpost. simpl in *. lia.
  - exists pre, f, v, post. rewrite length_app. simpl. rewrite Nat.add_1_r.
    clear E. subst l. rewrite <- app_assoc. simpl. repeat split; [|done|].
    + apply Forall_app in Hpre as [_ Hp]. by inversion Hp.
    + rewrite app_nth2, Nat.sub_diag by lia. done.
Qed.

(** ** Properties *)

(** A schedule the parser accepts starts at slot 0, ascends strictly and holds
    64-bit values; the text the job descriptor stores for it parses back to it. *)
Theorem schedule_roundtrip spec s :
  parse_schedule spec = Ok s -> schedule_ok s /\ parse_schedule (to_spec s) = Ok s.
Proof. intros Hs. apply parse_schedule_ok in Hs. split; [done|by apply parse_to_spec]. Qed.

(** The hash count looked up for a slot is the value of the last era that has
    begun by that slot; there always is one. *)
Theorem schedule_value_in_force spec s slot :
  parse_schedule spec = Ok s -> 0 <= slot ->
  exists pre f v post, eras s = pre ++ (f, v) :: post /\ f <= slot /\
    Forall (fun e => slot < fst e) post /\ value_at s slot = v.
Proof. intros Hs%parse_schedule_ok. by apply value_at_spec. Qed.
