(* ===== verification/Cli.v ===== *)
(** * Cli: the resolved arguments and their validation

    Models the [Args] record, [validate_args], the value parsers and the
    CLI-over-config merge rules of [crates/superbank-verify/src/cli.rs].  Base-58
    decoding is the [bs58] package: a parameter ([Base58Decode]).  The [clap] and
    [serde_yaml] front ends, which only fill records, are not modelled. *)

From Stdlib Require Import Ascii String.
From S2P Require Import Prelude Text Report Verify Eras RangeSpec.

Open Scope string_scope.
Open Scope list_scope.
Open Scope Z_scope.

(** [bs58::decode(s).into_vec()], [None] on an error. *)
Class Base58Decode := b58_decode : string -> option (list Z).

Inductive ModeArg := ModeStructural | ModeFull.

Definition ModeArg_as_str (m : ModeArg) : string :=
  match m with ModeStructural => "structural" | ModeFull => "full" end.

Definition to_verify_mode (m : ModeArg) : VerifyMode :=
  match m with ModeStructural => Structural | ModeFull => Full end.

Definition MAX_WINDOW_SLOTS : Z := 128.
Definition MAX_FETCH_AHEAD : Z := 2.
Definition MAX_IN_FLIGHT_WINDOW_SLOTS : Z := 512.

(** The fields of [Args] that the runner and the validation read. *)
Record Args := mkArgs {
  a_range : option RangeSpec;
  a_full : bool;
  a_mode : ModeArg;
  a_slots_per_epoch : Z;
  a_epoch_warmup : bool;
  a_ticks_per_slot : Z;
  a_expected_genesis_hash : option (list Z);
  a_schedule : HashesPerTickSchedule;
  a_alpenglow_rpc_url : option string;
  a_alpenglow_genesis_block : option (Z * list Z);
  a_window_slots : Z;
  a_fetch_ahead : Z;
  a_audit_duplicate_conflicts : bool;
  a_checkpoint_file : option string;
  a_resume : bool;
  a_report_file : option string;
  a_max_failures : Z;
  a_allow_unverifiable : bool;
  a_anchors : list (Z * list Z);
  a_blocks_table : string;
  a_entries_table : string;
  a_transactions_table : string;
  a_export_fixture : option (Z * string);
}.

Inductive cli_error :=
| RangeAndFull
| NoSelector
| ResumeWithoutCheckpoint
| WindowZero
| FetchAheadZero
| WindowTooLarge
| FetchAheadTooLarge
| FetchAheadOverflow
| InFlightOverflow
| InFlightTooLarge (got : Z)
| TicksZero
| DuplicateAnchor (slot : Z)
| FixtureNeedsOut
| FixtureNeedsSlot
| BadBase58 (value : string)
| BadHashLength (value : string) (len : Z)
| AnchorFormat (spec : string)
| AnchorSlot (spec : string).

(** The anchor loop of [validate_args]. *)
Fixpoint check_anchor_slots (seen : gset Z) (anchors : list (Z * list Z)) : result unit cli_error :=
  match anchors with
  | [] => Ok tt
  | (slot, _) :: rest =>
      if bool_decide (slot ∈ seen) then Err (DuplicateAnchor slot)
      else check_anchor_slots ({[slot]} ∪ seen) rest
  end.

(** [validate_args] *)
Definition validate_args (args : Args) : result unit cli_error :=
  let? _ :=
    match a_export_fixture args with
    | None =>
        match a_range args, a_full args with
        | Some _, true => Err RangeAndFull
        | None, false => Err NoSelector
        | _, _ => Ok tt
        end
    | Some _ => Ok tt
    end in
  let? _ := ensure (negb (a_resume args && bool_decide (a_checkpoint_file args = None)))
              ResumeWithoutCheckpoint in
  let? _ := ensure (negb (a_window_slots args =? 0)) WindowZero in
  let? _ := ensure (negb (a_fetch_ahead args =? 0)) FetchAheadZero in
  let? _ := ensure (negb (MAX_WINDOW_SLOTS <? a_window_slots args)) WindowTooLarge in
  let? _ := ensure (negb (MAX_FETCH_AHEAD <? a_fetch_ahead args)) FetchAheadTooLarge in
  let? in_flight_windows := ok_or (checked_add (a_fetch_ahead args) 2) FetchAheadOverflow in
  let? in_flight_slots :=
    ok_or (checked_mul (a_window_slots args) in_flight_windows) InFlightOverflow in
  let? _ := ensure (negb (MAX_IN_FLIGHT_WINDOW_SLOTS <? in_flight_slots))
              (InFlightTooLarge in_flight_slots) in
  let? _ := ensure (negb (a_ticks_per_slot args =? 0)) TicksZero in
  check_anchor_slots ∅ (a_anchors args).

(** [resolve_export_fixture] *)
Definition resolve_export_fixture (slot : option Z) (path : option string) :
    result (option (Z * string)) cli_error :=
  match slot, path with
  | Some s, Some p => Ok (Some (s, p))
  | Some _, None => Err FixtureNeedsOut
  | None, Some _ => Err FixtureNeedsSlot
  | None, None => Ok None
  end.

(** [non_blank] *)
Definition non_blank (value : option string) : option string :=
  match value with
  | Some v => if is_empty (trim v) then None else Some (trim v)
  | None => None
  end.

(** Where [clap] found a value. *)
Inductive ValueSource := DefaultValue | EnvVariable | CommandLine.

(** [should_use_config], [merge_value], [merge_option] *)
Definition should_use_config (source : option ValueSource) : bool :=
  match source with
  | None | Some DefaultValue => true
  | Some _ => false
  end.

Definition merge_value {T} (source : option ValueSource) (cli : T) (config : option T) : T :=
  if should_use_config source then default cli config else cli.

Definition merge_option {T} (source : option ValueSource) (cli config : option T) : option T :=
  if should_use_config source then match cli with Some _ => cli | None => config end else cli.

(** The [--range] / [--full] selector of [resolve_from]: one logical setting. *)
Definition resolve_selector (range_src full_src : option ValueSource)
    (cli_range : option string) (cli_full : bool)
    (config_range : option string) (config_full : option bool) : option string * bool :=
  if (negb (should_use_config range_src) || negb (should_use_config full_src))%bool
  then (cli_range, cli_full)
  else (match cli_range with Some _ => cli_range | None => config_range end,
        default cli_full config_full).

Section Parsers.
Context `{Base58Decode}.

(** [parse_hash32] *)
Definition parse_hash32 (value : string) : result (list Z) cli_error :=
  let? bytes := ok_or (b58_decode (trim value)) (BadBase58 value) in
  if zlen bytes =? 32 then Ok bytes else Err (BadHashLength value (zlen bytes)).

(** [parse_anchor] *)
Definition parse_anchor (spec : string) : result (Z * list Z) cli_error :=
  let? p := ok_or (split_once ":" spec) (AnchorFormat spec) in
  let? slot := ok_or (parse_u64 (trim (fst p))) (AnchorSlot spec) in
  let? hash := parse_hash32 (snd p) in
  Ok (slot, hash).

Lemma parse_anchor_typed spec slot hash :
  parse_anchor spec = Ok (slot, hash) -> is_u64 slot /\ length hash = 32%nat.
Proof.
  unfold parse_anchor, parse_hash32.
  destruct (split_once ":" spec) as [[a b]|]; [|done]. simpl.
  destruct (parse_u64 (trim a)) as [n|] eqn:E; [|done]. simpl.
  destruct (b58_decode (trim b)) as [bytes|]; [|done]. simpl.
  destruct (Z.eqb_spec (zlen bytes) 32); [|done]. intros [= <- <-].
  split; [by eapply parse_u64_range|]. sat_lia.
Qed.

End Parsers.

(** ** Accepted arguments *)

Lemma check_anchor_slots_ok seen l :
  check_anchor_slots seen l = Ok tt <-> NoDup (map fst l) /\ Forall (fun a => fst a ∉ seen) l.
Proof.
  revert seen. induction l as [|[s h] l IH]; intros seen; simpl.
  { split; [|done]. by repeat constructor. }
  rewrite NoDup_cons, Forall_cons. case_bool_decide as D.
  - split; [done|]. simpl. tauto.
  - rewrite IH. simpl. split.
    + intros [Hn Hf]. rewrite Forall_forall in Hf. repeat split; auto.
      * intros Hin. apply list_elem_of_fmap in Hin as ([s' h'] & -> & Hin).
        specialize (Hf _ Hin). set_solver.
      * apply Forall_forall. intros x Hx. specialize (Hf x Hx). set_solver.
    + intros [[Hs Hn] [_ Hf]]. split; [done|]. rewrite Forall_forall in *.
      intros x Hx. specialize (Hf x Hx).
      assert (fst x <> s); [|set_solver]. intros <-. by apply Hs, list_elem_of_fmap_2.
Qed.

Record args_ok (args : Args) : Prop := {
  ao_selector : a_export_fixture args = None ->
    (is_Some (a_range args) /\ a_full args = false) \/
    (a_range args = None /\ a_full args = true);
  ao_resume : a_resume args = true -> is_Some (a_checkpoint_file args);
  ao_window : 1 <= a_window_slots args <= MAX_WINDOW_SLOTS;
  ao_ahead : 1 <= a_fetch_ahead args <= MAX_FETCH_AHEAD;
  ao_ticks : 1 <= a_ticks_per_slot args;
  ao_anchors : NoDup (map fst (a_anchors args));
}.

Definition args_typed (args : Args) : Prop :=
  is_u64 (a_window_slots args) /\ is_u64 (a_fetch_ahead args) /\ is_u64 (a_ticks_per_slot args).

Lemma ensure_ok {E} c (e : E) : ensure c e = Ok tt <-> c = true.
Proof. by destruct c. Qed.

Lemma rbind_unit {E B} (m : result unit E) (k : result B E) b :
  rbind m (fun _ => k) = Ok b <-> m = Ok tt /\ k = Ok b.
Proof. destruct m as [[]|]; simpl; split; [by split|by intros []|done|by intros []]. Qed.

(** The three window bounds imply the in-flight bound: its two checks never fire
    on their own. *)
Lemma in_flight_ok w a :
  1 <= w <= MAX_WINDOW_SLOTS -> 1 <= a <= MAX_FETCH_AHEAD ->
  checked_add a 2 = Some (a + 2) /\ checked_mul w (a + 2) = Some (w * (a + 2)) /\
  w * (a + 2) <= MAX_IN_FLIGHT_WINDOW_SLOTS.
Proof.
  unfold MAX_WINDOW_SLOTS, MAX_FETCH_AHEAD, MAX_IN_FLIGHT_WINDOW_SLOTS. intros Hw Ha.
  assert (w * (a + 2) <= 512) by nia.
  unfold checked_add, checked_mul.
  destruct (Z.leb_spec (a + 2) u64_max); [|sat_lia].
  destruct (Z.leb_spec (w * (a + 2)) u64_max); [done|]. unfold u64_max in *. lia.
Qed.

Lemma selector_ok args :
  match a_export_fixture args with
  | None =>
      match a_range args, a_full args with
      | Some _, true => Err RangeAndFull
      | None, false => Err NoSelector
      | _, _ => Ok tt
      end
  | Some _ => Ok tt
  end = Ok tt <->
  (a_export_fixture args = None ->
    (is_Some (a_range args) /\ a_full args = false) \/
    (a_range args = None /\ a_full args = true)).
Proof.
  destruct (a_export_fixture args), (a_range args), (a_full args); split; try done; intros H;
    try (specialize (H eq_refl)); try (left; by eauto); try (right; by eauto);
    destruct H as [[[] ?]|[? ?]]; done.
Qed.

Lemma validate_args_iff args :
  args_typed args -> validate_args args = Ok tt <-> args_ok args.
Proof.
  intros (Hw & Ha & Ht). unfold validate_args.
  rewrite !rbind_unit, !ensure_ok, selector_ok.
  assert (Hres : negb (a_resume args && bool_decide (a_checkpoint_file args = None)) = true <->
     (a_resume args = true -> is_Some (a_checkpoint_file args))).
  { destruct (a_resume args), (a_checkpoint_file args); simpl; split; try done; eauto.
    intros H. by destruct (H eq_refl). }
  rewrite Hres.
  destruct (Z.eqb_spec (a_window_slots args) 0), (Z.eqb_spec (a_fetch_ahead args) 0),
    (Z.ltb_spec MAX_WINDOW_SLOTS (a_window_slots args)),
    (Z.ltb_spec MAX_FETCH_AHEAD (a_fetch_ahead args)); simpl;
    try (split; [by intros (? & ? & ? & ? & ? & ? & ?)|intros []; lia]).
  destruct (in_flight_ok (a_window_slots args) (a_fetch_ahead args)) as (-> & E2 & E3);
    [sat_lia|sat_lia|]. simpl. rewrite E2. simpl. rewrite !rbind_unit, !ensure_ok.
  rewrite check_anchor_slots_ok.
  destruct (Z.ltb_spec MAX_IN_FLIGHT_WINDOW_SLOTS
    (a_window_slots args * (a_fetch_ahead args + 2))); [lia|].
  destruct (Z.eqb_spec (a_ticks_per_slot args) 0); simpl.
  - split; [by intros (? & ? & ? & ? & ? & ? & ? & ? & ?)|intros []; lia].
  - split.
    + intros (? & ? & _ & _ & _ & _ & _ & _ & ? & _). constructor; try done; sat_lia.
    + intros []. repeat split; try done. apply Forall_forall. set_solver.
Qed.

(** The argument validation accepts exactly the argument records with one
    range selector, a checkpoint file when resuming, a window of 1 to 128 slots, 1 or
    2 windows fetched ahead, at least one tick per slot and distinct anchor slots. *)
Theorem validate_args_exact args :
  args_typed args -> validate_args args = Ok tt <-> args_ok args.
Proof. apply validate_args_iff. Qed.
