(* ===== verification/Chain.v ===== *)
(** * Chain: the cross-block chain walk

    Models [crates/superbank-verify/src/chain.rs].  The walk observes present
    blocks in ascending slot order, carries the previous one, classifies the slots
    in between as skipped or missing, checks the hash linkage, the genesis pin and
    the external anchors.  [HashMap]s are [gmap]s, [BTreeSet]s are [gset]s. *)

From Stdlib Require Import Ascii String.
From S2P Require Import Prelude Text Report Structural.

Open Scope string_scope.
Open Scope list_scope.
Open Scope Z_scope.

Record ObserveResult := mkObserve {
  or_findings : list Finding;
  skipped_span : option (Z * Z);
  missing_span : option (Z * Z);
}.

(** [ObserveResult::default] *)
Definition ObserveResult_default : ObserveResult := mkObserve [] None None.

Record ChainWalk := mkWalk {
  prev : option (Z * list Z);
  floor_ : Z;
  expected_genesis_hash : option (list Z);
  anchors : gmap Z (list Z);
  checked_anchors : gset Z;
  genesis_checked : bool;
}.

(** [ChainWalk::from_checkpoint] *)
Definition from_checkpoint (floor : Z) (expected_genesis_hash : option (list Z))
    (anchors : gmap Z (list Z)) (checked_anchors : gset Z) (genesis_checked : bool) : ChainWalk :=
  mkWalk None floor expected_genesis_hash anchors checked_anchors genesis_checked.

(** [ChainWalk::last_present] *)
Definition last_present (w : ChainWalk) : option Z := fst <$> prev w.

(** [ChainWalk::unchecked_anchors] *)
Definition unchecked_anchors (w : ChainWalk) : list (Z * list Z) :=
  sort_by_key
    (List.filter (fun a => bool_decide (fst a ∉ checked_anchors w)) (map_to_list (anchors w))).

(** [ChainWalk::seed] *)
Definition seed (slot : Z) (hash : list Z) (w : ChainWalk) : ChainWalk :=
  match prev w with
  | None => mkWalk (Some (slot, hash)) (floor_ w) (expected_genesis_hash w) (anchors w)
              (checked_anchors w) (genesis_checked w)
  | Some _ => w
  end.

(** [missing_span_finding] *)
Definition missing_span_finding (lo hi : Z) : Finding :=
  Finding_new lo MissingBlock
    (if lo =? hi then
       "slot " +:+ to_string lo +:+ " absent from blocks_metadata with no skip claim covering it"
     else
       "slots " +:+ to_string lo +:+ "..=" +:+ to_string hi +:+
       " absent from blocks_metadata with no skip claim covering them").

(** [span_len] *)
Definition span_len (span : option (Z * Z)) : Z :=
  match span with
  | Some (lo, hi) => sat_sub hi lo + 1
  | None => 0
  end.

(** The first slot not yet accounted for. *)
Definition lower_bound (w : ChainWalk) : Z :=
  match prev w with
  | Some (slot, _) => Z.max (sat_add slot 1) (floor_ w)
  | None => floor_ w
  end.

(** [ChainWalk::classify_interval] *)
Definition classify_interval (w : ChainWalk) (block : BlockInfo) (r : ObserveResult) :
    ObserveResult :=
  let lower := lower_bound w in
  if b_slot block <=? lower then r
  else
    let upper := b_slot block - 1 in
    let claim := parent_slot block in
    let missing_hi := Z.min claim upper in
    let r :=
      if lower <=? missing_hi then
        mkObserve (or_findings r ++ [missing_span_finding lower missing_hi]) (skipped_span r)
          (Some (lower, missing_hi))
      else r in
    let skipped_lo := Z.max (sat_add claim 1) lower in
    if skipped_lo <=? upper then
      mkObserve (or_findings r) (Some (skipped_lo, upper)) (missing_span r)
    else r.

Definition push_observe (f : Finding) (r : ObserveResult) : ObserveResult :=
  mkObserve (or_findings r ++ [f]) (skipped_span r) (missing_span r).

Section Chain.
Context `{Base58}.

Definition missing_parent_finding (block : BlockInfo) : Finding :=
  Finding_new (b_slot block) MissingParent
    ("parent slot " +:+ to_string (parent_slot block) +:+
     " absent from blocks_metadata; linkage unverifiable").

(** [ChainWalk::check_linkage] *)
Definition check_linkage (w : ChainWalk) (block : BlockInfo) (r : ObserveResult) : ObserveResult :=
  match prev w with
  | Some (prev_slot, prev_hash) =>
      if parent_slot block =? prev_slot then
        if bool_decide (parent_blockhash block <> prev_hash) then
          push_observe
            (with_expected_actual (b58 prev_hash) (b58 (parent_blockhash block))
               (Finding_new (b_slot block) ChainBreak
                  ("parent_blockhash does not match blockhash of parent slot " +:+
                   to_string prev_slot))) r
        else r
      else if prev_slot <? parent_slot block then push_observe (missing_parent_finding block) r
      else
        push_observe
          (with_expected_actual (to_string prev_slot) (to_string (parent_slot block))
             (Finding_new (b_slot block) ParentSlotMismatch
                ("chain claims parent " +:+ to_string (parent_slot block) +:+
                 " but our data holds a later block at slot " +:+ to_string prev_slot))) r
  | None => push_observe (missing_parent_finding block) r
  end.

(** The slot-0 branch of [observe_block]. *)
Definition observe_genesis (w : ChainWalk) (block : BlockInfo) : bool * list Finding :=
  let parent :=
    if negb (parent_slot block =? 0) then
      [with_expected_actual "0" (to_string (parent_slot block))
         (Finding_new 0 ParentSlotMismatch "slot 0 must be its own parent")]
    else [] in
  match expected_genesis_hash w with
  | Some genesis =>
      (true, parent ++
         (if bool_decide (parent_blockhash block <> genesis) then
            [with_expected_actual (b58 genesis) (b58 (parent_blockhash block))
               (Finding_new 0 GenesisHashMismatch
                  "slot 0 parent_blockhash does not match the expected genesis hash")]
          else []))
  | None => (genesis_checked w, parent)
  end.

(** [ChainWalk::observe_block] *)
Definition observe_block (w : ChainWalk) (block : BlockInfo) : ChainWalk * ObserveResult :=
  let '(genesis_checked', r) :=
    if b_slot block =? 0 then
      let '(g, fs) := observe_genesis w block in (g, mkObserve fs None None)
    else if b_slot block <=? parent_slot block then
      (genesis_checked w,
       push_observe
         (with_expected_actual ("< " +:+ to_string (b_slot block)) (to_string (parent_slot block))
            (Finding_new (b_slot block) ParentSlotMismatch
               "parent_slot must be strictly below the block's own slot"))
         ObserveResult_default)
    else
      (genesis_checked w,
       check_linkage w block (classify_interval w block ObserveResult_default)) in
  let '(checked', r) :=
    match anchors w !! b_slot block with
    | Some anchor =>
        ({[b_slot block]} ∪ checked_anchors w,
         if bool_decide (anchor <> blockhash block) then
           push_observe
             (with_expected_actual (b58 anchor) (b58 (blockhash block))
                (Finding_new (b_slot block) AnchorMismatch
                   "recorded blockhash does not match the externally supplied anchor")) r
         else r)
    | None => (checked_anchors w, r)
    end in
  (mkWalk (Some (b_slot block, blockhash block)) (floor_ w) (expected_genesis_hash w) (anchors w)
     checked' genesis_checked', r).

(** [ChainWalk::observe_tail] *)
Definition observe_tail (w : ChainWalk) (range_end : Z) (next_block : option BlockInfo) :
    ObserveResult :=
  let lower := lower_bound w in
  if range_end <? lower then ObserveResult_default
  else
    let '(skipped, missing) :=
      match next_block with
      | Some next =>
          let claim := parent_slot next in
          let missing_hi := Z.min claim range_end in
          let skipped_lo := Z.max (sat_add claim 1) lower in
          (if skipped_lo <=? range_end then Some (skipped_lo, range_end) else None,
           if lower <=? missing_hi then Some (lower, missing_hi) else None)
      | None => (None, Some (lower, range_end))
      end in
    mkObserve
      (match missing with Some (lo, hi) => [missing_span_finding lo hi] | None => [] end)
      skipped missing.

(** The walk over a sequence of blocks, as the runner drives it. *)
Fixpoint observe_blocks (w : ChainWalk) (blocks : list BlockInfo) :
    ChainWalk * list ObserveResult :=
  match blocks with
  | [] => (w, [])
  | b :: rest =>
      let '(w', r) := observe_block w b in
      let '(w'', rs) := observe_blocks w' rest in
      (w'', r :: rs)
  end.

(** ** Shape of one observation *)

(** Membership of a slot in an optional inclusive span. *)
Definition in_span (x : Z) (span : option (Z * Z)) : Prop :=
  match span with Some (lo, hi) => lo <= x <= hi | None => False end.

Definition spans_total (r : ObserveResult) : Z :=
  span_len (skipped_span r) + span_len (missing_span r).

Lemma check_linkage_spans w block r :
  skipped_span (check_linkage w block r) = skipped_span r /\
  missing_span (check_linkage w block r) = missing_span r.
Proof. unfold check_linkage, push_observe. repeat (case_match; simpl; auto). Qed.

Lemma observe_block_prev w b :
  prev (fst (observe_block w b)) = Some (b_slot b, blockhash b).
Proof. unfold observe_block. repeat (case_match; simplify_eq/=; auto). Qed.

Lemma observe_block_pins w b :
  let w' := fst (observe_block w b) in
  floor_ w' = floor_ w /\ anchors w' = anchors w /\
  expected_genesis_hash w' = expected_genesis_hash w /\
  checked_anchors w' =
    if decide (is_Some (anchors w !! b_slot b)) then {[b_slot b]} ∪ checked_anchors w
    else checked_anchors w.
Proof.
  unfold observe_block. destruct (if b_slot b =? 0 then _ else _) as [g r].
  destruct (anchors w !! b_slot b) eqn:E; simpl; repeat split; by case_decide.
Qed.

Lemma observe_block_spans w b :
  let r := snd (observe_block w b) in
  let c := classify_interval w b ObserveResult_default in
  skipped_span r = (if (b_slot b =? 0) || (b_slot b <=? parent_slot b) then None
                    else skipped_span c)%bool /\
  missing_span r = (if (b_slot b =? 0) || (b_slot b <=? parent_slot b) then None
                    else missing_span c)%bool.
Proof.
  cbv zeta. unfold observe_block.
  pose proof (check_linkage_spans w b (classify_interval w b ObserveResult_default)).
  destruct (b_slot b =? 0); [destruct (observe_genesis w b)|destruct (b_slot b <=? parent_slot b)];
    destruct (anchors w !! b_slot b); simpl; auto; case_match; simpl; auto.
Qed.

(** ** Every slot of an interval is classified, once *)

Definition u64_block (b : BlockInfo) : Prop := is_u64 (b_slot b) /\ is_u64 (parent_slot b).

Lemma classify_interval_exact w b x :
  u64_block b -> parent_slot b < b_slot b ->
  let r := classify_interval w b ObserveResult_default in
  (in_span x (missing_span r) <-> lower_bound w <= x < b_slot b /\ x <= parent_slot b) /\
  (in_span x (skipped_span r) <-> lower_bound w <= x < b_slot b /\ parent_slot b < x).
Proof.
  intros [Hs Hp] Hlt. unfold classify_interval. generalize (lower_bound w). intros lower.
  assert (Ea : sat_add (parent_slot b) 1 = parent_slot b + 1) by sat_lia. rewrite Ea.
  destruct (Z.leb_spec (b_slot b) lower); simpl; [split; split; (done || lia)|].
  destruct (Z.leb_spec lower (Z.min (parent_slot b) (b_slot b - 1))); simpl;
    destruct (Z.leb_spec (Z.max (parent_slot b + 1) lower) (b_slot b - 1)); simpl; lia.
Qed.

Lemma classify_interval_total w b :
  u64_block b -> parent_slot b < b_slot b ->
  spans_total (classify_interval w b ObserveResult_default) =
  Z.max 0 (b_slot b - lower_bound w).
Proof.
  intros [Hs Hp] Hlt. unfold classify_interval. generalize (lower_bound w). intros lower.
  assert (Ea : sat_add (parent_slot b) 1 = parent_slot b + 1) by sat_lia. rewrite Ea.
  unfold spans_total, span_len.
  destruct (Z.leb_spec (b_slot b) lower); simpl; [lia|].
  destruct (Z.leb_spec lower (Z.min (parent_slot b) (b_slot b - 1))); simpl;
    destruct (Z.leb_spec (Z.max (parent_slot b + 1) lower) (b_slot b - 1)); simpl; sat_lia.
Qed.

Lemma observe_tail_exact w range_end next x :
  range_end < u64_max -> (forall b, next = Some b -> u64_block b) ->
  let r := observe_tail w range_end next in
  (in_span x (missing_span r) <->
     lower_bound w <= x <= range_end /\
     (forall b, next = Some b -> x <= parent_slot b)) /\
  (in_span x (skipped_span r) <->
     lower_bound w <= x <= range_end /\
     exists b, next = Some b /\ parent_slot b < x).
Proof.
  intros He Hn. unfold observe_tail. generalize (lower_bound w). intros lower.
  destruct (Z.ltb_spec range_end lower); simpl.
  { split; split; try done; intros; lia. }
  destruct next as [b|]; simpl.
  - destruct (Hn b eq_refl) as [_ Hp]. unfold is_u64 in Hp. unfold sat_add.
    split.
    + destruct (Z.leb_spec lower (Z.min (parent_slot b) range_end)); simpl; split.
      * intros. split; [lia|]. intros ? [= <-]. lia.
      * intros [? HI]. specialize (HI b eq_refl). lia.
      * done.
      * intros [? HI]. specialize (HI b eq_refl). lia.
    + destruct (Z.leb_spec (Z.max (Z.min u64_max (parent_slot b + 1)) lower) range_end);
        simpl; split.
      * intros. split; [lia|]. exists b. split; [done|lia].
      * intros [? (? & [= <-] & ?)]. lia.
      * done.
      * intros [? (? & [= <-] & ?)]. lia.
  - split; split; [intros; by split|by intros []|done|by intros [_ (? & ? & _)]].
Qed.

Lemma observe_tail_total w range_end next :
  0 <= range_end < u64_max -> 0 <= lower_bound w ->
  (forall b, next = Some b -> u64_block b) ->
  spans_total (observe_tail w range_end next) = Z.max 0 (range_end + 1 - lower_bound w).
Proof.
  intros He Hl Hn. unfold observe_tail, spans_total, span_len.
  revert Hl. generalize (lower_bound w). intros lower Hl.
  destruct (Z.ltb_spec range_end lower); simpl; [lia|].
  destruct next as [b|]; simpl; [|sat_lia].
  destruct (Hn b eq_refl) as [_ Hp]. unfold is_u64 in Hp. unfold sat_add.
  destruct (Z.leb_spec lower (Z.min (parent_slot b) range_end)); simpl;
    destruct (Z.leb_spec (Z.max (Z.min u64_max (parent_slot b + 1)) lower) range_end);
    simpl; sat_lia.
Qed.

(** ** Conservation: the walk accounts for every slot exactly once *)

(** The blocks of a window range as the reader delivers them: ascending 64-bit
    slots, none below the accounting floor, each naming an earlier parent. *)
Record walk_input (lower : Z) (blocks : list BlockInfo) : Prop := {
  wi_typed : Forall u64_block blocks;
  wi_ascending : ascending (map b_slot blocks);
  wi_lower : Forall (fun b => lower <= b_slot b < u64_max) blocks;
  wi_parents : Forall (fun b => b_slot b = 0 \/ parent_slot b < b_slot b) blocks;
}.

Lemma lower_bound_observe w b :
  floor_ w <= b_slot b < u64_max -> lower_bound (fst (observe_block w b)) = b_slot b + 1.
Proof.
  intros Hb. unfold lower_bound. rewrite observe_block_prev.
  destruct (observe_block_pins w b) as (-> & _). sat_lia.
Qed.

Lemma floor_le_lower w : floor_ w <= lower_bound w.
Proof. unfold lower_bound. case_match; [case_match|]; lia. Qed.

Lemma walk_input_cons lower b bs :
  walk_input lower (b :: bs) ->
  u64_block b /\ lower <= b_slot b < u64_max /\ (b_slot b = 0 \/ parent_slot b < b_slot b) /\
  walk_input (b_slot b + 1) bs.
Proof.
  intros [Ht Ha Hl Hp]. inversion Ht; inversion Hl; inversion Hp; subst.
  cbn [map] in Ha. apply ascending_cons in Ha as [Hf Ha].
  split; [done|]. split; [done|]. split; [done|]. split; [done|done| |done].
  apply Forall_forall. intros x Hx. rewrite Forall_forall in Hf.
  assert (b_slot b < b_slot x) by (apply Hf, list_elem_of_fmap_2, Hx).
  repeat match goal with H : Forall _ bs |- _ => rewrite Forall_forall in H end.
  match goal with H : forall y, y ∈ bs -> _ <= b_slot y < _ |- _ => specialize (H x Hx) end. lia.
Qed.

Lemma observe_block_total w b :
  u64_block b -> 0 <= lower_bound w <= b_slot b ->
  b_slot b = 0 \/ parent_slot b < b_slot b ->
  spans_total (snd (observe_block w b)) = b_slot b - lower_bound w.
Proof.
  intros Hu Hl Hp. unfold spans_total.
  destruct (observe_block_spans w b) as [-> ->].
  destruct (Z.eqb_spec (b_slot b) 0); simpl; [lia|].
  destruct (Z.leb_spec (b_slot b) (parent_slot b)); [lia|].
  pose proof (classify_interval_total w b Hu) as HT. unfold spans_total in HT.
  rewrite HT by lia. lia.
Qed.

Lemma observe_blocks_total w blocks :
  0 <= lower_bound w -> walk_input (lower_bound w) blocks ->
  zsum spans_total (snd (observe_blocks w blocks)) + zlen blocks =
  lower_bound (fst (observe_blocks w blocks)) - lower_bound w.
Proof.
  revert w. induction blocks as [|b bs IH]; intros w H0 Hin; [unfold zlen; simpl; lia|simpl].
  apply walk_input_cons in Hin as (Hu & Hl & Hp & Hin).
  destruct (observe_block w b) as [w' r] eqn:E1.
  destruct (observe_blocks w' bs) as [w'' rs] eqn:E2. simpl.
  pose proof (floor_le_lower w).
  assert (El : lower_bound w' = b_slot b + 1).
  { rewrite <- lower_bound_observe with (w := w) by lia. by rewrite E1. }
  assert (Er : spans_total r = b_slot b - lower_bound w).
  { rewrite <- observe_block_total by (done || lia). by rewrite E1. }
  specialize (IH w'). rewrite E2, El in IH. simpl in IH.
  rewrite zlen_cons. destruct Hu. specialize (IH ltac:(sat_lia) Hin). lia.
Qed.

(** ** A clean walk is a hash-linked chain *)

Fixpoint linked (p : Z * list Z) (blocks : list BlockInfo) : Prop :=
  match blocks with
  | [] => True
  | b :: rest =>
      parent_slot b = fst p /\ parent_blockhash b = snd p /\ fst p < b_slot b /\
      linked (b_slot b, blockhash b) rest
  end.

Definition anchor_ok (pins : gmap Z (list Z)) (b : BlockInfo) : Prop :=
  forall a, pins !! b_slot b = Some a -> a = blockhash b.

Lemma classify_linked w b ps ph :
  u64_block b -> prev w = Some (ps, ph) -> parent_slot b = ps -> ps < b_slot b ->
  or_findings (classify_interval w b ObserveResult_default) = [].
Proof.
  intros [Hu _] Hp He Hlt. unfold classify_interval, lower_bound. rewrite Hp, He.
  repeat (case_match; zbool; simpl; auto). all: exfalso; sat_lia.
Qed.

Lemma classify_findings_app w b r :
  or_findings (classify_interval w b r) =
  or_findings r ++ or_findings (classify_interval w b ObserveResult_default).
Proof. unfold classify_interval. repeat (case_match; simpl; rewrite ?app_nil_r; auto). Qed.

Lemma observe_block_clean w b ps ph :
  u64_block b -> 0 < b_slot b -> prev w = Some (ps, ph) ->
  clean (or_findings (snd (observe_block w b))) <->
  (parent_slot b = ps /\ parent_blockhash b = ph /\ ps < b_slot b) /\ anchor_ok (anchors w) b.
Proof.
  intros Hu H0 Hp. unfold observe_block, anchor_ok.
  destruct (Z.eqb_spec (b_slot b) 0); [lia|].
  set (base := if b_slot b <=? parent_slot b then _ else _).
  assert (Hb : clean (or_findings (snd base)) <->
               parent_slot b = ps /\ parent_blockhash b = ph /\ ps < b_slot b).
  { subst base. destruct (Z.leb_spec (b_slot b) (parent_slot b)); simpl.
    { split; [done|lia]. }
    unfold check_linkage. rewrite Hp.
    destruct (Z.eqb_spec (parent_slot b) ps) as [E|E].
    - pose proof (classify_linked w b ps ph Hu Hp E ltac:(lia)) as Ec.
      case_bool_decide as D; simpl; rewrite Ec.
      + split; [done|tauto].
      + split; [|done]. intros _. split; [done|]. split; [done|lia].
    - destruct (Z.ltb_spec ps (parent_slot b)); simpl; rewrite clean_snoc; split;
        try tauto; by intros [_ ?]. }
  destruct base as [g r]. simpl in Hb.
  destruct (anchors w !! b_slot b) as [a|]; simpl.
  - case_bool_decide as D; simpl.
    + rewrite clean_snoc. split; [by intros [_ ?]|]. intros [_ HA]. by specialize (HA a eq_refl).
    + rewrite Hb. split; [|tauto]. intros. split; [done|]. by intros ? [= <-].
  - rewrite Hb. split; [|tauto]. by intros.
Qed.

Lemma observe_blocks_clean w blocks p :
  Forall u64_block blocks -> Forall (fun b => 0 < b_slot b) blocks -> prev w = Some p ->
  Forall (fun r => clean (or_findings r)) (snd (observe_blocks w blocks)) <->
  linked p blocks /\ Forall (anchor_ok (anchors w)) blocks.
Proof.
  intros Hu H0. revert w p H0. induction Hu as [|b bs Hb Hbs IH]; intros w p H0 Hp; simpl.
  { split; [|constructor]. by split. }
  inversion H0; subst. destruct p as [ps ph].
  pose proof (observe_block_clean w b ps ph Hb ltac:(done) Hp) as HC.
  pose proof (observe_block_prev w b) as Hprev.
  destruct (observe_block_pins w b) as (_ & Ha & _).
  destruct (observe_block w b) as [w' r]. simpl in *.
  specialize (IH w' _ ltac:(done) Hprev).
  destruct (observe_blocks w' bs) as [w'' rs]. simpl in *.
  rewrite !Forall_cons, IH, HC, Ha. tauto.
Qed.

Definition tip (b : BlockInfo) : Z * list Z := (b_slot b, blockhash b).

Lemma linked_app p l1 l2 :
  linked p (l1 ++ l2) <-> linked p l1 /\ linked (default p (tip <$> last l1)) l2.
Proof.
  revert p. induction l1 as [|b l1 IH]; intros p; [simpl; tauto|].
  cbn [app linked]. rewrite IH, last_cons. destruct (last l1); simpl; tauto.
Qed.

(** The origin of the chain: slot 0 is its own parent and carries the pinned
    genesis hash. *)
Definition origin_ok (genesis : option (list Z)) (b : BlockInfo) : Prop :=
  b_slot b = 0 /\ parent_slot b = 0 /\ forall g, genesis = Some g -> parent_blockhash b = g.

(** A walk that has seen no block accepts only the origin. *)
Lemma observe_first_clean w b :
  prev w = None -> clean (or_findings (snd (observe_block w b))) ->
  origin_ok (expected_genesis_hash w) b /\ anchor_ok (anchors w) b.
Proof.
  intros Hp. unfold observe_block, anchor_ok, origin_ok.
  set (base := if b_slot b =? 0 then _ else _).
  assert (Hb : clean (or_findings (snd base)) ->
     b_slot b = 0 /\ parent_slot b = 0 /\
     forall g, expected_genesis_hash w = Some g -> parent_blockhash b = g).
  { subst base. destruct (Z.eqb_spec (b_slot b) 0).
    - unfold observe_genesis. destruct (Z.eqb_spec (parent_slot b) 0); simpl.
      + destruct (expected_genesis_hash w); simpl; [case_bool_decide|]; naive_solver.
      + destruct (expected_genesis_hash w); by simpl.
    - destruct (b_slot b <=? parent_slot b); [done|]. unfold check_linkage. rewrite Hp. simpl.
      rewrite clean_snoc. by intros []. }
  destruct base as [g r]. simpl in Hb.
  destruct (anchors w !! b_slot b) as [a|]; simpl; [case_bool_decide as D; simpl|].
  - rewrite clean_snoc. by intros [].
  - intros Hc. split; [auto|]. by intros ? [= <-].
  - intros Hc. split; [auto|]. done.
Qed.

(** ** Anchors *)

Lemma observe_blocks_pins w blocks :
  anchors (fst (observe_blocks w blocks)) = anchors w /\
  forall s, is_Some (anchors w !! s) ->
    s ∈ checked_anchors (fst (observe_blocks w blocks)) <->
    s ∈ checked_anchors w \/ s ∈ map b_slot blocks.
Proof.
  revert w. induction blocks as [|b bs IH]; intros w; simpl.
  { split; [done|]. intros s _. set_solver. }
  destruct (observe_block_pins w b) as (_ & Ha & _ & Hc).
  destruct (observe_block w b) as [w' r]. simpl in *.
  specialize (IH w'). destruct (observe_blocks w' bs) as [w'' rs]. simpl in *.
  destruct IH as [Ha' HI]. rewrite Ha' , Ha. split; [done|].
  intros s Hs. rewrite HI by by rewrite Ha. rewrite Hc, elem_of_cons.
  case_decide as D; [set_solver|].
  split; [set_solver|]. intros [|[->|]]; [set_solver|done|set_solver].
Qed.

Lemma unchecked_anchors_spec w s h :
  (s, h) ∈ unchecked_anchors w <-> anchors w !! s = Some h /\ s ∉ checked_anchors w.
Proof.
  unfold unchecked_anchors. rewrite sort_by_key_perm.
  rewrite list_elem_of_In, filter_In, <- list_elem_of_In, elem_of_map_to_list. simpl.
  by rewrite bool_decide_eq_true.
Qed.

Lemma unchecked_anchors_sorted w : StronglySorted key_le (unchecked_anchors w).
Proof. apply sort_by_key_sorted. Qed.

(** ** Properties *)

(** Between two observed blocks every slot is classified once: the slots up to
    the new block's claimed parent are missing, the later ones are skipped. *)
Theorem interval_classified_exact w b x :
  u64_block b -> parent_slot b < b_slot b ->
  let r := classify_interval w b ObserveResult_default in
  (in_span x (missing_span r) <-> lower_bound w <= x < b_slot b /\ x <= parent_slot b) /\
  (in_span x (skipped_span r) <-> lower_bound w <= x < b_slot b /\ parent_slot b < x).
Proof. apply classify_interval_exact. Qed.

(** The slots after the last block of the range are skipped when the first
    block beyond the range claims an earlier parent, and missing otherwise. *)
Theorem tail_classified_exact w range_end next x :
  range_end < u64_max -> (forall b, next = Some b -> u64_block b) ->
  let r := observe_tail w range_end next in
  (in_span x (missing_span r) <->
     lower_bound w <= x <= range_end /\ (forall b, next = Some b -> x <= parent_slot b)) /\
  (in_span x (skipped_span r) <->
     lower_bound w <= x <= range_end /\ exists b, next = Some b /\ parent_slot b < x).
Proof. apply observe_tail_exact. Qed.

(** Over any ascending sequence of blocks that name earlier parents, the
    skipped and missing spans and the blocks themselves account for every slot from
    the walk's floor to the last block, none twice and none forgotten. *)
Theorem walk_conserves_slots w blocks :
  0 <= lower_bound w -> walk_input (lower_bound w) blocks ->
  zsum spans_total (snd (observe_blocks w blocks)) + zlen blocks =
  lower_bound (fst (observe_blocks w blocks)) - lower_bound w.
Proof. apply observe_blocks_total. Qed.

(** C35: a walk over the blocks after [p] reports nothing hard exactly when they
    form a chain hanging from [p]: each block names its predecessor's slot and hash,
    and every anchored slot carries the anchored hash. *)
Theorem walk_clean_iff_linked w blocks p :
  Forall u64_block blocks -> Forall (fun b => 0 < b_slot b) blocks -> prev w = Some p ->
  Forall (fun r => clean (or_findings r)) (snd (observe_blocks w blocks)) <->
  linked p blocks /\ Forall (anchor_ok (anchors w)) blocks.
Proof. apply observe_blocks_clean. Qed.

End Chain.
