(* ===== verification/Checkpoint.v ===== *)
(** * Checkpoint: resume state of a verification run

    Models [crates/superbank-verify/src/checkpoint.rs].  The file system is a map
    from paths to files; a file holds a checkpoint (the JSON the [serde] package
    writes and reads back) or bytes that do not parse.  Below it, the section [Disk]
    keeps the bytes: [save] is there a program of file operations (create, append, rename),
    and a process that dies leaves the state after some prefix of them. *)

From Stdlib Require Import Ascii String.
From S2P Require Import Prelude Text Report.

Open Scope string_scope.
Open Scope list_scope.
Open Scope Z_scope.

Record JobDescriptor := mkDescriptor {
  range_start : Z;
  range_end : Z;
  d_mode : string;
  blocks_table : string;
  entries_table : string;
  transactions_table : string;
  ticks_per_slot : Z;
  hashes_per_tick_schedule : string;
  alpenglow_genesis_block : option (Z * list Z);
  d_expected_genesis_hash : option (list Z);
  d_anchors : list (Z * list Z);
  audit_duplicate_conflicts : bool;
}.

#[export] Instance JobDescriptor_eq_dec : EqDecision JobDescriptor.
Proof. solve_decision. Defined.

Definition set_range_end (e : Z) (d : JobDescriptor) : JobDescriptor :=
  mkDescriptor (range_start d) e (d_mode d) (blocks_table d) (entries_table d)
    (transactions_table d) (ticks_per_slot d) (hashes_per_tick_schedule d)
    (alpenglow_genesis_block d) (d_expected_genesis_hash d) (d_anchors d)
    (audit_duplicate_conflicts d).

Definition set_genesis (g : option (Z * list Z)) (d : JobDescriptor) : JobDescriptor :=
  mkDescriptor (range_start d) (range_end d) (d_mode d) (blocks_table d) (entries_table d)
    (transactions_table d) (ticks_per_slot d) (hashes_per_tick_schedule d)
    g (d_expected_genesis_hash d) (d_anchors d) (audit_duplicate_conflicts d).

(** [JobDescriptor::matches_resume] *)
Definition matches_resume (self current : JobDescriptor) (moving_tip : bool) (next_start : Z) :
    bool :=
  if bool_decide (self = current) then true
  else
    let saved :=
      if (moving_tip && (range_end self <=? range_end current))%bool
      then set_range_end (range_end current) self else self in
    let saved :=
      match alpenglow_genesis_block saved, alpenglow_genesis_block current with
      | None, Some (genesis, _) =>
          if next_start <=? sat_add genesis 1
          then set_genesis (alpenglow_genesis_block current) saved else saved
      | _, _ => saved
      end in
    bool_decide (saved = current).

Record Checkpoint := mkCheckpoint {
  descriptor : JobDescriptor;
  next_start : Z;
  counters : RunCounters;
  c_checked_anchors : gset Z;
  c_genesis_checked : bool;
  updated_unix : Z;
}.

(** ** The file system *)

Inductive file := FCheckpoint (c : Checkpoint) | FPartial.
Abbreviation fs := (gmap string file).

(** [Path::with_extension("tmp")]: replace what follows the last dot of the file
    name, or append when the name has no dot after its first character. *)
Fixpoint strip_extension (s : string) : option string :=
  match s with
  | EmptyString => None
  | String c s' =>
      match strip_extension s' with
      | Some t => Some (String c t)
      | None => if (Ascii.eqb c "." && negb (contains "/" s'))%bool then Some EmptyString else None
      end
  end.

Definition ends_with_slash_or_empty (s : string) : bool :=
  match last (list_ascii_of_string s) with
  | None => true
  | Some c => Ascii.eqb c "/"
  end.

Definition file_stem (path : string) : string :=
  match strip_extension path with
  | Some stem => if ends_with_slash_or_empty stem then path else stem
  | None => path
  end.

Definition tmp_path (path : string) : string := file_stem path +:+ ".tmp".

(** [save] *)
Definition save (path : string) (c : Checkpoint) (f : fs) : fs :=
  let tmp := tmp_path path in
  <[ path := FCheckpoint c ]> (delete tmp (<[ tmp := FCheckpoint c ]> f)).

Inductive load_error := ParseFailed | DifferentJob (stored current : JobDescriptor).

(** [load] *)
Definition load (path : string) (f : fs) : result (option Checkpoint) load_error :=
  match f !! path with
  | None => Ok None
  | Some (FCheckpoint c) => Ok (Some c)
  | Some FPartial => Err ParseFailed
  end.

(** [load_for_resume]; [now] is the clock reading of [now_unix]. *)
Definition load_for_resume (path : string) (current : JobDescriptor) (moving_tip : bool)
    (now : Z) (f : fs) : result (option Checkpoint) load_error * fs :=
  match load path f with
  | Err e => (Err e, f)
  | Ok None => (Ok None, f)
  | Ok (Some c) =>
      if negb (matches_resume (descriptor c) current moving_tip (next_start c)) then
        (Err (DifferentJob (descriptor c) current), f)
      else if bool_decide (alpenglow_genesis_block (descriptor c)
                           <> alpenglow_genesis_block current) then
        let c' :=
          mkCheckpoint (set_genesis (alpenglow_genesis_block current) (descriptor c))
            (next_start c) (counters c) (c_checked_anchors c) (c_genesis_checked c) now in
        (Ok (Some c'), save path c' f)
      else (Ok (Some c), f)
  end.

(** ** The bytes on disk

    [from_str] is the [serde_json] function that reads a checkpoint. *)

Section Disk.
Context (from_str : list Z -> option Checkpoint).
Abbreviation disk := (gmap string (list Z)).

(** The system calls behind [std::fs::write] and [std::fs::rename]: open with truncation,
    write at the end, rename. *)
Inductive file_op := Create (path : string) | Append (path : string) (bytes : list Z) | Rename (from to : string).
Definition file_step (d : disk) (op : file_op) : disk :=
  match op with
  | Create path => <[path := []]> d
  | Append path bytes => <[path := default [] (d !! path) ++ bytes]> d
  | Rename from to => match d !! from with Some bytes => <[to := bytes]> (delete from d) | None => d end
  end.
Definition run_file_ops (ops : list file_op) (d : disk) : disk := foldl file_step d ops.

(** [std::fs::write] writes the payload in the pieces the kernel accepts. *)
Definition write_ops (path : string) (pieces : list (list Z)) : list file_op := Create path :: (Append path <$> pieces).
(** The operations of [save] for a payload that is written in [pieces] *)
Definition save_ops (path : string) (pieces : list (list Z)) : list file_op :=
  write_ops (tmp_path path) pieces ++ [Rename (tmp_path path) path].

(** What the bytes are to [load]: a checkpoint or a file that does not parse *)
Definition read_file (bytes : list Z) : file := match from_str bytes with Some c => FCheckpoint c | None => FPartial end.
Definition read_disk (d : disk) : fs := read_file <$> d.
End Disk.

(** ** Which jobs resume *)

(** Two descriptors agree on everything but the range end and the genesis block. *)
Definition same_identity (a b : JobDescriptor) : Prop :=
  set_genesis None (set_range_end 0 a) = set_genesis None (set_range_end 0 b).

Definition tip_ok (saved current : JobDescriptor) (moving_tip : bool) : Prop :=
  range_end saved = range_end current \/
  (moving_tip = true /\ range_end saved <= range_end current).

Definition genesis_ok (saved current : JobDescriptor) (next_start : Z) : Prop :=
  alpenglow_genesis_block saved = alpenglow_genesis_block current \/
  (alpenglow_genesis_block saved = None /\
   exists g h, alpenglow_genesis_block current = Some (g, h) /\ next_start <= sat_add g 1).

Lemma descriptor_ext a b :
  a = b <-> same_identity a b /\ range_end a = range_end b /\
            alpenglow_genesis_block a = alpenglow_genesis_block b.
Proof.
  unfold same_identity. destruct a, b. unfold set_genesis, set_range_end. simpl. split.
  - by intros [= -> -> -> -> -> -> -> -> -> -> -> ->].
  - intros (E & E1 & E2). injection E. intros. subst. done.
Qed.

Lemma matches_resume_spec saved current moving_tip next :
  matches_resume saved current moving_tip next = true <->
  same_identity saved current /\ tip_ok saved current moving_tip /\
  genesis_ok saved current next.
Proof.
  unfold matches_resume. case_bool_decide as E.
  { subst. split; [|done]. intros _. by split; [|split; left]. }
  set (s1 := if (moving_tip && _)%bool then _ else _).
  set (s2 := match alpenglow_genesis_block s1 with Some _ => _ | None => _ end).
  assert (H1 : same_identity s1 saved /\ alpenglow_genesis_block s1 = alpenglow_genesis_block saved
     /\ (range_end s1 = range_end current <-> tip_ok saved current moving_tip)).
  { unfold s1, tip_ok. destruct moving_tip; simpl; [|naive_solver].
    destruct (Z.leb_spec (range_end saved) (range_end current)); simpl; [naive_solver|].
    split; [done|]. split; [done|]. split; [auto|]. intros [|[_ ?]]; [done|lia]. }
  assert (H2 : same_identity s2 saved /\ range_end s2 = range_end s1 /\
     (alpenglow_genesis_block s2 = alpenglow_genesis_block current <->
      genesis_ok saved current next)).
  { destruct H1 as (Hi & Hg & _). unfold s2, genesis_ok. rewrite Hg.
    destruct (alpenglow_genesis_block saved) as [?|] eqn:Es;
      destruct (alpenglow_genesis_block current) as [[g h]|] eqn:Ec;
      try (split; [done|split; [done|]]; rewrite Hg; naive_solver).
    destruct (Z.leb_spec next (sat_add g 1)); simpl.
    - split; [done|]. split; [done|]. split; [|done]. intros _. right. eauto.
    - split; [done|]. split; [done|]. rewrite Hg. split; [done|].
      intros [?|(_ & ? & ? & ? & ?)]; simplify_eq; lia. }
  rewrite bool_decide_eq_true, descriptor_ext.
  destruct H1 as (_ & _ & Ht), H2 as (Hi & Hr & Hg). rewrite Hr, Ht, Hg.
  unfold same_identity in *. rewrite Hi. tauto.
Qed.

(** Whether a slot is checked by the Alpenglow rules under a genesis setting. *)
Definition alpenglow_era (genesis : option (Z * list Z)) (slot : Z) : bool :=
  match genesis with Some (g, _) => g <? slot | None => false end.

Lemma handoff_era saved current next slot :
  genesis_ok saved current next -> 0 <= slot < next ->
  alpenglow_era (alpenglow_genesis_block saved) slot =
  alpenglow_era (alpenglow_genesis_block current) slot.
Proof.
  intros [->|(-> & g & h & -> & Hn)] Hs; [done|]. simpl. symmetry. apply Z.ltb_ge. sat_lia.
Qed.

(** ** Saving and loading *)

Lemma load_save path c f : load path (save path c f) = Ok (Some c).
Proof. unfold load, save. by rewrite lookup_insert_eq. Qed.

(** Other checkpoint files are untouched. *)
Lemma load_save_other path path' c f :
  path' <> path -> path' <> tmp_path path -> load path' (save path c f) = load path' f.
Proof.
  intros H1 H2. unfold load, save.
  by rewrite lookup_insert_ne, lookup_delete_ne, lookup_insert_ne.
Qed.

Lemma load_for_resume_cases path current tip now f :
  match load_for_resume path current tip now f with
  | (Err e, f') => f' = f
  | (Ok None, f') => f' = f /\ load path f = Ok None
  | (Ok (Some c), f') =>
      exists c0, load path f = Ok (Some c0) /\
        matches_resume (descriptor c0) current tip (next_start c0) = true /\
        descriptor c = set_genesis (alpenglow_genesis_block current) (descriptor c0) /\
        next_start c = next_start c0 /\ counters c = counters c0 /\
        c_checked_anchors c = c_checked_anchors c0 /\
        c_genesis_checked c = c_genesis_checked c0 /\
        load path f' = Ok (Some c)
  end.
Proof.
  unfold load_for_resume. destruct (load path f) as [[c0|]|e] eqn:E; [|done|done].
  destruct (matches_resume _ _ _ _) eqn:M; [|done]. simpl.
  case_bool_decide as D.
  - exists c0. rewrite load_save. done.
  - exists c0. rewrite <- D. repeat split; try done. by destruct (descriptor c0).
Qed.

(** ** A save that is cut short *)

Section Crash.
Context (from_str : list Z -> option Checkpoint).

Definition touches_only (path : string) (op : file_op) : Prop := match op with Create p | Append p _ => p = path | Rename _ _ => False end.

(** Writing a file leaves the others alone, and in the end it holds the payload. *)
Lemma run_ops_other path ops other d : other <> path -> Forall (touches_only path) ops -> run_file_ops ops d !! other = d !! other.
Proof.
  intros Hne. revert d. induction ops as [|op ops IH]; intros d Hops; [done|]. apply Forall_cons in Hops as [Ho Hops].
  change (run_file_ops ops (file_step d op) !! other = d !! other). rewrite IH by done.
  destruct op; cbn in *; [subst..|done]; by rewrite lookup_insert_ne.
Qed.
Lemma run_appends path pieces d bytes : d !! path = Some bytes -> run_file_ops (Append path <$> pieces) d = <[path := bytes ++ concat pieces]> d.
Proof.
  revert d bytes. induction pieces as [|piece pieces IH]; intros d bytes Hd; cbn; [by rewrite app_nil_r, insert_id|].
  rewrite Hd. cbn. change (run_file_ops (Append path <$> pieces) (<[path := bytes ++ piece]> d) = <[path := bytes ++ piece ++ concat pieces]> d).
  by rewrite (IH _ (bytes ++ piece)), insert_insert_eq, app_assoc by apply lookup_insert_eq.
Qed.
Lemma run_write path pieces d : run_file_ops (write_ops path pieces) d = <[path := concat pieces]> d.
Proof.
  change (run_file_ops (Append path <$> pieces) (<[path := []]> d) = <[path := concat pieces]> d).
  by rewrite (run_appends _ _ _ []), insert_insert_eq by apply lookup_insert_eq.
Qed.
Lemma write_ops_touch path pieces : Forall (touches_only path) (write_ops path pieces).
Proof. constructor; [done|]. apply Forall_fmap. by induction pieces; constructor. Qed.

(** The whole program does what the model of the runs says it does. *)
Lemma save_ops_save path c pieces d : from_str (concat pieces) = Some c ->
  read_disk from_str (run_file_ops (save_ops path pieces) d) = save path c (read_disk from_str d).
Proof.
  intros Hc. unfold save_ops, run_file_ops. rewrite foldl_app. fold (run_file_ops (write_ops (tmp_path path) pieces) d). rewrite run_write. cbn. rewrite lookup_insert_eq.
  unfold read_disk, save. rewrite fmap_insert, fmap_delete, fmap_insert. unfold read_file at 1 2. by rewrite Hc.
Qed.
Lemma load_read_disk path d d' : d !! path = d' !! path -> load path (read_disk from_str d) = load path (read_disk from_str d').
Proof. intros E. unfold load, read_disk. by rewrite !lookup_fmap, E. Qed.
End Crash.

(** ** Properties *)

(** A checkpoint is resumed exactly when it belongs to the same job: all
    settings agree, the range end is the same (or moved forward on a moving tip), and
    the Alpenglow genesis is the same or was learned before the cursor passed it. *)
Theorem resume_accepts_iff saved current moving_tip next :
  matches_resume saved current moving_tip next = true <->
  same_identity saved current /\ tip_ok saved current moving_tip /\
  genesis_ok saved current next.
Proof. apply matches_resume_spec. Qed.

(** Resuming with a newly learned Alpenglow genesis never changes the rules a
    slot below the cursor was verified under. *)
Theorem handoff_keeps_era saved current moving_tip next slot :
  matches_resume saved current moving_tip next = true -> 0 <= slot < next ->
  alpenglow_era (alpenglow_genesis_block saved) slot =
  alpenglow_era (alpenglow_genesis_block current) slot.
Proof. intros (_ & _ & Hg)%matches_resume_spec. by apply handoff_era. Qed.

(** C38: a process that dies at any point of a save, or whose save fails, leaves the previous
    checkpoint or the new one, never a torn file.  A save is the operations of [save_ops], in
    whatever pieces the payload is written, and the disk is as some prefix of them leaves it:
    the previous checkpoint is read until the last of them, the rename, and the new one after
    it; the whole program does to the files what [save] says.  The checkpoint's path has to
    differ from its own temporary path: it must not have the extension tmp. *)
Theorem save_crash_atomic to_vec_pretty from_str path c pieces d ops :
  from_str (to_vec_pretty c) = Some c -> concat pieces = to_vec_pretty c ->
  tmp_path path <> path -> ops `prefix_of` save_ops path pieces ->
  let left_behind := read_disk from_str (run_file_ops ops d) in
  (ops <> save_ops path pieces -> load path left_behind = load path (read_disk from_str d)) /\
  (ops = save_ops path pieces -> left_behind = save path c (read_disk from_str d) /\ load path left_behind = Ok (Some c)).
Proof.
  intros Hc Hp Hne Hops. cbv zeta. split.
  - intros Hn. apply load_read_disk. apply (run_ops_other (tmp_path path)); [done|]. destruct Hops as [rest E].
    destruct rest as [|op rest _] using rev_ind; [by rewrite app_nil_r in E|]. unfold save_ops in E. rewrite app_assoc in E. apply app_inj_tail in E as [E _].
    pose proof (write_ops_touch (tmp_path path) pieces) as Hw. rewrite E in Hw. by apply Forall_app in Hw as [Hw _].
  - intros ->. rewrite (save_ops_save from_str path c) by by rewrite Hp. split; [done|apply load_save].
Qed.
