(* ===== verification/Runner.v ===== *)
(** * Runner: the windowed fetch, verify and account pipeline

    Models [crates/superbank-verify/src/runner.rs] and the boundary resolution of
    [crates/superbank-verify/src/alpenglow.rs] and
    [crates/superbank-verify/src/epoch.rs].

    The database is an interface: [ChDb] lists the reads of [chdb.rs], each of
    which may fail, and [ChDbLaws] states what the queries promise about the block
    table.  The fetcher task and the main loop are connected by a FIFO channel and
    the fetched data does not depend on the main loop, so the pipeline is the
    sequential composition "fetch the next window, account for it"; rayon's
    [par_iter().map().collect()] is a map.  The epoch schedule ([solana_epoch_schedule])
    and the trusted certificate endpoint are parameters.  Logging, metrics and the
    progress tracker do not influence the result and are left out. *)

From Stdlib Require Import Ascii String.
From S2P Require Import Prelude Text Report Poh Structural Verify RangeSpec Eras Cli Chain Checkpoint.

Open Scope string_scope.
Open Scope list_scope.
Open Scope Z_scope.

Inductive run_error :=
| DbError
| NoBlocksFound
| NoRange
| GenesisMismatch
| GenesisFetch
| ResumeError (e : load_error).

Abbreviation TxSignaturesBySlot := (gmap Z (gmap Z (list (list Z)))) (only parsing).

(** The reads of [ChDb]. *)
Record ChDb := mkChDb {
  fetch_bounds : result (option (Z * Z)) run_error;
  fetch_blocks : Z -> Z -> result (list BlockInfo) run_error;
  fetch_block_at : Z -> result (option BlockInfo) run_error;
  fetch_first_block_after : Z -> result (option BlockInfo) run_error;
  fetch_entries : Z -> Z -> result (gmap Z (list EntryInfo)) run_error;
  fetch_tx_signatures : Z -> Z -> result TxSignaturesBySlot run_error;
  fetch_duplicate_conflicts : Z -> Z -> bool -> result (list Finding) run_error;
}.

(** The epoch schedule the operator selected: first and last slot of an epoch. *)
Record EpochSlots := mkEpochSlots {
  first_slot_in_epoch : Z -> Z;
  last_slot_in_epoch : Z -> Z;
}.

Record WindowData := mkWindow {
  w_end : Z;
  w_blocks : list BlockInfo;
  w_entries : gmap Z (list EntryInfo);
  w_tx_signatures : TxSignaturesBySlot;
  w_duplicate_findings : list Finding;
  w_parent_seed : option BlockInfo;
}.

(** [reconcile_genesis_block] *)
Definition reconcile_genesis_block (remote offline : option (Z * list Z)) :
    result (option (Z * list Z)) run_error :=
  match offline with
  | None => Ok remote
  | Some block => if bool_decide (remote = Some block) then Ok remote else Err GenesisMismatch
  end.

(** [resolve_genesis_block]; [remote url] is the answer of [fetch_genesis_block]. *)
Definition resolve_genesis_block (args : Args)
    (remote : string -> result (option (Z * list Z)) run_error) :
    result (option (Z * list Z)) run_error :=
  match a_alpenglow_rpc_url args with
  | None => Ok (a_alpenglow_genesis_block args)
  | Some url =>
      let? r := remote url in
      reconcile_genesis_block r (a_alpenglow_genesis_block args)
  end.

(** [resolve_range] *)
Definition resolve_range (args : Args) (db : ChDb) (epochs : EpochSlots) :
    result (Z * Z) run_error :=
  if a_full args then
    let? bounds := fetch_bounds db in
    ok_or bounds NoBlocksFound
  else
    match a_range args with
    | Some (Slots start end_) => Ok (start, end_)
    | Some (Epochs start end_) =>
        Ok (first_slot_in_epoch epochs start, last_slot_in_epoch epochs end_)
    | None => Err NoRange
    end.

(** [resolve_alpenglow_setup] *)
Definition resolve_alpenglow_setup (args : Args) (db : ChDb) (epochs : EpochSlots)
    (remote : string -> result (option (Z * list Z)) run_error) :
    result (Z * Z * option (Z * list Z)) run_error :=
  let? range := resolve_range args db epochs in
  let? genesis := resolve_genesis_block args remote in
  Ok (range, genesis).

(** [fetch_window] *)
Definition fetch_window (db : ChDb) (start end_ : Z)
    (fetch_transactions audit_duplicate_conflicts need_parent_seed : bool) :
    result WindowData run_error :=
  let? blocks := fetch_blocks db start end_ in
  let? entries := fetch_entries db start end_ in
  let? tx_signatures :=
    if fetch_transactions then fetch_tx_signatures db start end_ else Ok ∅ in
  let? duplicate_findings :=
    if audit_duplicate_conflicts then fetch_duplicate_conflicts db start end_ fetch_transactions
    else Ok [] in
  let? parent_seed :=
    match blocks with
    | block :: _ =>
        if (need_parent_seed && negb (b_slot block =? 0) && (parent_slot block <? start))%bool
        then fetch_block_at db (parent_slot block)
        else Ok None
    | [] => Ok None
    end in
  Ok (mkWindow end_ blocks entries tx_signatures duplicate_findings parent_seed).

(** [canonical_anchors]: [sort_unstable] on (slot, hash) pairs. *)
Fixpoint bytes_le (a b : list Z) : bool :=
  match a, b with
  | [], _ => true
  | _ :: _, [] => false
  | x :: a', y :: b' => if x <? y then true else if y <? x then false else bytes_le a' b'
  end.

Definition anchor_le (a b : Z * list Z) : Prop :=
  fst a < fst b \/ (fst a = fst b /\ bytes_le (snd a) (snd b) = true).
#[export] Instance anchor_le_dec a b : Decision (anchor_le a b).
Proof. unfold anchor_le. apply _. Defined.

Definition canonical_anchors (l : list (Z * list Z)) : list (Z * list Z) := merge_sort anchor_le l.

(** [account_spans] *)
Definition account_spans (r : ObserveResult) (c : RunCounters) : RunCounters :=
  let skipped := span_len (skipped_span r) in
  let c := if 0 <? skipped then add_skipped skipped c else c in
  let missing := span_len (missing_span r) in
  if 0 <? missing then add_missing missing c else c.

(** [slot_status] *)
Fixpoint slot_status_from (status : SlotStatus) (findings : list Finding) : SlotStatus :=
  match findings with
  | [] => status
  | f :: rest =>
      match f_class f with
      | Fail_ => SlotFailed
      | Unverifiable_ => slot_status_from SlotUnverifiable rest
      | Warn_ => slot_status_from status rest
      end
  end.
Definition slot_status (findings : list Finding) : SlotStatus := slot_status_from SlotOk findings.

(** [duplicates_by_slot.entry(finding.slot).or_default().push(finding)] *)
Definition group_by_slot (fs : list Finding) : gmap Z (list Finding) :=
  foldl (fun m f => <[ f_slot f := default [] (m !! f_slot f) ++ [f] ]> m) ∅ fs.

(** Count, log and write a finding. *)
Definition record_findings (fs : list Finding) (cr : RunCounters * ReportWriter) :
    RunCounters * ReportWriter :=
  foldl (fun cr f => (record_finding (f_code f) (fst cr), write_finding f (snd cr))) cr fs.

(** What the main loop mutates while it accounts for one window. *)
Record RunState := mkRunState {
  rs_walk : ChainWalk;
  rs_counters : RunCounters;
  rs_report : ReportWriter;
  rs_duplicates : gmap Z (list Finding);
  rs_aborted : bool;
}.

Section Runner.
Context `{Base58, Sha256}.

(** [verify_window] *)
Definition verify_window (window : WindowData) (mode : VerifyMode) (ticks_per_slot : Z)
    (schedule : HashesPerTickSchedule) (alpenglow_genesis_slot : option Z) :
    list VerifyOutcome :=
  map (fun block =>
    match w_entries window !! b_slot block with
    | Some ((_ :: _) as entries) =>
        verify_block_in_era mode block entries
          (default ∅ (w_tx_signatures window !! b_slot block)) ticks_per_slot
          (Some (value_at schedule (b_slot block)))
          (match alpenglow_genesis_slot with Some slot => slot <? b_slot block | None => false end)
    | _ =>
        mkOutcome
          [Finding_new (b_slot block) MissingEntries
             "block has no entries rows; PoH unverifiable (range ingested without entry data?)"]
          0 0
    end) (w_blocks window).

(** The body of the loop over [window.blocks.iter().zip(outcomes)]. *)
Definition process_block (max_failures : Z) (st : RunState) (bo : BlockInfo * VerifyOutcome) :
    RunState :=
  let '(block, outcome) := bo in
  let '(walk, chain_result) := observe_block (rs_walk st) block in
  let counters := account_spans chain_result (rs_counters st) in
  let findings :=
    or_findings chain_result ++ vo_findings outcome ++
    default [] (rs_duplicates st !! b_slot block) in
  let counters := record_slot (slot_status findings) counters in
  let counters := add_verified (vo_entries_verified outcome) (vo_hashes_computed outcome) counters in
  let '(counters, report) := record_findings findings (counters, rs_report st) in
  let aborted :=
    (rs_aborted st || ((0 <? max_failures) && (max_failures <=? failure_count counters)))%bool in
  mkRunState walk counters report (delete (b_slot block) (rs_duplicates st)) aborted.

(** Duplicate conflicts on slots without a block row, in slot order. *)
Definition process_orphan (st : RunState) (f : Finding) : RunState :=
  let counters :=
    if bool_decide (f_class f = Fail_) then add_orphan_failure (rs_counters st)
    else rs_counters st in
  mkRunState (rs_walk st) (record_finding (f_code f) counters)
    (write_finding f (rs_report st)) (rs_duplicates st) (rs_aborted st).

Definition process_orphans (st : RunState) : RunState :=
  foldl process_orphan st (mjoin (snd <$> sort_by_key (map_to_list (rs_duplicates st)))).

(** One window of the main loop, up to the checkpoint. *)
Definition process_window (args : Args) (genesis : option (Z * list Z)) (window : WindowData)
    (st : RunState) : RunState :=
  let walk :=
    match w_parent_seed window with
    | Some b => seed (b_slot b) (blockhash b) (rs_walk st)
    | None => rs_walk st
    end in
  let outcomes :=
    verify_window window (to_verify_mode (a_mode args)) (a_ticks_per_slot args)
      (a_schedule args) (fst <$> genesis) in
  let st :=
    mkRunState walk (rs_counters st) (rs_report st)
      (group_by_slot (w_duplicate_findings window)) (rs_aborted st) in
  process_orphans (foldl (process_block (a_max_failures args)) st (zip (w_blocks window) outcomes)).

(** [checkpoint_state] *)
Definition checkpoint_state (d : JobDescriptor) (next : Z) (c : RunCounters) (walk : ChainWalk)
    (now : Z) : Checkpoint :=
  mkCheckpoint d next c (checked_anchors walk) (genesis_checked walk) now.

(** How far the counters account for the range after a window. *)
Definition accounted_through (cursor : Z) (walk : ChainWalk) : Z :=
  match last_present walk with
  | Some slot => Z.max (slot + 1) cursor
  | None => cursor
  end.

Definition save_if (path : option string) (c : Checkpoint) (f : fs) : fs :=
  match path with Some p => save p c f | None => f end.

(** The fetcher's [while start <= range_end] composed with the main loop.  [None]:
    out of fuel; the successor of [end] wraps as in a release build. *)
Fixpoint run_windows (fuel : nat) (args : Args) (db : ChDb) (d : JobDescriptor) (cursor now : Z)
    (start : Z) (need_parent_seed : bool) (st : RunState) (f : fs) :
    option (result RunState run_error * fs) :=
  if range_end d <? start then Some (Ok st, f)
  else
    match fuel with
    | O => None
    | S fuel' =>
        let end_ := Z.min (range_end d) (sat_add start (a_window_slots args - 1)) in
        match fetch_window db start end_ (bool_decide (to_verify_mode (a_mode args) = Full))
                (a_audit_duplicate_conflicts args) need_parent_seed with
        | Err e => Some (Err e, f)
        | Ok window =>
            let st := process_window args (alpenglow_genesis_block d) window st in
            let f :=
              save_if (a_checkpoint_file args)
                (checkpoint_state d (accounted_through cursor (rs_walk st)) (rs_counters st)
                   (rs_walk st) now) f in
            if rs_aborted st then Some (Ok st, f)
            else
              run_windows fuel' args db d cursor now (wrap64 (end_ + 1))
                (need_parent_seed && bool_decide (w_blocks window = []))%bool st f
        end
    end.

(** An anchor that never met a block. *)
Definition anchor_not_checked (slot : Z) : Finding :=
  Finding_new slot AnchorNotChecked
    "anchor was never compared: slot has no block in the verified range (skipped, missing, or outside the range)".

(** The tail of [run] after the window loop, when it was not aborted. *)
Definition finish_run (args : Args) (db : ChDb) (d : JobDescriptor) (now : Z) (st : RunState)
    (f : fs) : result RunState run_error * fs :=
  match fetch_first_block_after db (range_end d) with
  | Err e => (Err e, f)
  | Ok next_block =>
      let tail := observe_tail (rs_walk st) (range_end d) next_block in
      let counters := account_spans tail (rs_counters st) in
      let '(counters, report) := record_findings (or_findings tail) (counters, rs_report st) in
      let unchecked := anchor_not_checked ∘ fst <$> unchecked_anchors (rs_walk st) in
      let '(counters, report) :=
        foldl (fun cr g =>
                 (record_finding (f_code g) (add_anchor_unchecked (fst cr)),
                  write_finding g (snd cr)))
          (counters, report) unchecked in
      (Ok (mkRunState (rs_walk st) counters report (rs_duplicates st) (rs_aborted st)),
       save_if (a_checkpoint_file args)
         (checkpoint_state d (range_end d + 1) counters (rs_walk st) now) f)
  end.

(** The descriptor [run] builds. *)
Definition job_descriptor (args : Args) (range : Z * Z) (genesis : option (Z * list Z)) :
    JobDescriptor :=
  mkDescriptor (fst range) (snd range) (ModeArg_as_str (a_mode args)) (a_blocks_table args)
    (a_entries_table args) (a_transactions_table args) (a_ticks_per_slot args)
    (to_spec (a_schedule args)) genesis (a_expected_genesis_hash args)
    (canonical_anchors (a_anchors args)) (a_audit_duplicate_conflicts args).

(** The run from a cursor and the state a checkpoint restores. *)
Definition run_from (args : Args) (db : ChDb) (d : JobDescriptor) (now cursor : Z)
    (c : RunCounters) (checked : gset Z) (genesis : bool) (resumed : bool)
    (report_lines : list Finding) (f : fs) :
    option (result (RunCounters * ReportWriter) run_error * fs) :=
  if range_end d <? cursor then Some (Ok (c, None), f)
  else
    let walk :=
      from_checkpoint cursor (a_expected_genesis_hash args) (list_to_map (rev (a_anchors args)))
        checked genesis in
    let report := ReportWriter_new (const report_lines <$> a_report_file args) resumed in
    match run_windows (Z.to_nat (range_end d - cursor + 1)) args db d cursor now cursor true
            (mkRunState walk c report ∅ false) f with
    | None => None
    | Some (Err e, f) => Some (Err e, f)
    | Some (Ok st, f) =>
        if rs_aborted st then Some (Ok (rs_counters st, rs_report st), f)
        else
          match finish_run args db d now st f with
          | (Err e, f) => Some (Err e, f)
          | (Ok st, f) => Some (Ok (rs_counters st, rs_report st), f)
          end
    end.

(** [run] *)
Definition run (args : Args) (db : ChDb) (epochs : EpochSlots)
    (remote : string -> result (option (Z * list Z)) run_error) (now : Z)
    (report_lines : list Finding) (f : fs) :
    option (result (RunCounters * ReportWriter) run_error * fs) :=
  match resolve_alpenglow_setup args db epochs remote with
  | Err e => Some (Err e, f)
  | Ok (range, genesis) =>
      let d := job_descriptor args range genesis in
      match (if a_resume args then a_checkpoint_file args else None) with
      | Some path =>
          match load_for_resume path d (a_full args) now f with
          | (Err e, f) => Some (Err (ResumeError e), f)
          | (Ok None, f) =>
              run_from args db d now (range_start d) RunCounters_default ∅ false false
                report_lines f
          | (Ok (Some saved), f) =>
              run_from args db d now (next_start saved) (counters saved)
                (c_checked_anchors saved) (c_genesis_checked saved) true report_lines f
          end
      | None =>
          run_from args db d now (range_start d) RunCounters_default ∅ false false report_lines f
      end
  end.

End Runner.
