(* ===== verification/RunnerAccounting.v ===== *)
(** * RunnerAccounting: every slot of a run is accounted for exactly once

    The laws the runner relies on of its database ([ChDbLaws]), the invariant of
    the window loop, and its consequences: the loop terminates, a completed run
    counts every slot of the range once, every checkpoint on disk counts exactly
    the slots below its cursor, so an interrupted and resumed run counts every slot
    once as well. *)

From Stdlib Require Import Ascii String.
From S2P Require Import Prelude Text Report Poh Structural Verify RangeSpec Eras Cli Chain Checkpoint Runner.

Open Scope list_scope.
Open Scope Z_scope.

(** The rows of the block table with a slot in [s, e]. *)
Definition blocks_in (s e : Z) (table : list BlockInfo) : list BlockInfo :=
  List.filter (fun b => (s <=? b_slot b) && (b_slot b <=? e))%bool table.

(** What the queries promise: the reads of one run see one block table, one row
    per slot, in slot order; the slot-keyed reads return the rows of that slot. *)
Class ChDbLaws (db : ChDb) (table : list BlockInfo) (rows : gmap Z (list EntryInfo))
    (txs : gmap Z (gmap Z (list (list Z)))) : Prop := {
  law_ascending : ascending (map b_slot table);
  law_typed : Forall u64_block table;
  law_blocks : forall s e l, fetch_blocks db s e = Ok l -> l = blocks_in s e table;
  law_block_at : forall s b, fetch_block_at db s = Ok (Some b) -> b ∈ table /\ b_slot b = s;
  law_after : forall s b, fetch_first_block_after db s = Ok (Some b) -> b ∈ table /\ s < b_slot b;
  law_entries : forall s e m slot, fetch_entries db s e = Ok m -> s <= slot <= e ->
    m !! slot = rows !! slot;
  law_tx : forall s e m slot, fetch_tx_signatures db s e = Ok m -> s <= slot <= e ->
    m !! slot = txs !! slot;
}.

(** ** Counters *)

(** The counters that drive the exit code. *)
Definition counts (c : RunCounters) : Z * Z * Z * Z * Z * Z * Z :=
  (slots_ok c, slots_failed c, slots_unverifiable c, slots_skipped c, slots_missing c,
   orphan_failures c, anchors_unchecked c).

Lemma counts_accounted c c' : counts c = counts c' -> slots_accounted c = slots_accounted c'.
Proof. unfold counts, slots_accounted. by intros [= -> -> -> -> -> _ _]. Qed.

Lemma record_finding_counts code c : counts (record_finding code c) = counts c.
Proof. by destruct c. Qed.

Lemma record_findings_counts fs cr : counts (fst (record_findings fs cr)) = counts (fst cr).
Proof.
  unfold record_findings. revert cr. induction fs as [|f fs IH]; intros cr; simpl; [done|].
  by rewrite IH, <- (record_finding_counts (f_code f) (fst cr)).
Qed.

Lemma add_verified_counts e h c : counts (add_verified e h c) = counts c.
Proof. by destruct c. Qed.

Lemma span_len_nonneg s : 0 <= span_len s.
Proof. destruct s as [[lo hi]|]; simpl; [sat_lia|lia]. Qed.

Lemma account_spans_counts r c :
  counts (account_spans r c) =
  (slots_ok c, slots_failed c, slots_unverifiable c,
   slots_skipped c + span_len (skipped_span r), slots_missing c + span_len (missing_span r),
   orphan_failures c, anchors_unchecked c).
Proof.
  unfold account_spans. pose proof (span_len_nonneg (skipped_span r)).
  pose proof (span_len_nonneg (missing_span r)). destruct c.
  destruct (Z.ltb_spec 0 (span_len (skipped_span r))),
    (Z.ltb_spec 0 (span_len (missing_span r))); unfold counts; simpl; repeat f_equal; lia.
Qed.

Lemma account_spans_accounted r c :
  slots_accounted (account_spans r c) = slots_accounted c + spans_total r.
Proof.
  pose proof (account_spans_counts r c) as E. unfold counts in E. unfold slots_accounted, spans_total.
  injection E. intros _ _ -> -> -> -> ->. lia.
Qed.

Section Accounting.
Context `{Base58, Sha256}.

(** ** One block *)

Definition block_findings (st : RunState) (bo : BlockInfo * VerifyOutcome) : list Finding :=
  or_findings (snd (observe_block (rs_walk st) (fst bo))) ++ vo_findings (snd bo) ++
  default [] (rs_duplicates st !! b_slot (fst bo)).

Lemma process_block_walk mf st bo :
  rs_walk (process_block mf st bo) = fst (observe_block (rs_walk st) (fst bo)).
Proof.
  destruct bo as [b o]. unfold process_block. simpl.
  destruct (observe_block (rs_walk st) b). by destruct (record_findings _ _).
Qed.

Lemma process_block_counts mf st bo :
  counts (rs_counters (process_block mf st bo)) =
  counts (record_slot (slot_status (block_findings st bo))
    (account_spans (snd (observe_block (rs_walk st) (fst bo))) (rs_counters st))).
Proof.
  destruct bo as [b o]. unfold process_block, block_findings. simpl.
  destruct (observe_block (rs_walk st) b) as [w r]. simpl.
  set (c := add_verified _ _ _).
  pose proof (record_findings_counts
    (or_findings r ++ vo_findings o ++ default [] (rs_duplicates st !! b_slot b))
    (c, rs_report st)) as E.
  destruct (record_findings _ _) as [c' rep]. simpl in *. rewrite E. unfold c.
  apply add_verified_counts.
Qed.

Lemma process_block_accounted mf st bo :
  slots_accounted (rs_counters (process_block mf st bo)) =
  slots_accounted (rs_counters st) +
  spans_total (snd (observe_block (rs_walk st) (fst bo))) + 1.
Proof.
  rewrite (counts_accounted _ _ (process_block_counts mf st bo)).
  rewrite slots_accounted_record_slot, account_spans_accounted. lia.
Qed.

(** A run is aborted only when its failure budget is exhausted. *)
Definition aborted_ok (mf : Z) (st : RunState) : Prop :=
  rs_aborted st = true -> 0 < mf <= failure_count (rs_counters st).

Lemma counts_failures c c' : counts c = counts c' -> failure_count c = failure_count c'.
Proof. unfold counts, failure_count. by intros [= _ -> _ _ _ -> _]. Qed.

Lemma record_slot_failures s c : failure_count c <= failure_count (record_slot s c).
Proof. destruct s, c; unfold failure_count; simpl; lia. Qed.

Lemma process_block_failures mf st bo :
  failure_count (rs_counters st) <= failure_count (rs_counters (process_block mf st bo)).
Proof.
  rewrite (counts_failures _ _ (process_block_counts mf st bo)).
  etrans; [|apply record_slot_failures].
  pose proof (account_spans_counts (snd (observe_block (rs_walk st) (fst bo))) (rs_counters st)) as E.
  unfold counts in E. unfold failure_count. injection E. intros _ -> _ _ _ -> _. lia.
Qed.

Lemma process_block_aborted mf st bo : aborted_ok mf st -> aborted_ok mf (process_block mf st bo).
Proof.
  unfold aborted_ok. intros Ha. pose proof (process_block_failures mf st bo) as Hm.
  revert Hm. destruct bo as [b o]. unfold process_block.
  destruct (observe_block (rs_walk st) b). destruct (record_findings _ _). simpl.
  intros Hm [Hx|Hx]%orb_true_iff; [specialize (Ha Hx); lia|]. zbool. lia.
Qed.

(** ** All the blocks of a window *)

Lemma process_blocks_walk mf st l :
  rs_walk (foldl (process_block mf) st l) = fst (observe_blocks (rs_walk st) (fst <$> l)).
Proof.
  revert st. induction l as [|[b o] l IH]; intros st; [done|]. cbn [foldl].
  rewrite IH, process_block_walk. simpl.
  destruct (observe_block (rs_walk st) b) as [w r]. simpl.
  change (list_fmap _ _ fst l) with (fst <$> l).
  by destruct (observe_blocks w (fst <$> l)).
Qed.

Lemma process_blocks_accounted mf st l :
  slots_accounted (rs_counters (foldl (process_block mf) st l)) =
  slots_accounted (rs_counters st) +
  zsum spans_total (snd (observe_blocks (rs_walk st) (fst <$> l))) + zlen l.
Proof.
  revert st. induction l as [|[b o] l IH]; intros st; [unfold zlen; simpl; lia|].
  rewrite zlen_cons. cbn [foldl]. rewrite IH, process_block_walk, process_block_accounted. simpl.
  destruct (observe_block (rs_walk st) b) as [w r]. simpl.
  change (list_fmap _ _ fst l) with (fst <$> l).
  destruct (observe_blocks w (fst <$> l)) as [w' rs]. simpl. lia.
Qed.

Lemma process_blocks_aborted mf st l :
  aborted_ok mf st -> aborted_ok mf (foldl (process_block mf) st l).
Proof.
  revert st. induction l as [|bo l IH]; intros st Ha; [done|]. cbn [foldl].
  by apply IH, process_block_aborted.
Qed.

Lemma process_orphan_fold st l :
  let st' := foldl process_orphan st l in
  rs_walk st' = rs_walk st /\ rs_aborted st' = rs_aborted st /\
  slots_accounted (rs_counters st') = slots_accounted (rs_counters st) /\
  failure_count (rs_counters st) <= failure_count (rs_counters st').
Proof.
  revert st. induction l as [|f l IH]; intros st; simpl; [done|].
  destruct (IH (process_orphan st f)) as (-> & -> & -> & Hf). unfold process_orphan in *. simpl in *.
  split; [done|]. split; [done|]. rewrite slots_accounted_record_finding. split.
  - case_bool_decide; [|done]. by destruct (rs_counters st).
  - etrans; [|exact Hf]. case_bool_decide; destruct (rs_counters st); unfold failure_count; simpl; lia.
Qed.

(** The walk a window starts from. *)
Definition window_walk (window : WindowData) (w : ChainWalk) : ChainWalk :=
  match w_parent_seed window with
  | Some b => seed (b_slot b) (blockhash b) w
  | None => w
  end.

Lemma fst_zip_outcomes args (genesis : option (Z * list Z)) window :
  fst <$> zip (w_blocks window)
    (verify_window window (to_verify_mode (a_mode args)) (a_ticks_per_slot args)
       (a_schedule args) (fst <$> genesis)) = w_blocks window.
Proof.
  apply fst_zip. unfold verify_window. by rewrite length_map.
Qed.

Lemma process_window_facts args genesis window st :
  let st' := process_window args genesis window st in
  let w := window_walk window (rs_walk st) in
  rs_walk st' = fst (observe_blocks w (w_blocks window)) /\
  slots_accounted (rs_counters st') =
    slots_accounted (rs_counters st) +
    zsum spans_total (snd (observe_blocks w (w_blocks window))) + zlen (w_blocks window) /\
  (aborted_ok (a_max_failures args) st -> aborted_ok (a_max_failures args) st').
Proof.
  unfold process_window, process_orphans. cbv zeta. fold (window_walk window (rs_walk st)).
  set (st1 := mkRunState (window_walk window (rs_walk st)) _ _ _ _).
  set (l := zip (w_blocks window) _). set (st2 := foldl _ st1 l).
  destruct (process_orphan_fold st2
    (mjoin (snd <$> sort_by_key (map_to_list (rs_duplicates st2))))) as (-> & Eab & -> & Hfail).
  set (st3 := foldl process_orphan st2 _) in *.
  assert (Hab : aborted_ok (a_max_failures args) st2 -> aborted_ok (a_max_failures args) st3).
  { intros Ha. unfold aborted_ok in *. rewrite Eab. intros Hx. specialize (Ha Hx). lia. }
  clearbody st3. unfold st2. rewrite process_blocks_walk, process_blocks_accounted. unfold l.
  rewrite fst_zip_outcomes. split; [done|]. split.
  - unfold zlen. rewrite length_zip. unfold verify_window. rewrite length_map, Nat.min_id. done.
  - intros Ha. apply Hab, process_blocks_aborted. done.
Qed.

(** ** The window loop *)

Section Loop.
Context {db : ChDb} {table : list BlockInfo} {rows : gmap Z (list EntryInfo)}
  {txs : gmap Z (gmap Z (list (list Z)))} `{!ChDbLaws db table rows txs}.
Context (args : Args) (d : JobDescriptor) (cursor now base : Z).

(** Every block of the range names an earlier parent. *)
Definition parents_ok : Prop :=
  Forall (fun b => b_slot b = 0 \/ parent_slot b < b_slot b) (blocks_in cursor (range_end d) table).

Context (Hcursor : 0 <= cursor) (Hend : range_end d < u64_max) (Hwin : 1 <= a_window_slots args).

Record loop_inv (start : Z) (st : RunState) : Prop := {
  li_floor : floor_ (rs_walk st) = cursor;
  li_start : cursor <= start;
  li_lower : cursor <= lower_bound (rs_walk st) <= start;
  li_accounted : slots_accounted (rs_counters st) = base + lower_bound (rs_walk st) - cursor;
  li_prev : forall s h, prev (rs_walk st) = Some (s, h) -> s < start;
  li_first : prev (rs_walk st) = None ->
    forall b, b ∈ table -> ~ (cursor <= b_slot b < start);
}.

Lemma elem_of_blocks_in s e b : b ∈ blocks_in s e table <-> b ∈ table /\ s <= b_slot b <= e.
Proof.
  unfold blocks_in. rewrite list_elem_of_In, filter_In, <- list_elem_of_In.
  rewrite andb_true_iff, !Z.leb_le. tauto.
Qed.

Lemma blocks_in_ascending s e : ascending (map b_slot (blocks_in s e table)).
Proof.
  pose proof law_ascending as Ha. clear -Ha. unfold blocks_in.
  induction table as [|b l IH]; simpl; [constructor|].
  cbn [map] in Ha. apply ascending_cons in Ha as [Hf Ha].
  destruct (_ && _)%bool; [|auto]. cbn [map]. apply ascending_cons. split; [|auto].
  rewrite Forall_forall in *. intros x Hx. apply Hf.
  apply list_elem_of_fmap in Hx as (y & -> & Hy). apply list_elem_of_fmap_2.
  rewrite list_elem_of_In, filter_In, <- list_elem_of_In in Hy. tauto.
Qed.

(** A fetched window, as the loop receives it. *)
Lemma fetch_window_ok start end_ t a n w :
  fetch_window db start end_ t a n = Ok w ->
  w_blocks w = blocks_in start end_ table /\
  (forall p, w_parent_seed w = Some p -> p ∈ table /\ b_slot p < start /\
     exists b bs, w_blocks w = b :: bs /\ b_slot p = parent_slot b /\ b_slot b <> 0).
Proof.
  unfold fetch_window.
  destruct (fetch_blocks db start end_) as [blocks|] eqn:Eb; [|done]. simpl.
  destruct (fetch_entries db start end_) as [es|]; [|done]. simpl.
  destruct (if t then _ else _) as [txm|]; [|done]. simpl.
  destruct (if a then _ else _) as [dups|]; [|done]. simpl.
  apply law_blocks in Eb. destruct blocks as [|b bs]; simpl.
  { intros [= <-]. simpl. split; [done|]. done. }
  destruct (n && negb (b_slot b =? 0) && (parent_slot b <? start))%bool eqn:Ec; simpl.
  - destruct (fetch_block_at db (parent_slot b)) as [o|] eqn:Ef; [|done]. simpl. intros [= <-]. simpl.
    split; [done|]. intros p ->. apply law_block_at in Ef as [Hp Es].
    zbool. split; [done|]. split; [lia|]. exists b, bs. split; [done|]. split; [done|lia].
  - intros [= <-]. simpl. split; [done|]. done.
Qed.

Lemma seed_lower w s h :
  prev w = None -> s < floor_ w -> floor_ w <= u64_max -> lower_bound (seed s h w) = floor_ w.
Proof. intros Hp Hs Hf. unfold seed. rewrite Hp. unfold lower_bound. simpl. sat_lia. Qed.

Lemma window_walk_lower start end_ t a n w st :
  loop_inv start st -> start <= u64_max -> fetch_window db start end_ t a n = Ok w ->
  lower_bound (window_walk w (rs_walk st)) = lower_bound (rs_walk st) /\
  floor_ (window_walk w (rs_walk st)) = cursor.
Proof.
  intros [Hf Hs Hl _ _ Hfirst] Hu Hw. apply fetch_window_ok in Hw as [_ Hseed].
  unfold window_walk. destruct (w_parent_seed w) as [p|]; [|done].
  destruct (Hseed p eq_refl) as (Hp & Hps & _).
  destruct (prev (rs_walk st)) as [q|] eqn:Ep.
  - unfold seed. by rewrite Ep.
  - split; [|unfold seed; by rewrite Ep]. specialize (Hfirst eq_refl p Hp).
    rewrite seed_lower; [|done|lia|lia]. unfold lower_bound. by rewrite Ep.
Qed.

Lemma window_walk_prev w walk : prev (window_walk w walk) = None -> prev walk = None.
Proof.
  unfold window_walk. destruct (w_parent_seed w); [|done]. unfold seed.
  destruct (prev walk) eqn:E; [by rewrite E|done].
Qed.

Lemma window_walk_prev_below w walk start :
  (forall s h, prev walk = Some (s, h) -> s < start) ->
  (forall p, w_parent_seed w = Some p -> b_slot p < start) ->
  forall s h, prev (window_walk w walk) = Some (s, h) -> s < start.
Proof.
  unfold window_walk. destruct (w_parent_seed w) as [p|]; [|done]. unfold seed. intros Hp Hs s h.
  destruct (prev walk) as [[s' h']|] eqn:E; [rewrite E; apply Hp|].
  simpl. intros [= <- _]. auto.
Qed.

Lemma observe_blocks_prev w bs :
  prev (fst (observe_blocks w bs)) =
  match last bs with Some b => Some (b_slot b, blockhash b) | None => prev w end.
Proof.
  revert w. induction bs as [|b bs IH]; intros w; [done|]. simpl observe_blocks.
  pose proof (observe_block_prev w b) as Hp. destruct (observe_block w b) as [w' r]. simpl in Hp.
  specialize (IH w'). destruct (observe_blocks w' bs) as [w'' rs]. simpl in *.
  rewrite IH, last_cons. by destruct (last bs).
Qed.

Lemma observe_blocks_floor w bs : floor_ (fst (observe_blocks w bs)) = floor_ w.
Proof.
  revert w. induction bs as [|b bs IH]; intros w; [done|]. simpl.
  destruct (observe_block_pins w b) as (Hf & _). destruct (observe_block w b) as [w' r].
  specialize (IH w'). destruct (observe_blocks w' bs). simpl in *. congruence.
Qed.

Lemma window_input start end_ lower :
  parents_ok -> cursor <= start -> lower <= start -> end_ <= range_end d ->
  walk_input lower (blocks_in start end_ table).
Proof.
  intros Hp Hs Hl He. unfold parents_ok in Hp. rewrite Forall_forall in Hp. split.
  - pose proof law_typed as Ht. rewrite Forall_forall in *.
    intros b Hb. apply elem_of_blocks_in in Hb as [Hb _]. auto.
  - apply blocks_in_ascending.
  - apply Forall_forall. intros b Hb. apply elem_of_blocks_in in Hb. lia.
  - apply Forall_forall. intros b Hb. apply elem_of_blocks_in in Hb as [Hb Hr].
    apply Hp, elem_of_blocks_in. split; [done|lia].
Qed.

(** One turn of the loop keeps the invariant. *)
Lemma loop_inv_step start end_ t a n w genesis st :
  parents_ok -> loop_inv start st -> start <= end_ <= range_end d ->
  fetch_window db start end_ t a n = Ok w ->
  loop_inv (end_ + 1) (process_window args genesis w st).
Proof.
  intros Hp Hi Hse Hw.
  destruct (window_walk_lower _ _ _ _ _ _ _ Hi ltac:(lia) Hw) as [El Ef].
  destruct (fetch_window_ok _ _ _ _ _ _ Hw) as [Eb Hseed].
  destruct (process_window_facts args genesis w st) as (Ew & Ea & _).
  destruct Hi as [Hf Hs Hl Hacc Hprev Hfirst].
  set (w0 := window_walk w (rs_walk st)) in *. rewrite Eb in Ew, Ea.
  assert (Hin : walk_input (lower_bound w0) (blocks_in start end_ table)).
  { apply window_input; (done || lia). }
  pose proof (observe_blocks_total w0 _ ltac:(lia) Hin) as Ht.
  assert (Hlo : lower_bound w0 <= lower_bound (rs_walk (process_window args genesis w st)) <= end_ + 1).
  { rewrite Ew. unfold lower_bound at 2 3. rewrite observe_blocks_prev, observe_blocks_floor.
    destruct (last (blocks_in start end_ table)) as [b|] eqn:E.
    - apply last_Some_elem_of, elem_of_blocks_in in E. sat_lia.
    - assert (Hx : lower_bound w0 = match prev w0 with
         | Some (slot, _) => Z.max (sat_add slot 1) (floor_ w0) | None => floor_ w0 end) by done.
      rewrite <- Hx. lia. }
  split.
  - rewrite Ew. by rewrite observe_blocks_floor.
  - lia.
  - lia.
  - rewrite Ea, Ew. lia.
  - intros s h. rewrite Ew, observe_blocks_prev.
    destruct (last (blocks_in start end_ table)) as [b|] eqn:E.
    + intros [= <- <-]. apply last_Some_elem_of, elem_of_blocks_in in E. lia.
    + intros Hs'. pose proof (window_walk_prev_below w (rs_walk st) start Hprev
        (fun p Hp => proj1 (proj2 (Hseed p Hp))) s h Hs'). lia.
  - rewrite Ew, observe_blocks_prev.
    destruct (last (blocks_in start end_ table)) as [b|] eqn:E; [done|].
    apply last_None in E. intros Hn b Hb Hr.
    destruct (decide (b_slot b < start)) as [Hlt|Hge].
    + apply (Hfirst (window_walk_prev _ _ Hn) b Hb). lia.
    + assert (Hin' : b ∈ blocks_in start end_ table) by (apply elem_of_blocks_in; split; [done|lia]).
      rewrite E in Hin'. by apply elem_of_nil in Hin'.
Qed.

(** A checkpoint that counts exactly the slots below its cursor. *)
Definition checkpoint_counts (c : Checkpoint) : Prop :=
  slots_accounted (counters c) = base + next_start c - cursor /\
  cursor <= next_start c <= range_end d + 1 /\ descriptor c = d.

Lemma accounted_through_lower start st :
  loop_inv start st -> start <= range_end d + 1 ->
  accounted_through cursor (rs_walk st) = lower_bound (rs_walk st).
Proof.
  intros [Hf Hs Hl _ Hp _] He. unfold accounted_through, last_present, lower_bound. rewrite Hf.
  destruct (prev (rs_walk st)) as [[s h]|]; simpl; [|done].
  specialize (Hp s h eq_refl). sat_lia.
Qed.

Lemma window_checkpoint start st :
  loop_inv start st -> start <= range_end d + 1 ->
  checkpoint_counts
    (checkpoint_state d (accounted_through cursor (rs_walk st)) (rs_counters st) (rs_walk st) now).
Proof.
  intros Hi He. unfold checkpoint_counts, checkpoint_state. simpl.
  rewrite (accounted_through_lower _ _ Hi He). destruct Hi as [_ _ Hl Ha _ _].
  split; [lia|]. split; [lia|done].
Qed.

(** The checkpoint file holds what it held, or a checkpoint that counts. *)
Definition disk_ok (f f' : fs) : Prop :=
  forall path, a_checkpoint_file args = Some path ->
    load path f' = load path f \/
    exists c, load path f' = Ok (Some c) /\ checkpoint_counts c.

Lemma disk_ok_save c f f' :
  checkpoint_counts c -> f' = save_if (a_checkpoint_file args) c f -> disk_ok f f'.
Proof.
  intros Hc -> path Hp. unfold save_if. rewrite Hp. right. exists c. by rewrite load_save.
Qed.

Lemma disk_ok_trans f g h : disk_ok f g -> disk_ok g h -> disk_ok f h.
Proof. intros H1 H2 path Hp. destruct (H2 path Hp) as [->|]; auto. Qed.

Lemma disk_ok_refl f : disk_ok f f.
Proof. intros path _. auto. Qed.

Lemma window_end start :
  start <= range_end d -> 0 <= start ->
  let e := Z.min (range_end d) (sat_add start (a_window_slots args - 1)) in
  start <= e <= range_end d /\ wrap64 (e + 1) = e + 1.
Proof.
  intros Hs Hz. cbv zeta. unfold sat_add, wrap64. unfold u64_max in *.
  split; [lia|]. rewrite Z.mod_small; lia.
Qed.

(** The loop terminates. *)
Lemma run_windows_total fuel start need st f :
  0 <= start -> range_end d - start + 1 <= Z.of_nat fuel ->
  run_windows fuel args db d cursor now start need st f <> None.
Proof.
  revert start need st f. induction fuel as [|fuel IH]; intros start need st f Hz Hfuel; simpl.
  all: destruct (Z.ltb_spec (range_end d) start); [done|].
  { lia. }
  destruct (window_end start) as [He ->]; [lia|lia|].
  destruct (fetch_window _ _ _ _ _ _) as [w|e]; [|done].
  destruct (rs_aborted _); [done|]. apply IH; lia.
Qed.

(** What the loop leaves behind, whichever way it ends. *)
Lemma run_windows_inv fuel start need st f res f' :
  parents_ok -> loop_inv start st -> start <= range_end d + 1 ->
  run_windows fuel args db d cursor now start need st f = Some (res, f') ->
  disk_ok f f' /\
  forall st', res = Ok st' ->
    (exists s, s <= range_end d + 1 /\ loop_inv s st') /\
    (rs_aborted st = false -> rs_aborted st' = false -> loop_inv (range_end d + 1) st').
Proof.
  intros Hp. revert start need st f. induction fuel as [|fuel IH]; intros start need st f Hi Hs; simpl.
  all: destruct (Z.ltb_spec (range_end d) start).
  2: done.
  1,2: intros [= <- <-]; split; [apply disk_ok_refl|]; intros st' [= <-];
    replace (range_end d + 1) with start by lia; split; [exists start; split; [lia|done]|done].
  pose proof (li_start _ _ Hi).
  destruct (window_end start) as [He ->]; [lia|lia|].
  set (e := Z.min _ _) in *. destruct (fetch_window _ _ _ _ _ _) as [w|err] eqn:Ew.
  2: { intros [= <- <-]. split; [apply disk_ok_refl|done]. }
  pose proof (loop_inv_step _ _ _ _ _ _ (alpenglow_genesis_block d) _ Hp Hi He Ew) as Hi'.
  set (st1 := process_window _ _ _ _) in *.
  assert (Hd : disk_ok f (save_if (a_checkpoint_file args)
    (checkpoint_state d (accounted_through cursor (rs_walk st1)) (rs_counters st1) (rs_walk st1) now) f)).
  { eapply disk_ok_save; [|done]. apply (window_checkpoint (e + 1)); [done|lia]. }
  destruct (rs_aborted st1) eqn:Eab.
  - intros [= <- <-]. split; [done|]. intros st' [= <-]. split; [|congruence].
    exists (e + 1). split; [lia|done].
  - intros Hrun. apply IH in Hrun as [Hd' Hst]; [|done|lia]. split; [by eapply disk_ok_trans|].
    intros st' Hst'. destruct (Hst st' Hst') as [Hex Hfin]. split; [done|]. auto.
Qed.

Lemma run_windows_aborted fuel start need st f st' f' :
  aborted_ok (a_max_failures args) st ->
  run_windows fuel args db d cursor now start need st f = Some (Ok st', f') ->
  aborted_ok (a_max_failures args) st'.
Proof.
  revert start need st f. induction fuel as [|fuel IH]; intros start need st f Ha; simpl.
  all: destruct (Z.ltb_spec (range_end d) start); [by intros [= <- _]|].
  { done. }
  destruct (fetch_window _ _ _ _ _ _) as [w|err]; [|done].
  assert (Ha' : aborted_ok (a_max_failures args)
    (process_window args (alpenglow_genesis_block d) w st)) by by apply process_window_facts.
  destruct (rs_aborted _); [by intros [= <- _]|]. by apply IH.
Qed.

Lemma record_unchecked_accounted fs cr :
  slots_accounted (fst (foldl (fun cr g =>
    (record_finding (f_code g) (add_anchor_unchecked (fst cr)), write_finding g (snd cr))) cr fs)) =
  slots_accounted (fst cr).
Proof.
  revert cr. induction fs as [|f fs IH]; intros cr; [done|]. cbn [foldl]. rewrite IH. simpl.
  rewrite slots_accounted_record_finding. by destruct (fst cr).
Qed.

(** The tail pass accounts for the rest of the range. *)
Lemma finish_run_accounted st f res f' :
  loop_inv (range_end d + 1) st -> 0 <= range_end d ->
  finish_run args db d now st f = (res, f') ->
  disk_ok f f' /\
  forall st', res = Ok st' ->
    slots_accounted (rs_counters st') = base + range_end d + 1 - cursor.
Proof.
  intros Hi He. unfold finish_run.
  destruct (fetch_first_block_after db (range_end d)) as [next|e] eqn:En.
  2: { intros [= <- <-]. split; [apply disk_ok_refl|done]. }
  assert (Ht : spans_total (observe_tail (rs_walk st) (range_end d) next) =
               range_end d + 1 - lower_bound (rs_walk st)).
  { destruct Hi as [_ _ Hl _ _ _]. rewrite observe_tail_total; [lia|lia|lia|].
    intros b ->. apply law_after in En as [Hb _].
    pose proof law_typed as Hty. rewrite Forall_forall in Hty. auto. }
  set (tail := observe_tail _ _ _) in *.
  pose proof (record_findings_counts (or_findings tail)
    (account_spans tail (rs_counters st), rs_report st)) as Ec.
  destruct (record_findings _ _) as [c1 r1].
  set (us := _ <$> unchecked_anchors _).
  pose proof (record_unchecked_accounted us (c1, r1)) as Eu.
  destruct (foldl _ (c1, r1) us) as [c2 r2]. simpl in Ec, Eu.
  assert (Ea : slots_accounted c2 = base + range_end d + 1 - cursor).
  { rewrite Eu, (counts_accounted _ _ Ec), account_spans_accounted, Ht, (li_accounted _ _ Hi). lia. }
  intros [= <- <-]. split.
  - eapply disk_ok_save; [|done]. unfold checkpoint_counts, checkpoint_state. simpl.
    destruct Hi as [_ ? _ _ _ _]. split; [lia|]. split; [lia|done].
  - by intros st' [= <-].
Qed.

End Loop.

Lemma loop_inv_initial table cursor c genesis pins checked gc rep :
  loop_inv (table := table) cursor (slots_accounted c) cursor
    (mkRunState (from_checkpoint cursor genesis pins checked gc) c rep ∅ false).
Proof. split; unfold lower_bound; simpl; try done; intros; lia. Qed.

(** ** A run from a cursor *)

Section Run.
Context {db : ChDb} {table : list BlockInfo} {rows : gmap Z (list EntryInfo)}
  {txs : gmap Z (gmap Z (list (list Z)))} `{!ChDbLaws db table rows txs}.

Lemma run_from_total args d now cursor c checked g resumed lines f :
  0 <= cursor -> range_end d < u64_max -> 1 <= a_window_slots args ->
  run_from args db d now cursor c checked g resumed lines f <> None.
Proof.
  intros Hc He Hw. unfold run_from. destruct (Z.ltb_spec (range_end d) cursor); [done|].
  destruct (run_windows _ _ _ _ _ _ _ _ _ _) as [[[st|e] f1]|] eqn:E; [|done|].
  - destruct (rs_aborted st); [done|]. by destruct (finish_run _ _ _ _ _ _) as [[] ?].
  - exfalso. revert E. apply run_windows_total; [done|done|done|lia].
Qed.

Lemma run_from_accounted args d now cursor c checked g resumed lines f res f' :
  0 <= cursor <= range_end d + 1 -> range_end d < u64_max -> 1 <= a_window_slots args ->
  parents_ok (table := table) d cursor ->
  run_from args db d now cursor c checked g resumed lines f = Some (res, f') ->
  disk_ok args d cursor (slots_accounted c) f f' /\
  forall c' rep, res = Ok (c', rep) ->
    failure_count c' < a_max_failures args \/ a_max_failures args <= 0 ->
    slots_accounted c' = slots_accounted c + range_end d + 1 - cursor.
Proof.
  intros Hc He Hw Hp. unfold run_from. destruct (Z.ltb_spec (range_end d) cursor).
  { intros [= <- <-]. split; [apply disk_ok_refl|]. intros c' rep [= <- _] _. lia. }
  set (st0 := mkRunState _ c _ ∅ false).
  destruct (run_windows _ _ _ _ _ _ _ _ _ _) as [[[st|e] f1]|] eqn:E; [| |done].
  all: pose proof E as Hab.
  all: eapply run_windows_inv in E as [Hd Hst]; [|lia|done|done|done|apply loop_inv_initial|lia].
  2: { intros [= <- <-]. done. }
  eapply run_windows_aborted in Hab; [|done].
  destruct (Hst st eq_refl) as [_ Hfin].
  destruct (rs_aborted st) eqn:Eab.
  - intros [= <- <-]. split; [done|]. intros c' rep [= <- _] Hb.
    specialize (Hab Eab). lia.
  - specialize (Hfin eq_refl eq_refl).
    destruct (finish_run _ _ _ _ _ _) as [r2 f2] eqn:Ef.
    eapply (finish_run_accounted _ _ cursor) in Ef as [Hd2 Hacc]; [|lia|done|exact Hfin|lia].
    destruct r2 as [st2|e2]; intros [= <- <-]; (split; [by eapply disk_ok_trans|]); [|done].
    intros c' rep [= <- _] _. by apply Hacc.
Qed.

(** ** Whole runs, interrupted and resumed *)

(** A checkpoint whose counters account for exactly the slots of its job below its
    cursor. *)
Definition checkpoint_exact (c : Checkpoint) : Prop :=
  range_start (descriptor c) <= next_start c <= range_end (descriptor c) + 1 /\
  slots_accounted (counters c) = next_start c - range_start (descriptor c).

Definition disk_exact (args : Args) (f : fs) : Prop :=
  forall path c, a_checkpoint_file args = Some path -> load path f = Ok (Some c) ->
    checkpoint_exact c.

(** The input of a run: a resolved range below the last 64-bit slot, in which
    every block names an earlier parent. *)
Record run_input (args : Args) (range : Z * Z) : Prop := {
  ri_range : 0 <= fst range <= snd range + 1;
  ri_end : snd range < u64_max;
  ri_window : 1 <= a_window_slots args;
  ri_parents : Forall (fun b => b_slot b = 0 \/ parent_slot b < b_slot b)
    (blocks_in (fst range) (snd range) table);
}.

Lemma disk_exact_from args d cursor c f f' :
  range_start d <= cursor -> slots_accounted c = cursor - range_start d ->
  disk_exact args f -> disk_ok args d cursor (slots_accounted c) f f' -> disk_exact args f'.
Proof.
  intros Hr Hc Hf Hd path c' Hp Hl. destruct (Hd path Hp) as [E|(c0 & E & Hacc & Hn & Hde)].
  - apply (Hf path); congruence.
  - assert (c0 = c') as -> by congruence. unfold checkpoint_exact. rewrite Hde. lia.
Qed.

Lemma parents_later args range d cursor :
  run_input args range -> fst range <= cursor -> snd range = range_end d ->
  parents_ok (table := table) d cursor.
Proof.
  intros [_ _ _ Hp] Hc He. unfold parents_ok. rewrite Forall_forall in *. intros b Hb.
  apply Hp. rewrite elem_of_blocks_in in Hb |- *. split; [tauto|lia].
Qed.

Lemma run_total args epochs remote now lines f :
  (forall range g, resolve_alpenglow_setup args db epochs remote = Ok (range, g) ->
     0 <= fst range /\ snd range < u64_max) ->
  1 <= a_window_slots args ->
  (forall path c, load path f = Ok (Some c) -> 0 <= next_start c) ->
  run args db epochs remote now lines f <> None.
Proof.
  intros Hr Hw Hn. unfold run.
  destruct (resolve_alpenglow_setup _ _ _ _) as [[range g]|]; [|done].
  destruct (Hr range g eq_refl) as [H1' H2'].
  destruct (if a_resume args then a_checkpoint_file args else None) as [path|].
  - pose proof (load_for_resume_cases path (job_descriptor args range g) (a_full args) now f) as Hl.
    destruct (load_for_resume _ _ _ _ _) as [[[c|]|] f1]; [| |done].
    + destruct Hl as (c0 & Hl & _ & _ & Hnx & _). apply run_from_total; [|done|done].
      rewrite Hnx. by eapply Hn.
    + by apply run_from_total.
  - by apply run_from_total.
Qed.

Lemma run_from_exact args range g now lines cursor c checked gc resumed f res f' :
  run_input args range -> fst range <= cursor <= snd range + 1 ->
  slots_accounted c = cursor - fst range -> disk_exact args f ->
  run_from args db (job_descriptor args range g) now cursor c checked gc resumed lines f =
    Some (res, f') ->
  disk_exact args f' /\
  forall c' rep, res = Ok (c', rep) ->
    failure_count c' < a_max_failures args \/ a_max_failures args <= 0 ->
    slots_accounted c' = snd range + 1 - fst range.
Proof.
  intros Hin Hcur Hc Hf0 Hrun. apply run_from_accounted in Hrun as [Hd Hacc].
  - split; [by eapply disk_exact_from; [| |exact Hf0|exact Hd]; simpl; lia|].
    intros c' rep Er Hb. rewrite (Hacc c' rep Er Hb). simpl. lia.
  - destruct Hin as [? _ _ _]. simpl. lia.
  - apply Hin.
  - apply Hin.
  - eapply parents_later; [done|lia|done].
Qed.

Lemma run_exact args epochs remote now lines f range g res f' :
  resolve_alpenglow_setup args db epochs remote = Ok (range, g) ->
  run_input args range -> disk_exact args f ->
  run args db epochs remote now lines f = Some (res, f') ->
  disk_exact args f' /\
  forall c rep, res = Ok (c, rep) ->
    failure_count c < a_max_failures args \/ a_max_failures args <= 0 ->
    slots_accounted c = snd range + 1 - fst range.
Proof.
  intros Hs Hin Hdisk. unfold run. rewrite Hs. pose proof (ri_range _ _ Hin) as Hrange.
  assert (E0 : slots_accounted RunCounters_default = fst range - fst range)
    by (unfold slots_accounted; simpl; lia).
  destruct (if a_resume args then a_checkpoint_file args else None) as [path|] eqn:Ep.
  2: { apply run_from_exact; [done|simpl; lia|done|done]. }
  assert (Hpath : a_checkpoint_file args = Some path) by by destruct (a_resume args).
  pose proof (load_for_resume_cases path (job_descriptor args range g) (a_full args) now f) as Hl.
  destruct (load_for_resume _ _ _ _ _) as [[[c|]|] f1].
  - destruct Hl as (c0 & Hl & Hm & Hde & Hnx & Hcn & _ & _ & Hl').
    destruct (Hdisk path c0 Hpath Hl) as [Hb Ha].
    apply matches_resume_spec in Hm as (Hid & Ht & _).
    assert (Hst : range_start (descriptor c0) = fst range)
      by (unfold same_identity in Hid; by injection Hid).
    assert (Hen : range_end (descriptor c0) <= snd range)
      by (destruct Ht as [->|[_ Ht]]; simpl in *; lia).
    apply run_from_exact; [done|rewrite Hnx; lia|rewrite Hcn, Hnx; lia|].
    intros path' c' Hp' Hc'. assert (path' = path) as -> by congruence.
    assert (c' = c) as -> by congruence. unfold checkpoint_exact. rewrite Hde, Hnx, Hcn. simpl. lia.
  - destruct Hl as [-> _]. apply run_from_exact; [done|simpl; lia|done|done].
  - intros [= <- <-]. by subst.
Qed.

End Run.

(** ** Sequences of runs

    A checkpoint file's life: it does not exist, then runs write it.  Each run may
    see another database and other arguments, and may end in success, in an abort or
    in an error of any read. *)
Inductive history (path : string) : fs -> Prop :=
| history_start f : load path f = Ok None -> history path f
| history_run f db table rows txs args epochs remote now lines range g res f' :
    history path f -> ChDbLaws db table rows txs -> a_checkpoint_file args = Some path ->
    resolve_alpenglow_setup args db epochs remote = Ok (range, g) ->
    run_input (table := table) args range ->
    run args db epochs remote now lines f = Some (res, f') -> history path f'.

Lemma history_exact path f :
  history path f -> forall c, load path f = Ok (Some c) -> checkpoint_exact c.
Proof.
  induction 1 as [f Hf|f db table rows txs args epochs remote now lines range g res f'
    Hh IH Hlaws Hp Hs Hin Hrun]; [congruence|].
  apply (run_exact (table := table)) with (range := range) (g := g) in Hrun as [Hd _]; try done.
  - intros c. by apply Hd.
  - intros path' c Hp' Hc. apply IH. congruence.
Qed.

(** ** Properties *)

(** However often a job was interrupted (by read errors or by its failure budget) and resumed,
    the five status counters of the run that completes add up to the number of slots of the
    range, and those of every checkpoint on the way to the number of slots below its cursor;
    every block of the range has to name a parent below it ([run_input]). *)
Theorem run_accounts_every_slot path f db table rows txs args epochs remote now lines range g
    c rep f' :
  history path f -> ChDbLaws db table rows txs -> a_checkpoint_file args = Some path ->
  resolve_alpenglow_setup args db epochs remote = Ok (range, g) ->
  run_input (table := table) args range ->
  run args db epochs remote now lines f = Some (Ok (c, rep), f') ->
  failure_count c < a_max_failures args \/ a_max_failures args <= 0 ->
  slots_accounted c = snd range + 1 - fst range /\
  forall saved, load path f' = Ok (Some saved) ->
    range_start (descriptor saved) <= next_start saved /\
    slots_accounted (counters saved) = next_start saved - range_start (descriptor saved).
Proof.
  intros Hh Hlaws Hp Hs Hin Hrun Hb. pose proof (history_exact _ _ Hh) as He.
  eapply (run_exact (table := table)) in Hrun as [Hd Hacc]; [|done|done|].
  - split; [by eapply Hacc|]. intros saved Hl. destruct (Hd path saved Hp Hl). lia.
  - intros path' c' Hp' Hc'. apply He. congruence.
Qed.

(** C37: the window loop always ends: a run over a range that ends before the last
    64-bit slot returns, whatever the database answers, after at most one turn per
    slot. *)
Theorem run_terminates db args epochs remote now lines f :
  (forall range g, resolve_alpenglow_setup args db epochs remote = Ok (range, g) ->
     0 <= fst range /\ snd range < u64_max) ->
  1 <= a_window_slots args ->
  (forall path c, load path f = Ok (Some c) -> 0 <= next_start c) ->
  is_Some (run args db epochs remote now lines f).
Proof.
  intros Hr Hw Hn. destruct (run args db epochs remote now lines f) eqn:E; [by eexists|].
  exfalso. by eapply run_total in E.
Qed.

End Accounting.
