(* ===== verification/RunnerSound.v ===== *)
(** * RunnerSound: what exit code 0 proves

    A run that exits with [EXIT_OK] has verified the whole range: the block rows of
    the range form one hash-linked chain that starts at the stored parent (or at
    genesis), every block's entry stream is structurally valid and replays to its
    blockhash, every supplied anchor was compared and agrees, and every slot after
    the last block is claimed as skipped by a later block. *)

From Stdlib Require Import Ascii String.
From S2P Require Import Prelude Text Report Poh Structural Verify RangeSpec Eras Cli Chain Checkpoint Runner RunnerAccounting.

Open Scope list_scope.
Open Scope Z_scope.

(** ** Slot statuses *)

Lemma slot_status_from_spec s fs :
  match slot_status_from s fs with
  | SlotFailed => s = SlotFailed \/ ~ clean fs
  | SlotUnverifiable => s = SlotUnverifiable \/ ~ clean fs
  | s' => s' = s /\ clean fs
  end.
Proof.
  revert s. induction fs as [|f fs IH]; intros s; simpl; [destruct s; auto; by split|].
  unfold clean in *. simpl. unfold hard, is_fail, is_unverifiable.
  destruct (f_class f); simpl; [by right| |apply IH].
  specialize (IH SlotUnverifiable).
  destruct (slot_status_from SlotUnverifiable fs); try naive_solver; by right.
Qed.

(** A slot is [ok] exactly when none of its findings is hard. *)
Lemma slot_status_ok fs : slot_status fs = SlotOk <-> clean fs.
Proof.
  unfold slot_status. pose proof (slot_status_from_spec SlotOk fs) as Hs.
  destruct (slot_status_from SlotOk fs); naive_solver.
Qed.

Lemma slot_status_cases fs :
  slot_status fs = SlotOk \/ slot_status fs = SlotFailed \/ slot_status fs = SlotUnverifiable.
Proof.
  unfold slot_status. pose proof (slot_status_from_spec SlotOk fs) as Hs.
  destruct (slot_status_from SlotOk fs); naive_solver.
Qed.

(** ** The counters that must stay at zero *)

Definition bad (c : RunCounters) : Z := slots_failed c + slots_unverifiable c + slots_missing c.

Lemma counts_bad c c' : counts c = counts c' -> bad c = bad c'.
Proof. unfold counts, bad. by intros [= _ -> -> _ -> _ _]. Qed.

Lemma record_slot_bad fs c :
  bad (record_slot (slot_status fs) c) = bad c + (if decide (clean fs) then 0 else 1).
Proof.
  case_decide as Hc.
  - apply slot_status_ok in Hc as ->. destruct c; unfold bad; simpl; lia.
  - pose proof (slot_status_ok fs) as Hok.
    destruct (slot_status_cases fs) as [E|[->| ->]]; [tauto| |];
      destruct c; unfold bad; simpl; lia.
Qed.

Lemma account_spans_bad r c : bad (account_spans r c) = bad c + span_len (missing_span r).
Proof.
  pose proof (account_spans_counts r c) as E. unfold counts in E. unfold bad.
  injection E. intros _ _ -> _ -> -> _. lia.
Qed.

Section Sound.
Context `{Base58, Sha256}.

Lemma process_block_bad mf st bo :
  bad (rs_counters (process_block mf st bo)) =
  bad (rs_counters st) +
  span_len (missing_span (snd (observe_block (rs_walk st) (fst bo)))) +
  (if decide (clean (block_findings st bo)) then 0 else 1).
Proof.
  rewrite (counts_bad _ _ (process_block_counts mf st bo)), record_slot_bad, account_spans_bad. lia.
Qed.

Lemma process_blocks_bad mf st l :
  let st' := foldl (process_block mf) st l in
  bad (rs_counters st) <= bad (rs_counters st') /\
  (bad (rs_counters st') = bad (rs_counters st) ->
   Forall (fun r => clean (or_findings r)) (snd (observe_blocks (rs_walk st) (fst <$> l))) /\
   Forall (fun bo => clean (vo_findings (snd bo))) l).
Proof.
  revert st. induction l as [|[b o] l IH]; intros st; cbv zeta; [simpl; split; [lia|by split]|].
  cbn [foldl]. pose proof (process_block_bad mf st (b, o)) as Hb.
  pose proof (process_block_walk mf st (b, o)) as Hw.
  specialize (IH (process_block mf st (b, o))). cbv zeta in IH. destruct IH as [Hle HI].
  set (st1 := process_block mf st (b, o)) in *. set (st' := foldl _ st1 l) in *.
  unfold block_findings in Hb. cbn [fst snd] in Hb.
  pose proof (span_len_nonneg (missing_span (snd (observe_block (rs_walk st) b)))).
  rewrite fmap_cons. cbn [observe_blocks fst]. rewrite Hw in HI. cbn [fst] in HI.
  destruct (observe_block (rs_walk st) b) as [w r]. cbn [fst snd] in *.
  destruct (observe_blocks w (fst <$> l)) as [w' rs]. cbn [snd] in *.
  split; [case_decide; lia|]. intros E. case_decide as Hc; [|lia].
  rewrite !clean_app in Hc. destruct (HI ltac:(lia)) as [H1' H2'].
  split; constructor; (done || apply Hc).
Qed.

Lemma foldl_keeps {A B C} (g : A -> C) (f : A -> B -> A) a l :
  (forall a b, g (f a b) = g a) -> g (foldl f a l) = g a.
Proof.
  intros Hf. revert a. induction l as [|b l IH]; intros a; [done|]. cbn [foldl]. by rewrite IH.
Qed.

Lemma process_orphan_fold_bad st l :
  bad (rs_counters (foldl process_orphan st l)) = bad (rs_counters st).
Proof.
  apply (foldl_keeps (fun s => bad (rs_counters s))). intros s f.
  unfold process_orphan. simpl. case_bool_decide; by destruct (rs_counters s).
Qed.

Lemma process_block_unchecked mf st bo :
  anchors_unchecked (rs_counters (process_block mf st bo)) = anchors_unchecked (rs_counters st).
Proof.
  pose proof (process_block_counts mf st bo) as E.
  pose proof (account_spans_counts (snd (observe_block (rs_walk st) (fst bo))) (rs_counters st)) as E'.
  unfold counts in E, E'. injection E. injection E'. intros Ea _ _ _ _ _ _ -> _ _ _ _ _ _.
  rewrite <- Ea. by destruct (account_spans _ _), (slot_status _).
Qed.

Lemma process_window_unchecked args genesis window st :
  anchors_unchecked (rs_counters (process_window args genesis window st)) =
  anchors_unchecked (rs_counters st).
Proof.
  unfold process_window, process_orphans. cbv zeta.
  rewrite (foldl_keeps (fun s => anchors_unchecked (rs_counters s)) process_orphan).
  - rewrite (foldl_keeps (fun s => anchors_unchecked (rs_counters s))); [done|].
    apply process_block_unchecked.
  - intros s f. unfold process_orphan. simpl. case_bool_decide; by destruct (rs_counters s).
Qed.

Lemma process_window_bad args genesis window st :
  let st' := process_window args genesis window st in
  bad (rs_counters st) <= bad (rs_counters st') /\
  (bad (rs_counters st') = bad (rs_counters st) ->
   Forall (fun r => clean (or_findings r))
     (snd (observe_blocks (window_walk window (rs_walk st)) (w_blocks window))) /\
   Forall (fun o => clean (vo_findings o))
     (verify_window window (to_verify_mode (a_mode args)) (a_ticks_per_slot args)
        (a_schedule args) (fst <$> genesis))).
Proof.
  unfold process_window, process_orphans. cbv zeta. fold (window_walk window (rs_walk st)).
  rewrite process_orphan_fold_bad.
  set (st1 := mkRunState (window_walk window (rs_walk st)) _ _ _ _).
  set (l := zip (w_blocks window) _).
  pose proof (process_blocks_bad (a_max_failures args) st1 l) as [Hle HI]. split; [done|].
  intros E. destruct (HI E) as [H1' H2']. unfold l in H1'. rewrite fst_zip_outcomes in H1'.
  split; [done|].
  assert (Hs : Forall (fun o => clean (vo_findings o)) (snd <$> l)) by by apply Forall_fmap.
  unfold l in Hs. rewrite snd_zip in Hs; [done|]. unfold verify_window. by rewrite length_map.
Qed.

(** ** Slices of the block table *)

Lemma blocks_in_nil c e l : Forall (fun b => e < b_slot b) l -> blocks_in c e l = [].
Proof.
  induction 1 as [|b l Hb Hl IH]; [done|]. unfold blocks_in in *. simpl.
  destruct (Z.leb_spec (b_slot b) e); [lia|]. by rewrite andb_false_r.
Qed.

Lemma blocks_in_split c s e l :
  ascending (map b_slot l) -> c <= s <= e + 1 ->
  blocks_in c e l = blocks_in c (s - 1) l ++ blocks_in s e l.
Proof.
  intros Ha Hs. induction l as [|b l IH]; [done|].
  cbn [map] in Ha. apply ascending_cons in Ha as [Hf Ha]. specialize (IH Ha).
  unfold blocks_in in *. simpl. rewrite IH.
  destruct (Z.leb_spec s (b_slot b)) as [Hge|Hlt]; simpl.
  - assert (E : List.filter (fun b => (c <=? b_slot b) && (b_slot b <=? s - 1))%bool l = []).
    { apply (blocks_in_nil c (s - 1)). apply (proj1 (Forall_fmap b_slot _ l)) in Hf.
      eapply Forall_impl; [exact Hf|]. simpl. intros x Hx. lia. }
    rewrite E. destruct (Z.leb_spec (b_slot b) (s - 1)); [lia|]. rewrite andb_false_r. simpl.
    destruct (Z.leb_spec c (b_slot b)); [done|lia].
  - destruct (Z.leb_spec (b_slot b) (s - 1)), (Z.leb_spec (b_slot b) e); try lia.
    by destruct (c <=? b_slot b).
Qed.

Section Loop.
Context {db : ChDb} {table : list BlockInfo} {rows : gmap Z (list EntryInfo)}
  {txs : gmap Z (gmap Z (list (list Z)))} `{!ChDbLaws db table rows txs}.
Context (args : Args) (d : JobDescriptor) (cursor now : Z).
Context (Hmode : to_verify_mode (a_mode args) = Full).
Context (Hrows : forall b es, b ∈ table -> rows !! b_slot b = Some es ->
  rows_typed b es (Some (value_at (a_schedule args) (b_slot b)))).

(** The entry stream of a block is well formed and replays to its blockhash. *)
Definition block_verified (b : BlockInfo) : Prop :=
  exists es, rows !! b_slot b = Some es /\
    structure_ok b es (a_ticks_per_slot args) (Some (value_at (a_schedule args) (b_slot b)))
      (alpenglow_era (alpenglow_genesis_block d) (b_slot b)) /\
    replay (default ∅ (txs !! b_slot b)) (parent_blockhash b) es = Some (blockhash b).

(** The blocks form one chain from a stored parent or from genesis. *)
Definition rooted (bs : list BlockInfo) : Prop :=
  bs = [] \/ (exists p, p ∈ table /\ linked (tip p) bs) \/
  (exists b rest, bs = b :: rest /\ origin_ok (a_expected_genesis_hash args) b /\
     linked (tip b) rest).

Lemma rooted_app l1 b l2 :
  rooted l1 -> last l1 = Some b -> linked (tip b) l2 -> rooted (l1 ++ l2).
Proof.
  intros [->|[(p & Hp & Hl)|(x & rest & -> & Ho & Hl)]] Hlast Hl2; [done| |].
  - right. left. exists p. split; [done|]. apply linked_app. by rewrite Hlast.
  - right. right. exists x, (rest ++ l2). split; [done|]. split; [done|].
    apply linked_app. split; [done|]. rewrite last_cons in Hlast.
    destruct (last rest); by simplify_eq/=.
Qed.

Lemma fetch_window_rows start end_ a n w slot :
  fetch_window db start end_ true a n = Ok w -> start <= slot <= end_ ->
  w_entries w !! slot = rows !! slot /\ w_tx_signatures w !! slot = txs !! slot.
Proof.
  unfold fetch_window. intros Hw Hs.
  destruct (fetch_blocks db start end_) as [blocks|]; [|done]. simpl in Hw.
  destruct (fetch_entries db start end_) as [es|] eqn:Ee; [|done]. simpl in Hw.
  destruct (fetch_tx_signatures db start end_) as [txm|] eqn:Et; [|done]. simpl in Hw.
  destruct (if a then _ else _) as [dups|]; [|done]. simpl in Hw.
  destruct (match blocks with [] => _ | _ => _ end) as [sd|]; [|done]. simpl in Hw.
  injection Hw as <-. simpl. split; [by eapply law_entries|by eapply law_tx].
Qed.

Lemma outcome_verified start end_ a n w b :
  fetch_window db start end_ true a n = Ok w -> b ∈ blocks_in start end_ table ->
  (forall o, o ∈ verify_window w Full (a_ticks_per_slot args) (a_schedule args)
     (fst <$> alpenglow_genesis_block d) -> clean (vo_findings o)) ->
  block_verified b.
Proof.
  intros Hw Hb Hclean. pose proof (fetch_window_ok _ _ _ _ _ _ Hw) as [Ebs _].
  pose proof Hb as Hb'. apply elem_of_blocks_in in Hb' as [Htab Hs].
  destruct (fetch_window_rows _ _ _ _ _ _ Hw Hs) as [Ee Et].
  unfold verify_window in Hclean. rewrite Ebs in Hclean.
  specialize (Hclean _ (list_elem_of_fmap_2 _ _ _ Hb)). simpl in Hclean. rewrite Ee, Et in Hclean.
  destruct (rows !! b_slot b) as [es|] eqn:Er; [|done]. destruct es as [|e es]; [done|].
  exists (e :: es). split; [done|].
  apply verify_full_clean in Hclean as [Hok Hpoh]; [|by apply Hrows].
  assert (Ea : match fst <$> alpenglow_genesis_block d with
     | Some slot => slot <? b_slot b | None => false end =
     alpenglow_era (alpenglow_genesis_block d) (b_slot b)).
  { by destruct (alpenglow_genesis_block d) as [[]|]. }
  rewrite Ea in Hok. split; [done|]. rewrite (poh_chain_replay _ _ _ Hpoh).
  destruct (exists_last (l := e :: es) ltac:(done)) as (pre & l & El). rewrite El, last_snoc. simpl.
  f_equal. by apply (so_last _ _ _ _ _ Hok pre l).
Qed.

(** The pins of the run. *)
Definition pins : gmap Z (list Z) := list_to_map (rev (a_anchors args)).

(** ** Linking a window *)

(** The blocks of a window whose observations are clean continue the chain the
    walk carries. *)
Lemma window_linked w p bs :
  Forall u64_block bs -> Forall (fun b => 0 < b_slot b) bs -> prev w = Some p ->
  Forall (fun r => clean (or_findings r)) (snd (observe_blocks w bs)) ->
  linked p bs /\ Forall (anchor_ok (anchors w)) bs.
Proof. intros Hu Hz Hp Hc. by eapply observe_blocks_clean in Hc. Qed.

Lemma window_origin w b rest :
  Forall u64_block rest -> Forall (fun x => 0 < b_slot x) rest -> prev w = None ->
  Forall (fun r => clean (or_findings r)) (snd (observe_blocks w (b :: rest))) ->
  origin_ok (expected_genesis_hash w) b /\ linked (tip b) rest /\
  Forall (anchor_ok (anchors w)) (b :: rest).
Proof.
  intros Hu Hz Hp. cbn [observe_blocks].
  pose proof (observe_first_clean w b Hp) as Hf. pose proof (observe_block_prev w b) as Hpr.
  destruct (observe_block_pins w b) as (_ & Ea & _).
  destruct (observe_block w b) as [w1 r]. cbn [fst snd] in *.
  pose proof (window_linked w1 _ rest Hu Hz Hpr) as Hl. rewrite Ea in Hl.
  destruct (observe_blocks w1 rest) as [w2 rs]. cbn [snd] in *.
  intros Hc. inversion Hc as [|? ? Hr Hrs]; subst.
  destruct (Hf Hr) as [Ho Han], (Hl Hrs) as [Hli Han']. split; [done|]. split; [done|]. by constructor.
Qed.

Record sound_inv (start : Z) (st : RunState) : Prop := {
  si_none : blocks_in cursor (start - 1) table = [] -> prev (rs_walk st) = None;
  si_prev : forall b, last (blocks_in cursor (start - 1) table) = Some b ->
    prev (rs_walk st) = Some (tip b);
  si_pins : anchors (rs_walk st) = pins /\
    expected_genesis_hash (rs_walk st) = a_expected_genesis_hash args;
  si_floor : floor_ (rs_walk st) = cursor;
  si_checked : forall s, is_Some (pins !! s) -> s ∈ checked_anchors (rs_walk st) ->
    s ∈ map b_slot (blocks_in cursor (start - 1) table);
  si_unchecked : anchors_unchecked (rs_counters st) = 0;
  si_bad : 0 <= bad (rs_counters st);
  si_good : bad (rs_counters st) = 0 ->
    rooted (blocks_in cursor (start - 1) table) /\
    Forall (anchor_ok pins) (blocks_in cursor (start - 1) table) /\
    Forall block_verified (blocks_in cursor (start - 1) table);
}.

Lemma blocks_in_typed s e : Forall u64_block (blocks_in s e table).
Proof.
  pose proof law_typed as Ht. rewrite Forall_forall in *. intros b Hb.
  apply elem_of_blocks_in in Hb as [Hb _]. auto.
Qed.

(** Later blocks have positive slots. *)
Lemma blocks_in_positive x s e :
  0 <= x < s -> Forall (fun b => x < b_slot b) (blocks_in s e table).
Proof. intros Hx. apply Forall_forall. intros b Hb. apply elem_of_blocks_in in Hb. lia. Qed.

Lemma blocks_in_tail_positive s e b rest :
  0 <= s -> blocks_in s e table = b :: rest -> Forall (fun x => 0 < b_slot x) rest.
Proof.
  intros Hs E. pose proof (blocks_in_ascending s e) as Ha. rewrite E in Ha. cbn [map] in Ha.
  apply ascending_cons in Ha as [Hf _]. apply (proj1 (Forall_fmap b_slot _ rest)) in Hf.
  assert (Hb : b ∈ blocks_in s e table) by (rewrite E; set_solver).
  apply elem_of_blocks_in in Hb. eapply Forall_impl; [exact Hf|]. simpl. lia.
Qed.

(** The chain grows by the blocks of a clean window. *)
Lemma rooted_step start end_ a n w st :
  0 <= cursor <= start -> start <= end_ + 1 -> sound_inv start st ->
  fetch_window db start end_ true a n = Ok w ->
  rooted (blocks_in cursor (start - 1) table) ->
  Forall (fun r => clean (or_findings r))
    (snd (observe_blocks (window_walk w (rs_walk st)) (blocks_in start end_ table))) ->
  rooted (blocks_in cursor (start - 1) table ++ blocks_in start end_ table) /\
  Forall (anchor_ok pins) (blocks_in start end_ table).
Proof.
  intros Hc He [Hn Hp [Hpins Hgen] _ _ _ _ _] Hw Hroot Hclean.
  pose proof (fetch_window_ok _ _ _ _ _ _ Hw) as [Ebs Hseed].
  pose proof (blocks_in_typed start end_) as Hty.
  destruct (last (blocks_in cursor (start - 1) table)) as [q|] eqn:El.
  - specialize (Hp q eq_refl). pose proof (last_Some_elem_of _ _ El) as Hq. apply elem_of_blocks_in in Hq.
    assert (Ewalk : window_walk w (rs_walk st) = rs_walk st).
    { unfold window_walk, seed. rewrite Hp. by destruct (w_parent_seed w). }
    rewrite Ewalk in Hclean. apply (window_linked _ (tip q)) in Hclean as [Hl Ha]; [|done| |done].
    + rewrite Hpins in Ha. split; [by eapply rooted_app|done].
    + apply blocks_in_positive. lia.
  - apply last_None in El. rewrite El. specialize (Hn El).
    destruct (blocks_in start end_ table) as [|b rest] eqn:Eb; [by split; [left|]|].
    simpl app. destruct (w_parent_seed w) as [p|] eqn:Es.
    + destruct (Hseed p eq_refl) as (Hptab & _ & b' & bs' & E' & Hpar & Hnz).
      rewrite Ebs in E'. injection E' as <- <-.
      assert (Ewalk : window_walk w (rs_walk st) = seed (b_slot p) (blockhash p) (rs_walk st))
        by (unfold window_walk; by rewrite Es).
      rewrite Ewalk in Hclean. unfold seed in Hclean. rewrite Hn in Hclean.
      apply (window_linked _ (tip p)) in Hclean as [Hl Ha]; [|done| |done].
      * rewrite <- Hpins. split; [|done]. right. left. by exists p.
      * inversion Hty as [|? ? [Hbt _]]; subst. constructor; [unfold is_u64 in Hbt; lia|].
        eapply blocks_in_tail_positive; [|exact Eb]. lia.
    + assert (Ewalk : window_walk w (rs_walk st) = rs_walk st) by (unfold window_walk; by rewrite Es).
      rewrite Ewalk in Hclean. inversion Hty; subst.
      apply window_origin in Hclean as (Ho & Hl & Ha); [|done| |done].
      * rewrite Hpins in Ha. rewrite Hgen in Ho. split; [|done]. right. right. by exists b, rest.
      * eapply blocks_in_tail_positive; [|exact Eb]. lia.
Qed.

Lemma observe_blocks_genesis w bs :
  expected_genesis_hash (fst (observe_blocks w bs)) = expected_genesis_hash w.
Proof.
  revert w. induction bs as [|b bs IH]; intros w; [done|]. cbn [observe_blocks].
  destruct (observe_block_pins w b) as (_ & _ & Hg & _). destruct (observe_block w b) as [w' r].
  specialize (IH w'). destruct (observe_blocks w' bs). simpl in *. congruence.
Qed.

Lemma window_walk_pins w walk :
  anchors (window_walk w walk) = anchors walk /\
  expected_genesis_hash (window_walk w walk) = expected_genesis_hash walk /\
  floor_ (window_walk w walk) = floor_ walk /\
  checked_anchors (window_walk w walk) = checked_anchors walk.
Proof. unfold window_walk, seed. destruct (w_parent_seed w), (prev walk); done. Qed.

(** The state part of the invariant. *)
Lemma sound_walk_step start end_ a n w st :
  0 <= cursor <= start -> start <= end_ + 1 -> sound_inv start st ->
  fetch_window db start end_ true a n = Ok w ->
  let walk := fst (observe_blocks (window_walk w (rs_walk st)) (blocks_in start end_ table)) in
  (blocks_in cursor end_ table = [] -> prev walk = None) /\
  (forall b, last (blocks_in cursor end_ table) = Some b -> prev walk = Some (tip b)).
Proof.
  intros Hc He [Hn Hp _ _ _ _ _ _] Hw. cbv zeta.
  pose proof (fetch_window_ok _ _ _ _ _ _ Hw) as [Ebs Hseed].
  rewrite (blocks_in_split cursor start end_) by (apply law_ascending || lia).
  rewrite observe_blocks_prev.
  destruct (last (blocks_in start end_ table)) as [b|] eqn:El.
  - split.
    + intros [_ E]%app_nil. by rewrite E in El.
    + intros b'. rewrite last_app, El. by intros [= ->].
  - apply last_None in El. rewrite El, app_nil_r.
    assert (Ewalk : window_walk w (rs_walk st) = rs_walk st).
    { unfold window_walk. destruct (w_parent_seed w) as [p|]; [|done].
      destruct (Hseed p eq_refl) as (_ & _ & b' & bs' & E' & _). rewrite Ebs, El in E'. done. }
    rewrite Ewalk. done.
Qed.

Lemma sound_inv_step start end_ a n w st :
  0 <= cursor <= start -> start <= end_ -> sound_inv start st ->
  fetch_window db start end_ true a n = Ok w ->
  sound_inv (end_ + 1) (process_window args (alpenglow_genesis_block d) w st).
Proof.
  intros Hc He Hi Hw. pose proof (fetch_window_ok _ _ _ _ _ _ Hw) as [Ebs _].
  destruct (process_window_facts args (alpenglow_genesis_block d) w st) as (Ew & _ & _).
  destruct (process_window_bad args (alpenglow_genesis_block d) w st) as [Hle Hgood].
  destruct (window_walk_pins w (rs_walk st)) as (Ep & Eg & Ef & Ec).
  destruct (observe_blocks_pins (window_walk w (rs_walk st)) (w_blocks w)) as [Ea Hchk].
  destruct (sound_walk_step start end_ _ _ _ _ Hc ltac:(lia) Hi Hw) as [Hnone Hlast].
  rewrite Ebs in *. split; replace (end_ + 1 - 1) with end_ by lia.
  - by rewrite Ew.
  - by rewrite Ew.
  - rewrite Ew, Ea, observe_blocks_genesis, Ep, Eg. apply Hi.
  - rewrite Ew, observe_blocks_floor, Ef. apply Hi.
  - intros s Hs Hin. rewrite Ew in Hin. apply Hchk in Hin; [|rewrite Ep; by rewrite (proj1 (si_pins _ _ Hi))].
    rewrite (blocks_in_split cursor start end_), map_app, elem_of_app by (apply law_ascending || lia).
    destruct Hin as [Hin|Hin]; [|by right]. rewrite Ec in Hin. left. by apply (si_checked _ _ Hi).
  - rewrite process_window_unchecked. apply Hi.
  - pose proof (si_bad _ _ Hi). lia.
  - intros Hz. pose proof (si_bad _ _ Hi). destruct (Hgood ltac:(lia)) as [Hobs Hout].
    destruct (si_good _ _ Hi ltac:(lia)) as (Hr & Han & Hv).
    destruct (rooted_step start end_ _ _ _ _ Hc ltac:(lia) Hi Hw Hr Hobs) as [Hr' Han'].
    rewrite (blocks_in_split cursor start end_) by (apply law_ascending || lia).
    split; [done|]. split; apply Forall_app; (split; [done|]); [done|].
    apply Forall_forall. intros b Hb. eapply outcome_verified; [exact Hw|exact Hb|].
    rewrite Hmode in Hout. by rewrite Forall_forall in Hout.
Qed.

Context (Hcursor : 0 <= cursor) (Hend : range_end d < u64_max) (Hwin : 1 <= a_window_slots args).

Lemma sound_inv_initial checked g rep :
  checked = ∅ ->
  sound_inv cursor (mkRunState
    (from_checkpoint cursor (a_expected_genesis_hash args) pins checked g)
    RunCounters_default rep ∅ false).
Proof.
  intros ->.
  assert (E : blocks_in cursor (cursor - 1) table = []).
  { destruct (blocks_in cursor (cursor - 1) table) as [|b l] eqn:Eb; [done|].
    assert (Hb : b ∈ blocks_in cursor (cursor - 1) table) by (rewrite Eb; set_solver).
    apply elem_of_blocks_in in Hb. lia. }
  split; rewrite ?E; simpl; try done.
  intros _. split; [by left|]. by split.
Qed.

Lemma run_windows_sound fuel start need st f st' f' :
  cursor <= start <= range_end d + 1 -> sound_inv start st ->
  run_windows fuel args db d cursor now start need st f = Some (Ok st', f') ->
  rs_aborted st' = true \/ sound_inv (range_end d + 1) st'.
Proof.
  revert start need st f. induction fuel as [|fuel IH]; intros start need st f Hs Hi; simpl.
  all: destruct (Z.ltb_spec (range_end d) start).
  1,3: intros [= <- _]; right; by replace (range_end d + 1) with start by lia.
  { done. }
  destruct (window_end args d Hend Hwin start) as [He ->]; [lia|lia|].
  rewrite Hmode, bool_decide_true by done. set (e := Z.min _ _) in *.
  destruct (fetch_window _ _ _ _ _ _) as [w|err] eqn:Ew; [|done].
  pose proof (sound_inv_step start e _ _ _ _ ltac:(lia) ltac:(lia) Hi Ew) as Hi'.
  set (st1 := process_window _ _ _ _) in *.
  destruct (rs_aborted st1) eqn:Eab; [intros [= <- _]; by left|].
  apply IH; [lia|done].
Qed.

(** What a successful run has established about the range. *)
Record range_verified : Prop := {
  rv_rooted : rooted (blocks_in cursor (range_end d) table);
  rv_blocks : Forall block_verified (blocks_in cursor (range_end d) table);
  rv_anchors : forall s h, pins !! s = Some h ->
    exists b, b ∈ blocks_in cursor (range_end d) table /\ b_slot b = s /\ blockhash b = h;
  rv_tail : forall x, cursor <= x <= range_end d ->
    (forall b, b ∈ blocks_in cursor (range_end d) table -> b_slot b < x) ->
    exists n, n ∈ table /\ range_end d < b_slot n /\ parent_slot n < x;
}.

Lemma record_unchecked_counts fs cr :
  let c' := fst (foldl (fun cr g =>
    (record_finding (f_code g) (add_anchor_unchecked (fst cr)), write_finding g (snd cr))) cr fs) in
  bad c' = bad (fst cr) /\ anchors_unchecked c' = anchors_unchecked (fst cr) + zlen fs /\
  failure_count c' = failure_count (fst cr).
Proof.
  revert cr. induction fs as [|f fs IH]; intros cr; cbv zeta;
    [unfold zlen; simpl; split; [done|split; [lia|done]]|].
  cbn [foldl]. specialize (IH (record_finding (f_code f) (add_anchor_unchecked (fst cr)),
    write_finding f (snd cr))). cbv zeta in IH. destruct IH as (-> & -> & ->). rewrite zlen_cons.
  simpl. destruct (fst cr). unfold bad, failure_count. simpl. split; [done|]. split; [lia|done].
Qed.

(** When nothing is missing in the tail, a later block claims every slot after the last one. *)
Lemma tail_claimed st next :
  sound_inv (range_end d + 1) st -> range_end d < u64_max ->
  fetch_first_block_after db (range_end d) = Ok next ->
  span_len (missing_span (observe_tail (rs_walk st) (range_end d) next)) <= 0 ->
  forall x, cursor <= x <= range_end d ->
    (forall b, b ∈ blocks_in cursor (range_end d) table -> b_slot b < x) ->
    exists n, n ∈ table /\ range_end d < b_slot n /\ parent_slot n < x.
Proof.
  intros [Hnone Hlast _ Hfloor _ _ _ _] Hu En Hlen x Hx Hafter.
  replace (range_end d + 1 - 1) with (range_end d) in * by lia.
  assert (Hnext : forall b, next = Some b -> u64_block b).
  { intros b ->. apply law_after in En as [Hb _]. pose proof law_typed as Hty.
    rewrite Forall_forall in Hty. auto. }
  destruct (observe_tail_exact (rs_walk st) (range_end d) next x Hu Hnext) as [Hmiss _].
  set (tail := observe_tail _ _ _) in *.
  assert (Hlow : lower_bound (rs_walk st) <= x).
  { unfold lower_bound. destruct (last (blocks_in cursor (range_end d) table)) as [b|] eqn:El.
    - rewrite (Hlast b eq_refl). simpl. rewrite Hfloor.
      apply last_Some_elem_of in El. specialize (Hafter b El). sat_lia.
    - apply last_None in El. rewrite (Hnone El), Hfloor. lia. }
  assert (Hnm : ~ in_span x (missing_span tail)).
  { intros Hin. destruct (missing_span tail) as [[lo hi]|] eqn:Es; [|done].
    simpl in Hin, Hlen. unfold sat_sub in Hlen. lia. }
  destruct next as [n|].
  - exists n. destruct (law_after _ _ En) as [Hn Hgt]. split; [done|]. split; [done|].
    destruct (decide (parent_slot n < x)) as [|Hge]; [done|]. exfalso. apply Hnm, Hmiss.
    split; [lia|]. intros b [= <-]. lia.
  - exfalso. apply Hnm, Hmiss. split; [lia|]. done.
Qed.

Lemma finish_run_sound st f st' f' :
  0 <= range_end d -> sound_inv (range_end d + 1) st ->
  finish_run args db d now st f = (Ok st', f') ->
  bad (rs_counters st') <= 0 -> anchors_unchecked (rs_counters st') <= 0 ->
  range_verified.
Proof.
  intros He Hi. unfold finish_run.
  destruct (fetch_first_block_after db (range_end d)) as [next|e] eqn:En; [|done].
  set (tail := observe_tail _ _ _) in *.
  pose proof (record_findings_counts (or_findings tail)
    (account_spans tail (rs_counters st), rs_report st)) as Ec.
  destruct (record_findings _ _) as [c1 r1]. simpl in Ec.
  set (us := _ <$> unchecked_anchors _).
  pose proof (record_unchecked_counts us (c1, r1)) as (Eb & Eu & _).
  destruct (foldl _ (c1, r1) us) as [c2 r2]. simpl in Eb, Eu.
  intros [= <- _]. simpl. intros Hbad Hunch.
  rewrite Eb, (counts_bad _ _ Ec), account_spans_bad in Hbad.
  pose proof (span_len_nonneg (missing_span tail)). pose proof (si_bad _ _ Hi) as Hnn.
  pose proof Hi as [Hnone Hlast [Hpins _] Hfloor Hchecked Hunch0 _ Hgood].
  replace (range_end d + 1 - 1) with (range_end d) in * by lia.
  destruct (Hgood ltac:(lia)) as (Hr & Ha & Hv).
  assert (Hus : unchecked_anchors (rs_walk st) = []).
  { unfold counts in Ec. pose proof (account_spans_counts tail (rs_counters st)) as E'.
    unfold counts in E'. injection E'. injection Ec. intros E7 _ _ _ _ _ _ E7' _ _ _ _ _ _.
    rewrite Eu, E7, E7', Hunch0 in Hunch. unfold us in Hunch.
    unfold zlen in Hunch. rewrite length_fmap in Hunch.
    destruct (unchecked_anchors (rs_walk st)); [done|]. simpl in Hunch. lia. }
  split; [done|done| |].
  - intros s h Hs. destruct (decide (s ∈ checked_anchors (rs_walk st))) as [Hin|Hni].
    + apply Hchecked in Hin; [|by eexists]. apply list_elem_of_fmap in Hin as (b & -> & Hb).
      exists b. split; [done|]. split; [done|]. rewrite Forall_forall in Ha. symmetry. by apply Ha.
    + assert (Hu : (s, h) ∈ unchecked_anchors (rs_walk st))
        by (apply unchecked_anchors_spec; by rewrite Hpins).
      rewrite Hus in Hu. by apply elem_of_nil in Hu.
  - eapply tail_claimed; [exact Hi|lia|exact En|]. fold tail. lia.
Qed.

Lemma run_from_sound lines f c rep f' :
  cursor <= range_end d ->
  run_from args db d now cursor RunCounters_default ∅ false false lines f = Some (Ok (c, rep), f') ->
  bad c <= 0 -> anchors_unchecked c <= 0 -> failure_count c <= 0 -> range_verified.
Proof.
  intros He. unfold run_from. destruct (Z.ltb_spec (range_end d) cursor); [lia|].
  fold pins. set (st0 := mkRunState _ _ _ ∅ false).
  destruct (run_windows _ _ _ _ _ _ _ _ _ _) as [[[st|e] f1]|] eqn:E; [|done|done].
  pose proof E as Hab. eapply run_windows_aborted in Hab; [|done].
  apply run_windows_sound in E as [E|Hi]; [|destruct (rs_aborted st) eqn:Eab|lia|by apply sound_inv_initial].
  - rewrite E. specialize (Hab E). intros [= <- _ _]. lia.
  - specialize (Hab Eab). intros [= <- _ _]. lia.
  - destruct (finish_run _ _ _ _ _ _) as [[st2|e2] f2] eqn:Ef; [|done].
    intros [= <- _ _] Hb Hu _. eapply finish_run_sound; [|exact Hi|exact Ef|done|done]. lia.
Qed.

End Loop.
Lemma exit_ok_bounds c :
  exit_code c false = EXIT_OK ->
  bad c <= 0 /\ anchors_unchecked c <= 0 /\ failure_count c <= 0.
Proof.
  unfold exit_code, has_failures, has_unverifiable, bad, failure_count, EXIT_OK,
    EXIT_VERIFICATION_FAILED, EXIT_UNVERIFIABLE.
  destruct (Z.ltb_spec 0 (slots_failed c)), (Z.ltb_spec 0 (orphan_failures c)),
    (Z.ltb_spec 0 (slots_unverifiable c)), (Z.ltb_spec 0 (slots_missing c)),
    (Z.ltb_spec 0 (anchors_unchecked c)); simpl; try done; lia.
Qed.

(** C1: a fresh full-mode run that exits with code 0 proves its whole range: the
    stored blocks of the range form one hash-linked chain from a stored parent (or
    from the pinned genesis), each block's entries satisfy the structural rules of
    its era and replay, signatures mixed in, from the parent hash to the block's own
    hash, every operator anchor names a block of the range with that hash, and every
    slot after the last block is skipped by a later block's parent claim. *)
Theorem run_exit_ok_sound db table rows txs args epochs remote now lines f range g c rep f' :
  ChDbLaws db table rows txs ->
  (forall b es, b ∈ table -> rows !! b_slot b = Some es ->
     rows_typed b es (Some (value_at (a_schedule args) (b_slot b)))) ->
  resolve_alpenglow_setup args db epochs remote = Ok (range, g) ->
  0 <= fst range <= snd range -> snd range < u64_max -> 1 <= a_window_slots args ->
  to_verify_mode (a_mode args) = Full -> a_resume args = false ->
  run args db epochs remote now lines f = Some (Ok (c, rep), f') ->
  exit_code c false = EXIT_OK ->
  range_verified (table := table) (rows := rows) (txs := txs) args
    (job_descriptor args range g) (fst range).
Proof.
  intros Hlaws Hrows Hs Hr He Hw Hm Hres Hrun Hexit. unfold run in Hrun.
  rewrite Hs, Hres in Hrun. destruct (exit_ok_bounds _ Hexit) as (Hb & Hu & Hf).
  eapply run_from_sound; try done; simpl; lia.
Qed.

End Sound.
