(* ===== verification/Fixtures.v ===== *)
(** * Fixtures: concrete instances of the interfaces, and a small archive

    The theorems of the verifier are stated for any digest, any base-58 printer and
    any database that keeps the laws of [ChDbLaws].  This file instantiates them: a
    byte-mixing digest, an in-memory database whose reads are evaluated on lists and
    maps (its laws are proved), and an archive of five blocks with skipped slots and a
    transaction entry on which a whole run is evaluated. *)

From Stdlib Require Import Ascii String.
From S2P Require Import Prelude Text Report Poh Structural Verify RangeSpec Eras Cli Chain Checkpoint Runner RunnerAccounting.

Open Scope string_scope.
Open Scope list_scope.
Open Scope Z_scope.

(** A 32-byte digest that depends on every input byte and its position. *)
Definition mix_digest (bytes : list Z) : list Z :=
  let s := foldl (fun a b => (a * 131 + b + 7) mod 1000003) 17 bytes in
  map (fun i => (s / (i + 1) + i * s) mod 256) (seqZ 0 32).
#[export] Instance mix_sha256 : Sha256 := mix_digest.

Definition hex_digit (n : Z) : ascii := ascii_of_N (Z.to_N (65 + n mod 16)).
#[export] Instance letters_base58 : Base58 :=
  fold_right (fun x s => String (hex_digit (x / 16)) (String (hex_digit x) s)) EmptyString.

Lemma mix_width m : length (mix_digest m) = 32%nat.
Proof. reflexivity. Qed.

(** ** The in-memory database *)

Definition keys_in {V} (s e : Z) (m : gmap Z V) : gmap Z V :=
  filter (fun kv => s <= fst kv <= e) m.

Definition memory_db (table : list BlockInfo) (rows : gmap Z (list EntryInfo))
    (txs : gmap Z (gmap Z (list (list Z)))) (dups : list Finding) : ChDb :=
  mkChDb
    (Ok (match table with
         | [] => None
         | b :: _ => Some (b_slot b, default 0 (b_slot <$> last table))
         end))
    (fun s e => Ok (blocks_in s e table))
    (fun s => Ok (find (fun b => b_slot b =? s) table))
    (fun s => Ok (find (fun b => s <? b_slot b) table))
    (fun s e => Ok (keys_in s e rows))
    (fun s e => Ok (keys_in s e txs))
    (fun s e _ => Ok (List.filter (fun f => (s <=? f_slot f) && (f_slot f <=? e))%bool dups)).

Lemma lookup_keys_in {V} s e (m : gmap Z V) k : s <= k <= e -> keys_in s e m !! k = m !! k.
Proof.
  intros Hk. unfold keys_in. destruct (m !! k) eqn:E.
  - apply map_lookup_filter_Some. by split.
  - apply map_lookup_filter_None. by left.
Qed.

Lemma memory_laws table rows txs dups :
  ascending (map b_slot table) -> Forall u64_block table ->
  ChDbLaws (memory_db table rows txs dups) table rows txs.
Proof.
  intros Ha Ht. split; simpl; try done.
  - by intros s e l [= <-].
  - intros s b [= Hf]. apply find_some in Hf as [Hin Hs].
    rewrite <- list_elem_of_In in Hin. zbool. by split.
  - intros s b [= Hf]. apply find_some in Hf as [Hin Hs].
    rewrite <- list_elem_of_In in Hin. zbool. by split.
  - intros s e m slot [= <-] Hs. by apply lookup_keys_in.
  - intros s e m slot [= <-] Hs. by apply lookup_keys_in.
Qed.

(** ** A small archive

    Slots 3 and 6 are skipped; block 4 carries one transaction.  One tick per slot,
    two hashes per tick. *)

Definition genesis_hash : list Z := mix_digest [].
Definition sig_a : list Z := map (fun i => i mod 256) (seqZ 0 64).

Definition tick_entry (i : Z) (prev : list Z) : EntryInfo :=
  mkEntryInfo i 2 (next_hash prev 2 None) 0 0.

Definition block_of (slot parent : Z) (prev : list Z) (es : list EntryInfo) (ntx : Z) : BlockInfo :=
  mkBlockInfo slot parent (default prev (e_hash <$> last es)) prev ntx (zlen es).

Definition es0 : list EntryInfo := [tick_entry 0 genesis_hash].
Definition blk0 : BlockInfo := block_of 0 0 genesis_hash es0 0.
Definition es1 : list EntryInfo := [tick_entry 0 (blockhash blk0)].
Definition blk1 : BlockInfo := block_of 1 0 (blockhash blk0) es1 0.
Definition es2 : list EntryInfo := [tick_entry 0 (blockhash blk1)].
Definition blk2 : BlockInfo := block_of 2 1 (blockhash blk1) es2 0.

Definition tx_entry : EntryInfo :=
  mkEntryInfo 0 1 (next_hash (blockhash blk2) 1 (Some (signature_merkle_root [sig_a]))) 0 1.
Definition tail_tick : EntryInfo := mkEntryInfo 1 1 (next_hash (e_hash tx_entry) 1 None) 1 0.
Definition es4 : list EntryInfo :=
  [tx_entry; tail_tick; mkEntryInfo 2 2 (next_hash (e_hash tail_tick) 2 None) 1 0].
Definition blk4 : BlockInfo := block_of 4 2 (blockhash blk2) es4 1.
Definition es5 : list EntryInfo := [tick_entry 0 (blockhash blk4)].
Definition blk5 : BlockInfo := block_of 5 4 (blockhash blk4) es5 0.
Definition es7 : list EntryInfo :=
  [tick_entry 0 (blockhash blk5); tick_entry 1 (next_hash (blockhash blk5) 2 None)].
Definition blk7 : BlockInfo := block_of 7 5 (blockhash blk5) es7 0.

Definition archive : list BlockInfo := [blk0; blk1; blk2; blk4; blk5; blk7].
Definition archive_rows : gmap Z (list EntryInfo) :=
  list_to_map [(0, es0); (1, es1); (2, es2); (4, es4); (5, es5); (7, es7)].
Definition archive_txs : gmap Z (gmap Z (list (list Z))) := {[ 4 := {[ 0 := [sig_a] ]} ]}.
Definition archive_db : ChDb := memory_db archive archive_rows archive_txs [].

Lemma archive_laws : ChDbLaws archive_db archive archive_rows archive_txs.
Proof.
  apply memory_laws.
  - repeat (apply SSorted_cons; [|repeat (apply Forall_cons; split; [reflexivity|])]); constructor.
  - repeat (apply Forall_cons; split; [split; split; vm_compute; congruence|]). constructor.
Qed.

Definition two_per_tick : HashesPerTickSchedule := mkSchedule [(0, 2)].

(** Verify slots [a..b] in full, two slots per window, with a checkpoint file. *)
Definition archive_args (a b : Z) (resume : bool) (pins : list (Z * list Z)) : Args :=
  mkArgs (Some (Slots a b)) false ModeFull 432000 false 1 (Some genesis_hash) two_per_tick None None
    2 1 false (Some "verify.ckpt") resume (Some "report.jsonl") 0 false pins
    "blocks_metadata" "entries" "transactions" None.

Definition no_epochs : EpochSlots := mkEpochSlots id id.
Definition no_remote (_ : string) : result (option (Z * list Z)) run_error := Err GenesisFetch.

Definition archive_run (args : Args) (db : ChDb) (f : fs) :=
  run args db no_epochs no_remote 1700000000 [] f.

(** Everything but the report and the file system of a finished run. *)
Definition verdict (r : option (result (RunCounters * ReportWriter) run_error * fs)) :
    option RunCounters :=
  match r with Some (Ok (c, _), _) => Some c | _ => None end.
Definition disk (r : option (result (RunCounters * ReportWriter) run_error * fs)) : fs :=
  match r with Some (_, f) => f | None => ∅ end.

(** Slots 1 to 6: four blocks verified, two slots skipped, nothing else. *)
Example archive_verifies :
  verdict (archive_run (archive_args 1 6 false [(4, blockhash blk4)]) archive_db ∅) =
  Some (mkCounters 4 0 0 2 0 0 0 6 10 ∅).
Proof. vm_compute. reflexivity. Qed.

Example archive_from_genesis :
  option_map (fun c => exit_code c false)
    (verdict (archive_run (archive_args 0 6 false []) archive_db ∅)) = Some EXIT_OK.
Proof. vm_compute. reflexivity. Qed.

(** Without block 4 its slot is missing and the linkage of block 5 is unproven. *)
Example archive_gap :
  option_map (fun c => (slots_missing c, slots_unverifiable c, exit_code c false))
    (verdict (archive_run (archive_args 1 6 false [])
       (memory_db [blk0; blk1; blk2; blk5; blk7] archive_rows archive_txs []) ∅)) =
  Some (2, 1, EXIT_UNVERIFIABLE).
Proof. vm_compute. reflexivity. Qed.
