(* ===== verification/Witnesses.v ===== *)
(** * Witnesses: the properties of the verifier at concrete inputs

    Each lemma applies one property of the verifier to an input of [Fixtures] (or to
    a small literal) at which all its hypotheses hold. *)

From Stdlib Require Import Ascii String.
From S2P Require Import Prelude Text Report Poh Structural Verify RangeSpec Eras Cli Chain Checkpoint Runner RunnerAccounting RunnerSound Fixtures.

Open Scope string_scope.
Open Scope list_scope.
Open Scope Z_scope.

(** Evaluate a closed decidable goal. *)
Ltac by_eval := first [vm_compute; reflexivity | vm_compute; congruence
                      | vm_compute; split; congruence | apply (bool_decide_unpack _); vm_compute; exact I].

Lemma next_hash_composes_witness :
  next_hash (next_hash genesis_hash 3 None) 2 (Some sig_a) = next_hash genesis_hash 5 (Some sig_a).
Proof. apply (next_hash_composes genesis_hash 3 2 (Some sig_a)); lia. Defined.

Lemma merkle_root_is_tree_witness :
  signature_merkle_root [sig_a; genesis_hash; sig_a] =
  tree_root 2 (map merkle_leaf [sig_a; genesis_hash; sig_a]).
Proof. apply (merkle_root_is_tree [sig_a; genesis_hash; sig_a]). discriminate. Defined.

(** The rows of the archive have the types of the tables. *)
Lemma es4_typed : rows_typed blk4 es4 (Some 2).
Proof.
  split; [repeat constructor; by_eval|]. split; [by_eval|]. split; [by_eval|]. split; [by_eval|].
  intros h [= <-]. by_eval.
Qed.

Lemma check_structure_exact_witness :
  structure_ok blk4 es4 1 (Some 2) false /\
  check_structure_in_era blk4 (removelast es4) 1 (Some 2) false <> [].
Proof.
  split; [|vm_compute; discriminate].
  apply (check_structure_exact blk4 es4 1 (Some 2) false es4_typed). vm_compute. reflexivity.
Defined.

Lemma verify_full_refines_witness :
  structure_ok blk4 es4 1 (Some 2) false /\ poh_chain {[0 := [sig_a]]} (parent_blockhash blk4) es4.
Proof.
  apply (verify_full_refines blk4 es4 {[0 := [sig_a]]} 1 (Some 2) false es4_typed).
  vm_compute. reflexivity.
Defined.

Lemma verify_full_replays_witness :
  replay {[0 := [sig_a]]} (parent_blockhash blk4) es4 = Some (blockhash blk4).
Proof.
  apply (verify_full_replays blk4 es4 {[0 := [sig_a]]} 1 (Some 2) false es4_typed).
  - discriminate.
  - vm_compute. reflexivity.
Defined.

Lemma hash_work_bounded_witness :
  0 <= vo_hashes_computed (verify_block_in_era Full blk4 es4 {[0 := [sig_a]]} 1 (Some 2) false)
    <= MAX_ENTRY_NUM_HASHES * zlen es4.
Proof.
  apply (hash_work_bounded Full blk4 es4 {[0 := [sig_a]]} 1 (Some 2) false). apply es4_typed.
Defined.

Definition walk_at (slot : Z) (b : BlockInfo) (pins : gmap Z (list Z)) : ChainWalk :=
  seed (b_slot b) (blockhash b) (from_checkpoint slot None pins ∅ false).

Lemma interval_classified_exact_witness :
  in_span 3 (skipped_span (classify_interval (walk_at 3 blk2 ∅) blk4 ObserveResult_default)) /\
  ~ in_span 3 (missing_span (classify_interval (walk_at 3 blk2 ∅) blk4 ObserveResult_default)).
Proof.
  destruct (interval_classified_exact (walk_at 3 blk2 ∅) blk4 3) as [Hm Hs].
  - by_eval.
  - by_eval.
  - split; [apply Hs|rewrite Hm]; vm_compute; intuition congruence.
Defined.

Lemma tail_classified_exact_witness :
  in_span 6 (skipped_span (observe_tail (walk_at 1 blk5 ∅) 6 (Some blk7))).
Proof.
  apply (tail_classified_exact (walk_at 1 blk5 ∅) 6 (Some blk7) 6).
  - by_eval.
  - intros b [= <-]. by_eval.
  - split; [by_eval|]. exists blk7. split; [reflexivity|by_eval].
Defined.

Lemma walk_conserves_slots_witness :
  zsum spans_total (snd (observe_blocks (walk_at 1 blk0 ∅) [blk1; blk2; blk4])) + 3 = 4.
Proof.
  refine (walk_conserves_slots (walk_at 1 blk0 ∅) [blk1; blk2; blk4] _ _); [by_eval|].
  split.
  - repeat (apply Forall_cons; split; [by_eval|]). constructor.
  - repeat (apply SSorted_cons; [|repeat (apply Forall_cons; split; [reflexivity|])]); constructor.
  - repeat (apply Forall_cons; split; [by_eval|]). constructor.
  - repeat (apply Forall_cons; split; [right; by_eval|]). constructor.
Defined.

Lemma walk_clean_iff_linked_witness :
  linked (tip blk0) [blk1; blk2; blk4] /\
  Forall (anchor_ok {[2 := blockhash blk2]}) [blk1; blk2; blk4].
Proof.
  refine (proj1 (walk_clean_iff_linked (walk_at 1 blk0 {[2 := blockhash blk2]}) [blk1; blk2; blk4]
    (tip blk0) _ _ _) _).
  - repeat (apply Forall_cons; split; [by_eval|]). constructor.
  - repeat (apply Forall_cons; split; [by_eval|]). constructor.
  - reflexivity.
  - vm_compute. repeat constructor.
Defined.

Definition job (genesis : option (Z * list Z)) : JobDescriptor :=
  set_genesis genesis (job_descriptor (archive_args 1 6 true []) (1, 6) None).

Lemma handoff_keeps_era_witness :
  alpenglow_era (alpenglow_genesis_block (job None)) 9 =
  alpenglow_era (alpenglow_genesis_block (job (Some (10, genesis_hash)))) 9.
Proof.
  apply (handoff_keeps_era (job None) (job (Some (10, genesis_hash))) false 11 9).
  - vm_compute. reflexivity.
  - lia.
Defined.

Definition small_checkpoint : Checkpoint := mkCheckpoint (job None) 3 RunCounters_default ∅ false 0.

(** A process that dies after the first of two pieces is written. *)
Lemma save_crash_atomic_witness :
  let from_str bytes := if bool_decide (bytes = [123; 125]) then Some small_checkpoint else None in
  let torn := run_file_ops [Create "verify.tmp"; Append "verify.tmp" [123]] ∅ in
  read_disk from_str torn !! "verify.tmp" = Some FPartial /\ load "verify.ckpt" (read_disk from_str torn) = load "verify.ckpt" (read_disk from_str ∅).
Proof.
  split; [vm_compute; reflexivity|].
  refine (proj1 (save_crash_atomic (fun _ => [123; 125]) _ "verify.ckpt" small_checkpoint [[123]; [125]] ∅ [Create "verify.tmp"; Append "verify.tmp" [123]] _ _ _ _) _).
  - reflexivity.
  - reflexivity.
  - vm_compute. discriminate.
  - eexists. reflexivity.
  - discriminate.
Defined.

Lemma exit_code_contract_witness : exit_code (mkCounters 4 0 0 2 0 0 0 6 10 ∅) false = EXIT_OK.
Proof.
  apply (exit_code_contract (mkCounters 4 0 0 2 0 0 0 6 10 ∅)); simpl; [|lia].
  unfold counters_nonneg. simpl. lia.
Defined.

Lemma range_spec_roundtrip_witness :
  range_ok (Slots 5 9) /\ parse_range_spec (print_range (Slots 5 9)) = Ok (Slots 5 9).
Proof. apply (range_spec_roundtrip " 5:9 "). vm_compute. reflexivity. Defined.

Lemma schedule_roundtrip_witness :
  schedule_ok mainnet /\ parse_schedule (to_spec mainnet) = Ok mainnet.
Proof.
  apply (schedule_roundtrip
    "0:12500, 253584001:17500,255312004:27500,255744008:47500,257040000:57500,,257904000:62500").
  vm_compute. reflexivity.
Defined.

Lemma schedule_value_in_force_witness :
  exists pre f v post, eras mainnet = pre ++ (f, v) :: post /\ f <= 255000000 /\
    Forall (fun e => 255000000 < fst e) post /\ value_at mainnet 255000000 = v.
Proof.
  apply (schedule_value_in_force
    "0:12500,253584001:17500,255312004:27500,255744008:47500,257040000:57500,257904000:62500").
  - vm_compute. reflexivity.
  - lia.
Defined.

Lemma validate_args_exact_witness : args_ok (archive_args 1 6 true [(4, genesis_hash)]).
Proof.
  apply (validate_args_exact (archive_args 1 6 true [(4, genesis_hash)])).
  - by_eval.
  - vm_compute. reflexivity.
Defined.

(** ** Whole runs *)

(** A database whose reads fail from a slot on. *)
Definition failing_from (limit : Z) (db : ChDb) : ChDb :=
  mkChDb (fetch_bounds db) (fun s e => if limit <=? e then Err DbError else fetch_blocks db s e)
    (fetch_block_at db) (fetch_first_block_after db) (fetch_entries db) (fetch_tx_signatures db)
    (fetch_duplicate_conflicts db).

Lemma failing_laws limit db table rows txs :
  ChDbLaws db table rows txs -> ChDbLaws (failing_from limit db) table rows txs.
Proof.
  intros [? ? Hb ? ? ? ?]. split; simpl; try done.
  intros s e l. destruct (limit <=? e); [done|]. apply Hb.
Qed.

Definition args6 (resume : bool) : Args := archive_args 1 6 resume [(4, blockhash blk4)].

(** The state of the disk after a run that failed at slot 5. *)
Definition interrupted : fs := disk (archive_run (args6 false) (failing_from 5 archive_db) ∅).

Lemma archive_input resume : run_input (table := archive) (args6 resume) (1, 6).
Proof.
  split; simpl; [lia|by_eval|lia|].
  repeat (apply Forall_cons; split; [right; by_eval|]). constructor.
Qed.

Lemma interrupted_history : history "verify.ckpt" interrupted.
Proof.
  eapply (history_run _ ∅ (failing_from 5 archive_db) archive archive_rows archive_txs (args6 false)
    no_epochs no_remote 1700000000 [] (1, 6) None (Err DbError)).
  - apply history_start. reflexivity.
  - apply failing_laws, archive_laws.
  - reflexivity.
  - reflexivity.
  - apply archive_input.
  - vm_compute. reflexivity.
Qed.

(** The interrupted run saved a checkpoint at slot 5; the resumed one completes. *)
Lemma run_accounts_every_slot_witness :
  option_map next_start (match load "verify.ckpt" interrupted with Ok c => c | _ => None end) = Some 5 /\
  option_map slots_accounted (verdict (archive_run (args6 true) archive_db interrupted)) = Some 6.
Proof.
  split; [vm_compute; reflexivity|].
  assert (E : exists c rep f', archive_run (args6 true) archive_db interrupted = Some (Ok (c, rep), f'))
    by (do 3 eexists; vm_compute; reflexivity).
  destruct E as (c & rep & f' & E). rewrite E. simpl. f_equal.
  apply (run_accounts_every_slot "verify.ckpt" interrupted archive_db archive archive_rows archive_txs
    (args6 true) no_epochs no_remote 1700000000 [] (1, 6) None c rep f').
  - exact interrupted_history.
  - exact archive_laws.
  - reflexivity.
  - reflexivity.
  - apply archive_input.
  - exact E.
  - right. simpl. lia.
Defined.

Lemma run_terminates_witness :
  is_Some (archive_run (args6 false) (failing_from 5 archive_db) ∅).
Proof.
  apply (run_terminates (failing_from 5 archive_db) (args6 false) no_epochs no_remote 1700000000 [] ∅).
  - intros range g [= <- <-]. by_eval.
  - simpl. lia.
  - intros path c. unfold load. by rewrite lookup_empty.
Defined.

Lemma archive_rows_typed b es :
  b ∈ archive -> archive_rows !! b_slot b = Some es ->
  rows_typed b es (Some (value_at two_per_tick (b_slot b))).
Proof.
  assert (Hty : forall l, bool_decide (Forall entry_typed l) = true -> Forall entry_typed l)
    by (intros l Hl; by apply bool_decide_eq_true in Hl).
  unfold archive. rewrite !elem_of_cons, elem_of_nil.
  intros Hb Hr.
  assert (Hv : value_at two_per_tick (b_slot b) = 2) by (naive_solver).
  rewrite Hv. unfold rows_typed.
  decompose [or] Hb; subst; try done;
    vm_compute in Hr; injection Hr as <-;
    (split; [repeat constructor; by_eval|]; split; [by_eval|]; split; [by_eval|]; split; [by_eval|];
     intros h [= <-]; by_eval).
Qed.

Lemma run_exit_ok_sound_witness :
  range_verified (table := archive) (rows := archive_rows) (txs := archive_txs) (args6 false)
    (job_descriptor (args6 false) (1, 6) None) 1.
Proof.
  assert (E : exists c rep f', archive_run (args6 false) archive_db ∅ = Some (Ok (c, rep), f') /\
    exit_code c false = EXIT_OK) by (do 3 eexists; split; vm_compute; reflexivity).
  destruct E as (c & rep & f' & E & Hexit).
  apply (run_exit_ok_sound archive_db archive archive_rows archive_txs (args6 false)
    no_epochs no_remote 1700000000 [] ∅ (1, 6) None c rep f').
  - exact archive_laws.
  - exact archive_rows_typed.
  - reflexivity.
  - simpl. lia.
  - by_eval.
  - simpl. lia.
  - reflexivity.
  - reflexivity.
  - exact E.
  - exact Hexit.
Defined.
