(* ===== verification/BTree.v ===== *)
(** * BTree: ordered maps with 64-bit keys

    [std::collections::BTreeMap<u64, V>] as the list of its entries in key order,
    with the operations the coverage components use: [get], [insert], [remove],
    [range(..=k).next_back()], [range(lo..=hi)], [split_off].  [bt_ok] is the
    representation invariant (strictly ascending keys); the lemmas characterise every
    operation by the entries it keeps, so that clients never look at the order. *)

From S2P Require Import Prelude.

Open Scope Z_scope.

Abbreviation btree V := (list (Z * V)) (only parsing).

Section BTree.
Context {V : Type}.
Implicit Types (m : btree V) (k : Z) (v : V).

Definition bt_ok m : Prop := ascending (map fst m).

Fixpoint bt_get k m : option V :=
  match m with
  | [] => None
  | (k', v) :: m' => if k =? k' then Some v else bt_get k m'
  end.

Fixpoint bt_insert k v m : btree V :=
  match m with
  | [] => [(k, v)]
  | (k', v') :: m' =>
      if k <? k' then (k, v) :: m
      else if k =? k' then (k, v) :: m'
      else (k', v') :: bt_insert k v m'
  end.

Fixpoint bt_remove k m : btree V :=
  match m with
  | [] => []
  | (k', v) :: m' => if k =? k' then m' else (k', v) :: bt_remove k m'
  end.

(** [range(lo..=hi)], [range(..=hi)], [range(lo..)] *)
Definition bt_range (lo hi : Z) m : list (Z * V) :=
  List.filter (fun e => (lo <=? fst e) && (fst e <=? hi))%bool m.
Definition bt_range_to (hi : Z) m : list (Z * V) := List.filter (fun e => fst e <=? hi) m.

(** [range(..=hi).next_back()] *)
Definition bt_last_le (hi : Z) m : option (Z * V) := last (bt_range_to hi m).

(** [split_off(&floor)]: the entries from [floor] on. *)
Definition bt_split_off (floor : Z) m : btree V := List.filter (fun e => floor <=? fst e) m.

(** ** Laws *)

Lemma bt_ok_cons e m : bt_ok (e :: m) <-> Forall (fun e' => fst e < fst e') m /\ bt_ok m.
Proof.
  unfold bt_ok. cbn [map]. rewrite ascending_cons. split; intros [Hf Ho]; split; try done.
  - by apply (proj1 (Forall_fmap fst _ m)) in Hf.
  - by apply (Forall_fmap fst).
Qed.

Lemma bt_ok_unique m k v v' : bt_ok m -> (k, v) ∈ m -> (k, v') ∈ m -> v = v'.
Proof.
  induction m as [|e m IH]; intros Hok; [by intros ?%elem_of_nil|].
  apply bt_ok_cons in Hok as [Hf Hok]. rewrite Forall_forall in Hf.
  rewrite !elem_of_cons. intros [E|H1] [E'|H2]; [congruence| | |auto].
  - subst e. specialize (Hf _ H2). simpl in Hf. lia.
  - subst e. specialize (Hf _ H1). simpl in Hf. lia.
Qed.

Lemma bt_get_spec m k v : bt_ok m -> bt_get k m = Some v <-> (k, v) ∈ m.
Proof.
  induction m as [|[k' v'] m IH]; intros Hok; simpl; [by rewrite elem_of_nil|].
  apply bt_ok_cons in Hok as [Hf Hok]. rewrite elem_of_cons, <- IH by done.
  destruct (Z.eqb_spec k k') as [->|Hne]; [|naive_solver].
  split; [naive_solver|]. intros [?|Hin]; [naive_solver|].
  apply IH in Hin; [|done]. rewrite Forall_forall in Hf. specialize (Hf _ Hin). simpl in Hf. lia.
Qed.

Lemma bt_get_none m k : bt_ok m -> bt_get k m = None <-> forall v, (k, v) ∉ m.
Proof.
  intros Hok. split.
  - intros E v Hin. apply bt_get_spec in Hin; [congruence|done].
  - intros Hn. destruct (bt_get k m) eqn:E; [|done]. apply bt_get_spec in E; [|done].
    by apply Hn in E.
Qed.

Lemma bt_insert_elem m k v k' v' :
  bt_ok m -> (k', v') ∈ bt_insert k v m <-> (k' = k /\ v' = v) \/ (k' <> k /\ (k', v') ∈ m).
Proof.
  induction m as [|[a b] m IH]; intros Hok; simpl.
  { rewrite elem_of_cons, elem_of_nil, pair_equal_spec. tauto. }
  apply bt_ok_cons in Hok as [Hf Hok]. rewrite Forall_forall in Hf. simpl in Hf.
  destruct (Z.ltb_spec k a).
  - rewrite !elem_of_cons. split; [|naive_solver]. intros [?|[?|Hin]]; [naive_solver| |].
    + simplify_eq. right. split; [lia|auto].
    + specialize (Hf _ Hin). simpl in Hf. right. split; [lia|auto].
  - destruct (Z.eqb_spec k a) as [->|].
    + rewrite !elem_of_cons. split; [|naive_solver]. intros [?|Hin]; [naive_solver|].
      specialize (Hf _ Hin). simpl in Hf. right. split; [lia|auto].
    + rewrite !elem_of_cons, IH by done. naive_solver.
Qed.

Lemma bt_remove_elem m k k' v' :
  bt_ok m -> (k', v') ∈ bt_remove k m <-> k' <> k /\ (k', v') ∈ m.
Proof.
  induction m as [|[a b] m IH]; intros Hok; simpl.
  { rewrite elem_of_nil. tauto. }
  apply bt_ok_cons in Hok as [Hf Hok]. rewrite Forall_forall in Hf. simpl in Hf.
  destruct (Z.eqb_spec k a) as [->|].
  - rewrite elem_of_cons. split; [|naive_solver]. intros Hin.
    specialize (Hf _ Hin). simpl in Hf. split; [lia|auto].
  - rewrite !elem_of_cons, IH by done. naive_solver.
Qed.

Lemma bt_insert_ok m k v : bt_ok m -> bt_ok (bt_insert k v m).
Proof.
  induction m as [|[a b] m IH]; intros Hok; simpl; [by apply bt_ok_cons|].
  pose proof Hok as Hok'. apply bt_ok_cons in Hok' as [Hf Hok'].
  rewrite Forall_forall in Hf. simpl in Hf.
  destruct (Z.ltb_spec k a); [|destruct (Z.eqb_spec k a) as [->|]].
  - apply bt_ok_cons. split; [|done]. apply Forall_forall. intros e.
    rewrite elem_of_cons. simpl. intros [->|He]; [done|]. specialize (Hf _ He). lia.
  - apply bt_ok_cons. split; [|done]. apply Forall_forall. auto.
  - apply bt_ok_cons. split; [|auto]. apply Forall_forall. intros [k' v'] He.
    apply bt_insert_elem in He as [[-> ->]|[_ He]]; [simpl; lia|auto|done].
Qed.

Lemma bt_filter_ok m (p : Z * V -> bool) : bt_ok m -> bt_ok (List.filter p m).
Proof.
  induction m as [|e m IH]; intros Hok; [done|].
  apply bt_ok_cons in Hok as [Hf Hok]. simpl. destruct (p e); [|auto].
  apply bt_ok_cons. split; [|auto]. rewrite Forall_forall in *. intros x Hx. apply Hf.
  rewrite list_elem_of_In, filter_In, <- list_elem_of_In in Hx. tauto.
Qed.

Lemma bt_remove_ok m k : bt_ok m -> bt_ok (bt_remove k m).
Proof.
  induction m as [|[a b] m IH]; intros Hok; simpl; [done|].
  pose proof Hok as Hok'. apply bt_ok_cons in Hok' as [Hf Hok']. rewrite Forall_forall in Hf.
  destruct (Z.eqb_spec k a); [done|]. apply bt_ok_cons. split; [|auto].
  apply Forall_forall. intros [k' v'] He. apply bt_remove_elem in He as [_ He]; auto.
Qed.

Lemma elem_of_filter_b {A} (p : A -> bool) x (l : list A) : x ∈ List.filter p l <-> x ∈ l /\ p x = true.
Proof. by rewrite list_elem_of_In, filter_In, <- list_elem_of_In. Qed.

Lemma bt_range_elem m lo hi e : e ∈ bt_range lo hi m <-> e ∈ m /\ lo <= fst e <= hi.
Proof. unfold bt_range. rewrite elem_of_filter_b, andb_true_iff, !Z.leb_le. tauto. Qed.

Lemma bt_range_to_elem m hi e : e ∈ bt_range_to hi m <-> e ∈ m /\ fst e <= hi.
Proof. unfold bt_range_to. by rewrite elem_of_filter_b, Z.leb_le. Qed.

Lemma bt_split_off_elem m floor e : e ∈ bt_split_off floor m <-> e ∈ m /\ floor <= fst e.
Proof. unfold bt_split_off. by rewrite elem_of_filter_b, Z.leb_le. Qed.

Lemma bt_last_max m e : bt_ok m -> last m = Some e -> forall e', e' ∈ m -> fst e' <= fst e.
Proof.
  intros Hok Hl. apply last_Some in Hl as [l ->]. unfold bt_ok in Hok. rewrite map_app in Hok.
  intros e'. rewrite elem_of_app, list_elem_of_singleton. intros [He| ->]; [|lia].
  clear -Hok He. induction l as [|a l IH]; [by apply elem_of_nil in He|].
  cbn [map app] in Hok. apply ascending_cons in Hok as [Hf Hok].
  apply elem_of_cons in He as [->|He]; [|auto].
  rewrite Forall_app in Hf. destruct Hf as [_ Hf]. inversion Hf; subst. lia.
Qed.

(** The entry with the greatest key that is at most [hi]. *)
Lemma bt_last_le_spec m hi :
  bt_ok m ->
  match bt_last_le hi m with
  | Some e => e ∈ m /\ fst e <= hi /\ forall e', e' ∈ m -> fst e' <= hi -> fst e' <= fst e
  | None => forall e, e ∈ m -> hi < fst e
  end.
Proof.
  intros Hok. unfold bt_last_le. destruct (last (bt_range_to hi m)) as [e|] eqn:E.
  - pose proof (last_Some_elem_of _ _ E) as He. apply bt_range_to_elem in He as [He Hle].
    split; [done|]. split; [done|]. intros e' He' Hle'.
    eapply bt_last_max; [|exact E|by apply bt_range_to_elem]. by apply bt_filter_ok.
  - apply last_None in E. intros e He. destruct (decide (fst e <= hi)) as [Hle|]; [|lia].
    assert (Hin : e ∈ bt_range_to hi m) by by apply bt_range_to_elem.
    rewrite E in Hin. by apply elem_of_nil in Hin.
Qed.

End BTree.

#[export] Hint Resolve bt_insert_ok bt_remove_ok bt_filter_ok : superbank.
