(* ===== verification/SlotCoverage.v ===== *)
(** * SlotCoverage: owned answers and their completeness intervals

    Models [crates/superbank-rpc/src/slot_coverage.rs].  A [SlotCoverage] carries the
    slots a source found and the inclusive intervals for which that list is complete;
    the block-range handlers merge the answers of several sources and ask for the gaps
    that are left.  Vectors are lists, [sort_unstable] is a sort (the order of equal
    elements does not matter for integers). *)

From S2P Require Import Prelude.

Open Scope Z_scope.

Record SlotCoverage := mkSlotCoverage {
  sc_slots : list Z;
  sc_intervals : list (Z * Z);
}.

Definition SlotCoverage_default : SlotCoverage := mkSlotCoverage [] [].

(** [SlotCoverage::new] *)
Definition SlotCoverage_new (slots : list Z) (start end_ : Z) : SlotCoverage :=
  mkSlotCoverage slots [(start, end_)].

(** [sort_unstable] on slots and on intervals. *)
Definition sort_slots (l : list Z) : list Z := merge_sort Z.le l.

Definition interval_le (a b : Z * Z) : Prop := fst a < fst b \/ (fst a = fst b /\ snd a <= snd b).
#[export] Instance interval_le_dec a b : Decision (interval_le a b).
Proof. unfold interval_le. apply _. Defined.
#[export] Instance interval_le_trans : Transitive interval_le.
Proof. intros a b c. unfold interval_le. lia. Qed.
#[export] Instance interval_le_total : Total interval_le.
Proof. intros a b. unfold interval_le. lia. Qed.
Definition sort_intervals (l : list (Z * Z)) : list (Z * Z) := merge_sort interval_le l.

(** [Vec::dedup] *)
Fixpoint dedup (l : list Z) : list Z :=
  match l with
  | a :: ((b :: _) as l') => if a =? b then dedup l' else a :: dedup l'
  | _ => l
  end.

(** The loop of [gaps]. *)
Fixpoint gaps_loop (end_ cursor : Z) (intervals : list (Z * Z)) : list (Z * Z) :=
  match intervals with
  | [] => [(cursor, end_)]
  | (floor, tip) :: rest =>
      if tip <? cursor then gaps_loop end_ cursor rest
      else if end_ <? floor then [(cursor, end_)]
      else
        (if cursor <? floor then [(cursor, floor - 1)] else []) ++
        (if end_ <=? tip then [] else gaps_loop end_ (tip + 1) rest)
  end.

(** [SlotCoverage::gaps] *)
Definition gaps (start end_ : Z) (c : SlotCoverage) : list (Z * Z) :=
  if end_ <? start then [] else gaps_loop end_ start (sc_intervals c).

(** [SlotCoverage::exclude] *)
Definition exclude (exclusions c : SlotCoverage) : SlotCoverage :=
  let intervals := mjoin ((fun ab => gaps (fst ab) (snd ab) exclusions) <$> sc_intervals c) in
  mkSlotCoverage
    (List.filter (fun slot => existsb (fun ab => (fst ab <=? slot) && (slot <=? snd ab))%bool intervals)
       (sc_slots c))
    intervals.

(** [SlotCoverage::merge] *)
Definition merge (c other : SlotCoverage) : SlotCoverage :=
  mkSlotCoverage
    (dedup (sort_slots (sc_slots c ++ sc_slots other)))
    (sort_intervals (sc_intervals c ++ sc_intervals other)).

Definition between (start end_ : Z) (l : list Z) : list Z :=
  List.filter (fun s => (start <=? s) && (s <=? end_))%bool l.

(** The double loop of [merge_checked] that collects the contradictory overlaps. *)
Definition overlap_conflict (c other : SlotCoverage) (ab cd : Z * Z) : list (Z * Z) :=
  let start := Z.max (fst ab) (fst cd) in
  let end_ := Z.min (snd ab) (snd cd) in
  if ((start <=? end_) &&
      bool_decide (between start end_ (sc_slots c) <> between start end_ (sc_slots other)))%bool
  then [(start, end_)] else [].

Definition conflicts (c other : SlotCoverage) : list (Z * Z) :=
  mjoin ((fun ab => mjoin (overlap_conflict c other ab <$> sc_intervals other)) <$> sc_intervals c).

(** [SlotCoverage::merge_checked]: the merged coverage and whether it conflicted. *)
Definition merge_checked (c other : SlotCoverage) : SlotCoverage * bool :=
  let conflicts := conflicts c other in
  let changed := negb (bool_decide (conflicts = [])) in
  let exclusions := mkSlotCoverage [] (sort_intervals conflicts) in
  (merge (exclude exclusions c) (exclude exclusions other), changed).

(** ** Meaning *)

(** The answer is complete at a slot. *)
Definition complete_at (c : SlotCoverage) (x : Z) : Prop := in_ranges x (sc_intervals c).

Definition sorted_intervals (l : list (Z * Z)) : Prop := StronglySorted interval_le l.

Record coverage_ok (c : SlotCoverage) : Prop := {
  co_intervals : sorted_intervals (sc_intervals c);
  co_slots : ascending (sc_slots c);
  co_inside : forall x, x ∈ sc_slots c -> complete_at c x;
}.

(** ** Gaps *)

Lemma gaps_loop_spec end_ cursor l x :
  sorted_intervals l -> cursor <= end_ ->
  in_ranges x (gaps_loop end_ cursor l) <-> cursor <= x <= end_ /\ ~ in_ranges x l.
Proof.
  intros Hs. revert cursor. induction Hs as [|[f t] l Hs IH Hf]; intros cursor Hc; simpl.
  { rewrite in_ranges_cons, !in_ranges_nil. intuition lia. }
  rewrite (in_ranges_cons x f t l).
  destruct (Z.ltb_spec t cursor); [rewrite IH by done; intuition lia|].
  destruct (Z.ltb_spec end_ f).
  - assert (Hlate : x <= end_ -> ~ in_ranges x l).
    { intros Hx ([a b] & Hin & Hab). rewrite Forall_forall in Hf. specialize (Hf _ Hin).
      unfold interval_le in Hf. simpl in *. lia. }
    rewrite in_ranges_cons, in_ranges_nil. intuition lia.
  - rewrite in_ranges_app.
    assert (Hlater : x < f -> ~ in_ranges x l).
    { intros Hx ([a b] & Hin & Hab). rewrite Forall_forall in Hf. specialize (Hf _ Hin).
      unfold interval_le in Hf. simpl in *. lia. }
    assert (Hhd : in_ranges x (if cursor <? f then [(cursor, f - 1)] else []) <-> cursor <= x < f)
      by (destruct (Z.ltb_spec cursor f); rewrite ?in_ranges_cons, in_ranges_nil; intuition lia).
    rewrite Hhd. destruct (Z.leb_spec end_ t).
    + rewrite in_ranges_nil. intuition lia.
    + rewrite IH by lia. split; [intuition lia|]. intros [Hx Hn].
      destruct (decide (x < f)); [left; lia|right; intuition lia].
Qed.

Lemma gaps_spec c start end_ x :
  sorted_intervals (sc_intervals c) ->
  in_ranges x (gaps start end_ c) <-> start <= x <= end_ /\ ~ complete_at c x.
Proof.
  intros Hs. unfold gaps, complete_at. destruct (Z.ltb_spec end_ start).
  - rewrite in_ranges_nil. lia.
  - by apply gaps_loop_spec.
Qed.

(** ** Merging *)

Lemma sort_intervals_ranges l x : in_ranges x (sort_intervals l) <-> in_ranges x l.
Proof.
  unfold in_ranges, sort_intervals. split; intros (r & Hin & Hx); exists r; (split; [|done]).
  - by rewrite merge_sort_Permutation in Hin.
  - by rewrite merge_sort_Permutation.
Qed.

Lemma sort_intervals_sorted l : sorted_intervals (sort_intervals l).
Proof. apply StronglySorted_merge_sort; apply _. Qed.

Lemma in_ranges_join {A} (f : A -> list (Z * Z)) l x :
  in_ranges x (mjoin (f <$> l)) <-> exists a, a ∈ l /\ in_ranges x (f a).
Proof.
  induction l as [|a l IH]; simpl.
  - rewrite in_ranges_nil. split; [done|]. by intros (? & ?%elem_of_nil & _).
  - rewrite in_ranges_app. setoid_rewrite elem_of_cons. unfold fmap in IH. rewrite IH. naive_solver.
Qed.

Lemma dedup_cons a b l :
  dedup (a :: b :: l) = if a =? b then dedup (b :: l) else a :: dedup (b :: l).
Proof. reflexivity. Qed.

Lemma elem_of_dedup l x : x ∈ dedup l <-> x ∈ l.
Proof.
  induction l as [|a [|b l] IH]; [done|done|]. rewrite dedup_cons, (elem_of_cons (b :: l) x a).
  destruct (Z.eqb_spec a b) as [->|]; [|by rewrite elem_of_cons, IH].
  rewrite IH, elem_of_cons. tauto.
Qed.

Lemma dedup_ascending l : StronglySorted Z.le l -> ascending (dedup l).
Proof.
  induction l as [|a [|b l] IH]; intros Hs; [constructor|repeat constructor|].
  inversion Hs as [|? ? Hs' Hf]; subst. specialize (IH Hs'). rewrite dedup_cons.
  destruct (Z.eqb_spec a b) as [->|Hne]; [done|]. apply ascending_cons. split; [|done].
  inversion Hs' as [|? ? _ Hf']; inversion Hf; subst.
  apply Forall_forall. intros x Hx. rewrite elem_of_dedup, elem_of_cons in Hx.
  rewrite Forall_forall in Hf'. destruct Hx as [->|Hx]; [lia|]. specialize (Hf' x Hx). lia.
Qed.

Lemma merge_spec c other x :
  (complete_at (merge c other) x <-> complete_at c x \/ complete_at other x) /\
  (x ∈ sc_slots (merge c other) <-> x ∈ sc_slots c \/ x ∈ sc_slots other).
Proof.
  unfold merge, complete_at. simpl. rewrite sort_intervals_ranges, in_ranges_app. split; [done|].
  rewrite elem_of_dedup. unfold sort_slots. rewrite merge_sort_Permutation. apply elem_of_app.
Qed.

Lemma merge_ok c other :
  (forall x, x ∈ sc_slots c -> complete_at c x) ->
  (forall x, x ∈ sc_slots other -> complete_at other x) -> coverage_ok (merge c other).
Proof.
  intros H1 H2. split.
  - apply sort_intervals_sorted.
  - apply dedup_ascending, StronglySorted_merge_sort; apply _.
  - intros x Hx. apply merge_spec in Hx. apply merge_spec. naive_solver.
Qed.

Lemma exclude_spec e c x :
  sorted_intervals (sc_intervals e) ->
  (complete_at (exclude e c) x <-> complete_at c x /\ ~ complete_at e x) /\
  (x ∈ sc_slots (exclude e c) <-> x ∈ sc_slots c /\ complete_at c x /\ ~ complete_at e x).
Proof.
  intros Hs.
  assert (Hc : complete_at (exclude e c) x <-> complete_at c x /\ ~ complete_at e x).
  { unfold complete_at at 1. simpl. rewrite in_ranges_join. split.
    - intros (ab & Hin & Hg). apply gaps_spec in Hg as [Hx Hn]; [|done]. split; [by exists ab|done].
    - intros [(ab & Hin & Hx) Hn]. exists ab. split; [done|]. by apply gaps_spec. }
  split; [done|]. rewrite <- Hc. unfold exclude. simpl.
  rewrite list_elem_of_In, filter_In, <- list_elem_of_In, existsb_exists.
  unfold complete_at, in_ranges. simpl. setoid_rewrite <- list_elem_of_In.
  setoid_rewrite andb_true_iff. setoid_rewrite Z.leb_le. done.
Qed.

(** ** Conflicts *)

(** The two answers disagree about slot [y]. *)
Definition disagree (c other : SlotCoverage) (y : Z) : Prop :=
  ~ (y ∈ sc_slots c <-> y ∈ sc_slots other).

(** [x] lies in an overlap of two intervals somewhere on which the answers
    disagree. *)
Definition disputed (c other : SlotCoverage) (x : Z) : Prop :=
  exists ab cd y, ab ∈ sc_intervals c /\ cd ∈ sc_intervals other /\
    fst ab <= x <= snd ab /\ fst cd <= x <= snd cd /\
    fst ab <= y <= snd ab /\ fst cd <= y <= snd cd /\ disagree c other y.

Lemma elem_of_between s e l y : y ∈ between s e l <-> y ∈ l /\ s <= y <= e.
Proof.
  unfold between. rewrite list_elem_of_In, filter_In, <- list_elem_of_In, andb_true_iff, !Z.leb_le.
  done.
Qed.

Lemma between_ascending s e l : ascending l -> ascending (between s e l).
Proof.
  induction l as [|a l IH]; intros Ha; [done|]. apply ascending_cons in Ha as [Hf Ha].
  unfold between in *. simpl. destruct (_ && _)%bool; [|auto]. apply ascending_cons.
  split; [|auto]. rewrite Forall_forall in *. intros y Hy. apply Hf.
  by apply (elem_of_between s e l y) in Hy as [Hy _].
Qed.

(** Strictly ascending lists with the same elements are equal. *)
Lemma ascending_ext l k : ascending l -> ascending k -> (forall y, y ∈ l <-> y ∈ k) -> l = k.
Proof.
  intros Hl Hk Hext. apply (StronglySorted_unique Z.le).
  - clear -Hl. induction Hl as [|a l Hl IH Hf]; constructor; [done|].
    eapply Forall_impl; [exact Hf|]. simpl. lia.
  - clear -Hk. induction Hk as [|a l Hl IH Hf]; constructor; [done|].
    eapply Forall_impl; [exact Hf|]. simpl. lia.
  - apply NoDup_Permutation; [by apply ascending_NoDup|by apply ascending_NoDup|done].
Qed.

Lemma between_differ c other s e :
  ascending (sc_slots c) -> ascending (sc_slots other) ->
  between s e (sc_slots c) <> between s e (sc_slots other) <->
  exists y, s <= y <= e /\ disagree c other y.
Proof.
  intros H1 H2. split.
  - intros Hne.
    destruct (decide (Exists (fun y => y ∈ between s e (sc_slots c) /\ y ∉ sc_slots other \/
       y ∈ between s e (sc_slots other) /\ y ∉ sc_slots c) (sc_slots c ++ sc_slots other)))
      as [Hex|Hno].
    + apply Exists_exists in Hex as (y & _ & Hy). rewrite !elem_of_between in Hy. exists y.
      unfold disagree. split; [naive_solver|]. naive_solver.
    + exfalso. apply Hne, ascending_ext; [by apply between_ascending..|].
      rewrite <- Forall_Exists_neg, Forall_forall in Hno. intros y. rewrite !elem_of_between.
      specialize (Hno y). rewrite elem_of_app, !elem_of_between in Hno.
      destruct (decide (y ∈ sc_slots c)), (decide (y ∈ sc_slots other)); naive_solver.
  - intros (y & Hy & Hd) E. apply Hd.
    assert (Hb : y ∈ between s e (sc_slots c) <-> y ∈ between s e (sc_slots other)) by by rewrite E.
    rewrite !elem_of_between in Hb. tauto.
Qed.

Lemma overlap_conflict_spec c other ab cd x :
  ascending (sc_slots c) -> ascending (sc_slots other) ->
  in_ranges x (overlap_conflict c other ab cd) <->
  fst ab <= x <= snd ab /\ fst cd <= x <= snd cd /\
  exists y, fst ab <= y <= snd ab /\ fst cd <= y <= snd cd /\ disagree c other y.
Proof.
  intros H1 H2. unfold overlap_conflict.
  set (s := Z.max (fst ab) (fst cd)). set (e := Z.min (snd ab) (snd cd)).
  pose proof (between_differ c other s e H1 H2) as Hb.
  destruct (Z.leb_spec s e); simpl; [case_bool_decide as D|];
    rewrite ?in_ranges_cons, in_ranges_nil.
  - split; [|lia]. intros [Hx|[]]. split; [lia|]. split; [lia|].
    apply (proj1 Hb) in D as (y & Hy & Hd). exists y. split; [lia|]. split; [lia|done].
  - split; [done|]. intros (Hx & Hx' & y & Hy & Hy' & Hd). apply (proj2 Hb); [|done].
    exists y. split; [lia|done].
  - split; [done|]. lia.
Qed.

Lemma conflicts_spec c other x :
  ascending (sc_slots c) -> ascending (sc_slots other) ->
  in_ranges x (conflicts c other) <-> disputed c other x.
Proof.
  intros H1 H2. unfold conflicts, disputed. rewrite in_ranges_join.
  setoid_rewrite in_ranges_join. setoid_rewrite overlap_conflict_spec; [|done..]. naive_solver.
Qed.

Lemma merge_checked_spec c other x :
  coverage_ok c -> coverage_ok other ->
  let r := fst (merge_checked c other) in
  coverage_ok r /\
  (complete_at r x <-> (complete_at c x \/ complete_at other x) /\ ~ disputed c other x) /\
  (x ∈ sc_slots r <-> (x ∈ sc_slots c \/ x ∈ sc_slots other) /\ ~ disputed c other x).
Proof.
  intros [_ Hs1 Hi1] [_ Hs2 Hi2]. unfold merge_checked. cbn [fst].
  set (e := mkSlotCoverage [] (sort_intervals (conflicts c other))).
  assert (He : sorted_intervals (sc_intervals e)) by apply sort_intervals_sorted.
  assert (Hd : forall y, complete_at e y <-> disputed c other y).
  { intros y. unfold complete_at. simpl. by rewrite sort_intervals_ranges, conflicts_spec. }
  split; [|split].
  - apply merge_ok; intros y Hy; apply exclude_spec in Hy as (_ & ? & ?); try done; by apply exclude_spec.
  - destruct (merge_spec (exclude e c) (exclude e other) x) as [-> _].
    destruct (exclude_spec e c x He) as [-> _], (exclude_spec e other x He) as [-> _].
    rewrite Hd. tauto.
  - destruct (merge_spec (exclude e c) (exclude e other) x) as [_ ->].
    destruct (exclude_spec e c x He) as [_ ->], (exclude_spec e other x He) as [_ ->].
    rewrite Hd. specialize (Hi1 x). specialize (Hi2 x). tauto.
Qed.

Lemma in_ranges_nonempty l : l <> [] -> Forall (fun r => fst r <= snd r) l -> exists x, in_ranges x l.
Proof.
  destruct l as [|[a b] l]; [done|]. intros _ Hf. inversion Hf; subst. exists a.
  apply in_ranges_cons. simpl in *. lia.
Qed.

Lemma conflicts_proper c other : Forall (fun r => fst r <= snd r) (conflicts c other).
Proof.
  unfold conflicts. apply Forall_join, Forall_fmap, Forall_forall. intros ab _. simpl.
  apply Forall_join, Forall_fmap, Forall_forall. intros cd _. simpl. unfold overlap_conflict.
  destruct (Z.leb_spec (Z.max (fst ab) (fst cd)) (Z.min (snd ab) (snd cd))); simpl; [|constructor].
  case_bool_decide; repeat constructor. simpl. lia.
Qed.

(** ** Properties *)

(** The gaps of an answer over a window are exactly the slots of the window for
    which the answer is not complete. *)
Theorem gaps_exact c start end_ x :
  sorted_intervals (sc_intervals c) ->
  in_ranges x (gaps start end_ c) <-> start <= x <= end_ /\ ~ complete_at c x.
Proof. apply gaps_spec. Qed.

(** A checked merge never claims completeness where its sources contradict each
    other: where the result is complete, every source that was complete there agrees
    with it slot by slot; nothing else is lost, the flag reports exactly whether some
    slot was in dispute, and the result is again well formed. *)
Theorem merge_checked_sound c other x :
  coverage_ok c -> coverage_ok other ->
  let '(r, changed) := merge_checked c other in
  coverage_ok r /\
  (complete_at r x <-> (complete_at c x \/ complete_at other x) /\ ~ disputed c other x) /\
  (complete_at r x -> complete_at c x -> x ∈ sc_slots r <-> x ∈ sc_slots c) /\
  (complete_at r x -> complete_at other x -> x ∈ sc_slots r <-> x ∈ sc_slots other) /\
  (changed = true <-> exists y, disputed c other y).
Proof.
  intros H1 H2. pose proof (merge_checked_spec c other x H1 H2) as (Hok & Hc & Hs).
  destruct (merge_checked c other) as [r changed] eqn:E. cbn [fst] in *.
  assert (Hagree : complete_at c x -> complete_at other x -> ~ disputed c other x ->
     x ∈ sc_slots c <-> x ∈ sc_slots other).
  { intros (ab & Hab & Hx) (cd & Hcd & Hx') Hnd.
    destruct (decide (x ∈ sc_slots c)), (decide (x ∈ sc_slots other)); try tauto;
      exfalso; apply Hnd; exists ab, cd, x; unfold disagree; tauto. }
  pose proof (co_inside _ H1 x) as Hi1. pose proof (co_inside _ H2 x) as Hi2.
  split; [done|]. split; [done|]. split; [tauto|]. split; [tauto|].
  unfold merge_checked in E. injection E as _ <-. case_bool_decide as D; simpl.
  - split; [done|]. intros (y & Hy). apply conflicts_spec in Hy; [|apply H1|apply H2].
    rewrite D in Hy. by apply in_ranges_nil in Hy.
  - split; [|done]. intros _. destruct (in_ranges_nonempty _ D (conflicts_proper c other)) as [y Hy].
    exists y. apply conflicts_spec in Hy; [done|apply H1|apply H2].
Qed.
