(* ===== verification/CoverageMap.v ===== *)
(** * CoverageMap: the disk cache's in-memory set of covered slots

    Models [crates/superbank-rpc/src/disk_cache/coverage.rs].  The map keeps
    inclusive slot ranges, start to end; its promise is that it behaves as a plain
    set of slots ([covers]) while its ranges stay disjoint and non-adjacent
    ([map_ok]).  Every operation is characterised against that set. *)

From S2P Require Import Prelude BTree.

Open Scope Z_scope.

Abbreviation CoverageMap := (btree Z).

(** [CoverageMap::new] *)
Definition coverage_new : CoverageMap := [].

(** The loop that absorbs the ranges collected in [absorbed]. *)
Definition absorb (acc : CoverageMap * Z) (range_start : Z) : CoverageMap * Z :=
  let '(ranges, new_end) := acc in
  match bt_get range_start ranges with
  | Some range_end => (bt_remove range_start ranges, Z.max new_end range_end)
  | None => (ranges, new_end)
  end.

(** [CoverageMap::insert_range] *)
Definition insert_range (start end_ : Z) (m : CoverageMap) : CoverageMap :=
  if end_ <? start then m
  else
    let '(m, new_start, new_end) :=
      match bt_last_le start m with
      | Some (prev_start, prev_end) =>
          if start <=? sat_add prev_end 1
          then (bt_remove prev_start m, prev_start, Z.max end_ prev_end)
          else (m, start, end_)
      | None => (m, start, end_)
      end in
    let absorbed := map fst (bt_range new_start (sat_add new_end 1) m) in
    let '(m, new_end) := foldl absorb (m, new_end) absorbed in
    bt_insert new_start new_end m.

(** [CoverageMap::insert] *)
Definition insert_slot (slot : Z) (m : CoverageMap) : CoverageMap := insert_range slot slot m.

(** [CoverageMap::remove] *)
Definition remove_slot (slot : Z) (m : CoverageMap) : CoverageMap :=
  match bt_last_le slot m with
  | None => m
  | Some (start, end_) =>
      if end_ <? slot then m
      else
        let m := bt_remove start m in
        let m := if start <? slot then bt_insert start (slot - 1) m else m in
        if slot <? end_ then bt_insert (slot + 1) end_ m else m
  end.

Definition truncate_range (floor : Z) (m : CoverageMap) (start : Z) : CoverageMap :=
  match bt_get start m with
  | Some end_ =>
      let m := bt_remove start m in
      if floor <=? end_ then bt_insert floor end_ m else m
  | None => m
  end.

(** [CoverageMap::remove_below] *)
Definition remove_below (floor : Z) (m : CoverageMap) : CoverageMap :=
  foldl (truncate_range floor) m (map fst (bt_range_to (floor - 1) m)).

(** [CoverageMap::contains] *)
Definition contains_slot (slot : Z) (m : CoverageMap) : bool :=
  match bt_last_le slot m with Some (_, end_) => slot <=? end_ | None => false end.

(** [CoverageMap::intersects] *)
Definition intersects (start end_ : Z) (m : CoverageMap) : bool :=
  match bt_last_le end_ m with Some (_, range_end) => start <=? range_end | None => false end.

(** [CoverageMap::covered_span] *)
Definition covered_span (m : CoverageMap) : option (Z * Z) :=
  match head m, last m with
  | Some (first_start, _), Some (_, last_end) => Some (first_start, last_end)
  | _, _ => None
  end.

(** [CoverageMap::contiguous_tip_span] *)
Definition contiguous_tip_span (m : CoverageMap) : option (Z * Z) := last m.

(** [CoverageMap::intersections] *)
Definition intersections (start end_ : Z) (m : CoverageMap) : list (Z * Z) :=
  omap (fun r => let floor := Z.max (fst r) start in
                 let tip := Z.min (snd r) end_ in
                 if floor <=? tip then Some (floor, tip) else None)
    (bt_range_to end_ m).

(** The loop of [holes_in] over the ranges that start in the window. *)
Fixpoint holes_loop (end_ cursor : Z) (ranges : list (Z * Z)) : list (Z * Z) :=
  match ranges with
  | [] => if cursor <=? end_ then [(cursor, end_)] else []
  | (range_start, range_end) :: rest =>
      (if cursor <? range_start then [(cursor, range_start - 1)] else []) ++
      (if end_ <=? range_end then [] else holes_loop end_ (range_end + 1) rest)
  end.

(** [CoverageMap::holes_in] *)
Definition holes_in (start end_ : Z) (m : CoverageMap) : list (Z * Z) :=
  if end_ <? start then []
  else
    match bt_last_le start m with
    | Some (_, prev_end) =>
        if start <=? prev_end then
          if end_ <=? prev_end then []
          else holes_loop end_ (prev_end + 1) (bt_range (prev_end + 1) end_ m)
        else holes_loop end_ start (bt_range start end_ m)
    | None => holes_loop end_ start (bt_range start end_ m)
    end.

(** ** The abstract set and the invariant *)

Abbreviation covers m x := (in_ranges x m) (only parsing).

Record map_ok (m : CoverageMap) : Prop := {
  mo_keys : bt_ok m;
  mo_ranges : forall s e, (s, e) ∈ m -> 0 <= s <= e /\ e <= u64_max;
  mo_apart : forall s e s' e', (s, e) ∈ m -> (s', e') ∈ m -> s < s' -> e + 1 < s';
}.

Lemma covers_iff m x : covers m x <-> exists s e, (s, e) ∈ m /\ s <= x <= e.
Proof. split; [intros ([s e] & H & ?); eauto|intros (s & e & H & ?); by exists (s, e)]. Qed.

Lemma new_ok : map_ok coverage_new.
Proof.
  split; [constructor|by intros s e ?%elem_of_nil|by intros s e s' e' ?%elem_of_nil].
Qed.

(** ** Insertion *)

Lemma absorb_spec ks m e m' e' :
  bt_ok m -> foldl absorb (m, e) ks = (m', e') ->
  bt_ok m' /\ (forall k v, (k, v) ∈ m' <-> (k, v) ∈ m /\ k ∉ ks) /\
  e <= e' /\ (forall k v, (k, v) ∈ m -> k ∈ ks -> v <= e') /\
  (e' = e \/ exists k, (k, e') ∈ m /\ k ∈ ks).
Proof.
  revert m e. induction ks as [|k0 ks IH]; intros m e Hok.
  { simpl. intros [= <- <-]. split; [done|]. split; [|split; [lia|split; [|by left]]].
    - intros k v. rewrite elem_of_nil. tauto.
    - intros k v _ Hk. by apply elem_of_nil in Hk. }
  cbn [foldl absorb]. destruct (bt_get k0 m) as [v0|] eqn:Eg; intros Hf.
  - apply bt_get_spec in Eg; [|done].
    apply IH in Hf as (Hok' & Hm & Hle & Hmax & Hor); [|auto with superbank].
    split; [done|]. split; [|split; [lia|split]].
    + intros k v. rewrite Hm, bt_remove_elem, elem_of_cons by done. naive_solver.
    + intros k v Hin. rewrite elem_of_cons. intros [->|Hk].
      * rewrite (bt_ok_unique m k0 v v0) by done. lia.
      * destruct (decide (k = k0)) as [->|].
        -- rewrite (bt_ok_unique m k0 v v0) by done. lia.
        -- apply (Hmax k); [|done]. by apply bt_remove_elem.
    + destruct Hor as [->|(k & Hk & Hks)].
      * destruct (Z.max_spec e v0) as [[_ ->]|[_ ->]]; [|by left].
        right. exists k0. split; [done|]. apply list_elem_of_here.
      * apply bt_remove_elem in Hk as [_ Hk]; [|done]. right. exists k.
        split; [done|]. by apply list_elem_of_further.
  - apply IH in Hf as (Hok' & Hm & Hle & Hmax & Hor); [|done].
    pose proof (proj1 (bt_get_none m k0 Hok) Eg) as Hnone.
    split; [done|]. split; [|split; [lia|split]].
    + intros k v. rewrite Hm, elem_of_cons. naive_solver.
    + intros k v Hin. rewrite elem_of_cons. intros [->|Hk]; [|by apply (Hmax k)].
      by apply Hnone in Hin.
    + destruct Hor as [->|(k & Hk & Hks)]; [by left|]. right. exists k.
      split; [done|]. by apply list_elem_of_further.
Qed.

(** The part of [insert_range] after its predecessor was absorbed: [m] has no
    range that starts before [ns] and reaches it. *)
Lemma insert_absorbed m ns ne m' ne' :
  map_ok m -> 0 <= ns <= ne -> ne <= u64_max ->
  (forall s e, (s, e) ∈ m -> s <= ns -> e + 1 < ns) ->
  foldl absorb (m, ne) (map fst (bt_range ns (sat_add ne 1) m)) = (m', ne') ->
  map_ok (bt_insert ns ne' m') /\
  forall x, covers (bt_insert ns ne' m') x <-> covers m x \/ ns <= x <= ne.
Proof.
  intros [Hk Hr Ha] Hns Hne Hpre Hf.
  apply absorb_spec in Hf as (Hok & Hm & Hle & Hmax & Hor); [|done].
  assert (Habs : forall k v, (k, v) ∈ m -> k ∈ map fst (bt_range ns (sat_add ne 1) m) <->
     ns <= k <= sat_add ne 1).
  { intros k v Hin. rewrite list_elem_of_fmap. split.
    - intros (e & -> & He). by apply bt_range_elem in He as [_ He].
    - intros Hb. exists (k, v). split; [done|]. by apply bt_range_elem. }
  assert (Hkeep : forall s e, (s, e) ∈ m' -> (s, e) ∈ m /\ (e + 1 < ns \/ ne' + 1 < s)).
  { intros s e [Hin Hni]%Hm. split; [done|]. rewrite (Habs s e Hin) in Hni.
    destruct (decide (s <= ns)) as [Hs|Hs]; [left; by apply (Hpre s)|].
    assert (Hs' : sat_add ne 1 < s) by lia. destruct (Hr s e Hin) as [Hse Heu].
    destruct Hor as [->|(k & Hk' & Hkin)]; [right; sat_lia|].
    right. apply (Habs k ne' Hk') in Hkin. apply (Ha k ne' s e Hk' Hin). lia. }
  assert (Hne' : ne' <= u64_max).
  { destruct Hor as [->|(k & Hk' & _)]; [done|]. by destruct (Hr k ne' Hk'). }
  split.
  - split; [auto with superbank| |].
    + intros s e [[-> ->]|[_ Hin]]%bt_insert_elem; [lia| |done].
      apply Hkeep in Hin as [Hin _]. by apply Hr.
    + intros s e s' e' Hs Hs' Hlt.
      apply bt_insert_elem in Hs; [|done]. apply bt_insert_elem in Hs'; [|done].
      destruct Hs as [[-> ->]|[_ Hs]], Hs' as [[-> ->]|[_ Hs']].
      * lia.
      * apply Hkeep in Hs' as [Hs' ?]. pose proof (Hr _ _ Hs'). lia.
      * apply Hkeep in Hs as [Hs ?]. pose proof (Hr _ _ Hs). lia.
      * apply Hkeep in Hs as [Hs _]. apply Hkeep in Hs' as [Hs' _]. by eapply Ha.
  - intros x. rewrite !covers_iff. split.
    + intros (s & e & Hin & Hx). apply bt_insert_elem in Hin as [[-> ->]|[_ Hin]]; [| |done].
      * destruct Hor as [->|(k & Hk' & Hkin)]; [by right|].
        apply (Habs k ne' Hk') in Hkin.
        destruct (decide (x <= ne)) as [|Hgt]; [right; lia|]. left. exists k, ne'. split; [done|sat_lia].
      * left. exists s, e. split; [by apply Hkeep|done].
    + intros [(s & e & Hin & Hx)|Hx].
      * destruct (decide (s ∈ map fst (bt_range ns (sat_add ne 1) m))) as [Hab|Hab].
        -- exists ns, ne'. split; [apply bt_insert_elem; auto|].
           pose proof (Hmax s e Hin Hab). apply (Habs s e Hin) in Hab. lia.
        -- exists s, e. split; [|done]. apply bt_insert_elem; [done|]. right.
           split; [|by apply Hm]. intros ->. apply Hab, (Habs ns e Hin). sat_lia.
      * exists ns, ne'. split; [apply bt_insert_elem; auto|lia].
Qed.

Lemma remove_key_ok m k : map_ok m -> map_ok (bt_remove k m).
Proof.
  intros [Hk Hr Ha]. split; [auto with superbank| |].
  - intros s e [_ Hin]%bt_remove_elem; [auto|done].
  - intros s e s' e' [_ H1]%bt_remove_elem [_ H2]%bt_remove_elem; [eauto|done|done].
Qed.

Lemma covers_remove_key m k v x :
  map_ok m -> (k, v) ∈ m -> covers m x <-> covers (bt_remove k m) x \/ k <= x <= v.
Proof.
  intros [Hk _ _] Hin. rewrite !covers_iff. split.
  - intros (s & e & Hs & Hx). destruct (decide (s = k)) as [->|].
    + right. by rewrite (bt_ok_unique m k v e).
    + left. exists s, e. split; [by apply bt_remove_elem|done].
  - intros [(s & e & [_ Hs]%bt_remove_elem & Hx)|Hx]; [eauto|done|eauto].
Qed.

Lemma insert_range_spec m start end_ :
  map_ok m -> is_u64 start -> is_u64 end_ ->
  map_ok (insert_range start end_ m) /\
  forall x, covers (insert_range start end_ m) x <-> covers m x \/ start <= x <= end_.
Proof.
  intros Hok Hs He. unfold insert_range. destruct (Z.ltb_spec end_ start).
  { split; [done|]. intros x. split; [auto|]. intros [|]; [done|lia]. }
  pose proof (bt_last_le_spec m start (mo_keys m Hok)) as Hlast. unfold is_u64 in *.
  assert (Hplain : (forall s e, (s, e) ∈ m -> s <= start -> e + 1 < start) ->
    let r := let '(m', ne') := foldl absorb (m, end_) (map fst (bt_range start (sat_add end_ 1) m)) in
             bt_insert start ne' m' in
    map_ok r /\ forall x, covers r x <-> covers m x \/ start <= x <= end_).
  { intros Hpre. destruct (foldl absorb _ _) as [m' ne'] eqn:E. cbv zeta.
    eapply insert_absorbed; [done|lia|lia|exact Hpre|exact E]. }
  destruct (bt_last_le start m) as [[ps pe]|]; simpl.
  2: { apply Hplain. intros s e Hin Hle. specialize (Hlast _ Hin). simpl in Hlast. lia. }
  destruct Hlast as (Hin & Hps & Hmax). simpl in *. destruct (mo_ranges m Hok ps pe Hin) as [Hp Hpu].
  destruct (Z.leb_spec start (sat_add pe 1)) as [Ht|Ht].
  - clear Hplain. destruct (foldl absorb _ _) as [m' ne'] eqn:E.
    eapply insert_absorbed in E as [Hok' Hcov].
    + split; [done|]. intros x. rewrite Hcov, (covers_remove_key m ps pe) by done.
      split; [intros [|]|intros [[|]|]]; try tauto; sat_lia.
    + by apply remove_key_ok.
    + lia.
    + lia.
    + intros s e [Hne Hse]%bt_remove_elem Hle; [|apply Hok]. apply (mo_apart m Hok s e ps pe); [done|done|lia].
  - apply Hplain. intros s e Hse Hle. specialize (Hmax _ Hse Hle). simpl in Hmax.
    destruct (decide (s = ps)) as [->|].
    + rewrite (bt_ok_unique m ps e pe); [sat_lia|apply Hok|done|done].
    + pose proof (mo_apart m Hok s e ps pe Hse Hin). sat_lia.
Qed.

(** ** Removal *)

(** Replacing the range [k..v] by sub-ranges of it that stay apart. *)
Lemma bt_insert_inside m k v s e :
  map_ok m -> (forall s' e', (s', e') ∈ m -> e' + 1 < k \/ v + 1 < s') ->
  0 <= k <= s -> s <= e <= v -> v <= u64_max ->
  map_ok (bt_insert s e m) /\
  forall x, covers (bt_insert s e m) x <-> covers m x \/ s <= x <= e.
Proof.
  intros [Hk Hr Ha] Hout Hks Hse Hv.
  assert (Hfresh : forall e', (s, e') ∉ m).
  { intros e' Hin. pose proof (Hr _ _ Hin). destruct (Hout _ _ Hin); lia. }
  split.
  - split; [auto with superbank| |].
    + intros a b [[-> ->]|[_ Hin]]%bt_insert_elem; [lia|auto|done].
    + intros a b a' b' H1 H2 Hlt. apply bt_insert_elem in H1; [|done].
      apply bt_insert_elem in H2; [|done].
      destruct H1 as [[-> ->]|[_ H1]], H2 as [[-> ->]|[_ H2]]; [lia| | |eauto].
      * pose proof (Hr _ _ H2). destruct (Hout _ _ H2); lia.
      * pose proof (Hr _ _ H1). destruct (Hout _ _ H1); lia.
  - intros x. rewrite !covers_iff. split.
    + intros (a & b & Hin & Hx). apply bt_insert_elem in Hin as [[-> ->]|[_ Hin]]; eauto.
    + intros [(a & b & Hin & Hx)|Hx].
      * exists a, b. split; [|done]. apply bt_insert_elem; [done|]. right. split; [|done].
        intros ->. by apply Hfresh in Hin.
      * exists s, e. split; [|done]. apply bt_insert_elem; auto.
Qed.

(** What is left when the range that holds a slot is taken out. *)
Lemma removed_apart m k v :
  map_ok m -> (k, v) ∈ m ->
  forall s e, (s, e) ∈ bt_remove k m -> e + 1 < k \/ v + 1 < s.
Proof.
  intros [Hk Hr Ha] Hin s e [Hne Hse]%bt_remove_elem; [|done].
  destruct (decide (s < k)); [left; eauto|]. right. apply (Ha k v s e); [done|done|lia].
Qed.

(** At most one range holds a slot: the one [bt_last_le] finds. *)
Lemma covers_last m x :
  map_ok m ->
  covers m x <->
  match bt_last_le x m with Some (_, e) => x <= e | None => False end.
Proof.
  intros Hok. pose proof (bt_last_le_spec m x (mo_keys m Hok)) as Hl. rewrite covers_iff.
  destruct (bt_last_le x m) as [[s e]|].
  - destruct Hl as (Hin & Hle & Hmax). simpl in *. split; [|eauto].
    intros (s' & e' & Hin' & Hx). specialize (Hmax _ Hin' ltac:(simpl; lia)). simpl in Hmax.
    destruct (decide (s' = s)) as [->|].
    + rewrite (bt_ok_unique m s e e'); [lia|apply Hok|done|done].
    + pose proof (mo_apart m Hok s' e' s e Hin' Hin). pose proof (mo_ranges m Hok s e Hin). lia.
  - split; [|done]. intros (s & e & Hin & Hx). specialize (Hl _ Hin). simpl in Hl. lia.
Qed.

Lemma remove_slot_spec m slot :
  map_ok m ->
  map_ok (remove_slot slot m) /\
  forall x, covers (remove_slot slot m) x <-> covers m x /\ x <> slot.
Proof.
  intros Hok. pose proof (covers_last m slot Hok) as Hc. unfold remove_slot.
  pose proof (bt_last_le_spec m slot (mo_keys m Hok)) as Hl.
  destruct (bt_last_le slot m) as [[s e]|]; [destruct (Z.ltb_spec e slot)|].
  1,3: split; [done|]; intros x; split; [|tauto]; intros Hx; split; [done|]; intros ->;
    apply Hc in Hx; (done || lia).
  destruct Hl as (Hin & Hle & _). simpl in *. destruct (mo_ranges m Hok s e Hin) as [Hse Heu].
  pose proof (removed_apart m s e Hok Hin) as Hap. pose proof (remove_key_ok m s Hok) as Hok1.
  pose proof (fun x => covers_remove_key m s e x Hok Hin) as Hcov.
  assert (Hno : forall x, covers (bt_remove s m) x -> x < s \/ e < x).
  { intros x (a & b & Hab & Hx)%covers_iff. destruct (Hap a b Hab); lia. }
  set (m1 := bt_remove s m) in *.
  set (m2 := if s <? slot then bt_insert s (slot - 1) m1 else m1).
  assert (H2 : map_ok m2 /\ (forall x, covers m2 x <-> covers m1 x \/ s <= x < slot) /\
     (forall a b, (a, b) ∈ m2 -> b + 1 < slot + 1 \/ e + 1 < a)).
  { unfold m2. destruct (Z.ltb_spec s slot).
    - destruct (bt_insert_inside m1 s e s (slot - 1)) as [Hi Hci]; [done|done|lia|lia|done|].
      split; [done|]. split; [intros x; rewrite Hci; intuition lia|].
      intros a b [[-> ->]|[_ Hab]]%bt_insert_elem; [lia| |apply Hok1]. destruct (Hap _ _ Hab); lia.
    - split; [done|]. split; [intros x; intuition lia|]. intros a b Hab. destruct (Hap _ _ Hab); lia. }
  destruct H2 as (Hok2 & Hcov2 & Hap2).
  destruct (Z.ltb_spec slot e).
  - destruct (bt_insert_inside m2 (slot + 1) e (slot + 1) e) as [Hi Hci]; [done|done|lia|lia|done|].
    split; [done|]. intros x. rewrite Hci, Hcov2, Hcov. pose proof (Hno x). intuition lia.
  - split; [done|]. intros x. rewrite Hcov2, Hcov. pose proof (Hno x). intuition lia.
Qed.

(** ** Eviction *)

Lemma truncate_step floor m k :
  map_ok m -> k < floor ->
  let m' := truncate_range floor m k in
  map_ok m' /\ (forall x, floor <= x -> covers m' x <-> covers m x) /\
  (forall x, covers m' x -> covers m x) /\
  (forall s e, (s, e) ∈ m' -> s < floor -> (s, e) ∈ m /\ s <> k).
Proof.
  intros Hok Hk. unfold truncate_range. destruct (bt_get k m) as [v|] eqn:Eg.
  2: { pose proof (proj1 (bt_get_none m k (mo_keys m Hok)) Eg) as Hn.
       split; [done|]. split; [done|]. split; [done|].
       intros s e Hin _. split; [done|]. intros ->. by eapply Hn. }
  apply bt_get_spec in Eg; [|apply Hok].
  destruct (mo_ranges m Hok k v Eg) as [Hkv Hv].
  pose proof (removed_apart m k v Hok Eg) as Hap. pose proof (remove_key_ok m k Hok) as Hok1.
  pose proof (fun x => covers_remove_key m k v x Hok Eg) as Hcov.
  destruct (Z.leb_spec floor v).
  - destruct (bt_insert_inside (bt_remove k m) k v floor v) as [Hi Hci]; [done|done|lia|lia|done|].
    split; [done|]. split; [|split].
    + intros x Hx. rewrite Hci, Hcov. intuition lia.
    + intros x. rewrite Hci, Hcov. intuition lia.
    + intros s e [[-> ->]|[_ Hin]]%bt_insert_elem Hs; [lia| |apply Hok1].
      apply bt_remove_elem in Hin as [? ?]; [by split|apply Hok].
  - split; [done|]. split; [|split].
    + intros x Hx. rewrite Hcov. intuition lia.
    + intros x. rewrite Hcov. tauto.
    + intros s e [? ?]%bt_remove_elem _; [by split|apply Hok].
Qed.

Lemma truncate_fold floor ks m :
  map_ok m -> Forall (fun k => k < floor) ks ->
  let m' := foldl (truncate_range floor) m ks in
  map_ok m' /\ (forall x, floor <= x -> covers m' x <-> covers m x) /\
  (forall x, covers m' x -> covers m x) /\
  (forall s e, (s, e) ∈ m' -> s < floor -> (s, e) ∈ m /\ s ∉ ks).
Proof.
  intros Hok Hks. revert m Hok. induction Hks as [|k ks Hk Hks IH]; intros m Hok; cbv zeta; cbn [foldl].
  { split; [done|]. split; [done|]. split; [done|]. intros s e Hin _. split; [done|]. apply not_elem_of_nil. }
  destruct (truncate_step floor m k Hok Hk) as (Hok1 & Hge1 & Hsub1 & Hin1).
  destruct (IH _ Hok1) as (Hok2 & Hge2 & Hsub2 & Hin2). split; [done|]. split; [|split].
  - intros x Hx. rewrite Hge2, Hge1 by done. done.
  - auto.
  - intros s e Hin Hs. destruct (Hin2 s e Hin Hs) as [Hi Hn]. destruct (Hin1 s e Hi Hs) as [Hi' Hn'].
    split; [done|]. apply not_elem_of_cons. by split.
Qed.

Lemma remove_below_spec m floor :
  map_ok m ->
  map_ok (remove_below floor m) /\
  forall x, covers (remove_below floor m) x <-> covers m x /\ floor <= x.
Proof.
  intros Hok. unfold remove_below.
  destruct (truncate_fold floor (map fst (bt_range_to (floor - 1) m)) m Hok) as (Hok' & Hge & Hsub & Hin).
  { apply Forall_forall. intros k (e & -> & He)%list_elem_of_fmap.
    apply bt_range_to_elem in He as [_ He]. lia. }
  split; [done|]. intros x. split.
  - intros Hx. split; [auto|]. apply covers_iff in Hx as (s & e & Hse & Hx).
    destruct (decide (floor <= x)) as [|Hlt]; [done|]. exfalso.
    destruct (Hin s e Hse ltac:(lia)) as [Hm Hn]. apply Hn, list_elem_of_fmap. exists (s, e).
    split; [done|]. apply bt_range_to_elem. split; [done|simpl; lia].
  - intros [Hx Hf]. by apply Hge.
Qed.

(** A batch of slots, as a fill publishes it. *)
Lemma insert_slots_spec slots m :
  map_ok m -> Forall is_u64 slots ->
  map_ok (foldl (fun m slot => insert_slot slot m) m slots) /\
  forall x, covers (foldl (fun m slot => insert_slot slot m) m slots) x <-> covers m x \/ x ∈ slots.
Proof.
  revert m. induction slots as [|s l IH]; intros m Hok Hf; cbn [foldl]; [split; [done|]; set_solver|].
  apply Forall_cons in Hf as [Hs Hf]. destruct (insert_range_spec m s s Hok Hs Hs) as [Hok1 Hc1].
  destruct (IH (insert_slot s m) Hok1 Hf) as [Hok2 Hc2]. split; [done|]. intros x. rewrite Hc2. unfold insert_slot. rewrite Hc1, elem_of_cons.
  assert (s <= x <= s <-> x = s) by lia. tauto.
Qed.

(** ** Queries *)

Lemma contains_slot_spec m x : map_ok m -> contains_slot x m = true <-> covers m x.
Proof.
  intros Hok. rewrite covers_last by done. unfold contains_slot.
  destruct (bt_last_le x m) as [[s e]|]; [apply Z.leb_le|done].
Qed.

Lemma intersects_spec m start end_ :
  map_ok m -> start <= end_ ->
  intersects start end_ m = true <-> exists x, start <= x <= end_ /\ covers m x.
Proof.
  intros Hok Hse. unfold intersects. pose proof (bt_last_le_spec m end_ (mo_keys m Hok)) as Hl.
  destruct (bt_last_le end_ m) as [[s e]|].
  - destruct Hl as (Hin & Hle & Hmax). simpl in *. pose proof (mo_ranges m Hok s e Hin) as Hr.
    rewrite Z.leb_le. split.
    + intros He. exists (Z.max s start). split; [lia|]. apply covers_iff. exists s, e. split; [done|lia].
    + intros (x & Hx & (a & b & Hab & Hxa)%covers_iff).
      specialize (Hmax _ Hab ltac:(simpl; lia)). simpl in Hmax.
      destruct (decide (a = s)) as [->|]; [rewrite (bt_ok_unique m s e b); [lia|apply Hok|done|done]|].
      pose proof (mo_apart m Hok a b s e Hab Hin). lia.
  - split; [done|]. intros (x & Hx & (a & b & Hab & Hxa)%covers_iff).
    specialize (Hl _ Hab). simpl in Hl. lia.
Qed.

Lemma intersections_spec m start end_ x :
  in_ranges x (intersections start end_ m) <-> covers m x /\ start <= x <= end_.
Proof.
  unfold intersections. rewrite (covers_iff m). split.
  - intros (r & Hin & Hx). apply list_elem_of_omap in Hin as ([s e] & Hin & E).
    apply bt_range_to_elem in Hin as [Hin _]. simpl in E.
    destruct (Z.leb_spec (Z.max s start) (Z.min e end_)); [|done]. injection E as <-. simpl in Hx.
    split; [|lia]. exists s, e. split; [done|lia].
  - intros [(s & e & Hin & Hx) Hse]. exists (Z.max s start, Z.min e end_). simpl. split; [|lia].
    apply list_elem_of_omap. exists (s, e). split; [apply bt_range_to_elem; split; [done|simpl; lia]|].
    simpl. by destruct (Z.leb_spec (Z.max s start) (Z.min e end_)); [|lia].
Qed.

Lemma holes_loop_spec end_ cursor ranges :
  bt_ok ranges -> (forall s e, (s, e) ∈ ranges -> cursor <= s <= e) ->
  (forall s e s' e', (s, e) ∈ ranges -> (s', e') ∈ ranges -> s < s' -> e + 1 < s') ->
  (forall s e, (s, e) ∈ ranges -> s <= end_) ->
  forall x, in_ranges x (holes_loop end_ cursor ranges) <->
    cursor <= x <= end_ /\ ~ in_ranges x ranges.
Proof.
  revert cursor. induction ranges as [|[a b] l IH]; intros cursor Hok Hr Ha He x; simpl.
  { rewrite in_ranges_nil.
    destruct (Z.leb_spec cursor end_); rewrite ?in_ranges_cons, in_ranges_nil; intuition lia. }
  apply bt_ok_cons in Hok as [Hf Hok]. rewrite Forall_forall in Hf. simpl in Hf.
  destruct (Hr a b (list_elem_of_here _ _)) as [Hca Hab]. pose proof (He a b (list_elem_of_here _ _)).
  assert (Hlater : forall s e, (s, e) ∈ l -> b + 1 < s).
  { intros s e Hin. apply (Ha a b s e (list_elem_of_here _ _) (list_elem_of_further _ _ _ Hin)).
    apply (Hf _ Hin). }
  assert (Hrest : in_ranges x (if end_ <=? b then [] else holes_loop end_ (b + 1) l) <->
                  b < x <= end_ /\ ~ in_ranges x l).
  { destruct (Z.leb_spec end_ b); [rewrite in_ranges_nil; lia|].
    rewrite IH; [intuition lia|done| | |].
    - intros s e Hin. pose proof (Hlater s e Hin).
      destruct (Hr s e (list_elem_of_further _ _ _ Hin)). lia.
    - intros s e s' e' H1 H2. apply (Ha s e s' e'); by apply list_elem_of_further.
    - intros s e Hin. apply (He s e). by apply list_elem_of_further. }
  assert (Hbefore : x < a -> ~ in_ranges x l).
  { intros Hx ([s e] & Hin & Hse). pose proof (Hlater s e Hin). simpl in Hse. lia. }
  rewrite in_ranges_app, Hrest, in_ranges_cons.
  assert (Hhd : in_ranges x (if cursor <? a then [(cursor, a - 1)] else []) <-> cursor <= x < a)
    by (destruct (Z.ltb_spec cursor a); rewrite ?in_ranges_cons, in_ranges_nil; intuition lia).
  rewrite Hhd. split; [intuition lia|]. intros [Hx Hn].
  destruct (decide (x < a)); [left; lia|right]. intuition lia.
Qed.

(** The ranges that start in the window decide it, once the window starts past
    every range that reaches into it. *)
Lemma window_ranges m cursor end_ x :
  map_ok m -> (forall s e, (s, e) ∈ m -> s < cursor -> e < cursor) -> cursor <= x <= end_ ->
  in_ranges x (bt_range cursor end_ m) <-> covers m x.
Proof.
  intros Hok Hpre Hx. unfold in_ranges. split.
  - intros (r & [Hin _]%bt_range_elem & Hr). eauto.
  - intros ([s e] & Hin & Hr). exists (s, e). split; [|done]. apply bt_range_elem.
    split; [done|]. simpl in *. destruct (decide (s < cursor)); [|lia].
    specialize (Hpre s e Hin). lia.
Qed.

Lemma holes_window m cursor end_ x :
  map_ok m -> (forall s e, (s, e) ∈ m -> s < cursor -> e < cursor) ->
  in_ranges x (holes_loop end_ cursor (bt_range cursor end_ m)) <->
  cursor <= x <= end_ /\ ~ covers m x.
Proof.
  intros Hok Hpre. rewrite holes_loop_spec.
  - split; intros [Hx Hn]; (split; [done|]); by rewrite (window_ranges m cursor end_ x) in *.
  - apply bt_filter_ok, Hok.
  - intros s e [Hin Hb]%bt_range_elem. destruct (mo_ranges m Hok s e Hin). simpl in Hb. lia.
  - intros s e s' e' [H1 _]%bt_range_elem [H2 _]%bt_range_elem. by apply (mo_apart m Hok s e s' e').
  - intros s e [_ Hb]%bt_range_elem. simpl in Hb. lia.
Qed.

Lemma holes_in_spec m start end_ x :
  map_ok m ->
  in_ranges x (holes_in start end_ m) <-> start <= x <= end_ /\ ~ covers m x.
Proof.
  intros Hok. unfold holes_in. destruct (Z.ltb_spec end_ start).
  { rewrite in_ranges_nil. lia. }
  pose proof (bt_last_le_spec m start (mo_keys m Hok)) as Hl.
  destruct (bt_last_le start m) as [[ps pe]|].
  2: { apply holes_window; [done|]. intros s e Hin Hs. specialize (Hl _ Hin). simpl in Hl. lia. }
  destruct Hl as (Hin & Hps & Hmax). simpl in *. destruct (mo_ranges m Hok ps pe Hin) as [Hp _].
  assert (Hbelow : forall s e, (s, e) ∈ m -> s <= start -> e <= pe).
  { intros s e Hse Hs. specialize (Hmax _ Hse Hs). simpl in Hmax.
    destruct (decide (s = ps)) as [->|]; [rewrite (bt_ok_unique m ps pe e); [lia|apply Hok|done|done]|].
    pose proof (mo_apart m Hok s e ps pe Hse Hin). lia. }
  assert (Hswallow : forall y, start <= y <= pe -> covers m y).
  { intros y Hy. apply covers_iff. exists ps, pe. split; [done|lia]. }
  destruct (Z.leb_spec start pe).
  - destruct (Z.leb_spec end_ pe).
    + rewrite in_ranges_nil. split; [done|]. intros [Hx Hn]. apply Hn, Hswallow. lia.
    + rewrite holes_window; [|done|].
      * split; [intuition lia|]. intros [Hx Hn]. split; [|done].
        destruct (decide (x <= pe)); [|lia]. destruct Hn. apply Hswallow. lia.
      * intros s e Hse Hs. destruct (decide (s <= start)); [pose proof (Hbelow s e Hse); lia|].
        pose proof (mo_apart m Hok ps pe s e Hin Hse). lia.
  - apply holes_window; [done|]. intros s e Hse Hs. pose proof (Hbelow s e Hse). lia.
Qed.

Lemma tip_span_spec m :
  map_ok m ->
  match contiguous_tip_span m with
  | Some (s, e) =>
      (forall x, s <= x <= e -> covers m x) /\ (forall x, covers m x -> x <= e) /\
      ~ covers m (s - 1) /\ s <= e
  | None => forall x, ~ covers m x
  end.
Proof.
  intros Hok. unfold contiguous_tip_span. destruct (last m) as [[s e]|] eqn:El.
  - pose proof (last_Some_elem_of _ _ El) as Hin. pose proof (bt_last_max m _ (mo_keys m Hok) El) as Hmax.
    destruct (mo_ranges m Hok s e Hin) as [Hse _]. simpl in Hmax.
    assert (Hother : forall a b, (a, b) ∈ m -> a = s /\ b = e \/ b + 1 < s).
    { intros a b Hab. specialize (Hmax _ Hab). simpl in Hmax. destruct (decide (a = s)) as [->|].
      - left. split; [done|]. eapply bt_ok_unique; [apply Hok|done|done].
      - right. apply (mo_apart m Hok a b s e); [done|done|lia]. }
    split; [|split; [|split; [|lia]]].
    + intros x Hx. apply covers_iff. eauto.
    + intros x (a & b & Hab & Hx)%covers_iff. destruct (Hother a b Hab); lia.
    + intros (a & b & Hab & Hx)%covers_iff. destruct (Hother a b Hab); lia.
  - apply last_None in El. subst. intros x (r & ?%elem_of_nil & _). done.
Qed.

Lemma covered_span_spec m :
  map_ok m ->
  match covered_span m with
  | Some (lo, hi) => covers m lo /\ covers m hi /\ forall x, covers m x -> lo <= x <= hi
  | None => forall x, ~ covers m x
  end.
Proof.
  intros Hok. pose proof (tip_span_spec m Hok) as Ht. unfold contiguous_tip_span in Ht.
  unfold covered_span. destruct m as [|[s e] l]; [by intros x ?%in_ranges_nil|].
  destruct (last ((s, e) :: l)) as [[s' e']|] eqn:El; simpl head; [|by apply last_None in El].
  destruct Ht as (Htip & Hmax & _ & Hse). split; [|split].
  - apply covers_iff. exists s, e. pose proof (mo_ranges _ Hok s e (list_elem_of_here _ _)).
    split; [apply list_elem_of_here|lia].
  - apply Htip. lia.
  - intros x Hx. split; [|auto]. destruct Hok as [Hk _ _]. apply bt_ok_cons in Hk as [Hf _].
    rewrite Forall_forall in Hf. apply in_ranges_cons in Hx as [Hx|([a b] & Hin & Hx)]; [lia|].
    specialize (Hf _ Hin). simpl in *. lia.
Qed.

(** ** The map refines a set of slots *)

Inductive coverage_op :=
| InsertRange (start end_ : Z)
| InsertSlot (slot : Z)
| RemoveSlot (slot : Z)
| RemoveBelow (floor : Z).

Definition coverage_step (m : CoverageMap) (op : coverage_op) : CoverageMap :=
  match op with
  | InsertRange start end_ => insert_range start end_ m
  | InsertSlot slot => insert_slot slot m
  | RemoveSlot slot => remove_slot slot m
  | RemoveBelow floor => remove_below floor m
  end.

(** The same operations on a set of slots. *)
Definition slot_set_step (s : Z -> bool) (op : coverage_op) : Z -> bool :=
  fun x =>
    match op with
    | InsertRange start end_ => (s x || ((start <=? x) && (x <=? end_)))%bool
    | InsertSlot slot => (s x || (x =? slot))%bool
    | RemoveSlot slot => (s x && negb (x =? slot))%bool
    | RemoveBelow floor => (s x && (floor <=? x))%bool
    end.

Definition op_u64 (op : coverage_op) : Prop :=
  match op with
  | InsertRange start end_ => is_u64 start /\ is_u64 end_
  | InsertSlot slot => is_u64 slot
  | _ => True
  end.

(** A map represents a set. *)
Definition represents (m : CoverageMap) (s : Z -> bool) : Prop :=
  map_ok m /\ forall x, covers m x <-> s x = true.

Lemma coverage_step_represents m s op :
  represents m s -> op_u64 op -> represents (coverage_step m op) (slot_set_step s op).
Proof.
  intros [Hok Hs] Hu.
  destruct op as [a b|a|a|a]; simpl in *; unfold represents.
  - destruct Hu as [Ha Hb]. destruct (insert_range_spec m a b Hok Ha Hb) as [Hok' Hc].
    split; [done|]. intros x. simpl. by rewrite Hc, Hs, orb_true_iff, andb_true_iff, !Z.leb_le.
  - destruct (insert_range_spec m a a Hok Hu Hu) as [Hok' Hc]. unfold insert_slot.
    split; [done|]. intros x. simpl. rewrite Hc, Hs, orb_true_iff, Z.eqb_eq. intuition lia.
  - destruct (remove_slot_spec m a Hok) as [Hok' Hc].
    split; [done|]. intros x. simpl. by rewrite Hc, Hs, andb_true_iff, negb_true_iff, Z.eqb_neq.
  - destruct (remove_below_spec m a Hok) as [Hok' Hc].
    split; [done|]. intros x. simpl. by rewrite Hc, Hs, andb_true_iff, Z.leb_le.
Qed.

Lemma coverage_run_represents ops m s :
  represents m s -> Forall op_u64 ops ->
  represents (foldl coverage_step m ops) (foldl slot_set_step s ops).
Proof.
  intros Hr Ho. revert m s Hr. induction Ho as [|op ops Hop Hops IH]; intros m s Hr; [done|].
  cbn [foldl]. by apply IH, coverage_step_represents.
Qed.

(** ** Properties *)

(** C34: after any sequence of insertions, removals and evictions with 64-bit
    arguments, the range map answers [contains] as the plain set of slots would, and
    its ranges are non-empty, disjoint and never adjacent. *)
Theorem coverage_map_refines_set ops :
  Forall op_u64 ops ->
  let m := foldl coverage_step coverage_new ops in
  map_ok m /\ forall x, contains_slot x m = foldl slot_set_step (fun _ => false) ops x.
Proof.
  intros Ho. destruct (coverage_run_represents ops coverage_new (fun _ => false)) as [Hok Hs].
  - split; [apply new_ok|]. intros x. by rewrite in_ranges_nil.
  - done.
  - split; [done|]. intros x. apply Bool.eq_iff_eq_true. by rewrite contains_slot_spec, Hs.
Qed.

(** On a well-formed map the queries are exact: the holes of a window are its
    uncovered slots, the intersections its covered ones, [intersects] holds when there
    is one, and the tip span is the maximal covered run that ends at the newest
    covered slot. *)
Theorem coverage_queries_exact m start end_ :
  map_ok m ->
  (forall x, in_ranges x (holes_in start end_ m) <-> start <= x <= end_ /\ ~ covers m x) /\
  (forall x, in_ranges x (intersections start end_ m) <-> covers m x /\ start <= x <= end_) /\
  (start <= end_ -> intersects start end_ m = true <-> exists x, start <= x <= end_ /\ covers m x) /\
  match contiguous_tip_span m, covered_span m with
  | Some (s, e), Some (lo, hi) =>
      e = hi /\ (forall x, s <= x <= e -> covers m x) /\ ~ covers m (s - 1) /\
      (forall x, covers m x -> lo <= x <= hi)
  | None, None => forall x, ~ covers m x
  | _, _ => False
  end.
Proof.
  intros Hok. split; [intros x; by apply holes_in_spec|].
  split; [intros x; apply intersections_spec|]. split; [by apply intersects_spec|].
  pose proof (tip_span_spec m Hok) as Ht. pose proof (covered_span_spec m Hok) as Hc.
  destruct (contiguous_tip_span m) as [[s e]|], (covered_span m) as [[lo hi]|].
  - destruct Ht as (Htip & Hmax & Hmin & Hse), Hc as (Hlo & Hhi & Hall).
    split; [|done]. pose proof (Hmax hi Hhi). pose proof (Hall e (Htip e ltac:(lia))). lia.
  - destruct Ht as (Htip & _ & _ & Hse). apply (Hc s), Htip. lia.
  - destruct Hc as (Hlo & _). by apply Ht in Hlo.
  - done.
Qed.
