(* ===== verification/HeadCoverage.v ===== *)
(** * HeadCoverage: range proofs over one subscription's banks

    Models [crates/superbank-rpc/src/head_cache/coverage.rs].  The state is the set of
    banks the subscription selected, keyed by slot (a [BTreeMap]), the newest observed
    tip per commitment and the retention watermark.  [Instant]s are nanosecond
    readings.  The [while let] loop of [chain] is bounded by the number of nodes;
    [chain_total] shows that the bound is never reached. *)

From S2P Require Import Prelude BTree SlotCoverage.

Open Scope Z_scope.

Inductive CommitmentLevel := Processed | Confirmed | Finalized.

#[export] Instance CommitmentLevel_eq_dec : EqDecision CommitmentLevel.
Proof. solve_decision. Defined.

Definition rank (c : CommitmentLevel) : Z :=
  match c with Processed => 0 | Confirmed => 1 | Finalized => 2 end.

(** [commitment_meets] of [head_cache/mod.rs] *)
Definition commitment_meets (have want : CommitmentLevel) : bool := rank want <=? rank have.

(** [Duration::from_secs(1)], in nanoseconds. *)
Definition TIP_MAX_AGE : Z := 1000000000.

Record Link := mkLink {
  l_slot : Z;
  l_hash : list Z;
  l_parent : Z;
  l_parent_hash : list Z;
}.

#[export] Instance Link_eq_dec : EqDecision Link.
Proof. solve_decision. Defined.

Record Node := mkNode {
  n_link : option Link;
  n_commitment : option CommitmentLevel;
  n_invalid : bool;
}.

Definition Node_default : Node := mkNode None None false.

Record Tip := mkTip { t_slot : Z; t_advanced : Z }.

(** [tips: [Option<Tip>; 3]], indexed by [rank]. *)
Record HeadCoverage := mkHead {
  h_connected : bool;
  h_nodes : btree Node;
  h_tips : list (option Tip);
  h_highest : Z;
}.

Definition HeadCoverage_default : HeadCoverage := mkHead false [] [None; None; None] 0.

(** [HeadCoverage::connect], [disconnect] *)
Definition connect (_ : HeadCoverage) : HeadCoverage := mkHead true [] [None; None; None] 0.
Definition disconnect (_ : HeadCoverage) : HeadCoverage := HeadCoverage_default.

Definition set_nodes (nodes : btree Node) (h : HeadCoverage) : HeadCoverage :=
  mkHead (h_connected h) nodes (h_tips h) (h_highest h).

(** [nodes.entry(slot).or_default()] followed by an update in place. *)
Definition update_node (slot : Z) (f : Node -> Node) (h : HeadCoverage) : HeadCoverage :=
  set_nodes (bt_insert slot (f (default Node_default (bt_get slot (h_nodes h)))) (h_nodes h)) h.

Definition mark_invalid (n : Node) : Node := mkNode (n_link n) (n_commitment n) true.

(** [HeadCoverage::invalidate] *)
Definition invalidate (slot : Z) (h : HeadCoverage) : HeadCoverage := update_node slot mark_invalid h.

Definition link_at (slot : Z) (nodes : btree Node) : option Link :=
  bt_get slot nodes ≫= n_link.

(** [invalid.get(&link.parent).is_some_and(|hash| hash.is_none_or(|hash| hash == ..))]:
    [invalid] maps a slot to the hash its invalidated bank had, if known. *)
Definition names_invalid (invalid : gmap Z (option (list Z))) (link : Link) : bool :=
  match invalid !! l_parent link with
  | Some None => true
  | Some (Some hash) => bool_decide (hash = l_parent_hash link)
  | None => false
  end.

(** The loop of [invalidate_branch] over [nodes.range_mut(slot..)]. *)
Fixpoint invalidate_loop (from : Z) (invalid : gmap Z (option (list Z))) (nodes : btree Node) :
    btree Node :=
  match nodes with
  | [] => []
  | (k, n) :: rest =>
      if k <? from then (k, n) :: invalidate_loop from invalid rest
      else
        match n_link n with
        | None => (k, n) :: invalidate_loop from invalid rest
        | Some link =>
            if names_invalid invalid link then
              (k, mark_invalid n) :: invalidate_loop from (<[k := Some (l_hash link)]> invalid) rest
            else (k, n) :: invalidate_loop from invalid rest
        end
  end.

(** [HeadCoverage::invalidate_branch] *)
Definition invalidate_branch (slot : Z) (h : HeadCoverage) : HeadCoverage :=
  let old_hash := l_hash <$> link_at slot (h_nodes h) in
  let h := invalidate slot h in
  set_nodes (invalidate_loop slot {[slot := old_hash]} (h_nodes h)) h.

(** [HeadCoverage::select_bank] *)
Definition select_bank (link : Link) (h : HeadCoverage) : HeadCoverage :=
  let h :=
    match link_at (l_slot link) (h_nodes h) with
    | Some old => if bool_decide (old <> link) then invalidate_branch (l_slot link) h else h
    | None => h
    end in
  set_nodes (bt_insert (l_slot link) (mkNode (Some link) None false) (h_nodes h)) h.

(** [HeadCoverage::validate_parent] *)
Definition validate_parent (slot : Z) (parent : option Z) (h : HeadCoverage) : HeadCoverage :=
  match link_at slot (h_nodes h), parent with
  | Some link, Some p => if negb (p =? l_parent link) then invalidate_branch slot h else h
  | _, _ => h
  end.

Definition advance_tip (slot now : Z) (tip : option Tip) : option Tip :=
  match tip with
  | Some old => if t_slot old <? slot then Some (mkTip slot now) else Some old
  | None => Some (mkTip slot now)
  end.

(** [HeadCoverage::observe]: the tips up to the commitment's rank. *)
Definition observe (slot : Z) (commitment : CommitmentLevel) (now : Z) (h : HeadCoverage) :
    HeadCoverage :=
  let n := S (Z.to_nat (rank commitment)) in
  mkHead (h_connected h) (h_nodes h)
    (map (advance_tip slot now) (take n (h_tips h)) ++ drop n (h_tips h)) (h_highest h).

(** [HeadCoverage::publish] *)
Definition publish (slot : Z) (commitment : CommitmentLevel) (h : HeadCoverage) : HeadCoverage :=
  update_node slot (fun n =>
    if match n_commitment n with Some old => commitment_meets commitment old | None => true end
    then mkNode (n_link n) (Some commitment) (n_invalid n) else n) h.

(** [HeadCoverage::retain] *)
Definition retain (slot retain_slots : Z) (h : HeadCoverage) : HeadCoverage :=
  let highest := Z.max (h_highest h) slot in
  let floor := sat_sub highest (sat_sub retain_slots 1) in
  mkHead (h_connected h) (bt_split_off floor (h_nodes h)) (h_tips h) highest.

(** [HeadCoverage::link] *)
Definition usable_link (slot : Z) (commitment : CommitmentLevel) (h : HeadCoverage) : option Link :=
  match bt_get slot (h_nodes h) with
  | None => None
  | Some node =>
      match n_commitment node with
      | None => None
      | Some have =>
          if (n_invalid node || negb (commitment_meets have commitment))%bool then None
          else n_link node
      end
  end.

(** [HeadCoverage::parent_conflicts] *)
Definition parent_conflicts (link : Link) (h : HeadCoverage) : bool :=
  match bt_get (l_parent link) (h_nodes h) with
  | None => false
  | Some node =>
      n_invalid node ||
      match n_link node with
      | Some parent => negb (bool_decide (l_hash parent = l_parent_hash link))
      | None => false
      end
  end%bool.

(** The loop of [chain]; [None]: out of fuel. *)
Fixpoint chain_loop (fuel : nat) (h : HeadCoverage) (commitment : CommitmentLevel)
    (chain : list Link) (current : option Link) : option (list Link) :=
  match current with
  | None => Some chain
  | Some link =>
      match fuel with
      | O => None
      | S fuel' =>
          if l_slot link =? 0 then
            if negb (l_parent link =? 0) then Some [] else Some (chain ++ [link])
          else if l_slot link <=? l_parent link then Some []
          else if parent_conflicts link h then Some []
          else
            chain_loop fuel' h commitment (chain ++ [link])
              (usable_link (l_parent link) commitment h)
      end
  end.

(** [HeadCoverage::chain] *)
Definition chain (tip : Z) (commitment : CommitmentLevel) (h : HeadCoverage) : option (list Link) :=
  chain_loop (S (length (h_nodes h))) h commitment [] (usable_link tip commitment h).

Inductive tip_error := UntrustedTip | CommitmentUnavailable.

(** [self.tips[rank(commitment)]] *)
Definition tip_at (commitment : CommitmentLevel) (h : HeadCoverage) : option Tip :=
  mjoin (h_tips h !! Z.to_nat (rank commitment)).

(** [HeadCoverage::trusted_chain]; the outer [option] is the fuel of [chain]. *)
Definition trusted_chain (commitment : CommitmentLevel) (now : Z) (h : HeadCoverage) :
    option (result (Z * list Link) tip_error) :=
  if negb (h_connected h) then Some (Err UntrustedTip)
  else
    match tip_at commitment h with
    | None => Some (Err CommitmentUnavailable)
    | Some tip =>
        if TIP_MAX_AGE <? Z.max 0 (now - t_advanced tip) then Some (Err UntrustedTip)
        else
          match chain (t_slot tip) commitment h with
          | None => None
          | Some chain =>
              let rooted := match chain with link :: _ => l_slot link =? 0 | [] => false end in
              if ((zlen chain <? 2) && negb rooted)%bool then Some (Err UntrustedTip)
              else Some (Ok (t_slot tip, chain))
          end
    end.

(** [chain_coverage] *)
Definition chain_coverage (chain : list Link) (start end_ : Z) : SlotCoverage :=
  match chain, last chain with
  | first :: _, Some last_ =>
      let floor := Z.max start (l_slot last_) in
      let ceiling := Z.min end_ (l_slot first) in
      if ceiling <? floor then SlotCoverage_default
      else
        SlotCoverage_new
          (List.filter (fun s => (floor <=? s) && (s <=? ceiling))%bool (map l_slot (rev chain)))
          floor ceiling
  | _, _ => SlotCoverage_default
  end.

(** [HeadCoverage::historical_coverage] *)
Definition historical_coverage (start end_ : Z) (commitment : CommitmentLevel) (h : HeadCoverage) :
    option SlotCoverage :=
  if negb (h_connected h) then Some SlotCoverage_default
  else
    match tip_at commitment h with
    | None => Some SlotCoverage_default
    | Some tip =>
        match chain (t_slot tip) commitment h with
        | None => None
        | Some chain => Some (chain_coverage chain start end_)
        end
    end.

(** [HeadCoverage::snapshot] *)
Definition snapshot (start : Z) (end_ : option Z) (commitment : CommitmentLevel) (now : Z)
    (h : HeadCoverage) : option (result (Z * SlotCoverage) tip_error) :=
  match end_ with
  | None =>
      match trusted_chain commitment now h with
      | None => None
      | Some (Err e) => Some (Err e)
      | Some (Ok (tip, chain)) => Some (Ok (tip, chain_coverage chain start tip))
      end
  | Some end_ =>
      match historical_coverage start end_ commitment h with
      | None => None
      | Some c => Some (Ok (end_, c))
      end
  end.

(** [HeadCoverage::snapshot_clamped] *)
Definition snapshot_clamped (start end_ : Z) (commitment : CommitmentLevel) (now : Z)
    (h : HeadCoverage) : option (Z * SlotCoverage * bool) :=
  match trusted_chain commitment now h with
  | None => None
  | Some (Ok (tip, chain)) =>
      let clamped := tip <? end_ in
      let end_ := Z.min end_ tip in
      Some (end_, chain_coverage chain start end_, clamped)
  | Some (Err _) =>
      match historical_coverage start end_ commitment h with
      | None => None
      | Some c => Some (end_, c, false)
      end
  end.

(** ** The invariant *)

(** Nodes are stored under their link's slot, and a lower commitment never lags
    behind a higher one. *)
Definition tip_le (a b : option Tip) : Prop :=
  match a, b with
  | Some x, Some y => t_slot x <= t_slot y
  | Some _, None => False
  | None, _ => True
  end.

Record head_ok (h : HeadCoverage) : Prop := {
  ho_nodes : bt_ok (h_nodes h);
  ho_keys : forall k n link, (k, n) ∈ h_nodes h -> n_link n = Some link -> l_slot link = k;
  ho_tips : exists t0 t1 t2, h_tips h = [t0; t1; t2] /\ tip_le t2 t1 /\ tip_le t1 t0;
}.

Lemma head_default_ok : head_ok HeadCoverage_default.
Proof.
  split; simpl; [constructor|by intros ? ? ? ?%elem_of_nil|]. by exists None, None, None.
Qed.

Lemma connect_ok h : head_ok (connect h).
Proof.
  split; simpl; [constructor|by intros ? ? ? ?%elem_of_nil|]. by exists None, None, None.
Qed.

Lemma set_nodes_ok h nodes :
  head_ok h -> bt_ok nodes ->
  (forall k n link, (k, n) ∈ nodes -> n_link n = Some link -> l_slot link = k) ->
  head_ok (set_nodes nodes h).
Proof. intros [_ _ Ht] Hb Hk. by split. Qed.

Lemma update_node_ok slot f h :
  (forall n, n_link (f n) = n_link n) -> head_ok h -> head_ok (update_node slot f h).
Proof.
  intros Hf Hok. pose proof Hok as [Hn Hk _]. apply set_nodes_ok; [done|auto with superbank|].
  intros k n link [[-> ->]|[_ Hin]]%bt_insert_elem; [|eauto|done]. rewrite Hf.
  destruct (bt_get slot (h_nodes h)) as [m|] eqn:E; simpl; [|done].
  apply bt_get_spec in E; [|done]. eauto.
Qed.

(** *** The invalidation loop *)

Lemma invalidate_loop_keys from inv nodes : map fst (invalidate_loop from inv nodes) = map fst nodes.
Proof.
  revert inv. induction nodes as [|[k n] l IH]; intros inv; simpl; [done|].
  repeat case_match; simpl; by rewrite IH.
Qed.

Lemma invalidate_loop_elem from inv nodes k n' :
  (k, n') ∈ invalidate_loop from inv nodes ->
  exists n, (k, n) ∈ nodes /\ (n' = n \/ n' = mark_invalid n).
Proof.
  revert inv. induction nodes as [|[k0 n0] l IH]; intros inv; simpl; [by intros ?%elem_of_nil|].
  assert (Hstep : forall inv' m, (k, n') ∈ (k0, m) :: invalidate_loop from inv' l ->
    (m = n0 \/ m = mark_invalid n0) ->
    exists n, (k, n) ∈ (k0, n0) :: l /\ (n' = n \/ n' = mark_invalid n)).
  { intros inv' m [[= -> ->]|Hin]%elem_of_cons Hm.
    - exists n0. split; [apply list_elem_of_here|done].
    - apply IH in Hin as (n & Hn & Ho). exists n. split; [by apply list_elem_of_further|done]. }
  repeat case_match; intros Hin; eapply Hstep; eauto.
Qed.

Lemma invalidate_branch_ok slot h : head_ok h -> head_ok (invalidate_branch slot h).
Proof.
  intros Hok. unfold invalidate_branch.
  assert (Hok' : head_ok (invalidate slot h)) by by apply update_node_ok.
  pose proof Hok' as [Hn Hk _]. apply set_nodes_ok; [done| |].
  - unfold bt_ok. by rewrite invalidate_loop_keys.
  - intros k n link Hin Hl. apply invalidate_loop_elem in Hin as (m & Hm & [->| ->]); eauto.
Qed.

(** A bank descends from the invalidated ones when its parent link names one of
    them by slot and, where it is known, by hash. *)
Inductive descends (from : Z) (inv : gmap Z (option (list Z))) (nodes : btree Node) :
    Z -> option (list Z) -> Prop :=
| descends_base p ph : inv !! p = Some ph -> descends from inv nodes p ph
| descends_child p ph k n link :
    descends from inv nodes p ph -> (k, n) ∈ nodes -> from <= k -> n_link n = Some link ->
    l_parent link = p -> p < k -> (ph = None \/ ph = Some (l_parent_hash link)) ->
    descends from inv nodes k (Some (l_hash link)).

Definition compatible (inv : gmap Z (option (list Z))) (nodes : btree Node) : Prop :=
  forall k n link, (k, n) ∈ nodes -> n_link n = Some link ->
    inv !! k = None \/ inv !! k = Some (Some (l_hash link)).

Lemma names_invalid_spec inv link :
  names_invalid inv link = true <->
  exists ph, inv !! l_parent link = Some ph /\ (ph = None \/ ph = Some (l_parent_hash link)).
Proof.
  unfold names_invalid. destruct (inv !! l_parent link) as [[h|]|].
  - rewrite bool_decide_eq_true. split; [intros ->; eauto|]. intros (ph & [= <-] & [?|[=]]); by subst.
  - split; eauto.
  - split; [done|]. by intros (? & ? & _).
Qed.

(** The map of invalidated banks after one turn of the loop. *)
Definition invalid_after (from : Z) (inv : gmap Z (option (list Z))) (k0 : Z) (n0 : Node) :
    gmap Z (option (list Z)) :=
  match n_link n0 with
  | Some link => if (negb (k0 <? from) && names_invalid inv link)%bool
                 then <[k0 := Some (l_hash link)]> inv else inv
  | None => inv
  end.

(** Going past the head of the list, what it contributes is in the map. *)
Lemma descends_tail from inv k0 n0 l p ph :
  bt_ok ((k0, n0) :: l) -> compatible inv ((k0, n0) :: l) ->
  descends from inv ((k0, n0) :: l) p ph ->
  descends from (invalid_after from inv k0 n0) l p ph.
Proof.
  intros Hok Hc.
  apply bt_ok_cons in Hok as [Hf Hok]. rewrite Forall_forall in Hf. simpl in Hf.
  assert (Hinv : forall q qh, inv !! q = Some qh -> invalid_after from inv k0 n0 !! q = Some qh).
  { intros q qh Hq. unfold invalid_after. destruct (n_link n0) as [link|] eqn:El; [|done].
    destruct (_ && _)%bool; [|done]. destruct (decide (q = k0)) as [->|]; [|by rewrite lookup_insert_ne].
    rewrite lookup_insert_eq. destruct (Hc k0 n0 link (list_elem_of_here _ _) El); congruence. }
  intros Hd. induction Hd as [q qh Hq|q qh k n link Hd IH Hin Hge Hl Hp Hlt Hh].
  { apply descends_base. auto. }
  apply elem_of_cons in Hin as [[= -> ->]|Hin].
  - apply descends_base. unfold invalid_after. rewrite Hl. destruct (Z.ltb_spec k0 from); [lia|]. simpl.
    assert (Hq : inv !! q = Some qh).
    { inversion Hd as [? ? Hb|q' qh' k' n' link' _ Hin' _ _ _ _ _]; subst; [done|].
      apply elem_of_cons in Hin' as [[= Eq _]|Hin']; [lia|]. specialize (Hf _ Hin'). simpl in Hf. lia. }
    rewrite (proj2 (names_invalid_spec inv link)) by (rewrite Hp; eauto). by rewrite lookup_insert_eq.
  - by eapply descends_child.
Qed.

Lemma compatible_tail inv k0 n0 l v :
  bt_ok ((k0, n0) :: l) -> compatible inv ((k0, n0) :: l) ->
  compatible inv l /\ compatible (<[k0 := v]> inv) l.
Proof.
  intros Hok Hc. apply bt_ok_cons in Hok as [Hf _]. rewrite Forall_forall in Hf.
  split; intros k n link Hin Hl.
  - eapply Hc; [by apply list_elem_of_further|done].
  - specialize (Hf _ Hin). simpl in Hf. rewrite lookup_insert_ne by lia.
    eapply Hc; [by apply list_elem_of_further|done].
Qed.

(** Every descendant is marked. *)
Lemma invalidate_loop_marks from inv nodes p ph k n link :
  bt_ok nodes -> compatible inv nodes -> descends from inv nodes p ph ->
  (k, n) ∈ nodes -> from <= k -> n_link n = Some link -> l_parent link = p -> p < k ->
  (ph = None \/ ph = Some (l_parent_hash link)) ->
  (k, mark_invalid n) ∈ invalidate_loop from inv nodes.
Proof.
  revert inv. induction nodes as [|[k0 n0] l IH]; intros inv Hok Hc Hd Hin Hge Hl Hp Hlt Hh;
    [by apply elem_of_nil in Hin|].
  pose proof (descends_tail from inv k0 n0 l p ph Hok Hc Hd) as Htail. unfold invalid_after in Htail.
  pose proof Hok as Hok'. apply bt_ok_cons in Hok' as [Hf Hok']. rewrite Forall_forall in Hf. simpl in Hf.
  cbn [invalidate_loop]. apply elem_of_cons in Hin as [[= -> ->]|Hin].
  - destruct (Z.ltb_spec k0 from); [lia|]. rewrite Hl in Htail |- *. simpl in Htail.
    assert (Hq : inv !! p = Some ph).
    { inversion Hd as [? ? Hb|q' qh' k' n' link' _ Hin' _ _ _ _ _]; subst; [done|].
      apply elem_of_cons in Hin' as [[= Eq _]|Hin']; [lia|]. specialize (Hf _ Hin'). simpl in Hf. lia. }
    rewrite (proj2 (names_invalid_spec inv link)) by (rewrite Hp; eauto). apply list_elem_of_here.
  - destruct (n_link n0) as [link0|] eqn:E0.
    2: { destruct (k0 <? from); apply list_elem_of_further, IH; try done; by eapply compatible_tail. }
    destruct (k0 <? from); simpl in Htail; [|destruct (names_invalid inv link0)];
      apply list_elem_of_further, IH; try done; by eapply compatible_tail.
Qed.

(** The banks that hang from [slot]: itself, and every bank whose parent link names
    one of them (by hash, where that bank's hash is known). *)
Definition on_branch (h : HeadCoverage) (slot : Z) : Z -> option (list Z) -> Prop :=
  descends slot {[slot := l_hash <$> link_at slot (h_nodes h)]} (h_nodes h).

Lemma invalidate_nodes slot h k n :
  head_ok h -> (k, n) ∈ h_nodes h ->
  exists n', (k, n') ∈ h_nodes (invalidate slot h) /\ n_link n' = n_link n /\
    (k = slot -> n_invalid n' = true).
Proof.
  intros [Hn _ _] Hin. unfold invalidate, update_node. simpl.
  destruct (decide (k = slot)) as [->|Hne].
  - rewrite (proj2 (bt_get_spec _ _ _ Hn) Hin). exists (mark_invalid n).
    split; [apply bt_insert_elem; auto|done].
  - exists n. split; [apply bt_insert_elem; auto|done].
Qed.

Lemma invalidated_links slot h k n' :
  head_ok h -> (k, n') ∈ h_nodes (invalidate slot h) ->
  forall link, n_link n' = Some link -> exists n, (k, n) ∈ h_nodes h /\ n_link n = Some link.
Proof.
  intros [Hn _ _] Hin link Hl. unfold invalidate, update_node in Hin. simpl in Hin.
  apply bt_insert_elem in Hin as [[-> ->]|[_ Hin]]; [|eauto|done].
  destruct (bt_get slot (h_nodes h)) as [m|] eqn:E; simpl in Hl; [|done].
  apply bt_get_spec in E; eauto.
Qed.

Lemma branch_compatible slot h :
  head_ok h ->
  compatible {[slot := l_hash <$> link_at slot (h_nodes h)]} (h_nodes (invalidate slot h)).
Proof.
  intros Hok k n' link Hin Hl. destruct (invalidated_links _ _ _ _ Hok Hin link Hl) as (n & Hin' & Hl').
  destruct (decide (k = slot)) as [->|Hne]; [right|left; by rewrite lookup_singleton_ne].
  rewrite lookup_singleton_eq. unfold link_at.
  rewrite (proj2 (bt_get_spec _ _ _ (ho_nodes h Hok)) Hin'). simpl. by rewrite Hl'.
Qed.

Lemma descends_links from inv nodes nodes' p ph :
  (forall k n link, (k, n) ∈ nodes -> n_link n = Some link ->
     exists n', (k, n') ∈ nodes' /\ n_link n' = Some link) ->
  descends from inv nodes p ph -> descends from inv nodes' p ph.
Proof.
  intros Hsub Hd. induction Hd as [q qh Hq|q qh k n link Hd IH Hin Hge Hl Hp Hlt Hh].
  - by apply descends_base.
  - destruct (Hsub k n link Hin Hl) as (n' & Hin' & Hl'). by eapply descends_child.
Qed.

(** Every bank of the branch that is in the map ends up invalid. *)
Lemma branch_invalidated slot h k ph n :
  head_ok h -> on_branch h slot k ph -> (k, n) ∈ h_nodes h ->
  exists n', (k, n') ∈ h_nodes (invalidate_branch slot h) /\ n_invalid n' = true.
Proof.
  intros Hok Hd Hin. unfold on_branch in Hd.
  assert (Hok' : head_ok (invalidate slot h)) by by apply update_node_ok.
  assert (Hlift : forall k n link, (k, n) ∈ h_nodes h -> n_link n = Some link ->
     exists n', (k, n') ∈ h_nodes (invalidate slot h) /\ n_link n' = Some link).
  { intros k0 n0 link Hk0 Hl. destruct (invalidate_nodes slot h k0 n0 Hok Hk0) as (n' & H1 & H2 & _).
    exists n'. split; [done|congruence]. }
  destruct (invalidate_nodes slot h k n Hok Hin) as (n1 & Hin1 & Hl1 & Hinv1).
  unfold invalidate_branch. set (inv := {[slot := _]}) in *. simpl.
  inversion Hd as [? ? Hb|p qh k' n' link Hd' Hin' Hge Hl Hp Hlt Hh]; subst.
  - unfold inv in Hb. apply lookup_singleton_Some in Hb as [-> _]. specialize (Hinv1 eq_refl).
    assert (Hk : k ∈ map fst (invalidate_loop k inv (h_nodes (invalidate k h)))).
    { rewrite invalidate_loop_keys. by apply (list_elem_of_fmap_2 fst _ (k, n1)). }
    apply list_elem_of_fmap in Hk as ([k2 n2] & Ek & Hk2). simpl in Ek. subst k2. exists n2. split; [done|].
    apply invalidate_loop_elem in Hk2 as (n3 & Hn3 & Ho).
    rewrite (bt_ok_unique _ _ _ _ (ho_nodes _ Hok') Hn3 Hin1) in Ho. destruct Ho as [->| ->]; done.
  - destruct (Hlift k n' link Hin' Hl) as (n2 & Hn2 & Hl2).
    exists (mark_invalid n2). split; [|done].
    eapply invalidate_loop_marks with (ph := qh); try done; [apply Hok'|by apply branch_compatible|].
    by eapply descends_links.
Qed.

(** ** Every operation keeps the invariant *)

Inductive head_op :=
| OpConnect | OpDisconnect
| OpSelectBank (link : Link)
| OpInvalidateBranch (slot : Z)
| OpInvalidate (slot : Z)
| OpValidateParent (slot : Z) (parent : option Z)
| OpObserve (slot : Z) (commitment : CommitmentLevel) (now : Z)
| OpPublish (slot : Z) (commitment : CommitmentLevel)
| OpRetain (slot retain_slots : Z).

Definition head_step (h : HeadCoverage) (op : head_op) : HeadCoverage :=
  match op with
  | OpConnect => connect h
  | OpDisconnect => disconnect h
  | OpSelectBank link => select_bank link h
  | OpInvalidateBranch slot => invalidate_branch slot h
  | OpInvalidate slot => invalidate slot h
  | OpValidateParent slot parent => validate_parent slot parent h
  | OpObserve slot commitment now => observe slot commitment now h
  | OpPublish slot commitment => publish slot commitment h
  | OpRetain slot n => retain slot n h
  end.

Lemma select_bank_ok link h : head_ok h -> head_ok (select_bank link h).
Proof.
  intros Hok. unfold select_bank. set (h1 := match link_at _ _ with Some _ => _ | None => _ end).
  assert (Hok1 : head_ok h1).
  { unfold h1. destruct (link_at _ _); [|done]. case_bool_decide; [by apply invalidate_branch_ok|done]. }
  pose proof Hok1 as [Hn Hk _]. apply set_nodes_ok; [done|auto with superbank|].
  intros k n link' [[-> ->]|[_ Hin]]%bt_insert_elem; [|eauto|done]. by intros [= <-].
Qed.

Lemma advance_tip_le slot now a b : tip_le a b -> tip_le (advance_tip slot now a) (advance_tip slot now b).
Proof.
  destruct a as [a|], b as [b|]; simpl; try done.
  - intros Hab. destruct (Z.ltb_spec (t_slot a) slot), (Z.ltb_spec (t_slot b) slot); simpl; lia.
  - intros _. destruct (Z.ltb_spec (t_slot b) slot); simpl; lia.
Qed.

Lemma advance_tip_grows slot now a b : tip_le a b -> tip_le a (advance_tip slot now b).
Proof.
  destruct a as [a|], b as [b|]; simpl; try done.
  intros Hab. destruct (Z.ltb_spec (t_slot b) slot); simpl; lia.
Qed.

Lemma observe_ok slot c now h : head_ok h -> head_ok (observe slot c now h).
Proof.
  intros [Hn Hk (t0 & t1 & t2 & Et & H21 & H10)]. split; [done|done|]. simpl. rewrite Et.
  destruct c; simpl; do 3 eexists; (split; [reflexivity|]);
    eauto using advance_tip_le, advance_tip_grows.
Qed.

Lemma head_step_ok h op : head_ok h -> head_ok (head_step h op).
Proof.
  intros Hok. destruct op as [| |link|slot|slot|slot parent|slot c now|slot c|slot n]; simpl.
  - apply connect_ok.
  - apply head_default_ok.
  - by apply select_bank_ok.
  - by apply invalidate_branch_ok.
  - by apply update_node_ok.
  - unfold validate_parent. destruct (link_at slot (h_nodes h)), parent; try done.
    destruct (negb _); [by apply invalidate_branch_ok|done].
  - by apply observe_ok.
  - apply update_node_ok; [|done]. intros m. by repeat case_match.
  - destruct Hok as [Hn Hk Ht]. split; simpl; [by apply bt_filter_ok| |done].
    intros k m link [Hin _]%bt_split_off_elem. eauto.
Qed.

Lemma head_run_ok ops h : head_ok h -> head_ok (foldl head_step h ops).
Proof. revert h. induction ops as [|op ops IH]; intros h Hok; [done|]. by apply IH, head_step_ok. Qed.

(** ** Chains *)

(** Each link names the next one's slot and hash as its parent. *)
Fixpoint linked_down (l : list Link) : Prop :=
  match l with
  | a :: ((b :: _) as l') =>
      l_parent a = l_slot b /\ l_parent_hash a = l_hash b /\ l_slot b < l_slot a /\ linked_down l'
  | _ => True
  end.

(** A link the subscription holds, valid and at the wanted commitment. *)
Definition usable (h : HeadCoverage) (c : CommitmentLevel) (link : Link) : Prop :=
  usable_link (l_slot link) c h = Some link.

Lemma usable_link_spec slot c h link :
  head_ok h -> usable_link slot c h = Some link ->
  l_slot link = slot /\ exists n have, (slot, n) ∈ h_nodes h /\ n_link n = Some link /\
    n_invalid n = false /\ n_commitment n = Some have /\ commitment_meets have c = true.
Proof.
  intros Hok. unfold usable_link. destruct (bt_get slot (h_nodes h)) as [n|] eqn:E; [|done].
  apply bt_get_spec in E; [|apply Hok]. destruct (n_commitment n) as [have|] eqn:Ec; [|done].
  destruct (n_invalid n) eqn:Ei; [done|]. destruct (commitment_meets have c) eqn:Em; [|done]. simpl.
  intros Hl. split; [by eapply ho_keys|]. by exists n, have.
Qed.

Lemma filter_shorter {A} (p q : A -> bool) l x :
  (forall y, q y = true -> p y = true) -> x ∈ l -> p x = true -> q x = false ->
  (length (List.filter q l) < length (List.filter p l))%nat.
Proof.
  intros Hsub.
  assert (Hle : forall k, (length (List.filter q k) <= length (List.filter p k))%nat).
  { induction k as [|a k IH]; simpl; [lia|]. specialize (Hsub a).
    destruct (q a), (p a); simpl; try (by specialize (Hsub eq_refl)); lia. }
  induction l as [|a l IH]; intros Hin Hp Hq; [by apply elem_of_nil in Hin|]. simpl.
  apply elem_of_cons in Hin as [<-|Hin].
  - rewrite Hp, Hq. simpl. specialize (Hle l). lia.
  - specialize (IH Hin Hp Hq). specialize (Hsub a).
    destruct (q a), (p a); simpl; try (by specialize (Hsub eq_refl)); lia.
Qed.

Lemma chain_loop_total fuel h c acc current :
  head_ok h ->
  (forall link, current = Some link -> usable h c link /\
     (length (bt_range_to (l_slot link) (h_nodes h)) <= fuel)%nat) ->
  chain_loop fuel h c acc current <> None.
Proof.
  intros Hok. revert acc current. induction fuel as [|fuel IH]; intros acc current Hcur;
    (destruct current as [link|]; [|done]); destruct (Hcur link eq_refl) as [Hu Hlen];
    pose proof (usable_link_spec _ _ _ _ Hok Hu) as (_ & n & have & Hin & _).
  - exfalso. assert (Hr : (l_slot link, n) ∈ bt_range_to (l_slot link) (h_nodes h))
      by (apply bt_range_to_elem; split; [done|simpl; lia]).
    destruct (bt_range_to (l_slot link) (h_nodes h)); [by apply elem_of_nil in Hr|simpl in Hlen; lia].
  - cbn [chain_loop]. destruct (Z.eqb_spec (l_slot link) 0); [by destruct (negb _)|].
    destruct (Z.leb_spec (l_slot link) (l_parent link)); [done|].
    destruct (parent_conflicts link h); [done|]. apply IH. intros p Hp.
    destruct (usable_link_spec _ _ _ _ Hok Hp) as [Es _].
    split; [unfold usable; by rewrite Es|]. rewrite Es.
    enough (length (bt_range_to (l_parent link) (h_nodes h)) <
            length (bt_range_to (l_slot link) (h_nodes h)))%nat by lia.
    apply filter_shorter with (x := (l_slot link, n)); [|done|simpl; lia|simpl; lia].
    intros y Hy. apply Z.leb_le in Hy. apply Z.leb_le. lia.
Qed.

Lemma chain_total tip c h : head_ok h -> chain tip c h <> None.
Proof.
  intros Hok. apply chain_loop_total; [done|]. intros link Hl.
  destruct (usable_link_spec _ _ _ _ Hok Hl) as [Es _]. split; [unfold usable; by rewrite Es|].
  unfold bt_range_to. pose proof (List.filter_length_le (fun e => fst e <=? l_slot link) (h_nodes h)). lia.
Qed.

Lemma linked_down_snoc l a b :
  linked_down (l ++ [a]) ->
  l_parent a = l_slot b -> l_parent_hash a = l_hash b -> l_slot b < l_slot a ->
  linked_down (l ++ [a] ++ [b]).
Proof.
  induction l as [|x l IH]; simpl; [auto|]. intros Hl Hp Hh Hs.
  destruct l as [|y l]; simpl in *; [tauto|]. destruct Hl as (? & ? & ? & Hl).
  split; [done|]. split; [done|]. split; [done|]. by apply IH.
Qed.

(** A usable parent that does not conflict is the one the link names. *)
Lemma parent_linked link h c p :
  head_ok h -> parent_conflicts link h = false -> usable_link (l_parent link) c h = Some p ->
  l_parent link = l_slot p /\ l_parent_hash link = l_hash p.
Proof.
  intros Hok Hc Hp. destruct (usable_link_spec _ _ _ _ Hok Hp) as (Es & n & have & Hin & Hl & Hi & _).
  split; [done|]. unfold parent_conflicts in Hc.
  rewrite (proj2 (bt_get_spec _ _ _ (ho_nodes h Hok)) Hin), Hi, Hl in Hc. simpl in Hc.
  apply negb_false_iff, bool_decide_eq_true in Hc. done.
Qed.

Lemma chain_loop_sound fuel h c acc current res :
  head_ok h ->
  (forall link, current = Some link -> usable h c link /\ linked_down (acc ++ [link])) ->
  linked_down acc -> Forall (usable h c) acc ->
  chain_loop fuel h c acc current = Some res ->
  res = [] \/
  (linked_down res /\ Forall (usable h c) res /\ (exists l, res = acc ++ l) /\
   (forall link, current = Some link -> exists l, res = acc ++ link :: l)).
Proof.
  intros Hok. revert acc current. induction fuel as [|fuel IH]; intros acc current Hcur Hl Hf;
    (destruct current as [link|]; cbn [chain_loop];
     [|intros [= <-]; right; split; [done|]; split; [done|];
       split; [exists []; by rewrite app_nil_r|done]]); [done|].
  destruct (Hcur link eq_refl) as [Hu Hla].
  destruct (Z.eqb_spec (l_slot link) 0).
  { destruct (negb _); intros [= <-]; [by left|]. right. split; [done|].
    split; [apply Forall_app; by repeat constructor|]. split; [eauto|]. intros ? [= <-]. eauto. }
  destruct (Z.leb_spec (l_slot link) (l_parent link)); [intros [= <-]; by left|].
  destruct (parent_conflicts link h) eqn:Ec; [intros [= <-]; by left|]. intros Hrun.
  apply IH in Hrun as [->|(H1 & H2 & (l & ->) & _)]; [by left| | | |].
  - right. rewrite <- app_assoc in *. simpl in *. split; [done|]. split; [done|].
    split; [eauto|]. intros ? [= <-]. eauto.
  - intros p Hp. destruct (parent_linked _ _ _ _ Hok Ec Hp) as [Es Eh].
    split; [unfold usable; by rewrite <- Es|]. rewrite <- app_assoc. apply linked_down_snoc; [done|done|done|lia].
  - done.
  - apply Forall_app. split; [done|]. by constructor.
Qed.

(** The chain from a tip: a hash-linked path of usable banks that starts there. *)
Lemma chain_sound tip c h l :
  head_ok h -> chain tip c h = Some l ->
  linked_down l /\ Forall (usable h c) l /\ (forall a l', l = a :: l' -> l_slot a = tip).
Proof.
  intros Hok. unfold chain. destruct (usable_link tip c h) as [link|] eqn:E.
  2: { simpl. intros [= <-]. split; [done|]. split; [constructor|done]. }
  destruct (usable_link_spec _ _ _ _ Hok E) as [Es _].
  intros Hc. apply chain_loop_sound in Hc as [->|(H1 & H2 & _ & H4)]; [| |done| |done|constructor].
  - split; [done|]. split; [constructor|done].
  - split; [done|]. split; [done|]. intros a l' ->.
    destruct (H4 link eq_refl) as [l'' E']. by injection E' as -> _.
  - intros ? [= <-]. split; [unfold usable; by rewrite Es|done].
Qed.

(** ** Coverage of a chain *)

Lemma linked_down_below a l : linked_down (a :: l) -> Forall (fun b => l_slot b < l_slot a) l.
Proof.
  revert a. induction l as [|b l IH]; intros a; [constructor|]. intros (_ & _ & Hlt & Hl).
  constructor; [done|]. specialize (IH b Hl). eapply Forall_impl; [exact IH|]. simpl. lia.
Qed.

Lemma linked_down_tail a l : linked_down (a :: l) -> linked_down l.
Proof. destruct l as [|b l]; [done|]. by intros (_ & _ & _ & Hl). Qed.

Lemma linked_down_ascending l : linked_down l -> ascending (map l_slot (rev l)).
Proof.
  induction l as [|a l IH]; intros Hl; [constructor|]. simpl. rewrite map_app. cbn [map].
  apply ascending_snoc. split; [by eapply IH, linked_down_tail|].
  apply linked_down_below in Hl. rewrite Forall_forall in Hl. apply Forall_forall. intros x Hx.
  apply list_elem_of_fmap in Hx as (b & -> & Hb). apply Hl.
  by rewrite list_elem_of_In, <- in_rev, <- list_elem_of_In in Hb.
Qed.

(** A slot of the span that carries no link was skipped by one of them. *)
Lemma linked_down_skips l a z x :
  linked_down l -> head l = Some a -> last l = Some z ->
  l_slot z <= x <= l_slot a -> (forall b, b ∈ l -> l_slot b <> x) ->
  exists b, b ∈ l /\ l_parent b < x < l_slot b.
Proof.
  revert a. induction l as [|b l IH]; intros a Hl Ha Hz Hx Hn; [done|]. injection Ha as ->.
  pose proof (Hn a (list_elem_of_here _ _)). destruct l as [|b l].
  - injection Hz as ->. lia.
  - pose proof Hl as (Hp & _ & Hlt & Hl'). rewrite last_cons_cons in Hz.
    destruct (decide (l_slot b < x)) as [Hbx|Hbx].
    + exists a. split; [apply list_elem_of_here|lia].
    + destruct (IH b Hl' eq_refl Hz ltac:(lia)) as (b' & Hb' & Hs).
      * intros b' Hb'. apply Hn. by apply list_elem_of_further.
      * exists b'. split; [by apply list_elem_of_further|done].
Qed.

Lemma filter_ascending (p : Z -> bool) l : ascending l -> ascending (List.filter p l).
Proof.
  induction l as [|a l IH]; intros Ha; [done|]. apply ascending_cons in Ha as [Hf Ha]. simpl.
  destruct (p a); [|auto]. apply ascending_cons. split; [|auto].
  rewrite Forall_forall in *. intros y Hy. apply Hf. by apply elem_of_filter_b in Hy as [Hy _].
Qed.

(** What an answer over a chain says of a slot it is complete at. *)
Record chain_answers (chain : list Link) (start end_ : Z) (c : SlotCoverage) : Prop := {
  ca_ok : coverage_ok c;
  ca_window : forall x, complete_at c x -> start <= x <= end_;
  ca_slots : forall x, complete_at c x ->
    x ∈ sc_slots c <-> exists link, link ∈ chain /\ l_slot link = x;
  ca_skipped : forall x, complete_at c x -> x ∉ sc_slots c ->
    exists link, link ∈ chain /\ l_parent link < x < l_slot link;
}.

Lemma default_answers chain start end_ : chain_answers chain start end_ SlotCoverage_default.
Proof.
  assert (Hn : forall x, ~ complete_at SlotCoverage_default x) by (intros x ?%in_ranges_nil; done).
  split; [split; [constructor|constructor|by intros x ?%elem_of_nil]|..]; by intros x ?%Hn.
Qed.

Lemma chain_coverage_answers chain start end_ :
  linked_down chain -> chain_answers chain start end_ (chain_coverage chain start end_).
Proof.
  intros Hl. unfold chain_coverage. destruct chain as [|first rest] eqn:Ec; [apply default_answers|].
  rewrite <- Ec in *. destruct (last chain) as [z|] eqn:Ez; [|apply default_answers].
  set (floor := Z.max start (l_slot z)). set (ceiling := Z.min end_ (l_slot first)).
  destruct (Z.ltb_spec ceiling floor); [apply default_answers|].
  set (slots := List.filter _ _).
  assert (Hc : forall x, complete_at (SlotCoverage_new slots floor ceiling) x <-> floor <= x <= ceiling).
  { intros x. unfold complete_at. simpl. rewrite in_ranges_cons, in_ranges_nil. tauto. }
  assert (Hs : forall x, x ∈ slots <-> floor <= x <= ceiling /\ exists b, b ∈ chain /\ l_slot b = x).
  { intros x. unfold slots. rewrite elem_of_filter_b, andb_true_iff, !Z.leb_le, list_elem_of_fmap.
    setoid_rewrite list_elem_of_In at 1. setoid_rewrite <- in_rev.
    setoid_rewrite <- list_elem_of_In. naive_solver. }
  split.
  - split; simpl; [repeat constructor|by apply filter_ascending, linked_down_ascending|].
    intros x Hx. apply Hc. by apply Hs.
  - intros x Hx%Hc. lia.
  - intros x Hx%Hc. simpl. rewrite Hs. tauto.
  - intros x Hx%Hc Hn. simpl in Hn. rewrite Hs in Hn.
    destruct (linked_down_skips chain first z x) as (b & Hb & Hbx); try done.
    + by rewrite Ec.
    + lia.
    + intros b Hb Eb. apply Hn. eauto.
    + by exists b.
Qed.

Lemma snapshot_total start end_ c now h : head_ok h -> snapshot start end_ c now h <> None.
Proof.
  intros Hok. unfold snapshot, trusted_chain, historical_coverage.
  destruct end_; destruct (negb (h_connected h)); try done;
    destruct (tip_at c h) as [t|]; try done; [|destruct (TIP_MAX_AGE <? _); [done|]];
    pose proof (chain_total (t_slot t) c h Hok); destruct (chain (t_slot t) c h); try done.
  by destruct (_ && _)%bool.
Qed.

Lemma trusted_chain_spec c now h tip l :
  trusted_chain c now h = Some (Ok (tip, l)) ->
  h_connected h = true /\ chain tip c h = Some l /\
  exists t, tip_at c h = Some t /\ t_slot t = tip /\ now - t_advanced t <= TIP_MAX_AGE.
Proof.
  unfold trusted_chain. destruct (h_connected h); [|done]. simpl.
  destruct (tip_at c h) as [t|]; [|done].
  destruct (Z.ltb_spec TIP_MAX_AGE (Z.max 0 (now - t_advanced t))); [done|].
  destruct (chain (t_slot t) c h) as [l'|] eqn:Ec; [|done].
  destruct (_ && _)%bool; [done|]. intros [= <- <-]. split; [done|]. split; [done|].
  exists t. split; [done|]. split; [done|lia].
Qed.

Lemma snapshot_answers start end_ c now h e cov :
  head_ok h -> snapshot start end_ c now h = Some (Ok (e, cov)) ->
  exists l, linked_down l /\ Forall (usable h c) l /\ chain_answers l start e cov.
Proof.
  intros Hok. unfold snapshot, historical_coverage.
  assert (Hdef : exists l, linked_down l /\ Forall (usable h c) l /\
     chain_answers l start e SlotCoverage_default).
  { exists []. split; [done|]. split; [constructor|apply default_answers]. }
  destruct end_ as [end_|].
  - destruct (negb (h_connected h)); [by intros [= <- <-]|].
    destruct (tip_at c h) as [t|]; [|by intros [= <- <-]].
    destruct (chain (t_slot t) c h) as [l|] eqn:Ec; [|done]. intros [= <- <-].
    apply chain_sound in Ec as (H1 & H2 & _); [|done].
    exists l. split; [done|]. split; [done|]. by apply chain_coverage_answers.
  - destruct (trusted_chain c now h) as [[[tip l]|]|] eqn:Et; [|done|done]. intros [= <- <-].
    apply trusted_chain_spec in Et as (_ & Ec & _). apply chain_sound in Ec as (H1 & H2 & _); [|done].
    exists l. split; [done|]. split; [done|]. by apply chain_coverage_answers.
Qed.

(** ** Properties *)

(** C6: in every state the subscription can reach, every snapshot is answered, and
    an answer is sound: there is a chain of valid banks at the requested commitment,
    each naming the next by slot and hash, such that every slot the answer is complete
    at lies in the requested window and is either listed because a bank of the chain
    holds it or skipped because a bank of the chain names an earlier parent. *)
Theorem snapshot_sound ops start end_ c now :
  let h := foldl head_step HeadCoverage_default ops in
  exists r, snapshot start end_ c now h = Some r /\
  forall e cov, r = Ok (e, cov) ->
    exists l, linked_down l /\ Forall (usable h c) l /\ chain_answers l start e cov.
Proof.
  intros h. assert (Hok : head_ok h) by apply head_run_ok, head_default_ok.
  destruct (snapshot start end_ c now h) as [r|] eqn:E; [|by apply snapshot_total in E].
  exists r. split; [done|]. intros e cov ->. by eapply snapshot_answers.
Qed.

(** Invalidating a bank makes it and every bank that descends from it by parent
    slot and hash unusable at every commitment, so no later chain can run through any
    of them. *)
Theorem invalidation_reaches_descendants ops slot k ph c :
  let h := foldl head_step HeadCoverage_default ops in
  on_branch h slot k ph -> usable_link k c (invalidate_branch slot h) = None.
Proof.
  intros h Hb. assert (Hok : head_ok h) by apply head_run_ok, head_default_ok.
  pose proof (invalidate_branch_ok slot h Hok) as Hok'. unfold usable_link.
  destruct (bt_get k (h_nodes (invalidate_branch slot h))) as [n'|] eqn:Eg; [|done].
  apply bt_get_spec in Eg; [|apply Hok'].
  assert (Hinv : n_invalid n' = true).
  { destruct (bt_get k (h_nodes h)) as [n|] eqn:En.
    - apply bt_get_spec in En; [|apply Hok].
      destruct (branch_invalidated slot h k ph n Hok Hb En) as (n2 & Hn2 & Hi).
      by rewrite (bt_ok_unique _ _ _ _ (ho_nodes _ Hok') Eg Hn2).
    - (* only [slot] itself can be absent: its tombstone is created *)
      inversion Hb as [? ? Hs|p qh k' n link _ Hin]; subst.
      + apply lookup_singleton_Some in Hs as [<- _].
        unfold invalidate_branch in Eg. simpl in Eg. apply invalidate_loop_elem in Eg as (m & Hm & Ho).
        apply bt_insert_elem in Hm as [[_ ->]|[Hne _]]; [|done|apply Hok].
        rewrite En in Ho. by destruct Ho as [->| ->].
      + apply bt_get_spec in Hin; [|apply Hok]. congruence. }
  rewrite Hinv. by destruct (n_commitment n').
Qed.
