(* ===== verification/BlockRanges.v ===== *)
(** * BlockRanges: how getBlocks answers a slot range

    Models [crates/superbank-rpc/src/handlers/block_ranges.rs], and of
    [handlers/blocks.rs] the two-pointer merge and the range part of
    [handle_get_blocks] and [handle_get_blocks_with_limit] (everything after the
    parameters were decoded).  The handler asks the head cache, the in-memory block
    index and the disk cache for answers with completeness intervals, and asks the
    primary database only for the gaps that are left.

    Sources are interfaces: [RangeSource] for the two local caches, a fallible read
    for the primary.  [truthful] is what a source promises: where it claims
    completeness, it lists exactly the blocks that exist.  Route metrics, timings and
    response headers are left out; the observation record is kept. *)

From S2P Require Import Prelude BTree SlotCoverage HeadCoverage.

Open Scope Z_scope.

(** A local cache's [range_coverage(start, end)]. *)
Class RangeSource := range_coverage : Z -> Z -> SlotCoverage.

Inductive range_reason :=
| ReasonNone
| ReasonCacheChanged
| ReasonCoverageGap
| ReasonTip (e : tip_error).

#[export] Instance range_reason_eq_dec : EqDecision range_reason.
Proof. assert (EqDecision tip_error) by solve_decision. solve_decision. Defined.

(** [RangeObservation], without its clock. *)
Record RangeObservation := mkObservation {
  ob_primary : bool;
  ob_local : bool;
  ob_success : bool;
  ob_reason : range_reason;
}.

(** [RangeObservation::new] *)
Definition RangeObservation_new : RangeObservation := mkObservation false false false ReasonNone.

Definition set_primary (b : bool) (o : RangeObservation) : RangeObservation :=
  mkObservation b (ob_local o) (ob_success o) (ob_reason o).
Definition set_local (b : bool) (o : RangeObservation) : RangeObservation :=
  mkObservation (ob_primary o) b (ob_success o) (ob_reason o).
Definition set_success (o : RangeObservation) : RangeObservation :=
  mkObservation (ob_primary o) (ob_local o) true (ob_reason o).
Definition set_reason (r : range_reason) (o : RangeObservation) : RangeObservation :=
  mkObservation (ob_primary o) (ob_local o) (ob_success o) r.

Inductive observed_path := PathLocal | PathPartialCache | PathPrimary.

(** The path [Drop for RangeObservation] reports. *)
Definition observation_path (o : RangeObservation) : observed_path :=
  match ob_primary o, ob_local o with
  | false, _ => PathLocal
  | true, true => PathPartialCache
  | true, false => PathPrimary
  end.

Record BlockRange := mkBlockRange {
  br_start : Z;
  br_end : Z;
  br_head : SlotCoverage;
  br_authoritative_head_tip : bool;
}.

(** The parts of [AppState] the handlers read: the head cache with its
    [clamps_explicit_end] setting, the block index, the disk cache, the primary's
    [get_block_slots_by_range], and the latest-slot cache's answer together with
    whether it had to ask the primary. *)
Record Sources := mkSources {
  s_head : option (HeadCoverage * bool);
  s_index : option RangeSource;
  s_disk : option RangeSource;
  s_primary : Z -> Z -> result (list Z) unit;
  s_latest : result (Z * bool) unit;
}.

(** [latest_from_primary] *)
Definition latest_from_primary (s : Sources) (o : RangeObservation) :
    result Z tip_error * RangeObservation :=
  match s_latest s with
  | Ok (slot, primary) => (Ok slot, set_primary primary o)
  | Err _ => (Err UntrustedTip, set_primary true o)
  end.

(** [resolve_range]; the outer [option] is the fuel of [HeadCoverage.chain]. *)
Definition resolve_range (s : Sources) (start : Z) (end_ : option Z) (c : CommitmentLevel) (now : Z)
    (o : RangeObservation) : option (result BlockRange tip_error * RangeObservation) :=
  match s_head s with
  | Some (coverage, clamps_explicit_end) =>
      let authoritative := match end_ with None => true | Some _ => false end in
      match end_ with
      | None =>
          match snapshot start None c now coverage with
          | None => None
          | Some (Err e) => Some (Err e, o)
          | Some (Ok (end_, head)) => Some (Ok (mkBlockRange start end_ head authoritative), o)
          end
      | Some end_ =>
          if clamps_explicit_end then
            match snapshot_clamped start end_ c now coverage with
            | None => None
            | Some (end_, head, _) => Some (Ok (mkBlockRange start end_ head authoritative), o)
            end
          else
            match snapshot start (Some end_) c now coverage with
            | None => None
            | Some (Err e) => Some (Err e, o)
            | Some (Ok (end_, head)) => Some (Ok (mkBlockRange start end_ head authoritative), o)
            end
      end
  | None =>
      match end_ with
      | Some end_ => Some (Ok (mkBlockRange start end_ SlotCoverage_default false), o)
      | None =>
          match latest_from_primary s o with
          | (Ok end_, o) => Some (Ok (mkBlockRange start end_ SlotCoverage_default false), o)
          | (Err e, o) => Some (Err e, o)
          end
      end
  end.

(** [memory_coverage] *)
Definition memory_coverage (s : Sources) (range : BlockRange) (o : RangeObservation) :
    SlotCoverage * bool * RangeObservation :=
  match s_index s with
  | Some index =>
      let indexed := @range_coverage index (br_start range) (br_end range) in
      let contributed := negb (bool_decide (sc_intervals indexed = [])) in
      let '(proof, changed) := merge_checked (br_head range) indexed in
      if changed then (SlotCoverage_default, false, set_reason ReasonCacheChanged o)
      else (proof, contributed, o)
  | None => (br_head range, false, o)
  end.

(** The loop of [disk_coverage] over the gaps of the proof. *)
Definition disk_coverage (s : Sources) (range : BlockRange) (proof : SlotCoverage) :
    SlotCoverage * bool :=
  match s_disk s with
  | Some disk =>
      foldl (fun acc gap =>
               let '(proof, contributed) := acc in
               let disk_proof := @range_coverage disk (fst gap) (snd gap) in
               (merge proof disk_proof,
                contributed || negb (bool_decide (sc_intervals disk_proof = [])))%bool)
        (proof, false) (gaps (br_start range) (br_end range) proof)
  | None => (proof, false)
  end.

(** The loop of [merge_sorted_block_slots]. *)
Fixpoint merge_loop (fuel : nat) (last_slot : option Z) (a b : list Z) : list Z :=
  match fuel with
  | O => []
  | S fuel' =>
      let emit next a b :=
        if bool_decide (last_slot = Some next) then merge_loop fuel' last_slot a b
        else next :: merge_loop fuel' (Some next) a b in
      match a, b with
      | x :: a', y :: b' => if x <=? y then emit x a' b else emit y a b'
      | x :: a', [] => emit x a' []
      | [], y :: b' => emit y [] b'
      | [], [] => []
      end
  end.

(** [merge_sorted_block_slots] *)
Definition merge_sorted_block_slots (clickhouse_slots head_slots : list Z) : list Z :=
  match clickhouse_slots, head_slots with
  | [], _ => head_slots
  | _, [] => clickhouse_slots
  | _, _ => merge_loop (length clickhouse_slots + length head_slots) None clickhouse_slots head_slots
  end.

Inductive response :=
| RSlots (slots : list Z)
| RInternalError
| RInvalidParams.

(** The loop of [get_block_slots_response_for_range] over the gaps. *)
Fixpoint fill_gaps (s : Sources) (gaps : list (Z * Z)) (slots : list Z) (o : RangeObservation) :
    result (list Z) unit * RangeObservation :=
  match gaps with
  | [] => (Ok slots, o)
  | (start, end_) :: rest =>
      let o := set_primary true o in
      let o := if bool_decide (ob_reason o = ReasonNone) then set_reason ReasonCoverageGap o else o in
      match s_primary s start end_ with
      | Ok rows => fill_gaps s rest (merge_sorted_block_slots slots rows) o
      | Err e => (Err e, o)
      end
  end.

(** [get_block_slots_response_for_range] *)
Definition get_block_slots_response_for_range (s : Sources) (range : BlockRange)
    (o : RangeObservation) : response * RangeObservation :=
  let '(proof, indexed, o) := memory_coverage s range o in
  if (br_authoritative_head_tip range && bool_decide (ob_reason o = ReasonCacheChanged))%bool
  then (RInternalError, o)
  else
    let '(proof, disk) := disk_coverage s range proof in
    let o := set_local (negb (bool_decide (sc_intervals proof = []))) o in
    match fill_gaps s (gaps (br_start range) (br_end range) proof) (sc_slots proof) o with
    | (Ok slots, o) => (RSlots slots, set_success o)
    | (Err _, o) => (RInternalError, o)
    end.

Definition MAX_GET_BLOCKS_RANGE : Z := 500000.

(** [handle_get_blocks], from the decoded parameters on. *)
Definition handle_get_blocks (s : Sources) (start : Z) (end_ : option Z) (c : CommitmentLevel)
    (now : Z) : option response :=
  let invalid :=
    match end_ with
    | Some e => ((e <? start) || (MAX_GET_BLOCKS_RANGE <? e - start))%bool
    | None => false
    end in
  if invalid then Some RInvalidParams
  else
    match resolve_range s start end_ c now RangeObservation_new with
    | None => None
    | Some (Err _, _) => Some RInternalError
    | Some (Ok range, o) =>
        if br_end range <? start then Some (RSlots [])
        else if MAX_GET_BLOCKS_RANGE <? sat_sub (br_end range) start then Some RInvalidParams
        else Some (fst (get_block_slots_response_for_range s range o))
    end.

(** [handle_get_blocks_with_limit], from the decoded parameters on. *)
Definition handle_get_blocks_with_limit (s : Sources) (start limit : Z) (c : CommitmentLevel)
    (now : Z) : option response :=
  if MAX_GET_BLOCKS_RANGE <? limit then Some RInvalidParams
  else if limit =? 0 then Some (RSlots [])
  else
    let end_ := sat_add start (sat_sub limit 1) in
    match resolve_range s start (Some end_) c now RangeObservation_new with
    | None => None
    | Some (Err _, _) => Some RInternalError
    | Some (Ok range, o) =>
        if br_end range <? start then Some (RSlots [])
        else Some (fst (get_block_slots_response_for_range s range o))
    end.

(** ** The two-pointer merge *)

Definition after (last : option Z) (y : Z) : Prop :=
  match last with Some l => l <= y | None => True end.

Definition nondecreasing (l : list Z) : Prop := StronglySorted Z.le l.

Lemma nondecreasing_cons x l : nondecreasing (x :: l) <-> Forall (Z.le x) l /\ nondecreasing l.
Proof. split; [intros H; by inversion H|intros []; by constructor]. Qed.

Lemma ascending_nondecreasing l : ascending l -> nondecreasing l.
Proof.
  induction 1 as [|a l Hl IH Hf]; constructor; [done|]. eapply Forall_impl; [exact Hf|]. simpl. lia.
Qed.

(** The lists emitted after [last]: ascending, above [last], with the same elements
    but [last] itself. *)
Definition merges (last : option Z) (a b r : list Z) : Prop :=
  ascending r /\ (forall x, x ∈ r <-> (x ∈ a \/ x ∈ b) /\ last <> Some x).

Lemma merges_emit last x a b a' b' r r' :
  (forall y, y ∈ a' \/ y ∈ b' <-> y = x \/ y ∈ a \/ y ∈ b) ->
  (forall y, y ∈ a \/ y ∈ b -> x <= y) -> after last x ->
  merges last a b r -> merges (Some x) a b r' ->
  merges last a' b' (if bool_decide (last = Some x) then r else x :: r').
Proof.
  intros Hel Hmin Haf [Hr Hrx] [Hr' Hrx']. case_bool_decide as D.
  - split; [done|]. intros y. rewrite Hrx, Hel. subst last.
    split; [tauto|]. intros [[->|Hy] Hn]; [done|by split].
  - split.
    + apply ascending_cons. split; [|done]. apply Forall_forall. intros y Hy.
      apply Hrx' in Hy as [Hy Hne]. specialize (Hmin y Hy).
      assert (x <> y) by congruence. lia.
    + intros y. rewrite elem_of_cons, Hrx', Hel. split.
      * intros [->|[Hy Hne]]; [split; [by left|done]|]. split; [by right|].
        intros ->. simpl in Haf. specialize (Hmin y Hy). assert (x <> y) by congruence. lia.
      * intros [[->|Hy] Hn]; [by left|]. destruct (decide (y = x)) as [->|Hne]; [by left|].
        right. split; [done|congruence].
Qed.

Lemma merge_loop_spec fuel last a b :
  nondecreasing a -> nondecreasing b -> (length a + length b <= fuel)%nat ->
  (forall y, y ∈ a \/ y ∈ b -> after last y) ->
  merges last a b (merge_loop fuel last a b).
Proof.
  revert last a b. induction fuel as [|fuel IH]; intros last a b Ha Hb Hlen Haf.
  { destruct a, b; simpl in Hlen; try lia. split; [constructor|]. intros x. simpl. set_solver. }
  assert (Hnil : merges last [] [] []).
  { split; [constructor|]. intros x. set_solver. }
  destruct a as [|x a], b as [|y b]; simpl merge_loop; [done| | |].
  - apply nondecreasing_cons in Hb as [Hf Hb]. rewrite Forall_forall in Hf. simpl in Hlen.
    apply (merges_emit last y [] b); [set_solver|set_solver|apply Haf; set_solver| |].
    + apply IH; [done|done|simpl; lia|]. intros z Hz. apply Haf. set_solver.
    + apply IH; [done|done|simpl; lia|]. simpl. set_solver.
  - apply nondecreasing_cons in Ha as [Hf Ha]. rewrite Forall_forall in Hf. simpl in Hlen.
    apply (merges_emit last x a []); [set_solver|set_solver|apply Haf; set_solver| |].
    + apply IH; [done|done|simpl; lia|]. intros z Hz. apply Haf. set_solver.
    + apply IH; [done|done|simpl; lia|]. simpl. set_solver.
  - pose proof Ha as Ha0. pose proof Hb as Hb0.
    apply nondecreasing_cons in Ha as [Hfa Ha]. apply nondecreasing_cons in Hb as [Hfb Hb].
    rewrite Forall_forall in Hfa, Hfb. simpl in Hlen.
    destruct (Z.leb_spec x y).
    + assert (Hmin : forall z, z ∈ a \/ z ∈ y :: b -> x <= z).
      { intros z [Hz|[->|Hz]%elem_of_cons]; [auto|done|]. specialize (Hfb z Hz). lia. }
      apply (merges_emit last x a (y :: b)); [set_solver|done|apply Haf; set_solver| |].
      * apply IH; [done|done|simpl; lia|]. intros z Hz. apply Haf. set_solver.
      * apply IH; [done|done|simpl; lia|]. done.
    + assert (Hmin : forall z, z ∈ x :: a \/ z ∈ b -> y <= z).
      { intros z [[->|Hz]%elem_of_cons|Hz]; [lia| |auto]. specialize (Hfa z Hz). lia. }
      apply (merges_emit last y (x :: a) b); [set_solver|done|apply Haf; set_solver| |].
      * apply IH; [done|done|simpl; lia|]. intros z Hz. apply Haf. set_solver.
      * apply IH; [done|done|simpl; lia|]. done.
Qed.

Lemma merge_sorted_spec a b :
  ascending a -> ascending b ->
  ascending (merge_sorted_block_slots a b) /\
  forall x, x ∈ merge_sorted_block_slots a b <-> x ∈ a \/ x ∈ b.
Proof.
  intros Ha Hb. unfold merge_sorted_block_slots.
  destruct a as [|x a]; [split; [done|set_solver]|]. destruct b as [|y b]; [split; [done|set_solver]|].
  destruct (merge_loop_spec (length (x :: a) + length (y :: b)) None (x :: a) (y :: b)) as [H1 H2];
    [by apply ascending_nondecreasing..|done|done|].
  split; [done|]. intros z. rewrite H2. split; [tauto|]. by intros.
Qed.

(** ** What a source promises *)

Section Truth.
Context (block_at : Z -> Prop).

(** Inside [lo..hi], where the answer claims completeness it lists exactly the
    blocks. *)
Definition truthful (lo hi : Z) (c : SlotCoverage) : Prop :=
  coverage_ok c /\
  forall x, complete_at c x -> lo <= x <= hi /\ (x ∈ sc_slots c <-> block_at x).

Definition truthful_source (src : RangeSource) : Prop :=
  forall lo hi, truthful lo hi (@range_coverage src lo hi).

(** The primary lists exactly the blocks of a range, in order. *)
Definition truthful_primary (read : Z -> Z -> result (list Z) unit) : Prop :=
  forall lo hi rows, read lo hi = Ok rows ->
    ascending rows /\ forall x, x ∈ rows <-> lo <= x <= hi /\ block_at x.

Lemma default_truthful lo hi : truthful lo hi SlotCoverage_default.
Proof.
  split.
  - split; [constructor|constructor|by intros x ?%elem_of_nil].
  - by intros x ?%in_ranges_nil.
Qed.

Lemma truthful_widen lo hi lo' hi' c : lo' <= lo -> hi <= hi' -> truthful lo hi c -> truthful lo' hi' c.
Proof. intros H1 H2 [Hok Hc]. split; [done|]. intros x Hx. destruct (Hc x Hx). split; [lia|done]. Qed.

Lemma merge_truthful lo hi c d : truthful lo hi c -> truthful lo hi d -> truthful lo hi (merge c d).
Proof.
  intros [Hc Hct] [Hd Hdt]. split; [apply merge_ok; [apply Hc|apply Hd]|].
  intros x Hx. destruct (merge_spec c d x) as [Hcm Hsm]. apply Hcm in Hx. rewrite Hsm.
  pose proof (co_inside _ Hc x) as Hic. pose proof (co_inside _ Hd x) as Hid.
  specialize (Hct x). specialize (Hdt x). tauto.
Qed.

(** Two truthful answers never contradict each other. *)
Lemma truthful_undisputed lo hi c d x : truthful lo hi c -> truthful lo hi d -> ~ disputed c d x.
Proof.
  intros [_ Hc] [_ Hd] (ab & cd & y & Hab & Hcd & _ & _ & Hy & Hy' & Hdis). apply Hdis.
  destruct (Hc y) as [_ ->]; [by exists ab|]. destruct (Hd y) as [_ ->]; [by exists cd|]. done.
Qed.

Lemma merge_checked_changed c d :
  coverage_ok c -> coverage_ok d -> snd (merge_checked c d) = true <-> exists y, disputed c d y.
Proof.
  intros H1 H2. unfold merge_checked. cbn [snd]. case_bool_decide as D; simpl.
  - split; [done|]. intros (y & Hy). apply conflicts_spec in Hy; [|apply H1|apply H2].
    rewrite D in Hy. by apply in_ranges_nil in Hy.
  - split; [|done]. intros _. destruct (in_ranges_nonempty _ D (conflicts_proper c d)) as [y Hy].
    exists y. apply conflicts_spec in Hy; [done|apply H1|apply H2].
Qed.

Lemma merge_checked_truthful lo hi c d :
  truthful lo hi c -> truthful lo hi d ->
  truthful lo hi (fst (merge_checked c d)) /\ snd (merge_checked c d) = false.
Proof.
  intros Hc Hd. pose proof Hc as [Hcok Hct]. pose proof Hd as [Hdok Hdt]. split.
  - split; [by apply (merge_checked_spec c d 0)|]. intros x Hx.
    destruct (merge_checked_spec c d x Hcok Hdok) as (_ & Hcm & Hsm). rewrite Hsm.
    apply Hcm in Hx as [Hx Hnd]. pose proof (co_inside _ Hcok x). pose proof (co_inside _ Hdok x).
    specialize (Hct x). specialize (Hdt x). tauto.
  - destruct (snd (merge_checked c d)) eqn:E; [|done].
    apply merge_checked_changed in E as (y & Hy); [|done|done].
    by apply (truthful_undisputed lo hi c d y) in Hy.
Qed.

(** ** The proof the handler assembles *)

(** The answers in memory are truthful, or they contradict each other. *)
Definition memory_sound (s : Sources) (range : BlockRange) : Prop :=
  let lo := br_start range in let hi := br_end range in
  coverage_ok (br_head range) /\
  match s_index s with
  | None => truthful lo hi (br_head range)
  | Some index =>
      coverage_ok (@range_coverage index lo hi) /\
      (truthful lo hi (br_head range) /\ truthful lo hi (@range_coverage index lo hi) \/
       exists y, disputed (br_head range) (@range_coverage index lo hi) y)
  end.

Lemma memory_coverage_truthful s range o proof indexed o' :
  memory_sound s range -> memory_coverage s range o = (proof, indexed, o') ->
  truthful (br_start range) (br_end range) proof.
Proof.
  intros [Hh Hi]. unfold memory_coverage. destruct (s_index s) as [index|].
  - destruct Hi as [Hio [[Ht1 Ht2]|Hd]].
    + destruct (merge_checked_truthful _ _ _ _ Ht1 Ht2) as [Hm Hc].
      destruct (merge_checked _ _) as [p ch]. simpl in *. subst ch. by intros [= <- _ _].
    + apply merge_checked_changed in Hd; [|done|done].
      destruct (merge_checked _ _) as [p ch]. simpl in *. subst ch. intros [= <- _ _].
      apply default_truthful.
  - by intros [= <- _ _].
Qed.

Definition disk_sound (s : Sources) : Prop :=
  match s_disk s with Some disk => truthful_source disk | None => True end.

Lemma gaps_inside lo hi c gap :
  sorted_intervals (sc_intervals c) -> gap ∈ gaps lo hi c -> fst gap <= snd gap ->
  lo <= fst gap /\ snd gap <= hi.
Proof.
  intros Hs Hg Hle.
  assert (H1 : in_ranges (fst gap) (gaps lo hi c)) by (exists gap; split; [done|lia]).
  assert (H2 : in_ranges (snd gap) (gaps lo hi c)) by (exists gap; split; [done|lia]).
  apply gaps_spec in H1 as [H1 _]; [|done]. apply gaps_spec in H2 as [H2 _]; [|done]. lia.
Qed.

(** An answer over an empty window is empty. *)
Lemma truthful_window lo hi c lo' hi' :
  truthful lo' hi' c -> (lo' <= hi' -> lo <= lo' /\ hi' <= hi) -> truthful lo hi c.
Proof.
  intros Hc Hw. destruct (decide (lo' <= hi')) as [Hle|Hgt].
  - eapply truthful_widen; [apply Hw, Hle|apply Hw, Hle|done].
  - destruct Hc as [Hok Hc]. split; [done|]. intros x Hx. destruct (Hc x Hx). lia.
Qed.

Lemma disk_coverage_truthful s range proof proof' contributed :
  disk_sound s -> truthful (br_start range) (br_end range) proof ->
  disk_coverage s range proof = (proof', contributed) ->
  truthful (br_start range) (br_end range) proof'.
Proof.
  intros Hd Hp. unfold disk_coverage, disk_sound in *.
  destruct (s_disk s) as [disk|]; [|by intros [= <- _]].
  set (lo := br_start range) in *. set (hi := br_end range) in *.
  assert (Hg : Forall (fun gap => fst gap <= snd gap -> lo <= fst gap /\ snd gap <= hi) (gaps lo hi proof)).
  { apply Forall_forall. intros gap Hgap. apply (gaps_inside lo hi proof); [apply Hp|done]. }
  revert Hg Hp. generalize (gaps lo hi proof) as gs. intros gs Hg. generalize false.
  revert proof. induction Hg as [|gap gs Hgap Hg IH]; intros proof b Hp; cbn [foldl].
  { by intros [= <- _]. }
  apply IH. apply merge_truthful; [done|]. eapply truthful_window; [apply Hd|done].
Qed.

(** ** Filling the gaps *)

Lemma fill_gaps_spec s gs slots o l o' :
  truthful_primary (s_primary s) -> ascending slots ->
  fill_gaps s gs slots o = (Ok l, o') ->
  ascending l /\ forall x, x ∈ l <-> x ∈ slots \/ (in_ranges x gs /\ block_at x).
Proof.
  intros Hp. revert slots o. induction gs as [|[a b] gs IH]; intros slots o Hs; cbn [fill_gaps].
  { intros [= <- _]. split; [done|]. intros x. rewrite in_ranges_nil. tauto. }
  destruct (s_primary s a b) as [rows|e] eqn:Er; [|done].
  destruct (Hp a b rows Er) as [Hra Hrx]. destruct (merge_sorted_spec slots rows Hs Hra) as [Hma Hmx].
  intros Hf. apply IH in Hf as [Hl Hx]; [|done]. split; [done|]. intros x.
  rewrite Hx, Hmx, Hrx, in_ranges_cons. tauto.
Qed.

Lemma block_slots_spec s range o l o' :
  memory_sound s range -> disk_sound s -> truthful_primary (s_primary s) ->
  get_block_slots_response_for_range s range o = (RSlots l, o') ->
  ascending l /\ forall x, x ∈ l <-> br_start range <= x <= br_end range /\ block_at x.
Proof.
  intros Hm Hd Hp. unfold get_block_slots_response_for_range.
  destruct (memory_coverage s range o) as [[proof indexed] o1] eqn:Em.
  apply memory_coverage_truthful in Em; [|done]. destruct (_ && _)%bool; [done|].
  destruct (disk_coverage s range proof) as [proof2 contributed] eqn:Ed.
  apply disk_coverage_truthful in Ed as [Hok Ht]; [|done|done].
  destruct (fill_gaps _ _ _ _) as [[slots|e] o2] eqn:Ef; [|done]. intros [= <- _].
  apply fill_gaps_spec in Ef as [Hl Hx]; [|done|apply Hok]. split; [done|]. intros x.
  rewrite Hx, gaps_spec by apply Hok. pose proof (co_inside _ Hok x) as Hin. specialize (Ht x).
  destruct (decide (x ∈ sc_slots proof2)); [tauto|]. split; [tauto|].
  intros [Hw Hb]. right. split; [|done]. split; [done|]. intros Hc. tauto.
Qed.

(** The handlers answer whenever the reads they need succeed. *)
Lemma fill_gaps_total s gs slots o :
  (forall a b, is_ok (s_primary s a b) = true) -> exists l o', fill_gaps s gs slots o = (Ok l, o').
Proof.
  intros Hp. revert slots o. induction gs as [|[a b] gs IH]; intros slots o; cbn [fill_gaps]; [eauto|].
  specialize (Hp a b). destruct (s_primary s a b); [|done]. apply IH.
Qed.

End Truth.

(** ** The resolved window *)

(** The tip the head cache vouches for at a commitment: the subscription is connected, the tip
    advanced lately, and the links below it reach back to another block or to slot 0. *)
Definition trusted_tip (h : HeadCoverage) (c : CommitmentLevel) (now tip : Z) : Prop :=
  exists t l, h_connected h = true /\ tip_at c h = Some t /\ t_slot t = tip /\ now - t_advanced t <= TIP_MAX_AGE /\ chain tip c h = Some l /\
    (2 <= zlen l \/ exists link rest, l = link :: rest /\ l_slot link = 0).

(** The end of the window a request is answered over.  Without a head cache it is the
    requested end or the newest slot known; with one, a request without an end ends at the
    trusted tip, and a requested end is cut there if the setting says so. *)
Definition resolved_end (s : Sources) (end_ : option Z) (c : CommitmentLevel) (now hi : Z) : Prop :=
  match s_head s, end_ with
  | None, Some e => hi = e
  | None, None => exists primary, s_latest s = Ok (hi, primary)
  | Some (h, _), None => trusted_tip h c now hi
  | Some (h, clamps), Some e =>
      if clamps then (exists tip, trusted_tip h c now tip /\ hi = Z.min e tip) \/ (forall tip, ~ trusted_tip h c now tip) /\ hi = e else hi = e
  end.

Lemma zlen_short (l : list Link) : (zlen l <? 2) && negb match l with link :: _ => l_slot link =? 0 | [] => false end = false <->
  2 <= zlen l \/ exists link rest, l = link :: rest /\ l_slot link = 0.
Proof.
  rewrite andb_false_iff, Z.ltb_ge, negb_false_iff. destruct l as [|link rest]; [naive_solver|]. rewrite Z.eqb_eq. naive_solver.
Qed.
Lemma trusted_chain_tip h c now tip l : trusted_chain c now h = Some (Ok (tip, l)) -> trusted_tip h c now tip.
Proof.
  unfold trusted_chain. destruct (h_connected h) eqn:Hc; [|done]. cbn [negb]. destruct (tip_at c h) as [t|] eqn:Ht; [|done].
  destruct (Z.ltb_spec TIP_MAX_AGE (Z.max 0 (now - t_advanced t))); [done|]. destruct (chain (t_slot t) c h) as [l'|] eqn:El; [|done].
  destruct (_ && _)%bool eqn:Es; [done|]. apply zlen_short in Es. intros [= <- <-]. exists t, l'. split_and!; try done. lia.
Qed.
Lemma trusted_chain_none h c now e tip : trusted_chain c now h = Some (Err e) -> ~ trusted_tip h c now tip.
Proof.
  unfold trusted_chain. intros H (t & l & Hc & Ht & <- & Ha & El & Hs%zlen_short). rewrite Hc, Ht in H. cbn [negb] in H.
  destruct (Z.ltb_spec TIP_MAX_AGE (Z.max 0 (now - t_advanced t))); [unfold TIP_MAX_AGE in *; lia|]. rewrite El in H. by rewrite Hs in H.
Qed.

Lemma resolve_range_window s start end_ c now o range o' :
  resolve_range s start end_ c now o = Some (Ok range, o') -> br_start range = start /\ resolved_end s end_ c now (br_end range).
Proof.
  unfold resolve_range, resolved_end. destruct (s_head s) as [[h clamps]|]; destruct end_ as [e|].
  - destruct clamps.
    + unfold snapshot_clamped. destruct (trusted_chain c now h) as [[[tip l]|err]|] eqn:E; [| |done].
      * intros [= <- _]. split; [done|]. left. exists tip. split; [by eapply trusted_chain_tip|done].
      * destruct (historical_coverage start e c h); [|done]. intros [= <- _]. split; [done|]. right. split; [|done]. intros tip. by eapply trusted_chain_none.
    + unfold snapshot. destruct (historical_coverage start e c h); [|done]. by intros [= <- _].
  - unfold snapshot. destruct (trusted_chain c now h) as [[[tip l]|]|] eqn:E; [|done|done]. intros [= <- _]. split; [done|]. by eapply trusted_chain_tip.
  - by intros [= <- _].
  - unfold latest_from_primary. destruct (s_latest s) as [[e primary]|]; [|done]. intros [= <- _]. split; [done|]. by exists primary.
Qed.
(** Resolving a window notes no contradiction; only a window without a requested end is the
    head tip's. *)
Lemma resolve_range_observation s start end_ c now o range o' : resolve_range s start end_ c now o = Some (Ok range, o') ->
  ob_reason o' = ob_reason o /\ (br_authoritative_head_tip range = true -> end_ = None).
Proof.
  unfold resolve_range, latest_from_primary. destruct (s_head s) as [[h clamps]|], end_ as [e|].
  - destruct clamps; [destruct (snapshot_clamped start e c now h) as [[[e' cov] cl]|]|destruct (snapshot start (Some e) c now h) as [[[e' cov]|]|]]; by intros [= <- <-].
  - destruct (snapshot start None c now h) as [[[e' cov]|]|]; by intros [= <- <-].
  - by intros [= <- <-].
  - destruct (s_latest s) as [[e primary]|]; by intros [= <- <-].
Qed.
Lemma resolved_end_le s e c now hi : resolved_end s (Some e) c now hi -> hi <= e.
Proof. unfold resolved_end. destruct (s_head s) as [[h []]|]; [|lia..]. intros [(tip & _ & ->)|[_ ->]]; lia. Qed.

Lemma ascending_length l lo hi :
  ascending l -> Forall (fun x => lo <= x <= hi) l -> zlen l <= Z.max 0 (hi - lo + 1).
Proof.
  revert lo. induction l as [|a l IH]; intros lo Ha Hf; [unfold zlen; simpl; lia|].
  apply ascending_cons in Ha as [Hfa Ha]. inversion Hf as [|? ? Hlo Hrest]; subst.
  rewrite zlen_cons. enough (zlen l <= Z.max 0 (hi - (a + 1) + 1)) by lia.
  apply IH; [done|]. rewrite Forall_forall in *. intros x Hx.
  specialize (Hfa x Hx). specialize (Hrest x Hx). lia.
Qed.

(** What an exact answer over [lo..hi] is. *)
Definition exact_answer (block_at : Z -> Prop) (lo hi : Z) (l : list Z) : Prop :=
  ascending l /\ forall x, x ∈ l <-> lo <= x <= hi /\ block_at x.

Lemma exact_answer_length block_at lo hi l :
  exact_answer block_at lo hi l -> zlen l <= Z.max 0 (hi - lo + 1).
Proof.
  intros [Ha Hx]. apply ascending_length; [done|]. apply Forall_forall. intros x Hin.
  by apply Hx in Hin as [? _].
Qed.

Lemma range_response_exact block_at s start range o l :
  br_start range = start -> memory_sound block_at s range -> disk_sound block_at s ->
  truthful_primary block_at (s_primary s) ->
  (if br_end range <? start then Some (RSlots [])
   else Some (fst (get_block_slots_response_for_range s range o))) = Some (RSlots l) ->
  exact_answer block_at start (br_end range) l.
Proof.
  intros Hst Hm Hd Hp. destruct (Z.ltb_spec (br_end range) start).
  - intros [= <-]. split; [constructor|]. intros x. rewrite elem_of_nil. lia.
  - destruct (get_block_slots_response_for_range s range o) as [r o'] eqn:E. simpl.
    intros [= ->]. apply (block_slots_spec block_at) in E; [|done|done|done].
    by rewrite Hst in E.
Qed.

(** ** Properties *)

(** A window that is neither too long nor claimed by contradicting caches is answered when the
    primary answers. *)
Lemma range_response_total s range o : (forall a b, is_ok (s_primary s a b) = true) -> ob_reason o <> ReasonCacheChanged ->
  (forall index, s_index s = Some index -> br_authoritative_head_tip range = true ->
     coverage_ok (br_head range) /\ coverage_ok (@range_coverage index (br_start range) (br_end range)) /\
     forall y, ~ disputed (br_head range) (@range_coverage index (br_start range) (br_end range)) y) ->
  exists l, fst (get_block_slots_response_for_range s range o) = RSlots l.
Proof.
  intros Hp Ho Hi. unfold get_block_slots_response_for_range.
  assert (exists proof indexed o1, memory_coverage s range o = (proof, indexed, o1) /\
    (br_authoritative_head_tip range && bool_decide (ob_reason o1 = ReasonCacheChanged))%bool = false) as (proof & indexed & o1 & -> & ->).
  { unfold memory_coverage. destruct (s_index s) as [index|]; [|eexists _, _, _; split; [done|]; rewrite bool_decide_false by done; by destruct (br_authoritative_head_tip range)].
    destruct (merge_checked _ _) as [m changed] eqn:Em. destruct changed; (eexists _, _, _; split; [done|]).
    - destruct (br_authoritative_head_tip range) eqn:Ha; [exfalso|done]. destruct (Hi index eq_refl eq_refl) as (H1 & H2 & H3).
      destruct (proj1 (merge_checked_changed (br_head range) _ H1 H2)) as [y Hy]; [by rewrite Em|]. by apply (H3 y).
    - rewrite bool_decide_false by done. by destruct (br_authoritative_head_tip range). }
  destruct (disk_coverage s range proof) as [proof2 disk].
  destruct (fill_gaps_total s (gaps (br_start range) (br_end range) proof2) (sc_slots proof2) (set_local (negb (bool_decide (sc_intervals proof2 = []))) o1) Hp) as (l & o2 & ->).
  by exists l.
Qed.

(** C2: let the disk cache and the primary be truthful and, for the window a request is
    resolved to, the answers in memory be truthful or contradict each other.  Then a getBlocks
    answer is exact: it lists, in ascending order and without repetition, exactly the slots
    with a block from the requested start to the end of the window ([resolved_end]: the
    requested end, the newest slot known, or the tip the head cache vouches for), at most
    500001 of them.  And a well-formed request is answered whenever its window resolves, is no
    longer than that, and the primary answers, unless the caches contradict each other where
    the window ends at the head tip. *)
Theorem get_blocks_exact block_at s start end_ c now :
  (forall range o, resolve_range s start end_ c now RangeObservation_new = Some (Ok range, o) ->
     memory_sound block_at s range) ->
  disk_sound block_at s -> truthful_primary block_at (s_primary s) ->
  (forall l, handle_get_blocks s start end_ c now = Some (RSlots l) ->
    exists hi, resolved_end s end_ c now hi /\ exact_answer block_at start hi l /\ zlen l <= MAX_GET_BLOCKS_RANGE + 1) /\
  (forall range o, resolve_range s start end_ c now RangeObservation_new = Some (Ok range, o) ->
    (forall a b, is_ok (s_primary s a b) = true) -> (forall e, end_ = Some e -> start <= e <= start + MAX_GET_BLOCKS_RANGE) ->
    br_end range - start <= MAX_GET_BLOCKS_RANGE ->
    (end_ = None -> forall index y, s_index s = Some index -> ~ disputed (br_head range) (@range_coverage index (br_start range) (br_end range)) y) ->
    exists l, handle_get_blocks s start end_ c now = Some (RSlots l)).
Proof.
  intros Hm Hd Hp. split.
  - unfold handle_get_blocks. intros l. destruct (match end_ with Some _ => _ | None => _ end); [done|].
    destruct (resolve_range s start end_ c now RangeObservation_new) as [[[range|e] o]|] eqn:Er; [|done|done].
    specialize (Hm range o eq_refl). destruct (resolve_range_window _ _ _ _ _ _ _ _ Er) as [Hs He].
    destruct (Z.ltb_spec MAX_GET_BLOCKS_RANGE (sat_sub (br_end range) start)) as [Hbig|Hsmall]; intros Hresp.
    + exfalso. revert Hresp. unfold sat_sub, MAX_GET_BLOCKS_RANGE in Hbig. destruct (Z.ltb_spec (br_end range) start); [lia|done].
    + apply (range_response_exact block_at) in Hresp; try done. exists (br_end range). split; [done|]. split; [done|].
      apply exact_answer_length in Hresp. unfold sat_sub, MAX_GET_BLOCKS_RANGE in *. lia.
  - intros range o Er Hprim Hend Hlen Hnd. unfold handle_get_blocks. rewrite Er. specialize (Hm range o Er).
    replace (match end_ with Some _ => _ | None => _ end) with false.
    2: { destruct end_ as [e|]; [|done]. specialize (Hend e eq_refl). symmetry. apply orb_false_iff. rewrite !Z.ltb_ge. lia. }
    destruct (Z.ltb_spec (br_end range) start); [by exists []|]. destruct (Z.ltb_spec MAX_GET_BLOCKS_RANGE (sat_sub (br_end range) start)) as [Hbig|_]; [unfold sat_sub in Hbig; lia|].
    destruct (resolve_range_observation _ _ _ _ _ _ _ _ Er) as [Ho Ha]. destruct (range_response_total s range o) as [l ->]; [done|by rewrite Ho| |by exists l].
    intros index Hi Hauth. destruct Hm as [Hh Hx]. rewrite Hi in Hx. destruct Hx as [Hx _]. split_and!; [done..|]. intros y. apply Hnd; [by apply Ha|done].
Qed.

(** GetBlocksWithLimit, under the same conditions, lists exactly the blocks of a
    window of at most [limit] slots that starts at the requested slot. *)
Theorem get_blocks_with_limit_exact block_at s start limit c now l :
  is_u64 start -> is_u64 limit ->
  (forall e range o, resolve_range s start (Some e) c now RangeObservation_new = Some (Ok range, o) ->
     memory_sound block_at s range) ->
  disk_sound block_at s -> truthful_primary block_at (s_primary s) ->
  handle_get_blocks_with_limit s start limit c now = Some (RSlots l) ->
  exists hi, exact_answer block_at start hi l /\ hi < start + limit /\ zlen l <= limit.
Proof.
  intros Hst Hli Hm Hd Hp. unfold handle_get_blocks_with_limit.
  destruct (Z.ltb_spec MAX_GET_BLOCKS_RANGE limit); [done|].
  destruct (Z.eqb_spec limit 0) as [->|Hne].
  { intros [= <-]. exists (start - 1). split; [|split; [lia|unfold zlen; simpl; lia]].
    split; [constructor|]. intros x. rewrite elem_of_nil. lia. }
  set (e := sat_add start (sat_sub limit 1)).
  destruct (resolve_range s start (Some e) c now RangeObservation_new) as [[[range|err] o]|] eqn:Er;
    [|done|done].
  destruct (resolve_range_window _ _ _ _ _ _ _ _ Er) as [Hs He]. apply resolved_end_le in He.
  intros Hresp. apply (range_response_exact block_at) in Hresp; [|done|by eapply Hm|done|done].
  assert (Hb : br_end range < start + limit) by (unfold e in He; sat_lia).
  exists (br_end range). split; [done|]. split; [done|].
  apply exact_answer_length in Hresp. unfold is_u64 in Hli. lia.
Qed.

(** Merging two ascending slot lists yields the ascending list of their union. *)
Theorem merge_sorted_exact a b :
  ascending a -> ascending b ->
  ascending (merge_sorted_block_slots a b) /\
  forall x, x ∈ merge_sorted_block_slots a b <-> x ∈ a \/ x ∈ b.
Proof. apply merge_sorted_spec. Qed.

(** When the head cache and the block index contradict each other, neither is
    used: an answer whose end was taken from the head tip is refused, and any other
    answer is assembled from the disk cache and the primary alone. *)
Theorem contradiction_discards_memory s range o index :
  s_index s = Some index -> coverage_ok (br_head range) ->
  coverage_ok (@range_coverage index (br_start range) (br_end range)) ->
  (exists y, disputed (br_head range) (@range_coverage index (br_start range) (br_end range)) y) ->
  memory_coverage s range o = (SlotCoverage_default, false, set_reason ReasonCacheChanged o) /\
  (br_authoritative_head_tip range = true ->
   fst (get_block_slots_response_for_range s range o) = RInternalError).
Proof.
  intros Hi Hh Hx Hd.
  assert (Em : memory_coverage s range o =
               (SlotCoverage_default, false, set_reason ReasonCacheChanged o)).
  { unfold memory_coverage. rewrite Hi. apply merge_checked_changed in Hd; [|done|done].
    destruct (merge_checked _ _) as [p ch]. simpl in Hd. by subst ch. }
  split; [done|]. intros Ha. unfold get_block_slots_response_for_range. by rewrite Em, Ha.
Qed.
