(* ===== verification/HeadCache.v ===== *)
(** * HeadCache: the in-memory head of the chain

    Models the state and the projections of [crates/superbank-rpc/src/head_cache/mod.rs]:
    what the cache keeps per slot, per signature and per address, how a selected bank's
    metadata and transactions are projected into it, and how slots leave it.  The bank
    protocol on top is [Banks].

    The maps of the source are grouped in two records, [Blocks] for the per-slot maps of
    block data and [Txs] for the transaction indexes.  The commitment token of a bank is
    shared between the bank and the metadata of its transactions ([Arc<AtomicU8>]): it is
    a cell of the token heap, and both hold its address.  The conversion of a protobuf
    transaction is a parameter; the [err] and [memo] texts a [HeadTxMeta] derives from the
    converted record are left out, as are the block-metadata columns the cache only
    carries.  All operations run under the bank write lock. *)

From S2P Require Import Prelude BTree SlotCoverage HeadCoverage.

Open Scope Z_scope.

Abbreviation Signature := (list Z).
Abbreviation Address := (list Z).

(** The parts of [BlockFooterRecord] and [BlockMetadataRecord] the cache reads. *)
Record BlockFooterRecord := mkFooter {
  block_producer_time_nanos : Z;
  block_user_agent : list Z;
}.
Record BlockMetadataRecord := mkMetadata {
  m_slot : Z;
  m_parent_slot : Z;
  m_blockhash : list Z;
  m_parent_blockhash : list Z;
  m_block_time : option Z;
  m_block_height : option Z;
  m_executed_transaction_count : Z;
  m_entry_count : Z;
  m_footer : option BlockFooterRecord;
}.

Definition with_footer (f : option BlockFooterRecord) (m : BlockMetadataRecord) : BlockMetadataRecord :=
  mkMetadata (m_slot m) (m_parent_slot m) (m_blockhash m) (m_parent_blockhash m) (m_block_time m)
    (m_block_height m) (m_executed_transaction_count m) (m_entry_count m) f.

(** [SlotIndex], [HeadSigKey] *)
Record SlotIndex := mkPos { pos_slot : Z; pos_idx : Z }.
Record HeadSigKey := mkKey { key_signature : Signature; key_pos : SlotIndex }.

(** [HeadTxMeta] *)
Record HeadTxMeta := mkTxMeta {
  tm_bank_commitment : option Z;
  tm_pos : SlotIndex;
  tm_block_time : option Z;
}.

(** The parts of [StoredTransactionRecord] the cache reads. *)
Record StoredTransactionRecord := mkRecord {
  tx_account_keys : list Address;
  meta_loaded_addresses_writable : list Address;
  meta_loaded_addresses_readonly : list Address;
  r_block_time : option Z;
}.

Definition with_block_time (t : option Z) (r : StoredTransactionRecord) : StoredTransactionRecord :=
  mkRecord (tx_account_keys r) (meta_loaded_addresses_writable r) (meta_loaded_addresses_readonly r) t.

(** [SubscribeUpdateTransactionInfo] and [SubscribeUpdateEntry]; [ti_payload] is the
    encoded transaction. *)
Record TransactionInfo := mkTxInfo {
  ti_signature : list Z;
  ti_index : Z;
  ti_payload : list Z;
}.
Record EntryUpdate := mkEntryUpdate {
  eu_slot : Z;
  eu_bank_id : Z;
  eu_index : Z;
  eu_starting_transaction_index : Z;
  eu_executed_transaction_count : Z;
  eu_hash : list Z;
}.

Record Blocks := mkBlocks {
  slot_block_height : gmap Z Z;
  slot_blockhash : gmap Z (list Z);
  slot_block_time : gmap Z Z;
  slot_block_metadata : gmap Z BlockMetadataRecord;
}.

Record Txs := mkTxs {
  tx_by_signature : gmap Signature StoredTransactionRecord;
  meta_by_signature : gmap Signature HeadTxMeta;
  sigs_by_address : gmap Address (list HeadSigKey);
  address_truncated_slot : gmap Address Z;
  sigs_by_slot : gmap Z (list Signature);
  addrs_by_slot : gmap Z (list Address);
}.

(** [HeadCache] without its bank state, with the token heap. *)
Record HeadCache := mkCache {
  retain_slots : Z;
  max_per_address : Z;
  latest_slot : Z;
  proof : HeadCoverage;
  blocks : Blocks;
  txs : Txs;
  slot_commitment : gmap Z CommitmentLevel;
  tokens : gmap Z Z;
}.

(** [HeadCache::new] *)
Definition cache_new (retain_slots max_per_address : Z) : HeadCache :=
  mkCache (Z.max retain_slots 1) (Z.max max_per_address 1) 0 HeadCoverage_default
    (mkBlocks ∅ ∅ ∅ ∅) (mkTxs ∅ ∅ ∅ ∅ ∅ ∅) ∅ ∅.

Definition set_latest (l : Z) (c : HeadCache) : HeadCache :=
  mkCache (retain_slots c) (max_per_address c) l (proof c) (blocks c) (txs c) (slot_commitment c) (tokens c).
Definition set_proof (p : HeadCoverage) (c : HeadCache) : HeadCache :=
  mkCache (retain_slots c) (max_per_address c) (latest_slot c) p (blocks c) (txs c) (slot_commitment c) (tokens c).
Definition set_blocks (b : Blocks) (c : HeadCache) : HeadCache :=
  mkCache (retain_slots c) (max_per_address c) (latest_slot c) (proof c) b (txs c) (slot_commitment c) (tokens c).
Definition set_txs (t : Txs) (c : HeadCache) : HeadCache :=
  mkCache (retain_slots c) (max_per_address c) (latest_slot c) (proof c) (blocks c) t (slot_commitment c) (tokens c).
Definition set_commitments (m : gmap Z CommitmentLevel) (c : HeadCache) : HeadCache :=
  mkCache (retain_slots c) (max_per_address c) (latest_slot c) (proof c) (blocks c) (txs c) m (tokens c).
Definition set_tokens (t : gmap Z Z) (c : HeadCache) : HeadCache :=
  mkCache (retain_slots c) (max_per_address c) (latest_slot c) (proof c) (blocks c) (txs c) (slot_commitment c) t.

(** [HeadCache::min_retained_slot] *)
Definition min_retained_slot (c : HeadCache) : Z := sat_sub (latest_slot c) (sat_sub (retain_slots c) 1).

(** ** Leaving the cache *)

(** The signatures of a removed slot that are still projected there. *)
Definition remove_signature (slot : Z) (t : Txs) (sig : Signature) : Txs :=
  match meta_by_signature t !! sig with
  | Some meta =>
      if pos_slot (tm_pos meta) =? slot
      then mkTxs (delete sig (tx_by_signature t)) (delete sig (meta_by_signature t)) (sigs_by_address t)
             (address_truncated_slot t) (sigs_by_slot t) (addrs_by_slot t)
      else t
  | None => t
  end.

Definition set_sigs_by_address (a : gmap Address (list HeadSigKey)) (t : Txs) : Txs :=
  mkTxs (tx_by_signature t) (meta_by_signature t) a (address_truncated_slot t) (sigs_by_slot t) (addrs_by_slot t).

Definition remove_address_keys (slot : Z) (t : Txs) (addr : Address) : Txs :=
  match sigs_by_address t !! addr with
  | Some deque =>
      let deque := List.filter (fun k => negb (pos_slot (key_pos k) =? slot)) deque in
      set_sigs_by_address
        (if bool_decide (deque = []) then delete addr (sigs_by_address t)
         else <[addr := deque]> (sigs_by_address t)) t
  | None => t
  end.

(** The transaction half of [remove_slot_inner]; sorting and deduplicating the addresses
    only avoids repeated work, as a second visit of an address changes nothing. *)
Definition remove_slot_txs (slot : Z) (t : Txs) : Txs :=
  let t :=
    match sigs_by_slot t !! slot with
    | Some sigs =>
        foldl (remove_signature slot)
          (mkTxs (tx_by_signature t) (meta_by_signature t) (sigs_by_address t) (address_truncated_slot t)
             (delete slot (sigs_by_slot t)) (addrs_by_slot t)) sigs
    | None => t
    end in
  match addrs_by_slot t !! slot with
  | None => t
  | Some addrs =>
      foldl (remove_address_keys slot)
        (mkTxs (tx_by_signature t) (meta_by_signature t) (sigs_by_address t) (address_truncated_slot t)
           (sigs_by_slot t) (delete slot (addrs_by_slot t))) addrs
  end.

(** [HeadCache::remove_slot_inner] *)
Definition remove_slot_inner (slot : Z) (c : HeadCache) : HeadCache :=
  let c := set_proof (retain (latest_slot c) (retain_slots c) (invalidate slot (proof c))) c in
  let c := set_commitments (delete slot (slot_commitment c)) c in
  let b := blocks c in
  let c := set_blocks (mkBlocks (delete slot (slot_block_height b)) (delete slot (slot_blockhash b))
                         (delete slot (slot_block_time b)) (delete slot (slot_block_metadata b))) c in
  set_txs (remove_slot_txs slot (txs c)) c.

(** [HeadCache::remove_slot] *)
Definition cache_remove_slot (slot : Z) (c : HeadCache) : HeadCache :=
  remove_slot_inner slot (set_proof (invalidate_branch slot (proof c)) c).

(** The keys of [slot_commitment]. *)
Definition committed_slots (c : HeadCache) : list Z := map fst (map_to_list (slot_commitment c)).

(** [HeadCache::evict_old_slots] *)
Definition evict_old_slots (c : HeadCache) : HeadCache :=
  let min_slot := min_retained_slot c in
  let old := List.filter (fun slot => slot <? min_slot) (committed_slots c) in
  match old with
  | [] => c
  | _ =>
      let c := foldl (fun c slot => remove_slot_inner slot c) c old in
      let t := txs c in
      set_txs (mkTxs (tx_by_signature t) (meta_by_signature t) (sigs_by_address t)
                 (filter (fun e => min_slot <= snd e) (address_truncated_slot t))
                 (sigs_by_slot t) (addrs_by_slot t)) c
  end.

(** [latest_slot.fetch_max(slot)] with the eviction that follows an advance. *)
Definition advance_latest (slot : Z) (c : HeadCache) : HeadCache :=
  let prev_latest := latest_slot c in
  let c := set_latest (Z.max prev_latest slot) c in
  if prev_latest <? slot then evict_old_slots c else c.

(** [HeadCache::note_slot_commitment] *)
Definition note_slot_commitment (slot : Z) (commitment : CommitmentLevel) (c : HeadCache) : HeadCache :=
  let prev_latest := latest_slot c in
  let c := set_latest (Z.max prev_latest slot) c in
  let noted :=
    match slot_commitment c !! slot with
    | Some existing => if commitment_meets commitment existing then commitment else existing
    | None => commitment
    end in
  let c := set_commitments (<[slot := noted]> (slot_commitment c)) c in
  if prev_latest <? slot then evict_old_slots c else c.

(** ** Entering the cache *)

(** [backfill_transaction_block_time] and [backfill_meta_block_time] of one signature. *)
Definition backfill_signature (block_time : Z) (t : Txs) (sig : Signature) : Txs :=
  mkTxs (alter (with_block_time (Some block_time)) sig (tx_by_signature t))
    (alter (fun m => mkTxMeta (tm_bank_commitment m) (tm_pos m) (Some block_time)) sig (meta_by_signature t))
    (sigs_by_address t) (address_truncated_slot t) (sigs_by_slot t) (addrs_by_slot t).

(** [HeadCache::backfill_slot_block_time] *)
Definition backfill_slot_block_time (slot block_time : Z) (c : HeadCache) : HeadCache :=
  match sigs_by_slot (txs c) !! slot with
  | None => c
  | Some signatures => set_txs (foldl (backfill_signature block_time) (txs c) signatures) c
  end.

(** [HeadCache::note_block_metadata] *)
Definition note_block_metadata (metadata : BlockMetadataRecord) (c : HeadCache) : HeadCache :=
  let slot := m_slot metadata in
  let b := blocks c in
  let heights := match m_block_height metadata with
                 | Some h => <[slot := h]> (slot_block_height b) | None => slot_block_height b end in
  let hashes := <[slot := m_blockhash metadata]> (slot_blockhash b) in
  let c :=
    match m_block_time metadata with
    | Some t =>
        backfill_slot_block_time slot t
          (set_blocks (mkBlocks heights hashes (<[slot := t]> (slot_block_time b)) (slot_block_metadata b)) c)
    | None => set_blocks (mkBlocks heights hashes (slot_block_time b) (slot_block_metadata b)) c
    end in
  let b := blocks c in
  set_blocks (mkBlocks (slot_block_height b) (slot_blockhash b) (slot_block_time b)
                (<[slot := metadata]> (slot_block_metadata b))) c.

(** The value of a commitment token; [None] is a transaction without a bank. *)
Definition token_rank (c : HeadCache) (token : option Z) : Z :=
  match token with Some a => default 0 (tokens c !! a) | None => 0 end.

(** [HeadCache::projection_wins] *)
Definition projection_wins (c : HeadCache) (old : HeadTxMeta) (slot : Z) (token : option Z) : bool :=
  ((pos_slot (tm_pos old) =? slot) || (token_rank c token =? 0) ||
   negb (token_rank c (tm_bank_commitment old) =? 0))%bool.

(** [HeadCache::keeps_existing_projection] *)
Definition keeps_existing_projection (c : HeadCache) (sig : Signature) (slot : Z) (token : option Z) : bool :=
  match meta_by_signature (txs c) !! sig with
  | Some old => projection_wins c old slot token
  | None => false
  end.

(** Newest first by slot and index. *)
Definition pos_gtb (a b : SlotIndex) : bool :=
  ((pos_slot b <? pos_slot a) || ((pos_slot a =? pos_slot b) && (pos_idx b <? pos_idx a)))%bool.

(** [entry.partition_point(|k| order(k) > order(&key))] and the insertion there. *)
Fixpoint insert_key (key : HeadSigKey) (l : list HeadSigKey) : list HeadSigKey :=
  match l with
  | [] => [key]
  | k :: l' => if pos_gtb (key_pos k) (key_pos key) then k :: insert_key key l' else key :: l
  end.

(** [while let Some(back) = entry.back() && back.pos.slot < min_slot { entry.pop_back(); }],
    on the reversed list. *)
Fixpoint pop_old (min_slot : Z) (rev_keys : list HeadSigKey) : list HeadSigKey :=
  match rev_keys with
  | k :: rest => if pos_slot (key_pos k) <? min_slot then pop_old min_slot rest else rev_keys
  | [] => []
  end.

(** [truncated.max(Some(slot))] over the dropped keys. *)
Definition max_slot (acc : option Z) (k : HeadSigKey) : option Z :=
  Some (match acc with Some s => Z.max s (pos_slot (key_pos k)) | None => pos_slot (key_pos k) end).

(** [HeadCache::index_address] *)
Definition index_address (limit : Z) (key : HeadSigKey) (min_slot : Z) (t : Txs) (address : Address) : Txs :=
  let entry := default [] (sigs_by_address t !! address) in
  let entry := insert_key key entry in
  let entry := rev (pop_old min_slot (rev entry)) in
  let kept := take (Z.to_nat limit) entry in
  let truncated := foldl max_slot None (rev (drop (Z.to_nat limit) entry)) in
  mkTxs (tx_by_signature t) (meta_by_signature t) (<[address := kept]> (sigs_by_address t))
    (match truncated with
     | Some slot =>
         <[address := match address_truncated_slot t !! address with
                      | Some highest => Z.max highest slot | None => slot end]> (address_truncated_slot t)
     | None => address_truncated_slot t
     end) (sigs_by_slot t) (addrs_by_slot t).

(** The removal of a superseded projection of a signature at [old_slot]. *)
Definition unproject (sig : Signature) (old_slot : Z) (t : Txs) : Txs :=
  let t := mkTxs (tx_by_signature t) (delete sig (meta_by_signature t)) (sigs_by_address t)
             (address_truncated_slot t)
             (alter (List.filter (fun s => negb (bool_decide (s = sig)))) old_slot (sigs_by_slot t))
             (addrs_by_slot t) in
  set_sigs_by_address
    (foldl (fun a addr =>
              alter (List.filter (fun k =>
                       negb (bool_decide (key_signature k = sig) && (pos_slot (key_pos k) =? old_slot))%bool)) addr a)
       (sigs_by_address t) (default [] (addrs_by_slot t !! old_slot))) t.

Section Ingest.
(** [convert::stored_record_from_transaction_info] *)
Context (stored_record_from_transaction_info : Z -> TransactionInfo -> option StoredTransactionRecord).

(** [HeadCache::ingest_bank_transaction] *)
Definition ingest_bank_transaction (slot : Z) (token : option Z) (c : HeadCache) (tx_info : TransactionInfo) :
    HeadCache :=
  let current_latest := latest_slot c in
  let prospective_latest := Z.max current_latest slot in
  let min_slot := sat_sub prospective_latest (sat_sub (retain_slots c) 1) in
  if slot <? min_slot then c
  else if negb (zlen (ti_signature tx_info) =? 64) then c
  else
    let signature := ti_signature tx_info in
    if keeps_existing_projection c signature slot token then c
    else
      match stored_record_from_transaction_info slot tx_info with
      | None => c
      | Some record =>
          let block_time := slot_block_time (blocks c) !! slot in
          let record := with_block_time block_time record in
          let pos := mkPos slot (Z.min (ti_index tx_info) u32_max) in
          let meta := mkTxMeta token pos block_time in
          let t :=
            match meta_by_signature (txs c) !! signature with
            | Some old => unproject signature (pos_slot (tm_pos old)) (txs c)
            | None => txs c
            end in
          (* sort_unstable and dedup: a set, each address is then handled independently *)
          let addrs := remove_dups (tx_account_keys record ++ meta_loaded_addresses_writable record ++
                                    meta_loaded_addresses_readonly record) in
          let t :=
            mkTxs (<[signature := record]> (tx_by_signature t)) (<[signature := meta]> (meta_by_signature t))
              (sigs_by_address t) (address_truncated_slot t)
              (<[slot := default [] (sigs_by_slot t !! slot) ++ [signature]]> (sigs_by_slot t))
              (<[slot := default [] (addrs_by_slot t !! slot) ++ addrs]> (addrs_by_slot t)) in
          let t := foldl (index_address (max_per_address c) (mkKey signature pos) min_slot) t addrs in
          let c := set_txs t c in
          if current_latest <? slot then advance_latest slot c else c
      end.

End Ingest.
