(* ===== verification/Banks.v ===== *)
(** * Banks: speculative banks and the one that is published

    Models [crates/superbank-rpc/src/head_cache/banks.rs].  A subscription streams the
    pieces of speculative banks: metadata, footer, entries, the frozen block, commitment
    updates and discards, each naming a bank by slot and node-local identifier.  A bank is
    sealed once its pieces are complete; at most one bank per slot is selected and
    projected into the [HeadCache] and its range proof.

    Each operation holds the bank write lock from start to end.  Session numbers are
    unbounded (the source panics after 2^64 sessions).  Warnings and metrics are left
    out. *)

From S2P Require Import Prelude BTree SlotCoverage HeadCoverage HeadCache.

Open Scope Z_scope.

Definition PENDING_COMMITMENT_SLOTS : Z := 64.

(** (slot, node-local bank identifier), within one session. *)
Abbreviation BankKey := (Z * Z)%type.

Record Bank := mkBank {
  metadata : option BlockMetadataRecord;
  footer : option BlockFooterRecord;
  transactions : option (list TransactionInfo);
  sealed_hash : option (list Z);
  bank_entries : list EntryUpdate;
  commitment : Z;
  observed_at : option Z;
}.

(** [BankState] with the cache its operations project into; [next_token] is the next free
    cell of the token heap. *)
Record BankState := mkState {
  session : Z;
  highest : Z;
  minimum_commitment : Z;
  banks : gmap BankKey Bank;
  selected : gmap Z Z;
  canonical : gmap Z Z;
  discarded : gset BankKey;
  next_token : Z;
  cache : HeadCache;
}.

Definition set_highest (h : Z) (s : BankState) : BankState :=
  mkState (session s) h (minimum_commitment s) (banks s) (selected s) (canonical s) (discarded s) (next_token s) (cache s).
Definition set_banks (b : gmap BankKey Bank) (s : BankState) : BankState :=
  mkState (session s) (highest s) (minimum_commitment s) b (selected s) (canonical s) (discarded s) (next_token s) (cache s).
Definition set_selected (m : gmap Z Z) (s : BankState) : BankState :=
  mkState (session s) (highest s) (minimum_commitment s) (banks s) m (canonical s) (discarded s) (next_token s) (cache s).
Definition set_canonical (m : gmap Z Z) (s : BankState) : BankState :=
  mkState (session s) (highest s) (minimum_commitment s) (banks s) (selected s) m (discarded s) (next_token s) (cache s).
Definition set_discarded (d : gset BankKey) (s : BankState) : BankState :=
  mkState (session s) (highest s) (minimum_commitment s) (banks s) (selected s) (canonical s) d (next_token s) (cache s).
Definition set_cache (c : HeadCache) (s : BankState) : BankState :=
  mkState (session s) (highest s) (minimum_commitment s) (banks s) (selected s) (canonical s) (discarded s) (next_token s) c.

(** A cache before its first session. *)
Definition state_new (retain_slots max_per_address : Z) : BankState :=
  mkState 0 0 0 ∅ ∅ ∅ ∅ 0 (cache_new retain_slots max_per_address).

(** [decode_commitment] *)
Definition decode_commitment (rank : Z) : CommitmentLevel :=
  if rank =? 2 then Finalized else if rank =? 1 then Confirmed else Processed.

(** ** Sessions *)

Definition remove_committed (c : HeadCache) : HeadCache :=
  foldl (fun c slot => remove_slot_inner slot c) c (committed_slots c).

Definition clear_truncated (c : HeadCache) : HeadCache :=
  let t := txs c in
  set_txs (mkTxs (tx_by_signature t) (meta_by_signature t) (sigs_by_address t) ∅ (sigs_by_slot t) (addrs_by_slot t)) c.

(** [HeadCache::start_bank_session] *)
Definition start_bank_session (minimum : CommitmentLevel) (s : BankState) : BankState :=
  let c := clear_truncated (set_latest 0 (remove_committed (cache s))) in
  mkState (session s + 1) 0 (rank minimum) ∅ ∅ ∅ ∅ (next_token s) (set_proof (connect (proof c)) c).

(** [HeadCache::end_bank_session] *)
Definition end_bank_session (sess : Z) (s : BankState) : BankState :=
  if negb (session s =? sess) then s
  else
    let c := set_latest 0 (remove_committed (cache s)) in
    mkState (session s + 1) (highest s) (minimum_commitment s) ∅ ∅ ∅ ∅ (next_token s)
      (set_proof (disconnect (proof c)) c).

(** ** Acceptance and retention *)

(** [HeadCache::bank_floor] *)
Definition bank_floor (s : BankState) : Z :=
  let pending := if 0 <? minimum_commitment s then PENDING_COMMITMENT_SLOTS else 0 in
  sat_sub (Z.max (highest s) (latest_slot (cache s))) (sat_sub (retain_slots (cache s)) 1 + pending).

(** [HeadCache::accept_bank] *)
Definition accept_bank (s : BankState) (sess : Z) (key : BankKey) : bool :=
  ((session s =? sess) && (bank_floor s <=? fst key) && negb (bool_decide (key ∈ discarded s)) &&
   match canonical s !! fst key with Some winner => winner =? snd key | None => true end)%bool.

(** [HeadCache::retain_banks] *)
Definition retain_banks (s : BankState) : BankState :=
  let floor := bank_floor s in
  mkState (session s) (highest s) (minimum_commitment s)
    (filter (fun kb => floor <= fst (fst kb)) (banks s))
    (filter (fun si => floor <= fst si) (selected s))
    (filter (fun si => floor <= fst si) (canonical s))
    (filter (fun key => floor <= fst key) (discarded s)) (next_token s) (cache s).

(** [state.banks.entry(key).or_default()]: a new bank gets a token of its own, at
    Processed. *)
Definition entry_bank (key : BankKey) (s : BankState) : BankState * Bank :=
  match banks s !! key with
  | Some bank => (s, bank)
  | None =>
      let bank := mkBank None None None None [] (next_token s) None in
      let c := set_tokens (<[next_token s := 0]> (tokens (cache s))) (cache s) in
      (mkState (session s) (highest s) (minimum_commitment s) (<[key := bank]> (banks s)) (selected s)
         (canonical s) (discarded s) (next_token s + 1) c, bank)
  end.

Definition put_bank (key : BankKey) (bank : Bank) (s : BankState) : BankState :=
  set_banks (<[key := bank]> (banks s)) s.

(** ** Complete banks *)

(** The scan over the transactions with the sets of seen indices and signatures;
    [converts] says whether the transaction converts. *)
Fixpoint distinct_transactions (converts : TransactionInfo -> bool) (count : Z) (indices : gset Z)
    (signatures : gset (list Z)) (l : list TransactionInfo) : bool :=
  match l with
  | [] => true
  | tx :: rest =>
      if ((count <=? ti_index tx) || bool_decide (ti_index tx ∈ indices) ||
          bool_decide (ti_signature tx ∈ signatures) || negb (converts tx))%bool then false
      else distinct_transactions converts count ({[ti_index tx]} ∪ indices) ({[ti_signature tx]} ∪ signatures) rest
  end.

(** The scan over the sorted entries. *)
Fixpoint entries_tile (count index next : Z) (l : list EntryUpdate) : bool :=
  match l with
  | [] => next =? count
  | e :: rest =>
      if (negb (eu_index e =? index) || negb (eu_starting_transaction_index e =? next) ||
          negb (zlen (eu_hash e) =? 32))%bool then false
      else
        match checked_add next (eu_executed_transaction_count e) with
        | None => false
        | Some end_ => if count <? end_ then false else entries_tile count (index + 1) end_ rest
        end
  end.

Definition sort_entries (l : list EntryUpdate) : list EntryUpdate :=
  map snd (sort_by_key (map (fun e => (eu_index e, e)) l)).

Section Convert.
Context (stored_record : Z -> TransactionInfo -> option StoredTransactionRecord).

(** [complete_bank] *)
Definition complete_bank (bank : Bank) (slot : Z) (txs : list TransactionInfo) : bool :=
  match metadata bank with
  | None => false
  | Some m =>
      if (negb (m_executed_transaction_count m =? zlen txs) ||
          negb (m_entry_count m =? zlen (bank_entries bank)))%bool then false
      else if negb (distinct_transactions (fun tx => bool_decide (is_Some (stored_record slot tx)))
                      (zlen txs) ∅ ∅ txs) then false
      else entries_tile (m_executed_transaction_count m) 0 0 (sort_entries (bank_entries bank))
  end.

(** ** Publication *)

Definition ingest_all (slot token : Z) (l : list TransactionInfo) (c : HeadCache) : HeadCache :=
  foldl (ingest_bank_transaction stored_record slot (Some token)) c l.

(** [HeadCache::publish_bank] *)
Definition publish_bank (key : BankKey) (s : BankState) : BankState :=
  match banks s !! key with
  | None => s
  | Some bank =>
      match metadata bank, transactions bank with
      | Some m, Some l =>
          let level := decode_commitment (token_rank (cache s) (Some (commitment bank))) in
          if rank level <? minimum_commitment s then s
          else
            let slot := fst key in
            let current := selected s !! slot in
            if (match current with Some id => negb (id =? snd key) | None => false end &&
                bool_decide (level = Processed))%bool then s
            else if bool_decide (current = Some (snd key)) then
              set_cache (note_slot_commitment slot level (ingest_all slot (commitment bank) l (cache s))) s
            else
              let c := cache s in
              let c := match current with Some _ => remove_slot_inner slot c | None => c end in
              let c := note_block_metadata m c in
              let c := ingest_all slot (commitment bank) l c in
              let c := note_slot_commitment slot level c in
              let p := select_bank (mkLink (m_slot m) (m_blockhash m) (m_parent_slot m) (m_parent_blockhash m)) (proof c) in
              let p := HeadCoverage.publish slot level p in
              let p := match observed_at bank with Some t => observe slot level t p | None => p end in
              set_selected (<[slot := snd key]> (selected s)) (set_cache (set_proof p c) s)
      | _, _ => s
      end
  end.

(** ** The stream's operations *)

(** [HeadCache::stage_bank_metadata] *)
Definition stage_bank_metadata (sess bank_id : Z) (m : BlockMetadataRecord) (s : BankState) : BankState :=
  let key := (m_slot m, bank_id) in
  if negb (accept_bank s sess key) then s
  else
    let s := set_highest (Z.max (highest s) (fst key)) s in
    let '(s, bank) := entry_bank key s in
    if match sealed_hash bank with Some hash => negb (bool_decide (hash = m_blockhash m)) | None => false end then s
    else
      let bank := mkBank (Some (with_footer (footer bank) m)) (footer bank) (transactions bank)
                    (sealed_hash bank) (bank_entries bank) (commitment bank) (observed_at bank) in
      retain_banks (put_bank key bank s).

(** [HeadCache::stage_bank_footer] *)
Definition stage_bank_footer (sess slot bank_id : Z) (f : BlockFooterRecord) (s : BankState) : BankState :=
  let key := (slot, bank_id) in
  if negb (accept_bank s sess key) then s
  else
    let is_selected := bool_decide (selected s !! slot = Some bank_id) in
    let '(s, bank) := entry_bank key s in
    match footer bank with
    | Some _ => s
    | None =>
        let bank := mkBank (with_footer (Some f) <$> metadata bank) (Some f) (transactions bank)
                      (sealed_hash bank) (bank_entries bank) (commitment bank) (observed_at bank) in
        let s := put_bank key bank s in
        let b := blocks (cache s) in
        let s := if is_selected
                 then set_cache (set_blocks (mkBlocks (slot_block_height b) (slot_blockhash b) (slot_block_time b)
                                   (alter (with_footer (Some f)) slot (slot_block_metadata b))) (cache s)) s
                 else s in
        retain_banks s
    end.

(** [HeadCache::stage_bank_entry] *)
Definition stage_bank_entry (sess : Z) (e : EntryUpdate) (s : BankState) : BankState :=
  let key := (eu_slot e, eu_bank_id e) in
  if negb (accept_bank s sess key) then s
  else
    let '(s, bank) := entry_bank key s in
    match sealed_hash bank with
    | Some _ => s
    | None =>
        put_bank key (mkBank (metadata bank) (footer bank) (transactions bank) None
                        (bank_entries bank ++ [e]) (commitment bank) (observed_at bank)) s
    end.

(** [HeadCache::freeze_bank] *)
Definition freeze_bank (sess slot bank_id : Z) (hash : list Z) (l : list TransactionInfo) (s : BankState) : BankState :=
  let key := (slot, bank_id) in
  if negb (accept_bank s sess key) then s
  else
    let '(s, bank) := entry_bank key s in
    match sealed_hash bank with
    | Some _ => s
    | None =>
        if match metadata bank with Some m => negb (bool_decide (m_blockhash m = hash)) | None => true end then s
        else if negb (complete_bank bank slot l) then s
        else
          let bank := mkBank (metadata bank) (footer bank) (Some l) (Some hash) (bank_entries bank)
                        (commitment bank) (observed_at bank) in
          retain_banks (publish_bank key (put_bank key bank s))
    end.

(** The fork choice of [commit_bank]: a bank with a commitment wins its slot. *)
Definition choose_bank (key : BankKey) (s : BankState) : BankState :=
  let slot := fst key in
  let s := set_canonical (<[slot := snd key]> (canonical s)) s in
  let s :=
    match selected s !! slot with
    | Some id =>
        if negb (id =? snd key)
        then set_cache (remove_slot_inner slot (cache s)) (set_selected (delete slot (selected s)) s)
        else s
    | None => s
    end in
  let losers := List.filter (fun other => (fst other =? slot) && negb (bool_decide (other = key)))%bool
                  (map fst (map_to_list (banks s))) in
  foldl (fun s loser =>
           set_discarded ({[loser]} ∪ discarded s) (set_banks (delete loser (banks s)) s)) s losers.

(** [bank.commitment.fetch_max(rank)] and the observation time; [now] is the clock. *)
Definition raise_commitment (key : BankKey) (bank : Bank) (level : CommitmentLevel) (now : Z) (s : BankState) :
    BankState * Z :=
  let previous := token_rank (cache s) (Some (commitment bank)) in
  let c := set_tokens (<[commitment bank := Z.max previous (rank level)]> (tokens (cache s))) (cache s) in
  let observed :=
    match observed_at bank with
    | None => now
    | Some t => if previous <? rank level then now else t
    end in
  (put_bank key (mkBank (metadata bank) (footer bank) (transactions bank) (sealed_hash bank)
                   (bank_entries bank) (commitment bank) (Some observed)) (set_cache c s), observed).

(** [HeadCache::commit_bank] *)
Definition commit_bank (sess slot bank_id : Z) (level : CommitmentLevel) (parent : option Z) (now : Z)
    (s : BankState) : BankState :=
  let key := (slot, bank_id) in
  if negb (accept_bank s sess key) then s
  else
    let s := if bool_decide (level = Processed) then s else choose_bank key s in
    let s := set_highest (Z.max (highest s) slot) s in
    let '(s, bank) := entry_bank key s in
    let '(s, observed) := raise_commitment key bank level now s in
    let s := publish_bank key s in
    let p := observe slot level observed (proof (cache s)) in
    let p := if bool_decide (selected s !! slot = Some bank_id)
             then HeadCoverage.publish slot level (validate_parent slot parent p) else p in
    let p := retain slot (retain_slots (cache s)) p in
    retain_banks (set_cache (set_proof p (cache s)) s).

(** [HeadCache::discard_bank] *)
Definition discard_bank (sess slot bank_id : Z) (s : BankState) : BankState :=
  if negb (session s =? sess) then s
  else
    let key := (slot, bank_id) in
    let s := set_discarded ({[key]} ∪ discarded s) (set_banks (delete key (banks s)) s) in
    let s := if bool_decide (selected s !! slot = Some bank_id)
             then set_cache (cache_remove_slot slot (cache s)) (set_selected (delete slot (selected s)) s)
             else s in
    retain_banks s.

Inductive bank_op :=
| StartSession (minimum : CommitmentLevel)
| EndSession (sess : Z)
| StageMetadata (sess bank_id : Z) (m : BlockMetadataRecord)
| StageFooter (sess slot bank_id : Z) (f : BlockFooterRecord)
| StageEntry (sess : Z) (e : EntryUpdate)
| Freeze (sess slot bank_id : Z) (hash : list Z) (l : list TransactionInfo)
| Commit (sess slot bank_id : Z) (level : CommitmentLevel) (parent : option Z) (now : Z)
| Discard (sess slot bank_id : Z).

Definition bank_step (s : BankState) (op : bank_op) : BankState :=
  match op with
  | StartSession m => start_bank_session m s
  | EndSession sess => end_bank_session sess s
  | StageMetadata sess id m => stage_bank_metadata sess id m s
  | StageFooter sess slot id f => stage_bank_footer sess slot id f s
  | StageEntry sess e => stage_bank_entry sess e s
  | Freeze sess slot id hash l => freeze_bank sess slot id hash l s
  | Commit sess slot id level parent now => commit_bank sess slot id level parent now s
  | Discard sess slot id => discard_bank sess slot id s
  end.

End Convert.
