(* ===== verification/BanksSound.v ===== *)
(** * BanksSound: what the head cache shows is one sealed bank per slot

    The invariant of the bank protocol ([banks_ok]) and its consequences: whatever the
    subscription streams, a published block and a link of the range proof belong to the
    one selected, sealed bank of their slot at the session's minimum commitment, and a
    bank that won its slot is never replaced within the session. *)

From S2P Require Import Prelude BTree SlotCoverage HeadCoverage HeadCache Banks.

Open Scope Z_scope.

(** ** Links of the range proof *)

(** The proof holds a valid link at the slot. *)
Definition live_link (h : HeadCoverage) (slot : Z) (link : Link) : Prop :=
  exists n, (slot, n) ∈ h_nodes h /\ n_invalid n = false /\ n_link n = Some link.

Lemma update_live slot f h k link :
  head_ok h -> (forall n, n_link (f n) = n_link n) -> (forall n, n_invalid (f n) = false -> n_invalid n = false) ->
  live_link (update_node slot f h) k link -> live_link h k link.
Proof.
  intros [Hn _ _] Hl Hi (n & Hin & Hv & Hk). apply bt_insert_elem in Hin as [[-> ->]|[_ Hin]]; [|by exists n|done].
  rewrite Hl in Hk. apply Hi in Hv. destruct (bt_get slot (h_nodes h)) as [m|] eqn:E; [|done].
  apply bt_get_spec in E; [|done]. by exists m.
Qed.

Lemma invalidate_live slot h k link :
  head_ok h -> live_link (invalidate slot h) k link -> k <> slot /\ live_link h k link.
Proof.
  intros Hok Hl. split.
  - intros ->. destruct Hl as (n & Hin & Hv & _). destruct Hok as [Hn _ _].
    apply bt_insert_elem in Hin as [[_ ->]|[? _]]; done.
  - eapply update_live; [done| | |exact Hl]; done.
Qed.

Lemma retain_live slot n h k link : live_link (retain slot n h) k link -> live_link h k link.
Proof. intros (m & Hin & Hv & Hl). apply bt_split_off_elem in Hin as [Hin _]. by exists m. Qed.

Lemma invalidate_branch_live slot h k link :
  head_ok h -> live_link (invalidate_branch slot h) k link -> k <> slot /\ live_link h k link.
Proof.
  intros Hok (n & Hin & Hv & Hl). apply invalidate_loop_elem in Hin as (m & Hm & [->| ->]); [|done].
  apply invalidate_live; [done|]. by exists m.
Qed.

Lemma publish_live slot c h k link : head_ok h -> live_link (HeadCoverage.publish slot c h) k link -> live_link h k link.
Proof. intros Hok. apply update_live; [done| |]; intros n; by repeat case_match. Qed.

Lemma validate_parent_live slot parent h k link :
  head_ok h -> live_link (validate_parent slot parent h) k link -> live_link h k link.
Proof.
  intros Hok. unfold validate_parent. destruct (link_at slot (h_nodes h)), parent; try done.
  destruct (negb _); [|done]. intros Hl. by apply invalidate_branch_live in Hl as [_ Hl].
Qed.

Lemma select_bank_live link h k link' :
  head_ok h -> live_link (select_bank link h) k link' ->
  (k = l_slot link /\ link' = link) \/ (k <> l_slot link /\ live_link h k link').
Proof.
  intros Hok. unfold select_bank. set (h1 := match link_at _ _ with Some _ => _ | None => _ end).
  assert (Hok1 : head_ok h1 /\ forall k l, live_link h1 k l -> live_link h k l).
  { unfold h1. destruct (link_at _ _); [|done]. case_bool_decide; [|done].
    split; [by apply invalidate_branch_ok|]. intros k0 l0 Hl. by apply invalidate_branch_live in Hl as [_ Hl]. }
  destruct Hok1 as [[Hn _ _] Hsub]. intros (n & Hin & Hv & Hl).
  apply bt_insert_elem in Hin as [[-> ->]|[Hne Hin]]; [|right|done].
  - left. simpl in Hl. by injection Hl as ->.
  - split; [done|]. apply Hsub. by exists n.
Qed.

(** ** The cache shows no more than before *)

(** What is still visible was visible, a slot that stays visible stays committed, and
    the newest slot never goes back. *)
Record shows_less (c c' : HeadCache) : Prop := {
  sl_metadata : forall slot m, slot_block_metadata (blocks c') !! slot = Some m ->
    slot_block_metadata (blocks c) !! slot = Some m;
  sl_links : forall slot link, live_link (proof c') slot link -> live_link (proof c) slot link;
  sl_proof : head_ok (proof c');
  sl_latest : latest_slot c <= latest_slot c';
  sl_retain : retain_slots c' = retain_slots c;
  sl_tokens : tokens c' = tokens c;
  sl_committed : forall slot, is_Some (slot_block_metadata (blocks c') !! slot) ->
    is_Some (slot_commitment c !! slot) -> is_Some (slot_commitment c' !! slot);
}.

Lemma shows_less_refl c : head_ok (proof c) -> shows_less c c.
Proof. by split. Qed.

Lemma shows_less_trans a b c : shows_less a b -> shows_less b c -> shows_less a c.
Proof.
  intros [Ha1 Ha2 Ha3 Ha4 Ha5 Ha6 Ha7] [Hb1 Hb2 Hb3 Hb4 Hb5 Hb6 Hb7]. split; eauto; [lia|congruence..|].
  intros slot Hs Hc. apply Hb7; [done|]. apply Ha7; [|done]. destruct Hs as [m Hm]. exists m. by apply Hb1.
Qed.

Lemma remove_slot_inner_less slot c :
  head_ok (proof c) ->
  shows_less c (remove_slot_inner slot c) /\
  slot_block_metadata (blocks (remove_slot_inner slot c)) !! slot = None /\
  (forall link, ~ live_link (proof (remove_slot_inner slot c)) slot link) /\
  latest_slot (remove_slot_inner slot c) = latest_slot c.
Proof.
  intros Hp. unfold remove_slot_inner. cbv zeta.
  assert (Hp' : head_ok (invalidate slot (proof c))) by by apply update_node_ok.
  split; [split|]; cbn.
  - intros k m [_ E]%lookup_delete_Some. done.
  - intros k link Hl%retain_live. by apply invalidate_live in Hl as [_ Hl].
  - apply (head_step_ok _ (OpRetain (latest_slot c) (retain_slots c))). done.
  - lia.
  - done.
  - done.
  - intros k [m [Hne _]%lookup_delete_Some] Hc. by rewrite lookup_delete_ne.
  - split; [apply lookup_delete_eq|]. split; [|done].
    intros link Hl%retain_live. by apply invalidate_live in Hl as [? _].
Qed.

Lemma remove_slots_less l c :
  head_ok (proof c) ->
  shows_less c (foldl (fun c slot => remove_slot_inner slot c) c l) /\
  (forall slot, slot ∈ l ->
     slot_block_metadata (blocks (foldl (fun c slot => remove_slot_inner slot c) c l)) !! slot = None).
Proof.
  revert c. induction l as [|s l IH]; intros c Hc; cbn [foldl].
  { split; [by apply shows_less_refl|]. by intros slot ?%elem_of_nil. }
  destruct (remove_slot_inner_less s c Hc) as (Hl & Hn & _). destruct (IH _ (sl_proof _ _ Hl)) as [Hl' Hn'].
  split; [by eapply shows_less_trans|]. intros slot [->|Hs]%elem_of_cons; [|auto].
  apply eq_None_not_Some. intros [m E]. apply (sl_metadata _ _ Hl') in E. congruence.
Qed.

Lemma set_txs_less t c : head_ok (proof c) -> shows_less c (set_txs t c).
Proof. by split. Qed.

Lemma evict_old_slots_less c : head_ok (proof c) -> shows_less c (evict_old_slots c).
Proof.
  intros Hc. unfold evict_old_slots. cbv zeta. destruct (List.filter _ _) as [|s l]; [by apply shows_less_refl|].
  destruct (remove_slots_less (s :: l) c Hc) as [Hl _]. eapply shows_less_trans; [exact Hl|].
  apply set_txs_less. eapply sl_proof; eassumption.
Qed.

Lemma set_latest_less n c : head_ok (proof c) -> latest_slot c <= n -> shows_less c (set_latest n c).
Proof. by split. Qed.

Lemma advance_latest_less slot c : head_ok (proof c) -> shows_less c (advance_latest slot c).
Proof.
  intros Hc. unfold advance_latest. cbv zeta.
  assert (Hl : shows_less c (set_latest (Z.max (latest_slot c) slot) c)) by (apply set_latest_less; [done|lia]).
  destruct (latest_slot c <? slot); [|done]. eapply shows_less_trans; [exact Hl|].
  apply evict_old_slots_less. eapply sl_proof; eassumption.
Qed.

Lemma ingest_less rec slot token c tx : head_ok (proof c) -> shows_less c (ingest_bank_transaction rec slot token c tx).
Proof.
  intros Hc. unfold ingest_bank_transaction. cbv zeta. repeat (case_match; [by apply shows_less_refl|]).
  destruct (rec slot tx) as [r|]; [|by apply shows_less_refl].
  match goal with |- context [set_txs ?t c] => pose proof (set_txs_less t c Hc) as Ht; set (c1 := set_txs t c) in * end.
  destruct (latest_slot c <? slot); [|done]. eapply shows_less_trans; [exact Ht|].
  apply advance_latest_less. eapply sl_proof; eassumption.
Qed.

Lemma ingest_all_less rec slot token l c : head_ok (proof c) -> shows_less c (ingest_all rec slot token l c).
Proof.
  unfold ingest_all. revert c. induction l as [|tx l IH]; intros c Hc; cbn [foldl]; [by apply shows_less_refl|].
  pose proof (ingest_less rec slot (Some token) c tx Hc) as Ht. eapply shows_less_trans; [exact Ht|].
  apply IH. eapply sl_proof; eassumption.
Qed.

Lemma note_slot_commitment_less slot level c :
  head_ok (proof c) ->
  shows_less c (note_slot_commitment slot level c) /\
  (is_Some (slot_block_metadata (blocks (note_slot_commitment slot level c)) !! slot) ->
   is_Some (slot_commitment (note_slot_commitment slot level c) !! slot)) /\
  slot <= latest_slot (note_slot_commitment slot level c).
Proof.
  intros Hp. unfold note_slot_commitment. cbv zeta. set (noted := match _ with Some _ => _ | None => _ end).
  set (c1 := set_commitments _ _).
  assert (H1 : shows_less c c1).
  { split; cbn; try done; [lia|]. intros k _ Hk. destruct (decide (k = slot)) as [->|].
    - rewrite lookup_insert_eq. by eexists.
    - by rewrite lookup_insert_ne. }
  assert (Hc1 : is_Some (slot_commitment c1 !! slot)) by (cbn; rewrite lookup_insert_eq; by eexists).
  assert (Hlat : slot <= latest_slot c1) by (cbn; lia).
  destruct (latest_slot c <? slot); [|done].
  pose proof (evict_old_slots_less c1 (sl_proof _ _ H1)) as H2. split; [by eapply shows_less_trans|].
  split; [intros Hm; by apply (sl_committed _ _ H2)|]. pose proof (sl_latest _ _ H2). lia.
Qed.

(** Noting a bank's metadata makes it visible at its slot and nothing else. *)
Lemma note_block_metadata_spec m c :
  let c' := note_block_metadata m c in
  slot_block_metadata (blocks c') = <[m_slot m := m]> (slot_block_metadata (blocks c)) /\
  proof c' = proof c /\ latest_slot c' = latest_slot c /\ retain_slots c' = retain_slots c /\
  tokens c' = tokens c /\ slot_commitment c' = slot_commitment c.
Proof.
  cbv zeta. unfold note_block_metadata, backfill_slot_block_time. cbv zeta.
  destruct (m_block_time m); [|done]. by repeat case_match.
Qed.

(** ** The invariant of the bank protocol *)

(** A bank's pieces fit together: its metadata names its slot; it is sealed exactly when
    its transactions are known, with the hash its metadata names. *)
Record bank_ok (next : Z) (key : BankKey) (bank : Bank) : Prop := {
  bk_slot : forall m, metadata bank = Some m -> m_slot m = fst key;
  bk_sealed : forall h, sealed_hash bank = Some h -> exists m, metadata bank = Some m /\ m_blockhash m = h;
  bk_transactions : is_Some (transactions bank) <-> is_Some (sealed_hash bank);
  bk_token : commitment bank < next;
}.

(** The selected bank of the slot, sealed with the hash. *)
Definition shown (s : BankState) (slot : Z) (hash : list Z) : Prop :=
  exists id bank, selected s !! slot = Some id /\ banks s !! (slot, id) = Some bank /\ sealed_hash bank = Some hash.

Record banks_ok (s : BankState) : Prop := {
  bo_bank : forall key bank, banks s !! key = Some bank -> bank_ok (next_token s) key bank;
  bo_selected : forall slot id, selected s !! slot = Some id ->
    exists bank, banks s !! (slot, id) = Some bank /\ is_Some (sealed_hash bank) /\
      minimum_commitment s <= token_rank (cache s) (Some (commitment bank));
  bo_canonical : forall slot winner id, canonical s !! slot = Some winner ->
    is_Some (banks s !! (slot, id)) -> id = winner;
  bo_discarded : forall key, key ∈ discarded s -> banks s !! key = None;
  bo_published : forall slot m, slot_block_metadata (blocks (cache s)) !! slot = Some m ->
    bank_floor s <= slot -> shown s slot (m_blockhash m);
  bo_linked : forall slot link, live_link (proof (cache s)) slot link ->
    bank_floor s <= slot -> shown s slot (l_hash link);
  bo_committed : forall slot, is_Some (slot_block_metadata (blocks (cache s)) !! slot) ->
    is_Some (slot_commitment (cache s) !! slot);
  bo_proof : head_ok (proof (cache s));
  bo_tokens : forall a v, tokens (cache s) !! a = Some v -> 0 <= v <= 2 /\ a < next_token s;
}.

Lemma floor_mono s s' :
  minimum_commitment s' = minimum_commitment s -> retain_slots (cache s') = retain_slots (cache s) ->
  highest s <= highest s' -> latest_slot (cache s) <= latest_slot (cache s') -> bank_floor s <= bank_floor s'.
Proof. intros Em Er Hh Hl. unfold bank_floor. rewrite Em, Er. sat_lia. Qed.

Lemma token_rank_bounds c a :
  (forall a v, tokens c !! a = Some v -> 0 <= v <= 2) -> 0 <= token_rank c (Some a) <= 2.
Proof.
  intros H. unfold token_rank. destruct (tokens c !! a) as [v|] eqn:E; simpl; [by apply (H a)|lia].
Qed.

Lemma decode_rank v : 0 <= v <= 2 -> rank (decode_commitment v) = v.
Proof.
  intros Hv. unfold decode_commitment. destruct (Z.eqb_spec v 2); [simpl; lia|].
  destruct (Z.eqb_spec v 1); simpl; lia.
Qed.

(** Changing the cache to one that shows less, and raising the newest slot, is safe. *)
Lemma cache_ok s c' h :
  banks_ok s -> shows_less (cache s) c' -> highest s <= h -> banks_ok (set_highest h (set_cache c' s)).
Proof.
  intros [] [] Hh.
  assert (Hf : bank_floor s <= bank_floor (set_highest h (set_cache c' s))) by by apply floor_mono.
  assert (Ht : forall t, token_rank c' t = token_rank (cache s) t)
    by (intros [a|]; unfold token_rank; by rewrite ?sl_tokens0).
  split; cbn [set_highest set_cache banks selected canonical discarded cache next_token minimum_commitment]; try done.
  - intros slot id Hs. destruct (bo_selected0 slot id Hs) as (b & H1 & H2 & H3). exists b. by rewrite Ht.
  - intros slot m Hm Hfl. apply (bo_published0 slot m); [by apply sl_metadata0|lia].
  - intros slot link Hl Hfl. apply (bo_linked0 slot link); [by apply sl_links0|lia].
  - intros slot Hs. apply sl_committed0; [done|]. apply bo_committed0. destruct Hs as [m Hm]. exists m. auto.
  - rewrite sl_tokens0. done.
Qed.

Lemma set_cache_ok s c' : banks_ok s -> shows_less (cache s) c' -> banks_ok (set_cache c' s).
Proof.
  intros Hok Hl. pose proof (cache_ok s c' (highest s) Hok Hl ltac:(lia)) as H. by destruct s.
Qed.

Lemma set_highest_ok s h : banks_ok s -> highest s <= h -> banks_ok (set_highest h s).
Proof.
  intros Hok Hh. pose proof (cache_ok s (cache s) h Hok (shows_less_refl _ (bo_proof s Hok)) Hh) as H. by destruct s.
Qed.

Lemma retain_banks_ok s : banks_ok s -> banks_ok (retain_banks s).
Proof.
  intros []. unfold retain_banks. set (floor := bank_floor s).
  set (s' := mkState _ _ _ _ _ _ _ _ _). assert (Hf : bank_floor s' = floor) by done.
  assert (Hbanks : forall key bank, banks s' !! key = Some bank <-> banks s !! key = Some bank /\ floor <= fst key)
    by (intros key bank; apply map_lookup_filter_Some).
  assert (Hsel : forall slot id, selected s' !! slot = Some id <-> selected s !! slot = Some id /\ floor <= slot)
    by (intros slot id; apply map_lookup_filter_Some).
  assert (Hshown : forall slot h, floor <= slot -> shown s slot h -> shown s' slot h).
  { intros slot h Hfl (id & bank & H1 & H2 & H3). exists id, bank. rewrite Hsel, Hbanks. done. }
  split; try done.
  - intros key bank [Hb _]%Hbanks. by apply bo_bank0.
  - intros slot id [Hs Hfl]%Hsel. destruct (bo_selected0 slot id Hs) as (bank & Hb & Hx). exists bank.
    rewrite Hbanks. done.
  - intros slot w id [Hc _]%map_lookup_filter_Some [bank [Hb _]%Hbanks]. eapply bo_canonical0; [done|by eexists].
  - intros key [_ Hd]%elem_of_filter. apply eq_None_not_Some. intros [bank [Hb _]%Hbanks].
    rewrite bo_discarded0 in Hb; done.
  - intros slot m Hm Hfl. rewrite Hf in Hfl. apply Hshown; [done|]. by apply bo_published0.
  - intros slot link Hl Hfl. rewrite Hf in Hfl. apply Hshown; [done|]. by apply bo_linked0.
Qed.

(** ** Banks come and change *)

(** What acceptance guarantees of a bank's key. *)
Definition admissible (s : BankState) (key : BankKey) : Prop :=
  (key ∉ discarded s) /\ forall winner, canonical s !! fst key = Some winner -> snd key = winner.

Lemma accept_admissible s sess key : accept_bank s sess key = true -> admissible s key.
Proof.
  unfold accept_bank. intros H. zbool. split; [done|]. intros w Ew. rewrite Ew in *. zbool. done.
Qed.

Lemma entry_bank_ok s key s' bank :
  banks_ok s -> admissible s key -> entry_bank key s = (s', bank) ->
  banks_ok s' /\ banks s' !! key = Some bank /\ selected s' = selected s /\ canonical s' = canonical s /\
  discarded s' = discarded s /\ highest s' = highest s /\
  (is_Some (sealed_hash bank) -> banks s !! key = Some bank).
Proof.
  intros Hok [Hnd Hcan]. unfold entry_bank. destruct (banks s !! key) as [b|] eqn:E; intros [= <- <-]; [done|].
  destruct Hok. split.
  2: { cbn. rewrite lookup_insert_eq. do 5 (split; [done|]). by intros []. }
  assert (Hbk : forall k b, banks s !! k = Some b -> k <> key) by (intros k b Hk ->; congruence).
  assert (Hrank : forall a, token_rank (set_tokens (<[next_token s := 0]> (tokens (cache s))) (cache s)) (Some a) =
                            token_rank (cache s) (Some a) \/ a = next_token s).
  { intros a. destruct (decide (a = next_token s)); [by right|left]. cbn. by rewrite lookup_insert_ne. }
  split; cbn [banks selected canonical discarded cache next_token minimum_commitment set_tokens proof blocks slot_commitment tokens]; try done.
  - intros k b [[<- <-]|[Hne Hk]]%lookup_insert_Some; [by split; cbn; try lia|].
    destruct (bo_bank0 k b Hk). split; try done. lia.
  - intros slot id Hs. destruct (bo_selected0 slot id Hs) as (b & Hb & Hse & Hmin). exists b.
    rewrite lookup_insert_ne by (intros ->; congruence). split; [done|]. split; [done|].
    destruct (Hrank (commitment b)) as [->|Ht]; [done|]. destruct (bo_bank0 _ _ Hb). lia.
  - intros slot w id Hc [b Hb]. apply lookup_insert_Some in Hb as [[-> _]|[_ Hb]]; [by apply Hcan|].
    eapply bo_canonical0; [done|by eexists].
  - intros k Hk. rewrite lookup_insert_ne by (intros ->; done). auto.
  - intros slot m Hm Hfl. destruct (bo_published0 slot m Hm Hfl) as (id & b & H1 & H2 & H3). exists id, b. cbn.
    rewrite lookup_insert_ne by (intros ->; congruence). done.
  - intros slot link Hl Hfl. destruct (bo_linked0 slot link Hl Hfl) as (id & b & H1 & H2 & H3). exists id, b. cbn.
    rewrite lookup_insert_ne by (intros ->; congruence). done.
  - intros a v [[<- <-]|[_ Ha]]%lookup_insert_Some; [lia|]. destruct (bo_tokens0 a v Ha). lia.
Qed.

Lemma put_bank_ok s key old bank :
  banks_ok s -> banks s !! key = Some old -> bank_ok (next_token s) key bank -> commitment bank = commitment old ->
  (forall h, sealed_hash old = Some h -> sealed_hash bank = Some h) -> banks_ok (put_bank key bank s).
Proof.
  intros [] Hold Hbank Hc Hseal. unfold put_bank.
  assert (Hget : forall k b, banks s !! k = Some b -> exists b', <[key := bank]> (banks s) !! k = Some b' /\
    commitment b' = commitment b /\ forall h, sealed_hash b = Some h -> sealed_hash b' = Some h).
  { intros k b Hk. destruct (decide (k = key)) as [->|].
    - exists bank. rewrite lookup_insert_eq. assert (b = old) as -> by congruence. done.
    - exists b. by rewrite lookup_insert_ne. }
  assert (Hshown : forall slot h, shown s slot h -> shown (set_banks (<[key := bank]> (banks s)) s) slot h).
  { intros slot h (id & b & H1 & H2 & H3). destruct (Hget _ _ H2) as (b' & H4 & _ & H5). exists id, b'. auto. }
  assert (Hsome : forall k, is_Some (<[key := bank]> (banks s) !! k) -> is_Some (banks s !! k)).
  { intros k [b [[<- _]|[_ Hb]]%lookup_insert_Some]; by eexists. }
  split; cbn [set_banks banks selected canonical discarded cache next_token minimum_commitment]; try done.
  - intros k b [[<- <-]|[_ Hk]]%lookup_insert_Some; [done|by apply bo_bank0].
  - intros slot id Hs. destruct (bo_selected0 slot id Hs) as (b & Hb & [h Hh] & Hmin).
    destruct (Hget _ _ Hb) as (b' & H1 & H2 & H3). exists b'. split; [done|]. split; [exists h; auto|]. by rewrite H2.
  - intros slot w id Hcw Hb. eapply bo_canonical0; [done|by apply Hsome].
  - intros k Hk. apply eq_None_not_Some. intros Hs%Hsome. rewrite bo_discarded0 in Hs by done. by destruct Hs.
  - intros slot m Hm Hfl. apply Hshown. by apply bo_published0.
  - intros slot link Hl Hfl. apply Hshown. by apply bo_linked0.
Qed.

(** ** Selecting a bank *)

Section Convert.
Context (stored_record : Z -> TransactionInfo -> option StoredTransactionRecord).

(** The cache after a newly selected bank was projected into [c]. *)
Definition projected (slot token : Z) (m : BlockMetadataRecord) (l : list TransactionInfo)
    (level : CommitmentLevel) (seen : option Z) (c : HeadCache) : HeadCache :=
  let c := note_slot_commitment slot level (ingest_all stored_record slot token l (note_block_metadata m c)) in
  let p := HeadCoverage.publish slot level
             (select_bank (mkLink (m_slot m) (m_blockhash m) (m_parent_slot m) (m_parent_blockhash m)) (proof c)) in
  set_proof (match seen with Some t => observe slot level t p | None => p end) c.

(** It shows the bank at its slot and elsewhere no more than before. *)
Record shows_bank (slot : Z) (hash : list Z) (c c' : HeadCache) : Prop := {
  sb_metadata : forall k m', slot_block_metadata (blocks c') !! k = Some m' ->
    (k = slot /\ m_blockhash m' = hash) \/ (k <> slot /\ slot_block_metadata (blocks c) !! k = Some m');
  sb_links : forall k link, live_link (proof c') k link ->
    (k = slot /\ l_hash link = hash) \/ (k <> slot /\ live_link (proof c) k link);
  sb_proof : head_ok (proof c');
  sb_latest : latest_slot c <= latest_slot c';
  sb_retain : retain_slots c' = retain_slots c;
  sb_tokens : tokens c' = tokens c;
  sb_committed : forall k, is_Some (slot_block_metadata (blocks c') !! k) ->
    k = slot \/ is_Some (slot_commitment c !! k) -> is_Some (slot_commitment c' !! k);
}.

Lemma projected_shows slot token m l level seen c :
  head_ok (proof c) -> m_slot m = slot ->
  shows_bank slot (m_blockhash m) c (projected slot token m l level seen c).
Proof.
  intros Hp Hm. unfold projected.
  destruct (note_block_metadata_spec m c) as (E1 & E2 & E3 & E4 & E5 & E6).
  set (c1 := note_block_metadata m c) in *. rewrite <- E2 in Hp.
  pose proof (ingest_all_less stored_record slot token l c1 Hp) as L1. set (c2 := ingest_all _ _ _ _ _) in *.
  destruct (note_slot_commitment_less slot level c2 (sl_proof _ _ L1)) as (L2 & Hcom & _).
  set (c3 := note_slot_commitment _ _ _) in *. pose proof (shows_less_trans _ _ _ L1 L2) as [M1 M2 M3 M4 M5 M6 M7].
  set (link := mkLink _ _ _ _). set (p := select_bank link (proof c3)).
  assert (Hp' : head_ok p) by by apply select_bank_ok.
  assert (Hq : head_ok (HeadCoverage.publish slot level p)) by by apply (head_step_ok _ (OpPublish slot level)).
  assert (Hlinks : forall k lk, live_link p k lk -> (k = slot /\ l_hash lk = m_blockhash m) \/ (k <> slot /\ live_link (proof c) k lk)).
  { intros k lk Hl. apply select_bank_live in Hl as [[-> ->]|[Hne Hl]]; [left|right|done]; cbn [link l_slot l_hash] in *; [done|].
    split; [congruence|]. rewrite <- E2. by apply M2. }
  split; cbn [set_proof proof blocks latest_slot retain_slots tokens slot_commitment].
  - intros k m' Hk%M1. rewrite E1, Hm in Hk. apply lookup_insert_Some in Hk as [[<- <-]|[Hne Hk]]; [by left|right].
    by split.
  - intros k lk Hl. apply Hlinks, (publish_live slot level); [done|]. by destruct seen.
  - destruct seen; [by apply observe_ok|done].
  - lia.
  - congruence.
  - congruence.
  - intros k Hk [->|Hc]; [by apply Hcom|]. apply M7; [done|]. by rewrite E6.
Qed.

Lemma shows_bank_after slot hash a b c :
  shows_less a b -> shows_bank slot hash b c -> shows_bank slot hash a c.
Proof.
  intros [A1 A2 A3 A4 A5 A6 A7] [B1 B2 B3 B4 B5 B6 B7]. split; try done; [| |lia|congruence|congruence|].
  - intros k m Hk. destruct (B1 k m Hk) as [|[Hne Hb]]; [by left|right; auto].
  - intros k l Hk. destruct (B2 k l Hk) as [|[Hne Hb]]; [by left|right; auto].
  - intros k Hk Hc. apply B7; [done|]. destruct (decide (k = slot)); [by left|]. right.
    destruct Hc as [|Hc]; [done|]. apply A7; [|done]. destruct Hk as [m Hm].
    destruct (B1 k m Hm) as [[? _]|[_ Hb]]; [done|by exists m].
Qed.

Lemma select_ok s slot id bank h c' :
  banks_ok s -> banks s !! (slot, id) = Some bank -> sealed_hash bank = Some h ->
  minimum_commitment s <= token_rank (cache s) (Some (commitment bank)) ->
  shows_bank slot h (cache s) c' ->
  banks_ok (set_selected (<[slot := id]> (selected s)) (set_cache c' s)).
Proof.
  intros [] Hb Hh Hmin [].
  set (s' := set_selected _ _).
  assert (Hf : bank_floor s <= bank_floor s') by by apply floor_mono.
  assert (Ht : forall t, token_rank c' t = token_rank (cache s) t)
    by (intros [a|]; unfold token_rank; by rewrite ?sb_tokens0).
  assert (Hnew : shown s' slot h) by (exists id, bank; cbn; by rewrite lookup_insert_eq).
  assert (Hother : forall k h', k <> slot -> shown s k h' -> shown s' k h').
  { intros k h' Hne (id' & b' & H1 & H2 & H3). exists id', b'. cbn. by rewrite lookup_insert_ne. }
  split; cbn [s' set_selected set_cache banks selected canonical discarded cache next_token minimum_commitment]; try done.
  - intros k i [[<- <-]|[Hne Hk]]%lookup_insert_Some.
    + exists bank. rewrite Ht. split; [done|]. split; [by eexists|done].
    + destruct (bo_selected0 k i Hk) as (b & H1 & H2 & H3). exists b. by rewrite Ht.
  - intros k m Hk Hfl. destruct (sb_metadata0 k m Hk) as [[-> <-]|[Hne Hm]]; [done|].
    apply Hother; [done|]. apply bo_published0; [done|lia].
  - intros k l Hk Hfl. destruct (sb_links0 k l Hk) as [[-> <-]|[Hne Hm]]; [done|].
    apply Hother; [done|]. apply bo_linked0; [done|lia].
  - intros k Hk. apply sb_committed0; [done|]. destruct Hk as [m Hm].
    destruct (sb_metadata0 k m Hm) as [[? _]|[_ Hc]]; [by left|right]. apply bo_committed0. by exists m.
  - rewrite sb_tokens0. done.
Qed.

Lemma publish_bank_ok s key : banks_ok s -> banks_ok (publish_bank stored_record key s).
Proof.
  intros Hok. unfold publish_bank. destruct (banks s !! key) as [bank|] eqn:Eb; [|done].
  destruct (metadata bank) as [m|] eqn:Em; [|done]. destruct (transactions bank) as [l|] eqn:El; [|done].
  destruct (bo_bank s Hok key bank Eb) as [Hslot Hseal [Htx _] _].
  destruct (Htx ltac:(by eexists)) as [h Hh]. destruct (Hseal h Hh) as (m' & Em' & Hm).
  assert (m' = m) as -> by congruence. clear Em' Htx Hseal.
  set (v := token_rank (cache s) (Some (commitment bank))).
  assert (Hv : rank (decode_commitment v) = v).
  { apply decode_rank, token_rank_bounds. intros a w Ha. by destruct (bo_tokens s Hok a w Ha). }
  set (level := decode_commitment v) in *. cbv zeta.
  destruct (Z.ltb_spec (rank level) (minimum_commitment s)) as [|Hmin]; [done|].
  destruct (_ && _)%bool; [done|]. case_bool_decide as Ecur.
  { apply set_cache_ok; [done|]. pose proof (ingest_all_less stored_record (fst key) (commitment bank) l _ (bo_proof s Hok)) as L.
    eapply shows_less_trans; [exact L|]. apply note_slot_commitment_less. apply L. }
  destruct key as [slot id]. cbn [fst snd] in *.
  set (c0 := match selected s !! slot with Some _ => _ | None => _ end).
  assert (L0 : shows_less (cache s) c0).
  { unfold c0. destruct (selected s !! slot); [apply remove_slot_inner_less|apply shows_less_refl]; apply Hok. }
  apply (select_ok s slot id bank h); [done|done|done|rewrite Hv in Hmin; exact Hmin|].
  eapply shows_bank_after; [exact L0|]. rewrite <- Hm.
  apply (projected_shows slot (commitment bank) m l level (observed_at bank) c0); [apply L0|by apply Hslot].
Qed.

(** ** Choosing and discarding *)

(** The slot's selection is dropped together with everything the cache shows of it. *)
Lemma deselect_ok s slot c' :
  banks_ok s -> shows_less (cache s) c' -> slot_block_metadata (blocks c') !! slot = None ->
  (forall link, ~ live_link (proof c') slot link) ->
  banks_ok (set_cache c' (set_selected (delete slot (selected s)) s)).
Proof.
  intros Hok Hless Hmeta Hlink. pose proof (set_cache_ok s c' Hok Hless) as [].
  set (s' := set_cache c' _).
  assert (Hshown : forall k h, k <> slot -> shown (set_cache c' s) k h -> shown s' k h).
  { intros k h Hne (id & b & H1 & H2 & H3). exists id, b. cbn in *. by rewrite lookup_delete_ne. }
  split; cbn [s' set_cache set_selected banks selected canonical discarded cache next_token minimum_commitment] in *; try done.
  - intros k id [_ Hk]%lookup_delete_Some. by apply bo_selected0.
  - intros k m Hk Hfl. apply Hshown; [intros ->; congruence|]. by apply bo_published0.
  - intros k l Hk Hfl. apply Hshown; [intros ->; by eapply Hlink|]. by apply bo_linked0.
Qed.

(** Banks that are neither selected nor needed leave for good. *)
Lemma drop_bank_ok s key :
  banks_ok s -> selected s !! fst key <> Some (snd key) ->
  banks_ok (set_discarded ({[key]} ∪ discarded s) (set_banks (delete key (banks s)) s)).
Proof.
  intros [] Hns. set (s' := set_discarded _ _).
  assert (Hkeep : forall k id, selected s !! k = Some id -> delete key (banks s) !! (k, id) = banks s !! (k, id)).
  { intros k id Hk. apply lookup_delete_ne. intros ->. done. }
  assert (Hshown : forall k h, shown s k h -> shown s' k h).
  { intros k h (id & b & H1 & H2 & H3). exists id, b. cbn. by rewrite Hkeep. }
  split; cbn [s' set_discarded set_banks banks selected canonical discarded cache next_token minimum_commitment]; try done.
  - intros k b [_ Hk]%lookup_delete_Some. by apply bo_bank0.
  - intros k id Hk. rewrite Hkeep by done. by apply bo_selected0.
  - intros k w id Hc [b [_ Hb]%lookup_delete_Some]. eapply bo_canonical0; [done|by eexists].
  - intros k [->%elem_of_singleton|Hk]%elem_of_union; [apply lookup_delete_eq|].
    apply lookup_delete_None. right. auto.
  - intros k m Hm Hfl. apply Hshown. by apply bo_published0.
  - intros k l Hl Hfl. apply Hshown. by apply bo_linked0.
Qed.

Definition drop_banks (s : BankState) (l : list BankKey) : BankState :=
  foldl (fun s loser => set_discarded ({[loser]} ∪ discarded s) (set_banks (delete loser (banks s)) s)) s l.

Lemma drop_banks_ok l s :
  banks_ok s -> Forall (fun key => selected s !! fst key <> Some (snd key)) l ->
  banks_ok (drop_banks s l) /\ selected (drop_banks s l) = selected s /\ canonical (drop_banks s l) = canonical s /\
  highest (drop_banks s l) = highest s /\ session (drop_banks s l) = session s /\
  (forall key, is_Some (banks (drop_banks s l) !! key) <-> is_Some (banks s !! key) /\ key ∉ l) /\
  (forall key, key ∈ discarded (drop_banks s l) <-> key ∈ discarded s \/ key ∈ l).
Proof.
  intros Hok Hall. unfold drop_banks. revert s Hok Hall. induction l as [|a l IH]; intros s Hok Hall; cbn [foldl].
  { do 5 (split; [done|]). split; intros key; set_solver. }
  apply Forall_cons in Hall as [Ha Hall].
  destruct (IH _ (drop_bank_ok s a Hok Ha) Hall) as (H1 & H2 & H3 & H4 & H5 & H6 & H7).
  do 5 (split; [done|]). split; intros key.
  - rewrite H6. cbn [set_discarded set_banks banks]. rewrite lookup_delete_is_Some. set_solver.
  - rewrite H7. cbn [set_discarded discarded]. set_solver.
Qed.

Lemma set_canonical_ok s slot id :
  banks_ok s -> (forall other, is_Some (banks s !! (slot, other)) -> other = id) ->
  banks_ok (set_canonical (<[slot := id]> (canonical s)) s).
Proof.
  intros [] Hone. split; try done. cbn [set_canonical canonical banks].
  intros k w i [[<- <-]|[_ Hk]]%lookup_insert_Some Hb; [by apply Hone|].
  by eapply bo_canonical0.
Qed.

Lemma drop_banks_canonical can l s : drop_banks (set_canonical can s) l = set_canonical can (drop_banks s l).
Proof. unfold drop_banks. revert s. induction l as [|a l IH]; intros s; cbn [foldl]; [done|]. by rewrite <- IH. Qed.

(** The selection of [slot] is dropped unless it is [id]. *)
Definition deselect_other (slot id : Z) (s : BankState) : BankState :=
  match selected s !! slot with
  | Some i => if negb (i =? id)
              then set_cache (remove_slot_inner slot (cache s)) (set_selected (delete slot (selected s)) s) else s
  | None => s
  end.

Lemma deselect_other_ok slot id s :
  banks_ok s ->
  let s' := deselect_other slot id s in
  banks_ok s' /\ banks s' = banks s /\ discarded s' = discarded s /\ canonical s' = canonical s /\
  highest s' = highest s /\ session s' = session s /\ (forall i, selected s' !! slot = Some i -> i = id).
Proof.
  intros Hok. cbv zeta. unfold deselect_other.
  destruct (selected s !! slot) as [i|] eqn:Ei; [|split; [done|]; do 5 (split; [done|]); congruence].
  destruct (Z.eqb_spec i id); cbn [negb]; [split; [done|]; do 5 (split; [done|]); congruence|].
  destruct (remove_slot_inner_less slot (cache s) (bo_proof s Hok)) as (L & H1 & H2 & _).
  split; [by apply deselect_ok|]. do 5 (split; [done|]). cbn. intros j. by rewrite lookup_delete_eq.
Qed.

(** The other banks of the slot. *)
Definition losers (key : BankKey) (s : BankState) : list BankKey :=
  List.filter (fun other => (fst other =? fst key) && negb (bool_decide (other = key)))%bool
    (map fst (map_to_list (banks s))).

Lemma losers_elem key s k : k ∈ losers key s <-> is_Some (banks s !! k) /\ fst k = fst key /\ k <> key.
Proof.
  clear stored_record. unfold losers. rewrite elem_of_filter_b, andb_true_iff, Z.eqb_eq, negb_true_iff, bool_decide_eq_false.
  assert (k ∈ map fst (map_to_list (banks s)) <-> is_Some (banks s !! k)); [|tauto].
  rewrite list_elem_of_fmap. split.
  - intros ([k' b] & -> & Hin%elem_of_map_to_list). by exists b.
  - intros [b Hb]. exists (k, b). split; [done|]. by apply elem_of_map_to_list.
Qed.

(** The canonical map may as well be written last. *)
Lemma choose_bank_eq key s :
  choose_bank key s =
  set_canonical (<[fst key := snd key]> (canonical s))
    (drop_banks (deselect_other (fst key) (snd key) s) (losers key (deselect_other (fst key) (snd key) s))).
Proof.
  rewrite <- drop_banks_canonical. unfold choose_bank, deselect_other, losers, drop_banks. cbn [set_canonical selected].
  destruct (selected s !! fst key) as [i|]; [|done]. by destruct (negb (i =? snd key)).
Qed.

(** After the fork choice the winner is the only bank of its slot. *)
Lemma choose_bank_ok s key :
  banks_ok s -> admissible s key ->
  let s' := choose_bank key s in
  banks_ok s' /\ admissible s' key /\ canonical s' = <[fst key := snd key]> (canonical s) /\
  highest s' = highest s /\ session s' = session s.
Proof.
  intros Hok [Hnd Hcan]. cbv zeta. rewrite choose_bank_eq. destruct key as [slot id]. cbn [fst snd] in *.
  destruct (deselect_other_ok slot id s Hok) as (Hok1 & Eb & Ed & Ec & Eh & Ese & Hone).
  set (s1 := deselect_other slot id s) in *.
  destruct (drop_banks_ok (losers (slot, id) s1) s1 Hok1) as (H1 & H2 & H3 & H4 & H5 & H6 & H7).
  { apply Forall_forall. intros [k i] (_ & Hk & Hne)%losers_elem Hs. cbn [fst snd] in *. subst k.
    apply Hne. by rewrite (Hone i Hs). }
  split; [|split; [|split; [done|split; [cbn; congruence|cbn; congruence]]]].
  - rewrite <- Ec, <- H3. apply set_canonical_ok; [done|]. intros other [Hb Hn]%H6.
    destruct (decide (other = id)) as [|Hne]; [done|]. exfalso. apply Hn, losers_elem.
    split; [done|]. split; [done|congruence].
  - split; cbn [set_canonical discarded canonical fst snd].
    + rewrite H7, Ed. intros [|Hl%losers_elem]; [done|]. by destruct Hl as (_ & _ & ?).
    + intros w. rewrite lookup_insert_eq. congruence.
Qed.

Lemma raise_commitment_ok s key bank level now s' observed :
  banks_ok s -> banks s !! key = Some bank -> raise_commitment key bank level now s = (s', observed) ->
  banks_ok s'.
Proof.
  intros Hok Hb. unfold raise_commitment. intros [= <- _].
  set (v := token_rank (cache s) (Some (commitment bank))).
  assert (Hrank : forall t, token_rank (cache s) t <=
    token_rank (set_tokens (<[commitment bank := Z.max v (rank level)]> (tokens (cache s))) (cache s)) t).
  { intros [a|]; [|done]. cbn [token_rank set_tokens tokens]. destruct (decide (a = commitment bank)) as [->|].
    - rewrite lookup_insert_eq. cbn. unfold v. cbn. lia.
    - rewrite lookup_insert_ne by done. lia. }
  pose proof (bo_bank s Hok key bank Hb) as [B1 B2 B3 B4].
  assert (Hs1 : banks_ok (set_cache (set_tokens (<[commitment bank := Z.max v (rank level)]> (tokens (cache s))) (cache s)) s)).
  { pose proof Hok as []. split; cbn [set_cache banks selected canonical discarded cache next_token minimum_commitment set_tokens blocks proof slot_commitment tokens]; try done.
    - intros slot id Hs. destruct (bo_selected0 slot id Hs) as (b & H1 & H2 & H3). exists b.
      split; [done|]. split; [done|]. pose proof (Hrank (Some (commitment b))). lia.
    - intros a w [[<- <-]|[_ Ha]]%lookup_insert_Some; [|by apply bo_tokens0]. split; [|done].
      assert (0 <= v <= 2) by (apply token_rank_bounds; intros a w Ha; by destruct (bo_tokens0 a w Ha)).
      destruct level; cbn [rank]; lia. }
  eapply put_bank_ok; [exact Hs1|exact Hb| |done|done]. by split.
Qed.

(** ** Every operation of the stream *)

Lemma stage_bank_metadata_ok sess id m s : banks_ok s -> banks_ok (stage_bank_metadata sess id m s).
Proof.
  intros Hok. unfold stage_bank_metadata. cbv zeta. destruct (accept_bank s sess (m_slot m, id)) eqn:Ea; [|done].
  cbn [negb]. apply accept_admissible in Ea.
  assert (Hok1 : banks_ok (set_highest (Z.max (highest s) (m_slot m)) s)) by (apply set_highest_ok; [done|lia]).
  destruct (entry_bank _ _) as [s1 bank] eqn:Ee. apply entry_bank_ok in Ee as (Hok2 & Hb & _); [|done|done].
  pose proof (bo_bank _ Hok2 _ _ Hb) as [B1 B2 B3 B4].
  destruct (match sealed_hash bank with Some _ => _ | None => _ end) eqn:Es; [done|].
  apply retain_banks_ok. eapply put_bank_ok; [done|exact Hb| |done|done].
  split; cbn; [by intros m' [= <-]| |done|done]. intros h Hh. eexists. split; [done|]. cbn.
  rewrite Hh in Es. zbool. done.
Qed.

Lemma stage_bank_footer_ok sess slot id f s : banks_ok s -> banks_ok (stage_bank_footer sess slot id f s).
Proof.
  intros Hok. unfold stage_bank_footer. cbv zeta. destruct (accept_bank s sess (slot, id)) eqn:Ea; [|done].
  cbn [negb]. apply accept_admissible in Ea.
  destruct (entry_bank _ _) as [s1 bank] eqn:Ee. apply entry_bank_ok in Ee as (Hok2 & Hb & Hsel & _); [|done|done].
  destruct (footer bank); [done|]. pose proof (bo_bank _ Hok2 _ _ Hb) as [B1 B2 B3 B4].
  apply retain_banks_ok. set (b' := mkBank _ _ _ _ _ _ _). set (s2 := put_bank _ _ _).
  assert (Hok3 : banks_ok s2).
  { eapply put_bank_ok; [done|exact Hb| |done|done]. split; cbn; [| |done|done].
    - intros m (m0 & E & ->)%fmap_Some. exact (B1 m0 E).
    - intros h (m0 & E & <-)%B2. rewrite E. by eexists. }
  case_bool_decide; [|done]. destruct Hok3.
  split; cbn [set_cache banks selected canonical discarded cache next_token minimum_commitment set_blocks blocks proof slot_commitment tokens slot_block_metadata]; try done.
  - intros k m. rewrite lookup_alter_Some. intros [[<- (m0 & E & ->)]|[_ E]] Hfl; [|by apply bo_published0].
    apply (bo_published0 slot m0); done.
  - intros k [m Hm]. apply bo_committed0. apply lookup_alter_Some in Hm as [[<- (m0 & E & _)]|[_ E]]; by eexists.
Qed.

Lemma stage_bank_entry_ok sess e s : banks_ok s -> banks_ok (stage_bank_entry sess e s).
Proof.
  intros Hok. unfold stage_bank_entry. cbv zeta. destruct (accept_bank s sess _) eqn:Ea; [|done].
  cbn [negb]. apply accept_admissible in Ea.
  destruct (entry_bank _ _) as [s1 bank] eqn:Ee. apply entry_bank_ok in Ee as (Hok2 & Hb & _); [|done|done].
  pose proof (bo_bank _ Hok2 _ _ Hb) as [B1 B2 B3 B4]. destruct (sealed_hash bank) eqn:Es; [done|].
  eapply put_bank_ok; [done|exact Hb| |done|by rewrite Es]. by split.
Qed.

(** Sealing a bank whose metadata names the hash. *)
Lemma seal_bank_ok s key bank m l :
  banks_ok s -> banks s !! key = Some bank -> sealed_hash bank = None -> metadata bank = Some m ->
  banks_ok (put_bank key (mkBank (metadata bank) (footer bank) (Some l) (Some (m_blockhash m)) (bank_entries bank)
                            (commitment bank) (observed_at bank)) s).
Proof.
  intros Hok Hb Es Em. pose proof (bo_bank _ Hok _ _ Hb) as [B1 B2 B3 B4].
  eapply put_bank_ok; [done|exact Hb| |done|by rewrite Es]. split; cbn; [done| | |done].
  - intros h [= <-]. by exists m.
  - split; by eexists.
Qed.

Lemma freeze_bank_ok sess slot id hash l s : banks_ok s -> banks_ok (freeze_bank stored_record sess slot id hash l s).
Proof.
  intros Hok. unfold freeze_bank. cbv zeta. destruct (accept_bank s sess _) eqn:Ea; [|done].
  cbn [negb]. apply accept_admissible in Ea.
  destruct (entry_bank _ _) as [s1 bank] eqn:Ee. apply entry_bank_ok in Ee as (Hok2 & Hb & _); [|done|done].
  destruct (sealed_hash bank) eqn:Es; [done|]. destruct (metadata bank) as [m|] eqn:Em; [|done].
  case_bool_decide as Eh; cbn [negb]; [|done]. destruct (complete_bank _ _ _ _); cbn [negb]; [|done].
  apply retain_banks_ok, publish_bank_ok. rewrite <- Em, <- Eh. by apply seal_bank_ok.
Qed.

Lemma set_proof_less p c :
  head_ok p -> (forall k l, live_link p k l -> live_link (proof c) k l) -> shows_less c (set_proof p c).
Proof. by split. Qed.

Lemma commit_bank_ok sess slot id level parent now s :
  banks_ok s -> banks_ok (commit_bank stored_record sess slot id level parent now s).
Proof.
  intros Hok. unfold commit_bank. cbv zeta. destruct (accept_bank s sess _) eqn:Ea; [|done].
  cbn [negb]. apply accept_admissible in Ea. set (s1 := if bool_decide (level = Processed) then s else _).
  assert (H1 : banks_ok s1 /\ admissible s1 (slot, id)).
  { unfold s1. case_bool_decide; [done|]. by destruct (choose_bank_ok s (slot, id) Hok Ea) as (? & ? & _). }
  destruct H1 as [Hok1 Had1]. set (s2 := set_highest _ s1).
  assert (Hok2 : banks_ok s2) by (apply set_highest_ok; [done|lia]).
  destruct (entry_bank _ s2) as [s3 bank] eqn:Ee. apply entry_bank_ok in Ee as (Hok3 & Hb & _); [|done|done].
  destruct (raise_commitment _ _ _ _ _) as [s4 observed] eqn:Er. apply raise_commitment_ok in Er; [|done|done].
  pose proof (publish_bank_ok s4 (slot, id) Er) as Hok5. set (s5 := publish_bank _ _ _) in *.
  apply retain_banks_ok, set_cache_ok; [done|]. pose proof (bo_proof _ Hok5) as Hp.
  set (p1 := observe slot level observed (proof (cache s5))).
  assert (Hp1 : head_ok p1) by by apply observe_ok.
  set (p2 := if bool_decide _ then _ else p1).
  assert (Hp2 : head_ok p2 /\ forall k l, live_link p2 k l -> live_link p1 k l).
  { unfold p2. case_bool_decide; [|done].
    assert (Hv : head_ok (validate_parent slot parent p1)) by by apply (head_step_ok _ (OpValidateParent slot parent)).
    split; [by apply (head_step_ok _ (OpPublish slot level))|].
    intros k l Hl. eapply validate_parent_live; [done|]. by eapply publish_live. }
  destruct Hp2 as [Hp2 Hl2]. apply set_proof_less.
  - by apply (head_step_ok _ (OpRetain slot (retain_slots (cache s5)))).
  - intros k l Hl%retain_live. apply Hl2 in Hl. done.
Qed.

Lemma discard_bank_ok sess slot id s : banks_ok s -> banks_ok (discard_bank sess slot id s).
Proof.
  intros Hok. unfold discard_bank. cbv zeta. destruct (session s =? sess); [|done]. cbn [negb].
  apply retain_banks_ok. cbn [set_discarded set_banks selected cache].
  case_bool_decide as Es; [|by apply drop_bank_ok].
  set (p := invalidate_branch slot (proof (cache s))).
  assert (Hp : head_ok p) by apply invalidate_branch_ok, Hok.
  assert (L0 : shows_less (cache s) (set_proof p (cache s))).
  { apply set_proof_less; [done|]. intros k l Hl. by apply invalidate_branch_live in Hl as [_ Hl]; [|apply Hok]. }
  destruct (remove_slot_inner_less slot (set_proof p (cache s)) Hp) as (L1 & Hm & Hl & _).
  pose proof (deselect_ok s slot _ Hok (shows_less_trans _ _ _ L0 L1) Hm Hl) as Hok1.
  apply (drop_bank_ok _ (slot, id)) in Hok1; [done|]. cbn. by rewrite lookup_delete_eq.
Qed.

(** With nothing visible and no banks there is nothing to relate. *)
Lemma empty_state_ok sess h mc next c :
  (forall slot, slot_block_metadata (blocks c) !! slot = None) -> (forall slot link, ~ live_link (proof c) slot link) ->
  head_ok (proof c) -> (forall a v, tokens c !! a = Some v -> 0 <= v <= 2 /\ a < next) ->
  banks_ok (mkState sess h mc ∅ ∅ ∅ ∅ next c).
Proof.
  intros Hm Hl Hp Ht. split; cbn [banks selected canonical discarded cache next_token]; try done.
  - intros slot m. by rewrite Hm.
  - intros slot link Hlk. by apply Hl in Hlk.
  - intros slot [m Es]. by rewrite Hm in Es.
Qed.

(** Leaving a session removes every published block. *)
Lemma remove_committed_spec s :
  banks_ok s ->
  shows_less (cache s) (remove_committed (cache s)) /\
  forall slot, slot_block_metadata (blocks (remove_committed (cache s))) !! slot = None.
Proof.
  intros Hok. destruct (remove_slots_less (committed_slots (cache s)) (cache s) (bo_proof s Hok)) as [L Hn].
  split; [exact L|]. intros slot. apply eq_None_not_Some. intros [m Hm].
  pose proof (sl_metadata _ _ L _ _ Hm) as Hm'. destruct (bo_committed s Hok slot) as [lv Hlv]; [by eexists|].
  rewrite Hn in Hm; [done|]. apply list_elem_of_fmap. exists (slot, lv). split; [done|]. by apply elem_of_map_to_list.
Qed.

Lemma no_live_default : forall slot link, ~ live_link HeadCoverage_default slot link.
Proof. by intros slot link (n & ?%elem_of_nil & _). Qed.

Lemma bank_step_ok s op : banks_ok s -> banks_ok (bank_step stored_record s op).
Proof.
  intros Hok. destruct op as [m|sess|sess id m|sess slot id f|sess e|sess slot id hash l|sess slot id level parent now|sess slot id];
    cbn [bank_step].
  - destruct (remove_committed_spec s Hok) as [L Hn]. apply empty_state_ok; [done| |apply connect_ok|].
    + by intros slot link (n & ?%elem_of_nil & _).
    + cbn. rewrite (sl_tokens _ _ L). apply Hok.
  - unfold end_bank_session. destruct (session s =? sess); cbn [negb]; [|done].
    destruct (remove_committed_spec s Hok) as [L Hn]. apply empty_state_ok; [done|apply no_live_default|apply head_default_ok|].
    cbn. rewrite (sl_tokens _ _ L). apply Hok.
  - by apply stage_bank_metadata_ok.
  - by apply stage_bank_footer_ok.
  - by apply stage_bank_entry_ok.
  - by apply freeze_bank_ok.
  - by apply commit_bank_ok.
  - by apply discard_bank_ok.
Qed.

Lemma state_new_ok n k : banks_ok (state_new n k).
Proof.
  apply empty_state_ok; cbn; [done|apply no_live_default|apply head_default_ok|].
  intros a v. by rewrite lookup_empty.
Qed.

Lemma bank_run_ok ops s : banks_ok s -> banks_ok (foldl (bank_step stored_record) s ops).
Proof. revert s. induction ops as [|op ops IH]; intros s Hok; [done|]. by apply IH, bank_step_ok. Qed.

(** ** Within a session *)

(** [s'] continues the session of [s]: its floor never sinks, and a slot's winner stays
    until the slot falls below the floor. *)
Record later (s s' : BankState) : Prop := {
  la_session : session s' = session s;
  la_minimum : minimum_commitment s' = minimum_commitment s;
  la_retain : retain_slots (cache s') = retain_slots (cache s);
  la_highest : highest s <= highest s';
  la_latest : latest_slot (cache s) <= latest_slot (cache s');
  la_canonical : forall slot w, canonical s !! slot = Some w ->
    canonical s' !! slot = Some w \/ slot < bank_floor s';
}.

Lemma later_floor s s' : later s s' -> bank_floor s <= bank_floor s'.
Proof. intros []. by apply floor_mono. Qed.

Lemma later_refl s : later s s.
Proof. split; try done. auto. Qed.

Lemma later_trans a b c : later a b -> later b c -> later a c.
Proof.
  intros Hab Hbc. pose proof (later_floor _ _ Hbc) as Hf. destruct Hab as [A1 A2 A3 A4 A5 A6], Hbc as [B1 B2 B3 B4 B5 B6].
  split; try congruence; try lia. intros slot w Hw. destruct (A6 slot w Hw) as [Hb|]; [auto|right; lia].
Qed.

(** A change of state that leaves the session's settings and winners alone. *)
Lemma later_frame s s' :
  session s' = session s -> minimum_commitment s' = minimum_commitment s -> canonical s' = canonical s ->
  retain_slots (cache s') = retain_slots (cache s) -> highest s <= highest s' ->
  latest_slot (cache s) <= latest_slot (cache s') -> later s s'.
Proof. intros H1 H2 H3 H4 H5 H6. split; try done. rewrite H3. auto. Qed.

Lemma retain_banks_later s : later s (retain_banks s).
Proof.
  split; try done. intros slot w Hw. destruct (decide (bank_floor s <= slot)) as [Hf|Hf].
  - left. by apply map_lookup_filter_Some.
  - right. change (slot < bank_floor s). lia.
Qed.

Lemma entry_bank_later s key : later s (fst (entry_bank key s)).
Proof. unfold entry_bank. destruct (banks s !! key); [apply later_refl|]. by apply later_frame. Qed.

Lemma publish_bank_later s key : banks_ok s -> later s (publish_bank stored_record key s).
Proof.
  intros Hok. unfold publish_bank. destruct (banks s !! key) as [bank|] eqn:Eb; [|apply later_refl].
  destruct (metadata bank) as [m|] eqn:Em; [|apply later_refl].
  destruct (transactions bank) as [l|]; [|apply later_refl]. cbv zeta.
  set (level := decode_commitment _). destruct (rank level <? _); [apply later_refl|].
  destruct (_ && _)%bool; [apply later_refl|]. case_bool_decide.
  - pose proof (ingest_all_less stored_record (fst key) (commitment bank) l _ (bo_proof s Hok)) as L.
    destruct (note_slot_commitment_less (fst key) level _ (sl_proof _ _ L)) as [L' _].
    pose proof (shows_less_trans _ _ _ L L') as []. by apply later_frame.
  - set (c0 := match selected s !! fst key with Some _ => _ | None => _ end).
    assert (L0 : shows_less (cache s) c0).
    { unfold c0. destruct (selected s !! fst key); [apply remove_slot_inner_less|apply shows_less_refl]; apply Hok. }
    pose proof (projected_shows (fst key) (commitment bank) m l level (observed_at bank) c0 (sl_proof _ _ L0)
      (bk_slot _ _ _ (bo_bank s Hok key bank Eb) m Em)) as S0.
    pose proof (shows_bank_after _ _ _ _ _ L0 S0) as []. by apply later_frame.
Qed.

Lemma choose_bank_later s key : banks_ok s -> admissible s key -> later s (choose_bank key s).
Proof.
  intros Hok Had. destruct (choose_bank_ok s key Hok Had) as (_ & _ & Hc & Hh & Hse).
  destruct Had as [_ Hcan]. rewrite choose_bank_eq in *.
  set (s1 := deselect_other _ _ s) in *.
  assert (H1 : minimum_commitment s1 = minimum_commitment s /\ retain_slots (cache s1) = retain_slots (cache s) /\
               latest_slot (cache s1) = latest_slot (cache s)).
  { unfold s1, deselect_other. destruct (selected s !! fst key); [|done]. by destruct (negb _). }
  assert (H2 : forall l s1, minimum_commitment (drop_banks s1 l) = minimum_commitment s1 /\ cache (drop_banks s1 l) = cache s1).
  { induction l as [|a l IH]; intros s2; [done|]. apply (IH (set_discarded _ (set_banks _ s2))). }
  destruct H1 as (H1 & H3 & H4), (H2 (losers key s1) s1) as [H5 H6].
  split; cbn [set_canonical session minimum_commitment cache highest] in *; try congruence; try lia; [rewrite H6; lia|].
  intros slot w Hw. left. rewrite Hc. destruct (decide (slot = fst key)) as [->|].
  - rewrite lookup_insert_eq. f_equal. by apply Hcan.
  - by rewrite lookup_insert_ne.
Qed.

Definition same_session (op : bank_op) : Prop :=
  match op with StartSession _ | EndSession _ => False | _ => True end.

Lemma commit_bank_later sess slot id level parent now s :
  banks_ok s -> later s (commit_bank stored_record sess slot id level parent now s) /\
  (accept_bank s sess (slot, id) = true -> level <> Processed ->
   canonical (commit_bank stored_record sess slot id level parent now s) !! slot = Some id \/
   slot < bank_floor (commit_bank stored_record sess slot id level parent now s)).
Proof.
  intros Hok. unfold commit_bank. cbv zeta. destruct (accept_bank s sess _) eqn:Ea; [|by split; [apply later_refl|]].
  cbn [negb]. apply accept_admissible in Ea. set (s1 := if bool_decide (level = Processed) then s else _).
  assert (H1 : banks_ok s1 /\ admissible s1 (slot, id) /\ later s s1 /\ (level <> Processed -> canonical s1 !! slot = Some id)).
  { unfold s1. case_bool_decide; [split; [done|]; split; [done|]; split; [apply later_refl|done]|].
    destruct (choose_bank_ok s (slot, id) Hok Ea) as (? & ? & -> & _). split; [done|]. split; [done|].
    split; [by apply choose_bank_later|]. intros _. apply lookup_insert_eq. }
  destruct H1 as (Hok1 & Had1 & Hl1 & Hwin). set (s2 := set_highest _ s1).
  assert (Hok2 : banks_ok s2) by (apply set_highest_ok; [done|lia]).
  pose proof (entry_bank_later s2 (slot, id)) as Hl3.
  destruct (entry_bank _ s2) as [s3 bank] eqn:Ee. apply entry_bank_ok in Ee as (Hok3 & Hb & _); [|done|done].
  destruct (raise_commitment _ _ _ _ _) as [s4 observed] eqn:Er.
  assert (Hl4 : later s3 s4) by (unfold raise_commitment in Er; injection Er as <- _; by apply later_frame).
  apply raise_commitment_ok in Er; [|done|done].
  pose proof (publish_bank_later s4 (slot, id) Er) as Hl5. set (s5 := publish_bank _ _ _) in *.
  set (s6 := set_cache _ s5). assert (Hl6 : later s5 s6) by by apply later_frame.
  assert (H17 : later s1 (retain_banks s6)).
  { eapply later_trans; [|apply retain_banks_later]. eapply later_trans; [|exact Hl6].
    eapply later_trans; [|exact Hl5]. eapply later_trans; [|exact Hl4]. eapply later_trans; [|exact Hl3].
    apply later_frame; try done. cbn. lia. }
  split; [by eapply later_trans|]. intros _ Hne. apply (la_canonical _ _ H17). by apply Hwin.
Qed.

Lemma bank_step_later s op : banks_ok s -> same_session op -> later s (bank_step stored_record s op).
Proof.
  intros Hok Hop. destruct op as [m|sess|sess id m|sess slot id f|sess e|sess slot id hash l|sess slot id level parent now|sess slot id];
    cbn [bank_step same_session] in *; try done.
  - unfold stage_bank_metadata. cbv zeta. destruct (accept_bank _ _ _); cbn [negb]; [|apply later_refl].
    set (s1 := set_highest _ s). assert (H1 : later s s1) by (apply later_frame; try done; cbn; lia).
    pose proof (entry_bank_later s1 (m_slot m, id)) as H2. destruct (entry_bank _ _) as [s2 bank].
    destruct (match sealed_hash bank with Some _ => _ | None => _ end); [by eapply later_trans|].
    eapply later_trans; [by eapply later_trans|]. eapply later_trans; [|apply retain_banks_later]. by apply later_frame.
  - unfold stage_bank_footer. cbv zeta. destruct (accept_bank _ _ _); cbn [negb]; [|apply later_refl].
    pose proof (entry_bank_later s (slot, id)) as H2. destruct (entry_bank _ _) as [s2 bank].
    destruct (footer bank); [done|]. eapply later_trans; [exact H2|]. eapply later_trans; [|apply retain_banks_later].
    case_bool_decide; by apply later_frame.
  - unfold stage_bank_entry. cbv zeta. destruct (accept_bank _ _ _); cbn [negb]; [|apply later_refl].
    pose proof (entry_bank_later s (eu_slot e, eu_bank_id e)) as H2. destruct (entry_bank _ _) as [s2 bank].
    destruct (sealed_hash bank); [done|]. eapply later_trans; [exact H2|]. by apply later_frame.
  - unfold freeze_bank. cbv zeta. destruct (accept_bank s sess _) eqn:Ea; cbn [negb]; [|apply later_refl].
    apply accept_admissible in Ea. pose proof (entry_bank_later s (slot, id)) as H2.
    destruct (entry_bank _ _) as [s2 bank] eqn:Ee. apply entry_bank_ok in Ee as (Hok2 & Hb & _); [|done|done].
    destruct (sealed_hash bank) eqn:Es; [done|]. destruct (metadata bank) as [m|] eqn:Em; [|done].
    case_bool_decide as Eh; cbn [negb]; [|done]. destruct (complete_bank _ _ _ _); cbn [negb]; [|done].
    eapply later_trans; [exact H2|]. rewrite <- Em, <- Eh. set (s3 := put_bank _ _ _).
    assert (Hok3 : banks_ok s3) by by apply seal_bank_ok.
    eapply later_trans; [|apply retain_banks_later]. eapply later_trans; [|by apply publish_bank_later]. by apply later_frame.
  - by apply commit_bank_later.
  - unfold discard_bank. cbv zeta. destruct (session s =? sess); cbn [negb]; [|apply later_refl].
    eapply later_trans; [|apply retain_banks_later]. case_bool_decide; by apply later_frame.
Qed.

Lemma bank_run_later ops s :
  banks_ok s -> Forall same_session ops -> later s (foldl (bank_step stored_record) s ops).
Proof.
  intros Hok Hall. revert s Hok. induction Hall as [|op ops Hop Hall IH]; intros s Hok; cbn [foldl]; [apply later_refl|].
  eapply later_trans; [by apply bank_step_later|]. apply IH. by apply bank_step_ok.
Qed.

(** What the cache may show at a slot: the selected bank, sealed with the hash, at the
    session's minimum commitment, not discarded, and the slot's winner if it has one. *)
Definition sealed_selection (s : BankState) (slot : Z) (hash : list Z) : Prop :=
  exists id bank, selected s !! slot = Some id /\ banks s !! (slot, id) = Some bank /\
    sealed_hash bank = Some hash /\ minimum_commitment s <= token_rank (cache s) (Some (commitment bank)) /\
    ((slot, id) ∉ discarded s) /\ (forall winner, canonical s !! slot = Some winner -> id = winner).

Lemma shown_sealed s slot hash : banks_ok s -> shown s slot hash -> sealed_selection s slot hash.
Proof.
  intros Hok (id & bank & H1 & H2 & H3). exists id, bank. destruct (bo_selected s Hok slot id H1) as (b & Hb & _ & Hmin).
  assert (b = bank) as -> by congruence. split; [done|]. split; [done|]. split; [done|]. split; [done|]. split.
  - intros Hd. apply (bo_discarded s Hok) in Hd. congruence.
  - intros w Hw. eapply bo_canonical; [done|done|by eexists].
Qed.

(** C7: whatever the subscription streams, at any slot the protocol still tracks, the
    block the cache publishes and any link its range proof can use belong to one bank:
    the selected one, sealed with that very hash, at least at the session's minimum
    commitment, not discarded, and the slot's winner if one was chosen. *)
Theorem head_shows_sealed_bank n k ops slot :
  let s := foldl (bank_step stored_record) (state_new n k) ops in
  bank_floor s <= slot ->
  (forall m, slot_block_metadata (blocks (cache s)) !! slot = Some m -> sealed_selection s slot (m_blockhash m)) /\
  (forall level link, usable_link slot level (proof (cache s)) = Some link -> sealed_selection s slot (l_hash link)).
Proof.
  intros s Hf. assert (Hok : banks_ok s) by apply bank_run_ok, state_new_ok. split.
  - intros m Hm. apply shown_sealed; [done|]. by apply (bo_published s Hok).
  - intros level link Hl. apply shown_sealed; [done|]. apply (bo_linked s Hok); [|done].
    unfold usable_link in Hl. destruct (bt_get slot (h_nodes (proof (cache s)))) as [node|] eqn:E; [|done].
    apply bt_get_spec in E; [|apply Hok]. exists node. destruct (n_commitment node); [|done].
    destruct (n_invalid node); [done|]. split; [done|]. split; [done|]. by destruct (negb _).
Qed.

(** C40: a bank that an accepted Confirmed or Finalized update names wins its slot for the
    rest of the session: until the slot falls below the retention floor, no update for
    another bank of the slot is accepted and nothing but the winner is shown. *)
Theorem canonical_bank_final n k ops sess slot id level parent now later_ops :
  let s := foldl (bank_step stored_record) (state_new n k) ops in
  let s' := foldl (bank_step stored_record) (commit_bank stored_record sess slot id level parent now s) later_ops in
  accept_bank s sess (slot, id) = true -> level <> Processed -> Forall same_session later_ops ->
  slot < bank_floor s' \/
  ((forall other, accept_bank s' sess (slot, other) = true -> other = id) /\
   (forall other, selected s' !! slot = Some other -> other = id)).
Proof.
  intros s s' Ha Hl Hall. assert (Hok : banks_ok s) by apply bank_run_ok, state_new_ok.
  destruct (commit_bank_later sess slot id level parent now s Hok) as [_ Hwin].
  pose proof (commit_bank_ok sess slot id level parent now s Hok) as Hok1.
  pose proof (bank_run_later later_ops _ Hok1 Hall) as Hlat. pose proof (bank_run_ok later_ops _ Hok1) as Hok2.
  fold s' in Hlat, Hok2. destruct (decide (slot < bank_floor s')) as [|Hf]; [by left|right].
  pose proof (later_floor _ _ Hlat) as Hfl.
  assert (Hc : canonical s' !! slot = Some id).
  { destruct (Hwin Ha Hl) as [Hw|]; [|lia]. destruct (la_canonical _ _ Hlat slot id Hw); [done|lia]. }
  split.
  - intros other Ho. apply accept_admissible in Ho as [_ Ho]. by apply (Ho id).
  - intros other Ho. destruct (bo_selected s' Hok2 slot other Ho) as (b & Hb & _).
    eapply bo_canonical; [done|exact Hc|by eexists].
Qed.

End Convert.

(** ** Complete banks *)

(** The entries listed by index tile the block's transactions: entry number [i] has index
    [i] and starts where the entries before it end. *)
Record tiling (count : Z) (es : list EntryUpdate) : Prop := {
  ti_entries : forall i e, es !! i = Some e ->
    eu_index e = Z.of_nat i /\ eu_starting_transaction_index e = zsum eu_executed_transaction_count (take i es) /\
    zlen (eu_hash e) = 32;
  ti_total : zsum eu_executed_transaction_count es = count;
}.

Lemma distinct_transactions_spec converts count l ix sg :
  distinct_transactions converts count ix sg l = true <->
  NoDup (map ti_index l) /\ NoDup (map ti_signature l) /\
  Forall (fun tx => ti_index tx < count /\ (ti_index tx ∉ ix) /\ (ti_signature tx ∉ sg) /\ converts tx = true) l.
Proof.
  revert ix sg. induction l as [|tx l IH]; intros ix sg; cbn [distinct_transactions map].
  { split; [|done]. intros _. repeat constructor. }
  rewrite !NoDup_cons, Forall_cons, !list_elem_of_fmap.
  destruct (Z.leb_spec count (ti_index tx)); cbn [orb]; [split; [done|intros (_ & _ & [? _] & _); lia]|].
  case_bool_decide as E1; cbn [orb]; [split; [done|tauto]|].
  case_bool_decide as E2; cbn [orb]; [split; [done|tauto]|].
  destruct (converts tx) eqn:E3; cbn [negb]; [|split; [done|by intros (_ & _ & (_ & _ & _ & ?) & _)]].
  rewrite IH, !Forall_forall. split.
  - intros (H1 & H2 & H3). split; [split; [|done]|split; [split; [|done]|split; [done|]]].
    + intros (y & Ey & Hy). destruct (H3 y Hy) as (_ & Hn & _). set_solver.
    + intros (y & Ey & Hy). destruct (H3 y Hy) as (_ & _ & Hn & _). set_solver.
    + intros y Hy. destruct (H3 y Hy) as (? & ? & ? & ?). split; [done|]. split; [set_solver|]. split; [set_solver|done].
  - intros ([Hi H1] & [Hs H2] & _ & H3). split; [done|]. split; [done|]. intros y Hy.
    destruct (H3 y Hy) as (? & ? & ? & ?). split; [done|].
    assert (ti_index y <> ti_index tx) by (intros E; apply Hi; eauto).
    assert (ti_signature y <> ti_signature tx) by (intros E; apply Hs; eauto).
    split; [set_solver|]. split; [set_solver|done].
Qed.

(** The scan from entry number [index], which starts at transaction [start]. *)
Lemma entries_tile_spec count l index start :
  0 <= start <= count -> count <= u64_max -> Forall (fun e => 0 <= eu_executed_transaction_count e) l ->
  entries_tile count index start l = true <->
  (forall i e, l !! i = Some e ->
     eu_index e = index + Z.of_nat i /\
     eu_starting_transaction_index e = start + zsum eu_executed_transaction_count (take i l) /\
     zlen (eu_hash e) = 32) /\
  start + zsum eu_executed_transaction_count l = count.
Proof.
  intros Hs Hc Hnn. revert index start Hs. induction Hnn as [|e l He Hnn IH]; intros index start Hs; cbn [entries_tile].
  { rewrite Z.eqb_eq. cbn. split; [intros ->; split; [done|lia]|intros [_ ?]; lia]. }
  assert (Hsum : 0 <= zsum eu_executed_transaction_count l)
    by (apply zsum_nonneg; intros x Hx; rewrite Forall_forall in Hnn; auto).
  change (zsum eu_executed_transaction_count (e :: l)) with
    (eu_executed_transaction_count e + zsum eu_executed_transaction_count l).
  assert (Hhead : (eu_index e = index /\ eu_starting_transaction_index e = start /\ zlen (eu_hash e) = 32) \/
    ((negb (eu_index e =? index) || negb (eu_starting_transaction_index e =? start) || negb (zlen (eu_hash e) =? 32))%bool = true /\
     ~ (eu_index e = index /\ eu_starting_transaction_index e = start /\ zlen (eu_hash e) = 32))).
  { destruct (Z.eqb_spec (eu_index e) index), (Z.eqb_spec (eu_starting_transaction_index e) start), (Z.eqb_spec (zlen (eu_hash e)) 32);
      cbn [negb orb]; intuition. }
  destruct Hhead as [(E1 & E2 & E3)|[-> Hn]].
  2: { split; [done|]. intros [H _]. destruct Hn. destruct (H 0%nat e eq_refl) as (? & ? & ?). cbn in *. lia. }
  rewrite E1, E2, E3, !Z.eqb_refl. cbn [negb orb]. unfold checked_add.
  destruct (Z.leb_spec (start + eu_executed_transaction_count e) u64_max) as [Hu|Hu]; [|split; [done|intros [_ ?]; lia]].
  destruct (Z.ltb_spec count (start + eu_executed_transaction_count e)) as [Hv|Hv]; [split; [done|intros [_ ?]; lia]|].
  rewrite IH by lia. split; intros [H Ht]; (split; [|lia]).
  - intros [|i] x Hx; cbn in Hx; [injection Hx as <-; cbn; lia|].
    destruct (H i x Hx) as (H1 & H2 & H3). cbn [take]. change (zsum eu_executed_transaction_count (e :: take i l)) with
      (eu_executed_transaction_count e + zsum eu_executed_transaction_count (take i l)). split; [lia|]. split; [lia|done].
  - intros i x Hx. destruct (H (S i) x Hx) as (H1 & H2 & H3). cbn [take] in H2.
    change (zsum eu_executed_transaction_count (e :: take i l)) with
      (eu_executed_transaction_count e + zsum eu_executed_transaction_count (take i l)) in H2.
    split; [lia|]. split; [lia|done].
Qed.

Lemma sort_entries_perm l : sort_entries l ≡ₚ l.
Proof.
  unfold sort_entries. rewrite sort_by_key_perm, map_map. cbn [snd]. by rewrite map_id.
Qed.

Lemma indexed_sorted es base :
  (forall i e, es !! i = Some e -> eu_index e = base + Z.of_nat i) ->
  StronglySorted key_le (map (fun e => (eu_index e, e)) es).
Proof.
  revert base. induction es as [|e es IH]; intros base H; cbn [map]; [constructor|]. constructor.
  - apply (IH (base + 1)). intros i x Hx. rewrite (H (S i) x Hx). lia.
  - apply Forall_forall. intros y (x & -> & Hx)%list_elem_of_fmap. apply list_elem_of_lookup in Hx as [i Hx].
    unfold key_le. cbn [fst]. rewrite (H 0%nat e eq_refl), (H (S i) x Hx). lia.
Qed.

(** Entries numbered by position are what sorting by index yields. *)
Lemma sort_entries_unique es l :
  es ≡ₚ l -> (forall i e, es !! i = Some e -> eu_index e = Z.of_nat i) -> sort_entries l = es.
Proof.
  intros Hp Hix. unfold sort_entries.
  assert (E : sort_by_key (map (fun e => (eu_index e, e)) l) = map (fun e => (eu_index e, e)) es).
  { apply (StronglySorted_unique_strong key_le).
    - intros x1 x2 Hx1 (e2 & -> & H2)%list_elem_of_fmap Hle Hge. rewrite sort_by_key_perm in Hx1.
      apply list_elem_of_fmap in Hx1 as (e1 & -> & H1). rewrite <- Hp in H1. unfold key_le in *. cbn [fst] in *.
      apply list_elem_of_lookup in H1 as [i1 H1]. apply list_elem_of_lookup in H2 as [i2 H2].
      rewrite (Hix _ _ H1), (Hix _ _ H2) in Hle, Hge. assert (i1 = i2) as -> by lia. congruence.
    - apply sort_by_key_sorted.
    - apply (indexed_sorted es 0). intros i e He. rewrite (Hix i e He). lia.
    - rewrite sort_by_key_perm. by apply fmap_Permutation. }
  rewrite E, map_map. cbn [snd]. apply map_id.
Qed.

(** A bank is sealed as complete exactly when its metadata counts its transactions
    and entries, the transactions have distinct signatures and distinct indices below
    their number and all convert, and the entries, put in order, are numbered without a
    gap and tile the transactions from the first to the last. *)
Theorem complete_bank_exact stored_record bank slot l :
  zlen l <= u64_max -> Forall (fun e => 0 <= eu_executed_transaction_count e) (bank_entries bank) ->
  complete_bank stored_record bank slot l = true <->
  exists m es, metadata bank = Some m /\ m_executed_transaction_count m = zlen l /\
    m_entry_count m = zlen (bank_entries bank) /\ NoDup (map ti_index l) /\ NoDup (map ti_signature l) /\
    Forall (fun tx => ti_index tx < zlen l /\ is_Some (stored_record slot tx)) l /\
    es ≡ₚ bank_entries bank /\ tiling (zlen l) es.
Proof.
  intros Hu Hnn. unfold complete_bank. destruct (metadata bank) as [m|]; [|split; [done|by intros (m & es & ? & _)]].
  pose proof (zlen_nonneg l) as Hl0.
  assert (Hnn' : Forall (fun e => 0 <= eu_executed_transaction_count e) (sort_entries (bank_entries bank)))
    by (by rewrite sort_entries_perm).
  pose proof (distinct_transactions_spec (fun tx => bool_decide (is_Some (stored_record slot tx))) (zlen l) l ∅ ∅) as Hd.
  destruct (Z.eqb_spec (m_executed_transaction_count m) (zlen l)) as [Ec|Ec]; cbn [negb orb];
    [|split; [done|intros (m' & es & [= <-] & ? & _); congruence]].
  destruct (Z.eqb_spec (m_entry_count m) (zlen (bank_entries bank))) as [Ee|Ee]; cbn [negb];
    [|split; [done|intros (m' & es & [= <-] & _ & ? & _); congruence]].
  rewrite Ec. pose proof (entries_tile_spec (zlen l) (sort_entries (bank_entries bank)) 0 0 ltac:(lia) Hu Hnn') as Ht.
  destruct (distinct_transactions _ _ _ _ _); cbn [negb].
  - destruct (proj1 Hd eq_refl) as (H1 & H2 & H3). rewrite Ht. split.
    + intros [H4 H5]. exists m, (sort_entries (bank_entries bank)). do 3 (split; [done|]). split; [done|]. split; [done|].
      split; [|split; [apply sort_entries_perm|by split]].
      eapply Forall_impl; [exact H3|]. intros tx (? & _ & _ & Hc). zbool. done.
    + intros (m' & es & [= <-] & _ & _ & _ & _ & _ & Hp & [H4 H5]).
      rewrite (sort_entries_unique es _ Hp); [by split|]. intros i e He. by destruct (H4 i e He).
  - split; [done|]. intros (m' & es & [= <-] & _ & _ & H1 & H2 & H3 & _). apply Hd. split; [done|]. split; [done|].
    eapply Forall_impl; [exact H3|]. intros tx [? Hc]. split; [done|]. split; [set_solver|]. split; [set_solver|].
    by apply bool_decide_eq_true.
Qed.
