(* ===== verification/Cursors.v ===== *)
(** * Cursors: positions, request bounds and slot windows

    Address histories are read newest first between a [before] and an [until] bound, each a
    position (slot and index within the slot) or a whole slot.  This file models the bounds
    ([clickhouse/types.rs]), the slot windows the caches derive from them
    ([disk_cache/key_reads.rs], [disk_cache/mod.rs]) and the bound of the remainder that is
    left to the primary ([handlers/signatures.rs]), all under [crates/superbank-rpc/src].
    The theorems compare each of them with [in_bounds], the rows a request asks for. *)

From S2P Require Import Prelude.

Open Scope Z_scope.

(** [SignatureSlot], [SlotBoundary] *)
Record SignatureSlot := mkSigSlot { ss_slot : Z; ss_idx : Z }.
Inductive SlotBoundary :=
| Position (p : SignatureSlot)
| Slot (slot : Z).

#[export] Instance SignatureSlot_eq_dec : EqDecision SignatureSlot.
Proof. solve_decision. Defined.
#[export] Instance SlotBoundary_eq_dec : EqDecision SlotBoundary.
Proof. solve_decision. Defined.

(** [slot_index_lt], [slot_index_gt] *)
Definition slot_index_lt (a b : SignatureSlot) : bool :=
  ((ss_slot a <? ss_slot b) || ((ss_slot a =? ss_slot b) && (ss_idx a <? ss_idx b)))%bool.
Definition slot_index_gt (a b : SignatureSlot) : bool :=
  ((ss_slot b <? ss_slot a) || ((ss_slot a =? ss_slot b) && (ss_idx b <? ss_idx a)))%bool.

(** [position_before_boundary], [position_after_boundary] *)
Definition position_before_boundary (position : SignatureSlot) (boundary : SlotBoundary) : bool :=
  match boundary with
  | Position b => slot_index_lt position b
  | Slot slot => ss_slot position <? slot
  end.
Definition position_after_boundary (position : SignatureSlot) (boundary : SlotBoundary) : bool :=
  match boundary with
  | Position b => slot_index_gt position b
  | Slot slot => slot <? ss_slot position
  end.

(** The rows a request asks for. *)
Definition in_bounds (before until : option SlotBoundary) (p : SignatureSlot) : bool :=
  (from_option (position_before_boundary p) true before &&
   from_option (position_after_boundary p) true until)%bool.

(** ** Slot windows *)

(** [gsfa_window] *)
Definition gsfa_window (span : Z * Z) (before until : option SlotBoundary) : Z * Z :=
  (Z.max (fst span) (match until with
                     | Some (Position p) => ss_slot p
                     | Some (Slot slot) => sat_add slot 1
                     | None => 0
                     end),
   Z.min (snd span) (match before with
                     | Some (Position p) => ss_slot p
                     | Some (Slot slot) => sat_sub slot 1
                     | None => u64_max
                     end)).

(** [tip_gap_start] *)
Definition tip_gap_start (tip : Z) (window : Z * Z) : option Z :=
  let start := Z.max (fst window) (sat_add tip 1) in
  if start <=? snd window then Some start else None.

(** [gsfa_tip_gap] *)
Definition gsfa_tip_gap (tip : Z) (before until : option SlotBoundary) : option Z :=
  tip_gap_start tip (gsfa_window (0, u64_max) before until).

(** [tip_gap_covered]; the head floor is a thunk in the source and has no effects. *)
Definition tip_gap_covered (gap_start head_floor : option Z) : bool :=
  match gap_start with
  | None => true
  | Some start => match head_floor with Some floor => floor <=? start | None => false end
  end.

(** [clamp_until_to_floor] *)
Definition clamp_until_to_floor (until : option SlotBoundary) (floor : Z) : option SlotBoundary * bool :=
  if floor =? 0 then (until, false)
  else
    let requested_floor :=
      match until with
      | Some (Position p) => sat_add (ss_slot p) 1
      | Some (Slot slot) => sat_add slot 1
      | None => 0
      end in
    if floor <=? requested_floor then (until, false) else (Some (Slot (floor - 1)), true).

(** [clamp_before_to_floor] *)
Definition clamp_before_to_floor (before : option SlotBoundary) (floor : Z) : SlotBoundary :=
  match before with
  | None => Slot floor
  | Some (Slot slot) => Slot (Z.min slot floor)
  | Some (Position p) => if ss_slot p <? floor then Position p else Slot floor
  end.

(** ** Filters of getTransactionsForAddress *)

(** [NumericFilter<u64>], [ResolvedSignatureFilter], [SortOrder] *)
Record NumericFilter := mkNumeric {
  nf_gte : option Z; nf_gt : option Z; nf_lte : option Z; nf_lt : option Z; nf_eq : option Z;
}.
Record ResolvedSignatureFilter := mkSigFilter {
  sf_gte : option SignatureSlot; sf_gt : option SignatureSlot;
  sf_lte : option SignatureSlot; sf_lt : option SignatureSlot;
}.
Inductive SortOrder := Asc | Desc.

#[export] Instance SortOrder_eq_dec : EqDecision SortOrder.
Proof. solve_decision. Defined.

(** The bounds of [TransactionsForAddressQuery] that select by position; a [DiskTfaQuery]
    carries the same ones. *)
Record TfaQuery := mkTfa {
  q_sort_order : SortOrder;
  q_resolved_pagination : option SignatureSlot;
  q_slot_filter : option NumericFilter;
  q_resolved_signature_filter : option ResolvedSignatureFilter;
}.

(** [into_iter().flatten()] over an array of options. *)
Definition flatten {A} (l : list (option A)) : list A := omap id l.
Definition max_of (d : Z) (l : list Z) : Z := foldr Z.max d l.
Definition min_of (d : Z) (l : list Z) : Z := foldr Z.min d l.

(** [numeric_window]; both arrays start with the span's own bound, so the maximum and the
    minimum are never empty. *)
Definition numeric_window (span : Z * Z) (filter : NumericFilter) : Z * Z :=
  let lower := [nf_gte filter; (fun v => sat_add v 1) <$> nf_gt filter; nf_eq filter] in
  let upper := [nf_lte filter; (fun v => sat_sub v 1) <$> nf_lt filter; nf_eq filter] in
  (max_of (fst span) (flatten lower), min_of (snd span) (flatten upper)).

(** [tfa_window] *)
Definition tfa_window (span : Z * Z) (query : TfaQuery) : Z * Z :=
  let span := match q_slot_filter query with Some f => numeric_window span f | None => span end in
  let span :=
    match q_resolved_signature_filter query with
    | Some f => (max_of (fst span) (ss_slot <$> flatten [sf_gt f; sf_gte f]),
                 min_of (snd span) (ss_slot <$> flatten [sf_lt f; sf_lte f]))
    | None => span
    end in
  match q_resolved_pagination query with
  | Some p =>
      match q_sort_order query with
      | Asc => (Z.max (fst span) (ss_slot p), snd span)
      | Desc => (fst span, Z.min (snd span) (ss_slot p))
      end
  | None => span
  end.

(** [tfa_tip_gap] *)
Definition tfa_tip_gap (tip : Z) (query : TfaQuery) : option Z :=
  match q_sort_order query with
  | Asc => None
  | Desc => tip_gap_start tip (tfa_window (0, u64_max) query)
  end.

Definition fold_bound (f : Z -> Z -> Z) (acc : option Z) (l : list Z) : option Z :=
  foldl (fun acc v => Some (match acc with Some current => f current v | None => v end)) acc l.

(** [lower_bound_reaches_floor] *)
Definition lower_bound_reaches_floor (query : TfaQuery) (floor : Z) : bool :=
  let lower :=
    match q_slot_filter query with
    | Some f => fold_bound Z.max None (flatten [nf_gte f; (fun v => sat_add v 1) <$> nf_gt f])
    | None => None
    end in
  let lower :=
    match q_resolved_signature_filter query with
    | Some f => fold_bound Z.max lower (ss_slot <$> flatten [sf_gte f; sf_gt f])
    | None => lower
    end in
  match lower with Some value => value <=? floor | None => true end.

(** [upper_bound_reaches_tip] *)
Definition upper_bound_reaches_tip (query : TfaQuery) (tip : Z) : bool :=
  let upper :=
    match q_slot_filter query with
    | Some f => fold_bound Z.min None (flatten [nf_lte f; (fun v => sat_sub v 1) <$> nf_lt f])
    | None => None
    end in
  let upper :=
    match q_resolved_signature_filter query with
    | Some f => fold_bound Z.min upper (ss_slot <$> flatten [sf_lte f; sf_lt f])
    | None => upper
    end in
  match upper with Some value => tip <? value | None => true end.

(** The rows a getTransactionsForAddress request asks for, by position. *)
Definition numeric_ok (f : NumericFilter) (x : Z) : Prop :=
  (forall v, nf_gte f = Some v -> v <= x) /\ (forall v, nf_gt f = Some v -> v < x) /\
  (forall v, nf_lte f = Some v -> x <= v) /\ (forall v, nf_lt f = Some v -> x < v) /\
  (forall v, nf_eq f = Some v -> x = v).
Definition pos_lt (a b : SignatureSlot) : Prop :=
  ss_slot a < ss_slot b \/ (ss_slot a = ss_slot b /\ ss_idx a < ss_idx b).
Definition pos_le (a b : SignatureSlot) : Prop :=
  ss_slot a < ss_slot b \/ (ss_slot a = ss_slot b /\ ss_idx a <= ss_idx b).
Definition signature_ok (f : ResolvedSignatureFilter) (p : SignatureSlot) : Prop :=
  (forall v, sf_gte f = Some v -> pos_le v p) /\ (forall v, sf_gt f = Some v -> pos_lt v p) /\
  (forall v, sf_lte f = Some v -> pos_le p v) /\ (forall v, sf_lt f = Some v -> pos_lt p v).
Definition tfa_matches (query : TfaQuery) (p : SignatureSlot) : Prop :=
  (forall f, q_slot_filter query = Some f -> numeric_ok f (ss_slot p)) /\
  (forall f, q_resolved_signature_filter query = Some f -> signature_ok f p) /\
  (forall v, q_resolved_pagination query = Some v ->
     match q_sort_order query with Asc => pos_lt v p | Desc => pos_lt p v end).

(** ** Positions *)

Lemma slot_index_lt_spec a b : slot_index_lt a b = true <-> pos_lt a b.
Proof. unfold slot_index_lt, pos_lt. lia. Qed.
Lemma slot_index_gt_spec a b : slot_index_gt a b = true <-> pos_lt b a.
Proof. unfold slot_index_gt, pos_lt. lia. Qed.

Definition before_ok (before : option SlotBoundary) (p : SignatureSlot) : Prop :=
  match before with
  | Some (Position b) => pos_lt p b
  | Some (Slot s) => ss_slot p < s
  | None => True
  end.
Definition until_ok (until : option SlotBoundary) (p : SignatureSlot) : Prop :=
  match until with
  | Some (Position b) => pos_lt b p
  | Some (Slot s) => s < ss_slot p
  | None => True
  end.

Lemma in_bounds_spec before until p : in_bounds before until p = true <-> before_ok before p /\ until_ok until p.
Proof.
  unfold in_bounds. rewrite andb_true_iff. f_equiv.
  - destruct before as [[b|s]|]; simpl; [apply slot_index_lt_spec|lia|done].
  - destruct until as [[b|s]|]; simpl; [apply slot_index_gt_spec|lia|done].
Qed.

(** ** Windows contain what is asked for *)

Lemma gsfa_window_sound span before until p :
  is_u64 (ss_slot p) -> before_ok before p -> until_ok until p ->
  fst span <= ss_slot p <= snd span ->
  fst (gsfa_window span before until) <= ss_slot p <= snd (gsfa_window span before until).
Proof.
  intros Hp Hb Hu Hs. unfold gsfa_window. simpl.
  destruct before as [[b|s]|], until as [[c|t]|]; simpl in *; unfold pos_lt in *; sat_lia.
Qed.

Lemma tip_gap_start_spec tip window :
  match tip_gap_start tip window with
  | None => forall x, x <= u64_max -> fst window <= x <= snd window -> x <= tip
  | Some start => forall x, fst window <= x <= snd window -> tip < x -> start <= x
  end.
Proof.
  unfold tip_gap_start. case_ifs; intros x; [sat_lia|]. intros Hm Hx.
  destruct (decide (x <= tip)); [done|sat_lia].
Qed.

Lemma gsfa_tip_gap_spec tip before until p :
  is_u64 (ss_slot p) -> before_ok before p -> until_ok until p -> tip < ss_slot p ->
  exists start, gsfa_tip_gap tip before until = Some start /\ start <= ss_slot p.
Proof.
  intros Hp Hb Hu Ht. unfold gsfa_tip_gap.
  pose proof (gsfa_window_sound (0, u64_max) before until p Hp Hb Hu) as Hw. simpl in Hw.
  specialize (Hw Hp). pose proof (tip_gap_start_spec tip (gsfa_window (0, u64_max) before until)) as Hs.
  destruct (tip_gap_start _ _) as [start|].
  - exists start. split; [done|]. by apply Hs.
  - destruct Hp as [_ Hp]. specialize (Hs _ Hp Hw). lia.
Qed.

(** ** The page and its remainder *)

Lemma clamp_until_spec until floor until' effective p :
  is_u64 floor -> is_u64 (ss_slot p) -> clamp_until_to_floor until floor = (until', effective) ->
  (forall q, until = Some (Position q) -> ss_slot q + 1 <> floor) ->
  (until_ok until' p <-> until_ok until p /\ floor <= ss_slot p) /\
  (effective = false -> until_ok until p -> floor <= ss_slot p).
Proof.
  intros Hf Hp Hc Hq. unfold clamp_until_to_floor in Hc.
  destruct until as [[q|s]|]; [specialize (Hq q eq_refl)| |]; case_ifs; simpl in *;
    unfold pos_lt in *; sat_lia.
Qed.

Lemma clamp_before_spec before floor p :
  before_ok (Some (clamp_before_to_floor before floor)) p <-> before_ok before p /\ ss_slot p < floor.
Proof.
  destruct before as [[b|s]|]; simpl; [|lia|done || lia]. case_ifs; simpl; unfold pos_lt; lia.
Qed.

Lemma max_of_le d l x : max_of d l <= x <-> d <= x /\ Forall (fun v => v <= x) l.
Proof. induction l as [|a l IH]; simpl; [rewrite Forall_nil; tauto|rewrite Forall_cons, Z.max_lub_iff, IH; tauto]. Qed.
Lemma min_of_ge d l x : x <= min_of d l <-> x <= d /\ Forall (fun v => x <= v) l.
Proof. induction l as [|a l IH]; simpl; [rewrite Forall_nil; tauto|rewrite Forall_cons, Z.min_glb_iff, IH; tauto]. Qed.

Lemma flatten_Forall {A} (P : A -> Prop) l : Forall P (flatten l) <-> Forall (fun o => forall v, o = Some v -> P v) l.
Proof.
  induction l as [|[a|] l IH]; simpl; [done| |].
  - rewrite !Forall_cons, IH. naive_solver.
  - rewrite Forall_cons, IH. naive_solver.
Qed.

Ltac options :=
  repeat match goal with
  | |- Forall _ (_ <$> _) => rewrite Forall_fmap
  | |- Forall _ (flatten _) => rewrite flatten_Forall
  | |- Forall _ (_ :: _) => apply Forall_cons; split; cbn beta
  | |- Forall _ [] => constructor
  | |- forall v, _ = Some v -> _ => intros ? ?
  | H : _ <$> _ = Some _ |- _ => apply fmap_Some in H as (? & ? & ->)
  end.

Lemma numeric_window_sound span f x :
  x <= u64_max -> 0 <= x -> numeric_ok f x -> fst span <= x <= snd span ->
  fst (numeric_window span f) <= x <= snd (numeric_window span f).
Proof.
  intros Hx H0 (H1 & H2 & H3 & H4 & H5) Hs. unfold numeric_window. cbn [fst snd].
  split; [apply max_of_le|apply min_of_ge]; split; try lia; options; simpl;
    repeat match goal with H : forall v, ?o = Some v -> _, E : ?o = Some _ |- _ => apply H in E end; sat_lia.
Qed.

Lemma tfa_window_sound span query p :
  is_u64 (ss_slot p) -> tfa_matches query p -> fst span <= ss_slot p <= snd span ->
  fst (tfa_window span query) <= ss_slot p <= snd (tfa_window span query).
Proof.
  intros Hp (Hn & Hs & Hg) Hspan. unfold tfa_window.
  set (s1 := match q_slot_filter query with Some f => _ | None => _ end).
  assert (fst s1 <= ss_slot p <= snd s1) as H1.
  { unfold s1. destruct (q_slot_filter query); [|done]. apply numeric_window_sound; [apply Hp..|by apply Hn|done]. }
  set (s2 := match q_resolved_signature_filter query with Some f => _ | None => _ end).
  assert (fst s2 <= ss_slot p <= snd s2) as H2.
  { unfold s2. destruct (q_resolved_signature_filter query) as [f|]; [|done]. cbn [fst snd].
    destruct (Hs f eq_refl) as (Ha & Hb & Hc & Hd).
    split; [apply max_of_le|apply min_of_ge]; split; try lia; options; simpl;
      repeat match goal with H : forall v, ?o = Some v -> _, E : ?o = Some _ |- _ => apply H in E end;
      unfold pos_le, pos_lt in *; lia. }
  destruct (q_resolved_pagination query) as [v|]; [|done]. specialize (Hg v eq_refl).
  destruct (q_sort_order query); simpl; unfold pos_lt in *; lia.
Qed.

Lemma some_forall {A} (P : A -> Prop) v : (forall a, Some v = Some a -> P a) <-> P v.
Proof. split; [by auto|by intros ? a [= <-]]. Qed.

Lemma fold_bound_max acc l x :
  (forall a, fold_bound Z.max acc l = Some a -> a <= x) <->
  (forall a, acc = Some a -> a <= x) /\ Forall (fun v => v <= x) l.
Proof.
  revert acc. induction l as [|v l IH]; intros acc; simpl; [by rewrite Forall_nil; naive_solver|].
  rewrite IH, Forall_cons, (some_forall (fun a => a <= x)). destruct acc; [|naive_solver].
  rewrite (some_forall (fun a => a <= x)), Z.max_lub_iff. tauto.
Qed.
Lemma fold_bound_min acc l x :
  (forall a, fold_bound Z.min acc l = Some a -> x <= a) <->
  (forall a, acc = Some a -> x <= a) /\ Forall (fun v => x <= v) l.
Proof.
  revert acc. induction l as [|v l IH]; intros acc; simpl; [by rewrite Forall_nil; naive_solver|].
  rewrite IH, Forall_cons, (some_forall (fun a => x <= a)). destruct acc; [|naive_solver].
  rewrite (some_forall (fun a => x <= a)), Z.min_glb_iff. tauto.
Qed.

(** A bound that does not reach the floor excludes every row at or below it. *)
Lemma lower_bound_spec query floor p :
  is_u64 (ss_slot p) -> tfa_matches query p -> lower_bound_reaches_floor query floor = false -> floor < ss_slot p.
Proof.
  intros Hp (Hn & Hs & _). unfold lower_bound_reaches_floor.
  set (l1 := match q_slot_filter query with Some f => _ | None => _ end).
  assert (forall a, l1 = Some a -> a <= ss_slot p) as H1.
  { unfold l1. destruct (q_slot_filter query) as [f|]; [|done]. destruct (Hn f eq_refl) as (Ha & Hb & _).
    apply fold_bound_max. split; [done|]. options; simpl;
      repeat match goal with H : forall v, ?o = Some v -> _, E : ?o = Some _ |- _ => apply H in E end; sat_lia. }
  set (l2 := match q_resolved_signature_filter query with Some f => _ | None => _ end).
  assert (forall a, l2 = Some a -> a <= ss_slot p) as H2.
  { unfold l2. destruct (q_resolved_signature_filter query) as [f|]; [|done]. destruct (Hs f eq_refl) as (Ha & Hb & _).
    apply fold_bound_max. split; [done|]. options; simpl;
      repeat match goal with H : forall v, ?o = Some v -> _, E : ?o = Some _ |- _ => apply H in E end;
      unfold pos_le, pos_lt in *; lia. }
  destruct l2 as [a|]; [|done]. specialize (H2 a eq_refl). lia.
Qed.

Lemma upper_bound_spec query tip p :
  is_u64 (ss_slot p) -> tfa_matches query p -> upper_bound_reaches_tip query tip = false -> ss_slot p <= tip.
Proof.
  intros Hp (Hn & Hs & _). unfold upper_bound_reaches_tip.
  set (l1 := match q_slot_filter query with Some f => _ | None => _ end).
  assert (forall a, l1 = Some a -> ss_slot p <= a) as H1.
  { unfold l1. destruct (q_slot_filter query) as [f|]; [|done]. destruct (Hn f eq_refl) as (_ & _ & Ha & Hb & _).
    apply fold_bound_min. split; [done|]. options; simpl;
      repeat match goal with H : forall v, ?o = Some v -> _, E : ?o = Some _ |- _ => apply H in E end; sat_lia. }
  set (l2 := match q_resolved_signature_filter query with Some f => _ | None => _ end).
  assert (forall a, l2 = Some a -> ss_slot p <= a) as H2.
  { unfold l2. destruct (q_resolved_signature_filter query) as [f|]; [|done]. destruct (Hs f eq_refl) as (_ & _ & Ha & Hb).
    apply fold_bound_min. split; [done|]. options; simpl;
      repeat match goal with H : forall v, ?o = Some v -> _, E : ?o = Some _ |- _ => apply H in E end;
      unfold pos_le, pos_lt in *; lia. }
  destruct l2 as [a|]; [|done]. specialize (H2 a eq_refl). lia.
Qed.

(** A local page over the covered slots and the remainder asked of the primary split a
    request exactly: a row is asked for when it is in the clamped page or, if the page
    reached the floor, in the remainder; no row is in both, and the page asks for covered
    slots only.  The excluded case is an [until] position in the slot just below the floor. *)
Theorem page_and_remainder_split before until floor until' effective p :
  is_u64 floor -> is_u64 (ss_slot p) -> clamp_until_to_floor until floor = (until', effective) ->
  (forall q, until = Some (Position q) -> ss_slot q + 1 <> floor) ->
  let page := in_bounds before until' p = true in
  let remainder := effective = true /\ in_bounds (Some (clamp_before_to_floor before floor)) until p = true in
  (in_bounds before until p = true <-> page \/ remainder) /\ (page -> floor <= ss_slot p) /\ ~ (page /\ remainder).
Proof.
  intros Hf Hp Hc Hq page remainder. unfold page, remainder. rewrite !in_bounds_spec.
  pose proof (clamp_before_spec before floor p) as Hb.
  destruct (clamp_until_spec until floor until' effective p Hf Hp Hc Hq) as [Hu He].
  assert (~ (floor <= ss_slot p /\ ss_slot p < floor)) as Hx by lia.
  assert (floor <= ss_slot p \/ ss_slot p < floor) as Hy by lia.
  destruct effective; [clear He|specialize (He eq_refl)]; intuition done.
Qed.

(** An [until] position in the slot just below the floor: the rows of that slot after the
    position are asked for, the clamp reports that the page does not reach the floor, and
    so neither the page nor a remainder has them. *)
Theorem until_below_floor_loses_rows :
  let until := Some (Position (mkSigSlot 99 5)) in
  in_bounds None until (mkSigSlot 99 7) = true /\ clamp_until_to_floor until 100 = (until, false).
Proof. split; reflexivity. Qed.

(** The slots a request owes above a local tip start where the tip gap says: a row
    asked for above the tip exists only when the gap is reported, and never below its
    start. *)
Theorem tip_gap_exact tip before until p :
  is_u64 (ss_slot p) -> in_bounds before until p = true -> tip < ss_slot p ->
  exists start, gsfa_tip_gap tip before until = Some start /\ start <= ss_slot p.
Proof. intros Hp [Hb Hu]%in_bounds_spec Ht. by apply gsfa_tip_gap_spec. Qed.

(** The slot window of a getTransactionsForAddress request keeps every row the request
    asks for, and a bound that does not reach the covered floor (or tip) excludes every row
    below it (or above it), so that the local page is complete without the primary. *)
Theorem tfa_bounds_sound span query p :
  is_u64 (ss_slot p) -> tfa_matches query p ->
  (fst span <= ss_slot p <= snd span ->
     fst (tfa_window span query) <= ss_slot p <= snd (tfa_window span query)) /\
  (lower_bound_reaches_floor query (fst span) = false -> fst span < ss_slot p) /\
  (upper_bound_reaches_tip query (snd span) = false -> ss_slot p <= snd span).
Proof.
  intros Hp Hm. split; [by apply tfa_window_sound|]. split; [by apply lower_bound_spec|by apply upper_bound_spec].
Qed.
