(* ===== verification/HeadReaders.v ===== *)
(** * HeadReaders: what the head cache answers

    Models the query methods of [crates/superbank-rpc/src/head_cache/mod.rs].  Each holds
    the bank read lock from start to end, so it sees one state between two operations of
    [Banks].  A loop over a concurrent map visits its entries in some order; here it is the
    order of [map_to_list], and the theorems of [HeadReadersSound] describe the answers
    without it.  The [signature_str] a [HeadTxMeta] carries is the base58 text of the
    signature it is stored under; the encoder is a parameter. *)

From S2P Require Import Prelude BTree SlotCoverage HeadCoverage HeadCache Banks Cursors.

Open Scope Z_scope.

(** [HeadCache::slot_commitment] *)
Definition slot_commitment_at (c : HeadCache) (slot : Z) : CommitmentLevel :=
  default Processed (slot_commitment c !! slot).

(** [HeadCache::block_time_for_slot] *)
Definition block_time_for_slot (c : HeadCache) (slot : Z) : option Z := slot_block_time (blocks c) !! slot.

(** ** Tips *)

(** [HeadCache::latest_block_height_at_least] *)
Definition latest_block_height_at_least (c : HeadCache) (min_commitment : CommitmentLevel) : option Z :=
  foldl (fun latest entry =>
           if negb (commitment_meets (slot_commitment_at c (fst entry)) min_commitment) then latest
           else Some (match latest with Some prev => Z.max prev (snd entry) | None => snd entry end))
    None (map_to_list (slot_block_height (blocks c))).

(** The loop of [latest_blockhash_info_at_least]. *)
Definition better_blockhash (c : HeadCache) (min_commitment : CommitmentLevel)
    (best : option (Z * list Z * Z)) (entry : Z * list Z) : option (Z * list Z * Z) :=
  let slot := fst entry in
  if negb (commitment_meets (slot_commitment_at c slot) min_commitment) then best
  else
    match slot_block_height (blocks c) !! slot with
    | None => best
    | Some height =>
        match best with
        | Some (best_slot, _, _) => if slot <=? best_slot then best else Some (slot, snd entry, height)
        | None => Some (slot, snd entry, height)
        end
    end.

(** [HeadCache::latest_blockhash_info_at_least] *)
Definition latest_blockhash_info_at_least (c : HeadCache) (min_commitment : CommitmentLevel) :
    option (Z * list Z * Z) :=
  let slow := foldl (better_blockhash c min_commitment) None (map_to_list (slot_blockhash (blocks c))) in
  let latest := latest_slot c in
  if (negb (latest =? 0) && commitment_meets (slot_commitment_at c latest) min_commitment)%bool then
    match slot_blockhash (blocks c) !! latest, slot_block_height (blocks c) !! latest with
    | Some blockhash, Some height => Some (latest, blockhash, height)
    | _, _ => slow
    end
  else slow.

(** The loop of [blockhash_valid_at_least], with its flag. *)
Fixpoint blockhash_loop (c : HeadCache) (blockhash : list Z) (min_block_height : Z)
    (min_commitment : CommitmentLevel) (found : bool) (entries : list (Z * list Z)) : option bool :=
  match entries with
  | [] => if found then Some false else None
  | (slot, hash) :: rest =>
      let next found := blockhash_loop c blockhash min_block_height min_commitment found rest in
      if bool_decide (hash <> blockhash) then next found
      else if negb (commitment_meets (slot_commitment_at c slot) min_commitment) then next found
      else
        match slot_block_height (blocks c) !! slot with
        | None => next found
        | Some height => if min_block_height <=? height then Some true else next true
        end
  end.

(** [HeadCache::blockhash_valid_at_least] *)
Definition blockhash_valid_at_least (c : HeadCache) (blockhash : list Z) (min_block_height : Z)
    (min_commitment : CommitmentLevel) : option bool :=
  blockhash_loop c blockhash min_block_height min_commitment false (map_to_list (slot_blockhash (blocks c))).

(** [HeadCache::latest_slot_at_least] *)
Definition latest_slot_at_least (c : HeadCache) (min_commitment : CommitmentLevel) : Z :=
  if bool_decide (min_commitment = Processed) then latest_slot c
  else
    foldl (fun latest entry =>
             if ((latest <? fst entry) && commitment_meets (snd entry) min_commitment)%bool then fst entry else latest)
      0 (map_to_list (slot_commitment c)).

(** ** The transaction-count overlay *)

Record TransactionCountOverlay := mkOverlay {
  start_slot : Z;
  context_slot : Z;
  overlay_count : Z;
}.

(** The walk from one tip down its parents; a turn moves to a strictly lower slot that has
    metadata, so the number of slots with metadata is enough fuel. *)
Fixpoint overlay_walk (fuel : nat) (m : gmap Z BlockMetadataRecord) (clickhouse_slot tip current count : Z) :
    option TransactionCountOverlay :=
  match fuel with
  | O => None
  | S fuel =>
      match m !! current with
      | None => None
      | Some metadata =>
          let count := sat_add count (m_executed_transaction_count metadata) in
          if m_parent_slot metadata <=? clickhouse_slot then Some (mkOverlay current tip count)
          else if ((current <=? m_parent_slot metadata) ||
                   negb (bool_decide (is_Some (m !! m_parent_slot metadata))))%bool then None
          else overlay_walk fuel m clickhouse_slot tip (m_parent_slot metadata) count
      end
  end.

Definition candidate_tips (c : HeadCache) (min_commitment : CommitmentLevel) : list Z :=
  rev (merge_sort Z.le
         (List.filter (fun slot => commitment_meets (slot_commitment_at c slot) min_commitment)
            (map fst (map_to_list (slot_block_metadata (blocks c)))))).

Fixpoint first_overlay (m : gmap Z BlockMetadataRecord) (clickhouse_slot : Z) (tips : list Z) :
    option TransactionCountOverlay :=
  match tips with
  | [] => None
  | tip :: rest =>
      match overlay_walk (size m) m clickhouse_slot tip tip 0 with
      | Some o => Some o
      | None => first_overlay m clickhouse_slot rest
      end
  end.

(** [HeadCache::transaction_count_overlay_at_least]; map keys are distinct, so the
    [dedup] of the source changes nothing. *)
Definition transaction_count_overlay_at_least (c : HeadCache) (min_commitment : CommitmentLevel)
    (clickhouse_slot : Z) : option TransactionCountOverlay :=
  first_overlay (slot_block_metadata (blocks c)) clickhouse_slot (candidate_tips c min_commitment).

(** ** Transactions *)

(** [HeadCache::meta_commitment] *)
Definition meta_commitment (c : HeadCache) (meta : HeadTxMeta) : CommitmentLevel :=
  match tm_bank_commitment meta with
  | None => slot_commitment_at c (pos_slot (tm_pos meta))
  | Some token => decode_commitment (token_rank c (Some token))
  end.

(** [HeadCache::signature_position] *)
Definition signature_position (c : HeadCache) (sig : Signature) : option SlotIndex :=
  tm_pos <$> (meta_by_signature (txs c) !! sig).

(** [HeadCache::get_meta] *)
Definition get_meta (c : HeadCache) (sig : Signature) (min_commitment : CommitmentLevel) : option HeadTxMeta :=
  match meta_by_signature (txs c) !! sig with
  | None => None
  | Some meta => if negb (commitment_meets (meta_commitment c meta) min_commitment) then None else Some meta
  end.

(** [HeadCache::get_tx] *)
Definition get_tx (c : HeadCache) (sig : Signature) (min_commitment : CommitmentLevel) :
    option StoredTransactionRecord :=
  match meta_by_signature (txs c) !! sig with
  | None => None
  | Some meta =>
      if negb (commitment_meets (meta_commitment c meta) min_commitment) then None
      else tx_by_signature (txs c) !! sig
  end.

(** ** Blocks *)

Inductive TransactionDetails := DetailsFull | DetailsSignatures | DetailsAccounts | DetailsNone.

(** The columns of [StoredAccountsTransactionRecord] that [StoredTransactionRecord] models. *)
Record AccountsRecord := mkAccounts {
  ar_account_keys : list Address;
  ar_loaded_writable : list Address;
  ar_loaded_readonly : list Address;
}.
Definition accounts_from (r : StoredTransactionRecord) : AccountsRecord :=
  mkAccounts (tx_account_keys r) (meta_loaded_addresses_writable r) (meta_loaded_addresses_readonly r).

(** [StoredBlockPayload] *)
Inductive StoredBlockPayload :=
| PayloadMetadata (m : BlockMetadataRecord)
| PayloadSignatures (m : BlockMetadataRecord) (signatures : list string)
| PayloadAccounts (m : BlockMetadataRecord) (transactions : list AccountsRecord)
| PayloadFull (m : BlockMetadataRecord) (transactions : list StoredTransactionRecord).

Definition payload_metadata (p : StoredBlockPayload) : BlockMetadataRecord :=
  match p with
  | PayloadMetadata m | PayloadSignatures m _ | PayloadAccounts m _ | PayloadFull m _ => m
  end.

(** The order of signatures: bytes, lexicographically. *)
Fixpoint sig_leb (a b : list Z) : bool :=
  match a, b with
  | [], _ => true
  | _ :: _, [] => false
  | x :: a', y :: b' => ((x <? y) || ((x =? y) && sig_leb a' b'))%bool
  end.

(** [lhs.0.cmp(&rhs.0).then_with(|| lhs.1.cmp(&rhs.1))] *)
Definition ordered_le (a b : Z * Signature) : Prop :=
  ((fst a <? fst b) || ((fst a =? fst b) && sig_leb (snd a) (snd b)))%bool = true.
#[export] Instance ordered_le_dec : RelDecision ordered_le.
Proof. intros a b. unfold ordered_le. apply _. Defined.

(** The positions of a slot's signatures; [None] when one is projected elsewhere. *)
Fixpoint slot_positions (c : HeadCache) (slot : Z) (sigs : list Signature) : option (list (Z * Signature)) :=
  match sigs with
  | [] => Some []
  | sig :: rest =>
      match meta_by_signature (txs c) !! sig with
      | None => None
      | Some meta =>
          if negb (pos_slot (tm_pos meta) =? slot) then None
          else (fun l => (pos_idx (tm_pos meta), sig) :: l) <$> slot_positions c slot rest
      end
  end.

Section Base58.
Context (bs58 : Signature -> string).

(** [HeadCache::get_block] *)
Definition get_block (c : HeadCache) (slot : Z) (min_commitment : CommitmentLevel)
    (transaction_details : TransactionDetails) : option StoredBlockPayload :=
  if negb (commitment_meets (slot_commitment_at c slot) min_commitment) then None
  else
    match slot_block_metadata (blocks c) !! slot with
    | None => None
    | Some metadata =>
        match transaction_details with
        | DetailsNone => Some (PayloadMetadata metadata)
        | _ =>
            let expected_txs := m_executed_transaction_count metadata in
            match (if expected_txs =? 0 then Some [] else sigs_by_slot (txs c) !! slot) with
            | None => None
            | Some slot_signatures =>
                if negb (zlen slot_signatures =? expected_txs) then None
                else
                  match slot_positions c slot slot_signatures with
                  | None => None
                  | Some positions =>
                      let ordered := map snd (merge_sort ordered_le positions) in
                      match transaction_details with
                      | DetailsSignatures => Some (PayloadSignatures metadata (map bs58 ordered))
                      | _ =>
                          match mapM (fun sig => tx_by_signature (txs c) !! sig) ordered with
                          | None => None
                          | Some transactions =>
                              match transaction_details with
                              | DetailsAccounts => Some (PayloadAccounts metadata (map accounts_from transactions))
                              | DetailsFull => Some (PayloadFull metadata transactions)
                              | _ => None
                              end
                          end
                      end
                  end
            end
        end
    end.

End Base58.

(** ** Address histories *)

Definition to_signature_slot (p : SlotIndex) : SignatureSlot := mkSigSlot (pos_slot p) (pos_idx p).

(** The loop of [signatures_for_address]. *)
Fixpoint address_loop (c : HeadCache) (before until : option SlotBoundary) (min_commitment : CommitmentLevel)
    (limit : Z) (out : list (Signature * HeadTxMeta)) (keys : list HeadSigKey) : list (Signature * HeadTxMeta) :=
  match keys with
  | [] => out
  | key :: rest =>
      let next out := address_loop c before until min_commitment limit out rest in
      let p := to_signature_slot (key_pos key) in
      if match before with Some b => negb (position_before_boundary p b) | None => false end then next out
      else if match until with Some u => negb (position_after_boundary p u) | None => false end then next out
      else if negb (commitment_meets (slot_commitment_at c (pos_slot (key_pos key))) min_commitment) then next out
      else
        match meta_by_signature (txs c) !! key_signature key with
        | None => next out
        | Some meta =>
            let out := out ++ [(key_signature key, meta)] in
            if limit <=? zlen out then out else next out
        end
  end.

(** [HeadCache::signatures_for_address]; an entry is paired with its signature, which the
    source reads from [signature_str]. *)
Definition signatures_for_address (c : HeadCache) (address : Address) (before until : option SlotBoundary)
    (limit : Z) (min_commitment : CommitmentLevel) : list (Signature * HeadTxMeta) :=
  match sigs_by_address (txs c) !! address with
  | None => []
  | Some keys => address_loop c before until min_commitment limit [] keys
  end.

(** [HeadCache::address_list_full] *)
Definition address_list_full (c : HeadCache) (address : Address) : bool :=
  match sigs_by_address (txs c) !! address with
  | Some keys => max_per_address c <=? zlen keys
  | None => false
  end.

(** [HeadCache::chain_floor]; [now] is the clock. *)
Definition chain_floor (c : HeadCache) (commitment : CommitmentLevel) (now : Z) : option Z :=
  match snapshot 0 None commitment now (proof c) with
  | Some (Ok (_, coverage)) => fst <$> head (sc_intervals coverage)
  | _ => None
  end.

(** [HeadCache::address_floor] *)
Definition address_floor (c : HeadCache) (address : Address) (floor : option Z) : option Z :=
  match floor with
  | None => None
  | Some floor =>
      let floor := Z.max floor (min_retained_slot c) in
      Some (match address_truncated_slot (txs c) !! address with
            | Some slot => Z.max floor (sat_add slot 1)
            | None => floor
            end)
  end.
