(* ===== verification/HeadIndex.v ===== *)
(** * HeadIndex: the transaction indexes of the head cache agree

    The invariant of [Txs] ([txs_ok]): a signature is listed under the one slot it is
    projected at, every key of an address names a projected transaction that touches the
    address, keys are newest first, and above the retention floor and the slots the
    per-address cap dropped from no key is missing.  Every operation on the indexes
    preserves it. *)

From S2P Require Import Prelude BTree SlotCoverage HeadCoverage HeadCache.

Open Scope Z_scope.

Definition record_addresses (r : StoredTransactionRecord) : list Address :=
  tx_account_keys r ++ meta_loaded_addresses_writable r ++ meta_loaded_addresses_readonly r.

Definition keys_of (t : Txs) (a : Address) : list HeadSigKey := default [] (sigs_by_address t !! a).
Definition slot_sigs (t : Txs) (slot : Z) : list Signature := default [] (sigs_by_slot t !! slot).
Definition slot_addrs (t : Txs) (slot : Z) : list Address := default [] (addrs_by_slot t !! slot).
Definition key_slot (k : HeadSigKey) : Z := pos_slot (key_pos k).

(** The signature is projected at the slot. *)
Definition projected_at (t : Txs) (slot : Z) (sig : Signature) : bool :=
  match meta_by_signature t !! sig with Some m => pos_slot (tm_pos m) =? slot | None => false end.

(** The key names a projected transaction that touches the address. *)
Definition indexed (t : Txs) (a : Address) (k : HeadSigKey) : Prop :=
  exists m r, meta_by_signature t !! key_signature k = Some m /\ tm_pos m = key_pos k /\
    tx_by_signature t !! key_signature k = Some r /\ a ∈ record_addresses r.

(** Newest first. *)
Definition newer (k k' : HeadSigKey) : Prop := pos_gtb (key_pos k') (key_pos k) = false.

Definition above_truncation (t : Txs) (a : Address) (slot : Z) : Prop :=
  forall s, address_truncated_slot t !! a = Some s -> s < slot.

Record txs_ok (floor : Z) (t : Txs) : Prop := {
  to_dom : forall sig, is_Some (meta_by_signature t !! sig) <-> is_Some (tx_by_signature t !! sig);
  to_slots : forall slot sig, sig ∈ slot_sigs t slot <-> projected_at t slot sig = true;
  to_nodup : forall slot, NoDup (slot_sigs t slot);
  to_addrs : forall a k, k ∈ keys_of t a -> a ∈ slot_addrs t (key_slot k);
  to_keys : forall a k, k ∈ keys_of t a -> indexed t a k;
  to_sorted : forall a, StronglySorted newer (keys_of t a);
  to_distinct : forall a, NoDup (map key_signature (keys_of t a));
  to_complete : forall a k, indexed t a k -> floor <= key_slot k -> above_truncation t a (key_slot k) ->
    k ∈ keys_of t a;
}.

Lemma txs_new_ok floor : txs_ok floor (mkTxs ∅ ∅ ∅ ∅ ∅ ∅).
Proof.
  split; unfold slot_sigs, slot_addrs, keys_of, projected_at, indexed; cbn.
  - intros sig. by rewrite !lookup_empty.
  - intros slot sig. rewrite !lookup_empty. simpl. split; [by intros ?%elem_of_nil|done].
  - intros slot. rewrite lookup_empty. constructor.
  - intros a k. rewrite lookup_empty. by intros ?%elem_of_nil.
  - intros a k. rewrite lookup_empty. by intros ?%elem_of_nil.
  - intros a. rewrite lookup_empty. constructor.
  - intros a. rewrite lookup_empty. constructor.
  - intros a k (m & r & E & _). by rewrite lookup_empty in E.
Qed.

Lemma txs_floor_mono floor floor' t : floor <= floor' -> txs_ok floor t -> txs_ok floor' t.
Proof. intros Hf []. split; eauto. intros a k Hi Hk. apply to_complete0; [done|lia]. Qed.

(** ** Removing a slot *)

Lemma remove_signatures_spec slot l t :
  let t' := foldl (remove_signature slot) t l in
  (forall sig, meta_by_signature t' !! sig =
     if (bool_decide (sig ∈ l) && projected_at t slot sig)%bool then None else meta_by_signature t !! sig) /\
  (forall sig, tx_by_signature t' !! sig =
     if (bool_decide (sig ∈ l) && projected_at t slot sig)%bool then None else tx_by_signature t !! sig) /\
  sigs_by_address t' = sigs_by_address t /\ address_truncated_slot t' = address_truncated_slot t /\
  sigs_by_slot t' = sigs_by_slot t /\ addrs_by_slot t' = addrs_by_slot t.
Proof.
  revert t. induction l as [|s l IH]; intros t; cbn [foldl].
  { split; [|split; [|done]]; intros sig; by rewrite bool_decide_eq_false_2 by by apply not_elem_of_nil. }
  destruct (IH (remove_signature slot t s)) as (H1 & H2 & H3 & H4 & H5 & H6).
  assert (Hp : forall sig, projected_at (remove_signature slot t s) slot sig =
            (projected_at t slot sig && negb (bool_decide (sig = s)))%bool).
  { intros sig. unfold remove_signature, projected_at. destruct (meta_by_signature t !! s) as [m|] eqn:E.
    - destruct (pos_slot (tm_pos m) =? slot) eqn:Es; cbn [meta_by_signature].
      + destruct (decide (sig = s)) as [->|Hne].
        * rewrite lookup_delete_eq, bool_decide_eq_true_2 by done. by rewrite andb_false_r.
        * rewrite lookup_delete_ne by done. rewrite bool_decide_eq_false_2 by done. by rewrite andb_true_r.
      + case_bool_decide; [subst; rewrite E, Es|]; by rewrite ?andb_true_r.
    - case_bool_decide; [subst; by rewrite E|by rewrite andb_true_r]. }
  assert (Hf : sigs_by_address (remove_signature slot t s) = sigs_by_address t /\
    address_truncated_slot (remove_signature slot t s) = address_truncated_slot t /\
    sigs_by_slot (remove_signature slot t s) = sigs_by_slot t /\
    addrs_by_slot (remove_signature slot t s) = addrs_by_slot t).
  { unfold remove_signature. repeat case_match; done. }
  destruct Hf as (F1 & F2 & F3 & F4). rewrite F1 in H3. rewrite F2 in H4. rewrite F3 in H5. rewrite F4 in H6.
  split; [|split; [|done]]; intros sig; [rewrite H1|rewrite H2]; rewrite Hp;
    rewrite (bool_decide_ext (sig ∈ s :: l) (sig = s \/ sig ∈ l)) by apply elem_of_cons;
    destruct (decide (sig = s)) as [->|Hne].
  1,3: rewrite (bool_decide_eq_true_2 (s = s)) by done; rewrite (bool_decide_eq_true_2 (s = s \/ _)) by auto;
       rewrite andb_false_r, andb_false_r; simpl; unfold remove_signature, projected_at;
       destruct (meta_by_signature t !! s) as [m|] eqn:E; [destruct (pos_slot (tm_pos m) =? slot)|];
       cbn; rewrite ?lookup_delete_eq; by rewrite ?E.
  all: rewrite (bool_decide_eq_false_2 (sig = s)) by done;
       rewrite (bool_decide_ext (sig = s \/ sig ∈ l) (sig ∈ l)) by tauto; rewrite andb_true_r;
       destruct (bool_decide (sig ∈ l) && projected_at t slot sig)%bool; [done|];
       unfold remove_signature; repeat case_match; cbn; by rewrite ?lookup_delete_ne by done.
Qed.

Definition not_at (slot : Z) (k : HeadSigKey) : bool := negb (key_slot k =? slot).

Lemma filter_twice {A} (p : A -> bool) l : List.filter p (List.filter p l) = List.filter p l.
Proof. induction l as [|x l IH]; simpl; [done|]. destruct (p x) eqn:E; simpl; [|done]. rewrite E. by f_equal. Qed.

Lemma remove_addresses_spec slot l t :
  let t' := foldl (remove_address_keys slot) t l in
  (forall a, keys_of t' a = if bool_decide (a ∈ l) then List.filter (not_at slot) (keys_of t a) else keys_of t a) /\
  meta_by_signature t' = meta_by_signature t /\ tx_by_signature t' = tx_by_signature t /\
  address_truncated_slot t' = address_truncated_slot t /\
  sigs_by_slot t' = sigs_by_slot t /\ addrs_by_slot t' = addrs_by_slot t.
Proof.
  revert t. induction l as [|b l IH]; intros t; cbn [foldl].
  { split; [|done]. intros a. by rewrite bool_decide_eq_false_2 by by apply not_elem_of_nil. }
  destruct (IH (remove_address_keys slot t b)) as (H1 & H2 & H3 & H4 & H5 & H6).
  assert (Hk : forall a, keys_of (remove_address_keys slot t b) a =
            if bool_decide (a = b) then List.filter (not_at slot) (keys_of t a) else keys_of t a).
  { intros a. unfold remove_address_keys, keys_of, not_at, key_slot. destruct (sigs_by_address t !! b) as [d|] eqn:E.
    - cbn. case_bool_decide as Hd; case_bool_decide as Ha; subst.
      + rewrite lookup_delete_eq, E. simpl. by rewrite Hd.
      + by rewrite lookup_delete_ne.
      + by rewrite lookup_insert_eq, E.
      + by rewrite lookup_insert_ne.
    - case_bool_decide; [subst; by rewrite E|done]. }
  assert (Hf : meta_by_signature (remove_address_keys slot t b) = meta_by_signature t /\
    tx_by_signature (remove_address_keys slot t b) = tx_by_signature t /\
    address_truncated_slot (remove_address_keys slot t b) = address_truncated_slot t /\
    sigs_by_slot (remove_address_keys slot t b) = sigs_by_slot t /\
    addrs_by_slot (remove_address_keys slot t b) = addrs_by_slot t).
  { unfold remove_address_keys. repeat case_match; done. }
  destruct Hf as (F1 & F2 & F3 & F4 & F5).
  rewrite H2, H3, H4, H5, H6. split; [|done]. intros a. rewrite H1, Hk.
  destruct (decide (a = b)) as [->|Hne].
  - rewrite (bool_decide_eq_true_2 (b = b)), (bool_decide_eq_true_2 (b ∈ b :: l)) by (done || set_solver).
    case_bool_decide; [apply filter_twice|done].
  - rewrite (bool_decide_eq_false_2 (a = b)) by done. by rewrite (bool_decide_ext (a ∈ b :: l) (a ∈ l)) by set_solver.
Qed.

(** What is left after a slot is removed. *)
Record slot_removed (slot : Z) (t t' : Txs) : Prop := {
  sr_meta : forall sig, meta_by_signature t' !! sig = if projected_at t slot sig then None else meta_by_signature t !! sig;
  sr_tx : forall sig, tx_by_signature t' !! sig = if projected_at t slot sig then None else tx_by_signature t !! sig;
  sr_keys : forall a, keys_of t' a = List.filter (not_at slot) (keys_of t a);
  sr_truncated : address_truncated_slot t' = address_truncated_slot t;
  sr_sigs : forall s, slot_sigs t' s = if bool_decide (s = slot) then [] else slot_sigs t s;
  sr_addrs : forall s, slot_addrs t' s = if bool_decide (s = slot) then [] else slot_addrs t s;
}.

Lemma filter_all {A} (p : A -> bool) l : (forall x, x ∈ l -> p x = true) -> List.filter p l = l.
Proof.
  induction l as [|x l IH]; intros H; simpl; [done|]. rewrite (H x) by apply list_elem_of_here.
  f_equal. apply IH. intros y Hy. apply H. by apply list_elem_of_further.
Qed.

Lemma remove_slot_txs_spec floor slot t : txs_ok floor t -> slot_removed slot t (remove_slot_txs slot t).
Proof.
  intros Hok. unfold remove_slot_txs.
  set (t1 := match sigs_by_slot t !! slot with Some _ => _ | None => t end).
  assert (H1 : (forall sig, meta_by_signature t1 !! sig =
                  if projected_at t slot sig then None else meta_by_signature t !! sig) /\
               (forall sig, tx_by_signature t1 !! sig =
                  if projected_at t slot sig then None else tx_by_signature t !! sig) /\
               sigs_by_address t1 = sigs_by_address t /\ address_truncated_slot t1 = address_truncated_slot t /\
               sigs_by_slot t1 = delete slot (sigs_by_slot t) /\ addrs_by_slot t1 = addrs_by_slot t).
  { pose proof (to_slots _ _ Hok slot) as Hs. unfold slot_sigs in Hs. unfold t1.
    destruct (sigs_by_slot t !! slot) as [sigs|] eqn:E; cbn in Hs.
    - destruct (remove_signatures_spec slot sigs
        (mkTxs (tx_by_signature t) (meta_by_signature t) (sigs_by_address t) (address_truncated_slot t)
           (delete slot (sigs_by_slot t)) (addrs_by_slot t))) as (A & B & C & D & F & G).
      cbn [meta_by_signature tx_by_signature sigs_by_address address_truncated_slot sigs_by_slot addrs_by_slot] in *.
      rewrite C, D, F, G. split; [|split; [|done]]; intros sig; [rewrite A|rewrite B];
        change (projected_at _ slot sig) with (projected_at t slot sig);
        destruct (projected_at t slot sig) eqn:Ep; rewrite ?andb_false_r; try done;
        by rewrite bool_decide_eq_true_2 by by apply Hs.
    - assert (forall sig, projected_at t slot sig = false) as Hn.
      { intros sig. destruct (projected_at t slot sig) eqn:Ep; [|done]. apply Hs in Ep. by apply elem_of_nil in Ep. }
      rewrite delete_id by done. split; [|split; [|done]]; intros sig; by rewrite Hn. }
  destruct H1 as (A & B & C & D & F & G). rewrite G.
  assert (Hsig : forall s, default [] (delete slot (sigs_by_slot t) !! s) =
            if bool_decide (s = slot) then [] else slot_sigs t s).
  { intros s. case_bool_decide; [subst; by rewrite lookup_delete_eq|by rewrite lookup_delete_ne]. }
  destruct (addrs_by_slot t !! slot) as [addrs|] eqn:E.
  - destruct (remove_addresses_spec slot addrs
      (mkTxs (tx_by_signature t1) (meta_by_signature t1) (sigs_by_address t1) (address_truncated_slot t1)
         (sigs_by_slot t1) (delete slot (addrs_by_slot t)))) as (K & M & N & O & P & Q).
    cbn [meta_by_signature tx_by_signature sigs_by_address address_truncated_slot sigs_by_slot addrs_by_slot] in *.
    split.
    + intros sig. by rewrite M.
    + intros sig. by rewrite N.
    + intros a. rewrite K. unfold keys_of. cbn. rewrite C. case_bool_decide as Ha; [done|].
      symmetry. apply filter_all. intros k Hk. unfold not_at. apply negb_true_iff, Z.eqb_neq. intros Hks.
      apply (to_addrs _ _ Hok) in Hk. unfold slot_addrs in Hk. rewrite Hks, E in Hk. done.
    + by rewrite O.
    + intros s. unfold slot_sigs. rewrite P, F. apply Hsig.
    + intros s. unfold slot_addrs. rewrite Q.
      case_bool_decide; [subst; by rewrite lookup_delete_eq|by rewrite lookup_delete_ne].
  - split; [done|done| |done| |].
    + intros a. unfold keys_of. rewrite C. symmetry. apply filter_all. intros k Hk. unfold not_at.
      apply negb_true_iff, Z.eqb_neq. intros Hks. apply (to_addrs _ _ Hok) in Hk. unfold slot_addrs in Hk.
      rewrite Hks, E in Hk. by apply elem_of_nil in Hk.
    + intros s. unfold slot_sigs. rewrite F. apply Hsig.
    + intros s. unfold slot_addrs. rewrite G. case_bool_decide; [subst; by rewrite E|done].
Qed.

Lemma filter_sorted {A} (R : A -> A -> Prop) (p : A -> bool) l : StronglySorted R l -> StronglySorted R (List.filter p l).
Proof.
  induction 1 as [|x l Hl IH Hx]; simpl; [constructor|]. case_match; [|done]. constructor; [done|].
  rewrite Forall_forall in *. intros y [Hy _]%elem_of_filter_b. by apply Hx.
Qed.

Lemma filter_nodup_map {A B} (f : A -> B) (p : A -> bool) l : NoDup (map f l) -> NoDup (map f (List.filter p l)).
Proof.
  induction l as [|x l IH]; simpl; [done|]. rewrite NoDup_cons. intros [Hx Hl]. case_match; [|by apply IH].
  simpl. apply NoDup_cons. split; [|by apply IH]. intros (y & Hxy & Hy)%list_elem_of_fmap. apply Hx.
  apply list_elem_of_fmap. exists y. split; [done|]. by apply elem_of_filter_b in Hy as [Hy _].
Qed.

Lemma slot_removed_indexed slot t t' a k :
  slot_removed slot t t' -> indexed t' a k <-> indexed t a k /\ key_slot k <> slot.
Proof.
  intros []. unfold indexed, key_slot. setoid_rewrite sr_meta0. setoid_rewrite sr_tx0. unfold projected_at.
  split.
  - intros (m & r & Hm & Hp & Hr & Ha). destruct (meta_by_signature t !! key_signature k) as [m'|] eqn:E; [|done].
    destruct (pos_slot (tm_pos m') =? slot) eqn:Es; [done|]. injection Hm as ->. split; [by eauto 10|].
    rewrite <- Hp. by apply Z.eqb_neq.
  - intros ((m & r & Hm & Hp & Hr & Ha) & Hne). exists m, r. rewrite Hm, Hp.
    apply Z.eqb_neq in Hne. rewrite Hne. done.
Qed.

Lemma slot_removed_ok floor slot t t' : slot_removed slot t t' -> txs_ok floor t -> txs_ok floor t'.
Proof.
  intros Hr Hok. pose proof (fun a k => slot_removed_indexed slot t t' a k Hr) as Hi.
  destruct Hok as [D S N A K O U C]. destruct Hr as [Rm Rt Rk Rc Rs Ra]. split.
  - intros sig. rewrite Rm, Rt. destruct (projected_at t slot sig); [|done]. by split; intros [? ?].
  - intros s sig. rewrite Rs. unfold projected_at. rewrite Rm. case_bool_decide as Hs.
    + subst. split; [by intros ?%elem_of_nil|]. unfold projected_at at 1. repeat case_match; try done. congruence.
    + rewrite S. unfold projected_at. destruct (meta_by_signature t !! sig) as [m|]; [|done].
      destruct (pos_slot (tm_pos m) =? slot) eqn:E; [|done]. split; [|done]. intros ?%Z.eqb_eq. zbool. congruence.
  - intros s. rewrite Rs. case_bool_decide; [constructor|apply N].
  - intros a k. rewrite Rk, Ra. intros [Hk Hs]%elem_of_filter_b. unfold not_at in Hs.
    rewrite bool_decide_eq_false_2 by (intros Heq; by rewrite Heq, Z.eqb_refl in Hs). by apply A.
  - intros a k. rewrite Rk. intros [Hk Hs]%elem_of_filter_b. apply Hi. split; [by apply K|].
    unfold not_at in Hs. intros Heq. by rewrite Heq, Z.eqb_refl in Hs.
  - intros a. rewrite Rk. apply filter_sorted, O.
  - intros a. rewrite Rk. apply filter_nodup_map, U.
  - intros a k [Hk Hne]%Hi Hf Ht. rewrite Rk. apply elem_of_filter_b. split.
    + apply C; [done|done|]. unfold above_truncation in *. by rewrite <- Rc.
    + unfold not_at. apply negb_true_iff. by apply Z.eqb_neq.
Qed.

(** ** Dropping a superseded projection *)

Definition drop_tx (sig : Signature) (t : Txs) : Txs :=
  mkTxs (delete sig (tx_by_signature t)) (meta_by_signature t) (sigs_by_address t) (address_truncated_slot t)
    (sigs_by_slot t) (addrs_by_slot t).

Definition not_sig (sig : Signature) (k : HeadSigKey) : bool := negb (bool_decide (key_signature k = sig)).

Lemma filter_keys_fold (p : HeadSigKey -> bool) (addrs : list Address) (m : gmap Address (list HeadSigKey)) a :
  default [] (foldl (fun m addr => alter (List.filter p) addr m) m addrs !! a) =
  if bool_decide (a ∈ addrs) then List.filter p (default [] (m !! a)) else default [] (m !! a).
Proof.
  revert m. induction addrs as [|b l IH]; intros m; cbn [foldl]; [by rewrite bool_decide_eq_false_2 by by apply not_elem_of_nil|].
  rewrite IH. destruct (decide (a = b)) as [->|Hne].
  - rewrite lookup_alter_eq, (bool_decide_eq_true_2 (b ∈ b :: l)) by set_solver.
    case_bool_decide; destruct (m !! b); simpl; [apply filter_twice|done..].
  - rewrite lookup_alter_ne by done. by rewrite (bool_decide_ext (a ∈ b :: l) (a ∈ l)) by set_solver.
Qed.

Lemma filter_ext {A} (p q : A -> bool) l : (forall x, x ∈ l -> p x = q x) -> List.filter p l = List.filter q l.
Proof.
  induction l as [|x l IH]; intros H; simpl; [done|]. rewrite (H x) by apply list_elem_of_here.
  rewrite IH by (intros y Hy; apply H; by apply list_elem_of_further). done.
Qed.

Lemma unproject_keys floor t sig old_slot a :
  txs_ok floor t -> projected_at t old_slot sig = true ->
  keys_of (unproject sig old_slot t) a = List.filter (not_sig sig) (keys_of t a).
Proof.
  intros Hok Hp. unfold keys_of at 1, unproject. cbn. rewrite filter_keys_fold.
  change (default [] (sigs_by_address t !! a)) with (keys_of t a).
  change (default [] (addrs_by_slot t !! old_slot)) with (slot_addrs t old_slot).
  assert (Hs : forall k, k ∈ keys_of t a -> key_signature k = sig -> key_slot k = old_slot).
  { intros k Hk <-. destruct (to_keys _ _ Hok a k Hk) as (m & _ & Hm & Hpos & _).
    unfold projected_at in Hp. rewrite Hm in Hp. unfold key_slot. rewrite <- Hpos. by apply Z.eqb_eq. }
  case_bool_decide as Ha.
  - apply filter_ext. intros k Hk. unfold not_sig. case_bool_decide as E; simpl; [|done].
    rewrite (Hs k Hk E : pos_slot (key_pos k) = old_slot), Z.eqb_refl. done.
  - symmetry. apply filter_all. intros k Hk. unfold not_sig. case_bool_decide as E; [|done].
    exfalso. apply Ha. rewrite <- (Hs k Hk E). by apply (to_addrs _ _ Hok).
Qed.

Lemma unproject_ok floor t sig old_slot :
  txs_ok floor t -> projected_at t old_slot sig = true -> txs_ok floor (drop_tx sig (unproject sig old_slot t)).
Proof.
  intros Hok Hp. pose proof (fun a => unproject_keys floor t sig old_slot a Hok Hp) as Hk.
  set (t' := drop_tx sig (unproject sig old_slot t)). change (forall a, keys_of t' a = List.filter (not_sig sig) (keys_of t a)) in Hk.
  assert (Hm : forall s, meta_by_signature t' !! s = if bool_decide (s = sig) then None else meta_by_signature t !! s).
  { intros s. unfold t'. cbn. case_bool_decide; [subst; apply lookup_delete_eq|by rewrite lookup_delete_ne]. }
  assert (Ht : forall s, tx_by_signature t' !! s = if bool_decide (s = sig) then None else tx_by_signature t !! s).
  { intros s. unfold t'. cbn. case_bool_decide; [subst; apply lookup_delete_eq|by rewrite lookup_delete_ne]. }
  assert (Hss : forall s x, x ∈ slot_sigs t' s <-> x ∈ slot_sigs t s /\ x <> sig).
  { intros s x. unfold slot_sigs, t'. cbn. destruct (decide (s = old_slot)) as [->|Hne].
    - rewrite lookup_alter_eq. destruct (sigs_by_slot t !! old_slot) as [l|]; simpl; [|set_solver].
      rewrite elem_of_filter_b. case_bool_decide; naive_solver.
    - rewrite lookup_alter_ne by done. split; [|tauto]. intros Hx. split; [done|]. intros ->.
      apply (to_slots _ _ Hok) in Hx. unfold projected_at in *. destruct (meta_by_signature t !! sig); [|done]. zbool. congruence. }
  assert (Hi : forall a k, indexed t' a k <-> indexed t a k /\ key_signature k <> sig).
  { intros a k. unfold indexed. rewrite Hm, Ht. case_bool_decide; [|naive_solver]. split; [by intros (? & ? & ? & _)|by intros [_ ?]]. }
  destruct Hok as [D S N A K O U C]. split.
  - intros s. rewrite Hm, Ht. case_bool_decide; [|done]. by split; intros [? ?].
  - intros s x. rewrite Hss, S. unfold projected_at. rewrite Hm. case_bool_decide; naive_solver.
  - intros s. unfold slot_sigs, t'. cbn. destruct (decide (s = old_slot)) as [->|Hne].
    + rewrite lookup_alter_eq. specialize (N old_slot). unfold slot_sigs in N.
      destruct (sigs_by_slot t !! old_slot) as [l|]; simpl in *; [|done].
      pose proof (filter_nodup_map (fun x => x) (fun s => negb (bool_decide (s = sig))) l) as Hn.
      rewrite !map_id in Hn. by apply Hn.
    + rewrite lookup_alter_ne by done. apply N.
  - intros a k. rewrite Hk. intros [Hin _]%elem_of_filter_b. by apply A.
  - intros a k. rewrite Hk. intros [Hin Hs]%elem_of_filter_b. apply Hi. split; [by apply K|].
    unfold not_sig in Hs. by case_bool_decide.
  - intros a. rewrite Hk. apply filter_sorted, O.
  - intros a. rewrite Hk. apply filter_nodup_map, U.
  - intros a k [Hin Hs]%Hi Hf Habove. rewrite Hk. apply elem_of_filter_b. split; [by apply C|].
    unfold not_sig. by rewrite bool_decide_eq_false_2.
Qed.

(** ** Indexing a key under one address *)

Lemma insert_key_perm key l : insert_key key l ≡ₚ key :: l.
Proof. induction l as [|k l IH]; simpl; [done|]. case_match; [|done]. rewrite IH. apply Permutation_swap. Qed.

Lemma pos_gtb_trans a b c : pos_gtb a b = false -> pos_gtb b c = false -> pos_gtb a c = false.
Proof. unfold pos_gtb. lia. Qed.
Lemma pos_gtb_total a b : pos_gtb a b = true -> pos_gtb b a = false.
Proof. unfold pos_gtb. lia. Qed.

Lemma insert_key_sorted key l : StronglySorted newer l -> StronglySorted newer (insert_key key l).
Proof.
  induction 1 as [|k l Hl IH Hk]; simpl; [by repeat constructor|]. destruct (pos_gtb (key_pos k) (key_pos key)) eqn:E.
  - constructor; [done|]. rewrite Forall_forall in *. intros x Hx. rewrite insert_key_perm in Hx.
    apply elem_of_cons in Hx as [->|Hx]; [|by apply Hk]. unfold newer. by apply pos_gtb_total.
  - constructor; [by constructor|]. constructor; [done|]. rewrite Forall_forall in *. intros x Hx.
    unfold newer in *. eapply pos_gtb_trans; [by apply Hk|done].
Qed.

Lemma elem_of_rev {A} (x : A) l : x ∈ rev l <-> x ∈ l.
Proof. rewrite !list_elem_of_In. symmetry. apply in_rev. Qed.

(** The tail that is popped is older than the floor. *)
Lemma pop_old_spec min_slot l : exists popped, l = rev (pop_old min_slot (rev l)) ++ popped /\
  Forall (fun k => key_slot k < min_slot) popped.
Proof.
  assert (H : forall r, exists popped, r = popped ++ pop_old min_slot r /\ Forall (fun k => key_slot k < min_slot) popped).
  { induction r as [|k r (p & Hp & Hf)]; simpl; [by exists []|]. destruct (Z.ltb_spec (pos_slot (key_pos k)) min_slot).
    - exists (k :: p). split; [simpl; congruence|by constructor].
    - by exists []. }
  destruct (H (rev l)) as (p & Hp & Hf). exists (rev p). split.
  - rewrite <- (rev_involutive l) at 1. rewrite Hp at 1. by rewrite rev_app_distr.
  - rewrite Forall_forall in *. intros x Hx. apply Hf. by rewrite elem_of_rev in Hx.
Qed.

Lemma max_slot_fold l acc x :
  (exists s, acc = Some s /\ x <= s) \/ (exists k, k ∈ l /\ x <= key_slot k) ->
  exists s, foldl max_slot acc l = Some s /\ x <= s.
Proof.
  revert acc. induction l as [|k l IH]; intros acc [(s & -> & Hs)|(k' & Hk & Hx)]; cbn [foldl].
  - by exists s.
  - by apply elem_of_nil in Hk.
  - apply IH. left. eexists. split; [done|]. simpl. lia.
  - apply IH. apply elem_of_cons in Hk as [->|Hk]; [left|right; by exists k'].
    unfold max_slot, key_slot in *. destruct acc; eexists; (split; [done|lia]).
Qed.

(** The effect of [index_address]: a prefix of the list with the key is kept, and what is
    cut off is below the floor or recorded as truncated. *)
Record address_indexed (key : HeadSigKey) (min_slot : Z) (a : Address) (t t' : Txs) : Prop := {
  ai_meta : meta_by_signature t' = meta_by_signature t;
  ai_tx : tx_by_signature t' = tx_by_signature t;
  ai_sigs : sigs_by_slot t' = sigs_by_slot t;
  ai_addrs : addrs_by_slot t' = addrs_by_slot t;
  ai_other : forall b, b <> a -> keys_of t' b = keys_of t b;
  ai_keys : exists rest, insert_key key (keys_of t a) = keys_of t' a ++ rest /\
    forall k, k ∈ rest -> key_slot k < min_slot \/ ~ above_truncation t' a (key_slot k);
  ai_truncated : forall b s, above_truncation t' b s -> above_truncation t b s;
}.

Lemma index_address_spec limit key min_slot t a :
  address_indexed key min_slot a t (index_address limit key min_slot t a).
Proof.
  unfold index_address. change (default [] (sigs_by_address t !! a)) with (keys_of t a).
  destruct (pop_old_spec min_slot (insert_key key (keys_of t a))) as (popped & Hl & Hpop).
  set (kept := rev (pop_old min_slot (rev (insert_key key (keys_of t a))))) in *.
  set (old := address_truncated_slot t !! a).
  set (top := foldl max_slot None (rev (drop (Z.to_nat limit) kept))).
  assert (Habove : forall s, above_truncation (index_address limit key min_slot t a) a s ->
            above_truncation t a s /\ forall x, top = Some x -> x < s).
  { intros s Hs. unfold index_address, above_truncation in *.
    change (default [] (sigs_by_address t !! a)) with (keys_of t a) in Hs. cbn in Hs. fold kept in Hs. fold top old in Hs. fold old.
    destruct top as [x|].
    - specialize (Hs _ (lookup_insert_eq _ _ _)). destruct old; simplify_eq/=; split; intros; simplify_eq; lia.
    - split; [|done]. intros s0 E. by apply Hs. }
  split; cbn; try done.
  - intros b Hb. unfold keys_of. cbn. by rewrite lookup_insert_ne.
  - exists (drop (Z.to_nat limit) kept ++ popped). split.
    + unfold keys_of at 2. cbn. rewrite lookup_insert_eq. simpl. by rewrite app_assoc, take_drop.
    + intros k [Hk|Hk]%elem_of_app; [right|left; rewrite Forall_forall in Hpop; by apply Hpop].
      intros [_ Ht]%Habove. destruct (max_slot_fold (rev (drop (Z.to_nat limit) kept)) None (key_slot k)) as (s & Hs & Hle).
      { right. exists k. split; [by apply elem_of_rev|lia]. }
      specialize (Ht s Hs). lia.
  - intros b s Hs. destruct (decide (b = a)) as [->|Hne]; [by apply Habove in Hs as [Hs _]|].
    intros x Hx. apply Hs. cbn. fold kept top. destruct top; [by rewrite lookup_insert_ne|done].
Qed.

(** The indexes while a projected key is being added to the addresses that are left. *)
Record indexing (floor : Z) (key : HeadSigKey) (pending : list Address) (t : Txs) : Prop := {
  ix_dom : forall sig, is_Some (meta_by_signature t !! sig) <-> is_Some (tx_by_signature t !! sig);
  ix_slots : forall slot sig, sig ∈ slot_sigs t slot <-> projected_at t slot sig = true;
  ix_nodup : forall slot, NoDup (slot_sigs t slot);
  ix_addrs : forall a k, k ∈ keys_of t a -> a ∈ slot_addrs t (key_slot k);
  ix_keys : forall a k, k ∈ keys_of t a -> indexed t a k;
  ix_sorted : forall a, StronglySorted newer (keys_of t a);
  ix_distinct : forall a, NoDup (map key_signature (keys_of t a));
  ix_complete : forall a k, indexed t a k -> floor <= key_slot k -> above_truncation t a (key_slot k) ->
    (k = key -> a ∉ pending) -> k ∈ keys_of t a;
  ix_pending : forall a, a ∈ pending -> indexed t a key /\ a ∈ slot_addrs t (key_slot key) /\
    key_signature key ∉ map key_signature (keys_of t a);
}.

Lemma indexing_done floor key t : indexing floor key [] t -> txs_ok floor t.
Proof. intros []. split; eauto. intros a k Hi Hf Ha. apply ix_complete0; [done..|]. intros _. apply not_elem_of_nil. Qed.

Lemma sorted_prefix {A} (R : A -> A -> Prop) l k : StronglySorted R (l ++ k) -> StronglySorted R l.
Proof.
  induction l as [|x l IH]; intros H; [constructor|]. inversion H as [|? ? Hs Hf]; subst.
  constructor; [by apply IH|]. rewrite Forall_forall in *. intros y Hy. apply Hf. apply elem_of_app. by left.
Qed.

Lemma index_address_step floor limit key min_slot a l t :
  min_slot <= floor -> a ∉ l -> indexing floor key (a :: l) t ->
  indexing floor key l (index_address limit key min_slot t a).
Proof.
  intros Hmin Ha Hix. destruct (index_address_spec limit key min_slot t a) as [Em Et Es Ed Ho (rest & Hl & Hrest) Htr].
  set (t' := index_address limit key min_slot t a) in *. destruct Hix as [D S N A K O U C P].
  destruct (P a (list_elem_of_here _ _)) as (Pi & Pa & Pn).
  assert (Hi : forall b k, indexed t' b k <-> indexed t b k) by (intros; unfold indexed; by rewrite Em, Et).
  assert (Hin : forall k, k ∈ keys_of t' a -> k = key \/ k ∈ keys_of t a).
  { intros k Hk. apply elem_of_cons. rewrite <- (insert_key_perm key). rewrite Hl. apply elem_of_app. by left. }
  split.
  - by rewrite Em, Et.
  - intros s sig. unfold slot_sigs, projected_at. rewrite Es, Em. apply S.
  - intros s. unfold slot_sigs. rewrite Es. apply N.
  - intros b k Hk. unfold slot_addrs. rewrite Ed. destruct (decide (b = a)) as [->|Hne].
    + destruct (Hin k Hk) as [->|]; [done|by apply A].
    + rewrite Ho in Hk by done. by apply A.
  - intros b k Hk. apply Hi. destruct (decide (b = a)) as [->|Hne].
    + destruct (Hin k Hk) as [->|]; [done|by apply K].
    + rewrite Ho in Hk by done. by apply K.
  - intros b. destruct (decide (b = a)) as [->|Hne]; [|by rewrite Ho].
    apply (sorted_prefix _ _ rest). rewrite <- Hl. by apply insert_key_sorted.
  - intros b. destruct (decide (b = a)) as [->|Hne]; [|by rewrite Ho].
    assert (NoDup (map key_signature (keys_of t' a ++ rest))) as Hn.
    { rewrite <- Hl, insert_key_perm. simpl. by apply NoDup_cons. }
    rewrite map_app in Hn. by apply NoDup_app in Hn as [Hn _].
  - intros b k Hk Hf Hab Hp. apply Hi in Hk. destruct (decide (b = a)) as [->|Hne].
    + assert (k ∈ insert_key key (keys_of t a)) as Hk'.
      { rewrite insert_key_perm. apply elem_of_cons. destruct (decide (key_signature k = key_signature key)) as [E|E].
        - left. destruct Hk as (m & r & Hm & Hpos & _), Pi as (m' & r' & Hm' & Hpos' & _). rewrite E in Hm.
          destruct k, key; simplify_eq/=. congruence.
        - right. apply C; [done|done|by apply Htr|]. intros ->. done. }
      rewrite Hl in Hk'. apply elem_of_app in Hk' as [|Hk']; [done|]. apply Hrest in Hk' as [?|Hn]; [lia|done].
    + rewrite Ho by done. apply C; [done|done|by apply Htr|]. intros Hkk. apply not_elem_of_cons. split; [done|by apply Hp].
  - intros b Hb. destruct (P b (list_elem_of_further _ _ _ Hb)) as (Q1 & Q2 & Q3). rewrite Ho by (intros ->; done).
    split; [by apply Hi|]. unfold slot_addrs. by rewrite Ed.
Qed.

Lemma index_addresses_ok floor limit key min_slot l t :
  min_slot <= floor -> NoDup l -> indexing floor key l t ->
  txs_ok floor (foldl (index_address limit key min_slot) t l).
Proof.
  intros Hmin. revert t. induction l as [|a l IH]; intros t Hn Hix; cbn [foldl]; [by eapply indexing_done|].
  apply NoDup_cons in Hn as [Ha Hn]. apply IH; [done|]. by apply index_address_step.
Qed.

(** ** Projecting a transaction *)

(** The inserts of [ingest_bank_transaction] before the addresses are indexed. *)
Definition project (slot : Z) (sig : Signature) (record : StoredTransactionRecord) (m : HeadTxMeta)
    (addrs : list Address) (t : Txs) : Txs :=
  mkTxs (<[sig := record]> (tx_by_signature t)) (<[sig := m]> (meta_by_signature t))
    (sigs_by_address t) (address_truncated_slot t)
    (<[slot := default [] (sigs_by_slot t !! slot) ++ [sig]]> (sigs_by_slot t))
    (<[slot := default [] (addrs_by_slot t !! slot) ++ addrs]> (addrs_by_slot t)).

Lemma project_slot_sigs slot sig record m addrs t s :
  slot_sigs (project slot sig record m addrs t) s =
  if bool_decide (s = slot) then slot_sigs t s ++ [sig] else slot_sigs t s.
Proof.
  unfold slot_sigs, project. cbn. case_bool_decide; [subst; by rewrite lookup_insert_eq|by rewrite lookup_insert_ne].
Qed.

Lemma project_slot_addrs slot sig record m addrs t s :
  slot_addrs (project slot sig record m addrs t) s =
  if bool_decide (s = slot) then slot_addrs t s ++ addrs else slot_addrs t s.
Proof.
  unfold slot_addrs, project. cbn. case_bool_decide; [subst; by rewrite lookup_insert_eq|by rewrite lookup_insert_ne].
Qed.

Lemma project_indexed slot sig record m addrs t a k :
  indexed (project slot sig record m addrs t) a k <->
  (key_signature k = sig /\ key_pos k = tm_pos m /\ a ∈ record_addresses record) \/
  (key_signature k <> sig /\ indexed t a k).
Proof.
  unfold indexed, project. cbn. destruct (decide (key_signature k = sig)) as [->|Hne].
  - setoid_rewrite lookup_insert_eq. naive_solver.
  - setoid_rewrite lookup_insert_ne; [|done..]. naive_solver.
Qed.

Lemma project_indexing floor slot sig record m t :
  txs_ok floor t -> meta_by_signature t !! sig = None -> pos_slot (tm_pos m) = slot ->
  indexing floor (mkKey sig (tm_pos m)) (remove_dups (record_addresses record))
    (project slot sig record m (remove_dups (record_addresses record)) t).
Proof.
  intros [D S N A K O U C] Hnone Hslot. set (addrs := remove_dups _). set (t' := project _ _ _ _ _ _).
  assert (Hfresh : forall a k, k ∈ keys_of t a -> key_signature k <> sig).
  { intros a k Hk Hs. destruct (K a k Hk) as (m' & _ & E & _). congruence. }
  assert (Hp : forall s x, projected_at t' s x =
            if bool_decide (x = sig) then slot =? s else projected_at t s x).
  { intros s x. unfold projected_at, t', project. cbn. case_bool_decide.
    - subst. by rewrite lookup_insert_eq.
    - by rewrite lookup_insert_ne. }
  split.
  - intros x. unfold t', project. cbn. destruct (decide (x = sig)) as [->|Hne].
    + by rewrite !lookup_insert_eq.
    + by rewrite !lookup_insert_ne.
  - intros s x. unfold t'. rewrite project_slot_sigs. fold t'. rewrite Hp. specialize (S s x).
    assert (projected_at t s sig = false) as Hf by (unfold projected_at; by rewrite Hnone).
    repeat case_bool_decide; subst; rewrite ?elem_of_app, ?list_elem_of_singleton, ?S.
    + rewrite Z.eqb_refl, Hf. naive_solver.
    + naive_solver.
    + rewrite Hf. split; [done|]. intros ?%Z.eqb_eq. congruence.
    + done.
  - intros s. unfold t'. rewrite project_slot_sigs. case_bool_decide; [|done]. apply NoDup_app. split; [done|].
    split; [|apply NoDup_singleton]. intros x Hx ->%list_elem_of_singleton. apply S in Hx. unfold projected_at in Hx.
    by rewrite Hnone in Hx.
  - intros a k Hk. unfold t'. rewrite project_slot_addrs. apply A in Hk. case_bool_decide; [apply elem_of_app; by left|done].
  - intros a k Hk. apply project_indexed. right. split; [by eapply Hfresh|by apply K].
  - done.
  - done.
  - intros a k [(E1 & E2 & E3)|(E1 & E2)]%project_indexed Hf Hab Hpend.
    + exfalso. apply Hpend; [destruct k; simplify_eq/=; congruence|]. by apply elem_of_remove_dups.
    + by apply C.
  - intros a Ha. split; [|split].
    + apply project_indexed. left. split; [done|]. split; [done|]. by apply (proj1 (elem_of_remove_dups _ _)) in Ha.
    + unfold t'. rewrite project_slot_addrs. unfold key_slot. cbn. rewrite bool_decide_eq_true_2 by done. apply elem_of_app. by right.
    + intros (k & E & Hk)%list_elem_of_fmap. by apply (Hfresh a k Hk).
Qed.

(** The indexes after a transaction is projected. *)
Definition projected_txs (limit : Z) (min_slot slot : Z) (sig : Signature) (record : StoredTransactionRecord)
    (m : HeadTxMeta) (t : Txs) : Txs :=
  let addrs := remove_dups (record_addresses record) in
  let t := match meta_by_signature t !! sig with
           | Some old => unproject sig (pos_slot (tm_pos old)) t
           | None => t
           end in
  foldl (index_address limit (mkKey sig (tm_pos m)) min_slot) (project slot sig record m addrs t) addrs.

Lemma project_drop_tx slot sig record m addrs t :
  project slot sig record m addrs (drop_tx sig t) = project slot sig record m addrs t.
Proof. unfold project, drop_tx. cbn. by rewrite insert_delete_eq. Qed.

Lemma projected_txs_ok floor limit min_slot slot sig record m t :
  txs_ok floor t -> min_slot <= floor -> pos_slot (tm_pos m) = slot ->
  txs_ok floor (projected_txs limit min_slot slot sig record m t).
Proof.
  intros Hok Hmin Hslot. unfold projected_txs. apply index_addresses_ok; [done|apply NoDup_remove_dups|].
  destruct (meta_by_signature t !! sig) as [old|] eqn:E; [|by apply project_indexing].
  rewrite <- project_drop_tx. apply project_indexing; [|apply lookup_delete_eq|done].
  apply unproject_ok; [done|]. unfold projected_at. rewrite E. apply Z.eqb_refl.
Qed.

(** ** Block times and truncation records *)

Lemma backfill_ok floor t l block_time : txs_ok floor t -> txs_ok floor (foldl (backfill_signature block_time) t l).
Proof.
  revert t. induction l as [|s l IH]; intros t Hok; cbn [foldl]; [done|]. apply IH.
  set (t' := backfill_signature block_time t s).
  assert (Hm : forall x, tm_pos <$> meta_by_signature t' !! x = tm_pos <$> meta_by_signature t !! x).
  { intros x. unfold t', backfill_signature. cbn. destruct (decide (x = s)) as [->|Hne];
      [rewrite lookup_alter_eq|by rewrite lookup_alter_ne]. by destruct (meta_by_signature t !! s). }
  assert (Hr : forall x, record_addresses <$> tx_by_signature t' !! x = record_addresses <$> tx_by_signature t !! x).
  { intros x. unfold t', backfill_signature. cbn. destruct (decide (x = s)) as [->|Hne];
      [rewrite lookup_alter_eq|by rewrite lookup_alter_ne]. by destruct (tx_by_signature t !! s). }
  assert (Hp : forall s x, projected_at t' s x = projected_at t s x).
  { intros s0 x. unfold projected_at. specialize (Hm x). destruct (meta_by_signature t' !! x), (meta_by_signature t !! x); simplify_eq/=; congruence. }
  assert (Hi : forall a k, indexed t' a k <-> indexed t a k).
  { intros a k. unfold indexed. specialize (Hm (key_signature k)). specialize (Hr (key_signature k)).
    destruct (meta_by_signature t' !! key_signature k), (meta_by_signature t !! key_signature k),
      (tx_by_signature t' !! key_signature k), (tx_by_signature t !! key_signature k); simplify_eq/=; naive_solver congruence. }
  destruct Hok as [D S N A K O U C]. split; try done.
  - intros x. specialize (Hm x). specialize (Hr x). rewrite <- (fmap_is_Some tm_pos), <- (fmap_is_Some record_addresses), Hm, Hr.
    rewrite !fmap_is_Some. apply D.
  - intros s0 x. rewrite Hp. apply S.
  - intros a k Hk. apply Hi. by apply K.
  - intros a k Hk. apply Hi in Hk. by apply C.
Qed.

Lemma truncation_filter_ok floor t :
  txs_ok floor t ->
  txs_ok floor (mkTxs (tx_by_signature t) (meta_by_signature t) (sigs_by_address t)
                  (filter (fun e => floor <= snd e) (address_truncated_slot t)) (sigs_by_slot t) (addrs_by_slot t)).
Proof.
  intros [D S N A K O U C]. split; try done. intros a k Hi Hf Ht. apply C; [done|done|]. intros s E.
  destruct (decide (floor <= s)); [|lia]. apply Ht. cbn. by apply map_lookup_filter_Some.
Qed.
