(* ===== verification/HeadTxs.v ===== *)
(** * HeadTxs: the cached transactions belong to the selected banks

    Lifts the index invariant of [HeadIndex] to the cache and to the bank protocol: after
    any stream the transactions projected at a slot the protocol still tracks are
    transactions of that slot's selected, sealed bank, at their index, converted from what
    was streamed ([head_txs_ok]). *)

From S2P Require Import Prelude BTree SlotCoverage HeadCoverage HeadCache HeadIndex Banks BanksSound.

Open Scope Z_scope.

(** The transaction projected under a signature. *)
Definition holds (t : Txs) (sig : Signature) (m : HeadTxMeta) (r : StoredTransactionRecord) : Prop :=
  meta_by_signature t !! sig = Some m /\ tx_by_signature t !! sig = Some r.

Abbreviation entry_pred := (Signature -> HeadTxMeta -> StoredTransactionRecord -> Prop).

Definition with_meta_time (time : option Z) (m : HeadTxMeta) : HeadTxMeta :=
  mkTxMeta (tm_bank_commitment m) (tm_pos m) time.

(** A property of entries that does not depend on the block time. *)
Definition timeless (Q : entry_pred) : Prop :=
  forall sig m r t t', Q sig m r -> Q sig (with_meta_time t m) (with_block_time t' r).

(** The indexes are in order, every projected slot (but [extra], the one being published)
    has a commitment, and every entry satisfies [Q]. *)
Record cache_ix (Q : entry_pred) (extra : option Z) (c : HeadCache) : Prop := {
  cx_ok : txs_ok (min_retained_slot c) (txs c);
  cx_committed : forall slot sig, projected_at (txs c) slot sig = true ->
    extra = Some slot \/ is_Some (slot_commitment c !! slot);
  cx_from : forall sig m r, holds (txs c) sig m r -> Q sig m r;
}.

Lemma cache_ix_weaken (Q Q' : entry_pred) extra c :
  (forall sig m r, holds (txs c) sig m r -> Q sig m r -> Q' sig m r) -> cache_ix Q extra c -> cache_ix Q' extra c.
Proof. intros H []. split; eauto. Qed.

(** Only the indexes, the newest slot and the commitments matter. *)
Lemma cache_ix_frame Q extra c c' :
  txs c' = txs c -> latest_slot c <= latest_slot c' -> retain_slots c' = retain_slots c ->
  (forall slot, is_Some (slot_commitment c !! slot) -> is_Some (slot_commitment c' !! slot)) ->
  cache_ix Q extra c -> cache_ix Q extra c'.
Proof.
  intros Ht Hl Hr Hc []. split; rewrite ?Ht; eauto.
  - eapply txs_floor_mono; [|done]. unfold min_retained_slot. rewrite Hr. sat_lia.
  - intros slot sig Hp. destruct (cx_committed0 slot sig Hp); auto.
Qed.

Lemma remove_slot_inner_ix Q extra slot c :
  cache_ix Q extra c ->
  cache_ix Q extra (remove_slot_inner slot c) /\
  forall sig m r, holds (txs (remove_slot_inner slot c)) sig m r -> pos_slot (tm_pos m) <> slot.
Proof.
  intros []. pose proof (remove_slot_txs_spec _ slot _ cx_ok0) as Hr.
  change (txs (remove_slot_inner slot c)) with (remove_slot_txs slot (txs c)).
  assert (Hm : forall sig m, meta_by_signature (remove_slot_txs slot (txs c)) !! sig = Some m ->
            meta_by_signature (txs c) !! sig = Some m /\ pos_slot (tm_pos m) <> slot).
  { intros sig m. rewrite (sr_meta _ _ _ Hr). unfold projected_at. destruct (meta_by_signature (txs c) !! sig) as [m'|]; [|done].
    destruct (Z.eqb_spec (pos_slot (tm_pos m')) slot); [done|]. by intros [= ->]. }
  split.
  - split; [by eapply slot_removed_ok| |].
    + intros k sig. change (txs (remove_slot_inner slot c)) with (remove_slot_txs slot (txs c)).
      intros Hp. unfold projected_at in Hp. destruct (meta_by_signature (remove_slot_txs _ _) !! sig) as [m|] eqn:E; [|done].
      apply Hm in E as [E Hne]. apply Z.eqb_eq in Hp. destruct (cx_committed0 k sig) as [|Hc]; [|by left|].
      { unfold projected_at. rewrite E. by apply Z.eqb_eq. }
      right. change (slot_commitment (remove_slot_inner slot c)) with (delete slot (slot_commitment c)).
      rewrite lookup_delete_ne by congruence. done.
    + intros sig m r [Em Er]. change (txs (remove_slot_inner slot c)) with (remove_slot_txs slot (txs c)) in *.
      apply Hm in Em as [Em _]. apply cx_from0. split; [done|]. rewrite (sr_tx _ _ _ Hr) in Er. by destruct (projected_at _ _ _).
  - intros sig m r [Em _]. by apply Hm in Em as [_ ?].
Qed.

Lemma remove_slots_ix Q extra l c :
  cache_ix Q extra c -> cache_ix Q extra (foldl (fun c slot => remove_slot_inner slot c) c l).
Proof. revert c. induction l as [|s l IH]; intros c Hc; cbn [foldl]; [done|]. apply IH. by apply remove_slot_inner_ix. Qed.

Lemma remove_slots_latest l c :
  latest_slot (foldl (fun c slot => remove_slot_inner slot c) c l) = latest_slot c /\
  retain_slots (foldl (fun c slot => remove_slot_inner slot c) c l) = retain_slots c.
Proof. revert c. induction l as [|s l IH]; intros c; cbn [foldl]; [done|]. by destruct (IH (remove_slot_inner s c)) as [-> ->]. Qed.

Lemma evict_old_slots_ix Q extra c : cache_ix Q extra c -> cache_ix Q extra (evict_old_slots c).
Proof.
  intros Hc. unfold evict_old_slots. cbv zeta. destruct (List.filter _ _) as [|s l]; [done|].
  pose proof (remove_slots_ix Q extra (s :: l) c Hc) as Hr. destruct (remove_slots_latest (s :: l) c) as [El Er].
  set (c' := foldl _ c (s :: l)) in *. destruct Hr as [Hok Hcom Hfrom].
  assert (Hm : min_retained_slot c' = min_retained_slot c) by (unfold min_retained_slot; by rewrite El, Er).
  split; [|exact Hcom|exact Hfrom].
  change (min_retained_slot (set_txs _ c')) with (min_retained_slot c'). cbn [set_txs txs]. rewrite Hm in Hok |- *.
  by apply truncation_filter_ok.
Qed.

Lemma set_latest_ix Q extra n c : latest_slot c <= n -> cache_ix Q extra c -> cache_ix Q extra (set_latest n c).
Proof. intros Hn. by apply cache_ix_frame. Qed.

Lemma set_proof_ix Q extra p c : cache_ix Q extra c -> cache_ix Q extra (set_proof p c).
Proof. by apply cache_ix_frame. Qed.

Lemma note_block_metadata_ix Q extra m c : timeless Q -> cache_ix Q extra c -> cache_ix Q extra (note_block_metadata m c).
Proof.
  intros HQ Hc. destruct (note_block_metadata_spec m c) as (_ & _ & El & Er & _ & Ec).
  assert (Ht : txs (note_block_metadata m c) = txs c \/
    exists t l, txs (note_block_metadata m c) = foldl (backfill_signature t) (txs c) l).
  { unfold note_block_metadata, backfill_slot_block_time. cbv zeta. destruct (m_block_time m); [|by left].
    cbn. destruct (sigs_by_slot (txs c) !! m_slot m); [right; cbn; by eauto|by left]. }
  destruct Ht as [Ht|(t & l & Ht)].
  - eapply cache_ix_frame; [done|lia|done| |done]. by rewrite Ec.
  - destruct Hc as [Hok Hcom Hfrom].
    assert (Hback : forall l tx sig m r, holds (foldl (backfill_signature t) tx l) sig m r ->
              exists m0 r0 t1 t2, holds tx sig m0 r0 /\ m = with_meta_time t1 m0 /\ r = with_block_time t2 r0).
    { clear. induction l as [|s l IH]; intros tx sig m r; cbn [foldl].
      - intros H. exists m, r, (tm_block_time m), (r_block_time r). split; [done|]. by destruct m, r.
      - intros (m0 & r0 & t1 & t2 & [H1 H2] & -> & ->)%IH. cbn in H1, H2.
        apply lookup_alter_Some in H1, H2. unfold holds.
        destruct H1 as [[<- (m1 & H1 & ->)]|[Hne H1]], H2 as [[E2 (r1 & H2 & ->)]|[Hne' H2]]; try done.
        + by exists m1, r1, t1, t2.
        + by exists m0, r0, t1, t2. }
    split.
    + rewrite Ht. unfold min_retained_slot. rewrite El, Er. by apply backfill_ok.
    + intros slot sig. rewrite Ht, Ec. unfold projected_at.
      destruct (meta_by_signature _ !! sig) as [m'|] eqn:E; [|done]. intros Hs.
      pose proof (backfill_ok _ (txs c) l t Hok) as [D _ _ _ _ _ _ _].
      destruct (proj1 (D sig)) as [r' Er']; [by eexists|].
      destruct (Hback l (txs c) sig m' r' (conj E Er')) as (m0 & r0 & t1 & t2 & [Hm0 _] & -> & _).
      apply (Hcom slot sig). unfold projected_at. by rewrite Hm0.
    + intros sig m' r' Hh. rewrite Ht in Hh. destruct (Hback _ _ _ _ _ Hh) as (m0 & r0 & t1 & t2 & H0 & -> & ->).
      apply HQ. by apply Hfrom.
Qed.

(** ** Ingesting *)

Lemma projected_txs_maps limit min_slot slot sig record m t :
  meta_by_signature (projected_txs limit min_slot slot sig record m t) = <[sig := m]> (meta_by_signature t) /\
  tx_by_signature (projected_txs limit min_slot slot sig record m t) = <[sig := record]> (tx_by_signature t).
Proof.
  unfold projected_txs.
  assert (Hf : forall key l t, meta_by_signature (foldl (index_address limit key min_slot) t l) = meta_by_signature t /\
                 tx_by_signature (foldl (index_address limit key min_slot) t l) = tx_by_signature t).
  { intros key l. induction l as [|a l IH]; intros t0; cbn [foldl]; [done|].
    destruct (IH (index_address limit key min_slot t0 a)) as [-> ->].
    destruct (index_address_spec limit key min_slot t0 a) as [-> -> _ _ _ _ _]. done. }
  destruct (meta_by_signature t !! sig) as [old|].
  - destruct (Hf (mkKey sig (tm_pos m)) (remove_dups (record_addresses record))
      (project slot sig record m (remove_dups (record_addresses record)) (unproject sig (pos_slot (tm_pos old)) t))) as [-> ->].
    cbn. by rewrite insert_delete_eq.
  - destruct (Hf (mkKey sig (tm_pos m)) (remove_dups (record_addresses record))
      (project slot sig record m (remove_dups (record_addresses record)) t)) as [-> ->]. done.
Qed.

Section Convert.
Context (stored_record : Z -> TransactionInfo -> option StoredTransactionRecord).

(** The entry is a streamed transaction of the slot, converted, with the bank's token. *)
Definition comes_from (slot token : Z) (l : list TransactionInfo) : entry_pred := fun sig m r =>
  exists tx r0 time time', tx ∈ l /\ ti_signature tx = sig /\ stored_record slot tx = Some r0 /\
    r = with_block_time time r0 /\ m = mkTxMeta (Some token) (mkPos slot (Z.min (ti_index tx) u32_max)) time'.

Lemma comes_from_timeless slot token l : timeless (comes_from slot token l).
Proof. intros sig m r t t' (tx & r0 & u & u' & H1 & H2 & H3 & -> & ->). by exists tx, r0, t', t. Qed.

(** What [ingest_bank_transaction] does when it does something. *)
Lemma ingest_shape slot token c tx :
  let min_slot := sat_sub (Z.max (latest_slot c) slot) (sat_sub (retain_slots c) 1) in
  ingest_bank_transaction stored_record slot token c tx = c \/
  exists r0 bt,
    stored_record slot tx = Some r0 /\
    let m := mkTxMeta token (mkPos slot (Z.min (ti_index tx) u32_max)) bt in
    let c' := set_txs (projected_txs (max_per_address c) min_slot slot (ti_signature tx) (with_block_time bt r0) m (txs c)) c in
    ingest_bank_transaction stored_record slot token c tx = if latest_slot c <? slot then advance_latest slot c' else c'.
Proof.
  cbv zeta. unfold ingest_bank_transaction. cbv zeta.
  destruct (slot <? _); [by left|]. destruct (negb (zlen _ =? 64)); [by left|].
  destruct (keeps_existing_projection _ _ _ _); [by left|]. destruct (stored_record slot tx) as [r0|]; [|by left].
  right. by exists r0, (slot_block_time (blocks c) !! slot).
Qed.

Lemma ingest_ix Q slot token c tx :
  (forall r0 time time', stored_record slot tx = Some r0 ->
     Q (ti_signature tx) (mkTxMeta token (mkPos slot (Z.min (ti_index tx) u32_max)) time') (with_block_time time r0)) ->
  cache_ix Q (Some slot) c -> cache_ix Q (Some slot) (ingest_bank_transaction stored_record slot token c tx).
Proof.
  intros HQ Hc. destruct (ingest_shape slot token c tx) as [->|(r0 & bt & Hr & ->)]; [done|].
  set (m := mkTxMeta _ _ _). set (min_slot := sat_sub _ _).
  set (t' := projected_txs _ _ _ _ _ _ _). set (c' := set_txs t' c).
  destruct (projected_txs_maps (max_per_address c) min_slot slot (ti_signature tx) (with_block_time bt r0) m (txs c)) as [Em Et].
  fold t' in Em, Et. destruct Hc as [Hok Hcom Hfrom].
  (* the cache with the new newest slot already set *)
  assert (Hc' : cache_ix Q (Some slot) (set_latest (Z.max (latest_slot c) slot) c')).
  { split.
    - change (min_retained_slot _) with min_slot. apply projected_txs_ok; [|lia|done].
      eapply txs_floor_mono; [|done]. unfold min_retained_slot, min_slot. sat_lia.
    - intros k sig Hp. unfold projected_at in Hp. cbn [c' set_latest set_txs txs] in Hp. rewrite Em in Hp.
      destruct (decide (sig = ti_signature tx)) as [->|Hne].
      + rewrite lookup_insert_eq in Hp. apply Z.eqb_eq in Hp. cbn in Hp. left. congruence.
      + rewrite lookup_insert_ne in Hp by done. exact (Hcom k sig Hp).
    - intros sig m' r' [H1 H2]. cbn [c' set_latest set_txs txs] in H1, H2. rewrite Em in H1. rewrite Et in H2.
      apply lookup_insert_Some in H1 as [[<- <-]|[Hne H1]].
      + rewrite lookup_insert_eq in H2. injection H2 as <-. by apply HQ.
      + rewrite lookup_insert_ne in H2 by done. by apply Hfrom. }
  destruct (Z.ltb_spec (latest_slot c) slot) as [Hlt|Hge].
  - unfold advance_latest. cbv zeta. change (latest_slot c') with (latest_slot c).
    rewrite (proj2 (Z.ltb_lt _ _) Hlt). by apply evict_old_slots_ix.
  - rewrite Z.max_l in Hc' by lia. exact Hc'.
Qed.

Lemma ingest_all_ix Q slot token l c :
  (forall sig m r, comes_from slot token l sig m r -> Q sig m r) ->
  cache_ix Q (Some slot) c -> cache_ix Q (Some slot) (ingest_all stored_record slot token l c).
Proof.
  unfold ingest_all. intros HQ.
  assert (H : forall l' c, (forall tx, tx ∈ l' -> tx ∈ l) -> cache_ix Q (Some slot) c ->
            cache_ix Q (Some slot) (foldl (ingest_bank_transaction stored_record slot (Some token)) c l')).
  { clear c. induction l' as [|tx l' IH]; intros c Hin Hc; cbn [foldl]; [done|].
    apply IH; [intros y Hy; apply Hin; by apply list_elem_of_further|].
    apply ingest_ix; [|done]. intros r0 u u' Hr. apply HQ. exists tx, r0, u, u'.
    split; [apply Hin, list_elem_of_here|done]. }
  by apply H.
Qed.

Lemma note_slot_commitment_ix Q slot level c :
  cache_ix Q (Some slot) c -> cache_ix Q None (note_slot_commitment slot level c).
Proof.
  intros [Hok Hcom Hfrom]. unfold note_slot_commitment. cbv zeta. set (noted := match _ with Some _ => _ | None => _ end).
  set (c1 := set_commitments _ _).
  assert (H1 : cache_ix Q None c1).
  { split; [|intros k sig Hp|exact Hfrom].
    - eapply txs_floor_mono; [|exact Hok]. unfold min_retained_slot. cbn. sat_lia.
    - right. cbn. destruct (decide (k = slot)) as [->|Hne]; [rewrite lookup_insert_eq; by eexists|].
      rewrite lookup_insert_ne by done. destruct (Hcom k sig Hp) as [[= ->]|]; done. }
  destruct (_ <? slot); [by apply evict_old_slots_ix|done].
Qed.

Lemma cache_ix_extra Q slot c : cache_ix Q None c -> cache_ix Q (Some slot) c.
Proof. intros [Hok Hcom Hfrom]. split; [done| |done]. intros k sig Hp. right. by destruct (Hcom k sig Hp). Qed.

(** ** The bank protocol *)

(** The entry comes from the selected bank of its slot. *)
Definition origin (sel : gmap Z Z) (bks : gmap BankKey Bank) : entry_pred := fun sig m r =>
  let slot := pos_slot (tm_pos m) in
  exists id bank l, sel !! slot = Some id /\ bks !! (slot, id) = Some bank /\ transactions bank = Some l /\
    comes_from slot (commitment bank) l sig m r.

Definition tracked_origin (s : BankState) : entry_pred := fun sig m r =>
  bank_floor s <= pos_slot (tm_pos m) -> origin (selected s) (banks s) sig m r.

Lemma origin_timeless sel bks : timeless (origin sel bks).
Proof.
  intros sig m r t t' (id & bank & l & H1 & H2 & H3 & H4). exists id, bank, l. cbn.
  do 3 (split; [done|]). by apply comes_from_timeless.
Qed.

Definition head_txs_ok (s : BankState) : Prop := cache_ix (tracked_origin s) None (cache s).

(** [s'] still has what the entries of [s] come from, at the slots it tracks. *)
Record keeps_banks (s s' : BankState) : Prop := {
  kb_floor : bank_floor s <= bank_floor s';
  kb_banks : forall slot id bank l, bank_floor s' <= slot -> selected s !! slot = Some id ->
    banks s !! (slot, id) = Some bank -> transactions bank = Some l ->
    selected s' !! slot = Some id /\ exists bank', banks s' !! (slot, id) = Some bank' /\
      transactions bank' = Some l /\ commitment bank' = commitment bank;
}.

Lemma keeps_banks_refl s : keeps_banks s s.
Proof. split; [lia|]. intros slot id bank l _ H1 H2 H3. split; [done|]. by exists bank. Qed.

Lemma keeps_banks_trans a b c : keeps_banks a b -> keeps_banks b c -> keeps_banks a c.
Proof.
  intros [F1 B1] [F2 B2]. split; [lia|]. intros slot id bank l Hf H1 H2 H3.
  destruct (B1 slot id bank l ltac:(lia) H1 H2 H3) as (S1 & b1 & K1 & K2 & K3).
  destruct (B2 slot id b1 l Hf S1 K1 K2) as (S2 & b2 & L1 & L2 & L3).
  split; [done|]. exists b2. split; [done|]. split; [done|]. congruence.
Qed.

Lemma keeps_banks_same s s' :
  bank_floor s <= bank_floor s' -> selected s' = selected s -> banks s' = banks s -> keeps_banks s s'.
Proof.
  intros Hf Hs Hb. split; [done|]. intros slot id bank l _ H1 H2 H3. rewrite Hs, Hb. split; [done|]. by exists bank.
Qed.

Lemma keeps_banks_origin s s' sig m r : keeps_banks s s' -> tracked_origin s sig m r -> tracked_origin s' sig m r.
Proof.
  intros [Hf Hb] Ho Hfl. destruct Ho as (id & bank & l & H1 & H2 & H3 & H4); [lia|].
  destruct (Hb _ _ _ _ Hfl H1 H2 H3) as (S & bank' & K1 & K2 & K3). exists id, bank', l.
  split; [done|]. split; [done|]. split; [done|]. by rewrite K3.
Qed.

(** The banks are kept and the cache is replaced by one that holds no more. *)
Lemma head_txs_step s s' :
  keeps_banks s s' -> cache_ix (tracked_origin s) None (cache s') -> head_txs_ok s'.
Proof. intros Hk Hc. eapply cache_ix_weaken; [|exact Hc]. intros sig m r _. by apply keeps_banks_origin. Qed.

Lemma head_txs_frame s s' :
  head_txs_ok s -> keeps_banks s s' -> txs (cache s') = txs (cache s) ->
  latest_slot (cache s) <= latest_slot (cache s') -> retain_slots (cache s') = retain_slots (cache s) ->
  slot_commitment (cache s') = slot_commitment (cache s) -> head_txs_ok s'.
Proof.
  intros Hok Hk Ht Hl Hr Hc. apply (head_txs_step s); [done|]. eapply cache_ix_frame; [done|done|done| |exact Hok].
  by rewrite Hc.
Qed.

Lemma set_highest_keeps s h : highest s <= h -> keeps_banks s (set_highest h s).
Proof. intros Hh. apply keeps_banks_same; [by apply floor_mono|done..]. Qed.

Lemma retain_banks_keeps s : keeps_banks s (retain_banks s).
Proof.
  split; [by apply Z.eq_le_incl|]. intros slot id bank l Hf H1 H2 H3. change (bank_floor (retain_banks s)) with (bank_floor s) in Hf.
  split; [by apply map_lookup_filter_Some|]. exists bank. split; [|done]. by apply map_lookup_filter_Some.
Qed.

Lemma retain_banks_txs s : head_txs_ok s -> head_txs_ok (retain_banks s).
Proof. intros Hok. eapply head_txs_frame; [exact Hok|apply retain_banks_keeps|done|done|done..]. Qed.

Lemma set_highest_txs s h : highest s <= h -> head_txs_ok s -> head_txs_ok (set_highest h s).
Proof. intros Hh Hok. eapply head_txs_frame; [exact Hok|by apply set_highest_keeps|done|done|done..]. Qed.

Lemma entry_bank_txs s key s' bank : head_txs_ok s -> entry_bank key s = (s', bank) -> head_txs_ok s'.
Proof.
  intros Hok. unfold entry_bank. destruct (banks s !! key) as [b|] eqn:E; intros [= <- <-]; [done|].
  eapply head_txs_frame; [exact Hok| |done|done|done|done]. split; [done|].
  intros slot id bank l _ H1 H2 H3. split; [done|]. exists bank. split; [|done]. cbn.
  rewrite lookup_insert_ne; [done|]. intros ->. congruence.
Qed.

Lemma put_bank_keeps s key old bank :
  banks s !! key = Some old -> commitment bank = commitment old ->
  (forall l, transactions old = Some l -> transactions bank = Some l) -> keeps_banks s (put_bank key bank s).
Proof.
  intros Hold Hc Ht. split; [done|]. intros slot id b l _ H1 H2 H3. split; [done|]. cbn.
  destruct (decide ((slot, id) = key)) as [<-|Hne].
  - exists bank. rewrite lookup_insert_eq. assert (b = old) as -> by congruence. split; [done|]. split; [by apply Ht|done].
  - exists b. by rewrite lookup_insert_ne.
Qed.

Lemma put_bank_txs s key old bank :
  head_txs_ok s -> banks s !! key = Some old -> commitment bank = commitment old ->
  (forall l, transactions old = Some l -> transactions bank = Some l) -> head_txs_ok (put_bank key bank s).
Proof. intros Hok H1 H2 H3. eapply head_txs_frame; [exact Hok|by eapply put_bank_keeps|done|done|done|done]. Qed.

Lemma raise_commitment_txs s key bank level now s' observed :
  head_txs_ok s -> banks s !! key = Some bank -> raise_commitment key bank level now s = (s', observed) -> head_txs_ok s'.
Proof.
  intros Hok Hb. unfold raise_commitment. intros [= <- _]. set (s1 := set_cache _ s).
  assert (H1 : head_txs_ok s1) by (eapply head_txs_frame; [exact Hok|by apply keeps_banks_same|done|done|done|done]).
  by eapply put_bank_txs.
Qed.

Lemma drop_bank_txs s key :
  head_txs_ok s -> selected s !! fst key <> Some (snd key) ->
  head_txs_ok (set_discarded ({[key]} ∪ discarded s) (set_banks (delete key (banks s)) s)).
Proof.
  intros Hok Hns. eapply head_txs_frame; [exact Hok| |done|done|done|done]. split; [done|].
  intros slot id bank l _ H1 H2 H3. split; [done|]. exists bank. split; [|done]. cbn.
  rewrite lookup_delete_ne; [done|]. by intros ->.
Qed.

(** The selection of a slot is dropped and the cache holds nothing there. *)
Lemma deselect_txs s slot c' :
  cache_ix (tracked_origin s) None c' -> (forall sig m r, holds (txs c') sig m r -> pos_slot (tm_pos m) <> slot) ->
  latest_slot (cache s) <= latest_slot c' -> retain_slots c' = retain_slots (cache s) ->
  head_txs_ok (set_cache c' (set_selected (delete slot (selected s)) s)).
Proof.
  intros Hc Hn Hl Hr. eapply cache_ix_weaken; [|exact Hc]. intros sig m r Hh Ho Hf.
  assert (Hfl : bank_floor s <= bank_floor (set_cache c' (set_selected (delete slot (selected s)) s))) by by apply floor_mono.
  destruct Ho as (id & bank & l & H1 & H2 & H3 & H4); [lia|]. exists id, bank, l. cbn.
  rewrite lookup_delete_ne; [done|]. intros E. by apply (Hn sig m r Hh).
Qed.

(** ** Publication *)

(** Projecting more transactions of the bank that is already selected. *)
Lemma republish_txs s slot id bank l level :
  head_txs_ok s -> head_ok (proof (cache s)) -> selected s !! slot = Some id -> banks s !! (slot, id) = Some bank ->
  transactions bank = Some l ->
  head_txs_ok (set_cache (note_slot_commitment slot level (ingest_all stored_record slot (commitment bank) l (cache s))) s).
Proof.
  intros Hok Hp Hs Hb Hl. set (c' := note_slot_commitment _ _ _).
  assert (L : shows_less (cache s) c').
  { pose proof (ingest_all_less stored_record slot (commitment bank) l _ Hp) as L.
    eapply shows_less_trans; [exact L|]. apply note_slot_commitment_less, L. }
  apply (head_txs_step s).
  - apply keeps_banks_same; [|done|done]. apply floor_mono; [done|apply L|done|apply L].
  - apply note_slot_commitment_ix, ingest_all_ix; [|by apply cache_ix_extra].
    intros sig m r Hc _. pose proof Hc as (tx & r0 & u & u' & _ & _ & _ & _ & Em). rewrite Em. cbn.
    exists id, bank, l. cbn. do 3 (split; [done|]). by rewrite <- Em.
Qed.

(** Projecting a newly selected bank at a slot the cache holds nothing of. *)
Lemma newly_published_txs s slot id bank m l level seen c0 :
  cache_ix (tracked_origin s) None c0 -> shows_less (cache s) c0 -> m_slot m = slot ->
  (forall sig m r, holds (txs c0) sig m r -> bank_floor s <= slot -> pos_slot (tm_pos m) <> slot) ->
  banks s !! (slot, id) = Some bank -> transactions bank = Some l ->
  head_txs_ok (set_selected (<[slot := id]> (selected s))
                 (set_cache (projected stored_record slot (commitment bank) m l level seen c0) s)).
Proof.
  intros Hc0 L0 Hm Hfree Hb Hl. set (c' := projected _ _ _ _ _ _ _ _). set (s' := set_selected _ _).
  pose proof (projected_shows stored_record slot (commitment bank) m l level seen c0 (sl_proof _ _ L0) Hm) as Hsb.
  fold c' in Hsb. pose proof (shows_bank_after _ _ _ _ _ L0 Hsb) as [_ _ _ Hlat Hret _ _].
  assert (Hfl : bank_floor s <= bank_floor s') by by apply floor_mono.
  set (Q := (fun sig m r => bank_floor s <= pos_slot (tm_pos m) -> origin (<[slot := id]> (selected s)) (banks s) sig m r) : entry_pred).
  assert (HQ : cache_ix Q None c').
  { unfold c', projected. cbv zeta. apply set_proof_ix.
    apply note_slot_commitment_ix, ingest_all_ix.
    { intros sig m0 r Hc _. pose proof Hc as (tx & r0 & u & u' & _ & _ & _ & _ & ->). exists id, bank, l. cbn.
      rewrite lookup_insert_eq. done. }
    apply note_block_metadata_ix.
    { intros sig m0 r t t' H Hf. apply origin_timeless, H, Hf. }
    apply cache_ix_extra. eapply cache_ix_weaken; [|exact Hc0]. intros sig m0 r Hh Ho Hf.
    destruct (Ho Hf) as (id' & bank' & l' & H1 & H2 & H3 & H4). exists id', bank', l'.
    rewrite lookup_insert_ne; [done|]. intros E. rewrite <- E in Hf. by apply (Hfree sig m0 r Hh). }
  eapply cache_ix_weaken; [|exact HQ]. intros sig m0 r _ H Hf. apply H. etransitivity; [exact Hfl|exact Hf].
Qed.

Lemma publish_bank_txs s key : banks_ok s -> head_txs_ok s -> head_txs_ok (publish_bank stored_record key s).
Proof.
  intros Hok Htx. unfold publish_bank. destruct (banks s !! key) as [bank|] eqn:Eb; [|done].
  destruct (metadata bank) as [m|] eqn:Em; [|done]. destruct (transactions bank) as [l|] eqn:El; [|done]. cbv zeta.
  destruct (_ <? minimum_commitment s); [done|]. destruct (_ && _)%bool; [done|].
  destruct key as [slot id]. cbn [fst snd]. case_bool_decide as Ecur.
  { eapply republish_txs; try done. apply Hok. }
  destruct (bo_bank s Hok (slot, id) bank Eb) as [Hslot _ _ _].
  set (c0 := match selected s !! slot with Some _ => _ | None => _ end).
  assert (H0 : cache_ix (tracked_origin s) None c0 /\ shows_less (cache s) c0 /\
            (forall sig m r, holds (txs c0) sig m r -> bank_floor s <= slot -> pos_slot (tm_pos m) <> slot)).
  { unfold c0. destruct (selected s !! slot) eqn:Es.
    - destruct (remove_slot_inner_ix _ _ slot _ Htx) as [H1 H2]. split; [done|].
      split; [apply remove_slot_inner_less, Hok|]. intros sig m0 r Hh _. by eapply H2.
    - split; [done|]. split; [apply shows_less_refl, Hok|]. intros sig m0 r Hh Hf E.
      destruct (cx_from _ _ _ Htx sig m0 r Hh) as (i & b & l0 & H1 & _); [by rewrite E|]. congruence. }
  destruct H0 as (H1 & H2 & H3).
  apply (newly_published_txs s slot id bank m l _ (observed_at bank) c0); try done. exact (Hslot m Em).
Qed.

(** ** The other operations *)

Lemma drop_banks_txs l s :
  head_txs_ok s -> Forall (fun key => selected s !! fst key <> Some (snd key)) l -> head_txs_ok (drop_banks s l).
Proof.
  unfold drop_banks. revert s. induction l as [|a l IH]; intros s Hok Hall; cbn [foldl]; [done|].
  apply Forall_cons in Hall as [Ha Hall]. apply IH; [by apply drop_bank_txs|exact Hall].
Qed.

Lemma deselect_other_txs slot id s : banks_ok s -> head_txs_ok s -> head_txs_ok (deselect_other slot id s).
Proof.
  intros Hok Htx. unfold deselect_other. destruct (selected s !! slot) as [i|]; [|done]. destruct (negb _); [|done].
  destruct (remove_slot_inner_ix _ _ slot _ Htx) as [H1 H2]. by apply deselect_txs.
Qed.

Lemma choose_bank_txs s key : banks_ok s -> head_txs_ok s -> head_txs_ok (choose_bank key s).
Proof.
  intros Hok Htx. rewrite choose_bank_eq. destruct key as [slot id]. cbn [fst snd].
  destruct (deselect_other_ok slot id s Hok) as (_ & _ & _ & _ & _ & _ & Hone).
  pose proof (deselect_other_txs slot id s Hok Htx) as H1. set (s1 := deselect_other slot id s) in *.
  assert (H2 : head_txs_ok (drop_banks s1 (losers (slot, id) s1))).
  { apply drop_banks_txs; [done|]. apply Forall_forall. intros [k i] (_ & Hk & Hne)%losers_elem Hs.
    cbn [fst snd] in *. subst k. apply Hne. by rewrite (Hone i Hs). }
  eapply head_txs_frame; [exact H2|by apply keeps_banks_same|done|done|done|done].
Qed.

Lemma stage_bank_metadata_txs sess id m s : banks_ok s -> head_txs_ok s -> head_txs_ok (stage_bank_metadata sess id m s).
Proof.
  intros Hb Hok. unfold stage_bank_metadata. cbv zeta. destruct (accept_bank s sess (m_slot m, id)) eqn:Ea; cbn [negb]; [|done].
  apply accept_admissible in Ea.
  assert (Hb1 : banks_ok (set_highest (Z.max (highest s) (m_slot m)) s)) by (apply set_highest_ok; [done|lia]).
  destruct (entry_bank _ _) as [s1 bank] eqn:Ee. pose proof Ee as Ee'. apply entry_bank_ok in Ee' as (_ & Hbk & _); [|done|done].
  apply entry_bank_txs in Ee; [|apply set_highest_txs; [lia|done]].
  destruct (match sealed_hash bank with Some _ => _ | None => _ end); [done|].
  apply retain_banks_txs. by eapply put_bank_txs.
Qed.

Lemma stage_bank_footer_txs sess slot id f s : banks_ok s -> head_txs_ok s -> head_txs_ok (stage_bank_footer sess slot id f s).
Proof.
  intros Hb Hok. unfold stage_bank_footer. cbv zeta. destruct (accept_bank s sess (slot, id)) eqn:Ea; cbn [negb]; [|done].
  apply accept_admissible in Ea.
  destruct (entry_bank _ _) as [s1 bank] eqn:Ee. pose proof Ee as Ee'. apply entry_bank_ok in Ee' as (_ & Hbk & _); [|done|done].
  apply entry_bank_txs in Ee; [|done]. destruct (footer bank); [done|]. apply retain_banks_txs. set (b' := mkBank _ _ _ _ _ _ _).
  assert (H2 : head_txs_ok (put_bank (slot, id) b' s1)) by by eapply put_bank_txs.
  case_bool_decide; [|done]. eapply head_txs_frame; [exact H2|by apply keeps_banks_same|done|done|done|done].
Qed.

Lemma stage_bank_entry_txs sess e s : banks_ok s -> head_txs_ok s -> head_txs_ok (stage_bank_entry sess e s).
Proof.
  intros Hb Hok. unfold stage_bank_entry. cbv zeta. destruct (accept_bank s sess _) eqn:Ea; cbn [negb]; [|done].
  apply accept_admissible in Ea.
  destruct (entry_bank _ _) as [s1 bank] eqn:Ee. pose proof Ee as Ee'. apply entry_bank_ok in Ee' as (_ & Hbk & _); [|done|done].
  apply entry_bank_txs in Ee; [|done]. destruct (sealed_hash bank); [done|]. by eapply put_bank_txs.
Qed.

Lemma freeze_bank_txs sess slot id hash l s :
  banks_ok s -> head_txs_ok s -> head_txs_ok (freeze_bank stored_record sess slot id hash l s).
Proof.
  intros Hb Hok. unfold freeze_bank. cbv zeta. destruct (accept_bank s sess _) eqn:Ea; cbn [negb]; [|done].
  apply accept_admissible in Ea.
  destruct (entry_bank _ _) as [s1 bank] eqn:Ee. pose proof Ee as Ee'. apply entry_bank_ok in Ee' as (Hb1 & Hbk & _); [|done|done].
  apply entry_bank_txs in Ee; [|done]. destruct (sealed_hash bank) eqn:Es; [done|]. destruct (metadata bank) as [m|] eqn:Em; [|done].
  case_bool_decide as Eh; cbn [negb]; [|done]. destruct (complete_bank _ _ _ _); cbn [negb]; [|done].
  apply retain_banks_txs, publish_bank_txs; [rewrite <- Em, <- Eh; by apply seal_bank_ok|].
  eapply put_bank_txs; [done|exact Hbk|done|]. intros l0 El.
  destruct (bo_bank _ Hb1 _ _ Hbk) as [_ _ [Ht _] _]. destruct Ht as [h Hh]; [by eexists|]. congruence.
Qed.

Lemma commit_bank_txs sess slot id level parent now s :
  banks_ok s -> head_txs_ok s -> head_txs_ok (commit_bank stored_record sess slot id level parent now s).
Proof.
  intros Hb Hok. unfold commit_bank. cbv zeta. destruct (accept_bank s sess _) eqn:Ea; cbn [negb]; [|done].
  apply accept_admissible in Ea. set (s1 := if bool_decide (level = Processed) then s else _).
  assert (H1 : banks_ok s1 /\ admissible s1 (slot, id) /\ head_txs_ok s1).
  { unfold s1. case_bool_decide; [done|]. destruct (choose_bank_ok s (slot, id) Hb Ea) as (? & ? & _).
    split; [done|]. split; [done|]. by apply choose_bank_txs. }
  destruct H1 as (Hb1 & Had1 & Ht1). set (s2 := set_highest _ s1).
  assert (Hb2 : banks_ok s2) by (apply set_highest_ok; [done|lia]).
  assert (Ht2 : head_txs_ok s2) by (apply set_highest_txs; [lia|done]).
  destruct (entry_bank _ s2) as [s3 bank] eqn:Ee. pose proof Ee as Ee'. apply entry_bank_ok in Ee' as (Hb3 & Hbk & _); [|done|done].
  apply entry_bank_txs in Ee; [|done].
  destruct (raise_commitment _ _ _ _ _) as [s4 observed] eqn:Er. pose proof Er as Er'.
  apply raise_commitment_ok in Er'; [|done|done]. apply raise_commitment_txs in Er; [|done|done].
  pose proof (publish_bank_txs s4 (slot, id) Er' Er) as Ht5. set (s5 := publish_bank _ _ _) in *.
  apply retain_banks_txs. eapply head_txs_frame; [exact Ht5|by apply keeps_banks_same|done|done|done|done].
Qed.

Lemma discard_bank_txs sess slot id s : banks_ok s -> head_txs_ok s -> head_txs_ok (discard_bank sess slot id s).
Proof.
  intros Hb Hok. unfold discard_bank. cbv zeta. destruct (session s =? sess); cbn [negb]; [|done].
  apply retain_banks_txs. cbn [set_discarded set_banks selected cache].
  case_bool_decide as Es; [|by apply drop_bank_txs].
  set (c1 := set_proof (invalidate_branch slot (proof (cache s))) (cache s)).
  assert (H1 : cache_ix (tracked_origin s) None c1) by by apply set_proof_ix.
  destruct (remove_slot_inner_ix _ _ slot _ H1) as [H2 H3].
  pose proof (deselect_txs s slot (remove_slot_inner slot c1) H2 H3 ltac:(done) ltac:(done)) as H4.
  apply (drop_bank_txs _ (slot, id)) in H4; [exact H4|]. cbn. by rewrite lookup_delete_eq.
Qed.

(** ** Sessions *)

Lemma remove_slots_holds Q extra l c sig m r :
  cache_ix Q extra c -> holds (txs (foldl (fun c slot => remove_slot_inner slot c) c l)) sig m r ->
  holds (txs c) sig m r /\ pos_slot (tm_pos m) ∉ l.
Proof.
  revert c. induction l as [|s l IH]; intros c Hc; cbn [foldl]; [intros ?; split; [done|apply not_elem_of_nil]|].
  destruct (remove_slot_inner_ix Q extra s c Hc) as [H1 H2]. intros [Hh Hn]%IH; [|done].
  split; [|apply not_elem_of_cons; split; [by eapply H2|done]].
  pose proof (remove_slot_txs_spec _ s _ (cx_ok _ _ _ Hc)) as [Rm Rt _ _ _ _]. destruct Hh as [Hm Hr].
  change (txs (remove_slot_inner s c)) with (remove_slot_txs s (txs c)) in *. rewrite Rm in Hm. rewrite Rt in Hr.
  destruct (projected_at (txs c) s sig); [done|]. by split.
Qed.

Lemma remove_committed_empty Q c :
  cache_ix Q None c -> cache_ix Q None (remove_committed c) /\ forall sig, meta_by_signature (txs (remove_committed c)) !! sig = None.
Proof.
  intros Hc. pose proof (remove_slots_ix Q None (committed_slots c) c Hc) as Hr. split; [exact Hr|].
  intros sig. apply eq_None_not_Some. intros [m Hm].
  destruct (proj1 (to_dom _ _ (cx_ok _ _ _ Hr) sig)) as [r Er]; [by eexists|].
  destruct (remove_slots_holds Q None _ c sig m r Hc (conj Hm Er)) as [[Hm0 _] Hn].
  apply Hn. destruct (cx_committed _ _ _ Hc (pos_slot (tm_pos m)) sig) as [|[lv Hl]]; [|done|].
  - unfold projected_at. rewrite Hm0. apply Z.eqb_refl.
  - apply list_elem_of_fmap. exists (pos_slot (tm_pos m), lv). split; [done|]. by apply elem_of_map_to_list.
Qed.

(** With nothing projected every floor and every truncation record is right. *)
Lemma empty_txs_ok floor floor' t tr :
  txs_ok floor t -> (forall sig, meta_by_signature t !! sig = None) ->
  txs_ok floor' (mkTxs (tx_by_signature t) (meta_by_signature t) (sigs_by_address t) tr (sigs_by_slot t) (addrs_by_slot t)).
Proof. intros [] Hn. split; try done. intros a k (m & r & Hm & _). cbn in Hm. by rewrite Hn in Hm. Qed.

Lemma empty_state_txs Q c sess h mc next c' :
  cache_ix Q None c -> (forall sig, meta_by_signature (txs c) !! sig = None) ->
  (exists tr, txs c' = mkTxs (tx_by_signature (txs c)) (meta_by_signature (txs c)) (sigs_by_address (txs c)) tr
                         (sigs_by_slot (txs c)) (addrs_by_slot (txs c))) ->
  head_txs_ok (mkState sess h mc ∅ ∅ ∅ ∅ next c').
Proof.
  intros [Hok _ _] Hn [tr Ht]. unfold head_txs_ok. cbn [cache]. split; rewrite ?Ht.
  - by eapply empty_txs_ok.
  - intros slot sig Hp. unfold projected_at in Hp. cbn in Hp. by rewrite Hn in Hp.
  - intros sig m r [Hm _]. cbn in Hm. by rewrite Hn in Hm.
Qed.

Lemma bank_step_txs s op : banks_ok s -> head_txs_ok s -> head_txs_ok (bank_step stored_record s op).
Proof.
  intros Hb Hok. destruct op; cbn [bank_step].
  - destruct (remove_committed_empty _ _ Hok) as [H1 H2]. eapply empty_state_txs; [exact H1|exact H2|]. cbn. by eexists.
  - unfold end_bank_session. destruct (session s =? sess); cbn [negb]; [|done].
    destruct (remove_committed_empty _ _ Hok) as [H1 H2]. eapply empty_state_txs; [exact H1|exact H2|]. cbn.
    exists (address_truncated_slot (txs (remove_committed (cache s)))). by destruct (txs (remove_committed (cache s))).
  - by apply stage_bank_metadata_txs.
  - by apply stage_bank_footer_txs.
  - by apply stage_bank_entry_txs.
  - by apply freeze_bank_txs.
  - by apply commit_bank_txs.
  - by apply discard_bank_txs.
Qed.

Lemma state_new_txs n k : head_txs_ok (state_new n k).
Proof.
  unfold head_txs_ok. cbn [cache state_new]. split; cbn.
  - apply txs_new_ok.
  - intros slot sig. unfold projected_at. cbn. by rewrite lookup_empty.
  - intros sig m r [Hm _]. cbn in Hm. by rewrite lookup_empty in Hm.
Qed.

Lemma bank_run_both ops s :
  banks_ok s -> head_txs_ok s ->
  banks_ok (foldl (bank_step stored_record) s ops) /\ head_txs_ok (foldl (bank_step stored_record) s ops).
Proof.
  revert s. induction ops as [|op ops IH]; intros s Hb Hok; cbn [foldl]; [done|].
  apply IH; [by apply bank_step_ok|by apply bank_step_txs].
Qed.

End Convert.
