(* ===== verification/HeadReadersSound.v ===== *)
(** * HeadReadersSound: what the head cache answers is true of the selected banks

    The theorems about [HeadReaders]: a block the cache serves is the whole selected bank of
    its slot, an address history is complete from the floor the cache reports, and the tips
    and counts are the ones of the published blocks. *)

From S2P Require Import Prelude BTree SlotCoverage HeadCoverage HeadCache HeadIndex Banks BanksSound HeadTxs Cursors HeadReaders.

Open Scope Z_scope.

(** ** Transaction counts

    [count_of slot hash] is the number of transactions of the block with that hash: the
    hash of a block commits to its content, so every envelope staged for it carries the
    same count. *)

Section Counts.
Context (stored_record : Z -> TransactionInfo -> option StoredTransactionRecord).
Context (count_of : Z -> list Z -> Z).

Definition staged_count_ok (op : bank_op) : Prop :=
  match op with
  | StageMetadata _ _ m => m_executed_transaction_count m = count_of (m_slot m) (m_blockhash m)
  | _ => True
  end.

Record bank_counts (key : BankKey) (bank : Bank) : Prop := {
  bc_metadata : forall m, metadata bank = Some m ->
    m_executed_transaction_count m = count_of (fst key) (m_blockhash m);
  bc_sealed : forall h l, sealed_hash bank = Some h -> transactions bank = Some l ->
    zlen l = count_of (fst key) h /\ NoDup (map ti_signature l);
}.

Record counts_ok (s : BankState) : Prop := {
  co_banks : forall key bank, banks s !! key = Some bank -> bank_counts key bank;
  co_shown : forall slot m, slot_block_metadata (blocks (cache s)) !! slot = Some m ->
    m_executed_transaction_count m = count_of slot (m_blockhash m);
}.

(** Fewer banks and a cache that shows less. *)
Lemma counts_less s s' :
  counts_ok s -> (forall key bank, banks s' !! key = Some bank -> banks s !! key = Some bank) ->
  shows_less (cache s) (cache s') -> counts_ok s'.
Proof. intros [] Hb L. split; [eauto|]. intros slot m Hm. apply co_shown0. by apply (sl_metadata _ _ L). Qed.

Lemma counts_banks s s' :
  counts_ok s -> (forall key bank, banks s' !! key = Some bank -> banks s !! key = Some bank) ->
  slot_block_metadata (blocks (cache s')) = slot_block_metadata (blocks (cache s)) -> counts_ok s'.
Proof. intros [] Hb E. split; [eauto|]. by rewrite E. Qed.

Lemma retain_banks_counts s : counts_ok s -> counts_ok (retain_banks s).
Proof. intros Hc. eapply counts_banks; [exact Hc| |done]. by intros key bank [? _]%map_lookup_filter_Some. Qed.

Lemma put_bank_counts s key bank : counts_ok s -> bank_counts key bank -> counts_ok (put_bank key bank s).
Proof. intros [] Hb. split; [|done]. unfold put_bank. cbn [set_banks banks]. intros k b [[<- <-]|[_ Hk]]%lookup_insert_Some; [done|by apply co_banks0]. Qed.

Lemma entry_bank_counts s key s' bank :
  counts_ok s -> entry_bank key s = (s', bank) -> counts_ok s' /\ bank_counts key bank.
Proof.
  intros [] Ee. unfold entry_bank in Ee. destruct (banks s !! key) as [b|] eqn:E; injection Ee as <- <-.
  - split; [by split|by apply co_banks0].
  - assert (bank_counts key (mkBank None None None None [] (next_token s) None)) by by split.
    split; [|done]. split; [|done]. cbn [banks]. intros k b [[<- <-]|[_ Hk]]%lookup_insert_Some; [done|by apply co_banks0].
Qed.

Lemma projected_metadata slot token m l level seen c k m' :
  head_ok (proof c) -> m_slot m = slot ->
  slot_block_metadata (blocks (projected stored_record slot token m l level seen c)) !! k = Some m' ->
  (k = slot /\ m' = m) \/ slot_block_metadata (blocks c) !! k = Some m'.
Proof.
  intros Hp Hm. unfold projected. cbn [set_proof blocks].
  destruct (note_block_metadata_spec m c) as (E1 & E2 & _). set (c1 := note_block_metadata m c) in *. rewrite <- E2 in Hp.
  pose proof (ingest_all_less stored_record slot token l c1 Hp) as L1.
  destruct (note_slot_commitment_less slot level _ (sl_proof _ _ L1)) as (L2 & _ & _).
  intros Hk%(sl_metadata _ _ L2)%(sl_metadata _ _ L1). rewrite E1, Hm in Hk.
  apply lookup_insert_Some in Hk as [[<- <-]|[_ Hk]]; auto.
Qed.

Lemma publish_bank_counts s key : banks_ok s -> counts_ok s -> counts_ok (publish_bank stored_record key s).
Proof.
  intros Hok Hc. unfold publish_bank. destruct (banks s !! key) as [bank|] eqn:Eb; [|done].
  destruct (metadata bank) as [m|] eqn:Em; [|done]. destruct (transactions bank) as [l|] eqn:El; [|done]. cbv zeta.
  destruct (_ <? minimum_commitment s); [done|]. destruct (_ && _)%bool; [done|]. case_bool_decide as Ecur.
  { apply (counts_less s); [done|done|]. cbn [cache set_cache].
    pose proof (ingest_all_less stored_record (fst key) (commitment bank) l _ (bo_proof s Hok)) as L.
    eapply shows_less_trans; [exact L|]. apply note_slot_commitment_less, L. }
  destruct key as [slot id]. cbn [fst snd] in *. destruct (bo_bank s Hok (slot, id) bank Eb) as [Hslot _ _ _].
  set (c0 := match selected s !! slot with Some _ => _ | None => _ end).
  assert (L0 : shows_less (cache s) c0).
  { unfold c0. destruct (selected s !! slot); [apply remove_slot_inner_less|apply shows_less_refl]; apply Hok. }
  pose proof Hc as [Hcb Hcs]. split; [done|]. intros k m' Hk. cbn [set_selected set_cache cache] in Hk.
  apply (projected_metadata slot (commitment bank) m l _ (observed_at bank) c0) in Hk as [[-> ->]|Hk];
    [|apply Hcs; by apply (sl_metadata _ _ L0)|apply L0|exact (Hslot m Em)].
  by apply (Hcb (slot, id) bank).
Qed.

Lemma choose_bank_counts s key : banks_ok s -> counts_ok s -> counts_ok (choose_bank key s).
Proof.
  intros Hok Hc. rewrite choose_bank_eq. set (s1 := deselect_other (fst key) (snd key) s).
  assert (H1 : counts_ok s1).
  { unfold s1, deselect_other. destruct (selected s !! fst key); [|done]. destruct (negb _); [|done].
    apply (counts_less s); [done|done|]. apply remove_slot_inner_less, Hok. }
  assert (H2 : forall l s, counts_ok s -> counts_ok (drop_banks s l)).
  { clear. unfold drop_banks. induction l as [|a l IH]; intros s Hc; cbn [foldl]; [done|]. apply IH.
    eapply counts_banks; [exact Hc| |done]. cbn [set_discarded set_banks banks]. by intros k b [_ Hk]%lookup_delete_Some. }
  eapply counts_banks; [apply (H2 (losers key s1) s1 H1)|done|done].
Qed.

Lemma complete_bank_counts bank slot l :
  complete_bank stored_record bank slot l = true ->
  exists m, metadata bank = Some m /\ m_executed_transaction_count m = zlen l /\ NoDup (map ti_signature l).
Proof.
  unfold complete_bank. destruct (metadata bank) as [m|]; [|done].
  destruct (Z.eqb_spec (m_executed_transaction_count m) (zlen l)) as [Ec|]; cbn [negb orb]; [|done].
  destruct (m_entry_count m =? zlen (bank_entries bank)); cbn [negb]; [|done].
  destruct (distinct_transactions _ _ _ _ _) eqn:Ed; cbn [negb]; [|done]. intros _.
  apply distinct_transactions_spec in Ed as (_ & Hn & _). by exists m.
Qed.

Lemma stage_bank_metadata_counts sess id m s :
  m_executed_transaction_count m = count_of (m_slot m) (m_blockhash m) -> counts_ok s -> counts_ok (stage_bank_metadata sess id m s).
Proof.
  intros Hop Hc. unfold stage_bank_metadata. cbv zeta. destruct (negb _); [done|].
  assert (H1 : counts_ok (set_highest (Z.max (highest s) (m_slot m)) s)) by by eapply counts_banks.
  destruct (entry_bank _ _) as [s1 bank] eqn:Ee. destruct (entry_bank_counts _ _ _ _ H1 Ee) as [H2 [Hbm Hbs]].
  destruct (match sealed_hash bank with Some _ => _ | None => _ end) eqn:Es; [done|].
  apply retain_banks_counts, put_bank_counts; [done|]. split; cbn; [|exact Hbs]. intros m' [= <-]. exact Hop.
Qed.

Lemma stage_bank_footer_counts sess slot id f s :
  counts_ok s -> counts_ok (stage_bank_footer sess slot id f s).
Proof.
  intros Hc. unfold stage_bank_footer. cbv zeta. destruct (negb _); [done|].
  destruct (entry_bank _ _) as [s1 bank] eqn:Ee. destruct (entry_bank_counts _ _ _ _ Hc Ee) as [H2 [Hbm Hbs]].
  destruct (footer bank); [done|]. apply retain_banks_counts. set (b' := mkBank _ _ _ _ _ _ _).
  assert (H3 : counts_ok (put_bank (slot, id) b' s1)).
  { apply put_bank_counts; [done|]. split; cbn; [|exact Hbs]. intros m (m0 & E & ->)%fmap_Some. exact (Hbm m0 E). }
  case_bool_decide; [|done]. destruct H3 as [Hb Hs]. split; [done|]. cbn. intros k m.
  rewrite lookup_alter_Some. intros [[<- (m0 & E & ->)]|[_ E]]; [exact (Hs slot m0 E)|by apply Hs].
Qed.

Lemma stage_bank_entry_counts sess e s :
  counts_ok s -> counts_ok (stage_bank_entry sess e s).
Proof.
  intros Hc. unfold stage_bank_entry. cbv zeta. destruct (negb _); [done|].
  destruct (entry_bank _ _) as [s1 bank] eqn:Ee. destruct (entry_bank_counts _ _ _ _ Hc Ee) as [H2 [Hbm Hbs]].
  destruct (sealed_hash bank); [done|]. apply put_bank_counts; [done|]. split; cbn; [exact Hbm|done].
Qed.

Lemma freeze_bank_counts sess slot id hash l s :
  banks_ok s -> counts_ok s -> counts_ok (freeze_bank stored_record sess slot id hash l s).
Proof.
  intros Hok Hc. unfold freeze_bank. cbv zeta. destruct (accept_bank s sess _) eqn:Ea; cbn [negb]; [|done]. apply accept_admissible in Ea.
  destruct (entry_bank _ _) as [s1 bank] eqn:Ee. pose proof Ee as Ee'. apply entry_bank_ok in Ee' as (Hok1 & Hb & _); [|done|done].
  destruct (entry_bank_counts _ _ _ _ Hc Ee) as [H2 [Hbm Hbs]].
  destruct (sealed_hash bank) eqn:Es; [done|]. destruct (metadata bank) as [m|] eqn:Em; [|done].
  case_bool_decide as Eh; cbn [negb]; [|done]. destruct (complete_bank _ _ _ _) eqn:Ec; cbn [negb]; [|done].
  apply complete_bank_counts in Ec as (m' & Em' & Hl & Hn). assert (m' = m) as -> by congruence.
  apply retain_banks_counts, publish_bank_counts; [rewrite <- Em, <- Eh; by apply seal_bank_ok|].
  apply put_bank_counts; [done|]. split; cbn; [exact Hbm|]. intros h l' [= <-] [= <-]. split; [|done].
  rewrite <- Hl, <- Eh. by apply Hbm.
Qed.

Lemma commit_bank_counts sess slot id level parent now s :
  banks_ok s -> counts_ok s -> counts_ok (commit_bank stored_record sess slot id level parent now s).
Proof.
  intros Hok Hc. unfold commit_bank. cbv zeta. destruct (accept_bank s sess _) eqn:Ea; cbn [negb]; [|done].
  apply accept_admissible in Ea. set (s1 := if bool_decide (level = Processed) then s else _).
  assert (H1 : banks_ok s1 /\ admissible s1 (slot, id) /\ counts_ok s1).
  { unfold s1. case_bool_decide; [done|]. destruct (choose_bank_ok s (slot, id) Hok Ea) as (? & ? & _).
    split; [done|]. split; [done|]. by apply choose_bank_counts. }
  destruct H1 as (Hb1 & Had1 & Hc1). set (s2 := set_highest _ s1).
  assert (Hb2 : banks_ok s2) by (apply set_highest_ok; [done|lia]).
  assert (Hc2 : counts_ok s2) by by eapply counts_banks.
  destruct (entry_bank _ s2) as [s3 bank] eqn:Ee. destruct (entry_bank_counts _ _ _ _ Hc2 Ee) as [Hc3 [Hbm Hbs]].
  apply entry_bank_ok in Ee as (Hb3 & Hbk & _); [|done|done].
  destruct (raise_commitment _ _ _ _ _) as [s4 observed] eqn:Er. pose proof Er as Er'.
  apply raise_commitment_ok in Er; [|done|done].
  assert (Hc4 : counts_ok s4).
  { unfold raise_commitment in Er'. injection Er' as <- _. apply put_bank_counts; [by eapply counts_banks|by split]. }
  pose proof (publish_bank_counts s4 (slot, id) Er Hc4) as Hc5. apply retain_banks_counts. by eapply counts_banks.
Qed.

Lemma discard_bank_counts sess slot id s :
  counts_ok s -> counts_ok (discard_bank sess slot id s).
Proof.
  intros Hc. unfold discard_bank. cbv zeta. destruct (session s =? sess); cbn [negb]; [|done]. apply retain_banks_counts.
  assert (H1 : counts_ok (set_discarded ({[(slot, id)]} ∪ discarded s) (set_banks (delete (slot, id) (banks s)) s))).
  { eapply counts_banks; [exact Hc| |done]. cbn [set_discarded set_banks banks]. by intros k b [_ Hk]%lookup_delete_Some. }
  case_bool_decide; [|done]. destruct H1 as [Hb Hs]. split; [done|]. cbn. intros k m [_ Hk]%lookup_delete_Some. by apply Hs.
Qed.

Lemma bank_step_counts s op : staged_count_ok op -> banks_ok s -> counts_ok s -> counts_ok (bank_step stored_record s op).
Proof.
  intros Hop Hok Hc. destruct op; cbn [bank_step].
  - destruct (remove_committed_spec s Hok) as [_ Hn]. split; [done|]. intros slot m' Hm. cbn in Hm. by rewrite Hn in Hm.
  - unfold end_bank_session. destruct (session s =? sess); cbn [negb]; [|done].
    destruct (remove_committed_spec s Hok) as [_ Hn]. split; [done|]. intros slot m' Hm. cbn in Hm. by rewrite Hn in Hm.
  - by apply stage_bank_metadata_counts.
  - by apply stage_bank_footer_counts.
  - by apply stage_bank_entry_counts.
  - by apply freeze_bank_counts.
  - by apply commit_bank_counts.
  - by apply discard_bank_counts.
Qed.

(** Every state of a run has the three invariants. *)
Record run_ok (s : BankState) : Prop := {
  ro_banks : banks_ok s;
  ro_txs : head_txs_ok stored_record s;
  ro_counts : counts_ok s;
}.

Lemma bank_run_run_ok n k ops :
  Forall staged_count_ok ops -> run_ok (foldl (bank_step stored_record) (state_new n k) ops).
Proof.
  intros Hops.
  assert (H : forall s, run_ok s -> run_ok (foldl (bank_step stored_record) s ops)).
  { induction Hops as [|op ops Hop Hops IH]; intros s [H1 H2 H3]; cbn [foldl]; [done|]. apply IH. split.
    - by apply bank_step_ok.
    - by apply bank_step_txs.
    - by apply bank_step_counts. }
  apply H. split; [apply state_new_ok|apply state_new_txs|]. split; cbn.
  - intros key bank E. by rewrite lookup_empty in E.
  - intros slot m E. by rewrite lookup_empty in E.
Qed.

End Counts.

(** ** Blocks *)

Lemma sig_leb_total a b : sig_leb a b = true \/ sig_leb b a = true.
Proof.
  revert b. induction a as [|x a IH]; intros [|y b]; simpl; auto. destruct (IH b) as [H|H]; rewrite H; lia.
Qed.

Lemma sig_leb_trans a b c : sig_leb a b = true -> sig_leb b c = true -> sig_leb a c = true.
Proof.
  revert b c. induction a as [|x a IH]; intros [|y b] [|z c]; simpl; try done.
  intros H1 H2. specialize (IH b c). destruct (sig_leb a b), (sig_leb b c), (sig_leb a c); lia.
Qed.

#[export] Instance ordered_le_total : Total ordered_le.
Proof.
  intros [i a] [j b]. unfold ordered_le. simpl. destruct (sig_leb_total a b) as [H|H]; rewrite H; lia.
Qed.
#[export] Instance ordered_le_trans : Transitive ordered_le.
Proof.
  intros [i a] [j b] [k c]. unfold ordered_le. simpl. intros H1 H2. pose proof (sig_leb_trans a b c) as H.
  destruct (sig_leb a b), (sig_leb b c), (sig_leb a c); lia.
Qed.

(** Signatures projected at the slot have their positions. *)
Lemma slot_positions_spec c slot sigs :
  (forall sig, sig ∈ sigs -> projected_at (txs c) slot sig = true) ->
  exists positions, slot_positions c slot sigs = Some positions /\ map snd positions = sigs /\
    forall i sig, (i, sig) ∈ positions -> exists m, meta_by_signature (txs c) !! sig = Some m /\ i = pos_idx (tm_pos m).
Proof.
  induction sigs as [|sig sigs IH]; intros Hp; cbn [slot_positions].
  { exists []. split; [done|]. split; [done|]. by intros i sig ?%elem_of_nil. }
  destruct IH as (ps & E & Hm & Hi); [intros s Hs; apply Hp; by apply list_elem_of_further|].
  pose proof (Hp sig (list_elem_of_here _ _)) as H. unfold projected_at in H.
  destruct (meta_by_signature (txs c) !! sig) as [m|] eqn:Em; [|done]. rewrite H. cbn [negb]. rewrite E. cbn.
  eexists. split; [done|]. split; [simpl; by rewrite Hm|].
  intros i s [[= -> ->]|Hin]%elem_of_cons; [by exists m|by apply Hi].
Qed.

Lemma nodup_cover {A} (l k : list A) : NoDup l -> NoDup k -> (forall x, x ∈ l -> x ∈ k) -> zlen k <= zlen l -> l ≡ₚ k.
Proof.
  intros Hl Hk Hin Hlen. unfold zlen in Hlen. apply submseteq_length_Permutation; [|lia]. by apply NoDup_submseteq.
Qed.

Section Blocks.
Context (stored_record : Z -> TransactionInfo -> option StoredTransactionRecord).
Context (bs58 : Signature -> string).

(** The index of a transaction, as the cache stores it. *)
Definition clipped_index (tx : TransactionInfo) : Z := Z.min (ti_index tx) u32_max.

(** The record of a streamed transaction, up to the block time. *)
Definition converted (slot : Z) (tx : TransactionInfo) (r : StoredTransactionRecord) : Prop :=
  exists r0 time, stored_record slot tx = Some r0 /\ r = with_block_time time r0.

(** The transactions of a bank in the order of their indices. *)
Definition in_order (l l' : list TransactionInfo) : Prop :=
  l' ≡ₚ l /\ StronglySorted Z.le (map clipped_index l').

Definition payload_is (details : TransactionDetails) (slot : Z) (m : BlockMetadataRecord)
    (l : list TransactionInfo) (p : StoredBlockPayload) : Prop :=
  match details with
  | DetailsNone => p = PayloadMetadata m
  | DetailsSignatures => exists l', in_order l l' /\ p = PayloadSignatures m (map (fun tx => bs58 (ti_signature tx)) l')
  | DetailsAccounts => exists l' rs, in_order l l' /\ Forall2 (converted slot) l' rs /\
      p = PayloadAccounts m (map accounts_from rs)
  | DetailsFull => exists l' rs, in_order l l' /\ Forall2 (converted slot) l' rs /\ p = PayloadFull m rs
  end.

Lemma in_order_positions (positions : list (Z * Signature)) (sigs : list Signature) l :
  map snd positions = sigs -> sigs ≡ₚ map ti_signature l ->
  (forall i tx, (i, ti_signature tx) ∈ positions -> tx ∈ l -> i = clipped_index tx) ->
  exists l', in_order l l' /\ map snd (merge_sort ordered_le positions) = map ti_signature l'.
Proof.
  intros Hs Hp Hi. pose proof (merge_sort_Permutation ordered_le positions) as Hsort.
  assert (map ti_signature l ≡ₚ map snd (merge_sort ordered_le positions)) as Hl.
  { rewrite Hsort, Hs. done. }
  apply Permutation_sym, Permutation_map_inv in Hl as (l' & El & Hl').
  exists l'. split; [|done]. split; [done|].
  assert (map clipped_index l' = map fst (merge_sort ordered_le positions)) as ->.
  { apply list_eq. intros j. rewrite !list_lookup_fmap.
    assert (Hj : ti_signature <$> l' !! j = snd <$> merge_sort ordered_le positions !! j) by (rewrite <- !list_lookup_fmap; f_equal; symmetry; exact El).
    destruct (l' !! j) as [tx|] eqn:E1, (merge_sort ordered_le positions !! j) as [[i sig]|] eqn:E2; simplify_eq/=; [|done].
    f_equal. symmetry. apply Hi.
    - rewrite <- Hsort. by eapply list_elem_of_lookup_2.
    - rewrite Hl'. by eapply list_elem_of_lookup_2. }
  assert (Hss : StronglySorted ordered_le (merge_sort ordered_le positions)).
  { apply Sorted_StronglySorted; [apply _|]. apply Sorted_merge_sort, _. }
  revert Hss. generalize (merge_sort ordered_le positions). clear. intros ps Hss.
  induction Hss as [|[i s] ps Hps IH Hf]; simpl; [constructor|]. constructor; [done|].
  apply Forall_forall. intros x ([j s'] & -> & Hx)%list_elem_of_fmap.
  pose proof (proj1 (Forall_forall _ _) Hf _ Hx) as Hle. clear Hf. rename Hle into Hf.
  unfold ordered_le in Hf. simpl in *. lia.
Qed.

(** The signatures listed under a tracked slot are the selected bank's, and their entries
    are its transactions. *)
Lemma slot_entries_spec s slot id bank h l sig :
  banks_ok s -> head_txs_ok stored_record s -> bank_floor s <= slot ->
  selected s !! slot = Some id -> banks s !! (slot, id) = Some bank -> sealed_hash bank = Some h ->
  transactions bank = Some l -> sig ∈ slot_sigs (txs (cache s)) slot ->
  exists m r, holds (txs (cache s)) sig m r /\ pos_slot (tm_pos m) = slot /\
    comes_from stored_record slot (commitment bank) l sig m r.
Proof.
  intros Hb Htx Hf Hs Hbk Hh Hl Hsig. destruct Htx as [Hok _ Hfrom].
  apply (to_slots _ _ Hok) in Hsig. unfold projected_at in Hsig.
  destruct (meta_by_signature (txs (cache s)) !! sig) as [m|] eqn:Em; [|done]. apply Z.eqb_eq in Hsig.
  destruct (proj1 (to_dom _ _ Hok sig)) as [r Er]; [by eexists|]. exists m, r. split; [by split|]. split; [done|].
  destruct (Hfrom sig m r (conj Em Er)) as (i & b & l0 & H1 & H2 & H3 & H4); [lia|].
  rewrite Hsig in *. assert (i = id) as -> by congruence. assert (b = bank) as -> by congruence.
  assert (l0 = l) as -> by congruence. done.
Qed.

(** The whole bank is listed under its slot when the counts agree. *)
Lemma slot_sigs_complete s slot id bank h l :
  banks_ok s -> head_txs_ok stored_record s -> bank_floor s <= slot ->
  selected s !! slot = Some id -> banks s !! (slot, id) = Some bank -> sealed_hash bank = Some h ->
  transactions bank = Some l -> NoDup (map ti_signature l) ->
  zlen (slot_sigs (txs (cache s)) slot) = zlen l ->
  slot_sigs (txs (cache s)) slot ≡ₚ map ti_signature l.
Proof.
  intros Hb Htx Hf Hs Hbk Hh Hl Hn Hlen. apply nodup_cover; [|done| |].
  - apply (to_nodup _ _ (cx_ok _ _ _ Htx)).
  - intros sig Hsig. destruct (slot_entries_spec s slot id bank h l sig) as (m & r & _ & _ & (tx & r0 & t & t' & Htx0 & <- & _)); try done.
    by apply list_elem_of_fmap_2.
  - unfold zlen in *. rewrite length_map. lia.
Qed.

(** The signatures of a complete slot in order, with their records. *)
Lemma complete_slot_order s slot id bank h l :
  banks_ok s -> head_txs_ok stored_record s -> bank_floor s <= slot ->
  selected s !! slot = Some id -> banks s !! (slot, id) = Some bank -> sealed_hash bank = Some h ->
  transactions bank = Some l -> NoDup (map ti_signature l) ->
  zlen (slot_sigs (txs (cache s)) slot) = zlen l ->
  exists positions l' rs,
    slot_positions (cache s) slot (slot_sigs (txs (cache s)) slot) = Some positions /\ in_order l l' /\
    map snd (merge_sort ordered_le positions) = map ti_signature l' /\
    mapM (fun sig => tx_by_signature (txs (cache s)) !! sig) (map ti_signature l') = Some rs /\
    Forall2 (converted slot) l' rs.
Proof.
  intros Hb Htx Hf Hs Hbk Hh Hl Hn Hlen.
  pose proof (slot_sigs_complete s slot id bank h l Hb Htx Hf Hs Hbk Hh Hl Hn Hlen) as Hperm.
  pose proof (fun sig => slot_entries_spec s slot id bank h l sig Hb Htx Hf Hs Hbk Hh Hl) as Hent.
  set (sigs := slot_sigs (txs (cache s)) slot) in *.
  assert (Huniq : forall tx tx', tx ∈ l -> tx' ∈ l -> ti_signature tx = ti_signature tx' -> tx = tx').
  { clear -Hn. induction l as [|a l IH]; intros tx tx' H1 H2 E; [by apply elem_of_nil in H1|].
    simpl in Hn. apply NoDup_cons in Hn as [Ha Hn].
    apply elem_of_cons in H1 as [->|H1], H2 as [->|H2]; [done| | |by apply IH];
      exfalso; apply Ha; [rewrite E|rewrite <- E]; by apply list_elem_of_fmap_2. }
  destruct (slot_positions_spec (cache s) slot sigs) as (positions & Ep & Em & Hi).
  { intros sig Hsig. by apply (to_slots _ _ (cx_ok _ _ _ Htx)). }
  destruct (in_order_positions positions sigs l Em Hperm) as (l' & Ho & El).
  { intros i tx Hin Htx0. destruct (Hi i _ Hin) as (m & Hm & ->).
    destruct (Hent (ti_signature tx)) as (m' & r & [Hm' _] & _ & (tx' & r0 & t & t' & H1 & H2 & H3 & _ & Em')).
    { rewrite <- Em. apply list_elem_of_fmap. by exists (pos_idx (tm_pos m), ti_signature tx). }
    assert (m' = m) as -> by congruence. rewrite (Huniq tx' tx H1 Htx0 H2) in Em'. rewrite Em'. done. }
  assert (Hrs : exists rs, mapM (fun sig => tx_by_signature (txs (cache s)) !! sig) (map ti_signature l') = Some rs /\
            Forall2 (converted slot) l' rs).
  { assert (Hsub : forall tx, tx ∈ l' -> tx ∈ l) by (destruct Ho as [Hp _]; intros tx Hx; by rewrite <- Hp).
    clear -Hsub Hent Hperm Huniq. induction l' as [|tx l' IH]; [by exists []|].
    destruct IH as (rs & E & HF); [intros y Hy; apply Hsub; by apply list_elem_of_further|].
    pose proof (Hsub tx (list_elem_of_here _ _)) as Hin.
    destruct (Hent (ti_signature tx)) as (m & r & [_ Hr] & _ & (tx' & r0 & t & t' & H1 & H2 & H3 & Er & _)).
    { rewrite Hperm. by apply list_elem_of_fmap_2. }
    exists (r :: rs). split; [simpl; by rewrite Hr, E|]. constructor; [|done].
    rewrite (Huniq tx' tx H1 Hin H2) in H3. by exists r0, t. }
  destruct Hrs as (rs & Hm & HF). by exists positions, l', rs.
Qed.

(** C16: a block served from the head cache is one whole bank.  For any stream in which the
    block metadata of one slot and blockhash always gives the same transaction count, the
    answer at a slot that is not below the retention floor carries the metadata of the slot's
    selected, sealed bank and, for the details asked for, all transactions of that bank and no
    others, converted from what was streamed, in the order of their indices. *)
Theorem get_block_exact count_of n k ops slot min_commitment details p :
  Forall (staged_count_ok count_of) ops ->
  let s := foldl (bank_step stored_record) (state_new n k) ops in
  bank_floor s <= slot -> get_block bs58 (cache s) slot min_commitment details = Some p ->
  exists id bank m l, selected s !! slot = Some id /\ banks s !! (slot, id) = Some bank /\
    sealed_hash bank = Some (m_blockhash m) /\ transactions bank = Some l /\
    m_executed_transaction_count m = zlen l /\ payload_is details slot m l p.
Proof.
  intros Hops s Hf. destruct (bank_run_run_ok stored_record count_of n k ops Hops) as [Hb Htx [Hcb Hcs]]. fold s in Hb, Htx, Hcb, Hcs.
  unfold get_block. destruct (negb _); [done|].
  destruct (slot_block_metadata (blocks (cache s)) !! slot) as [m|] eqn:Em; [|done].
  destruct (bo_published s Hb slot m Em Hf) as (id & bank & Hs & Hbk & Hh).
  destruct (bo_bank s Hb _ _ Hbk) as [_ _ [_ Ht] _]. destruct (Ht ltac:(by eexists)) as [l Hl].
  destruct (bc_sealed _ _ _ (Hcb _ _ Hbk) _ _ Hh Hl) as [Hlen Hn]. cbn [fst] in Hlen.
  assert (Hcount : m_executed_transaction_count m = zlen l) by (rewrite Hlen; by apply Hcs).
  intros Hp. exists id, bank, m, l. do 5 (split; [done|]). rewrite Hcount in Hp.
  assert (Hsome : forall F : list Signature -> option StoredBlockPayload,
    match (if zlen l =? 0 then Some [] else sigs_by_slot (txs (cache s)) !! slot) with
    | None => None
    | Some sigs => if negb (zlen sigs =? zlen l) then None else F sigs
    end = Some p -> l = [] /\ F [] = Some p \/ zlen (slot_sigs (txs (cache s)) slot) = zlen l /\ F (slot_sigs (txs (cache s)) slot) = Some p).
  { intros F. destruct (Z.eqb_spec (zlen l) 0) as [E|_].
    - destruct l; [|unfold zlen in E; simpl in E; lia]. cbn. by left.
    - unfold slot_sigs. destruct (sigs_by_slot (txs (cache s)) !! slot) as [sigs|]; [|done]. cbn.
      destruct (Z.eqb_spec (zlen sigs) (zlen l)); [|done]. by right. }
  assert (Hnil : in_order (@nil TransactionInfo) []) by (split; [done|constructor]).
  destruct details; [| | |by injection Hp as <-]; apply Hsome in Hp as [[-> Hp]|[El Hp]]; cbn in Hp.
  1,3,5: injection Hp as <-; cbn; eauto.
  1-3: destruct (complete_slot_order s slot id bank _ l Hb Htx Hf Hs Hbk Hh Hl Hn El) as (ps & l' & rs & E1 & Ho & E2 & E3 & HF);
       rewrite E1, E2 in Hp.
  - rewrite E3 in Hp. injection Hp as <-. by exists l', rs.
  - injection Hp as <-. exists l'. split; [done|]. by rewrite map_map.
  - rewrite E3 in Hp. injection Hp as <-. by exists l', rs.
Qed.

End Blocks.

(** ** Address histories *)

(** The entry a key contributes to an answer. *)
Definition visible (c : HeadCache) (before until : option SlotBoundary) (min_commitment : CommitmentLevel)
    (key : HeadSigKey) : option (Signature * HeadTxMeta) :=
  if (in_bounds before until (to_signature_slot (key_pos key)) &&
      commitment_meets (slot_commitment_at c (key_slot key)) min_commitment)%bool
  then (fun m => (key_signature key, m)) <$> meta_by_signature (txs c) !! key_signature key
  else None.

Lemma address_loop_spec c before until min_commitment limit out keys :
  zlen out < limit ->
  address_loop c before until min_commitment limit out keys =
  out ++ take (Z.to_nat (limit - zlen out)) (omap (visible c before until min_commitment) keys).
Proof.
  revert out. induction keys as [|key keys IH]; intros out Hl; cbn [address_loop omap list_omap].
  { by rewrite take_nil, app_nil_r. }
  fold (omap (visible c before until min_commitment) keys). cbv zeta.
  unfold visible at 1. unfold in_bounds, key_slot.
  set (p := to_signature_slot (key_pos key)).
  assert (Hb : match before with Some b => negb (position_before_boundary p b) | None => false end =
            negb (from_option (position_before_boundary p) true before)) by by destruct before.
  assert (Hu : match until with Some b => negb (position_after_boundary p b) | None => false end =
            negb (from_option (position_after_boundary p) true until)) by by destruct until.
  rewrite Hb, Hu. destruct (from_option _ _ before); cbn [negb andb]; [|by apply IH].
  destruct (from_option _ _ until); cbn [negb andb]; [|by apply IH].
  destruct (commitment_meets _ _); cbn [negb]; [|by apply IH].
  destruct (meta_by_signature (txs c) !! key_signature key) as [m|]; [|by apply IH]. cbn [fmap option_fmap option_map].
  assert (Hz : zlen (out ++ [(key_signature key, m)]) = zlen out + 1) by (unfold zlen; rewrite length_app; simpl; lia).
  rewrite Hz. replace (Z.to_nat (limit - zlen out)) with (S (Z.to_nat (limit - (zlen out + 1)))) by (unfold zlen in *; lia).
  cbn [take]. destruct (Z.leb_spec limit (zlen out + 1)).
  - replace (Z.to_nat _) with 0%nat by lia. by rewrite take_0.
  - rewrite IH by lia. by rewrite Hz, <- app_assoc.
Qed.

Lemma signatures_for_address_eq c a before until limit min_commitment :
  1 <= limit ->
  signatures_for_address c a before until limit min_commitment =
  take (Z.to_nat limit) (omap (visible c before until min_commitment) (keys_of (txs c) a)).
Proof.
  intros Hl. unfold signatures_for_address, keys_of. destruct (sigs_by_address (txs c) !! a) as [keys|].
  - rewrite address_loop_spec by (rewrite zlen_nil; lia). by rewrite zlen_nil, Z.sub_0_r.
  - simpl. by rewrite take_nil.
Qed.

(** The transaction is projected, touches the address, and the request asks for it. *)
Definition in_history (c : HeadCache) (a : Address) (before until : option SlotBoundary)
    (min_commitment : CommitmentLevel) (e : Signature * HeadTxMeta) : Prop :=
  let p := tm_pos (snd e) in
  (exists r, holds (txs c) (fst e) (snd e) r /\ a ∈ record_addresses r) /\
  in_bounds before until (to_signature_slot p) = true /\
  commitment_meets (slot_commitment_at c (pos_slot p)) min_commitment = true.

Definition newer_entry (e e' : Signature * HeadTxMeta) : Prop :=
  pos_gtb (tm_pos (snd e')) (tm_pos (snd e)) = false.

Lemma visible_history floor c a before until min_commitment key e :
  txs_ok floor (txs c) -> key ∈ keys_of (txs c) a -> visible c before until min_commitment key = Some e ->
  in_history c a before until min_commitment e /\ key_pos key = tm_pos (snd e).
Proof.
  intros Hok Hk. unfold visible. destruct (_ && _)%bool eqn:E; [|done]. apply andb_prop in E as [E1 E2].
  intros (m & Hm & ->)%fmap_Some. destruct (to_keys _ _ Hok a key Hk) as (m' & r & Hm' & Hp & Hr & Ha).
  assert (m' = m) as -> by congruence. unfold in_history. cbn. rewrite Hp. split; [|done].
  split; [by exists r|]. done.
Qed.

Lemma omap_sorted {A B} (R : A -> A -> Prop) (S : B -> B -> Prop) (f : A -> option B) l :
  (forall x y x' y', x ∈ l -> y ∈ l -> R x y -> f x = Some x' -> f y = Some y' -> S x' y') ->
  StronglySorted R l -> StronglySorted S (omap f l).
Proof.
  intros H Hs. induction Hs as [|x l Hl IH Hx]; cbn; [constructor|].
  assert (StronglySorted S (omap f l)) as IH'.
  { apply IH. intros a b a' b' Ha Hb. apply H; by apply list_elem_of_further. }
  destruct (f x) as [x'|] eqn:E; [|done]. constructor; [done|]. apply Forall_forall. intros y' (y & Hy & Ey)%list_elem_of_omap.
  eapply (H x y); [apply list_elem_of_here|by apply list_elem_of_further| |done|done].
  by apply (proj1 (Forall_forall _ _) Hx).
Qed.

Lemma sorted_app {A} (R : A -> A -> Prop) l k x y : StronglySorted R (l ++ k) -> x ∈ l -> y ∈ k -> R x y.
Proof.
  induction l as [|a l IH]; intros Hs Hx Hy; [by apply elem_of_nil in Hx|]. simpl in Hs. inversion Hs as [|? ? Hs' Hf]; subst.
  apply elem_of_cons in Hx as [->|Hx]; [|by apply IH]. apply (proj1 (Forall_forall _ _) Hf). apply elem_of_app. by right.
Qed.

(** An address history read from the head cache, relative to what the cache holds: the answer
    is newest first and within the limit, lists only transactions the request asks for, and a
    cached transaction from the floor of the address up that is not listed is cut off by the
    limit behind newer ones. *)
Theorem address_history_exact stored_record n k ops a before until limit min_commitment chain floor :
  let c := cache (foldl (bank_step stored_record) (state_new n k) ops) in
  let out := signatures_for_address c a before until limit min_commitment in
  1 <= limit -> address_floor c a (Some chain) = Some floor ->
  zlen out <= limit /\ StronglySorted newer_entry out /\
  (forall e, e ∈ out -> in_history c a before until min_commitment e) /\
  (forall e, in_history c a before until min_commitment e -> floor <= pos_slot (tm_pos (snd e)) -> pos_slot (tm_pos (snd e)) < u64_max ->
     e ∈ out \/ (zlen out = limit /\ forall e', e' ∈ out -> newer_entry e' e)).
Proof.
  intros c out Hl Hfl. destruct (bank_run_both stored_record ops (state_new n k) (state_new_ok n k) (state_new_txs _ n k)) as [_ [Hok _ _]].
  fold c in Hok. unfold out. rewrite signatures_for_address_eq by done.
  set (f := visible c before until min_commitment). set (full := omap f (keys_of (txs c) a)).
  assert (Hvis : forall e, e ∈ full -> in_history c a before until min_commitment e).
  { intros e (key & Hk & Hv)%list_elem_of_omap. by destruct (visible_history _ c a before until min_commitment key e Hok Hk Hv). }
  assert (Hsort : StronglySorted newer_entry full).
  { eapply omap_sorted; [|apply (to_sorted _ _ Hok)]. intros x y x' y' Hx Hy Hn Ex Ey.
    destruct (visible_history _ c a before until min_commitment x x' Hok Hx Ex) as [_ E1].
    destruct (visible_history _ c a before until min_commitment y y' Hok Hy Ey) as [_ E2].
    unfold newer, newer_entry in *. by rewrite <- E1, <- E2. }
  assert (Htd : take (Z.to_nat limit) full ++ drop (Z.to_nat limit) full = full) by apply take_drop.
  split; [unfold zlen; rewrite length_take; lia|]. split; [|split].
  - apply (sorted_prefix _ _ (drop (Z.to_nat limit) full)). by rewrite Htd.
  - intros e He. apply Hvis. rewrite <- Htd. apply elem_of_app. by left.
  - intros [sig m] ((r & [Hm Hr] & Ha) & Hb & Hc) Hf Hmax. cbn [fst snd] in *.
    assert (Hk : mkKey sig (tm_pos m) ∈ keys_of (txs c) a).
    { apply (to_complete _ _ Hok); [by exists m, r| |]; unfold key_slot; cbn.
      - unfold address_floor in Hfl. injection Hfl as Hfl. destruct (address_truncated_slot _ !! a); sat_lia.
      - intros s Es. unfold address_floor in Hfl. injection Hfl as Hfl. rewrite Es in Hfl. sat_lia. }
    assert (He : (sig, m) ∈ full).
    { apply list_elem_of_omap. exists (mkKey sig (tm_pos m)). split; [done|]. unfold f, visible, key_slot. cbn.
      by rewrite Hb, Hc, Hm. }
    rewrite <- Htd in He. apply elem_of_app in He as [He|He]; [by left|right]. split.
    + assert (Hne : drop (Z.to_nat limit) full <> []) by (intros E; rewrite E in He; by apply elem_of_nil in He).
      unfold zlen. rewrite length_take. assert (length (drop (Z.to_nat limit) full) <> 0%nat) by (by destruct (drop _ full)).
      rewrite length_drop in *. lia.
    + intros e' He'. eapply sorted_app; [rewrite Htd; exact Hsort|done|done].
Qed.

(** ** The transaction-count overlay *)

(** The blocks from [slot] down the parents to the first whose parent the archive has. *)
Fixpoint overlay_chain (m : gmap Z BlockMetadataRecord) (clickhouse_slot slot : Z) (l : list (Z * BlockMetadataRecord)) : Prop :=
  match l with
  | [] => False
  | (s, x) :: rest =>
      s = slot /\ m !! slot = Some x /\
      match rest with
      | [] => m_parent_slot x <= clickhouse_slot
      | _ => clickhouse_slot < m_parent_slot x < slot /\ overlay_chain m clickhouse_slot (m_parent_slot x) rest
      end
  end.

Definition saturated_count (count : Z) (l : list (Z * BlockMetadataRecord)) : Z :=
  foldl (fun count e => sat_add count (m_executed_transaction_count (snd e))) count l.

Lemma overlay_chain_keys m ch slot l :
  overlay_chain m ch slot l ->
  NoDup (map fst l) /\ Forall (fun e => m !! fst e = Some (snd e) /\ fst e <= slot) l.
Proof.
  revert slot. induction l as [|[s x] rest IH]; intros slot; cbn [overlay_chain]; [done|]. intros (-> & Hx & Hr).
  destruct rest as [|e rest].
  - split; [apply NoDup_singleton|]. repeat constructor; [done|simpl; lia].
  - destruct Hr as [[H1 H2] Hr]. apply IH in Hr as [Hn Hf]. split.
    + change (map fst ((slot, x) :: e :: rest)) with (slot :: map fst (e :: rest)). apply NoDup_cons.
      split; [|done]. intros (y & E & Hy)%list_elem_of_fmap.
      destruct (proj1 (Forall_forall _ _) Hf y Hy) as [_ Hle]. lia.
    + constructor; [cbn; split; [done|lia]|]. eapply Forall_impl; [exact Hf|]. intros y [Hy Hle]. split; [done|]. lia.
Qed.

Lemma overlay_chain_length m ch slot l : overlay_chain m ch slot l -> (length l <= size m)%nat.
Proof.
  intros H. apply overlay_chain_keys in H as [Hn Hf]. rewrite <- (size_dom (D := gset Z)), <- (length_map fst l).
  rewrite <- (size_list_to_set (C := gset Z)) by done. apply subseteq_size. intros x [y [-> Hy]]%elem_of_list_to_set%list_elem_of_fmap.
  apply elem_of_dom. destruct (proj1 (Forall_forall _ _) Hf y Hy) as [E _]. by eexists.
Qed.

Lemma overlay_walk_spec fuel m ch tip slot count o :
  overlay_walk fuel m ch tip slot count = Some o <->
  exists l, (length l <= fuel)%nat /\ overlay_chain m ch slot l /\
    context_slot o = tip /\ overlay_count o = saturated_count count l /\ fst <$> last l = Some (start_slot o).
Proof.
  revert slot count. induction fuel as [|fuel IH]; intros slot count; cbn [overlay_walk].
  { split; [done|]. intros ([|] & Hl & Hc & _); [done|simpl in Hl; lia]. }
  destruct (m !! slot) as [x|] eqn:Ex.
  2: { split; [done|]. intros ([|[s y] l] & _ & Hc & _); [done|]. destruct Hc as (_ & ? & _). congruence. }
  destruct (Z.leb_spec (m_parent_slot x) ch) as [Hle|Hgt].
  { split.
    - intros [= <-]. exists [(slot, x)]. cbn. split; [lia|]. done.
    - intros ([|[s y] l] & _ & Hc & E1 & E2 & E3); [done|]. destruct Hc as (-> & Hy & Hr). assert (y = x) as -> by congruence.
      destruct l; [|lia]. cbn in E2, E3. destruct o; simplify_eq/=. done. }
  assert (Hcons : forall l, overlay_chain m ch (m_parent_slot x) l -> m_parent_slot x < slot -> overlay_chain m ch slot ((slot, x) :: l)).
  { intros [|e l] Hc Hlt; [done|]. split; [done|]. split; [done|]. split; [lia|done]. }
  destruct ((slot <=? m_parent_slot x) || negb (bool_decide (is_Some (m !! m_parent_slot x))))%bool eqn:Eb.
  { split; [done|]. intros ([|[s y] l] & _ & Hc & _); [done|]. destruct Hc as (-> & Hy & Hr). assert (y = x) as -> by congruence.
    destruct l as [|[s' y'] l]; [lia|]. destruct Hr as [[_ Hlt] (-> & Hy' & _)]. apply orb_prop in Eb as [Eb|Eb]; [lia|].
    rewrite bool_decide_eq_true_2 in Eb by by eexists. done. }
  apply orb_false_elim in Eb as [Eb _]. rewrite IH. split.
  - intros (l & Hl & Hc & E1 & E2 & E3). exists ((slot, x) :: l). split; [simpl; lia|]. split; [apply Hcons; [done|lia]|].
    split; [done|]. split; [done|]. destruct l; [done|]. exact E3.
  - intros ([|[s y] l] & Hl & Hc & E1 & E2 & E3); [done|]. destruct Hc as (-> & Hy & Hr). assert (y = x) as -> by congruence.
    destruct l as [|e l]; [lia|]. exists (e :: l). split; [simpl in *; lia|]. split; [by destruct Hr|]. done.
Qed.

(** The overlay a chain of cached blocks from a committed tip justifies. *)
Definition overlay_from (c : HeadCache) (min_commitment : CommitmentLevel) (clickhouse_slot tip : Z)
    (o : TransactionCountOverlay) : Prop :=
  commitment_meets (slot_commitment_at c tip) min_commitment = true /\
  exists l, overlay_chain (slot_block_metadata (blocks c)) clickhouse_slot tip l /\ context_slot o = tip /\
    overlay_count o = saturated_count 0 l /\ fst <$> last l = Some (start_slot o).

Lemma candidate_tips_spec c min_commitment :
  (forall tip, tip ∈ candidate_tips c min_commitment <->
     is_Some (slot_block_metadata (blocks c) !! tip) /\ commitment_meets (slot_commitment_at c tip) min_commitment = true) /\
  StronglySorted (flip Z.le) (candidate_tips c min_commitment).
Proof.
  unfold candidate_tips. split.
  - intros tip. rewrite elem_of_rev, merge_sort_Permutation, elem_of_filter_b, list_elem_of_fmap. f_equiv. split.
    + intros ([s x] & -> & Hin%elem_of_map_to_list). by exists x.
    + intros [x Hx]. exists (tip, x). split; [done|]. by apply elem_of_map_to_list.
  - apply sorted_rev. apply Sorted_StronglySorted; [intros x y z; lia|]. apply Sorted_merge_sort. intros x y. lia.
Qed.

Lemma first_overlay_spec m ch tips :
  StronglySorted (flip Z.le) tips ->
  match first_overlay m ch tips with
  | Some o => exists tip, tip ∈ tips /\ overlay_walk (size m) m ch tip tip 0 = Some o /\
      forall tip', tip' ∈ tips -> tip < tip' -> overlay_walk (size m) m ch tip' tip' 0 = None
  | None => forall tip, tip ∈ tips -> overlay_walk (size m) m ch tip tip 0 = None
  end.
Proof.
  induction 1 as [|tip tips Hs IH Hf]; cbn [first_overlay]; [by intros tip H%elem_of_nil|].
  destruct (overlay_walk _ _ _ tip _ _) as [o|] eqn:Eo.
  - exists tip. split; [by left|]. split; [done|]. intros tip' [->|Hin]%elem_of_cons Hlt; [lia|].
    pose proof (proj1 (Forall_forall _ _) Hf tip' Hin) as Hle. cbv [flip] in Hle. lia.
  - destruct (first_overlay m ch tips) as [o|].
    + destruct IH as (t & Hin & Ht & Hn). exists t. split; [by right|]. split; [done|].
      intros tip' [->|Hin']%elem_of_cons Hlt; [done|by apply Hn].
    + intros t [->|Hin]%elem_of_cons; [done|by apply IH].
Qed.

(** C17: the transaction count a client is given while the archive lags. An overlay is the
    saturating sum of the transactions of a contiguous chain of cached blocks, from a tip that
    meets the requested commitment down its parents to the first block whose parent the
    archive already has, and no newer committed tip has such a chain; no overlay is returned
    exactly when no committed tip has one. The fuel never runs out. *)
Theorem transaction_overlay_exact c min_commitment clickhouse_slot :
  match transaction_count_overlay_at_least c min_commitment clickhouse_slot with
  | Some o => overlay_from c min_commitment clickhouse_slot (context_slot o) o /\
      forall tip o', overlay_from c min_commitment clickhouse_slot tip o' -> tip <= context_slot o
  | None => forall tip o, ~ overlay_from c min_commitment clickhouse_slot tip o
  end.
Proof.
  unfold transaction_count_overlay_at_least. set (m := slot_block_metadata (blocks c)).
  destruct (candidate_tips_spec c min_commitment) as [Hin Hs].
  assert (Hw : forall tip o, overlay_walk (size m) m clickhouse_slot tip tip 0 = Some o /\ tip ∈ candidate_tips c min_commitment <->
    overlay_from c min_commitment clickhouse_slot tip o).
  { intros tip o. rewrite overlay_walk_spec, Hin. fold m. split.
    - intros [(l & _ & Hl) [_ Hc]]. split; [done|]. by exists l.
    - intros [Hc (l & Hl)]. split; [exists l; split; [|done]; eapply overlay_chain_length; apply Hl|]. split; [|done].
      destruct Hl as [Hl _]. destruct l as [|[s x] l]; [done|]. destruct Hl as (_ & E & _). by eexists. }
  pose proof (first_overlay_spec m clickhouse_slot _ Hs) as Hf. destruct (first_overlay _ _ _) as [o|].
  - destruct Hf as (tip & Ht & Ho & Hn). pose proof (proj1 (Hw tip o) (conj Ho Ht)) as Hfrom.
    assert (tip = context_slot o) as -> by (destruct Hfrom as [_ (l & _ & E & _)]; congruence). split; [done|].
    intros tip' o' [Hw' Hin']%Hw. destruct (Z.le_gt_cases tip' (context_slot o)); [done|]. rewrite Hn in Hw' by done. done.
  - intros tip o [Hw' Hin']%Hw. rewrite Hf in Hw' by done. done.
Qed.
