(* ===== verification/BlockIndex.v ===== *)
(** * BlockIndex: the in-process block-time index

    Models the memory half of [crates/superbank-rpc/src/disk_cache/block_index.rs]:
    segments of one million slots with a time per slot and a bitmap of produced
    slots, the coverage map above them, eviction under a memory limit
    ([reserve_segments]), publication ([publish_memory]) and the two read paths
    ([block_time], [range_coverage]).  [BlockIndexScan] adds the worker that feeds it.

    A boxed slice of atomics is a sparse map from index to value; an index that was
    never stored reads as the value [new_segment] fills in.  Segments are shared
    behind an [Arc]: [reserve_segments] hands out the same objects the index keeps, so
    the reserved segments are named by their identifier and a store goes to the
    index's own map.  There is one publishing worker; readers run between its steps. *)

From S2P Require Import Prelude BTree SlotCoverage CoverageMap HeadCoverage BlockRanges.

Open Scope Z_scope.

Definition SEGMENT_SLOTS : Z := 1000000.
Definition UNKNOWN : Z := -9223372036854775808.
Definition SKIPPED : Z := -9223372036854775807.
Definition NULL_TIME : Z := -9223372036854775806.

(** [segment_memory_bytes] *)
Definition segment_memory_bytes : Z := SEGMENT_SLOTS * 8 + (SEGMENT_SLOTS + 63) / 64 * 8.

(** [BlockTimeRangeRow] *)
Record BlockTimeRangeRow := mkRow {
  row_slot : Z;
  row_parent_slot : Z;
  row_block_time : option Z;
}.

Inductive BlockTimeLookup :=
| NotCovered
| Skipped
| Found (time : option Z).

(** [SegmentData] *)
Record Segment := mkSegment {
  times : gmap Z Z;
  produced : gmap Z Z;
}.

Definition time_at (seg : Segment) (offset : Z) : Z := default UNKNOWN (times seg !! offset).
Definition word_at (seg : Segment) (index : Z) : Z := default 0 (produced seg !! index).

(** The parts of [BlockIndexConfig] the index reads. *)
Record BlockIndexConfig := mkIndexConfig {
  max_memory_bytes : Z;
  slots_per_query : Z;
}.

Record BlockIndex := mkIndex {
  cfg : BlockIndexConfig;
  segments : gmap Z Segment;
  durable_coverage : CoverageMap;
  coverage : CoverageMap;
}.

Definition set_segments (s : gmap Z Segment) (b : BlockIndex) : BlockIndex :=
  mkIndex (cfg b) s (durable_coverage b) (coverage b).
Definition set_coverage (c : CoverageMap) (b : BlockIndex) : BlockIndex :=
  mkIndex (cfg b) (segments b) (durable_coverage b) c.
Definition set_durable (c : CoverageMap) (b : BlockIndex) : BlockIndex :=
  mkIndex (cfg b) (segments b) c (coverage b).

(** The index [open] returns, once the memory limit was accepted. *)
Definition index_open (c : BlockIndexConfig) : option BlockIndex :=
  if max_memory_bytes c <? segment_memory_bytes then None
  else Some (mkIndex c ∅ coverage_new coverage_new).

(** ** Reading the bitmap *)

(** [u64::trailing_zeros] *)
Fixpoint trailing_zeros_pos (p : positive) : Z :=
  match p with xO q => trailing_zeros_pos q + 1 | _ => 0 end.
Definition trailing_zeros (word : Z) : Z :=
  match word with Zpos p => trailing_zeros_pos p | _ => 64 end.

(** The loop [while word != 0]; a word has at most 64 bits set. *)
Fixpoint word_loop (fuel : nat) (base word : Z) : list Z :=
  match fuel with
  | O => []
  | S fuel' =>
      if word =? 0 then []
      else (base + trailing_zeros word) :: word_loop fuel' base (Z.land word (word - 1))
  end.

(** The word at [index], without the bits before [first] and after [last]. *)
Definition masked_word (first last index word : Z) : Z :=
  let word := if index =? first / 64
              then Z.land word (wrap64 (Z.shiftl u64_max (first mod 64))) else word in
  if ((index =? last / 64) && negb (last mod 64 =? 63))%bool
  then Z.land word (Z.shiftl 1 (last mod 64 + 1) - 1) else word.

(** [a..=b] *)
Definition range_inclusive (a b : Z) : list Z := seqZ a (b - a + 1).

(** [segment_slots] *)
Definition segment_slots (seg : Segment) (id start end_ : Z) : list Z :=
  let first := start mod SEGMENT_SLOTS in
  let last := end_ mod SEGMENT_SLOTS in
  range_inclusive (first / 64) (last / 64) ≫= fun index =>
    word_loop 64 (id * SEGMENT_SLOTS + index * 64)
      (masked_word first last index (word_at seg index)).

(** The loop of [append_segment_coverage], one turn per segment. *)
Fixpoint append_loop (fuel : nat) (segs : gmap Z Segment) (end_ cursor : Z) (proof : SlotCoverage) :
    SlotCoverage :=
  match fuel with
  | O => proof
  | S fuel' =>
      let segment_id := cursor / SEGMENT_SLOTS in
      let tip := Z.min end_ (sat_add cursor (SEGMENT_SLOTS - 1 - cursor mod SEGMENT_SLOTS)) in
      let proof :=
        match segs !! segment_id with
        | Some seg =>
            merge proof (SlotCoverage_new (segment_slots seg segment_id cursor tip) cursor tip)
        | None => proof
        end in
      if tip =? end_ then proof else append_loop fuel' segs end_ (tip + 1) proof
  end.

(** [append_segment_coverage] *)
Definition append_segment_coverage (segs : gmap Z Segment) (start end_ : Z) (proof : SlotCoverage) :
    SlotCoverage :=
  append_loop (Z.to_nat (end_ / SEGMENT_SLOTS - start / SEGMENT_SLOTS + 1)) segs end_ start proof.

(** [BlockIndex::range_coverage] *)
Definition index_range_coverage (b : BlockIndex) (start end_ : Z) : SlotCoverage :=
  foldl (fun proof r => append_segment_coverage (segments b) (fst r) (snd r) proof)
    SlotCoverage_default (intersections start end_ (coverage b)).

(** [BlockIndex::value] *)
Definition value (b : BlockIndex) (slot : Z) : option Z :=
  match segments b !! (slot / SEGMENT_SLOTS) with
  | Some seg => Some (time_at seg (slot mod SEGMENT_SLOTS))
  | None => None
  end.

(** [BlockIndex::block_time] *)
Definition block_time (b : BlockIndex) (slot : Z) : BlockTimeLookup :=
  if negb (contains_slot slot (coverage b)) then NotCovered
  else
    match value b slot with
    | None => NotCovered
    | Some v =>
        if v =? NULL_TIME then Found None
        else if ((v =? UNKNOWN) || (v =? SKIPPED))%bool then Skipped
        else Found (Some v)
    end.

(** ** Publishing *)

(** [BlockIndex::new_segment] *)
Definition new_segment : Segment := mkSegment ∅ ∅.

(** [segments.keys().copied().min()] *)
Definition min_key (segs : gmap Z Segment) : option Z :=
  foldr (fun k acc => Some (match acc with None => k | Some m => Z.min k m end)) None
    (map fst (map_to_list segs)).

Definition max_segments (b : BlockIndex) : Z := max_memory_bytes (cfg b) / segment_memory_bytes.

(** The loop of [reserve_segments]. *)
Fixpoint reserve_loop (limit : Z) (ids : list Z) (segs : gmap Z Segment) (evicted_through : option Z) :
    gmap Z Segment * option Z :=
  match ids with
  | [] => (segs, evicted_through)
  | segment_id :: rest =>
      match segs !! segment_id with
      | Some _ => reserve_loop limit rest segs evicted_through
      | None =>
          if limit <=? Z.of_nat (size segs) then
            match min_key segs with
            | None => (segs, evicted_through)
            | Some oldest =>
                if segment_id <=? oldest then reserve_loop limit rest segs evicted_through
                else
                  reserve_loop limit rest (<[segment_id := new_segment]> (delete oldest segs))
                    (Some (match evicted_through with None => oldest | Some v => Z.max v oldest end))
            end
          else reserve_loop limit rest (<[segment_id := new_segment]> segs) evicted_through
      end
  end.

(** [reserve_segments] up to the release of the segment lock: segments are evicted,
    their coverage is still there. *)
Definition reserve_evict (start end_ : Z) (b : BlockIndex) : BlockIndex * option Z :=
  let first := start / SEGMENT_SLOTS in
  let last := end_ / SEGMENT_SLOTS in
  let '(segs, evicted) :=
    reserve_loop (max_segments b) (reverse (range_inclusive first last)) (segments b) None in
  (set_segments segs b, evicted).

(** [BlockIndex::reserve_segments], with the identifiers of the reserved segments. *)
Definition reserve_segments (start end_ : Z) (b : BlockIndex) : BlockIndex * list Z :=
  let '(b, evicted) := reserve_evict start end_ b in
  let reserved :=
    List.filter (fun id => match segments b !! id with Some _ => true | None => false end)
      (range_inclusive (start / SEGMENT_SLOTS) (end_ / SEGMENT_SLOTS)) in
  match evicted with
  | Some v => (set_coverage (remove_below (sat_mul (sat_add v 1) SEGMENT_SLOTS) (coverage b)) b, reserved)
  | None => (b, reserved)
  end.

(** The two stores for a row. *)
Definition store_row (seg : Segment) (row : BlockTimeRangeRow) : Segment :=
  let offset := row_slot row mod SEGMENT_SLOTS in
  mkSegment
    (<[offset := default NULL_TIME (row_block_time row)]> (times seg))
    (<[offset / 64 := Z.lor (word_at seg (offset / 64)) (Z.shiftl 1 (offset mod 64))]> (produced seg)).

(** [while row_index < rows.len() && p(rows[row_index]) { row_index += 1; .. }]: the rows
    passed and the rows left. *)
Fixpoint take_while {A} (p : A -> bool) (l : list A) : list A :=
  match l with [] => [] | a :: l' => if p a then a :: take_while p l' else [] end.
Fixpoint skip_while {A} (p : A -> bool) (l : list A) : list A :=
  match l with [] => [] | a :: l' => if p a then skip_while p l' else l end.

(** The loop of [publish_memory], one turn per segment. *)
Fixpoint publish_loop (fuel : nat) (reserved : list Z) (end_ cursor : Z)
    (rows : list BlockTimeRangeRow) (b : BlockIndex) (published_all : bool) : BlockIndex * bool :=
  match fuel with
  | O => (b, published_all)
  | S fuel' =>
      if end_ <? cursor then (b, published_all)
      else
        let segment_id := cursor / SEGMENT_SLOTS in
        let segment_end := Z.min end_ ((segment_id + 1) * SEGMENT_SLOTS - 1) in
        let rows := skip_while (fun row => row_slot row <? cursor) rows in
        let inside := take_while (fun row => row_slot row <=? segment_end) rows in
        let rest := skip_while (fun row => row_slot row <=? segment_end) rows in
        if bool_decide (segment_id ∈ reserved) then
          let b := set_segments (alter (fun seg => foldl store_row seg inside) segment_id (segments b)) b in
          let b := set_coverage (insert_range cursor segment_end (coverage b)) b in
          publish_loop fuel' reserved end_ (sat_add segment_end 1) rest b published_all
        else publish_loop fuel' reserved end_ (sat_add segment_end 1) rest b false
  end.

(** [BlockIndex::publish_memory] *)
Definition publish_memory (start end_ : Z) (rows : list BlockTimeRangeRow) (b : BlockIndex) :
    BlockIndex * bool :=
  if end_ <? start then (b, true)
  else
    let '(b, reserved) := reserve_segments start end_ b in
    publish_loop (Z.to_nat (end_ / SEGMENT_SLOTS - start / SEGMENT_SLOTS + 1)) reserved end_ start rows b true.

(** ** The bitmap scan lists the set bits *)

Lemma trailing_zeros_spec p :
  let t := trailing_zeros_pos p in
  0 <= t /\ Z.testbit (Zpos p) t = true /\ (forall i, 0 <= i < t -> Z.testbit (Zpos p) i = false) /\
  forall i, 0 <= i -> Z.testbit (Z.land (Zpos p) (Zpos p - 1)) i = (Z.testbit (Zpos p) i && negb (i =? t))%bool.
Proof.
  assert (Hbit : forall a i, 0 <= i -> Z.testbit (2 * a) i = if i =? 0 then false else Z.testbit a (i - 1)).
  { intros a i Hi. destruct (Z.eqb_spec i 0) as [->|]; [apply Z.testbit_even_0|].
    replace i with (Z.succ (i - 1)) at 1 by lia. apply Z.testbit_even_succ. lia. }
  assert (Hbit1 : forall a i, 0 <= i -> Z.testbit (2 * a + 1) i = if i =? 0 then true else Z.testbit a (i - 1)).
  { intros a i Hi. destruct (Z.eqb_spec i 0) as [->|]; [apply Z.testbit_odd_0|].
    replace i with (Z.succ (i - 1)) at 1 by lia. apply Z.testbit_odd_succ. lia. }
  induction p as [q IH|q IH|]; cbn [trailing_zeros_pos]; cbv zeta in *.
  - split; [lia|]. split; [done|]. split; [lia|]. intros i Hi. rewrite Z.land_spec.
    replace (Zpos (xI q) - 1) with (2 * Zpos q) by lia. replace (Zpos (xI q)) with (2 * Zpos q + 1) by lia.
    rewrite Hbit, Hbit1 by lia. destruct (Z.eqb_spec i 0); [done|]. rewrite andb_true_r. apply andb_diag.
  - destruct IH as (Ht & Hset & Hlow & Hclear). set (t := trailing_zeros_pos q) in *.
    replace (Zpos (xO q)) with (2 * Zpos q) by lia. replace (2 * Zpos q - 1) with (2 * (Zpos q - 1) + 1) by lia.
    split; [lia|]. split; [|split].
    + rewrite Hbit by lia. destruct (Z.eqb_spec (t + 1) 0); [lia|]. by replace (t + 1 - 1) with t by lia.
    + intros i Hi. rewrite Hbit by lia. destruct (Z.eqb_spec i 0); [done|]. apply Hlow. lia.
    + intros i Hi. rewrite Z.land_spec, Hbit, Hbit1 by lia. destruct (Z.eqb_spec i 0); [done|].
      rewrite <- Z.land_spec, Hclear by lia. f_equal. f_equal.
      destruct (Z.eqb_spec (i - 1) t), (Z.eqb_spec i (t + 1)); lia.
  - split; [lia|]. split; [done|]. split; [lia|]. intros i Hi. change (Z.land 1 (1 - 1)) with 0.
    rewrite Z.bits_0. destruct (Z.eqb_spec i 0) as [->|]; [done|].
    replace 1 with (2 * 0 + 1) by lia. rewrite Hbit1 by lia. destruct (Z.eqb_spec i 0); [lia|].
    by rewrite Z.bits_0.
Qed.

(** A bit of a [u64] is below 64. *)
Lemma testbit_high w i : 0 <= w <= u64_max -> 64 <= i -> Z.testbit w i = false.
Proof.
  intros Hw Hi. destruct (decide (w = 0)) as [->|]; [apply Z.bits_0|]. apply Z.bits_above_log2; [lia|].
  assert (Z.log2 w < 64); [|lia]. apply Z.log2_lt_pow2; [lia|]. change (2 ^ 64) with (u64_max + 1). lia.
Qed.

Lemma land_u64 a b : 0 <= a <= u64_max -> 0 <= b -> 0 <= Z.land a b <= u64_max.
Proof.
  intros Ha Hb. assert (0 <= Z.land a b) by (apply Z.land_nonneg; lia). split; [done|].
  destruct (decide (Z.land a b <= u64_max)) as [|Hgt]; [done|]. exfalso.
  assert (64 <= Z.log2 (Z.land a b)).
  { apply Z.log2_le_pow2; [lia|]. change (2 ^ 64) with (u64_max + 1). lia. }
  assert (Hb' : Z.testbit (Z.land a b) (Z.log2 (Z.land a b)) = true) by (apply Z.bit_log2; unfold u64_max in *; lia).
  rewrite Z.land_spec, (testbit_high a) in Hb' by (done || lia). done.
Qed.

(** The positions left to visit: the bits of [w] are at [k] or above. *)
Lemma word_loop_spec fuel base w k :
  0 <= w <= u64_max -> 0 <= k -> (forall i, 0 <= i < k -> Z.testbit w i = false) ->
  64 - k <= Z.of_nat fuel ->
  ascending (word_loop fuel base w) /\
  forall x, x ∈ word_loop fuel base w <-> base <= x < base + 64 /\ Z.testbit w (x - base) = true.
Proof.
  revert w k. induction fuel as [|fuel IH]; intros w k Hw Hk Hlow Hfuel; cbn [word_loop].
  { split; [constructor|]. intros x. split; [by intros ?%elem_of_nil|]. intros [Hx Hb].
    rewrite Hlow in Hb; [done|lia]. }
  destruct (Z.eqb_spec w 0) as [->|Hne].
  { split; [constructor|]. intros x. rewrite Z.bits_0. split; [by intros ?%elem_of_nil|by intros []]. }
  destruct w as [|p|p]; [done| |lia]. cbn [trailing_zeros].
  pose proof (trailing_zeros_spec p) as (Ht & Hset & Hbelow & Hclear). cbv zeta in *.
  set (t := trailing_zeros_pos p) in *.
  assert (Hkt : k <= t). { destruct (decide (k <= t)); [done|]. rewrite Hlow in Hset; [done|lia]. }
  assert (Ht64 : t < 64). { destruct (decide (t < 64)); [done|]. rewrite testbit_high in Hset; [done|done|lia]. }
  assert (Hsub : forall i, 0 <= i -> Z.testbit (Z.land (Zpos p) (Zpos p - 1)) i = true <->
                                     Z.testbit (Zpos p) i = true /\ i <> t).
  { intros i Hi. rewrite Hclear by done. by rewrite andb_true_iff, negb_true_iff, Z.eqb_neq. }
  destruct (IH (Z.land (Zpos p) (Zpos p - 1)) (t + 1)) as [Hasc Hin].
  - apply land_u64; [done|lia].
  - lia.
  - intros i Hi. rewrite Hclear by lia. destruct (Z.eqb_spec i t); [by rewrite andb_false_r|].
    rewrite Hbelow; [done|lia].
  - lia.
  - assert (Hin' : forall x, x ∈ word_loop fuel base (Z.land (Zpos p) (Zpos p - 1)) <->
      base <= x < base + 64 /\ Z.testbit (Zpos p) (x - base) = true /\ x <> base + t).
    { intros x. rewrite Hin. split; intros [Hx Hb]; (split; [lia|]).
      - apply Hsub in Hb as [Hb Hn]; [|lia]. split; [done|lia].
      - apply Hsub; [lia|]. destruct Hb. split; [done|lia]. }
    split.
    + apply ascending_cons. split; [|done]. apply Forall_forall. intros x (Hx & Hb & Hn)%Hin'.
      destruct (decide (base + t < x)) as [|Hge]; [done|]. rewrite Hbelow in Hb; [done|lia].
    + intros x. rewrite elem_of_cons, Hin'. split.
      * intros [->|(Hx & Hb & _)]; [|done]. replace (base + t - base) with t by lia. split; [lia|done].
      * intros [Hx Hb]. destruct (decide (x = base + t)); [by left|by right].
Qed.

Lemma masked_word_u64 first last index w :
  0 <= first -> 0 <= last -> 0 <= w <= u64_max -> 0 <= masked_word first last index w <= u64_max.
Proof.
  intros Hf Hl Hw. unfold masked_word. cbv zeta.
  assert (Hm : 0 <= wrap64 (Z.shiftl u64_max (first mod 64))) by (apply Z.mod_pos_bound; done).
  assert (Hs : 0 <= Z.shiftl 1 (last mod 64 + 1) - 1).
  { pose proof (Z.mod_pos_bound last 64 eq_refl). rewrite Z.shiftl_1_l.
    pose proof (Z.pow_pos_nonneg 2 (last mod 64 + 1)). lia. }
  destruct (index =? first / 64), (((index =? last / 64) && negb (last mod 64 =? 63))%bool);
    try apply land_u64; try done; by apply land_u64.
Qed.

Lemma testbit_u64_max i : 0 <= i -> Z.testbit u64_max i = (i <? 64).
Proof. intros Hi. change u64_max with (Z.ones 64). rewrite Z.testbit_ones by lia. destruct (Z.leb_spec 0 i); [done|lia]. Qed.

Lemma testbit_low_mask n i : 0 <= n -> 0 <= i -> Z.testbit (Z.shiftl 1 n - 1) i = (i <? n).
Proof.
  intros Hn Hi. replace (Z.shiftl 1 n - 1) with (Z.ones n) by (rewrite Z.ones_equiv, Z.shiftl_1_l; lia).
  rewrite Z.testbit_ones by lia. destruct (Z.leb_spec 0 i); [done|lia].
Qed.

Lemma masked_word_bit first last index w i :
  0 <= first -> 0 <= last -> first / 64 <= index <= last / 64 -> 0 <= i < 64 ->
  Z.testbit (masked_word first last index w) i = true <->
  Z.testbit w i = true /\ first <= index * 64 + i <= last.
Proof.
  intros Hf Hl Hidx Hi. unfold masked_word. cbv zeta.
  pose proof (Z.mod_pos_bound first 64 eq_refl). pose proof (Z.mod_pos_bound last 64 eq_refl).
  pose proof (Z.div_mod first 64 ltac:(lia)). pose proof (Z.div_mod last 64 ltac:(lia)).
  assert (Hlo : Z.testbit (wrap64 (Z.shiftl u64_max (first mod 64))) i = (first mod 64 <=? i)).
  { unfold wrap64. change (u64_max + 1) with (2 ^ 64). rewrite Z.mod_pow2_bits_low by lia.
    rewrite Z.shiftl_spec by lia. destruct (Z.leb_spec (first mod 64) i).
    - rewrite testbit_u64_max by lia. destruct (Z.ltb_spec (i - first mod 64) 64); [done|lia].
    - apply Z.testbit_neg_r. lia. }
  assert (Hhi : Z.testbit (Z.shiftl 1 (last mod 64 + 1) - 1) i = (i <? last mod 64 + 1))
    by (apply testbit_low_mask; lia).
  destruct (Z.eqb_spec index (first / 64)), (Z.eqb_spec index (last / 64)), (Z.eqb_spec (last mod 64) 63);
    cbn [andb negb]; rewrite ?Z.land_spec, ?Hlo, ?Hhi, ?andb_true_iff, ?Z.leb_le, ?Z.ltb_lt;
    intuition lia.
Qed.

Lemma range_inclusive_elem a b x : x ∈ range_inclusive a b <-> a <= x <= b.
Proof. unfold range_inclusive. rewrite elem_of_seqZ. lia. Qed.

Lemma range_inclusive_ascending a b : ascending (range_inclusive a b).
Proof.
  unfold range_inclusive. remember (Z.to_nat (b - a + 1)) as n eqn:En. revert a En.
  induction n as [|n IH]; intros a En.
  - rewrite seqZ_nil by lia. constructor.
  - rewrite seqZ_cons by lia. apply ascending_cons. split.
    + apply Forall_forall. intros x Hx%elem_of_seqZ. lia.
    + replace (Z.pred (b - a + 1)) with (b - Z.succ a + 1) by lia. apply IH. lia.
Qed.

(** Concatenating one ascending block of 64 positions per word. *)
Lemma words_ascending f c l :
  ascending l -> Forall (fun i => ascending (f i) /\ forall x, x ∈ f i -> c + i * 64 <= x < c + i * 64 + 64) l ->
  ascending ((l ≫= f)).
Proof.
  induction 1 as [|i l Hl IH Hf]; intros Hall; [constructor|].
  apply Forall_cons in Hall as [[Hi Hb] Hall]. specialize (IH Hall). cbn.
  rewrite Forall_forall in Hf, Hall.
  assert (Hsep : forall y, y ∈ f i -> Forall (Z.lt y) ((l ≫= f))).
  { intros y Hy. apply Forall_forall. intros x (j & Hx & Hj)%list_elem_of_bind.
    destruct (Hall j Hj) as [_ Hbj]. specialize (Hb y Hy). specialize (Hbj x Hx). specialize (Hf j Hj). lia. }
  clear Hb. induction Hi as [|y k Hk IHk Hy]; simpl; [done|].
  apply ascending_cons. split.
  - apply Forall_app. split; [done|]. apply Hsep, list_elem_of_here.
  - apply IHk. intros z Hz. apply Hsep. by right.
Qed.

(** Whether the bitmap marks an offset of the segment as produced. *)
Definition produced_at (seg : Segment) (offset : Z) : bool :=
  Z.testbit (word_at seg (offset / 64)) (offset mod 64).

Definition words_ok (seg : Segment) : Prop := forall i, 0 <= word_at seg i <= u64_max.

Lemma segment_slots_spec seg id start end_ :
  words_ok seg -> 0 <= start <= end_ -> start / SEGMENT_SLOTS = id -> end_ / SEGMENT_SLOTS = id ->
  ascending (segment_slots seg id start end_) /\
  forall x, x ∈ segment_slots seg id start end_ <->
    start <= x <= end_ /\ produced_at seg (x mod SEGMENT_SLOTS) = true.
Proof.
  intros Hw Hse Hs He. unfold segment_slots. cbv zeta.
  assert (HS : 0 < SEGMENT_SLOTS) by done.
  pose proof (Z.div_mod start SEGMENT_SLOTS ltac:(lia)) as Hsd. rewrite Hs in Hsd.
  pose proof (Z.div_mod end_ SEGMENT_SLOTS ltac:(lia)) as Hed. rewrite He in Hed.
  pose proof (Z.mod_pos_bound start _ HS). pose proof (Z.mod_pos_bound end_ _ HS).
  set (first := start mod SEGMENT_SLOTS) in *. set (last := end_ mod SEGMENT_SLOTS) in *.
  set (c := id * SEGMENT_SLOTS) in *.
  set (f := fun index => word_loop 64 (c + index * 64) (masked_word first last index (word_at seg index))).
  assert (Hf : forall i, first / 64 <= i <= last / 64 ->
    ascending (f i) /\ forall x, x ∈ f i <-> c + i * 64 <= x < c + i * 64 + 64 /\
      produced_at seg (x - c) = true /\ start <= x <= end_).
  { intros i Hi. unfold f.
    destruct (word_loop_spec 64 (c + i * 64) (masked_word first last i (word_at seg i)) 0) as [Ha Hx];
      [apply masked_word_u64; [lia|lia|apply Hw]|lia|lia|lia|].
    split; [done|]. intros x. rewrite Hx.
    assert (E : forall y, 0 <= y < 64 -> (i * 64 + y) / 64 = i /\ (i * 64 + y) mod 64 = y).
    { intros y Hy. pose proof (Z.div_mod (i * 64 + y) 64). pose proof (Z.mod_pos_bound (i * 64 + y) 64 eq_refl). lia. }
    unfold produced_at. split.
    - intros [Hb Ht]. rewrite masked_word_bit in Ht by lia. destruct Ht as [Ht Hr].
      destruct (E (x - (c + i * 64)) ltac:(lia)) as [E1 E2].
      replace (i * 64 + (x - (c + i * 64))) with (x - c) in * by lia. rewrite E1, E2. split; [done|]. split; [done|lia].
    - intros (Hb & Ht & Hr). split; [done|]. rewrite masked_word_bit by lia.
      destruct (E (x - (c + i * 64)) ltac:(lia)) as [E1 E2].
      replace (i * 64 + (x - (c + i * 64))) with (x - c) in * by lia. rewrite E1, E2 in Ht. split; [done|lia]. }
  assert (Hmod : forall x, start <= x <= end_ -> x mod SEGMENT_SLOTS = x - c).
  { intros x Hx. symmetry. apply (Z.mod_unique_pos x SEGMENT_SLOTS id); lia. }
  split.
  - apply (words_ascending f c); [apply range_inclusive_ascending|]. apply Forall_forall.
    intros i Hi%range_inclusive_elem. destruct (Hf i Hi) as [Ha Hx]. split; [done|]. intros x Hxi. by apply Hx.
  - intros x. split.
    + intros (i & Hx & Hi%range_inclusive_elem)%list_elem_of_bind. apply (Hf i Hi) in Hx as (_ & Ht & Hr).
      split; [done|]. by rewrite Hmod.
    + intros [Hx Ht]. rewrite Hmod in Ht by done. apply list_elem_of_bind. exists ((x - c) / 64).
      assert (Hi : first / 64 <= (x - c) / 64 <= last / 64) by (split; apply Z.div_le_mono; lia).
      split; [|by apply range_inclusive_elem]. apply (Hf _ Hi).
      pose proof (Z.div_mod (x - c) 64). pose proof (Z.mod_pos_bound (x - c) 64 eq_refl). split; [lia|done].
Qed.

(** ** The invariant

    [truth] is the finalized chain: a slot's block time where the slot has a block
    (the time itself may be unrecorded), [None] where it was skipped. *)

Section Truth.
Context (truth : Z -> option (option Z)).

Definition block_at (slot : Z) : Prop := truth slot <> None.

Definition encode_time (t : option Z) : Z := default NULL_TIME t.

(** Recorded block times are not the reserved values. *)
Definition times_in_range : Prop := forall slot t, truth slot = Some (Some t) -> NULL_TIME < t.

(** A segment never says anything false: its bitmap marks the offsets with a time,
    and each stored time is the block's. *)
Record segment_ok (id : Z) (seg : Segment) : Prop := {
  so_words : words_ok seg;
  so_bit : forall o, 0 <= o < SEGMENT_SLOTS -> produced_at seg o = true <-> time_at seg o <> UNKNOWN;
  so_time : forall o, 0 <= o < SEGMENT_SLOTS -> time_at seg o <> UNKNOWN ->
    exists t, truth (id * SEGMENT_SLOTS + o) = Some t /\ time_at seg o = encode_time t;
}.

(** The segment holds the slot's answer: a block it knows, or a skipped slot. *)
Definition answered (seg : Segment) (x : Z) : Prop :=
  block_at x -> time_at seg (x mod SEGMENT_SLOTS) <> UNKNOWN.

(** What holds at every point a reader can observe. *)
Record index_sound (b : BlockIndex) : Prop := {
  is_coverage : map_ok (coverage b);
  is_segments : forall id seg, segments b !! id = Some seg -> segment_ok id seg;
  is_answered : forall x seg, covers (coverage b) x -> segments b !! (x / SEGMENT_SLOTS) = Some seg -> answered seg x;
}.

(** What holds between the worker's operations: also, each covered slot has its
    segment and the memory limit is kept. *)
Record index_ok (b : BlockIndex) : Prop := {
  io_sound : index_sound b;
  io_present : forall x, covers (coverage b) x -> is_Some (segments b !! (x / SEGMENT_SLOTS));
  io_durable : map_ok (durable_coverage b);
  io_limit : 1 <= max_segments b;
  io_size : Z.of_nat (size (segments b)) <= max_segments b;
}.

Lemma open_ok c b : index_open c = Some b -> index_ok b.
Proof.
  unfold index_open. destruct (Z.ltb_spec (max_memory_bytes c) segment_memory_bytes) as [|Hm]; [done|].
  intros [= <-]. assert (Hl : 1 <= max_memory_bytes c / segment_memory_bytes).
  { apply Z.div_le_lower_bound; [done|]. lia. }
  split; [split|..]; cbn [coverage durable_coverage segments cfg]; try exact new_ok.
  - intros id seg. by rewrite lookup_empty.
  - by intros x seg ?%in_ranges_nil.
  - by intros x ?%in_ranges_nil.
  - exact Hl.
  - rewrite map_size_empty. unfold max_segments. simpl. lia.
Qed.

Lemma new_segment_ok id : segment_ok id new_segment.
Proof.
  assert (Hw : forall i, word_at new_segment i = 0) by (intros i; unfold word_at; simpl; by rewrite lookup_empty).
  assert (Ht : forall o, time_at new_segment o = UNKNOWN) by (intros o; unfold time_at; simpl; by rewrite lookup_empty).
  split.
  - intros i. rewrite Hw. unfold u64_max. lia.
  - intros o _. unfold produced_at. rewrite Hw, Ht, Z.bits_0. split; congruence.
  - intros o _ Hn. by rewrite Ht in Hn.
Qed.

(** A row says what the chain says. *)
Definition row_true (row : BlockTimeRangeRow) : Prop := truth (row_slot row) = Some (row_block_time row).

Lemma encode_known slot t : times_in_range -> truth slot = Some t -> encode_time t <> UNKNOWN.
Proof.
  intros Ht E. destruct t as [v|]; [|done]. specialize (Ht slot v E).
  unfold encode_time, NULL_TIME, UNKNOWN in *. simpl. lia.
Qed.

Lemma time_store seg row o :
  time_at (store_row seg row) o =
  if o =? row_slot row mod SEGMENT_SLOTS then encode_time (row_block_time row) else time_at seg o.
Proof.
  unfold time_at, store_row. cbn [times]. destruct (Z.eqb_spec o (row_slot row mod SEGMENT_SLOTS)) as [->|Hn].
  - by rewrite lookup_insert_eq.
  - by rewrite lookup_insert_ne.
Qed.

Lemma word_store seg row i :
  let offset := row_slot row mod SEGMENT_SLOTS in
  word_at (store_row seg row) i =
  if i =? offset / 64 then Z.lor (word_at seg i) (Z.shiftl 1 (offset mod 64)) else word_at seg i.
Proof.
  cbv zeta. unfold word_at at 1, store_row. cbn [produced]. destruct (Z.eqb_spec i (row_slot row mod SEGMENT_SLOTS / 64)) as [->|Hn].
  - by rewrite lookup_insert_eq.
  - by rewrite lookup_insert_ne.
Qed.

Lemma produced_store seg row o :
  0 <= o -> produced_at (store_row seg row) o =
            (produced_at seg o || (o =? row_slot row mod SEGMENT_SLOTS))%bool.
Proof.
  intros Ho. unfold produced_at. rewrite word_store. cbv zeta.
  pose proof (Z.mod_pos_bound (row_slot row) SEGMENT_SLOTS eq_refl).
  set (r := row_slot row mod SEGMENT_SLOTS) in *.
  pose proof (Z.div_mod o 64). pose proof (Z.div_mod r 64).
  pose proof (Z.mod_pos_bound o 64 eq_refl). pose proof (Z.mod_pos_bound r 64 eq_refl).
  destruct (Z.eqb_spec (o / 64) (r / 64)).
  - rewrite Z.lor_spec. f_equal. rewrite Z.shiftl_1_l, Z.pow2_bits_eqb by lia.
    destruct (Z.eqb_spec (r mod 64) (o mod 64)), (Z.eqb_spec o r); lia.
  - destruct (Z.eqb_spec o r); [congruence|]. by rewrite orb_false_r.
Qed.

Lemma lor_u64 a b : 0 <= a <= u64_max -> 0 <= b <= u64_max -> 0 <= Z.lor a b <= u64_max.
Proof.
  intros Ha Hb. assert (0 <= Z.lor a b) by (apply Z.lor_nonneg; lia). split; [done|].
  destruct (decide (Z.lor a b <= u64_max)) as [|Hgt]; [done|]. exfalso.
  assert (64 <= Z.log2 (Z.lor a b)).
  { apply Z.log2_le_pow2; [lia|]. change (2 ^ 64) with (u64_max + 1). lia. }
  assert (Hb' : Z.testbit (Z.lor a b) (Z.log2 (Z.lor a b)) = true) by (apply Z.bit_log2; unfold u64_max in *; lia).
  rewrite Z.lor_spec, !testbit_high in Hb' by (done || lia). done.
Qed.

Lemma store_row_ok id seg row :
  times_in_range -> segment_ok id seg -> row_true row -> row_slot row / SEGMENT_SLOTS = id ->
  segment_ok id (store_row seg row).
Proof.
  intros Htr [Hw Hb Ht] Hr Hid. pose proof (Z.mod_pos_bound (row_slot row) SEGMENT_SLOTS eq_refl) as Hm.
  pose proof (encode_known _ _ Htr Hr) as Hk. split.
  - intros i. rewrite word_store. cbv zeta. destruct (i =? _); [|apply Hw]. apply lor_u64; [apply Hw|].
    pose proof (Z.mod_pos_bound (row_slot row mod SEGMENT_SLOTS) 64 eq_refl). rewrite Z.shiftl_1_l.
    pose proof (Z.pow_pos_nonneg 2 (row_slot row mod SEGMENT_SLOTS mod 64)).
    assert (2 ^ (row_slot row mod SEGMENT_SLOTS mod 64) <= 2 ^ 63) by (apply Z.pow_le_mono_r; lia).
    change u64_max with (2 ^ 64 - 1). change (2 ^ 64) with (2 * 2 ^ 63). lia.
  - intros o Ho. rewrite produced_store, time_store by lia. specialize (Hb o Ho).
    destruct (Z.eqb_spec o (row_slot row mod SEGMENT_SLOTS)); [|by rewrite orb_false_r].
    rewrite orb_true_r. done.
  - intros o Ho. rewrite time_store. destruct (Z.eqb_spec o (row_slot row mod SEGMENT_SLOTS)) as [->|]; [|auto].
    intros _. exists (row_block_time row). split; [|done]. rewrite <- Hr. f_equal. subst id.
    pose proof (Z.div_mod (row_slot row) SEGMENT_SLOTS ltac:(done)). lia.
Qed.

Lemma store_rows_ok id rows seg :
  times_in_range -> segment_ok id seg ->
  Forall (fun row => row_true row /\ row_slot row / SEGMENT_SLOTS = id) rows ->
  segment_ok id (foldl store_row seg rows) /\
  (forall o, time_at seg o <> UNKNOWN -> time_at (foldl store_row seg rows) o <> UNKNOWN) /\
  (forall row, row ∈ rows -> time_at (foldl store_row seg rows) (row_slot row mod SEGMENT_SLOTS) <> UNKNOWN).
Proof.
  intros Htr Hok Hall. revert seg Hok. induction Hall as [|row rows [Hr Hid] Hall IH]; intros seg Hok; cbn [foldl].
  { split; [done|]. split; [done|]. by intros row ?%elem_of_nil. }
  destruct (IH (store_row seg row)) as (H1 & H2 & H3); [by apply store_row_ok|].
  pose proof (encode_known _ _ Htr Hr) as Hk.
  assert (Hmono : forall o, time_at seg o <> UNKNOWN -> time_at (store_row seg row) o <> UNKNOWN).
  { intros o Ho. rewrite time_store. by destruct (_ =? _). }
  split; [done|]. split; [auto|]. intros r [->|Hr']%elem_of_cons; [|auto].
  apply H2. rewrite time_store, Z.eqb_refl. done.
Qed.

(** ** Reserving segments *)

Lemma min_key_spec segs m :
  min_key segs = Some m -> is_Some (segs !! m) /\ forall k, is_Some (segs !! k) -> m <= k.
Proof.
  assert (Hk : forall k, is_Some (segs !! k) <-> k ∈ map fst (map_to_list segs)).
  { intros k. split.
    - intros [v Hv%elem_of_map_to_list]. apply list_elem_of_fmap. by exists (k, v).
    - intros ([k' v] & -> & Hv%elem_of_map_to_list)%list_elem_of_fmap. by exists v. }
  intros E. rewrite Hk. setoid_rewrite Hk. clear Hk. unfold min_key in E.
  revert m E. induction (map fst (map_to_list segs)) as [|a l IH]; intros m; cbn [foldr]; [done|].
  destruct (foldr _ None l) as [n|] eqn:En; intros [= <-].
  - destruct (IH n eq_refl) as [Hin Hle]. split.
    + destruct (Z.min_spec a n) as [[_ ->]|[_ ->]]; [apply list_elem_of_here|by right].
    + intros k [->|Hk]%elem_of_cons; [lia|]. specialize (Hle k Hk). lia.
  - destruct l; [|done]. split; [apply list_elem_of_here|]. intros k Hk%list_elem_of_singleton. lia.
Qed.

Lemma min_key_none segs : min_key segs = None -> segs = ∅.
Proof.
  unfold min_key. intros E. apply map_to_list_empty_iff. destruct (map_to_list segs); [done|]. by simpl in E.
Qed.

(** How far the loop got from the segments [orig]. *)
Record reserved_from (limit last : Z) (orig segs : gmap Z Segment) (evicted : option Z) : Prop := {
  rf_new : forall id s, segs !! id = Some s -> orig !! id = Some s \/ (orig !! id = None /\ s = new_segment);
  rf_kept : forall id s, orig !! id = Some s -> segs !! id = Some s \/ exists v, evicted = Some v /\ id <= v;
  rf_evicted : forall v, evicted = Some v ->
    limit <= Z.of_nat (size segs) /\ v + 1 <= last /\ forall id, is_Some (segs !! id) -> v < id;
  rf_size : Z.of_nat (size segs) <= limit;
}.

Lemma reserve_insert limit last orig segs evicted id :
  reserved_from limit last orig segs evicted -> segs !! id = None -> Z.of_nat (size segs) < limit ->
  reserved_from limit last orig (<[id := new_segment]> segs) evicted.
Proof.
  intros [Hnew Hkept Hev Hsize] Hid Hlt. destruct evicted as [v|]; [specialize (Hev v eq_refl); lia|].
  assert (Ho : orig !! id = None).
  { destruct (orig !! id) as [s|] eqn:E; [|done]. destruct (Hkept _ _ E) as [|(v & ? & _)]; [congruence|done]. }
  split.
  - intros k s. destruct (decide (k = id)) as [->|].
    + rewrite lookup_insert_eq. intros [= <-]. by right.
    + rewrite lookup_insert_ne by done. apply Hnew.
  - intros k s Hk. left. destruct (Hkept k s Hk) as [|(v & ? & _)]; [|done].
    rewrite lookup_insert_ne by congruence. done.
  - done.
  - rewrite map_size_insert_None by done. lia.
Qed.

Lemma reserve_evict_step limit last orig segs evicted id oldest :
  reserved_from limit last orig segs evicted -> segs !! id = None -> limit <= Z.of_nat (size segs) ->
  min_key segs = Some oldest -> oldest < id <= last ->
  reserved_from limit last orig (<[id := new_segment]> (delete oldest segs))
    (Some (match evicted with None => oldest | Some v => Z.max v oldest end)).
Proof.
  intros [Hnew Hkept Hev Hsize] Hid Hfull Hmin Hlt. destruct (min_key_spec _ _ Hmin) as [Hold Hle].
  assert (Ev : match evicted with None => oldest | Some v => Z.max v oldest end = oldest).
  { destruct evicted as [v|]; [|done]. destruct (Hev v eq_refl) as (_ & _ & H). specialize (H _ Hold). lia. }
  rewrite Ev. clear Ev.
  assert (Hdel : delete oldest segs !! id = None) by (rewrite lookup_delete_ne by lia; done).
  assert (Hsz : size (<[id := new_segment]> (delete oldest segs)) = size segs).
  { rewrite map_size_insert_None by done. rewrite map_size_delete_Some by done.
    assert (size segs <> 0%nat); [|lia]. rewrite map_size_ne_0_lookup. by exists oldest. }
  assert (Ho : orig !! id = None).
  { destruct (orig !! id) as [s|] eqn:E; [|done]. destruct (Hkept _ _ E) as [|(v & Ev & Hv)]; [congruence|].
    destruct (Hev v Ev) as (_ & _ & H). specialize (H _ Hold). lia. }
  split.
  - intros k s. destruct (decide (k = id)) as [->|].
    + rewrite lookup_insert_eq. intros [= <-]. by right.
    + rewrite lookup_insert_ne by done. intros [_ Hk]%lookup_delete_Some. by apply Hnew.
  - intros k s Hk. destruct (decide (k <= oldest)); [right; by exists oldest|]. left.
    rewrite lookup_insert_ne by congruence. rewrite lookup_delete_ne by lia.
    destruct (Hkept k s Hk) as [|(v & Ev & Hv)]; [done|]. exfalso.
    destruct (Hev v Ev) as (_ & _ & H). specialize (H _ Hold). lia.
  - intros v [= <-]. rewrite Hsz. split; [done|]. split; [lia|]. intros k [s Hk].
    destruct (decide (k = id)) as [->|]; [lia|]. rewrite lookup_insert_ne in Hk by done.
    apply lookup_delete_Some in Hk as [Hne Hk]. specialize (Hle k (mk_is_Some _ _ Hk)). lia.
  - rewrite Hsz. done.
Qed.

Lemma reserve_loop_spec limit last orig ids segs evicted segs' evicted' :
  Forall (fun id => id <= last) ids -> reserved_from limit last orig segs evicted ->
  reserve_loop limit ids segs evicted = (segs', evicted') ->
  reserved_from limit last orig segs' evicted'.
Proof.
  intros Hids. revert segs evicted. induction Hids as [|id ids Hid Hids IH]; intros segs evicted Hr; cbn [reserve_loop].
  { by intros [= <- <-]. }
  destruct (segs !! id) as [s|] eqn:E; [by apply IH|].
  destruct (Z.leb_spec limit (Z.of_nat (size segs))).
  - destruct (min_key segs) as [oldest|] eqn:Em; [|by intros [= <- <-]].
    destruct (Z.leb_spec id oldest); [by apply IH|]. apply IH. by eapply reserve_evict_step.
  - apply IH. by apply reserve_insert.
Qed.

(** The slots of the segments kept after an eviction are those at or above the floor. *)
Lemma eviction_floor v end_ :
  is_u64 end_ -> v + 1 <= end_ / SEGMENT_SLOTS ->
  forall x, sat_mul (sat_add v 1) SEGMENT_SLOTS <= x <-> v < x / SEGMENT_SLOTS.
Proof.
  intros He Hv x. pose proof (Z.mul_div_le end_ SEGMENT_SLOTS eq_refl).
  replace (sat_mul (sat_add v 1) SEGMENT_SLOTS) with (SEGMENT_SLOTS * (v + 1)).
  - rewrite <- Z.le_succ_l, <- Z.add_1_r. split.
    + intros Hx. apply Z.div_le_lower_bound; [done|lia].
    + intros Hx. pose proof (Z.mul_div_le x SEGMENT_SLOTS eq_refl). unfold SEGMENT_SLOTS in *. lia.
  - assert ((v + 1) * SEGMENT_SLOTS <= end_) by (unfold SEGMENT_SLOTS in *; nia).
    unfold SEGMENT_SLOTS in *. sat_lia.
Qed.

(** After the segment lock is released the readers are still safe, and once the
    coverage is trimmed the full invariant is back. *)
Lemma reserve_segments_spec start end_ b :
  index_ok b -> is_u64 start -> is_u64 end_ ->
  index_sound (fst (reserve_evict start end_ b)) /\
  let '(b', reserved) := reserve_segments start end_ b in
  index_ok b' /\ cfg b' = cfg b /\ durable_coverage b' = durable_coverage b /\
  (forall id, id ∈ reserved <-> start / SEGMENT_SLOTS <= id <= end_ / SEGMENT_SLOTS /\ is_Some (segments b' !! id)) /\
  (forall x, covers (coverage b') x <-> covers (coverage b) x /\ is_Some (segments b' !! (x / SEGMENT_SLOTS))).
Proof.
  intros Hok Hs He. pose proof Hok as [[Hcov Hseg Hans] Hpres Hdur Hlim Hsize].
  unfold reserve_segments, reserve_evict. cbv zeta.
  destruct (reserve_loop _ _ _ _) as [segs evicted] eqn:E.
  apply (reserve_loop_spec _ (end_ / SEGMENT_SLOTS) (segments b)) in E as [Hnew Hkept Hev Hsz].
  2: { apply Forall_forall. intros id Hid. rewrite elem_of_reverse in Hid. apply range_inclusive_elem in Hid. lia. }
  2: { by split; auto. }
  assert (Hsound : index_sound (set_segments segs b)).
  { split; cbn [set_segments coverage segments]; [done| |].
    - intros id s Hid. destruct (Hnew id s Hid) as [Ho|[_ ->]]; [by apply Hseg|apply new_segment_ok].
    - intros x s Hx Hid. destruct (Hnew _ s Hid) as [Ho|[Ho _]]; [by apply (Hans x s)|].
      destruct (Hpres x Hx) as [s' Hs']. congruence. }
  split; [done|].
  assert (Hfilter : forall id,
    id ∈ List.filter (fun id => match segments (set_segments segs b) !! id with Some _ => true | None => false end)
           (range_inclusive (start / SEGMENT_SLOTS) (end_ / SEGMENT_SLOTS)) <->
    start / SEGMENT_SLOTS <= id <= end_ / SEGMENT_SLOTS /\ is_Some (segs !! id)).
  { intros id. rewrite elem_of_filter_b, range_inclusive_elem. cbn [set_segments segments].
    destruct (segs !! id) as [s|]; [by split; [intros [? _]; split; eauto|intros [? _]]|].
    split; [by intros []|]. by intros [_ [? ?]]. }
  destruct evicted as [v|].
  - destruct (Hev v eq_refl) as (Hfull & Hv & Habove).
    set (floor := sat_mul (sat_add v 1) SEGMENT_SLOTS).
    destruct (remove_below_spec (coverage b) floor Hcov) as [Hcov' Hx'].
    assert (Hsegx : forall x, covers (coverage b) x -> floor <= x <-> is_Some (segs !! (x / SEGMENT_SLOTS))).
    { intros x Hx. destruct (Hpres x Hx) as [s Hs']. unfold floor. rewrite (eviction_floor v end_) by done. split.
      - intros Hge. destruct (Hkept _ s Hs') as [Hk|(v' & [= <-] & Hle)]; [by exists s|lia].
      - apply Habove. }
    cbn [set_coverage coverage segments cfg durable_coverage set_segments].
    split; [split; [split|..]|split; [done|split; [done|split]]]; cbn [set_coverage coverage segments cfg durable_coverage set_segments]; try done.
    + apply Hsound.
    + intros x s Hx Hid. apply Hx' in Hx as [Hx _]. by apply (is_answered _ Hsound).
    + intros x [Hx Hge]%Hx'. by apply Hsegx.
    + intros x. rewrite Hx'. split; intros [Hx Hg]; (split; [done|]); by apply Hsegx.
  - cbn [set_coverage coverage segments cfg durable_coverage set_segments].
    assert (Hstay : forall x, covers (coverage b) x -> is_Some (segs !! (x / SEGMENT_SLOTS))).
    { intros x Hx. destruct (Hpres x Hx) as [s Hs']. destruct (Hkept _ s Hs') as [Hk|(v' & ? & _)]; [by exists s|done]. }
    split; [by split|]. split; [done|]. split; [done|]. split; [done|].
    intros x. split; [auto|by intros []].
Qed.

(** ** Publishing rows *)

Abbreviation rows_sorted rows := (ascending (map row_slot rows)) (only parsing).

(** A test that holds up to some slot splits sorted rows at that slot. *)
Lemma split_rows (p : BlockTimeRangeRow -> bool) rows :
  (forall a b, row_slot a < row_slot b -> p b = true -> p a = true) -> rows_sorted rows ->
  (forall row, row ∈ take_while p rows <-> row ∈ rows /\ p row = true) /\
  (forall row, row ∈ skip_while p rows <-> row ∈ rows /\ p row = false) /\
  rows_sorted (skip_while p rows).
Proof.
  intros Hp. induction rows as [|a rows IH]; intros Hs; cbn [take_while skip_while map].
  { split; [|split; [|done]]; intros row; (split; [by intros ?%elem_of_nil|by intros [?%elem_of_nil _]]). }
  cbn [map] in Hs. apply ascending_cons in Hs as [Hf Hs]. destruct (IH Hs) as (Ht & Hk & Hks).
  rewrite Forall_forall in Hf.
  assert (Hlt : forall row, row ∈ rows -> row_slot a < row_slot row)
    by (intros row Hr; apply Hf, list_elem_of_fmap; eauto).
  destruct (p a) eqn:Ea.
  - split; [|split; [|done]]; intros row; rewrite !elem_of_cons, ?Ht, ?Hk.
    + split; [intros [->|[]]; [by split; [left|]|tauto]|tauto].
    + split; [tauto|]. intros [[->|] ?]; [congruence|done].
  - assert (Hno : forall row, row ∈ rows -> p row = false).
    { intros row Hr. destruct (p row) eqn:Er; [|done]. rewrite (Hp a row) in Ea; [done|auto|done]. }
    split; [|split].
    + intros row. rewrite elem_of_cons. split; [by intros ?%elem_of_nil|].
      intros [[->|Hr] ?]; [congruence|]. rewrite Hno in *; done.
    + intros row. rewrite elem_of_cons. split; [|tauto]. intros [->|Hr]; [by split; [left|]|].
      split; [by right|auto].
    + cbn [map]. apply ascending_cons. split; [|done]. by apply Forall_forall.
Qed.

(** [rows] are the chain's blocks of [lo..hi], in order, possibly among others. *)
Record rows_exact (lo hi : Z) (rows : list BlockTimeRangeRow) : Prop := {
  re_sorted : rows_sorted rows;
  re_true : forall row, row ∈ rows -> lo <= row_slot row <= hi -> row_true row;
  re_all : forall x, lo <= x <= hi -> block_at x -> exists row, row ∈ rows /\ row_slot row = x;
}.

Lemma publish_segment_ok b id cursor segment_end inside seg :
  times_in_range -> index_ok b -> segments b !! id = Some seg -> is_u64 cursor -> is_u64 segment_end ->
  (forall x, cursor <= x <= segment_end -> x / SEGMENT_SLOTS = id) ->
  (forall row, row ∈ inside -> row_true row /\ cursor <= row_slot row <= segment_end) ->
  (forall x, cursor <= x <= segment_end -> block_at x -> exists row, row ∈ inside /\ row_slot row = x) ->
  let b' := set_coverage (insert_range cursor segment_end (coverage b))
              (set_segments (alter (fun seg => foldl store_row seg inside) id (segments b)) b) in
  index_ok b' /\ (forall k, is_Some (segments b' !! k) <-> is_Some (segments b !! k)) /\
  (forall x, covers (coverage b') x <-> covers (coverage b) x \/ cursor <= x <= segment_end).
Proof.
  intros Htr [[Hcov Hseg Hans] Hpres Hdur Hlim Hsize] Hid Hcu Heu Hin Hrows Hall. cbv zeta.
  cbn [set_coverage set_segments coverage segments cfg durable_coverage].
  destruct (insert_range_spec (coverage b) cursor segment_end Hcov Hcu Heu) as [Hcov' Hx'].
  destruct (store_rows_ok id inside seg Htr) as (Hsok & Hmono & Hstored); [by apply Hseg| |].
  { apply Forall_forall. intros row Hr. destruct (Hrows row Hr) as [Ht Hb]. by split; [|apply Hin]. }
  assert (Hl : forall k s, alter (fun seg => foldl store_row seg inside) id (segments b) !! k = Some s ->
    (k = id /\ s = foldl store_row seg inside) \/ (k <> id /\ segments b !! k = Some s)).
  { intros k s. destruct (decide (k = id)) as [->|Hne].
    - rewrite lookup_alter_eq, Hid. intros [= <-]. by left.
    - rewrite lookup_alter_ne by done. by right. }
  assert (Hdom : forall k, is_Some (alter (fun seg => foldl store_row seg inside) id (segments b) !! k) <->
                           is_Some (segments b !! k)) by (intros k; apply lookup_alter_is_Some).
  split; [|by split]. split; [split|..]; cbn [set_coverage set_segments coverage segments cfg durable_coverage]; try done.
  - intros k s [[-> ->]|[_ Hk]]%Hl; [done|by apply Hseg].
  - intros x s [Hx|Hx]%Hx' [[Hk ->]|[Hne Hk]]%Hl Hb.
    + apply Hmono, (Hans x); [done|by rewrite Hk|done].
    + by apply (Hans x s).
    + destruct (Hall x Hx Hb) as (row & Hr & <-). by apply Hstored.
    + by rewrite (Hin x Hx) in Hne.
  - intros x [Hx|Hx]%Hx'; apply Hdom; [by apply Hpres|]. rewrite (Hin x Hx). by exists seg.
  - unfold max_segments in *. cbn [cfg] in *. rewrite <- (size_dom (D:=gset Z)), dom_alter_L, size_dom. done.
Qed.

(** The stretch of [cursor..end_] that lies in the segment of [cursor]. *)
Lemma segment_window cursor end_ :
  let segment_end := Z.min end_ ((cursor / SEGMENT_SLOTS + 1) * SEGMENT_SLOTS - 1) in
  0 <= cursor <= end_ ->
  cursor <= segment_end <= end_ /\
  (forall x, cursor <= x <= segment_end -> x / SEGMENT_SLOTS = cursor / SEGMENT_SLOTS) /\
  (segment_end < end_ -> (segment_end + 1) / SEGMENT_SLOTS = cursor / SEGMENT_SLOTS + 1).
Proof.
  cbv zeta. intros Hc. set (id := cursor / SEGMENT_SLOTS).
  pose proof (Z.div_mod cursor SEGMENT_SLOTS ltac:(done)) as Hdm.
  pose proof (Z.mod_pos_bound cursor SEGMENT_SLOTS eq_refl) as Hmb. fold id in Hdm.
  split; [unfold SEGMENT_SLOTS in *; lia|]. split.
  - intros x Hx. symmetry. apply (Z.div_unique_pos x SEGMENT_SLOTS id (x - SEGMENT_SLOTS * id));
      unfold SEGMENT_SLOTS in *; lia.
  - intros Hlt. replace (Z.min _ _ + 1) with ((id + 1) * SEGMENT_SLOTS) by lia. by apply Z.div_mul.
Qed.

(** The rows of that stretch and the rows left for the next one. *)
Lemma rows_split cursor segment_end end_ rows :
  rows_exact cursor end_ rows -> cursor <= segment_end <= end_ ->
  let rows1 := skip_while (fun row => row_slot row <? cursor) rows in
  let inside := take_while (fun row => row_slot row <=? segment_end) rows1 in
  (forall row, row ∈ inside -> row_true row /\ cursor <= row_slot row <= segment_end) /\
  (forall x, cursor <= x <= segment_end -> block_at x -> exists row, row ∈ inside /\ row_slot row = x) /\
  rows_exact (segment_end + 1) end_ (skip_while (fun row => row_slot row <=? segment_end) rows1).
Proof.
  intros [Hsort Htrue Hall] Hse. cbv zeta.
  destruct (split_rows (fun row => row_slot row <? cursor) rows) as (_ & Hk1 & Hs1); [|done|].
  { intros a c Hac Hcc. zbool. apply Z.ltb_lt. lia. }
  set (rows1 := skip_while _ rows) in *.
  destruct (split_rows (fun row => row_slot row <=? segment_end) rows1) as (Ht2 & Hk2 & Hs2); [|done|].
  { intros a c Hac Hcc. zbool. apply Z.leb_le. lia. }
  assert (Hrow : forall x, cursor <= x <= end_ -> block_at x -> exists row, row ∈ rows1 /\ row_slot row = x).
  { intros x Hx Hb. destruct (Hall x Hx Hb) as (row & Hr & <-). exists row. split; [|done].
    apply Hk1. split; [done|apply Z.ltb_ge; lia]. }
  split; [|split].
  - intros row [Hr Hle]%Ht2. apply Hk1 in Hr as [Hr Hge]. zbool. split; [apply Htrue; [done|lia]|lia].
  - intros x Hx Hb. destruct (Hrow x ltac:(lia) Hb) as (row & Hr & <-). exists row. split; [|done].
    apply Ht2. split; [done|apply Z.leb_le; lia].
  - split; [done| |].
    + intros row [Hr _]%Hk2 Hb. apply Hk1 in Hr as [Hr _]. apply Htrue; [done|lia].
    + intros x Hx Hb. destruct (Hrow x ltac:(lia) Hb) as (row & Hr & <-). exists row. split; [|done].
      apply Hk2. split; [done|apply Z.leb_gt; lia].
Qed.

Lemma publish_loop_spec fuel reserved end_ cursor rows b flag :
  times_in_range -> index_ok b -> 0 <= cursor -> 0 <= end_ -> end_ + SEGMENT_SLOTS <= u64_max ->
  (cursor <= end_ -> end_ / SEGMENT_SLOTS - cursor / SEGMENT_SLOTS + 1 <= Z.of_nat fuel) ->
  (forall id, id ∈ reserved -> is_Some (segments b !! id)) -> rows_exact cursor end_ rows ->
  let '(b', flag') := publish_loop fuel reserved end_ cursor rows b flag in
  index_ok b' /\ cfg b' = cfg b /\ durable_coverage b' = durable_coverage b /\
  (forall id, is_Some (segments b' !! id) <-> is_Some (segments b !! id)) /\
  (forall x, covers (coverage b') x <->
     covers (coverage b) x \/ (cursor <= x <= end_ /\ x / SEGMENT_SLOTS ∈ reserved)) /\
  (flag' = true <-> flag = true /\ forall x, cursor <= x <= end_ -> x / SEGMENT_SLOTS ∈ reserved).
Proof.
  intros Htr. revert cursor rows b flag.
  induction fuel as [|fuel IH]; intros cursor rows b flag Hok Hc He Hu Hfuel Hres Hrows; cbn [publish_loop].
  { assert (end_ < cursor).
    { destruct (decide (cursor <= end_)) as [Hle|]; [|lia]. specialize (Hfuel Hle).
      pose proof (Z.div_le_mono cursor end_ SEGMENT_SLOTS eq_refl Hle). lia. }
    do 4 (split; [done|]). split; intros; [|by split; [intros; split; [done|lia]|intros []]].
    split; [auto|]. intros [|[? _]]; [done|lia]. }
  destruct (Z.ltb_spec end_ cursor) as [Hlt|Hle].
  { do 4 (split; [done|]). split; intros; [|by split; [intros; split; [done|lia]|intros []]].
    split; [auto|]. intros [|[? _]]; [done|lia]. }
  cbv zeta. destruct (segment_window cursor end_ ltac:(lia)) as (Hse & Hid & Hstep).
  set (id := cursor / SEGMENT_SLOTS) in *. set (segment_end := Z.min end_ _) in *.
  replace (sat_add segment_end 1) with (segment_end + 1) by (unfold SEGMENT_SLOTS in *; sat_lia).
  destruct (rows_split cursor segment_end end_ rows Hrows Hse) as (Hin1 & Hin2 & Hrest).
  set (inside := take_while _ _) in *. set (rest := skip_while _ (skip_while _ _)) in *.
  assert (Hfuel' : segment_end + 1 <= end_ -> end_ / SEGMENT_SLOTS - (segment_end + 1) / SEGMENT_SLOTS + 1 <= Z.of_nat fuel).
  { intros Hn. rewrite Hstep by lia. specialize (Hfuel Hle). lia. }
  case_bool_decide as Hmem.
  - destruct (Hres id Hmem) as [seg Hseg].
    destruct (publish_segment_ok b id cursor segment_end inside seg) as (Hok' & Hdom & Hcx); try done; [unfold SEGMENT_SLOTS in Hu; sat_lia..|].
    set (b1 := set_coverage _ _) in *.
    specialize (IH (segment_end + 1) rest b1 flag Hok' ltac:(lia) He Hu Hfuel').
    destruct (publish_loop fuel reserved end_ (segment_end + 1) rest b1 flag) as [b2 flag2].
    destruct IH as (H1 & H2 & H3 & H4 & H5 & H6); [by intros k Hk; apply Hdom, Hres|done|].
    split; [done|]. split; [done|]. split; [done|]. split; [by intros k; rewrite H4, Hdom|]. split.
    + intros x. rewrite H5, Hcx. split.
      * intros [[|Hx]|[Hx Hr]]; [by left|right|right; split; [lia|done]]. rewrite (Hid x Hx). split; [lia|done].
      * intros [|[Hx Hr]]; [by left; left|]. destruct (decide (x <= segment_end)); [left; right; lia|].
        right. split; [lia|done].
    + rewrite H6. split; intros [Hf Hx]; (split; [done|]); intros x Hx'; [|apply Hx; lia].
      destruct (decide (x <= segment_end)); [|apply Hx; lia]. rewrite Hid by lia. done.
  - specialize (IH (segment_end + 1) rest b false Hok ltac:(lia) He Hu Hfuel' Hres Hrest).
    destruct (publish_loop fuel reserved end_ (segment_end + 1) rest b false) as [b2 flag2].
    destruct IH as (H1 & H2 & H3 & H4 & H5 & H6).
    split; [done|]. split; [done|]. split; [done|]. split; [done|]. split.
    + intros x. rewrite H5. split; (intros [|[Hx Hr]]; [by left|]); [right; split; [lia|done]|].
      destruct (decide (x <= segment_end)); [by rewrite Hid in Hr by lia|]. right. split; [lia|done].
    + rewrite H6. split; [by intros []|]. intros [_ Hx]. exfalso. apply Hmem. apply (Hx cursor). lia.
Qed.

Lemma publish_memory_spec start end_ rows b :
  times_in_range -> index_ok b -> 0 <= start -> end_ + SEGMENT_SLOTS <= u64_max ->
  rows_exact start end_ rows ->
  let '(b', all) := publish_memory start end_ rows b in
  index_ok b' /\ cfg b' = cfg b /\ durable_coverage b' = durable_coverage b /\
  (forall x, covers (coverage b') x <->
     (covers (coverage b) x \/ start <= x <= end_) /\ is_Some (segments b' !! (x / SEGMENT_SLOTS))) /\
  (all = true <-> forall x, start <= x <= end_ -> covers (coverage b') x).
Proof.
  intros Htr Hok Hs He Hrows. unfold publish_memory. destruct (Z.ltb_spec end_ start) as [Hlt|Hle].
  { split; [done|]. split; [done|]. split; [done|]. split.
    - intros x. split; [intros Hx; split; [by left|by apply (io_present b Hok)]|].
      intros [[|] _]; [done|lia].
    - split; [lia|done]. }
  destruct (reserve_segments_spec start end_ b Hok) as [_ Hr];
    [unfold SEGMENT_SLOTS in *; sat_lia..|].
  destruct (reserve_segments start end_ b) as [b1 reserved]. destruct Hr as (Hok1 & Hcfg & Hd1 & Hres & Hcx).
  pose proof (publish_loop_spec (Z.to_nat (end_ / SEGMENT_SLOTS - start / SEGMENT_SLOTS + 1)) reserved end_ start
    rows b1 true Htr Hok1 Hs ltac:(lia) He) as Hp.
  destruct (publish_loop _ _ _ _ _ _ _) as [b2 all].
  destruct Hp as (Hok2 & Hcfg2 & Hd2 & Hdom & Hx2 & Hflag); [lia|by intros id Hid; apply Hres|done|].
  assert (Hin : forall x, start <= x <= end_ -> x / SEGMENT_SLOTS ∈ reserved <-> is_Some (segments b2 !! (x / SEGMENT_SLOTS))).
  { intros x Hx. rewrite Hres, Hdom. split; [by intros []|]. intros Hx'. split; [|done].
    split; apply Z.div_le_mono; (done || lia). }
  assert (Hcov : forall x, covers (coverage b2) x <->
     (covers (coverage b) x \/ start <= x <= end_) /\ is_Some (segments b2 !! (x / SEGMENT_SLOTS))).
  { intros x. rewrite Hx2, Hcx, Hdom. split.
    - intros [[Hx Hseg]|[Hx Hr]]; [by split; [left|]|]. split; [by right|]. apply Hdom. by apply Hin.
    - intros [[Hx|Hx] Hseg]; [by left|right]. split; [done|]. apply Hin; [done|]. by apply Hdom. }
  split; [done|]. split; [congruence|]. split; [congruence|]. split; [done|].
  rewrite Hflag. split.
  - intros [_ Hall] x Hx. apply Hcov. split; [by right|]. apply Hin; [done|]. by apply Hall.
  - intros Hall. split; [done|]. intros x Hx. apply Hin; [done|]. by apply Hcov, Hall.
Qed.

(** ** Reading *)

(** One segment's part of an answer. *)
Lemma segment_truthful b seg cursor tip lo hi :
  index_sound b -> segments b !! (cursor / SEGMENT_SLOTS) = Some seg -> 0 <= cursor <= tip ->
  tip / SEGMENT_SLOTS = cursor / SEGMENT_SLOTS -> lo <= cursor -> tip <= hi ->
  (forall x, cursor <= x <= tip -> covers (coverage b) x) ->
  truthful block_at lo hi
    (SlotCoverage_new (segment_slots seg (cursor / SEGMENT_SLOTS) cursor tip) cursor tip).
Proof.
  intros Hb Hseg Hct Hid Hlo Hhi Hcov. pose proof (is_segments b Hb _ _ Hseg) as [Hw Hbit Htime].
  destruct (segment_slots_spec seg (cursor / SEGMENT_SLOTS) cursor tip Hw Hct eq_refl Hid) as [Hasc Hel].
  assert (Hc : forall x, complete_at (SlotCoverage_new (segment_slots seg (cursor / SEGMENT_SLOTS) cursor tip) cursor tip) x
                         <-> cursor <= x <= tip)
    by (intros x; unfold complete_at; simpl; rewrite in_ranges_cons, in_ranges_nil; tauto).
  split.
  - split; cbn [SlotCoverage_new sc_slots sc_intervals]; [repeat constructor|done|].
    intros x [Hx _]%Hel. by apply Hc.
  - intros x Hx%Hc. split; [lia|]. cbn [SlotCoverage_new sc_slots]. rewrite Hel.
    assert (Hxid : x / SEGMENT_SLOTS = cursor / SEGMENT_SLOTS).
    { apply Z.le_antisymm; [rewrite <- Hid|]; apply Z.div_le_mono; (done || lia). }
    pose proof (Z.mod_pos_bound x SEGMENT_SLOTS eq_refl) as Hm.
    pose proof (Z.div_mod x SEGMENT_SLOTS ltac:(done)) as Hdm. rewrite Hxid in Hdm.
    rewrite Hbit by done. split.
    + intros [_ Hk]. destruct (Htime _ Hm Hk) as (t & Ht & _). unfold block_at.
      replace x with (cursor / SEGMENT_SLOTS * SEGMENT_SLOTS + x mod SEGMENT_SLOTS) by lia. congruence.
    + intros Hb'. split; [done|]. apply (is_answered b Hb x seg); [by apply Hcov|by rewrite Hxid|done].
Qed.

Lemma append_loop_spec fuel b end_ cursor proof lo hi :
  index_sound b -> 0 <= cursor <= end_ -> end_ <= u64_max -> lo <= cursor -> end_ <= hi ->
  end_ / SEGMENT_SLOTS - cursor / SEGMENT_SLOTS + 1 <= Z.of_nat fuel ->
  (forall x, cursor <= x <= end_ -> covers (coverage b) x) ->
  truthful block_at lo hi proof ->
  truthful block_at lo hi (append_loop fuel (segments b) end_ cursor proof) /\
  forall x, complete_at (append_loop fuel (segments b) end_ cursor proof) x <->
    complete_at proof x \/ (cursor <= x <= end_ /\ is_Some (segments b !! (x / SEGMENT_SLOTS))).
Proof.
  intros Hb. revert cursor proof.
  induction fuel as [|fuel IH]; intros cursor proof Hc Hu Hlo Hhi Hfuel Hcov Hp; cbn [append_loop].
  { pose proof (Z.div_le_mono cursor end_ SEGMENT_SLOTS eq_refl ltac:(lia)). lia. }
  cbv zeta. destruct (segment_window cursor end_ Hc) as (Htip & Hid & Hstep).
  assert (Etip : Z.min end_ (sat_add cursor (SEGMENT_SLOTS - 1 - cursor mod SEGMENT_SLOTS)) =
                 Z.min end_ ((cursor / SEGMENT_SLOTS + 1) * SEGMENT_SLOTS - 1)).
  { pose proof (Z.div_mod cursor SEGMENT_SLOTS ltac:(done)). unfold SEGMENT_SLOTS in *. sat_lia. }
  rewrite Etip. set (id := cursor / SEGMENT_SLOTS) in *. set (tip := Z.min end_ _) in *.
  set (proof1 := match segments b !! id with Some _ => _ | None => _ end).
  assert (H1 : truthful block_at lo hi proof1 /\ forall x, complete_at proof1 x <->
    complete_at proof x \/ (cursor <= x <= tip /\ is_Some (segments b !! id))).
  { unfold proof1. destruct (segments b !! id) as [seg|] eqn:Es.
    - split.
      + apply merge_truthful; [done|]. apply (segment_truthful b); try done; try lia; [by apply Hid; lia|].
        intros x Hx. apply Hcov. lia.
      + intros x. destruct (merge_spec proof (SlotCoverage_new (segment_slots seg id cursor tip) cursor tip) x) as [-> _].
        unfold complete_at at 2. cbn [SlotCoverage_new sc_intervals]. rewrite in_ranges_cons, in_ranges_nil. simpl.
        split; [intros [|[|]]; [by left|right; by split; eauto|done]|]. intros [|[? _]]; tauto.
    - split; [done|]. intros x. split; [by left|]. by intros [|[_ []]]. }
  destruct H1 as [Ht1 Hc1]. destruct (Z.eqb_spec tip end_) as [E|Hne].
  - split; [done|]. intros x. rewrite Hc1, E. split; (intros [|[Hx Hs]]; [by left|right; split; [done|]]);
      [rewrite Hid by lia|rewrite Hid in Hs by lia]; done.
  - destruct (IH (tip + 1) proof1) as [Ht2 Hc2]; try done; try lia.
    + intros x Hx. apply Hcov. lia.
    + split; [done|]. intros x. rewrite Hc2, Hc1. split.
      * intros [[|[Hx Hs]]|[Hx Hs]]; [by left|right..]; [rewrite Hid by lia; split; [lia|done]|split; [lia|done]].
      * intros [|[Hx Hs]]; [by left; left|]. destruct (decide (x <= tip)); [|right; split; [lia|done]].
        left; right. rewrite Hid in Hs by lia. split; [lia|done].
Qed.

(** At every point a reader can observe, the answer is truthful and claims exactly
    the covered slots of the range whose segment is in memory. *)
Lemma index_range_coverage_spec b lo hi :
  index_sound b ->
  truthful block_at lo hi (index_range_coverage b lo hi) /\
  forall x, complete_at (index_range_coverage b lo hi) x <->
    lo <= x <= hi /\ covers (coverage b) x /\ is_Some (segments b !! (x / SEGMENT_SLOTS)).
Proof.
  intros Hb. unfold index_range_coverage.
  set (f := fun proof r => append_segment_coverage (segments b) r.1 r.2 proof).
  assert (Hgen : forall l proof, Forall (fun r => 0 <= fst r <= snd r /\ lo <= fst r /\ snd r <= hi /\ snd r <= u64_max /\
        forall x, fst r <= x <= snd r -> covers (coverage b) x) l ->
      truthful block_at lo hi proof ->
      truthful block_at lo hi (foldl f proof l) /\
      forall x, complete_at (foldl f proof l) x <->
        complete_at proof x \/ (in_ranges x l /\ is_Some (segments b !! (x / SEGMENT_SLOTS)))).
  { induction l as [|[a z] l IH]; intros proof Hall Hp; cbn [foldl].
    { split; [done|]. intros x. rewrite in_ranges_nil. tauto. }
    apply Forall_cons in Hall as [(Haz & Hlo & Hhi & Hu & Hcov) Hall]. cbn [fst snd] in *.
    destruct (append_loop_spec (Z.to_nat (z / SEGMENT_SLOTS - a / SEGMENT_SLOTS + 1)) b z a proof lo hi) as [Ht Hc];
      try done; try lia.
    destruct (IH (f proof (a, z)) Hall Ht) as [Ht' Hc']. split; [done|].
    intros x. rewrite Hc', in_ranges_cons. unfold f at 1. cbn [fst snd]. unfold append_segment_coverage.
    rewrite Hc. tauto. }
  destruct (Hgen (intersections lo hi (coverage b)) SlotCoverage_default) as [Ht Hc].
  - apply Forall_forall. intros [s e] Hin.
    assert (Hr : forall x, s <= x <= e -> covers (coverage b) x /\ lo <= x <= hi).
    { intros x Hx. apply intersections_spec. by exists (s, e). }
    unfold intersections in Hin. apply list_elem_of_omap in Hin as ([s0 e0] & Hin & E). cbn [fst snd] in *.
    apply bt_range_to_elem in Hin as [Hin _]. pose proof (mo_ranges _ (is_coverage b Hb) s0 e0 Hin).
    destruct (Z.leb_spec (Z.max s0 lo) (Z.min e0 hi)); [|done]. injection E as E1 E2. subst s e.
    split; [lia|]. split; [lia|]. split; [lia|]. split; [lia|]. intros x Hx. by apply Hr.
  - apply default_truthful.
  - split; [done|]. intros x. rewrite Hc, intersections_spec.
    assert (~ complete_at SlotCoverage_default x) by by intros ?%in_ranges_nil. tauto.
Qed.

Lemma block_time_spec b x :
  times_in_range -> index_sound b ->
  (covers (coverage b) x /\ is_Some (segments b !! (x / SEGMENT_SLOTS)) /\
   block_time b x = match truth x with None => Skipped | Some t => Found t end) \/
  (~ (covers (coverage b) x /\ is_Some (segments b !! (x / SEGMENT_SLOTS))) /\ block_time b x = NotCovered).
Proof.
  intros Htr Hb. unfold block_time, value. pose proof (contains_slot_spec (coverage b) x (is_coverage b Hb)) as Hc.
  destruct (contains_slot x (coverage b)); cbn [negb].
  2: { right. split; [|done]. intros [Hx _]. by apply Hc in Hx. }
  destruct (segments b !! (x / SEGMENT_SLOTS)) as [seg|] eqn:Es; [left|by right; split; [intros [_ []]|]].
  assert (Hx : covers (coverage b) x) by by apply Hc. split; [done|]. split; [by eexists|].
  pose proof (is_segments b Hb _ _ Es) as [_ _ Ht]. pose proof (is_answered b Hb x seg Hx Es) as Ha.
  pose proof (Z.mod_pos_bound x SEGMENT_SLOTS eq_refl) as Hm. specialize (Ht _ Hm).
  pose proof (Z.div_mod x SEGMENT_SLOTS ltac:(done)) as Hdm.
  replace (x / SEGMENT_SLOTS * SEGMENT_SLOTS + x mod SEGMENT_SLOTS) with x in Ht by lia.
  destruct (decide (time_at seg (x mod SEGMENT_SLOTS) = UNKNOWN)) as [E|Hk].
  - rewrite E. destruct (truth x) eqn:Ex; [|done]. exfalso. apply Ha; [|done]. unfold block_at. congruence.
  - destruct (Ht Hk) as (t & Et & Ev). rewrite Et, Ev. destruct t as [v|]; [|done].
    specialize (Htr x v Et). unfold encode_time, NULL_TIME, UNKNOWN, SKIPPED in *. simpl.
    destruct (Z.eqb_spec v (-9223372036854775806)); [lia|].
    destruct (Z.eqb_spec v (-9223372036854775808)); [lia|].
    destruct (Z.eqb_spec v (-9223372036854775807)); [lia|]. done.
Qed.

(** Publishing the chain's rows of a range keeps the index truthful and within
    its memory limit; afterwards exactly the slots that were covered or published and
    whose segment survived eviction are covered, the answer of [publish_memory] says
    whether the whole range is, and a reader that runs after eviction but before the
    coverage is trimmed is still answered truthfully. *)
Theorem publish_memory_exact start end_ rows b :
  times_in_range -> index_ok b -> 0 <= start <= end_ -> end_ + SEGMENT_SLOTS <= u64_max ->
  rows_exact start end_ rows ->
  index_sound (fst (reserve_evict start end_ b)) /\
  let '(b', all) := publish_memory start end_ rows b in
  index_ok b' /\
  (forall x, covers (coverage b') x <->
     (covers (coverage b) x \/ start <= x <= end_) /\ is_Some (segments b' !! (x / SEGMENT_SLOTS))) /\
  (all = true <-> forall x, start <= x <= end_ -> covers (coverage b') x).
Proof.
  intros Htr Hok Hs He Hrows. split.
  - apply reserve_segments_spec; [done|unfold SEGMENT_SLOTS in *; sat_lia..].
  - pose proof (publish_memory_spec start end_ rows b Htr Hok ltac:(lia) He Hrows) as H.
    destruct (publish_memory start end_ rows b). tauto.
Qed.

End Truth.

(** The bitmap scan of a stretch of one segment (masking the first and the last
    word and clearing the lowest set bit until none is left) lists, in order, exactly
    the slots of the stretch whose bit is set. *)
Theorem segment_slots_exact seg id start end_ :
  words_ok seg -> 0 <= start <= end_ -> start / SEGMENT_SLOTS = id -> end_ / SEGMENT_SLOTS = id ->
  segment_slots seg id start end_ =
  List.filter (fun x => produced_at seg (x mod SEGMENT_SLOTS)) (range_inclusive start end_).
Proof.
  intros Hw Hse Hs He. destruct (segment_slots_spec seg id start end_ Hw Hse Hs He) as [Ha Hx].
  apply ascending_ext; [done| |].
  - pose proof (range_inclusive_ascending start end_) as Hr. induction Hr as [|a l Hl IH Hf]; simpl; [constructor|].
    destruct (produced_at seg _); [|done]. apply ascending_cons. split; [|done].
    apply Forall_forall. intros y [Hy _]%elem_of_filter_b. rewrite Forall_forall in Hf. auto.
  - intros x. by rewrite Hx, elem_of_filter_b, range_inclusive_elem.
Qed.
