(* ===== verification/BlockIndexScan.v ===== *)
(** * BlockIndexScan: how the block index learns the chain

    Models the worker half of [crates/superbank-rpc/src/disk_cache/block_index.rs]:
    what a window of source rows proves ([proven_ranges]), what of it is published and
    where the next scan starts ([plan_scan], [ScanCursors]), how published ranges reach
    the durable tables and the memory index ([persist_ranges]), and how the index is
    rebuilt from the tables at start ([load_local]).

    The source database is the record [ScanSource] of its two fallible reads; the local
    tables are append-only lists with a class [LocalReads] of the two aggregating reads
    and its laws.  A write to a local table either succeeds or fails after an arbitrary
    prefix of its rows became durable.  Metrics, logging and pacing are left out. *)

From S2P Require Import Prelude BTree SlotCoverage CoverageMap HeadCoverage BlockRanges BlockIndex.

Open Scope Z_scope.

Definition MAX_SKIPPED_RUN : Z := 100000.
Definition UNPROVEN_SETTLE_SLOTS : Z := 1500.

(** ** What rows prove *)

(** [ranges.last_mut()] extended, or a new range pushed. *)
Definition push_range (ranges : list (Z * Z)) (first last_ : Z) : list (Z * Z) :=
  match last ranges with
  | Some (s, tip) =>
      if first <=? sat_add tip 1 then removelast ranges ++ [(s, Z.max tip last_)]
      else ranges ++ [(first, last_)]
  | None => ranges ++ [(first, last_)]
  end.

(** One turn of the loop of [proven_ranges]. *)
Definition proven_step (start end_ : Z) (acc : list (Z * Z) * option Z) (link : Z * Z) :
    list (Z * Z) * option Z :=
  let '(ranges, previous_slot) := acc in
  let '(slot, parent_slot) := link in
  let linked :=
    ((parent_slot <? slot) && (slot - parent_slot - 1 <=? MAX_SKIPPED_RUN) &&
     match previous_slot with None => true | Some previous => previous <=? parent_slot end)%bool in
  let first := Z.max (if linked then parent_slot + 1 else slot) start in
  let last_ := Z.min slot end_ in
  if last_ <? first then (ranges, Some slot) else (push_range ranges first last_, Some slot).

(** [proven_ranges] *)
Definition proven_ranges (start end_ : Z) (links : list (Z * Z)) : list (Z * Z) :=
  fst (foldl (proven_step start end_) ([], None) links).

(** ** What to publish *)

Record ScanPlan := mkPlan {
  plan_publish : list (Z * Z);
  plan_next : Z;
}.

Fixpoint plan_loop (end_ settled : Z) (proven publish : list (Z * Z)) (next : Z) : ScanPlan :=
  match proven with
  | [] => mkPlan publish (if ((next <=? end_) && (end_ <=? settled))%bool then sat_add end_ 1 else next)
  | (first, last_) :: rest =>
      if ((next <? first) && (settled <? first - 1))%bool then mkPlan publish next
      else plan_loop end_ settled rest (publish ++ [(first, last_)]) (sat_add last_ 1)
  end.

(** [plan_scan] *)
Definition plan_scan (start end_ : Z) (proven : list (Z * Z)) (settled : Z) : ScanPlan :=
  plan_loop end_ settled proven [] start.

(** ** Where to scan *)

Record ScanCursors := mkCursors {
  forward_next : option Z;
  backfill_floor : option Z;
}.

Record ScanWindow := mkWindow {
  w_start : Z;
  w_end : Z;
  w_forward : bool;
}.

(** [ScanCursors::seeded] *)
Definition seeded (durable_span : option (Z * Z)) : ScanCursors :=
  mkCursors (option_map (fun s => sat_add (snd s) 1) durable_span) (option_map fst durable_span).

(** [ScanCursors::window] *)
Definition window (c : ScanCursors) (latest slots_per_query : Z) : option ScanWindow :=
  let width := Z.max slots_per_query 1 in
  match forward_next c with
  | Some next =>
      if next <=? latest then Some (mkWindow next (Z.min latest (sat_add next (width - 1))) true)
      else
        match backfill_floor c with
        | Some floor => if 0 <? floor then Some (mkWindow (sat_sub floor width) (floor - 1) false) else None
        | None => None
        end
  | None => Some (mkWindow (sat_sub latest (width - 1)) latest true)
  end.

(** ** The source and the local tables *)

(** [get_block_times_by_slot_range] and [next_block_after] of the source client. *)
Record ScanSource := mkSource {
  get_block_times : Z -> Z -> result (list BlockTimeRangeRow) unit;
  next_block_after : Z -> result (option (Z * Z)) unit;
}.

(** [BlockIndex::scan] *)
Definition scan (src : ScanSource) (start end_ : Z) :
    result (list BlockTimeRangeRow * list (Z * Z)) unit :=
  let? rows := get_block_times src start end_ in
  let? successor :=
    if match last rows with None => true | Some row => row_slot row <? end_ end
    then next_block_after src end_ else Ok None in
  let links := map (fun row => (row_slot row, row_parent_slot row)) rows ++ option_list successor in
  Ok (rows, proven_ranges start end_ links).

(** [PersistedBlockTimeRow] and [CoverageRow] *)
Record PersistedBlockTimeRow := mkPersisted {
  p_slot : Z;
  p_block_time : option Z;
  p_version : Z;
}.
Record CoverageRow := mkCoverageRow {
  range_start : Z;
  range_end : Z;
  c_version : Z;
}.

(** The tables [block_times] and [proven_coverage]. *)
Record LocalTables := mkTables {
  block_times : list PersistedBlockTimeRow;
  proven_coverage : list CoverageRow;
}.

(** A ClickHouse insert, as its client sees it: done, or failed with the first [kept]
    rows stored. *)
Inductive insert_outcome := Stored | Failed (kept : nat).

Definition stored_rows {A} (o : insert_outcome) (rows : list A) : list A :=
  match o with Stored => rows | Failed kept => take kept rows end.

(** The publication loop at the end of [persist_ranges]. *)
Definition publish_ranges (rows : list BlockTimeRangeRow) (b : BlockIndex) (ranges : list (Z * Z)) :
    BlockIndex :=
  foldl (fun b r =>
           let b := set_durable (insert_range (fst r) (snd r) (durable_coverage b)) b in
           fst (publish_memory (fst r) (snd r) rows b)) b ranges.

(** [BlockIndex::persist_ranges] *)
Definition persist_ranges (version : Z) (data_insert coverage_insert : insert_outcome)
    (ranges : list (Z * Z)) (rows : list BlockTimeRangeRow) (b : BlockIndex) (t : LocalTables) :
    BlockIndex * LocalTables * result unit unit :=
  match ranges with
  | [] => (b, t, Ok tt)
  | _ =>
      let selected := List.filter (fun row =>
        existsb (fun r => (fst r <=? row_slot row) && (row_slot row <=? snd r))%bool ranges) rows in
      let data := map (fun row => mkPersisted (row_slot row) (row_block_time row) version) selected in
      let t := mkTables (block_times t ++ stored_rows data_insert data) (proven_coverage t) in
      match data_insert with
      | Failed _ => (b, t, Err tt)
      | Stored =>
          let marks := map (fun r => mkCoverageRow (fst r) (snd r) version) ranges in
          let t := mkTables (block_times t) (proven_coverage t ++ stored_rows coverage_insert marks) in
          match coverage_insert with
          | Failed _ => (b, t, Err tt)
          | Stored => (publish_ranges rows b ranges, t, Ok tt)
          end
      end
  end.

(** ** The worker *)

Record Worker := mkWorker {
  cursors : ScanCursors;
  index : BlockIndex;
  tables : LocalTables;
}.

(** [BlockIndex::scan_once]; the second component is the scanned window. *)
Definition scan_once (src : ScanSource) (latest version : Z) (data_insert coverage_insert : insert_outcome)
    (w : Worker) : Worker * option (Z * Z) :=
  match window (cursors w) latest (slots_per_query (cfg (index w))) with
  | None => (w, None)
  | Some (mkWindow start end_ forward) =>
      match scan src start end_ with
      | Err _ => (w, Some (start, end_))
      | Ok (rows, proven) =>
          let settled := if forward then sat_sub latest UNPROVEN_SETTLE_SLOTS else u64_max in
          let plan := plan_scan start end_ proven settled in
          match persist_ranges version data_insert coverage_insert (plan_publish plan) rows (index w) (tables w) with
          | (b, t, Err _) => (mkWorker (cursors w) b t, Some (start, end_))
          | (b, t, Ok _) =>
              let c :=
                if forward then
                  mkCursors (Some (plan_next plan))
                    (Some (match backfill_floor (cursors w) with Some f => f | None => start end))
                else mkCursors (forward_next (cursors w)) (Some start) in
              (mkWorker c b t, Some (start, end_))
          end
      end
  end.

(** The two reads of [load_local]: the proven ranges, latest version per start and
    descending, and the stored rows of a range, latest version per slot and ascending. *)
Class LocalReads := {
  read_coverage : LocalTables -> result (list (Z * Z)) unit;
  read_rows : LocalTables -> Z -> Z -> result (list BlockTimeRangeRow) unit;
}.

Fixpoint load_ranges `{LocalReads} (t : LocalTables) (ranges : list (Z * Z)) (b : BlockIndex) : BlockIndex :=
  match ranges with
  | [] => b
  | r :: rest =>
      let b := set_durable (insert_range (fst r) (snd r) (durable_coverage b)) b in
      match read_rows t (fst r) (snd r) with
      | Err _ => b
      | Ok rows => load_ranges t rest (fst (publish_memory (fst r) (snd r) rows b))
      end
  end.

(** [BlockIndex::load_local]: the index it leaves, also when a read fails. *)
Definition load_local `{LocalReads} (t : LocalTables) (b : BlockIndex) : BlockIndex :=
  match read_coverage t with
  | Err _ => b
  | Ok ranges => load_ranges t ranges b
  end.

(** The start of [BlockIndex::run] on a freshly opened index. *)
Definition start_worker `{LocalReads} (c : BlockIndexConfig) (t : LocalTables) : option Worker :=
  match index_open c with
  | None => None
  | Some b =>
      let b := load_local t b in
      Some (mkWorker (seeded (covered_span (durable_coverage b))) b t)
  end.

(** What the worker lives through: a turn of its loop that learned the finalized tip, a
    turn that did not, and a stop at any point followed by a new start. *)
Inductive worker_event :=
| Turn (src : ScanSource) (latest version : Z) (data_insert coverage_insert : insert_outcome)
| NoTip
| Restart (reads : LocalReads).

Definition worker_step (c : BlockIndexConfig) (w : Worker) (e : worker_event) : Worker :=
  match e with
  | Turn src latest version d k => fst (scan_once src latest version d k w)
  | NoTip => w
  | Restart reads => match @start_worker reads c (tables w) with Some w' => w' | None => w end
  end.

(** ** The proven ranges *)

(** [x] is the row at the head of a link, or lies in its gap, where the gap is short
    enough and no earlier row lies beyond the link's parent. *)
Definition link_proves (before : list (Z * Z)) (link : Z * Z) (x : Z) : Prop :=
  let '(slot, parent) := link in
  x = slot \/ (parent < x < slot /\ slot - parent - 1 <= MAX_SKIPPED_RUN /\
               forall l, l ∈ before -> fst l <= parent).

Definition proves (links : list (Z * Z)) (x : Z) : Prop :=
  exists before link after, links = before ++ link :: after /\ link_proves before link x.

Lemma proves_snoc links link x :
  proves (links ++ [link]) x <-> proves links x \/ link_proves links link x.
Proof.
  split.
  - intros (before & l & after & E & Hx). destruct after as [|a after _] using rev_ind.
    + apply app_inj_tail in E as [-> ->]. by right.
    + left. rewrite app_comm_cons, app_assoc in E. apply app_inj_tail in E as [-> ->].
      by exists before, l, after.
  - intros [(before & l & after & -> & Hx)|Hx].
    + exists before, l, (after ++ [link]). split; [by rewrite <- app_assoc|done].
    + by exists links, link, [].
Qed.

(** Sorted, disjoint and not even adjacent. *)
Definition ranges_apart (l : list (Z * Z)) : Prop :=
  StronglySorted (fun r r' => snd r + 1 < fst r') l /\ Forall (fun r => fst r <= snd r) l.

Lemma sorted_snoc {A} (R : A -> A -> Prop) l x :
  StronglySorted R (l ++ [x]) <-> StronglySorted R l /\ Forall (fun y => R y x) l.
Proof.
  induction l as [|a l IH]; cbn [app].
  - split; [intros _; split; constructor|]. intros _. repeat constructor.
  - split.
    + intros H. inversion H as [|? ? H1 H2]; subst. apply IH in H1 as [H1 H3].
      apply Forall_app in H2 as [H2 H4]. rewrite Forall_singleton in H4. split; [by constructor|]. by apply Forall_cons.
    + intros [H1 H2]. inversion H1 as [|? ? H3 H4]; subst. apply Forall_cons in H2 as [H2 H5]. constructor.
      * by apply IH.
      * apply Forall_app. split; [done|]. by apply Forall_singleton.
Qed.

Lemma push_range_spec ranges first last_ :
  ranges_apart ranges -> first <= last_ <= u64_max ->
  Forall (fun r => snd r < first) ranges ->
  ranges_apart (push_range ranges first last_) /\
  Forall (fun r => snd r <= last_) (push_range ranges first last_) /\
  forall x, in_ranges x (push_range ranges first last_) <-> in_ranges x ranges \/ first <= x <= last_.
Proof.
  intros [Hs Hp] Hfl Hall. unfold push_range.
  destruct ranges as [|[s tip] ranges _] using rev_ind.
  { cbn [last app]. split; [split; repeat constructor; simpl; lia|]. split; [repeat constructor; simpl; lia|].
    intros x. rewrite in_ranges_cons. tauto. }
  rewrite last_snoc. pose proof Hs as Hs0. apply sorted_snoc in Hs as [Hs Hs'].
  pose proof Hp as Hp0. apply Forall_app in Hp as [Hp Hp']. rewrite Forall_singleton in Hp'.
  pose proof Hall as Hall0. apply Forall_app in Hall as [Hall Hall']. rewrite Forall_singleton in Hall'.
  cbn [fst snd] in *.
  assert (Hle : Forall (fun r => snd r <= last_) ranges)
    by (eapply Forall_impl; [exact Hall|]; simpl; lia).
  destruct (Z.leb_spec first (sat_add tip 1)) as [Ht|Ht].
  - rewrite removelast_last. replace (Z.max tip last_) with last_ by lia. split; [|split].
    + split; [apply sorted_snoc; by split|]. apply Forall_app. split; [done|]. apply Forall_singleton. simpl. lia.
    + apply Forall_app. split; [done|]. apply Forall_singleton. simpl. lia.
    + intros x. rewrite !in_ranges_app, !in_ranges_cons, in_ranges_nil.
      assert (s <= x <= last_ <-> s <= x <= tip \/ first <= x <= last_) by sat_lia. tauto.
  - split; [|split].
    + split; [|apply Forall_app; split; [done|]; apply Forall_singleton; simpl; lia].
      apply sorted_snoc. split; [done|]. apply Forall_app. split; [|apply Forall_singleton; simpl; sat_lia].
      eapply Forall_impl; [exact Hs'|]. simpl. lia.
    + repeat (apply Forall_app; split); [done|apply Forall_singleton; simpl; lia..].
    + intros x. rewrite !in_ranges_app, !in_ranges_cons, in_ranges_nil. tauto.
Qed.

(** The first slot a link proves, given the slot of the row before it. *)
Definition link_first (previous : option Z) (slot parent : Z) : Z :=
  if ((parent <? slot) && (slot - parent - 1 <=? MAX_SKIPPED_RUN) &&
      match previous with None => true | Some p => p <=? parent end)%bool
  then parent + 1 else slot.

Lemma link_first_bounds previous slot parent :
  link_first previous slot parent <= slot /\
  forall p, previous = Some p -> p < slot -> p < link_first previous slot parent.
Proof.
  unfold link_first. destruct (_ && _)%bool eqn:E; [|split; [lia|done]].
  zbool. split; [lia|]. intros p -> Hp. zbool. lia.
Qed.

Lemma link_first_proves links slot parent x :
  ascending (map fst links) ->
  link_proves links (slot, parent) x <-> link_first (option_map fst (last links)) slot parent <= x <= slot.
Proof.
  intros Hasc.
  assert (Hbefore : match option_map fst (last links) with None => true | Some p => p <=? parent end = true <->
                    forall l, l ∈ links -> fst l <= parent).
  { destruct links as [|[ls lp] links _] using rev_ind; [by split; [intros _ l ?%elem_of_nil|]|].
    rewrite last_snoc. cbn [option_map fst]. rewrite Z.leb_le. rewrite map_app in Hasc. cbn [map] in Hasc.
    apply ascending_snoc in Hasc as [_ Hmax]. rewrite Forall_forall in Hmax. split.
    - intros Hle l [Hl|Hl%list_elem_of_singleton]%elem_of_app; [|by subst].
      specialize (Hmax (fst l) ltac:(apply list_elem_of_fmap; eauto)). simpl in Hmax. lia.
    - intros H. apply (H (ls, lp)). apply elem_of_app. right. apply list_elem_of_here. }
  unfold link_proves, link_first. rewrite <- Hbefore.
  set (guard := match option_map fst (last links) with None => true | Some p => p <=? parent end).
  destruct (Z.ltb_spec parent slot), (Z.leb_spec (slot - parent - 1) MAX_SKIPPED_RUN), guard;
    cbn [andb]; (split; [intros [->|(? & ? & ?)]; [lia|try lia; try done]|intros; try (left; lia)]).
  destruct (decide (x = slot)); [by left|]. right. split; [lia|done].
Qed.

Lemma proven_loop_spec start end_ links :
  0 <= start -> end_ <= u64_max -> ascending (map fst links) ->
  let '(ranges, previous) := foldl (proven_step start end_) ([], None) links in
  ranges_apart ranges /\
  previous = option_map fst (last links) /\
  Forall (fun r => forall s, previous = Some s -> snd r <= s) ranges /\
  forall x, in_ranges x ranges <-> start <= x <= end_ /\ proves links x.
Proof.
  intros Hs He. induction links as [|[slot parent] links IH] using rev_ind; intros Hasc.
  { cbn [foldl]. split; [split; constructor|]. split; [done|]. split; [constructor|].
    intros x. rewrite in_ranges_nil. split; [done|]. intros (_ & before & l & after & E & _).
    by destruct before. }
  rewrite map_app in Hasc. cbn [map] in Hasc. apply ascending_snoc in Hasc as [Hasc Habove].
  specialize (IH Hasc). rewrite foldl_app. cbn [foldl].
  destruct (foldl (proven_step start end_) ([], None) links) as [ranges previous].
  destruct IH as (Hap & Hprev & Htips & Hin). unfold proven_step.
  fold (link_first previous slot parent). destruct (link_first_bounds previous slot parent) as [Hle Hgt].
  pose proof (fun x => link_first_proves links slot parent x Hasc) as Hlink. rewrite <- Hprev in Hlink.
  set (first := link_first previous slot parent) in *.
  assert (Hnew : Forall (fun r => snd r < first) ranges).
  { apply Forall_forall. intros r Hr. rewrite Forall_forall in Htips. destruct previous as [p|].
    - specialize (Htips r Hr p eq_refl). specialize (Hgt p eq_refl). assert (p < slot); [|lia].
      rewrite Forall_forall in Habove. apply Habove. destruct (last links) as [l|] eqn:El; [|done].
      injection Hprev as ->. apply list_elem_of_fmap. exists l. split; [done|]. by apply last_Some_elem_of.
    - assert (links = []) as -> by (destruct (last links) eqn:El; [done|by apply last_None in El]).
      exfalso. destruct Hap as [_ Hp]. rewrite Forall_forall in Hp. specialize (Hp r Hr).
      assert (Hx : in_ranges (fst r) ranges) by (exists r; split; [done|lia]).
      apply Hin in Hx as (_ & before & l & after & E & _). by destruct before. }
  rewrite last_snoc. cbn [option_map fst].
  destruct (Z.ltb_spec (Z.min slot end_) (Z.max first start)) as [Hlt|Hge].
  - split; [done|]. split; [done|]. split.
    + eapply Forall_impl; [exact Hnew|]. intros r Hr s [= <-]. simpl in Hr. lia.
    + intros x. rewrite Hin, proves_snoc, Hlink. split; [tauto|]. intros [Hx [|Hl]]; [done|lia].
  - destruct (push_range_spec ranges (Z.max first start) (Z.min slot end_)) as (H1 & H2 & H3); [done|lia| |].
    { eapply Forall_impl; [exact Hnew|]. simpl. lia. }
    split; [done|]. split; [done|]. split.
    + eapply Forall_impl; [exact H2|]. intros r Hr s [= <-]. simpl in Hr. lia.
    + intros x. rewrite H3, Hin, proves_snoc, Hlink. split.
      * intros [[? ?]|Hx]; [tauto|]. split; [lia|]. right. lia.
      * intros [Hx [|Hl]]; [by left|]. right. lia.
Qed.

Lemma proven_ranges_spec start end_ links :
  0 <= start -> end_ <= u64_max -> ascending (map fst links) ->
  ranges_apart (proven_ranges start end_ links) /\
  forall x, in_ranges x (proven_ranges start end_ links) <-> start <= x <= end_ /\ proves links x.
Proof.
  intros Hs He Ha. pose proof (proven_loop_spec start end_ links Hs He Ha) as H.
  unfold proven_ranges. destruct (foldl _ _ _) as [ranges previous]. cbn [fst]. tauto.
Qed.

(** ** The plan of a scan *)

(** What a plan promises for the slots from [start] on. *)
Definition plan_exact (start end_ settled : Z) (proven taken : list (Z * Z)) (next' : Z) : Prop :=
  start <= next' <= end_ + 1 /\
  (forall x, start <= x < next' -> in_ranges x taken \/ (x <= settled /\ ~ in_ranges x proven)) /\
  (next' <= end_ -> exists y, next' <= y <= end_ /\ settled < y /\
     forall z, next' <= z <= y -> ~ in_ranges z proven).

Lemma plan_loop_spec end_ settled proven pub start :
  end_ < u64_max -> start <= end_ + 1 -> ranges_apart proven ->
  Forall (fun r => start <= fst r /\ snd r <= end_) proven ->
  exists taken rest, proven = taken ++ rest /\
    plan_publish (plan_loop end_ settled proven pub start) = pub ++ taken /\
    plan_exact start end_ settled proven taken (plan_next (plan_loop end_ settled proven pub start)).
Proof.
  intros He. revert pub start. induction proven as [|[first last_] proven IH]; intros pub start Hse Hap Hall; cbn [plan_loop].
  { exists [], []. split; [done|]. split; [by rewrite app_nil_r|]. cbn [plan_next].
    assert (Hno : forall x, ~ in_ranges x []) by by intros x ?%in_ranges_nil.
    destruct (Z.leb_spec start end_); cbn [andb]; [|split; [lia|split; [intros; lia|lia]]].
    destruct (Z.leb_spec end_ settled); cbn [andb].
    - replace (sat_add end_ 1) with (end_ + 1) by sat_lia. split; [lia|]. split; [|lia].
      intros x Hx. right. split; [lia|done].
    - split; [lia|]. split; [lia|]. intros _. exists end_. split; [lia|]. split; [lia|]. intros z _. apply Hno. }
  apply Forall_cons in Hall as [[Hf Hl] Hall]. cbn [fst snd] in *.
  destruct Hap as [Hs Hp]. inversion Hs as [|? ? Hs' Hnext]; subst. apply Forall_cons in Hp as [Hp Hp'].
  rewrite Forall_forall in Hnext. cbn [fst snd] in *.
  assert (Hlow : forall z, in_ranges z proven -> last_ + 1 < z).
  { intros z (r & Hr & Hz). specialize (Hnext r Hr). lia. }
  destruct ((start <? first) && (settled <? first - 1))%bool eqn:E.
  - zbool. exists [], ((first, last_) :: proven). split; [done|]. split; [by rewrite app_nil_r|]. cbn [plan_next].
    split; [lia|]. split; [lia|]. intros _. exists (first - 1). split; [lia|]. split; [lia|].
    intros z Hz [Hz'|Hz'%Hlow]%in_ranges_cons; lia.
  - replace (sat_add last_ 1) with (last_ + 1) by sat_lia.
    destruct (IH (pub ++ [(first, last_)]) (last_ + 1)) as (taken & rest & -> & Hpub & Hn & Hcov & Hwait);
      [lia|by split| |].
    { rewrite !Forall_forall in *. intros r Hr. specialize (Hnext r Hr). specialize (Hall r Hr). simpl in *. lia. }
    exists ((first, last_) :: taken), rest. split; [done|]. split; [by rewrite Hpub, <- app_assoc|].
    set (n := plan_next _) in *. split; [lia|]. split.
    + intros x Hx. rewrite !in_ranges_cons. destruct (decide (x < first)).
      * right. split; [|intros [|Hx'%Hlow]; lia]. apply andb_false_iff in E as [E|E]; zbool; lia.
      * destruct (decide (x <= last_)); [left; left; lia|].
        destruct (Hcov x ltac:(lia)) as [|[Hx1 Hx2]]; [by left; right|]. right. split; [done|]. intros [|]; [lia|done].
    + intros Hle. destruct (Hwait Hle) as (y & Hy & Hset & Hz). exists y. split; [done|]. split; [done|].
      intros z Hz'. rewrite in_ranges_cons. intros [|Hz'']; [lia|]. by apply (Hz z).
Qed.

(** What a scan publishes and where the next one starts: a prefix of the proven
    ranges; every slot it moves past is published or both unproven and settled; and when
    it stops early, an unproven run that reaches past the settled slots starts right
    where the next scan will. *)
Theorem plan_scan_exact start end_ links settled :
  0 <= start <= end_ -> end_ < u64_max -> ascending (map fst links) ->
  let proven := proven_ranges start end_ links in
  let plan := plan_scan start end_ proven settled in
  (exists rest, proven = plan_publish plan ++ rest) /\
  plan_exact start end_ settled proven (plan_publish plan) (plan_next plan).
Proof.
  intros Hse He Ha. cbv zeta. destruct (proven_ranges_spec start end_ links ltac:(lia) ltac:(lia) Ha) as [Hap Hin].
  destruct (plan_loop_spec end_ settled (proven_ranges start end_ links) [] start) as (taken & rest & E & Hp & Hx);
    [done|lia|done| |].
  - apply Forall_forall. intros r Hr. destruct Hap as [_ Hp]. rewrite Forall_forall in Hp. specialize (Hp r Hr).
    assert (H1 : in_ranges (fst r) (proven_ranges start end_ links)) by (exists r; split; [done|lia]).
    assert (H2 : in_ranges (snd r) (proven_ranges start end_ links)) by (exists r; split; [done|lia]).
    apply Hin in H1 as [H1 _]. apply Hin in H2 as [H2 _]. lia.
  - unfold plan_scan. cbn [app] in Hp. rewrite Hp. split; [by exists rest|done].
Qed.

(** ** Truth *)

Section Truth.
Context (truth : Z -> option (option Z)).

(** A link of the chain: no block lies between a block and its parent. *)
Definition link_true (slot parent : Z) : Prop := forall x, parent < x < slot -> ~ block_at truth x.

(** A source may lag and miss blocks, but what it returns is the chain's. *)
Record source_honest (src : ScanSource) : Prop := {
  sh_rows : forall a b rows, get_block_times src a b = Ok rows ->
    ascending (map row_slot rows) /\
    forall row, row ∈ rows -> a <= row_slot row <= b /\ row_true truth row /\
      link_true (row_slot row) (row_parent_slot row);
  sh_next : forall a s p, next_block_after src a = Ok (Some (s, p)) -> a < s /\ link_true s p;
}.

(** A proven range lists all its blocks, even when the source missed some elsewhere. *)
Lemma scan_spec src start end_ rows proven :
  source_honest src -> 0 <= start -> end_ <= u64_max -> scan src start end_ = Ok (rows, proven) ->
  ranges_apart proven /\ (forall x, in_ranges x proven -> start <= x <= end_) /\
  forall r, r ∈ proven -> rows_exact truth (fst r) (snd r) rows.
Proof.
  intros [Hrows Hsucc] Hs He. unfold scan. destruct (get_block_times src start end_) as [rows0|] eqn:Er; [|done].
  cbn [rbind]. destruct (Hrows _ _ _ Er) as [Hasc Hrow]. clear Hrows.
  set (more := match last rows0 with None => true | Some row => row_slot row <? end_ end).
  destruct (if more then next_block_after src end_ else Ok None) as [succ|] eqn:Es; [|done]. cbn [rbind].
  assert (Hsucc' : forall l, l ∈ option_list succ -> end_ < fst l /\ link_true (fst l) (snd l)).
  { intros [s p] Hl. destruct succ as [sp|]; [|by apply elem_of_nil in Hl].
    apply list_elem_of_singleton in Hl as <-. destruct more; [|done]. by apply (Hsucc end_). }
  intros [= <- <-].
  set (links := map (fun row => (row_slot row, row_parent_slot row)) rows0 ++ option_list succ).
  assert (Hlinks : ascending (map fst links)).
  { unfold links. rewrite map_app, map_map. cbn [fst]. destruct succ as [[s p]|]; cbn [option_list map app];
      [|by rewrite app_nil_r].
    apply ascending_snoc. split; [done|]. apply Forall_forall. intros x (row & -> & Hr)%list_elem_of_fmap.
    destruct (Hrow row Hr) as [Hb _]. destruct (Hsucc' (s, p)) as [Hn _]; [apply list_elem_of_here|].
    simpl in *. lia. }
  assert (Hproves : forall x, x <= end_ -> proves links x -> (exists row, row ∈ rows0 /\ row_slot row = x) \/ ~ block_at truth x).
  { intros x Hx (before & [s p] & after & E & Hl).
    assert (Hin : (s, p) ∈ links) by (rewrite E; apply elem_of_app; right; apply list_elem_of_here).
    unfold links in Hin. apply elem_of_app in Hin as [(row & [= -> ->] & Hr)%list_elem_of_fmap|Hin].
    - destruct (Hrow row Hr) as (_ & _ & Hlt). destruct Hl as [->|(Hgap & _)]; [left; eauto|right; by apply Hlt].
    - destruct (Hsucc' _ Hin) as [Hgt Hlt]. simpl in *. destruct Hl as [->|(Hgap & _)]; [lia|right; by apply Hlt]. }
  destruct (proven_ranges_spec start end_ links Hs He Hlinks) as [Hap Hpr].
  split; [done|]. split; [intros x Hx; by apply Hpr in Hx as [Hx _]|].
  intros r Hr. split; [done|intros row Hrw _; by apply Hrow|].
  intros x Hx Hb. assert (Hi : in_ranges x (proven_ranges start end_ links)) by by exists r.
  apply Hpr in Hi as [Hxe Hxp]. destruct (Hproves x ltac:(lia) Hxp) as [|]; [done|contradiction].
Qed.

(** ** The durable tables *)

(** Stored rows are the chain's, and a coverage row is backed by the rows of all the
    blocks of its range. *)
Record tables_ok (t : LocalTables) : Prop := {
  to_data : forall d, d ∈ block_times t -> truth (p_slot d) = Some (p_block_time d);
  to_coverage : forall k, k ∈ proven_coverage t ->
    0 <= range_start k /\ range_end k + SEGMENT_SLOTS <= u64_max /\
    forall x, range_start k <= x <= range_end k -> block_at truth x -> exists d, d ∈ block_times t /\ p_slot d = x;
}.

Definition durable_bounded (b : BlockIndex) : Prop :=
  forall x, covers (durable_coverage b) x -> x + SEGMENT_SLOTS <= u64_max.

(** A range that may be published with [rows]. *)
Definition publishable (rows : list BlockTimeRangeRow) (r : Z * Z) : Prop :=
  0 <= fst r /\ snd r + SEGMENT_SLOTS <= u64_max /\ rows_exact truth (fst r) (snd r) rows.

Lemma set_durable_ok m b : index_ok truth b -> map_ok m -> index_ok truth (set_durable m b).
Proof. intros [[H1 H2 H3] H4 H5 H6 H7] Hm. split; [by split|done..]. Qed.

Lemma publish_one rows b r :
  times_in_range truth -> index_ok truth b -> durable_bounded b -> publishable rows r ->
  let b1 := set_durable (insert_range (fst r) (snd r) (durable_coverage b)) b in
  let b2 := fst (publish_memory (fst r) (snd r) rows b1) in
  index_ok truth b1 /\ durable_bounded b1 /\ cfg b1 = cfg b /\
  index_ok truth b2 /\ durable_bounded b2 /\ cfg b2 = cfg b.
Proof.
  intros Htr Hok Hdb (Hs & He & Hrows). cbv zeta.
  assert (Hd : map_ok (insert_range (fst r) (snd r) (durable_coverage b)) /\
    forall x, covers (insert_range (fst r) (snd r) (durable_coverage b)) x -> x + SEGMENT_SLOTS <= u64_max).
  { destruct (decide (fst r <= snd r)) as [Hle|Hgt].
    - destruct (insert_range_spec (durable_coverage b) (fst r) (snd r) (io_durable _ _ Hok)) as [Hm Hx];
        [unfold SEGMENT_SLOTS in *; sat_lia..|].
      split; [done|]. intros x [Hx'|Hx']%Hx; [by apply Hdb|lia].
    - unfold insert_range. destruct (Z.ltb_spec (snd r) (fst r)); [|lia].
      split; [apply Hok|]. intros x Hx. by apply Hdb. }
  destruct Hd as [Hm Hx].
  set (b1 := set_durable _ b). assert (Hok1 : index_ok truth b1) by by apply set_durable_ok.
  pose proof (publish_memory_spec truth (fst r) (snd r) rows b1 Htr Hok1 Hs He Hrows) as Hp.
  destruct (publish_memory _ _ _ _) as [b2 all]. destruct Hp as (Hok2 & Hc & Hdur & _). cbn [fst].
  split; [done|]. split; [done|]. split; [done|]. split; [done|]. split; [|done].
  unfold durable_bounded. by rewrite Hdur.
Qed.

Lemma publish_ranges_spec rows ranges b :
  times_in_range truth -> index_ok truth b -> durable_bounded b -> Forall (publishable rows) ranges ->
  let b' := publish_ranges rows b ranges in index_ok truth b' /\ durable_bounded b' /\ cfg b' = cfg b.
Proof.
  intros Htr Hok Hdb Hall. unfold publish_ranges. cbv zeta. revert b Hok Hdb.
  induction Hall as [|r ranges Hr Hall IH]; intros b Hok Hdb; cbn [foldl]; [done|].
  destruct (publish_one rows b r Htr Hok Hdb Hr) as (_ & _ & _ & H1 & H2 & H3).
  destruct (IH _ H1 H2) as (H4 & H5 & H6). split; [done|]. split; [done|]. by rewrite H6.
Qed.

Lemma take_stored {A} (o : insert_outcome) (l : list A) x : x ∈ stored_rows o l -> x ∈ l.
Proof.
  destruct o as [|kept]; [done|]. simpl. revert kept. induction l as [|a l IH]; intros [|kept] Hx; simpl in *;
    try by apply elem_of_nil in Hx.
  apply elem_of_cons in Hx as [->|Hx]; [apply list_elem_of_here|right; by eapply IH].
Qed.

Lemma persist_ranges_spec version d k ranges rows b t b' t' r :
  times_in_range truth -> index_ok truth b -> durable_bounded b -> tables_ok t ->
  Forall (publishable rows) ranges ->
  persist_ranges version d k ranges rows b t = (b', t', r) ->
  index_ok truth b' /\ durable_bounded b' /\ cfg b' = cfg b /\ tables_ok t'.
Proof.
  intros Htr Hok Hdb Ht Hall. unfold persist_ranges. destruct ranges as [|r0 ranges0]; [by intros [= <- <- _]|].
  set (ranges := r0 :: ranges0) in *. clearbody ranges. clear r0 ranges0. cbv zeta.
  set (inside := fun row => existsb (fun r => (fst r <=? row_slot row) && (row_slot row <=? snd r))%bool ranges).
  set (data := map _ (List.filter inside rows)). set (marks := map _ ranges).
  rewrite Forall_forall in Hall.
  assert (Hinside : forall row, inside row = true <-> exists r, r ∈ ranges /\ fst r <= row_slot row <= snd r).
  { intros row. unfold inside. rewrite existsb_exists. setoid_rewrite list_elem_of_In.
    split; intros (x & Hx & Hb); exists x; (split; [done|]); [zbool; lia|].
    apply andb_true_intro. split; apply Z.leb_le; lia. }
  assert (Hdata : forall x, x ∈ data -> truth (p_slot x) = Some (p_block_time x)).
  { intros x (row & -> & [Hr Hi]%elem_of_filter_b)%list_elem_of_fmap. apply Hinside in Hi as (q & Hq & Hb).
    destruct (Hall q Hq) as (_ & _ & [_ Htrue _]). by apply Htrue. }
  assert (Ht1 : forall o, tables_ok (mkTables (block_times t ++ stored_rows o data) (proven_coverage t))).
  { intros o. destruct Ht as [Hd Hc]. split; cbn [block_times proven_coverage].
    - intros x [Hx|Hx%take_stored]%elem_of_app; auto.
    - intros c Hcin. destruct (Hc c Hcin) as (H1 & H2 & H3). split; [done|]. split; [done|]. intros x Hx Hb.
      destruct (H3 x Hx Hb) as (y & Hy & E). exists y. split; [|done]. apply elem_of_app. by left. }
  destruct d as [|kept]; [|intros [= <- <- _]; split; [done|split; [done|split; [done|apply (Ht1 (Failed kept))]]]].
  cbn [stored_rows block_times proven_coverage].
  assert (Ht2 : forall o, tables_ok (mkTables (block_times t ++ data) (proven_coverage t ++ stored_rows o marks))).
  { intros o. destruct (Ht1 Stored) as [Hd Hc]. split; cbn [block_times proven_coverage] in *; [done|].
    intros c [Hcin|Hcin%take_stored]%elem_of_app; [by apply Hc|].
    apply list_elem_of_fmap in Hcin as (q & -> & Hq). cbn [range_start range_end].
    destruct (Hall q Hq) as (Hs & He & [_ _ Hex]). split; [done|]. split; [done|]. intros x Hx Hb.
    destruct (Hex x Hx Hb) as (row & Hr & <-).
    exists (mkPersisted (row_slot row) (row_block_time row) version). split; [|done].
    apply elem_of_app. right. apply list_elem_of_fmap. exists row. split; [done|].
    apply elem_of_filter_b. split; [done|]. apply Hinside. by exists q. }
  destruct k as [|kept]; [|intros [= <- <- _]; split; [done|split; [done|split; [done|apply (Ht2 (Failed kept))]]]].
  intros [= <- <- _].
  destruct (publish_ranges_spec rows ranges b Htr Hok Hdb) as (H1 & H2 & H3); [by apply Forall_forall|].
  split; [done|]. split; [done|]. split; [done|]. apply (Ht2 Stored).
Qed.

(** ** Rebuilding the index *)

(** What ClickHouse promises of the two reads: a listed range is a stored coverage row,
    and the listed rows are the stored ones of the range, one per slot, in order. *)
Class LocalReadsLaws (R : LocalReads) : Prop := {
  lr_coverage : forall t l, read_coverage t = Ok l ->
    forall r, r ∈ l -> exists v, mkCoverageRow (fst r) (snd r) v ∈ proven_coverage t;
  lr_rows : forall t a b rows, read_rows t a b = Ok rows ->
    ascending (map row_slot rows) /\
    (forall row, row ∈ rows -> a <= row_slot row <= b /\
       exists v, mkPersisted (row_slot row) (row_block_time row) v ∈ block_times t) /\
    (forall d, d ∈ block_times t -> a <= p_slot d <= b -> exists row, row ∈ rows /\ row_slot row = p_slot d);
}.

Lemma load_ranges_spec `{R : LocalReads} `{!LocalReadsLaws R} t ranges b :
  times_in_range truth -> tables_ok t -> index_ok truth b -> durable_bounded b ->
  Forall (fun r => exists v, mkCoverageRow (fst r) (snd r) v ∈ proven_coverage t) ranges ->
  let b' := load_ranges t ranges b in index_ok truth b' /\ durable_bounded b' /\ cfg b' = cfg b.
Proof.
  intros Htr Ht Hok Hdb Hall. cbv zeta. revert b Hok Hdb.
  induction Hall as [|r ranges [v Hr] Hall IH]; intros b Hok Hdb; cbn [load_ranges]; [done|].
  destruct Ht as [Hd Hc]. destruct (Hc _ Hr) as (Hs & He & Hback). cbn [range_start range_end] in *.
  assert (Hpub : forall rows, read_rows t (fst r) (snd r) = Ok rows -> publishable rows r).
  { intros rows Er. destruct (lr_rows t _ _ _ Er) as (Hsort & Hfrom & Hto). split; [done|]. split; [done|]. split; [done| |].
    - intros row Hrow _. destruct (Hfrom row Hrow) as (_ & u & Hu). apply (Hd _ Hu).
    - intros x Hx Hb. destruct (Hback x Hx Hb) as (d & Hdin & <-). by apply Hto. }
  destruct (read_rows t (fst r) (snd r)) as [rows|].
  - destruct (publish_one rows b r Htr Hok Hdb (Hpub rows eq_refl)) as (_ & _ & _ & H1 & H2 & H3).
    destruct (IH _ H1 H2) as (H4 & H5 & H6). split; [done|]. split; [done|]. by rewrite H6.
  - destruct (decide (fst r <= snd r)) as [Hle|Hgt].
    + destruct (insert_range_spec (durable_coverage b) (fst r) (snd r) (io_durable _ _ Hok)) as [Hm Hx];
        [unfold SEGMENT_SLOTS in *; sat_lia..|].
      split; [by apply set_durable_ok|]. split; [|done]. intros x [Hx'|Hx']%Hx; [by apply Hdb|lia].
    + unfold insert_range. destruct (Z.ltb_spec (snd r) (fst r)); [|lia].
      split; [apply set_durable_ok; [done|apply Hok]|done].
Qed.

(** ** The worker *)

Definition cursors_ok (c : ScanCursors) : Prop :=
  (forall n, forward_next c = Some n -> 0 <= n) /\
  (forall f, backfill_floor c = Some f -> 0 <= f /\ f + SEGMENT_SLOTS <= u64_max + 1).

Lemma window_spec c latest width s e fwd :
  cursors_ok c -> 0 <= latest -> latest + SEGMENT_SLOTS <= u64_max ->
  window c latest width = Some (mkWindow s e fwd) ->
  0 <= s <= e /\ e + SEGMENT_SLOTS <= u64_max /\ e - s < Z.max width 1.
Proof.
  intros [Hn Hf] Hl Hu. unfold window. cbv zeta. destruct (forward_next c) as [n|].
  - specialize (Hn n eq_refl). destruct (Z.leb_spec n latest).
    + intros [= <- <- <-]. unfold SEGMENT_SLOTS in *. sat_lia.
    + destruct (backfill_floor c) as [f|]; [|done]. destruct (Hf f eq_refl) as [Hf0 Hfu].
      destruct (Z.ltb_spec 0 f); [|done]. intros [= <- <- <-]. unfold SEGMENT_SLOTS in *. sat_lia.
  - intros [= <- <- <-]. unfold SEGMENT_SLOTS in *. sat_lia.
Qed.

Record worker_ok (c : BlockIndexConfig) (w : Worker) : Prop := {
  wo_index : index_ok truth (index w);
  wo_cfg : cfg (index w) = c;
  wo_durable : durable_bounded (index w);
  wo_tables : tables_ok (tables w);
  wo_cursors : cursors_ok (cursors w);
}.

Lemma start_worker_ok `{R : LocalReads} `{!LocalReadsLaws R} c t w :
  times_in_range truth -> tables_ok t -> start_worker c t = Some w -> worker_ok c w.
Proof.
  intros Htr Ht. unfold start_worker. destruct (index_open c) as [b|] eqn:Eo; [|done].
  pose proof (open_ok truth c b Eo) as Hok.
  assert (Hb0 : durable_bounded b /\ cfg b = c).
  { unfold index_open in Eo. destruct (_ <? _); [done|]. injection Eo as <-. split; [|done]. by intros x ?%in_ranges_nil. }
  destruct Hb0 as [Hdb Hcfg]. intros [= <-].
  assert (Hl : index_ok truth (load_local t b) /\ durable_bounded (load_local t b) /\ cfg (load_local t b) = cfg b).
  { unfold load_local. destruct (read_coverage t) as [ranges|] eqn:Er; [|done].
    apply load_ranges_spec; [done..|]. apply Forall_forall. by apply lr_coverage. }
  destruct Hl as (H1 & H2 & H3). split; cbn [index cursors tables]; try done; [congruence|].
  pose proof (covered_span_spec _ (io_durable _ _ H1)) as Hspan. unfold seeded.
  destruct (covered_span _) as [[lo hi]|]; cbn [option_map fst snd]; [|by split].
  destruct Hspan as (Hlo & Hhi & _). pose proof (H2 lo Hlo). pose proof (H2 hi Hhi).
  assert (Hnn : forall x, covers (durable_coverage (load_local t b)) x -> 0 <= x).
  { intros x (s & e & Hse & Hx)%covers_iff. destruct (mo_ranges _ (io_durable _ _ H1) s e Hse). lia. }
  pose proof (Hnn lo Hlo). pose proof (Hnn hi Hhi).
  split; [intros n [= <-]; sat_lia|intros f [= <-]; lia].
Qed.

Lemma scan_once_ok c src latest version d k w :
  times_in_range truth -> source_honest src -> 0 <= latest -> latest + SEGMENT_SLOTS <= u64_max ->
  worker_ok c w -> worker_ok c (fst (scan_once src latest version d k w)).
Proof.
  intros Htr Hsrc Hl Hu Hw. pose proof Hw as [Hok Hcfg Hdb Ht Hcur]. unfold scan_once.
  destruct (window _ _ _) as [[s e fwd]|] eqn:Ew; [|done].
  destruct (window_spec _ _ _ _ _ _ Hcur Hl Hu Ew) as (Hse & Heu & _).
  assert (Hslots : 0 < SEGMENT_SLOTS) by done.
  destruct (scan src s e) as [[rows proven]|] eqn:Esc; [|done].
  destruct (scan_spec src s e rows proven) as (Hap & Hin & Hex); [done|lia|lia|done|]. cbv zeta.
  set (settled := if fwd then _ else _).
  assert (Hwithin : Forall (fun r => s <= fst r /\ snd r <= e) proven).
  { apply Forall_forall. intros r Hr. destruct Hap as [_ Hp]. rewrite Forall_forall in Hp. specialize (Hp r Hr).
    pose proof (Hin (fst r) ltac:(exists r; split; [done|lia])). pose proof (Hin (snd r) ltac:(exists r; split; [done|lia])). lia. }
  destruct (plan_loop_spec e settled proven [] s) as (taken & rest & E & Hp & Hnext & _); [lia|lia|done|done|].
  fold (plan_scan s e proven settled) in Hp, Hnext. cbn [app] in Hp. rewrite Hp.
  destruct (persist_ranges _ _ _ _ _ _ _) as [[b t] r] eqn:Epr.
  apply persist_ranges_spec in Epr as (H1 & H2 & H3 & H4); [|done..|].
  2: { apply Forall_forall. intros q Hq. rewrite Forall_forall in Hwithin.
       assert (q ∈ proven) as Hqp by (rewrite E; apply elem_of_app; by left).
       specialize (Hwithin q Hqp). split; [lia|]. split; [lia|]. by apply Hex. }
  destruct Hcur as [Hcn Hcf].
  destruct r; split; cbn [fst index cursors tables]; try done; try congruence.
  destruct fwd; split; cbn [forward_next backfill_floor]; try done.
  - intros n [= <-]. lia.
  - intros f. destruct (backfill_floor (cursors w)) as [f'|] eqn:Ef; intros [= <-]; [by apply Hcf|lia].
  - intros f [= <-]. lia.
Qed.

(** The environment's side: sources return what the chain has, the finalized tip is a
    slot well below the end of the number range, and the local reads keep their laws. *)
Definition event_ok (e : worker_event) : Prop :=
  match e with
  | Turn src latest _ _ _ => source_honest src /\ 0 <= latest /\ latest + SEGMENT_SLOTS <= u64_max
  | NoTip => True
  | Restart reads => LocalReadsLaws reads
  end.

Lemma worker_run_ok c events w :
  times_in_range truth -> worker_ok c w -> Forall event_ok events ->
  worker_ok c (foldl (worker_step c) w events).
Proof.
  intros Htr Hw Hall. revert w Hw. induction Hall as [|e events He Hall IH]; intros w Hw; cbn [foldl]; [done|].
  apply IH. destruct e as [src latest version d k| |reads]; cbn [worker_step event_ok] in *.
  - destruct He as (Hs & Hl & Hu). by apply scan_once_ok.
  - done.
  - destruct (start_worker c (tables w)) as [w'|] eqn:E; [|done].
    eapply start_worker_ok; [done|apply Hw|exact E].
Qed.

(** C32: whatever the worker lives through (scans of a source that lags and misses
    blocks, failed reads, local writes that fail half-way, turns without a tip, stops
    and restarts), the index it serves never contradicts the chain: a range answer lists
    exactly the blocks of what it claims complete, a block-time lookup is the chain's or
    "not covered", and the segments stay within the memory limit. *)
Theorem index_worker_truthful (R : LocalReads) c events w0 :
  LocalReadsLaws R -> times_in_range truth -> start_worker c (mkTables [] []) = Some w0 ->
  Forall event_ok events ->
  let b := index (foldl (worker_step c) w0 events) in
  truthful_source (block_at truth) (index_range_coverage b) /\
  (forall x, block_time b x = NotCovered \/
             block_time b x = match truth x with None => Skipped | Some t => Found t end) /\
  (forall x, complete_at (index_range_coverage b x x) x <-> block_time b x <> NotCovered) /\
  Z.of_nat (size (segments b)) * segment_memory_bytes <= max_memory_bytes c.
Proof.
  intros HR Htr Hw0 Hall. cbv zeta.
  assert (Ht0 : tables_ok (mkTables [] [])) by (split; cbn; by intros ? ?%elem_of_nil).
  pose proof (worker_run_ok c events w0 Htr (start_worker_ok c _ _ Htr Ht0 Hw0) Hall) as [Hok Hcfg _ _ _].
  set (b := index _) in *. clearbody b. pose proof (io_sound _ _ Hok) as Hs.
  split; [intros lo hi; by apply index_range_coverage_spec|]. split; [|split].
  - intros x. destruct (block_time_spec truth b x Htr Hs) as [(_ & _ & ->)|[_ ->]]; auto.
  - intros x. destruct (index_range_coverage_spec truth b x x Hs) as [_ ->].
    destruct (block_time_spec truth b x Htr Hs) as [(H1 & H2 & ->)|[Hn ->]].
    + split; [by destruct (truth x)|]. intros _. split; [lia|done].
    + split; [intros (_ & H); by destruct Hn|done].
  - pose proof (io_size _ _ Hok) as Hsz. unfold max_segments in Hsz. rewrite Hcfg in Hsz.
    pose proof (Z.mul_div_le (max_memory_bytes c) segment_memory_bytes eq_refl).
    assert (0 < segment_memory_bytes) by done. nia.
Qed.

End Truth.

(** A window's proven ranges are exactly what its rows prove: a slot of the window
    is in one of them if and only if it is a row's slot or lies in the gap between a row
    and its parent, the gap being at most [MAX_SKIPPED_RUN] slots and no earlier row
    lying past that parent; the ranges are sorted, disjoint and never adjacent. *)
Theorem proven_ranges_exact start end_ links :
  0 <= start -> end_ <= u64_max -> ascending (map fst links) ->
  ranges_apart (proven_ranges start end_ links) /\
  forall x, in_ranges x (proven_ranges start end_ links) <-> start <= x <= end_ /\ proves links x.
Proof. apply proven_ranges_spec. Qed.
