(* ===== verification/Watermark.v ===== *)
(** * Watermark: the empty-address watermarks of getSignaturesForAddress

    Models [crates/superbank-rpc/src/disk_cache/gsfa_watermark.rs].  The table keeps at
    most [max_entries] addresses; each entry expires after [ttl]; a queue of insertions
    drives eviction, and items of the queue whose instant no longer matches their entry
    are stale.  The abstract table is the list of live entries, oldest first.

    An [Instant] is its distance in nanoseconds from some origin and a [Duration] a
    non-negative number of nanoseconds.  Each operation holds the table's lock from its
    first access to its last, so operations are atomic. *)

From S2P Require Import Prelude.

Open Scope Z_scope.

Definition GSFA_WATERMARK_TIP_MARGIN_SLOTS : Z := 4500.

(** [fill_watermark] *)
Definition fill_watermark (local_tip : Z) : Z := sat_sub local_tip GSFA_WATERMARK_TIP_MARGIN_SLOTS.

(** [local_page_reaches_watermark] *)
Definition local_page_reaches_watermark (floor watermark : Z) : bool := floor <=? sat_add watermark 1.

Section Table.
Context {K : Type} `{Countable K}.

(** [Inner] *)
Record Inner := mkInner {
  entries : gmap K (Z * Z);
  order : list (K * Z);
}.

Record GsfaWatermarks := mkWatermarks {
  ttl : Z;
  max_entries : Z;
  inner : Inner;
}.

Definition with_inner (g : GsfaWatermarks) (i : Inner) : GsfaWatermarks :=
  mkWatermarks (ttl g) (max_entries g) i.

(** [GsfaWatermarks::new] *)
Definition watermarks_new (ttl max_entries : Z) : GsfaWatermarks :=
  mkWatermarks ttl (Z.max max_entries 1) (mkInner ∅ []).

(** [GsfaWatermarks::enabled] *)
Definition enabled (g : GsfaWatermarks) : bool := negb (ttl g =? 0).

(** [now.saturating_duration_since(inserted) < ttl] *)
Definition fresh (g : GsfaWatermarks) (now inserted : Z) : bool := Z.max 0 (now - inserted) <? ttl g.

(** [GsfaWatermarks::get] *)
Definition get (address : K) (now : Z) (g : GsfaWatermarks) : GsfaWatermarks * option Z :=
  if negb (enabled g) then (g, None)
  else
    match entries (inner g) !! address with
    | None => (g, None)
    | Some (watermark, inserted) =>
        if fresh g now inserted then (g, Some watermark)
        else (with_inner g (mkInner (delete address (entries (inner g))) (order (inner g))), None)
    end.

(** The queue item still names its entry: [entries.get(key).is_some_and(|&(_, t)| t == at)]. *)
Definition live (e : gmap K (Z * Z)) (item : K * Z) : bool :=
  match e !! fst item with Some (_, t) => t =? snd item | None => false end.

(** The eviction loop of [insert]. *)
Fixpoint evict (limit : Z) (e : gmap K (Z * Z)) (order : list (K * Z)) : Inner :=
  match order with
  | [] => mkInner e []
  | (oldest, at_) :: rest =>
      if limit <? Z.of_nat (size e)
      then evict limit (if live e (oldest, at_) then delete oldest e else e) rest
      else mkInner e order
  end.

(** [GsfaWatermarks::insert] *)
Definition insert_watermark (address : K) (watermark now : Z) (g : GsfaWatermarks) : GsfaWatermarks :=
  if negb (enabled g) then g
  else
    let i := evict (max_entries g) (<[address := (watermark, now)]> (entries (inner g)))
               (order (inner g) ++ [(address, now)]) in
    let i := if sat_mul (max_entries g) 2 <? zlen (order i)
             then mkInner (entries i) (List.filter (live (entries i)) (order i)) else i in
    with_inner g i.

(** [GsfaWatermarks::remove] *)
Definition remove_watermark (address : K) (g : GsfaWatermarks) : GsfaWatermarks :=
  if negb (enabled g) then g
  else with_inner g (mkInner (delete address (entries (inner g))) (order (inner g))).

(** ** The abstract table: live entries, oldest first *)

Record entry := mkEntry {
  e_address : K;
  e_watermark : Z;
  e_inserted : Z;
}.

Definition spec_lookup (address : K) (l : list entry) : option entry :=
  List.find (fun x => bool_decide (e_address x = address)) l.
Definition spec_remove (address : K) (l : list entry) : list entry :=
  List.filter (fun x => negb (bool_decide (e_address x = address))) l.
(** The newest entries win: an insertion replaces the address's entry, and the oldest
    entries beyond the limit go. *)
Definition spec_insert (limit : Z) (address : K) (watermark now : Z) (l : list entry) : list entry :=
  let l := spec_remove address l ++ [mkEntry address watermark now] in
  drop (Z.to_nat (zlen l - limit)) l.

(** The live entries of the table, in queue order. *)
Definition live_entry (e : gmap K (Z * Z)) (item : K * Z) : option entry :=
  match e !! fst item with
  | Some (w, t) => if t =? snd item then Some (mkEntry (fst item) w t) else None
  | None => None
  end.
Definition live_entries (i : Inner) : list entry := omap (live_entry (entries i)) (order i).

(** Instants in the queue are distinct and every entry is in the queue. *)
Record inner_ok (i : Inner) : Prop := {
  wi_distinct : NoDup (order i);
  wi_queued : forall a w t, entries i !! a = Some (w, t) -> (a, t) ∈ order i;
}.

Lemma live_entry_spec e item x :
  live_entry e item = Some x <->
  e !! fst item = Some (e_watermark x, snd item) /\ e_address x = fst item /\ e_inserted x = snd item.
Proof.
  unfold live_entry. destruct (e !! fst item) as [[w t]|]; [|split; [done|by intros []]].
  destruct (Z.eqb_spec t (snd item)) as [->|Hn].
  - split; [by intros [= <-]|]. intros ([= ->] & E1 & E2). destruct x as [a w' t']. simpl in *. congruence.
  - split; [done|]. intros ([= _ ->] & _). congruence.
Qed.

Lemma live_iff e item : live e item = true <-> exists x, live_entry e item = Some x.
Proof.
  unfold live, live_entry. destruct (e !! fst item) as [[w t]|]; [|split; [done|by intros []]].
  destruct (t =? snd item); split; eauto; [done|by intros []].
Qed.

Lemma live_none e item : live e item = false <-> live_entry e item = None.
Proof.
  unfold live, live_entry. destruct (e !! fst item) as [[w t]|]; [|done]. by destruct (t =? snd item).
Qed.

(** The addresses of the live entries are distinct, and they are the table's. *)
Lemma live_entries_elem i x :
  inner_ok i -> x ∈ live_entries i <-> entries i !! e_address x = Some (e_watermark x, e_inserted x).
Proof.
  intros [_ Hq]. unfold live_entries. rewrite list_elem_of_omap. split.
  - intros ([a t] & _ & (E1 & E2 & E3)%live_entry_spec). simpl in *. by rewrite E2, E3.
  - intros E. exists (e_address x, e_inserted x). split; [by eapply Hq|]. apply live_entry_spec. done.
Qed.

Lemma live_omap_NoDup e ord : NoDup ord -> NoDup (e_address <$> omap (live_entry e) ord).
Proof.
  induction 1 as [|item ord Hnin Hnd IH]; cbn; [constructor|].
  destruct (live_entry e item) as [x|] eqn:Ex; [|done]. constructor; [|done].
  intros (y & Ey & (item' & Hin & Hy)%list_elem_of_omap)%list_elem_of_fmap.
  apply live_entry_spec in Ex as (E1 & E2 & E3). apply live_entry_spec in Hy as (E4 & E5 & E6).
  apply Hnin. replace item with item'; [done|]. destruct item, item'; simpl in *. congruence.
Qed.

Lemma live_entries_size i : inner_ok i -> zlen (live_entries i) = Z.of_nat (size (entries i)).
Proof.
  intros Hok. pose proof (live_omap_NoDup (entries i) (order i) (wi_distinct i Hok)) as Hnd.
  fold (live_entries i) in Hnd. rewrite <- (size_dom (D:=gset K)).
  assert (Hdom : dom (entries i) = list_to_set (C:=gset K) (e_address <$> live_entries i)).
  { apply set_eq. intros a. rewrite elem_of_dom, elem_of_list_to_set, list_elem_of_fmap. split.
    - intros [[w t] E]. exists (mkEntry a w t). split; [done|]. by apply live_entries_elem.
    - intros (x & -> & Hx%live_entries_elem); [|done]. by eexists. }
  rewrite Hdom, size_list_to_set by done. unfold zlen. by rewrite length_fmap.
Qed.

(** ** Removal *)

Lemma live_entry_delete e a item :
  live_entry (delete a e) item = if bool_decide (fst item = a) then None else live_entry e item.
Proof.
  unfold live_entry. case_bool_decide as E.
  - by rewrite E, lookup_delete_eq.
  - by rewrite lookup_delete_ne.
Qed.

Lemma live_delete e a ord :
  omap (live_entry (delete a e)) ord = spec_remove a (omap (live_entry e) ord).
Proof.
  induction ord as [|item ord IH]; cbn; [done|]. rewrite live_entry_delete.
  destruct (live_entry e item) as [x|] eqn:Ex; [|by case_bool_decide].
  apply live_entry_spec in Ex as (_ & <- & _). cbn. case_bool_decide; cbn; [done|].
  f_equal. apply IH.
Qed.

Lemma delete_ok e a ord : inner_ok (mkInner e ord) -> inner_ok (mkInner (delete a e) ord).
Proof.
  intros [Hd Hq]. split; [done|]. cbn [entries order] in *. intros k w t [_ E]%lookup_delete_Some. by eapply Hq.
Qed.

Lemma spec_remove_absent a l : a ∉ (e_address <$> l) -> spec_remove a l = l.
Proof.
  induction l as [|x l IH]; intros Hn; [done|]. rewrite fmap_cons, not_elem_of_cons in Hn. destruct Hn as [Hx Hl].
  cbn. rewrite bool_decide_eq_false_2 by congruence. cbn. f_equal. by apply IH.
Qed.

(** ** Eviction *)

Lemma pop_stale_ok e item ord :
  inner_ok (mkInner e (item :: ord)) -> live e item = false -> inner_ok (mkInner e ord).
Proof.
  intros [Hd Hq] Hl. cbn [entries order] in *. apply NoDup_cons in Hd as [_ Hd]. split; [done|].
  intros a w t E. cbn [entries order] in *. destruct (proj1 (elem_of_cons _ _ _) (Hq a w t E)) as [<-|]; [|done].
  unfold live in Hl. cbn [fst snd] in Hl. rewrite E, Z.eqb_refl in Hl. done.
Qed.

Lemma pop_live_ok e item ord :
  inner_ok (mkInner e (item :: ord)) -> live e item = true ->
  inner_ok (mkInner (delete (fst item) e) ord) /\
  exists x, omap (live_entry e) (item :: ord) = x :: omap (live_entry (delete (fst item) e)) ord.
Proof.
  intros Hok Hl. pose proof Hok as [Hd Hq]. cbn [entries order] in *. split.
  - apply (pop_stale_ok (delete (fst item) e) item); [by apply delete_ok|].
    unfold live. by rewrite lookup_delete_eq.
  - apply live_iff in Hl as [x Ex]. exists x. pose proof (live_omap_NoDup e _ Hd) as Hnd.
    cbn in *. rewrite Ex in *. cbn in Hnd. apply NoDup_cons in Hnd as [Hnin _].
    rewrite live_delete. apply live_entry_spec in Ex as (_ & E & _). rewrite E in Hnin.
    f_equal. symmetry. by apply spec_remove_absent.
Qed.

Lemma evict_spec limit e ord :
  0 <= limit -> inner_ok (mkInner e ord) ->
  inner_ok (evict limit e ord) /\
  live_entries (evict limit e ord) =
    drop (Z.to_nat (zlen (live_entries (mkInner e ord)) - limit)) (live_entries (mkInner e ord)) /\
  (forall item, item ∈ order (evict limit e ord) -> item ∈ ord).
Proof.
  intros Hlim. revert e. induction ord as [|[oldest at_] ord IH]; intros e Hok; cbn [evict].
  { split; [done|]. split; [|done]. unfold live_entries. cbn. by rewrite drop_nil. }
  pose proof (live_entries_size _ Hok) as Hsz. cbn [entries] in Hsz.
  destruct (Z.ltb_spec limit (Z.of_nat (size e))) as [Hgt|Hle].
  2: { split; [done|]. split; [|done]. by replace (Z.to_nat _) with 0%nat by lia. }
  destruct (live e (oldest, at_)) eqn:El.
  - destruct (pop_live_ok e _ ord Hok El) as [Hok' [x Ex]]. cbn [fst] in *.
    destruct (IH _ Hok') as (H1 & H2 & H3). split; [done|]. split; [|intros item Hi; right; auto].
    rewrite H2. unfold live_entries at 3 4. cbn [entries order]. rewrite Ex.
    change (omap (live_entry (delete oldest e)) ord) with (live_entries (mkInner (delete oldest e) ord)) in *.
    unfold live_entries in Hsz at 1. cbn [entries order] in Hsz. rewrite Ex in Hsz.
    set (l := live_entries _) in *. rewrite zlen_cons in *.
    replace (Z.to_nat (zlen l + 1 - limit)) with (S (Z.to_nat (zlen l - limit))) by lia. done.
  - pose proof (pop_stale_ok e _ ord Hok El) as Hok'. destruct (IH _ Hok') as (H1 & H2 & H3).
    assert (E : live_entries (mkInner e ((oldest, at_) :: ord)) = live_entries (mkInner e ord)).
    { unfold live_entries. cbn. apply live_none in El. by rewrite El. }
    rewrite E. split; [done|]. split; [done|]. intros item Hi. right. auto.
Qed.

(** ** Insertion *)

Lemma insert_live e a w now ord :
  inner_ok (mkInner e ord) -> (forall item, item ∈ ord -> snd item < now) ->
  inner_ok (mkInner (<[a := (w, now)]> e) (ord ++ [(a, now)])) /\
  live_entries (mkInner (<[a := (w, now)]> e) (ord ++ [(a, now)])) =
    spec_remove a (live_entries (mkInner e ord)) ++ [mkEntry a w now].
Proof.
  intros [Hd Hq] Hlt. cbn [entries order] in *. split.
  - split; cbn [entries order].
    + apply NoDup_app. split; [done|]. split; [|apply NoDup_singleton].
      intros item Hi ->%list_elem_of_singleton. specialize (Hlt _ Hi). simpl in Hlt. lia.
    + intros k v t. rewrite elem_of_app. destruct (decide (k = a)) as [->|Hne].
      * rewrite lookup_insert_eq. intros [= _ <-]. right. apply list_elem_of_here.
      * rewrite lookup_insert_ne by done. intros E. left. by eapply Hq.
  - unfold live_entries. cbn [entries order]. rewrite omap_app. f_equal.
    + rewrite <- live_delete. clear Hd Hq. induction ord as [|item ord IH]; [done|]. cbn.
      assert (live_entry (<[a := (w, now)]> e) item = live_entry (delete a e) item) as ->.
      { unfold live_entry. destruct (decide (fst item = a)) as [->|Hne].
        - rewrite lookup_insert_eq, lookup_delete_eq. specialize (Hlt item (list_elem_of_here _ _)).
          destruct (Z.eqb_spec now (snd item)); [lia|done].
        - by rewrite lookup_insert_ne, lookup_delete_ne. }
      rewrite IH; [done|]. intros i Hi. apply Hlt. by right.
    + cbn. unfold live_entry. cbn [fst snd]. by rewrite lookup_insert_eq, Z.eqb_refl.
Qed.

Lemma compact_spec i :
  inner_ok i ->
  let i' := mkInner (entries i) (List.filter (live (entries i)) (order i)) in
  inner_ok i' /\ live_entries i' = live_entries i /\ zlen (order i') = zlen (live_entries i).
Proof.
  intros [Hd Hq]. cbv zeta. split; [split|]; cbn [entries order].
  - by apply NoDup_ListNoDup, List.NoDup_filter, NoDup_ListNoDup.
  - intros a w t E. rewrite list_elem_of_In, filter_In, <- list_elem_of_In. split; [by eapply Hq|].
    unfold live. cbn [fst snd]. by rewrite E, Z.eqb_refl.
  - unfold live_entries. cbn [entries order]. clear Hd Hq. set (e := entries i). clearbody e.
    induction (order i) as [|item ord [IH1 IH2]]; [done|]. cbn [List.filter].
    destruct (live e item) eqn:El.
    + apply live_iff in El as [x Ex]. cbn. rewrite Ex. split; [by f_equal|].
      rewrite !zlen_cons. by f_equal.
    + apply live_none in El. cbn. rewrite El. done.
Qed.

(** ** Sequences of operations *)

Inductive op :=
| OInsert (address : K) (watermark now : Z)
| ORemove (address : K)
| OGet (address : K) (now : Z).

Definition op_step (g : GsfaWatermarks) (o : op) : GsfaWatermarks * option Z :=
  match o with
  | OInsert a w now => (insert_watermark a w now g, None)
  | ORemove a => (remove_watermark a g, None)
  | OGet a now => get a now g
  end.

(** The same operations on the list of live entries. *)
Definition spec_step (ttl limit : Z) (l : list entry) (o : op) : list entry * option Z :=
  match o with
  | OInsert a w now => (spec_insert limit a w now l, None)
  | ORemove a => (spec_remove a l, None)
  | OGet a now =>
      match spec_lookup a l with
      | None => (l, None)
      | Some x => if Z.max 0 (now - e_inserted x) <? ttl then (l, Some (e_watermark x))
                  else (spec_remove a l, None)
      end
  end.

Fixpoint run_ops {S} (step : S -> op -> S * option Z) (s : S) (ops : list op) : S * list (option Z) :=
  match ops with
  | [] => (s, [])
  | o :: rest =>
      let '(s, out) := step s o in
      let '(s, outs) := run_ops step s rest in (s, out :: outs)
  end.

Definition insert_instants (ops : list op) : list Z :=
  omap (fun o => match o with OInsert _ _ now => Some now | _ => None end) ops.

Record table_ok (g : GsfaWatermarks) : Prop := {
  t_inner : inner_ok (inner g);
  t_limit : 1 <= max_entries g;
  t_ttl : 0 < ttl g;
  t_size : Z.of_nat (size (entries (inner g))) <= max_entries g;
  t_order : zlen (order (inner g)) <= max_entries g * 2;
}.

Lemma spec_lookup_live i a :
  inner_ok i -> spec_lookup a (live_entries i) =
                match entries i !! a with Some (w, t) => Some (mkEntry a w t) | None => None end.
Proof.
  intros Hok. unfold spec_lookup. destruct (List.find _ _) as [x|] eqn:E.
  - apply find_some in E as [Hx Ha]. apply bool_decide_eq_true in Ha.
    apply list_elem_of_In, live_entries_elem in Hx; [|done]. rewrite Ha in Hx. rewrite Hx.
    destruct x. simpl in *. by subst.
  - destruct (entries i !! a) as [[w t]|] eqn:Ea; [|done]. exfalso.
    pose proof (find_none _ _ E (mkEntry a w t)) as Hn. simpl in Hn.
    rewrite bool_decide_eq_true_2 in Hn by done. discriminate Hn.
    apply list_elem_of_In, live_entries_elem; done.
Qed.

Lemma remove_step_ok g a :
  table_ok g ->
  let g' := with_inner g (mkInner (delete a (entries (inner g))) (order (inner g))) in
  table_ok g' /\ live_entries (inner g') = spec_remove a (live_entries (inner g)).
Proof.
  intros [Hi Hl Ht Hs Ho]. cbv zeta. destruct g as [tt mm [e ord]]. cbn [with_inner inner entries order ttl max_entries] in *.
  split; [|apply live_delete]. split; cbn [with_inner inner entries order ttl max_entries]; try done.
  - by apply delete_ok.
  - rewrite map_size_delete. destruct (e !! a); simpl in *; lia.
Qed.

Lemma insert_step_ok g a w now :
  table_ok g -> (forall item, item ∈ order (inner g) -> snd item < now) ->
  let g' := insert_watermark a w now g in
  table_ok g' /\ live_entries (inner g') = spec_insert (max_entries g) a w now (live_entries (inner g)) /\
  (forall item, item ∈ order (inner g') -> snd item <= now).
Proof.
  intros [Hi Hl Ht Hs Ho] Hlt. cbv zeta. unfold insert_watermark, enabled.
  destruct (Z.eqb_spec (ttl g) 0); [lia|]. cbn [negb]. cbv zeta.
  destruct g as [tt mm [e ord]]. cbn [with_inner inner entries order ttl max_entries] in *.
  destruct (insert_live e a w now ord Hi Hlt) as [Hok Hlive].
  set (e1 := <[a := (w, now)]> e) in *. set (ord1 := ord ++ [(a, now)]) in *.
  destruct (evict_spec mm e1 ord1 ltac:(lia) Hok) as (Hok2 & Hlive2 & Hsub).
  set (i2 := evict mm e1 ord1) in *. rewrite Hlive in Hlive2.
  assert (Hspec : live_entries i2 = spec_insert mm a w now (live_entries (mkInner e ord))) by exact Hlive2.
  pose proof (live_entries_size i2 Hok2) as Hsz2.
  assert (Hsize : Z.of_nat (size (entries i2)) <= mm).
  { rewrite <- Hsz2, Hlive2. unfold zlen. rewrite length_drop. lia. }
  assert (Hbefore : forall item, item ∈ order i2 -> snd item <= now).
  { intros item Hin%Hsub. apply elem_of_app in Hin as [Hin|Hin%list_elem_of_singleton]; [|by subst].
    specialize (Hlt item Hin). lia. }
  destruct (compact_spec i2 Hok2) as (Hok3 & Hlive3 & Hlen3). cbn [order] in Hlen3.
  destruct (Z.ltb_spec (sat_mul mm 2) (zlen (order i2))).
  - split; [split; cbn [with_inner inner entries order ttl max_entries]; try done; rewrite Hlen3; lia|].
    split; [by rewrite Hlive3|]. cbn [with_inner inner order]. intros item Hin. apply Hbefore.
    rewrite list_elem_of_In, filter_In, <- list_elem_of_In in Hin. by destruct Hin.
  - split; [split; cbn [with_inner inner entries order ttl max_entries]; try done; sat_lia|]. by split.
Qed.

Lemma step_refines g o now :
  table_ok g -> (forall item, item ∈ order (inner g) -> snd item <= now) ->
  match o with OInsert _ _ t => now < t | _ => True end ->
  let '(g', out) := op_step g o in
  table_ok g' /\ ttl g' = ttl g /\ max_entries g' = max_entries g /\
  spec_step (ttl g) (max_entries g) (live_entries (inner g)) o = (live_entries (inner g'), out) /\
  (forall item, item ∈ order (inner g') -> snd item <= match o with OInsert _ _ t => t | _ => now end).
Proof.
  intros Hok Hnow Ho. pose proof (t_ttl g Hok) as Httl.
  assert (Hen : enabled g = true) by (unfold enabled; destruct (Z.eqb_spec (ttl g) 0); [lia|done]).
  destruct o as [a w t|a|a t]; cbn [op_step spec_step].
  - destruct (insert_step_ok g a w t Hok) as (H1 & H2 & H3); [intros item Hi; specialize (Hnow item Hi); lia|].
    split; [done|]. unfold insert_watermark in *. rewrite Hen in *. cbn [negb] in *.
    split; [done|]. split; [done|]. by rewrite H2.
  - unfold remove_watermark. rewrite Hen. cbn [negb]. destruct (remove_step_ok g a Hok) as [H1 H2].
    split; [done|]. split; [done|]. split; [done|]. by rewrite H2.
  - unfold get. rewrite Hen. cbn [negb]. rewrite spec_lookup_live by apply Hok.
    destruct (entries (inner g) !! a) as [[w inserted]|]; [|done]. unfold fresh.
    cbn [e_inserted e_watermark]. destruct (Z.max 0 (t - inserted) <? ttl g); [done|].
    destruct (remove_step_ok g a Hok) as [H1 H2]. split; [done|]. split; [done|]. split; [done|]. by rewrite H2.
Qed.

Lemma run_refines ops g now :
  table_ok g -> (forall item, item ∈ order (inner g) -> snd item <= now) ->
  ascending (insert_instants ops) -> Forall (fun t => now < t) (insert_instants ops) ->
  let '(g', outs) := run_ops op_step g ops in
  table_ok g' /\ max_entries g' = max_entries g /\
  run_ops (spec_step (ttl g) (max_entries g)) (live_entries (inner g)) ops = (live_entries (inner g'), outs).
Proof.
  revert g now. induction ops as [|o ops IH]; intros g now Hok Hnow Hasc Hgt; cbn [run_ops]; [done|].
  assert (Ho : match o with OInsert _ _ t => now < t | _ => True end)
    by (destruct o; [by apply Forall_cons in Hgt as [? _]|done..]).
  pose proof (step_refines g o now Hok Hnow Ho) as Hstep. destruct (op_step g o) as [g1 out].
  destruct Hstep as (Hok1 & Ht1 & Hm1 & Hs1 & Hnow1). rewrite Hs1.
  assert (Hrest : ascending (insert_instants ops) /\
    Forall (fun t => match o with OInsert _ _ t0 => t0 | _ => now end < t) (insert_instants ops)).
  { destruct o as [a w t|a|a t]; [|done..]. cbn in Hasc. by apply ascending_cons in Hasc as [? ?]. }
  destruct Hrest as [Hasc' Hgt'].
  specialize (IH g1 _ Hok1 Hnow1 Hasc' Hgt'). rewrite Ht1, Hm1 in IH.
  destruct (run_ops op_step g1 ops) as [g2 outs]. destruct IH as (H1 & H2 & H3). rewrite H3. by rewrite H2.
Qed.

(** C39: as long as insertions come at increasing instants, the table with its queue of
    possibly stale items behaves exactly as the list of live entries, oldest first:
    every [get] answers what that list answers (the address's latest watermark, if it was
    neither removed nor expired nor among the oldest beyond the limit), and neither the
    table nor its queue outgrows the limit. *)
Theorem watermarks_refine_recency_list ops ttl0 limit :
  0 < ttl0 -> ascending (insert_instants ops) -> Forall (fun t => 0 < t) (insert_instants ops) ->
  let '(g, outs) := run_ops op_step (watermarks_new ttl0 limit) ops in
  run_ops (spec_step ttl0 (Z.max limit 1)) [] ops = (live_entries (inner g), outs) /\
  Z.of_nat (size (entries (inner g))) <= Z.max limit 1 /\
  zlen (order (inner g)) <= Z.max limit 1 * 2.
Proof.
  intros Ht Hasc Hpos.
  assert (Hok : table_ok (watermarks_new ttl0 limit)).
  { split; cbn [watermarks_new inner entries order ttl max_entries]; [|lia|done| |rewrite zlen_nil; lia].
    - split; cbn [entries order]; [constructor|]. intros a w t. by rewrite lookup_empty.
    - rewrite map_size_empty. lia. }
  pose proof (run_refines ops _ 0 Hok ltac:(by intros item ?%elem_of_nil) Hasc Hpos) as Hr.
  destruct (run_ops op_step (watermarks_new ttl0 limit) ops) as [g outs].
  destruct Hr as ([_ _ _ Hs Ho] & Hm & Hrun). rewrite Hm in Hs, Ho. done.
Qed.

End Table.
