(* ===== verification/KeyIndex.v ===== *)
(** * KeyIndex: the membership filters of the disk cache

    Models [crates/superbank-rpc/src/disk_cache/key_index.rs] and
    [key_index/signatures.rs]: Bloom filters per partition of slots, for addresses and for
    signatures, that let a key read skip partitions; the writers that change rows of the
    local tables; and the tokens that tell a read whether a writer overlapped it.

    Every operation here is one critical section of the source's [Mutex<State>]; what runs
    between them is [KeyTasks].  The counters [serial], [epoch] and [data_epoch] are [u64]
    in the source and are not wrapped here.  BLAKE3 is a parameter.  [Bloom::new] picks the
    number of hash functions of an address filter by a floating-point formula: the number
    is an argument. *)

From S2P Require Import Prelude.

Open Scope Z_scope.

(** ** Bloom filters *)

Record Bloom := mkBloom { bits : list Z; hashes : Z }.

(** [SignatureHash] *)
Record SignatureHash := mkHash { hash_a : Z; hash_b : Z }.

Definition le_bytes (l : list Z) : Z := foldr (fun b acc => b + 256 * acc) 0 l.

Section Blake.
Context (blake3 : list Z -> list Z).

(** [SignatureHash::new] *)
Definition hash_of (key : list Z) : SignatureHash :=
  let digest := blake3 key in
  mkHash (le_bytes (take 8 digest)) (Z.lor (le_bytes (take 8 (drop 8 digest))) 1).
End Blake.

(** [Bloom::with_hashes]; [reserved] is the outcome of [try_reserve_exact]. *)
Definition with_hashes (bytes hashes : Z) (reserved : bool) : option Bloom :=
  if bytes =? 0 then None
  else if reserved then Some (mkBloom (replicate (Z.to_nat bytes) 0) hashes) else None.

(** [Bloom::hash_positions] *)
Definition hash_positions (bloom : Bloom) (h : SignatureHash) : list Z :=
  let nbits := zlen (bits bloom) * 8 in
  map (fun i => wrap64 (hash_a h + wrap64 (i * hash_b h)) mod nbits) (seqZ 0 (hashes bloom)).

(** [self.bits[bit / 8] |= 1 << (bit % 8)] *)
Definition set_bit (l : list Z) (bit : Z) : list Z :=
  alter (fun byte => Z.lor byte (Z.shiftl 1 (bit mod 8))) (Z.to_nat (bit / 8)) l.

Definition test_bit (l : list Z) (bit : Z) : bool :=
  negb (Z.land (nth (Z.to_nat (bit / 8)) l 0) (Z.shiftl 1 (bit mod 8)) =? 0).

(** [Bloom::insert], on the hash of the key *)
Definition bloom_insert (h : SignatureHash) (bloom : Bloom) : Bloom :=
  mkBloom (foldl set_bit (bits bloom) (hash_positions bloom h)) (hashes bloom).

(** [Bloom::contains], on the hash of the key *)
Definition bloom_contains (h : SignatureHash) (bloom : Bloom) : bool :=
  forallb (test_bit (bits bloom)) (hash_positions bloom h).

(** ** The state behind the lock *)

Inductive Family := Address | HotAddress | Owner.

(** [[Option<Bloom>; 3]], indexed by [Family]. *)
Record Filters := mkFilters { f_address : option Bloom; f_hot : option Bloom; f_owner : option Bloom }.

Definition filter_of (f : Filters) (family : Family) : option Bloom :=
  match family with Address => f_address f | HotAddress => f_hot f | Owner => f_owner f end.

Record Entry := mkEntry { e_token : Z; e_filters : option Filters }.

Record SignatureEntry := mkSigEntry { se_token : Z; se_bloom : Bloom; se_complete : bool }.

Record Writer := mkWriter {
  w_range : Z * Z;
  w_signature_update : bool;
  w_repair : bool;
  w_updated : bool;
}.

Record State := mkState {
  entries : gmap Z Entry;
  writers : gmap Z Writer;
  signatures : gmap Z SignatureEntry;
  serial : Z;
  epoch : Z;
  data_epoch : Z;
  untracked_writers : Z;
}.

(** [State::default] *)
Definition state_default : State := mkState ∅ ∅ ∅ 0 0 0 0.

(** [Writer::new], [Writer::repairing] *)
Definition writer_new (range : Z * Z) : Writer := mkWriter range false false false.

Definition in_range (range : Z * Z) (partition : Z) : bool := (fst range <=? partition) && (partition <=? snd range).

Definition repairing (partition : Z) (w : Writer) : bool :=
  (w_repair w && negb (w_updated w) && in_range (w_range w) partition)%bool.

(** [state.writers.values().any(...)] *)
Definition any_writer (p : Writer -> bool) (s : State) : bool :=
  existsb (fun e => p (snd e)) (map_to_list (writers s)).

Definition set_writers (w : gmap Z Writer) (s : State) : State :=
  mkState (entries s) w (signatures s) (serial s) (epoch s) (data_epoch s) (untracked_writers s).
Definition set_signatures (m : gmap Z SignatureEntry) (s : State) : State :=
  mkState (entries s) (writers s) m (serial s) (epoch s) (data_epoch s) (untracked_writers s).
Definition set_entries (m : gmap Z Entry) (s : State) : State :=
  mkState m (writers s) (signatures s) (serial s) (epoch s) (data_epoch s) (untracked_writers s).
Definition bump_serial (s : State) : State :=
  mkState (entries s) (writers s) (signatures s) (serial s + 1) (epoch s) (data_epoch s) (untracked_writers s).
Definition bump_epoch (s : State) : State :=
  mkState (entries s) (writers s) (signatures s) (serial s) (epoch s + 1) (data_epoch s) (untracked_writers s).

(** The fields of [KeyIndex] outside the lock. *)
Record KeyIndex := mkKeyIndex { width : Z; quota : Z; max_entries : Z }.

Definition RESERVE : Z := 64 * 1024 * 1024.
Definition ENTRY_OVERHEAD : Z := 1024.
Definition SIGNATURE_HASHES : Z := 7.
Definition MAX_WRITERS : Z := 128.

(** [u64::div_ceil] *)
Definition div_ceil (a b : Z) : Z := (a + b - 1) / b.

(** [KeyIndex::new] on a 64-bit target, where [usize::try_from] does not fail. *)
Definition key_index_new (retain_slots partition_slots key_index_max_memory_bytes : Z) : KeyIndex :=
  let slots := sat_add (div_ceil retain_slots partition_slots) 2 in
  let quota := sat_sub key_index_max_memory_bytes RESERVE / slots in
  mkKeyIndex partition_slots (sat_sub quota ENTRY_OVERHEAD) (sat_sub slots 1).

Definition signature_quota (ix : KeyIndex) : Z := quota ix / 3 * 2.
Definition address_quota (ix : KeyIndex) : Z := quota ix - signature_quota ix.

(** ** Writers *)

(** [signatures::invalidate] *)
Definition invalidate_signatures (range : Z * Z) (s : State) : State :=
  let s := bump_serial s in
  set_signatures
    (map_imap (fun p e => Some (if in_range range p then mkSigEntry (serial s) (se_bloom e) false else e))
       (signatures s)) s.

(** [signatures::abandon_update] *)
Definition abandon_update (w : Writer) (s : State) : State :=
  if (w_signature_update w && negb (w_updated w))%bool then invalidate_signatures (w_range w) s else s.

(** [KeyIndex::mutation]; the identifier of the new writer, or [None] for one beyond the
    tracking limit. *)
Definition mutation (ix : KeyIndex) (start end_ : Z) (s : State) : State * option Z :=
  if MAX_WRITERS <=? Z.of_nat (size (writers s)) then
    (mkState ∅ (writers s) ∅ (serial s + 1) (epoch s + 1) (data_epoch s) (untracked_writers s + 1), None)
  else
    let s := bump_serial s in
    let id := serial s in
    let range := (start / width ix, end_ / width ix) in
    let kept := filter (fun e => in_range range (fst e) = false) (entries s) in
    let s' := if bool_decide (size kept = size (entries s)) then s else bump_epoch s in
    (set_writers (<[id := writer_new range]> (writers s')) (set_entries kept s'), Some id).

(** [Mutation::drop] *)
Definition drop_mutation (id : option Z) (s : State) : State :=
  match id with
  | Some id =>
      match writers s !! id with
      | Some w => abandon_update w (set_writers (delete id (writers s)) s)
      | None => s
      end
  | None => mkState (entries s) (writers s) (signatures s) (serial s) (epoch s) (data_epoch s) (untracked_writers s - 1)
  end.

(** [Mutation::signature_fill] *)
Definition signature_fill (id : option Z) (repair : bool) (s : State) : State :=
  match writers s !! default 0 id with
  | Some w => set_writers (<[default 0 id := mkWriter (w_range w) true repair (w_updated w)]> (writers s)) s
  | None => s
  end.

(** [Mutation::finish_signatures] *)
Definition finish_signatures (id : option Z) (success : bool) (s : State) : State :=
  match writers s !! default 0 id with
  | None => s
  | Some w =>
      let s := set_writers (<[default 0 id := mkWriter (w_range w) (w_signature_update w) (w_repair w || negb success) success]>
                              (writers s)) s in
      if success then s else invalidate_signatures (w_range w) s
  end.

(** ** Invalidation and read tokens *)

Definition invalidate_reads (s : State) : State :=
  mkState (entries s) (writers s) (signatures s) (serial s) (epoch s + 1) (data_epoch s + 1) (untracked_writers s).
Definition invalidate_negative_reads (s : State) : State := bump_epoch s.
Definition invalidate_for_eviction (eviction_safe_hits : bool) (s : State) : State :=
  if eviction_safe_hits then invalidate_negative_reads s else invalidate_reads s.

(** [KeyIndex::range_read_token] *)
Definition range_read_token (ix : KeyIndex) (start end_ : Z) (s : State) : option (Z * Z) :=
  let range := (start / width ix, end_ / width ix) in
  let overlaps := any_writer (fun w => (fst (w_range w) <=? snd range) && (fst range <=? snd (w_range w)))%bool s in
  if ((untracked_writers s =? 0) && negb overlaps)%bool then Some (epoch s, serial s) else None.

(** [KeyIndex::epochs] *)
Definition epochs (s : State) : Z * Z := (epoch s, data_epoch s).

(** ** Address filters *)

(** The families of [KeyIndex::membership]; [None] means incomplete membership. *)
Fixpoint families_contain (f : Filters) (h : SignatureHash) (present : bool) (families : list Family) : option bool :=
  match families with
  | [] => Some present
  | family :: rest =>
      match filter_of f family with
      | None => None
      | Some bloom => families_contain f h (present || bloom_contains h bloom) rest
      end
  end.

(** [KeyIndex::membership] *)
Definition membership (partition : Z) (families : list Family) (h : SignatureHash) (s : State) : option bool :=
  match entries s !! partition with
  | None => None
  | Some e => match e_filters e with None => None | Some f => families_contain f h false families end
  end.

(** [KeyIndex::begin] *)
Definition index_begin (ix : KeyIndex) (partition : Z) (s : State) : State * option Z :=
  if ((0 <? untracked_writers s) || (quota ix <? 4) || (max_entries ix <=? Z.of_nat (size (entries s))) ||
      bool_decide (is_Some (entries s !! partition)))%bool then (s, None)
  else if any_writer (fun w => in_range (w_range w) partition) s then (s, None)
  else
    let s := bump_serial s in
    (set_entries (<[partition := mkEntry (serial s) None]> (entries s)) s, Some (serial s)).

(** [KeyIndex::finish] *)
Definition index_finish (partition token : Z) (filters : option Filters) (s : State) : State :=
  match entries s !! partition with
  | None => s
  | Some e =>
      if negb (e_token e =? token) then s
      else
        match filters with
        | Some f => set_entries (<[partition := mkEntry token (Some f)]> (entries s)) s
        | None => set_entries (delete partition (entries s)) s
        end
  end.

(** ** Signature filters *)

Definition clear_signatures (s : State) : State := set_signatures ∅ (bump_serial s).
Definition evict_signatures (ix : KeyIndex) (floor : Z) (s : State) : State :=
  set_signatures (filter (fun e => floor / width ix <= fst e) (signatures s)) s.

(** The first critical section of [ensure_signature_partition]. *)
Inductive EnsureStart :=
| EnsureNone
| EnsureToken (token : Z)
| EnsureAllocate (serial : Z).

Definition ensure_start (ix : KeyIndex) (partition : Z) (s : State) : EnsureStart :=
  if any_writer (fun w => negb (w_signature_update w) && in_range (w_range w) partition)%bool s then EnsureNone
  else
    match signatures s !! partition with
    | Some e => EnsureToken (se_token e)
    | None =>
        if ((max_entries ix <=? Z.of_nat (size (signatures s))) || (0 <? untracked_writers s))%bool then EnsureNone
        else EnsureAllocate (serial s)
    end.

(** Its second critical section, with the bitmap allocated and [empty()] evaluated between. *)
Definition ensure_publish (partition serial0 : Z) (bloom : Bloom) (complete : bool) (s : State) : State * option Z :=
  if negb ((serial s =? serial0) && (untracked_writers s =? 0))%bool then (s, None)
  else
    let s := bump_serial s in
    (set_signatures (<[partition := mkSigEntry (serial s) bloom complete]> (signatures s)) s, Some (serial s)).

Record SignatureCandidates := mkCandidates {
  candidate_partitions : list Z;
  candidate_total : Z;
  unknown_partitions : list Z;
}.

(** One turn of [signature_candidates]. *)
Definition candidate_step (h : SignatureHash) (s : State) (acc : SignatureCandidates) (partition : Z) : SignatureCandidates :=
  let total := candidate_total acc + 1 in
  let known :=
    match signatures s !! partition with
    | Some e => if (se_complete e && negb (any_writer (repairing partition) s))%bool then Some e else None
    | None => None
    end in
  match known with
  | Some e =>
      mkCandidates (if bloom_contains h (se_bloom e) then candidate_partitions acc ++ [partition]
                    else candidate_partitions acc) total (unknown_partitions acc)
  | None => mkCandidates (candidate_partitions acc ++ [partition]) total (unknown_partitions acc ++ [partition])
  end.

(** [(floor..=tip).rev()] *)
Definition partitions_down (floor tip : Z) : list Z := rev (seqZ floor (tip - floor + 1)).

(** [KeyIndex::signature_candidates] *)
Definition signature_candidates (floor tip : Z) (h : SignatureHash) (s : State) : SignatureCandidates :=
  foldl (candidate_step h s) (mkCandidates [] 0 []) (partitions_down floor tip).

(** The loop of [insert_signature_hashes] over its batch; [false] is the error, which keeps
    what was set before it. *)
Fixpoint insert_batch (ix : KeyIndex) (tokens : gmap Z Z) (batch : list (Z * SignatureHash)) (s : State) : State * bool :=
  match batch with
  | [] => (s, true)
  | (slot, h) :: rest =>
      let partition := slot / width ix in
      match signatures s !! partition with
      | Some e =>
          if bool_decide (tokens !! partition = Some (se_token e)) then
            insert_batch ix tokens rest
              (set_signatures (<[partition := mkSigEntry (se_token e) (bloom_insert h (se_bloom e)) (se_complete e)]>
                                 (signatures s)) s)
          else (s, false)
      | None => (s, false)
      end
  end.

(** [KeyIndex::signature_generation_matches] *)
Definition signature_generation_matches (partition token : Z) (s : State) : bool :=
  match signatures s !! partition with Some e => se_token e =? token | None => false end.

(** [KeyIndex::insert_signature_hashes] *)
Definition insert_signature_hashes (ix : KeyIndex) (tokens : gmap Z Z) (batch : list (Z * SignatureHash)) (s : State) :
    State * bool :=
  if forallb (fun e => signature_generation_matches (fst e) (snd e) s) (map_to_list tokens)
  then insert_batch ix tokens batch s
  else (s, false).

(** [KeyIndex::finish_signature_build] *)
Definition finish_signature_build (partition token : Z) (s : State) : State * bool :=
  match signatures s !! partition with
  | Some e =>
      if se_token e =? token
      then (set_signatures (<[partition := mkSigEntry (se_token e) (se_bloom e) true]> (signatures s)) s, true)
      else (s, false)
  | None => (s, false)
  end.

(** [KeyIndex::signature_complete] *)
Definition signature_complete (partition : Z) (s : State) : bool :=
  match signatures s !! partition with Some e => se_complete e | None => false end.

(** [KeyIndex::signature_completeness] *)
Definition signature_completeness (floor tip : Z) (s : State) : Z * Z :=
  let ready := zlen (List.filter (fun e =>
                 (in_range (floor, tip) (fst e) && se_complete (snd e) && negb (any_writer (repairing (fst e)) s))%bool)
                 (map_to_list (signatures s))) in
  (ready, sat_sub (tip - floor + 1) ready).

(** ** Bloom filters have no false negatives *)

Definition bloom_ok (b : Bloom) : Prop := bits b <> [].

Lemma with_hashes_ok bytes n reserved b : 0 <= bytes -> with_hashes bytes n reserved = Some b -> bloom_ok b.
Proof.
  unfold with_hashes, bloom_ok. intros Hb. destruct (Z.eqb_spec bytes 0); [done|].
  destruct reserved; [|done]. intros [= <-]. cbn. destruct (Z.to_nat bytes) eqn:E; [lia|done].
Qed.

Lemma set_bit_length l bit : length (set_bit l bit) = length l.
Proof. apply length_alter. Qed.

Lemma foldl_set_bit_length ps l : length (foldl set_bit l ps) = length l.
Proof. revert l. induction ps as [|p ps IH]; intros l; simpl; [done|]. by rewrite IH, set_bit_length. Qed.

Lemma land_bit_nonzero x k : 0 <= k -> (Z.land x (Z.shiftl 1 k) =? 0) = negb (Z.testbit x k).
Proof.
  intros Hk. rewrite Z.shiftl_1_l. destruct (Z.testbit x k) eqn:E; simpl.
  - apply Z.eqb_neq. intros H. apply (f_equal (fun z => Z.testbit z k)) in H.
    rewrite Z.land_spec, Z.pow2_bits_true, E, Z.bits_0 in H by done. done.
  - apply Z.eqb_eq. apply Z.bits_inj_0. intros n. rewrite Z.land_spec. destruct (decide (n = k)) as [->|Hn].
    + by rewrite E.
    + rewrite Z.pow2_bits_false by done. apply andb_false_r.
Qed.

Lemma test_bit_spec l bit : test_bit l bit = Z.testbit (nth (Z.to_nat (bit / 8)) l 0) (bit mod 8).
Proof. unfold test_bit. rewrite land_bit_nonzero by (apply Z.mod_pos_bound; lia). apply negb_involutive. Qed.

Lemma nth_alter {A} (f : A -> A) i j (l : list A) d :
  nth j (alter f i l) d = if decide (i = j /\ (j < length l)%nat) then f (nth j l d) else nth j l d.
Proof.
  rewrite !nth_lookup. destruct (decide (i = j)) as [->|Hij].
  - rewrite list_lookup_alter_eq. destruct (l !! j) as [x|] eqn:E; simpl.
    + apply lookup_lt_Some in E. by rewrite decide_True.
    + apply lookup_ge_None in E. rewrite decide_False; [done|lia].
  - rewrite list_lookup_alter_ne by done. by rewrite decide_False by tauto.
Qed.

Lemma test_set_bit l bit bit' :
  0 <= bit -> 0 <= bit' < zlen l * 8 -> test_bit (set_bit l bit) bit' = true <-> bit = bit' \/ test_bit l bit' = true.
Proof.
  intros Hp Hb. rewrite !test_bit_spec. unfold set_bit. rewrite nth_alter.
  pose proof (Z.mod_pos_bound bit' 8 ltac:(lia)). pose proof (Z.mod_pos_bound bit 8 ltac:(lia)).
  pose proof (Z.div_mod bit' 8 ltac:(lia)). pose proof (Z.div_mod bit 8 ltac:(lia)).
  assert (Hlen : (Z.to_nat (bit' / 8) < length l)%nat) by (unfold zlen in Hb; lia).
  destruct (decide (bit = bit')) as [->|Hne].
  { destruct (decide _) as [_|Hn]; [|tauto]. rewrite Z.lor_spec, Z.shiftl_1_l. rewrite Z.pow2_bits_true by lia. rewrite orb_true_r. tauto. }
  destruct (decide _) as [[E _]|_]; [|tauto].
  rewrite Z.lor_spec, Z.shiftl_1_l. rewrite Z.pow2_bits_false, orb_false_r; [tauto|].
  intros Em. apply Hne. lia.
Qed.

Lemma test_fold_bits ps l bit' :
  Forall (Z.le 0) ps -> 0 <= bit' < zlen l * 8 -> test_bit (foldl set_bit l ps) bit' = true <-> bit' ∈ ps \/ test_bit l bit' = true.
Proof.
  revert l. induction ps as [|p ps IH]; intros l Hp Hb; simpl; [by set_solver|].
  apply Forall_cons in Hp as [Hp Hps]. rewrite IH; [|done|by (unfold zlen in *; rewrite set_bit_length)].
  rewrite test_set_bit by done. set_solver.
Qed.

Lemma positions_insert h h' b : hash_positions (bloom_insert h b) h' = hash_positions b h'.
Proof. unfold hash_positions, bloom_insert, zlen. cbn. by rewrite foldl_set_bit_length. Qed.

Lemma position_bound b h bit : bloom_ok b -> bit ∈ hash_positions b h -> 0 <= bit < zlen (bits b) * 8.
Proof.
  intros Hok (i & -> & _)%list_elem_of_fmap. apply Z.mod_pos_bound. unfold bloom_ok in Hok. unfold zlen.
  destruct (bits b); [done|simpl; lia].
Qed.

Lemma positions_nonneg b h : bloom_ok b -> Forall (Z.le 0) (hash_positions b h).
Proof. intros Hok. apply Forall_forall. intros bit Hb. apply (position_bound b h bit Hok) in Hb. lia. Qed.

Lemma bloom_contains_spec h b : bloom_contains h b = true <-> Forall (fun bit => test_bit (bits b) bit = true) (hash_positions b h).
Proof. unfold bloom_contains. rewrite forallb_forall, Forall_forall. split; intros H x Hx; apply H; by apply list_elem_of_In. Qed.

Lemma bloom_insert_ok h b : bloom_ok b -> bloom_ok (bloom_insert h b).
Proof.
  unfold bloom_ok. cbn. intros Hok E. apply (f_equal length) in E. rewrite foldl_set_bit_length in E. by destruct (bits b).
Qed.

(** What was inserted is reported. *)
Lemma bloom_insert_contains h b : bloom_ok b -> bloom_contains h (bloom_insert h b) = true.
Proof.
  intros Hok. apply bloom_contains_spec. rewrite positions_insert. apply Forall_forall. intros bit Hb. cbn.
  apply test_fold_bits; [by apply positions_nonneg|by eapply position_bound|by left].
Qed.

(** What is reported stays reported. *)
Lemma bloom_insert_mono h h' b : bloom_ok b -> bloom_contains h' b = true -> bloom_contains h' (bloom_insert h b) = true.
Proof.
  intros Hok. rewrite !bloom_contains_spec, positions_insert, !Forall_forall. intros H bit Hb. cbn.
  apply test_fold_bits; [by apply positions_nonneg|by eapply position_bound|right; by apply H].
Qed.
