(* ===== verification/KeyTasks.v ===== *)
(** * KeyTasks: who changes the membership filters, and in which order

    Models the tasks that run around the critical sections of [KeyIndex]: the fills of the
    forwarder ([DiskCache::begin_fill], [update_signature_membership],
    [publish_range_coverage]), the background builders ([build_signature_partition],
    [build_address_partition]), [poison_slot], [evict_below] and [refresh_schema] of
    [disk_cache/mod.rs].  A task is its program point with the local values it holds; a
    step is one critical section or one statement on a local table, so the reachable
    states are those of all interleavings.

    A task may end at any point, as every future of the source can be dropped or fail; its
    guard is then dropped with it.  The forwarder is one loop: its fills of a round run
    together, over disjoint ranges, and eviction and schema rebuilds run between rounds.
    The local tables are the list of their key rows and, for the coverage table, the latest
    status per slot; versions are taken from a clock that does not run backwards.  The
    allocation mutex of [ensure_signature_partition] is left out: more interleavings are
    considered than the source has. *)

From S2P Require Import Prelude BTree CoverageMap KeyIndex.

Open Scope Z_scope.

(** [SlotStatus] *)
Inductive SlotStatus :=
| Covered (tx_count : Z)
| Skipped
| NotCovered.

(** A row of a local key table: the signatures, or the keys of an address family. *)
Inductive Table := SignatureTable | KeyTable (family : Family).
Record Row := mkRow { r_slot : Z; r_table : Table; r_key : list Z }.

(** The progress of one [ensure_signature_partition] call. *)
Inductive Ensuring :=
| EnsureCheck
| EnsureAlloc (serial0 : Z)
| EnsureReady (serial0 : Z) (bloom : Bloom) (complete : bool).

(** The program points of [fill_range], from [begin_fill] on. *)
Inductive FillPhase :=
| FillChecked (repair : bool)
| FillInvalidated (repair : bool)
| FillBegun (id : option Z) (repair : bool)
| FillWriting (id : option Z) (repair : bool)
| FillEnsuring (id : option Z) (repair : bool) (tokens : gmap Z Z) (next : Z) (e : Ensuring)
| FillScanning (id : option Z) (repair : bool) (tokens : gmap Z Z) (seen pending : list (Z * list Z))
| FillScanned (id : option Z) (repair : bool)
| FillUpdated (id : option Z) (repair success : bool)
| FillPersisted (id : option Z) (repair success : bool) (slots : list Z)
| FillPublished (id : option Z) (repair success : bool).

Inductive BuildPhase :=
| BuildEnsuring (e : Ensuring)
| BuildEnsured (token : Z)
| BuildScanning (token : Z) (seen pending : list (Z * list Z))
| BuildScanned (token : Z) (seen : list (Z * list Z)).

(** The three tasks that take rows or coverage away; [None] before their mutation. *)
Inductive Task :=
| Fill (start end_ : Z) (phase : FillPhase)
| Build (partition : Z) (phase : BuildPhase)
| AddressBuild (partition token : Z) (filters : Filters) (todo : list Family)
| Poison (slot : Z) (id : option (option Z))
| Evict (floor : Z) (id : option (option Z))
| Refresh (id : option (option Z)) (cleared : bool).

Record System := mkSystem {
  index : State;
  rows : list Row;
  persisted : gmap Z SlotStatus;
  coverage : CoverageMap;
  tasks : gmap Z Task;
}.

(** [DiskCache::open], for a local database with these tables. *)
Definition system_open (rows : list Row) (persisted : gmap Z SlotStatus) (coverage : CoverageMap) : System :=
  mkSystem state_default rows persisted coverage ∅.

Definition set_index (s : State) (y : System) : System :=
  mkSystem s (rows y) (persisted y) (coverage y) (tasks y).
Definition set_task (n : Z) (t : Task) (y : System) : System :=
  mkSystem (index y) (rows y) (persisted y) (coverage y) (<[n := t]> (tasks y)).
Definition set_rows (r : list Row) (y : System) : System :=
  mkSystem (index y) r (persisted y) (coverage y) (tasks y).
Definition set_persisted (m : gmap Z SlotStatus) (y : System) : System :=
  mkSystem (index y) (rows y) m (coverage y) (tasks y).
Definition set_coverage (m : CoverageMap) (y : System) : System :=
  mkSystem (index y) (rows y) (persisted y) m (tasks y).

(** [reload_coverage] *)
Definition served (status : SlotStatus) : bool := match status with NotCovered => false | _ => true end.
Definition reloaded_coverage (m : gmap Z SlotStatus) : CoverageMap :=
  foldl (fun c e => if served (snd e) then insert_slot (fst e) c else c) coverage_new (map_to_list m).

(** ** The guard a task holds *)

Definition phase_guard (phase : FillPhase) : option (option Z) :=
  match phase with
  | FillChecked _ | FillInvalidated _ => None
  | FillBegun id _ | FillWriting id _ | FillEnsuring id _ _ _ _ | FillScanning id _ _ _ _ | FillScanned id _
  | FillUpdated id _ _ | FillPersisted id _ _ _ | FillPublished id _ _ => Some id
  end.

Definition guard_of (t : Task) : option (option Z) :=
  match t with
  | Fill _ _ phase => phase_guard phase
  | Poison _ id | Evict _ id | Refresh id _ => id
  | Build _ _ | AddressBuild _ _ _ _ => None
  end.

(** The end of a task: its guard, if taken, is dropped. *)
Definition end_task (n : Z) (y : System) : System :=
  mkSystem (match tasks y !! n with
            | Some t => match guard_of t with Some id => drop_mutation id (index y) | None => index y end
            | None => index y end)
    (rows y) (persisted y) (coverage y) (delete n (tasks y)).

Definition is_fill (t : Task) : bool := match t with Fill _ _ _ => true | _ => false end.
(** Tasks of the forwarder's loop that never run beside its fills. *)
Definition is_maintenance (t : Task) : bool := match t with Evict _ _ | Refresh _ _ => true | _ => false end.

(** ** Ensuring a partition and scanning keys *)

Section Index.
Context (ix : KeyIndex) (blake3 : list Z -> list Z).

(** [signature_partition]'s [empty] closure. *)
Definition partition_empty (partition : Z) (m : CoverageMap) : bool :=
  let floor := sat_mul partition (width ix) in
  negb (intersects floor (sat_add floor (width ix - 1)) m).

(** One critical section of [ensure_signature_partition], or the allocation between them:
    it goes on, or it returns.  [reserved] is the outcome of the allocation. *)
Definition ensure_next (reserved : bool) (partition : Z) (m : CoverageMap) (e : Ensuring) (s : State) :
    State * (Ensuring + option Z) :=
  match e with
  | EnsureCheck =>
      match ensure_start ix partition s with
      | EnsureNone => (s, inr None)
      | EnsureToken token => (s, inr (Some token))
      | EnsureAllocate serial0 => (s, inl (EnsureAlloc serial0))
      end
  | EnsureAlloc serial0 =>
      match with_hashes (signature_quota ix) SIGNATURE_HASHES reserved with
      | None => (s, inr None)
      | Some bloom => (s, inl (EnsureReady serial0 bloom (partition_empty partition m)))
      end
  | EnsureReady serial0 bloom complete =>
      let (s, token) := ensure_publish partition serial0 bloom complete s in (s, inr token)
  end.

(** The rows a signature scan streams, and their hashes. *)
Definition signature_row (in_scope : Z -> bool) (r : Row) : option (Z * list Z) :=
  match r_table r with SignatureTable => if in_scope (r_slot r) then Some (r_slot r, r_key r) else None | KeyTable _ => None end.
Definition signature_scan (in_scope : Z -> bool) (l : list Row) : list (Z * list Z) := omap (signature_row in_scope) l.
Definition hashed (l : list (Z * list Z)) : list (Z * SignatureHash) := map (fun r => (fst r, hash_of blake3 (snd r))) l.

Definition UPDATE_BATCH : nat := 128.

(** The filter of one family of a partition: [Bloom::new] with the keys inserted. *)
Definition family_keys (partition : Z) (family : Family) (l : list Row) : list (list Z) :=
  omap (fun r => match r_table r, family with
                 | KeyTable Address, Address | KeyTable HotAddress, HotAddress | KeyTable Owner, Owner =>
                     if r_slot r / width ix =? partition then Some (r_key r) else None
                 | _, _ => None
                 end) l.
Definition family_filter (bytes n : Z) (reserved : bool) (keys : list (list Z)) : option Bloom :=
  (fun bloom => foldl (fun b key => bloom_insert (hash_of blake3 key) b) bloom keys) <$> with_hashes bytes n reserved.
Definition set_family (family : Family) (b : option Bloom) (f : Filters) : Filters :=
  match family with
  | Address => mkFilters b (f_hot f) (f_owner f)
  | HotAddress => mkFilters (f_address f) b (f_owner f)
  | Owner => mkFilters (f_address f) (f_hot f) b
  end.

(** ** Steps *)

(** What one step of a task does to the system, given the task's new program point:
    [task_step n t y t' y'] leaves the task table to the caller. *)
Inductive task_step : Task -> System -> Task -> System -> Prop :=
(* begin_fill *)
| StepFillInvalidate start end_ repair y :
    task_step (Fill start end_ (FillChecked repair)) y (Fill start end_ (FillInvalidated repair))
      (set_index (if repair then invalidate_reads (index y) else index y) y)
| StepFillBegin start end_ repair y s id :
    mutation ix start end_ (index y) = (s, id) ->
    task_step (Fill start end_ (FillInvalidated repair)) y (Fill start end_ (FillBegun id repair)) (set_index s y)
| StepFillMark start end_ id repair y :
    task_step (Fill start end_ (FillBegun id repair)) y (Fill start end_ (FillWriting id repair))
      (set_index (signature_fill id repair (index y)) y)
(* native_forward, whole or in part *)
| StepFillWrite start end_ id repair new y :
    Forall (fun r => start <= r_slot r <= end_) new ->
    task_step (Fill start end_ (FillWriting id repair)) y (Fill start end_ (FillWriting id repair))
      (set_rows (new ++ rows y) y)
(* update_signature_range *)
| StepFillUpdate start end_ id repair y :
    task_step (Fill start end_ (FillWriting id repair)) y
      (Fill start end_ (FillEnsuring id repair ∅ (start / width ix) EnsureCheck)) y
| StepFillEnsure start end_ id repair tokens next e e' reserved y s :
    next <= end_ / width ix ->
    ensure_next reserved next (coverage y) e (index y) = (s, inl e') ->
    task_step (Fill start end_ (FillEnsuring id repair tokens next e)) y
      (Fill start end_ (FillEnsuring id repair tokens next e')) (set_index s y)
| StepFillEnsured start end_ id repair tokens next e token reserved y s :
    next <= end_ / width ix ->
    ensure_next reserved next (coverage y) e (index y) = (s, inr (Some token)) ->
    task_step (Fill start end_ (FillEnsuring id repair tokens next e)) y
      (Fill start end_ (FillEnsuring id repair (<[next := token]> tokens) (next + 1) EnsureCheck)) (set_index s y)
| StepFillScan start end_ id repair tokens next y :
    end_ / width ix < next ->
    task_step (Fill start end_ (FillEnsuring id repair tokens next EnsureCheck)) y
      (Fill start end_ (FillScanning id repair tokens []
         (signature_scan (in_range (start, end_)) (rows y)))) y
| StepFillBatch start end_ id repair tokens seen batch pending y s :
    length batch = UPDATE_BATCH ->
    insert_signature_hashes ix tokens (hashed batch) (index y) = (s, true) ->
    task_step (Fill start end_ (FillScanning id repair tokens seen (batch ++ pending))) y
      (Fill start end_ (FillScanning id repair tokens (seen ++ batch) pending)) (set_index s y)
| StepFillScanned start end_ id repair tokens seen batch y s :
    (length batch < UPDATE_BATCH)%nat ->
    insert_signature_hashes ix tokens (hashed batch) (index y) = (s, true) ->
    task_step (Fill start end_ (FillScanning id repair tokens seen batch)) y
      (Fill start end_ (FillScanned id repair)) (set_index s y)
(* finish_signatures: after the scan, or after an error or a timeout; a failed batch may
   have set some bits *)
| StepFillFinish start end_ id repair y :
    task_step (Fill start end_ (FillScanned id repair)) y (Fill start end_ (FillUpdated id repair true))
      (set_index (finish_signatures id true (index y)) y)
| StepFillBatchError start end_ id repair tokens seen batch pending y s :
    (length batch <= UPDATE_BATCH)%nat ->
    insert_signature_hashes ix tokens (hashed batch) (index y) = (s, false) ->
    task_step (Fill start end_ (FillScanning id repair tokens seen (batch ++ pending))) y
      (Fill start end_ (FillUpdated id repair false)) (set_index (finish_signatures id false s) y)
| StepFillFail start end_ id repair phase y :
    (exists tokens next e, phase = FillEnsuring id repair tokens next e) \/
    (exists tokens seen pending, phase = FillScanning id repair tokens seen pending) ->
    task_step (Fill start end_ phase) y (Fill start end_ (FillUpdated id repair false))
      (set_index (finish_signatures id false (index y)) y)
(* publish_range_coverage: the table, then the map *)
| StepFillPersist start end_ id repair success statuses y :
    Forall (fun e => start <= fst e <= end_ /\ snd e <> NotCovered) statuses ->
    task_step (Fill start end_ (FillUpdated id repair success)) y
      (Fill start end_ (FillPersisted id repair success (map fst statuses)))
      (set_persisted (foldl (fun m e => <[fst e := snd e]> m) (persisted y) statuses) y)
| StepFillPublish start end_ id repair success slots y :
    task_step (Fill start end_ (FillPersisted id repair success slots)) y
      (Fill start end_ (FillPublished id repair success))
      (set_coverage (foldl (fun m slot => insert_slot slot m) (coverage y) slots) y)
(* build_signature_partition *)
| StepBuildEnsure p e e' reserved y s :
    ensure_next reserved p (coverage y) e (index y) = (s, inl e') ->
    task_step (Build p (BuildEnsuring e)) y (Build p (BuildEnsuring e')) (set_index s y)
| StepBuildScan p e token reserved y s :
    ensure_next reserved p (coverage y) e (index y) = (s, inr (Some token)) ->
    task_step (Build p (BuildEnsuring e)) y (Build p (BuildEnsured token)) (set_index s y)
| StepBuildRead p token y :
    task_step (Build p (BuildEnsured token)) y
      (Build p (BuildScanning token [] (signature_scan (fun slot => slot / width ix =? p) (rows y)))) y
| StepBuildBatch p token seen batch pending y s :
    length batch = UPDATE_BATCH ->
    insert_signature_hashes ix {[p := token]} (hashed batch) (index y) = (s, true) ->
    task_step (Build p (BuildScanning token seen (batch ++ pending))) y
      (Build p (BuildScanning token (seen ++ batch) pending)) (set_index s y)
| StepBuildScanned p token seen batch y s :
    (length batch < UPDATE_BATCH)%nat ->
    insert_signature_hashes ix {[p := token]} (hashed batch) (index y) = (s, true) ->
    task_step (Build p (BuildScanning token seen batch)) y (Build p (BuildScanned token (seen ++ batch))) (set_index s y)
| StepBuildFinish p token seen y s ok :
    finish_signature_build p token (index y) = (s, ok) ->
    task_step (Build p (BuildScanned token seen)) y (Build p (BuildEnsuring EnsureCheck)) (set_index s y)
(* build_partition_filters, family by family: without a table or without memory the
   family has no filter *)
| StepAddressFamily p token filters family todo bytes n reserved y :
    0 <= bytes ->
    task_step (AddressBuild p token filters (family :: todo)) y
      (AddressBuild p token (set_family family (family_filter bytes n reserved (family_keys p family (rows y))) filters) todo) y
(* poison_slot *)
| StepPoisonInvalidate slot y :
    task_step (Poison slot None) y (Poison slot None) (set_index (invalidate_reads (index y)) y)
| StepPoisonBegin slot y s id :
    mutation ix slot slot (index y) = (s, id) ->
    task_step (Poison slot None) y (Poison slot (Some id)) (set_index s y)
| StepPoisonRemove slot id y :
    task_step (Poison slot (Some id)) y (Poison slot (Some id)) (set_coverage (remove_slot slot (coverage y)) y)
| StepPoisonPersist slot id y :
    task_step (Poison slot (Some id)) y (Poison slot (Some id)) (set_persisted (<[slot := NotCovered]> (persisted y)) y)
(* evict_below *)
| StepEvictInvalidate floor safe y :
    task_step (Evict floor None) y (Evict floor None) (set_index (invalidate_for_eviction safe (index y)) y)
| StepEvictBegin floor y s id :
    mutation ix 0 (floor - 1) (index y) = (s, id) ->
    task_step (Evict floor None) y (Evict floor (Some id)) (set_index s y)
| StepEvictRows floor id keep y :
    (forall r, keep r = false -> r_slot r / width ix < floor / width ix) ->
    task_step (Evict floor (Some id)) y (Evict floor (Some id)) (set_rows (List.filter keep (rows y)) y)
| StepEvictPersisted floor id (dropped : list Z) y :
    Forall (fun slot => 0 <= slot /\ slot / width ix < floor / width ix) dropped ->
    task_step (Evict floor (Some id)) y (Evict floor (Some id))
      (set_persisted (foldl (fun m slot => delete slot m) (persisted y) dropped) y)
| StepEvictSignatures floor id y :
    task_step (Evict floor (Some id)) y (Evict floor (Some id)) (set_index (evict_signatures ix floor (index y)) y)
| StepEvictCoverage floor id y :
    task_step (Evict floor (Some id)) y (Evict floor (Some id)) (set_coverage (remove_below floor (coverage y)) y)
(* refresh_schema with a changed fingerprint *)
| StepRefreshInvalidate y :
    task_step (Refresh None false) y (Refresh None false) (set_index (invalidate_reads (index y)) y)
| StepRefreshBegin y s id :
    mutation ix 0 u64_max (index y) = (s, id) ->
    task_step (Refresh None false) y (Refresh (Some id) false) (set_index s y)
| StepRefreshClear id y :
    task_step (Refresh (Some id) false) y (Refresh (Some id) true) (set_index (clear_signatures (index y)) y)
| StepRefreshTables id new_rows new_persisted y :
    Forall (fun r => is_u64 (r_slot r)) new_rows -> map_Forall (fun slot _ => is_u64 slot) new_persisted ->
    task_step (Refresh (Some id) true) y (Refresh (Some id) true) (set_persisted new_persisted (set_rows new_rows y))
| StepRefreshReload id y :
    task_step (Refresh (Some id) true) y (Refresh (Some id) true) (set_coverage (reloaded_coverage (persisted y)) y).

Definition no_task (p : Task -> bool) (y : System) : Prop := forall n t, tasks y !! n = Some t -> p t = false.

(** The fills of a round have disjoint ranges. *)
Definition apart_from_fills (start end_ : Z) (y : System) : Prop :=
  forall n a b phase, tasks y !! n = Some (Fill a b phase) -> end_ < a \/ b < start.

Inductive step (y : System) : System -> Prop :=
| StepTask n t t' y' :
    tasks y !! n = Some t -> task_step t y t' y' -> step y (set_task n t' y')
| StepEnd n : step y (end_task n y)
| StepAddressEnd n p token filters :
    tasks y !! n = Some (AddressBuild p token filters []) ->
    step y (end_task n (set_index (index_finish p token (Some filters) (index y)) y))
| StepAddressFail n p token filters todo :
    tasks y !! n = Some (AddressBuild p token filters todo) ->
    step y (end_task n (set_index (index_finish p token None (index y)) y))
| StepFillStart n start end_ :
    tasks y !! n = None -> is_u64 start -> is_u64 end_ -> start <= end_ ->
    no_task is_maintenance y -> apart_from_fills start end_ y ->
    step y (set_task n (Fill start end_ (FillChecked (intersects start end_ (coverage y)))) y)
| StepBuildStart n p :
    tasks y !! n = None -> 0 <= p <= u64_max / width ix ->
    step y (set_task n (Build p (BuildEnsuring EnsureCheck)) y)
| StepAddressStart n p s token :
    tasks y !! n = None -> index_begin ix p (index y) = (s, Some token) ->
    step y (set_task n (AddressBuild p token (mkFilters None None None) [Address; HotAddress; Owner]) (set_index s y))
| StepPoisonStart n slot :
    tasks y !! n = None -> is_u64 slot -> step y (set_task n (Poison slot None) y)
| StepEvictStart n floor :
    tasks y !! n = None -> 0 < floor <= u64_max -> no_task is_fill y -> step y (set_task n (Evict floor None) y)
| StepRefreshStart n :
    tasks y !! n = None -> no_task is_fill y -> step y (set_task n (Refresh None false) y).

(** A fill between the end of its scan and the end of its guard. *)
Definition scanned (t : Task) : bool :=
  match t with
  | Fill _ _ (FillScanned _ _) | Fill _ _ (FillUpdated _ _ true) | Fill _ _ (FillPersisted _ _ true _)
  | Fill _ _ (FillPublished _ _ true) => true
  | _ => false
  end.

(** A step at which no writer beyond the tracking limit starts beside such a fill. *)
Definition calm_step (y y' : System) : Prop :=
  step y y' /\ (untracked_writers (index y) < untracked_writers (index y') -> no_task scanned y).

End Index.
