(* ===== verification/KeyFacts.v ===== *)
(** * KeyFacts: what a critical section of the key index may do

    [evolves] is the discipline all critical sections keep: counters never decrease, an
    entry of a signature filter afterwards is of the same generation with no bit lost, or
    of a new generation.  [calmly] adds that no entry became complete. *)

From S2P Require Import Prelude BTree CoverageMap KeyIndex KeyTasks.

Open Scope Z_scope.

Definition grows (e e' : SignatureEntry) : Prop :=
  bloom_ok (se_bloom e') /\ forall h, bloom_contains h (se_bloom e) = true -> bloom_contains h (se_bloom e') = true.

(** Where the serial did not move, no entry and no covering writer appeared. *)
Record still (s s' : State) : Prop := {
  st_sig : forall p, signatures s !! p = None -> signatures s' !! p = None;
  st_untracked : untracked_writers s = 0 -> untracked_writers s' = 0;
  st_writers : forall id w', writers s' !! id = Some w' -> exists w, writers s !! id = Some w /\
    w_range w' = w_range w /\ (w_signature_update w = true -> w_signature_update w' = true);
}.

Definition same_generation (s : State) (p : Z) (e' : SignatureEntry) : Prop :=
  exists e, signatures s !! p = Some e /\ se_token e' = se_token e /\ grows e e' /\
    (se_complete e' = true -> se_complete e = true).

Definition new_generation (s s' : State) (e' : SignatureEntry) : Prop :=
  serial s < se_token e' <= serial s' /\ bloom_ok (se_bloom e') /\ se_complete e' = false.

(** An operation that completes no entry. *)
Record calmly (s s' : State) : Prop := {
  ca_serial : serial s <= serial s';
  ca_still : serial s = serial s' -> still s s';
  ca_sig : forall p e', signatures s' !! p = Some e' -> same_generation s p e' \/ new_generation s s' e';
}.

Definition blooms_ok (s : State) : Prop := forall p e, signatures s !! p = Some e -> bloom_ok (se_bloom e).

Lemma grows_refl e : bloom_ok (se_bloom e) -> grows e e.
Proof. by split. Qed.

Lemma same_generation_refl s p e : blooms_ok s -> signatures s !! p = Some e -> same_generation s p e.
Proof. intros Hb He. exists e. split_and!; [done..|by apply grows_refl, (Hb p)|done]. Qed.

Lemma still_refl s : still s s.
Proof. split; [done|done|]. intros id w Hw. by exists w. Qed.

Lemma still_same s s' :
  signatures s' = signatures s -> untracked_writers s' = untracked_writers s -> writers s' = writers s -> still s s'.
Proof. intros E1 E2 E3. split; [by rewrite E1|by rewrite E2|]. rewrite E3. intros id w Hw. by exists w. Qed.

Lemma calmly_same s s' :
  blooms_ok s -> signatures s' = signatures s -> serial s <= serial s' ->
  (serial s = serial s' -> still s s') -> calmly s s'.
Proof. intros Hb Es Hs Ht. split; [done|done|]. rewrite Es. intros p e He. left. by apply same_generation_refl. Qed.

Lemma calmly_refl s : blooms_ok s -> calmly s s.
Proof. intros. apply calmly_same; [done|done|lia|]. intros _. apply still_refl. Qed.

Lemma same_generation_trans s1 s2 p e2 e3 :
  same_generation s1 p e2 -> signatures s2 !! p = Some e2 -> same_generation s2 p e3 -> same_generation s1 p e3.
Proof.
  intros (e1 & H1 & T1 & [B1 G1] & C1) H2 (e2' & H2' & T2 & [B2 G2] & C2). assert (e2' = e2) as -> by congruence.
  exists e1. split_and!; [done|congruence| |auto]. split; [done|]. intros h Hh. by apply G2, G1.
Qed.

Lemma calmly_trans s1 s2 s3 : calmly s1 s2 -> calmly s2 s3 -> calmly s1 s3.
Proof.
  intros H12 H23. pose proof (ca_serial _ _ H12). pose proof (ca_serial _ _ H23). split; [lia| |].
  - intros E. destruct (ca_still _ _ H12 ltac:(lia)) as [A1 U1 W1]. destruct (ca_still _ _ H23 ltac:(lia)) as [A2 U2 W2].
    assert (H2 : forall id w3, writers s3 !! id = Some w3 -> exists w1, writers s1 !! id = Some w1 /\
      w_range w3 = w_range w1 /\ (w_signature_update w1 = true -> w_signature_update w3 = true)).
    { intros id w3 Hw. destruct (W2 id w3 Hw) as (w2 & H2 & R2 & S2). destruct (W1 id w2 H2) as (w1 & H1 & R1 & S1).
      exists w1. split_and!; [done|congruence|auto]. }
    split; auto.
  - intros p e3 H3. destruct (ca_sig _ _ H23 p e3 H3) as [Hs|(T & B & C)]; [|right; split_and!; [lia..|done|done]].
    pose proof Hs as (e2 & H2 & Et & [B2 _] & C2). destruct (ca_sig _ _ H12 p e2 H2) as [Hs'|(T & B & C)].
    + left. by eapply same_generation_trans.
    + right. split_and!; [lia..|done|]. destruct (se_complete e3); [|done]. rewrite C2 in C by done. done.
Qed.

(** ** Every critical section but two is calm *)

Section Ops.
Context (ix : KeyIndex).

Lemma invalidate_signatures_lookup range s p :
  signatures (invalidate_signatures range s) !! p =
  (fun e => if in_range range p then mkSigEntry (serial s + 1) (se_bloom e) false else e) <$> (signatures s !! p).
Proof. unfold invalidate_signatures. cbn. rewrite map_lookup_imap. by destruct (signatures s !! p). Qed.

Lemma invalidate_signatures_calm range s : blooms_ok s -> calmly s (invalidate_signatures range s).
Proof.
  intros Hb. split; [cbn; lia|cbn; lia|]. intros p e'. rewrite invalidate_signatures_lookup.
  destruct (signatures s !! p) as [e|] eqn:E; [|done]. cbn. pose proof (Hb _ _ E). destruct (in_range range p); intros [= <-].
  - right. split_and!; cbn; [lia|lia|done|done].
  - left. by apply same_generation_refl.
Qed.

Lemma mutation_calm start end_ s s' id : blooms_ok s -> mutation ix start end_ s = (s', id) -> calmly s s'.
Proof.
  intros Hb. unfold mutation. destruct (MAX_WRITERS <=? _); intros [= <- <-].
  - split; cbn; [lia|lia|]. intros p e'. by rewrite lookup_empty.
  - apply calmly_same; [done|by case_match| |]; (destruct (bool_decide _); cbn; lia).
Qed.

Lemma drop_mutation_calm id s : blooms_ok s -> (id = None -> 0 < untracked_writers s) -> calmly s (drop_mutation id s).
Proof.
  intros Hb Hu. destruct id as [id|]; cbn.
  - destruct (writers s !! id) as [w|] eqn:Ew; [|by apply calmly_refl].
    assert (calmly s (set_writers (delete id (writers s)) s)) as H1.
    { apply calmly_same; [done|done|cbn; lia|]. intros _. split; [done|done|]. cbn.
      intros id' w' [_ Hw]%lookup_delete_Some. by exists w'. }
    unfold abandon_update. case_match; [|done]. eapply calmly_trans; [done|]. by apply invalidate_signatures_calm.
  - apply calmly_same; [done|done|cbn; lia|]. intros _. specialize (Hu eq_refl). split; cbn; [done|lia|]. intros id w Hw. by exists w.
Qed.

Lemma set_writer_calm id w w' s :
  blooms_ok s -> writers s !! id = Some w -> w_range w' = w_range w ->
  (w_signature_update w = true -> w_signature_update w' = true) -> calmly s (set_writers (<[id := w']> (writers s)) s).
Proof.
  intros Hb Hw Hr Hs. apply calmly_same; [done|done|cbn; lia|]. intros _. split; [done|done|]. cbn.
  intros id' x [[<- <-]|[_ Hx]]%lookup_insert_Some; [by exists w|by exists x].
Qed.

Lemma signature_fill_calm id repair s : blooms_ok s -> calmly s (signature_fill id repair s).
Proof.
  intros Hb. unfold signature_fill. destruct (writers s !! _) as [w|] eqn:E; [|by apply calmly_refl].
  by apply (set_writer_calm _ w).
Qed.

Lemma finish_signatures_calm id success s : blooms_ok s -> calmly s (finish_signatures id success s).
Proof.
  intros Hb. unfold finish_signatures. destruct (writers s !! _) as [w|] eqn:E; [|by apply calmly_refl].
  match goal with |- context [set_writers ?m s] => assert (calmly s (set_writers m s)) as H1 by by apply (set_writer_calm _ w) end.
  destruct success; [done|]. eapply calmly_trans; [exact H1|]. by apply invalidate_signatures_calm.
Qed.

Lemma invalidate_reads_calm s : blooms_ok s -> calmly s (invalidate_reads s).
Proof. intros Hb. apply calmly_same; [done|done|cbn; lia|]. intros _. by apply still_same. Qed.

Lemma invalidate_for_eviction_calm safe s : blooms_ok s -> calmly s (invalidate_for_eviction safe s).
Proof. intros Hb. destruct safe; apply calmly_same; [done|done|cbn; lia| |done|done|cbn; lia|]; intros _; by apply still_same. Qed.

Lemma index_begin_calm p s s' token : blooms_ok s -> index_begin ix p s = (s', token) -> calmly s s'.
Proof.
  intros Hb. unfold index_begin. do 2 (case_match; [intros [= <- <-]; by apply calmly_refl|]).
  intros [= <- <-]. apply calmly_same; [done|done|cbn; lia|cbn; lia].
Qed.

Lemma index_finish_calm p token filters s : blooms_ok s -> calmly s (index_finish p token filters s).
Proof.
  intros Hb. unfold index_finish. destruct (entries s !! p) as [e|]; [|by apply calmly_refl].
  case_match; [by apply calmly_refl|]. destruct filters; (apply calmly_same; [done|done|cbn; lia|]; intros _; by apply still_same).
Qed.

Lemma clear_signatures_calm s : blooms_ok s -> calmly s (clear_signatures s).
Proof. intros Hb. split; cbn; [lia|lia|]. intros p e'. by rewrite lookup_empty. Qed.

Lemma evict_signatures_calm floor s : blooms_ok s -> calmly s (evict_signatures ix floor s).
Proof.
  intros Hb. split; cbn; [lia| |].
  - intros _. split; [|done|intros id w Hw; by exists w]. cbn. intros p Hp. apply map_lookup_filter_None. by left.
  - intros p e' [He _]%map_lookup_filter_Some. left. by apply same_generation_refl.
Qed.

Lemma insert_batch_spec tokens batch s s' ok :
  blooms_ok s -> insert_batch ix tokens batch s = (s', ok) ->
  calmly s s' /\ serial s' = serial s /\ writers s' = writers s /\ untracked_writers s' = untracked_writers s /\ entries s' = entries s /\
  (forall p, is_Some (signatures s !! p) -> exists e e', signatures s !! p = Some e /\ signatures s' !! p = Some e' /\
     se_token e' = se_token e /\ se_complete e' = se_complete e) /\
  (ok = true -> forall x h e, (x, h) ∈ batch -> signatures s' !! (x / width ix) = Some e -> bloom_contains h (se_bloom e) = true).
Proof.
  revert s. induction batch as [|[x h] rest IH]; intros s Hb; cbn [insert_batch].
  { intros [= <- <-]. split_and!; [by apply calmly_refl|done..| |by intros _ x h e ?%elem_of_nil].
    intros p [e He]. by exists e, e. }
  assert (Hkeep : forall p, is_Some (signatures s !! p) -> exists e e', signatures s !! p = Some e /\ signatures s !! p = Some e' /\
    se_token e' = se_token e /\ se_complete e' = se_complete e) by (intros p [e He]; by exists e, e).
  destruct (signatures s !! (x / width ix)) as [e|] eqn:Ee; [|intros [= <- <-]; split_and!; [by apply calmly_refl|done..]].
  destruct (bool_decide _); [|intros [= <- <-]; split_and!; [by apply calmly_refl|done..]].
  set (e1 := mkSigEntry (se_token e) (bloom_insert h (se_bloom e)) (se_complete e)).
  set (s1 := set_signatures _ s). intros Hrest. pose proof (Hb _ _ Ee) as He.
  assert (Hb1 : blooms_ok s1).
  { intros p e'. unfold s1. cbn. intros [[<- <-]|[_ Hp]]%lookup_insert_Some; [by apply bloom_insert_ok|by eapply Hb]. }
  assert (Hc1 : calmly s s1).
  { split; [cbn; lia| |].
    - intros _. split; [|done|intros id w Hw; by exists w]. cbn. intros p Hp. apply lookup_insert_None. split; [done|]. congruence.
    - intros p e'. unfold s1. cbn. intros [[<- <-]|[_ Hp]]%lookup_insert_Some; [|left; by apply same_generation_refl].
      left. exists e. split_and!; [done|done| |done]. split; [by apply bloom_insert_ok|]. intros h'. by apply bloom_insert_mono. }
  destruct (IH s1 Hb1 Hrest) as (Hc & Es & Ew & Eu & En & Hd & Hin). split_and!; [by eapply calmly_trans|done..| |].
  - intros p Hp. destruct (decide (p = x / width ix)) as [->|Hne].
    + destruct (Hd (x / width ix)) as (a & a' & Ha & Ha' & Et & Ec); [unfold s1; cbn; rewrite lookup_insert_eq; by eexists|].
      unfold s1 in Ha. cbn in Ha. rewrite lookup_insert_eq in Ha. injection Ha as <-. by exists e, a'.
    + destruct (Hd p) as (a & a' & Ha & Ha' & Et & Ec); [unfold s1; cbn; by rewrite lookup_insert_ne|].
      unfold s1 in Ha. cbn in Ha. rewrite lookup_insert_ne in Ha by done. by exists a, a'.
  - intros Hok x' h' e' [[= -> ->]|Hx]%elem_of_cons He'; [|by eapply Hin].
    destruct (ca_sig _ _ Hc _ _ He') as [(a & Ha & _ & [_ Hg] & _)|(T & _)]; [|lia].
    apply Hg. unfold s1 in Ha. cbn in Ha. rewrite lookup_insert_eq in Ha. injection Ha as <-. by apply bloom_insert_contains.
Qed.

Lemma insert_hashes_spec tokens batch s s' ok :
  blooms_ok s -> insert_signature_hashes ix tokens batch s = (s', ok) ->
  calmly s s' /\ serial s' = serial s /\ writers s' = writers s /\ untracked_writers s' = untracked_writers s /\ entries s' = entries s /\
  (forall p, is_Some (signatures s !! p) -> exists e e', signatures s !! p = Some e /\ signatures s' !! p = Some e' /\
     se_token e' = se_token e /\ se_complete e' = se_complete e) /\
  (ok = true -> (forall p t, tokens !! p = Some t -> exists e, signatures s' !! p = Some e /\ se_token e = t) /\
     forall x h e, (x, h) ∈ batch -> signatures s' !! (x / width ix) = Some e -> bloom_contains h (se_bloom e) = true).
Proof.
  intros Hb. unfold insert_signature_hashes. destruct (forallb _ _) eqn:Ef.
  - intros Hi. destruct (insert_batch_spec _ _ _ _ _ Hb Hi) as (Hc & E1 & E2 & E3 & E4 & Hd & Hin).
    do 6 (split; [done|]). intros Hok. split; [|by apply Hin]. intros p t Hp.
    rewrite forallb_forall in Ef. specialize (Ef (p, t)). cbn in Ef. unfold signature_generation_matches in Ef.
    assert (Hm : match signatures s !! p with Some e => se_token e =? t | None => false end = true).
    { apply Ef, list_elem_of_In. by apply elem_of_map_to_list. }
    destruct (signatures s !! p) as [e|] eqn:Ee; [|done]. destruct (Hd p ltac:(by eexists)) as (a & a' & Ha & Ha' & Et & _).
    exists a'. split; [done|]. assert (a = e) as -> by congruence. lia.
  - intros [= <- <-]. split_and!; [by apply calmly_refl|done..| |done]. intros p [e He]. by exists e, e.
Qed.

(** The two operations that complete an entry. *)
Lemma ensure_publish_spec p serial0 bloom complete s s' token :
  blooms_ok s -> bloom_ok bloom -> ensure_publish p serial0 bloom complete s = (s', token) ->
  (s' = s /\ token = None) \/
  (serial s = serial0 /\ untracked_writers s = 0 /\ token = Some (serial s + 1) /\ serial s' = serial s + 1 /\
   signatures s' = <[p := mkSigEntry (serial s + 1) bloom complete]> (signatures s) /\ writers s' = writers s /\
   untracked_writers s' = untracked_writers s /\ entries s' = entries s).
Proof.
  intros Hb Hbl. unfold ensure_publish. destruct (negb _) eqn:E; intros [= <- <-]; [by left|right]. zbool. done.
Qed.

Lemma finish_build_spec p token s s' ok :
  finish_signature_build p token s = (s', ok) ->
  s' = s \/ exists e, signatures s !! p = Some e /\ se_token e = token /\
    s' = set_signatures (<[p := mkSigEntry (se_token e) (se_bloom e) true]> (signatures s)) s.
Proof.
  unfold finish_signature_build. destruct (signatures s !! p) as [e|] eqn:Ee; [|intros [= <- <-]; by left].
  destruct (Z.eqb_spec (se_token e) token) as [Et|_]; intros [= <- <-]; [|by left]. right. by exists e.
Qed.

End Ops.

(** [calmly] without the completeness of entries. *)
Record evolves (s s' : State) : Prop := {
  ev_serial : serial s <= serial s';
  ev_still : serial s = serial s' -> still s s';
  ev_sig : forall p e', signatures s' !! p = Some e' ->
    (exists e, signatures s !! p = Some e /\ se_token e' = se_token e /\ grows e e') \/
    (serial s < se_token e' <= serial s' /\ bloom_ok (se_bloom e'));
}.

Lemma calmly_evolves s s' : calmly s s' -> evolves s s'.
Proof.
  intros [H1 H2 H3]. split; [done|done|]. intros p e' He. destruct (H3 p e' He) as [(e & ? & ? & ? & _)|(? & ? & _)]; [left; by exists e|by right].
Qed.

Lemma ensure_publish_evolves p serial0 bloom complete s s' token :
  blooms_ok s -> bloom_ok bloom -> ensure_publish p serial0 bloom complete s = (s', token) -> evolves s s'.
Proof.
  intros Hb Hbl H. destruct (ensure_publish_spec _ _ _ _ _ _ _ Hb Hbl H) as [[-> _]|(_ & _ & _ & Es & Esig & Ew & Eu & _)].
  { by apply calmly_evolves, calmly_refl. }
  split; [lia|lia|]. rewrite Esig. intros q e' [[<- <-]|[_ He]]%lookup_insert_Some; [right; cbn; split; [lia|done]|].
  left. exists e'. split_and!; [done|done|]. by apply grows_refl, (Hb q).
Qed.

Lemma finish_build_evolves p token s s' ok : blooms_ok s -> finish_signature_build p token s = (s', ok) -> evolves s s'.
Proof.
  intros Hb H. destruct (finish_build_spec _ _ _ _ _ H) as [->|(e & He & _ & ->)]; [by apply calmly_evolves, calmly_refl|].
  split; [cbn; lia| |].
  - intros _. split; [|done|intros id w Hw; by exists w]. cbn. intros q Hq. apply lookup_insert_None. split; [done|congruence].
  - cbn. intros q e' [[<- <-]|[_ Hq]]%lookup_insert_Some; left; [exists e|exists e']; (split_and!; [done|done|]).
    + split; [exact (Hb p e He)|done].
    + by apply grows_refl, (Hb q).
Qed.

Lemma mutation_spec ix a b s s' id :
  mutation ix a b s = (s', id) ->
  serial s' = serial s + 1 /\
  (forall p e, entries s' !! p = Some e -> entries s !! p = Some e) /\
  ((id = None /\ untracked_writers s' = untracked_writers s + 1 /\ writers s' = writers s /\ signatures s' = ∅ /\ entries s' = ∅) \/
   (id = Some (serial s + 1) /\ untracked_writers s' = untracked_writers s /\ signatures s' = signatures s /\
    writers s' = <[serial s + 1 := writer_new (a / width ix, b / width ix)]> (writers s) /\
    forall p, is_Some (entries s' !! p) -> in_range (a / width ix, b / width ix) p = false)).
Proof.
  unfold mutation. destruct (MAX_WRITERS <=? _); intros [= <- <-]; cbn.
  - split; [done|]. split; [intros p e; by rewrite lookup_empty|]. by left.
  - set (kept := filter _ _).
    assert (Hk : forall p e, kept !! p = Some e -> entries s !! p = Some e /\ in_range (a / width ix, b / width ix) p = false).
    { intros p e [? ?]%map_lookup_filter_Some. done. }
    split; [by case_match|]. split; [intros p e He; by apply Hk|]. right. destruct (bool_decide _); split_and!; try done.
    all: intros p [e He]; by apply (Hk p e).
Qed.
