(* ===== verification/KeyTasksSound.v ===== *)
(** * KeyTasksSound: the membership filters never miss a covered row

    The invariant of the interleavings of [KeyTasks] and what it gives: a signature lookup
    skips no partition in which a covered slot has the signature, an address filter that
    reports absence is right about the whole partition, and a read whose range token did
    not change saw no row of the range change. *)

From S2P Require Import Prelude BTree CoverageMap KeyIndex KeyTasks KeyFacts.

Open Scope Z_scope.

(** ** What holds of a task *)

Definition phase_writer (range : Z * Z) (phase : FillPhase) : Writer :=
  match phase with
  | FillChecked _ | FillInvalidated _ | FillBegun _ _ => writer_new range
  | FillWriting _ repair | FillEnsuring _ repair _ _ _ | FillScanning _ repair _ _ _ | FillScanned _ repair =>
      mkWriter range true repair false
  | FillUpdated _ repair success | FillPersisted _ repair success _ | FillPublished _ repair success =>
      mkWriter range true (repair || negb success) success
  end.

(** The fill shows its partitions as being repaired, and its scan is not over. *)
Definition phase_repairs (phase : FillPhase) : bool :=
  match phase, phase_guard phase with
  | FillScanned _ _, _ => false
  | _, Some (Some _) => let w := phase_writer (0, 0) phase in w_repair w && negb (w_updated w)
  | _, _ => false
  end.

Definition repairs (t : Task) (x : Z) : Prop :=
  match t with Fill a b phase => phase_repairs phase = true /\ a <= x <= b | _ => False end.
Definition repaired (y : System) (x : Z) : Prop := exists n t, tasks y !! n = Some t /\ repairs t x.

Definition claims (t : Task) (x : Z) : Prop :=
  match t with Fill a b _ => scanned t = true /\ a <= x <= b | _ => False end.
Definition claimed (y : System) (x : Z) : Prop := exists n t, tasks y !! n = Some t /\ claims t x.

(** The result a builder of partition [p] streams, under its generation. *)
Definition scan_of (t : Task) : option (Z * Z * list (Z * list Z)) :=
  match t with
  | Build p (BuildScanning token seen pending) => Some (p, token, seen ++ pending)
  | Build p (BuildScanned token seen) => Some (p, token, seen)
  | _ => None
  end.

Definition untracked (t : Task) : bool := match guard_of t with Some None => true | _ => false end.

Section Sound.
Context (ix : KeyIndex) (blake3 : list Z -> list Z).

Definition expected_writer (t : Task) : Writer :=
  match t with
  | Fill a b phase => phase_writer (a / width ix, b / width ix) phase
  | Poison slot _ => writer_new (slot / width ix, slot / width ix)
  | Evict floor _ => writer_new (0 / width ix, (floor - 1) / width ix)
  | Refresh _ _ | Build _ _ | AddressBuild _ _ _ _ => writer_new (0 / width ix, u64_max / width ix)
  end.

Definition indexed (e : SignatureEntry) (key : list Z) : Prop := bloom_contains (hash_of blake3 key) (se_bloom e) = true.

(** Nothing may have touched partition [p] since its allocation began. *)
Record absent (s : State) (p : Z) : Prop := {
  ab_sig : signatures s !! p = None;
  ab_untracked : untracked_writers s = 0;
  ab_writers : forall id w, writers s !! id = Some w -> w_signature_update w = true \/ in_range (w_range w) p = false;
}.

Definition ensure_ok (y : System) (p : Z) (e : Ensuring) : Prop :=
  match e with
  | EnsureCheck => True
  | EnsureAlloc serial0 => serial0 <= serial (index y) /\ (serial0 = serial (index y) -> absent (index y) p)
  | EnsureReady serial0 bloom complete =>
      bloom_ok bloom /\ serial0 <= serial (index y) /\
      (serial0 = serial (index y) -> absent (index y) p /\
         (complete = true -> forall x, covers (coverage y) x -> x / width ix = p -> repaired y x))
  end.

(** What a scan has inserted is in every entry of the generations it started with. *)
Definition scan_ok (s : State) (tokens : gmap Z Z) (seen : list (Z * list Z)) : Prop :=
  (forall p t, tokens !! p = Some t -> t <= serial s) /\
  (forall p e, signatures s !! p = Some e -> tokens !! p = Some (se_token e) ->
     forall x key, (x, key) ∈ seen -> x / width ix = p -> indexed e key).

Definition range_tokens (a b : Z) (tokens : gmap Z Z) : Prop :=
  forall p, a <= p <= b -> is_Some (tokens !! p).

Definition fill_ok (y : System) (a b : Z) (phase : FillPhase) : Prop :=
  match phase with
  | FillChecked repair | FillInvalidated repair | FillBegun _ repair | FillWriting _ repair =>
      repair = false -> forall x, covers (coverage y) x -> ~ a <= x <= b
  | FillEnsuring _ _ tokens next e =>
      ensure_ok y next e /\ scan_ok (index y) tokens [] /\ a / width ix <= next /\ range_tokens (a / width ix) (next - 1) tokens
  | FillScanning _ _ tokens seen pending =>
      scan_ok (index y) tokens seen /\ range_tokens (a / width ix) (b / width ix) tokens /\
      forall r, r ∈ rows y -> r_table r = SignatureTable -> a <= r_slot r <= b -> (r_slot r, r_key r) ∈ seen ++ pending
  | FillPersisted _ _ _ slots => Forall (fun x => a <= x <= b) slots
  | FillScanned _ _ | FillUpdated _ _ _ | FillPublished _ _ _ => True
  end /\
  (scanned (Fill a b phase) = true -> forall p, a / width ix <= p <= b / width ix -> is_Some (signatures (index y) !! p)).

Definition filters_cover (f : Filters) (p : Z) (l : list Row) : Prop :=
  forall family b, filter_of f family = Some b -> forall key, key ∈ family_keys ix p family l ->
    bloom_contains (hash_of blake3 key) b = true.

Definition task_ok (y : System) (t : Task) : Prop :=
  match t with
  | Fill a b phase => (is_u64 a /\ is_u64 b /\ a <= b) /\ fill_ok y a b phase
  | Build p (BuildEnsuring e) => 0 <= p <= u64_max / width ix /\ ensure_ok y p e
  | Build p (BuildEnsured token) => 0 <= p <= u64_max / width ix /\ token <= serial (index y)
  | Build p (BuildScanning token seen _) | Build p (BuildScanned token seen) =>
      0 <= p <= u64_max / width ix /\ scan_ok (index y) {[p := token]} seen
  | AddressBuild p token filters todo =>
      token <= serial (index y) /\ forall e, entries (index y) !! p = Some e -> e_token e = token -> filters_cover filters p (rows y)
  | Poison slot _ => is_u64 slot
  | Evict floor _ => 0 < floor <= u64_max
  | Refresh id cleared => cleared = true -> is_Some id /\ signatures (index y) = ∅
  end.

(** ** The invariant *)

(** A claimed row is indexed, or its partition shows as unknown and will be rebuilt. *)
Definition claim_ok (y : System) (p : Z) (e : SignatureEntry) (x : Z) (key : list Z) : Prop :=
  indexed e key \/ repaired y x \/
  (se_complete e = false /\ forall n t snapshot, tasks y !! n = Some t ->
     scan_of t = Some (p, se_token e, snapshot) -> (x, key) ∈ snapshot).

Definition claims_ok (y : System) : Prop :=
  forall e r, r ∈ rows y -> r_table r = SignatureTable ->
    signatures (index y) !! (r_slot r / width ix) = Some e ->
    covers (coverage y) (r_slot r) \/ claimed y (r_slot r) -> claim_ok y (r_slot r / width ix) e (r_slot r) (r_key r).

Record guards_ok (y : System) : Prop := {
  g_serial : 0 <= serial (index y);
  g_ids : forall id w, writers (index y) !! id = Some w -> 0 < id <= serial (index y);
  g_guard : forall n t id, tasks y !! n = Some t -> guard_of t = Some (Some id) ->
    writers (index y) !! id = Some (expected_writer t);
  g_unique : forall n n' t t' id, tasks y !! n = Some t -> tasks y !! n' = Some t' ->
    guard_of t = Some (Some id) -> guard_of t' = Some (Some id) -> n = n';
  g_untracked : untracked_writers (index y) = Z.of_nat (size (filter (fun e => untracked (snd e) = true) (tasks y)));
  g_cleared : 0 < untracked_writers (index y) -> signatures (index y) = ∅ /\ entries (index y) = ∅;
}.

Record sigs_ok (y : System) : Prop := {
  s_blooms : blooms_ok (index y);
  s_tokens : forall p e, signatures (index y) !! p = Some e -> se_token e <= serial (index y);
}.

Record entries_ok (y : System) : Prop := {
  n_tokens : forall p e, entries (index y) !! p = Some e -> e_token e <= serial (index y);
  n_writers : forall p e id w, entries (index y) !! p = Some e -> writers (index y) !! id = Some w ->
    in_range (w_range w) p = false;
  n_filters : forall p e f, entries (index y) !! p = Some e -> e_filters e = Some f -> filters_cover f p (rows y);
}.

Record data_ok (y : System) : Prop := {
  d_coverage : map_ok (coverage y);
  d_rows : Forall (fun r => is_u64 (r_slot r)) (rows y);
  d_persisted : map_Forall (fun slot _ => is_u64 slot) (persisted y);
}.

Record fills_ok (y : System) : Prop := {
  f_apart : forall n n' a b a' b' phase phase', tasks y !! n = Some (Fill a b phase) ->
    tasks y !! n' = Some (Fill a' b' phase') -> n <> n' -> b < a' \/ b' < a;
  f_alone : forall n t n' t', tasks y !! n = Some t -> is_fill t = true -> tasks y !! n' = Some t' -> is_maintenance t' = false;
}.

Record system_ok (y : System) : Prop := {
  o_guards : guards_ok y;
  o_sigs : sigs_ok y;
  o_entries : entries_ok y;
  o_data : data_ok y;
  o_fills : fills_ok y;
  o_tasks : forall n t, tasks y !! n = Some t -> task_ok y t;
  o_claims : claims_ok y;
}.

(** ** Frames *)

Lemma scan_ok_frame s s' tokens seen : evolves s s' -> scan_ok s tokens seen -> scan_ok s' tokens seen.
Proof.
  intros [Hs _ Hsig] [Ht Hi]. split.
  - intros p t Hp. specialize (Ht p t Hp). lia.
  - intros p e' He' Hp x key Hx Hpart. destruct (Hsig p e' He') as [(e & He & Et & [_ Hg])|[T _]].
    + apply Hg. rewrite Et in Hp. by apply (Hi p e He Hp x key).
    + specialize (Ht _ _ Hp). lia.
Qed.

Lemma absent_frame s s' p : still s s' -> absent s p -> absent s' p.
Proof.
  intros [H1 H2 H3] [A1 A2 A3]. split; [auto|auto|]. intros id w' Hw'. destruct (H3 id w' Hw') as (w & Hw & Er & Es).
  destruct (A3 id w Hw) as [?|?]; [left; auto|right; by rewrite Er].
Qed.

(** Where an allocation may be under way, coverage grows under a repair only. *)
Definition cov_rel (y y' : System) : Prop :=
  serial (index y) = serial (index y') -> forall x, absent (index y) (x / width ix) ->
  (covers (coverage y') x -> covers (coverage y) x \/ repaired y' x) /\ (repaired y x -> repaired y' x).

Lemma ensure_ok_frame y y' p e :
  evolves (index y) (index y') -> cov_rel y y' -> ensure_ok y p e -> ensure_ok y' p e.
Proof.
  intros [Hs Hst _] Hcr. destruct e as [|serial0|serial0 bloom complete]; cbn; [done| |].
  - intros [Hle Ha]. split; [lia|]. intros E. apply (absent_frame (index y)); [apply Hst; lia|apply Ha; lia].
  - intros (Hb & Hle & Ha). split_and!; [done|lia|]. intros E. destruct (Ha ltac:(lia)) as [Ha1 Ha2].
    split; [apply (absent_frame (index y)); [apply Hst; lia|done]|]. intros Hcomp x Hx Hp.
    destruct (Hcr ltac:(lia) x ltac:(by rewrite Hp)) as [Hc Hr]. destruct (Hc Hx) as [Hx'|?]; [|done]. by apply Hr, Ha2.
Qed.

Definition is_refreshing (t : Task) : bool := match t with Refresh _ true => true | _ => false end.

(** What a step must respect of a task that does not take it. *)
Record respects (y y' : System) (t : Task) : Prop := {
  r_entries_kept : scanned t = true -> forall p, is_Some (signatures (index y) !! p) -> is_Some (signatures (index y') !! p);
  r_cleared : is_refreshing t = true -> signatures (index y) = ∅ -> signatures (index y') = ∅;
  r_fill : forall a b phase, t = Fill a b phase ->
    (forall x, a <= x <= b -> covers (coverage y') x -> covers (coverage y) x) /\
    (forall r, r ∈ rows y' -> a <= r_slot r <= b -> r ∈ rows y);
  r_address : forall p token filters todo, t = AddressBuild p token filters todo -> token <= serial (index y) ->
    forall e', entries (index y') !! p = Some e' -> e_token e' = token ->
    (exists e, entries (index y) !! p = Some e /\ e_token e = token) /\
    forall family key, key ∈ family_keys ix p family (rows y') -> key ∈ family_keys ix p family (rows y);
}.

Lemma fill_ok_frame y y' a b phase :
  evolves (index y) (index y') -> cov_rel y y' -> respects y y' (Fill a b phase) -> fill_ok y a b phase -> fill_ok y' a b phase.
Proof.
  intros Hev Hcov [Hk _ Hf _] [Hp Hs]. destruct (Hf a b phase eq_refl) as [Hfc Hfr]. split.
  - destruct phase; try done.
    1-4: intros Er x Hx Hin; apply (Hp Er x); auto.
    + destruct Hp as (H1 & H2 & H3 & H4). split_and!; [by eapply ensure_ok_frame|by eapply scan_ok_frame|done|done].
    + destruct Hp as (H1 & H2 & H3). split_and!; [by eapply scan_ok_frame|done|]. intros r Hr Ht Hin. apply H3; auto.
  - intros Hsc p Hpr. apply (Hk Hsc), Hs; done.
Qed.

Lemma task_ok_frame y y' t :
  evolves (index y) (index y') -> cov_rel y y' -> respects y y' t -> task_ok y t -> task_ok y' t.
Proof.
  intros Hev Hcov Hr. pose proof (ev_serial _ _ Hev) as Hle. destruct t as [a b phase|p [e|token|token seen pending|token seen]|p token filters todo|slot id|floor id|id cleared]; cbn.
  - intros [Hu Hf]. split; [done|by eapply fill_ok_frame].
  - intros [Hp He]. split; [done|by eapply ensure_ok_frame].
  - intros [Hp He]. split; [done|lia].
  - intros [Hp He]. split; [done|by eapply scan_ok_frame].
  - intros [Hp He]. split; [done|by eapply scan_ok_frame].
  - intros [Ht Hc]. split; [lia|]. intros e' He' Et. destruct (r_address _ _ _ Hr p token filters todo eq_refl Ht e' He' Et) as [(e & He & Ete) Hrows].
    intros family bl Hfb key Hkey. by apply (Hc e He Ete family bl Hfb key), Hrows.
  - done.
  - done.
  - intros Hc ->. destruct (Hc eq_refl) as [Hid He]. split; [done|]. by apply (r_cleared _ _ _ Hr).
Qed.

Lemma claims_frame y y' :
  calmly (index y) (index y') ->
  (forall r, r ∈ rows y' -> r_table r = SignatureTable -> r ∈ rows y) ->
  (forall x, covers (coverage y') x \/ claimed y' x -> covers (coverage y) x \/ claimed y x) ->
  (forall x, repaired y x -> repaired y' x \/
     forall e', signatures (index y') !! (x / width ix) = Some e' -> new_generation (index y) (index y') e') ->
  (forall n t p token snapshot, tasks y' !! n = Some t -> scan_of t = Some (p, token, snapshot) ->
     token <= serial (index y) /\
     ((exists n' t', tasks y !! n' = Some t' /\ scan_of t' = Some (p, token, snapshot)) \/
      forall r, r ∈ rows y -> r_table r = SignatureTable -> r_slot r / width ix = p -> (r_slot r, r_key r) ∈ snapshot)) ->
  claims_ok y -> claims_ok y'.
Proof.
  intros Hca Hrows Hcl Hrep Hscan Hok e' r Hr Ht He' Hc. apply Hrows in Hr; [|done]. apply Hcl in Hc.
  assert (Hnew : new_generation (index y) (index y') e' -> claim_ok y' (r_slot r / width ix) e' (r_slot r) (r_key r)).
  { intros (Htok & _ & Hcomp). right. right. split; [done|]. intros n t snapshot Htask Hs.
    destruct (Hscan _ _ _ _ _ Htask Hs) as [Hle _]. lia. }
  destruct (ca_sig _ _ Hca _ _ He') as [(e & He & Et & [_ Hg] & Hcomp)|Hgen]; [|by apply Hnew].
  destruct (Hok e r Hr Ht He Hc) as [Hi|[Hi|[Hn Hi]]].
  - left. by apply Hg.
  - destruct (Hrep _ Hi) as [?|H]; [right; by left|]. by apply Hnew, H.
  - right. right. split; [destruct (se_complete e'); [rewrite Hcomp in Hn by done; done|done]|].
    intros n t snapshot Htask Hs. rewrite Et in Hs. destruct (Hscan _ _ _ _ _ Htask Hs) as [_ [(n' & t' & H1 & H2)|H]].
    + by apply (Hi n' t').
    + by apply H.
Qed.

Lemma sigs_frame y y' : evolves (index y) (index y') -> sigs_ok y -> sigs_ok y'.
Proof.
  intros [Hs _ Hsig] [Hb Ht]. split; intros p e' He'; destruct (Hsig p e' He') as [(e & He & Et & [Hg _])|[T Hg]]; try done.
  - rewrite Et. specialize (Ht p e He). lia.
  - lia.
Qed.

(** The keys of the rows at a partition with an address entry do not grow. *)
Definition keys_kept (y y' : System) : Prop :=
  forall p, is_Some (entries (index y') !! p) -> forall family key,
    key ∈ family_keys ix p family (rows y') -> key ∈ family_keys ix p family (rows y).

Lemma keys_kept_refl y y' : rows y' = rows y -> keys_kept y y'.
Proof. intros E p _ family key. by rewrite E. Qed.

Lemma entries_frame y y' :
  serial (index y) <= serial (index y') ->
  (forall p e, entries (index y') !! p = Some e -> entries (index y) !! p = Some e) ->
  (forall id w', writers (index y') !! id = Some w' -> exists w, writers (index y) !! id = Some w /\ w_range w' = w_range w) ->
  keys_kept y y' -> entries_ok y -> entries_ok y'.
Proof.
  intros Hs He Hw Hk [H1 H2 H3]. split.
  - intros p e Hp%He. specialize (H1 p e Hp). lia.
  - intros p e id w' Hp%He Hw'. destruct (Hw id w' Hw') as (w & Hwi & ->). by eapply H2.
  - intros p e f Hp Hf family b Hb key Hkey. apply Hk in Hkey; [|by eexists]. by apply (H3 p e f (He p e Hp) Hf family b).
Qed.

Definition count_untracked (m : gmap Z Task) : nat := size (filter (fun e => untracked (snd e) = true) m).

Lemma count_insert_fresh m n t :
  m !! n = None -> count_untracked (<[n := t]> m) = (count_untracked m + if untracked t then 1 else 0)%nat.
Proof.
  intros Hn. unfold count_untracked. destruct (untracked t) eqn:E.
  - rewrite map_filter_insert_True by done. rewrite map_size_insert_None; [lia|]. apply map_lookup_filter_None. by left.
  - rewrite map_filter_insert_False by (cbn; by rewrite E). rewrite delete_id by done. lia.
Qed.

Lemma count_delete m n t :
  m !! n = Some t -> count_untracked m = (count_untracked (delete n m) + if untracked t then 1 else 0)%nat.
Proof.
  intros Hn. rewrite <- (count_insert_fresh _ n) by apply lookup_delete_eq. by rewrite insert_delete_id.
Qed.

Lemma count_insert m n t t' :
  m !! n = Some t ->
  (count_untracked (<[n := t']> m) + (if untracked t then 1 else 0) = count_untracked m + if untracked t' then 1 else 0)%nat.
Proof.
  intros Hn. rewrite (count_delete m n t Hn), <- insert_delete_eq, count_insert_fresh by apply lookup_delete_eq. lia.
Qed.

(** A step that leaves the guards alone. *)
Lemma guards_frame y y' n t t' :
  guards_ok y -> tasks y !! n = Some t -> tasks y' = <[n := t']> (tasks y) ->
  serial (index y) <= serial (index y') -> writers (index y') = writers (index y) ->
  untracked_writers (index y') = untracked_writers (index y) ->
  guard_of t' = guard_of t -> (forall id, guard_of t = Some (Some id) -> expected_writer t' = expected_writer t) ->
  (0 < untracked_writers (index y) -> signatures (index y') = ∅ /\ entries (index y') = ∅) ->
  guards_ok y'.
Proof.
  intros [G1 G2 G3 G4 G5 G6] Hn Et Hs Ew Eu Eg Ex Hc. split.
  - lia.
  - intros id w Hw. rewrite Ew in Hw. specialize (G2 id w Hw). lia.
  - intros m u id. rewrite Et, Ew. intros [[<- <-]|[_ Hm]]%lookup_insert_Some Hg; [|by apply (G3 m)].
    rewrite Eg in Hg. rewrite (Ex id Hg). by apply (G3 n).
  - intros m m' u u' id. rewrite Et.
    intros [[<- <-]|[Hne Hm]]%lookup_insert_Some [[<- <-]|[Hne' Hm']]%lookup_insert_Some Hg Hg'; [done| | |].
    + rewrite Eg in Hg. by apply (G4 n m' t u' id).
    + rewrite Eg in Hg'. by apply (G4 m n u t id).
    + by apply (G4 m m' u u' id).
  - rewrite Eu, G5, Et. f_equal. pose proof (count_insert (tasks y) n t t' Hn) as Hcnt. unfold count_untracked in Hcnt.
    assert (untracked t' = untracked t) as Eun by (unfold untracked; by rewrite Eg). rewrite Eun in Hcnt. lia.
  - rewrite Eu. done.
Qed.

Lemma guards_mutation y y' n t t' a b s id :
  guards_ok y -> tasks y !! n = Some t -> tasks y' = <[n := t']> (tasks y) -> index y' = s ->
  mutation ix a b (index y) = (s, id) -> guard_of t = None -> guard_of t' = Some id ->
  expected_writer t' = writer_new (a / width ix, b / width ix) -> guards_ok y'.
Proof.
  intros [G1 G2 G3 G4 G5 G6] Hn Et Ei Hm Hg Hg' Hx.
  pose proof (count_insert (tasks y) n t t' Hn) as Hcnt. unfold untracked in Hcnt. rewrite Hg, Hg' in Hcnt.
  unfold count_untracked in Hcnt. destruct (mutation_spec _ _ _ _ _ _ Hm) as (Es & _ & [(-> & Eu & Ew & Esg & Een)|(-> & Eu & Esg & Ew & _)]).
  - split; try rewrite Ei.
    + lia.
    + intros id w Hw. rewrite Ew in Hw. specialize (G2 id w Hw). lia.
    + intros m u id. rewrite Et, Ew. intros [[<- <-]|[_ Hmu]]%lookup_insert_Some Hgu; [congruence|by apply (G3 m)].
    + intros m m' u u' id. rewrite Et.
      intros [[<- <-]|[Hne Hmu]]%lookup_insert_Some [[<- <-]|[Hne' Hmu']]%lookup_insert_Some Hu Hu'; [done|congruence..|by apply (G4 m m' u u' id)].
    + rewrite Et, Eu, G5. lia.
    + done.
  - assert (Hfresh : writers (index y) !! (serial (index y) + 1) = None).
    { destruct (writers _ !! _) as [w|] eqn:E; [|done]. apply G2 in E. lia. }
    assert (Hold : forall m u id, tasks y !! m = Some u -> guard_of u = Some (Some id) -> id <> serial (index y) + 1).
    { intros m u id Hmu Hgu ->. rewrite (G3 m u _ Hmu Hgu) in Hfresh. done. }
    split; try rewrite Ei.
    + lia.
    + intros id w. rewrite Ew, Es. intros [[<- <-]|[_ Hw]]%lookup_insert_Some; [lia|]. specialize (G2 id w Hw). lia.
    + intros m u id. rewrite Et, Ew. intros [[<- <-]|[_ Hmu]]%lookup_insert_Some Hgu.
      * assert (id = serial (index y) + 1) as -> by congruence. by rewrite lookup_insert_eq, Hx.
      * rewrite lookup_insert_ne; [by apply (G3 m)|]. intros <-. by eapply Hold.
    + intros m m' u u' id. rewrite Et.
      intros [[<- <-]|[Hne Hmu]]%lookup_insert_Some [[<- <-]|[Hne' Hmu']]%lookup_insert_Some Hu Hu'; [done| | |by apply (G4 m m' u u' id)].
      * exfalso. apply (Hold _ _ _ Hmu' Hu'). congruence.
      * exfalso. apply (Hold _ _ _ Hmu Hu). congruence.
    + rewrite Et, Eu, G5. lia.
    + rewrite Eu, Esg. intros Hpos. destruct (G6 Hpos) as [-> Hen]. split; [done|]. apply map_empty. intros p.
      destruct (entries s !! p) as [e|] eqn:E; [|done].
      destruct (mutation_spec _ _ _ _ _ _ Hm) as (_ & Hsub & _). apply Hsub in E. by rewrite Hen, lookup_empty in E.
Qed.

(** A step that rewrites the writer of its own guard. *)
Lemma guards_writer y y' n t t' id :
  guards_ok y -> tasks y !! n = Some t -> tasks y' = <[n := t']> (tasks y) ->
  serial (index y) <= serial (index y') ->
  writers (index y') = match id with Some k => <[k := expected_writer t']> (writers (index y)) | None => writers (index y) end ->
  untracked_writers (index y') = untracked_writers (index y) ->
  guard_of t = Some id -> guard_of t' = Some id ->
  (0 < untracked_writers (index y) -> signatures (index y') = ∅ /\ entries (index y') = ∅) ->
  guards_ok y'.
Proof.
  intros [G1 G2 G3 G4 G5 G6] Hn Et Hs Ew Eu Hg Hg' Hc. split.
  - lia.
  - intros k w. rewrite Ew. destruct id as [id|]; [intros [[<- <-]|[_ Hw]]%lookup_insert_Some|intros Hw].
    + pose proof (G2 _ _ (G3 n t id Hn Hg)). lia.
    + specialize (G2 k w Hw). lia.
    + specialize (G2 k w Hw). lia.
  - intros m u k. rewrite Et, Ew. intros [[<- <-]|[Hne Hm]]%lookup_insert_Some Hgu.
    + rewrite Hg' in Hgu. injection Hgu as ->. apply lookup_insert_eq.
    + destruct id as [id|]; [|by apply (G3 m)]. rewrite lookup_insert_ne; [by apply (G3 m)|]. intros ->.
      apply Hne. by apply (G4 n m t u k).
  - intros m m' u u' k. rewrite Et.
    intros [[<- <-]|[Hne Hm]]%lookup_insert_Some [[<- <-]|[Hne' Hm']]%lookup_insert_Some Hu Hu'; [done| | |].
    + apply (G4 n m' t u' k); [done|done|congruence|done].
    + apply (G4 m n u t k); [done|done|done|congruence].
    + by apply (G4 m m' u u' k).
  - rewrite Eu, G5, Et. f_equal. pose proof (count_insert (tasks y) n t t' Hn) as Hcnt. unfold count_untracked in Hcnt.
    assert (untracked t' = untracked t) as Eun by (unfold untracked; by rewrite Hg, Hg'). rewrite Eun in Hcnt. lia.
  - rewrite Eu. done.
Qed.

Lemma drop_mutation_spec id s :
  untracked_writers (drop_mutation id s) = (match id with None => untracked_writers s - 1 | Some _ => untracked_writers s end) /\
  writers (drop_mutation id s) = (match id with None => writers s | Some k => delete k (writers s) end) /\
  entries (drop_mutation id s) = entries s /\
  (signatures s = ∅ -> signatures (drop_mutation id s) = ∅).
Proof.
  destruct id as [id|]; cbn; [|done]. destruct (writers s !! id) as [w|] eqn:E; cbn.
  - unfold abandon_update. case_match; cbn; split_and!; try done. intros ->. apply map_imap_empty.
  - split_and!; try done. by rewrite delete_id.
Qed.

Lemma guards_end y y' n t :
  guards_ok y -> tasks y !! n = Some t -> tasks y' = delete n (tasks y) -> calmly (index y) (index y') ->
  index y' = match guard_of t with Some id => drop_mutation id (index y) | None => index y end -> guards_ok y'.
Proof.
  intros [G1 G2 G3 G4 G5 G6] Hn Et Hca Ei. pose proof (ca_serial _ _ Hca) as Hs.
  pose proof (count_delete (tasks y) n t Hn) as Hcnt. unfold untracked in Hcnt. unfold count_untracked in Hcnt.
  destruct (guard_of t) as [id|] eqn:Hg; rewrite ?Hg in Hcnt.
  - destruct (drop_mutation_spec id (index y)) as (Eu & Ew & Een & Hsig). rewrite <- Ei in Eu, Ew, Een, Hsig. split.
    + lia.
    + intros k w. rewrite Ew. destruct id as [id|]; [intros [_ Hw]%lookup_delete_Some|intros Hw]; specialize (G2 k w Hw); lia.
    + intros m u k. rewrite Et, Ew. intros [Hne Hm]%lookup_delete_Some Hgu.
      destruct id as [id|]; [|by apply (G3 m)]. rewrite lookup_delete_ne; [by apply (G3 m)|]. intros ->.
      apply Hne. by apply (G4 n m t u k).
    + intros m m' u u' k. rewrite Et. intros [_ Hm]%lookup_delete_Some [_ Hm']%lookup_delete_Some. by apply (G4 m m').
    + rewrite Et, Eu. destruct id; lia.
    + rewrite Eu, Een. intros Hpos. destruct G6 as [H1 H2]; [destruct id; lia|]. auto.
  - split; rewrite ?Ei; [done|done| | |rewrite Et; lia|done].
    + intros m u k. rewrite Et. intros [_ Hm]%lookup_delete_Some. by apply (G3 m).
    + intros m m' u u' k. rewrite Et. intros [_ Hm]%lookup_delete_Some [_ Hm']%lookup_delete_Some. by apply (G4 m m').
Qed.

(** ** The shape of a task never changes *)

Inductive Shape := ShapeFill (a b : Z) | ShapeMaintenance | ShapeOther.
Definition shape (t : Task) : Shape :=
  match t with Fill a b _ => ShapeFill a b | Evict _ _ | Refresh _ _ => ShapeMaintenance | _ => ShapeOther end.

Lemma fills_frame y y' n t t' :
  fills_ok y -> tasks y !! n = Some t -> tasks y' = <[n := t']> (tasks y) -> shape t' = shape t -> fills_ok y'.
Proof.
  intros [H1 H2] Hn Et Esh. split.
  - intros m m' a b a' b' phase phase'. rewrite Et.
    intros [[<- Hf]|[Hne Hm]]%lookup_insert_Some [[<- Hf']|[Hne' Hm']]%lookup_insert_Some Hd; [done| | |by eapply H1]; subst t'.
    + destruct t; try done. injection Esh as <- <-. by apply (H1 n m' _ _ _ _ _ _ Hn Hm').
    + destruct t; try done. injection Esh as <- <-. by apply (H1 m n _ _ _ _ _ _ Hm Hn).
  - intros m u m' u'. rewrite Et.
    assert (is_fill t' = is_fill t /\ is_maintenance t' = is_maintenance t) as [Ef Em] by (destruct t, t'; done).
    intros [[<- <-]|[Hne Hm]]%lookup_insert_Some Hf [[<- <-]|[Hne' Hm']]%lookup_insert_Some; [by destruct t'|..].
    + rewrite Ef in Hf. by apply (H2 n t m' u').
    + rewrite Em. by apply (H2 m u n t).
    + by apply (H2 m u m' u').
Qed.

(** ** Quiet steps *)

(** A task that goes on without claiming more, repairing less or starting a scan. *)
Record quiet (t t' : Task) : Prop := {
  q_shape : shape t' = shape t;
  q_scan : forall v, scan_of t' = Some v -> scan_of t = Some v;
  q_claims : forall x, claims t' x -> claims t x;
  q_repairs : forall x, repairs t x -> repairs t' x;
}.

Lemma repaired_step y y' n t t' x :
  tasks y !! n = Some t -> tasks y' = <[n := t']> (tasks y) -> (repairs t x -> repairs t' x) -> repaired y x -> repaired y' x.
Proof.
  intros Hn Et Hr (m & u & Hm & Hu). destruct (decide (m = n)) as [->|Hne].
  - exists n, t'. rewrite Et, lookup_insert_eq. split; [done|]. apply Hr. by simplify_eq.
  - exists m, u. rewrite Et, lookup_insert_ne by done. done.
Qed.

Lemma claimed_step y y' n t t' x :
  tasks y !! n = Some t -> tasks y' = <[n := t']> (tasks y) -> (claims t' x -> claims t x) -> claimed y' x -> claimed y x.
Proof.
  intros Hn Et Hr (m & u & Hm & Hu). rewrite Et in Hm. apply lookup_insert_Some in Hm as [[<- <-]|[Hne Hm]].
  - exists n, t. auto.
  - by exists m, u.
Qed.

Lemma scan_token y t p token snapshot : task_ok y t -> scan_of t = Some (p, token, snapshot) -> token <= serial (index y).
Proof.
  destruct t as [|q [e|tok|tok seen pending|tok seen]| | | |]; try done; cbn; intros [_ [Ht _]] [= <- <- _];
    apply (Ht q tok), lookup_singleton_eq.
Qed.

(** A quiet step that touches no more than the index. *)
Lemma quiet_step y y' n t t' :
  system_ok y -> tasks y !! n = Some t -> tasks y' = <[n := t']> (tasks y) -> quiet t t' ->
  calmly (index y) (index y') ->
  guards_ok y' -> entries_ok y' -> data_ok y' -> task_ok y' t' ->
  (forall x, covers (coverage y') x -> covers (coverage y) x) -> (forall r, r ∈ rows y' -> r ∈ rows y) ->
  (forall m u, m <> n -> tasks y !! m = Some u -> respects y y' u) ->
  system_ok y'.
Proof.
  intros [Og Os Oe Od Of Ot Oc] Hn Et [Q1 Q2 Q3 Q4] Hca Hg He Hd Ht Hcov Hrows Hresp.
  assert (Hrep : forall x, repaired y x -> repaired y' x) by (intros x; exact (repaired_step y y' n t t' x Hn Et (Q4 x))).
  split; [done| |done|done|by eapply fills_frame| |].
  - eapply sigs_frame; [by apply calmly_evolves|done].
  - intros m u. rewrite Et. intros [[<- <-]|[Hne Hm]]%lookup_insert_Some; [done|].
    apply (task_ok_frame y); [by apply calmly_evolves| |by apply Hresp with m|by apply (Ot m)].
    intros _ x _. split; [intros Hx; left; auto|auto].
  - apply (claims_frame y); [done|auto| |intros x Hx; left; auto| |done].
    + intros x [Hx|Hx]; [left; auto|right]. exact (claimed_step y y' n t t' x Hn Et (Q3 x) Hx).
    + intros m u p token snapshot. rewrite Et. intros [[<- <-]|[Hne Hm]]%lookup_insert_Some Hs.
      * apply Q2 in Hs. split; [exact (scan_token y t p token snapshot (Ot n t Hn) Hs)|]. left. by exists n, t.
      * split; [exact (scan_token y u p token snapshot (Ot m u Hm) Hs)|]. left. by exists m, u.
Qed.

Lemma respects_same y y' u :
  rows y' = rows y -> coverage y' = coverage y ->
  (scanned u = true -> forall p, is_Some (signatures (index y) !! p) -> is_Some (signatures (index y') !! p)) ->
  (is_refreshing u = true -> signatures (index y) = ∅ -> signatures (index y') = ∅) ->
  (forall p e', entries (index y') !! p = Some e' ->
     serial (index y) < e_token e' \/ exists e, entries (index y) !! p = Some e /\ e_token e = e_token e') ->
  respects y y' u.
Proof.
  intros Er Ec Hs Hc He. split; [done|done| |].
  - intros a b phase _. by rewrite Er, Ec.
  - intros p token filters todo _ Ht e' He' Et. split; [|intros family key; by rewrite Er].
    destruct (He p e' He') as [?|(e & ? & ?)]; [lia|]. exists e. split; [done|congruence].
Qed.

Lemma scanned_fill t : scanned t = true -> is_fill t = true.
Proof. by destruct t. Qed.

(** A maintenance task runs beside no fill. *)
Lemma maintenance_alone y n t : system_ok y -> tasks y !! n = Some t -> is_maintenance t = true -> no_task is_fill y.
Proof.
  intros Ok Hn Hm m u Hu. destruct (is_fill u) eqn:E; [|done].
  by rewrite (f_alone _ (o_fills _ Ok) m u n t Hu E Hn) in Hm.
Qed.

Lemma quiet_index_step y s n t t' :
  system_ok y -> tasks y !! n = Some t -> quiet t t' -> calmly (index y) s ->
  writers s = writers (index y) -> untracked_writers s = untracked_writers (index y) -> entries s = entries (index y) ->
  guard_of t' = guard_of t -> (forall id, guard_of t = Some (Some id) -> expected_writer t' = expected_writer t) ->
  is_maintenance t = true \/ (forall p, is_Some (signatures (index y) !! p) -> is_Some (signatures s !! p)) ->
  (signatures (index y) = ∅ -> signatures s = ∅) ->
  task_ok (set_task n t' (set_index s y)) t' -> system_ok (set_task n t' (set_index s y)).
Proof.
  intros Ok Hn Hq Hca Ew Eu Ee Eg Ex Hdom Hemp Ht. pose proof Ok as [Og Os Oe Od Of Ot Oc].
  apply (quiet_step y (set_task n t' (set_index s y)) n t t' Ok Hn eq_refl Hq Hca); [| | |done|done|done|].
  - eapply (guards_frame y _ n t t'); [done|done|done|exact (ca_serial _ _ Hca)|done|done|done|done|]. cbn.
    intros Hpos. destruct (g_cleared _ Og Hpos) as [H1 H2]. split; [auto|by rewrite Ee].
  - eapply (entries_frame y); [exact (ca_serial _ _ Hca)|cbn; by rewrite Ee| |by apply keys_kept_refl|done]. cbn.
    rewrite Ew. intros id w Hw. by exists w.
  - destruct Od. by split.
  - intros m u Hne Hu. apply respects_same; [done|done| |done|].
    + intros Hs. destruct Hdom as [Hm|Hd]; [|done].
      pose proof (maintenance_alone y n t Ok Hn Hm m u Hu). apply scanned_fill in Hs. congruence.
    + cbn. rewrite Ee. intros p e' He'. right. by exists e'.
Qed.

(** A step of the local tables or of the coverage map under a guard of the task. *)
Lemma quiet_data_step y y1 n t t' :
  system_ok y -> tasks y !! n = Some t -> tasks y1 = tasks y -> index y1 = index y -> quiet t t' ->
  guard_of t' = guard_of t -> (forall id, guard_of t = Some (Some id) -> expected_writer t' = expected_writer t) ->
  data_ok y1 -> keys_kept y (set_task n t' y1) -> task_ok (set_task n t' y1) t' ->
  (forall x, covers (coverage y1) x -> covers (coverage y) x) -> (forall r, r ∈ rows y1 -> r ∈ rows y) ->
  system_ok (set_task n t' y1).
Proof.
  intros Ok Hn Et Ei Hq Eg Ex Hd Hk Ht Hc Hr. pose proof Ok as [Og Os Oe Od Of Ot Oc].
  assert (Htasks : tasks (set_task n t' y1) = <[n := t']> (tasks y)) by (cbn; by rewrite Et).
  assert (Hca : calmly (index y) (index (set_task n t' y1))) by (cbn; rewrite Ei; apply calmly_refl, Os).
  apply (quiet_step y _ n t t' Ok Hn Htasks Hq Hca); [| | |done|done|done|].
  - eapply (guards_frame y _ n t t'); [done|done|done|exact (ca_serial _ _ Hca)|cbn; by rewrite Ei..|done|done|]. cbn. rewrite Ei. apply Og.
  - eapply (entries_frame y); [exact (ca_serial _ _ Hca)|cbn; by rewrite Ei| |done|done]. cbn. rewrite Ei. intros id w Hw. by exists w.
  - destruct Hd. by split.
  - intros m u Hne Hu. split; cbn; try rewrite Ei; [done|done| |].
    + intros a b phase _. auto.
    + intros p token filters todo _ _ e' He' Ett. split; [by exists e'|].
      intros family key. apply Hk. cbn. rewrite Ei. by eexists.
Qed.

Lemma mutation_step y s id n t t' a b :
  system_ok y -> tasks y !! n = Some t -> mutation ix a b (index y) = (s, id) -> quiet t t' ->
  guard_of t = None -> guard_of t' = Some id -> expected_writer t' = writer_new (a / width ix, b / width ix) ->
  (untracked_writers (index y) < untracked_writers s -> no_task scanned y) ->
  task_ok (set_task n t' (set_index s y)) t' -> system_ok (set_task n t' (set_index s y)).
Proof.
  intros Ok Hn Hm Hq Hg Hg' Hx Hcalm Ht. pose proof Ok as [Og Os Oe Od Of Ot Oc].
  pose proof (mutation_calm ix a b _ _ _ (s_blooms _ Os) Hm) as Hca.
  destruct (mutation_spec _ _ _ _ _ _ Hm) as (Es & Hsub & Hcase).
  apply (quiet_step y (set_task n t' (set_index s y)) n t t' Ok Hn eq_refl Hq Hca); [| | |done|done|done|].
  - by eapply (guards_mutation y _ n t t').
  - destruct Oe as [H1 H2 H3]. split; cbn.
    + intros p e He%Hsub. specialize (H1 p e He). lia.
    + intros p e k w He Hw. destruct Hcase as [(_ & _ & Ew & _)|(_ & _ & _ & Ew & Hr)]; rewrite Ew in Hw.
      * by eapply H2; [apply Hsub|].
      * apply lookup_insert_Some in Hw as [[<- <-]|[_ Hw]]; [apply Hr; by eexists|by eapply H2; [apply Hsub|]].
    + intros p e f He Hf. by apply (H3 p e f); [apply Hsub|].
  - destruct Od. by split.
  - intros m u Hne Hu. apply respects_same; [done|done| | |].
    + intros Hs p Hp. destruct Hcase as [(_ & Eu & _)|(_ & _ & Esig & _)]; cbn; [|by rewrite Esig].
      pose proof (Hcalm ltac:(lia) m u Hu). congruence.
    + intros _ E. destruct Hcase as [(_ & _ & _ & Esig & _)|(_ & _ & Esig & _)]; cbn; congruence.
    + cbn. intros p e' He'%Hsub. right. by exists e'.
Qed.

(** A step of a task on the writer of its own guard. *)
Lemma writer_step y s n t t' id :
  system_ok y -> tasks y !! n = Some t -> quiet t t' -> calmly (index y) s ->
  writers s = match id with Some k => <[k := expected_writer t']> (writers (index y)) | None => writers (index y) end ->
  untracked_writers s = untracked_writers (index y) -> entries s = entries (index y) ->
  guard_of t = Some id -> guard_of t' = Some id -> w_range (expected_writer t') = w_range (expected_writer t) ->
  (forall p, is_Some (signatures (index y) !! p) <-> is_Some (signatures s !! p)) ->
  task_ok (set_task n t' (set_index s y)) t' -> system_ok (set_task n t' (set_index s y)).
Proof.
  intros Ok Hn Hq Hca Ew Eu Ee Hg Hg' Er Hdom Ht. pose proof Ok as [Og Os Oe Od Of Ot Oc].
  assert (Hemp : signatures (index y) = ∅ -> signatures s = ∅).
  { intros E. apply map_empty. intros p. apply eq_None_not_Some. rewrite <- Hdom, E, lookup_empty. apply is_Some_None. }
  apply (quiet_step y (set_task n t' (set_index s y)) n t t' Ok Hn eq_refl Hq Hca); [| | |done|done|done|].
  - eapply (guards_writer y _ n t t' id); [done|done|done|exact (ca_serial _ _ Hca)|done|done|done|done|]. cbn.
    intros Hpos. destruct (g_cleared _ Og Hpos) as [H1 H2]. split; [auto|by rewrite Ee].
  - eapply (entries_frame y); [exact (ca_serial _ _ Hca)|cbn; by rewrite Ee| |by apply keys_kept_refl|done]. cbn.
    rewrite Ew. intros k w Hw. destruct id as [id|]; [|by exists w].
    apply lookup_insert_Some in Hw as [[<- <-]|[_ Hw]]; [|by exists w]. exists (expected_writer t).
    split; [by apply (g_guard _ Og n)|done].
  - destruct Od. by split.
  - intros m u Hne Hu. apply respects_same; [done|done|by intros _ p; rewrite Hdom|done|].
    cbn. rewrite Ee. intros p e' He'. right. by exists e'.
Qed.

(** The end of a task without a guard, or with a fill's own. *)
Lemma untracked_positive y n t : guards_ok y -> tasks y !! n = Some t -> guard_of t = Some None -> 0 < untracked_writers (index y).
Proof.
  intros Og Hn Hg. rewrite (g_untracked _ Og). pose proof (count_delete (tasks y) n t Hn) as Hc.
  unfold untracked in Hc. rewrite Hg in Hc. unfold count_untracked in Hc. lia.
Qed.

Lemma in_range_spec range p : in_range range p = true <-> fst range <= p <= snd range.
Proof. unfold in_range. lia. Qed.

Lemma partition_in_range a b x : 0 < width ix -> a <= x <= b -> in_range (a / width ix, b / width ix) (x / width ix) = true.
Proof. intros Hw Hx. apply in_range_spec. cbn. split; apply Z.div_le_mono; lia. Qed.

Context (Hwidth : 0 < width ix).

(** A fill that ends while it repairs leaves its partitions to be rebuilt. *)
Lemma drop_repairs y n t x :
  guards_ok y -> sigs_ok y -> tasks y !! n = Some t -> repairs t x ->
  exists id, guard_of t = Some (Some id) /\ serial (index y) < serial (drop_mutation (Some id) (index y)) /\
    forall e', signatures (drop_mutation (Some id) (index y)) !! (x / width ix) = Some e' ->
      new_generation (index y) (drop_mutation (Some id) (index y)) e'.
Proof.
  intros Og Os Hn Hr. destruct t as [a b phase| | | | |]; try done. destruct Hr as [Hp Hx].
  assert (exists id, phase_guard phase = Some (Some id)) as [id Eg] by (destruct phase as [| |[]|[]|[]|[]|[]|[]|[]|[]]; by eauto).
  exists id. split; [done|].
  pose proof (g_guard _ Og n _ id Hn Eg) as Hw. cbn in Hw. cbn [drop_mutation]. rewrite Hw.
  assert (Ha : (w_signature_update (phase_writer (a / width ix, b / width ix) phase) &&
                negb (w_updated (phase_writer (a / width ix, b / width ix) phase)))%bool = true).
  { destruct phase as [| |[]|[]|[]|[]|[]|[] [] []|[] [] []|[] [] []]; done. }
  assert (Hrange : w_range (phase_writer (a / width ix, b / width ix) phase) = (a / width ix, b / width ix)) by (by destruct phase).
  unfold abandon_update. rewrite Ha, Hrange. split; [cbn; lia|]. intros e'. rewrite invalidate_signatures_lookup. cbn [signatures set_writers].
  destruct (signatures (index y) !! (x / width ix)) as [e|] eqn:Ee; [|done]. cbn [fmap option_fmap option_map].
  rewrite partition_in_range by done. intros [= <-]. split_and!; [cbn; lia..|exact (s_blooms _ Os _ _ Ee)|done].
Qed.

Lemma end_ok y n : system_ok y -> system_ok (end_task n y).
Proof.
  intros Ok. pose proof Ok as [Og Os Oe Od Of Ot Oc]. destruct (tasks y !! n) as [t|] eqn:Hn.
  2: { replace (end_task n y) with y; [done|]. unfold end_task. rewrite Hn, delete_id by done. by destruct y. }
  assert (Ei : index (end_task n y) = match guard_of t with Some id => drop_mutation id (index y) | None => index y end)
    by (unfold end_task; cbn; by rewrite Hn).
  set (y' := end_task n y) in *.
  assert (Hca : calmly (index y) (index y')).
  { rewrite Ei. destruct (guard_of t) as [id|] eqn:Eg; [|apply calmly_refl, Os].
    apply drop_mutation_calm; [apply Os|]. intros ->. by eapply untracked_positive. }
  assert (Hent : entries (index y') = entries (index y)).
  { rewrite Ei. destruct (guard_of t) as [id|]; [apply drop_mutation_spec|done]. }
  assert (Hdom : forall p, is_Some (signatures (index y') !! p) <-> is_Some (signatures (index y) !! p)).
  { intros p. rewrite Ei. destruct (guard_of t) as [[id|]|]; [|done|done]. cbn. destruct (writers _ !! id); [|done].
    unfold abandon_update. case_match; [|done]. rewrite invalidate_signatures_lookup. by rewrite fmap_is_Some. }
  assert (Hkeep : forall m u, tasks y' !! m = Some u <-> m <> n /\ tasks y !! m = Some u).
  { intros m u. unfold y'. cbn. rewrite lookup_delete_Some. split; (intros [? ?]; split; [congruence|done]). }
  assert (Hrep : forall x, repaired y x -> repaired y' x \/ (serial (index y) < serial (index y') /\
     forall e', signatures (index y') !! (x / width ix) = Some e' -> new_generation (index y) (index y') e')).
  { intros x (m & u & Hm & Hu). destruct (decide (m = n)) as [->|Hne].
    - right. assert (u = t) as -> by congruence. destruct (drop_repairs y n t x Og Os Hn Hu) as (id & Eg & Hs & Hd).
      rewrite Eg in Ei. by rewrite Ei.
    - left. exists m, u. split; [by apply Hkeep|done]. }
  split.
  - by apply (guards_end y y' n t).
  - eapply sigs_frame; [by apply calmly_evolves|done].
  - eapply (entries_frame y); [exact (ca_serial _ _ Hca)|by rewrite Hent| |by apply keys_kept_refl|done].
    rewrite Ei. destruct (guard_of t) as [id|]; [|intros k w Hw; by exists w]. intros k w.
    destruct (drop_mutation_spec id (index y)) as (_ & -> & _). destruct id; [intros [_ Hw]%lookup_delete_Some|intros Hw]; by exists w.
  - destruct Od. by split.
  - destruct Of as [H1 H2]. split.
    + intros m m' a b a' b' ph ph' [_ Hm]%Hkeep [_ Hm']%Hkeep. by eapply H1.
    + intros m u m' u' [_ Hm]%Hkeep Hf [_ Hm']%Hkeep. exact (H2 m u m' u' Hm Hf Hm').
  - intros m u [Hne Hm]%Hkeep. apply (task_ok_frame y); [by apply calmly_evolves| | |by apply (Ot m)].
    + intros Es x _. split; [intros Hx; by left|]. intros Hx. destruct (Hrep x Hx) as [?|[? _]]; [done|lia].
    + apply respects_same; [done|done|intros _ p; apply Hdom| |].
      * intros _ E. apply map_empty. intros p. apply eq_None_not_Some. rewrite Hdom, E, lookup_empty. apply is_Some_None.
      * rewrite Hent. intros p e' He'. right. by exists e'.
  - apply (claims_frame y); [done|done| | | |done].
    + intros x [Hx|(m & u & Hm & Hu)]; [by left|right]. apply Hkeep in Hm as [_ Hm]. by exists m, u.
    + intros x Hx. destruct (Hrep x Hx) as [?|[_ ?]]; [by left|by right].
    + intros m u p token snapshot [_ Hm]%Hkeep Hs. split; [exact (scan_token y u p token snapshot (Ot m u Hm) Hs)|]. left. by exists m, u.
Qed.

(** A new task holds nothing yet. *)
Lemma start_step y s n t :
  system_ok y -> tasks y !! n = None -> guard_of t = None -> scan_of t = None ->
  (forall x, ~ claims t x) -> calmly (index y) s ->
  signatures s = signatures (index y) -> writers s = writers (index y) -> untracked_writers s = untracked_writers (index y) ->
  (forall p e', entries s !! p = Some e' -> serial (index y) < e_token e' \/ exists e, entries (index y) !! p = Some e /\ e_token e = e_token e') ->
  (0 < untracked_writers (index y) -> entries s = ∅) ->
  entries_ok (set_task n t (set_index s y)) -> fills_ok (set_task n t (set_index s y)) ->
  task_ok (set_task n t (set_index s y)) t -> system_ok (set_task n t (set_index s y)).
Proof.
  intros Ok Hn Hg Hs Hcl Hca Esig Ew Eu Hent Hemp He Hf Ht. pose proof Ok as [Og Os Oe Od Of Ot Oc].
  set (y' := set_task n t (set_index s y)) in *.
  assert (Hold : forall m u, tasks y !! m = Some u -> tasks y' !! m = Some u).
  { intros m u Hm. unfold y'. cbn. rewrite lookup_insert_ne; [done|]. intros ->. congruence. }
  assert (Hnew : forall m u, tasks y' !! m = Some u -> u = t \/ tasks y !! m = Some u).
  { intros m u. unfold y'. cbn. intros [[_ <-]|[_ Hm]]%lookup_insert_Some; auto. }
  assert (Hrep : forall x, repaired y x -> repaired y' x) by (intros x (m & u & Hm & Hu); exists m, u; auto).
  split; [| |done|by destruct Od|done| |].
  - destruct Og as [G1 G2 G3 G4 G5 G6]. pose proof (ca_serial _ _ Hca) as Hser. split; unfold y'; cbn.
    + lia.
    + rewrite Ew. intros id w Hw. specialize (G2 id w Hw). lia.
    + rewrite Ew. intros m u id [[<- <-]|[_ Hm]]%lookup_insert_Some Hgu; [congruence|by apply (G3 m)].
    + intros m m' u u' id [[<- <-]|[Hne Hm]]%lookup_insert_Some [[<- <-]|[Hne' Hm']]%lookup_insert_Some Hgu Hgu'; [done|congruence..|by apply (G4 m m' u u' id)].
    + rewrite Eu, G5. pose proof (count_insert_fresh (tasks y) n t Hn) as Hc. unfold untracked in Hc. rewrite Hg in Hc.
      unfold count_untracked in Hc. lia.
    + rewrite Eu, Esig. intros Hpos. split; [by apply G6|by apply Hemp].
  - eapply sigs_frame; [by apply calmly_evolves|done].
  - intros m u Hm. destruct (Hnew m u Hm) as [->|Hmy]; [done|].
    apply (task_ok_frame y); [by apply calmly_evolves| | |by apply (Ot m)].
    + intros _ x _. split; [intros Hx; left; auto|auto].
    + apply respects_same; [done|done| | |done]; unfold y'; cbn; rewrite Esig; done.
  - apply (claims_frame y); [done|done| |intros x Hx; left; auto| |done].
    + intros x [Hx|(m & u & Hm & Hu)]; [by left|right]. destruct (Hnew m u Hm) as [->|Hmy]; [by destruct (Hcl x)|by exists m, u].
    + intros m u p token snapshot Hm Hsc. destruct (Hnew m u Hm) as [->|Hmy]; [congruence|].
      split; [exact (scan_token y u p token snapshot (Ot m u Hmy) Hsc)|]. left. by exists m, u.
Qed.

(** A new task that is no fill keeps the fills apart; maintenance starts without fills. *)
Lemma fills_start y n t s :
  fills_ok y -> is_fill t = false -> (is_maintenance t = true -> no_task is_fill y) -> fills_ok (set_task n t (set_index s y)).
Proof.
  intros [H1 H2] Hf Hm. split; cbn.
  - intros m m' a b a' b' ph ph' [[<- ->]|[_ Hm1]]%lookup_insert_Some; [done|].
    intros [[<- ->]|[_ Hm2]]%lookup_insert_Some; [done|]. by eapply H1.
  - intros m u m' u' [[<- <-]|[_ Hm1]]%lookup_insert_Some Hfu [[<- <-]|[_ Hm2]]%lookup_insert_Some; [congruence|congruence| |].
    + destruct (is_maintenance t) eqn:E; [|done]. specialize (Hm eq_refl m u Hm1). congruence.
    + exact (H2 m u m' u' Hm1 Hfu Hm2).
Qed.

Lemma entries_start y n t s : entries_ok y -> s = index y -> entries_ok (set_task n t (set_index s y)).
Proof. intros [H1 H2 H3] ->. by split. Qed.

Lemma plain_start y n t :
  system_ok y -> tasks y !! n = None -> guard_of t = None -> scan_of t = None -> is_fill t = false ->
  (is_maintenance t = true -> no_task is_fill y) -> task_ok (set_task n t y) t -> system_ok (set_task n t y).
Proof.
  intros Ok Hn Hg Hs Hf Hm Ht. pose proof Ok as [Og Os Oe Od Of Ot Oc].
  assert (E : set_task n t y = set_task n t (set_index (index y) y)) by (by destruct y). rewrite E in *.
  apply start_step; [done|done|done|done| |apply calmly_refl, Os|done|done|done| |apply Og|by apply entries_start|by apply fills_start|done].
  - intros x Hc. by destruct t.
  - intros p e' He'. right. by exists e'.
Qed.

Lemma fill_start y n a b :
  system_ok y -> tasks y !! n = None -> is_u64 a -> is_u64 b -> a <= b -> no_task is_maintenance y -> apart_from_fills a b y ->
  system_ok (set_task n (Fill a b (FillChecked (intersects a b (coverage y)))) y).
Proof.
  intros Ok Hn Ha Hb Hab Hm Hapart. pose proof Ok as [Og Os Oe Od Of Ot Oc].
  set (t := Fill a b _). assert (E : set_task n t y = set_task n t (set_index (index y) y)) by (by destruct y). rewrite E.
  apply start_step; [done|done|done|done| |apply calmly_refl, Os|done|done|done| |apply Og|by apply entries_start| |].
  - by intros x [? _].
  - intros p e' He'. right. by exists e'.
  - destruct Of as [H1 H2]. split; cbn.
    + intros m m' a1 b1 a2 b2 ph ph' [[<- E1]|[Hne Hm1]]%lookup_insert_Some [[<- E2]|[Hne' Hm2]]%lookup_insert_Some Hd; [done| | |by eapply H1].
      * injection E1 as <- <- <-. destruct (Hapart m' _ _ _ Hm2); lia.
      * injection E2 as <- <- <-. destruct (Hapart m _ _ _ Hm1); lia.
    + intros m u m' u' [[<- <-]|[_ Hm1]]%lookup_insert_Some Hfu [[<- <-]|[_ Hm2]]%lookup_insert_Some; [done|by apply (Hm m')|done|].
      exact (H2 m u m' u' Hm1 Hfu Hm2).
  - split; [done|]. split; [|done]. intros Hi x Hx Hin. apply (f_equal negb) in Hi. cbn in Hi.
    assert (intersects a b (coverage y) = true) as Ht; [|by rewrite Ht in Hi].
    apply intersects_spec; [apply Od|done|]. by exists x.
Qed.

Lemma address_start y n p s token :
  system_ok y -> tasks y !! n = None -> index_begin ix p (index y) = (s, Some token) ->
  system_ok (set_task n (AddressBuild p token (mkFilters None None None) [Address; HotAddress; Owner]) (set_index s y)).
Proof.
  intros Ok Hn Hb. pose proof Ok as [Og Os Oe Od Of Ot Oc]. pose proof (index_begin_calm ix p _ _ _ (s_blooms _ Os) Hb) as Hca.
  unfold index_begin in Hb. destruct (_ || _)%bool eqn:E1; [done|]. destruct (any_writer _ _) eqn:E2; [done|]. injection Hb as <- <-.
  zbool. apply start_step; [done|done|done|done|by intros x []|done|done|done|done| |cbn; lia| |by apply fills_start|].
  - cbn. intros q e' [[<- <-]|[_ Hq]]%lookup_insert_Some; [left; cbn; lia|right; by exists e'].
  - destruct Oe as [N1 N2 N3]. split; cbn.
    + intros q e [[<- <-]|[_ Hq]]%lookup_insert_Some; [cbn; lia|]. specialize (N1 q e Hq). lia.
    + intros q e id w [[<- <-]|[_ Hq]]%lookup_insert_Some Hw; [|by eapply N2].
      destruct (in_range (w_range w) p) eqn:Er; [|done]. unfold any_writer in E2.
      assert (existsb (fun e => in_range (w_range (snd e)) p) (map_to_list (writers (index y))) = true) as Hex; [|congruence].
      apply existsb_exists. exists (id, w). split; [|done]. by apply list_elem_of_In, elem_of_map_to_list.
    + intros q e f [[<- <-]|[_ Hq]]%lookup_insert_Some Hf; [done|by eapply N3].
  - split; [cbn; lia|]. intros e He _ family b Hfb. by destruct family.
Qed.

(** ** Steps that complete an entry or change what is claimed *)

Lemma base_step y y' n t t' :
  system_ok y -> tasks y !! n = Some t -> tasks y' = <[n := t']> (tasks y) -> shape t' = shape t ->
  evolves (index y) (index y') -> cov_rel y y' ->
  guards_ok y' -> entries_ok y' -> data_ok y' -> task_ok y' t' -> claims_ok y' ->
  (forall m u, m <> n -> tasks y !! m = Some u -> respects y y' u) ->
  system_ok y'.
Proof.
  intros [Og Os Oe Od Of Ot Oc] Hn Et Hsh Hev Hcr Hg He Hd Ht Hc Hresp.
  split; [done|by eapply sigs_frame|done|done|by eapply fills_frame| |done].
  intros m u. rewrite Et. intros [[<- <-]|[Hne Hm]]%lookup_insert_Some; [done|].
  apply (task_ok_frame y); [done|done|by apply Hresp with m|by apply (Ot m)].
Qed.

Context (Hquota : 0 <= quota ix).

Lemma partition_slot p x : 0 <= p <= u64_max / width ix -> is_u64 x -> x / width ix = p ->
  sat_mul p (width ix) <= x <= sat_add (sat_mul p (width ix)) (width ix - 1).
Proof.
  intros Hp Hx E. pose proof (Z.div_mod x (width ix) ltac:(lia)). pose proof (Z.mod_pos_bound x (width ix) Hwidth).
  unfold is_u64 in Hx. unfold sat_mul, sat_add. rewrite E in *. nia.
Qed.

Lemma partition_empty_spec p m x :
  map_ok m -> 0 <= p <= u64_max / width ix -> partition_empty ix p m = true -> covers m x -> x / width ix <> p.
Proof.
  intros Hok Hp He Hx E. unfold partition_empty in He. apply negb_true_iff in He.
  assert (Hu : is_u64 x). { apply covers_iff in Hx as (s & e & Hse & Hx). pose proof (mo_ranges m Hok s e Hse). unfold is_u64. lia. }
  pose proof (partition_slot p x Hp Hu E) as Hr.
  assert (Hi : intersects (sat_mul p (width ix)) (sat_add (sat_mul p (width ix)) (width ix - 1)) m = true); [|congruence].
  apply intersects_spec; [done|lia|]. by exists x.
Qed.

(** What one turn of [ensure_signature_partition] gives. *)
Lemma ensure_next_ok y reserved p e s r :
  system_ok y -> 0 <= p <= u64_max / width ix -> ensure_ok y p e ->
  ensure_next ix reserved p (coverage y) e (index y) = (s, r) ->
  match r with
  | inl e' => s = index y /\ ensure_ok y p e'
  | inr None => s = index y
  | inr (Some token) =>
      (s = index y /\ token <= serial (index y)) \/
      exists bloom complete, bloom_ok bloom /\ absent (index y) p /\
        (complete = true -> forall x, covers (coverage y) x -> x / width ix = p -> repaired y x) /\
        ensure_publish p (serial (index y)) bloom complete (index y) = (s, Some token)
  end.
Proof.
  intros Ok Hp He. pose proof Ok as [Og Os Oe Od Of Ot Oc]. destruct e as [|serial0|serial0 bloom complete]; cbn.
  - unfold ensure_start. destruct (any_writer _ _) eqn:Ea; [by intros [= <- <-]|].
    destruct (signatures (index y) !! p) as [e|] eqn:Es.
    + intros [= <- <-]. left. split; [done|by apply (s_tokens _ Os p)].
    + destruct (_ || _)%bool eqn:Eb; intros [= <- <-]; [done|]. zbool. split; [done|]. split; [lia|]. intros _. split; [done| |].
      * pose proof (g_untracked _ Og). lia.
      * intros id w Hw. destruct (w_signature_update w) eqn:Eu; [by left|right].
        destruct (in_range (w_range w) p) eqn:Er; [|done]. unfold any_writer in Ea.
        assert (existsb (fun e => negb (w_signature_update (snd e)) && in_range (w_range (snd e)) p)%bool (map_to_list (writers (index y))) = true)
          as Hex; [|congruence].
        apply existsb_exists. exists (id, w). split; [by apply list_elem_of_In, elem_of_map_to_list|]. cbn. by rewrite Eu, Er.
  - destruct (with_hashes _ _ _) as [bloom|] eqn:Eb; intros [= <- <-]; [|done]. split; [done|]. destruct He as [Hle Ha].
    split; [eapply with_hashes_ok; [|done]; unfold signature_quota; pose proof (Z.div_pos (quota ix) 3 Hquota ltac:(lia)); lia|].
    split; [done|]. intros E. split; [by apply Ha|]. intros Hcomp x Hx Ex. by destruct (partition_empty_spec p (coverage y) x (d_coverage _ Od) Hp Hcomp Hx).
  - destruct He as (Hb & Hle & Ha). destruct (ensure_publish _ _ _ _ _) as [s' token] eqn:Ep. intros [= <- <-].
    destruct (ensure_publish_spec _ _ _ _ _ _ _ (s_blooms _ Os) Hb Ep) as [[-> ->]|(E1 & E2 & -> & _)]; [done|].
    right. exists bloom, complete. destruct (Ha ltac:(lia)) as [Ha1 Ha2]. rewrite <- E1 in Ep. done.
Qed.

Lemma publish_step y s n t t' p bloom complete token :
  system_ok y -> tasks y !! n = Some t -> quiet t t' -> 0 <= p <= u64_max / width ix ->
  bloom_ok bloom -> absent (index y) p ->
  (complete = true -> forall x, covers (coverage y) x -> x / width ix = p -> repaired y x) ->
  ensure_publish p (serial (index y)) bloom complete (index y) = (s, Some token) ->
  guard_of t' = guard_of t -> (forall id, guard_of t = Some (Some id) -> expected_writer t' = expected_writer t) ->
  task_ok (set_task n t' (set_index s y)) t' -> system_ok (set_task n t' (set_index s y)).
Proof.
  intros Ok Hn [Q1 Q2 Q3 Q4] Hp Hb Ha Hcomp Hpub Eg Ex Ht. pose proof Ok as [Og Os Oe Od Of Ot Oc].
  pose proof (ensure_publish_evolves _ _ _ _ _ _ _ (s_blooms _ Os) Hb Hpub) as Hev.
  destruct (ensure_publish_spec _ _ _ _ _ _ _ (s_blooms _ Os) Hb Hpub) as [[_ ?]|(_ & Eu0 & _ & Es & Esig & Ew & Eu & Een)]; [done|].
  set (y' := set_task n t' (set_index s y)) in *.
  assert (Hrep : forall x, repaired y x -> repaired y' x) by (intros x; exact (repaired_step y y' n t t' x Hn eq_refl (Q4 x))).
  apply (base_step y y' n t t' Ok Hn eq_refl Q1 Hev); [| | | |done| |].
  - intros E. unfold y' in E. cbn in E. lia.
  - eapply (guards_frame y y' n t t'); [done|done|done|exact (ev_serial _ _ Hev)|exact Ew|exact Eu|done|done|]. lia.
  - eapply (entries_frame y); [exact (ev_serial _ _ Hev)|unfold y'; cbn; by rewrite Een| |by apply keys_kept_refl|done].
    unfold y'. cbn. rewrite Ew. intros id w Hw. by exists w.
  - by destruct Od.
  - intros e' r Hr Hrt He' Hc. unfold y' in He'. cbn in He'. rewrite Esig in He'.
    assert (Hc' : covers (coverage y) (r_slot r) \/ claimed y (r_slot r)).
    { destruct Hc as [Hc|Hc]; [by left|right]. exact (claimed_step y y' n t t' _ Hn eq_refl (Q3 _) Hc). }
    assert (Hsc : forall m u q tok snapshot, tasks y' !! m = Some u -> scan_of u = Some (q, tok, snapshot) ->
      tok <= serial (index y) /\ exists m' u', tasks y !! m' = Some u' /\ scan_of u' = Some (q, tok, snapshot)).
    { intros m u q tok snapshot. unfold y'. cbn. intros [[<- <-]|[_ Hm]]%lookup_insert_Some Hs.
      - apply Q2 in Hs. split; [exact (scan_token y t q tok snapshot (Ot n t Hn) Hs)|by exists n, t].
      - split; [exact (scan_token y u q tok snapshot (Ot m u Hm) Hs)|by exists m, u]. }
    apply lookup_insert_Some in He' as [[E <-]|[Hne He']].
    + destruct complete.
      * destruct Hc' as [Hcov|(m & u & Hm & Hu)]; [right; left; by apply Hrep, Hcomp|]. exfalso.
        destruct u as [a b phase| | | | |]; try done. destruct Hu as [Hsd Hx]. destruct (Ot m _ Hm) as (_ & _ & Hall).
        destruct (Hall Hsd (r_slot r / width ix)) as [e0 He0]; [split; apply Z.div_le_mono; lia|].
        rewrite <- E, (ab_sig _ _ Ha) in He0. done.
      * right. right. split; [done|]. intros m u snapshot Hm Hs. cbn in Hs. destruct (Hsc _ _ _ _ _ Hm Hs) as [Hle _]. lia.
    + destruct (Oc e' r Hr Hrt He' Hc') as [Hi|[Hi|[Hn' Hi]]]; [by left|right; left; auto|right; right].
      split; [done|]. intros m u snapshot Hm Hs. destruct (Hsc _ _ _ _ _ Hm Hs) as [_ (m' & u' & Hm' & Hs')]. by apply (Hi m' u').
  - intros m u Hne Hu. apply respects_same; [done|done| | |].
    + intros _ q Hq. unfold y'. cbn. rewrite Esig. destruct (decide (p = q)) as [->|Hpq]; [rewrite lookup_insert_eq|rewrite lookup_insert_ne by done]; [by eexists|done].
    + intros Hre _. exfalso. destruct u as [| | | | |id cleared]; try done. destruct cleared; [|done].
      destruct (Ot m _ Hu eq_refl) as [[[id0|] ->] _].
      * pose proof (g_guard _ Og m _ id0 Hu eq_refl) as Hw. cbn in Hw. destruct (ab_writers _ _ Ha _ _ Hw) as [?|Hr]; [done|].
        cbn in Hr. assert (in_range (0 / width ix, u64_max / width ix) p = true) as Hr'; [|congruence].
        apply in_range_spec. cbn. rewrite Z.div_0_l by lia. lia.
      * pose proof (untracked_positive y m _ Og Hu eq_refl). lia.
    + unfold y'. cbn. rewrite Een. intros q e' He'. right. by exists e'.
Qed.

(** A writer's partitions have no address entry. *)
Lemma guarded_no_entry y n t id p :
  system_ok y -> tasks y !! n = Some t -> guard_of t = Some id ->
  in_range (w_range (expected_writer t)) p = true -> entries (index y) !! p = None.
Proof.
  intros Ok Hn Hg Hr. pose proof Ok as [Og Os Oe Od Of Ot Oc]. destruct (entries (index y) !! p) as [e|] eqn:E; [|done]. exfalso.
  destruct id as [id|].
  - pose proof (n_writers _ Oe p e id _ E (g_guard _ Og n t id Hn Hg)). congruence.
  - destruct (g_cleared _ Og (untracked_positive y n t Og Hn Hg)) as [_ H]. by rewrite H, lookup_empty in E.
Qed.

Lemma family_keys_elem p family key l :
  key ∈ family_keys ix p family l <->
  exists r, r ∈ l /\ r_table r = KeyTable family /\ r_slot r / width ix = p /\ r_key r = key.
Proof.
  unfold family_keys. rewrite list_elem_of_omap. split.
  - intros (r & Hr & Hf). exists r. destruct (r_table r) as [|[]], family; try done; destruct (Z.eqb_spec (r_slot r / width ix) p); by simplify_eq.
  - intros (r & Hr & Et & Ep & Ek). exists r. split; [done|]. rewrite Et, Ep, Ek. destruct family; by rewrite Z.eqb_refl.
Qed.

Lemma fill_write_step y n a b id repair new :
  system_ok y -> tasks y !! n = Some (Fill a b (FillWriting id repair)) -> Forall (fun r => a <= r_slot r <= b) new ->
  system_ok (set_task n (Fill a b (FillWriting id repair)) (set_rows (new ++ rows y) y)).
Proof.
  intros Ok Hn Hnew. set (t := Fill a b _) in *. pose proof Ok as [Og Os Oe Od Of Ot Oc].
  destruct (Ot n t Hn) as ((Ha & Hb & Hab) & Hrep & _). cbn in Hrep.
  set (y' := set_task n t (set_rows (new ++ rows y) y)).
  assert (Htk : tasks y' = tasks y) by (unfold y'; cbn; by apply insert_id).
  assert (Hca : calmly (index y) (index y')) by apply calmly_refl, Os.
  assert (Hin : forall r, r ∈ rows y' -> r ∈ rows y \/ a <= r_slot r <= b).
  { intros r [Hr|Hr]%elem_of_app; [right; exact (proj1 (Forall_forall _ _) Hnew r Hr)|by left]. }
  assert (Hother : forall m u, m <> n -> tasks y !! m = Some u -> forall a' b' ph, u = Fill a' b' ph -> forall x, a <= x <= b -> ~ a' <= x <= b').
  { intros m u Hne Hu a' b' ph -> x Hx Hx'. destruct (f_apart _ Of n m _ _ _ _ _ _ Hn Hu (not_eq_sym Hne)); lia. }
  assert (Hkeys : keys_kept y y').
  { intros p Hp family key (r & Hr & Et & Ep & Ek)%family_keys_elem. apply family_keys_elem. exists r.
    destruct (Hin r Hr) as [?|Hx]; [done|]. exfalso.
    assert (Hno : entries (index y) !! p = None); [|destruct Hp as [e He]; unfold y' in He; cbn in He; congruence].
    apply (guarded_no_entry y n t id p Ok Hn eq_refl). cbn. rewrite <- Ep. by apply partition_in_range. }
  apply (base_step y y' n t t Ok Hn eq_refl eq_refl (calmly_evolves _ _ Hca)).
  - intros _ x _. split; [by left|]. intros (m & u & Hm & Hu). exists m, u. by rewrite Htk.
  - eapply (guards_frame y y' n t t); [done|done|done|exact (ca_serial _ _ Hca)|done|done|done|done|apply Og].
  - eapply (entries_frame y); [exact (ca_serial _ _ Hca)|done| |done|done]. intros k w Hw. by exists w.
  - destruct Od as [D1 D2 D3]. split; [done| |done]. apply Forall_app. split; [|done].
    eapply Forall_impl; [exact Hnew|]. intros r Hr. unfold is_u64 in *. cbn in Hr. lia.
  - split; [done|]. split; [done|done].
  - intros e r Hr Hrt He Hc. assert (Hc' : covers (coverage y) (r_slot r) \/ claimed y (r_slot r)).
    { destruct Hc as [?|(m & u & Hm & Hu)]; [by left|right]. exists m, u. by rewrite <- Htk. }
    assert (Hlift : claim_ok y (r_slot r / width ix) e (r_slot r) (r_key r) -> claim_ok y' (r_slot r / width ix) e (r_slot r) (r_key r)).
    { unfold claim_ok, repaired. by rewrite Htk. }
    destruct (Hin r Hr) as [Hry|Hx]; [by apply Hlift, Oc|].
    destruct id as [id|].
    2: { pose proof (untracked_positive y n t Og Hn eq_refl) as Hpos. destruct (g_cleared _ Og Hpos) as [Hs _].
         unfold y' in He. cbn in He. by rewrite Hs, lookup_empty in He. }
    right. left. destruct Hc' as [Hcov|(m & u & Hm & Hu)].
    + exists n, t. rewrite Htk. split; [done|]. split; [|done]. destruct repair; [done|]. by destruct (Hrep eq_refl _ Hcov).
    + exfalso. destruct u as [a' b' ph| | | | |]; try done. destruct Hu as [Hsd Hu]. destruct (decide (m = n)) as [->|Hne].
      * rewrite Hn in Hm. injection Hm as <- <- <-. done.
      * by apply (Hother m _ Hne Hm a' b' ph eq_refl (r_slot r)).
  - intros m u Hne Hu. split; [done|done| |].
    + intros a' b' ph E. split; [done|]. intros r Hr Hx'. destruct (Hin r Hr) as [?|Hx]; [done|].
      by destruct (Hother m u Hne Hu a' b' ph E (r_slot r) Hx).
    + intros p token filters todo _ _ e' He' Ett. split; [by exists e'|]. apply Hkeys. by eexists.
Qed.

Lemma hashed_elem x key l : (x, key) ∈ l -> (x, hash_of blake3 key) ∈ hashed blake3 l.
Proof. intros H. unfold hashed. apply list_elem_of_fmap. by exists (x, key). Qed.

(** A scan after a batch. *)
Lemma scan_batch s s' tokens seen batch :
  blooms_ok s -> scan_ok s tokens seen -> insert_signature_hashes ix tokens (hashed blake3 batch) s = (s', true) ->
  scan_ok s' tokens (seen ++ batch).
Proof.
  intros Hb Hok Hi. destruct (insert_hashes_spec _ _ _ _ _ _ Hb Hi) as (Hca & _ & _ & _ & _ & _ & Hin).
  destruct (Hin eq_refl) as [_ Hbits]. pose proof (scan_ok_frame _ _ _ _ (calmly_evolves _ _ Hca) Hok) as [H1 H2].
  split; [done|]. intros p e He Ht x key [Hx|Hx]%elem_of_app Ep; [by apply (H2 p e He Ht x)|].
  unfold indexed. apply (Hbits x); [by apply hashed_elem|by rewrite Ep].
Qed.

Lemma insert_hashes_dom tokens batch s s' ok :
  blooms_ok s -> insert_signature_hashes ix tokens batch s = (s', ok) ->
  forall p, is_Some (signatures s !! p) <-> is_Some (signatures s' !! p).
Proof.
  intros Hb Hi p. destruct (insert_hashes_spec _ _ _ _ _ _ Hb Hi) as (Hca & Es & _ & _ & _ & Hd & _). split.
  - intros Hp. destruct (Hd p Hp) as (e & e' & _ & He' & _). by eexists.
  - intros [e' He']. destruct (ca_sig _ _ Hca p e' He') as [(e & He & _)|(T & _)]; [by eexists|lia].
Qed.

Lemma empty_dom (m m' : gmap Z SignatureEntry) :
  (forall p, is_Some (m !! p) <-> is_Some (m' !! p)) -> m = ∅ -> m' = ∅.
Proof. intros Hd ->. apply map_empty. intros p. apply eq_None_not_Some. rewrite <- Hd, lookup_empty. apply is_Some_None. Qed.

Lemma fill_scanned_step y s n a b id repair tokens seen batch :
  system_ok y -> tasks y !! n = Some (Fill a b (FillScanning id repair tokens seen batch)) ->
  insert_signature_hashes ix tokens (hashed blake3 batch) (index y) = (s, true) ->
  system_ok (set_task n (Fill a b (FillScanned id repair)) (set_index s y)).
Proof.
  intros Ok Hn Hi. set (t := Fill a b (FillScanning _ _ _ _ _)) in *. set (t' := Fill a b (FillScanned id repair)).
  pose proof Ok as [Og Os Oe Od Of Ot Oc]. destruct (Ot n t Hn) as (Hu & (Hscan & Htok & Hsnap) & _).
  pose proof (scan_batch _ _ _ _ _ (s_blooms _ Os) Hscan Hi) as [_ Hall].
  pose proof (insert_hashes_dom _ _ _ _ _ (s_blooms _ Os) Hi) as Hdom.
  destruct (insert_hashes_spec _ _ _ _ _ _ (s_blooms _ Os) Hi) as (Hca & Es & Ew & Eu & Een & _ & Hin).
  destruct (Hin eq_refl) as [Hgen _].
  set (y' := set_task n t' (set_index s y)).
  assert (Hpart : forall x, a <= x <= b -> exists e, signatures s !! (x / width ix) = Some e /\ tokens !! (x / width ix) = Some (se_token e)).
  { intros x Hx. destruct (Htok (x / width ix)) as [tk Htk]; [split; apply Z.div_le_mono; lia|].
    destruct (Hgen _ _ Htk) as (e & He & Ee). exists e. by rewrite Ee. }
  assert (Hrep : forall x, repaired y x -> repaired y' x \/ a <= x <= b).
  { intros x (m & u & Hm & Hr). destruct (decide (m = n)) as [->|Hne].
    - right. rewrite Hn in Hm. injection Hm as <-. apply Hr.
    - left. exists m, u. unfold y'. cbn. rewrite lookup_insert_ne by done. done. }
  assert (Hscans : forall m u p tok snapshot, tasks y' !! m = Some u -> scan_of u = Some (p, tok, snapshot) ->
    tok <= serial (index y) /\ exists m' u', tasks y !! m' = Some u' /\ scan_of u' = Some (p, tok, snapshot)).
  { intros m u p tok snapshot. unfold y'. cbn. intros [[<- <-]|[_ Hm]]%lookup_insert_Some Hs; [done|].
    split; [exact (scan_token y u p tok snapshot (Ot m u Hm) Hs)|by exists m, u]. }
  apply (base_step y y' n t t' Ok Hn eq_refl eq_refl (calmly_evolves _ _ Hca)).
  - intros _ x Ha. split; [by left|]. intros Hx. destruct (Hrep x Hx) as [?|Hr]; [done|]. exfalso.
    destruct (Hpart x Hr) as (e & He & _). destruct (proj2 (Hdom _) (ex_intro _ e He)) as [e0 He0]. by rewrite (ab_sig _ _ Ha) in He0.
  - eapply (guards_frame y y' n t t'); [done|done|done|exact (ca_serial _ _ Hca)|exact Ew|exact Eu|done|done|].
    intros Hpos. destruct (g_cleared _ Og Hpos) as [G1 G2]. unfold y'. cbn. split; [by apply (empty_dom _ _ Hdom)|by rewrite Een].
  - eapply (entries_frame y); [exact (ca_serial _ _ Hca)|unfold y'; cbn; by rewrite Een| |by apply keys_kept_refl|done].
    unfold y'. cbn. rewrite Ew. intros k w Hw. by exists w.
  - by destruct Od.
  - split; [done|]. split; [done|]. intros _ p Hp. destruct (Htok p Hp) as [tk Htk]. destruct (Hgen _ _ Htk) as (e & He & _). unfold y'. cbn. by exists e.
  - intros e' r Hr Hrt He' Hc. unfold y' in He'. cbn in He'.
    destruct (decide (a <= r_slot r <= b)) as [Hx|Hx].
    { left. destruct (Hpart _ Hx) as (e & He & Ht). rewrite He' in He. injection He as <-.
      apply (Hall _ e' He' Ht (r_slot r)); [|done]. by apply Hsnap. }
    assert (Hc' : covers (coverage y) (r_slot r) \/ claimed y (r_slot r)).
    { destruct Hc as [?|(m & u & Hm & Hu')]; [by left|right]. unfold y' in Hm. cbn in Hm.
      apply lookup_insert_Some in Hm as [[<- <-]|[_ Hm]]; [by destruct Hu'|by exists m, u]. }
    destruct (ca_sig _ _ Hca _ _ He') as [(e & He & Et & [_ Hg] & Hcomp)|(T & _)]; [|lia].
    destruct (Oc e r Hr Hrt He Hc') as [Hind|[Hre|[Hne Hsn]]].
    + left. by apply Hg.
    + right. left. by destruct (Hrep _ Hre).
    + right. right. split; [destruct (se_complete e'); [rewrite Hcomp in Hne by done; done|done]|].
      intros m u snapshot Hm Hs. rewrite Et in Hs. destruct (Hscans _ _ _ _ _ Hm Hs) as [_ (m' & u' & Hm' & Hs')]. by apply (Hsn m' u').
  - intros m u Hne Hu'. apply respects_same; [done|done|by intros _ p Hp; apply Hdom| |].
    + intros _. by apply (empty_dom _ _ Hdom).
    + unfold y'. cbn. rewrite Een. intros p e' He'. right. by exists e'.
Qed.

Lemma fill_publish_step y n a b id repair success slots :
  system_ok y -> tasks y !! n = Some (Fill a b (FillPersisted id repair success slots)) ->
  system_ok (set_task n (Fill a b (FillPublished id repair success))
    (set_coverage (foldl (fun m slot => insert_slot slot m) (coverage y) slots) y)).
Proof.
  intros Ok Hn. set (t := Fill a b (FillPersisted _ _ _ _)) in *. set (t' := Fill a b (FillPublished id repair success)).
  pose proof Ok as [Og Os Oe Od Of Ot Oc]. destruct (Ot n t Hn) as ((Ha & Hb & Hab) & Hslots & Hent).
  assert (Hu64 : Forall is_u64 slots) by (eapply Forall_impl; [exact Hslots|]; intros x Hx; unfold is_u64 in *; cbn in Hx; lia).
  destruct (insert_slots_spec slots (coverage y) (d_coverage _ Od) Hu64) as [Hmap Hcov].
  set (y' := set_task n t' (set_coverage _ y)). change (coverage y') with (foldl (fun m slot => insert_slot slot m) (coverage y) slots) in *.
  assert (Hca : calmly (index y) (index y')) by apply calmly_refl, Os.
  assert (Hrep : forall x, repaired y x -> repaired y' x).
  { intros x. apply (repaired_step y y' n t t' x Hn eq_refl). intros [Hr Hx]. by split. }
  assert (Hnew : forall x, x ∈ slots -> a <= x <= b) by (intros x Hx; exact (proj1 (Forall_forall _ _) Hslots x Hx)).
  assert (Hself : forall x k, id = Some k -> success = false -> x ∈ slots -> repaired y' x).
  { intros x k -> -> Hx. exists n, t'. unfold y'. cbn. rewrite lookup_insert_eq. split; [done|]. split; [by destruct repair|auto]. }
  apply (base_step y y' n t t' Ok Hn eq_refl eq_refl (calmly_evolves _ _ Hca)).
  - intros _ x Hab'. split; [|auto]. intros [Hx|Hx]%Hcov; [by left|]. destruct success.
    + exfalso. destruct (Hent eq_refl (x / width ix)) as [e He]; [split; apply Z.div_le_mono; auto; apply Hnew, Hx|].
      by rewrite (ab_sig _ _ Hab') in He.
    + right. destruct id as [k|]; [by eapply Hself|]. pose proof (untracked_positive y n t Og Hn eq_refl). pose proof (ab_untracked _ _ Hab'). lia.
  - eapply (guards_frame y y' n t t'); [done|done|done|exact (ca_serial _ _ Hca)|done|done|done|done|apply Og].
  - eapply (entries_frame y); [exact (ca_serial _ _ Hca)|done| |by apply keys_kept_refl|done]. intros k w Hw. by exists w.
  - destruct Od. by split.
  - split; [done|]. split; [done|]. intros Hs. by apply Hent.
  - intros e r Hr Hrt He Hc.
    assert (Hlift : claim_ok y (r_slot r / width ix) e (r_slot r) (r_key r) -> claim_ok y' (r_slot r / width ix) e (r_slot r) (r_key r)).
    { intros [?|[?|[Hne Hsn]]]; [by left|right; left; auto|right; right]. split; [done|]. intros m u snapshot.
      unfold y'. cbn. intros [[<- <-]|[_ Hm]]%lookup_insert_Some Hs; [done|]. by apply (Hsn m u). }
    assert (Hcl : claimed y' (r_slot r) -> claimed y (r_slot r)).
    { apply (claimed_step y y' n t t' _ Hn eq_refl). intros [Hs Hx]. split; [|done]. by destruct success. }
    destruct Hc as [[Hx|Hx]%Hcov|Hc]; [apply Hlift, Oc; auto| |apply Hlift, Oc; auto].
    destruct success.
    + apply Hlift, Oc; [done|done|done|]. right. exists n, t. split; [done|]. split; [done|]. by apply Hnew.
    + destruct id as [k|]; [right; left; by eapply Hself|].
      pose proof (untracked_positive y n t Og Hn eq_refl) as Hpos. destruct (g_cleared _ Og Hpos) as [Hs _].
      unfold y' in He. cbn in He. by rewrite Hs, lookup_empty in He.
  - intros m u Hne Hu. split; [done|done| |].
    + intros a' b' ph ->. split; [|done]. intros x Hx [?|Hin]%Hcov; [done|]. exfalso. apply Hnew in Hin.
      destruct (f_apart _ Of n m _ _ _ _ _ _ Hn Hu (not_eq_sym Hne)); lia.
    + intros p token filters todo _ _ e' He' Ett. split; [by exists e'|done].
Qed.

Lemma build_read_step y n p token :
  system_ok y -> tasks y !! n = Some (Build p (BuildEnsured token)) ->
  system_ok (set_task n (Build p (BuildScanning token [] (signature_scan (fun slot => slot / width ix =? p) (rows y)))) y).
Proof.
  intros Ok Hn. set (t := Build p _) in *. set (snap := signature_scan _ _). set (t' := Build p (BuildScanning token [] snap)).
  pose proof Ok as [Og Os Oe Od Of Ot Oc]. destruct (Ot n t Hn) as [Hp Htok].
  assert (Hca : calmly (index y) (index (set_task n t' y))) by apply calmly_refl, Os. set (y' := set_task n t' y) in *.
  assert (Hrep : forall x, repaired y x -> repaired y' x) by (intros x; by apply (repaired_step y y' n t t' x Hn eq_refl)).
  apply (base_step y y' n t t' Ok Hn eq_refl eq_refl (calmly_evolves _ _ Hca)).
  - intros _ x _. split; [by left|auto].
  - eapply (guards_frame y y' n t t'); [done|done|done|exact (ca_serial _ _ Hca)|done|done|done|done|apply Og].
  - eapply (entries_frame y); [exact (ca_serial _ _ Hca)|done| |by apply keys_kept_refl|done]. intros k w Hw. by exists w.
  - by destruct Od.
  - split; [done|]. split.
    + intros q tk [<- <-]%lookup_singleton_Some. done.
    + by intros q e _ _ x key ?%elem_of_nil.
  - apply (claims_frame y); [done|done| |intros x Hx; left; auto| |done].
    + intros x [?|Hx]; [by left|right]. revert Hx. by apply (claimed_step y y' n t t' x Hn eq_refl).
    + intros m u q tok snapshot. unfold y'. cbn. intros [[<- <-]|[_ Hm]]%lookup_insert_Some Hs.
      * injection Hs as <- <- <-. split; [done|right]. intros r Hr Hrt Hq. apply list_elem_of_omap. exists r. split; [done|].
        unfold signature_row. by rewrite Hrt, Hq, Z.eqb_refl.
      * split; [exact (scan_token y u q tok snapshot (Ot m u Hm) Hs)|]. left. by exists m, u.
  - intros m u Hne Hu. apply respects_same; [done|done|done|done|]. intros q e' He'. right. by exists e'.
Qed.

Lemma build_finish_step y s n p token seen ok :
  system_ok y -> tasks y !! n = Some (Build p (BuildScanned token seen)) ->
  finish_signature_build p token (index y) = (s, ok) ->
  system_ok (set_task n (Build p (BuildEnsuring EnsureCheck)) (set_index s y)).
Proof.
  intros Ok Hn Hf. set (t := Build p (BuildScanned _ _)) in *. set (t' := Build p (BuildEnsuring EnsureCheck)).
  pose proof Ok as [Og Os Oe Od Of Ot Oc]. destruct (Ot n t Hn) as [Hp Hscan].
  pose proof (finish_build_evolves _ _ _ _ _ (s_blooms _ Os) Hf) as Hev.
  destruct (finish_build_spec _ _ _ _ _ Hf) as [->|(e & He & Et & ->)].
  { replace (set_task n t' (set_index (index y) y)) with (set_task n t' y) by (by destruct y).
    apply (quiet_data_step y y n t t'); [done|done|done|done|by split|done|done|done|by apply keys_kept_refl|done|done|done]. }
  set (s := set_signatures _ (index y)) in *. set (y' := set_task n t' (set_index s y)).
  assert (Hrep : forall x, repaired y x -> repaired y' x) by (intros x; by apply (repaired_step y y' n t t' x Hn eq_refl)).
  assert (Hdom : forall q, is_Some (signatures (index y) !! q) <-> is_Some (signatures s !! q)).
  { intros q. unfold s. cbn. destruct (decide (p = q)) as [<-|Hpq]; [rewrite lookup_insert_eq, He|by rewrite lookup_insert_ne]. split; by eexists. }
  apply (base_step y y' n t t' Ok Hn eq_refl eq_refl Hev).
  - intros _ x _. split; [by left|auto].
  - eapply (guards_frame y y' n t t'); [done|done|done|exact (ev_serial _ _ Hev)|done|done|done|done|].
    intros Hpos. destruct (g_cleared _ Og Hpos) as [Hs _]. by rewrite Hs, lookup_empty in He.
  - eapply (entries_frame y); [exact (ev_serial _ _ Hev)|done| |by apply keys_kept_refl|done]. intros k w Hw. by exists w.
  - by destruct Od.
  - done.
  - intros e' r Hr Hrt He' Hc.
    assert (Hc' : covers (coverage y) (r_slot r) \/ claimed y (r_slot r)).
    { destruct Hc as [?|Hx]; [by left|right]. revert Hx. by apply (claimed_step y y' n t t' _ Hn eq_refl). }
    assert (Hscans : forall m u q tok snapshot, tasks y' !! m = Some u -> scan_of u = Some (q, tok, snapshot) -> tasks y !! m = Some u).
    { intros m u q tok snapshot. unfold y'. cbn. intros [[<- <-]|[_ Hm]]%lookup_insert_Some Hs; [done|done]. }
    unfold y', s in He'. cbn in He'. apply lookup_insert_Some in He' as [[E <-]|[Hne He']].
    + rewrite E in He. destruct (Oc e r Hr Hrt He Hc') as [Hi|[Hi|[_ Hi]]]; [by left|right; left; auto|left].
      destruct Hscan as [_ Hs]. refine (Hs p e _ _ (r_slot r) (r_key r) _ (eq_sym E)); [by rewrite E|rewrite Et; apply lookup_singleton_eq|].
      apply (Hi n t seen Hn). cbn. by rewrite <- E, Et.
    + destruct (Oc e' r Hr Hrt He' Hc') as [Hi|[Hi|[Hn' Hi]]]; [by left|right; left; auto|right; right].
      split; [done|]. intros m u snapshot Hm Hs. by apply (Hi m u); [eapply Hscans|].
  - intros m u Hne Hu. apply respects_same; [done|done|by intros _ q Hq; apply Hdom| |].
    + intros _. by apply (empty_dom _ _ Hdom).
    + intros q e' He'. right. by exists e'.
Qed.

Lemma covered_u64 m x : map_ok m -> covers m x -> is_u64 x.
Proof. intros Hok (s & e & Hse & Hx)%covers_iff. pose proof (mo_ranges m Hok s e Hse). unfold is_u64. lia. Qed.

Lemma reloaded_spec m :
  map_Forall (fun slot (_ : SlotStatus) => is_u64 slot) m ->
  map_ok (reloaded_coverage m) /\
  forall x, covers (reloaded_coverage m) x <-> exists status, m !! x = Some status /\ served status = true.
Proof.
  intros Hm. unfold reloaded_coverage.
  assert (H : forall l c, map_ok c -> Forall (fun e => is_u64 (fst e)) l ->
    map_ok (foldl (fun c e => if served (snd e) then insert_slot (fst e) c else c) c l) /\
    forall x, covers (foldl (fun c e => if served (snd e) then insert_slot (fst e) c else c) c l) x <->
      covers c x \/ exists status, (x, status) ∈ l /\ served status = true).
  { induction l as [|[s st] l IH]; intros c Hok Hf; cbn [foldl].
    - split; [done|]. intros x. split; [by left|]. intros [?|(st & ?%elem_of_nil & _)]; done.
    - apply Forall_cons in Hf as [Hs Hf]. cbn [fst snd] in *. destruct (served st) eqn:Est.
      + destruct (insert_range_spec c s s Hok Hs Hs) as [Hok1 Hc1]. destruct (IH (insert_slot s c) Hok1 Hf) as [Hok2 Hc2].
        split; [done|]. intros x. rewrite Hc2. unfold insert_slot. rewrite Hc1. split.
        * intros [[?|?]|(st' & ? & ?)]; [by left| |].
          -- right. exists st. split; [|done]. assert (x = s) as -> by lia. by left.
          -- right. exists st'. split; [by right|done].
        * intros [?|(st' & [[= -> ->]|?]%elem_of_cons & ?)]; [by left; left| |].
          -- left. right. lia.
          -- right. by exists st'.
      + destruct (IH c Hok Hf) as [Hok2 Hc2]. split; [done|]. intros x. rewrite Hc2. split.
        * intros [?|(st' & ? & ?)]; [by left|right]. exists st'. split; [by right|done].
        * intros [?|(st' & [[= -> ->]|?]%elem_of_cons & ?)]; [by left|congruence|right]. by exists st'. }
  destruct (H (map_to_list m) coverage_new new_ok) as [Hok Hc].
  { apply Forall_forall. intros [s st] Hin%elem_of_map_to_list. exact (Hm s st Hin). }
  split; [done|]. intros x. rewrite Hc. split.
  - intros [[? [?%elem_of_nil _]]|(st & Hin%elem_of_map_to_list & ?)]; [done|by exists st].
  - intros (st & Hx & ?). right. exists st. by rewrite elem_of_map_to_list.
Qed.

Lemma refresh_data_step y y1 n id :
  system_ok y -> tasks y !! n = Some (Refresh (Some id) true) -> index y1 = index y -> tasks y1 = tasks y -> data_ok y1 ->
  system_ok (set_task n (Refresh (Some id) true) y1).
Proof.
  intros Ok Hn Ei Et Hd. set (t := Refresh (Some id) true) in *. pose proof Ok as [Og Os Oe Od Of Ot Oc].
  destruct (Ot n t Hn eq_refl) as [_ Hsig]. set (y' := set_task n t y1).
  assert (Htk : tasks y' = tasks y) by (unfold y'; cbn; rewrite Et; by apply insert_id).
  assert (Eix : index y' = index y) by exact Ei.
  assert (Hpart : forall x, is_u64 x -> in_range (w_range (expected_writer t)) (x / width ix) = true).
  { intros x Hx. apply partition_in_range; [done|exact Hx]. }
  assert (Hca : calmly (index y) (index y')) by (rewrite Eix; apply calmly_refl, Os).
  assert (Hkeys : keys_kept y y').
  { intros p [e He] family key (r & Hr & _ & Ep & _)%family_keys_elem. exfalso. rewrite Eix in He.
    rewrite (guarded_no_entry y n t id p Ok Hn eq_refl) in He; [done|]. rewrite <- Ep. apply Hpart.
    exact (proj1 (Forall_forall _ _) (d_rows _ Hd) r Hr). }
  apply (base_step y y' n t t Ok Hn).
  - by rewrite Htk, insert_id.
  - done.
  - by apply calmly_evolves.
  - intros _ x Ha. split; [|by unfold repaired; rewrite Htk]. intros Hx. exfalso.
    pose proof (Hpart x (covered_u64 _ x (d_coverage _ Hd) Hx)) as Hr. destruct id as [id|].
    + destruct (ab_writers _ _ Ha _ _ (g_guard _ Og n t id Hn eq_refl)) as [?|?]; [done|congruence].
    + pose proof (untracked_positive y n t Og Hn eq_refl). pose proof (ab_untracked _ _ Ha). lia.
  - destruct Og. split; by rewrite ?Eix, ?Htk.
  - eapply (entries_frame y); [by rewrite Eix|by rewrite Eix| |done|done]. rewrite Eix. intros k w Hw. by exists w.
  - by destruct Hd.
  - cbn. intros _. split; [by eexists|by rewrite Ei].
  - intros e r _ _ He _. rewrite Eix, Hsig in He. by rewrite lookup_empty in He.
  - intros m u Hne Hu. split; rewrite ?Eix; [done|done| |].
    + intros a b ph ->. pose proof (maintenance_alone y n t Ok Hn eq_refl m _ Hu). done.
    + intros p token filters todo _ _ e' He' Ett. split; [by exists e'|]. apply Hkeys. rewrite Eix. by eexists.
Qed.

(** ** Address filters *)

Lemma fold_insert_contains keys b key :
  bloom_ok b -> (key ∈ keys \/ bloom_contains (hash_of blake3 key) b = true) ->
  bloom_contains (hash_of blake3 key) (foldl (fun b key => bloom_insert (hash_of blake3 key) b) b keys) = true.
Proof.
  revert b. induction keys as [|k keys IH]; intros b Hb Hk; cbn [foldl].
  { destruct Hk as [?%elem_of_nil|?]; done. }
  apply IH; [by apply bloom_insert_ok|]. destruct Hk as [[->|?]%elem_of_cons|?].
  - right. by apply bloom_insert_contains.
  - by left.
  - right. by apply bloom_insert_mono.
Qed.

Lemma family_filter_contains bytes hashes reserved keys b key :
  0 <= bytes -> family_filter blake3 bytes hashes reserved keys = Some b -> key ∈ keys ->
  bloom_contains (hash_of blake3 key) b = true.
Proof.
  intros Hb. unfold family_filter. destruct (with_hashes _ _ _) as [b0|] eqn:E; [|done]. cbn. intros [= <-] Hk.
  apply fold_insert_contains; [by eapply with_hashes_ok|by left].
Qed.

Lemma address_family_ok y p token filters family todo bytes n reserved :
  0 <= bytes -> task_ok y (AddressBuild p token filters (family :: todo)) ->
  task_ok y (AddressBuild p token (set_family family (family_filter blake3 bytes n reserved (family_keys ix p family (rows y))) filters) todo).
Proof.
  intros Hb [Ht Hc]. split; [done|]. intros e He Ee g b Hg key Hkey.
  assert (g = family \/ filter_of (set_family family (family_filter blake3 bytes n reserved (family_keys ix p family (rows y))) filters) g = filter_of filters g)
    as [->|E] by (destruct g, family; by auto).
  - assert (family_filter blake3 bytes n reserved (family_keys ix p family (rows y)) = Some b) as Hf by (by destruct family).
    by eapply family_filter_contains.
  - rewrite E in Hg. by apply (Hc e He Ee g b Hg).
Qed.

(** The end of an address build, with its filters or without. *)
Lemma address_finish_ok y n p token filters todo result :
  system_ok y -> tasks y !! n = Some (AddressBuild p token filters todo) -> (result = Some filters \/ result = None) ->
  system_ok (set_index (index_finish p token result (index y)) y).
Proof.
  intros Ok Hn Hres. set (t := AddressBuild p token filters todo) in *. set (s := index_finish _ _ _ _).
  pose proof Ok as [Og Os Oe Od Of Ot Oc]. pose proof (index_finish_calm p token result _ (s_blooms _ Os)) as Hca. fold s in Hca.
  assert (Hs : signatures s = signatures (index y) /\ writers s = writers (index y) /\ untracked_writers s = untracked_writers (index y)).
  { unfold s, index_finish. destruct (entries _ !! p); [|done]. case_match; [done|]. by destruct result. }
  destruct Hs as (Esig & Ew & Eu).
  assert (Hent : forall q e', entries s !! q = Some e' -> exists e, entries (index y) !! q = Some e /\ e_token e = e_token e' /\
    forall f, e_filters e' = Some f -> e_filters e = Some f \/ filters_cover f q (rows y)).
  { intros q e'. unfold s, index_finish. destruct (entries (index y) !! p) as [e|] eqn:Ep; [|intros H; exists e'; auto].
    destruct (Z.eqb_spec (e_token e) token) as [Et|_]; cbn; [|intros H; exists e'; auto].
    destruct Hres as [->| ->]; cbn.
    - intros [[<- <-]|[_ Hq]]%lookup_insert_Some; [|exists e'; auto]. exists e. split; [done|]. split; [done|].
      intros f [= <-]. right. destruct (Ot n t Hn) as [_ Hc]. by apply (Hc e).
    - intros [_ Hq]%lookup_delete_Some. exists e'. auto. }
  assert (E : set_index s y = set_task n t (set_index s y)) by (unfold set_task, set_index; cbn; by rewrite insert_id). rewrite E.
  apply (quiet_step y (set_task n t (set_index s y)) n t t Ok Hn eq_refl); [by split|done| | |by destruct Od| |done|done|].
  - eapply (guards_frame y _ n t t); [done|done|done|exact (ca_serial _ _ Hca)|done|done|done|done|]. cbn. intros Hpos.
    destruct (g_cleared _ Og Hpos) as [G1 G2]. split; [by rewrite Esig|]. apply map_empty. intros q.
    destruct (entries s !! q) as [e'|] eqn:Eq; [|done]. destruct (Hent q e' Eq) as (e & He & _). by rewrite G2, lookup_empty in He.
  - destruct Oe as [N1 N2 N3]. pose proof (ca_serial _ _ Hca) as Hser. split; cbn.
    + intros q e' (e & He & Et & _)%Hent. rewrite <- Et. specialize (N1 q e He). lia.
    + intros q e' id w (e & He & _)%Hent Hw. rewrite Ew in Hw. by eapply N2.
    + intros q e' f (e & He & _ & Hf)%Hent Hff. destruct (Hf f Hff) as [?|?]; [by apply (N3 q e f)|done].
  - destruct (Ot n t Hn) as [Ht Hc]. pose proof (ca_serial _ _ Hca) as Hser. split; [cbn; lia|]. cbn. intros e' (e & He & Et & _)%Hent Ett.
    apply (Hc e He). congruence.
  - intros m u Hne Hu. apply respects_same; [done|done|cbn; by rewrite Esig|cbn; by rewrite Esig|]. cbn.
    intros q e' (e & He & Et & _)%Hent. right. by exists e.
Qed.

(** ** Every step keeps the invariant *)

Lemma finish_signatures_spec id success s w :
  (match id with Some k => writers s !! k = Some w | None => writers s !! 0 = None end) ->
  writers (finish_signatures id success s) =
    (match id with Some k => <[k := mkWriter (w_range w) (w_signature_update w) (w_repair w || negb success) success]> (writers s)
     | None => writers s end) /\
  untracked_writers (finish_signatures id success s) = untracked_writers s /\ entries (finish_signatures id success s) = entries s /\
  (forall p, is_Some (signatures s !! p) <-> is_Some (signatures (finish_signatures id success s) !! p)).
Proof.
  intros Hw. unfold finish_signatures.
  destruct id as [k|]; [change (default 0 (Some k)) with k|change (default 0 None) with 0]; rewrite Hw; [|done].
  destruct success; cbn; [done|]. split_and!; [done|done|done|]. intros p. rewrite map_lookup_imap. cbn.
  destruct (signatures s !! p); [|done]. split; by eexists.
Qed.

(** The writer of a fill, tracked or not. *)
Lemma own_writer y n t id :
  system_ok y -> tasks y !! n = Some t -> guard_of t = Some id ->
  match id with Some k => writers (index y) !! k = Some (expected_writer t) | None => writers (index y) !! 0 = None end.
Proof.
  intros Ok Hn Hg. pose proof (o_guards _ Ok) as Og. destruct id as [k|]; [by apply (g_guard _ Og n)|].
  destruct (writers (index y) !! 0) as [w|] eqn:E; [|done]. apply (g_ids _ Og) in E. lia.
Qed.

(** Marking the end of the update, on any index the last batch left behind. *)
Lemma fill_finish_step y s n a b phase id repair success :
  system_ok y -> tasks y !! n = Some (Fill a b phase) -> phase_guard phase = Some id ->
  phase_writer (a / width ix, b / width ix) phase = mkWriter (a / width ix, b / width ix) true repair false ->
  quiet (Fill a b phase) (Fill a b (FillUpdated id repair success)) ->
  calmly (index y) s -> writers s = writers (index y) -> untracked_writers s = untracked_writers (index y) ->
  entries s = entries (index y) -> (forall p, is_Some (signatures (index y) !! p) <-> is_Some (signatures s !! p)) ->
  (success = true -> forall p, a / width ix <= p <= b / width ix -> is_Some (signatures (index y) !! p)) ->
  system_ok (set_task n (Fill a b (FillUpdated id repair success)) (set_index (finish_signatures id success s) y)).
Proof.
  intros Ok Hn Hg Hw Hq Hca Ew Eu Een Hdom Hall. pose proof Ok as [Og Os Oe Od Of Ot Oc].
  pose proof (own_writer y n _ id Ok Hn Hg) as Hown. cbn in Hown. rewrite Hw, <- Ew in Hown.
  destruct (finish_signatures_spec id success s _ Hown) as (Fw & Fu & Fe & Fd).
  assert (Hb : blooms_ok s) by (intros p e He; destruct (ca_sig _ _ Hca p e He) as [(e0 & _ & _ & [? _] & _)|(_ & ? & _)]; done).
  apply (writer_step y _ n (Fill a b phase) _ id); [done|done|done|eapply calmly_trans; [done|by apply finish_signatures_calm]| | | |done|done| | |].
  - rewrite Fw. destruct id as [k|]; [by rewrite Ew|done].
  - by rewrite Fu.
  - by rewrite Fe.
  - cbn. by rewrite Hw.
  - intros p. by rewrite Hdom, Fd.
  - destruct (Ot n _ Hn) as [Hu _]. split; [done|]. split; [done|]. intros Hs p Hp. cbn. apply Fd, Hdom, Hall; [by destruct success|done].
Qed.

Lemma ensure_next_step y s n t t' reserved p e r :
  system_ok y -> tasks y !! n = Some t -> quiet t t' -> guard_of t' = guard_of t ->
  (forall id, guard_of t = Some (Some id) -> expected_writer t' = expected_writer t) ->
  0 <= p <= u64_max / width ix -> ensure_ok y p e ->
  ensure_next ix reserved p (coverage y) e (index y) = (s, r) ->
  (forall token, r = inr (Some token) -> token <= serial s -> evolves (index y) s -> task_ok (set_task n t' (set_index s y)) t') ->
  (forall e', r = inl e' -> s = index y -> ensure_ok y p e' -> task_ok (set_task n t' (set_index s y)) t') ->
  r <> inr None -> system_ok (set_task n t' (set_index s y)).
Proof.
  intros Ok Hn Hq Eg Ex Hp He Hs Ht1 Ht2 Hr. pose proof Ok as [Og Os Oe Od Of Ot Oc].
  pose proof (ensure_next_ok y reserved p e s r Ok Hp He Hs) as Hcase.
  assert (Hplain : s = index y -> task_ok (set_task n t' (set_index s y)) t' -> system_ok (set_task n t' (set_index s y))).
  { intros -> Ht. apply (quiet_index_step y _ n t t'); [done|done|done|apply calmly_refl, Os|done|done|done|done|done|by right|done|done]. }
  destruct r as [e'|[token|]]; [| |done].
  - destruct Hcase as [E He']. apply Hplain; [done|]. by apply (Ht2 e').
  - destruct Hcase as [[E Ht]|(bloom & complete & Hb & Ha & Hc & Hpub)].
    + apply Hplain; [done|]. apply (Ht1 token); [done|by rewrite E|]. rewrite E. apply calmly_evolves, calmly_refl, Os.
    + pose proof (ensure_publish_evolves _ _ _ _ _ _ _ (s_blooms _ Os) Hb Hpub) as Hev.
      apply (publish_step y s n t t' p bloom complete token); try done. apply (Ht1 token); [done| |done].
      destruct (ensure_publish_spec _ _ _ _ _ _ _ (s_blooms _ Os) Hb Hpub) as [[_ ?]|(_ & _ & E & E' & _)]; [done|]. injection E as ->. lia.
Qed.


Ltac quiet_solve :=
  split; [done|by intros v Hv|..];
  (intros x Hx; cbn in *; repeat match goal with H : _ /\ _ |- _ => destruct H | id : option Z |- _ => destruct id | b : bool |- _ => destruct b end; done).

Ltac easy_step := try done; try (by quiet_solve).

Lemma same_state_step y n t t' :
  system_ok y -> tasks y !! n = Some t -> quiet t t' -> guard_of t' = guard_of t ->
  (forall id, guard_of t = Some (Some id) -> expected_writer t' = expected_writer t) ->
  task_ok (set_task n t' y) t' -> system_ok (set_task n t' y).
Proof.
  intros Ok Hn Hq Eg Ex Ht. pose proof (o_data _ Ok).
  by apply (quiet_data_step y y n t t'); try done; apply keys_kept_refl.
Qed.

Lemma fill_partition a b p : is_u64 a -> is_u64 b -> a / width ix <= p <= b / width ix -> 0 <= p <= u64_max / width ix.
Proof.
  intros Ha Hb Hp. unfold is_u64 in *. assert (0 <= a / width ix) by (apply Z.div_pos; lia).
  assert (b / width ix <= u64_max / width ix) by (apply Z.div_le_mono; lia). lia.
Qed.

Lemma task_step_ok y n t t' y1 :
  system_ok y -> tasks y !! n = Some t -> task_step ix blake3 t y t' y1 ->
  (untracked_writers (index y) < untracked_writers (index y1) -> no_task scanned y) ->
  system_ok (set_task n t' y1).
Proof.
  intros Ok Hn Hs. pose proof Ok as [Og Os Oe Od Of Ot Oc]. pose proof (Ot n t Hn) as Ht.
  destruct Hs; intros Hcalm; cbn [index set_index] in Hcalm.
  - (* FillInvalidate *)
    destruct repair.
    + apply (quiet_index_step y _ n (Fill start end_ (FillChecked true))); easy_step; [apply invalidate_reads_calm, Os|by right].
    + apply (quiet_index_step y _ n (Fill start end_ (FillChecked false))); easy_step; [apply calmly_refl, Os|by right].
  - (* FillBegin *)
    eapply (mutation_step y s id n); easy_step. destruct Ht as (Hu & Hf & _). split; [exact Hu|]. split; [exact Hf|done].
  - (* FillMark *)
    pose proof (own_writer y n _ id Ok Hn eq_refl) as Hown.
    assert (Hw : writers (signature_fill id repair (index y)) =
      (match id with Some k => <[k := mkWriter (start / width ix, end_ / width ix) true repair false]> (writers (index y)) | None => writers (index y) end) /\
      untracked_writers (signature_fill id repair (index y)) = untracked_writers (index y) /\
      entries (signature_fill id repair (index y)) = entries (index y) /\ signatures (signature_fill id repair (index y)) = signatures (index y)).
    { unfold signature_fill. destruct id as [k|]; [change (default 0 (Some k)) with k|change (default 0 None) with 0]; by rewrite Hown. }
    destruct Hw as (Ew & Eu & Een & Esig).
    apply (writer_step y _ n (Fill start end_ (FillBegun id repair)) _ id); easy_step.
    + apply signature_fill_calm, Os.
    + intros p. by rewrite Esig.
    + destruct Ht as (Hu & Hf & _). split; [exact Hu|]. split; [exact Hf|done].
  - (* FillWrite *)
    by apply fill_write_step.
  - (* FillUpdate *)
    apply (same_state_step y n (Fill start end_ (FillWriting id repair))); easy_step. destruct Ht as (Hu & _ & _).
    split; [exact Hu|]. split; [|done]. split; [done|]. split; [split; [intros p tk; by rewrite lookup_empty|by intros p e _ _ x key ?%elem_of_nil]|].
    split; [lia|]. intros p Hp. lia.
  - (* FillEnsure *)
    destruct Ht as ((Ha & Hb & Hab) & (He & Hsc & Hle & Htk) & _). pose proof (fill_partition _ _ next Ha Hb ltac:(lia)) as Hp.
    eapply (ensure_next_step y s n _ _ reserved next e (inl e')); easy_step.
    intros e0 [= <-] -> He'. split; [done|]. split; [|done]. split_and!; [|done|done|done].
    apply (ensure_ok_frame y); [apply calmly_evolves, calmly_refl, Os| |done]. intros _ x _. split; [by left|].
    eapply (repaired_step y); [exact Hn|reflexivity|by intros Hx].
  - (* FillEnsured *)
    destruct Ht as ((Ha & Hb & Hab) & (He & Hsc & Hle & Htk) & _). pose proof (fill_partition _ _ next Ha Hb ltac:(lia)) as Hp.
    eapply (ensure_next_step y s n _ _ reserved next e (inr (Some token))); easy_step.
    intros tk [= <-] Hser Hev. split; [done|]. split; [|done]. split; [done|]. split; [|split; [lia|]].
    + destruct (scan_ok_frame _ _ _ _ Hev Hsc) as [S1 _]. split; [|by intros p e0 _ _ x key ?%elem_of_nil].
      intros p t0 [[<- <-]|[_ Hpt]]%lookup_insert_Some; [done|by apply (S1 p)].
    + intros p Hpr. destruct (decide (p = next)) as [->|Hne]; [rewrite lookup_insert_eq; by eexists|].
      rewrite lookup_insert_ne by done. apply Htk. lia.
  - (* FillScan *)
    destruct Ht as (Hu & (He & Hsc & Hle & Htk) & _).
    apply (same_state_step y n (Fill start end_ (FillEnsuring id repair tokens next EnsureCheck))); easy_step.
    split; [exact Hu|]. split; [|done]. split; [done|]. split; [intros p Hp; apply Htk; lia|].
    intros r Hr Hrt Hx. apply list_elem_of_omap. exists r. split; [done|]. unfold signature_row. rewrite Hrt.
    assert (in_range (start, end_) (r_slot r) = true) as -> by (apply in_range_spec; exact Hx). done.
  - (* FillBatch *)
    destruct Ht as (Hu & (Hsc & Htk & Hsnap) & _). pose proof (insert_hashes_dom _ _ _ _ _ (s_blooms _ Os) H0) as Hdom.
    pose proof (scan_batch _ _ _ _ _ (s_blooms _ Os) Hsc H0) as Hsc'.
    destruct (insert_hashes_spec _ _ _ _ _ _ (s_blooms _ Os) H0) as (Hca & _ & Ew & Eu & Een & _).
    apply (quiet_index_step y s n (Fill start end_ (FillScanning id repair tokens seen (batch ++ pending)))); easy_step.
    + right. intros p Hp. by apply Hdom.
    + by apply (empty_dom _ _ Hdom).
    + split; [exact Hu|]. split; [|done]. split_and!; [done|done|]. cbn. by rewrite <- app_assoc.
  - (* FillScanned *)
    by apply (fill_scanned_step y s n start end_ id repair tokens seen batch).
  - (* FillFinish *)
    destruct Ht as (Hu & _ & Hent).
    apply (fill_finish_step y (index y) n start end_ (FillScanned id repair)); easy_step. apply calmly_refl, Os.
  - (* FillBatchError *)
    pose proof (insert_hashes_dom _ _ _ _ _ (s_blooms _ Os) H0) as Hdom.
    destruct (insert_hashes_spec _ _ _ _ _ _ (s_blooms _ Os) H0) as (Hca & _ & Ew & Eu & Een & _).
    apply (fill_finish_step y s n start end_ (FillScanning id repair tokens seen (batch ++ pending))); easy_step.
  - (* FillFail *)
    assert (Hfail : phase_guard phase = Some id /\
      phase_writer (start / width ix, end_ / width ix) phase = mkWriter (start / width ix, end_ / width ix) true repair false /\
      quiet (Fill start end_ phase) (Fill start end_ (FillUpdated id repair false))).
    { destruct H as [(tokens & next & e & ->)|(tokens & seen & pending & ->)]; (split; [done|]; split; [done|]; quiet_solve). }
    destruct Hfail as (Hg & Hw & Hq). apply (fill_finish_step y (index y) n start end_ phase); easy_step. apply calmly_refl, Os.
  - (* FillPersist *)
    set (t := Fill start end_ (FillUpdated id repair success)) in *. set (t' := Fill start end_ (FillPersisted id repair success (map fst statuses))).
    destruct Ht as (Hu & _ & Hent). pose proof Hu as (Ha & Hb & _).
    apply (quiet_data_step y _ n t t'); easy_step.
    + destruct Od as [D1 D2 D3]. split; [done|done|]. cbn. revert D3. generalize (persisted y). clear -H Ha Hb.
      induction H as [|[x st] l [Hx _] Hl IH]; intros m Hm; cbn [foldl]; [done|]. apply IH. intros k v [[<- <-]|[_ Hk]]%lookup_insert_Some.
      * unfold is_u64 in *. cbn in *. lia.
      * by apply (Hm k v).
    + by apply keys_kept_refl.
    + split; [exact Hu|]. split; [|cbn; by destruct success]. cbn. apply Forall_forall. intros x (e & -> & He)%list_elem_of_fmap.
      by destruct (proj1 (Forall_forall _ _) H e He).
  - (* FillPublish *)
    by apply fill_publish_step.
  - (* BuildEnsure *)
    destruct Ht as [Hp He]. eapply (ensure_next_step y s n _ _ reserved p e (inl e')); easy_step.
    intros e0 [= <-] -> He'. split; [done|]. apply (ensure_ok_frame y); [apply calmly_evolves, calmly_refl, Os| |done].
    intros _ x _. split; [by left|]. eapply (repaired_step y); [exact Hn|reflexivity|by intros Hx].
  - (* BuildScan *)
    destruct Ht as [Hp He]. eapply (ensure_next_step y s n _ _ reserved p e (inr (Some token))); easy_step.
    by intros tk [= <-] Hser Hev.
  - (* BuildRead *)
    by apply build_read_step.
  - (* BuildBatch *)
    destruct Ht as [Hp Hsc]. pose proof (insert_hashes_dom _ _ _ _ _ (s_blooms _ Os) H0) as Hdom.
    pose proof (scan_batch _ _ _ _ _ (s_blooms _ Os) Hsc H0) as Hsc'.
    destruct (insert_hashes_spec _ _ _ _ _ _ (s_blooms _ Os) H0) as (Hca & _ & Ew & Eu & Een & _).
    apply (quiet_index_step y s n (Build p (BuildScanning token seen (batch ++ pending)))); easy_step.
    + split; [done|cbn; by rewrite app_assoc|done|done].
    + right. intros q Hq. by apply Hdom.
    + by apply (empty_dom _ _ Hdom).
  - (* BuildScanned *)
    destruct Ht as [Hp Hsc]. pose proof (insert_hashes_dom _ _ _ _ _ (s_blooms _ Os) H0) as Hdom.
    pose proof (scan_batch _ _ _ _ _ (s_blooms _ Os) Hsc H0) as Hsc'.
    destruct (insert_hashes_spec _ _ _ _ _ _ (s_blooms _ Os) H0) as (Hca & _ & Ew & Eu & Een & _).
    apply (quiet_index_step y s n (Build p (BuildScanning token seen batch))); easy_step.
    + right. intros q Hq. by apply Hdom.
    + by apply (empty_dom _ _ Hdom).
  - (* BuildFinish *)
    by apply (build_finish_step y s n p token seen ok).
  - (* AddressFamily *)
    apply (same_state_step y n (AddressBuild p token filters (family :: todo))); easy_step.
    exact (address_family_ok y p token filters family todo bytes n0 reserved H Ht).
  - (* PoisonInvalidate *)
    apply (quiet_index_step y _ n (Poison slot None)); easy_step; [apply invalidate_reads_calm, Os|by right].
  - (* PoisonBegin *)
    eapply (mutation_step y s id n); easy_step.
  - (* PoisonRemove *)
    destruct (remove_slot_spec (coverage y) slot (d_coverage _ Od)) as [Hmap Hcov].
    apply (quiet_data_step y _ n (Poison slot (Some id))); easy_step; [by destruct Od|by apply keys_kept_refl|]. intros x Hx. by apply Hcov.
  - (* PoisonPersist *)
    apply (quiet_data_step y _ n (Poison slot (Some id))); easy_step; [|by apply keys_kept_refl].
    destruct Od as [D1 D2 D3]. split; [done|done|]. cbn. intros k v [[<- <-]|[_ Hk]]%lookup_insert_Some; [done|by apply (D3 k v)].
  - (* EvictInvalidate *)
    pose proof (invalidate_for_eviction_calm safe _ (s_blooms _ Os)) as Hca.
    destruct safe; (apply (quiet_index_step y _ n (Evict floor None)); easy_step; by right).
  - (* EvictBegin *)
    eapply (mutation_step y s id n); easy_step.
  - (* EvictRows *)
    assert (Hsub : forall r, r ∈ List.filter keep (rows y) -> r ∈ rows y) by (by intros r [Hr _]%elem_of_filter_b).
    apply (quiet_data_step y _ n (Evict floor (Some id))); easy_step.
    + destruct Od as [D1 D2 D3]. split; [done| |done]. apply Forall_forall. intros r Hr%Hsub. exact (proj1 (Forall_forall _ _) D2 r Hr).
    + intros p _ family key (r & Hr & Hx)%family_keys_elem. apply family_keys_elem. exists r. split; [by apply Hsub|done].
  - (* EvictPersisted *)
    apply (quiet_data_step y _ n (Evict floor (Some id))); easy_step; [|by apply keys_kept_refl].
    destruct Od as [D1 D2 D3]. split; [done|done|]. cbn. revert D3. generalize (persisted y). clear.
    induction dropped as [|x l IH]; intros m Hm; cbn [foldl]; [done|]. apply IH. intros k v [_ Hk]%lookup_delete_Some. by apply (Hm k v).
  - (* EvictSignatures *)
    apply (quiet_index_step y _ n (Evict floor (Some id))); easy_step; [apply evict_signatures_calm, Os|by left|].
    intros E. cbn. rewrite E. apply map_filter_empty.
  - (* EvictCoverage *)
    destruct (remove_below_spec (coverage y) floor (d_coverage _ Od)) as [Hmap Hcov].
    apply (quiet_data_step y _ n (Evict floor (Some id))); easy_step; [by destruct Od|by apply keys_kept_refl|]. intros x Hx. by apply Hcov.
  - (* RefreshInvalidate *)
    apply (quiet_index_step y _ n (Refresh None false)); easy_step; [apply invalidate_reads_calm, Os|by right].
  - (* RefreshBegin *)
    eapply (mutation_step y s id n); easy_step.
  - (* RefreshClear *)
    apply (quiet_index_step y _ n (Refresh (Some id) false)); easy_step; [apply clear_signatures_calm, Os|by left].
  - (* RefreshTables *)
    apply (refresh_data_step y); [done|done|done|done|]. destruct Od. by split.
  - (* RefreshReload *)
    destruct (reloaded_spec (persisted y) (d_persisted _ Od)) as [Hmap _].
    apply (refresh_data_step y); [done|done|done|done|]. destruct Od. by split.
Qed.

Lemma step_ok y y' : system_ok y -> calm_step ix blake3 y y' -> system_ok y'.
Proof.
  intros Ok [Hs Hcalm]. destruct Hs.
  - by apply (task_step_ok y n t t' y').
  - by apply end_ok.
  - apply end_ok. apply (address_finish_ok y n p token filters []); auto.
  - apply end_ok. apply (address_finish_ok y n p token filters todo); auto.
  - by apply fill_start.
  - by apply plain_start.
  - by apply address_start.
  - by apply plain_start.
  - apply plain_start; done.
  - apply plain_start; done.
Qed.

(** ** Reads under a range token *)

Lemma ensure_next_evolves y reserved p e s r :
  system_ok y -> 0 <= p <= u64_max / width ix -> ensure_ok y p e ->
  ensure_next ix reserved p (coverage y) e (index y) = (s, r) -> evolves (index y) s.
Proof.
  intros Ok Hp He Hs. pose proof (s_blooms _ (o_sigs _ Ok)) as Hb. pose proof (ensure_next_ok y reserved p e s r Ok Hp He Hs) as Hc.
  assert (Hr : evolves (index y) (index y)) by by apply calmly_evolves, calmly_refl.
  destruct r as [e'|[token|]]; [by destruct Hc as [-> _]| |by rewrite Hc].
  destruct Hc as [[-> _]|(bloom & complete & Hbl & _ & _ & Hpub)]; [done|]. by eapply ensure_publish_evolves.
Qed.

Lemma task_step_evolves y n t t' y1 :
  system_ok y -> tasks y !! n = Some t -> task_step ix blake3 t y t' y1 -> evolves (index y) (index y1).
Proof.
  intros Ok Hn Hs. pose proof (s_blooms _ (o_sigs _ Ok)) as Hb. pose proof (o_tasks _ Ok n t Hn) as Ht.
  assert (Hr : evolves (index y) (index y)) by by apply calmly_evolves, calmly_refl.
  destruct Hs; cbn [index set_index set_rows set_persisted set_coverage]; try exact Hr.
  - destruct repair; [|done]. by apply calmly_evolves, invalidate_reads_calm.
  - eapply calmly_evolves, mutation_calm; done.
  - by apply calmly_evolves, signature_fill_calm.
  - destruct Ht as ((Ha & Hb' & _) & (He & _ & Hle & _) & _). eapply ensure_next_evolves; [done| |exact He|done].
    apply (fill_partition start end_); [done|done|lia].
  - destruct Ht as ((Ha & Hb' & _) & (He & _ & Hle & _) & _). eapply ensure_next_evolves; [done| |exact He|done].
    apply (fill_partition start end_); [done|done|lia].
  - by eapply calmly_evolves, insert_hashes_spec.
  - by eapply calmly_evolves, insert_hashes_spec.
  - by apply calmly_evolves, finish_signatures_calm.
  - destruct (insert_hashes_spec _ _ _ _ _ _ Hb H0) as (Hca & _). apply calmly_evolves. eapply calmly_trans; [exact Hca|].
    apply finish_signatures_calm. intros p e He. destruct (ca_sig _ _ Hca p e He) as [(e0 & _ & _ & [? _] & _)|(_ & ? & _)]; done.
  - by apply calmly_evolves, finish_signatures_calm.
  - destruct Ht as [Hp He]. by eapply ensure_next_evolves.
  - destruct Ht as [Hp He]. by eapply ensure_next_evolves.
  - by eapply calmly_evolves, insert_hashes_spec.
  - by eapply calmly_evolves, insert_hashes_spec.
  - by eapply finish_build_evolves.
  - by apply calmly_evolves, invalidate_reads_calm.
  - eapply calmly_evolves, mutation_calm; done.
  - by apply calmly_evolves, invalidate_for_eviction_calm.
  - eapply calmly_evolves, mutation_calm; done.
  - by apply calmly_evolves, evict_signatures_calm.
  - by apply calmly_evolves, invalidate_reads_calm.
  - eapply calmly_evolves, mutation_calm; done.
  - by apply calmly_evolves, clear_signatures_calm.
Qed.

Lemma end_calm y n : system_ok y -> calmly (index y) (index (end_task n y)).
Proof.
  intros Ok. unfold end_task. cbn. destruct (tasks y !! n) as [t|] eqn:Hn; [|apply calmly_refl, Ok].
  destruct (guard_of t) as [id|] eqn:Hg; [|apply calmly_refl, Ok]. apply drop_mutation_calm; [apply Ok|]. intros ->.
  by eapply untracked_positive; [apply Ok|..].
Qed.

Lemma step_evolves y y' : system_ok y -> calm_step ix blake3 y y' -> evolves (index y) (index y').
Proof.
  intros Ok [Hs _]. pose proof (s_blooms _ (o_sigs _ Ok)) as Hb.
  assert (Hr : evolves (index y) (index y)) by by apply calmly_evolves, calmly_refl.
  destruct Hs; try exact Hr.
  - exact (task_step_evolves y n t t' y' Ok H H0).
  - by apply calmly_evolves, end_calm.
  - apply calmly_evolves. eapply calmly_trans; [exact (index_finish_calm p token (Some filters) _ Hb)|].
    exact (end_calm _ n (address_finish_ok y n p token filters [] (Some filters) Ok H (or_introl eq_refl))).
  - apply calmly_evolves. eapply calmly_trans; [exact (index_finish_calm p token None _ Hb)|].
    exact (end_calm _ n (address_finish_ok y n p token filters todo None Ok H (or_intror eq_refl))).
  - by eapply calmly_evolves, index_begin_calm.
Qed.

(** No writer can touch the partitions from [lo] to [hi]. *)
Record zone_clear (lo hi : Z) (s : State) : Prop := {
  z_untracked : untracked_writers s = 0;
  z_writers : forall id w p, writers s !! id = Some w -> lo <= p <= hi -> in_range (w_range w) p = false;
}.

Lemma zone_still lo hi s s' : still s s' -> zone_clear lo hi s -> zone_clear lo hi s'.
Proof.
  intros [_ Hu Hw] [Z1 Z2]. split; [auto|]. intros id w' p Hw' Hp. destruct (Hw id w' Hw') as (w & Hwi & Er & _).
  rewrite Er. by eapply Z2.
Qed.

(** The tables and the coverage map agree on the slots of the zone. *)
Record same_zone (lo hi : Z) (y y' : System) : Prop := {
  sz_rows : forall r, lo <= r_slot r / width ix <= hi -> r ∈ rows y <-> r ∈ rows y';
  sz_persisted : forall x, is_u64 x -> lo <= x / width ix <= hi -> persisted y !! x = persisted y' !! x;
  sz_coverage : forall x, lo <= x / width ix <= hi -> covers (coverage y) x <-> covers (coverage y') x;
}.

Lemma zone_guard lo hi y n t id p :
  system_ok y -> zone_clear lo hi (index y) -> tasks y !! n = Some t -> guard_of t = Some id -> lo <= p <= hi ->
  in_range (w_range (expected_writer t)) p = false.
Proof.
  intros Ok [Z1 Z2] Hn Hg Hp. destruct id as [id|].
  - by eapply Z2; [apply (g_guard _ (o_guards _ Ok) n t id)|].
  - pose proof (untracked_positive y n t (o_guards _ Ok) Hn Hg). lia.
Qed.

Lemma same_zone_data lo hi y y' : rows y' = rows y -> persisted y' = persisted y -> coverage y' = coverage y -> same_zone lo hi y y'.
Proof. intros E1 E2 E3. split; intros; by rewrite ?E1, ?E2, ?E3. Qed.

Lemma task_step_zone lo hi y n t t' y1 :
  system_ok y -> zone_clear lo hi (index y) -> tasks y !! n = Some t -> task_step ix blake3 t y t' y1 -> same_zone lo hi y y1.
Proof.
  intros Ok Hz Hn Hs. pose proof (o_tasks _ Ok n t Hn) as Ht. pose proof (d_coverage _ (o_data _ Ok)) as Hmap.
  assert (Hout : forall id p, guard_of t = Some id -> lo <= p <= hi -> in_range (w_range (expected_writer t)) p = false)
    by (intros id p; by apply (zone_guard lo hi y n t id p)).
  assert (Hfill : forall a b phase id x, t = Fill a b phase -> guard_of t = Some id -> a <= x <= b -> ~ lo <= x / width ix <= hi).
  { intros a b phase id x -> Hg Hx Hp. pose proof (Hout id _ Hg Hp) as Hr. cbn in Hr.
    assert (w_range (phase_writer (a / width ix, b / width ix) phase) = (a / width ix, b / width ix)) as E by (by destruct phase).
    rewrite E, partition_in_range in Hr by done. done. }
  destruct Hs; try by apply same_zone_data.
  - split; [|done|done]. intros r Hr. cbn. rewrite elem_of_app. split; [by right|]. intros [Hin|]; [|done]. exfalso.
    apply (Hfill start end_ _ id (r_slot r) eq_refl eq_refl); [|done]. exact (proj1 (Forall_forall _ _) H r Hin).
  - split; [done| |done]. intros x _ Hx. cbn. revert H. generalize (persisted y). induction statuses as [|[s st] l IH]; intros m Hf; cbn [foldl]; [done|].
    apply Forall_cons in Hf as [[Hs _] Hf]. rewrite <- IH by done. cbn. rewrite lookup_insert_ne; [done|]. intros ->.
    by apply (Hfill start end_ _ id x eq_refl eq_refl).
  - split; [done|done|]. intros x Hx. cbn. destruct Ht as ((Ha & Hb & _) & Hsl & _).
    assert (Hu : Forall is_u64 slots) by (eapply Forall_impl; [exact Hsl|]; intros z Hz'; unfold is_u64 in *; cbn in Hz'; lia).
    rewrite (proj2 (insert_slots_spec slots (coverage y) Hmap Hu) x). split; [by left|]. intros [|Hin]; [done|]. exfalso.
    apply (Hfill start end_ _ id x eq_refl eq_refl); [|done]. exact (proj1 (Forall_forall _ _) Hsl x Hin).
  - split; [done|done|]. intros x Hx. cbn. rewrite (proj2 (remove_slot_spec (coverage y) slot Hmap) x). split; [|by intros []].
    intros Hc. split; [done|]. intros ->. pose proof (Hout id _ eq_refl Hx) as Hr. cbn in Hr.
    rewrite (partition_in_range slot slot slot Hwidth ltac:(lia)) in Hr. done.
  - split; [done| |done]. intros x _ Hx. cbn. rewrite lookup_insert_ne; [done|]. intros ->. pose proof (Hout id _ eq_refl Hx) as Hr. cbn in Hr.
    rewrite (partition_in_range x x x Hwidth ltac:(lia)) in Hr. done.
  - split; [|done|done]. intros r Hr. cbn. rewrite elem_of_filter_b. split; [|by intros []]. intros Hin. split; [done|].
    destruct (keep r) eqn:Ek; [done|]. exfalso. specialize (H r Ek). pose proof (Hout id _ eq_refl Hr) as Hw. cbn in Hw.
    assert (is_u64 (r_slot r)) as Hu by exact (proj1 (Forall_forall _ _) (d_rows _ (o_data _ Ok)) r Hin).
    rewrite (partition_in_range 0 (floor - 1) (r_slot r) Hwidth) in Hw; [done|]. unfold is_u64 in Hu.
    assert (r_slot r < floor); [|lia]. destruct (Z.lt_ge_cases (r_slot r) floor) as [|Hge]; [done|].
    pose proof (Z.div_le_mono floor (r_slot r) (width ix) Hwidth Hge). lia.
  - split; [done| |done]. intros x _ Hx. cbn. revert H. generalize (persisted y). induction dropped as [|s l IH]; intros m Hf; cbn [foldl]; [done|].
    apply Forall_cons in Hf as [[Hs0 Hs] Hf]. rewrite <- IH by done. cbn. rewrite lookup_delete_ne; [done|]. intros ->.
    pose proof (Hout id _ eq_refl Hx) as Hw. cbn in Hw.
    rewrite (partition_in_range 0 (floor - 1) x Hwidth) in Hw; [done|].
    assert (x < floor); [|lia]. destruct (Z.lt_ge_cases x floor) as [|Hge]; [done|].
    pose proof (Z.div_le_mono floor x (width ix) Hwidth Hge). lia.
  - split; [done|done|]. intros x Hx. cbn. rewrite (proj2 (remove_below_spec (coverage y) floor Hmap) x). split; [|by intros []].
    intros Hc. split; [done|]. destruct (Z.lt_ge_cases x floor) as [Hlt|]; [|done]. exfalso. pose proof (Hout id _ eq_refl Hx) as Hw. cbn in Hw.
    pose proof (covered_u64 _ x Hmap Hc) as Hu. unfold is_u64 in Hu.
    rewrite (partition_in_range 0 (floor - 1) x Hwidth) in Hw; [done|lia].
  - split.
    + intros r Hr. cbn. split; intros Hin; exfalso.
      * pose proof (proj1 (Forall_forall _ _) (d_rows _ (o_data _ Ok)) r Hin) as Hu. pose proof (Hout id _ eq_refl Hr) as Hw. cbn in Hw, Hu.
        rewrite (partition_in_range 0 u64_max (r_slot r) Hwidth) in Hw; [done|exact Hu].
      * pose proof (proj1 (Forall_forall _ _) H r Hin) as Hu. pose proof (Hout id _ eq_refl Hr) as Hw. cbn in Hw, Hu.
        rewrite (partition_in_range 0 u64_max (r_slot r) Hwidth) in Hw; [done|exact Hu].
    + intros x Hu Hx. exfalso. pose proof (Hout id _ eq_refl Hx) as Hw. cbn in Hw.
      rewrite (partition_in_range 0 u64_max x Hwidth) in Hw; [done|exact Hu].
    + done.
  - split; [done|done|]. intros x Hx. cbn. destruct (reloaded_spec (persisted y) (d_persisted _ (o_data _ Ok))) as [Hm' _].
    split; intros Hc; exfalso; pose proof (Hout id _ eq_refl Hx) as Hw; cbn in Hw.
    + rewrite (partition_in_range 0 u64_max x Hwidth) in Hw; [done|exact (covered_u64 _ x Hmap Hc)].
    + rewrite (partition_in_range 0 u64_max x Hwidth) in Hw; [done|exact (covered_u64 _ x Hm' Hc)].
Qed.

Lemma step_zone lo hi y y' : system_ok y -> zone_clear lo hi (index y) -> calm_step ix blake3 y y' -> same_zone lo hi y y'.
Proof.
  intros Ok Hz [Hs _]. destruct Hs; try by apply same_zone_data.
  destruct (task_step_zone lo hi y n t t' y' Ok Hz H H0) as [S1 S2 S3]. by split.
Qed.

Lemma same_zone_trans lo hi y1 y2 y3 : same_zone lo hi y1 y2 -> same_zone lo hi y2 y3 -> same_zone lo hi y1 y3.
Proof.
  intros [A1 A2 A3] [B1 B2 B3]. split.
  - intros r Hr. by rewrite A1, B1.
  - intros x Hu Hx. by rewrite A2, B2.
  - intros x Hx. by rewrite A3, B3.
Qed.

Lemma run_serial y y' : system_ok y -> rtc (calm_step ix blake3) y y' -> serial (index y) <= serial (index y').
Proof.
  intros Ok H. induction H as [y|y y1 y' H1 _ IH]; [lia|]. pose proof (ev_serial _ _ (step_evolves y y1 Ok H1)).
  specialize (IH (step_ok _ _ Ok H1)). lia.
Qed.

Lemma run_zone lo hi y y' :
  system_ok y -> zone_clear lo hi (index y) -> rtc (calm_step ix blake3) y y' -> serial (index y) = serial (index y') -> same_zone lo hi y y'.
Proof.
  intros Ok Hz H. induction H as [y|y y1 y' H1 H2 IH]; intros E; [by apply same_zone_data|].
  pose proof (step_ok _ _ Ok H1) as Ok1. pose proof (step_evolves y y1 Ok H1) as Hev. pose proof (ev_serial _ _ Hev).
  pose proof (run_serial y1 y' Ok1 H2).
  eapply same_zone_trans; [by apply step_zone|]. apply IH; [done| |lia].
  apply (zone_still _ _ (index y)); [apply Hev; lia|done].
Qed.

Lemma token_zone start end_ s tok :
  range_read_token ix start end_ s = Some tok -> zone_clear (start / width ix) (end_ / width ix) s /\ snd tok = serial s.
Proof.
  unfold range_read_token. destruct (_ && _)%bool eqn:E; [|done]. intros [= <-]. split; [|done].
  apply andb_prop in E as [E1 E2]. apply negb_true_iff in E2. split; [lia|]. intros id w p Hw Hp.
  destruct (in_range (w_range w) p) eqn:Er; [|done]. apply in_range_spec in Er. exfalso. unfold any_writer in E2.
  assert (existsb (fun e => (fst (w_range (snd e)) <=? end_ / width ix) && (start / width ix <=? snd (w_range (snd e))))%bool
    (map_to_list (writers s)) = true) as Hex; [|cbn in E2; congruence].
  apply existsb_exists. exists (id, w). split; [by apply list_elem_of_In, elem_of_map_to_list|]. cbn. lia.
Qed.

Lemma system_open_ok l m c :
  map_ok c -> Forall (fun r => is_u64 (r_slot r)) l -> map_Forall (fun slot (_ : SlotStatus) => is_u64 slot) m ->
  system_ok (system_open l m c).
Proof.
  intros Hc Hl Hm. split.
  - split; cbn; [done|by intros id w ?%lookup_empty_Some|by intros n t id ?%lookup_empty_Some|by intros n n' t t' id ?%lookup_empty_Some| |done].
    by rewrite map_filter_empty, map_size_empty.
  - split; intros p e; cbn; by rewrite lookup_empty.
  - split; intros p e; cbn; by rewrite lookup_empty.
  - by split.
  - split; [intros n n' a b a' b' ph ph'|intros n t n' t']; cbn; by rewrite lookup_empty.
  - intros n t. cbn. by rewrite lookup_empty.
  - intros e r _ _. cbn. by rewrite lookup_empty.
Qed.

Lemma run_ok y y' : system_ok y -> rtc (calm_step ix blake3) y y' -> system_ok y'.
Proof. intros Ok H. induction H as [y|y y1 y' H1 _ IH]; [done|]. apply IH. by eapply step_ok. Qed.

End Sound.

(** ** What the filters promise *)

(** The state of the tables when a cache opens. *)
Record open_tables (l : list Row) (m : gmap Z SlotStatus) (c : CoverageMap) : Prop := {
  ot_coverage : map_ok c;
  ot_rows : Forall (fun r => is_u64 (r_slot r)) l;
  ot_persisted : map_Forall (fun slot (_ : SlotStatus) => is_u64 slot) m;
}.

Lemma partitions_down_elem floor tip p : p ∈ partitions_down floor tip <-> floor <= p <= tip.
Proof. unfold partitions_down. rewrite list_elem_of_In, <- in_rev, <- list_elem_of_In, elem_of_seqZ. lia. Qed.

Lemma candidates_keep h s l acc p :
  p ∈ candidate_partitions acc -> p ∈ candidate_partitions (foldl (candidate_step h s) acc l).
Proof.
  revert acc. induction l as [|q l IH]; intros acc Hp; cbn [foldl]; [done|]. apply IH. unfold candidate_step.
  destruct (match signatures s !! q with Some _ => _ | None => _ end) as [e|]; cbn; [destruct (bloom_contains _ _)|]; set_solver.
Qed.

Lemma candidates_skip h s l acc p :
  p ∈ l -> p ∉ candidate_partitions (foldl (candidate_step h s) acc l) ->
  exists e, signatures s !! p = Some e /\ se_complete e = true /\ any_writer (repairing p) s = false /\ bloom_contains h (se_bloom e) = false.
Proof.
  revert acc. induction l as [|q l IH]; intros acc; [by intros ?%elem_of_nil|]. cbn [foldl]. intros [->|Hp]%elem_of_cons Hno; [|by eapply IH].
  assert (H : q ∉ candidate_partitions (candidate_step h s acc q)) by (intros H; by apply Hno, candidates_keep). clear Hno IH.
  unfold candidate_step in H. destruct (signatures s !! q) as [e|]; [|cbn in H; set_solver].
  destruct (se_complete e) eqn:Ec; [|cbn in H; set_solver]. destruct (any_writer _ s) eqn:Ea; [cbn in H; set_solver|]. cbn in H.
  destruct (bloom_contains h (se_bloom e)) eqn:Eb; [set_solver|]. by exists e.
Qed.

Lemma lookup_complete ix blake3 l m c y floor tip r :
  0 < width ix -> 0 <= quota ix -> open_tables l m c -> rtc (calm_step ix blake3) (system_open l m c) y ->
  r ∈ rows y -> r_table r = SignatureTable -> covers (coverage y) (r_slot r) -> floor <= r_slot r / width ix <= tip ->
  r_slot r / width ix ∈ candidate_partitions (signature_candidates floor tip (hash_of blake3 (r_key r)) (index y)).
Proof.
  intros Hw Hq [H1 H2 H3] Hrun Hr Ht Hc Hp. pose proof (run_ok ix blake3 Hw Hq _ _ (system_open_ok ix blake3 l m c H1 H2 H3) Hrun) as Ok.
  destruct (decide (r_slot r / width ix ∈ candidate_partitions (signature_candidates floor tip (hash_of blake3 (r_key r)) (index y)))) as [|Hno]; [done|].
  exfalso. destruct (candidates_skip _ _ _ _ _ (proj2 (partitions_down_elem floor tip _) Hp) Hno) as (e & He & Ec & Ea & Eb).
  destruct (o_claims _ _ _ Ok e r Hr Ht He (or_introl Hc)) as [Hi|[(n & t & Hn & Hrep)|[? _]]]; [unfold indexed in Hi; congruence| |congruence].
  destruct t as [a b phase| | | | |]; try done. destruct Hrep as [Hph Hx].
  assert (exists id, phase_guard phase = Some (Some id)) as [id Hid] by (destruct phase as [| |[]|[]|[]|[]|[]|[]|[]|[]]; by eauto).
  pose proof (g_guard _ _ (o_guards _ _ _ Ok) n _ id Hn Hid) as Hwr. cbn in Hwr.
  assert (any_writer (repairing (r_slot r / width ix)) (index y) = true); [|congruence].
  unfold any_writer. apply existsb_exists. exists (id, phase_writer (a / width ix, b / width ix) phase).
  split; [by apply list_elem_of_In, elem_of_map_to_list|]. cbn. unfold repairing.
  assert (Hrange : w_range (phase_writer (a / width ix, b / width ix) phase) = (a / width ix, b / width ix)) by (by destruct phase).
  rewrite Hrange, partition_in_range by done. rewrite andb_true_r.
  destruct phase as [| |[]|[]|[]|[]|[]|[]|[]|[]]; done.
Qed.

(** C8: a signature lookup skips no partition that holds the signature at a covered slot.
    Whatever fills, builders, evictions, schema rebuilds and poisoned slots interleave, a
    partition whose covered slots have a row of the signature is among the candidates, as
    long as no writer beyond the tracking limit starts beside a fill that has scanned its
    rows and not yet dropped its guard. *)
Theorem signature_lookup_complete ix blake3 l m c y floor tip r :
  0 < width ix -> 0 <= quota ix -> open_tables l m c -> rtc (calm_step ix blake3) (system_open l m c) y ->
  r ∈ rows y -> r_table r = SignatureTable -> covers (coverage y) (r_slot r) -> floor <= r_slot r / width ix <= tip ->
  r_slot r / width ix ∈ candidate_partitions (signature_candidates floor tip (hash_of blake3 (r_key r)) (index y)).
Proof. apply lookup_complete. Qed.

(** An address filter that reports absence is right: whatever interleaves, when the
    membership of a key in a partition is known to be negative, no row of the families
    asked for has the key at any slot of the partition, covered or not. *)
Theorem address_absence_sound ix blake3 l m c y p families key family r :
  0 < width ix -> 0 <= quota ix -> open_tables l m c -> rtc (calm_step ix blake3) (system_open l m c) y ->
  membership p families (hash_of blake3 key) (index y) = Some false ->
  family ∈ families -> r ∈ rows y -> r_table r = KeyTable family -> r_slot r / width ix = p -> r_key r <> key.
Proof.
  intros Hw Hq [H1 H2 H3] Hrun Hm Hf Hr Ht Hp Hk. pose proof (run_ok ix blake3 Hw Hq _ _ (system_open_ok ix blake3 l m c H1 H2 H3) Hrun) as Ok.
  unfold membership in Hm. destruct (entries (index y) !! p) as [e|] eqn:Ee; [|done]. destruct (e_filters e) as [f|] eqn:Ef; [|done].
  assert (H : forall present fs, families_contain f (hash_of blake3 key) present fs = Some false ->
    present = false /\ forall g, g ∈ fs -> exists b, filter_of f g = Some b /\ bloom_contains (hash_of blake3 key) b = false).
  { intros present fs. revert present. induction fs as [|g fs IH]; intros present; cbn.
    - intros [= ->]. split; [done|]. by intros g ?%elem_of_nil.
    - destruct (filter_of f g) as [b|] eqn:Eg; [|done]. intros [Hor Hall]%IH. apply orb_false_elim in Hor as [-> Hb]. split; [done|].
      intros g' [->|Hg]%elem_of_cons; [by exists b|auto]. }
  destruct (H false families Hm) as [_ Hall]. destruct (Hall family Hf) as (b & Hb & Hc).
  pose proof (n_filters _ _ _ (o_entries _ _ _ Ok) p e f Ee Ef family b Hb key) as Hcov.
  rewrite Hcov in Hc; [done|]. apply family_keys_elem. by exists r.
Qed.

(** C26: a read between two equal range tokens is a consistent snapshot.  If the token of a
    slot range is granted before a read and found unchanged after it, then no row, no
    persisted status and no coverage of the range changed in between, in every run whose steps
    are calm: no writer beyond the tracking limit starts beside a scanned fill. *)
Theorem range_token_snapshot ix blake3 l m c y1 y2 y3 start end_ tok :
  0 < width ix -> 0 <= quota ix -> open_tables l m c ->
  rtc (calm_step ix blake3) (system_open l m c) y1 -> rtc (calm_step ix blake3) y1 y2 -> rtc (calm_step ix blake3) y2 y3 ->
  range_read_token ix start end_ (index y1) = Some tok -> range_read_token ix start end_ (index y3) = Some tok ->
  (forall r, start <= r_slot r <= end_ -> r ∈ rows y1 <-> r ∈ rows y2) /\
  (forall x, is_u64 x -> start <= x <= end_ -> persisted y1 !! x = persisted y2 !! x) /\
  (forall x, start <= x <= end_ -> covers (coverage y1) x <-> covers (coverage y2) x).
Proof.
  intros Hw Hq [H1 H2 H3] Hr1 Hr2 Hr3 Ht1 Ht3.
  pose proof (run_ok ix blake3 Hw Hq _ _ (system_open_ok ix blake3 l m c H1 H2 H3) Hr1) as Ok1. pose proof (run_ok ix blake3 Hw Hq _ _ Ok1 Hr2) as Ok2.
  destruct (token_zone _ _ _ _ _ Ht1) as [Hz Es1]. destruct (token_zone _ _ _ _ _ Ht3) as [_ Es3].
  pose proof (run_serial ix blake3 Hw Hq _ _ Ok1 Hr2). pose proof (run_serial ix blake3 Hw Hq _ _ Ok2 Hr3).
  destruct (run_zone ix blake3 Hw Hq _ _ y1 y2 Ok1 Hz Hr2 ltac:(lia)) as [S1 S2 S3].
  assert (Hp : forall x, start <= x <= end_ -> start / width ix <= x / width ix <= end_ / width ix)
    by (intros x Hx; split; apply Z.div_le_mono; lia).
  split_and!; [intros r Hr; apply S1|intros x Hu Hx; apply S2|intros x Hx; apply S3]; auto.
Qed.
