(* ===== verification/DiskReads.v ===== *)
(** * DiskReads: signature reads of the disk cache

    Models the signature part of [crates/superbank-rpc/src/disk_cache/key_reads.rs]: finding a
    transaction by its signature, in one fused query or partition by partition, and the
    statuses of a batch of signatures, in one query over a span of partitions or partition by
    partition.  The candidate partitions come from the filters of [KeyIndex]; the tables are
    those of the system [KeyTasks] describes, as one read sees them.  A position is a slot: a
    signature occurs at most once in a slot. *)

From S2P Require Import Prelude Text BTree CoverageMap KeyIndex KeyTasks.

Open Scope list_scope.
Open Scope Z_scope.

(** What a read sees: the system, whether the cache is ready, the retention floor and the
    payload table. *)
Record Local (P : Type) := mkLocal {
  lo_system : System; lo_ready : bool; lo_min_retained : Z; lo_payload : list Z -> Z -> option P;
}.
Arguments lo_system {P}.
Arguments lo_ready {P}.
Arguments lo_min_retained {P}.
Arguments lo_payload {P}.

(** ** Queries of the local database *)

Definition is_position (key : list Z) (range : Z * Z) (r : Row) : bool :=
  match r_table r with SignatureTable => true | KeyTable _ => false end && bool_decide (r_key r = key) && (fst range <=? r_slot r) && (r_slot r <=? snd range).

(** [get_signature_slot], [argMax] of a status query: the newest row of a key in a slot range. *)
Fixpoint newest_in (key : list Z) (range : Z * Z) (rows : list Row) : option Z :=
  match rows with
  | [] => None
  | r :: rest =>
      let newest := newest_in key range rest in
      if is_position key range r then Some (match newest with Some x => Z.max x (r_slot r) | None => r_slot r end) else newest
  end.

(** [partition_slot_span], and the scope of one partition. *)
Definition partition_slot_span (width newest oldest : Z) : Z * Z := (sat_mul oldest width, sat_sub (sat_mul (sat_add newest 1) width) 1).
Definition partition_range (width partition : Z) : Z * Z := (partition * width, partition * width + width - 1).

Inductive DiskTransactionResult (P : Type) := TxFound (slot : Z) (record : P) | TxAbsent | TxUnavailable.
Arguments TxFound {P}.
Arguments TxAbsent {P}.
Arguments TxUnavailable {P}.
Inductive FusedRead (P : Type) := FusedRow (slot : Z) (record : P) | FusedEmpty | FusedRejected | FusedNotRun.
Arguments FusedRow {P}.
Arguments FusedEmpty {P}.
Arguments FusedRejected {P}.
Arguments FusedNotRun {P}.

(** [DISK_CACHE_FUSED_GET_TX], [DISK_CACHE_GET_TX_SPAN_CHECK], [DISK_CACHE_STATUS_SPAN_QUERY] *)
Record ReadConfig := mkReadConfig { fused_get_tx : bool; get_tx_span_check : bool; status_span_query : bool }.

Section Reads.
Context (ix : KeyIndex) (blake3 : list Z -> list Z) {P : Type} (db : Local P).

Local Abbreviation y := (lo_system db).

(** [covers_slot] *)
Definition covers_slot (slot : Z) : bool := lo_ready db && (lo_min_retained db <=? slot) && contains_slot slot (coverage y).

(** [signature_candidates], [position_candidates] *)
Definition read_candidates (floor tip : Z) (key : list Z) : SignatureCandidates :=
  signature_candidates (floor / width ix) (tip / width ix) (hash_of blake3 key) (index y).
Definition position_candidates (key : list Z) : option SignatureCandidates :=
  match covered_span (coverage y) with
  | None => None
  | Some (floor, tip) =>
      let c := read_candidates floor tip key in
      match candidate_partitions c with [] => None | _ => Some c end
  end.

(** The probes of [find_position_in]: newest partition first; the first position decides.
    [find_position_within] adds what may stop them. *)
Fixpoint find_position_in (partitions : list Z) (key : list Z) : option Z :=
  match partitions with
  | [] => None
  | partition :: rest =>
      match newest_in key (partition_range (width ix) partition) (rows y) with
      | Some slot => if covers_slot slot then Some slot else None
      | None => find_position_in rest key
      end
  end.

(** [ProbeBudget::candidate], [Read::candidate]: the deadline, and one probe of a partition whose
    membership is unknown *)
Definition probe (on_time : bool) (budget : Z) (unknown : bool) : result Z unit :=
  if negb on_time then Err tt else if negb unknown then Ok budget else if budget =? 0 then Err tt else Ok (budget - 1).
(** [find_position_in] of a read with [unknown_probe_limit] probes; [on_time] is whether the
    deadline is still ahead when a partition's turn comes. *)
Fixpoint find_position_within (on_time : Z -> bool) (budget : Z) (unknown partitions : list Z) (key : list Z) : result (option Z) unit :=
  match partitions with
  | [] => Ok None
  | partition :: rest =>
      let? budget := probe (on_time partition) budget (bool_decide (partition ∈ unknown)) in
      match newest_in key (partition_range (width ix) partition) (rows y) with
      | Some slot => Ok (if covers_slot slot then Some slot else None)
      | None => find_position_within on_time budget unknown rest key
      end
  end.
(** [find_position], and [signature_position_until], whose read allows two unknown partitions;
    [valid] is [valid_read] when it ends. *)
Definition find_position (on_time : Z -> bool) (limit : Z) (key : list Z) : result (option Z) unit :=
  match position_candidates key with
  | Some c => find_position_within on_time limit (unknown_partitions c) (candidate_partitions c) key
  | None => Ok None
  end.
Definition signature_position_until (on_time : Z -> bool) (valid : bool) (key : list Z) : option Z :=
  match find_position on_time 2 key with Ok (Some slot) => if valid then Some slot else None | _ => None end.

(** [fused_read] *)
Definition fused_read (candidates : SignatureCandidates) (key : list Z) : FusedRead P :=
  match head (candidate_partitions candidates), last (candidate_partitions candidates) with
  | Some newest, Some oldest =>
      match newest_in key (partition_slot_span (width ix) newest oldest) (rows y) with
      | None => FusedEmpty
      | Some slot =>
          match lo_payload db key slot with
          | None => FusedEmpty
          | Some record =>
              if covers_slot slot && bool_decide (slot / width ix ∈ candidate_partitions candidates) then FusedRow slot record
              else FusedRejected
          end
      end
  | _, _ => FusedNotRun
  end.

(** [span_check_first], [span_has_position] *)
Definition span_check_first (fused : FusedRead P) (candidate_count : nat) : bool :=
  match fused with FusedEmpty => (1 <? candidate_count)%nat | _ => false end.
Definition span_has_position (candidates : SignatureCandidates) (key : list Z) : bool :=
  match head (candidate_partitions candidates), last (candidate_partitions candidates) with
  | Some newest, Some oldest => bool_decide (is_Some (newest_in key (partition_slot_span (width ix) newest oldest) (rows y)))
  | _, _ => true
  end.

(** [slot_status], [absent_at]: a covered or skipped pinned slot proves absence. *)
Definition slot_status (slot : Z) : SlotStatus := if covers_slot slot then default NotCovered (persisted y !! slot) else NotCovered.
Definition absent_at (covered_slot : option Z) : DiskTransactionResult P :=
  match covered_slot with
  | Some slot => match slot_status slot with NotCovered => TxUnavailable | _ => TxAbsent end
  | None => TxUnavailable
  end.

(** [two_step_transaction] *)
Definition two_step_transaction (candidates : SignatureCandidates) (key : list Z) (covered_slot : option Z) (span_check : bool) :
    DiskTransactionResult P :=
  if span_check && negb (span_has_position candidates key) then absent_at covered_slot
  else
    match find_position_in (candidate_partitions candidates) key with
    | Some slot => match lo_payload db key slot with Some record => if covers_slot slot then TxFound slot record else TxUnavailable | None => TxUnavailable end
    | None => absent_at covered_slot
    end.

(** [read_transaction] *)
Definition read_transaction (cfg : ReadConfig) (key : list Z) (requested_slot : option Z) : DiskTransactionResult P :=
  let covered_slot := match requested_slot with Some slot => if covers_slot slot then Some slot else None | None => None end in
  match position_candidates key with
  | None => absent_at covered_slot
  | Some candidates =>
      if negb (fused_get_tx cfg) then two_step_transaction candidates key covered_slot false
      else
        let fused := fused_read candidates key in
        let span_check := get_tx_span_check cfg && span_check_first fused (length (candidate_partitions candidates)) in
        match fused with
        | FusedRow slot record => TxFound slot record
        | _ => two_step_transaction candidates key covered_slot span_check
        end
  end.

(** ** Statuses *)

(** [status_candidates]: the signatures to ask each partition for, oldest partition first. *)
Definition add_candidate (key : list Z) (m : btree (list (list Z))) (partition : Z) : btree (list (list Z)) :=
  bt_insert partition (default [] (bt_get partition m) ++ [key]) m.
Definition status_candidates (floor tip : Z) (keys : list (list Z)) : btree (list (list Z)) :=
  foldl (fun m key => foldl (add_candidate key) m (candidate_partitions (read_candidates floor tip key))) [] keys.

(** [status_span] *)
Definition STATUS_SPAN_MAX_LOOKUPS : Z := 1024.
Definition STATUS_SPAN_MAX_OVERREAD : Z := 4.
Definition status_span (by_partition : btree (list (list Z))) : option (Z * Z * list (list Z)) :=
  match head by_partition, last by_partition with
  | Some (oldest, _), Some (newest, _) =>
      let pairs := foldr (fun e n => zlen (snd e) + n) 0 by_partition in
      let pending := remove_dups (concat (map snd by_partition)) in
      let span := sat_add (newest - oldest) 1 in
      let lookups := sat_mul (zlen pending) span in
      if lookups <=? Z.max STATUS_SPAN_MAX_LOOKUPS (sat_mul pairs STATUS_SPAN_MAX_OVERREAD) then Some (oldest, newest, pending) else None
  | _, _ => None
  end.

(** [record_statuses] of a status query over [range]. *)
Definition record_status (range : Z * Z) (found : gmap (list Z) (option Z)) (key : list Z) : gmap (list Z) (option Z) :=
  match newest_in key range (rows y) with
  | Some slot => <[key := if covers_slot slot then Some slot else None]> found
  | None => found
  end.
Definition query_statuses (range : Z * Z) (pending : list (list Z)) (found : gmap (list Z) (option Z)) : gmap (list Z) (option Z) :=
  foldl (record_status range) found pending.

(** The loop of [find_statuses], newest partition first; the deadline allows [queries] more
    turns.  The flag says whether it completed. *)
Fixpoint find_loop (partitions : list (Z * list (list Z))) (queries : nat) (found : gmap (list Z) (option Z)) : gmap (list Z) (option Z) * bool :=
  match partitions with
  | [] => (found, true)
  | (partition, keys) :: rest =>
      match queries with
      | O => (found, false)
      | S queries' =>
          let pending := List.filter (fun key => negb (bool_decide (is_Some (found !! key)))) keys in
          match pending with
          | [] => find_loop rest queries' found
          | _ => find_loop rest queries' (query_statuses (partition_range (width ix) partition) pending found)
          end
      end
  end.

(** [find_statuses] *)
Definition find_statuses (span : option (Z * Z)) (keys : list (list Z)) (single_query : bool) (queries : nat) :
    gmap (list Z) (option Z) * bool :=
  match span with
  | None => (∅, true)
  | Some (floor, tip) =>
      let by_partition := status_candidates floor tip keys in
      match (if single_query then status_span by_partition else None) with
      | Some (oldest, newest, pending) =>
          match queries with
          | O => (∅, false)
          | S _ => (query_statuses (partition_slot_span (width ix) newest oldest) pending ∅, true)
          end
      | None => find_loop (rev by_partition) queries ∅
      end
  end.

Inductive DiskStatusLookup := StatusFound (slot : Z) | StatusAbsent | StatusUnknown.

(** [classify_status] *)
Definition classify_status (found : option (option Z)) (provable : bool) : DiskStatusLookup :=
  match found with
  | Some (Some slot) => StatusFound slot
  | Some None => StatusUnknown
  | None => if provable then StatusAbsent else StatusUnknown
  end.

(** [sig_statuses]: [served] and [valid] say whether the index epoch was unchanged when the
    attempt ended and when its outcome is judged. *)
Definition sig_statuses (keys : list (list Z)) (single_query : bool) (queries : nat) (served valid : bool) : list DiskStatusLookup * option (Z * Z) :=
  if negb (lo_ready db) then (map (fun _ => StatusUnknown) keys, None)
  else
    let span := covered_span (coverage y) in
    let contiguous := bool_decide (is_Some span) && bool_decide (span = contiguous_tip_span (coverage y)) in
    let '(found, completed) := find_statuses span keys single_query queries in
    let result := completed && served && existsb (fun key => bool_decide (is_Some (mjoin (found !! key)))) keys in
    let found := if negb result && negb valid then ∅ else found in
    let span := if completed && valid && contiguous then (fun s => (Z.max (fst s) (lo_min_retained db), snd s)) <$> span else None in
    (map (fun key => classify_status (found !! key) (bool_decide (is_Some span))) keys, span).
End Reads.

(** ** Serving a read *)

Inductive ReadChange := ChangeNone | ChangeNegatives | ChangeData.

(** [read_change]: the epochs at the start and at the end of a read. *)
Definition read_change (ready : bool) (epoch data_epoch now_epoch now_data_epoch : Z) : ReadChange :=
  if negb ready || negb (now_data_epoch =? data_epoch) then ChangeData
  else if negb (now_epoch =? epoch) then ChangeNegatives else ChangeNone.

(** [transaction_outcome]; [None] is a read that failed or ran out of time. *)
Definition transaction_outcome {P} (result : option (DiskTransactionResult P)) (change : ReadChange) (covers_now : Z -> bool) : DiskTransactionResult P :=
  match result, change with
  | Some value, ChangeNone => value
  | Some (TxFound slot record), ChangeNegatives => if covers_now slot then TxFound slot record else TxUnavailable
  | _, _ => TxUnavailable
  end.
