(* ===== verification/DiskReadsSound.v ===== *)
(** * DiskReadsSound: local signature reads are exact

    A read that sees one state of the tables answers the same whichever way it queries them:
    fused or in two steps, over a span or partition by partition.  The filters are used
    through [IndexComplete], which [KeyTasksSound] proves of every interleaving. *)

From S2P Require Import Prelude Text BTree CoverageMap KeyIndex KeyTasks KeyFacts KeyTasksSound DiskReads.

Open Scope list_scope.
Open Scope Z_scope.

(** What the filters promise: no partition with a covered row of a key is skipped. *)
Class IndexComplete (ix : KeyIndex) (blake3 : list Z -> list Z) (y : System) : Prop := {
  ic_width : 0 < width ix;
  ic_coverage : map_ok (coverage y);
  ic_candidate : forall floor tip r, r ∈ rows y -> r_table r = SignatureTable -> covers (coverage y) (r_slot r) ->
    floor <= r_slot r / width ix <= tip ->
    r_slot r / width ix ∈ candidate_partitions (signature_candidates floor tip (hash_of blake3 (r_key r)) (index y));
}.

(** ** Queries *)

Lemma is_position_iff key range r :
  is_position key range r = true <-> r_table r = SignatureTable /\ r_key r = key /\ fst range <= r_slot r <= snd range.
Proof.
  unfold is_position. destruct (r_table r); [|cbn; naive_solver]. rewrite !andb_true_iff, bool_decide_eq_true, !Z.leb_le. naive_solver.
Qed.

Lemma newest_in_none key range l : newest_in key range l = None <-> forall r, r ∈ l -> is_position key range r = false.
Proof.
  induction l as [|r l IH]; cbn; [split; [intros _ r []%elem_of_nil|done]|]. destruct (is_position key range r) eqn:Hr.
  - split; [done|]. intros H. specialize (H r). rewrite Hr in H. by ospecialize (H _); [left|].
  - rewrite IH. setoid_rewrite elem_of_cons. naive_solver.
Qed.

Lemma newest_in_some key range l x : newest_in key range l = Some x ->
  (exists r, r ∈ l /\ is_position key range r = true /\ r_slot r = x) /\ forall r, r ∈ l -> is_position key range r = true -> r_slot r <= x.
Proof.
  revert x. induction l as [|r l IH]; intros x; cbn; [done|]. destruct (is_position key range r) eqn:Hr.
  - destruct (newest_in key range l) as [n|] eqn:Hn; intros [= <-].
    + destruct (IH n eq_refl) as [(r' & Hin & Hp & Hs) Hmax]. split.
      * destruct (Z.max_spec n (r_slot r)) as [[_ ->]|[_ ->]]; [exists r; set_solver|exists r'; set_solver].
      * intros r0 [->|Hr0]%elem_of_cons Hp0; [lia|]. specialize (Hmax r0 Hr0 Hp0). lia.
    + split; [exists r; set_solver|]. intros r0 [->|Hr0]%elem_of_cons Hp0; [lia|]. rewrite (proj1 (newest_in_none _ _ _) Hn r0 Hr0) in Hp0. done.
  - intros H. destruct (IH x H) as [(r' & Hin & Hp & Hs) Hmax]. split; [exists r'; set_solver|].
    intros r0 [->|Hr0]%elem_of_cons Hp0; [congruence|by apply Hmax].
Qed.

(** A smaller range misses what a larger one misses. *)
Definition within (small large : Z * Z) : Prop := fst large <= fst small /\ snd small <= snd large.

Lemma position_within key small large r : within small large -> is_position key small r = true -> is_position key large r = true.
Proof. unfold within. rewrite !is_position_iff. intros. naive_solver lia. Qed.

Lemma newest_within_none key small large l : within small large -> newest_in key large l = None -> newest_in key small l = None.
Proof.
  intros Hw H. apply newest_in_none. intros r Hr. destruct (is_position key small r) eqn:Hp; [|done].
  pose proof (position_within _ _ _ _ Hw Hp) as Hl. by rewrite (proj1 (newest_in_none _ _ _) H r Hr) in Hl.
Qed.

(** The newest row of the larger range, when it is in the smaller one, is its newest too. *)
Lemma newest_within key small large l x : within small large -> newest_in key large l = Some x -> fst small <= x <= snd small ->
  newest_in key small l = Some x.
Proof.
  intros Hw H Hx. destruct (newest_in_some _ _ _ _ H) as [(r & Hr & Hp & Hs) Hmax].
  assert (Hps : is_position key small r = true) by (apply is_position_iff in Hp; apply is_position_iff; naive_solver lia).
  destruct (newest_in key small l) as [z|] eqn:Hz.
  - destruct (newest_in_some _ _ _ _ Hz) as [(r' & Hr' & Hp' & Hs') Hmax']. specialize (Hmax' r Hr Hps).
    specialize (Hmax r' Hr' (position_within _ _ _ _ Hw Hp')). f_equal. lia.
  - rewrite (proj1 (newest_in_none _ _ _) Hz r Hr) in Hps. done.
Qed.

(** Older than the newest: partitions above its own hold nothing. *)
Lemma newest_above key small large l x : within small large -> newest_in key large l = Some x -> x < fst small -> newest_in key small l = None.
Proof.
  intros Hw H Hx. apply newest_in_none. intros r Hr. destruct (is_position key small r) eqn:Hp; [|done].
  destruct (newest_in_some _ _ _ _ H) as [_ Hmax]. specialize (Hmax r Hr (position_within _ _ _ _ Hw Hp)). apply is_position_iff in Hp. lia.
Qed.

(** ** Candidates *)

Lemma candidate_fold h s l : forall acc,
  exists ps us total, foldl (candidate_step h s) acc l =
    mkCandidates (candidate_partitions acc ++ ps) total (unknown_partitions acc ++ us) /\ ps `sublist_of` l.
Proof.
  induction l as [|p l IH]; intros acc; cbn [foldl].
  - exists [], [], (candidate_total acc). rewrite !app_nil_r. by destruct acc.
  - destruct (IH (candidate_step h s acc p)) as (ps & us & total & -> & Hsub).
    assert (Hstep : candidate_partitions (candidate_step h s acc p) = candidate_partitions acc ++ [p] \/
                    candidate_partitions (candidate_step h s acc p) = candidate_partitions acc) by
      (unfold candidate_step; repeat case_match; cbn; auto).
    assert (Hun : exists vs, unknown_partitions (candidate_step h s acc p) = unknown_partitions acc ++ vs) by
      (unfold candidate_step; repeat case_match; cbn; eauto using app_nil_r; by exists []; rewrite app_nil_r).
    destruct Hun as [vs ->]. rewrite <- app_assoc. destruct Hstep as [->| ->].
    + rewrite <- app_assoc. exists (p :: ps), (vs ++ us), total. split; [done|by constructor].
    + exists ps, (vs ++ us), total. split; [done|by constructor].
Qed.

Lemma candidates_sublist floor tip h s : candidate_partitions (signature_candidates floor tip h s) `sublist_of` partitions_down floor tip.
Proof.
  unfold signature_candidates. destruct (candidate_fold h s (partitions_down floor tip) (mkCandidates [] 0 [])) as (ps & us & total & -> & Hsub). done.
Qed.

Definition descending (l : list Z) : Prop := StronglySorted (fun a b => b < a) l.

Lemma candidates_descending floor tip h s : descending (candidate_partitions (signature_candidates floor tip h s)).
Proof. eapply sublist_sorted; [apply candidates_sublist|]. exact (sorted_rev _ _ (seqZ_sorted _ _)). Qed.

Lemma descending_bounds ps newest oldest p : descending ps -> head ps = Some newest -> last ps = Some oldest -> p ∈ ps -> oldest <= p <= newest.
Proof.
  intros Hd Hh Hl Hp. split.
  - apply last_Some in Hl as (k & ->). apply StronglySorted_app in Hd as (Hlt & _). apply elem_of_app in Hp as [Hp|Hp].
    + specialize (Hlt p oldest Hp). ospecialize (Hlt _); [by apply list_elem_of_singleton|]. lia.
    + apply list_elem_of_singleton in Hp as ->. lia.
  - destruct ps as [|n ps]; [done|]. injection Hh as ->. apply StronglySorted_inv in Hd as [_ Hall]. rewrite Forall_forall in Hall.
    apply elem_of_cons in Hp as [->|Hp]; [lia|]. specialize (Hall p Hp). cbn in Hall. lia.
Qed.

Lemma partition_within w newest oldest p : 0 < w -> 0 <= oldest <= p -> p <= newest -> (newest + 1) * w <= u64_max ->
  within (partition_range w p) (partition_slot_span w newest oldest).
Proof.
  intros Hw Ho Hn Hf. unfold within, partition_range, partition_slot_span, sat_mul, sat_sub, sat_add. cbn [fst snd].
  assert (newest + 1 <= u64_max) by nia. rewrite (Z.min_r u64_max (newest + 1)) by done. rewrite (Z.min_r u64_max ((newest + 1) * w)) by done. nia.
Qed.

Lemma slot_in_partition w x : 0 < w -> fst (partition_range w (x / w)) <= x <= snd (partition_range w (x / w)).
Proof. intros Hw. unfold partition_range. cbn. pose proof (Z.mul_div_le x w Hw). pose proof (Z.mul_succ_div_gt x w Hw). lia. Qed.

Section Exact.
Context (ix : KeyIndex) (blake3 : list Z -> list Z) {P : Type} (db : Local P) `{!IndexComplete ix blake3 (lo_system db)}.
Local Abbreviation y := (lo_system db).

(** Slots stay a partition below the largest 64-bit number. *)
Context (Hfit : forall floor tip, covered_span (coverage y) = Some (floor, tip) -> 0 <= floor /\ tip + width ix <= u64_max).

Lemma covers_slot_covers x : covers_slot db x = true -> covers (coverage y) x.
Proof. unfold covers_slot. intros H. zbool. by apply contains_slot_spec; [apply ic_coverage|]. Qed.

(** The candidates of a read, newest first, and their span. *)
Record span_ok (ps : list Z) (range : Z * Z) : Prop := {
  sp_descending : descending ps;
  sp_within : forall p, p ∈ ps -> within (partition_range (width ix) p) range;
}.

Lemma candidates_span floor tip key newest oldest : covered_span (coverage y) = Some (floor, tip) ->
  let ps := candidate_partitions (read_candidates ix blake3 db floor tip key) in
  head ps = Some newest -> last ps = Some oldest -> span_ok ps (partition_slot_span (width ix) newest oldest).
Proof.
  intros Hs ps Hh Hl. pose proof ic_width as Hw. destruct (Hfit _ _ Hs) as [Hf Ht].
  assert (Hd : descending ps) by apply candidates_descending. split; [done|]. intros p Hp.
  assert (Hin : forall q, q ∈ ps -> floor / width ix <= q <= tip / width ix) by (intros q Hq; by apply partitions_down_elem, (elem_of_sublist _ _ _ Hq), candidates_sublist).
  destruct (descending_bounds _ _ _ _ Hd Hh Hl Hp) as [Ho Hn]. apply partition_within; [done| |done|].
  - split; [|done]. destruct (Hin oldest); [apply last_Some in Hl as (k & ->); set_solver|]. pose proof (Z.div_pos floor (width ix) Hf Hw). lia.
  - destruct (Hin newest); [destruct ps; [done|]; injection Hh as ->; set_solver|]. pose proof (Z.mul_div_le tip (width ix) Hw). nia.
Qed.

Lemma find_none ps key range : span_ok ps range -> newest_in key range (rows y) = None -> find_position_in ix db ps key = None.
Proof.
  intros [_ Hw] Hn. induction ps as [|p ps IH]; [done|]. cbn [find_position_in].
  rewrite (newest_within_none _ _ _ _ (Hw p (list_elem_of_here _ _)) Hn). apply IH. intros q Hq. by apply Hw, list_elem_of_further.
Qed.

Lemma find_newest ps key range x : span_ok ps range -> newest_in key range (rows y) = Some x -> x / width ix ∈ ps ->
  find_position_in ix db ps key = if covers_slot db x then Some x else None.
Proof.
  intros [Hd Hw] Hx. pose proof ic_width as Hpos. induction ps as [|p ps IH]; [by intros ?%elem_of_nil|].
  apply StronglySorted_inv in Hd as [Hd Hall]. intros Hp. cbn [find_position_in]. destruct (decide (p = x / width ix)) as [->|Hne].
  - by rewrite (newest_within _ _ _ _ x (Hw _ (list_elem_of_here _ _)) Hx (slot_in_partition _ _ Hpos)).
  - apply elem_of_cons in Hp as [Hp|Hp]; [congruence|]. rewrite Forall_forall in Hall. specialize (Hall _ Hp). cbn in Hall.
    rewrite (newest_above _ _ _ _ _ (Hw p (list_elem_of_here _ _)) Hx).
    + apply IH; [done|intros q Hq; by apply Hw, list_elem_of_further|done].
    + pose proof (slot_in_partition (width ix) x Hpos) as Hsl. unfold partition_range in *. cbn in *. nia.
Qed.

Lemma position_candidates_span key c : position_candidates ix blake3 db key = Some c ->
  exists newest oldest, head (candidate_partitions c) = Some newest /\ last (candidate_partitions c) = Some oldest /\
    span_ok (candidate_partitions c) (partition_slot_span (width ix) newest oldest).
Proof.
  unfold position_candidates. destruct (covered_span (coverage y)) as [[floor tip]|] eqn:Hs in |- *; [|done].
  destruct (candidate_partitions (read_candidates ix blake3 db floor tip key)) as [|n ps] eqn:Hps; [done|]. intros [= <-].
  destruct (last (n :: ps)) as [o|] eqn:Hl; [|by apply last_None in Hl]. exists n, o. rewrite Hps. split_and!; [done|done|].
  rewrite <- Hps. by apply (candidates_span floor tip key); [done|rewrite Hps..].
Qed.

(** The span query only says earlier what every probe would. *)
Lemma span_check_same c key covered_slot b : position_candidates ix blake3 db key = Some c ->
  two_step_transaction ix db c key covered_slot b = two_step_transaction ix db c key covered_slot false.
Proof.
  intros Hc. destruct (position_candidates_span _ _ Hc) as (newest & oldest & Hh & Hl & Hspan). unfold two_step_transaction, span_has_position.
  rewrite Hh, Hl. case_bool_decide as Hn; [by rewrite andb_false_r|]. destruct b; [|done]. cbn [andb negb].
  by rewrite (find_none _ _ _ Hspan (proj2 (eq_None_not_Some _) Hn)).
Qed.

(** A row the fused query serves is the one the probes find. *)
Lemma fused_row_same c key covered_slot slot record : position_candidates ix blake3 db key = Some c -> fused_read ix db c key = FusedRow slot record ->
  two_step_transaction ix db c key covered_slot false = TxFound slot record.
Proof.
  intros Hc. destruct (position_candidates_span _ _ Hc) as (newest & oldest & Hh & Hl & Hspan). unfold fused_read. rewrite Hh, Hl.
  destruct (newest_in key _ (rows y)) as [x|] eqn:Hx; [|done]. destruct (lo_payload db key x) as [r|] eqn:Hp; [|done].
  destruct (covers_slot db x) eqn:Hcov; [|done]. case_bool_decide as Hin; [|done]. intros [= <- <-]. unfold two_step_transaction. cbn [andb].
  rewrite (find_newest _ _ _ _ Hspan Hx Hin), Hcov. cbn beta iota. by rewrite Hp, Hcov.
Qed.

Lemma fused_same cfg key requested_slot :
  read_transaction ix blake3 db cfg key requested_slot = read_transaction ix blake3 db (mkReadConfig false false false) key requested_slot.
Proof.
  unfold read_transaction. destruct (position_candidates ix blake3 db key) as [c|] eqn:Hc; [|done]. cbn [fused_get_tx negb].
  destruct (fused_get_tx cfg); [|done]. cbn [negb].
  destruct (fused_read ix db c key) as [slot record| | |] eqn:Hf; [symmetry; by apply fused_row_same|by apply span_check_same..].
Qed.

(** ** Exactness *)

(** A signature lands once. *)
Definition lands_once : Prop :=
  forall r r', r ∈ rows y -> r' ∈ rows y -> r_table r = SignatureTable -> r_table r' = SignatureTable -> r_key r = r_key r' -> r_slot r = r_slot r'.
(** The key has a row at a slot the cache covers. *)
Definition landed (key : list Z) (slot : Z) : Prop :=
  covers_slot db slot = true /\ exists r, r ∈ rows y /\ r_table r = SignatureTable /\ r_key r = key /\ r_slot r = slot.

Lemma newest_landed key range slot : newest_in key range (rows y) = Some slot -> covers_slot db slot = true -> landed key slot.
Proof.
  intros H Hc. split; [done|]. destruct (newest_in_some _ _ _ _ H) as [(r & Hr & Hp%is_position_iff & Hs) _]. exists r. naive_solver.
Qed.

(** A landed key is found wherever its slot is in range. *)
Lemma landed_newest (Hone : lands_once) key slot range : landed key slot -> fst range <= slot <= snd range -> newest_in key range (rows y) = Some slot.
Proof.
  intros [_ (r & Hr & Ht & Hk & <-)] Hrange. assert (Hp : is_position key range r = true) by (by apply is_position_iff).
  destruct (newest_in key range (rows y)) as [x|] eqn:Hx.
  - destruct (newest_in_some _ _ _ _ Hx) as [(r' & Hr' & (Ht' & Hk' & _)%is_position_iff & <-) _]. f_equal. apply Hone; congruence.
  - by rewrite (proj1 (newest_in_none _ _ _) Hx r Hr) in Hp.
Qed.

Lemma landed_candidate floor tip key slot : covered_span (coverage y) = Some (floor, tip) -> landed key slot ->
  slot / width ix ∈ candidate_partitions (read_candidates ix blake3 db floor tip key).
Proof.
  intros Hs [Hc%covers_slot_covers (r & Hr & Ht & <- & <-)]. pose proof ic_width as Hw. apply ic_candidate; [done..|].
  pose proof (covered_span_spec _ ic_coverage) as Hspan. rewrite Hs in Hspan. destruct Hspan as (_ & _ & Hall). specialize (Hall _ Hc).
  split; apply Z.div_le_mono; lia.
Qed.

(** The probes find exactly a landed key. *)
Lemma find_landed (Hone : lands_once) floor tip key slot : covered_span (coverage y) = Some (floor, tip) ->
  find_position_in ix db (candidate_partitions (read_candidates ix blake3 db floor tip key)) key = Some slot <-> landed key slot.
Proof.
  intros Hs. set (ps := candidate_partitions _). pose proof ic_width as Hw. split.
  - induction ps as [|p ps IH]; [done|]. cbn [find_position_in]. destruct (newest_in _ _ _) as [x|] eqn:Hx; [|done].
    destruct (covers_slot db x) eqn:Hc; [|done]. intros [= <-]. by eapply newest_landed.
  - intros Hl. pose proof (landed_candidate _ _ _ _ Hs Hl) as Hp. fold ps in Hp. pose proof (proj1 Hl) as Hc.
    destruct (head ps) as [newest|] eqn:Hh; [|by destruct ps; [apply elem_of_nil in Hp|]].
    destruct (last ps) as [oldest|] eqn:Hla; [|by apply last_None in Hla; rewrite Hla in Hp; apply elem_of_nil in Hp].
    pose proof (candidates_span floor tip key _ _ Hs Hh Hla) as Hspan. fold ps in Hspan.
    assert (Hx : newest_in key (partition_slot_span (width ix) newest oldest) (rows y) = Some slot).
    { apply landed_newest; [done|done|]. pose proof (sp_within _ _ Hspan _ Hp) as [H1 H2]. pose proof (slot_in_partition (width ix) slot Hw). lia. }
    by rewrite (find_newest _ _ _ _ Hspan Hx Hp), Hc.
Qed.

(** A search that the deadline and the budget let through is the search without them, and a
    budget of as many probes as there are unknown partitions lets it through. *)
Lemma find_within_exact on_time unknown ps key : forall budget,
  (forall r, find_position_within ix db on_time budget unknown ps key = Ok r -> r = find_position_in ix db ps key) /\
  ((forall p, on_time p = true) -> zlen (List.filter (fun p => bool_decide (p ∈ unknown)) ps) <= budget ->
    find_position_within ix db on_time budget unknown ps key = Ok (find_position_in ix db ps key)).
Proof.
  induction ps as [|p ps IH]; intros budget; cbn [find_position_within find_position_in]; [by split; [intros r [= <-]|]|]. unfold probe.
  destruct (newest_in key (partition_range (width ix) p) (rows y)) as [x|]; split.
  - intros r. destruct (negb (on_time p)); [done|]. destruct (negb _); [by intros [= <-]|]. destruct (budget =? 0); [done|]. by intros [= <-].
  - intros Ht Hn. rewrite Ht. cbn [negb List.filter] in *. destruct (bool_decide (p ∈ unknown)); cbn [negb]; [|done]. rewrite zlen_cons in Hn.
    pose proof (zlen_nonneg (List.filter (fun p => bool_decide (p ∈ unknown)) ps)). destruct (Z.eqb_spec budget 0); [lia|done].
  - intros r. destruct (negb (on_time p)); [done|]. destruct (negb _); [apply IH|]. destruct (budget =? 0); [done|]. apply IH.
  - intros Ht Hn. rewrite Ht. cbn [negb List.filter] in *. destruct (bool_decide (p ∈ unknown)); cbn [negb]; [|by apply IH]. rewrite zlen_cons in Hn.
    pose proof (zlen_nonneg (List.filter (fun p => bool_decide (p ∈ unknown)) ps)). destruct (Z.eqb_spec budget 0); [lia|]. apply IH; [done|lia].
Qed.

(** A cursor position of the disk cache is the slot the signature landed in; a deadline, a
    third unknown partition or a changed epoch only make it unknown. *)
Theorem signature_position_sound (Hone : lands_once) on_time valid key slot : signature_position_until ix blake3 db on_time valid key = Some slot -> landed key slot.
Proof.
  unfold signature_position_until, find_position, position_candidates. destruct (covered_span (coverage y)) as [[floor tip]|] eqn:Hs in |- *; [|done].
  destruct (candidate_partitions (read_candidates ix blake3 db floor tip key)) as [|p ps] eqn:Hps; [done|]. intros H.
  destruct (find_position_within _ _ _ _ _ _ _) as [[x|]|] eqn:Hf in H; [|done|done]. destruct valid; [|done]. injection H as ->.
  apply (find_within_exact on_time _ _ key 2) in Hf. by apply (find_landed Hone floor tip key slot Hs).
Qed.

Lemma no_span_not_landed key slot : covered_span (coverage y) = None -> ~ landed key slot.
Proof. intros Hs [Hc%covers_slot_covers _]. pose proof (covered_span_spec _ ic_coverage) as H. rewrite Hs in H. by apply (H slot). Qed.

(** The two-step reading of a key, with what it proves. *)
Lemma read_cases (Hone : lands_once) key requested_slot :
  let value := read_transaction ix blake3 db (mkReadConfig false false false) key requested_slot in
  (exists slot, landed key slot /\ value = match lo_payload db key slot with Some record => TxFound slot record | None => TxUnavailable end) \/
  ((forall slot, ~ landed key slot) /\ exists covered, value = absent_at db covered /\ (forall s, covered = Some s -> requested_slot = Some s /\ covers_slot db s = true)).
Proof.
  unfold read_transaction. cbn [fused_get_tx negb]. set (covered := match requested_slot with Some s => _ | None => _ end).
  assert (Hcov : forall s, covered = Some s -> requested_slot = Some s /\ covers_slot db s = true).
  { unfold covered. intros s. destruct requested_slot as [r|]; [|done]. destruct (covers_slot db r) eqn:Hr; [|done]. by intros [= <-]. }
  unfold position_candidates. destruct (covered_span (coverage y)) as [[floor tip]|] eqn:Hs in |- *.
  - pose proof (fun slot => find_landed Hone floor tip key slot Hs) as Hfind. set (c := read_candidates ix blake3 db floor tip key) in *.
    assert (Hmiss : find_position_in ix db (candidate_partitions c) key = None -> forall slot, ~ landed key slot) by
      (intros Hn slot Hl%Hfind; congruence).
    destruct (candidate_partitions c) as [|p ps] eqn:Hps.
    + right. split; [by apply Hmiss|]. by exists covered.
    + unfold two_step_transaction. cbn [andb]. rewrite Hps. destruct (find_position_in ix db (p :: ps) key) as [slot|] eqn:Hf.
      * left. exists slot. pose proof (proj1 (Hfind slot) eq_refl) as Hl. split; [done|]. by rewrite (proj1 Hl).
      * right. split; [by apply Hmiss|]. by exists covered.
  - right. split; [intros slot; by apply no_span_not_landed|]. by exists covered.
Qed.

(** C22: however a transaction is read from the disk cache, in one fused query with or without
    the span check or partition by partition, the result is the same: the payload when the
    signature has a row at a covered slot, and a proof of absence only for a covered
    requested slot of a signature with no such row. *)
Theorem get_tx_exact cfg key requested_slot (Hone : lands_once) :
  let value := read_transaction ix blake3 db cfg key requested_slot in
  value = read_transaction ix blake3 db (mkReadConfig false false false) key requested_slot /\
  (forall slot record, value = TxFound slot record <-> landed key slot /\ lo_payload db key slot = Some record) /\
  (value = TxAbsent -> (forall slot, ~ landed key slot) /\ exists slot, requested_slot = Some slot /\ covers_slot db slot = true).
Proof.
  intros value. unfold value. rewrite fused_same. split; [done|]. destruct (read_cases Hone key requested_slot) as [(x & Hx & ->)|(Hno & covered & -> & Hcov)].
  - split; [|by destruct (lo_payload db key x)]. intros slot record. split.
    + destruct (lo_payload db key x) eqn:Hp; [|done]. by intros [= <- <-].
    + intros [(_ & r & Hr & Ht & Hk & <-) Hp]. destruct Hx as (_ & r' & Hr' & Ht' & Hk' & <-). rewrite (Hone r' r) by congruence. by rewrite Hp.
  - split.
    + intros slot record. split; [|by intros [Hl _]; destruct (Hno slot)]. unfold absent_at. by repeat case_match.
    + intros Hv. split; [done|]. destruct covered as [s|]; [|done]. exists s. by apply Hcov.
Qed.

(** ** Statuses *)

Definition asks (m : btree (list (list Z))) (partition : Z) (key : list Z) : Prop := exists keys, (partition, keys) ∈ m /\ key ∈ keys.

Lemma add_candidate_spec key m p : bt_ok m ->
  bt_ok (add_candidate key m p) /\ forall q k, asks (add_candidate key m p) q k <-> asks m q k \/ (q = p /\ k = key).
Proof.
  intros Hm. unfold add_candidate. split; [by apply bt_insert_ok|]. intros q k. unfold asks. setoid_rewrite bt_insert_elem; [|done].
  destruct (bt_get p m) as [ks|] eqn:Hg; cbn [default].
  - apply bt_get_spec in Hg; [|done]. split.
    + intros (keys & [[[-> ->] | [_ Hin]] Hk]); [|left; eauto]. apply elem_of_app in Hk as [Hk|Hk%list_elem_of_singleton]; [left; eauto|by right].
    + intros [(keys & Hin & Hk)|[-> ->]].
      * destruct (decide (q = p)) as [->|Hne]; [|exists keys; split; [by right|done]].
        rewrite (bt_ok_unique _ _ _ _ Hm Hin Hg) in Hk. exists (ks ++ [key]). split; [by left|]. apply elem_of_app. by left.
      * exists (ks ++ [key]). split; [by left|]. apply elem_of_app. right. by apply list_elem_of_singleton.
  - pose proof (proj1 (bt_get_none _ _ Hm) Hg) as Hnone. split.
    + intros (keys & [[[-> ->] | [_ Hin]] Hk]); [|left; eauto]. apply list_elem_of_singleton in Hk. by right.
    + intros [(keys & Hin & Hk)|[-> ->]].
      * exists keys. split; [right; split; [|done]|done]. intros ->. by apply (Hnone keys).
      * exists [key]. split; [by left|by apply list_elem_of_singleton].
Qed.

Lemma add_candidates_spec key l : forall m, bt_ok m ->
  bt_ok (foldl (add_candidate key) m l) /\ forall q k, asks (foldl (add_candidate key) m l) q k <-> asks m q k \/ (q ∈ l /\ k = key).
Proof.
  induction l as [|p l IH]; intros m Hm; cbn [foldl]; [split; [done|]; intros q k; rewrite elem_of_nil; tauto|].
  destruct (add_candidate_spec key m p Hm) as [Hok Hs]. destruct (IH _ Hok) as [Hok' Hs']. split; [done|]. intros q k.
  rewrite Hs', Hs, elem_of_cons. tauto.
Qed.

Lemma status_candidates_spec floor tip keys :
  let m := status_candidates ix blake3 db floor tip keys in
  bt_ok m /\ forall q k, asks m q k <-> k ∈ keys /\ q ∈ candidate_partitions (read_candidates ix blake3 db floor tip k).
Proof.
  cbn zeta. unfold status_candidates.
  assert (Hgen : forall l m, bt_ok m ->
    let m' := foldl (fun m key => foldl (add_candidate key) m (candidate_partitions (read_candidates ix blake3 db floor tip key))) m l in
    bt_ok m' /\ forall q k, asks m' q k <-> asks m q k \/ (k ∈ l /\ q ∈ candidate_partitions (read_candidates ix blake3 db floor tip k))).
  { induction l as [|key l IH]; intros m Hm; cbn [foldl]; [split; [done|]; intros q k; rewrite elem_of_nil; tauto|].
    destruct (add_candidates_spec key (candidate_partitions (read_candidates ix blake3 db floor tip key)) m Hm) as [Hok Hs].
    destruct (IH _ Hok) as [Hok' Hs']. split; [done|]. intros q k. rewrite Hs', Hs, elem_of_cons. naive_solver. }
  destruct (Hgen keys []) as [Hok Hs]; [by constructor|]. split; [done|]. intros q k. rewrite Hs. unfold asks. setoid_rewrite elem_of_nil. naive_solver.
Qed.

(** What a recorded answer says. *)
Definition found_true (found : gmap (list Z) (option Z)) : Prop :=
  forall key v, found !! key = Some v -> match v with Some slot => landed key slot | None => forall slot, ~ landed key slot end.

Lemma record_status_true (Hone : lands_once) range found key : found_true found -> found_true (record_status db range found key).
Proof.
  intros Hf. unfold record_status. destruct (newest_in key range (rows y)) as [x|] eqn:Hx; [|done]. intros k v.
  destruct (decide (k = key)) as [->|Hne]; [|rewrite lookup_insert_ne by done; apply Hf]. rewrite lookup_insert_eq. intros [= <-].
  destruct (covers_slot db x) eqn:Hc; [by eapply newest_landed|]. intros slot [Hcov (r & Hr & Ht & Hk & Hs)].
  destruct (newest_in_some _ _ _ _ Hx) as [(r' & Hr' & (Ht' & Hk' & _)%is_position_iff & Hs') _]. rewrite (Hone r r') in Hs by congruence. congruence.
Qed.

Lemma record_status_keeps range found key k : is_Some (found !! k) -> is_Some (record_status db range found key !! k).
Proof.
  intros Hk. unfold record_status. destruct (newest_in key range (rows y)); [|done].
  destruct (decide (k = key)) as [->|Hne]; [by rewrite lookup_insert_eq|by rewrite lookup_insert_ne].
Qed.

Lemma query_keeps range pending : forall found k, is_Some (found !! k) -> is_Some (query_statuses db range pending found !! k).
Proof. induction pending as [|key l IH]; intros found k Hk; [done|]. cbn. by apply IH, record_status_keeps. Qed.

Lemma query_true (Hone : lands_once) range pending : forall found, found_true found -> found_true (query_statuses db range pending found).
Proof. induction pending as [|key l IH]; intros found Hf; [done|]. cbn. by apply IH, record_status_true. Qed.

Lemma query_finds (Hone : lands_once) range pending key slot : key ∈ pending -> landed key slot -> fst range <= slot <= snd range ->
  forall found, is_Some (query_statuses db range pending found !! key).
Proof.
  intros Hp Hl Hr. induction pending as [|k l IH]; intros found; [by apply elem_of_nil in Hp|]. cbn.
  apply elem_of_cons in Hp as [<-|Hp]; [|by apply IH]. apply query_keeps. unfold record_status. by rewrite (landed_newest Hone _ _ _ Hl Hr), lookup_insert_eq.
Qed.

(** The loop, by partitions. *)
Lemma find_loop_true (Hone : lands_once) l : forall queries found, found_true found -> found_true (fst (find_loop ix db l queries found)).
Proof.
  induction l as [|[p keys] l IH]; intros queries found Hf; [done|]. cbn [find_loop]. destruct queries as [|queries]; [done|].
  destruct (List.filter _ keys); apply IH; [done|by apply query_true].
Qed.

Lemma find_loop_keeps l : forall queries found k, is_Some (found !! k) -> is_Some (fst (find_loop ix db l queries found) !! k).
Proof.
  induction l as [|[p keys] l IH]; intros queries found k Hf; [done|]. cbn [find_loop]. destruct queries as [|queries]; [done|].
  destruct (List.filter _ keys); apply IH; [done|by apply query_keeps].
Qed.

Lemma find_loop_completes l : forall queries found, (length l <= queries)%nat -> snd (find_loop ix db l queries found) = true.
Proof.
  induction l as [|[p keys] l IH]; intros queries found Hq; [done|]. cbn [find_loop length] in *. destruct queries as [|queries]; [lia|].
  destruct (List.filter _ keys); apply IH; lia.
Qed.

Lemma find_loop_finds (Hone : lands_once) key slot l : landed key slot -> (exists keys, (slot / width ix, keys) ∈ l /\ key ∈ keys) ->
  forall queries found, snd (find_loop ix db l queries found) = true -> is_Some (fst (find_loop ix db l queries found) !! key).
Proof.
  intros Hl. pose proof ic_width as Hw. induction l as [|[p ks] l IH]; intros (keys & Hin & Hk) queries found; [by apply elem_of_nil in Hin|].
  cbn [find_loop]. destruct queries as [|queries]; [done|]. apply elem_of_cons in Hin as [[= <- <-]|Hin].
  - destruct (found !! key) as [v|] eqn:Hf.
    + destruct (List.filter _ keys); intros _; apply find_loop_keeps; [by rewrite Hf|]. apply query_keeps. by rewrite Hf.
    + assert (Hp : key ∈ List.filter (fun key => negb (bool_decide (is_Some (found !! key)))) keys).
      { apply elem_of_filter_b. split; [done|]. rewrite Hf. done. }
      destruct (List.filter _ keys) as [|k0 pending] eqn:Hpend; [by apply elem_of_nil in Hp|]. intros _. apply find_loop_keeps.
      eapply query_finds; [done|done|done|]. by apply slot_in_partition.
  - destruct (List.filter _ ks); apply IH; eauto.
Qed.

Definition lists_nonempty (m : btree (list (list Z))) : Prop := forall q ks, (q, ks) ∈ m -> ks <> [].

Lemma status_candidates_nonempty floor tip keys : lists_nonempty (status_candidates ix blake3 db floor tip keys).
Proof.
  assert (Hone : forall key l m, bt_ok m /\ lists_nonempty m -> bt_ok (foldl (add_candidate key) m l) /\ lists_nonempty (foldl (add_candidate key) m l)).
  { intros key l. induction l as [|p l IH]; intros m Hm; [done|]. apply IH. destruct Hm as [Hok Hm]. split; [by apply bt_insert_ok|].
    intros q ks. unfold add_candidate. rewrite bt_insert_elem by done. intros [[_ ->]|[_ Hin]]; [by destruct (default _ _)|by eapply Hm]. }
  unfold status_candidates. enough (Hgen : forall l m, bt_ok m /\ lists_nonempty m ->
    let m' := foldl (fun m key => foldl (add_candidate key) m (candidate_partitions (read_candidates ix blake3 db floor tip key))) m l in
    bt_ok m' /\ lists_nonempty m') by (apply Hgen; split; [constructor|by intros ? ? ?%elem_of_nil]).
  induction l as [|key l IH]; intros m Hm; [done|]. cbn [foldl]. by apply IH, Hone.
Qed.

(** A completed search has an answer for every landed key, however it queried. *)
Lemma find_statuses_finds (Hone : lands_once) floor tip keys single queries key slot : covered_span (coverage y) = Some (floor, tip) ->
  key ∈ keys -> landed key slot ->
  let outcome := find_statuses ix blake3 db (Some (floor, tip)) keys single queries in
  snd outcome = true -> is_Some (fst outcome !! key).
Proof.
  intros Hs Hk Hl. cbn zeta. unfold find_statuses. destruct (status_candidates_spec floor tip keys) as [Hok Hasks].
  pose proof (status_candidates_nonempty floor tip keys) as Hne. pose proof ic_width as Hw.
  set (m := status_candidates ix blake3 db floor tip keys) in *.
  destruct (proj2 (Hasks (slot / width ix) key)) as (ks & Hin & Hks); [by split; [|apply landed_candidate]|].
  destruct (if single then status_span m else None) as [[[oldest newest] pending]|] eqn:Hspan.
  - destruct queries as [|queries]; [done|]. intros _. cbn [fst]. destruct single; [|done]. unfold status_span in Hspan.
    destruct (head m) as [[o ko]|] eqn:Hh; [|done]. destruct (last m) as [[n kn]|] eqn:Hla; [|done]. case_match; [|done]. injection Hspan as <- <- <-.
    eapply query_finds; [done| |done|].
    + apply elem_of_remove_dups, list_elem_of_In, in_concat. exists ks. split; [|by apply list_elem_of_In].
      apply (in_map snd m (slot / width ix, ks)). by apply list_elem_of_In.
    + assert (Hn : slot / width ix <= n) by (exact (bt_last_max _ _ Hok Hla _ Hin)).
      assert (Ho : o <= slot / width ix).
      { destruct m as [|e m']; [done|]. injection Hh as ->. apply bt_ok_cons in Hok as [Hall _]. rewrite Forall_forall in Hall.
        apply elem_of_cons in Hin as [[= -> _]|Hin]; [lia|]. specialize (Hall _ Hin). cbn in Hall. lia. }
      assert (Hbound : forall q kq, (q, kq) ∈ m -> floor / width ix <= q <= tip / width ix).
      { intros q [|k kq] Hq; [by destruct (Hne _ _ Hq)|].
        destruct (proj1 (Hasks q k)) as [_ Hc]; [exists (k :: kq); split; [done|by left]|].
        by apply partitions_down_elem, (elem_of_sublist _ _ _ Hc), candidates_sublist. }
      destruct (Hfit _ _ Hs) as [Hf Ht]. pose proof (Z.mul_div_le tip (width ix) Hw). pose proof (Z.div_pos floor (width ix) Hf Hw).
      destruct (Hbound n kn) as [_ Hn2]; [apply last_Some in Hla as (l & ->); set_solver|].
      destruct (Hbound o ko) as [Ho2 _]; [destruct m; [done|]; injection Hh as ->; set_solver|].
      assert (Hwi : within (partition_range (width ix) (slot / width ix)) (partition_slot_span (width ix) n o)) by (apply partition_within; nia).
      destruct Hwi. pose proof (slot_in_partition (width ix) slot Hw). lia.
  - apply (find_loop_finds Hone key slot); [done|]. exists ks. split; [|done]. apply list_elem_of_In. rewrite <- in_rev. by apply list_elem_of_In.
Qed.

Lemma find_statuses_true (Hone : lands_once) span keys single queries : found_true (fst (find_statuses ix blake3 db span keys single queries)).
Proof.
  unfold find_statuses. destruct span as [[floor tip]|]; [|by intros ? ? H].
  destruct (if single then _ else None) as [[[o n] pending]|].
  - destruct queries; [by intros ? ? H|]. apply query_true; [done|]. by intros ? ? H.
  - apply find_loop_true; [done|]. by intros ? ? H.
Qed.

Lemma Forall2_map_diag {A B} (R : A -> B -> Prop) (f : A -> B) l : (forall x, x ∈ l -> R x (f x)) -> Forall2 R l (map f l).
Proof. induction l as [|x l IH]; intros H; [constructor|]. constructor; [apply H; by left|]. apply IH. intros z Hz. apply H. by right. Qed.

Lemma landed_unique (Hone : lands_once) key slot slot' : landed key slot -> landed key slot' -> slot = slot'.
Proof. intros (_ & r & Hr & Ht & Hk & <-) (_ & r' & Hr' & Ht' & Hk' & <-). apply Hone; congruence. Qed.

(** The span of an answer is covered without a gap. *)
Lemma contiguous_covers floor tip slot : lo_ready db = true -> covered_span (coverage y) = Some (floor, tip) ->
  covered_span (coverage y) = contiguous_tip_span (coverage y) -> Z.max floor (lo_min_retained db) <= slot <= tip -> covers_slot db slot = true.
Proof.
  intros Hready Hs Heq Hslot. pose proof (tip_span_spec _ ic_coverage) as Ht. rewrite <- Heq, Hs in Ht. destruct Ht as (Hcov & _).
  unfold covers_slot. rewrite Hready. cbn [andb]. rewrite (proj2 (Z.leb_le _ _)) by lia. cbn [andb].
  apply contains_slot_spec; [apply ic_coverage|]. apply Hcov. lia.
Qed.

End Exact.

(** The filters keep the promise through any interleaving of the tasks that share them. *)
Lemma index_complete_run ix blake3 l m c y : 0 < width ix -> 0 <= quota ix -> open_tables l m c -> rtc (calm_step ix blake3) (system_open l m c) y ->
  IndexComplete ix blake3 y.
Proof.
  intros Hw Hq Ht Hrun. split; [done| |intros floor tip r Hr Htab Hc Hp; by eapply lookup_complete].
  destruct Ht as [H1 H2 H3]. exact (d_coverage _ (o_data _ _ _ (run_ok ix blake3 Hw Hq _ _ (system_open_ok ix blake3 l m c H1 H2 H3) Hrun))).
Qed.
