(* ===== verification/SignatureStatuses.v ===== *)
(** * SignatureStatuses: getSignatureStatuses and the absence cache

    Models [handle_get_signature_statuses] of [crates/superbank-rpc/src/handlers/signatures.rs]
    from its parsed parameters on, with [status_history_cache.rs]: the head cache, the disk
    cache and the archive are asked in turn, and signatures the archive recently had no row
    for are not asked again while the local tiers prove that nothing has landed since.  What
    the tiers answer is a parameter of each request ([Observed]). *)

From S2P Require Import Prelude Text BTree SlotCoverage HeadCoverage.

Open Scope list_scope.
Open Scope Z_scope.

Definition Sig : Type := list Z.

(** ** The absence cache *)

Record Absent := mkAbsent { ab_at : Z; ab_disk_tip : Z }.
(** A bounded map of another library, which may drop entries; [None] is switched off. *)
Record StatusHistoryCache := mkHistory { hc_inner : option (gmap Sig Absent); hc_ttl : Z }.

Definition ENTRY_BYTES : Z := 384.
(** Five minutes, in nanoseconds. *)
Definition MAX_TTL : Z := 300 * 1000000000.

(** [StatusHistoryCache::new], [enabled], [insert_absent], [is_absent] *)
Definition history_new (max_entries max_bytes ttl : Z) : StatusHistoryCache :=
  let capacity := Z.min max_entries (max_bytes / ENTRY_BYTES) in
  let ttl := Z.min ttl MAX_TTL in
  mkHistory (if (0 <? capacity) && negb (ttl =? 0) then Some ∅ else None) ttl.
Definition history_enabled (c : StatusHistoryCache) : bool := bool_decide (is_Some (hc_inner c)).
Definition insert_absent (disk_tip now : Z) (c : StatusHistoryCache) (sig : Sig) : StatusHistoryCache :=
  match hc_inner c with Some m => mkHistory (Some (<[sig := mkAbsent now disk_tip]> m)) (hc_ttl c) | None => c end.
Definition is_absent (c : StatusHistoryCache) (sig : Sig) (disk_floor now : Z) : bool :=
  match hc_inner c ≫= (.!! sig) with
  | Some entry => (sat_sub now (ab_at entry) <? hc_ttl c) && (disk_floor <=? sat_add (ab_disk_tip entry) 1)
  | None => false
  end.

(** ** Tiers *)

Record HeadStatus := mkHeadStatus { hs_slot : Z; hs_err : option string; hs_commitment : CommitmentLevel }.
Inductive DiskStatus := DiskStatusFound (slot : Z) (err : option string) | DiskStatusAbsent | DiskStatusUnknown.
(** The head cache: its range proof before the lookup, what the lookup returned, and its floor
    and range proof after it. *)
Record HeadTier := mkHeadTier {
  ht_before : HeadCoverage; ht_before_at : Z; ht_statuses : gmap Sig HeadStatus; ht_latest : Z; ht_min_retained : Z; ht_coverage : HeadCoverage;
}.
Record DiskTier := mkDiskTier { dt_lookup : Sig -> DiskStatus; dt_span : option (Z * Z) }.

(** What a request observes: the context slot, the local tiers when they are configured, the
    newest slot the archive once reported, the archive's answer for a signature, whether its
    query succeeds, and the clock. *)
Record Observed := mkObserved {
  ob_context : option Z; ob_head : option HeadTier; ob_disk : option DiskTier; ob_primary_floor : Z;
  ob_archive : Sig -> option (Z * option string); ob_archive_ok : bool; ob_now : Z;
}.

(** The inputs, [None] for a text that is not a signature. *)
Record StatusRequest := mkStatusRequest { sq_inputs : list (option Sig); sq_search_history : bool; sq_min_context_slot : option Z }.

Record SignatureStatusInfo := mkStatusInfo {
  si_slot : Z; si_confirmations : option Z; si_err : option string; si_confirmation_status : CommitmentLevel;
}.
Inductive StatusAnswer :=
| NoSignatures
| TooManySignatures
| MinContextSlotNotReached (context_slot : Z)
| StatusInternalError
| Statuses (context_slot : Z) (value : list (option SignatureStatusInfo)).

(** [head_status_confirmations] *)
Definition head_status_confirmations (slot context_slot : Z) (status : CommitmentLevel) : option Z :=
  match status with
  | Finalized => None
  | Confirmed => Some (Z.max (sat_sub context_slot slot) 1)
  | Processed => Some 0
  end.

(** The distinct valid signatures, in the order they are first seen. *)
Fixpoint unique_valid (inputs : list (option Sig)) (seen : list Sig) : list Sig :=
  match inputs with
  | [] => []
  | None :: rest => unique_valid rest seen
  | Some sig :: rest => if bool_decide (sig ∈ seen) then unique_valid rest seen else sig :: unique_valid rest (sig :: seen)
  end.

Section Handler.
Context (o : Observed).

Definition head_status (sig : Sig) : option HeadStatus := ob_head o ≫= fun h => ht_statuses h !! sig.
Definition disk_lookup (sig : Sig) : DiskStatus :=
  match head_status sig, ob_disk o with None, Some d => dt_lookup d sig | _, _ => DiskStatusUnknown end.
Definition disk_status (sig : Sig) : option (Z * option string) :=
  match disk_lookup sig with DiskStatusFound slot err => Some (slot, err) | _ => None end.

(** The signatures no local tier holds. *)
Definition unanswered (sig : Sig) : bool := negb (bool_decide (is_Some (head_status sig))) && negb (bool_decide (is_Some (disk_status sig))).

(** The span of the disk read; it only runs for signatures the head does not hold. *)
Definition disk_span (unique : list Sig) : option (Z * Z) :=
  if existsb (fun sig => negb (bool_decide (is_Some (head_status sig)))) unique then ob_disk o ≫= dt_span else None.

(** [trusted_head_finalized_tip], before the lookup *)
Definition tip_before (h : HeadTier) : option Z :=
  match snapshot 0 None Finalized (ht_before_at h) (ht_before h) with Some (Ok (tip, _)) => Some tip | _ => None end.

(** [head_extends_disk] *)
Definition head_extends_disk (disk_tip : Z) : bool :=
  match ob_head o with
  | None => false
  | Some h =>
      match tip_before h with
      | None => false
      | Some lookup_tip =>
          let start := sat_add disk_tip 1 in
          if start <? ht_min_retained h then false
          else
            match snapshot start None Finalized (ob_now o) (ht_coverage h) with
            | Some (Ok (end_, coverage)) =>
                (ob_primary_floor o <=? lookup_tip) && (lookup_tip <=? end_) && match gaps start end_ coverage with [] => true | _ => false end
            | _ => false
            end
      end
  end.

(** [HistoryAbsence::skip_known_absent] *)
Definition skip_known_absent (span : option (Z * Z)) (c : StatusHistoryCache) (to_query : list Sig) : list Sig :=
  if negb (history_enabled c) then to_query
  else
    match span with
    | Some (floor, tip) =>
        if head_extends_disk tip then
          List.filter (fun sig => negb (match disk_lookup sig with DiskStatusAbsent => is_absent c sig floor (ob_now o) | _ => false end)) to_query
        else to_query
    | None => to_query
    end.

(** [HistoryAbsence::remember_absent] *)
Definition remember_absent (span : option (Z * Z)) (queried : list Sig) (c : StatusHistoryCache) : StatusHistoryCache :=
  match span with
  | Some (_, tip) =>
      if history_enabled c then
        foldl (insert_absent tip (ob_now o)) c
          (List.filter (fun sig => match ob_archive o sig, disk_lookup sig with None, DiskStatusAbsent => true | _, _ => false end) queried)
      else c
  | None => c
  end.

(** The status of one input: the archive's, the disk cache's or the head cache's. *)
Definition status_of (queried : list Sig) (context_slot : Z) (sig : Sig) : option SignatureStatusInfo :=
  match (if bool_decide (sig ∈ queried) then ob_archive o sig else None) with
  | Some (slot, err) => Some (mkStatusInfo slot None err Finalized)
  | None =>
      match disk_status sig with
      | Some (slot, err) => Some (mkStatusInfo slot None err Finalized)
      | None =>
          match head_status sig with
          | Some h => Some (mkStatusInfo (hs_slot h) (head_status_confirmations (hs_slot h) context_slot (hs_commitment h)) (hs_err h) (hs_commitment h))
          | None => None
          end
      end
  end.

(** [signature_status_context] *)
Definition signature_status_context (r : StatusRequest) : result Z StatusAnswer :=
  let? context_slot := ok_or (ob_context o) StatusInternalError in
  let? _ := ensure (match sq_min_context_slot r with Some minimum => minimum <=? context_slot | None => true end) (MinContextSlotNotReached context_slot) in
  Ok context_slot.

(** [handle_get_signature_statuses]; [found] is the cache when absences are looked up, [c] when
    they are recorded. *)
Definition handle_get_signature_statuses (r : StatusRequest) (found c : StatusHistoryCache) : StatusAnswer * StatusHistoryCache :=
  if zlen (sq_inputs r) =? 0 then (NoSignatures, c)
  else if 256 <? zlen (sq_inputs r) then (TooManySignatures, c)
  else
    match signature_status_context r with
    | Err answer => (answer, c)
    | Ok context_slot =>
        let unique := unique_valid (sq_inputs r) [] in
        let context_slot := match ob_head o with Some h => Z.max context_slot (ht_latest h) | None => context_slot end in
        let span := disk_span unique in
        let to_query := if sq_search_history r then skip_known_absent span found (List.filter unanswered unique) else [] in
        match to_query with
        | [] => (Statuses context_slot (map (fun input => input ≫= status_of [] context_slot) (sq_inputs r)), c)
        | _ =>
            if ob_archive_ok o then
              (Statuses context_slot (map (fun input => input ≫= status_of to_query context_slot) (sq_inputs r)), remember_absent span to_query c)
            else (StatusInternalError, c)
        end
    end.
End Handler.
