(* ===== verification/SignatureStatusesSound.v ===== *)
(** * SignatureStatusesSound: the absence cache is invisible

    [landing] is the finalized slot of each signature that ever lands.  What the tiers answer
    at a request relates to it by [observed_true]; the archive only gains slots and, as the
    source documents, holds none beyond the finalized tip the head stream had reached. *)

From S2P Require Import Prelude Text BTree SlotCoverage HeadCoverage SignatureStatuses.

Open Scope list_scope.
Open Scope Z_scope.

Lemma unique_valid_elem inputs : forall seen sig, sig ∈ unique_valid inputs seen <-> Some sig ∈ inputs /\ sig ∉ seen.
Proof.
  induction inputs as [|[s|] inputs IH]; intros seen sig; cbn [unique_valid].
  - rewrite !elem_of_nil. naive_solver.
  - case_bool_decide as Hs; [rewrite IH, elem_of_cons; naive_solver|]. rewrite !elem_of_cons, IH, elem_of_cons.
    destruct (decide (sig = s)) as [->|]; naive_solver.
  - rewrite IH, elem_of_cons. naive_solver.
Qed.

Section World.
Context (landing : Sig -> option Z).

(** What a request observes, while the archive holds the slots of [holds]. *)
Record observed_true (o : Observed) (holds : Z -> Prop) : Prop := {
  ot_found : forall sig slot err, ob_archive o sig = Some (slot, err) -> landing sig = Some slot /\ holds slot;
  ot_missing : forall sig slot, ob_archive o sig = None -> landing sig = Some slot -> ~ holds slot;
  ot_absent : forall d floor tip sig slot, ob_disk o = Some d -> dt_span d = Some (floor, tip) -> dt_lookup d sig = DiskStatusAbsent ->
    landing sig = Some slot -> ~ floor <= slot <= tip;
  ot_filled : forall d floor tip sig slot, ob_disk o = Some d -> dt_span d = Some (floor, tip) -> landing sig = Some slot -> slot <= tip -> holds slot;
  ot_head : forall h start lookup_tip end_ coverage sig slot, ob_head o = Some h -> tip_before h = Some lookup_tip -> ht_min_retained h <= start ->
    snapshot start None Finalized (ob_now o) (ht_coverage h) = Some (Ok (end_, coverage)) -> gaps start end_ coverage = [] ->
    ht_statuses h !! sig = None -> landing sig = Some slot -> start <= slot <= lookup_tip -> lookup_tip <= end_ -> False;
  ot_trails : forall h lookup_tip sig slot, ob_head o = Some h -> tip_before h = Some lookup_tip -> landing sig = Some slot -> holds slot -> slot <= lookup_tip;
}.

(** A recorded absence: the signature lands after the recorded tip, if ever. *)
Definition history_true (c : StatusHistoryCache) : Prop :=
  forall m sig entry slot, hc_inner c = Some m -> m !! sig = Some entry -> landing sig = Some slot -> ab_disk_tip entry < slot.

(** The archive has nothing for a signature that is skipped. *)
Lemma skipped_absent o holds c sig floor tip d : observed_true o holds -> history_true c -> ob_disk o = Some d -> dt_span d = Some (floor, tip) ->
  head_extends_disk o tip = true -> disk_lookup o sig = DiskStatusAbsent -> is_absent c sig floor (ob_now o) = true -> ob_archive o sig = None.
Proof.
  intros Ho Hc Hd Hspan Hext Hdisk Habs. destruct (ob_archive o sig) as [[slot err]|] eqn:Ha; [|done]. exfalso.
  destruct (ot_found _ _ Ho _ _ _ Ha) as [Hl Hh]. unfold disk_lookup in Hdisk. destruct (head_status o sig) eqn:Hhead; [done|]. rewrite Hd in Hdisk.
  pose proof (ot_absent _ _ Ho _ _ _ _ _ Hd Hspan Hdisk Hl) as Hout.
  assert (Hslot : tip < slot).
  { unfold is_absent in Habs. destruct (hc_inner c) as [m|] eqn:Hm; [|done]. cbn in Habs. destruct (m !! sig) as [entry|] eqn:He; [|done]. zbool.
    pose proof (Hc _ _ _ _ Hm He Hl). unfold sat_add in *. lia. }
  unfold head_extends_disk in Hext. destruct (ob_head o) as [h|] eqn:Hob; [|done]. destruct (tip_before h) as [lookup_tip|] eqn:Htip; [|done].
  destruct (sat_add tip 1 <? ht_min_retained h) eqn:Hret; [done|]. destruct (snapshot _ _ _ _ _) as [[[end_ coverage]|]|] eqn:Hsnap; [|done|done].
  destruct (gaps _ _ _) eqn:Hgaps; [|by rewrite andb_false_r in Hext]. zbool.
  unfold head_status in Hhead. rewrite Hob in Hhead. cbn in Hhead. pose proof (ot_trails _ _ Ho _ _ _ _ Hob Htip Hl Hh).
  eapply (ot_head _ _ Ho h (sat_add tip 1)); try done. unfold sat_add. lia.
Qed.

Lemma disk_span_some o unique floor tip : disk_span o unique = Some (floor, tip) -> exists d, ob_disk o = Some d /\ dt_span d = Some (floor, tip).
Proof. unfold disk_span. destruct (existsb _ unique); [|done]. destruct (ob_disk o) as [d|]; [|done]. cbn. eauto. Qed.

Lemma skip_keeps o holds c unique l sig : observed_true o holds -> history_true c -> sig ∈ l -> sig ∉ skip_known_absent o (disk_span o unique) c l ->
  ob_archive o sig = None.
Proof.
  intros Ho Hc Hin. unfold skip_known_absent. destruct (history_enabled c); cbn [negb]; [|done].
  destruct (disk_span o unique) as [[floor tip]|] eqn:Hs; [|done]. destruct (head_extends_disk o tip) eqn:Hext; [|done].
  rewrite elem_of_filter_b. intros Hno. destruct (disk_span_some _ _ _ _ Hs) as (d & Hd & Hspan).
  destruct (disk_lookup o sig) eqn:Hdisk; try (by destruct Hno).
  destruct (is_absent c sig floor (ob_now o)) eqn:Habs; [by eapply skipped_absent|by destruct Hno].
Qed.

Lemma skip_sub o c span l sig : sig ∈ skip_known_absent o span c l -> sig ∈ l.
Proof. unfold skip_known_absent. repeat case_match; try done. rewrite elem_of_filter_b. tauto. Qed.

Lemma remember_true o holds c unique queried : observed_true o holds -> history_true c -> history_true (remember_absent o (disk_span o unique) queried c).
Proof.
  intros Ho Hc. unfold remember_absent. destruct (disk_span o unique) as [[floor tip]|] eqn:Hs; [|done]. destruct (history_enabled c); [|done].
  destruct (disk_span_some _ _ _ _ Hs) as (d & Hd & Hspan). set (l := List.filter _ _).
  assert (Hl : forall sig, sig ∈ l -> ob_archive o sig = None).
  { intros sig. unfold l. rewrite elem_of_filter_b. intros [_ H]. by destruct (ob_archive o sig). }
  clearbody l. revert c Hc. induction l as [|s l IH]; intros c Hc; [done|]. cbn [foldl]. apply IH; [intros sig Hsig; apply Hl; by right|].
  intros m sig entry slot. unfold insert_absent. destruct (hc_inner c) as [m0|] eqn:Hm; [|by rewrite Hm]. cbn [hc_inner]. intros [= <-].
  destruct (decide (sig = s)) as [->|Hne]; [|rewrite lookup_insert_ne by done; intros; by eapply Hc]. rewrite lookup_insert_eq. intros [= <-] Hland.
  cbn [ab_disk_tip]. destruct (decide (tip < slot)) as [|Hle]; [done|]. exfalso. apply (ot_missing _ _ Ho s slot); [apply Hl; by left|done|].
  eapply (ot_filled _ _ Ho); try done. lia.
Qed.

(** ** The reference

    Each input on its own, the first tier that has it: head, disk, and the archive when the
    request asks for history. *)

Definition reference_status (o : Observed) (search : bool) (context_slot : Z) (sig : Sig) : option SignatureStatusInfo :=
  match head_status o sig with
  | Some h => Some (mkStatusInfo (hs_slot h) (head_status_confirmations (hs_slot h) context_slot (hs_commitment h)) (hs_err h) (hs_commitment h))
  | None =>
      match disk_lookup o sig with
      | DiskStatusFound slot err => Some (mkStatusInfo slot None err Finalized)
      | _ =>
          if search then (fun '(slot, err) => mkStatusInfo slot None err Finalized) <$> ob_archive o sig else None
      end
  end.
Definition reference_answer (o : Observed) (r : StatusRequest) : StatusAnswer :=
  if zlen (sq_inputs r) =? 0 then NoSignatures
  else if 256 <? zlen (sq_inputs r) then TooManySignatures
  else
    match signature_status_context o r with
    | Err answer => answer
    | Ok context_slot =>
        let context_slot := match ob_head o with Some h => Z.max context_slot (ht_latest h) | None => context_slot end in
        Statuses context_slot (map (fun input => input ≫= reference_status o (sq_search_history r) context_slot) (sq_inputs r))
    end.

Lemma unanswered_iff o sig : unanswered o sig = true <-> head_status o sig = None /\ disk_status o sig = None.
Proof. unfold unanswered. rewrite andb_true_iff, !negb_true_iff, !bool_decide_eq_false, <- !eq_None_not_Some. done. Qed.

(** With a query set that leaves out only what the archive does not have. *)
Lemma status_reference o search queried context_slot sig :
  (sig ∈ queried -> unanswered o sig = true /\ search = true) ->
  (search = true -> unanswered o sig = true -> sig ∉ queried -> ob_archive o sig = None) ->
  status_of o queried context_slot sig = reference_status o search context_slot sig.
Proof.
  rewrite unanswered_iff. intros Hq Hs. unfold status_of, reference_status. unfold disk_status in *. case_bool_decide as Hin.
  - destruct (Hq Hin) as [[-> Hd] ->]. destruct (disk_lookup o sig); [done|..]; by destruct (ob_archive o sig) as [[? ?]|].
  - destruct (head_status o sig) as [h|] eqn:Hh; [unfold disk_lookup; by rewrite Hh|].
    destruct (disk_lookup o sig) eqn:Hd; [done|..]; (destruct search; [by rewrite Hs|done]).
Qed.

(** The library may drop entries. *)
Definition forgets (c c' : StatusHistoryCache) : Prop :=
  forall m' sig entry, hc_inner c' = Some m' -> m' !! sig = Some entry -> exists m, hc_inner c = Some m /\ m !! sig = Some entry.

(** The caches of a server that has answered any requests in any interleaving. *)
Inductive history_reachable : StatusHistoryCache -> Prop :=
| history_fresh max_entries max_bytes ttl : history_reachable (history_new max_entries max_bytes ttl)
| history_forgets c c' : history_reachable c -> forgets c c' -> history_reachable c'
| history_request o holds r found c : history_reachable found -> history_reachable c -> observed_true o holds ->
    history_reachable (snd (handle_get_signature_statuses o r found c)).

Lemma history_reachable_true c : history_reachable c -> history_true c.
Proof.
  induction 1 as [max_entries max_bytes ttl|c c' _ IH Hf|o holds r found c _ _ _ IHc Ho].
  - intros m sig entry slot. unfold history_new. cbn [hc_inner]. case_match; [|done]. intros [= <-]. by rewrite lookup_empty.
  - intros m' sig entry slot Hm' He. destruct (Hf _ _ _ Hm' He) as (m & Hm & He'). by eapply IH.
  - unfold handle_get_signature_statuses. repeat case_match; try done; by eapply remember_true.
Qed.

(** C21: getSignatureStatuses answers each input by the first tier that has it, in the order of
    the inputs, repeated signatures alike and texts that are no signatures with null.  The
    absence cache is invisible: whatever requests interleaved before and whatever the cache
    kept or dropped, a signature that is not asked of the archive is one the archive does not
    have.  Only a failed archive query makes the answer an error. *)
Theorem signature_statuses_exact o holds r found c :
  history_reachable found -> history_reachable c -> observed_true o holds ->
  let answer := fst (handle_get_signature_statuses o r found c) in
  answer = reference_answer o r \/ (ob_archive_ok o = false /\ answer = StatusInternalError).
Proof.
  intros Hf%history_reachable_true _ Ho answer. unfold answer, handle_get_signature_statuses, reference_answer.
  destruct (zlen (sq_inputs r) =? 0); [by left|]. destruct (256 <? zlen (sq_inputs r)); [by left|].
  destruct (signature_status_context o r) as [ctx|a]; [|by left]. set (ctx' := match ob_head o with Some h => _ | None => _ end).
  set (unique := unique_valid (sq_inputs r) []). set (to_query := if sq_search_history r then _ else []).
  assert (Hall : map (fun input => input ≫= status_of o to_query ctx') (sq_inputs r) =
                 map (fun input => input ≫= reference_status o (sq_search_history r) ctx') (sq_inputs r)).
  { apply map_ext_in. intros [sig|] Hin%list_elem_of_In; [|done]. cbn [mbind option_bind]. unfold to_query. apply status_reference.
    - destruct (sq_search_history r); [|by intros ?%elem_of_nil]. intros Hs%skip_sub. by apply elem_of_filter_b in Hs as [_ ->].
    - intros Hs Hun Hno. rewrite Hs in Hno. eapply skip_keeps; [done|exact Hf| |exact Hno]. apply elem_of_filter_b. split; [|done].
      apply unique_valid_elem. split; [done|]. by apply not_elem_of_nil. }
  destruct to_query as [|s l]; [left; cbn [fst]; by rewrite Hall|].
  destruct (ob_archive_ok o); [left; cbn [fst]; by rewrite Hall|by right].
Qed.
End World.
