(* ===== verification/Filler.v ===== *)
(** * Filler: forwarding the source into the disk cache

    Models [crates/superbank-rpc/src/disk_cache/filler.rs]: the attempts kept per slot, the
    planning of a round over the holes of the coverage map, the statuses a batch of block
    metadata proves, and the loop over rounds.  Instants and durations are integers; the
    rate limiter only delays a batch, the native stream and the successor query are the
    source's, and their outcomes are arguments of a round.  The fuel of [chunk_run] is the
    length of the run: every turn takes at least one slot of it. *)

From S2P Require Import Prelude BTree CoverageMap KeyIndex KeyTasks.

Open Scope Z_scope.

Definition MIN_SLOTS_PER_ROUND : Z := 64.
Definition MAX_SLOTS_PER_ROUND : Z := 4096.
Definition MAX_SKIPPED_RUN : Z := 100000.

Record SlotRange := mkRange { range_start : Z; range_end : Z }.
Definition len_slots (r : SlotRange) : Z := range_end r - range_start r + 1.

(** ** Attempts *)

Inductive GiveUp := First | Again.

Record FillAttempts := mkAttempts {
  max_attempts : Z;
  retry_after : Z;
  attempts : gmap Z Z;
  given_up : gmap Z Z;
  retrying : gset Z;
}.

(** [FillAttempts::new] *)
Definition attempts_new (max_attempts retry_after : Z) : FillAttempts := mkAttempts max_attempts retry_after ∅ ∅ ∅.

(** [FillAttempts::incomplete] *)
Definition incomplete (slot now : Z) (a : FillAttempts) : FillAttempts * option GiveUp :=
  let attempt := default 0 (attempts a !! slot) + 1 in
  let a := mkAttempts (max_attempts a) (retry_after a) (<[slot := attempt]> (attempts a)) (given_up a) (retrying a) in
  if ((attempt <? max_attempts a) || bool_decide (is_Some (given_up a !! slot)))%bool then (a, None)
  else
    (mkAttempts (max_attempts a) (retry_after a) (attempts a) (<[slot := now]> (given_up a)) (retrying a ∖ {[slot]}),
     Some (if bool_decide (slot ∈ retrying a) then Again else First)).

(** [FillAttempts::filled] *)
Definition filled (slot : Z) (a : FillAttempts) : FillAttempts * bool :=
  (mkAttempts (max_attempts a) (retry_after a) (delete slot (attempts a)) (delete slot (given_up a)) (retrying a ∖ {[slot]}),
   bool_decide (slot ∈ retrying a)).

(** [now.saturating_duration_since(at) >= retry_after] *)
Definition due (now retry_after given_up_at : Z) : bool := retry_after <=? Z.max 0 (now - given_up_at).

(** [FillAttempts::release_due] *)
Definition release_due (now : Z) (a : FillAttempts) : FillAttempts :=
  if retry_after a =? 0 then a
  else
    let released := map fst (map_to_list (filter (fun e => due now (retry_after a) (snd e) = true) (given_up a))) in
    foldl (fun a slot =>
        mkAttempts (max_attempts a) (retry_after a) (<[slot := sat_sub (max_attempts a) 1]> (attempts a)) (given_up a)
          ({[slot]} ∪ retrying a))
      (mkAttempts (max_attempts a) (retry_after a) (attempts a)
         (filter (fun e => due now (retry_after a) (snd e) = false) (given_up a)) (retrying a))
      released.

(** [FillAttempts::retain_from] *)
Definition retain_from (floor : Z) (a : FillAttempts) : FillAttempts :=
  mkAttempts (max_attempts a) (retry_after a) (filter (fun e => floor <= fst e) (attempts a))
    (filter (fun e => floor <= fst e) (given_up a)) (filter (fun slot => floor <= slot) (retrying a)).

(** [FillAttempts::clear] *)
Definition attempts_clear (a : FillAttempts) : FillAttempts := mkAttempts (max_attempts a) (retry_after a) ∅ ∅ ∅.

Definition is_given_up (a : FillAttempts) (slot : Z) : bool := bool_decide (is_Some (given_up a !! slot)).

(** ** Planning *)

(** [round_slot_limit] *)
Definition round_slot_limit (slots_per_query max_concurrency : Z) : Z :=
  Z.min MAX_SLOTS_PER_ROUND (Z.max MIN_SLOTS_PER_ROUND (sat_mul (sat_mul slots_per_query max_concurrency) 2)).

(** [retention_floor] *)
Definition retention_floor (tip retain_slots : Z) : Z := sat_sub tip (sat_sub retain_slots 1).

(** [(start..=end).rev()] *)
Definition slots_down (start end_ : Z) : list Z := rev (seqZ start (end_ - start + 1)).

(** The inner loop of [plan_ranges] over the slots of one hole. *)
Fixpoint plan_hole (a : FillAttempts) (max_slots : Z) (slots : list Z) (hole : list Z) : list Z :=
  match hole with
  | [] => slots
  | slot :: rest =>
      if negb (is_given_up a slot) then
        let slots := slots ++ [slot] in
        if max_slots <=? zlen slots then slots else plan_hole a max_slots slots rest
      else plan_hole a max_slots slots rest
  end.

(** Its outer loop, over [holes.iter().rev()]. *)
Fixpoint plan_holes (a : FillAttempts) (max_slots : Z) (slots : list Z) (holes : list (Z * Z)) : list Z :=
  match holes with
  | [] => slots
  | (start, end_) :: rest =>
      let slots := plan_hole a max_slots slots (slots_down start end_) in
      if max_slots <=? zlen slots then slots else plan_holes a max_slots slots rest
  end.

(** The runs of consecutive slots. *)
Definition extend_runs (runs : list SlotRange) (slot : Z) : list SlotRange :=
  match last runs with
  | Some r => if sat_add (range_end r) 1 =? slot then removelast runs ++ [mkRange (range_start r) slot] else runs ++ [mkRange slot slot]
  | None => runs ++ [mkRange slot slot]
  end.

(** The chunks of one run, from its end. *)
Fixpoint chunk_run (fuel : nat) (width run_start end_ : Z) : list SlotRange :=
  match fuel with
  | O => []
  | S fuel =>
      let start := Z.max run_start (sat_sub end_ (width - 1)) in
      mkRange start end_ :: (if start =? run_start then [] else chunk_run fuel width run_start (start - 1))
  end.

(** [plan_ranges] *)
Definition plan_ranges (holes : list (Z * Z)) (a : FillAttempts) (slots_per_query max_slots : Z) : list SlotRange :=
  let slots := merge_sort Z.le (plan_holes a max_slots [] (rev holes)) in
  let runs := foldl extend_runs [] slots in
  let width := Z.max slots_per_query 1 in
  concat (map (fun run => chunk_run (Z.to_nat (len_slots run)) width (range_start run) (range_end run)) (rev runs)).

(** ** The statuses a batch proves *)

(** The columns of a metadata row the coverage needs; [NextBlockRow] has no count. *)
Record BlockRow := mkBlockRow { b_slot : Z; b_parent : Z; b_count : option Z }.

(** One turn of [coverage_from_metadata]; [None] is the panic of [expect]. *)
Definition cover_row (range : SlotRange) (covered : option (gmap Z SlotStatus)) (row : BlockRow) : option (gmap Z SlotStatus) :=
  match covered with
  | None => None
  | Some covered =>
      match (if (range_start range <=? b_slot row) && (b_slot row <=? range_end range) then
               match b_count row with
               | Some n => Some (<[b_slot row := Covered (Z.min n u32_max)]> covered)
               | None => None
               end
             else Some covered)%bool with
      | None => None
      | Some covered =>
          if (b_parent row <? b_slot row) && (b_slot row - b_parent row - 1 <=? MAX_SKIPPED_RUN) then
            let start := Z.max (range_start range) (sat_add (b_parent row) 1) in
            let end_ := Z.min (range_end range) (sat_sub (b_slot row) 1) in
            Some (foldl (fun m slot => match m !! slot with Some _ => m | None => <[slot := Skipped]> m end) covered
                    (seqZ start (end_ - start + 1)))
          else Some covered
      end
  end%bool.

(** [coverage_from_metadata]: the metadata rows and then the successor. *)
Definition coverage_from_metadata (range : SlotRange) (metadata : list (Z * Z * Z)) (successor : option (Z * Z)) :
    option (gmap Z SlotStatus) :=
  foldl (cover_row range) (Some ∅)
    (map (fun m => mkBlockRow (fst (fst m)) (snd (fst m)) (Some (snd m))) metadata ++
     match successor with Some (slot, parent) => [mkBlockRow slot parent None] | None => [] end).

(** [next_block_after]: the first row of the source's block metadata (slot, parent,
    transactions) above the slot, as far up as a gap may be enumerated. *)
Definition next_block_after (blocks : list (Z * Z * Z)) (slot : Z) : option (Z * Z) :=
  let max_slot := sat_add (sat_add slot MAX_SKIPPED_RUN) 1 in
  fst <$> head (List.filter (fun b => (slot <? fst (fst b)) && (fst (fst b) <=? max_slot))%bool blocks).

(** ** Rounds *)

Record FillerConfig := mkFiller {
  retain_slots : Z;
  slots_per_query : Z;
  max_concurrency : Z;
  repair_min_lag_slots : Z;
}.

(** [claimable_window], for a resolved source tip. *)
Definition claimable_window (cfg : FillerConfig) (source_tip : Z) : option (Z * Z) :=
  let tip := sat_sub source_tip (repair_min_lag_slots cfg) in
  if tip =? 0 then None else Some (retention_floor tip (retain_slots cfg), tip).

(** The outcome of one fill: what it published, or an error. *)
Definition note_outcome (now : Z) (r : SlotRange) (published : option (gset Z)) (a : FillAttempts) : FillAttempts :=
  match published with
  | None => a
  | Some published =>
      foldl (fun a slot => if bool_decide (slot ∈ published) then fst (filled slot a) else fst (incomplete slot now a)) a
        (seqZ (range_start r) (len_slots r))
  end.

(** One turn of the loop of [run] whose source tip resolved: the ranges planned, and the
    attempts and the coverage after the fills of the round. *)
Definition round (cfg : FillerConfig) (outcome : SlotRange -> option (gset Z)) (now floor tip : Z)
    (st : FillAttempts * CoverageMap) : list SlotRange * (FillAttempts * CoverageMap) :=
  let a := release_due now (retain_from floor (fst st)) in
  let ranges := plan_ranges (holes_in floor tip (snd st)) a (slots_per_query cfg)
                  (round_slot_limit (slots_per_query cfg) (max_concurrency cfg)) in
  (ranges,
   (foldl (fun a r => note_outcome now r (outcome r) a) a ranges,
    foldl (fun m r => match outcome r with
                      | Some published => foldl (fun m slot => insert_slot slot m) m (elements published)
                      | None => m
                      end) (snd st) ranges)).
