(* ===== verification/FillerSound.v ===== *)
(** * FillerSound: the forwarder plans what is missing and settles every slot

    The plan of a round is exact, newest first and over disjoint ranges; the statuses of a
    batch agree with the chain; and over rounds every slot of the window ends covered or
    given up. *)

From S2P Require Import Prelude BTree CoverageMap KeyIndex KeyTasks Filler.

Open Scope Z_scope.

(** ** Holes in order *)

Definition hole_lt (r r' : Z * Z) : Prop := snd r < fst r'.
Definition hole_ok (r : Z * Z) : Prop := fst r <= snd r.

Lemma holes_loop_sorted end_ cursor ranges :
  Forall (fun r => cursor <= fst r) ranges -> StronglySorted hole_lt ranges -> Forall hole_ok ranges ->
  StronglySorted hole_lt (holes_loop end_ cursor ranges) /\ Forall hole_ok (holes_loop end_ cursor ranges) /\
  Forall (fun r => cursor <= fst r) (holes_loop end_ cursor ranges).
Proof.
  revert cursor. induction ranges as [|[rs re] rest IH]; intros cursor Hc Hs Ho; cbn [holes_loop].
  { destruct (Z.leb_spec cursor end_); [|split_and!; constructor].
    split_and!; [constructor; constructor|constructor; [unfold hole_ok; cbn; lia|constructor]|constructor; [cbn; lia|constructor]]. }
  apply Forall_cons in Hc as [Hc _]. apply Forall_cons in Ho as [Ho Hor]. inversion Hs as [|? ? Hsr Hlt]; subst. cbn in Hc. cbv [hole_ok fst snd] in Ho.
  assert (H2 : StronglySorted hole_lt (if end_ <=? re then [] else holes_loop end_ (re + 1) rest) /\
    Forall hole_ok (if end_ <=? re then [] else holes_loop end_ (re + 1) rest) /\
    Forall (fun r => re + 1 <= fst r) (if end_ <=? re then [] else holes_loop end_ (re + 1) rest)).
  { destruct (end_ <=? re); [split_and!; constructor|]. apply IH; [|done|done]. eapply Forall_impl; [exact Hlt|]. intros r Hr. unfold hole_lt in Hr. cbn in Hr. lia. }
  destruct H2 as (S2 & O2 & L2). destruct (Z.ltb_spec cursor rs); cbn [app].
  - split_and!.
    + constructor; [done|]. eapply Forall_impl; [exact L2|]. intros r Hr. unfold hole_lt. cbn in *. lia.
    + constructor; [unfold hole_ok; cbn; lia|done].
    + constructor; [cbn; lia|]. eapply Forall_impl; [exact L2|]. intros r Hr. cbn in *. lia.
  - split_and!; [done|done|]. eapply Forall_impl; [exact L2|]. intros r Hr. cbn in *. lia.
Qed.

Lemma kept_sorted {A} (R : A -> A -> Prop) p l : StronglySorted R l -> StronglySorted R (List.filter p l).
Proof.
  induction 1 as [|x l Hl IH Hf]; cbn; [constructor|]. destruct (p x); [|done]. constructor; [done|].
  apply Forall_forall. intros y [Hy _]%elem_of_filter_b. exact (proj1 (Forall_forall _ _) Hf y Hy).
Qed.

Lemma map_sorted m : map_ok m -> StronglySorted hole_lt m.
Proof.
  intros Hok. pose proof (mo_keys m Hok) as Hk. pose proof (mo_apart m Hok) as Ha. clear Hok. unfold bt_ok in Hk.
  induction m as [|[s e] m IH]; [constructor|]. cbn in Hk. inversion Hk as [|? ? Hk' Hf]; subst. constructor.
  - apply IH; [done|]. intros s1 e1 s2 e2 H1 H2. apply (Ha s1 e1 s2 e2); by right.
  - apply Forall_forall. intros [s' e'] Hin. unfold hole_lt. cbn.
    assert (s < s') by (apply (proj1 (Forall_forall _ _) Hf); apply list_elem_of_fmap; by exists (s', e')).
    specialize (Ha s e s' e' ltac:(by left) ltac:(by right) ltac:(done)). lia.
Qed.

Lemma holes_sorted m start end_ :
  map_ok m -> StronglySorted hole_lt (holes_in start end_ m) /\ Forall hole_ok (holes_in start end_ m).
Proof.
  intros Hok. pose proof (map_sorted m Hok) as Hs.
  assert (Hgo : forall cursor, StronglySorted hole_lt (holes_loop end_ cursor (bt_range cursor end_ m)) /\ Forall hole_ok (holes_loop end_ cursor (bt_range cursor end_ m))).
  { intros cursor. destruct (holes_loop_sorted end_ cursor (bt_range cursor end_ m)) as (H1 & H2 & _); [| | |done].
    - apply Forall_forall. intros r [_ Hr]%bt_range_elem. lia.
    - by apply kept_sorted.
    - apply Forall_forall. intros [s e] [Hr _]%bt_range_elem. unfold hole_ok. cbn. destruct (mo_ranges m Hok s e Hr). lia. }
  unfold holes_in. destruct (end_ <? start); [split; constructor|].
  destruct (bt_last_le start m) as [[ps pe]|]; [|apply Hgo]. destruct (start <=? pe); [|apply Hgo]. destruct (end_ <=? pe); [split; constructor|apply Hgo].
Qed.

(** ** The slots of a round *)

Definition plannable (a : FillAttempts) (slot : Z) : bool := negb (is_given_up a slot).

Lemma plan_hole_eq a max_slots slots hole :
  zlen slots < max_slots ->
  plan_hole a max_slots slots hole = slots ++ take (Z.to_nat (max_slots - zlen slots)) (List.filter (plannable a) hole).
Proof.
  revert slots. induction hole as [|x hole IH]; intros slots Hl; cbn [plan_hole List.filter].
  { by rewrite firstn_nil, app_nil_r. }
  fold (plannable a x). destruct (plannable a x) eqn:Ep; [|by apply IH]. unfold zlen in *. rewrite length_app in *. cbn [length].
  replace (Z.to_nat (max_slots - Z.of_nat (length slots))) with (S (Z.to_nat (max_slots - Z.of_nat (length slots + 1)))) by lia.
  cbn [take]. destruct (Z.leb_spec max_slots (Z.of_nat (length slots + 1))) as [Hge|Hlt].
  - by replace (Z.to_nat (max_slots - Z.of_nat (length slots + 1))) with 0%nat by lia.
  - rewrite IH by (rewrite length_app; cbn; lia). by rewrite length_app, <- app_assoc.
Qed.

Lemma plan_holes_eq a max_slots slots holes :
  zlen slots < max_slots ->
  plan_holes a max_slots slots holes =
  slots ++ take (Z.to_nat (max_slots - zlen slots)) (List.filter (plannable a) (concat (map (fun h => slots_down (fst h) (snd h)) holes))).
Proof.
  revert slots. induction holes as [|[s e] holes IH]; intros slots Hl; cbn [plan_holes map concat fst snd].
  { by rewrite firstn_nil, app_nil_r. }
  rewrite plan_hole_eq by done. rewrite List.filter_app. set (f := List.filter _ (slots_down s e)).
  unfold zlen. rewrite length_app, length_take. destruct (Z.leb_spec max_slots (Z.of_nat (length slots + (Z.to_nat (max_slots - Z.of_nat (length slots))) `min` length f))) as [Hge|Hlt].
  - f_equal. rewrite take_app_le; [done|]. lia.
  - rewrite IH by (unfold zlen; rewrite length_app, length_take; unfold zlen in *; lia). unfold zlen. rewrite length_app, length_take, <- app_assoc. f_equal.
    rewrite take_app, (take_ge f) by lia. do 2 f_equal. lia.
Qed.

Lemma slots_down_elem s e x : x ∈ slots_down s e <-> s <= x <= e.
Proof. unfold slots_down. rewrite list_elem_of_In, <- in_rev, <- list_elem_of_In, elem_of_seqZ. lia. Qed.

Lemma descending_rev l : StronglySorted Z.lt l -> StronglySorted Z.gt (rev l).
Proof.
  induction 1 as [|x l Hl IH Hf]; cbn; [constructor|]. apply StronglySorted_app. split_and!; [|done|repeat constructor].
  intros y z Hy ->%list_elem_of_singleton. rewrite list_elem_of_In, <- in_rev, <- list_elem_of_In in Hy.
  pose proof (proj1 (Forall_forall _ _) Hf y Hy). lia.
Qed.

Lemma concat_elem {A} (x : A) (l : list (list A)) : x ∈ concat l <-> exists k, x ∈ k /\ k ∈ l.
Proof.
  rewrite list_elem_of_In, in_concat. setoid_rewrite list_elem_of_In. naive_solver.
Qed.

Lemma holes_down_sorted holes :
  StronglySorted hole_lt holes -> Forall hole_ok holes ->
  StronglySorted Z.gt (concat (map (fun h => slots_down (fst h) (snd h)) (rev holes))).
Proof.
  induction 1 as [|[s e] l Hl IH Hf]; intros Ho; cbn [rev]; [constructor|]. apply Forall_cons in Ho as [_ Ho].
  rewrite map_app, concat_app. cbn [map concat fst snd]. rewrite app_nil_r. apply StronglySorted_app. split_and!; [|by apply IH|].
  - intros x y (sl & Hx & Hin)%concat_elem Hy%slots_down_elem. apply list_elem_of_fmap in Hin as ([s' e'] & -> & Hin).
    cbn in Hx. apply slots_down_elem in Hx. rewrite list_elem_of_In, <- in_rev, <- list_elem_of_In in Hin.
    pose proof (proj1 (Forall_forall _ _) Hf _ Hin) as Hlt. unfold hole_lt in Hlt. cbn in Hlt. lia.
  - apply descending_rev, seqZ_sorted.
Qed.

(** The missing slots that may be planned, newest first. *)
Definition missing (a : FillAttempts) (m : CoverageMap) (floor tip : Z) : list Z :=
  List.filter (plannable a) (concat (map (fun h => slots_down (fst h) (snd h)) (rev (holes_in floor tip m)))).

Lemma missing_spec a m floor tip :
  map_ok m ->
  StronglySorted Z.gt (missing a m floor tip) /\
  forall x, x ∈ missing a m floor tip <-> (floor <= x <= tip /\ ~ covers m x) /\ is_given_up a x = false.
Proof.
  intros Hok. destruct (holes_sorted m floor tip Hok) as [Hs Ho]. split; [by apply kept_sorted, holes_down_sorted|].
  intros x. unfold missing. rewrite elem_of_filter_b, <- (holes_in_spec m floor tip x Hok). unfold plannable. rewrite negb_true_iff. f_equiv.
  rewrite concat_elem. split.
  - intros (sl & Hx & ([s e] & -> & Hin)%list_elem_of_fmap). cbn in Hx. apply slots_down_elem in Hx.
    rewrite list_elem_of_In, <- in_rev, <- list_elem_of_In in Hin. by exists (s, e).
  - intros ([s e] & Hin & Hx). exists (slots_down s e). split; [by apply slots_down_elem|]. apply list_elem_of_fmap. exists (s, e).
    split; [done|]. by rewrite list_elem_of_In, <- in_rev, <- list_elem_of_In.
Qed.

(** ** Runs and chunks *)

Definition range_lt (r r' : SlotRange) : Prop := range_end r < range_start r'.
Definition range_gt (r r' : SlotRange) : Prop := range_end r' < range_start r.
Definition in_plan (x : Z) (l : list SlotRange) : Prop := exists r, r ∈ l /\ range_start r <= x <= range_end r.

Lemma in_plan_app x l k : in_plan x (l ++ k) <-> in_plan x l \/ in_plan x k.
Proof. unfold in_plan. setoid_rewrite elem_of_app. naive_solver. Qed.
Lemma in_plan_single x r : in_plan x [r] <-> range_start r <= x <= range_end r.
Proof. unfold in_plan. split; [by intros (r' & ->%list_elem_of_singleton & ?)|]. intros H. exists r. split; [by left|done]. Qed.

Lemma runs_spec slots :
  forall runs, StronglySorted Z.lt slots -> Forall (fun x => x <= u64_max) slots ->
  StronglySorted range_lt runs -> Forall (fun r => range_start r <= range_end r) runs ->
  Forall (fun r => Forall (fun x => range_end r < x) slots) runs ->
  let out := foldl extend_runs runs slots in
  StronglySorted range_lt out /\ Forall (fun r => range_start r <= range_end r) out /\
  forall x, in_plan x out <-> in_plan x runs \/ x ∈ slots.
Proof.
  induction slots as [|x slots IH]; intros runs Hs Hu Hr Ho Hlt; cbn [foldl]; [split_and!; [done|done|]; set_solver|].
  inversion Hs as [|? ? Hs' Hf]; subst. apply Forall_cons in Hu as [Hx Hu].
  assert (Hstep : StronglySorted range_lt (extend_runs runs x) /\ Forall (fun r => range_start r <= range_end r) (extend_runs runs x) /\
    Forall (fun r => range_end r <= x) (extend_runs runs x) /\ forall z, in_plan z (extend_runs runs x) <-> in_plan z runs \/ z = x).
  { assert (Hend : Forall (fun r => range_end r < x) runs).
    { eapply Forall_impl; [exact Hlt|]. intros r Hr'. by apply Forall_cons in Hr' as [? _]. }
    assert (Hpush : StronglySorted range_lt (runs ++ [mkRange x x]) /\ Forall (fun r => range_start r <= range_end r) (runs ++ [mkRange x x]) /\
      Forall (fun r => range_end r <= x) (runs ++ [mkRange x x]) /\ forall z, in_plan z (runs ++ [mkRange x x]) <-> in_plan z runs \/ z = x).
    { split_and!.
      - apply StronglySorted_app. split_and!; [|done|constructor; constructor]. intros r r' Hin ->%list_elem_of_singleton.
        exact (proj1 (Forall_forall _ _) Hend r Hin).
      - apply Forall_app. split; [done|]. constructor; [cbn; lia|constructor].
      - apply Forall_app. split; [|constructor; [cbn; lia|constructor]]. eapply Forall_impl; [exact Hend|]. cbn. lia.
      - intros z. rewrite in_plan_app, in_plan_single. cbn. assert (x <= z <= x <-> z = x) by lia. tauto. }
    unfold extend_runs. destruct (last runs) as [r|] eqn:El; [|done]. destruct (Z.eqb_spec (sat_add (range_end r) 1) x) as [E|_]; [|done].
    apply last_Some in El as [l ->]. rewrite removelast_last. apply Forall_app in Hend as [Hend Hre]. apply Forall_app in Ho as [Ho Hro].
    apply Forall_cons in Hre as [Hre _]. apply Forall_cons in Hro as [Hro _]. apply StronglySorted_app in Hr as (Hc & Hl & _).
    assert (x = range_end r + 1) as -> by (unfold sat_add in E; lia). split_and!.
    - apply StronglySorted_app. split_and!; [|done|constructor; constructor]. intros r1 r2 Hin ->%list_elem_of_singleton.
      exact (Hc r1 r Hin ltac:(by left)).
    - apply Forall_app. split; [done|]. constructor; [cbn; lia|constructor].
    - apply Forall_app. split; [|constructor; [cbn; lia|constructor]]. eapply Forall_impl; [exact Hend|]. cbn. lia.
    - intros z. rewrite !in_plan_app, !in_plan_single. cbn.
      assert (range_start r <= z <= range_end r + 1 <-> range_start r <= z <= range_end r \/ z = range_end r + 1) by lia. tauto. }
  destruct Hstep as (S1 & S2 & S3 & S4). destruct (IH (extend_runs runs x) Hs' Hu S1 S2) as (I1 & I2 & I3).
  { eapply Forall_impl; [exact S3|]. intros r Hrx. eapply Forall_impl; [exact Hf|]. intros z Hz. cbn in *. lia. }
  split_and!; [done|done|]. intros z. rewrite I3, S4, elem_of_cons. tauto.
Qed.

Lemma chunk_run_spec fuel width s e :
  1 <= width -> 0 <= s <= e -> e - s + 1 <= Z.of_nat fuel ->
  StronglySorted range_gt (chunk_run fuel width s e) /\
  Forall (fun r => (s <= range_start r <= range_end r /\ range_end r <= e) /\ len_slots r <= width) (chunk_run fuel width s e) /\
  forall x, in_plan x (chunk_run fuel width s e) <-> s <= x <= e.
Proof.
  revert e. induction fuel as [|fuel IH]; intros e Hw Hse Hf; [lia|]. cbn [chunk_run].
  set (start := Z.max s (sat_sub e (width - 1))). assert (Hst : s <= start <= e /\ e - start + 1 <= width) by (unfold start, sat_sub; lia).
  destruct (Z.eqb_spec start s) as [Es|Hne].
  - split_and!; [constructor; constructor|constructor; [unfold len_slots; cbn; lia|constructor]|]. intros x. rewrite in_plan_single. cbn. lia.
  - destruct (IH (start - 1)) as (I1 & I2 & I3); [done|lia|lia|]. split_and!.
    + constructor; [done|]. eapply Forall_impl; [exact I2|]. intros r [[? ?] _]. unfold range_gt. cbn. lia.
    + constructor; [unfold len_slots; cbn; lia|]. eapply Forall_impl; [exact I2|]. intros r [[? ?] ?]. cbn in *. lia.
    + intros x. change (?a :: ?b) with ([a] ++ b). rewrite in_plan_app, in_plan_single, I3. cbn. lia.
Qed.

(** ** The plan of a round *)

Lemma take_descending l k x :
  StronglySorted Z.gt l -> x ∈ take k l <-> x ∈ l /\ (length (List.filter (Z.ltb x) l) < k)%nat.
Proof.
  revert k. induction l as [|y l IH]; intros k Hs; [rewrite firstn_nil; split; [by intros ?%elem_of_nil|by intros [?%elem_of_nil _]]|].
  inversion Hs as [|? ? Hs' Hf]; subst. destruct k as [|k]; cbn [take].
  { split; [by intros ?%elem_of_nil|lia]. }
  cbn [List.filter]. rewrite !elem_of_cons, IH by done. destruct (Z.ltb_spec x y) as [Hxy|Hxy]; cbn [length].
  - split; [intros [->|?]; [lia|intuition lia]|]. intros [[->|?] ?]; [lia|right; split; [done|lia]].
  - assert (Hnil : x = y \/ x ∈ l -> List.filter (Z.ltb x) l = []).
    { intros _. clear IH Hs Hs'. induction Hf as [|z l Hz Hf IHf]; [done|]. cbn. assert ((x <? z) = false) as -> by lia. done. }
    split.
    + intros [->|[? ?]]; [|split; [by right|lia]]. split; [by left|]. rewrite Hnil by auto. cbn. lia.
    + intros [[->|Hx] _]; [by left|]. pose proof (proj1 (Forall_forall _ _) Hf x Hx). lia.
Qed.

Lemma gt_NoDup l : StronglySorted Z.gt l -> NoDup l.
Proof.
  induction 1 as [|x l Hl IH Hf]; constructor; [|done]. intros Hx. pose proof (proj1 (Forall_forall _ _) Hf x Hx). lia.
Qed.

Lemma sorted_le_lt l : StronglySorted Z.le l -> NoDup l -> StronglySorted Z.lt l.
Proof.
  induction 1 as [|x l Hl IH Hf]; intros Hn; constructor; apply NoDup_cons in Hn as [Hx Hn]; [by apply IH|].
  apply Forall_forall. intros y Hy. pose proof (proj1 (Forall_forall _ _) Hf y Hy). assert (x <> y) by (by intros ->). lia.
Qed.

Lemma chunks_sorted width runs :
  1 <= width -> StronglySorted range_lt runs -> Forall (fun r => 0 <= range_start r <= range_end r) runs ->
  let out := concat (map (fun run => chunk_run (Z.to_nat (len_slots run)) width (range_start run) (range_end run)) (rev runs)) in
  StronglySorted range_gt out /\ Forall (fun r => 0 <= range_start r <= range_end r /\ len_slots r <= width) out /\
  forall x, in_plan x out <-> in_plan x runs.
Proof.
  intros Hw Hs Ho. induction Hs as [|[s e] l Hl IH Hf]; cbn [rev].
  { cbn. split_and!; [constructor|constructor|done]. }
  apply Forall_cons in Ho as [Hse Ho]. cbn in Hse. destruct (IH Ho) as (I1 & I2 & I3). clear IH.
  rewrite map_app, concat_app. cbn [map concat]. rewrite app_nil_r. cbn [range_start range_end].
  destruct (chunk_run_spec (Z.to_nat (len_slots (mkRange s e))) width s e Hw Hse) as (C1 & C2 & C3); [unfold len_slots; cbn; lia|].
  split_and!.
  - apply StronglySorted_app. split_and!; [|done|done]. intros r r' Hr Hr'. unfold range_gt.
    destruct (proj1 (Forall_forall _ _) C2 r' Hr') as [[_ He] _]. destruct (proj1 (Forall_forall _ _) I2 r Hr) as [Hrr _].
    destruct (proj1 (I3 (range_start r))) as (r0 & Hr0 & Hx); [exists r; split; [done|lia]|].
    pose proof (proj1 (Forall_forall _ _) Hf r0 Hr0) as Hlt. unfold range_lt in Hlt. cbn in Hlt. lia.
  - apply Forall_app. split; [done|]. eapply Forall_impl; [exact C2|]. intros r [[? ?] ?]. cbn in *. lia.
  - intros x. change (mkRange s e :: l) with ([mkRange s e] ++ l). rewrite !in_plan_app, in_plan_single, I3, C3. cbn. tauto.
Qed.

Lemma plan_ranges_spec m a floor tip slots_per_query max_slots :
  map_ok m -> 0 <= floor -> tip <= u64_max -> 1 <= max_slots ->
  let plan := plan_ranges (holes_in floor tip m) a slots_per_query max_slots in
  StronglySorted range_gt plan /\
  Forall (fun r => 0 <= range_start r <= range_end r /\ len_slots r <= Z.max slots_per_query 1) plan /\
  forall x, in_plan x plan <-> x ∈ take (Z.to_nat max_slots) (missing a m floor tip).
Proof.
  intros Hok Hfl Htip Hmax plan. destruct (missing_spec a m floor tip Hok) as [Hs Hin].
  unfold plan, plan_ranges. rewrite plan_holes_eq by (unfold zlen; cbn; lia). cbn [app]. unfold zlen. cbn [length]. rewrite Z.sub_0_r.
  fold (missing a m floor tip). set (P := take (Z.to_nat max_slots) (missing a m floor tip)).
  assert (HP : forall x, x ∈ P -> 0 <= x <= u64_max).
  { intros x [Hx _]%take_descending; [|done]. apply Hin in Hx as [[? _] _]. lia. }
  assert (Hn : NoDup P) by (eapply sublist_NoDup; [apply gt_NoDup, Hs|apply sublist_take]).
  assert (Hsort : StronglySorted Z.lt (merge_sort Z.le P)).
  { apply sorted_le_lt; [apply StronglySorted_merge_sort; [intros x y z; lia|intros x y; lia]|by rewrite merge_sort_Permutation]. }
  destruct (runs_spec (merge_sort Z.le P) []) as (R1 & R2 & R3); [done| |constructor|constructor|constructor|].
  { apply Forall_forall. intros x Hx. rewrite merge_sort_Permutation in Hx. specialize (HP x Hx). lia. }
  destruct (chunks_sorted (Z.max slots_per_query 1) (foldl extend_runs [] (merge_sort Z.le P))) as (C1 & C2 & C3); [lia|done| |].
  { apply Forall_forall. intros r Hr. pose proof (proj1 (Forall_forall _ _) R2 r Hr) as Hle. cbn in Hle. split; [|lia].
    destruct (proj1 (R3 (range_start r))) as [(r0 & ?%elem_of_nil & _)|Hx]; [exists r; split; [done|lia]|done|].
    rewrite merge_sort_Permutation in Hx. specialize (HP _ Hx). lia. }
  split_and!; [done|done|]. intros x. rewrite C3, R3, merge_sort_Permutation. split; [intros [(r & ?%elem_of_nil & _)|]; done|by right].
Qed.

(** The slots of the window that are neither covered nor given up. *)
Definition wanted (a : FillAttempts) (m : CoverageMap) (slot : Z) : bool := negb (contains_slot slot m) && negb (is_given_up a slot).

Lemma missing_newer a m floor tip x :
  map_ok m -> floor <= x -> zlen (List.filter (Z.ltb x) (missing a m floor tip)) = zlen (List.filter (wanted a m) (seqZ (x + 1) (tip - x))).
Proof.
  intros Hok Hx. destruct (missing_spec a m floor tip Hok) as [Hs Hin]. unfold zlen. f_equal. apply Permutation_length, NoDup_Permutation.
  - apply gt_NoDup. by apply kept_sorted.
  - apply ascending_NoDup. apply kept_sorted, seqZ_sorted.
  - intros z. rewrite !elem_of_filter_b, Hin, elem_of_seqZ. unfold wanted. rewrite andb_true_iff, !negb_true_iff, Z.ltb_lt.
    rewrite <- (contains_slot_spec m z Hok), not_true_iff_false. intuition lia.
Qed.

(** A round plans exactly the newest missing slots.  Its ranges are ordered newest
    first and disjoint, no longer than a query may be, and a slot is planned exactly when
    it is in the window, neither covered nor given up, and fewer than the round's limit of
    such slots are newer. *)
Theorem plan_ranges_exact m a floor tip slots_per_query max_slots :
  map_ok m -> 0 <= floor -> tip <= u64_max -> 1 <= max_slots ->
  let plan := plan_ranges (holes_in floor tip m) a slots_per_query max_slots in
  StronglySorted range_gt plan /\
  Forall (fun r => 0 <= range_start r <= range_end r /\ len_slots r <= Z.max slots_per_query 1) plan /\
  forall x, in_plan x plan <->
    floor <= x <= tip /\ wanted a m x = true /\ zlen (List.filter (wanted a m) (seqZ (x + 1) (tip - x))) < max_slots.
Proof.
  intros Hok Hfl Htip Hmax plan. destruct (plan_ranges_spec m a floor tip slots_per_query max_slots Hok Hfl Htip Hmax) as (H1 & H2 & H3).
  split_and!; [done|done|]. intros x. unfold plan. rewrite H3. destruct (missing_spec a m floor tip Hok) as [Hs Hin].
  rewrite take_descending, Hin by done. unfold wanted at 1. rewrite andb_true_iff, !negb_true_iff, <- (contains_slot_spec m x Hok), not_true_iff_false.
  split.
  - intros [[[Hx Hc] Hg] Hl]. split; [done|]. split; [done|]. rewrite <- (missing_newer a m floor) by (done || lia). unfold zlen. lia.
  - intros (Hx & [Hc Hg] & Hl). split; [done|]. rewrite <- (missing_newer a m floor) in Hl by (done || lia). unfold zlen in Hl. lia.
Qed.

(** ** Every slot settles *)

(** What the attempts say of one slot. *)
Definition view (a : FillAttempts) (x : Z) : option Z * option Z := (attempts a !! x, given_up a !! x).

(** The tries a slot has; at least one. *)
Definition tries (a : FillAttempts) : Z := Z.max 1 (max_attempts a).

(** A slot that is not given up has a try left. *)
Definition attempts_ok (a : FillAttempts) : Prop :=
  forall x, 0 <= default 0 (attempts a !! x) /\ (given_up a !! x = None -> default 0 (attempts a !! x) < tries a).

(** The tries left for a wanted slot. *)
Definition weight (a : FillAttempts) (m : CoverageMap) (x : Z) : Z :=
  if wanted a m x then tries a - default 0 (attempts a !! x) else 0.

Definition note_slot (now : Z) (published : gset Z) (a : FillAttempts) (slot : Z) : FillAttempts :=
  if bool_decide (slot ∈ published) then fst (filled slot a) else fst (incomplete slot now a).

Lemma note_slot_other now published a slot x : x <> slot -> view (note_slot now published a slot) x = view a x.
Proof.
  intros Hne. unfold note_slot, filled, incomplete, view. destruct (bool_decide _); cbn; [by rewrite !lookup_delete_ne|].
  destruct (_ || _)%bool; cbn; by rewrite ?lookup_insert_ne.
Qed.

Lemma note_slot_consts now published a slot :
  max_attempts (note_slot now published a slot) = max_attempts a /\ retry_after (note_slot now published a slot) = retry_after a.
Proof. unfold note_slot, filled, incomplete. destruct (bool_decide _); [done|]. by destruct (_ || _)%bool. Qed.

(** A slot that was published is forgotten; one that was not has a try less or is given up. *)
Lemma note_slot_self now published a x :
  attempts_ok a -> given_up a !! x = None ->
  let a' := note_slot now published a x in
  (x ∈ published /\ view a' x = (None, None)) \/
  ((x ∉ published) /\ attempts a' !! x = Some (default 0 (attempts a !! x) + 1) /\
   (given_up a' !! x = Some now \/ (given_up a' !! x = None /\ default 0 (attempts a !! x) + 1 < tries a))).
Proof.
  intros Hok Hg a'. unfold a', note_slot. destruct (bool_decide_reflect (x ∈ published)) as [Hp|Hp].
  - left. split; [done|]. unfold view. cbn. by rewrite !lookup_delete_eq.
  - right. split; [done|]. unfold incomplete. cbn [given_up]. rewrite Hg. rewrite (bool_decide_eq_false_2 (is_Some None)) by apply is_Some_None.
    rewrite orb_false_r. cbn [max_attempts]. destruct (Z.ltb_spec (default 0 (attempts a !! x) + 1) (max_attempts a)); cbn.
    + rewrite lookup_insert_eq, Hg. split; [done|]. right. split; [done|]. unfold tries. lia.
    + rewrite !lookup_insert_eq. split; [done|]. by left.
Qed.

Lemma note_slot_ok now published a x : attempts_ok a -> given_up a !! x = None -> attempts_ok (note_slot now published a x).
Proof.
  intros Hok Hg z. destruct (note_slot_consts now published a x) as [Em _]. unfold tries. rewrite Em. fold (tries a).
  destruct (decide (z = x)) as [->|Hne].
  - destruct (note_slot_self now published a x Hok Hg) as [[_ Hv]|(_ & Ha & Hg')].
    + unfold view in Hv. injection Hv as -> ->. unfold tries. cbn. lia.
    + rewrite Ha. cbn. pose proof (Hok x) as [? ?]. split; [lia|]. intros E. destruct Hg' as [?|[_ ?]]; [congruence|done].
  - pose proof (note_slot_other now published a x z Hne) as Hv. unfold view in Hv. injection Hv as -> ->. apply Hok.
Qed.

(** The slots a round reports, one after the other. *)
Definition round_slots (ranges : list SlotRange) : list Z := concat (map (fun r => seqZ (range_start r) (len_slots r)) ranges).

Lemma round_slots_spec ranges :
  StronglySorted range_gt ranges -> Forall (fun r => 0 <= range_start r <= range_end r) ranges ->
  NoDup (round_slots ranges) /\ forall x, x ∈ round_slots ranges <-> in_plan x ranges.
Proof.
  unfold round_slots. induction 1 as [|r l Hl IH Hf]; intros Ho; cbn [map concat].
  { split; [constructor|]. intros x. split; [by intros ?%elem_of_nil|by intros (r & ?%elem_of_nil & _)]. }
  apply Forall_cons in Ho as [Hr Ho]. destruct (IH Ho) as [Hn Hin]. clear IH. split.
  - apply NoDup_app. split; [apply ascending_NoDup, seqZ_sorted|]. split; [|done]. intros x Hx%elem_of_seqZ (r' & Hr' & Hx')%Hin.
    pose proof (proj1 (Forall_forall _ _) Hf r' Hr') as Hlt. unfold range_gt in Hlt. unfold len_slots in Hx. lia.
  - intros x. change (r :: l) with ([r] ++ l). rewrite elem_of_app, in_plan_app, in_plan_single, Hin, elem_of_seqZ. unfold len_slots.
    assert (range_start r <= x < range_start r + (range_end r - range_start r + 1) <-> range_start r <= x <= range_end r) by lia. tauto.
Qed.

Section Rounds.
Context (cfg : FillerConfig) (outcome : SlotRange -> option (gset Z)) (now : Z).

(** Fills that answer, each about its own range only. *)
Definition answers : Prop :=
  forall r, exists published, outcome r = Some published /\ forall x, x ∈ published -> range_start r <= x <= range_end r.

Definition settled (published : gset Z) (a a' : FillAttempts) (x : Z) : Prop :=
  (x ∈ published /\ view a' x = (None, None)) \/
  ((x ∉ published) /\ attempts a' !! x = Some (default 0 (attempts a !! x) + 1) /\
   (given_up a' !! x = Some now \/ (given_up a' !! x = None /\ default 0 (attempts a !! x) + 1 < tries a))).

Lemma settled_view published a a1 a2 a3 x :
  view a1 x = view a x -> tries a1 = tries a -> view a3 x = view a2 x -> settled published a1 a2 x -> settled published a a3 x.
Proof.
  unfold settled, view. intros E1 Et E3. injection E1 as E1 E1'. injection E3 as E3 E3'. by rewrite E1, Et, E3, E3'.
Qed.

Lemma fold_slots published slots a :
  NoDup slots -> attempts_ok a -> (forall x, x ∈ slots -> given_up a !! x = None) ->
  let a' := foldl (note_slot now published) a slots in
  attempts_ok a' /\ max_attempts a' = max_attempts a /\ retry_after a' = retry_after a /\
  (forall x, x ∉ slots -> view a' x = view a x) /\ (forall x, x ∈ slots -> settled published a a' x).
Proof.
  intros Hn. revert a. induction Hn as [|x l Hx Hl IH]; intros a Hok Hg; cbn [foldl].
  { split_and!; [done|done|done|done|by intros x ?%elem_of_nil]. }
  assert (Hgx : given_up a !! x = None) by (apply Hg; by left).
  set (a1 := note_slot now published a x). destruct (note_slot_consts now published a x) as [Em Er]. fold a1 in Em, Er.
  assert (Hother : forall z, z <> x -> view a1 z = view a z) by (intros z; by apply note_slot_other).
  destruct (IH a1) as (I1 & I2 & I3 & I4 & I5); [by apply note_slot_ok| |].
  { intros z Hz. assert (Hne : z <> x) by (by intros ->). specialize (Hother z Hne). unfold view in Hother. injection Hother as _ ->. apply Hg. by right. }
  split_and!; [done|congruence|congruence| |].
  - intros z Hz. apply not_elem_of_cons in Hz as [Hz1 Hz2]. rewrite I4 by done. by apply Hother.
  - intros z [->|Hz]%elem_of_cons.
    + eapply (settled_view published a a a1); [done|done|by apply I4|]. by apply note_slot_self.
    + eapply (settled_view published a a1); [apply Hother; by intros ->|unfold tries; by rewrite Em|done|by apply I5].
Qed.

Lemma note_outcomes ranges a :
  answers -> StronglySorted range_gt ranges -> Forall (fun r => 0 <= range_start r <= range_end r) ranges ->
  attempts_ok a -> (forall x, in_plan x ranges -> given_up a !! x = None) ->
  let a' := foldl (fun a r => note_outcome now r (outcome r) a) a ranges in
  attempts_ok a' /\ max_attempts a' = max_attempts a /\ retry_after a' = retry_after a /\
  (forall x, ~ in_plan x ranges -> view a' x = view a x) /\
  (forall x, in_plan x ranges -> exists r published, r ∈ ranges /\ outcome r = Some published /\ settled published a a' x).
Proof.
  intros Hans Hs. revert a. induction Hs as [|r l Hl IH Hf]; intros a Ho Hok Hg; cbn [foldl].
  { split_and!; [done|done|done|done|by intros x (r & ?%elem_of_nil & _)]. }
  apply Forall_cons in Ho as [Hr Ho]. destruct (Hans r) as (published & Hp & _). rewrite Hp. cbn [note_outcome].
  assert (Hsplit : forall x, in_plan x (r :: l) <-> range_start r <= x <= range_end r \/ in_plan x l).
  { intros x. change (r :: l) with ([r] ++ l). by rewrite in_plan_app, in_plan_single. }
  assert (Hin : forall x, x ∈ seqZ (range_start r) (len_slots r) <-> range_start r <= x <= range_end r).
  { intros x. rewrite elem_of_seqZ. unfold len_slots. lia. }
  assert (Hdisj : forall x, in_plan x l -> ~ range_start r <= x <= range_end r).
  { intros x (r' & Hr' & Hx') Hx. pose proof (proj1 (Forall_forall _ _) Hf r' Hr') as Hlt. unfold range_gt in Hlt. lia. }
  destruct (fold_slots published (seqZ (range_start r) (len_slots r)) a) as (F1 & F2 & F3 & F4 & F5);
    [apply ascending_NoDup, seqZ_sorted|done|intros x Hx%Hin; apply Hg, Hsplit; by left|].
  set (a1 := foldl _ a _) in *.
  destruct (IH a1 Ho F1) as (I1 & I2 & I3 & I4 & I5).
  { intros x Hx. assert (Hv : view a1 x = view a x) by (apply F4; rewrite Hin; by apply Hdisj). unfold view in Hv. injection Hv as _ ->.
    apply Hg, Hsplit. by right. }
  change (foldl (fun a slot => if bool_decide (slot ∈ published) then fst (filled slot a) else fst (incomplete slot now a)) a
    (seqZ (range_start r) (len_slots r))) with a1.
  split_and!; [done|congruence|congruence| |].
  - intros x Hx. rewrite Hsplit in Hx. rewrite I4 by tauto. apply F4. rewrite Hin. tauto.
  - intros x [Hx|Hx]%Hsplit.
    + exists r, published. split; [by left|]. split; [done|]. eapply (settled_view published a a a1); [done|done| |by apply F5, Hin].
      apply I4. intros Hx'. by apply (Hdisj x Hx').
    + destruct (I5 x Hx) as (r' & p' & Hr' & Hp' & Hset). exists r', p'. split; [by right|]. split; [done|].
      eapply (settled_view p' a a1); [|unfold tries; by rewrite F2|done|exact Hset]. apply F4. rewrite Hin. by apply Hdisj.
Qed.

(** Coverage after the fills of a round. *)
Lemma round_coverage ranges m :
  answers -> Forall (fun r => 0 <= range_start r <= range_end r /\ range_end r <= u64_max) ranges -> map_ok m ->
  let m' := foldl (fun m r => match outcome r with
                   | Some published => foldl (fun m slot => insert_slot slot m) m (elements published)
                   | None => m end) m ranges in
  map_ok m' /\ forall x, covers m' x <-> covers m x \/ exists r published, r ∈ ranges /\ outcome r = Some published /\ x ∈ published.
Proof.
  intros Hans. revert m. induction ranges as [|r l IH]; intros m Ho Hok; cbn [foldl].
  { split; [done|]. intros x. split; [by left|]. intros [|(r & p & ?%elem_of_nil & _)]; done. }
  apply Forall_cons in Ho as [Hr Ho]. destruct (Hans r) as (published & Hp & Hin). rewrite Hp.
  destruct (insert_slots_spec (elements published) m Hok) as [Hok1 Hc1].
  { apply Forall_forall. intros x Hx%elem_of_elements. specialize (Hin x Hx). unfold is_u64. lia. }
  destruct (IH _ Ho Hok1) as [Hok2 Hc2]. split; [done|]. intros x. rewrite Hc2, Hc1, elem_of_elements. split.
  - intros [[?|?]|(r' & p' & Hr' & ? & ?)]; [by left|right; exists r, published; split; [by left|done]|].
    right. exists r', p'. split; [by right|done].
  - intros [?|(r' & p' & [->|Hr']%elem_of_cons & Hp' & Hx)]; [by left; left| |].
    + left. right. congruence.
    + right. by exists r', p'.
Qed.

(** ** One round *)

Lemma retain_from_view floor a x : floor <= x -> view (retain_from floor a) x = view a x.
Proof.
  intros Hx. unfold view, retain_from. cbn.
  rewrite !map_lookup_filter. destruct (attempts a !! x), (given_up a !! x); cbn; by rewrite ?option_guard_True.
Qed.

Lemma retain_from_ok floor a : attempts_ok a -> attempts_ok (retain_from floor a).
Proof.
  intros Hok x. destruct (decide (floor <= x)) as [Hx|Hx].
  - pose proof (retain_from_view floor a x Hx) as Hv. unfold view, retain_from in *. cbn in *. injection Hv as -> ->. apply Hok.
  - unfold retain_from, tries. cbn. rewrite !map_lookup_filter. destruct (attempts a !! x), (given_up a !! x); cbn; rewrite ?option_guard_False by done; cbn; lia.
Qed.

(** No release is due. *)
Definition undue (a : FillAttempts) : Prop :=
  retry_after a = 0 \/ forall x t, given_up a !! x = Some t -> due now (retry_after a) t = false.

Lemma release_undue a : undue a -> release_due now a = a.
Proof.
  intros [E|Hd]; unfold release_due; [by rewrite E|]. destruct (retry_after a =? 0); [done|].
  assert (filter (fun e => due now (retry_after a) (snd e) = true) (given_up a) = ∅) as ->.
  { apply map_empty. intros x. apply map_lookup_filter_None. right. intros t Hx. cbn. by rewrite (Hd x t Hx). }
  rewrite map_to_list_empty. cbn. assert (filter (fun e => due now (retry_after a) (snd e) = false) (given_up a) = given_up a) as ->; [|by destruct a].
  apply map_filter_id. intros x t Hx. cbn. by apply Hd with x.
Qed.

Lemma round_limit_pos : 1 <= round_slot_limit (slots_per_query cfg) (max_concurrency cfg).
Proof. unfold round_slot_limit, MIN_SLOTS_PER_ROUND, MAX_SLOTS_PER_ROUND. lia. Qed.

(** A round takes a try from every planned slot and leaves the others alone. *)
Lemma round_progress floor tip a m :
  answers -> map_ok m -> 0 <= floor -> tip <= u64_max -> attempts_ok a -> undue a ->
  let st := snd (round cfg outcome now floor tip (a, m)) in
  map_ok (snd st) /\ attempts_ok (fst st) /\ max_attempts (fst st) = max_attempts a /\ retry_after (fst st) = retry_after a /\
  (forall x, covers m x -> covers (snd st) x) /\
  (forall x t, given_up (fst st) !! x = Some t -> given_up a !! x = Some t \/ t = now) /\
  (forall x, floor <= x <= tip -> weight (fst st) (snd st) x <= weight a m x) /\
  (forall x, in_plan x (fst (round cfg outcome now floor tip (a, m))) -> weight (fst st) (snd st) x < weight a m x) /\
  (forall x, floor <= x <= tip -> wanted a m x = true ->
     exists y, floor <= y <= tip /\ in_plan y (fst (round cfg outcome now floor tip (a, m)))).
Proof.
  intros Hans Hok Hfl Htip Ha Hu. unfold round. cbn [fst snd].
  assert (Hret : undue (retain_from floor a)).
  { destruct Hu as [?|Hd]; [by left|right]. intros x t Hx. cbn in Hx. apply map_lookup_filter_Some in Hx as [Hx _]. by apply (Hd x). }
  rewrite (release_undue _ Hret). pose proof (retain_from_ok floor a Ha) as Hbok.
  assert (Hview : forall x, floor <= x -> view (retain_from floor a) x = view a x) by (intros x; apply retain_from_view).
  assert (Hbg : forall x t, given_up (retain_from floor a) !! x = Some t -> given_up a !! x = Some t).
  { intros x t Hx. cbn in Hx. by apply map_lookup_filter_Some in Hx as [? _]. }
  assert (Hbm : max_attempts (retain_from floor a) = max_attempts a /\ retry_after (retain_from floor a) = retry_after a) by done.
  set (b := retain_from floor a) in *. clearbody b. destruct Hbm as [Ebm Ebr].
  destruct (plan_ranges_spec m b floor tip (slots_per_query cfg) (round_slot_limit (slots_per_query cfg) (max_concurrency cfg)) Hok Hfl Htip round_limit_pos)
    as (P1 & P2 & P3). set (plan := plan_ranges _ _ _ _) in *.
  destruct (missing_spec b m floor tip Hok) as [Hms Hmiss].
  assert (Hplan : forall x, in_plan x plan -> (floor <= x <= tip /\ ~ covers m x) /\ is_given_up b x = false).
  { intros x Hx%P3. apply take_descending in Hx as [Hx _]; [|done]. by apply Hmiss. }
  assert (Hgu : forall c x, is_given_up c x = false <-> given_up c !! x = None).
  { intros c x. unfold is_given_up. rewrite bool_decide_eq_false. by rewrite <- eq_None_not_Some. }
  destruct (note_outcomes plan b Hans P1) as (N1 & N2 & N3 & N4 & N5); [|done| |].
  { eapply Forall_impl; [exact P2|]. cbn. tauto. }
  { intros x Hx. apply Hgu. by apply Hplan. }
  destruct (round_coverage plan m Hans) as [M1 M2]; [|done|].
  { apply Forall_forall. intros r Hr. destruct (proj1 (Forall_forall _ _) P2 r Hr) as [Hse _]. split; [done|].
    destruct (Hplan (range_end r)) as [[? _] _]; [exists r; split; [done|lia]|lia]. }
  set (a' := foldl _ b plan) in *. set (m' := foldl _ m plan) in *.
  assert (Hmono : forall x, covers m x -> covers m' x) by (intros x Hx; apply M2; by left).
  assert (Htries : tries a' = tries a) by (unfold tries; by rewrite N2, Ebm).
  assert (Hwant : forall c n x, map_ok n -> wanted c n x = true <-> ~ covers n x /\ given_up c !! x = None).
  { intros c n x Hn. unfold wanted. rewrite andb_true_iff, !negb_true_iff, Hgu, <- (contains_slot_spec n x Hn), not_true_iff_false. done. }
  assert (Hnot : forall x, floor <= x -> ~ in_plan x plan -> weight a' m' x <= weight a m x).
  { intros x Hx Hnp. pose proof (N4 x Hnp) as Hv. rewrite Hview in Hv by done. unfold view in Hv. injection Hv as Ev1 Ev2.
    unfold weight. rewrite Htries, Ev1. pose proof (Ha x) as [? Hlt].
    destruct (wanted a' m' x) eqn:W1; destruct (wanted a m x) eqn:W2; [lia| | |lia].
    - apply Hwant in W1 as [Hc Hg]; [|done]. rewrite Ev2 in Hg. assert (wanted a m x = true); [|congruence]. apply Hwant; [done|]. split; [|done]. intros ?. auto.
    - apply Hwant in W2 as [Hc Hg]; [|done]. specialize (Hlt Hg). lia. }
  assert (Hin : forall x, in_plan x plan -> weight a' m' x < weight a m x).
  { intros x Hx. destruct (Hplan x Hx) as [[Hxr Hnc] Hng]. rewrite Hgu in Hng. pose proof (Hview x ltac:(lia)) as Hv. unfold view in Hv. injection Hv as Ev1 Ev2.
    destruct (N5 x Hx) as (r & published & Hr & Hp & Hset). pose proof (Ha x) as [Hnn Hlt]. rewrite <- Ev2 in Hlt. specialize (Hlt Hng).
    assert (W : weight a m x = tries a - default 0 (attempts a !! x)).
    { unfold weight. assert (wanted a m x = true) as ->; [|done]. apply Hwant; [done|]. by rewrite <- Ev2. }
    rewrite W. unfold weight. destruct (wanted a' m' x) eqn:W1; [|lia]. apply Hwant in W1 as [Hc Hg]; [|done]. rewrite Htries.
    destruct Hset as [[Hpub _]|(_ & Hat & _)].
    - exfalso. apply Hc, M2. right. by exists r, published.
    - rewrite Hat, Ev1. cbn. lia. }
  split_and!; [done|done|congruence|congruence|done| | |done|].
  - intros x t Ht. destruct (decide (Exists (fun r => range_start r <= x <= range_end r) plan)) as [Hx|Hx].
    + apply Exists_exists in Hx as (r0 & Hr0 & Hx). destruct (N5 x) as (r & published & _ & _ & Hset); [by exists r0|].
      destruct Hset as [[_ Hv]|(_ & _ & [Hg|[Hg _]])]; [unfold view in Hv; congruence|right; congruence|congruence].
    + left. assert (Hnp : ~ in_plan x plan) by (intros (r & Hr & Hxr); apply Hx, Exists_exists; by exists r).
      pose proof (N4 x Hnp) as Hv. unfold view in Hv. injection Hv as _ Ev. rewrite Ev in Ht. by apply Hbg.
  - intros x Hx. destruct (decide (Exists (fun r => range_start r <= x <= range_end r) plan)) as [He|He].
    + apply Exists_exists in He as (r0 & Hr0 & He). apply Z.lt_le_incl, Hin. by exists r0.
    + apply Hnot; [lia|]. intros (r & Hr & Hxr). apply He, Exists_exists. by exists r.
  - intros x Hx Hwx. apply Hwant in Hwx as [Hc Hg]; [|done]. pose proof (Hview x ltac:(lia)) as Hv. unfold view in Hv. injection Hv as _ Ev.
    assert (Hxm : x ∈ missing b m floor tip) by (apply Hmiss; split; [done|]; apply Hgu; congruence).
    destruct (missing b m floor tip) as [|y rest] eqn:Em; [by apply elem_of_nil in Hxm|].
    assert (Hy : in_plan y plan).
    { apply P3. pose proof round_limit_pos. destruct (Z.to_nat (round_slot_limit (slots_per_query cfg) (max_concurrency cfg))) eqn:En; [lia|]. by left. }
    exists y. split; [by apply Hplan|done].
Qed.
End Rounds.

(** ** Rounds until nothing is wanted *)

Lemma zsum_le {A} (f g : A -> Z) l : (forall x, x ∈ l -> f x <= g x) -> zsum f l <= zsum g l.
Proof.
  induction l as [|a l IH]; intros H; cbn; [lia|]. pose proof (H a ltac:(by left)). specialize (IH ltac:(intros x Hx; apply H; by right)). unfold zsum in IH. lia.
Qed.

Lemma zsum_lt {A} (f g : A -> Z) l x : (forall y, y ∈ l -> f y <= g y) -> x ∈ l -> f x < g x -> zsum f l < zsum g l.
Proof.
  induction l as [|a l IH]; intros H Hx Hlt; [by apply elem_of_nil in Hx|]. cbn.
  pose proof (H a ltac:(by left)). pose proof (zsum_le f g l ltac:(intros y Hy; apply H; by right)) as Hle. unfold zsum in Hle.
  apply elem_of_cons in Hx as [->|Hx]; [lia|]. specialize (IH ltac:(intros y Hy; apply H; by right) Hx Hlt). unfold zsum in IH. lia.
Qed.

Lemma zsum_zero {A} (l : list A) : zsum (fun _ => 0) l = 0.
Proof. unfold zsum. induction l; simpl; lia. Qed.

(** The rounds of a window, each at its time and with its outcomes. *)
Fixpoint rounds (cfg : FillerConfig) (floor tip : Z) (l : list (Z * (SlotRange -> option (gset Z)))) (st : FillAttempts * CoverageMap) :
    FillAttempts * CoverageMap :=
  match l with
  | [] => st
  | (now, outcome) :: rest => rounds cfg floor tip rest (snd (round cfg outcome now floor tip st))
  end.

Definition total_weight (floor tip : Z) (st : FillAttempts * CoverageMap) : Z :=
  zsum (weight (fst st) (snd st)) (seqZ floor (tip - floor + 1)).

Lemma weight_wanted a m x : attempts_ok a -> 0 <= weight a m x /\ (wanted a m x = true -> 0 < weight a m x).
Proof.
  intros Ha. unfold weight. destruct (wanted a m x) eqn:E; [|lia]. pose proof (Ha x) as [_ Hlt]. unfold wanted in E. zbool.
  unfold is_given_up in *. zbool. rewrite <- eq_None_not_Some in *. specialize (Hlt ltac:(done)). lia.
Qed.

Lemma rounds_settle cfg floor tip l : forall a m t0 retry,
  map_ok m -> 0 <= floor <= tip -> tip <= u64_max -> attempts_ok a -> 0 <= retry -> retry_after a = retry ->
  Forall (fun r => answers (snd r) /\ t0 <= fst r /\ (retry = 0 \/ fst r < t0 + retry)) l ->
  (forall x t, given_up a !! x = Some t -> t0 <= t) ->
  total_weight floor tip (a, m) <= Z.of_nat (length l) ->
  map_ok (snd (rounds cfg floor tip l (a, m))) /\
  forall x, floor <= x <= tip -> wanted (fst (rounds cfg floor tip l (a, m))) (snd (rounds cfg floor tip l (a, m))) x = false.
Proof.
  induction l as [|[now outcome] l IH]; intros a m t0 retry Hok Hft Htip Ha Hr Er Hl Hg Hw; cbn [rounds].
  - split; [done|]. intros x Hx. destruct (wanted a m x) eqn:E; [|done]. exfalso. cbn in Hw. unfold total_weight in Hw. cbn in Hw.
    assert (zsum (fun _ : Z => 0) (seqZ floor (tip - floor + 1)) < zsum (weight a m) (seqZ floor (tip - floor + 1))) as H.
    { apply (zsum_lt _ _ _ x); [intros y _; by apply weight_wanted|apply elem_of_seqZ; lia|by apply weight_wanted]. }
    rewrite zsum_zero in H. lia.
  - apply Forall_cons in Hl as [(Hans & Ht & Hdue) Hl]. cbn [fst snd] in *.
    assert (Hu : undue now a).
    { destruct Hdue as [E|Hlt]; [left; congruence|]. right. intros x t Hx. specialize (Hg x t Hx). unfold due. rewrite Er. lia. }
    destruct (round_progress cfg outcome now floor tip a m Hans Hok ltac:(lia) Htip Ha Hu) as (R1 & R2 & R3 & R4 & R5 & R6 & R7 & R8 & R9).
    destruct (round cfg outcome now floor tip (a, m)) as [plan [a' m']] eqn:Eround. cbn [fst snd] in *.
    apply (IH a' m' t0 retry); [done|done|done|done|done|congruence|done| |].
    + intros x t Hx. destruct (R6 x t Hx) as [Hx'| ->]; [by apply (Hg x)|done].
    + assert (Hle : total_weight floor tip (a', m') <= total_weight floor tip (a, m)).
      { apply zsum_le. intros x Hx%elem_of_seqZ. apply R7. lia. }
      destruct (List.filter (wanted a m) (seqZ floor (tip - floor + 1))) as [|x rest] eqn:Ef.
      * assert (Hz : total_weight floor tip (a, m) <= zsum (fun _ : Z => 0) (seqZ floor (tip - floor + 1))); [|rewrite zsum_zero in Hz; lia].
        apply zsum_le. intros x Hx. unfold weight. cbn [fst snd]. destruct (wanted a m x) eqn:E; [|lia].
        assert (Hin : x ∈ List.filter (wanted a m) (seqZ floor (tip - floor + 1))) by (by apply elem_of_filter_b). rewrite Ef in Hin. by apply elem_of_nil in Hin.
      * assert (Hin : x ∈ List.filter (wanted a m) (seqZ floor (tip - floor + 1))) by (rewrite Ef; by left).
        apply elem_of_filter_b in Hin as [Hx%elem_of_seqZ Hwx]. destruct (R9 x ltac:(lia) Hwx) as (y & Hy & Hyp).
        assert (Hlt : total_weight floor tip (a', m') < total_weight floor tip (a, m)); [|cbn in Hw; lia].
        apply (zsum_lt _ _ _ y); [intros z Hz%elem_of_seqZ; apply R7; lia|apply elem_of_seqZ; lia|by apply R8].
Qed.

(** The forwarder settles its window.  With fills that answer, whatever they manage to
    publish, and before any given-up slot is due for a retry, after as many rounds as the
    window has tries every slot of it is covered or given up: no slot is starved. *)
Theorem filler_settles cfg floor tip max_attempts retry m l t0 :
  map_ok m -> 0 <= floor <= tip -> tip <= u64_max -> 0 <= retry ->
  Forall (fun r => answers (snd r) /\ t0 <= fst r /\ (retry = 0 \/ fst r < t0 + retry)) l ->
  Z.max 1 max_attempts * (tip - floor + 1) <= Z.of_nat (length l) ->
  let st := rounds cfg floor tip l (attempts_new max_attempts retry, m) in
  forall x, floor <= x <= tip -> covers (snd st) x \/ is_given_up (fst st) x = true.
Proof.
  intros Hok Hft Htip Hr Hl Hlen st x Hx. set (a := attempts_new max_attempts retry).
  destruct (rounds_settle cfg floor tip l a m t0 retry Hok Hft Htip) as [Hok' Hw]; [|done|done|done| | |].
  - intros z. cbn. rewrite lookup_empty. cbn. unfold tries. cbn. lia.
  - intros z t Hz. cbn in Hz. by rewrite lookup_empty in Hz.
  - assert (Hle : total_weight floor tip (a, m) <= zsum (fun _ : Z => Z.max 1 max_attempts) (seqZ floor (tip - floor + 1))).
    { apply zsum_le. intros z _. unfold weight, tries. cbn. rewrite lookup_empty. cbn. destruct (wanted _ _ _); lia. }
    assert (Hconst : forall (c : Z) (k : list Z), zsum (fun _ => c) k = c * Z.of_nat (length k)).
    { intros c k. unfold zsum. induction k as [|y k IH]; cbn [foldr length]; lia. }
    rewrite Hconst, length_seqZ in Hle. nia.
  - specialize (Hw x Hx). fold st in Hw, Hok'. unfold wanted in Hw. apply andb_false_iff in Hw as [Hc|Hc]; apply negb_false_iff in Hc; [left|by right].
    by apply contains_slot_spec.
Qed.

(** ** The statuses of a batch *)

(** A block row proves a slot skipped when the slot lies strictly between its parent and
    itself, in a gap short enough to enumerate. *)
Definition skips (x : Z) (row : BlockRow) : Prop :=
  b_parent row < x < b_slot row /\ b_slot row - b_parent row - 1 <= MAX_SKIPPED_RUN.

Definition in_slots (x : Z) (r : SlotRange) : Prop := range_start r <= x <= range_end r.

(** What the statuses of some rows are. *)
Definition statuses_of (range : SlotRange) (rows : list BlockRow) (covered : gmap Z SlotStatus) : Prop :=
  (forall x n, covered !! x = Some (Covered n) <->
     in_slots x range /\ exists row count, row ∈ rows /\ b_slot row = x /\ b_count row = Some count /\ n = Z.min count u32_max) /\
  (forall x, covered !! x = Some Skipped <->
     in_slots x range /\ ~ (x ∈ map b_slot rows) /\ exists row, row ∈ rows /\ skips x row) /\
  forall x, ~ (covered !! x = Some NotCovered).

Lemma or_insert_fold (l : list Z) : forall (m : gmap Z SlotStatus) x,
  foldl (fun (m : gmap Z SlotStatus) slot => match m !! slot with Some _ => m | None => <[slot := Skipped]> m end) m l !! x =
  match m !! x with Some s => Some s | None => if bool_decide (x ∈ l) then Some Skipped else None end.
Proof.
  induction l as [|y l IH]; intros m x; cbn [foldl]; [by destruct (m !! x)|]. rewrite IH.
  destruct (m !! y) eqn:Ey.
  - destruct (m !! x) eqn:Ex; [done|]. assert (x <> y) by congruence. by rewrite (bool_decide_ext (x ∈ y :: l) (x ∈ l)) by set_solver.
  - destruct (decide (x = y)) as [->|Hne].
    + rewrite lookup_insert_eq, Ey. by rewrite bool_decide_eq_true_2 by set_solver.
    + rewrite lookup_insert_ne by done. destruct (m !! x); [done|]. by rewrite (bool_decide_ext (x ∈ y :: l) (x ∈ l)) by set_solver.
Qed.

(** The rows of a batch: counts on the rows in the range, each slot once, u64 columns. *)
Definition row_ok (range : SlotRange) (row : BlockRow) : Prop :=
  0 <= b_parent row <= u64_max /\ 0 <= b_slot row <= u64_max /\ (in_slots (b_slot row) range -> is_Some (b_count row)).

Definition skipped_slots (range : SlotRange) (row : BlockRow) : list Z :=
  if ((b_parent row <? b_slot row) && (b_slot row - b_parent row - 1 <=? MAX_SKIPPED_RUN))%bool then
    let start := Z.max (range_start range) (sat_add (b_parent row) 1) in
    let end_ := Z.min (range_end range) (sat_sub (b_slot row) 1) in seqZ start (end_ - start + 1)
  else [].

Lemma skipped_slots_spec range row x : row_ok range row -> x ∈ skipped_slots range row <-> in_slots x range /\ skips x row.
Proof.
  intros (Hp & Hs & _). unfold skipped_slots, in_slots, skips. destruct (Z.ltb_spec (b_parent row) (b_slot row)); cbn [andb].
  - destruct (Z.leb_spec (b_slot row - b_parent row - 1) MAX_SKIPPED_RUN); [|rewrite elem_of_nil; lia].
    rewrite elem_of_seqZ. unfold sat_add, sat_sub. lia.
  - rewrite elem_of_nil. lia.
Qed.

Lemma cover_row_lookup range covered row :
  row_ok range row ->
  exists covered', cover_row range (Some covered) row = Some covered' /\ forall x, covered' !! x =
    if bool_decide (x = b_slot row /\ in_slots x range) then (fun count => Covered (Z.min count u32_max)) <$> b_count row
    else match covered !! x with Some s => Some s | None => if bool_decide (in_slots x range /\ skips x row) then Some Skipped else None end.
Proof.
  intros Hrow. pose proof Hrow as (_ & _ & Hc). cbn [cover_row].
  assert (Hgo : forall m, (if ((b_parent row <? b_slot row) && (b_slot row - b_parent row - 1 <=? MAX_SKIPPED_RUN))%bool then
      let start := Z.max (range_start range) (sat_add (b_parent row) 1) in
      let end_ := Z.min (range_end range) (sat_sub (b_slot row) 1) in
      Some (foldl (fun (m : gmap Z SlotStatus) slot => match m !! slot with Some _ => m | None => <[slot := Skipped]> m end) m (seqZ start (end_ - start + 1)))
    else Some m) = Some (foldl (fun (m : gmap Z SlotStatus) slot => match m !! slot with Some _ => m | None => <[slot := Skipped]> m end) m (skipped_slots range row))).
  { intros m. unfold skipped_slots. by destruct (_ && _)%bool. }
  assert (Hskip : forall x, bool_decide (x ∈ skipped_slots range row) = bool_decide (in_slots x range /\ skips x row)).
  { intros x. apply bool_decide_ext. by apply skipped_slots_spec. }
  destruct ((range_start range <=? b_slot row) && (b_slot row <=? range_end range))%bool eqn:Hin.
  - apply andb_true_iff in Hin as [H1%Z.leb_le H2%Z.leb_le]. destruct Hc as [count Ec]; [by split|]. rewrite Ec, Hgo. eexists. split; [done|].
    intros x. rewrite or_insert_fold, Hskip. destruct (decide (x = b_slot row)) as [->|Hne].
    + rewrite lookup_insert_eq, bool_decide_eq_true_2 by (split; [done|by split]). done.
    + rewrite lookup_insert_ne by done. by rewrite (bool_decide_eq_false_2 (x = b_slot row /\ _)) by (intros [? _]; done).
  - rewrite Hgo. eexists. split; [done|]. intros x. rewrite or_insert_fold, Hskip.
    rewrite (bool_decide_eq_false_2 (x = b_slot row /\ _)); [done|]. intros [-> Hx]. unfold in_slots in Hx. apply andb_false_iff in Hin as [?%Z.leb_gt|?%Z.leb_gt]; lia.
Qed.

Lemma cover_rows range : forall rows,
  Forall (row_ok range) rows -> NoDup (map b_slot rows) ->
  exists covered, foldl (cover_row range) (Some ∅) rows = Some covered /\ statuses_of range rows covered.
Proof.
  induction rows as [|row rows IH] using rev_ind; intros Hok Hnd.
  { exists ∅. split; [done|]. unfold statuses_of. split_and!; intros *; rewrite ?lookup_empty; [| |done].
    - split; [done|]. intros (_ & row & count & Hr & _). by apply elem_of_nil in Hr.
    - split; [done|]. intros (_ & _ & row & Hr & _). by apply elem_of_nil in Hr. }
  apply Forall_app in Hok as [Hok [Hrow _]%Forall_cons]. rewrite map_app in Hnd. apply NoDup_app in Hnd as (Hnd & Hout & _).
  destruct (IH Hok Hnd) as (covered & E & S1 & S2 & S3). rewrite foldl_app. cbn [foldl]. rewrite E.
  destruct (cover_row_lookup range covered row Hrow) as (covered' & -> & Hl). exists covered'. split; [done|].
  assert (Hnew : b_slot row ∉ map b_slot rows) by (intros Hin; apply (Hout _ Hin); by left).
  assert (Hold : forall r, r ∈ rows -> b_slot r <> b_slot row).
  { intros r Hr Er. apply Hnew. rewrite <- Er. by apply list_elem_of_fmap_2. }
  unfold statuses_of. split_and!.
  - intros x n. rewrite Hl. case_bool_decide as Hx.
    + destruct Hx as [-> Hx]. destruct (b_count row) as [count|] eqn:Ec; cbn.
      * split.
        -- intros [= <-]. split; [done|]. exists row, count. split_and!; [set_solver|done|done|done].
        -- intros (_ & r & c & Hr & Er & Ec' & ->). apply elem_of_app in Hr as [Hr|Hr%list_elem_of_singleton]; [by apply Hold in Hr|]. subst r. congruence.
      * destruct Hrow as (_ & _ & Hc). destruct (Hc Hx) as [? ?]. congruence.
    + assert (Hc : (covered !! x = Some (Covered n)) <-> (in_slots x range /\ exists r count, r ∈ rows ++ [row] /\ b_slot r = x /\ b_count r = Some count /\ n = Z.min count u32_max)).
      { rewrite S1. split; intros (Hin & r & c & Hr & Er & Rest); (split; [done|]); exists r, c; (split; [|done]); [set_solver|].
        apply elem_of_app in Hr as [Hr|Hr%list_elem_of_singleton]; [done|]. subst r. destruct Hx. by split. }
      rewrite <- Hc. destruct (covered !! x) eqn:Ex; [done|]. case_bool_decide; done.
  - intros x. rewrite Hl. rewrite map_app. case_bool_decide as Hx.
    + destruct Hx as [-> Hx]. split; [by destruct (b_count row)|]. intros (_ & Hn & _). destruct Hn. set_solver.
    + assert (Hsl : in_slots x range -> x ∉ map b_slot rows <-> x ∉ map b_slot rows ++ map b_slot [row]).
      { intros Hin. cbn. assert (x <> b_slot row) by tauto. set_solver. }
      destruct (covered !! x) as [s|] eqn:Ex.
      * split.
        -- intros [= ->]. apply S2 in Ex as (Hin & Hn & r & Hr & Hs). split_and!; [done|by apply Hsl|]. exists r. set_solver.
        -- intros (Hin & Hn & _). apply Hsl in Hn; [|done]. destruct s as [n| |]; [|done|by apply S3 in Ex].
           apply S1 in Ex as (_ & r & c & Hr & Er & _). destruct Hn. rewrite <- Er. by apply list_elem_of_fmap_2.
      * case_bool_decide as Hs.
        -- split; [|done]. intros _. destruct Hs as [Hin Hs]. split_and!; [done| |exists row; set_solver]. apply Hsl; [done|].
           intros (r & -> & Hr)%list_elem_of_fmap. pose proof (proj1 (Forall_forall _ _) Hok r Hr) as (_ & _ & Hc). destruct (Hc Hin) as [c Hc'].
           assert (covered !! b_slot r = Some (Covered (Z.min c u32_max))); [|congruence]. apply S1. split; [done|]. by exists r, c.
        -- split; [done|]. intros (Hin & Hn & r & Hr & Hsr). apply elem_of_app in Hr as [Hr|Hr%list_elem_of_singleton]; [|subst r; tauto].
           assert (covered !! x = Some Skipped); [|congruence]. apply S2. split_and!; [done|by apply Hsl|by exists r].
  - intros x. rewrite Hl. case_bool_decide; [by destruct (b_count row)|]. destruct (covered !! x) eqn:Ex; [by rewrite <- Ex|]. by case_bool_decide.
Qed.

(** A chain of blocks (slot, parent, transactions), oldest first: each block's parent is
    below it, and at or above the block before it. *)
Definition chain_slot (b : Z * Z * Z) : Z := fst (fst b).
Definition chain_parent (b : Z * Z * Z) : Z := snd (fst b).
Definition linked (chain : list (Z * Z * Z)) : Prop :=
  StronglySorted (fun b b' => chain_slot b <= chain_parent b') chain /\
  Forall (fun b => 0 <= chain_parent b < chain_slot b /\ chain_slot b <= u64_max) chain.

(** What the source answers for a range: the metadata of its blocks. *)
Definition blocks_between (chain : list (Z * Z * Z)) (r : SlotRange) : list (Z * Z * Z) :=
  List.filter (fun b => (range_start r <=? chain_slot b) && (chain_slot b <=? range_end r))%bool chain.

Lemma linked_slots chain : linked chain -> StronglySorted Z.lt (map chain_slot chain).
Proof.
  intros [Hs Hf]. induction Hs as [|b chain Hs IH Hb]; cbn; [constructor|]. apply Forall_cons in Hf as [_ Hf]. constructor; [by apply IH|].
  apply Forall_forall. intros x (c & -> & Hc)%list_elem_of_fmap. pose proof (proj1 (Forall_forall _ _) Hb c Hc) as H1. cbn in H1.
  pose proof (proj1 (Forall_forall _ _) Hf c Hc) as H2. cbn in H2. lia.
Qed.

Lemma sorted_lt_nodup (l : list Z) : StronglySorted Z.lt l -> NoDup l.
Proof.
  induction 1 as [|x l Hl IH Hf]; constructor; [|done]. intros Hx. pose proof (proj1 (Forall_forall _ _) Hf x Hx). lia.
Qed.

(** The first block after the range is the block of a link that crosses its end. *)
Lemma crossing_link chain e b x :
  linked chain -> b ∈ chain -> x <= e -> e < chain_slot b -> chain_parent b < x -> chain_slot b - chain_parent b - 1 <= MAX_SKIPPED_RUN ->
  next_block_after chain e = Some (fst b).
Proof.
  unfold next_block_after. intros [Hs Hf] Hb Hx Hr Hp Hgap. cbn zeta.
  assert (Hmax : chain_slot b <= sat_add (sat_add e MAX_SKIPPED_RUN) 1).
  { pose proof (proj1 (Forall_forall _ _) Hf b Hb). cbn in *. unfold sat_add. lia. }
  clear Hf. generalize dependent (sat_add (sat_add e MAX_SKIPPED_RUN) 1). intros max Hmax.
  induction Hs as [|c chain Hs IH Hf]; [by apply elem_of_nil in Hb|]. cbn. fold (chain_slot c).
  apply elem_of_cons in Hb as [->|Hb].
  - rewrite (proj2 (Z.ltb_lt _ _) Hr), (proj2 (Z.leb_le _ _) Hmax). done.
  - pose proof (proj1 (Forall_forall _ _) Hf b Hb) as Hc. cbn in Hc. destruct (Z.ltb_spec e (chain_slot c)); [lia|]. by apply IH.
Qed.

Lemma next_block_some chain e slot parent :
  next_block_after chain e = Some (slot, parent) -> e < slot /\ exists count, (slot, parent, count) ∈ chain.
Proof.
  unfold next_block_after. destruct (List.filter _ chain) as [|b rest] eqn:E; [done|]. cbn. intros [= Eb].
  assert (Hb : b ∈ b :: rest) by (by left). rewrite <- E in Hb.
  apply elem_of_filter_b in Hb as [Hb Hlt]. zbool. destruct b as [[s p] c]. cbn in *. simplify_eq. split; [done|]. by exists c.
Qed.

(** The rows of a batch over a chain. *)
Definition chain_rows (chain : list (Z * Z * Z)) (range : SlotRange) : list BlockRow :=
  map (fun m => mkBlockRow (fst (fst m)) (snd (fst m)) (Some (snd m))) (blocks_between chain range) ++
  match next_block_after chain (range_end range) with Some (slot, parent) => [mkBlockRow slot parent None] | None => [] end.

Lemma chain_rows_elem chain range row :
  row ∈ chain_rows chain range <->
  (exists b, b ∈ chain /\ in_slots (chain_slot b) range /\ row = mkBlockRow (chain_slot b) (chain_parent b) (Some (snd b))) \/
  (exists slot parent, next_block_after chain (range_end range) = Some (slot, parent) /\ row = mkBlockRow slot parent None).
Proof.
  unfold chain_rows. rewrite elem_of_app, list_elem_of_fmap. unfold in_slots. f_equiv.
  - split.
    + intros (b & -> & [Hb Hin]%elem_of_filter_b). zbool. exists b. split_and!; [done|done|done|done].
    + intros (b & Hb & Hin & ->). exists b. split; [done|]. apply elem_of_filter_b. split; [done|]. apply andb_true_iff. rewrite !Z.leb_le. lia.
  - destruct (next_block_after chain (range_end range)) as [[slot parent]|]; [|split; [by intros ?%elem_of_nil|by intros (? & ? & ? & _)]].
    rewrite list_elem_of_singleton. split; [intros ->; by exists slot, parent|by intros (? & ? & [= <- <-] & ->)].
Qed.

Lemma chain_rows_ok chain range : linked chain -> Forall (row_ok range) (chain_rows chain range).
Proof.
  intros [_ Hf]. apply Forall_forall. intros row [(b & Hb & Hin & ->)|(slot & parent & Hb & ->)]%chain_rows_elem; unfold row_ok; cbn.
  + pose proof (proj1 (Forall_forall _ _) Hf b Hb) as H. cbn in H. split_and!; [lia|lia|lia|lia|done].
  + apply next_block_some in Hb as (Hr & count & Hb). pose proof (proj1 (Forall_forall _ _) Hf _ Hb) as H. unfold chain_parent, chain_slot in H. cbn in H.
    split_and!; [lia|lia|lia|lia|]. unfold in_slots. lia.
Qed.

Lemma chain_rows_nodup chain range : linked chain -> NoDup (map b_slot (chain_rows chain range)).
Proof.
  intros Hl. unfold chain_rows. rewrite map_app, map_map. cbn. apply NoDup_app. split_and!.
  + apply sorted_lt_nodup. fold chain_slot. pose proof (linked_slots chain Hl) as Hss. clear -Hss. unfold blocks_between.
    induction chain as [|b chain IH]; cbn; [constructor|]. inversion Hss as [|? ? H1 H2]; subst. destruct (_ && _)%bool; [|by apply IH].
    cbn. constructor; [by apply IH|]. apply Forall_forall. intros x (c & -> & [Hc _]%elem_of_filter_b)%list_elem_of_fmap.
    apply (proj1 (Forall_forall _ _) H2). by apply list_elem_of_fmap_2.
  + intros x (b & -> & [Hb Hin]%elem_of_filter_b)%list_elem_of_fmap Hsucc. zbool.
    destruct (next_block_after chain (range_end range)) as [[slot parent]|] eqn:Eb; [|by apply elem_of_nil in Hsucc].
    apply list_elem_of_singleton in Hsucc. cbn in Hsucc. apply next_block_some in Eb as [Hr _]. unfold chain_slot in *. lia.
  + destruct (next_block_after chain (range_end range)) as [[slot parent]|]; cbn; [apply NoDup_singleton|constructor].
Qed.

(** C27: the statuses a batch publishes are the chain's.  A slot of the range is published as
    covered exactly when the chain has a block there, with the block's transaction count, and
    as skipped exactly when the chain has none and a block of the chain links over the slot
    by a gap short enough to enumerate; nothing is published past the newest block, and the
    successor row never reaches the count it does not carry. *)
Theorem batch_statuses_exact chain range :
  linked chain -> 
  exists covered, coverage_from_metadata range (blocks_between chain range) (next_block_after chain (range_end range)) = Some covered /\
  (forall x n, covered !! x = Some (Covered n) <->
     in_slots x range /\ exists parent count, (x, parent, count) ∈ chain /\ n = Z.min count u32_max) /\
  (forall x, covered !! x = Some Skipped <->
     in_slots x range /\ ~ (x ∈ map chain_slot chain) /\
     exists slot parent count, (slot, parent, count) ∈ chain /\ parent < x < slot /\ slot - parent - 1 <= MAX_SKIPPED_RUN) /\
  forall x, ~ (covered !! x = Some NotCovered).
Proof.
  intros Hl. pose proof (chain_rows_elem chain range) as Hrows.
  destruct (cover_rows range (chain_rows chain range)) as (covered & E & S1 & S2 & S3);
    [by apply chain_rows_ok|by apply chain_rows_nodup|].
  exists covered. split; [exact E|]. split_and!; [| |exact S3].
  + intros x n. rewrite S1. split; intros [Hx Hrest]; (split; [done|]); revert Hrest.
    * intros (row & count & [(b & Hb & Hin & ->)|(slot & parent & Hb & ->)]%Hrows & Ex & Ec & ->); cbn in *; [|done].
      simplify_eq. destruct b as [[s p] c]. by exists p, c.
    * intros (parent & count & Hb & ->). exists (mkBlockRow x parent (Some count)), count. split; [|done].
      apply Hrows. left. by exists (x, parent, count).
  + intros x. rewrite S2.
    assert (Hnin : in_slots x range -> ~ (x ∈ map b_slot (chain_rows chain range)) <-> ~ (x ∈ map chain_slot chain)).
    { intros Hin. f_equiv. rewrite !list_elem_of_fmap. split.
      - intros (row & -> & [(b & Hb & _ & ->)|(slot & parent & Hb & ->)]%Hrows); [by exists b|].
        apply next_block_some in Hb as (_ & count & Hb). by exists (slot, parent, count).
      - intros (b & -> & Hb). exists (mkBlockRow (chain_slot b) (chain_parent b) (Some (snd b))). split; [done|]. apply Hrows. left. by exists b. }
    split.
    * intros (Hin & Hn & row & [(b & Hb & _ & ->)|(slot & parent & Hb & ->)]%Hrows & Hsk & Hgap); (split_and!; [done|by apply Hnin|]).
      -- destruct b as [[s p] c]. by exists s, p, c.
      -- apply next_block_some in Hb as (_ & count & Hb). by exists slot, parent, count.
    * intros (Hin & Hn & slot & parent & count & Hb & Hsk & Hgap). split_and!; [done|by apply Hnin|].
      destruct (decide (slot <= range_end range)).
      -- exists (mkBlockRow slot parent (Some count)). split; [|done]. apply Hrows. left. exists (slot, parent, count). split_and!; [done| |done].
         unfold in_slots, chain_slot in *. cbn. lia.
      -- exists (mkBlockRow slot parent None). split; [|done]. apply Hrows. right. exists slot, parent. split; [|done].
         apply (crossing_link chain _ (slot, parent, count) x); unfold chain_slot, chain_parent, in_slots in *; cbn; [done|done|lia|lia|lia|done].
Qed.
