(* ===== verification/Sdk.v ===== *)
(** * Sdk: the Solana values that the ingestor stores and the server serves

    The messages, status metadata and errors of the Solana SDK and of the streaming protocol,
    as far as [crates/superbank] and [crates/superbank-rpc] read and build them.  Only the
    data is here; the operations of those libraries are parameters of the files that use
    them.  A floating-point number is the integer of its bits, since it is only copied. *)

From S2P Require Import Prelude Text.

Open Scope Z_scope.

(** ** Messages *)

Record MessageHeader := mkHeader {
  num_required_signatures : Z; num_readonly_signed_accounts : Z; num_readonly_unsigned_accounts : Z;
}.
Record TransactionConfig := mkConfig {
  priority_fee : option Z; compute_unit_limit : option Z; loaded_accounts_data_size_limit : option Z; heap_size : option Z;
}.
Record CompiledInstruction := mkInstruction { ci_program_id_index : Z; ci_accounts : list Z; ci_data : list Z }.
Record AddressTableLookup := mkLookup { lk_account_key : list Z; lk_writable_indexes : list Z; lk_readonly_indexes : list Z }.

Inductive VersionedMessage :=
| LegacyMessage (header : MessageHeader) (account_keys : list (list Z)) (recent_blockhash : list Z) (instructions : list CompiledInstruction)
| MessageV0 (header : MessageHeader) (account_keys : list (list Z)) (recent_blockhash : list Z) (instructions : list CompiledInstruction)
    (address_table_lookups : list AddressTableLookup)
| MessageV1 (header : MessageHeader) (config : TransactionConfig) (lifetime_specifier : list Z) (account_keys : list (list Z))
    (instructions : list CompiledInstruction).

Record VersionedTransaction := mkVersionedTx { vt_signatures : list (list Z); vt_message : VersionedMessage }.

(** ** Status metadata *)

Record InnerInstruction := mkInner { ii_instruction : CompiledInstruction; ii_stack_height : option Z }.
Record InnerInstructions := mkInners { is_index : Z; is_instructions : list InnerInstruction }.

Record UiTokenAmount := mkUiAmount { ua_amount : string; ua_decimals : Z; ua_ui_amount : option Z; ua_ui_amount_string : string }.
Record TransactionTokenBalance := mkTokenBalance {
  tb_account_index : Z; tb_mint : string; tb_ui_token_amount : UiTokenAmount; tb_owner : string; tb_program_id : string;
}.

Inductive RewardType := Fee | Rent | Staking | Voting | DeactivatedStake | VATDebit.
Record SdkReward := mkSdkReward {
  sr_pubkey : string; sr_lamports : Z; sr_post_balance : Z; sr_reward_type : option RewardType; sr_commission : option Z;
  sr_commission_bps : option Z;
}.

Record TransactionReturnData := mkReturnData { rd_program_id : list Z; rd_data : list Z }.

(** ** Errors: the variants the source names, prefixed by their enum *)

Inductive InstructionError :=
| IE_Custom (code : Z) | IE_BorshIoError
| IE_GenericError | IE_InvalidArgument | IE_InvalidInstructionData | IE_InvalidAccountData | IE_AccountDataTooSmall
| IE_InsufficientFunds | IE_IncorrectProgramId | IE_MissingRequiredSignature | IE_AccountAlreadyInitialized | IE_UninitializedAccount
| IE_UnbalancedInstruction | IE_ModifiedProgramId | IE_ExternalAccountLamportSpend | IE_ExternalAccountDataModified | IE_ReadonlyLamportChange
| IE_ReadonlyDataModified | IE_DuplicateAccountIndex | IE_ExecutableModified | IE_RentEpochModified | IE_NotEnoughAccountKeys
| IE_AccountDataSizeChanged | IE_AccountNotExecutable | IE_AccountBorrowFailed | IE_AccountBorrowOutstanding | IE_DuplicateAccountOutOfSync
| IE_InvalidError | IE_ExecutableDataModified | IE_ExecutableLamportChange | IE_ExecutableAccountNotRentExempt | IE_UnsupportedProgramId
| IE_CallDepth | IE_MissingAccount | IE_ReentrancyNotAllowed | IE_MaxSeedLengthExceeded | IE_InvalidSeeds
| IE_InvalidRealloc | IE_ComputationalBudgetExceeded | IE_PrivilegeEscalation | IE_ProgramEnvironmentSetupFailure | IE_ProgramFailedToComplete
| IE_ProgramFailedToCompile | IE_Immutable | IE_IncorrectAuthority | IE_AccountNotRentExempt | IE_InvalidAccountOwner
| IE_ArithmeticOverflow | IE_UnsupportedSysvar | IE_IllegalOwner | IE_MaxAccountsDataAllocationsExceeded | IE_MaxAccountsExceeded
| IE_MaxInstructionTraceLengthExceeded | IE_BuiltinProgramsMustConsumeComputeUnits.

Inductive TransactionError :=
| TE_InstructionError (index : Z) (err : InstructionError) | TE_DuplicateInstruction (index : Z)
| TE_InsufficientFundsForRent (account_index : Z) | TE_ProgramExecutionTemporarilyRestricted (account_index : Z)
| TE_AccountInUse | TE_AccountLoadedTwice | TE_AccountNotFound | TE_ProgramAccountNotFound
| TE_InsufficientFundsForFee | TE_InvalidAccountForFee | TE_AlreadyProcessed | TE_BlockhashNotFound
| TE_CallChainTooDeep | TE_MissingSignatureForFee | TE_InvalidAccountIndex | TE_SignatureFailure
| TE_InvalidProgramForExecution | TE_SanitizeFailure | TE_ClusterMaintenance | TE_AccountBorrowOutstanding
| TE_WouldExceedMaxBlockCostLimit | TE_UnsupportedVersion | TE_InvalidWritableAccount | TE_WouldExceedMaxAccountCostLimit
| TE_WouldExceedAccountDataBlockLimit | TE_TooManyAccountLocks | TE_AddressLookupTableNotFound | TE_InvalidAddressLookupTableOwner
| TE_InvalidAddressLookupTableData | TE_InvalidAddressLookupTableIndex | TE_InvalidRentPayingAccount | TE_WouldExceedMaxVoteCostLimit
| TE_WouldExceedAccountDataTotalLimit | TE_MaxLoadedAccountsDataSizeExceeded | TE_InvalidLoadedAccountsDataSizeLimit | TE_ResanitizationNeeded
| TE_UnbalancedTransaction | TE_ProgramCacheHitMaxLimit | TE_CommitCancelled.

Record TransactionStatusMeta := mkStatusMeta {
  sm_status : result unit TransactionError; sm_fee : Z; sm_pre_balances : list Z; sm_post_balances : list Z;
  sm_inner_instructions : option (list InnerInstructions); sm_log_messages : option (list string);
  sm_pre_token_balances : option (list TransactionTokenBalance); sm_post_token_balances : option (list TransactionTokenBalance);
  sm_rewards : option (list SdkReward); sm_loaded_writable : list (list Z); sm_loaded_readonly : list (list Z);
  sm_return_data : option TransactionReturnData; sm_compute_units_consumed : option Z; sm_cost_units : option Z;
}.

(** [TransactionWithStatusMeta]: the metadata of a legacy transaction may be missing. *)
Inductive TransactionWithStatusMeta :=
| Complete (transaction : VersionedTransaction) (meta : TransactionStatusMeta)
| MissingMetadata (signatures : list (list Z)) (header : MessageHeader) (account_keys : list (list Z)) (recent_blockhash : list Z)
    (instructions : list CompiledInstruction).

(** ** Rows *)

(** The parallel arrays of a row. *)
Record InstructionColumns := mkInstructionColumns { ic_program_id_index : list Z; ic_accounts : list (list Z); ic_data : list (list Z) }.
Record LookupColumns := mkLookupColumns { lc_account_key : list (list Z); lc_writable_indexes : list (list Z); lc_readonly_indexes : list (list Z) }.
Record InnerColumns := mkInnerColumns {
  nc_index : list Z; nc_program_id_index : list (list Z); nc_accounts : list (list (list Z)); nc_data : list (list (list Z));
  nc_stack_height : list (list (option Z));
}.
Record TokenColumns := mkTokenColumns {
  tc_account_index : list Z; tc_mint : list (list Z); tc_owner : list (option (list Z)); tc_program_id : list (option (list Z));
  tc_amount : list string; tc_decimals : list Z; tc_ui_amount : list (option Z); tc_ui_amount_string : list string;
}.
Record RewardArrays := mkRewardArrays {
  ra_pubkey : list string; ra_lamports : list Z; ra_post_balance : list Z; ra_type : list (option string);
  ra_commission : list (option Z); ra_commission_bps : list (option Z);
}.

(** The columns that every transaction row has, from [is_vote] to [meta_cost_units]; a flag
    is a byte where the row is written and a [bool] where it is read. *)
Record TxColumns (F : Type) := mkColumns {
  is_vote : F; tx_version : option Z; tx_config : TransactionConfig; tx_signatures : list (list Z); tx_header : MessageHeader;
  tx_account_keys : list (list Z); tx_recent_blockhash : list Z; tx_instructions : InstructionColumns;
  tx_address_table_lookups_present : F; tx_address_table_lookup : LookupColumns;
  meta_status_ok : F; meta_err : option string; meta_fee : Z; meta_pre_balances : list Z; meta_post_balances : list Z;
  meta_inner_instructions_present : F; meta_inner_instructions : InnerColumns;
  meta_log_messages_present : F; meta_log_messages : list string;
  meta_pre_token_balances_present : F; meta_pre_token : TokenColumns;
  meta_post_token_balances_present : F; meta_post_token : TokenColumns;
  meta_rewards_present : F; meta_reward : RewardArrays;
  meta_loaded_addresses_writable : list (list Z); meta_loaded_addresses_readonly : list (list Z);
  meta_return_data_present : F; meta_return_data_program_id : option (list Z); meta_return_data_data : option (list Z);
  meta_compute_units_consumed : option Z; meta_cost_units : option Z;
}.
Arguments is_vote {F} c : rename.
Arguments tx_version {F} c : rename.
Arguments tx_config {F} c : rename.
Arguments tx_signatures {F} c : rename.
Arguments tx_header {F} c : rename.
Arguments tx_account_keys {F} c : rename.
Arguments tx_recent_blockhash {F} c : rename.
Arguments tx_instructions {F} c : rename.
Arguments tx_address_table_lookups_present {F} c : rename.
Arguments tx_address_table_lookup {F} c : rename.
Arguments meta_status_ok {F} c : rename.
Arguments meta_err {F} c : rename.
Arguments meta_fee {F} c : rename.
Arguments meta_pre_balances {F} c : rename.
Arguments meta_post_balances {F} c : rename.
Arguments meta_inner_instructions_present {F} c : rename.
Arguments meta_inner_instructions {F} c : rename.
Arguments meta_log_messages_present {F} c : rename.
Arguments meta_log_messages {F} c : rename.
Arguments meta_pre_token_balances_present {F} c : rename.
Arguments meta_pre_token {F} c : rename.
Arguments meta_post_token_balances_present {F} c : rename.
Arguments meta_post_token {F} c : rename.
Arguments meta_rewards_present {F} c : rename.
Arguments meta_reward {F} c : rename.
Arguments meta_loaded_addresses_writable {F} c : rename.
Arguments meta_loaded_addresses_readonly {F} c : rename.
Arguments meta_return_data_present {F} c : rename.
Arguments meta_return_data_program_id {F} c : rename.
Arguments meta_return_data_data {F} c : rename.
Arguments meta_compute_units_consumed {F} c : rename.
Arguments meta_cost_units {F} c : rename.
Arguments mkColumns {F}.
