(* ===== verification/IngestTx.v ===== *)
(** * IngestTx: a streamed transaction as a row

    Models [map_transaction] of [crates/superbank/src/ingest/grpc.rs] with the conversions it
    calls, and the byte helpers of [utils.rs].  Base58, hexadecimal, the wire form and hash of
    a message, the names of reward types and the text of a decoded transaction error belong to
    other libraries: they are the fields of [Codecs]. *)

From S2P Require Import Prelude Text Sdk.

Open Scope list_scope.
Open Scope Z_scope.

(** The errors of the streaming ingestors, one per [ensure!] or early return. *)
Inductive IngestError :=
| TransactionCountMismatch | TransactionIndexOutside | DuplicateTransactionIndex | DuplicateSignature
| EntryCountMismatch | EntrySlotMismatch | EntryIndexOutside | DuplicateEntryIndex
| EntryCoverageMismatch | EntryCountOverflow | EntryRangeExceeds | EntriesIncomplete
| HistoricalBound | ForeignEntries | BadBase58 | BadLength | OutOfRange
| MissingTransaction | MissingStatusMeta | MissingMessage | MissingHeader | LookupsInV1
| LegacyContradiction | DuplicateUnidentified | PendingBytesOverflow | PendingIdentityLimit
| FooterLacksIdentity | IdentityProtocolChanged | LostIdentity | ConflictingFinalized
| UnidentifiedBank | WinnerConflict | IdentityWindow
| InsertFailed | FetchFailed | StreamFailed | UnidentifiedAtShutdown
| PayloadSlotMismatch | IdentityChanged | MissingTransactionInfo | ConflictingMeta | MissingMeta
| EnvelopeHashMismatch | FooterSlotMismatch | BoundReached.

#[export] Instance IngestError_eq_dec : EqDecision IngestError.
Proof. solve_decision. Defined.

(** Functions of other libraries: base58 decoding, the name of a reward type's number,
    [serialize] of a message, BLAKE3, the text of an error's bytes when they decode, and
    hexadecimal encoding. *)
Record Codecs := mkCodecs {
  bs58_decode : string -> option (list Z); reward_type_name : Z -> option string;
  serialize_message : VersionedMessage -> list Z; blake3 : list Z -> list Z;
  error_text : list Z -> option string; hex_encode : list Z -> string;
}.

(** ** Streamed messages

    Instructions and lookups have the fields of the SDK's, with wider integers. *)

Record MessageMsg := mkMessageMsg {
  mg_header : option MessageHeader; mg_account_keys : list (list Z); mg_recent_blockhash : list Z;
  mg_instructions : list CompiledInstruction; mg_versioned : bool; mg_address_table_lookups : list AddressTableLookup;
  mg_config : option TransactionConfig;
}.
Record TransactionMsg := mkTransactionMsg { tr_signatures : list (list Z); tr_message : option MessageMsg }.

(** A streamed amount: its bits, its decimals, and the two texts. *)
Record UiAmountMsg := mkUiAmountMsg { um_ui_amount : Z; um_decimals : Z; um_amount : string; um_ui_amount_string : string }.
Record TokenBalanceMsg := mkTokenBalanceMsg {
  tm_account_index : Z; tm_mint : string; tm_ui_token_amount : option UiAmountMsg; tm_owner : string; tm_program_id : string;
}.

Record Reward := mkReward {
  rw_pubkey : string; rw_lamports : Z; rw_post_balance : Z; rw_type : Z; rw_commission : string; rw_commission_bps : string;
}.

Record StatusMetaMsg := mkStatusMetaMsg {
  sg_err : option (list Z); sg_fee : Z; sg_pre_balances : list Z; sg_post_balances : list Z;
  sg_inner_instructions : list InnerInstructions; sg_inner_instructions_none : bool;
  sg_log_messages : list string; sg_log_messages_none : bool;
  sg_pre_token_balances : list TokenBalanceMsg; sg_post_token_balances : list TokenBalanceMsg; sg_rewards : list Reward;
  sg_loaded_writable_addresses : list (list Z); sg_loaded_readonly_addresses : list (list Z);
  sg_return_data : option TransactionReturnData; sg_return_data_none : bool;
  sg_compute_units_consumed : option Z; sg_cost_units : option Z;
}.

Record TxInfo := mkTxInfo {
  ti_signature : list Z; ti_is_vote : bool; ti_transaction : option TransactionMsg; ti_meta : option StatusMetaMsg; ti_index : Z;
}.

(** ** Helpers *)

(** [bytes_to_array::<N>] *)
Definition bytes_to_array (n : Z) (bytes : list Z) : result (list Z) IngestError :=
  if zlen bytes =? n then Ok bytes else Err BadLength.

(** [try_into] for [u32] and [u8]. *)
Definition try_u32 (x : Z) : result Z IngestError := if x <=? u32_max then Ok x else Err OutOfRange.
Definition try_u8 (x : Z) : result Z IngestError := if x <=? 255 then Ok x else Err OutOfRange.

(** [parse_commission], [parse_commission_bps]: the largest value of the type is [max]. *)
Definition parse_commission (max : Z) (value : string) : option Z :=
  if is_empty value then None
  else match parse_u64 value with Some n => if n <=? max then Some n else None | None => None end.

(** Map a fallible conversion over a list, stopping at the first error. *)
Fixpoint map_rows {A B} (f : A -> result B IngestError) (l : list A) : result (list B) IngestError :=
  match l with
  | [] => Ok []
  | x :: rest => let? y := f x in let? ys := map_rows f rest in Ok (y :: ys)
  end.

Definition flag (b : bool) : Z := if b then 1 else 0.

Record TransactionRow := mkTxRow {
  t_signature : list Z; t_slot : Z; t_slot_idx : Z; t_block_time : option Z; t_message_hash : list Z; t_columns : TxColumns Z;
}.

(** [convert_signatures], [convert_account_keys] and [convert_pubkeys] *)
Definition convert_signatures (signatures : list (list Z)) : result (list (list Z)) IngestError := map_rows (bytes_to_array 64) signatures.
Definition convert_account_keys (keys : list (list Z)) : result (list (list Z)) IngestError := map_rows (bytes_to_array 32) keys.
Definition convert_pubkeys (keys : list (list Z)) : result (list (list Z)) IngestError := map_rows (bytes_to_array 32) keys.

(** [convert_instructions] *)
Fixpoint convert_instructions (instructions : list CompiledInstruction) : result InstructionColumns IngestError :=
  match instructions with
  | [] => Ok (mkInstructionColumns [] [] [])
  | ix :: rest =>
      let? program_id := try_u8 (ci_program_id_index ix) in
      let? c := convert_instructions rest in
      Ok (mkInstructionColumns (program_id :: ic_program_id_index c) (ci_accounts ix :: ic_accounts c) (ci_data ix :: ic_data c))
  end.

(** [convert_address_table_lookups] *)
Fixpoint convert_address_table_lookups (lookups : list AddressTableLookup) : result LookupColumns IngestError :=
  match lookups with
  | [] => Ok (mkLookupColumns [] [] [])
  | lookup :: rest =>
      let? key := bytes_to_array 32 (lk_account_key lookup) in
      let? c := convert_address_table_lookups rest in
      Ok (mkLookupColumns (key :: lc_account_key c) (lk_writable_indexes lookup :: lc_writable_indexes c)
            (lk_readonly_indexes lookup :: lc_readonly_indexes c))
  end.

(** The group loop and the outer loop of [convert_inner_instructions]. *)
Definition group_program_ids (instructions : list InnerInstruction) : result (list Z) IngestError :=
  map_rows (fun inner => try_u8 (ci_program_id_index (ii_instruction inner))) instructions.
Fixpoint convert_groups (groups : list InnerInstructions) : result InnerColumns IngestError :=
  match groups with
  | [] => Ok (mkInnerColumns [] [] [] [] [])
  | g :: rest =>
      let? index := try_u8 (is_index g) in
      let? ids := group_program_ids (is_instructions g) in
      let? c := convert_groups rest in
      Ok (mkInnerColumns (index :: nc_index c) (ids :: nc_program_id_index c)
            (map (fun i => ci_accounts (ii_instruction i)) (is_instructions g) :: nc_accounts c)
            (map (fun i => ci_data (ii_instruction i)) (is_instructions g) :: nc_data c)
            (map ii_stack_height (is_instructions g) :: nc_stack_height c))
  end.
Definition convert_inner_instructions (meta : StatusMetaMsg) : result (Z * InnerColumns) IngestError :=
  if sg_inner_instructions_none meta then Ok (0, mkInnerColumns [] [] [] [] [])
  else let? c := convert_groups (sg_inner_instructions meta) in Ok (1, c).

(** [convert_return_data] *)
Definition convert_return_data (meta : StatusMetaMsg) : result (Z * option (list Z) * option (list Z)) IngestError :=
  if sg_return_data_none meta then Ok (0, None, None)
  else match sg_return_data meta with
       | None => Ok (0, None, None)
       | Some data => let? program_id := bytes_to_array 32 (rd_program_id data) in Ok (1, Some program_id, Some (rd_data data))
       end.

(** The header of [create_versioned_message] and of the row. *)
Definition convert_header (header : MessageHeader) : result MessageHeader IngestError :=
  let? required := try_u8 (num_required_signatures header) in
  let? signed := try_u8 (num_readonly_signed_accounts header) in
  let? unsigned := try_u8 (num_readonly_unsigned_accounts header) in
  Ok (mkHeader required signed unsigned).

(** [create_versioned_message] *)
Definition create_instruction (ix : CompiledInstruction) : result CompiledInstruction IngestError :=
  let? program_id := try_u8 (ci_program_id_index ix) in Ok (mkInstruction program_id (ci_accounts ix) (ci_data ix)).
Definition create_lookup (lookup : AddressTableLookup) : result AddressTableLookup IngestError :=
  let? key := bytes_to_array 32 (lk_account_key lookup) in
  Ok (mkLookup key (lk_writable_indexes lookup) (lk_readonly_indexes lookup)).
Definition create_versioned_message (message : MessageMsg) : result VersionedMessage IngestError :=
  let? header := ok_or (mg_header message) MissingHeader in
  let? header := convert_header header in
  let? recent_blockhash := bytes_to_array 32 (mg_recent_blockhash message) in
  let? account_keys := map_rows (bytes_to_array 32) (mg_account_keys message) in
  let? instructions := map_rows create_instruction (mg_instructions message) in
  match mg_config message with
  | Some config =>
      let? _ := ensure (match mg_address_table_lookups message with [] => true | _ => false end) LookupsInV1 in
      Ok (MessageV1 header config recent_blockhash account_keys instructions)
  | None =>
      if mg_versioned message then
        let? lookups := map_rows create_lookup (mg_address_table_lookups message) in
        Ok (MessageV0 header account_keys recent_blockhash instructions lookups)
      else Ok (LegacyMessage header account_keys recent_blockhash instructions)
  end.

Section Convert.
Context (codecs : Codecs).

(** [decode_base58_32] *)
Definition decode_base58_32 (value : string) : result (list Z) IngestError :=
  let? bytes := ok_or (bs58_decode codecs value) BadBase58 in bytes_to_array 32 bytes.

(** [optional_pubkey] *)
Definition optional_pubkey (value : string) : result (option (list Z)) IngestError :=
  if is_empty value then Ok None else let? key := decode_base58_32 value in Ok (Some key).

(** [compute_message_hash]; the prefix is [b"solana-tx-message-v1"]. *)
Definition message_prefix : list Z := map (fun c => Z.of_nat (Ascii.nat_of_ascii c)) (String.list_ascii_of_string "solana-tx-message-v1").
Definition compute_message_hash (message : MessageMsg) : result (list Z) IngestError :=
  let? versioned := create_versioned_message message in
  Ok (blake3 codecs (message_prefix ++ serialize_message codecs versioned)).

(** [convert_token_balances] *)
Fixpoint convert_token_balances (balances : list TokenBalanceMsg) : result TokenColumns IngestError :=
  match balances with
  | [] => Ok (mkTokenColumns [] [] [] [] [] [] [] [])
  | balance :: rest =>
      let? index := try_u8 (tm_account_index balance) in
      let? mint := decode_base58_32 (tm_mint balance) in
      let? owner := optional_pubkey (tm_owner balance) in
      let? program_id := optional_pubkey (tm_program_id balance) in
      let? amount :=
        match tm_ui_token_amount balance with
        | Some ui => let? decimals := try_u8 (um_decimals ui) in Ok (um_amount ui, decimals, Some (um_ui_amount ui), um_ui_amount_string ui)
        | None => Ok (EmptyString, 0, None, EmptyString)
        end in
      let '(text, decimals, ui_amount, ui_text) := amount in
      let? c := convert_token_balances rest in
      Ok (mkTokenColumns (index :: tc_account_index c) (mint :: tc_mint c) (owner :: tc_owner c) (program_id :: tc_program_id c)
            (text :: tc_amount c) (decimals :: tc_decimals c) (ui_amount :: tc_ui_amount c) (ui_text :: tc_ui_amount_string c))
  end.

(** [reward_type_to_string]: 0 is [Unspecified]. *)
Definition reward_type_to_string (value : Z) : option string := if value =? 0 then None else reward_type_name codecs value.

(** [convert_rewards] *)
Definition convert_rewards (rewards : list Reward) : RewardArrays :=
  mkRewardArrays (map rw_pubkey rewards) (map rw_lamports rewards) (map rw_post_balance rewards)
    (map (fun r => reward_type_to_string (rw_type r)) rewards) (map (fun r => parse_commission 255 (rw_commission r)) rewards)
    (map (fun r => parse_commission 65535 (rw_commission_bps r)) rewards).

(** [decode_transaction_error]: the error's JSON text, or its bytes in quoted hexadecimal. *)
Definition quote : string := String (Ascii.ascii_of_nat 34) EmptyString.
Definition decode_transaction_error (err : option (list Z)) : Z * option string :=
  match err with
  | None => (1, None)
  | Some bytes =>
      match error_text codecs bytes with
      | Some text => (0, Some text)
      | None => (0, Some (quote ++ hex_encode codecs bytes ++ quote)%string)
      end
  end.

(** [map_transaction] *)
Definition map_transaction (slot : Z) (block_time : option Z) (tx_info : TxInfo) : result TransactionRow IngestError :=
  let? signature := bytes_to_array 64 (ti_signature tx_info) in
  let? slot_idx := try_u32 (ti_index tx_info) in
  let? transaction := ok_or (ti_transaction tx_info) MissingTransaction in
  let? meta := ok_or (ti_meta tx_info) MissingStatusMeta in
  let? message := ok_or (tr_message transaction) MissingMessage in
  let? _ := ensure (negb (bool_decide (is_Some (mg_config message)) &&
                          match mg_address_table_lookups message with [] => false | _ => true end)) LookupsInV1 in
  let? message_hash := compute_message_hash message in
  let? header := ok_or (mg_header message) MissingHeader in
  let? signatures := convert_signatures (tr_signatures transaction) in
  let? account_keys := convert_account_keys (mg_account_keys message) in
  let? recent_blockhash := bytes_to_array 32 (mg_recent_blockhash message) in
  let? instructions := convert_instructions (mg_instructions message) in
  let? lookups := convert_address_table_lookups (mg_address_table_lookups message) in
  let '(status_ok, err) := decode_transaction_error (sg_err meta) in
  let? inner := convert_inner_instructions meta in
  let '(logs_present, logs) := if sg_log_messages_none meta then (0, []) else (1, sg_log_messages meta) in
  let? pre := convert_token_balances (sg_pre_token_balances meta) in
  let? post := convert_token_balances (sg_post_token_balances meta) in
  let rewards := convert_rewards (sg_rewards meta) in
  let? writable := convert_pubkeys (sg_loaded_writable_addresses meta) in
  let? readonly := convert_pubkeys (sg_loaded_readonly_addresses meta) in
  let? return_data := convert_return_data meta in
  let '(return_present, return_program_id, return_bytes) := return_data in
  let? header := convert_header header in
  Ok (mkTxRow signature slot slot_idx block_time message_hash
        (mkColumns (flag (ti_is_vote tx_info))
           (if bool_decide (is_Some (mg_config message)) then Some 1 else if mg_versioned message then Some 0 else None)
           (mkConfig (mg_config message ≫= priority_fee) (mg_config message ≫= compute_unit_limit)
              (mg_config message ≫= loaded_accounts_data_size_limit) (mg_config message ≫= heap_size))
           signatures header account_keys recent_blockhash instructions
           (match mg_address_table_lookups message with [] => 0 | _ => 1 end) lookups status_ok err
           (sg_fee meta) (sg_pre_balances meta) (sg_post_balances meta) (fst inner) (snd inner) logs_present logs
           1 pre 1 post 1 rewards writable readonly return_present return_program_id return_bytes
           (sg_compute_units_consumed meta) (sg_cost_units meta))).
End Convert.
