(* ===== verification/IngestBlock.v ===== *)
(** * IngestBlock: the blocks and row buffers of the ingestor

    Models the part of [crates/superbank/src] that the streaming sources share: the checks a
    streamed block passes ([ingest/grpc.rs], [validate_block_completeness] and
    [validate_block_bank]), its rows, the footer columns, and the buffers with their flush
    ([clickhouse.rs]).  The tables are the rows this process has written; the
    database answers each insert, and an insert it refuses may have stored the rows. *)

From S2P Require Import Prelude Text Sdk IngestTx.

Open Scope Z_scope.

(** ** Streamed messages *)

Record EntryMsg := mkEntryMsg {
  en_slot : Z; en_index : Z; en_bank_id : Z; en_start : Z; en_count : Z; en_num_hashes : Z; en_hash : list Z;
}.

Record Rewards := mkRewards { rw_rewards : list Reward; rw_num_partitions : option Z }.

Record BlockMsg := mkBlockMsg {
  bk_slot : Z; bk_bank_id : Z; bk_blockhash : string; bk_rewards : option Rewards;
  bk_block_time : option Z; bk_block_height : option Z; bk_parent_slot : Z; bk_parent_blockhash : string;
  bk_executed_transaction_count : Z; bk_transactions : list TxInfo;
  bk_entries_count : Z; bk_entries : list EntryMsg;
}.

Record FooterMsg := mkFooterMsg {
  fo_slot : Z; fo_bank_id : Z; fo_bank_hash : list Z; fo_producer_time_nanos : Z; fo_user_agent : list Z;
}.

#[export] Instance EntryMsg_eq_dec : EqDecision EntryMsg.
Proof. solve_decision. Defined.
#[export] Instance Reward_eq_dec : EqDecision Reward.
Proof. solve_decision. Defined.
#[export] Instance Rewards_eq_dec : EqDecision Rewards.
Proof. solve_decision. Defined.

(** ** Completeness *)

(** The loop over the transactions; [seen] is [transaction_indices]. *)
Fixpoint check_transactions (txs : list TxInfo) (seen : list bool) (signatures : gset (list Z)) : result unit IngestError :=
  match txs with
  | [] => Ok tt
  | tx :: rest =>
      match seen !! Z.to_nat (ti_index tx) with
      | None => Err TransactionIndexOutside
      | Some true => Err DuplicateTransactionIndex
      | Some false =>
          if bool_decide (ti_signature tx ∈ signatures) then Err DuplicateSignature
          else check_transactions rest (<[Z.to_nat (ti_index tx) := true]> seen) ({[ti_signature tx]} ∪ signatures)
      end
  end.

(** The loop that places the entries by index. *)
Fixpoint index_entries (slot : Z) (entries : list EntryMsg) (by_index : list (option EntryMsg)) :
    result (list (option EntryMsg)) IngestError :=
  match entries with
  | [] => Ok by_index
  | entry :: rest =>
      let? _ := ensure (en_slot entry =? slot) EntrySlotMismatch in
      match by_index !! Z.to_nat (en_index entry) with
      | None => Err EntryIndexOutside
      | Some (Some _) => Err DuplicateEntryIndex
      | Some None => index_entries slot rest (<[Z.to_nat (en_index entry) := Some entry]> by_index)
      end
  end.

(** The loop over [entries_by_index.into_iter().flatten()]. *)
Fixpoint check_entry_ranges (count next : Z) (entries : list EntryMsg) : result Z IngestError :=
  match entries with
  | [] => Ok next
  | entry :: rest =>
      let? _ := ensure (en_start entry =? next) EntryCoverageMismatch in
      let? next := ok_or (checked_add next (en_count entry)) EntryCountOverflow in
      let? _ := ensure (next <=? count) EntryRangeExceeds in
      check_entry_ranges count next rest
  end.

(** [validate_block_completeness] *)
Definition validate_block_completeness (block : BlockMsg) (include_entries : bool) : result unit IngestError :=
  let? _ := ensure (bk_executed_transaction_count block =? zlen (bk_transactions block)) TransactionCountMismatch in
  let? _ := check_transactions (bk_transactions block) (replicate (length (bk_transactions block)) false) ∅ in
  if negb include_entries then Ok tt
  else
    let? _ := ensure (bk_entries_count block =? zlen (bk_entries block)) EntryCountMismatch in
    let? by_index := index_entries (bk_slot block) (bk_entries block) (replicate (length (bk_entries block)) None) in
    let? next := check_entry_ranges (bk_executed_transaction_count block) 0 (omap id by_index) in
    ensure (next =? bk_executed_transaction_count block) EntriesIncomplete.

Inductive IngestSource := Grpc | Fumarole.

(** [validate_block_bank]; the source passes the first of the two configured bounds. *)
Definition validate_block_bank (block : BlockMsg) (source : IngestSource) (bound : option Z) : result unit IngestError :=
  let? _ := ensure (negb (match source, bound with
                          | Fumarole, Some bound => bound <? bk_slot block
                          | _, _ => false
                          end)) HistoricalBound in
  ensure (negb (match source with
                | Grpc => existsb (fun e => negb (en_bank_id e =? bk_bank_id block)) (bk_entries block)
                | Fumarole => false
                end)) ForeignEntries.

(** ** Rows *)

Record EntryRow := mkEntryRow {
  e_slot : Z; e_entry_index : Z; e_block_time : option Z; e_starting_transaction_index : Z;
  e_transaction_count : Z; e_num_hashes : Z; e_hash : list Z;
}.

Record RewardColumns := mkRewardColumns {
  rewards_present : Z; rewards_pubkey : list (list Z); rewards_lamports : list Z; rewards_post_balance : list Z;
  rewards_type : list (option string); rewards_commission : list (option Z); rewards_commission_bps : list (option Z);
  rewards_num_partitions : option Z;
}.

Record FooterFields := mkFooter { f_bank_hash : list Z; f_producer_time_nanos : Z; f_user_agent : list Z }.

#[export] Instance FooterFields_eq_dec : EqDecision FooterFields.
Proof. solve_decision. Defined.

Record BlockMetadataRow := mkBlockMeta {
  m_slot : Z; m_parent_slot : Z; m_blockhash : list Z; m_parent_blockhash : list Z;
  m_bank_id : option Z; m_bank_hash : option (list Z); m_producer_time_nanos : option Z; m_user_agent : option (list Z);
  m_block_time : option Z; m_block_height : option Z; m_executed_transaction_count : Z; m_entry_count : Z;
  m_rewards : RewardColumns;
}.

#[export] Instance RewardColumns_eq_dec : EqDecision RewardColumns.
Proof. solve_decision. Defined.
#[export] Instance BlockMetadataRow_eq_dec : EqDecision BlockMetadataRow.
Proof. solve_decision. Defined.

Definition set_bank_id (bank_id : option Z) (row : BlockMetadataRow) : BlockMetadataRow :=
  mkBlockMeta (m_slot row) (m_parent_slot row) (m_blockhash row) (m_parent_blockhash row) bank_id (m_bank_hash row)
    (m_producer_time_nanos row) (m_user_agent row) (m_block_time row) (m_block_height row)
    (m_executed_transaction_count row) (m_entry_count row) (m_rewards row).

(** [FooterFields::apply] *)
Definition apply_footer (f : FooterFields) (row : BlockMetadataRow) : BlockMetadataRow :=
  mkBlockMeta (m_slot row) (m_parent_slot row) (m_blockhash row) (m_parent_blockhash row) (m_bank_id row)
    (Some (f_bank_hash f)) (Some (f_producer_time_nanos f)) (Some (f_user_agent f)) (m_block_time row)
    (m_block_height row) (m_executed_transaction_count row) (m_entry_count row) (m_rewards row).

(** [map_block_footer] *)
Definition map_block_footer (footer : FooterMsg) : result FooterFields IngestError :=
  let? hash := bytes_to_array 32 (fo_bank_hash footer) in
  Ok (mkFooter hash (fo_producer_time_nanos footer) (fo_user_agent footer)).

(** [map_entries] *)
Definition map_entry (slot : Z) (block_time : option Z) (entry : EntryMsg) : result EntryRow IngestError :=
  let? index := try_u32 (en_index entry) in
  let? start := try_u32 (en_start entry) in
  let? count := try_u32 (en_count entry) in
  let? hash := bytes_to_array 32 (en_hash entry) in
  Ok (mkEntryRow slot index block_time start count (en_num_hashes entry) hash).
Definition map_entries (slot : Z) (block_time : option Z) (entries : list EntryMsg) : result (list EntryRow) IngestError :=
  map_rows (map_entry slot block_time) entries.

Record PreparedBlock := mkPrepared {
  p_metadata : BlockMetadataRow; p_transactions : list TransactionRow; p_entries : list EntryRow; p_encoded_bytes : Z;
}.

Section Conversion.
Context (codecs : Codecs).

(** The reward columns of [map_block_metadata]. *)
Definition reward_columns (rewards : option Rewards) : result RewardColumns IngestError :=
  match rewards with
  | None => Ok (mkRewardColumns 0 [] [] [] [] [] [] None)
  | Some r =>
      let? pubkeys := map_rows (fun w => decode_base58_32 codecs (rw_pubkey w)) (rw_rewards r) in
      Ok (mkRewardColumns (match rw_rewards r with [] => 0 | _ => 1 end) pubkeys (map rw_lamports (rw_rewards r))
            (map rw_post_balance (rw_rewards r)) (map (fun w => reward_type_to_string codecs (rw_type w)) (rw_rewards r))
            (map (fun w => parse_commission 255 (rw_commission w)) (rw_rewards r))
            (map (fun w => parse_commission 65535 (rw_commission_bps w)) (rw_rewards r)) (rw_num_partitions r))
  end.

(** [map_block_metadata] *)
Definition map_block_metadata (block : BlockMsg) : result BlockMetadataRow IngestError :=
  let? blockhash := decode_base58_32 codecs (bk_blockhash block) in
  let? parent_blockhash := decode_base58_32 codecs (bk_parent_blockhash block) in
  let? rewards := reward_columns (bk_rewards block) in
  Ok (mkBlockMeta (bk_slot block) (bk_parent_slot block) blockhash parent_blockhash
        (if bk_bank_id block =? 0 then None else Some (bk_bank_id block)) None None None (bk_block_time block)
        (bk_block_height block) (bk_executed_transaction_count block) (bk_entries_count block) rewards).

(** [prepare_block] *)
Definition prepare_block (block : BlockMsg) (include_entries : bool) : result PreparedBlock IngestError :=
  let? _ := validate_block_completeness block include_entries in
  let? metadata := map_block_metadata block in
  let? transactions := map_rows (map_transaction codecs (bk_slot block) (bk_block_time block)) (bk_transactions block) in
  let? entries := if include_entries then map_entries (bk_slot block) (bk_block_time block) (bk_entries block) else Ok [] in
  Ok (mkPrepared metadata transactions entries 0).
End Conversion.

(** ** Buffers and tables *)

Record BufferedRows := mkRows {
  transaction_rows : list TransactionRow; block_rows : list BlockMetadataRow; entry_rows : list EntryRow;
  last_durable_block_slot : option Z; footer_merge_ceiling : option Z;
}.

(** [BufferedRows::new] and [with_footer_merge_ceiling] *)
Definition rows_new (ceiling : option Z) : BufferedRows := mkRows [] [] [] None ceiling.

(** [BufferedRows::is_empty] *)
Definition rows_empty (r : BufferedRows) : bool :=
  match transaction_rows r, block_rows r, entry_rows r with [], [], [] => true | _, _, _ => false end.

(** [PreparedBlock::append] *)
Definition append_block (p : PreparedBlock) (include_entries : bool) (r : BufferedRows) : BufferedRows :=
  mkRows (transaction_rows r ++ p_transactions p) (block_rows r ++ [p_metadata p])
    (if include_entries then entry_rows r ++ p_entries p else entry_rows r)
    (last_durable_block_slot r) (footer_merge_ceiling r).

(** An insert is stored and acknowledged, refused, or stored without its acknowledgement. *)
Inductive Answer := Stored | Refused | Unsure.

Record World := mkWorld {
  tx_table : list TransactionRow; block_table : list BlockMetadataRow; entry_table : list EntryRow; answers : list Answer;
}.

Definition next_answer (w : World) : Answer := hd Stored (answers w).
Definition kept {A} (a : Answer) (rows : list A) : list A := match a with Refused => [] | _ => rows end.
Definition acknowledged (a : Answer) : bool := match a with Stored => true | _ => false end.

(** [flush_transaction_rows], [flush_block_rows], [flush_entry_rows] *)
Definition flush_transaction_rows (r : BufferedRows) (w : World) : BufferedRows * World * bool :=
  let a := next_answer w in
  let w := mkWorld (tx_table w ++ kept a (transaction_rows r)) (block_table w) (entry_table w) (tail (answers w)) in
  (if acknowledged a then mkRows [] (block_rows r) (entry_rows r) (last_durable_block_slot r) (footer_merge_ceiling r) else r,
   w, acknowledged a).
Definition flush_block_rows (r : BufferedRows) (w : World) : BufferedRows * World * bool :=
  let a := next_answer w in
  let w := mkWorld (tx_table w) (block_table w ++ kept a (block_rows r)) (entry_table w) (tail (answers w)) in
  (if acknowledged a then mkRows (transaction_rows r) [] (entry_rows r) (last_durable_block_slot r) (footer_merge_ceiling r) else r,
   w, acknowledged a).
Definition flush_entry_rows (r : BufferedRows) (w : World) : BufferedRows * World * bool :=
  let a := next_answer w in
  let w := mkWorld (tx_table w) (block_table w) (entry_table w ++ kept a (entry_rows r)) (tail (answers w)) in
  (if acknowledged a then mkRows (transaction_rows r) (block_rows r) [] (last_durable_block_slot r) (footer_merge_ceiling r) else r,
   w, acknowledged a).

(** Run a flush when there is something to write, stopping at the first failure. *)
Definition flush_when (c : BufferedRows -> bool) (f : BufferedRows -> World -> BufferedRows * World * bool)
    (st : BufferedRows * World * bool) : BufferedRows * World * bool :=
  let '(r, w, ok) := st in if (ok && c r)%bool then f r w else st.

(** [flush_buffers] *)
Definition flush_buffers (entries_table : bool) (r : BufferedRows) (w : World) : BufferedRows * World * bool :=
  flush_when (fun r => entries_table && match entry_rows r with [] => false | _ => true end)%bool flush_entry_rows
    (flush_when (fun r => match block_rows r with [] => false | _ => true end) flush_block_rows
       (flush_when (fun r => match transaction_rows r with [] => false | _ => true end) flush_transaction_rows (r, w, true))).

(** [flush_buffers_with_retry]: [retries] attempts are left. *)
Fixpoint flush_buffers_with_retry (retries : nat) (entries_table : bool) (r : BufferedRows) (w : World) :
    BufferedRows * World * bool :=
  let '(r, w, ok) := flush_buffers entries_table r w in
  if ok then (r, w, true)
  else match retries with
       | O => (r, w, false)
       | S retries => flush_buffers_with_retry retries entries_table r w
       end.

(** [merge_stored_footers] of [clickhouse.rs] *)
Definition merge_footer (stored : gmap Z FooterFields) (row : BlockMetadataRow) : BlockMetadataRow :=
  match m_bank_hash row with
  | Some _ => row
  | None => match stored !! m_slot row with Some footer => apply_footer footer row | None => row end
  end.

(** [max_block_slot] *)
Definition max_block_slot (rows : list BlockMetadataRow) : option Z :=
  foldl (fun m row => Some (match m with Some x => Z.max x (m_slot row) | None => m_slot row end)) None rows.

Section Flush.
Context (fetch_stored_footers : list Z -> option (gmap Z FooterFields)) (entries_table : bool).

(** [BufferedRows::merge_stored_footers] *)
Definition merge_stored_footers (r : BufferedRows) : result BufferedRows IngestError :=
  match footer_merge_ceiling r with
  | None => Ok r
  | Some ceiling =>
      let slots := remove_dups (merge_sort Z.le (map m_slot (List.filter (fun row =>
                     negb (bool_decide (is_Some (m_bank_hash row))) && (m_slot row <=? ceiling))%bool (block_rows r)))) in
      match slots with
      | [] => Ok r
      | _ =>
          let? stored := ok_or (fetch_stored_footers slots) FetchFailed in
          Ok (mkRows (transaction_rows r) (map (merge_footer stored) (block_rows r)) (entry_rows r)
                (last_durable_block_slot r) (footer_merge_ceiling r))
      end
  end.

(** [BufferedRows::flush_with_retry], and [flush] without retries. *)
Definition flush (retries : nat) (r : BufferedRows) (w : World) : BufferedRows * World * result unit IngestError :=
  match merge_stored_footers r with
  | Err e => (r, w, Err e)
  | Ok r =>
      let flushed := max_block_slot (block_rows r) in
      let '(r, w, ok) := flush_buffers_with_retry retries entries_table r w in
      if ok then
        (mkRows (transaction_rows r) (block_rows r) (entry_rows r)
           (match flushed with
            | Some slot => Some (match last_durable_block_slot r with Some prev => Z.max prev slot | None => slot end)
            | None => last_durable_block_slot r
            end) (footer_merge_ceiling r), w, Ok tt)
      else (r, w, Err InsertFailed)
  end.
End Flush.
