(* ===== verification/IngestBlockSound.v ===== *)
(** * IngestBlockSound: complete blocks and flushes

    The completeness check accepts exactly the blocks whose transactions and entries cover
    what the metadata counts, and a flush with retries stores transactions before the block
    rows that announce them, whatever the database answers. *)

From S2P Require Import Prelude Text Sdk IngestTx IngestBlock.

Open Scope list_scope.
Open Scope Z_scope.

(** ** Completeness *)

(** The entries in index order, from transaction [next] on, cover up to [count]. *)
Fixpoint entries_cover (next count : Z) (entries : list EntryMsg) : Prop :=
  match entries with
  | [] => next = count
  | e :: rest => en_start e = next /\ entries_cover (next + en_count e) count rest
  end.

(** A block whose payload is all of what its metadata counts. *)
Definition block_complete (block : BlockMsg) (include_entries : bool) : Prop :=
  map ti_index (bk_transactions block) ≡ₚ seqZ 0 (bk_executed_transaction_count block) /\
  NoDup (map ti_signature (bk_transactions block)) /\
  (include_entries = true ->
   Forall (fun e => en_slot e = bk_slot block) (bk_entries block) /\
   exists entries, entries ≡ₚ bk_entries block /\ map en_index entries = seqZ 0 (bk_entries_count block) /\
     entries_cover 0 (bk_executed_transaction_count block) entries).

Definition message_u64 (block : BlockMsg) : Prop :=
  is_u64 (bk_executed_transaction_count block) /\ 0 <= bk_entries_count block /\
  Forall (fun t => 0 <= ti_index t) (bk_transactions block) /\
  Forall (fun e => 0 <= en_index e /\ 0 <= en_count e) (bk_entries block).

(** The indices marked in a vector. *)
Definition marked (seen : list bool) (i : Z) : Prop := 0 <= i /\ seen !! Z.to_nat i = Some true.

Lemma check_transactions_ok txs : forall seen signatures,
  Forall (fun t => 0 <= ti_index t) txs ->
  check_transactions txs seen signatures = Ok tt <->
  NoDup (map ti_index txs) /\ NoDup (map ti_signature txs) /\
  Forall (fun t => seen !! Z.to_nat (ti_index t) = Some false /\ ti_signature t ∉ signatures) txs.
Proof.
  induction txs as [|tx txs IH]; intros seen signatures Hpos; cbn [check_transactions map].
  { split; [|done]. intros _. split_and!; [constructor|constructor|constructor]. }
  apply Forall_cons in Hpos as [Htx Hpos]. rewrite !NoDup_cons, Forall_cons.
  destruct (seen !! Z.to_nat (ti_index tx)) as [[]|] eqn:E; [split; [done|]; naive_solver| |split; [done|]; naive_solver].
  case_bool_decide as Hs; [split; [done|]; naive_solver|]. rewrite (IH _ _ Hpos).
  assert (Hset : forall t, t ∈ txs -> ti_index t <> ti_index tx -> <[Z.to_nat (ti_index tx) := true]> seen !! Z.to_nat (ti_index t) = seen !! Z.to_nat (ti_index t)).
  { intros t Ht Hne. apply list_lookup_insert_ne. pose proof (proj1 (Forall_forall _ _) Hpos t Ht). cbn in *. lia. }
  rewrite !Forall_forall. split.
  - intros (N1 & N2 & Hall).
    assert (H1 : ti_index tx ∉ map ti_index txs).
    { intros (t & Et & Ht)%list_elem_of_fmap. destruct (Hall t Ht) as [Hf _]. rewrite <- Et, list_lookup_insert_eq in Hf; [done|]. by eapply lookup_lt_Some. }
    assert (H2 : ti_signature tx ∉ map ti_signature txs).
    { intros (t & Et & Ht)%list_elem_of_fmap. destruct (Hall t Ht) as [_ Hf]. set_solver. }
    split_and!; try done. intros t Ht. destruct (Hall t Ht) as [Hf Hg]. rewrite Hset in Hf; [set_solver|done|].
    intros Et. apply H1. rewrite <- Et. by apply list_elem_of_fmap_2.
  - intros ([H1 N1] & [H2 N2] & _ & Hall). split_and!; [done|done|]. intros t Ht. destruct (Hall t Ht) as [Hf Hg].
    rewrite Hset; [|done|intros Et; apply H1; rewrite <- Et; by apply list_elem_of_fmap_2]. split; [done|].
    intros [Es|?]%elem_of_union; [|done]. apply elem_of_singleton in Es. apply H2. rewrite <- Es. by apply list_elem_of_fmap_2.
Qed.

(** Distinct indices below the length of a list are all of them. *)
Lemma indices_complete (l : list Z) :
  NoDup l /\ Forall (fun i => 0 <= i < zlen l) l <-> l ≡ₚ seqZ 0 (zlen l).
Proof.
  split.
  - intros [Hnd Hf]. apply submseteq_length_Permutation; [|rewrite length_seqZ; unfold zlen; lia].
    apply NoDup_submseteq; [done|]. intros i Hi. apply elem_of_seqZ. pose proof (proj1 (Forall_forall _ _) Hf i Hi). cbn in *. lia.
  - intros Hp. split; [rewrite Hp; apply NoDup_seqZ|]. apply Forall_forall. intros i Hi. rewrite Hp, elem_of_seqZ in Hi. lia.
Qed.

Lemma replicate_false_lookup n i : replicate n false !! i = Some false <-> (i < n)%nat.
Proof. rewrite lookup_replicate. naive_solver. Qed.

Lemma transactions_complete txs :
  Forall (fun t => 0 <= ti_index t) txs ->
  check_transactions txs (replicate (length txs) false) ∅ = Ok tt <->
  map ti_index txs ≡ₚ seqZ 0 (zlen txs) /\ NoDup (map ti_signature txs).
Proof.
  intros Hpos. rewrite check_transactions_ok by done.
  assert (Hlen : zlen txs = zlen (map ti_index txs)) by (unfold zlen; by rewrite length_map).
  rewrite Hlen, <- indices_complete, <- Hlen, Forall_map, !Forall_forall.
  assert (Hi : forall t, t ∈ txs -> replicate (length txs) false !! Z.to_nat (ti_index t) = Some false <-> 0 <= ti_index t < zlen txs).
  { intros t Ht. rewrite replicate_false_lookup. pose proof (proj1 (Forall_forall _ _) Hpos t Ht). cbn in *. unfold zlen. lia. }
  split.
  - intros (N1 & N2 & Hall). split_and!; [done| |done]. intros t Ht. apply Hi; [done|]. by apply Hall.
  - intros ([N1 Hall] & N2). split_and!; [done|done|]. intros t Ht. split; [by apply Hi; [|apply Hall]|set_solver].
Qed.

Lemma index_entries_ok slot es : forall v,
  Forall (fun e => 0 <= en_index e) es ->
  Forall (fun e => en_slot e = slot) es -> NoDup (map en_index es) -> Forall (fun e => v !! Z.to_nat (en_index e) = Some None) es ->
  exists out, index_entries slot es v = Ok out /\ length out = length v /\
    (forall e, e ∈ es -> out !! Z.to_nat (en_index e) = Some (Some e)) /\
    (forall i, (forall e, e ∈ es -> i <> Z.to_nat (en_index e)) -> out !! i = v !! i).
Proof.
  induction es as [|e es IH]; intros v Hpos Hs Hnd Hv; cbn [index_entries map] in *.
  { exists v. split_and!; [done|done|by intros e ?%elem_of_nil|done]. }
  apply Forall_cons in Hpos as [He Hpos]. apply Forall_cons in Hs as [Es Hs]. apply Forall_cons in Hv as [Ev Hv]. apply NoDup_cons in Hnd as [Hout Hnd].
  assert (Hne : forall x, x ∈ es -> Z.to_nat (en_index x) <> Z.to_nat (en_index e)).
  { intros x Hx Eq. pose proof (proj1 (Forall_forall _ _) Hpos x Hx). cbn in *. apply Hout. replace (en_index e) with (en_index x) by lia. by apply list_elem_of_fmap_2. }
  rewrite Es, Z.eqb_refl, Ev. cbn.
  destruct (IH (<[Z.to_nat (en_index e) := Some e]> v) Hpos Hs Hnd) as (out & E & Hlen & Hin & Hkeep).
  { apply Forall_forall. intros x Hx. rewrite list_lookup_insert_ne by (intros Eq; by apply (Hne x Hx)). by apply (proj1 (Forall_forall _ _) Hv). }
  exists out. split_and!; [done|by rewrite Hlen, length_insert| |].
  - intros x [->|Hx]%elem_of_cons; [|by apply Hin]. rewrite Hkeep by (intros y Hy Eq; by apply (Hne y Hy)).
    apply list_lookup_insert_eq. by eapply lookup_lt_Some.
  - intros i Hi. rewrite Hkeep by (intros y Hy; apply Hi; by right). apply list_lookup_insert_ne. intros <-. by apply (Hi e); [left|].
Qed.

Lemma index_entries_inv slot es : forall v out,
  Forall (fun e => 0 <= en_index e) es -> index_entries slot es v = Ok out ->
  Forall (fun e => en_slot e = slot) es /\ NoDup (map en_index es) /\ Forall (fun e => v !! Z.to_nat (en_index e) = Some None) es.
Proof.
  induction es as [|e es IH]; intros v out Hpos H; cbn [index_entries map] in *; [split_and!; constructor|].
  apply Forall_cons in Hpos as [He Hpos]. unfold ensure in H. destruct (Z.eqb_spec (en_slot e) slot); [|done]. cbn in H.
  destruct (v !! Z.to_nat (en_index e)) as [[]|] eqn:E; [done| |done].
  destruct (IH _ _ Hpos H) as (Hs & Hnd & Hv).
  assert (Hne : forall x, x ∈ es -> Z.to_nat (en_index e) <> Z.to_nat (en_index x)).
  { intros x Hx Eq. pose proof (proj1 (Forall_forall _ _) Hv x Hx) as Hl. cbn in Hl. rewrite <- Eq, list_lookup_insert_eq in Hl; [done|]. by eapply lookup_lt_Some. }
  split_and!; [by constructor| |].
  - constructor; [|done]. intros (x & Ex & Hx)%list_elem_of_fmap. by apply (Hne x Hx); rewrite Ex.
  - constructor; [done|]. apply Forall_forall. intros x Hx. pose proof (proj1 (Forall_forall _ _) Hv x Hx) as Hl. cbn in Hl.
    by rewrite list_lookup_insert_ne in Hl by (by apply Hne).
Qed.

Lemma omap_all_some {A} (l : list (option A)) : Forall is_Some l -> l = map Some (omap id l).
Proof. induction 1 as [|x l [y ->] Hl IH]; cbn; [done|]. by f_equal. Qed.

(** As many entries as places leave no place empty. *)
Lemma indexed_all slot es out :
  Forall (fun e => 0 <= en_index e) es -> index_entries slot es (replicate (length es) None) = Ok out -> Forall is_Some out.
Proof.
  intros Hpos E. destruct (index_entries_inv _ _ _ _ Hpos E) as (Hs & Hnd & Hv).
  destruct (index_entries_ok _ _ _ Hpos Hs Hnd Hv) as (out' & E' & Hlen & Hin & _). rewrite E in E'. injection E' as <-. rewrite length_replicate in Hlen.
  assert (Hp : map en_index es ≡ₚ seqZ 0 (zlen es)).
  { assert (zlen es = zlen (map en_index es)) as -> by (unfold zlen; by rewrite length_map). apply indices_complete.
    split; [done|]. apply Forall_map, Forall_forall. intros e He. pose proof (proj1 (Forall_forall _ _) Hv e He) as Hl. cbn in Hl.
    apply lookup_replicate in Hl as [_ Hl]. pose proof (proj1 (Forall_forall _ _) Hpos e He). cbn in *. unfold zlen. rewrite length_map. lia. }
  apply Forall_lookup. intros i x Hx. assert (Hi : Z.of_nat i ∈ map en_index es).
  { rewrite Hp. apply elem_of_seqZ. apply lookup_lt_Some in Hx. unfold zlen. lia. }
  apply list_elem_of_fmap in Hi as (e & Ei & He). specialize (Hin e He). rewrite <- Ei, Nat2Z.id in Hin. rewrite Hx in Hin. injection Hin as ->. by exists e.
Qed.

Lemma sort_by_index slot es entries :
  Forall (fun e => 0 <= en_index e) es ->
  (index_entries slot es (replicate (length es) None) = Ok (map Some entries) <->
   Forall (fun e => en_slot e = slot) es /\ entries ≡ₚ es /\ map en_index entries = seqZ 0 (zlen es)).
Proof.
  intros Hpos.
  assert (Hidx : forall e, e ∈ es -> 0 <= en_index e) by (by apply Forall_forall).
  split.
  - intros H. destruct (index_entries_inv _ _ _ _ Hpos H) as (Hs & Hnd & Hv).
    destruct (index_entries_ok slot es _ Hpos Hs Hnd Hv) as (out & E & Hlen & Hin & _). rewrite H in E. injection E as <-.
    rewrite length_map, length_replicate in Hlen. split; [done|].
    assert (Hall : forall e, e ∈ es -> entries !! Z.to_nat (en_index e) = Some e).
    { intros e He. specialize (Hin e He). rewrite list_lookup_fmap in Hin. destruct (entries !! _); [|done]. cbn in Hin. congruence. }
    assert (Hperm : entries ≡ₚ es).
    { symmetry. apply submseteq_length_Permutation; [|lia]. apply NoDup_submseteq; [by apply NoDup_fmap_1 in Hnd|].
      intros e He. by eapply list_elem_of_lookup_2, Hall. }
    split; [done|]. apply list_eq. intros i. rewrite list_lookup_fmap.
    destruct (decide (i < length es)%nat) as [Hi|Hi].
    + destruct (entries !! i) as [e|] eqn:Ee; [|apply lookup_ge_None in Ee; lia]. cbn.
      rewrite lookup_seqZ_lt by (unfold zlen; lia). f_equal.
      assert (He : e ∈ es) by (rewrite <- Hperm; by eapply list_elem_of_lookup_2).
      pose proof (Hall e He) as H1. pose proof (Hidx e He).
      assert (Z.to_nat (en_index e) = i); [|lia]. eapply NoDup_lookup; [|exact H1|exact Ee]. rewrite Hperm. by apply NoDup_fmap_1 in Hnd.
    + rewrite (proj2 (lookup_ge_None _ _)) by lia. cbn. symmetry. apply lookup_seqZ_ge. unfold zlen. lia.
  - intros (Hs & Hperm & Hseq).
    assert (Hlen : length entries = length es) by (by rewrite Hperm).
    assert (Hat : forall i e, entries !! i = Some e -> en_index e = Z.of_nat i).
    { intros i e He. assert (Hl : map en_index entries !! i = Some (en_index e)) by (rewrite list_lookup_fmap; by rewrite He).
      apply lookup_lt_Some in He. rewrite Hseq, lookup_seqZ_lt in Hl by (unfold zlen; lia). injection Hl as Hl. lia. }
    assert (Hnd : NoDup (map en_index es)) by (rewrite <- Hperm, Hseq; apply NoDup_seqZ).
    destruct (index_entries_ok slot es (replicate (length es) None) Hpos Hs Hnd) as (out & E & Hl & Hin & _).
    + apply Forall_forall. intros e He. apply lookup_replicate. split; [done|]. rewrite <- Hperm in He.
      apply list_elem_of_lookup_1 in He as [i Hi]. pose proof (Hat i e Hi). apply lookup_lt_Some in Hi. lia.
    + rewrite E. f_equal. apply list_eq. intros i. rewrite list_lookup_fmap. rewrite length_replicate in Hl.
      destruct (entries !! i) as [e|] eqn:Ee; cbn.
      * pose proof (Hat i e Ee) as Hi. assert (He : e ∈ es) by (rewrite <- Hperm; by eapply list_elem_of_lookup_2).
        rewrite <- (Hin e He). f_equal. lia.
      * apply lookup_ge_None. apply lookup_ge_None in Ee. lia.
Qed.

Lemma entries_cover_le count l : forall next,
  Forall (fun e => 0 <= en_count e) l -> entries_cover next count l -> next <= count.
Proof.
  induction l as [|x l IH]; intros n Hf; cbn; [lia|]. apply Forall_cons in Hf as [? Hf]. intros [_ Hx]. specialize (IH _ Hf Hx). lia.
Qed.

Lemma entry_ranges_ok count es : forall next,
  0 <= next <= count -> count <= u64_max -> Forall (fun e => 0 <= en_count e) es ->
  (rbind (check_entry_ranges count next es) (fun n => ensure (n =? count) EntriesIncomplete) = Ok tt <-> entries_cover next count es).
Proof.
  induction es as [|e es IH]; intros next Hn Hc Hpos; cbn [check_entry_ranges entries_cover rbind].
  { unfold ensure. destruct (Z.eqb_spec next count); split; done. }
  apply Forall_cons in Hpos as [He Hpos]. unfold ensure at 1. destruct (Z.eqb_spec (en_start e) next); cbn [rbind]; [|split; [done|]; naive_solver].
  unfold checked_add, ok_or, ensure at 1. destruct (Z.leb_spec (next + en_count e) u64_max); cbn [rbind].
  - destruct (Z.leb_spec (next + en_count e) count); cbn [rbind].
    + rewrite IH by (done || lia). naive_solver.
    + split; [done|]. intros [_ Hcov]. apply entries_cover_le in Hcov; [lia|done].
  - split; [done|]. intros [_ Hcov]. apply entries_cover_le in Hcov; [lia|done].
Qed.

(** C31: a streamed block passes the completeness check exactly when its payload is all of
    what its metadata counts: the transaction indices are those below the count, in any
    order, no signature repeats, and, where entries are stored, the entries carry the block's
    slot, their indices are those below the entry count, and in that order their transaction
    ranges tile the transactions. *)
Theorem validate_block_exact block include_entries :
  message_u64 block ->
  (validate_block_completeness block include_entries = Ok tt <-> 
   bk_executed_transaction_count block = zlen (bk_transactions block) /\
   (include_entries = true -> bk_entries_count block = zlen (bk_entries block)) /\ block_complete block include_entries).
Proof.
  intros ([Hc0 Hc] & Hec & Htx & Hen). unfold validate_block_completeness, block_complete, ensure at 1.
  destruct (Z.eqb_spec (bk_executed_transaction_count block) (zlen (bk_transactions block))) as [Ec|]; cbn [rbind]; [|split; [done|]; naive_solver].
  pose proof (transactions_complete _ Htx) as Hts. rewrite <- Ec in Hts.
  destruct (check_transactions _ _ _) as [[]|e] eqn:Et; cbn [rbind]; [|split; [done|]; intros (_ & _ & H1 & H2 & _); exfalso; assert (Err e = @Ok unit IngestError tt) by (apply Hts; by split); done].
  destruct (proj1 Hts eq_refl) as [H1 H2]. destruct include_entries; cbn [negb]; [|split; [|done]; intros _; split_and!; [done|done|done|done|done]].
  unfold ensure at 1. destruct (Z.eqb_spec (bk_entries_count block) (zlen (bk_entries block))) as [Ee|]; cbn [rbind]; [|split; [done|]; naive_solver].
  assert (Hpos : Forall (fun e => 0 <= en_index e) (bk_entries block)) by (eapply Forall_impl; [exact Hen|]; naive_solver).
  split.
  - intros H. destruct (index_entries _ _ _) as [out|] eqn:Ei; cbn [rbind] in H; [|done].
    destruct (index_entries_inv _ _ _ _ Hpos Ei) as (Hs & _ & _). pose proof (indexed_all _ _ _ Hpos Ei) as Hsome.
    rewrite (omap_all_some _ Hsome) in Ei. apply sort_by_index in Ei as (_ & Hperm & Hseq); [|done].
    split_and!; [done|done|done|done|]. intros _. split; [done|]. exists (omap id out). split_and!; [done|by rewrite Ee|].
    apply entry_ranges_ok; [lia|done| |done]. rewrite Hperm. eapply Forall_impl; [exact Hen|]. naive_solver.
  - intros (_ & _ & _ & _ & Hent). destruct (Hent eq_refl) as (Hs & entries & Hperm & Hseq & Hcov). rewrite Ee in Hseq.
    rewrite (proj2 (sort_by_index _ _ entries Hpos)) by done. cbn [rbind].
    assert (omap id (map Some entries) = entries) as -> by (clear; induction entries; cbn; congruence).
    apply entry_ranges_ok; [lia|done| |done]. rewrite Hperm. eapply Forall_impl; [exact Hen|]. naive_solver.
Qed.

(** ** Flushes *)

(** Where the flush of the rows [T], [B] and [E] stands, from the tables of [w0]: each list is
    still buffered or is stored, and a new block row is in the table only with the whole batch
    of block rows and of transactions. *)
Record flushing (T : list TransactionRow) (B : list BlockMetadataRow) (E : list EntryRow) (w0 : World)
    (last ceiling : option Z) (r : BufferedRows) (w : World) : Prop := {
  fl_tx : transaction_rows r = T \/ (transaction_rows r = [] /\ T ⊆ tx_table w);
  fl_block : block_rows r = B \/ (block_rows r = [] /\ B ⊆ block_table w /\ T ⊆ tx_table w);
  fl_entry : entry_rows r = E \/ (entry_rows r = [] /\ E ⊆ entry_table w);
  fl_tx_old : tx_table w0 ⊆ tx_table w;
  fl_block_old : block_table w0 ⊆ block_table w;
  fl_entry_old : entry_table w0 ⊆ entry_table w;
  fl_announced row : row ∈ block_table w -> row ∈ block_table w0 \/ (row ∈ B /\ T ⊆ tx_table w /\ B ⊆ block_table w);
  fl_last : last_durable_block_slot r = last;
  fl_ceiling : footer_merge_ceiling r = ceiling;
}.

Section Flushing.
Context (T : list TransactionRow) (B : list BlockMetadataRow) (E : list EntryRow) (w0 : World) (last ceiling : option Z).

Local Abbreviation flushing_ := (flushing T B E w0 last ceiling).

Lemma flush_tx_stage r w r' w' ok :
  flushing_ r w ->
  flush_when (fun r => match transaction_rows r with [] => false | _ => true end) flush_transaction_rows (r, w, true) = (r', w', ok) ->
  flushing_ r' w' /\ (ok = true -> transaction_rows r' = [] /\ T ⊆ tx_table w').
Proof.
  intros Hfl Hf. pose proof Hfl as [H1 H2 H3 H4 H5 H6 H7 H8 H9]. unfold flush_when, flush_transaction_rows in Hf. cbn [andb] in Hf.
  destruct (transaction_rows r) as [|t ts] eqn:Et.
  { injection Hf as <- <- <-. split; [done|]. intros _. split; [done|]. destruct H1 as [<-|[_ ?]]; [set_solver|done]. }
  destruct H1 as [<-|[? _]]; [|done].
  assert (H7' : forall (l : list TransactionRow) row, row ∈ block_table w -> row ∈ block_table w0 \/ (row ∈ B /\ t :: ts ⊆ (tx_table w ++ l)%list /\ B ⊆ block_table w)).
  { intros l row Hrow. destruct (H7 row Hrow) as [?|(? & ? & ?)]; [by left|right]. set_solver. }
  assert (H2' : forall l : list TransactionRow, block_rows r = B \/ (block_rows r = [] /\ B ⊆ block_table w /\ t :: ts ⊆ (tx_table w ++ l)%list)).
  { intros l. destruct H2 as [?|(? & ? & ?)]; [by left|right]. set_solver. }
  destruct (next_answer w); cbn [acknowledged kept] in Hf; injection Hf as <- <- <-; (split; [|try done]).
  - constructor; cbn; [right; split; [done|set_solver]|apply H2'|done|set_solver|done|done|apply H7'|done|done].
  - intros _. cbn. split; [done|set_solver].
  - constructor; cbn; rewrite ?app_nil_r; [by left|done|done|done|done|done|apply H7|done|done].
  - constructor; cbn; [by left|apply H2'|done|set_solver|done|done|apply H7'|done|done].
Qed.

Lemma flush_block_stage r w r' w' ok0 ok :
  flushing_ r w -> (ok0 = true -> transaction_rows r = [] /\ T ⊆ tx_table w) ->
  flush_when (fun r => match block_rows r with [] => false | _ => true end) flush_block_rows (r, w, ok0) = (r', w', ok) ->
  flushing_ r' w' /\ (ok = true -> transaction_rows r' = [] /\ T ⊆ tx_table w' /\ block_rows r' = [] /\ B ⊆ block_table w').
Proof.
  intros Hfl Hok Hf. pose proof Hfl as [H1 H2 H3 H4 H5 H6 H7 H8 H9]. unfold flush_when, flush_block_rows in Hf.
  destruct ok0; cbn [andb] in Hf; [|by injection Hf as <- <- <-]. destruct (Hok eq_refl) as [Et HT].
  destruct (block_rows r) as [|b bs] eqn:Eb.
  { injection Hf as <- <- <-. split; [done|]. intros _. split_and!; [done|done|done|]. destruct H2 as [<-|(_ & ? & _)]; [set_solver|done]. }
  destruct H2 as [<-|[? _]]; [|done].
  assert (H7' : forall row, row ∈ (block_table w ++ (b :: bs))%list ->
    row ∈ block_table w0 \/ (row ∈ b :: bs /\ T ⊆ tx_table w /\ b :: bs ⊆ (block_table w ++ b :: bs)%list)).
  { intros row [Hrow|Hrow]%elem_of_app; [|right; split_and!; [done|done|set_solver]].
    destruct (H7 row Hrow) as [?|(? & ? & ?)]; [by left|right; split_and!; [done|done|set_solver]]. }
  destruct (next_answer w); cbn [acknowledged kept] in Hf; injection Hf as <- <- <-; (split; [|try done]).
  - constructor; cbn; [done|right; split_and!; [done|set_solver|done]|done|done|set_solver|done|apply H7'|done|done].
  - intros _. cbn. split_and!; [done|done|done|set_solver].
  - constructor; cbn; rewrite ?app_nil_r; [done|by left|done|done|done|done|apply H7|done|done].
  - constructor; cbn; [done|by left|done|done|set_solver|done|apply H7'|done|done].
Qed.

Lemma flush_entry_stage entries_table r w r' w' ok0 ok :
  flushing_ r w ->
  flush_when (fun r => entries_table && match entry_rows r with [] => false | _ => true end)%bool flush_entry_rows (r, w, ok0) = (r', w', ok) ->
  flushing_ r' w' /\ transaction_rows r' = transaction_rows r /\ block_rows r' = block_rows r /\
  tx_table w' = tx_table w /\ block_table w' = block_table w /\
  (ok = true -> ok0 = true /\ (entries_table = true -> entry_rows r' = [] /\ E ⊆ entry_table w')).
Proof.
  intros Hfl Hf. pose proof Hfl as [H1 H2 H3 H4 H5 H6 H7 H8 H9]. unfold flush_when, flush_entry_rows in Hf.
  destruct ok0; cbn [andb] in Hf; [|by injection Hf as <- <- <-]. destruct entries_table; cbn [andb] in Hf; [|by injection Hf as <- <- <-].
  destruct (entry_rows r) as [|e es] eqn:Ee.
  { injection Hf as <- <- <-. split_and!; [done|done|done|done|done|]. intros _. split; [done|]. intros _. split; [done|]. destruct H3 as [<-|[_ ?]]; [set_solver|done]. }
  destruct H3 as [<-|[? _]]; [|done].
  destruct (next_answer w); cbn [acknowledged kept] in Hf; injection Hf as <- <- <-; (split_and!; [|done|done|done|done|try done]).
  - constructor; cbn; [done|done|right; split; [done|set_solver]|done|done|set_solver|apply H7|done|done].
  - intros _. cbn. split_and!; [done|]. intros _. split; [done|set_solver].
  - constructor; cbn; rewrite ?app_nil_r; [done|done|by left|done|done|done|apply H7|done|done].
  - constructor; cbn; [done|done|by left|done|done|set_solver|apply H7|done|done].
Qed.

(** Everything is stored. *)
Definition all_stored (entries_table : bool) (r : BufferedRows) (w : World) : Prop :=
  transaction_rows r = [] /\ T ⊆ tx_table w /\ block_rows r = [] /\ B ⊆ block_table w /\
  (entries_table = true -> entry_rows r = [] /\ E ⊆ entry_table w).

Lemma flush_buffers_spec entries_table r w r' w' ok :
  flushing_ r w -> flush_buffers entries_table r w = (r', w', ok) ->
  flushing_ r' w' /\ (ok = true -> all_stored entries_table r' w').
Proof.
  unfold flush_buffers. intros Hfl Hf.
  destruct (flush_when _ flush_transaction_rows _) as [[r1 w1] ok1] eqn:E1.
  destruct (flush_tx_stage _ _ _ _ _ Hfl E1) as [F1 O1].
  destruct (flush_when _ flush_block_rows _) as [[r2 w2] ok2] eqn:E2.
  destruct (flush_block_stage _ _ _ _ _ _ F1 O1 E2) as [F2 O2].
  destruct (flush_entry_stage _ _ _ _ _ _ _ F2 Hf) as (F3 & Etx & Eb & Ett & Ebt & O3). split; [done|].
  intros Hok. destruct (O3 Hok) as [Hok2 He]. destruct (O2 Hok2) as (? & ? & ? & ?). unfold all_stored. by rewrite Etx, Eb, Ett, Ebt.
Qed.

Lemma flush_retry_spec entries_table retries : forall r w r' w' ok,
  flushing_ r w -> flush_buffers_with_retry retries entries_table r w = (r', w', ok) ->
  flushing_ r' w' /\ (ok = true -> all_stored entries_table r' w').
Proof.
  induction retries as [|n IH]; intros r w r' w' ok Hfl Hf; cbn [flush_buffers_with_retry] in Hf;
    destruct (flush_buffers entries_table r w) as [[r1 w1] ok1] eqn:E1; destruct (flush_buffers_spec _ _ _ _ _ _ Hfl E1) as [F1 O1];
    destruct ok1; try (injection Hf as <- <- <-; split; [done|exact O1]).
  by apply (IH _ _ _ _ _ F1).
Qed.
End Flushing.

(** A row without its identity and footer columns. *)
Definition strip (row : BlockMetadataRow) : BlockMetadataRow :=
  mkBlockMeta (m_slot row) (m_parent_slot row) (m_blockhash row) (m_parent_blockhash row) None None None None
    (m_block_time row) (m_block_height row) (m_executed_transaction_count row) (m_entry_count row) (m_rewards row).

Lemma strip_slot row row' : strip row = strip row' -> m_slot row = m_slot row'.
Proof. unfold strip. by intros [= ->]. Qed.

Lemma strip_footer f row : strip (apply_footer f row) = strip row.
Proof. done. Qed.

Lemma strip_merge stored row : strip (merge_footer stored row) = strip row.
Proof. unfold merge_footer. by repeat case_match. Qed.

Lemma merge_stored_spec fetch r r' :
  merge_stored_footers fetch r = Ok r' ->
  transaction_rows r' = transaction_rows r /\ entry_rows r' = entry_rows r /\
  last_durable_block_slot r' = last_durable_block_slot r /\ footer_merge_ceiling r' = footer_merge_ceiling r /\
  (block_rows r' = block_rows r \/
   exists slots stored, fetch slots = Some stored /\ block_rows r' = map (merge_footer stored) (block_rows r)).
Proof.
  unfold merge_stored_footers. destruct (footer_merge_ceiling r) as [c|] eqn:Ec; [|intros [= <-]; rewrite Ec; split_and!; try done; by left].
  destruct (remove_dups _) as [|x xs] eqn:Es; [intros [= <-]; rewrite Ec; split_and!; try done; by left|].
  destruct (fetch (x :: xs)) as [stored|] eqn:Ef; cbn [ok_or rbind]; [|done]. intros [= <-]. cbn. split_and!; try done; right. by exists (x :: xs), stored.
Qed.

Lemma merged_strip fetch r r' :
  merge_stored_footers fetch r = Ok r' -> map strip (block_rows r') = map strip (block_rows r).
Proof.
  intros (_ & _ & _ & _ & [->|(slots & stored & _ & ->)])%merge_stored_spec; [done|]. rewrite map_map. apply map_ext. intros row. apply strip_merge.
Qed.

Lemma max_block_slot_spec rows : forall acc m,
  foldl (fun m row => Some (match m with Some x => Z.max x (m_slot row) | None => m_slot row end)) acc rows = Some m ->
  (acc = Some m \/ exists row, row ∈ rows /\ m = m_slot row) /\
  (forall a, acc = Some a -> a <= m) /\ Forall (fun row => m_slot row <= m) rows.
Proof.
  induction rows as [|row rows IH]; intros acc m H; cbn [foldl] in H.
  { subst acc. split_and!; [by left|by intros a [= ->]|constructor]. }
  destruct (IH _ _ H) as (H1 & H2 & H3). pose proof (H2 _ eq_refl) as Hle. split_and!.
  - destruct H1 as [E|(r & Hr & Em)]; [|right; exists r; split; [by right|done]]. injection E as E. destruct acc as [a|].
    + destruct (decide (m_slot row <= a)); [left; f_equal; lia|right; exists row; split; [by left|lia]].
    + right. exists row. split; [by left|done].
  - intros a ->. lia.
  - constructor; [destruct acc; lia|done].
Qed.

(** A flush: the rows it leaves, what is stored, and the durable slot. *)
Lemma flush_spec fetch entries_table retries r w r' w' res :
  flush fetch entries_table retries r w = (r', w', res) ->
  exists B, map strip B = map strip (block_rows r) /\
    (B = block_rows r \/ exists slots stored, fetch slots = Some stored /\ B = map (merge_footer stored) (block_rows r)) /\
    footer_merge_ceiling r' = footer_merge_ceiling r /\
    flushing (transaction_rows r) B (entry_rows r) w (last_durable_block_slot r') (footer_merge_ceiling r) r' w' /\
    ((res = Ok tt /\ all_stored (transaction_rows r) B (entry_rows r) entries_table r' w' /\
      last_durable_block_slot r' =
        match max_block_slot B with
        | Some slot => Some (match last_durable_block_slot r with Some prev => Z.max prev slot | None => slot end)
        | None => last_durable_block_slot r
        end) \/
     ((exists e, res = Err e) /\ last_durable_block_slot r' = last_durable_block_slot r)).
Proof.
  unfold flush. destruct (merge_stored_footers fetch r) as [r1|e] eqn:Em.
  - pose proof (merged_strip _ _ _ Em) as Hs. apply merge_stored_spec in Em as (E1 & E2 & E3 & E4 & E5).
    destruct (flush_buffers_with_retry retries entries_table r1 w) as [[r2 w2] ok] eqn:Ef. intros H. exists (block_rows r1).
    assert (F0 : flushing (transaction_rows r) (block_rows r1) (entry_rows r) w (last_durable_block_slot r) (footer_merge_ceiling r) r1 w).
    { constructor; [by left|by left|by left|done|done|done|by intros; left|done|done]. }
    destruct (flush_retry_spec _ _ _ _ _ _ _ _ _ _ _ _ _ F0 Ef) as [F1 O1]. pose proof F1 as [G1 G2 G3 G4 G5 G6 G7 G8 G9].
    destruct ok; injection H as <- <- <-; cbn.
    + destruct (O1 eq_refl) as (? & ? & ? & ? & ?). split_and!; [done|done|congruence| |].
      * constructor; cbn; done.
      * left. split_and!; [done|done|]. by rewrite G8.
    + split_and!; [done|done|congruence| |].
      * constructor; done.
      * right. split; [by exists InsertFailed|done].
  - intros [= <- <- <-]. exists (block_rows r). split_and!; [done|by left|done| |right; split; [by exists e|done]].
    constructor; [by left|by left|by left|done|done|done|by intros; left|done|done].
Qed.
