(* ===== verification/IngestTables.v ===== *)
(** * IngestTables: received blocks, buffers and tables

    What both ingest sources promise of the tables, whatever the database answers: blocks are
    stored in the order they were prepared, and a metadata row is in its table only with the
    transactions of its whole batch. *)

From S2P Require Import Prelude Text Sdk IngestTx IngestBlock IngestBlockSound.

Open Scope list_scope.
Open Scope Z_scope.

(** ** Blocks in the order they came *)

(** What a block stores whatever its identity and footer: the stripped row, the transactions
    and the entries. *)
Record Core := mkCore { c_row : BlockMetadataRow; c_txs : list TransactionRow; c_entries : list EntryRow }.
Definition core (p : PreparedBlock) : Core := mkCore (strip (p_metadata p)) (p_transactions p) (p_entries p).
Definition c_slot (c : Core) : Z := m_slot (c_row c).
Definition core_lt (c c' : Core) : Prop := c_slot c < c_slot c'.

Lemma sorted_between {A} (R : A -> A -> Prop) l k x y : StronglySorted R (l ++ k) -> x ∈ l -> y ∈ k -> R x y.
Proof.
  induction l as [|a l IH]; cbn; intros Hs Hx Hy; [by apply elem_of_nil in Hx|]. inversion Hs as [|? ? Hs' Hf]; subst.
  apply elem_of_cons in Hx as [->|Hx]; [|by apply IH]. apply (proj1 (Forall_forall _ _) Hf). apply elem_of_app. by right.
Qed.

Lemma sorted_part {A} (R : A -> A -> Prop) l k : StronglySorted R (l ++ k) -> StronglySorted R l /\ StronglySorted R k.
Proof.
  induction l as [|a l IH]; cbn; intros Hs; [split; [constructor|done]|]. inversion Hs as [|? ? Hs' Hf]; subst.
  destruct (IH Hs') as [H1 H2]. split; [|done]. constructor; [done|]. by apply Forall_app in Hf as [? _].
Qed.


Section Tables.
Context (codecs : Codecs)
  (fetch_stored_footers : list Z -> option (gmap Z FooterFields)) (entries_table : bool).

Definition prepared (b : BlockMsg) (p : PreparedBlock) : Prop :=
  prepare_block codecs b entries_table = Ok p.

(** The metadata row and the transactions of a block are stored. *)
Definition announced (w : World) (c : Core) : Prop :=
  (exists row, row ∈ block_table w /\ strip row = c_row c) /\ c_txs c ⊆ tx_table w.

(** And so are its entries, when there is a table for them. *)
Definition stored (w : World) (c : Core) : Prop :=
  announced w c /\ (entries_table = true -> c_entries c ⊆ entry_table w).

Definition buffered_entries (buf : list Core) : list EntryRow :=
  if entries_table then concat (map c_entries buf) else [].

(** Received blocks are stored ([done]), in the buffers or on their way from them to the
    tables ([buf]), or behind them ([rest]), in the order they came. *)
Record progress (bs : list BlockMsg) (done buf rest : list Core) (r : BufferedRows) (w : World) : Prop := {
  pg_blocks : exists ps, Forall2 prepared bs ps /\ map core ps = done ++ buf ++ rest;
  pg_rows : map strip (block_rows r) = map c_row buf \/ (block_rows r = [] /\ Forall (announced w) buf);
  pg_txs : transaction_rows r = concat (map c_txs buf) \/ (transaction_rows r = [] /\ concat (map c_txs buf) ⊆ tx_table w);
  pg_entries : entry_rows r = buffered_entries buf \/ (entry_rows r = [] /\ buffered_entries buf ⊆ entry_table w);
  pg_done : Forall (stored w) done;
  pg_table row : row ∈ block_table w -> strip row ∈ map c_row done \/ (strip row ∈ map c_row buf /\ Forall (announced w) buf);
  pg_last d : last_durable_block_slot r = Some d -> exists c, c ∈ done /\ d = c_slot c;
}.

(** The buffers hold exactly the rows of [buf], none of them stored. *)
Record buffered (done buf : list Core) (r : BufferedRows) (w : World) : Prop := {
  bf_rows : map strip (block_rows r) = map c_row buf;
  bf_txs : transaction_rows r = concat (map c_txs buf);
  bf_entries : entry_rows r = buffered_entries buf;
  bf_table row : row ∈ block_table w -> strip row ∈ map c_row done;
}.

(** The tables lose nothing at or below a stored block. *)
Record settled (bs : list BlockMsg) (w : World) (last : option Z) : Prop := {
  sd_announced b row : b ∈ bs -> row ∈ block_table w -> bk_slot b <= m_slot row -> exists p, prepared b p /\ announced w (core p);
  sd_stored b d : b ∈ bs -> last = Some d -> bk_slot b <= d -> exists p, prepared b p /\ stored w (core p);
  sd_table row : row ∈ block_table w -> exists b, b ∈ bs /\ m_slot row = bk_slot b;
  sd_last d : last = Some d -> exists b, b ∈ bs /\ d = bk_slot b;
}.

Lemma prepared_slot b p : prepared b p -> c_slot (core p) = bk_slot b.
Proof.
  unfold prepared, prepare_block, map_block_metadata. intros (_ & _ & H)%rbind_ok. apply rbind_ok in H as (m & Hm & H).
  apply rbind_ok in H as (txs & _ & H). apply rbind_ok in H as (es & _ & [= <-]). cbn.
  apply rbind_ok in Hm as (h & _ & Hm). apply rbind_ok in Hm as (ph & _ & Hm). apply rbind_ok in Hm as (rw & _ & [= <-]). done.
Qed.

Lemma prepared_unique b p q : prepared b p -> prepared b q -> p = q.
Proof. unfold prepared. congruence. Qed.

Lemma prepared_slots bs ps : Forall2 prepared bs ps -> map bk_slot bs = map c_slot (map core ps).
Proof. induction 1 as [|b p bs ps Hp _ IH]; cbn; [done|]. f_equal; [symmetry; by apply prepared_slot|done]. Qed.

Lemma progress_sorted bs done buf rest r w :
  ascending (map bk_slot bs) -> progress bs done buf rest r w -> StronglySorted core_lt (done ++ buf ++ rest).
Proof.
  intros Ha [(ps & Hps & E) _ _ _ _ _ _]. rewrite <- E. rewrite (prepared_slots _ _ Hps) in Ha. clear -Ha.
  induction (map core ps) as [|c l IH]; cbn in *; [constructor|]. apply ascending_cons in Ha as [Hf Ha]. constructor; [by apply IH|].
  apply Forall_forall. intros x Hx. apply (proj1 (Forall_forall _ _) Hf). by apply list_elem_of_fmap_2.
Qed.

(** A received block, as one of the cores. *)
Lemma progress_block bs done buf rest r w b :
  progress bs done buf rest r w -> b ∈ bs -> exists p, prepared b p /\ core p ∈ done ++ buf ++ rest /\ c_slot (core p) = bk_slot b.
Proof.
  intros [(ps & Hps & E) _ _ _ _ _ _] [i Hi]%list_elem_of_lookup_1. destruct (Forall2_lookup_l _ _ _ _ _ Hps Hi) as (p & Hp & Hprep).
  exists p. split_and!; [done| |by apply prepared_slot]. rewrite <- E. apply list_elem_of_fmap_2. by eapply list_elem_of_lookup_2.
Qed.

Lemma progress_core bs done buf rest r w c :
  progress bs done buf rest r w -> c ∈ done ++ buf ++ rest -> exists b, b ∈ bs /\ c_slot c = bk_slot b.
Proof.
  intros [(ps & Hps & E) _ _ _ _ _ _] Hc. rewrite <- E in Hc. apply list_elem_of_fmap in Hc as (p & -> & [i Hi]%list_elem_of_lookup_1).
  destruct (Forall2_lookup_r _ _ _ _ _ Hps Hi) as (b & Hb & Hprep). exists b. split; [by eapply list_elem_of_lookup_2|by apply prepared_slot].
Qed.

Lemma table_slot w done row :
  (forall row, row ∈ block_table w -> strip row ∈ map c_row done) -> row ∈ block_table w -> exists c, c ∈ done /\ m_slot row = c_slot c.
Proof.
  intros Ht Hrow. pose proof (Ht row Hrow) as (c & Ec & Hc)%list_elem_of_fmap. exists c. split; [done|]. unfold c_slot. rewrite <- Ec. done.
Qed.

(** Tables whose rows come from a prefix of the received blocks, all of it stored. *)
Lemma prefix_settled bs (done rest : list Core) w last :
  (forall b, b ∈ bs -> exists p, prepared b p /\ core p ∈ done ++ rest /\ c_slot (core p) = bk_slot b) ->
  (forall c, c ∈ done -> exists b, b ∈ bs /\ c_slot c = bk_slot b) ->
  StronglySorted core_lt (done ++ rest) -> Forall (announced w) done ->
  (forall row, row ∈ block_table w -> strip row ∈ map c_row done) ->
  (forall d, last = Some d -> exists pre post, done = pre ++ post /\ Forall (stored w) pre /\ exists c, c ∈ pre /\ d = c_slot c) ->
  settled bs w last.
Proof.
  intros Hbs Hdone Hs Hann Htab Hlast.
  assert (Hin : forall pre post b d, pre ++ post = done ++ rest -> b ∈ bs -> (exists c, c ∈ pre /\ d = c_slot c) -> bk_slot b <= d ->
    exists p, prepared b p /\ core p ∈ pre).
  { intros pre post b d Ep Hb (c & Hc & Hd) Hle. destruct (Hbs b Hb) as (p & Hp & Hcp & Esl). exists p. split; [done|].
    rewrite <- Ep in Hcp, Hs. apply elem_of_app in Hcp as [?|Hq]; [done|]. pose proof (sorted_between _ _ _ c (core p) Hs Hc Hq) as Hlt. unfold core_lt in Hlt. lia. }
  constructor.
  - intros b row Hb Hrow Hle. destruct (table_slot w done row Htab Hrow) as (c & Hc & Ec).
    destruct (Hin done rest b (m_slot row) eq_refl Hb) as (p & Hp & Hd); [by exists c|done|]. exists p. split; [done|]. by apply (proj1 (Forall_forall _ _) Hann).
  - intros b d Hb Hd Hle. destruct (Hlast d Hd) as (pre & post & -> & Hst & Hc).
    destruct (Hin pre (post ++ rest) b d) as (p & Hp & Hin'); [by rewrite app_assoc|done|done|done|]. exists p. split; [done|]. by apply (proj1 (Forall_forall _ _) Hst).
  - intros row Hrow. destruct (table_slot w done row Htab Hrow) as (c & Hc & ->). by apply Hdone.
  - intros d Hd. destruct (Hlast d Hd) as (pre & post & -> & _ & c & Hc & ->). destruct (Hdone c) as (b & Hb & E); [set_solver|]. by exists b.
Qed.

Lemma progress_settled bs done buf rest r w :
  ascending (map bk_slot bs) -> progress bs done buf rest r w -> settled bs w (last_durable_block_slot r).
Proof.
  intros Ha P. pose proof (progress_sorted _ _ _ _ _ _ Ha P) as Hs. pose proof P as [_ _ _ _ Hdone Htab Hlast].
  assert (Hd : Forall (announced w) done) by (eapply Forall_impl; [exact Hdone|]; by intros c [? _]).
  assert (Hl : forall d, last_durable_block_slot r = Some d -> exists pre post, done = pre ++ post /\ Forall (stored w) pre /\ exists c, c ∈ pre /\ d = c_slot c).
  { intros d Hd'. destruct (Hlast d Hd') as (c & Hc & ->). exists done, []. rewrite app_nil_r. split_and!; [done|done|by exists c]. }
  destruct (decide (Forall (fun row => strip row ∈ map c_row done) (block_table w))) as [Hold|Hnew].
  - apply (prefix_settled bs done (buf ++ rest)); [intros b; by apply (progress_block _ _ _ _ _ _ b P)| |done|done|by apply Forall_forall|done].
    intros c Hc. apply (progress_core _ _ _ _ _ _ c P). set_solver.
  - apply not_Forall_Exists in Hnew; [|intros ?; apply _]. apply Exists_exists in Hnew as (row & Hrow & Hnot).
    assert (Hann : Forall (announced w) buf) by (destruct (Htab row Hrow) as [?|[_ ?]]; done).
    apply (prefix_settled bs (done ++ buf) rest).
    + intros b Hb. destruct (progress_block _ _ _ _ _ _ b P Hb) as (p & ? & Hin & ?). exists p. by rewrite <- app_assoc.
    + intros c Hc. apply (progress_core _ _ _ _ _ _ c P). set_solver.
    + by rewrite <- app_assoc.
    + by apply Forall_app.
    + intros row' Hrow'. rewrite map_app, elem_of_app. destruct (Htab row' Hrow') as [?|[? _]]; tauto.
    + intros d Hd'. destruct (Hl d Hd') as (pre & post & -> & ? & ?). exists pre, (post ++ buf). by rewrite app_assoc.
Qed.

Lemma stored_mono w w' c :
  tx_table w ⊆ tx_table w' -> block_table w ⊆ block_table w' -> entry_table w ⊆ entry_table w' -> stored w c -> stored w' c.
Proof.
  intros H1 H2 H3 [[(row & Hr & Er) Ht] He]. split; [split|].
  - exists row. split; [by apply H2|done].
  - by etrans.
  - intros Hc. etrans; [by apply He|done].
Qed.

(** A batch of rows that is in the tables. *)
Lemma batch_announced w buf B T :
  map strip B = map c_row buf -> T = concat (map c_txs buf) -> T ⊆ tx_table w -> B ⊆ block_table w -> Forall (announced w) buf.
Proof.
  intros EB -> HT HB. apply Forall_forall. intros c Hc. split.
  - assert (Hc' : c_row c ∈ map strip B) by (rewrite EB; by apply list_elem_of_fmap_2). apply list_elem_of_fmap in Hc' as (row & Er & Hr).
    exists row. split; [by apply HB|done].
  - intros t Ht. apply HT. apply list_elem_of_In, in_concat. exists (c_txs c). split; [|by apply list_elem_of_In]. by apply list_elem_of_In, list_elem_of_fmap_2.
Qed.

Lemma concat_sub {A B} (f : A -> list B) l x : x ∈ l -> f x ⊆ concat (map f l).
Proof. intros Hx y Hy. apply list_elem_of_In, in_concat. exists (f x). split; [by apply list_elem_of_In, list_elem_of_fmap_2|by apply list_elem_of_In]. Qed.

Lemma announced_mono w w' c : tx_table w ⊆ tx_table w' -> block_table w ⊆ block_table w' -> announced w c -> announced w' c.
Proof. intros H1 H2 [(row & Hr & Er) Ht]. split; [exists row; split; [by apply H2|done]|by etrans]. Qed.

(** A flush keeps its batch on the way; when it succeeds everything buffered is stored. *)
Lemma flush_progress bs done buf rest r w retries r' w' res :
  progress bs done buf rest r w ->
  flush fetch_stored_footers entries_table retries r w = (r', w', res) ->
  (exists e, res = Err e) /\ progress bs done buf rest r' w' \/
  res = Ok tt /\ progress bs (done ++ buf) [] rest r' w' /\ buffered (done ++ buf) [] r' w'.
Proof.
  intros P Hf. pose proof P as [Hbl Hrows Htxs Hent Hdone Htab Hlast].
  apply flush_spec in Hf as (B & EB & _ & Ec & F & Hres). pose proof F as [F1 F2 F3 F4 F5 F6 F7 F8 F9].
  assert (Hdone' : Forall (stored w') done) by (eapply Forall_impl; [exact Hdone|]; intros c; by apply stored_mono).
  assert (HT : transaction_rows r ⊆ tx_table w' -> concat (map c_txs buf) ⊆ tx_table w').
  { intros HT. destruct Htxs as [<-|[_ Ht]]; [done|by etrans]. }
  assert (HB : B ⊆ block_table w' -> transaction_rows r ⊆ tx_table w' -> Forall (announced w') buf).
  { intros HB Ht. destruct Hrows as [Er|[_ Hann]].
    - apply (batch_announced w' buf B (concat (map c_txs buf))); [congruence|done|by apply HT|done].
    - eapply Forall_impl; [exact Hann|]. intros c. by apply announced_mono. }
  assert (Htab' : forall row, row ∈ block_table w' -> strip row ∈ map c_row done \/ (strip row ∈ map c_row buf /\ Forall (announced w') buf)).
  { intros row Hrow. destruct (F7 row Hrow) as [Hold|(Hin & Ht & Hb)].
    - destruct (Htab row Hold) as [?|[? Hann]]; [by left|right; split; [done|]]. eapply Forall_impl; [exact Hann|]. intros c. by apply announced_mono.
    - right. split; [|by apply HB]. assert (Hin' : strip row ∈ map strip (block_rows r)) by (rewrite <- EB; by apply list_elem_of_fmap_2).
      destruct Hrows as [<-|[Er _]]; [done|]. rewrite Er in Hin'. by apply elem_of_nil in Hin'. }
  destruct Hres as [(-> & (A1 & A2 & A3 & A4 & A5) & El)|(He & El)]; [right|left]; (split; [done|]).
  - assert (Hbuf : Forall (stored w') buf).
    { pose proof (HB A4 A2) as Hann. apply Forall_forall. intros c Hc. split; [by apply (proj1 (Forall_forall _ _) Hann)|].
      intros He. destruct (A5 He) as [_ HE]. unfold buffered_entries in Hent. rewrite He in Hent.
      etrans; [by apply (concat_sub c_entries)|]. destruct Hent as [<-|[_ Hs]]; [done|by etrans]. }
    assert (Ee : entry_rows r' = buffered_entries []).
    { unfold buffered_entries in *. destruct entries_table eqn:Eec; cbn; [by destruct (A5 eq_refl)|].
      destruct F3 as [->|[-> _]]; [|done]. by destruct Hent as [->|[-> _]]. }
    assert (Htab2 : forall row, row ∈ block_table w' -> strip row ∈ map c_row (done ++ buf)).
    { intros row Hrow. rewrite map_app, elem_of_app. destruct (Htab' row Hrow) as [?|[? _]]; tauto. }
    split; [|constructor; [by rewrite A3|by rewrite A1|done|done]].
    constructor; [|left; by rewrite A3|left; by rewrite A1|by left|by apply Forall_app|intros row Hrow; left; by apply Htab2|].
    + destruct Hbl as (ps & Hps & E). exists ps. split; [done|]. cbn. by rewrite <- app_assoc.
    + intros d Hd. rewrite El in Hd. destruct (max_block_slot B) as [slot|] eqn:Em.
      * apply max_block_slot_spec in Em as ([?|(row & Hrow & ->)] & _ & _); [done|].
        destruct (table_slot w' (done ++ buf) row Htab2) as (c & Hc & Esl); [by apply A4|]. injection Hd as <-.
        destruct (last_durable_block_slot r) as [prev|] eqn:El0; [|exists c; split; [done|done]].
        destruct (Hlast prev eq_refl) as (c' & Hc' & Ec'). destruct (decide (m_slot row <= prev)).
        -- exists c'. split; [set_solver|lia].
        -- exists c. split; [done|lia].
      * destruct (Hlast d Hd) as (c & Hc & ->). exists c. split; [set_solver|done].
  - constructor; [done| | | |done|done|by rewrite El].
    + destruct F2 as [->|(-> & Hb & Ht)]; [rewrite EB; destruct Hrows as [?|[Er Hann]]; [by left|right]|right; split; [done|by apply HB]].
      split; [rewrite Er in EB; by destruct B|]. eapply Forall_impl; [exact Hann|]; intros c; by apply announced_mono.
    + destruct F1 as [->|(-> & Ht)]; [|right; split; [done|by apply HT]]. destruct Htxs as [?|[? ?]]; [by left|right; split; [done|by etrans]].
    + destruct F3 as [->|(-> & Ht)]; [destruct Hent as [?|[? ?]]; [by left|right; split; [done|by etrans]]|].
      right. split; [done|]. destruct Hent as [<-|[_ ?]]; [done|by etrans].
Qed.
End Tables.

Arguments prepared_slot {_ _}.
Arguments prepared_unique {_ _}.
Arguments prepared_slots {_ _}.
Arguments progress_sorted {_ _}.
Arguments progress_block {_ _}.
Arguments progress_core {_ _}.
Arguments prefix_settled {_ _}.
Arguments progress_settled {_ _}.
Arguments stored_mono {_}.
Arguments flush_progress {_ _ _}.
