(* ===== verification/IngestGrpc.v ===== *)
(** * IngestGrpc: joining finalized blocks with their footers

    Models [crates/superbank/src/ingest/grpc.rs]: the identity and footer join of one
    subscription ([FinalizedFooterJoin]), the processing of an update, the guarded flush and
    the main loop.  Instants are integers; the operations that take [&mut self] and return a
    [Result] return the state they leave behind with it, since an error of the update is
    followed by a flush.  [BTreeMap]s are [gmap]s whose first key is the least. *)

From S2P Require Import Prelude Text Sdk IngestTx IngestBlock.

Open Scope Z_scope.

Definition FOOTER_JOIN_WINDOW_SLOTS : Z := 8192.
Definition FOOTER_WAIT : Z := 2000.
Definition FOOTER_AWAIT_MAX_BLOCKS : Z := 64.
Definition PENDING_IDENTITY_MAX_BLOCKS : Z := 256.
Definition PENDING_IDENTITY_MAX_BYTES : Z := 128 * 1024 * 1024.
Definition usize_max : Z := u64_max.

Inductive CanonicalIdentity := Unknown | Legacy | Bank (id : Z).
Inductive FooterRelease := Due | Drain | Skip.

#[export] Instance CanonicalIdentity_eq_dec : EqDecision CanonicalIdentity.
Proof. solve_decision. Defined.
#[export] Instance FooterRelease_eq_dec : EqDecision FooterRelease.
Proof. solve_decision. Defined.

(** The statuses of a slot update; [OtherStatus] stands for first-shred and completed. *)
Inductive SlotState := CreatedBank | Processed | Confirmed | Finalized | Dead | OtherStatus.
Record SlotMsg := mkSlotMsg { sl_slot : Z; sl_status : option SlotState; sl_bank_id : option Z }.

Inductive Update := BlockUpdate (b : BlockMsg) (encoded_len : Z) | FooterUpdate (f : FooterMsg) | SlotUpdate (s : SlotMsg) | OtherUpdate.

Record AwaitingFooter := mkAwaiting { a_prepared : PreparedBlock; a_bank_id : option Z; a_deadline : Z }.

Record FinalizedFooterJoin := mkJoin {
  footer_wait : Z;
  pending : gmap (Z * Z) FooterFields;
  finalized : gmap Z Z;
  footer_seen : bool;
  min_footer_slot : option Z;
  highest_slot : Z;
  known_banks : gset (Z * Z);
  legacy_slots : gset Z;
  pending_identity : gmap Z PreparedBlock;
  pending_identity_bytes : Z;
  awaiting : list (Z * Z * AwaitingFooter);
  awaiting_bytes : Z;
  awaiting_seq : Z;
}.

(** [FinalizedFooterJoin::new] *)
Definition join_new : FinalizedFooterJoin := mkJoin FOOTER_WAIT ∅ ∅ false None 0 ∅ ∅ ∅ 0 [] 0 0.

Definition set_highest (x : Z) (j : FinalizedFooterJoin) : FinalizedFooterJoin :=
  mkJoin (footer_wait j) (pending j) (finalized j) (footer_seen j) (min_footer_slot j) x (known_banks j) (legacy_slots j)
    (pending_identity j) (pending_identity_bytes j) (awaiting j) (awaiting_bytes j) (awaiting_seq j).
Definition set_pending (p : gmap (Z * Z) FooterFields) (j : FinalizedFooterJoin) : FinalizedFooterJoin :=
  mkJoin (footer_wait j) p (finalized j) (footer_seen j) (min_footer_slot j) (highest_slot j) (known_banks j) (legacy_slots j)
    (pending_identity j) (pending_identity_bytes j) (awaiting j) (awaiting_bytes j) (awaiting_seq j).
Definition set_finalized (f : gmap Z Z) (j : FinalizedFooterJoin) : FinalizedFooterJoin :=
  mkJoin (footer_wait j) (pending j) f (footer_seen j) (min_footer_slot j) (highest_slot j) (known_banks j) (legacy_slots j)
    (pending_identity j) (pending_identity_bytes j) (awaiting j) (awaiting_bytes j) (awaiting_seq j).
Definition set_banks (b : gset (Z * Z)) (j : FinalizedFooterJoin) : FinalizedFooterJoin :=
  mkJoin (footer_wait j) (pending j) (finalized j) (footer_seen j) (min_footer_slot j) (highest_slot j) b (legacy_slots j)
    (pending_identity j) (pending_identity_bytes j) (awaiting j) (awaiting_bytes j) (awaiting_seq j).
Definition set_legacy (l : gset Z) (j : FinalizedFooterJoin) : FinalizedFooterJoin :=
  mkJoin (footer_wait j) (pending j) (finalized j) (footer_seen j) (min_footer_slot j) (highest_slot j) (known_banks j) l
    (pending_identity j) (pending_identity_bytes j) (awaiting j) (awaiting_bytes j) (awaiting_seq j).
Definition set_identity (m : gmap Z PreparedBlock) (bytes : Z) (j : FinalizedFooterJoin) : FinalizedFooterJoin :=
  mkJoin (footer_wait j) (pending j) (finalized j) (footer_seen j) (min_footer_slot j) (highest_slot j) (known_banks j)
    (legacy_slots j) m bytes (awaiting j) (awaiting_bytes j) (awaiting_seq j).
Definition set_awaiting (l : list (Z * Z * AwaitingFooter)) (bytes seq : Z) (j : FinalizedFooterJoin) : FinalizedFooterJoin :=
  mkJoin (footer_wait j) (pending j) (finalized j) (footer_seen j) (min_footer_slot j) (highest_slot j) (known_banks j)
    (legacy_slots j) (pending_identity j) (pending_identity_bytes j) l bytes seq.
Definition set_footer_seen (min : option Z) (j : FinalizedFooterJoin) : FinalizedFooterJoin :=
  mkJoin (footer_wait j) (pending j) (finalized j) true min (highest_slot j) (known_banks j) (legacy_slots j)
    (pending_identity j) (pending_identity_bytes j) (awaiting j) (awaiting_bytes j) (awaiting_seq j).

(** [block_identity] *)
Definition block_identity (slot scalar_id : Z) (j : FinalizedFooterJoin) : result CanonicalIdentity IngestError :=
  if bool_decide (slot ∈ legacy_slots j) then
    let? _ := ensure (scalar_id =? 0) LegacyContradiction in Ok Legacy
  else if (negb (scalar_id =? 0) || bool_decide ((slot, scalar_id) ∈ known_banks j))%bool then Ok (Bank scalar_id)
  else Ok Unknown.

(** [prune] *)
Definition prune (j : FinalizedFooterJoin) : FinalizedFooterJoin * result unit IngestError :=
  let oldest := sat_sub (highest_slot j) FOOTER_JOIN_WINDOW_SLOTS in
  let j := set_pending (filter (fun e => oldest <= fst (fst e)) (pending j)) j in
  let j := set_finalized (filter (fun e => oldest <= fst e) (finalized j)) j in
  if existsb (fun e => fst e <? oldest) (map_to_list (pending_identity j)) then (j, Err IdentityWindow)
  else
    let j := set_banks (filter (fun b => oldest <= fst b) (known_banks j)) j in
    (set_legacy (filter (fun slot => oldest <= slot) (legacy_slots j)) j, Ok tt).

(** [stage_identity_block] *)
Definition stage_identity_block (prepared : PreparedBlock) (encoded_bytes : Z) (j : FinalizedFooterJoin) :
    FinalizedFooterJoin * result unit IngestError :=
  let slot := m_slot (p_metadata prepared) in
  if bool_decide (is_Some (pending_identity j !! slot)) then (j, Err DuplicateUnidentified)
  else if usize_max <? pending_identity_bytes j + encoded_bytes then (j, Err PendingBytesOverflow)
  else
    let bytes := pending_identity_bytes j + encoded_bytes in
    if negb ((Z.of_nat (size (pending_identity j)) <? PENDING_IDENTITY_MAX_BLOCKS) && (bytes <=? PENDING_IDENTITY_MAX_BYTES))%bool
    then (j, Err PendingIdentityLimit)
    else
      let j := set_highest (Z.max (highest_slot j) slot) j in
      let prepared := mkPrepared (p_metadata prepared) (p_transactions prepared) (p_entries prepared) encoded_bytes in
      prune (set_identity (<[slot := prepared]> (pending_identity j)) bytes j).

(** The blocks held for their identity, by slot. *)
Definition held_blocks (j : FinalizedFooterJoin) : list (Z * PreparedBlock) :=
  sort_by_key (map_to_list (pending_identity j)).

(** The loop of [take_ready_blocks]: [Ok None] when an identity is unknown. *)
Fixpoint identities (l : list (Z * PreparedBlock)) (j : FinalizedFooterJoin) :
    result (option (list (PreparedBlock * CanonicalIdentity))) IngestError :=
  match l with
  | [] => Ok (Some [])
  | (slot, p) :: rest =>
      let? identity := block_identity slot (default 0 (m_bank_id (p_metadata p))) j in
      if bool_decide (identity = Unknown) then Ok None
      else
        let? ready := identities rest j in
        Ok (match ready with Some ready => Some ((p, identity) :: ready) | None => None end)
  end.

(** [take_ready_blocks] *)
Definition take_ready_blocks (j : FinalizedFooterJoin) :
    FinalizedFooterJoin * result (list (PreparedBlock * CanonicalIdentity)) IngestError :=
  match identities (held_blocks j) j with
  | Err e => (j, Err e)
  | Ok None => (j, Ok [])
  | Ok (Some ready) => (set_identity ∅ 0 j, Ok ready)
  end.

(** [observe_footer] *)
Definition observe_footer (footer : FooterMsg) (j : FinalizedFooterJoin) : FinalizedFooterJoin * result unit IngestError :=
  if bool_decide (fo_slot footer ∈ legacy_slots j) then (j, Err FooterLacksIdentity)
  else
    match map_block_footer footer with
    | Err e => (j, Err e)
    | Ok fields =>
        let j := set_footer_seen (Some (match min_footer_slot j with Some m => Z.min m (fo_slot footer) | None => fo_slot footer end)) j in
        let j := set_highest (Z.max (highest_slot j) (fo_slot footer)) j in
        if match finalized j !! fo_slot footer with Some winner => negb (winner =? fo_bank_id footer) | None => false end
        then (j, Ok tt)
        else (set_pending (<[(fo_slot footer, fo_bank_id footer) := fields]> (pending j)) j, Ok tt)
    end.

Definition bank_status (s : SlotState) : bool :=
  match s with CreatedBank | Processed | Confirmed | Finalized => true | _ => false end.
Definition settles_legacy (s : SlotState) : bool := match s with CreatedBank | Finalized => true | _ => false end.

(** The identity part of [observe_slot]. *)
Definition observe_identity (slot : Z) (status : SlotState) (bank_id : option Z) (j : FinalizedFooterJoin) :
    FinalizedFooterJoin * result unit IngestError :=
  if negb (bank_status status) then (j, Ok tt)
  else
    let j := set_highest (Z.max (highest_slot j) slot) j in
    match bank_id with
    | Some bank_id =>
        if bool_decide (slot ∈ legacy_slots j) then (j, Err IdentityProtocolChanged)
        else (set_banks ({[(slot, bank_id)]} ∪ known_banks j) j, Ok tt)
    | None =>
        if settles_legacy status then
          if existsb (fun b => fst b =? slot) (elements (known_banks j)) then (j, Err LostIdentity)
          else (set_legacy ({[slot]} ∪ legacy_slots j) j, Ok tt)
        else (j, Ok tt)
    end.

(** [observe_slot] *)
Definition observe_slot (s : SlotMsg) (j : FinalizedFooterJoin) : FinalizedFooterJoin * result unit IngestError :=
  match sl_status s with
  | None => (j, Ok tt)
  | Some status =>
      let slot := sl_slot s in
      match observe_identity slot status (sl_bank_id s) j with
      | (j, Err e) => (j, Err e)
      | (j, Ok _) =>
          match status with
          | Finalized =>
              match sl_bank_id s with
              | None => (j, Ok tt)
              | Some bank_id =>
                  if negb (match finalized j !! slot with Some winner => winner =? bank_id | None => true end)
                  then (j, Err ConflictingFinalized)
                  else
                    let j := set_finalized (<[slot := bank_id]> (finalized j)) j in
                    (set_pending (filter (fun e => fst (fst e) <> slot \/ snd (fst e) = bank_id) (pending j)) j, Ok tt)
              end
          | Dead =>
              (set_pending (filter (fun e => fst (fst e) <> slot \/ (is_Some (sl_bank_id s) /\ sl_bank_id s <> Some (snd (fst e))))
                              (pending j)) j, Ok tt)
          | _ => (j, Ok tt)
          end
      end
  end.

(** [observe], for an update that is neither a block nor a footer. *)
Definition observe_other (u : Update) (j : FinalizedFooterJoin) : FinalizedFooterJoin * result unit IngestError :=
  match u with
  | SlotUpdate s => match observe_slot s j with (j, Err e) => (j, Err e) | (j, Ok _) => prune j end
  | _ => prune j
  end.

(** [footer_expected] *)
Definition footer_expected (slot : Z) (j : FinalizedFooterJoin) : bool :=
  negb (footer_seen j && match min_footer_slot j with Some m => slot <? m | None => false end).

(** [awaiting] ordered by slot and sequence number. *)
Definition await_le (a b : Z * Z * AwaitingFooter) : Prop :=
  fst (fst a) < fst (fst b) \/ (fst (fst a) = fst (fst b) /\ snd (fst a) <= snd (fst b)).
#[export] Instance await_le_dec a b : Decision (await_le a b).
Proof. unfold await_le. apply _. Defined.

Fixpoint insert_awaiting (e : Z * Z * AwaitingFooter) (l : list (Z * Z * AwaitingFooter)) : list (Z * Z * AwaitingFooter) :=
  match l with
  | [] => [e]
  | x :: rest => if bool_decide (await_le e x) then e :: l else x :: insert_awaiting e rest
  end.

(** [await_footer] *)
Definition await_footer (prepared : PreparedBlock) (identity : CanonicalIdentity) (now : Z) (j : FinalizedFooterJoin) :
    FinalizedFooterJoin * result unit IngestError :=
  match identity with
  | Unknown => (j, Err UnidentifiedBank)
  | _ =>
      let bank_id := match identity with Bank id => Some id | _ => None end in
      let slot := m_slot (p_metadata prepared) in
      if negb (match bank_id, finalized j !! slot with Some id, Some winner => winner =? id | _, _ => true end)
      then (j, Err WinnerConflict)
      else
        let prepared := mkPrepared (set_bank_id bank_id (p_metadata prepared)) (p_transactions prepared) (p_entries prepared)
                          (p_encoded_bytes prepared) in
        let seq := awaiting_seq j + 1 in
        (set_awaiting (insert_awaiting (slot, seq, mkAwaiting prepared bank_id (now + footer_wait j)) (awaiting j))
           (Z.min usize_max (awaiting_bytes j + p_encoded_bytes prepared)) seq j, Ok tt)
  end.

Fixpoint await_all (ready : list (PreparedBlock * CanonicalIdentity)) (now : Z) (j : FinalizedFooterJoin) :
    FinalizedFooterJoin * result unit IngestError :=
  match ready with
  | [] => (j, Ok tt)
  | (p, identity) :: rest =>
      match await_footer p identity now j with
      | (j, Err e) => (j, Err e)
      | (j, Ok _) => await_all rest now j
      end
  end.

(** [usable] of [release_awaiting]. *)
Definition footer_usable (slot : Z) (bank_id : option Z) (j : FinalizedFooterJoin) : bool :=
  match bank_id with
  | Some id => bool_decide (finalized j !! slot = Some id) && bool_decide (is_Some (pending j !! (slot, id)))
  | None => false
  end.

(** [due] of [release_awaiting]. *)
Definition release_due (now : Z) (mode : FooterRelease) (slot : Z) (entry : AwaitingFooter) (j : FinalizedFooterJoin) : bool :=
  bool_decide (mode = Drain) ||
  ((FOOTER_AWAIT_MAX_BLOCKS <? zlen (awaiting j)) || (PENDING_IDENTITY_MAX_BYTES <? awaiting_bytes j)) ||
  negb (bool_decide (is_Some (a_bank_id entry))) || (a_deadline entry <=? now) || negb (footer_expected slot j).

(** The loop of [release_awaiting]; a turn removes the first waiting block. *)
Fixpoint release_loop (fuel : nat) (now : Z) (mode : FooterRelease) (include_entries : bool) (j : FinalizedFooterJoin)
    (rows : BufferedRows) : FinalizedFooterJoin * BufferedRows :=
  match fuel, awaiting j with
  | S fuel, (slot, seq, entry) :: rest =>
      let usable := footer_usable slot (a_bank_id entry) j in
      if (negb usable && negb (release_due now mode slot entry j))%bool then (j, rows)
      else
        let p := a_prepared entry in
        let j' := set_awaiting rest (sat_sub (awaiting_bytes j) (p_encoded_bytes p)) (awaiting_seq j) j in
        match a_bank_id entry with
        | Some id =>
            match (if usable then pending j !! (slot, id) else None) with
            | Some footer =>
                let p := mkPrepared (apply_footer footer (p_metadata p)) (p_transactions p) (p_entries p) (p_encoded_bytes p) in
                release_loop fuel now mode include_entries (set_pending (delete (slot, id) (pending j)) j')
                  (append_block p include_entries rows)
            | None => release_loop fuel now mode include_entries j' (append_block p include_entries rows)
            end
        | None => release_loop fuel now mode include_entries j' (append_block p include_entries rows)
        end
  | _, _ => (j, rows)
  end.

(** [release_awaiting] *)
Definition release_awaiting (now : Z) (mode : FooterRelease) (include_entries : bool) (j : FinalizedFooterJoin) (rows : BufferedRows) :
    FinalizedFooterJoin * BufferedRows :=
  if bool_decide (mode = Skip) then (j, rows)
  else release_loop (length (awaiting j)) now mode include_entries j rows.

(** ** Updates and flushes *)

Record GrpcArgs := mkGrpcArgs {
  flush_every_block : bool; transactions_flush_rows : Z; blocks_flush_rows : Z; entries_configured : bool;
  max_retries : nat; historical_bound : option Z;
}.

Record Grpc := mkGrpc { join : FinalizedFooterJoin; rows : BufferedRows; world : World }.

Section Grpc.
Context (codecs : Codecs)
  (fetch_stored_footers : list Z -> option (gmap Z FooterFields)) (args : GrpcArgs).

(** [flush_canonical_rows] *)
Definition flush_canonical_rows (retries : nat) (now : Z) (release : FooterRelease) (g : Grpc) :
    Grpc * result bool IngestError :=
  let '(j, r) := release_awaiting now release (entries_configured args) (join g) (rows g) in
  if negb (bool_decide (pending_identity j = ∅)) then (mkGrpc j r (world g), Ok false)
  else
    let '(r, w, result) := flush fetch_stored_footers (entries_configured args) retries r (world g) in
    (mkGrpc j r w, match result with Ok _ => Ok true | Err e => Err e end).

(** The first part of [process_canonical_update_inner]: what the update does to the join. *)
Definition observe_update (u : Update) (j : FinalizedFooterJoin) : FinalizedFooterJoin * result unit IngestError :=
  match u with
  | BlockUpdate block encoded_len =>
      match (let? _ := validate_block_bank block IngestBlock.Grpc (historical_bound args) in
             let? _ := ensure (match finalized j !! bk_slot block with Some winner => winner =? bk_bank_id block | None => true end)
                         WinnerConflict in
             let? _ := block_identity (bk_slot block) (bk_bank_id block) j in
             prepare_block codecs block (entries_configured args)) with
      | Err e => (j, Err e)
      | Ok prepared => stage_identity_block prepared encoded_len j
      end
  | FooterUpdate footer => prune (fst (observe_footer footer j))
  | _ => observe_other u j
  end.

(** [pressure] *)
Definition pressure (r : BufferedRows) : bool :=
  flush_every_block args || (transactions_flush_rows args <=? zlen (transaction_rows r)) ||
  (blocks_flush_rows args <=? zlen (block_rows r)) || (transactions_flush_rows args <=? zlen (entry_rows r)).

(** [process_canonical_update_inner] *)
Definition process_inner (u : Update) (now : Z) (g : Grpc) : Grpc * result unit IngestError :=
  match observe_update u (join g) with
  | (j, Err e) => (mkGrpc j (rows g) (world g), Err e)
  | (j, Ok _) =>
      match take_ready_blocks j with
      | (j, Err e) => (mkGrpc j (rows g) (world g), Err e)
      | (j, Ok ready) =>
          match await_all ready now j with
          | (j, Err e) => (mkGrpc j (rows g) (world g), Err e)
          | (j, Ok _) =>
              let '(j, r) := release_awaiting now Due (entries_configured args) j (rows g) in
              let g := mkGrpc j r (world g) in
              if (bool_decide (pending_identity j = ∅) && pressure r)%bool then
                let '(g, result) := flush_canonical_rows (max_retries args) now Skip g in
                (g, match result with Ok _ => Ok tt | Err e => Err e end)
              else (g, Ok tt)
          end
      end
  end.

Definition affected_slot (u : Update) : option Z :=
  match u with
  | BlockUpdate b _ => Some (bk_slot b)
  | SlotUpdate s => Some (sl_slot s)
  | FooterUpdate f => Some (fo_slot f)
  | OtherUpdate => None
  end.

(** [process_canonical_update] *)
Definition process_canonical_update (u : Update) (now : Z) (g : Grpc) : Grpc * result unit IngestError :=
  match process_inner u now g with
  | (g, Ok _) => (g, Ok tt)
  | (g, Err e) =>
      if match affected_slot u with
         | Some slot => forallb (fun row => m_slot row <? slot) (block_rows (rows g))
         | None => false
         end
      then
        let '(g, result) := flush_canonical_rows 0 now Skip g in
        (g, match result with Ok _ => Err e | Err e' => Err e' end)
      else (g, Err e)
  end.

(** ** The loop of [run_grpc_ingest] *)

(** A turn of the loop: an update of the stream, the flush timer, a fatal condition (health,
    idle timeout, stream error or end), or a shutdown signal. *)
Inductive Event := Received (u : Update) (now : Z) | FlushTick (now : Z) | FatalCondition (now : Z) | ShutdownSignal (now : Z).

(** The process runs or has returned. *)
Inductive Run := Running (g : Grpc) | Returned (g : Grpc) (r : result unit IngestError).

Definition run_grpc (r : Run) : Grpc := match r with Running g => g | Returned g _ => g end.

Definition grpc_step (r : Run) (e : Event) : Run :=
  match r with
  | Returned _ _ => r
  | Running g =>
      match e with
      | Received u now =>
          match process_canonical_update u now g with (g, Ok _) => Running g | (g, Err e) => Returned g (Err e) end
      | FlushTick now =>
          match flush_canonical_rows (max_retries args) now Due g with (g, Ok _) => Running g | (g, Err e) => Returned g (Err e) end
      | FatalCondition now =>
          match flush_canonical_rows 0 now Drain g with (g, Ok _) => Returned g (Err StreamFailed) | (g, Err e) => Returned g (Err e) end
      | ShutdownSignal now =>
          match flush_canonical_rows (max_retries args) now Drain g with
          | (g, Ok _) =>
              Returned g (if bool_decide (pending_identity (join g) = ∅) then Ok tt else Err UnidentifiedAtShutdown)
          | (g, Err e) => Returned g (Err e)
          end
      end
  end.

(** The start of a subscription; [ceiling] is the latest stored slot. *)
Definition grpc_start (ceiling : option Z) (answers : list Answer) : Run :=
  Running (mkGrpc join_new (rows_new ceiling) (mkWorld [] [] [] answers)).

Definition grpc_run (ceiling : option Z) (answers : list Answer) (events : list Event) : Run :=
  foldl grpc_step (grpc_start ceiling answers) events.
End Grpc.

(** ** Subscribing *)

Inductive FromSlotMode := Strict | LatestDb | Zero.
Inductive FromSlotSpec := SpecLatestDb | SpecSlot (slot : Z).

(** [resolve_initial_from_slot]; [latest] is the latest stored slot. *)
Definition resolve_initial_from_slot (spec : option FromSlotSpec) (latest : option Z) : option Z * option FromSlotMode :=
  match spec with
  | Some SpecLatestDb => (latest, Some LatestDb)
  | Some (SpecSlot slot) => (Some slot, Some (if slot =? 0 then Zero else Strict))
  | None => (None, None)
  end.

(** [next_subscribe_from_slot]; [None] is its error. *)
Definition next_subscribe_from_slot (initial last_durable : option Z) : option (option Z) :=
  match last_durable with
  | Some slot => match checked_add slot 1 with Some next => Some (Some next) | None => None end
  | None => Some initial
  end.
