(* ===== verification/IngestGrpcSound.v ===== *)
(** * IngestGrpcSound: what the streaming ingestor stores

    Whatever the stream sends and however the database answers, the rows in the tables are a
    prefix of the received blocks, so that a restart from the newest stored block loses no
    transaction; the identity and footer columns are those the subscription proved; and what
    the join holds stays bounded. *)

From S2P Require Import Prelude Text Sdk IngestTx IngestBlock IngestBlockSound IngestTables IngestGrpc.

Open Scope list_scope.
Open Scope Z_scope.

(** ** Ordered maps of held blocks *)

Lemma ascending_pairs_ext {V} (l k : list (Z * V)) :
  ascending (map fst l) -> ascending (map fst k) -> (forall x, x ∈ l <-> x ∈ k) -> l = k.
Proof.
  revert k. induction l as [|a l IH]; intros [|b k] Hl Hk Hx; [done| | |].
  - by pose proof (proj2 (Hx b) ltac:(by left)) as ?%elem_of_nil.
  - by pose proof (proj1 (Hx a) ltac:(by left)) as ?%elem_of_nil.
  - cbn in *. apply ascending_cons in Hl as [Fl Hl]. apply ascending_cons in Hk as [Fk Hk].
    assert (Hla : forall x, x ∈ l -> fst a < fst x) by (intros x Hin; apply (proj1 (Forall_forall _ _) Fl); by apply list_elem_of_fmap_2).
    assert (Hkb : forall x, x ∈ k -> fst b < fst x) by (intros x Hin; apply (proj1 (Forall_forall _ _) Fk); by apply list_elem_of_fmap_2).
    assert (a = b) as <-.
    { pose proof (proj1 (Hx a) ltac:(by left)) as [?|Ha]%elem_of_cons; [done|]. pose proof (proj2 (Hx b) ltac:(by left)) as [?|Hb]%elem_of_cons; [done|].
      specialize (Hla b Hb). specialize (Hkb a Ha). lia. }
    f_equal. apply IH; [done|done|]. intros x. split; intros Hin.
    + pose proof (proj1 (Hx x) ltac:(by right)) as [->|?]%elem_of_cons; [|done]. specialize (Hla a Hin). lia.
    + pose proof (proj2 (Hx x) ltac:(by right)) as [->|?]%elem_of_cons; [|done]. specialize (Hkb a Hin). lia.
Qed.

Lemma sorted_keys_ascending {V} (l : list (Z * V)) : StronglySorted key_le l -> NoDup (map fst l) -> ascending (map fst l).
Proof.
  induction 1 as [|a l Hl IH Hf]; cbn; intros Hnd; [constructor|]. apply NoDup_cons in Hnd as [Hout Hnd]. constructor; [by apply IH|].
  apply Forall_forall. intros x (y & -> & Hy)%list_elem_of_fmap. pose proof (proj1 (Forall_forall _ _) Hf y Hy) as H. unfold key_le in H.
  assert (fst a <> fst y); [|lia]. intros Eq. apply Hout. rewrite Eq. by apply list_elem_of_fmap_2.
Qed.

Section Held.
Context {V : Type}.

Definition sorted_pairs (m : gmap Z V) : list (Z * V) := sort_by_key (map_to_list m).

Lemma sorted_pairs_elem m x : x ∈ sorted_pairs m <-> m !! fst x = Some (snd x).
Proof. unfold sorted_pairs. rewrite sort_by_key_perm. destruct x as [k v]. by rewrite elem_of_map_to_list. Qed.

Lemma sorted_pairs_ascending m : ascending (map fst (sorted_pairs m)).
Proof.
  unfold sorted_pairs. apply sorted_keys_ascending.
  - apply sort_by_key_sorted.
  - assert (Hp : map fst (sort_by_key (map_to_list m)) ≡ₚ map fst (map_to_list m)) by (apply fmap_Permutation, sort_by_key_perm).
    rewrite Hp. apply NoDup_fst_map_to_list.
Qed.

Lemma sorted_pairs_insert m k v :
  (forall x, is_Some (m !! x) -> x < k) -> sorted_pairs (<[k := v]> m) = sorted_pairs m ++ [(k, v)].
Proof.
  intros Hk. apply ascending_pairs_ext; [apply sorted_pairs_ascending| |].
  - rewrite map_app. cbn. apply ascending_snoc. split; [apply sorted_pairs_ascending|].
    apply Forall_forall. intros x ([k' v'] & -> & Hx%sorted_pairs_elem)%list_elem_of_fmap. cbn in *. apply Hk. by exists v'.
  - intros [k' v']. rewrite elem_of_app, list_elem_of_singleton, !sorted_pairs_elem. cbn. rewrite lookup_insert_Some. split.
    + intros [[-> ->]|[Hne H]]; [by right|by left].
    + intros [H|[= -> ->]]; [|by left]. right. split; [|done]. intros <-. specialize (Hk k ltac:(by exists v')). lia.
Qed.

Lemma sorted_pairs_empty (m : gmap Z V) : m = ∅ <-> sorted_pairs m = [].
Proof.
  split; [by intros ->|]. intros H. apply map_eq. intros k. rewrite lookup_empty. destruct (m !! k) as [v|] eqn:E; [|done].
  assert ((k, v) ∈ sorted_pairs m) as Hin by (by apply sorted_pairs_elem). rewrite H in Hin. by apply elem_of_nil in Hin.
Qed.
End Held.

(** ** The blocks of the join *)

Definition waiting (j : FinalizedFooterJoin) : list Core := map (fun e => core (a_prepared (snd e))) (awaiting j).
Definition unidentified (j : FinalizedFooterJoin) : list Core := map (fun e => core (snd e)) (held_blocks j).
Definition queue (j : FinalizedFooterJoin) : list Core := waiting j ++ unidentified j.

(** The keys of the two ordered maps are the slots of their blocks. *)
Definition keyed (j : FinalizedFooterJoin) : Prop :=
  Forall (fun e => fst (fst e) = c_slot (core (a_prepared (snd e)))) (awaiting j) /\
  map_Forall (fun slot p => slot = c_slot (core p)) (pending_identity j).

(** What an operation on the join may change without moving a block. *)
Definition blocks_same (j j' : FinalizedFooterJoin) : Prop :=
  awaiting j' = awaiting j /\ pending_identity j' = pending_identity j.

Lemma blocks_same_queue j j' : blocks_same j j' -> queue j' = queue j /\ (keyed j -> keyed j').
Proof. intros [E1 E2]. unfold queue, waiting, unidentified, held_blocks, keyed. by rewrite E1, E2. Qed.

Lemma prune_same j j' r : prune j = (j', r) -> blocks_same j j'.
Proof. unfold prune. case_match; by intros [= <- <-]. Qed.

Lemma observe_footer_same f j : blocks_same j (fst (observe_footer f j)).
Proof. unfold observe_footer. by repeat case_match. Qed.

Lemma observe_slot_same s j j' r : observe_slot s j = (j', r) -> blocks_same j j'.
Proof.
  unfold observe_slot. destruct (sl_status s) as [st|]; [|by intros [= <- <-]].
  destruct (observe_identity _ st _ j) as [j1 [[]|e]] eqn:E; assert (H1 : blocks_same j j1).
  - unfold observe_identity in E. repeat (case_match; simplify_eq/=); done.
  - assert (Hgo : forall j2 r2, (j2, r2) = (j', r) -> blocks_same j1 j2 -> blocks_same j j').
    { intros j2 r2 [= <- <-] [? ?]. destruct H1. split; congruence. }
    repeat case_match; intros Heq; eapply Hgo; (exact Heq || done).
  - unfold observe_identity in E. repeat (case_match; simplify_eq/=); done.
  - by intros [= <- <-].
Qed.

Lemma observe_other_same u j j' r : observe_other u j = (j', r) -> blocks_same j j'.
Proof.
  destruct u; cbn [observe_other]; try apply prune_same. destruct (observe_slot s j) as [j1 [[]|e]] eqn:E; [|by intros [= <- <-]; apply (observe_slot_same _ _ _ _ E)].
  intros [E1 E2]%prune_same. apply observe_slot_same in E as [E3 E4]. split; congruence.
Qed.

(** A block above every held one goes to the end of the queue. *)
Lemma stage_queue p bytes j j' :
  keyed j -> (forall c, c ∈ unidentified j -> c_slot c < c_slot (core p)) ->
  stage_identity_block p bytes j = (j', Ok tt) -> queue j' = queue j ++ [core p] /\ keyed j'.
Proof.
  intros [K1 K2] Hlt. unfold stage_identity_block. repeat (case_bool_decide || case_match; [done|]). intros Hp.
  destruct (prune_same _ _ _ Hp) as [E1 E2]. cbn in E1, E2. unfold queue, waiting, unidentified, keyed, held_blocks. rewrite E1, E2.
  fold (sorted_pairs (pending_identity j)). 
  set (p' := mkPrepared (p_metadata p) (p_transactions p) (p_entries p) bytes).
  split_and!; [|done|].
  - change (sort_by_key (map_to_list (<[m_slot (p_metadata p):=p']> (pending_identity j)))) with (sorted_pairs (<[m_slot (p_metadata p):=p']> (pending_identity j))).
    rewrite sorted_pairs_insert, map_app, app_assoc; [done|]. intros x [q Hq].
    specialize (Hlt (core q)). pose proof (K2 x q Hq) as ->. apply Hlt. unfold unidentified. apply list_elem_of_fmap. exists (c_slot (core q), q). split; [done|].
    by apply sorted_pairs_elem.
  - apply map_Forall_insert_2; done.
Qed.

(** ** From held to waiting to buffered *)

Lemma identities_spec l j : forall ready,
  identities l j = Ok (Some ready) ->
  map fst ready = map snd l /\
  Forall (fun e => exists slot, (slot, fst e) ∈ l /\ block_identity slot (default 0 (m_bank_id (p_metadata (fst e)))) j = Ok (snd e)) ready.
Proof.
  induction l as [|[slot p] l IH]; intros ready H; cbn [identities] in H; [injection H as <-; split; [done|constructor]|].
  destruct (block_identity slot _ j) as [i|] eqn:Ei; cbn [rbind] in H; [|done]. case_bool_decide; [done|].
  destruct (identities l j) as [[rest|]|] eqn:E; cbn [rbind] in H; [|done|done]. injection H as <-. destruct (IH _ eq_refl) as [H1 H2].
  split; [cbn; by f_equal|]. constructor; [exists slot; split; [by left|done]|].
  eapply Forall_impl; [exact H2|]. intros e (s & Hs & Hi). exists s. split; [by right|done].
Qed.

Lemma take_ready_spec j j' ready :
  take_ready_blocks j = (j', Ok ready) ->
  (ready = [] /\ j' = j) \/
  (j' = set_identity ∅ 0 j /\ map fst ready = map snd (held_blocks j) /\
   Forall (fun e => exists slot, (slot, fst e) ∈ held_blocks j /\
     block_identity slot (default 0 (m_bank_id (p_metadata (fst e)))) j = Ok (snd e)) ready).
Proof.
  unfold take_ready_blocks. destruct (identities (held_blocks j) j) as [[l|]|] eqn:E; intros [= <- <-]; [right|by left].
  destruct (identities_spec _ _ _ E). done.
Qed.

Lemma insert_awaiting_last e l :
  (forall x, x ∈ l -> fst (fst x) < fst (fst e)) -> insert_awaiting e l = l ++ [e].
Proof.
  induction l as [|a l IH]; intros H; cbn; [done|]. rewrite bool_decide_eq_false_2.
  - f_equal. apply IH. intros x Hx. apply H. by right.
  - unfold await_le. specialize (H a ltac:(by left)). lia.
Qed.

Lemma await_footer_spec p i now j j' :
  await_footer p i now j = (j', Ok tt) ->
  exists bank_id, (i = Legacy /\ bank_id = None \/ exists id, i = Bank id /\ bank_id = Some id) /\
    (forall id winner, bank_id = Some id -> finalized j !! m_slot (p_metadata p) = Some winner -> winner = id) /\
    j' = set_awaiting (insert_awaiting (m_slot (p_metadata p), awaiting_seq j + 1,
           mkAwaiting (mkPrepared (set_bank_id bank_id (p_metadata p)) (p_transactions p) (p_entries p) (p_encoded_bytes p))
             bank_id (now + footer_wait j)) (awaiting j))
         (Z.min usize_max (awaiting_bytes j + p_encoded_bytes p)) (awaiting_seq j + 1) j.
Proof.
  unfold await_footer. destruct i as [| |id]; [done| |].
  - cbn. intros [= <-]. exists None. split_and!; [by left|done|done].
  - destruct (finalized j !! m_slot (p_metadata p)) as [winner|] eqn:Ef; cbn [negb].
    + destruct (Z.eqb_spec winner id) as [->|]; cbn [negb]; intros [= <-]. exists (Some id). split_and!; [right; by exists id|congruence|done].
    + intros [= <-]. exists (Some id). split_and!; [right; by exists id|congruence|done].
Qed.

Lemma await_all_queue ready now : forall j j',
  await_all ready now j = (j', Ok tt) -> keyed j -> StronglySorted core_lt (waiting j ++ map (fun e => core (fst e)) ready) ->
  waiting j' = waiting j ++ map (fun e => core (fst e)) ready /\ pending_identity j' = pending_identity j /\ keyed j'.
Proof.
  induction ready as [|[p i] ready IH]; intros j j' H K Hs; cbn [await_all] in H.
  { injection H as <-. cbn. by rewrite app_nil_r. }
  destruct (await_footer p i now j) as [j1 [[]|]] eqn:Ea; [|done]. apply await_footer_spec in Ea as (bank_id & _ & _ & ->).
  cbn [map fst] in Hs. destruct K as [K1 K2].
  assert (Hlast : forall x, x ∈ awaiting j -> fst (fst x) < m_slot (p_metadata p)).
  { intros x Hx. rewrite (proj1 (Forall_forall _ _) K1 x Hx).
    apply (sorted_between _ _ _ (core (a_prepared (snd x))) (core p) Hs); [|by left]. unfold waiting. apply list_elem_of_fmap. by exists x. }
  rewrite insert_awaiting_last in H by done. change (core p :: map (fun e => core (fst e)) ready) with ([core p] ++ map (fun e => core (fst e)) ready) in *.
  destruct (IH _ _ H) as (E1 & E2 & E3).
  - split; [|done]. cbn. apply Forall_app. split; [done|]. constructor; [done|constructor].
  - unfold waiting in *. cbn. rewrite map_app. cbn. by rewrite <- app_assoc.
  - split_and!; [|done|done]. rewrite E1. unfold waiting. cbn. rewrite map_app. cbn. by rewrite <- app_assoc.
Qed.

Lemma ready_queue j j1 j2 ready now :
  take_ready_blocks j = (j1, Ok ready) -> await_all ready now j1 = (j2, Ok tt) -> keyed j -> StronglySorted core_lt (queue j) ->
  queue j2 = queue j /\ keyed j2.
Proof.
  intros Ht Ha K Hs. apply take_ready_spec in Ht as [[-> ->]|(-> & Em & _)].
  - cbn in Ha. by injection Ha as <-.
  - assert (Ec : map (fun e => core (fst e)) ready = unidentified j).
    { unfold unidentified. rewrite <- (map_map fst core), Em, map_map. done. }
    destruct (await_all_queue _ _ _ _ Ha) as (E1 & E2 & E3).
    + destruct K. split; [done|]. apply map_Forall_empty.
    + by rewrite Ec.
    + split; [|done]. unfold queue. rewrite E1, Ec. unfold unidentified at 2, held_blocks. rewrite E2. cbn. by rewrite app_nil_r.
Qed.

(** A block leaves the wait with its own row or with the footer of its finalized bank. *)
Definition released (j : FinalizedFooterJoin) (e : Z * Z * AwaitingFooter) (row : BlockMetadataRow) : Prop :=
  row = p_metadata (a_prepared (snd e)) \/
  exists id f, a_bank_id (snd e) = Some id /\ finalized j !! fst (fst e) = Some id /\ pending j !! (fst (fst e), id) = Some f /\
    row = apply_footer f (p_metadata (a_prepared (snd e))).

Lemma released_mono j j' e row :
  finalized j' = finalized j -> pending j' ⊆ pending j -> released j' e row -> released j e row.
Proof.
  intros Ef Hp [?|(id & f & H1 & H2 & H3 & H4)]; [by left|right]. exists id, f. rewrite <- Ef. split_and!; try done. by eapply lookup_weaken.
Qed.

(** What a release does: a prefix of the waiting blocks is appended to the buffers. *)
Record releases (include_entries : bool) (j : FinalizedFooterJoin) (r : BufferedRows) (j' : FinalizedFooterJoin) (r' : BufferedRows) : Prop := {
  rl_moved : exists moved new, awaiting j = moved ++ awaiting j' /\ Forall2 (released j) moved new /\
    block_rows r' = block_rows r ++ new /\
    transaction_rows r' = transaction_rows r ++ concat (map (fun e => p_transactions (a_prepared (snd e))) moved) /\
    entry_rows r' = entry_rows r ++ (if include_entries then concat (map (fun e => p_entries (a_prepared (snd e))) moved) else []);
  rl_pending : pending j' ⊆ pending j;
  rl_rest : exists bytes, j' = set_awaiting (awaiting j') bytes (awaiting_seq j) (set_pending (pending j') j);
  rl_last : last_durable_block_slot r' = last_durable_block_slot r;
  rl_ceiling : footer_merge_ceiling r' = footer_merge_ceiling r;
}.

Lemma releases_refl b j r : releases b j r j r.
Proof.
  constructor; [|done| |done|done].
  - exists [], []. cbn. rewrite !app_nil_r. split_and!; [done|constructor|done|done|by destruct b; rewrite app_nil_r].
  - exists (awaiting_bytes j). by destruct j.
Qed.

Lemma releases_step b j r slot seq entry rest bytes pend row j' r' :
  awaiting j = (slot, seq, entry) :: rest -> pend ⊆ pending j -> released j (slot, seq, entry) row ->
  releases b (set_awaiting rest bytes (awaiting_seq j) (set_pending pend j))
    (append_block (mkPrepared row (p_transactions (a_prepared entry)) (p_entries (a_prepared entry)) 0) b r) j' r' ->
  releases b j r j' r'.
Proof.
  intros Ea Hp Hr [(moved & new & M1 & M2 & M3 & M4 & M5) P [bytes' R] L C]. cbn in *. constructor; [| | |done|done].
  - exists ((slot, seq, entry) :: moved), (row :: new). split_and!.
    + rewrite Ea. cbn. by rewrite M1.
    + constructor; [done|]. eapply Forall2_impl; [exact M2|]. intros e row'. by apply released_mono.
    + rewrite M3. by rewrite <- app_assoc.
    + rewrite M4. cbn. by rewrite <- app_assoc.
    + rewrite M5. destruct b; cbn; by rewrite <- ?app_assoc.
  - by etrans.
  - exists bytes'. rewrite R at 1. done.
Qed.

Lemma release_loop_spec fuel now mode b : forall j r j' r',
  release_loop fuel now mode b j r = (j', r') -> releases b j r j' r'.
Proof.
  induction fuel as [|fuel IH]; intros j r j' r' H; cbn [release_loop] in H; [injection H as <- <-; apply releases_refl|].
  destruct (awaiting j) as [|[[slot seq] entry] rest] eqn:Ea; [injection H as <- <-; apply releases_refl|].
  destruct (negb _ && negb _)%bool; [injection H as <- <-; apply releases_refl|].
  assert (Hplain : forall bytes, release_loop fuel now mode b (set_awaiting rest bytes (awaiting_seq j) j) (append_block (a_prepared entry) b r) = (j', r') ->
    releases b j r j' r').
  { intros bytes Hl. apply (releases_step b j r slot seq entry rest bytes (pending j) (p_metadata (a_prepared entry))); [done|done|by left|]. apply IH. exact Hl. }
  destruct (a_bank_id entry) as [id|] eqn:Eb; [|by apply Hplain in H].
  destruct (footer_usable slot (Some id) j) eqn:Eu; [|by apply Hplain in H].
  destruct (pending j !! (slot, id)) as [f|] eqn:Ep; [|by apply Hplain in H].
  cbn [footer_usable] in Eu. apply andb_prop in Eu as [Ef%bool_decide_eq_true _].
  eapply (releases_step b j r slot seq entry rest _ (delete (slot, id) (pending j)) (apply_footer f (p_metadata (a_prepared entry)))).
  - done.
  - apply delete_subseteq.
  - right. by exists id, f.
  - apply IH. exact H.
Qed.

Lemma release_awaiting_spec now mode b j r j' r' :
  release_awaiting now mode b j r = (j', r') -> releases b j r j' r'.
Proof.
  unfold release_awaiting. case_bool_decide; [intros [= <- <-]; apply releases_refl|apply release_loop_spec].
Qed.

(** ** The received blocks and the tables *)

Section Ingest.
Context (codecs : Codecs)
  (fetch_stored_footers : list Z -> option (gmap Z FooterFields)) (args : GrpcArgs).

Local Abbreviation prepared := (prepared codecs (entries_configured args)).
Local Abbreviation stored := (stored (entries_configured args)).
Local Abbreviation buffered_entries := (buffered_entries (entries_configured args)).
Local Abbreviation progress := (progress codecs (entries_configured args)).
Local Abbreviation buffered := (buffered (entries_configured args)).
Local Abbreviation settled := (settled codecs (entries_configured args)).

(** ** The loop *)

(** A running process: the queue behind the buffers is what the join holds. *)
Definition running_ok (bs : list BlockMsg) (g : Grpc) : Prop :=
  exists done buf, progress bs done buf (queue (join g)) (rows g) (world g) /\ buffered done buf (rows g) (world g) /\ keyed (join g).

(** After a failed update or flush. *)
Definition halfway (bs : list BlockMsg) (g : Grpc) : Prop := exists done buf rest, progress bs done buf rest (rows g) (world g).

Lemma running_halfway bs g : running_ok bs g -> halfway bs g.
Proof. intros (done & buf & P & _). by exists done, buf, (queue (join g)). Qed.

Lemma released_rows j moved new : Forall2 (released j) moved new -> map strip new = map c_row (map (fun e => core (a_prepared (snd e))) moved).
Proof.
  induction 1 as [|e row moved new Hr _ IH]; cbn; [done|]. f_equal; [|done].
  by destruct Hr as [->|(id & f & _ & _ & _ & ->)].
Qed.

Lemma concat_cores {B} (f : PreparedBlock -> list B) (h : Core -> list B) moved :
  (forall p, h (core p) = f p) ->
  concat (map (fun e : Z * Z * AwaitingFooter => f (a_prepared (snd e))) moved) = concat (map h (map (fun e => core (a_prepared (snd e))) moved)).
Proof. intros H. f_equal. rewrite map_map. apply map_ext. intros e. by rewrite H. Qed.

Lemma release_running bs g now mode j' r' :
  running_ok bs g -> release_awaiting now mode (entries_configured args) (join g) (rows g) = (j', r') ->
  running_ok bs (mkGrpc j' r' (world g)) /\ pending_identity j' = pending_identity (join g).
Proof.
  intros (done & buf & P & [B1 B2 B3 B4] & [K1 K2]) [(moved & new & M1 & M2 & M3 & M4 & M5) _ [bytes R] L _]%release_awaiting_spec.
  assert (Epi : pending_identity j' = pending_identity (join g)) by (rewrite R; done).
  split; [|done]. set (cs := map (fun e => core (a_prepared (snd e))) moved).
  assert (Eq : queue (join g) = cs ++ queue j').
  { unfold queue, waiting, unidentified, held_blocks. rewrite M1, Epi, map_app, app_assoc. done. }
  assert (Hb : buffered done (buf ++ cs) r' (world g)).
  { constructor; [| | |done].
    - rewrite M3, !map_app, B1. f_equal. by apply (released_rows (join g)).
    - rewrite M4, map_app, concat_app, B2. f_equal. by apply concat_cores.
    - rewrite M5, B3. unfold buffered_entries. destruct (entries_configured args); [|done]. rewrite map_app, concat_app. f_equal. by apply concat_cores. }
  exists done, (buf ++ cs). cbn [join rows world]. split_and!; [|done|].
  - destruct P as [Hbl _ _ _ Hdone _ Hlast]. destruct Hb as [B1' B2' B3' B4']. constructor; [|by left|by left|by left|done|intros row Hrow; left; by apply B4'|by rewrite L].
    destruct Hbl as (ps & Hps & E). exists ps. split; [done|]. by rewrite E, Eq, <- !app_assoc.
  - split; [|by rewrite Epi]. rewrite M1 in K1. by apply Forall_app in K1 as [_ ?].
Qed.

Lemma flush_canonical_running bs g retries now mode g' res :
  running_ok bs g -> flush_canonical_rows fetch_stored_footers args retries now mode g = (g', res) ->
  (exists b, res = Ok b) /\ running_ok bs g' \/ (exists e, res = Err e) /\ halfway bs g'.
Proof.
  intros Hg. unfold flush_canonical_rows. destruct (release_awaiting _ _ _ _ _) as [j r] eqn:Er.
  destruct (release_running _ _ _ _ _ _ Hg Er) as [Hg1 _]. case_bool_decide; cbn [negb]; [|intros [= <- <-]; left; split; [by exists false|done]].
  destruct (flush _ _ _ _ _) as [[r1 w1] res1] eqn:Ef. intros [= <- <-]. destruct Hg1 as (done & buf & P & _ & K). cbn [join rows world] in *.
  destruct (flush_progress _ _ _ _ _ _ _ _ _ _ P Ef) as [[(e & ->) P']|(-> & P' & B')].
  - right. split; [by exists e|]. by exists done, buf, (queue j).
  - left. split; [by exists true|]. by exists (done ++ buf), [].
Qed.

Lemma flush_skip_halfway bs g retries now g' res :
  halfway bs g -> flush_canonical_rows fetch_stored_footers args retries now Skip g = (g', res) -> halfway bs g'.
Proof.
  intros (done & buf & rest & P). unfold flush_canonical_rows, release_awaiting. rewrite bool_decide_eq_true_2 by done.
  case_bool_decide; cbn [negb]; [|intros [= <- <-]; by exists done, buf, rest].
  destruct (flush _ _ _ _ _) as [[r1 w1] res1] eqn:Ef. intros [= <- <-].
  destruct (flush_progress _ _ _ _ _ _ _ _ _ _ P Ef) as [[_ P']|(_ & P' & _)]; [by exists done, buf, rest|by exists (done ++ buf), [], rest].
Qed.

Definition block_of (u : Update) : list BlockMsg := match u with BlockUpdate b _ => [b] | _ => [] end.

(** What an update leaves in the join, in the same order. *)
Lemma observe_running bs u g j' :
  running_ok bs g -> ascending (map bk_slot (bs ++ block_of u)) ->
  observe_update codecs args u (join g) = (j', Ok tt) ->
  running_ok (bs ++ block_of u) (mkGrpc j' (rows g) (world g)).
Proof.
  intros (done & buf & P & B & K) Ha H.
  assert (Hsame : blocks_same (join g) j' -> running_ok bs (mkGrpc j' (rows g) (world g))).
  { intros Hs. destruct (blocks_same_queue _ _ Hs) as [Eq Hk]. exists done, buf. cbn. rewrite Eq. auto. }
  destruct u as [b len|f|s|]; cbn [observe_update block_of] in *; rewrite ?app_nil_r.
  - destruct (rbind _ _) as [p|e] eqn:Ep; [|done].
    apply rbind_ok in Ep as (_ & _ & Ep). apply rbind_ok in Ep as (_ & _ & Ep). apply rbind_ok in Ep as (_ & _ & Ep). fold (prepared b p) in Ep.
    assert (Hlt : forall c, c ∈ unidentified (join g) -> c_slot c < c_slot (core p)).
    { intros c Hc. rewrite (prepared_slot _ _ Ep). destruct (progress_core _ _ _ _ _ _ c P) as (b' & Hb' & ->); [unfold queue; set_solver|].
      rewrite map_app in Ha. apply ascending_snoc in Ha as [_ Hf]. apply (proj1 (Forall_forall _ _) Hf). by apply list_elem_of_fmap_2. }
    destruct (stage_queue _ _ _ _ K Hlt H) as [Eq K']. exists done, buf. cbn [join rows world]. split_and!; [|done|done].
    destruct P as [(ps & Hps & E) P2 P3 P4 P5 P6 P7]. constructor; try done. exists (ps ++ [p]). split; [by apply Forall2_app; [|constructor]|].
    rewrite map_app, E, Eq, <- !app_assoc. done.
  - apply Hsame. apply prune_same in H as [E1 E2]. destruct (observe_footer_same f (join g)) as [E3 E4]. split; congruence.
  - apply Hsame. by eapply (observe_other_same (SlotUpdate s)).
  - apply Hsame. by eapply (observe_other_same OtherUpdate).
Qed.

Lemma process_inner_ok bs u now g g' res :
  running_ok bs g -> ascending (map bk_slot (bs ++ block_of u)) ->
  process_inner codecs fetch_stored_footers args u now g = (g', res) ->
  (res = Ok tt /\ running_ok (bs ++ block_of u) g') \/ ((exists e, res = Err e) /\ (halfway bs g' \/ halfway (bs ++ block_of u) g')).
Proof.
  intros Hg Ha. unfold process_inner. pose proof (running_halfway _ _ Hg) as Hhalf.
  assert (Hkeep : forall j, halfway bs (mkGrpc j (rows g) (world g))) by (intros j; exact Hhalf).
  destruct (observe_update _ _ _ _) as [j1 [[]|e]] eqn:Eo; [|intros [= <- <-]; right; split; [by exists e|by left]].
  pose proof (observe_running _ _ _ _ Hg Ha Eo) as (done & buf & P & B & K). cbn [join rows world] in *.
  destruct (take_ready_blocks j1) as [j2 [ready|e]] eqn:Et; [|intros [= <- <-]; right; split; [by exists e|by left]].
  destruct (await_all ready now j2) as [j3 [[]|e]] eqn:Ew; [|intros [= <- <-]; right; split; [by exists e|by left]].
  assert (Hs : StronglySorted core_lt (queue j1)).
  { pose proof (progress_sorted _ _ _ _ _ _ Ha P) as Hs. by apply sorted_part in Hs as [_ [_ Hs]%sorted_part]. }
  destruct (ready_queue _ _ _ _ _ Et Ew K Hs) as [Eq K3].
  assert (Hg3 : running_ok (bs ++ block_of u) (mkGrpc j3 (rows g) (world g))) by (exists done, buf; cbn; by rewrite Eq).
  destruct (release_awaiting _ _ _ _ _) as [j4 r4] eqn:Er. destruct (release_running _ _ _ _ _ _ Hg3 Er) as [Hg4 _]. cbn [world] in Hg4.
  destruct (_ && _)%bool; [|intros [= <- <-]; by left].
  destruct (flush_canonical_rows _ _ _ _ _ _) as [g5 res5] eqn:Ef. intros [= <- <-].
  destruct (flush_canonical_running _ _ _ _ _ _ _ Hg4 Ef) as [[(b & ->) H5]|[(e & ->) H5]]; [by left|right; split; [by exists e|by right]].
Qed.

Lemma settled_extend bs b w last : ascending (map bk_slot (bs ++ [b])) -> settled bs w last -> settled (bs ++ [b]) w last.
Proof.
  intros Ha [S1 S2 S3 S4]. rewrite map_app in Ha. apply ascending_snoc in Ha as [_ Hf].
  assert (Hlt : forall b', b' ∈ bs -> bk_slot b' < bk_slot b) by (intros b' Hb'; apply (proj1 (Forall_forall _ _) Hf); by apply list_elem_of_fmap_2).
  constructor.
  - intros b' row [Hb'| ->%list_elem_of_singleton]%elem_of_app Hrow Hle; [by apply (S1 b' row)|]. destruct (S3 row Hrow) as (b' & Hb' & Er). specialize (Hlt b' Hb'). lia.
  - intros b' d [Hb'| ->%list_elem_of_singleton]%elem_of_app Hd Hle; [by apply (S2 b' d)|]. destruct (S4 d Hd) as (b' & Hb' & Er). specialize (Hlt b' Hb'). lia.
  - intros row Hrow. destruct (S3 row Hrow) as (b' & Hb' & ?). exists b'. split; [set_solver|done].
  - intros d Hd. destruct (S4 d Hd) as (b' & Hb' & ?). exists b'. split; [set_solver|done].
Qed.

Lemma settled_extend_of bs u w last : ascending (map bk_slot (bs ++ block_of u)) -> settled bs w last -> settled (bs ++ block_of u) w last.
Proof. intros Ha Hs. destruct u; cbn in *; rewrite ?app_nil_r; try done. by apply settled_extend. Qed.

Lemma ascending_prefix (l k : list BlockMsg) : ascending (map bk_slot (l ++ k)) -> ascending (map bk_slot l).
Proof. rewrite map_app. by intros [? _]%sorted_part. Qed.

Lemma halfway_settled bs g : ascending (map bk_slot bs) -> halfway bs g -> settled bs (world g) (last_durable_block_slot (rows g)).
Proof. intros Ha (done & buf & rest & P). by apply (progress_settled bs done buf rest). Qed.

(** What holds of the process: it runs in order, or what it left behind is settled. *)
Definition run_ok (bs : list BlockMsg) (r : Run) : Prop :=
  match r with Running g => running_ok bs g | Returned g _ => settled bs (world g) (last_durable_block_slot (rows g)) end.

Definition blocks_of_event (e : Event) : list BlockMsg := match e with Received u _ => block_of u | _ => [] end.

Lemma process_ok bs u now g g' res :
  running_ok bs g -> ascending (map bk_slot (bs ++ block_of u)) ->
  process_canonical_update codecs fetch_stored_footers args u now g = (g', res) ->
  (res = Ok tt /\ running_ok (bs ++ block_of u) g') \/
  ((exists e, res = Err e) /\ settled (bs ++ block_of u) (world g') (last_durable_block_slot (rows g'))).
Proof.
  intros Hg Ha. unfold process_canonical_update. destruct (process_inner _ _ _ _ _ _) as [g1 res1] eqn:Ep.
  destruct (process_inner_ok _ _ _ _ _ _ Hg Ha Ep) as [[-> H1]|[(e & ->) H1]]; [intros [= <- <-]; by left|].
  assert (Hfin : forall g2, halfway bs g2 \/ halfway (bs ++ block_of u) g2 -> settled (bs ++ block_of u) (world g2) (last_durable_block_slot (rows g2))).
  { intros g2 [H2|H2]; [|by apply halfway_settled]. apply settled_extend_of; [done|]. apply halfway_settled; [by eapply ascending_prefix|done]. }
  destruct (match affected_slot u with Some slot => _ | None => _ end); [|intros [= <- <-]; right; split; [by exists e|by apply Hfin]].
  destruct (flush_canonical_rows _ _ _ _ _ _) as [g2 res2] eqn:Ef. intros [= <- <-]. right. split; [destruct res2; eauto|].
  apply Hfin. destruct H1 as [H1|H1]; [left|right]; by eapply flush_skip_halfway.
Qed.

Lemma step_run_ok bs r e :
  run_ok bs r -> ascending (map bk_slot (bs ++ blocks_of_event e)) ->
  run_ok (bs ++ blocks_of_event e) (grpc_step codecs fetch_stored_footers args r e).
Proof.
  intros Hr Ha. destruct r as [g|g res]; cbn [grpc_step run_ok] in *.
  2: { destruct e as [u now|now|now|now]; cbn [blocks_of_event] in *; rewrite ?app_nil_r; try done. by apply settled_extend_of. }
  assert (Hflush : forall retries now mode g' res, flush_canonical_rows fetch_stored_footers args retries now mode g = (g', res) ->
    settled bs (world g') (last_durable_block_slot (rows g')) /\ ((exists b, res = Ok b) -> running_ok bs g')).
  { intros retries now mode g' res Hf. assert (Ha' : ascending (map bk_slot bs)) by (by eapply ascending_prefix).
    destruct (flush_canonical_running _ _ _ _ _ _ _ Hr Hf) as [[? H1]|[(e' & ->) H1]].
    - split; [|done]. apply halfway_settled; [done|by apply running_halfway].
    - split; [by apply halfway_settled|]. by intros [? ?]. }
  destruct e as [u now|now|now|now]; cbn [blocks_of_event] in *.
  - destruct (process_canonical_update _ _ _ _ _ _) as [g' res] eqn:Ep. destruct (process_ok _ _ _ _ _ _ Hr Ha Ep) as [[-> H1]|[(e' & ->) H1]]; done.
  - rewrite app_nil_r. destruct (flush_canonical_rows _ _ _ _ _ _) as [g' [b|e']] eqn:Ef; destruct (Hflush _ _ _ _ _ Ef) as [H1 H2]; cbn; [apply H2; by exists b|done].
  - rewrite app_nil_r. destruct (flush_canonical_rows _ _ _ _ _ _) as [g' [b|e']] eqn:Ef; destruct (Hflush _ _ _ _ _ Ef) as [H1 H2]; done.
  - rewrite app_nil_r. destruct (flush_canonical_rows _ _ _ _ _ _) as [g' [b|e']] eqn:Ef; destruct (Hflush _ _ _ _ _ Ef) as [H1 H2]; done.
Qed.

Lemma run_events_ok events : forall bs r,
  run_ok bs r -> ascending (map bk_slot (bs ++ concat (map blocks_of_event events))) ->
  run_ok (bs ++ concat (map blocks_of_event events)) (foldl (grpc_step codecs fetch_stored_footers args) r events).
Proof.
  induction events as [|e events IH]; intros bs r Hr Ha; cbn [map concat foldl] in *; [by rewrite app_nil_r|].
  rewrite app_assoc in *. apply IH; [|done]. apply step_run_ok; [done|]. by eapply ascending_prefix.
Qed.

Lemma start_ok ceiling answers : run_ok [] (grpc_start ceiling answers).
Proof.
  assert (He : [] = buffered_entries []) by (unfold buffered_entries; by destruct (entries_configured args)).
  exists [], []. cbn [join rows world]. split_and!; [| |split; [constructor|apply map_Forall_empty]].
  - constructor; [exists []; split; [constructor|done]|by left|by left|by left|constructor|by intros row Hr%elem_of_nil|done].
  - constructor; [done|done|done|by intros row Hr%elem_of_nil].
Qed.

(** C9: a restart of the streaming ingestor from its newest stored block loses no
    transaction.  Whatever the subscription sends, whenever it is flushed or fails, and
    whether the database stores, refuses or stores without acknowledging each insert: if the
    blocks come in slot order, then a received block at or below any stored metadata row has
    its own metadata row and all of its transactions in the tables, and one at or below the
    slot the process reports durable has its entries stored too. *)
Theorem grpc_restart_complete ceiling answers events b :
  ascending (map bk_slot (concat (map blocks_of_event events))) -> b ∈ concat (map blocks_of_event events) ->
  let g := run_grpc (grpc_run codecs fetch_stored_footers args ceiling answers events) in
  (forall row, row ∈ block_table (world g) -> bk_slot b <= m_slot row -> exists p, prepared b p /\ announced (world g) (core p)) /\
  (forall d, last_durable_block_slot (rows g) = Some d -> bk_slot b <= d -> exists p, prepared b p /\ stored (world g) (core p)).
Proof.
  intros Ha Hb g. pose proof (run_events_ok events [] _ (start_ok ceiling answers) Ha) as Hrun. cbn [app] in Hrun. fold (grpc_run codecs fetch_stored_footers args ceiling answers events) in Hrun.
  assert (Hs : settled (concat (map blocks_of_event events)) (world g) (last_durable_block_slot (rows g))).
  { unfold g. destruct (grpc_run _ _ _ _ _ _) as [g1|g1 res]; cbn [run_ok run_grpc] in *; [|done]. apply halfway_settled; [done|by apply running_halfway]. }
  destruct Hs as [S1 S2 _ _]. split; [intros row; by apply S1|intros d; by apply S2].
Qed.
End Ingest.
