(* ===== verification/IngestGrpcTruth.v ===== *)
(** * IngestGrpcTruth: the identity and footer columns are the subscription's

    Every row the streaming ingestor buffers or stores carries the bank identity that the
    subscription proved for its slot, and footer columns only from a footer of that bank once
    the slot was finalized as that bank, or from the stored copy of the slot.  And what the
    join holds stays bounded. *)

From S2P Require Import Prelude Text Sdk IngestTx IngestBlock IngestBlockSound IngestTables IngestGrpc IngestGrpcSound.

Open Scope list_scope.
Open Scope Z_scope.

Section Evidence.
Context (us : list Update).

(** What the updates of a subscription say about a slot. *)
Definition seen_bank (slot id : Z) : Prop :=
  exists st, SlotUpdate (mkSlotMsg slot (Some st) (Some id)) ∈ us /\ bank_status st = true.
Definition seen_legacy (slot : Z) : Prop :=
  exists st, SlotUpdate (mkSlotMsg slot (Some st) None) ∈ us /\ settles_legacy st = true.
Definition seen_final (slot id : Z) : Prop := SlotUpdate (mkSlotMsg slot (Some Finalized) (Some id)) ∈ us.
Definition seen_footer (slot id : Z) (f : FooterFields) : Prop :=
  exists m, FooterUpdate m ∈ us /\ fo_slot m = slot /\ fo_bank_id m = id /\ map_block_footer m = Ok f.

(** The identity of a stored block: a bank id that is not the default of its field or that a
    status update named, or a slot whose status updates carry no bank. *)
Definition identified (slot : Z) (bank_id : option Z) : Prop :=
  match bank_id with Some id => id <> 0 \/ seen_bank slot id | None => seen_legacy slot end.

Record join_true (j : FinalizedFooterJoin) : Prop := {
  jt_banks x : x ∈ known_banks j -> seen_bank (fst x) (snd x);
  jt_legacy x : x ∈ legacy_slots j -> seen_legacy x;
  jt_finalized slot id : finalized j !! slot = Some id -> seen_final slot id;
  jt_pending slot id f : pending j !! (slot, id) = Some f -> seen_footer slot id f;
}.

Lemma join_true_sub j j' :
  join_true j -> known_banks j' ⊆ known_banks j -> legacy_slots j' ⊆ legacy_slots j ->
  finalized j' ⊆ finalized j -> pending j' ⊆ pending j -> join_true j'.
Proof.
  intros [J1 J2 J3 J4] H1 H2 H3 H4. constructor; [set_solver|set_solver| |].
  - intros slot id H. apply J3. by eapply lookup_weaken.
  - intros slot id f H. apply J4. by eapply lookup_weaken.
Qed.

Lemma prune_true j j' r : prune j = (j', r) -> join_true j -> join_true j'.
Proof.
  unfold prune. intros H J. case_match; injection H as <- <-; apply (join_true_sub j); cbn; try done; try apply map_filter_subseteq; set_solver.
Qed.

Lemma observe_footer_true m j : FooterUpdate m ∈ us -> join_true j -> join_true (fst (observe_footer m j)).
Proof.
  intros Hm J. unfold observe_footer. case_bool_decide; [done|]. destruct (map_block_footer m) as [f|] eqn:Ef; [|done].
  assert (J' : join_true (set_highest (Z.max (highest_slot j) (fo_slot m)) (set_footer_seen
      (Some (match min_footer_slot j with Some x => Z.min x (fo_slot m) | None => fo_slot m end)) j))) by (destruct J; by constructor).
  match goal with |- context [if ?c then _ else _] => destruct c end; [done|]. destruct J' as [J1 J2 J3 J4]. constructor; cbn in *; [done|done|done|].
  intros slot id f'. rewrite lookup_insert_Some. intros [[[= <- <-] <-]|[_ Hp]]; [by exists m|by apply J4].
Qed.

Lemma observe_slot_true s j j' r : SlotUpdate s ∈ us -> observe_slot s j = (j', r) -> join_true j -> join_true j'.
Proof.
  intros Hs H J. destruct s as [slot [st|] bank]; cbn in H; [|by injection H as <- <-].
  destruct (observe_identity slot st bank j) as [j1 r1] eqn:Ei.
  assert (J1 : join_true j1).
  { unfold observe_identity in Ei. destruct (bank_status st) eqn:Eb; cbn [negb] in Ei; [|by injection Ei as <- <-]. destruct J as [K1 K2 K3 K4].
    destruct bank as [id|].
    - case_bool_decide; injection Ei as <- <-; constructor; cbn; try done. intros x [->%elem_of_singleton|Hx]%elem_of_union; [cbn; by exists st|by apply K1].
    - destruct (settles_legacy st) eqn:El; [|injection Ei as <- <-; by constructor]. destruct (existsb _ _); injection Ei as <- <-; constructor; cbn; try done.
      intros x [->%elem_of_singleton|Hx]%elem_of_union; [by exists st|by apply K2]. }
  destruct r1 as [[]|e]; [|by injection H as <- <-]. destruct st; try (by injection H as <- <-).
  - destruct bank as [id|]; [|by injection H as <- <-]. destruct (negb _); injection H as <- <-; [done|]. destruct J1 as [K1 K2 K3 K4]. constructor; cbn; [done|done| |].
    + intros slot' id'. rewrite lookup_insert_Some. intros [[<- <-]|[_ H]]; [done|by apply K3].
    + intros slot' id' f [H _]%map_lookup_filter_Some. by apply K4.
  - injection H as <- <-. apply (join_true_sub j1); cbn; try done. apply map_filter_subseteq.
Qed.

Lemma observe_other_true u j j' r : u ∈ us -> observe_other u j = (j', r) -> join_true j -> join_true j'.
Proof.
  intros Hu H J. destruct u; cbn [observe_other] in H; try (by eapply prune_true). destruct (observe_slot s j) as [j1 [[]|e]] eqn:Es.
  - eapply prune_true; [exact H|]. by eapply observe_slot_true.
  - injection H as <- <-. by eapply observe_slot_true.
Qed.

(** ** Rows *)

Context (codecs : Codecs)
  (fetch_stored_footers : list Z -> option (gmap Z FooterFields)) (args : GrpcArgs).

Local Abbreviation prepared_ := (prepared codecs (entries_configured args)).

(** A row of a streamed block, with the identity the subscription proved for the bank the
    block names. *)
Definition streamed (row : BlockMetadataRow) : Prop :=
  exists b len p, BlockUpdate b len ∈ us /\ prepared_ b p /\ strip row = strip (p_metadata p) /\
    default 0 (m_bank_id row) = bk_bank_id b.

Definition footer_absent (row : BlockMetadataRow) : Prop :=
  m_bank_hash row = None /\ m_producer_time_nanos row = None /\ m_user_agent row = None.
Definition has_footer (f : FooterFields) (row : BlockMetadataRow) : Prop :=
  m_bank_hash row = Some (f_bank_hash f) /\ m_producer_time_nanos row = Some (f_producer_time_nanos f) /\
  m_user_agent row = Some (f_user_agent f).

(** A footer of the slot's finalized bank, or the stored copy of the slot. *)
Definition footer_true (row : BlockMetadataRow) (f : FooterFields) : Prop :=
  (exists id, m_bank_id row = Some id /\ seen_final (m_slot row) id /\ seen_footer (m_slot row) id f) \/
  (exists slots found, fetch_stored_footers slots = Some found /\ found !! m_slot row = Some f).

Record row_true (row : BlockMetadataRow) : Prop := {
  rt_streamed : streamed row;
  rt_identified : identified (m_slot row) (m_bank_id row);
  rt_footer : footer_absent row \/ exists f, has_footer f row /\ footer_true row f;
}.

Record held_true (slot : Z) (p : PreparedBlock) : Prop := {
  ht_slot : slot = m_slot (p_metadata p);
  ht_streamed : streamed (p_metadata p);
  ht_footer : footer_absent (p_metadata p);
}.

Record await_true (e : Z * Z * AwaitingFooter) : Prop := {
  at_slot : fst (fst e) = m_slot (p_metadata (a_prepared (snd e)));
  at_bank : a_bank_id (snd e) = m_bank_id (p_metadata (a_prepared (snd e)));
  at_streamed : streamed (p_metadata (a_prepared (snd e)));
  at_identified : identified (fst (fst e)) (a_bank_id (snd e));
  at_footer : footer_absent (p_metadata (a_prepared (snd e)));
}.

Record truthful (g : Grpc) : Prop := {
  tr_join : join_true (join g);
  tr_held : map_Forall held_true (pending_identity (join g));
  tr_await : Forall await_true (awaiting (join g));
  tr_rows : Forall row_true (block_rows (rows g));
  tr_table : Forall row_true (block_table (world g));
}.

Lemma prepared_row b len p : BlockUpdate b len ∈ us -> prepared_ b p -> streamed (p_metadata p) /\ footer_absent (p_metadata p).
Proof.
  intros Hb Hp. pose proof Hp as H. unfold prepared, prepare_block, map_block_metadata in H. apply rbind_ok in H as (_ & _ & H). apply rbind_ok in H as (m & Hm & H).
  apply rbind_ok in H as (txs & _ & H). apply rbind_ok in H as (es & _ & [= E]).
  apply rbind_ok in Hm as (h & _ & Hm). apply rbind_ok in Hm as (ph & _ & Hm). apply rbind_ok in Hm as (rw & _ & [= Em]).
  split; [|subst p m; done]. exists b, len, p. split_and!; [done|done|done|]. subst p m. cbn. destruct (Z.eqb_spec (bk_bank_id b) 0) as [->|]; done.
Qed.

Lemma stage_true b len p j j' r :
  BlockUpdate b len ∈ us -> prepared_ b p -> join_true j -> map_Forall held_true (pending_identity j) ->
  stage_identity_block p len j = (j', r) ->
  join_true j' /\ map_Forall held_true (pending_identity j') /\ awaiting j' = awaiting j.
Proof.
  intros Hb Hp J Hh. destruct (prepared_row _ _ _ Hb Hp) as [Hs Hf]. unfold stage_identity_block.
  repeat (case_bool_decide || case_match; [by intros [= <- <-]|]). intros Hpr.
  destruct (prune_same _ _ _ Hpr) as [E1 E2]. cbn in E1, E2. split_and!; [|rewrite E2|done].
  - eapply prune_true; [exact Hpr|]. destruct J. by constructor.
  - apply map_Forall_insert_2; [|done]. constructor; done.
Qed.

Lemma identity_true slot scalar j i :
  join_true j -> block_identity slot scalar j = Ok i ->
  i = Unknown \/ exists bank_id, (i = Legacy /\ bank_id = None \/ i = Bank scalar /\ bank_id = Some scalar) /\
    identified slot bank_id /\ default 0 bank_id = scalar.
Proof.
  intros J. unfold block_identity. case_bool_decide as Hl.
  - unfold ensure. destruct (Z.eqb_spec scalar 0) as [->|]; cbn; [|done]. intros [= <-]. right. exists None. split_and!; [by left|by apply J|done].
  - destruct (negb (scalar =? 0) || _)%bool eqn:E; intros [= <-]; [|by left]. right. exists (Some scalar). split_and!; [by right| |done].
    cbn. apply orb_prop in E as [E|E]; zbool; [by left|right; by apply (jt_banks _ J (slot, scalar))].
Qed.

Lemma await_all_true ready now j0 : forall j j' r,
  join_true j0 ->
  Forall (fun e => exists slot, held_true slot (fst e) /\ block_identity slot (default 0 (m_bank_id (p_metadata (fst e)))) j0 = Ok (snd e)) ready ->
  Forall await_true (awaiting j) -> await_all ready now j = (j', r) ->
  Forall await_true (awaiting j') /\ pending_identity j' = pending_identity j /\
  known_banks j' = known_banks j /\ legacy_slots j' = legacy_slots j /\ finalized j' = finalized j /\ pending j' = pending j.
Proof.
  induction ready as [|[p i] ready IH]; intros j j' r J Hready Ha H; cbn [await_all] in H; [by injection H as <- <-|].
  apply Forall_cons in Hready as [(slot & Hh & Hi) Hready]. cbn [fst snd] in *.
  destruct (await_footer p i now j) as [j1 [[]|e]] eqn:Ea.
  - apply await_footer_spec in Ea as (bank & Hbank & _ & ->). destruct Hh as [Es (b & len & q & Hb & Hq & Est & Edf) (F1 & F2 & F3)].
    assert (Hid : identified slot bank /\ default 0 bank = bk_bank_id b).
    { rewrite Edf in Hi. destruct (identity_true _ _ _ _ J Hi) as [->|(bank' & Hb' & Hid & Ed)].
      - destruct Hbank as [[? _]|(? & ? & _)]; done.
      - assert (bank' = bank) as <-; [|done]. destruct Hbank as [[E1 E2]|(id & E1 & E2)], Hb' as [[E3 E4]|[E3 E4]]; congruence. }
    destruct Hid as [Hid Hdef].
    refine (IH _ _ _ J Hready _ H). cbn.
    assert (Hins : forall e l, await_true e -> Forall await_true l -> Forall await_true (insert_awaiting e l)).
    { intros e l He. induction 1 as [|x l Hx Hl IHl]; cbn; [by constructor|]. case_bool_decide; constructor; try done. by constructor. }
    apply Hins; [|done]. constructor; cbn; [done|done| |by rewrite <- Es|done]. exists b, len, q. split_and!; [done|done|exact Est|done].
  - injection H as <- <-. unfold await_footer in Ea. destruct i; [by injection Ea as <- _|done|]. case_match; by simplify_eq.
Qed.

Lemma released_true j e row : join_true j -> await_true e -> released j e row -> row_true row.
Proof.
  intros J [A1 A2 A3 A4 A5] [->|(id & f & Eb & Ef & Ep & ->)].
  - constructor; [done|by rewrite <- A1, <- A2|by left].
  - constructor.
    + destruct A3 as (b & len & p & ? & ? & ? & ?). by exists b, len, p.
    + cbn. by rewrite <- A1, <- A2.
    + right. exists f. split; [done|]. left. exists id. cbn. rewrite <- A1, <- A2. split_and!; [done|by apply (jt_finalized _ J)|by apply (jt_pending _ J)].
Qed.

Lemma release_true g now mode j' r' :
  truthful g -> release_awaiting now mode (entries_configured args) (join g) (rows g) = (j', r') -> truthful (mkGrpc j' r' (world g)).
Proof.
  intros [J H A R T] [(moved & new & M1 & M2 & M3 & _) P [bytes E] _ _]%release_awaiting_spec.
  assert (Hmove : Forall await_true moved /\ Forall await_true (awaiting j')) by (by rewrite M1, Forall_app in A). destruct Hmove as [Hm Ha'].
  constructor; cbn [join rows world]; [|by rewrite E|done| |done].
  - apply (join_true_sub (join g)); try done; by rewrite E.
  - rewrite M3. apply Forall_app. split; [done|]. clear -J M2 Hm. induction M2 as [|e row moved new Hr _ IH]; [constructor|].
    apply Forall_cons in Hm as [He Hm]. constructor; [by eapply released_true|by apply IH].
Qed.

Lemma merge_footer_true slots found row :
  fetch_stored_footers slots = Some found -> row_true row -> row_true (merge_footer found row).
Proof.
  intros Hf [S I F]. unfold merge_footer. destruct (m_bank_hash row) eqn:Eh; [by constructor|].
  destruct (found !! m_slot row) as [f|] eqn:Ef; [|by constructor]. constructor.
  - destruct S as (b & len & p & ? & ? & ? & ?). by exists b, len, p.
  - done.
  - right. exists f. split; [done|]. right. by exists slots, found.
Qed.

Lemma flush_true retries r w r' w' res :
  Forall row_true (block_rows r) -> Forall row_true (block_table w) ->
  flush fetch_stored_footers (entries_configured args) retries r w = (r', w', res) ->
  Forall row_true (block_rows r') /\ Forall row_true (block_table w').
Proof.
  intros Hr Ht Hf. apply flush_spec in Hf as (B & _ & HB & _ & F & _). pose proof F as [_ F2 _ _ _ _ F7 _ _].
  assert (HBt : Forall row_true B).
  { destruct HB as [->|(slots & found & Hfetch & ->)]; [done|]. apply Forall_map. eapply Forall_impl; [exact Hr|]. intros row. by apply (merge_footer_true slots). }
  split; [destruct F2 as [->|[-> _]]; [done|constructor]|]. apply Forall_forall. intros row Hrow.
  destruct (F7 row Hrow) as [?|(? & _)]; [by apply (proj1 (Forall_forall _ _) Ht)|by apply (proj1 (Forall_forall _ _) HBt)].
Qed.

Lemma flush_canonical_true retries now mode g g' res :
  truthful g -> flush_canonical_rows fetch_stored_footers args retries now mode g = (g', res) -> truthful g'.
Proof.
  intros Hg. unfold flush_canonical_rows. destruct (release_awaiting _ _ _ _ _) as [j r] eqn:Er. pose proof (release_true _ _ _ _ _ Hg Er) as Hg1.
  case_bool_decide; cbn [negb]; [|by intros [= <- <-]]. destruct (flush _ _ _ _ _) as [[r1 w1] res1] eqn:Ef. intros [= <- <-].
  destruct Hg1 as [J Hh A R T]. destruct (flush_true _ _ _ _ _ _ R T Ef). by constructor.
Qed.

Lemma observe_update_true u g j' r :
  u ∈ us -> truthful g -> observe_update codecs args u (join g) = (j', r) ->
  truthful (mkGrpc j' (rows g) (world g)).
Proof.
  intros Hu [J H A R T] Ho.
  assert (Hsame : blocks_same (join g) j' -> join_true j' -> truthful (mkGrpc j' (rows g) (world g))).
  { intros [E1 E2] J'. constructor; cbn; [done|by rewrite E2|by rewrite E1|done|done]. }
  destruct u as [b len|f|s|]; cbn [observe_update] in Ho.
  - destruct (rbind _ _) as [p|e] eqn:Ep; [|injection Ho as <- <-; by constructor].
    apply rbind_ok in Ep as (_ & _ & Ep). apply rbind_ok in Ep as (_ & _ & Ep). apply rbind_ok in Ep as (_ & _ & Ep).
    destruct (stage_true _ _ _ _ _ _ Hu Ep J H Ho) as (J' & H' & A'). constructor; cbn; [done|done|by rewrite A'|done|done].
  - apply Hsame; [|by eapply prune_true, observe_footer_true].
    apply prune_same in Ho as [E1 E2]. destruct (observe_footer_same f (join g)) as [E3 E4]. split; congruence.
  - apply Hsame; [by eapply (observe_other_same (SlotUpdate s))|by eapply observe_other_true].
  - apply Hsame; [by eapply (observe_other_same OtherUpdate)|by eapply observe_other_true].
Qed.

Lemma process_inner_true u now g g' res :
  u ∈ us -> truthful g ->
  process_inner codecs fetch_stored_footers args u now g = (g', res) -> truthful g'.
Proof.
  intros Hu Hg. unfold process_inner. destruct (observe_update _ _ _ _) as [j1 r1] eqn:Eo. pose proof (observe_update_true _ _ _ _ Hu Hg Eo) as H1.
  destruct r1 as [[]|e]; [|by intros [= <- <-]].
  destruct (take_ready_blocks j1) as [j2 [ready|e]] eqn:Et; [|unfold take_ready_blocks in Et; repeat (case_match; simplify_eq); by intros [= <- <-]].
  destruct (await_all ready now j2) as [j3 r3] eqn:Ew. destruct H1 as [J Hh A R T]. cbn [join rows world] in *.
  assert (H3 : truthful (mkGrpc j3 (rows g) (world g))).
  { apply take_ready_spec in Et as [[-> ->]|(-> & _ & Hready)]; [cbn in Ew; injection Ew as <- <-; by constructor|].
    destruct (await_all_true ready now j1 (set_identity ∅ 0 j1) j3 r3 J) as (A3 & E1 & E2 & E3 & E4 & E5); [|done|done|].
    - eapply Forall_impl; [exact Hready|]. intros e (slot & Hin & Hid). exists slot. split; [|done]. apply sorted_pairs_elem in Hin. by apply (Hh slot).
    - constructor; cbn [join rows world]; [|rewrite E1; apply map_Forall_empty|done|done|done].
      apply (join_true_sub j1); [done|by rewrite E2|by rewrite E3|by rewrite E4|by rewrite E5]. }
  destruct r3 as [[]|e]; [|by intros [= <- <-]].
  destruct (release_awaiting _ _ _ _ _) as [j4 r4] eqn:Er. pose proof (release_true (mkGrpc j3 (rows g) (world g)) _ _ _ _ H3 Er) as H4. cbn [world] in H4.
  destruct (_ && _)%bool; [|by intros [= <- <-]]. destruct (flush_canonical_rows _ _ _ _ _ _) as [g5 res5] eqn:Ef. intros [= <- <-].
  by eapply flush_canonical_true.
Qed.
End Evidence.

(** ** Over a run *)

Definition updates_of (events : list Event) : list Update :=
  omap (fun e => match e with Received u _ => Some u | _ => None end) events.

Section Runs.
Context (codecs : Codecs)
  (fetch_stored_footers : list Z -> option (gmap Z FooterFields)) (args : GrpcArgs).

Lemma step_true us e r :
  (forall u now, e = Received u now -> u ∈ us) ->
  truthful us codecs fetch_stored_footers args (run_grpc r) ->
  truthful us codecs fetch_stored_footers args
    (run_grpc (grpc_step codecs fetch_stored_footers args r e)).
Proof.
  intros Hu Hr. destruct r as [g|g res]; cbn [grpc_step run_grpc] in *; [|done].
  assert (Hflush : forall retries now mode g' res, flush_canonical_rows fetch_stored_footers args retries now mode g = (g', res) ->
    truthful us codecs fetch_stored_footers args g') by (intros; by eapply flush_canonical_true).
  destruct e as [u now|now|now|now]; cbn [grpc_step].
  - assert (Hp : truthful us codecs fetch_stored_footers args
      (fst (process_canonical_update codecs fetch_stored_footers args u now g))).
    { unfold process_canonical_update. destruct (process_inner _ _ _ _ _ _) as [g1 res1] eqn:Ep.
      pose proof (process_inner_true _ _ _ _ _ _ _ _ _ (Hu u now eq_refl) Hr Ep) as H1. destruct res1 as [[]|err]; [done|].
      destruct (match affected_slot u with Some slot => _ | None => _ end); [|done].
      destruct (flush_canonical_rows _ _ _ _ _ _) as [g2 res2] eqn:Ef. cbn. by eapply flush_canonical_true. }
    destruct (process_canonical_update _ _ _ _ _ _) as [g' [[]|err]]; done.
  - destruct (flush_canonical_rows _ _ _ _ _ _) as [g' [b|err]] eqn:Ef; by eapply Hflush.
  - destruct (flush_canonical_rows _ _ _ _ _ _) as [g' [b|err]] eqn:Ef; by eapply Hflush.
  - destruct (flush_canonical_rows _ _ _ _ _ _) as [g' [b|err]] eqn:Ef; by eapply Hflush.
Qed.

(** C28: the ingestor stores what the subscription proved.  Every metadata row in the table is
    the row of a received, complete block; its bank id is the block's, and is either not the
    default of its field or named by a status update of the slot, and absent only where the
    slot's status updates carry no bank; and its footer columns are empty, or those of a
    footer of that bank received with a finalized status of the slot for that bank, or those
    already stored for the slot. *)
Theorem grpc_rows_true ceiling answers events row :
  let g := run_grpc (grpc_run codecs fetch_stored_footers args ceiling answers events) in
  row ∈ block_table (world g) ->
  row_true (updates_of events) codecs fetch_stored_footers args row.
Proof.
  intros g Hrow. set (us := updates_of events).
  assert (H : forall l r, updates_of l ⊆ us -> truthful us codecs fetch_stored_footers args (run_grpc r) ->
    truthful us codecs fetch_stored_footers args
      (run_grpc (foldl (grpc_step codecs fetch_stored_footers args) r l))).
  { induction l as [|e l IH]; intros r Hl Hr; cbn [foldl]; [done|]. apply IH.
    - intros u Hin. apply Hl. cbn. destruct e; cbn; set_solver.
    - apply step_true; [|done]. intros u now ->. apply Hl. cbn. by left. }
  assert (Hg : truthful us codecs fetch_stored_footers args g).
  { apply H; [done|]. cbn. constructor; cbn; [|apply map_Forall_empty|constructor|constructor|constructor].
    constructor; cbn; [set_solver|set_solver| |]; intros; by rewrite lookup_empty in *. }
  by apply (proj1 (Forall_forall _ _) (tr_table _ _ _ _ _ Hg)).
Qed.
End Runs.

(** ** Bounds *)

Definition await_bytes (e : Z * Z * AwaitingFooter) : Z := p_encoded_bytes (a_prepared (snd e)).
Definition held_bytes (e : Z * PreparedBlock) : Z := p_encoded_bytes (snd e).

(** The byte counters are the sizes of what is held. *)
Record counted (j : FinalizedFooterJoin) : Prop := {
  ct_await : awaiting_bytes j = zsum await_bytes (awaiting j);
  ct_await_pos : Forall (fun e => 0 <= await_bytes e) (awaiting j);
  ct_held : pending_identity_bytes j = zsum held_bytes (held_blocks j);
  ct_held_pos : map_Forall (fun _ p => 0 <= p_encoded_bytes p) (pending_identity j);
  ct_held_max : pending_identity_bytes j <= PENDING_IDENTITY_MAX_BYTES;
  ct_held_len : Z.of_nat (size (pending_identity j)) <= PENDING_IDENTITY_MAX_BLOCKS;
}.

(** Nothing older than the join window is kept. *)
Record windowed (j : FinalizedFooterJoin) : Prop := {
  wd_pending : map_Forall (fun k _ => highest_slot j - FOOTER_JOIN_WINDOW_SLOTS <= fst k) (pending j);
  wd_finalized : map_Forall (fun k _ => highest_slot j - FOOTER_JOIN_WINDOW_SLOTS <= k) (finalized j);
  wd_banks : set_Forall (fun b => highest_slot j - FOOTER_JOIN_WINDOW_SLOTS <= fst b) (known_banks j);
  wd_legacy : set_Forall (fun slot => highest_slot j - FOOTER_JOIN_WINDOW_SLOTS <= slot) (legacy_slots j);
  wd_held : map_Forall (fun k _ => highest_slot j - FOOTER_JOIN_WINDOW_SLOTS <= k) (pending_identity j);
}.

Definition await_bounded (j : FinalizedFooterJoin) : Prop :=
  zlen (awaiting j) <= FOOTER_AWAIT_MAX_BLOCKS /\ awaiting_bytes j <= PENDING_IDENTITY_MAX_BYTES.

Lemma prune_windowed j j' : prune j = (j', Ok tt) -> windowed j'.
Proof.
  unfold prune. intros H. destruct (existsb _ _) eqn:Ee; [done|injection H as <-].
  assert (Hle : highest_slot j - FOOTER_JOIN_WINDOW_SLOTS <= sat_sub (highest_slot j) FOOTER_JOIN_WINDOW_SLOTS) by (unfold sat_sub; lia).
  constructor; cbn.
  - intros k f [_ H]%map_lookup_filter_Some. cbn in H. lia.
  - intros k f [_ H]%map_lookup_filter_Some. cbn in H. lia.
  - intros b [H _]%elem_of_filter. lia.
  - intros b [H _]%elem_of_filter. lia.
  - intros k p Hk. assert (Hf : forall e, e ∈ map_to_list (pending_identity j) -> (fst e <? sat_sub (highest_slot j) FOOTER_JOIN_WINDOW_SLOTS) = false).
    { intros e He. destruct (fst e <? _) eqn:E; [|done]. rewrite <- Ee. symmetry. apply existsb_exists. exists e. split; [by apply list_elem_of_In|done]. }
    specialize (Hf (k, p) ltac:(by apply elem_of_map_to_list)). zbool. cbn in *. lia.
Qed.

Lemma counted_same j j' :
  awaiting j' = awaiting j -> awaiting_bytes j' = awaiting_bytes j -> pending_identity j' = pending_identity j ->
  pending_identity_bytes j' = pending_identity_bytes j -> counted j -> counted j'.
Proof. intros E1 E2 E3 E4 [C1 C2 C3 C4 C5 C6]. constructor; unfold held_blocks in *; rewrite ?E1, ?E2, ?E3, ?E4; done. Qed.

Lemma zsum_perm {A} (f : A -> Z) l k : l ≡ₚ k -> zsum f l = zsum f k.
Proof. unfold zsum. induction 1; cbn; lia. Qed.

(** The byte counters change with the blocks only. *)
Definition bytes_same (j j' : FinalizedFooterJoin) : Prop :=
  awaiting_bytes j' = awaiting_bytes j /\ pending_identity_bytes j' = pending_identity_bytes j.

Lemma prune_bytes j j' r : prune j = (j', r) -> bytes_same j j'.
Proof. unfold prune. case_match; by intros [= <- <-]. Qed.

Lemma observe_footer_bytes f j : bytes_same j (fst (observe_footer f j)).
Proof. unfold observe_footer. by repeat case_match. Qed.

Lemma observe_slot_bytes s j j' r : observe_slot s j = (j', r) -> bytes_same j j'.
Proof.
  unfold observe_slot. destruct (sl_status s) as [st|]; [|by intros [= <- <-]].
  destruct (observe_identity _ st _ j) as [j1 r1] eqn:E.
  assert (H1 : bytes_same j j1) by (unfold observe_identity in E; repeat (case_match; simplify_eq/=); done).
  assert (Hgo : forall j2 r2, (j2, r2) = (j', r) -> bytes_same j1 j2 -> bytes_same j j').
  { intros j2 r2 [= <- <-] [? ?]. destruct H1. split; congruence. }
  destruct r1 as [[]|e]; [|by intros [= <- <-]]. repeat case_match; intros Heq; eapply Hgo; (exact Heq || done).
Qed.

Lemma observe_other_bytes u j j' r : observe_other u j = (j', r) -> bytes_same j j'.
Proof.
  destruct u; cbn [observe_other]; try apply prune_bytes. destruct (observe_slot s j) as [j1 [[]|e]] eqn:E; [|by intros [= <- <-]; apply (observe_slot_bytes _ _ _ _ E)].
  intros [E1 E2]%prune_bytes. apply observe_slot_bytes in E as [E3 E4]. split; congruence.
Qed.

Lemma same_counted j j' : blocks_same j j' -> bytes_same j j' -> counted j -> counted j'.
Proof. intros [? ?] [? ?]. by apply counted_same. Qed.

Lemma stage_counted p len j j' : 0 <= len -> counted j -> stage_identity_block p len j = (j', Ok tt) -> counted j'.
Proof.
  intros Hlen [C1 C2 C3 C4 C5 C6]. unfold stage_identity_block. case_bool_decide as Hfresh; [done|]. case_match; [done|]. case_match eqn:Elim; [done|]. intros Hp.
  apply negb_false_iff in Elim. zbool. pose proof (prune_same _ _ _ Hp) as Hs. pose proof (prune_bytes _ _ _ Hp) as Hb.
  refine (same_counted _ _ Hs Hb _). clear Hp Hs Hb j'. rewrite <- eq_None_not_Some in Hfresh.
  set (p' := mkPrepared (p_metadata p) (p_transactions p) (p_entries p) len).
  constructor; cbn; [done|done| |by apply map_Forall_insert_2|done|].
  - rewrite C3. unfold held_blocks. cbn. rewrite (zsum_perm _ _ _ (sort_by_key_perm _)), (zsum_perm _ (sort_by_key (map_to_list (<[_:=_]> _))) _ (sort_by_key_perm _)).
    rewrite (zsum_perm _ _ _ (map_to_list_insert _ _ p' Hfresh)). cbn [zsum foldr]. change (held_bytes (m_slot (p_metadata p), p')) with len. unfold zsum. lia.
  - rewrite map_size_insert_None by done. lia.
Qed.

Lemma zsum_map {A B} (f : B -> Z) (g : A -> B) l : zsum f (map g l) = zsum (fun x => f (g x)) l.
Proof. unfold zsum. induction l as [|x l IH]; cbn; [done|]. by rewrite IH. Qed.

Lemma await_all_counted ready now : forall j j',
  await_all ready now j = (j', Ok tt) ->
  Forall (fun e => 0 <= p_encoded_bytes (fst e)) ready ->
  awaiting_bytes j + zsum (fun e => p_encoded_bytes (fst e)) ready <= usize_max ->
  awaiting_bytes j = zsum await_bytes (awaiting j) -> Forall (fun e => 0 <= await_bytes e) (awaiting j) ->
  awaiting_bytes j' = zsum await_bytes (awaiting j') /\ Forall (fun e => 0 <= await_bytes e) (awaiting j') /\
  pending_identity_bytes j' = pending_identity_bytes j /\ pending_identity j' = pending_identity j /\
  highest_slot j' = highest_slot j /\ known_banks j' = known_banks j /\ legacy_slots j' = legacy_slots j /\
  finalized j' = finalized j /\ pending j' = pending j.
Proof.
  induction ready as [|[p i] ready IH]; intros j j' H Hpos Hmax Hc Hp; cbn [await_all] in H; [by injection H as <-|].
  apply Forall_cons in Hpos as [Hp0 Hpos]. cbn in Hmax, Hp0.
  assert (Hz : 0 <= zsum (fun e => p_encoded_bytes (fst e)) ready) by (apply zsum_nonneg; intros e He; by apply (proj1 (Forall_forall _ _) Hpos)).
  fold (zsum (fun e : PreparedBlock * CanonicalIdentity => p_encoded_bytes (fst e)) ready) in Hmax.
  destruct (await_footer p i now j) as [j1 [[]|]] eqn:Ea; [|done]. apply await_footer_spec in Ea as (bank & _ & _ & ->).
  assert (Hins : forall e l, insert_awaiting e l ≡ₚ e :: l).
  { intros e l. induction l as [|x l IHl]; cbn; [done|]. case_bool_decide; [done|]. rewrite IHl. constructor. }
  apply IH in H; [exact H|done| | |].
  - cbn. lia.
  - cbn [awaiting awaiting_bytes set_awaiting]. rewrite (zsum_perm _ _ _ (Hins _ _)). cbn [zsum foldr]. unfold await_bytes at 1. cbn [snd a_prepared p_encoded_bytes]. fold (zsum await_bytes (awaiting j)). lia.
  - cbn. rewrite Hins. by constructor.
Qed.

Lemma release_loop_stops fuel now mode b : forall j r j' r',
  release_loop fuel now mode b j r = (j', r') -> (length (awaiting j) <= fuel)%nat ->
  awaiting_bytes j = zsum await_bytes (awaiting j) -> Forall (fun e => 0 <= await_bytes e) (awaiting j) ->
  (awaiting j' = [] \/ await_bounded j') /\ awaiting_bytes j' = zsum await_bytes (awaiting j').
Proof.
  induction fuel as [|fuel IH]; intros j r j' r' H Hlen Hc Hp; cbn [release_loop] in H.
  { injection H as <- <-. split; [left; by destruct (awaiting j); [|cbn in Hlen; lia]|done]. }
  destruct (awaiting j) as [|[[slot seq] entry] rest] eqn:Ea; [injection H as <- <-; split; [by left|by rewrite Ea]|].
  destruct (negb _ && negb _)%bool eqn:Estop.
  { injection H as <- <-. split; [right|by rewrite Ea]. apply andb_prop in Estop as [_ Hd%negb_true_iff]. unfold release_due in Hd. zbool. split; lia. }
  apply Forall_cons in Hp as [Hp0 Hp]. cbn in Hlen, Hc. unfold await_bytes at 1 in Hc. cbn in Hc. fold (zsum await_bytes rest) in Hc.
  assert (Hz : 0 <= zsum await_bytes rest) by (apply zsum_nonneg; intros e He; by apply (proj1 (Forall_forall _ _) Hp)).
  assert (Hsub : sat_sub (awaiting_bytes j) (p_encoded_bytes (a_prepared entry)) = zsum await_bytes rest) by (unfold sat_sub; lia).
  destruct (a_bank_id entry) as [id|]; [destruct (if footer_usable _ _ _ then _ else _) as [f|]|];
    eapply IH in H; cbn; try exact H; try done; lia.
Qed.

Definition bounded (j : FinalizedFooterJoin) : Prop := counted j /\ windowed j /\ await_bounded j.

Lemma windowed_sub j j' :
  windowed j -> highest_slot j' = highest_slot j -> pending j' ⊆ pending j -> finalized j' = finalized j ->
  known_banks j' = known_banks j -> legacy_slots j' = legacy_slots j -> pending_identity j' ⊆ pending_identity j -> windowed j'.
Proof.
  intros [W1 W2 W3 W4 W5] E1 E2 E3 E4 E5 E6. constructor; rewrite ?E1, ?E3, ?E4, ?E5; try done.
  - intros k x Hk. apply (W1 k x). by eapply lookup_weaken.
  - intros k x Hk. apply (W5 k x). by eapply lookup_weaken.
Qed.

Lemma release_bounded now b j r j' r' :
  counted j -> windowed j -> release_awaiting now Due b j r = (j', r') -> bounded j' /\ pending_identity j' = pending_identity j.
Proof.
  intros [C1 C2 C3 C4 C5 C6] W H. pose proof (release_awaiting_spec _ _ _ _ _ _ _ H) as [(moved & new & M1 & _) P [bytes R] _ _].
  unfold release_awaiting in H. rewrite bool_decide_eq_false_2 in H by done.
  destruct (release_loop_stops _ _ _ _ _ _ _ _ H (le_n _) C1 C2) as [Hstop Hsum].
  assert (Epi : pending_identity j' = pending_identity j) by (rewrite R; done).
  assert (Epb : pending_identity_bytes j' = pending_identity_bytes j) by (rewrite R; done).
  split; [|done]. split_and!.
  - constructor; unfold held_blocks; rewrite ?Epi, ?Epb; try done. rewrite M1 in C2. by apply Forall_app in C2 as [_ ?].
  - apply (windowed_sub j); try done; rewrite R; done.
  - destruct Hstop as [E|?]; [|done]. unfold await_bounded. rewrite Hsum, E. cbn. unfold FOOTER_AWAIT_MAX_BLOCKS, PENDING_IDENTITY_MAX_BYTES, zlen. cbn. lia.
Qed.

Section BoundedRun.
Context (codecs : Codecs)
  (fetch_stored_footers : list Z -> option (gmap Z FooterFields)) (args : GrpcArgs).

Definition sized (u : Update) : Prop := match u with BlockUpdate _ len => 0 <= len | _ => True end.

Lemma stage_windowed p len j j' : stage_identity_block p len j = (j', Ok tt) -> windowed j'.
Proof. unfold stage_identity_block. repeat (case_bool_decide || case_match; [done|]). apply prune_windowed. Qed.

Lemma observe_bounded u j j' :
  sized u -> counted j -> observe_update codecs args u j = (j', Ok tt) -> counted j' /\ windowed j'.
Proof.
  intros Hu C H. destruct u as [b len|f|s|]; cbn [observe_update] in H.
  - destruct (rbind _ _) as [p|e]; [|done]. split; [by eapply stage_counted|by eapply stage_windowed].
  - split; [|by eapply prune_windowed].
    apply (same_counted j); [|pose proof (prune_bytes _ _ _ H) as [? ?]; destruct (observe_footer_bytes f j); split; congruence|done].
    pose proof (prune_same _ _ _ H) as [? ?]. destruct (observe_footer_same f j). split; congruence.
  - split; [apply (same_counted j); [by eapply observe_other_same|by eapply observe_other_bytes|done]|].
    cbn in H. destruct (observe_slot s j) as [j1 [[]|]]; [by eapply prune_windowed|done].
  - split; [apply (same_counted j); [by eapply observe_other_same|by eapply observe_other_bytes|done]|by eapply prune_windowed].
Qed.

Lemma stage_awaiting_bytes p len j j' : stage_identity_block p len j = (j', Ok tt) -> awaiting_bytes j' = awaiting_bytes j.
Proof. unfold stage_identity_block. repeat (case_bool_decide || case_match; [done|]). by intros [? _]%prune_bytes. Qed.

Lemma observe_awaiting_bytes u j j' :
  observe_update codecs args u j = (j', Ok tt) -> awaiting_bytes j' = awaiting_bytes j.
Proof.
  destruct u as [b len|f|s|]; cbn [observe_update]; intros Eo.
  - destruct (rbind _ _); [|done]. by eapply stage_awaiting_bytes.
  - apply prune_bytes in Eo as [E1 _]. destruct (observe_footer_bytes f j) as [E2 _]. congruence.
  - by apply (observe_other_bytes (SlotUpdate s)) in Eo as [? _].
  - by apply (observe_other_bytes OtherUpdate) in Eo as [? _].
Qed.

Lemma flush_canonical_join retries now g g' res :
  flush_canonical_rows fetch_stored_footers args retries now Skip g = (g', res) -> join g' = join g.
Proof.
  unfold flush_canonical_rows, release_awaiting. rewrite bool_decide_eq_true_2 by done. case_bool_decide; cbn [negb]; [|by intros [= <- <-]].
  destruct (flush _ _ _ _ _) as [[r1 w1] res1]. by intros [= <- <-].
Qed.

Lemma process_bounded u now g g' :
  sized u -> bounded (join g) ->
  process_canonical_update codecs fetch_stored_footers args u now g = (g', Ok tt) -> bounded (join g').
Proof.
  intros Hu (C & W & A). unfold process_canonical_update. destruct (process_inner _ _ _ _ _ _) as [g1 [[]|e]] eqn:Ep.
  2: { destruct (match affected_slot u with Some slot => _ | None => _ end); [|done]. destruct (flush_canonical_rows _ _ _ _ _ _) as [g2 [?|?]]; done. }
  intros [= <-]. unfold process_inner in Ep. destruct (observe_update _ _ _ _) as [j1 [[]|e]] eqn:Eo; [|done].
  destruct (observe_bounded _ _ _ Hu C Eo) as [C1 W1]. destruct (take_ready_blocks j1) as [j2 [ready|e]] eqn:Et; [|done].
  destruct (await_all ready now j2) as [j3 [[]|e]] eqn:Ew; [|done].
  pose proof (observe_awaiting_bytes _ _ _ Eo) as Eab.
  assert (H3 : counted j3 /\ windowed j3).
  { pose proof C1 as [D1 D2 D3 D4 D5 D6]. apply take_ready_spec in Et as [[-> ->]|(-> & Em & _)]; [cbn in Ew; injection Ew as <-; done|].
    assert (Esum : zsum (fun e => p_encoded_bytes (fst e)) ready = pending_identity_bytes j1).
    { rewrite <- (zsum_map p_encoded_bytes fst), Em, zsum_map, D3. done. }
    assert (Hpos : Forall (fun e => 0 <= p_encoded_bytes (fst e)) ready).
    { apply (Forall_map fst (fun p => 0 <= p_encoded_bytes p)). rewrite Em. apply Forall_map, Forall_forall. intros e He%sorted_pairs_elem. by apply (D4 (fst e)). }
    destruct (await_all_counted _ _ _ _ Ew Hpos) as (H1 & H2 & H4 & H5 & H6 & H7 & H8 & H9 & H10); cbn; [|done|done|].
    - rewrite Esum, Eab. destruct A as [_ A]. unfold usize_max, u64_max, PENDING_IDENTITY_MAX_BYTES in *. lia.
    - cbn in *. split.
      + constructor; unfold held_blocks; rewrite ?H4, ?H5; cbn; try done. all: unfold PENDING_IDENTITY_MAX_BYTES, PENDING_IDENTITY_MAX_BLOCKS; lia.
      + apply (windowed_sub j1); try done; [by rewrite H10|]. rewrite H5. apply map_empty_subseteq. }
  destruct H3 as [C3 W3]. destruct (release_awaiting _ _ _ _ _) as [j4 r4] eqn:Er. destruct (release_bounded _ _ _ _ _ _ C3 W3 Er) as [B4 _].
  destruct (_ && _)%bool; [|by injection Ep as <-]. destruct (flush_canonical_rows _ _ _ _ _ _) as [g5 [?|?]] eqn:Ef; [|done]. injection Ep as <-.
  by rewrite (flush_canonical_join _ _ _ _ _ Ef).
Qed.

(** C30: the join stays within its limits while the ingestor runs.  After any updates and
    flushes at most 256 blocks and 128 MiB are held for their identity and at most 64 blocks
    and 128 MiB wait for a footer, the byte counters are exact, and no identity, footer or
    held block is older than the join window. *)
Theorem grpc_join_bounded ceiling answers events g :
  Forall (fun e => forall u now, e = Received u now -> sized u) events ->
  grpc_run codecs fetch_stored_footers args ceiling answers events = Running g -> bounded (join g).
Proof.
  intros Hs. unfold grpc_run. assert (H0 : bounded join_new).
  { split_and!; [constructor; cbn; try done; apply map_Forall_empty|constructor; cbn; try apply map_Forall_empty; set_solver|done]. }
  assert (Hgo : forall l r, Forall (fun e => forall u now, e = Received u now -> sized u) l ->
    (forall g, r = Running g -> bounded (join g)) -> forall g,
    foldl (grpc_step codecs fetch_stored_footers args) r l = Running g -> bounded (join g)).
  { induction l as [|e l IH]; intros r Hl Hr g1 Hg; cbn [foldl] in Hg; [by apply Hr|]. apply Forall_cons in Hl as [He Hl].
    apply (IH _ Hl) in Hg; [done|]. intros g2 Hg2. destruct r as [g3|]; [|done]. specialize (Hr g3 eq_refl). destruct e as [u now|now|now|now]; cbn in Hg2.
    - destruct (process_canonical_update _ _ _ _ _ _) as [g4 [[]|]] eqn:Ep; [|done]. injection Hg2 as <-. by eapply process_bounded; [eapply He| |].
    - destruct (flush_canonical_rows _ _ _ _ _ _) as [g4 [?|]] eqn:Ef; [|done]. injection Hg2 as <-. destruct Hr as (C & W & A).
      unfold flush_canonical_rows in Ef. destruct (release_awaiting _ _ _ _ _) as [j5 r5] eqn:Er. destruct (release_bounded _ _ _ _ _ _ C W Er) as [B5 _].
      destruct (negb _); [by injection Ef as <-|]. destruct (flush _ _ _ _ _) as [[? ?] ?]. by injection Ef as <-.
    - destruct (flush_canonical_rows _ _ _ _ _ _) as [g4 [?|]]; done.
    - destruct (flush_canonical_rows _ _ _ _ _ _) as [g4 [?|]]; done. }
  apply (Hgo events); [done|]. by intros g1 [= <-].
Qed.
End BoundedRun.
