(* ===== verification/Fumarole.v ===== *)
(** * Fumarole: reassembling blocks from a persisted stream

    Models [crates/superbank/src/ingest/fumarole.rs]: the assembler that collects the
    payloads of a bank until its slot ends, the historical bound, the flushes and the commits
    that acknowledge the stream.  A commit acknowledges everything delivered so far, which the
    model counts.  The creation time of a payload and the one-time warnings are left out; the
    resident memory sampled by the pressure guard comes with the event. *)

From S2P Require Import Prelude Text Sdk IngestTx IngestBlock.

Open Scope Z_scope.

(** A bank is a slot and its sealed blockhash, when the stream carries one. *)
Abbreviation BankKey := (Z * option string)%type.

Record MetaMsg := mkMetaMsg {
  me_slot : Z; me_bank_id : Z; me_blockhash : string; me_rewards : option Rewards; me_block_time : option Z;
  me_block_height : option Z; me_parent_slot : Z; me_parent_blockhash : string;
  me_executed_transaction_count : Z; me_entries_count : Z;
}.

#[export] Instance MetaMsg_eq_dec : EqDecision MetaMsg.
Proof. solve_decision. Defined.

Inductive Payload :=
| PFooter (f : FooterMsg)
| PMeta (m : MetaMsg)
| PTransaction (slot bank_id : Z) (info : option TxInfo)
| PEntry (e : EntryMsg)
| PBlock (b : BlockMsg)
| PSlot (slot status : Z)
| POther.

Inductive FooterState := Absent | ValidFooter (f : FooterFields) (bank_id : Z) | Rejected.

Record FumaroleBlockParts := mkParts {
  fp_bank_id : option Z; fp_footer : FooterState; fp_block_meta : option MetaMsg; fp_block_meta_bytes : Z;
  fp_transactions : list TxInfo; fp_entries : list EntryMsg; fp_estimated_bytes : Z;
}.
Definition parts_default : FumaroleBlockParts := mkParts None Absent None 0 [] [] 0.

Record FumaroleBlockAssembler := mkAssembler {
  as_blocks : gmap BankKey FumaroleBlockParts; as_buffered_bytes : Z; as_track_bytes : bool; as_include_entries : bool;
  as_footer_seen : bool; as_min_footer_slot : option Z;
}.

(** [FumaroleBlockAssembler::new] *)
Definition assembler_new (track include_entries : bool) : FumaroleBlockAssembler := mkAssembler ∅ 0 track include_entries false None.

Definition set_blocks (m : gmap BankKey FumaroleBlockParts) (bytes : Z) (a : FumaroleBlockAssembler) : FumaroleBlockAssembler :=
  mkAssembler m bytes (as_track_bytes a) (as_include_entries a) (as_footer_seen a) (as_min_footer_slot a).

(** [self.blocks.entry(key).or_default()] *)
Definition parts_at (key : BankKey) (a : FumaroleBlockAssembler) : FumaroleBlockParts := default parts_default (as_blocks a !! key).

Definition set_footer (f : FooterState) (p : FumaroleBlockParts) : FumaroleBlockParts :=
  mkParts (fp_bank_id p) f (fp_block_meta p) (fp_block_meta_bytes p) (fp_transactions p) (fp_entries p) (fp_estimated_bytes p).

(** [footer_expected] *)
Definition fumarole_footer_expected (slot : Z) (a : FumaroleBlockAssembler) : bool :=
  as_footer_seen a && match as_min_footer_slot a with Some m => m <=? slot | None => false end.

(** [pending_slots], [has_pending_at_or_below] *)
Definition pending_slots (a : FumaroleBlockAssembler) : Z := Z.of_nat (size (as_blocks a)).
Definition has_pending_at_or_below (slot : Z) (a : FumaroleBlockAssembler) : bool :=
  existsb (fun e => fst (fst e) <=? slot) (map_to_list (as_blocks a)).

(** [decode_footer] *)
Definition decode_footer (key : BankKey) (footer : FooterMsg) : result FooterFields IngestError :=
  let? _ := ensure (fo_slot footer =? fst key) FooterSlotMismatch in map_block_footer footer.

(** [accept_footer] *)
Definition accept_footer (key : BankKey) (footer : FooterMsg) (a : FumaroleBlockAssembler) : FumaroleBlockAssembler :=
  match decode_footer key footer with
  | Err _ => set_blocks (<[key := set_footer Rejected (parts_at key a)]> (as_blocks a)) (as_buffered_bytes a) a
  | Ok fields =>
      let parts := parts_at key a in
      let state :=
        match fp_footer parts with
        | Absent => if match fp_bank_id parts with Some id => id =? fo_bank_id footer | None => true end
                    then ValidFooter fields (fo_bank_id footer) else Rejected
        | ValidFooter old id => if bool_decide (old = fields /\ id = fo_bank_id footer) then ValidFooter old id else Rejected
        | Rejected => Rejected
        end in
      mkAssembler (<[key := set_footer state parts]> (as_blocks a)) (as_buffered_bytes a) (as_track_bytes a)
        (as_include_entries a) true (Some (match as_min_footer_slot a with Some m => Z.min m (fst key) | None => fst key end))
  end.

(** [validate_fumarole_hash] *)
Definition validate_fumarole_hash (key : BankKey) (blockhash : string) : result unit IngestError :=
  match snd key with
  | Some expected => ensure (negb (is_empty expected) && bool_decide (expected = blockhash)) EnvelopeHashMismatch
  | None => Ok tt
  end.

(** The bank of a payload, with the hash check of its envelope. *)
Definition payload_bank (key : BankKey) (p : Payload) : result (option (Z * Z)) IngestError :=
  match p with
  | PMeta m => let? _ := validate_fumarole_hash key (me_blockhash m) in Ok (Some (me_slot m, me_bank_id m))
  | PTransaction slot bank_id _ => Ok (Some (slot, bank_id))
  | PEntry e => Ok (Some (en_slot e, en_bank_id e))
  | PBlock b => let? _ := validate_fumarole_hash key (bk_blockhash b) in Ok (Some (bk_slot b, bk_bank_id b))
  | _ => Ok None
  end.

(** The checks on a payload before the assembler changes. *)
Definition check_payload (key : BankKey) (p : Payload) (a : FumaroleBlockAssembler) : result (option (Z * Z)) IngestError :=
  let? bank := payload_bank key p in
  let? _ := match bank with
            | None => Ok tt
            | Some (slot, bank_id) =>
                let? _ := ensure (slot =? fst key) PayloadSlotMismatch in
                ensure (bool_decide (is_Some (snd key)) ||
                        match as_blocks a !! key with
                        | Some parts => match fp_bank_id parts with Some id => id =? bank_id | None => true end
                        | None => true
                        end) IdentityChanged
            end in
  let? _ := match p with
            | PBlock b => validate_block_completeness b (as_include_entries a)
            | PTransaction _ _ info => ensure (bool_decide (is_Some info)) MissingTransactionInfo
            | PMeta m => ensure (match as_blocks a !! key with
                                 | Some parts => match fp_block_meta parts with Some old => bool_decide (old = m) | None => true end
                                 | None => true
                                 end) ConflictingMeta
            | _ => Ok tt
            end in
  Ok bank.

(** A payload names its bank; a footer of another bank is dropped. *)
Definition note_bank (key : BankKey) (bank_id : Z) (a : FumaroleBlockAssembler) : FumaroleBlockAssembler :=
  let p := parts_at key a in
  let footer := match fp_footer p with ValidFooter f id => if id =? bank_id then ValidFooter f id else Rejected | state => state end in
  set_blocks (<[key := mkParts (Some bank_id) footer (fp_block_meta p) (fp_block_meta_bytes p) (fp_transactions p) (fp_entries p)
                         (fp_estimated_bytes p)]> (as_blocks a)) (as_buffered_bytes a) a.

(** [estimated_update_bytes] *)
Definition estimated_update_bytes (p : Payload) (encoded_len : Z) (a : FumaroleBlockAssembler) : Z :=
  if negb (as_track_bytes a) then 0
  else match p with PMeta _ | PTransaction _ _ _ | PEntry _ => encoded_len | _ => 0 end.

Inductive Assembled := AssembledNone | AssembledStatus (slot status : Z) | AssembledBlock (b : BlockMsg) (footer : option FooterFields).

Definition valid_footer (s : FooterState) : option FooterFields := match s with ValidFooter f _ => Some f | _ => None end.

(** The last part of [handle_update]: what the payload adds to its bank. *)
Definition add_payload (key : BankKey) (p : Payload) (bytes : Z) (a : FumaroleBlockAssembler) : FumaroleBlockAssembler * Assembled :=
  let total := sat_add (as_buffered_bytes a) bytes in
  let q := parts_at key a in
  match p with
  | PSlot slot status => (a, AssembledStatus slot status)
  | PBlock b =>
      match as_blocks a !! key with
      | Some parts =>
          (set_blocks (delete key (as_blocks a)) (sat_sub (as_buffered_bytes a) (fp_estimated_bytes parts)) a,
           AssembledBlock b (valid_footer (fp_footer parts)))
      | None => (a, AssembledBlock b None)
      end
  | PMeta m =>
      let '(held, estimated) := match fp_block_meta q with
                                | Some _ => (sat_sub (as_buffered_bytes a) (fp_block_meta_bytes q), sat_sub (fp_estimated_bytes q) (fp_block_meta_bytes q))
                                | None => (as_buffered_bytes a, fp_estimated_bytes q)
                                end in
      (set_blocks (<[key := mkParts (fp_bank_id q) (fp_footer q) (Some m) bytes (fp_transactions q) (fp_entries q) (sat_add estimated bytes)]>
                     (as_blocks a)) (sat_add held bytes) a, AssembledNone)
  | PTransaction _ _ (Some info) =>
      (set_blocks (<[key := mkParts (fp_bank_id q) (fp_footer q) (fp_block_meta q) (fp_block_meta_bytes q) (fp_transactions q ++ [info])
                              (fp_entries q) (sat_add (fp_estimated_bytes q) bytes)]> (as_blocks a)) total a, AssembledNone)
  | PEntry e =>
      (set_blocks (<[key := mkParts (fp_bank_id q) (fp_footer q) (fp_block_meta q) (fp_block_meta_bytes q) (fp_transactions q)
                              (fp_entries q ++ [e]) (sat_add (fp_estimated_bytes q) bytes)]> (as_blocks a)) total a, AssembledNone)
  | _ => (a, AssembledNone)
  end.

(** [handle_update] *)
Definition handle_update (key : BankKey) (p : Payload) (encoded_len : Z) (a : FumaroleBlockAssembler) :
    result (FumaroleBlockAssembler * Assembled) IngestError :=
  match p with
  | PFooter footer => Ok (accept_footer key footer a, AssembledNone)
  | _ =>
      let? bank := check_payload key p a in
      let a := match bank with Some (_, bank_id) => note_bank key bank_id a | None => a end in
      Ok (add_payload key p (estimated_update_bytes p encoded_len a) a)
  end.

(** [into_subscribe_update]: the block of the collected parts. *)
Definition block_of_meta (slot : Z) (m : MetaMsg) (transactions : list TxInfo) (entries : list EntryMsg) : BlockMsg :=
  mkBlockMsg slot (me_bank_id m) (me_blockhash m) (me_rewards m) (me_block_time m) (me_block_height m) (me_parent_slot m)
    (me_parent_blockhash m) (me_executed_transaction_count m) transactions (me_entries_count m) entries.
Definition into_block (slot : Z) (include_entries : bool) (p : FumaroleBlockParts) : result (option BlockMsg) IngestError :=
  match fp_block_meta p with
  | None => match fp_transactions p, fp_entries p with [], [] => Ok None | _, _ => Err MissingMeta end
  | Some m =>
      let block := block_of_meta slot m (fp_transactions p) (fp_entries p) in
      let? _ := validate_block_completeness block include_entries in Ok (Some block)
  end.

(** [finish_slot]: the finished block, its footer, and whether the footer is missing. *)
Definition finish_slot (key : BankKey) (a : FumaroleBlockAssembler) :
    result (FumaroleBlockAssembler * option (BlockMsg * option FooterFields * bool)) IngestError :=
  match as_blocks a !! key with
  | None => Ok (a, None)
  | Some parts =>
      let a := set_blocks (delete key (as_blocks a)) (sat_sub (as_buffered_bytes a) (fp_estimated_bytes parts)) a in
      let? block := into_block (fst key) (as_include_entries a) parts in
      Ok (a, match block with
             | None => None
             | Some block =>
                 let footer := valid_footer (fp_footer parts) in
                 let rejected := match fp_footer parts with Rejected => true | _ => false end in
                 Some (block, footer, negb (bool_decide (is_Some footer)) && negb rejected && fumarole_footer_expected (fst key) a)%bool
             end)
  end.

(** ** The loop *)

Record FumaroleArgs := mkFumaroleArgs {
  fa_flush_every_block : bool; fa_transactions_flush_rows : Z; fa_blocks_flush_rows : Z; fa_entries_configured : bool;
  fa_alpenglow_genesis_slot : option Z; fa_preactivation_through_slot : option Z; fa_soft_limit_bytes : Z;
}.

(** [historical_bound] *)
Definition fumarole_bound (args : FumaroleArgs) : option Z :=
  match fa_alpenglow_genesis_slot args with Some b => Some b | None => fa_preactivation_through_slot args end.

(** [delivered] and [acknowledged_to] count the events of the stream. *)
Record Fumarole := mkFumarole {
  fu_assembler : FumaroleBlockAssembler; fu_rows : BufferedRows; fu_world : World; fu_bound_exceeded : bool;
  fu_delivered : Z; fu_acknowledged : Z;
}.

Inductive StreamEvent := Data (key : BankKey) (p : Payload) (encoded_len : Z) | SlotEnded (key : BankKey).
Inductive LoopEvent := Streamed (e : StreamEvent) (rss : option Z) | Tick | FatalStream | StopSignal.

Definition event_slot (e : StreamEvent) : Z := match e with Data key _ _ => fst key | SlotEnded key => fst key end.

Section Fumarole.
Context (codecs : Codecs)
  (fetch_stored_footers : list Z -> option (gmap Z FooterFields)) (args : FumaroleArgs).

Definition set_buffers (r : BufferedRows) (w : World) (s : Fumarole) : Fumarole :=
  mkFumarole (fu_assembler s) r w (fu_bound_exceeded s) (fu_delivered s) (fu_acknowledged s).
Definition set_assembler (a : FumaroleBlockAssembler) (s : Fumarole) : Fumarole :=
  mkFumarole a (fu_rows s) (fu_world s) (fu_bound_exceeded s) (fu_delivered s) (fu_acknowledged s).

(** [commit_if_assembled] *)
Definition commit_if_assembled (s : Fumarole) : Fumarole :=
  if pending_slots (fu_assembler s) =? 0
  then mkFumarole (fu_assembler s) (fu_rows s) (fu_world s) (fu_bound_exceeded s) (fu_delivered s) (fu_delivered s)
  else s.

(** [BufferedRows::flush] *)
Definition flush_rows (s : Fumarole) : Fumarole * result unit IngestError :=
  let '(r, w, res) := flush fetch_stored_footers (fa_entries_configured args) 0 (fu_rows s) (fu_world s) in
  (set_buffers r w s, res).

(** [flush_and_commit] *)
Definition flush_and_commit (s : Fumarole) : Fumarole * result unit IngestError :=
  let had_rows := negb (rows_empty (fu_rows s)) in
  match flush_rows s with
  | (s, Err e) => (s, Err e)
  | (s, Ok _) => (if had_rows then commit_if_assembled s else s, Ok tt)
  end.

(** [process_block_update] with [flush_block_if_needed]: whether the rows were flushed. *)
Definition process_block_update (b : BlockMsg) (footer : option FooterFields) (s : Fumarole) : Fumarole * result bool IngestError :=
  match (let? _ := validate_block_bank b IngestBlock.Fumarole (fumarole_bound args) in
         prepare_block codecs b (fa_entries_configured args)) with
  | Err e => (s, Err e)
  | Ok p =>
      let p := match footer with
               | Some f => mkPrepared (apply_footer f (p_metadata p)) (p_transactions p) (p_entries p) (p_encoded_bytes p)
               | None => p
               end in
      let r := append_block p (fa_entries_configured args) (fu_rows s) in
      let s := set_buffers r (fu_world s) s in
      if (fa_flush_every_block args || (fa_transactions_flush_rows args <=? zlen (transaction_rows r)) ||
          (fa_blocks_flush_rows args <=? zlen (block_rows r)) || (fa_transactions_flush_rows args <=? zlen (entry_rows r)))%bool
      then match flush_rows s with (s, Ok _) => (s, Ok true) | (s, Err e) => (s, Err e) end
      else (s, Ok false)
  end.

(** [stop_at_historical_bound]: whether the process stops. *)
Definition stop_at_historical_bound (slot : Z) (s : Fumarole) : Fumarole * result bool IngestError :=
  match fumarole_bound args with
  | None => (s, Ok false)
  | Some bound =>
      let s := if bound <? slot
               then mkFumarole (fu_assembler s) (fu_rows s) (fu_world s) true (fu_delivered s) (fu_acknowledged s) else s in
      if (negb (fu_bound_exceeded s) || has_pending_at_or_below bound (fu_assembler s))%bool then (s, Ok false)
      else match flush_rows s with (s, Ok _) => (s, Ok true) | (s, Err e) => (s, Err e) end
  end.

(** [over_limit_reason], and the flush of [maybe_flush_for_pressure]. *)
Definition over_limit (rss : option Z) (a : FumaroleBlockAssembler) : bool :=
  negb (fa_soft_limit_bytes args =? 0) &&
  ((fa_soft_limit_bytes args <=? as_buffered_bytes a) ||
   match rss with Some rss => fa_soft_limit_bytes args <=? rss | None => false end).
Definition maybe_flush_for_pressure (rss : option Z) (s : Fumarole) : Fumarole * result unit IngestError :=
  if negb (over_limit rss (fu_assembler s)) then (s, Ok tt)
  else if rows_empty (fu_rows s) then (s, Ok tt)
  else flush_and_commit s.

(** What an event of the stream does between the two bound checks. *)
Definition consume (e : StreamEvent) (s : Fumarole) : Fumarole * result unit IngestError :=
  match e with
  | Data key p len =>
      match handle_update key p len (fu_assembler s) with
      | Err err => (s, Err err)
      | Ok (a, assembled) =>
          let s := set_assembler a s in
          match assembled with
          | AssembledBlock b footer =>
              match process_block_update b footer s with
              | (s, Ok flushed) => (if flushed then commit_if_assembled s else s, Ok tt)
              | (s, Err err) => (s, Err err)
              end
          | _ => (s, Ok tt)
          end
      end
  | SlotEnded key =>
      match finish_slot key (fu_assembler s) with
      | Err err => (s, Err err)
      | Ok (a, finished) =>
          let s := set_assembler a s in
          match finished with
          | Some (b, footer, _) =>
              match process_block_update b footer s with
              | (s, Ok flushed) => (if flushed then commit_if_assembled s else s, Ok tt)
              | (s, Err err) => (s, Err err)
              end
          | None => (if rows_empty (fu_rows s) then commit_if_assembled s else s, Ok tt)
          end
      end
  end.

Inductive FumaroleRun := FRunning (s : Fumarole) | FReturned (s : Fumarole) (r : result unit IngestError).
Definition run_state (r : FumaroleRun) : Fumarole := match r with FRunning s => s | FReturned s _ => s end.

Definition ended (x : Fumarole * result unit IngestError) : FumaroleRun :=
  match x with (s, Ok _) => FRunning s | (s, Err e) => FReturned s (Err e) end.

(** One turn of the loop of [run_fumarole_ingest]. *)
Definition stream_step (e : StreamEvent) (rss : option Z) (s : Fumarole) : FumaroleRun :=
  let s := mkFumarole (fu_assembler s) (fu_rows s) (fu_world s) (fu_bound_exceeded s) (fu_delivered s + 1) (fu_acknowledged s) in
  match stop_at_historical_bound (event_slot e) s with
  | (s, Err err) => FReturned s (Err err)
  | (s, Ok true) => FReturned s (Err BoundReached)
  | (s, Ok false) =>
      if (fu_bound_exceeded s && match fumarole_bound args with Some bound => bound <? event_slot e | None => false end)%bool
      then FRunning s
      else
        match consume e s with
        | (s, Err err) => FReturned s (Err err)
        | (s, Ok _) =>
            match stop_at_historical_bound (event_slot e) s with
            | (s, Err err) => FReturned s (Err err)
            | (s, Ok true) => FReturned s (Err BoundReached)
            | (s, Ok false) => ended (maybe_flush_for_pressure rss s)
            end
        end
  end.

Definition fumarole_step (r : FumaroleRun) (e : LoopEvent) : FumaroleRun :=
  match r with
  | FReturned _ _ => r
  | FRunning s =>
      match e with
      | Streamed e rss => stream_step e rss s
      | Tick => ended (flush_and_commit s)
      | FatalStream => match flush_and_commit s with (s, Ok _) => FReturned s (Err StreamFailed) | (s, Err e) => FReturned s (Err e) end
      | StopSignal => match flush_and_commit s with (s, r) => FReturned s r end
      end
  end.

Definition fumarole_start (ceiling : option Z) (answers : list Answer) : FumaroleRun :=
  FRunning (mkFumarole (assembler_new (negb (fa_soft_limit_bytes args =? 0)) (fa_entries_configured args)) (rows_new ceiling)
              (mkWorld [] [] [] answers) false 0 0).
Definition fumarole_run (ceiling : option Z) (answers : list Answer) (events : list LoopEvent) : FumaroleRun :=
  foldl fumarole_step (fumarole_start ceiling answers) events.
End Fumarole.
