(* ===== verification/FumaroleSound.v ===== *)
(** * FumaroleSound: what a commit acknowledges

    A commit of the persisted stream acknowledges everything delivered before it.  Whatever
    the stream delivers and however the database answers, every acknowledged payload is in a
    block of its bank that is in the tables, unless it lies beyond the historical bound; and
    a metadata row is a block made only of payloads received for its bank. *)

From S2P Require Import Prelude Text Sdk IngestTx IngestBlock IngestBlockSound IngestTables Fumarole.

Open Scope list_scope.
Open Scope Z_scope.

(** ** Where a payload is *)

(** The payloads a block is made of. *)
Definition content (p : Payload) : bool :=
  match p with PMeta _ | PTransaction _ _ (Some _) | PEntry _ | PBlock _ => true | _ => false end.

Definition in_parts (p : Payload) (parts : FumaroleBlockParts) : Prop :=
  match p with
  | PMeta m => fp_block_meta parts = Some m
  | PTransaction _ _ (Some info) => info ∈ fp_transactions parts
  | PEntry e => e ∈ fp_entries parts
  | _ => False
  end.
Definition held (a : FumaroleBlockAssembler) (key : BankKey) (p : Payload) : Prop :=
  exists parts, as_blocks a !! key = Some parts /\ in_parts p parts.

Definition in_block (key : BankKey) (p : Payload) (b : BlockMsg) : Prop :=
  match p with
  | PMeta m => b = block_of_meta (fst key) m (bk_transactions b) (bk_entries b)
  | PTransaction _ _ (Some info) => info ∈ bk_transactions b
  | PEntry e => e ∈ bk_entries b
  | PBlock b' => b = b'
  | _ => False
  end.

(** A block of the bank: its slot, and its sealed blockhash when the stream carries one. *)
Definition of_bank (key : BankKey) (b : BlockMsg) : Prop :=
  bk_slot b = fst key /\ forall hash, snd key = Some hash -> bk_blockhash b = hash.

(** A payload was delivered for the bank. *)
Definition delivered (evs : list StreamEvent) (key : BankKey) (p : Payload) : Prop := exists len, Data key p len ∈ evs.

(** The block carries the payload, or was delivered whole for the bank and supersedes it. *)
Definition carries (evs : list StreamEvent) (key : BankKey) (p : Payload) (b : BlockMsg) : Prop :=
  of_bank key b /\ (in_block key p b \/ delivered evs key (PBlock b)).

(** Everything in the block was delivered for one bank. *)
Definition authentic (evs : list StreamEvent) (b : BlockMsg) : Prop :=
  exists key, of_bank key b /\
    (delivered evs key (PBlock b) \/
     exists m, b = block_of_meta (fst key) m (bk_transactions b) (bk_entries b) /\ delivered evs key (PMeta m) /\
       Forall (fun info => exists slot bank, delivered evs key (PTransaction slot bank (Some info))) (bk_transactions b) /\
       Forall (fun e => delivered evs key (PEntry e)) (bk_entries b)).

Record parts_ok (evs : list StreamEvent) (key : BankKey) (parts : FumaroleBlockParts) : Prop := {
  po_meta m : fp_block_meta parts = Some m ->
    delivered evs key (PMeta m) /\ forall hash, snd key = Some hash -> me_blockhash m = hash;
  po_txs : Forall (fun info => exists slot bank, delivered evs key (PTransaction slot bank (Some info))) (fp_transactions parts);
  po_entries : Forall (fun e => delivered evs key (PEntry e)) (fp_entries parts);
}.

(** What the assembler holds was delivered for its bank. *)
Definition assembling (evs : list StreamEvent) (a : FumaroleBlockAssembler) : Prop := map_Forall (parts_ok evs) (as_blocks a).

Lemma delivered_mono evs evs' key p : evs ⊆ evs' -> delivered evs key p -> delivered evs' key p.
Proof. intros Hs [len H]. exists len. by apply Hs. Qed.

Lemma carries_mono evs evs' key p b : evs ⊆ evs' -> carries evs key p b -> carries evs' key p b.
Proof. intros Hs [? [?|?]]; (split; [done|]); [by left|right; by eapply delivered_mono]. Qed.

Lemma parts_ok_mono evs evs' key parts : evs ⊆ evs' -> parts_ok evs key parts -> parts_ok evs' key parts.
Proof.
  intros Hs [H1 H2 H3]. constructor.
  - intros m Hm. destruct (H1 m Hm). split; [by eapply delivered_mono|done].
  - eapply Forall_impl; [exact H2|]. intros info (slot & bank & H). exists slot, bank. by eapply delivered_mono.
  - eapply Forall_impl; [exact H3|]. intros e. by eapply delivered_mono.
Qed.

Lemma assembling_mono evs evs' a : evs ⊆ evs' -> assembling evs a -> assembling evs' a.
Proof. intros Hs H. eapply map_Forall_impl; [exact H|]. intros key parts. by apply parts_ok_mono. Qed.

Lemma authentic_mono evs evs' b : evs ⊆ evs' -> authentic evs b -> authentic evs' b.
Proof.
  intros Hs (key & Hk & [H|(m & Hb & Hm & Ht & He)]); exists key; (split; [done|]); [left; by eapply delivered_mono|right].
  exists m. split_and!; [done|by eapply delivered_mono| |].
  - eapply Forall_impl; [exact Ht|]. intros info (slot & bank & H). exists slot, bank. by eapply delivered_mono.
  - eapply Forall_impl; [exact He|]. intros e. by eapply delivered_mono.
Qed.

(** ** The assembler *)

Lemma validate_hash_ok key hash : validate_fumarole_hash key hash = Ok tt -> forall h, snd key = Some h -> hash = h.
Proof.
  unfold validate_fumarole_hash, ensure. intros H h E. rewrite E in H. destruct (negb _ && bool_decide _)%bool eqn:Eb; [|done].
  by apply andb_prop in Eb as [_ ->%bool_decide_eq_true].
Qed.

(** What the checks prove of a payload the assembler takes. *)
Lemma check_payload_ok key p a bank :
  check_payload key p a = Ok bank ->
  match p with
  | PBlock b => of_bank key b
  | PMeta m => (forall h, snd key = Some h -> me_blockhash m = h) /\
               (forall parts old, as_blocks a !! key = Some parts -> fp_block_meta parts = Some old -> old = m)
  | PTransaction _ _ None => False
  | _ => True
  end.
Proof.
  unfold check_payload. intros (bk & Hbk & H)%rbind_ok. apply rbind_ok in H as (? & Hb & H). apply rbind_ok in H as (? & Hp & _).
  destruct p as [f|m|slot id [info|]|e|b|slot st|]; try done; cbn [payload_bank] in Hbk.
  - apply rbind_ok in Hbk as ([] & Hh & _). split; [by apply validate_hash_ok|]. intros parts old E1 E2. rewrite E1, E2 in Hp. unfold ensure in Hp.
    by case_bool_decide.
  - apply rbind_ok in Hbk as ([] & Hh & [= <-]). apply rbind_ok in Hb as (? & Hs & _). unfold ensure in Hs.
    destruct (Z.eqb_spec (bk_slot b) (fst key)); [|done]. split; [done|by apply validate_hash_ok].
Qed.

(** A bank change that keeps the collected payloads. *)
Definition same_content (a a' : FumaroleBlockAssembler) : Prop :=
  (forall key p, held a key p -> held a' key p) /\ (forall evs, assembling evs a -> assembling evs a') /\
  (forall key, fp_block_meta (parts_at key a') = fp_block_meta (parts_at key a)).

Lemma parts_at_in key a p : held a key p -> in_parts p (parts_at key a).
Proof. intros (parts & E & H). unfold parts_at. by rewrite E. Qed.

Lemma parts_at_ok evs key a : assembling evs a -> parts_ok evs key (parts_at key a).
Proof.
  intros H. unfold parts_at. destruct (as_blocks a !! key) as [parts|] eqn:E; cbn; [by apply (H key parts E)|]. constructor; [done|constructor|constructor].
Qed.

(** Writing new parts over the bank's. *)
Lemma write_parts key a a' parts :
  as_blocks a' = <[key := parts]> (as_blocks a) -> (forall p, in_parts p (parts_at key a) -> in_parts p parts) ->
  (forall k p, held a k p -> held a' k p) /\ (forall p, in_parts p parts -> held a' key p) /\
  (forall evs, assembling evs a -> parts_ok evs key parts -> assembling evs a').
Proof.
  intros E H. split_and!.
  - intros k p Hh. destruct (decide (k = key)) as [->|Hne].
    + exists parts. rewrite E, lookup_insert_eq. split; [done|]. apply H. by apply parts_at_in.
    + destruct Hh as (q & Eq & Hq). exists q. by rewrite E, lookup_insert_ne by done.
  - intros p Hp. exists parts. by rewrite E, lookup_insert_eq.
  - intros evs Ha Hp. unfold assembling. rewrite E. by apply map_Forall_insert_2.
Qed.

Lemma write_same key a a' parts :
  as_blocks a' = <[key := parts]> (as_blocks a) -> fp_block_meta parts = fp_block_meta (parts_at key a) ->
  fp_transactions parts = fp_transactions (parts_at key a) -> fp_entries parts = fp_entries (parts_at key a) -> same_content a a'.
Proof.
  intros E E1 E2 E3. destruct (write_parts key a a' parts E) as (H1 & _ & H3).
  - intros p. unfold in_parts. by rewrite E1, E2, E3.
  - split_and!; [done| |].
    + intros evs Ha. apply H3; [done|]. destruct (parts_at_ok evs key a Ha) as [P1 P2 P3]. constructor; by rewrite ?E1, ?E2, ?E3.
    + intros k. unfold parts_at. rewrite E. destruct (decide (k = key)) as [->|]; [by rewrite lookup_insert_eq|by rewrite lookup_insert_ne by done].
Qed.

Lemma accept_footer_same key f a : same_content a (accept_footer key f a).
Proof.
  unfold accept_footer. destruct (decode_footer key f) as [fields|e];
    [eapply (write_same key _ _ (set_footer _ (parts_at key a)))|apply (write_same key _ _ (set_footer Rejected (parts_at key a)))]; try done.
Qed.

Lemma note_bank_same key id a : same_content a (note_bank key id a).
Proof. unfold note_bank. eapply (write_same key _ _ (mkParts (Some id) _ _ _ _ _ _)); done. Qed.

Definition outcome_ok (evs : list StreamEvent) (key : BankKey) (p : Payload) (a a' : FumaroleBlockAssembler) (out : Assembled) : Prop :=
  assembling evs a' /\
  match out with
  | AssembledBlock b _ => p = PBlock b /\ of_bank key b /\ forall k q, held a k q -> k = key \/ held a' k q
  | _ => (forall k q, held a k q -> held a' k q) /\ (content p = true -> held a' key p)
  end.

(** A payload that joins its bank's. *)
Lemma write_outcome evs key p a a' parts :
  as_blocks a' = <[key := parts]> (as_blocks a) -> assembling evs a -> (forall q, in_parts q (parts_at key a) -> in_parts q parts) ->
  in_parts p parts -> parts_ok evs key parts -> outcome_ok evs key p a a' AssembledNone.
Proof.
  intros E Ha Hq Hp Hok. destruct (write_parts key a a' parts E Hq) as (H1 & H2 & H3). split_and!; [by apply H3|done|]. intros _. by apply H2.
Qed.

Lemma add_payload_spec evs key p len a a' out :
  add_payload key p len a = (a', out) -> assembling evs a -> delivered evs key p ->
  match p with
  | PBlock b => of_bank key b
  | PMeta m => (forall h, snd key = Some h -> me_blockhash m = h) /\ (forall old, fp_block_meta (parts_at key a) = Some old -> old = m)
  | PTransaction _ _ None | PFooter _ => False
  | _ => True
  end -> outcome_ok evs key p a a' out.
Proof.
  intros H Ha Hd Hp. pose proof (parts_at_ok evs key a Ha) as [P1 P2 P3]. destruct p as [f|m|slot id [info|]|e|b|slot st|]; cbn [add_payload] in H; try done.
  - destruct Hp as [Hh Hm].
    assert (Hw : forall x y z, outcome_ok evs key (PMeta m) a (set_blocks (<[key:=mkParts (fp_bank_id (parts_at key a)) (fp_footer (parts_at key a)) (Some m) len
      (fp_transactions (parts_at key a)) (fp_entries (parts_at key a)) x]> (as_blocks a)) y z) AssembledNone).
    { intros x y z. eapply write_outcome; [done|done| |done|].
      - intros q. unfold in_parts. destruct q as [|m'|? ? []| | | |]; try done. cbn. intros E. by rewrite (Hm _ E).
      - constructor; [|done|done]. cbn. intros m' [= <-]. done. }
    destruct (fp_block_meta (parts_at key a)); injection H as <- <-; apply Hw.
  - injection H as <- <-. eapply write_outcome; [done|done| | |].
    + intros q. unfold in_parts. destruct q as [| |? ? []| | | |]; try done. cbn. set_solver.
    + cbn. set_solver.
    + constructor; [done| |done]. cbn. apply Forall_app. split; [done|]. constructor; [by exists slot, id|constructor].
  - injection H as <- <-. eapply write_outcome; [done|done| | |].
    + intros q. unfold in_parts. destruct q as [| |? ? []| | | |]; try done. cbn. set_solver.
    + cbn. set_solver.
    + constructor; [done|done|]. cbn. apply Forall_app. split; [done|]. by constructor.
  - destruct (as_blocks a !! key) as [parts|] eqn:Ek; injection H as <- <-; (split_and!; [|done|done|]); [| |done|].
    + by apply map_Forall_delete.
    + intros k q (ps & E & Hq). destruct (decide (k = key)) as [->|Hne]; [by left|right]. exists ps. cbn. by rewrite lookup_delete_ne.
    + intros k q Hh. by right.
  - injection H as <- <-. by split_and!.
  - injection H as <- <-. by split_and!.
Qed.

(** [handle_update]: a payload joins its bank's, or is a whole block that replaces them. *)
Lemma handle_update_spec key p len a a' out evs :
  handle_update key p len a = Ok (a', out) -> assembling evs a -> outcome_ok (evs ++ [Data key p len]) key p a a' out.
Proof.
  intros H Ha. set (evs' := evs ++ [Data key p len]). assert (Hsub : evs ⊆ evs') by set_solver.
  assert (Hnew : delivered evs' key p) by (exists len; set_solver). apply (assembling_mono _ _ _ Hsub) in Ha.
  assert (Hgo : (let? bank := check_payload key p a in
      let a := match bank with Some (_, bank_id) => note_bank key bank_id a | None => a end in
      Ok (add_payload key p (estimated_update_bytes p len a) a)) = Ok (a', out) -> (forall f, p <> PFooter f) -> outcome_ok evs' key p a a' out).
  { intros (bank & Hc & H')%rbind_ok Hnf. cbv zeta in H'. set (a1 := match bank with Some (_, bank_id) => note_bank key bank_id a | None => a end) in H'.
    assert (Hs1 : same_content a a1) by (unfold a1; destruct bank as [[]|]; [apply note_bank_same|done]). destruct Hs1 as (S1 & S2 & S3).
    injection H' as H'. destruct (add_payload_spec evs' key p _ a1 a' out H' (S2 _ Ha) Hnew) as [G1 G2].
    - pose proof (check_payload_ok _ _ _ _ Hc) as Hp. destruct p as [f|m|slot id [info|]|e|b|slot st|]; try done; [by destruct (Hnf f)|].
      destruct Hp as [Hh Hm]. split; [done|]. rewrite S3. unfold parts_at. destruct (as_blocks a !! key) as [parts|] eqn:E; [|done]. cbn. intros old. by apply Hm.
    - split; [done|]. destruct out; [| |destruct G2 as (? & ? & G2); split_and!; auto]; destruct G2; split; auto. }
  destruct p as [f| | | | | |]; try (by apply Hgo). cbn [handle_update] in H. injection H as <- <-.
  destruct (accept_footer_same key f a) as (H1 & H2 & _). split_and!; [by apply H2|done|done].
Qed.

(** [finish_slot]: the finished block carries what its bank held. *)
Lemma finish_slot_spec key a a' res evs :
  finish_slot key a = Ok (a', res) -> assembling evs a ->
  assembling evs a' /\
  match res with
  | Some (b, _, _) => authentic evs b /\ of_bank key b /\ forall k p, held a k p -> held a' k p \/ (k = key /\ in_block key p b)
  | None => forall k p, held a k p -> held a' k p
  end.
Proof.
  unfold finish_slot. intros H Ha. destruct (as_blocks a !! key) as [parts|] eqn:Ek; [|by injection H as <- <-].
  pose proof (Ha key parts Ek) as [P1 P2 P3]. apply rbind_ok in H as (ob & Hb & [= <- <-]).
  assert (Hother : forall bytes k p, held a k p -> held (set_blocks (delete key (as_blocks a)) bytes a) k p \/ (k = key /\ in_parts p parts)).
  { intros bytes k p (ps & E & Hq). destruct (decide (k = key)) as [->|Hne]; [right|left]; [split; congruence|]. exists ps. cbn. by rewrite lookup_delete_ne. }
  split; [by apply map_Forall_delete|]. unfold into_block in Hb. destruct (fp_block_meta parts) as [m|] eqn:Em.
  - apply rbind_ok in Hb as (? & _ & [= <-]). destruct (P1 m eq_refl) as [Hdm Hh].
    assert (Hk : of_bank key (block_of_meta (fst key) m (fp_transactions parts) (fp_entries parts))) by done.
    split_and!; [|done|].
    + exists key. split; [done|]. right. exists m. by split_and!.
    + intros k p Hp. destruct (Hother (sat_sub (as_buffered_bytes a) (fp_estimated_bytes parts)) k p Hp) as [?|[-> Hin]]; [by left|right]. split; [done|].
      destruct p as [|m'|? ? [|]| | | |]; cbn in *; try done. congruence.
  - destruct (fp_transactions parts) as [|] eqn:Et; [|done]. destruct (fp_entries parts) as [|] eqn:Ee; [|done]. injection Hb as <-.
    intros k p Hp. destruct (Hother (sat_sub (as_buffered_bytes a) (fp_estimated_bytes parts)) k p Hp) as [?|[-> Hin]]; [done|].
    destruct p as [|m'|? ? [|]| | | |]; cbn in Hin; try done; [congruence| |]; [rewrite Et in Hin|rewrite Ee in Hin]; by apply elem_of_nil in Hin.
Qed.

(** ** The loop *)

Section Sound.
Context (codecs : Codecs)
  (fetch_stored_footers : list Z -> option (gmap Z FooterFields)) (args : FumaroleArgs).

Local Abbreviation prepared := (prepared codecs (fa_entries_configured args)).
Local Abbreviation stored := (stored (fa_entries_configured args)).
Local Abbreviation progress := (progress codecs (fa_entries_configured args)).
Local Abbreviation buffered := (buffered (fa_entries_configured args)).

(** The slots the configuration asks for. *)
Definition within_bound (slot : Z) : Prop := match fumarole_bound args with Some bound => slot <= bound | None => True end.

(** The payload is in a block of its bank, and the block is in the tables. *)
Definition durable (evs : list StreamEvent) (w : World) (e : StreamEvent) : Prop :=
  match e with
  | Data key p _ => content p = true -> within_bound (fst key) ->
      exists b q, carries evs key p b /\ prepared b q /\ stored w (core q)
  | SlotEnded _ => True
  end.

(** The payload is still held or is in a block of [fin]. *)
Definition traced (evs : list StreamEvent) (a : FumaroleBlockAssembler) (fin : list BlockMsg) (e : StreamEvent) : Prop :=
  match e with
  | Data key p _ => content p = true -> within_bound (fst key) -> held a key p \/ exists b, b ∈ fin /\ carries evs key p b
  | SlotEnded _ => True
  end.

(** The finished blocks [fin] and what was acknowledged. *)
Record ledger (evs : list StreamEvent) (fin : list BlockMsg) (done buf : list Core) (s : Fumarole) : Prop := {
  lg_progress : progress fin done buf [] (fu_rows s) (fu_world s);
  lg_authentic : Forall (authentic evs) fin;
  lg_within : Forall (fun b => within_bound (bk_slot b)) fin;
  lg_acked i e : evs !! i = Some e -> Z.of_nat i < fu_acknowledged s -> durable evs (fu_world s) e;
  lg_range : 0 <= fu_acknowledged s <= fu_delivered s /\ fu_delivered s <= zlen evs;
}.

Record tracing (evs : list StreamEvent) (fin : list BlockMsg) (a : FumaroleBlockAssembler) : Prop := {
  tr_parts : assembling evs a;
  tr_traced : Forall (traced evs a fin) evs;
}.

Definition frame (s s' : Fumarole) : Prop :=
  fu_assembler s' = fu_assembler s /\ fu_delivered s' = fu_delivered s /\ fu_acknowledged s' = fu_acknowledged s.

Definition left_behind (evs : list StreamEvent) (s : Fumarole) : Prop := exists fin done buf, ledger evs fin done buf s.

Lemma durable_mono evs evs' w w' e :
  evs ⊆ evs' -> tx_table w ⊆ tx_table w' -> block_table w ⊆ block_table w' -> entry_table w ⊆ entry_table w' ->
  durable evs w e -> durable evs' w' e.
Proof.
  intros Hs H1 H2 H3. destruct e as [key p len|]; [|done]. intros Hd Hc Hw. destruct (Hd Hc Hw) as (b & q & Hb & Hp & Hq).
  exists b, q. split_and!; [by eapply carries_mono|done|]. by eapply stored_mono.
Qed.

Lemma flush_rows_ok evs fin done buf s s' res :
  ledger evs fin done buf s -> flush_rows fetch_stored_footers args s = (s', res) ->
  frame s s' /\
  ((exists e, res = Err e) /\ ledger evs fin done buf s' \/
   res = Ok tt /\ ledger evs fin (done ++ buf) [] s' /\ buffered (done ++ buf) [] (fu_rows s') (fu_world s')).
Proof.
  intros [P1 P2 P3 P4 P5] H. unfold flush_rows in H. destruct (flush _ _ _ _ _) as [[r w] res'] eqn:Ef. injection H as <- <-. split; [done|].
  pose proof (flush_progress _ _ _ _ _ _ _ _ _ _ P1 Ef) as Hp. apply flush_spec in Ef as (B & _ & _ & _ & F & _). pose proof F as [_ _ _ F4 F5 F6 _ _ _].
  assert (Hd : forall i e, evs !! i = Some e -> Z.of_nat i < fu_acknowledged s -> durable evs w e).
  { intros i e Hi Hlt. apply (durable_mono evs evs (fu_world s) w e); [done|done|done|done|]. by apply (P4 i). }
  destruct Hp as [[He Hp]|(-> & Hp & Hb)]; [left|right]; split_and!; try done; by constructor.
Qed.

(** A finished block is appended, and flushed when the thresholds say so. *)
Lemma append_progress fin done buf r w b p f :
  progress fin done buf [] r w -> buffered done buf r w -> prepared b p ->
  let p' := match f with
            | Some f => mkPrepared (apply_footer f (p_metadata p)) (p_transactions p) (p_entries p) (p_encoded_bytes p)
            | None => p
            end in
  let r' := append_block p' (fa_entries_configured args) r in
  progress (fin ++ [b]) done (buf ++ [core p]) [] r' w /\ buffered done (buf ++ [core p]) r' w.
Proof.
  intros [(ps & Hps & E) _ _ _ Hdone _ Hlast] [B1 B2 B3 B4] Hp p' r'. assert (Ec : core p' = core p) by (unfold p'; by destruct f).
  assert (Hb : buffered done (buf ++ [core p]) r' w).
  { constructor; [| | |done]; unfold r', append_block; cbn [block_rows transaction_rows entry_rows].
    - rewrite !map_app, B1. cbn [map]. do 2 f_equal. by rewrite <- Ec.
    - rewrite map_app, concat_app, B2. cbn. rewrite app_nil_r. f_equal. unfold p'. by destruct f.
    - rewrite B3. unfold buffered_entries. destruct (fa_entries_configured args); [|done]. rewrite map_app, concat_app. cbn. rewrite app_nil_r. f_equal.
      unfold p'. by destruct f. }
  split; [|done]. destruct Hb as [C1 C2 C3 C4]. constructor; [|by left|by left|by left|done|intros row Hrow; left; by apply C4|done].
  exists (ps ++ [p]). split; [apply Forall2_app; [done|by constructor]|]. rewrite map_app, E, !app_nil_r, app_assoc. done.
Qed.

Lemma process_block_ok evs fin done buf s b f s' res :
  ledger evs fin done buf s -> buffered done buf (fu_rows s) (fu_world s) -> authentic evs b ->
  process_block_update codecs fetch_stored_footers args b f s = (s', res) ->
  frame s s' /\
  match res with
  | Err _ => left_behind evs s'
  | Ok flushed => exists done' buf', ledger evs (fin ++ [b]) done' buf' s' /\ buffered done' buf' (fu_rows s') (fu_world s') /\ (flushed = true -> buf' = [])
  end.
Proof.
  intros L B Hb H. unfold process_block_update in H. destruct (rbind _ _) as [p|e] eqn:Ep; [|injection H as <- <-; split; [done|by exists fin, done, buf]].
  apply rbind_ok in Ep as ([] & Hbank & Ep). fold (prepared b p) in Ep. pose proof L as [P1 P2 P3 P4 P5].
  destruct (append_progress _ _ _ _ _ b p f P1 B Ep) as [P1' B'].
  set (p' := match f with Some _ => _ | None => p end) in *. set (r' := append_block p' _ _) in *.
  assert (Hw : within_bound (bk_slot b)).
  { unfold validate_block_bank in Hbank. apply rbind_ok in Hbank as (? & Hbd & _). unfold within_bound. unfold ensure in Hbd.
    destruct (fumarole_bound args) as [bd|]; [|done]. destruct (Z.ltb_spec bd (bk_slot b)); [done|lia]. }
  assert (L' : ledger evs (fin ++ [b]) done (buf ++ [core p]) (set_buffers r' (fu_world s) s)).
  { constructor; [done|apply Forall_app; split; [done|by constructor]|apply Forall_app; split; [done|by constructor]|done|done]. }
  destruct (_ || _)%bool in H; [|injection H as <- <-; split; [done|]; exists done, (buf ++ [core p]); done].
  destruct (flush_rows _ _ _) as [s2 r2] eqn:Ef. destruct (flush_rows_ok _ _ _ _ _ _ _ L' Ef) as [Fr [[(e & ->) L2]|(-> & L2 & B2)]]; injection H as <- <-.
  - split; [done|]. by exists (fin ++ [b]), done, (buf ++ [core p]).
  - split; [done|]. by eexists _, [].
Qed.

(** A commit: with nothing held and nothing buffered, everything delivered is in the tables. *)
Lemma commit_ok evs fin done s :
  ledger evs fin done [] s -> tracing evs fin (fu_assembler s) -> fu_delivered s = zlen evs -> ledger evs fin done [] (commit_if_assembled s).
Proof.
  intros L [T1 T2] Hd. unfold commit_if_assembled. destruct (Z.eqb_spec (pending_slots (fu_assembler s)) 0) as [Hz|]; [|done].
  pose proof L as [P1 P2 P3 P4 P5]. constructor; [done|done|done| |cbn; unfold zlen in *; lia]. cbn. intros i e Hi _.
  pose proof (proj1 (Forall_lookup _ _) T2 i e Hi) as Ht. destruct e as [key p len|]; [|done]. intros Hc Hw.
  destruct (Ht Hc Hw) as [(parts & E & _)|(b & Hb & Hcar)].
  - unfold pending_slots in Hz. assert (Hm : as_blocks (fu_assembler s) = ∅) by (apply map_size_empty_iff; lia). by rewrite Hm, lookup_empty in E.
  - destruct (progress_block _ _ _ _ _ _ b P1 Hb) as (q & Hq & Hin & _). rewrite !app_nil_r in Hin. exists b, q. split_and!; [done|done|].
    destruct P1 as [_ _ _ _ Hdone _ _]. by apply (proj1 (Forall_forall _ _) Hdone).
Qed.

Lemma buffered_empty done buf r w : buffered done buf r w -> rows_empty r = true -> buf = [].
Proof.
  intros [B1 _ _ _] H. unfold rows_empty in H. destruct (transaction_rows r); [|done]. destruct (block_rows r); [|done]. by destruct buf.
Qed.

(** The process runs: every delivered payload of the wanted slots is held or in a finished
    block, and every finished block is buffered or stored. *)
Definition running_ok (evs : list StreamEvent) (s : Fumarole) : Prop :=
  exists fin done buf, ledger evs fin done buf s /\ buffered done buf (fu_rows s) (fu_world s) /\
    tracing evs fin (fu_assembler s) /\ fu_delivered s = zlen evs.

Lemma running_left evs s : running_ok evs s -> left_behind evs s.
Proof. intros (fin & done & buf & L & _). by exists fin, done, buf. Qed.

Lemma ledger_more evs e fin done buf s s' :
  ledger evs fin done buf s -> fu_rows s' = fu_rows s -> fu_world s' = fu_world s -> fu_acknowledged s' = fu_acknowledged s ->
  fu_acknowledged s <= fu_delivered s' <= zlen evs + 1 -> ledger (evs ++ [e]) fin done buf s'.
Proof.
  intros [P1 P2 P3 P4 P5] E1 E2 E3 Hd. assert (Hs : evs ⊆ evs ++ [e]) by set_solver. constructor.
  - by rewrite E1, E2.
  - eapply Forall_impl; [exact P2|]. intros b. by apply authentic_mono.
  - done.
  - rewrite E2, E3. intros i x Hi Hlt. rewrite lookup_app_l in Hi by (unfold zlen in *; lia). eapply durable_mono; [exact Hs|done|done|done|by apply (P4 i)].
  - rewrite E3. unfold zlen in *. rewrite length_app. cbn. lia.
Qed.

Lemma tracing_step evs e fin fin' a a' :
  tracing evs fin a -> assembling (evs ++ [e]) a' -> fin ⊆ fin' ->
  (forall k q, held a k q -> held a' k q \/ exists b, b ∈ fin' /\ carries (evs ++ [e]) k q b) ->
  traced (evs ++ [e]) a' fin' e -> tracing (evs ++ [e]) fin' a'.
Proof.
  intros [T1 T2] Ha Hf Hh He. constructor; [done|]. apply Forall_app. split; [|by constructor]. eapply Forall_impl; [exact T2|].
  intros [key p len|key]; [|done]. intros Ht Hc Hw. destruct (Ht Hc Hw) as [H|(b & Hb & Hcar)]; [by apply Hh|right].
  exists b. split; [by apply Hf|]. eapply carries_mono; [|exact Hcar]. set_solver.
Qed.

(** A finished block goes to the buffers, and the flush commits. *)
Lemma finish_block_ok evs fin done buf s b f s' res :
  ledger evs fin done buf s -> buffered done buf (fu_rows s) (fu_world s) -> authentic evs b ->
  tracing evs (fin ++ [b]) (fu_assembler s) -> fu_delivered s = zlen evs ->
  match process_block_update codecs fetch_stored_footers args b f s with
  | (s, Ok flushed) => (if flushed : bool then commit_if_assembled s else s, Ok tt)
  | (s, Err err) => (s, Err err)
  end = (s', res) ->
  match res with Err _ => left_behind evs s' | Ok _ => running_ok evs s' end.
Proof.
  intros L B Hb T Hd. destruct (process_block_update _ _ _ _ _ _) as [s1 r1] eqn:Ep.
  destruct (process_block_ok _ _ _ _ _ _ _ _ _ L B Hb Ep) as [(F1 & F2 & F3) Hp]. destruct r1 as [flushed|err]; intros [= <- <-]; [|done].
  destruct Hp as (done' & buf' & L' & B' & Hfl). assert (T' : tracing evs (fin ++ [b]) (fu_assembler s1)) by (by rewrite F1).
  destruct flushed; [|exists (fin ++ [b]), done', buf'; split_and!; [done|done|done|congruence]].
  specialize (Hfl eq_refl) as ->. exists (fin ++ [b]), done', []. split_and!; [apply commit_ok; [done|done|congruence]| | |]; unfold commit_if_assembled; case_match; cbn; try done; congruence.
Qed.

Lemma consume_ok evs e fin done buf s s' res :
  let evs' := evs ++ [e] in
  ledger evs' fin done buf s -> buffered done buf (fu_rows s) (fu_world s) -> tracing evs fin (fu_assembler s) -> fu_delivered s = zlen evs' ->
  consume codecs fetch_stored_footers args e s = (s', res) ->
  match res with Err _ => left_behind evs' s' | Ok _ => running_ok evs' s' end.
Proof.
  intros evs' L B T Hd H. pose proof T as [T1 T2]. assert (Hs : evs ⊆ evs') by set_solver.
  assert (Hsame : forall a, ledger evs' fin done buf (set_assembler a s)) by (intros a; destruct L; by constructor).
  destruct e as [key p len|key]; cbn [consume] in H.
  - destruct (handle_update key p len (fu_assembler s)) as [[a out]|err] eqn:Eh; [|injection H as <- <-; by exists fin, done, buf].
    destruct (handle_update_spec _ _ _ _ _ _ evs Eh T1) as [Ha Hout].
    assert (Hnone : (forall k q, held (fu_assembler s) k q -> held a k q) /\ (content p = true -> held a key p) -> running_ok evs' (set_assembler a s)).
    { intros [Hk Hp]. exists fin, done, buf. split_and!; [done|done| |done]. eapply tracing_step; [exact T|done|done|intros k q Hq; left; by apply Hk|].
      intros Hc _. left. by apply Hp. }
    destruct out as [|slot st|b f]; [injection H as <- <-; by apply Hnone|injection H as <- <-; by apply Hnone|]. destruct Hout as (-> & Hof & Hk).
    assert (Hdel : delivered evs' key (PBlock b)) by (exists len; set_solver).
    eapply (finish_block_ok evs' fin done buf); [by apply Hsame|done| | |done|exact H].
    + exists key. split; [done|by left].
    + eapply tracing_step; [exact T|done|set_solver| |].
      * intros k q Hq. destruct (Hk k q Hq) as [->|?]; [right|by left]. exists b. split; [set_solver|]. split; [done|by right].
      * intros _ _. right. exists b. split; [set_solver|]. split; [done|by left].
  - destruct (finish_slot key (fu_assembler s)) as [[a fi]|err] eqn:Eh; [|injection H as <- <-; by exists fin, done, buf].
    destruct (finish_slot_spec _ _ _ _ evs Eh T1) as [Ha Hout]. apply (assembling_mono _ evs' _ Hs) in Ha.
    destruct fi as [[[b f] missing]|].
    + destruct Hout as (Hau & Hof & Hk). eapply (finish_block_ok evs' fin done buf); [by apply Hsame|done|by eapply authentic_mono| |done|exact H].
      eapply tracing_step; [exact T|done|set_solver| |done]. intros k q Hq. destruct (Hk k q Hq) as [?|[-> Hin]]; [by left|right].
      exists b. split; [set_solver|]. split; [done|by left].
    + assert (T' : tracing evs' fin a) by (eapply tracing_step; [exact T|done|done|intros k q Hq; left; by apply Hout|done]).
      injection H as <- <-. cbn [fu_rows set_assembler]. destruct (rows_empty (fu_rows s)) eqn:Ee; [|exists fin, done, buf; split_and!; done].
      pose proof (buffered_empty _ _ _ _ B Ee) as ->. exists fin, done, []. split_and!; [by apply commit_ok; [apply Hsame| |]| | |]; unfold commit_if_assembled; case_match; done.
Qed.

Lemma flush_and_commit_ok evs s s' res :
  running_ok evs s -> flush_and_commit fetch_stored_footers args s = (s', res) ->
  match res with Err _ => left_behind evs s' | Ok _ => running_ok evs s' end.
Proof.
  intros (fin & done & buf & L & B & T & Hd) H. unfold flush_and_commit in H. destruct (flush_rows _ _ _) as [s1 r1] eqn:Ef.
  destruct (flush_rows_ok _ _ _ _ _ _ _ L Ef) as [(F1 & F2 & F3) [[(e & ->) L1]|(-> & L1 & B1)]]; injection H as <- <-; [by exists fin, done, buf|].
  assert (T1 : tracing evs fin (fu_assembler s1)) by (by rewrite F1). assert (Hd1 : fu_delivered s1 = zlen evs) by congruence.
  exists fin, (done ++ buf), []. destruct (negb _); [|by split_and!]. split_and!; [by apply commit_ok| | |]; unfold commit_if_assembled; by case_match.
Qed.

Lemma stop_ok evs fin done buf slot s s' res :
  ledger evs fin done buf s -> buffered done buf (fu_rows s) (fu_world s) -> stop_at_historical_bound fetch_stored_footers args slot s = (s', res) ->
  match res with
  | Ok false => frame s s' /\ ledger evs fin done buf s' /\ buffered done buf (fu_rows s') (fu_world s')
  | _ => left_behind evs s'
  end.
Proof.
  intros L B H. unfold stop_at_historical_bound in H. destruct (fumarole_bound args) as [bound|]; [|by injection H as <- <-].
  set (s1 := if bound <? slot then _ else s) in H.
  assert (H1 : frame s s1 /\ fu_rows s1 = fu_rows s /\ fu_world s1 = fu_world s) by (unfold s1, frame; destruct (bound <? slot); done).
  destruct H1 as ((F1 & F2 & F3) & E1 & E2).
  assert (L1 : ledger evs fin done buf s1) by (destruct L; constructor; by rewrite ?E1, ?E2, ?F2, ?F3).
  destruct (negb _ || _)%bool; [injection H as <- <-; rewrite E1, E2; done|].
  destruct (flush_rows _ _ _) as [s2 r2] eqn:Ef. destruct (flush_rows_ok _ _ _ _ _ _ _ L1 Ef) as [_ [[(e & ->) L2]|(-> & L2 & _)]]; injection H as <- <-.
  - by exists fin, done, buf.
  - by exists fin, (done ++ buf), [].
Qed.

Definition run_ok (evs : list StreamEvent) (r : FumaroleRun) : Prop :=
  match r with FRunning s => running_ok evs s | FReturned s _ => left_behind evs s end.

Lemma stream_step_ok evs e rss s :
  running_ok evs s ->
  run_ok (evs ++ [e]) (stream_step codecs fetch_stored_footers args e rss s).
Proof.
  intros (fin & done & buf & L & B & T & Hd). unfold stream_step.
  set (s0 := mkFumarole _ _ _ _ _ _). assert (Hd0 : fu_delivered s0 = zlen (evs ++ [e])) by (unfold s0, zlen in *; cbn; rewrite length_app; cbn; lia).
  assert (L0 : ledger (evs ++ [e]) fin done buf s0).
  { apply (ledger_more evs e _ _ _ s); [done|done|done|done|]. destruct L as [_ _ _ _ Hr]. unfold s0. cbn. lia. }
  destruct (stop_at_historical_bound _ _ _ s0) as [s1 r1] eqn:E1. pose proof (stop_ok _ _ _ _ _ _ _ _ L0 B E1) as H1.
  destruct r1 as [[]|err]; [done| |done]. destruct H1 as ((F1 & F2 & F3) & L1 & B1).
  assert (T1 : tracing evs fin (fu_assembler s1)) by (by rewrite F1). rewrite Hd0 in F2.
  destruct (fu_bound_exceeded s1 && _)%bool eqn:Eb.
  { apply andb_prop in Eb as [_ Eb]. cbn [run_ok]. exists fin, done, buf. split_and!; [done|done| |done].
    eapply tracing_step; [exact T1|eapply assembling_mono; [|by destruct T1]; set_solver|done|by left|].
    destruct e as [key p len|]; [|done]. intros _ Hw. unfold within_bound in Hw. destruct (fumarole_bound args); [|done]. cbn in Eb. lia. }
  destruct (consume _ _ _ e s1) as [s2 r2] eqn:E2. pose proof (consume_ok _ _ _ _ _ _ _ _ L1 B1 T1 F2 E2) as H2.
  destruct r2 as [[]|err]; [|done]. destruct H2 as (fin2 & done2 & buf2 & L2 & B2 & T2 & Hd2).
  destruct (stop_at_historical_bound _ _ _ s2) as [s3 r3] eqn:E3. pose proof (stop_ok _ _ _ _ _ _ _ _ L2 B2 E3) as H3.
  destruct r3 as [[]|err]; [done| |done]. destruct H3 as ((G1 & G2 & G3) & L3 & B3).
  assert (R3 : running_ok (evs ++ [e]) s3) by (exists fin2, done2, buf2; split_and!; [done|done|by rewrite G1|congruence]).
  unfold maybe_flush_for_pressure. destruct (negb _); [done|]. destruct (rows_empty _); [done|].
  destruct (flush_and_commit _ _ s3) as [s4 [[]|err]] eqn:E4; apply (flush_and_commit_ok _ _ _ _ R3 E4).
Qed.

Definition stream_events (e : LoopEvent) : list StreamEvent := match e with Streamed e _ => [e] | _ => [] end.

Lemma left_behind_more evs e s : left_behind evs s -> left_behind (evs ++ [e]) s.
Proof. intros (fin & done & buf & L). exists fin, done, buf. apply (ledger_more evs e _ _ _ s); [done..|]. destruct L as [_ _ _ _ Hr]. lia. Qed.

Lemma fumarole_step_ok evs r e :
  run_ok evs r -> run_ok (evs ++ stream_events e) (fumarole_step codecs fetch_stored_footers args r e).
Proof.
  intros Hr. destruct r as [s|s res]; cbn [fumarole_step].
  - destruct e as [e rss| | |]; cbn [stream_events]; rewrite ?app_nil_r; [by apply stream_step_ok| | |];
      destruct (flush_and_commit _ _ s) as [s1 [[]|err]] eqn:E1; pose proof (flush_and_commit_ok _ _ _ _ Hr E1) as H1; cbn; try done; by apply running_left.
  - destruct e; cbn [stream_events]; rewrite ?app_nil_r; try done. by apply left_behind_more.
Qed.

Lemma fumarole_run_ok events : forall evs r,
  run_ok evs r ->
  run_ok (evs ++ concat (map stream_events events)) (foldl (fumarole_step codecs fetch_stored_footers args) r events).
Proof.
  induction events as [|e events IH]; intros evs r Hr; cbn [map concat foldl]; [by rewrite app_nil_r|]. rewrite app_assoc. by apply IH, fumarole_step_ok.
Qed.

Lemma fumarole_start_ok ceiling answers : run_ok [] (fumarole_start args ceiling answers).
Proof.
  assert (He : [] = buffered_entries (fa_entries_configured args) []) by (unfold buffered_entries; by destruct (fa_entries_configured args)).
  exists [], [], []. cbn [fu_rows fu_world fu_assembler fu_delivered]. split_and!; [| |constructor; [apply map_Forall_empty|constructor]|done].
  - constructor; [|constructor|constructor|by intros i e Hi|done].
    constructor; [exists []; split; [constructor|done]|by left|by left|by left|constructor|by intros row Hr%elem_of_nil|done].
  - constructor; [done|done|done|by intros row Hr%elem_of_nil].
Qed.

Lemma fumarole_left ceiling answers events :
  left_behind (concat (map stream_events events))
    (run_state (fumarole_run codecs fetch_stored_footers args ceiling answers events)).
Proof.
  pose proof (fumarole_run_ok events [] _ (fumarole_start_ok ceiling answers)) as H. cbn [app] in H. unfold fumarole_run.
  destruct (foldl _ _ _); cbn [run_ok run_state] in *; [by apply running_left|done].
Qed.

(** C10: what the persisted stream is told to forget is in the database.  Whatever the stream
    delivers, in any order over any number of banks, whenever the process flushes, stops or
    fails, and whether the database stores, refuses or stores without acknowledging each
    insert: a block metadata, transaction, entry or whole block whose delivery has been
    acknowledged, for a slot the configuration asks for, is part of a complete block of its
    own bank, or superseded by a complete block delivered for that bank, and the metadata row,
    every transaction and, with an entries table, every entry of that block are in the tables. *)
Theorem fumarole_commit_durable ceiling answers events i key p len :
  let evs := concat (map stream_events events) in
  let s := run_state (fumarole_run codecs fetch_stored_footers args ceiling answers events) in
  evs !! i = Some (Data key p len) -> Z.of_nat i < fu_acknowledged s -> content p = true -> within_bound (fst key) ->
  exists b q, carries evs key p b /\ prepared b q /\ stored (fu_world s) (core q).
Proof.
  intros evs s Hi Hlt Hc Hw. destruct (fumarole_left ceiling answers events) as (fin & done & buf & [_ _ _ Hack _]). by apply (Hack i _ Hi Hlt).
Qed.

(** C29: banks do not mix.  Every metadata row the Fumarole source stores is the row of a
    complete block at or below the historical bound whose metadata, transactions and entries
    were all delivered for one bank, the block's slot and sealed blockhash, or that was
    delivered whole for that bank; only the identity and footer columns may differ. *)
Theorem fumarole_rows_authentic ceiling answers events row :
  let evs := concat (map stream_events events) in
  let s := run_state (fumarole_run codecs fetch_stored_footers args ceiling answers events) in
  row ∈ block_table (fu_world s) ->
  exists b q, prepared b q /\ strip row = strip (p_metadata q) /\ authentic evs b /\ within_bound (bk_slot b).
Proof.
  intros evs s Hrow. destruct (fumarole_left ceiling answers events) as (fin & done & buf & [P1 P2 P3 _ _]).
  pose proof P1 as [(ps & Hps & E) _ _ _ _ Htab _]. 
  assert (Hin : strip row ∈ map c_row (done ++ buf ++ [])).
  { rewrite !map_app, !elem_of_app. destruct (Htab row Hrow) as [?|[? _]]; tauto. }
  rewrite <- E, map_map in Hin. apply list_elem_of_fmap in Hin as (q & Eq & [j Hj]%list_elem_of_lookup_1).
  destruct (Forall2_lookup_r _ _ _ _ _ Hps Hj) as (b & Hb & Hprep). apply list_elem_of_lookup_2 in Hb. exists b, q.
  split_and!; [done|done|by apply (proj1 (Forall_forall _ _) P2)|by apply (proj1 (Forall_forall _ _) P3)].
Qed.
End Sound.
