(* ===== verification/Hydration.v ===== *)
(** * Hydration: stored rows as transactions

    Models [crates/superbank-rpc/src/hydration/transaction.rs] and [meta.rs], the records of
    [clickhouse/types.rs] and the row conversions of [clickhouse/rows.rs]: how the server
    rebuilds a transaction and its status metadata from the columns of a row.  Base58 and JSON
    are parameters. *)

From Stdlib Require Import Ascii String.
From S2P Require Import Prelude Text Sdk.

Open Scope string_scope.
Open Scope list_scope.
Open Scope Z_scope.

(** Why a stored row is refused, one reason per message of the source. *)
Inductive Reason :=
| SignatureCount | AccountKeysShort | InstructionArrays | LegacyLookups | V1Lookups | LookupArrays | MissingMetadataVersion
| LegacyLoadedAddresses | MissingPrimarySignature | PayloadRequired
| ErrWithStatusOk | ErrMissing | InnerWithoutFlag | LogsWithoutFlag | TokensWithoutFlag | RewardsWithoutFlag
| InnerGroups | InnerArrays | TokenArrays | RewardArraysMismatch | UnknownRewardType
| ReturnWithoutProgram | ReturnWithoutData | ReturnWithoutFlag.

Inductive TransactionHydrationError :=
| InvalidStoredTransaction (r : Reason) | InvalidStoredMetadata (r : Reason) | TransactionErrorParse | UnsupportedTransactionVersion (v : Z).

(** ** Rows and records *)

Record TransactionRow := mkRow { r_signature : list Z; r_slot : Z; r_slot_idx : Z; r_block_time : option Z; r_columns : TxColumns bool }.
Record BlockFullTransactionRow := mkFullRow { fr_slot_idx : Z; fr_columns : TxColumns bool }.
Record StoredTransactionRecord := mkStored { s_signature : list Z; s_slot : Z; s_slot_idx : Z; s_block_time : option Z; s_columns : TxColumns bool }.

(** The columns of an accounts-only row. *)
Record AccountsColumns := mkAccounts {
  ac_tx_version : option Z; ac_tx_signatures : list (list Z); ac_tx_header : MessageHeader; ac_tx_account_keys : list (list Z);
  ac_tx_instructions_program_id_index : list Z; ac_meta_status_ok : bool; ac_meta_err : option string; ac_meta_fee : Z;
  ac_meta_pre_balances : list Z; ac_meta_post_balances : list Z; ac_meta_pre_token_balances_present : bool; ac_meta_pre_token : TokenColumns;
  ac_meta_post_token_balances_present : bool; ac_meta_post_token : TokenColumns; ac_meta_rewards_present : bool; ac_meta_reward : RewardArrays;
  ac_meta_loaded_addresses_writable : list (list Z); ac_meta_loaded_addresses_readonly : list (list Z);
}.
Record BlockAccountsTransactionRow := mkAccountsRow { ar_columns : AccountsColumns }.
Record StoredAccountsTransactionRecord := mkStoredAccounts { sa_columns : AccountsColumns }.

(** [map_transaction_row], [map_block_accounts_transaction_row]: the newtypes of byte arrays are dropped. *)
Definition map_transaction_row (row : TransactionRow) : StoredTransactionRecord :=
  mkStored (r_signature row) (r_slot row) (r_slot_idx row) (r_block_time row) (r_columns row).
Definition map_block_accounts_transaction_row (row : BlockAccountsTransactionRow) : StoredAccountsTransactionRecord :=
  mkStoredAccounts (ar_columns row).

(** [primary_block_signature], [map_block_full_transaction_row] *)
Definition primary_block_signature (tx_signatures : list (list Z)) : result (list Z) TransactionHydrationError :=
  ok_or (head tx_signatures) (InvalidStoredTransaction MissingPrimarySignature).
Definition map_block_full_transaction_row (row : BlockFullTransactionRow) (slot : Z) : result StoredTransactionRecord TransactionHydrationError :=
  let? signature := primary_block_signature (tx_signatures (fr_columns row)) in
  Ok (mkStored signature slot (fr_slot_idx row) None (fr_columns row)).

(** [From<StoredTransactionRecord> for StoredAccountsTransactionRecord] *)
Definition accounts_of (record : StoredTransactionRecord) : StoredAccountsTransactionRecord :=
  let c := s_columns record in
  mkStoredAccounts (mkAccounts (tx_version c) (tx_signatures c) (tx_header c) (tx_account_keys c) (ic_program_id_index (tx_instructions c))
    (meta_status_ok c) (meta_err c) (meta_fee c) (meta_pre_balances c) (meta_post_balances c)
    (meta_pre_token_balances_present c) (meta_pre_token c) (meta_post_token_balances_present c) (meta_post_token c)
    (meta_rewards_present c) (meta_reward c) (meta_loaded_addresses_writable c) (meta_loaded_addresses_readonly c)).

Definition is_nil {A} (l : list A) : bool := match l with [] => true | _ => false end.

(** ** Transactions *)

(** [build_compiled_instructions]: the loop after the check of the lengths. *)
Fixpoint zip_instructions (ids : list Z) (accounts data : list (list Z)) : list CompiledInstruction :=
  match ids, accounts, data with
  | id :: ids, a :: accounts, d :: data => mkInstruction id a d :: zip_instructions ids accounts data
  | _, _, _ => []
  end.
Definition build_compiled_instructions (c : InstructionColumns) : result (list CompiledInstruction) TransactionHydrationError :=
  let? _ := ensure ((zlen (ic_program_id_index c) =? zlen (ic_accounts c)) && (zlen (ic_program_id_index c) =? zlen (ic_data c)))
              (InvalidStoredTransaction InstructionArrays) in
  Ok (zip_instructions (ic_program_id_index c) (ic_accounts c) (ic_data c)).

(** [build_address_table_lookups] *)
Fixpoint zip_lookups (keys writable readonly : list (list Z)) : list AddressTableLookup :=
  match keys, writable, readonly with
  | k :: keys, w :: writable, r :: readonly => mkLookup k w r :: zip_lookups keys writable readonly
  | _, _, _ => []
  end.
Definition build_address_table_lookups (c : LookupColumns) : result (list AddressTableLookup) TransactionHydrationError :=
  let? _ := ensure ((zlen (lc_writable_indexes c) =? zlen (lc_account_key c)) && (zlen (lc_readonly_indexes c) =? zlen (lc_account_key c)))
              (InvalidStoredTransaction LookupArrays) in
  Ok (zip_lookups (lc_account_key c) (lc_writable_indexes c) (lc_readonly_indexes c)).

(** [build_accounts_compiled_instructions] *)
Definition build_accounts_compiled_instructions (program_id_indexes : list Z) : list CompiledInstruction :=
  map (fun id => mkInstruction id [] []) program_id_indexes.

(** The checks on the signatures and account keys that every builder starts with. *)
Definition check_signers (header : MessageHeader) (signatures account_keys : list (list Z)) : result unit TransactionHydrationError :=
  let? _ := ensure (zlen signatures =? num_required_signatures header) (InvalidStoredTransaction SignatureCount) in
  ensure (num_required_signatures header <=? zlen account_keys) (InvalidStoredTransaction AccountKeysShort).

Definition has_lookups (c : TxColumns bool) : bool :=
  tx_address_table_lookups_present c || negb (is_nil (lc_account_key (tx_address_table_lookup c))) ||
  negb (is_nil (lc_writable_indexes (tx_address_table_lookup c))) || negb (is_nil (lc_readonly_indexes (tx_address_table_lookup c))).

(** [build_versioned_transaction] *)
Definition build_versioned_transaction (c : TxColumns bool) : result VersionedTransaction TransactionHydrationError :=
  let header := tx_header c in
  let? _ := check_signers header (tx_signatures c) (tx_account_keys c) in
  let? instructions := build_compiled_instructions (tx_instructions c) in
  let? message :=
    match tx_version c with
    | None =>
        let? _ := ensure (negb (has_lookups c)) (InvalidStoredTransaction LegacyLookups) in
        Ok (LegacyMessage header (tx_account_keys c) (tx_recent_blockhash c) instructions)
    | Some version =>
        if version =? 0 then
          let? lookups := build_address_table_lookups (tx_address_table_lookup c) in
          Ok (MessageV0 header (tx_account_keys c) (tx_recent_blockhash c) instructions lookups)
        else if version =? 1 then
          let? _ := ensure (negb (has_lookups c)) (InvalidStoredTransaction V1Lookups) in
          Ok (MessageV1 header (tx_config c) (tx_recent_blockhash c) (tx_account_keys c) instructions)
        else Err (UnsupportedTransactionVersion version)
    end in
  Ok (mkVersionedTx (tx_signatures c) message).

(** [build_legacy_transaction]: a transaction whose metadata is missing. *)
Definition build_legacy_transaction (c : TxColumns bool) : result TransactionWithStatusMeta TransactionHydrationError :=
  let? _ := ensure (negb (bool_decide (is_Some (tx_version c)))) (InvalidStoredTransaction MissingMetadataVersion) in
  let? _ := ensure (negb (has_lookups c)) (InvalidStoredTransaction LegacyLookups) in
  let? _ := check_signers (tx_header c) (tx_signatures c) (tx_account_keys c) in
  let? instructions := build_compiled_instructions (tx_instructions c) in
  Ok (MissingMetadata (tx_signatures c) (tx_header c) (tx_account_keys c) (tx_recent_blockhash c) instructions).

(** [Hash::default()] *)
Definition hash_default : list Z := replicate 32 0.

(** [build_accounts_versioned_transaction], [build_accounts_legacy_transaction] *)
Definition build_accounts_versioned_transaction (c : AccountsColumns) : result VersionedTransaction TransactionHydrationError :=
  let header := ac_tx_header c in
  let? _ := check_signers header (ac_tx_signatures c) (ac_tx_account_keys c) in
  let instructions := build_accounts_compiled_instructions (ac_tx_instructions_program_id_index c) in
  let? message :=
    match ac_tx_version c with
    | None =>
        let? _ := ensure (is_nil (ac_meta_loaded_addresses_writable c) && is_nil (ac_meta_loaded_addresses_readonly c))
                    (InvalidStoredTransaction LegacyLoadedAddresses) in
        Ok (LegacyMessage header (ac_tx_account_keys c) hash_default instructions)
    | Some version =>
        if version =? 0 then Ok (MessageV0 header (ac_tx_account_keys c) hash_default instructions [])
        else if version =? 1 then Ok (MessageV1 header (mkConfig None None None None) hash_default (ac_tx_account_keys c) instructions)
        else Err (UnsupportedTransactionVersion version)
    end in
  Ok (mkVersionedTx (ac_tx_signatures c) message).
Definition build_accounts_legacy_transaction (c : AccountsColumns) : result TransactionWithStatusMeta TransactionHydrationError :=
  let? _ := ensure (negb (bool_decide (is_Some (ac_tx_version c)))) (InvalidStoredTransaction MissingMetadataVersion) in
  let? _ := ensure (is_nil (ac_meta_loaded_addresses_writable c) && is_nil (ac_meta_loaded_addresses_readonly c))
              (InvalidStoredTransaction LegacyLoadedAddresses) in
  let? _ := check_signers (ac_tx_header c) (ac_tx_signatures c) (ac_tx_account_keys c) in
  Ok (MissingMetadata (ac_tx_signatures c) (ac_tx_header c) (ac_tx_account_keys c) hash_default
        (build_accounts_compiled_instructions (ac_tx_instructions_program_id_index c))).

(** ** Metadata *)

Definition token_columns_empty (t : TokenColumns) : bool :=
  is_nil (tc_account_index t) && is_nil (tc_mint t) && is_nil (tc_owner t) && is_nil (tc_program_id t) && is_nil (tc_amount t) &&
  is_nil (tc_decimals t) && is_nil (tc_ui_amount t) && is_nil (tc_ui_amount_string t).
Definition reward_arrays_empty (r : RewardArrays) : bool :=
  is_nil (ra_pubkey r) && is_nil (ra_lamports r) && is_nil (ra_post_balance r) && is_nil (ra_type r) && is_nil (ra_commission r) &&
  is_nil (ra_commission_bps r).
Definition inner_columns_empty (n : InnerColumns) : bool :=
  is_nil (nc_index n) && is_nil (nc_program_id_index n) && is_nil (nc_accounts n) && is_nil (nc_data n) && is_nil (nc_stack_height n).

(** [meta_is_missing], [accounts_meta_is_missing] *)
Definition meta_is_missing (c : TxColumns bool) : bool :=
  meta_status_ok c && negb (bool_decide (is_Some (meta_err c))) && (meta_fee c =? 0) && is_nil (meta_pre_balances c) &&
  is_nil (meta_post_balances c) && negb (meta_inner_instructions_present c) && inner_columns_empty (meta_inner_instructions c) &&
  negb (meta_log_messages_present c) && is_nil (meta_log_messages c) &&
  negb (meta_pre_token_balances_present c) && token_columns_empty (meta_pre_token c) &&
  negb (meta_post_token_balances_present c) && token_columns_empty (meta_post_token c) &&
  negb (meta_rewards_present c) && reward_arrays_empty (meta_reward c) &&
  is_nil (meta_loaded_addresses_writable c) && is_nil (meta_loaded_addresses_readonly c) &&
  negb (meta_return_data_present c) && negb (bool_decide (is_Some (meta_return_data_program_id c))) &&
  negb (bool_decide (is_Some (meta_return_data_data c))) &&
  negb (bool_decide (is_Some (meta_compute_units_consumed c))) && negb (bool_decide (is_Some (meta_cost_units c))).
Definition accounts_meta_is_missing (c : AccountsColumns) : bool :=
  ac_meta_status_ok c && negb (bool_decide (is_Some (ac_meta_err c))) && (ac_meta_fee c =? 0) && is_nil (ac_meta_pre_balances c) &&
  is_nil (ac_meta_post_balances c) &&
  negb (ac_meta_pre_token_balances_present c) && token_columns_empty (ac_meta_pre_token c) &&
  negb (ac_meta_post_token_balances_present c) && token_columns_empty (ac_meta_post_token c) &&
  negb (ac_meta_rewards_present c) && reward_arrays_empty (ac_meta_reward c) &&
  is_nil (ac_meta_loaded_addresses_writable c) && is_nil (ac_meta_loaded_addresses_readonly c).

(** [build_inner_instructions]: the inner and the outer loop. *)
Fixpoint zip_inner (ids : list Z) (accounts data : list (list Z)) (heights : list (option Z)) : list InnerInstruction :=
  match ids, accounts, data, heights with
  | id :: ids, a :: accounts, d :: data, h :: heights => mkInner (mkInstruction id a d) h :: zip_inner ids accounts data heights
  | _, _, _, _ => []
  end.
Fixpoint zip_groups (index : list Z) (ids : list (list Z)) (accounts data : list (list (list Z))) (heights : list (list (option Z))) :
    result (list InnerInstructions) TransactionHydrationError :=
  match index, ids, accounts, data, heights with
  | i :: index, id :: ids, a :: accounts, d :: data, h :: heights =>
      let? _ := ensure ((zlen id =? zlen a) && (zlen id =? zlen d) && (zlen id =? zlen h)) (InvalidStoredMetadata InnerArrays) in
      let? rest := zip_groups index ids accounts data heights in
      Ok (mkInners i (zip_inner id a d h) :: rest)
  | _, _, _, _, _ => Ok []
  end.
Definition build_inner_instructions (n : InnerColumns) : result (list InnerInstructions) TransactionHydrationError :=
  let len := zlen (nc_index n) in
  let? _ := ensure ((zlen (nc_program_id_index n) =? len) && (zlen (nc_accounts n) =? len) && (zlen (nc_data n) =? len) &&
                    (zlen (nc_stack_height n) =? len)) (InvalidStoredMetadata InnerGroups) in
  zip_groups (nc_index n) (nc_program_id_index n) (nc_accounts n) (nc_data n) (nc_stack_height n).

(** [parse_reward_type], [parse_reward_type_name] *)
Definition to_ascii_lowercase (s : string) : string :=
  String.string_of_list_ascii (map (fun c => let n := Ascii.nat_of_ascii c in
    if ((65 <=? n) && (n <=? 90))%nat then Ascii.ascii_of_nat (n + 32) else c) (String.list_ascii_of_string s)).
Definition reward_types : list (string * RewardType) :=
  [ ("fee", Fee); ("rent", Rent); ("staking", Staking); ("voting", Voting); ("deactivatedstake", DeactivatedStake);
    ("deactivated-stake", DeactivatedStake); ("vatdebit", VATDebit); ("validator-admission-ticket-debit", VATDebit) ]%string.
Definition table_get {A} (key : string) (table : list (string * A)) : option A :=
  snd <$> find (fun e => String.eqb (fst e) key) table.
Definition parse_reward_type (value : option string) : result (option RewardType) TransactionHydrationError :=
  match value with
  | None => Ok None
  | Some name =>
      let? t := ok_or (table_get (to_ascii_lowercase (trim name)) reward_types) (InvalidStoredMetadata UnknownRewardType) in Ok (Some t)
  end.

(** [build_rewards_from_fields] *)
Fixpoint zip_rewards (pubkeys : list string) (lamports balances : list Z) (types : list (option string)) (commissions bps : list (option Z)) :
    result (list SdkReward) TransactionHydrationError :=
  match pubkeys, lamports, balances, types, commissions with
  | p :: pubkeys, l :: lamports, b :: balances, t :: types, c :: commissions =>
      let? kind := parse_reward_type t in
      let? rest := zip_rewards pubkeys lamports balances types commissions (tail bps) in
      Ok (mkSdkReward p l b kind c (mjoin (head bps)) :: rest)
  | _, _, _, _, _ => Ok []
  end.
Definition build_rewards_from_fields (r : RewardArrays) : result (list SdkReward) TransactionHydrationError :=
  let len := zlen (ra_pubkey r) in
  let? _ := ensure ((zlen (ra_lamports r) =? len) && (zlen (ra_post_balance r) =? len) && (zlen (ra_type r) =? len) &&
                    (zlen (ra_commission r) =? len) && (is_nil (ra_commission_bps r) || (zlen (ra_commission_bps r) =? len)))
              (InvalidStoredMetadata RewardArraysMismatch) in
  zip_rewards (ra_pubkey r) (ra_lamports r) (ra_post_balance r) (ra_type r) (ra_commission r) (ra_commission_bps r).

(** ** Error texts *)

(** [str::strip_prefix], [strip_suffix], [split_once] on a string pattern. *)
Fixpoint strip_prefix (prefix s : string) : option string :=
  match prefix, s with
  | EmptyString, _ => Some s
  | String p prefix, String c s => if Ascii.eqb p c then strip_prefix prefix s else None
  | String _ _, EmptyString => None
  end.
Fixpoint strip_suffix (suffix s : string) : option string :=
  if String.eqb s suffix then Some EmptyString
  else match s with
       | EmptyString => None
       | String c s => match strip_suffix suffix s with Some r => Some (String c r) | None => None end
       end.
Fixpoint split_once_at (pattern s : string) : option (string * string) :=
  match strip_prefix pattern s with
  | Some rest => Some (EmptyString, rest)
  | None =>
      match s with
      | EmptyString => None
      | String c s => match split_once_at pattern s with Some (a, b) => Some (String c a, b) | None => None end
      end
  end.

(** [parse::<u8>], [u32::from_str_radix(_, 16)] *)
Definition parse_u8 (s : string) : option Z := match parse_u64 s with Some n => if n <=? 255 then Some n else None | None => None end.
Definition hex_digit (c : Ascii.ascii) : option Z :=
  let n := Z.of_nat (Ascii.nat_of_ascii c) in
  if ((48 <=? n) && (n <=? 57))%bool then Some (n - 48)
  else if ((97 <=? n) && (n <=? 102))%bool then Some (n - 87)
  else if ((65 <=? n) && (n <=? 70))%bool then Some (n - 55) else None.
Fixpoint parse_hex_digits (s : string) (acc : Z) : option Z :=
  match s with
  | EmptyString => Some acc
  | String c s => match hex_digit c with Some d => parse_hex_digits s (acc * 16 + d) | None => None end
  end.
Definition parse_hex_u32 (s : string) : option Z :=
  let digits := match s with String "+"%char rest => rest | _ => s end in
  if is_empty digits then None
  else match parse_hex_digits digits 0 with Some n => if n <=? u32_max then Some n else None | None => None end.

(** [parse_instruction_error_display] *)
Definition instruction_error_texts : list (string * InstructionError) :=
  ([
    ("generic instruction error", IE_GenericError);
    ("invalid program argument", IE_InvalidArgument);
    ("invalid instruction data", IE_InvalidInstructionData);
    ("invalid account data for instruction", IE_InvalidAccountData);
    ("account data too small for instruction", IE_AccountDataTooSmall);
    ("insufficient funds for instruction", IE_InsufficientFunds);
    ("incorrect program id for instruction", IE_IncorrectProgramId);
    ("missing required signature for instruction", IE_MissingRequiredSignature);
    ("instruction requires an uninitialized account", IE_AccountAlreadyInitialized);
    ("instruction requires an initialized account", IE_UninitializedAccount);
    ("sum of account balances before and after instruction do not match", IE_UnbalancedInstruction);
    ("instruction illegally modified the program id of an account", IE_ModifiedProgramId);
    ("instruction spent from the balance of an account it does not own", IE_ExternalAccountLamportSpend);
    ("instruction modified data of an account it does not own", IE_ExternalAccountDataModified);
    ("instruction changed the balance of a read-only account", IE_ReadonlyLamportChange);
    ("instruction modified data of a read-only account", IE_ReadonlyDataModified);
    ("instruction contains duplicate accounts", IE_DuplicateAccountIndex);
    ("instruction changed executable bit of an account", IE_ExecutableModified);
    ("instruction modified rent epoch of an account", IE_RentEpochModified);
    ("insufficient account keys for instruction", IE_NotEnoughAccountKeys);
    ("program other than the account's owner changed the size of the account data", IE_AccountDataSizeChanged);
    ("instruction expected an executable account", IE_AccountNotExecutable);
    ("instruction tries to borrow reference for an account which is already borrowed", IE_AccountBorrowFailed);
    ("instruction left account with an outstanding borrowed reference", IE_AccountBorrowOutstanding);
    ("instruction modifications of multiply-passed account differ", IE_DuplicateAccountOutOfSync);
    ("program returned invalid error code", IE_InvalidError);
    ("instruction changed executable accounts data", IE_ExecutableDataModified);
    ("instruction changed the balance of an executable account", IE_ExecutableLamportChange);
    ("executable accounts must be rent exempt", IE_ExecutableAccountNotRentExempt);
    ("Unsupported program id", IE_UnsupportedProgramId);
    ("Cross-program invocation call depth too deep", IE_CallDepth);
    ("An account required by the instruction is missing", IE_MissingAccount);
    ("Cross-program invocation reentrancy not allowed for this instruction", IE_ReentrancyNotAllowed);
    ("Length of the seed is too long for address generation", IE_MaxSeedLengthExceeded);
    ("Provided seeds do not result in a valid address", IE_InvalidSeeds);
    ("Failed to reallocate account data", IE_InvalidRealloc);
    ("Computational budget exceeded", IE_ComputationalBudgetExceeded);
    ("Cross-program invocation with unauthorized signer or writable account", IE_PrivilegeEscalation);
    ("Failed to create program execution environment", IE_ProgramEnvironmentSetupFailure);
    ("Program failed to complete", IE_ProgramFailedToComplete);
    ("Program failed to compile", IE_ProgramFailedToCompile);
    ("Account is immutable", IE_Immutable);
    ("Incorrect authority provided", IE_IncorrectAuthority);
    ("An account does not have enough lamports to be rent-exempt", IE_AccountNotRentExempt);
    ("Invalid account owner", IE_InvalidAccountOwner);
    ("Program arithmetic overflowed", IE_ArithmeticOverflow);
    ("Unsupported sysvar", IE_UnsupportedSysvar);
    ("Provided owner is not allowed", IE_IllegalOwner);
    ("Accounts data allocations exceeded the maximum allowed per transaction", IE_MaxAccountsDataAllocationsExceeded);
    ("Max accounts exceeded", IE_MaxAccountsExceeded);
    ("Max instruction trace length exceeded", IE_MaxInstructionTraceLengthExceeded);
    ("Builtin programs must consume compute units", IE_BuiltinProgramsMustConsumeComputeUnits)
  ])%string.
Definition BORSH_TEXT : string := "Failed to serialize or deserialize account data".
Definition parse_instruction_error_display (err : string) : option InstructionError :=
  let err := trim err in
  match strip_prefix "custom program error: " err with
  | Some rest => IE_Custom <$> parse_hex_u32 (default rest (strip_prefix "0x" rest))
  | None =>
      if (String.eqb err BORSH_TEXT || bool_decide (is_Some (strip_prefix (BORSH_TEXT ++ ": ") err)))%bool then Some IE_BorshIoError
      else table_get err instruction_error_texts
  end.

(** [parse_transaction_error_display] *)
Definition transaction_error_texts : list (string * TransactionError) :=
  ([
    ("Account in use", TE_AccountInUse);
    ("Account loaded twice", TE_AccountLoadedTwice);
    ("Attempt to debit an account but found no record of a prior credit.", TE_AccountNotFound);
    ("Attempt to load a program that does not exist", TE_ProgramAccountNotFound);
    ("Insufficient funds for fee", TE_InsufficientFundsForFee);
    ("This account may not be used to pay transaction fees", TE_InvalidAccountForFee);
    ("This transaction has already been processed", TE_AlreadyProcessed);
    ("Blockhash not found", TE_BlockhashNotFound);
    ("Loader call chain is too deep", TE_CallChainTooDeep);
    ("Transaction requires a fee but has no signature present", TE_MissingSignatureForFee);
    ("Transaction contains an invalid account reference", TE_InvalidAccountIndex);
    ("Transaction did not pass signature verification", TE_SignatureFailure);
    ("This program may not be used for executing instructions", TE_InvalidProgramForExecution);
    ("Transaction failed to sanitize accounts offsets correctly", TE_SanitizeFailure);
    ("Transactions are currently disabled due to cluster maintenance", TE_ClusterMaintenance);
    ("Transaction processing left an account with an outstanding borrowed reference", TE_AccountBorrowOutstanding);
    ("Transaction would exceed max Block Cost Limit", TE_WouldExceedMaxBlockCostLimit);
    ("Transaction version is unsupported", TE_UnsupportedVersion);
    ("Transaction loads a writable account that cannot be written", TE_InvalidWritableAccount);
    ("Transaction would exceed max account limit within the block", TE_WouldExceedMaxAccountCostLimit);
    ("Transaction would exceed account data limit within the block", TE_WouldExceedAccountDataBlockLimit);
    ("Transaction locked too many accounts", TE_TooManyAccountLocks);
    ("Transaction loads an address table account that doesn't exist", TE_AddressLookupTableNotFound);
    ("Transaction loads an address table account with an invalid owner", TE_InvalidAddressLookupTableOwner);
    ("Transaction loads an address table account with invalid data", TE_InvalidAddressLookupTableData);
    ("Transaction address table lookup uses an invalid index", TE_InvalidAddressLookupTableIndex);
    ("Transaction leaves an account with a lower balance than rent-exempt minimum", TE_InvalidRentPayingAccount);
    ("Transaction would exceed max Vote Cost Limit", TE_WouldExceedMaxVoteCostLimit);
    ("Transaction would exceed total account data limit", TE_WouldExceedAccountDataTotalLimit);
    ("Transaction exceeded max loaded accounts data size cap", TE_MaxLoadedAccountsDataSizeExceeded);
    ("LoadedAccountsDataSizeLimit set for transaction must be greater than 0.", TE_InvalidLoadedAccountsDataSizeLimit);
    ("ResanitizationNeeded", TE_ResanitizationNeeded);
    ("Sum of account balances before and after transaction do not match", TE_UnbalancedTransaction);
    ("Program cache hit max limit", TE_ProgramCacheHitMaxLimit);
    ("CommitCancelled", TE_CommitCancelled)
  ])%string.
Definition between (prefix suffix s : string) : option string := strip_prefix prefix s ≫= strip_suffix suffix.
Definition parse_transaction_error_display (err : string) : option TransactionError :=
  let err := trim err in
  match strip_prefix "Error processing Instruction " err with
  | Some rest =>
      '(index, text) ← split_once_at ": " rest; index ← parse_u8 index; e ← parse_instruction_error_display text; Some (TE_InstructionError index e)
  | None =>
      match between "Transaction contains a duplicate instruction (" ") that is not allowed" err with
      | Some index => TE_DuplicateInstruction <$> parse_u8 index
      | None =>
          match between "Transaction results in an account (" ") with insufficient funds for rent" err with
          | Some index => TE_InsufficientFundsForRent <$> parse_u8 index
          | None =>
              match between "Execution of the program referenced by account at index " " is temporarily restricted." err with
              | Some index => TE_ProgramExecutionTemporarilyRestricted <$> parse_u8 index
              | None => table_get err transaction_error_texts
              end
          end
      end
  end.

(** ** Hydrating *)

(** Functions of other libraries: base58, and the JSON forms of an error and of a string. *)
Record Readers := mkReaders {
  bs58_encode : list Z -> string; json_error : string -> option TransactionError; json_string : string -> option string;
}.

Section Hydrate.
Context (readers : Readers).

(** [parse_transaction_error] *)
Definition parse_transaction_error (err : option string) : result TransactionError TransactionHydrationError :=
  let? err := ok_or err (InvalidStoredMetadata ErrMissing) in
  let trimmed := trim err in
  match json_error readers trimmed with
  | Some parsed => Ok parsed
  | None =>
      match json_string readers trimmed ≫= parse_transaction_error_display with
      | Some parsed => Ok parsed
      | None => ok_or (parse_transaction_error_display trimmed) TransactionErrorParse
      end
  end.

(** [build_token_balances] *)
Definition pubkey_text (key : option (list Z)) : string := match key with Some key => bs58_encode readers key | None => EmptyString end.
Fixpoint zip_tokens (index : list Z) (mint : list (list Z)) (owner program_id : list (option (list Z))) (amount : list string)
    (decimals : list Z) (ui_amount : list (option Z)) (ui_text : list string) : list TransactionTokenBalance :=
  match index, mint, owner, program_id, amount, decimals, ui_amount, ui_text with
  | i :: index, m :: mint, o :: owner, p :: program_id, a :: amount, d :: decimals, u :: ui_amount, t :: ui_text =>
      mkTokenBalance i (bs58_encode readers m) (mkUiAmount a d u t) (pubkey_text o) (pubkey_text p)
        :: zip_tokens index mint owner program_id amount decimals ui_amount ui_text
  | _, _, _, _, _, _, _, _ => []
  end.
Definition build_token_balances (t : TokenColumns) : result (list TransactionTokenBalance) TransactionHydrationError :=
  let len := zlen (tc_account_index t) in
  let? _ := ensure ((zlen (tc_mint t) =? len) && (zlen (tc_owner t) =? len) && (zlen (tc_program_id t) =? len) && (zlen (tc_amount t) =? len) &&
                    (zlen (tc_decimals t) =? len) && (zlen (tc_ui_amount t) =? len) && (zlen (tc_ui_amount_string t) =? len))
              (InvalidStoredMetadata TokenArrays) in
  Ok (zip_tokens (tc_account_index t) (tc_mint t) (tc_owner t) (tc_program_id t) (tc_amount t) (tc_decimals t) (tc_ui_amount t)
        (tc_ui_amount_string t)).

(** The optional fields: built when flagged present, refused when populated without the flag. *)
Definition build_status (ok : bool) (err : option string) : result (result unit TransactionError) TransactionHydrationError :=
  if ok then let? _ := ensure (negb (bool_decide (is_Some err))) (InvalidStoredMetadata ErrWithStatusOk) in Ok (Ok tt)
  else let? e := parse_transaction_error err in Ok (Err e).
Definition build_tokens_if (present : bool) (t : TokenColumns) : result (option (list TransactionTokenBalance)) TransactionHydrationError :=
  if present then let? l := build_token_balances t in Ok (Some l)
  else let? _ := ensure (token_columns_empty t) (InvalidStoredMetadata TokensWithoutFlag) in Ok None.
Definition build_rewards_if (present : bool) (r : RewardArrays) : result (option (list SdkReward)) TransactionHydrationError :=
  if present then let? l := build_rewards_from_fields r in Ok (Some l)
  else let? _ := ensure (reward_arrays_empty r) (InvalidStoredMetadata RewardsWithoutFlag) in Ok (Some []).
Definition build_return_data (c : TxColumns bool) : result (option TransactionReturnData) TransactionHydrationError :=
  if meta_return_data_present c then
    let? program_id := ok_or (meta_return_data_program_id c) (InvalidStoredMetadata ReturnWithoutProgram) in
    let? data := ok_or (meta_return_data_data c) (InvalidStoredMetadata ReturnWithoutData) in
    Ok (Some (mkReturnData program_id data))
  else
    let? _ := ensure (negb (bool_decide (is_Some (meta_return_data_program_id c))) && negb (bool_decide (is_Some (meta_return_data_data c))))
                (InvalidStoredMetadata ReturnWithoutFlag) in
    Ok None.

(** [build_transaction_status_meta] *)
Definition build_transaction_status_meta (c : TxColumns bool) : result (option TransactionStatusMeta) TransactionHydrationError :=
  if meta_is_missing c then Ok None
  else
    let? status := build_status (meta_status_ok c) (meta_err c) in
    let? inner :=
      (if meta_inner_instructions_present c then let? l := build_inner_instructions (meta_inner_instructions c) in Ok (Some l)
       else let? _ := ensure (inner_columns_empty (meta_inner_instructions c)) (InvalidStoredMetadata InnerWithoutFlag) in Ok None) in
    let? logs :=
      (if meta_log_messages_present c then Ok (Some (meta_log_messages c))
       else let? _ := ensure (is_nil (meta_log_messages c)) (InvalidStoredMetadata LogsWithoutFlag) in Ok None) in
    let? pre := build_tokens_if (meta_pre_token_balances_present c) (meta_pre_token c) in
    let? post := build_tokens_if (meta_post_token_balances_present c) (meta_post_token c) in
    let? rewards := build_rewards_if (meta_rewards_present c) (meta_reward c) in
    let? return_data := build_return_data c in
    Ok (Some (mkStatusMeta status (meta_fee c) (meta_pre_balances c) (meta_post_balances c) inner logs pre post rewards
                (meta_loaded_addresses_writable c) (meta_loaded_addresses_readonly c) return_data
                (meta_compute_units_consumed c) (meta_cost_units c))).

(** [build_transaction_status_meta_for_accounts] *)
Definition build_transaction_status_meta_for_accounts (c : AccountsColumns) : result (option TransactionStatusMeta) TransactionHydrationError :=
  if accounts_meta_is_missing c then Ok None
  else
    let? status := build_status (ac_meta_status_ok c) (ac_meta_err c) in
    let? pre := build_tokens_if (ac_meta_pre_token_balances_present c) (ac_meta_pre_token c) in
    let? post := build_tokens_if (ac_meta_post_token_balances_present c) (ac_meta_post_token c) in
    let? rewards := build_rewards_if (ac_meta_rewards_present c) (ac_meta_reward c) in
    Ok (Some (mkStatusMeta status (ac_meta_fee c) (ac_meta_pre_balances c) (ac_meta_post_balances c) None None pre post rewards
                (ac_meta_loaded_addresses_writable c) (ac_meta_loaded_addresses_readonly c) None None None)).

(** [hydrate_full_transaction], [hydrate_accounts_transaction] *)
Definition hydrate_full_transaction (record : StoredTransactionRecord) : result TransactionWithStatusMeta TransactionHydrationError :=
  let c := s_columns record in
  let? meta := build_transaction_status_meta c in
  match meta with
  | Some meta => let? transaction := build_versioned_transaction c in Ok (Complete transaction meta)
  | None => build_legacy_transaction c
  end.
Definition hydrate_accounts_transaction (record : StoredAccountsTransactionRecord) : result TransactionWithStatusMeta TransactionHydrationError :=
  let c := sa_columns record in
  let? meta := build_transaction_status_meta_for_accounts c in
  match meta with
  | Some meta => let? transaction := build_accounts_versioned_transaction c in Ok (Complete transaction meta)
  | None => build_accounts_legacy_transaction c
  end.

(** [hydrate_transaction_record]: the encoding of the SDK is [encode]. *)
Definition nonzero_time (t : option Z) : option Z := match t with Some v => if v =? 0 then None else Some v | None => None end.
Definition hydrate_transaction_record {E} (encode : TransactionWithStatusMeta -> result E TransactionHydrationError) (record : StoredTransactionRecord) :
    result (Z * E * option Z * Z) TransactionHydrationError :=
  let? tx := hydrate_full_transaction record in
  let? transaction := encode tx in
  Ok (s_slot record, transaction, nonzero_time (s_block_time record), s_slot_idx record).
End Hydrate.
