(* ===== verification/HydrationSound.v ===== *)
(** * HydrationSound: what was streamed is what is served

    A transaction that the ingestor turns into a row and the server rebuilds from the columns
    is the streamed one: its message is the one whose hash the row carries, and its status
    metadata is the streamed metadata.  In between the database keeps every column, a flag
    being a byte on one side and a [bool] on the other. *)

From S2P Require Import Prelude Text Sdk IngestTx IngestBlockSound Hydration.

Open Scope list_scope.
Open Scope Z_scope.

(** ** Reading a stored row *)

Definition read_flag (b : Z) : bool := negb (b =? 0).
Definition read_columns (c : TxColumns Z) : TxColumns bool :=
  mkColumns (read_flag (is_vote c)) (tx_version c) (tx_config c) (tx_signatures c) (tx_header c) (tx_account_keys c) (tx_recent_blockhash c)
    (tx_instructions c) (read_flag (tx_address_table_lookups_present c)) (tx_address_table_lookup c) (read_flag (meta_status_ok c)) (meta_err c)
    (meta_fee c) (meta_pre_balances c) (meta_post_balances c) (read_flag (meta_inner_instructions_present c)) (meta_inner_instructions c)
    (read_flag (meta_log_messages_present c)) (meta_log_messages c) (read_flag (meta_pre_token_balances_present c)) (meta_pre_token c)
    (read_flag (meta_post_token_balances_present c)) (meta_post_token c) (read_flag (meta_rewards_present c)) (meta_reward c)
    (meta_loaded_addresses_writable c) (meta_loaded_addresses_readonly c) (read_flag (meta_return_data_present c))
    (meta_return_data_program_id c) (meta_return_data_data c) (meta_compute_units_consumed c) (meta_cost_units c).
Definition read_row (row : IngestTx.TransactionRow) : Hydration.TransactionRow :=
  mkRow (t_signature row) (t_slot row) (t_slot_idx row) (t_block_time row) (read_columns (t_columns row)).

(** ** Conversions and their inverses *)

Lemma try_u8_ok x y : try_u8 x = Ok y -> y = x.
Proof. unfold try_u8. case_match; [by intros [= <-]|done]. Qed.

Lemma bytes_ok n x y : bytes_to_array n x = Ok y -> y = x.
Proof. unfold bytes_to_array. case_match; [by intros [= <-]|done]. Qed.

Lemma map_rows_id {A} (f : A -> result A IngestError) (Hf : forall x y, f x = Ok y -> y = x) l : forall k, map_rows f l = Ok k -> k = l.
Proof.
  induction l as [|x l IH]; intros k H; cbn in H; [by injection H as <-|]. apply rbind_ok in H as (y & Hy & H).
  apply rbind_ok in H as (ys & Hys & [= <-]). by rewrite (Hf _ _ Hy), (IH _ Hys).
Qed.

Lemma create_instruction_ok ix y : create_instruction ix = Ok y -> y = ix.
Proof. unfold create_instruction. intros (i & ->%try_u8_ok & [= <-])%rbind_ok. by destruct ix. Qed.

Lemma create_lookup_ok l y : create_lookup l = Ok y -> y = l.
Proof. unfold create_lookup. intros (i & ->%bytes_ok & [= <-])%rbind_ok. by destruct l. Qed.

Lemma convert_header_ok h y : convert_header h = Ok y -> y = h.
Proof.
  unfold convert_header. intros (a & ->%try_u8_ok & H)%rbind_ok. apply rbind_ok in H as (b & ->%try_u8_ok & H).
  apply rbind_ok in H as (c & ->%try_u8_ok & [= <-]). by destruct h.
Qed.

(** The message of a streamed transaction. *)
Definition message_of (header : MessageHeader) (m : MessageMsg) : VersionedMessage :=
  match mg_config m with
  | Some config => MessageV1 header config (mg_recent_blockhash m) (mg_account_keys m) (mg_instructions m)
  | None =>
      if mg_versioned m then MessageV0 header (mg_account_keys m) (mg_recent_blockhash m) (mg_instructions m) (mg_address_table_lookups m)
      else LegacyMessage header (mg_account_keys m) (mg_recent_blockhash m) (mg_instructions m)
  end.

Lemma create_message_ok m vm header :
  mg_header m = Some header -> create_versioned_message m = Ok vm -> vm = message_of header m.
Proof.
  intros Eh H. unfold create_versioned_message in H. rewrite Eh in H. cbn [ok_or rbind] in H.
  apply rbind_ok in H as (h & ->%convert_header_ok & H). apply rbind_ok in H as (rb & ->%bytes_ok & H).
  apply rbind_ok in H as (ks & Hk & H). apply (map_rows_id _ (bytes_ok 32)) in Hk as ->.
  apply rbind_ok in H as (ixs & Hi & H). apply (map_rows_id _ create_instruction_ok) in Hi as ->. unfold message_of.
  destruct (mg_config m) as [config|]; [by apply rbind_ok in H as (? & _ & [= <-])|]. destruct (mg_versioned m); [|by injection H as <-].
  apply rbind_ok in H as (ls & Hl & [= <-]). by apply (map_rows_id _ create_lookup_ok) in Hl as ->.
Qed.

Lemma zlen_eqb {A B} (l : list A) (k : list B) : length l = length k -> (zlen l =? zlen k) = true.
Proof. unfold zlen. intros ->. apply Z.eqb_refl. Qed.

Lemma instructions_back l : forall c, convert_instructions l = Ok c -> build_compiled_instructions c = Ok l.
Proof.
  assert (H : forall c, convert_instructions l = Ok c -> zip_instructions (ic_program_id_index c) (ic_accounts c) (ic_data c) = l /\
    length (ic_accounts c) = length (ic_program_id_index c) /\ length (ic_data c) = length (ic_program_id_index c)).
  { induction l as [|ix l IH]; intros c H; cbn in H; [by injection H as <-|]. apply rbind_ok in H as (i & ->%try_u8_ok & H).
    apply rbind_ok in H as (c' & Hc & [= <-]). destruct (IH _ Hc) as (E & E1 & E2). cbn. rewrite E, E1, E2. by destruct ix. }
  intros c Hc. destruct (H c Hc) as (E & E1 & E2). unfold build_compiled_instructions, ensure. rewrite !zlen_eqb by done. cbn. by rewrite E.
Qed.

Lemma lookups_back l : forall c, convert_address_table_lookups l = Ok c ->
  build_address_table_lookups c = Ok l /\
  (l = [] -> is_nil (lc_account_key c) = true /\ is_nil (lc_writable_indexes c) = true /\ is_nil (lc_readonly_indexes c) = true).
Proof.
  assert (H : forall c, convert_address_table_lookups l = Ok c -> zip_lookups (lc_account_key c) (lc_writable_indexes c) (lc_readonly_indexes c) = l /\
    length (lc_writable_indexes c) = length (lc_account_key c) /\ length (lc_readonly_indexes c) = length (lc_account_key c)).
  { induction l as [|ix l IH]; intros c H; cbn in H; [by injection H as <-|]. apply rbind_ok in H as (i & ->%bytes_ok & H).
    apply rbind_ok in H as (c' & Hc & [= <-]). destruct (IH _ Hc) as (E & E1 & E2). cbn. rewrite E, E1, E2. by destruct ix. }
  intros c Hc. destruct (H c Hc) as (E & E1 & E2). split.
  - unfold build_address_table_lookups, ensure. rewrite !zlen_eqb by done. cbn. by rewrite E.
  - intros ->. cbn in Hc. by injection Hc as <-.
Qed.

Lemma zip_inner_back l : zip_inner (map (fun i => ci_program_id_index (ii_instruction i)) l) (map (fun i => ci_accounts (ii_instruction i)) l)
  (map (fun i => ci_data (ii_instruction i)) l) (map ii_stack_height l) = l.
Proof. induction l as [|[[] h] l IH]; cbn; [done|by rewrite IH]. Qed.

Lemma group_ids_ok l ids : group_program_ids l = Ok ids -> ids = map (fun i => ci_program_id_index (ii_instruction i)) l.
Proof.
  revert ids. unfold group_program_ids. induction l as [|x l IH]; intros ids H; cbn in H; [by injection H as <-|].
  apply rbind_ok in H as (y & ->%try_u8_ok & H). apply rbind_ok in H as (ys & Hys & [= <-]). cbn. by rewrite (IH _ Hys).
Qed.

Lemma inner_back l : forall c, convert_groups l = Ok c -> build_inner_instructions c = Ok l.
Proof.
  assert (H : forall c, convert_groups l = Ok c ->
    zip_groups (nc_index c) (nc_program_id_index c) (nc_accounts c) (nc_data c) (nc_stack_height c) = Ok l /\
    length (nc_program_id_index c) = length (nc_index c) /\ length (nc_accounts c) = length (nc_index c) /\
    length (nc_data c) = length (nc_index c) /\ length (nc_stack_height c) = length (nc_index c)).
  { induction l as [|g l IH]; intros c H; cbn in H; [by injection H as <-|]. apply rbind_ok in H as (i & ->%try_u8_ok & H).
    apply rbind_ok in H as (ids & ->%group_ids_ok & H). apply rbind_ok in H as (c' & Hc & [= <-]). destruct (IH _ Hc) as (E & E1 & E2 & E3 & E4).
    cbn. unfold ensure. rewrite !zlen_eqb by (by rewrite !length_map). cbn [andb rbind]. rewrite E. cbn [rbind]. rewrite zip_inner_back, E1, E2, E3, E4.
    by destruct g. }
  intros c Hc. destruct (H c Hc) as (E & E1 & E2 & E3 & E4). unfold build_inner_instructions, ensure. rewrite !zlen_eqb by done. done.
Qed.

(** ** What the stream said, in the server's terms *)

Section RoundTrip.
Context (codecs : Codecs) (readers : Readers).

(** The base58 libraries of the two sides agree: a decoded text encodes back to itself. *)
Definition base58_law : Prop := forall s b, bs58_decode codecs s = Some b -> bs58_encode readers b = s.

(** The server knows the reward types of the transaction by the names the stream library
    gives them; [kind] is the type of a number. *)
Definition reward_law (kind : Z -> option RewardType) (rewards : list Reward) : Prop :=
  Forall (fun r => parse_reward_type (reward_type_to_string codecs (rw_type r)) = Ok (kind (rw_type r))) rewards.

(** The streamed status: success, or an error whose text the server parses. *)
Definition streamed_status (err : option (list Z)) (status : result unit TransactionError) : Prop :=
  match err with
  | None => status = Ok tt
  | Some bytes => exists text e, error_text codecs bytes = Some text /\ parse_transaction_error readers (Some text) = Ok e /\ status = Err e
  end.

Definition token_view (b : TokenBalanceMsg) : TransactionTokenBalance :=
  mkTokenBalance (tm_account_index b) (tm_mint b)
    (match tm_ui_token_amount b with
     | Some ui => mkUiAmount (um_amount ui) (um_decimals ui) (Some (um_ui_amount ui)) (um_ui_amount_string ui)
     | None => mkUiAmount EmptyString 0 None EmptyString
     end) (tm_owner b) (tm_program_id b).
Definition reward_view (kind : Z -> option RewardType) (r : Reward) : SdkReward :=
  mkSdkReward (rw_pubkey r) (rw_lamports r) (rw_post_balance r) (kind (rw_type r)) (parse_commission 255 (rw_commission r))
    (parse_commission 65535 (rw_commission_bps r)).
Definition meta_view (kind : Z -> option RewardType) (status : result unit TransactionError) (m : StatusMetaMsg) : TransactionStatusMeta :=
  mkStatusMeta status (sg_fee m) (sg_pre_balances m) (sg_post_balances m)
    (if sg_inner_instructions_none m then None else Some (sg_inner_instructions m))
    (if sg_log_messages_none m then None else Some (sg_log_messages m))
    (Some (map token_view (sg_pre_token_balances m))) (Some (map token_view (sg_post_token_balances m)))
    (Some (map (reward_view kind) (sg_rewards m))) (sg_loaded_writable_addresses m) (sg_loaded_readonly_addresses m)
    (if sg_return_data_none m then None else sg_return_data m) (sg_compute_units_consumed m) (sg_cost_units m).

(** A transaction of the protocol, with everything the server needs to show it. *)
Record servable (kind : Z -> option RewardType) (info : TxInfo) (tx : TransactionMsg) (msg : MessageMsg) (header : MessageHeader)
    (meta : StatusMetaMsg) (status : result unit TransactionError) : Prop := {
  sv_transaction : ti_transaction info = Some tx;
  sv_message : tr_message tx = Some msg;
  sv_header : mg_header msg = Some header;
  sv_meta : ti_meta info = Some meta;
  sv_signatures : zlen (tr_signatures tx) = num_required_signatures header;
  sv_keys : num_required_signatures header <= zlen (mg_account_keys msg);
  sv_legacy : mg_config msg = None -> mg_versioned msg = false -> mg_address_table_lookups msg = [];
  sv_rewards : reward_law kind (sg_rewards meta);
  sv_status : streamed_status (sg_err meta) status;
}.

Lemma decode_back (Hb : base58_law) s b : decode_base58_32 codecs s = Ok b -> bs58_encode readers b = s.
Proof.
  unfold decode_base58_32. intros (x & Hx & ->%bytes_ok)%rbind_ok. destruct (bs58_decode codecs s) as [y|] eqn:E; [|done].
  cbn in Hx. injection Hx as <-. by apply Hb.
Qed.

Lemma optional_back (Hb : base58_law) s o : optional_pubkey codecs s = Ok o -> pubkey_text readers o = s.
Proof.
  unfold optional_pubkey. destruct (is_empty s) eqn:E; [intros [= <-]; by destruct s|]. intros (k & Hk & [= <-])%rbind_ok. by apply decode_back.
Qed.

Lemma tokens_back (Hb : base58_law) l : forall c, convert_token_balances codecs l = Ok c -> build_token_balances readers c = Ok (map token_view l).
Proof.
  assert (H : forall c, convert_token_balances codecs l = Ok c ->
    zip_tokens readers (tc_account_index c) (tc_mint c) (tc_owner c) (tc_program_id c) (tc_amount c) (tc_decimals c) (tc_ui_amount c) (tc_ui_amount_string c)
      = map token_view l /\
    Forall (fun n => n = length (tc_account_index c)) [length (tc_mint c); length (tc_owner c); length (tc_program_id c); length (tc_amount c);
      length (tc_decimals c); length (tc_ui_amount c); length (tc_ui_amount_string c)]).
  { induction l as [|b l IH]; intros c H; cbn in H; [injection H as <-; cbn; split; [done|by repeat constructor]|].
    apply rbind_ok in H as (i & ->%try_u8_ok & H). apply rbind_ok in H as (m & Hm%(decode_back Hb) & H).
    apply rbind_ok in H as (o & Ho%(optional_back Hb) & H). apply rbind_ok in H as (p & Hp%(optional_back Hb) & H).
    apply rbind_ok in H as ([[[a d] u] t] & Ha & H). apply rbind_ok in H as (c' & Hc & [= <-]). destruct (IH _ Hc) as [E F].
    cbn. rewrite E, Hm, Ho, Hp. split.
    - f_equal. unfold token_view. f_equal. destruct (tm_ui_token_amount b) as [ui|]; [|by injection Ha as <- <- <- <-].
      by apply rbind_ok in Ha as (d' & ->%try_u8_ok & [= <- <- <- <-]).
    - repeat (apply Forall_cons in F as [-> F]). by repeat constructor. }
  intros c Hc. destruct (H c Hc) as [E F]. unfold build_token_balances, ensure.
  repeat (apply Forall_cons in F as [? F]). rewrite !zlen_eqb by done. cbn. by rewrite E.
Qed.

Lemma rewards_back kind l : reward_law kind l -> build_rewards_from_fields (convert_rewards codecs l) = Ok (map (reward_view kind) l).
Proof.
  intros Hl. unfold build_rewards_from_fields, convert_rewards, ensure. cbn [ra_pubkey ra_lamports ra_post_balance ra_type ra_commission ra_commission_bps].
  rewrite !zlen_eqb by (by rewrite !length_map). rewrite orb_true_r. cbn [andb rbind].
  induction Hl as [|r l Hr _ IH]; cbn; [done|]. rewrite Hr. cbn [rbind]. rewrite IH. done.
Qed.

(** The version columns choose the builder that made the message. *)
Lemma message_back (c : TxColumns bool) msg header sigs :
  tx_header c = header -> tx_signatures c = sigs -> tx_account_keys c = mg_account_keys msg -> tx_recent_blockhash c = mg_recent_blockhash msg ->
  tx_version c = (if bool_decide (is_Some (mg_config msg)) then Some 1 else if mg_versioned msg then Some 0 else None) ->
  (forall config, mg_config msg = Some config -> tx_config c = config /\ mg_address_table_lookups msg = []) ->
  (mg_config msg = None -> mg_versioned msg = false -> mg_address_table_lookups msg = []) ->
  (mg_address_table_lookups msg = [] -> has_lookups c = false) ->
  build_compiled_instructions (tx_instructions c) = Ok (mg_instructions msg) ->
  build_address_table_lookups (tx_address_table_lookup c) = Ok (mg_address_table_lookups msg) ->
  zlen sigs = num_required_signatures header -> num_required_signatures header <= zlen (mg_account_keys msg) ->
  build_versioned_transaction c = Ok (mkVersionedTx sigs (message_of header msg)).
Proof.
  intros E1 E2 E3 E4 E5 Hconf Hleg Hno Hi Hl Hs Hk. unfold build_versioned_transaction, check_signers, message_of.
  rewrite E1, E2, E3, E4, E5, Hi, Hl. unfold ensure at 1 2. rewrite Hs, Z.eqb_refl. destruct (Z.leb_spec (num_required_signatures header) (zlen (mg_account_keys msg))); [|lia].
  cbn [rbind]. destruct (mg_config msg) as [config|] eqn:Ec; cbn.
  - destruct (Hconf config eq_refl) as [-> Hnil]. by rewrite (Hno Hnil).
  - destruct (mg_versioned msg) eqn:Ev; cbn; [done|]. by rewrite (Hno (Hleg eq_refl eq_refl)).
Qed.

Lemma meta_not_missing (c : TxColumns bool) : meta_pre_token_balances_present c = true -> meta_is_missing c = false.
Proof. intros H. unfold meta_is_missing. rewrite H. cbn [negb]. by rewrite andb_false_r. Qed.

Lemma status_back err status :
  streamed_status err status ->
  build_status readers (read_flag (fst (decode_transaction_error codecs err))) (snd (decode_transaction_error codecs err)) = Ok status.
Proof.
  unfold streamed_status, decode_transaction_error. destruct err as [bytes|]; [|by intros ->]. intros (text & e & -> & He & ->). cbn [fst snd].
  unfold build_status, read_flag. cbn [negb Z.eqb]. by rewrite He.
Qed.

Lemma inner_part m present c :
  convert_inner_instructions m = Ok (present, c) ->
  (if read_flag present then let? l := build_inner_instructions c in Ok (Some l)
   else let? _ := ensure (inner_columns_empty c) (InvalidStoredMetadata InnerWithoutFlag) in Ok None) =
  Ok (if sg_inner_instructions_none m then None else Some (sg_inner_instructions m)).
Proof.
  unfold convert_inner_instructions. destruct (sg_inner_instructions_none m); [by intros [= <- <-]|]. intros (c' & Hc%inner_back & [= <- <-])%rbind_ok.
  unfold read_flag. cbn [negb Z.eqb]. by rewrite Hc.
Qed.

Lemma return_part m present program data (c : TxColumns bool) :
  convert_return_data m = Ok (present, program, data) -> meta_return_data_present c = read_flag present ->
  meta_return_data_program_id c = program -> meta_return_data_data c = data ->
  build_return_data c = Ok (if sg_return_data_none m then None else sg_return_data m).
Proof.
  unfold convert_return_data, build_return_data. intros H -> -> ->. destruct (sg_return_data_none m); [by injection H as <- <- <-|].
  destruct (sg_return_data m) as [rd|]; [|by injection H as <- <- <-]. apply rbind_ok in H as (p & ->%bytes_ok & [= <- <- <-]). by destruct rd.
Qed.

Lemma streamed_served kind slot block_time info row tx msg header meta status :
  base58_law -> servable kind info tx msg header meta status -> map_transaction codecs slot block_time info = Ok row ->
  t_message_hash row = blake3 codecs (message_prefix ++ serialize_message codecs (message_of header msg)) /\
  hydrate_full_transaction readers (map_transaction_row (read_row row)) =
    Ok (Complete (mkVersionedTx (tr_signatures tx) (message_of header msg)) (meta_view kind status meta)).
Proof.
  intros Hb [Etx Emsg Eh Emeta Hsig Hkeys Hleg Hrew Hst] H. unfold map_transaction in H.
  apply rbind_ok in H as (signature & _ & H). apply rbind_ok in H as (slot_idx & _ & H).
  rewrite Etx in H. cbn [ok_or rbind] in H. rewrite Emeta in H. cbn [ok_or rbind] in H. rewrite Emsg in H. cbn [ok_or rbind] in H.
  apply rbind_ok in H as ([] & Hv1 & H). apply rbind_ok in H as (hash & Hhash & H). rewrite Eh in H. cbn [ok_or rbind] in H.
  apply rbind_ok in H as (sigs & Hs & H). apply (map_rows_id _ (bytes_ok 64)) in Hs as ->.
  apply rbind_ok in H as (keys & Hk & H). apply (map_rows_id _ (bytes_ok 32)) in Hk as ->.
  apply rbind_ok in H as (rb & ->%bytes_ok & H). apply rbind_ok in H as (ixs & Hix%instructions_back & H).
  apply rbind_ok in H as (lks & Hlk & H). destruct (decode_transaction_error codecs (sg_err meta)) as [ok err] eqn:Ed.
  apply rbind_ok in H as ([ipresent inner] & Hin & H).
  destruct (if sg_log_messages_none meta then (0, []) else (1, sg_log_messages meta)) as [lpresent logs] eqn:El.
  apply rbind_ok in H as (pre & Hpre%(tokens_back Hb) & H). apply rbind_ok in H as (post & Hpost%(tokens_back Hb) & H).
  apply rbind_ok in H as (wr & Hwr & H). apply (map_rows_id _ (bytes_ok 32)) in Hwr as ->.
  apply rbind_ok in H as (ro & Hro & H). apply (map_rows_id _ (bytes_ok 32)) in Hro as ->.
  apply rbind_ok in H as ([[rpresent rprogram] rdata] & Hret & H). apply rbind_ok in H as (h & ->%convert_header_ok & [= <-]).
  split.
  { cbn [t_message_hash]. unfold compute_message_hash in Hhash. apply rbind_ok in Hhash as (vm & Hvm & [= <-]). by rewrite (create_message_ok _ _ _ Eh Hvm). }
  unfold hydrate_full_transaction, map_transaction_row, read_row. cbn [s_columns r_columns t_columns].
  set (c := read_columns _).
  assert (Hmeta : build_transaction_status_meta readers c = Ok (Some (meta_view kind status meta))).
  { unfold build_transaction_status_meta. rewrite meta_not_missing by done. pose proof (status_back _ _ Hst) as Hs. rewrite Ed in Hs. cbn [fst snd] in Hs.
    unfold c, read_columns. cbn [meta_status_ok meta_err meta_inner_instructions_present meta_inner_instructions meta_log_messages_present meta_log_messages
      meta_pre_token_balances_present meta_pre_token meta_post_token_balances_present meta_post_token meta_rewards_present meta_reward fst snd].
    rewrite Hs. cbn [rbind]. rewrite (inner_part _ _ _ Hin). cbn [rbind].
    assert (Hl : (if read_flag lpresent then Ok (Some logs) else let? _ := ensure (is_nil logs) (InvalidStoredMetadata LogsWithoutFlag) in Ok None) =
      @Ok _ TransactionHydrationError (if sg_log_messages_none meta then None else Some (sg_log_messages meta))).
    { destruct (sg_log_messages_none meta); by injection El as <- <-. }
    rewrite Hl. cbn [rbind]. unfold build_tokens_if, read_flag at 1 2. cbn [negb Z.eqb]. rewrite Hpre, Hpost. cbn [rbind].
    unfold build_rewards_if, read_flag at 1. cbn [negb Z.eqb]. rewrite (rewards_back kind _ Hrew). cbn [rbind].
    rewrite (return_part meta rpresent rprogram rdata) by done. done. }
  rewrite Hmeta. cbn [rbind]. destruct (lookups_back _ _ Hlk) as [Hlk1 Hlk2].
  rewrite (message_back c msg header (tr_signatures tx)); [done..| | | | | | |done|done].
  - done.
  - intros config Ec. rewrite Ec in Hv1. cbn in Hv1. destruct (mg_address_table_lookups msg); [|done]. split; [|done]. unfold c. cbn. rewrite Ec. by destruct config.
  - done.
  - intros Hnil. unfold has_lookups, c. cbn. rewrite Hnil in Hlk2 |- *. destruct (Hlk2 eq_refl) as (-> & -> & ->). done.
  - done.
  - done.
Qed.

(** C13: what was streamed is what is served.  For every transaction the ingestor accepts whose
    signatures match its header, whose error text and reward types the server knows and whose
    legacy form has no lookups: the stored row carries the hash of the streamed message, and
    the server rebuilds from the row that very message with its signatures and the streamed
    status metadata, field by field, with absent and empty lists told apart. *)
Theorem ingest_hydrate_roundtrip kind slot block_time info row tx msg header meta status :
  base58_law -> servable kind info tx msg header meta status -> map_transaction codecs slot block_time info = Ok row ->
  t_message_hash row = blake3 codecs (message_prefix ++ serialize_message codecs (message_of header msg)) /\
  hydrate_full_transaction readers (map_transaction_row (read_row row)) =
    Ok (Complete (mkVersionedTx (tr_signatures tx) (message_of header msg)) (meta_view kind status meta)).
Proof. apply streamed_served. Qed.

(** ** The accounts view *)

(** A transaction without its blockhash, lookups, configuration and instruction payloads. *)
Definition accounts_message (m : VersionedMessage) : VersionedMessage :=
  let bare := map (fun ix => mkInstruction (ci_program_id_index ix) [] []) in
  match m with
  | LegacyMessage h keys _ ixs => LegacyMessage h keys hash_default (bare ixs)
  | MessageV0 h keys _ ixs _ => MessageV0 h keys hash_default (bare ixs) []
  | MessageV1 h _ _ keys ixs => MessageV1 h (mkConfig None None None None) hash_default keys (bare ixs)
  end.
Definition accounts_meta (m : TransactionStatusMeta) : TransactionStatusMeta :=
  mkStatusMeta (sm_status m) (sm_fee m) (sm_pre_balances m) (sm_post_balances m) None None (sm_pre_token_balances m) (sm_post_token_balances m)
    (sm_rewards m) (sm_loaded_writable m) (sm_loaded_readonly m) None None None.

Lemma zip_program_ids ids : forall accounts data,
  length accounts = length ids -> length data = length ids -> map ci_program_id_index (zip_instructions ids accounts data) = ids.
Proof. induction ids as [|i ids IH]; intros [|a accounts] [|d data] H1 H2; cbn in *; try done. f_equal. apply IH; lia. Qed.

Lemma compiled_ids c l : build_compiled_instructions c = Ok l -> map ci_program_id_index l = ic_program_id_index c.
Proof.
  unfold build_compiled_instructions, ensure. intros (? & Hc & [= <-])%rbind_ok. case_match eqn:E; [|done]. apply andb_prop in E as [E1 E2].
  apply zip_program_ids; unfold zlen in *; lia.
Qed.

Lemma bare_instructions l : map (fun ix => mkInstruction (ci_program_id_index ix) [] []) l = build_accounts_compiled_instructions (map ci_program_id_index l).
Proof. unfold build_accounts_compiled_instructions. by rewrite map_map. Qed.

(** The accounts view of a stored transaction is the projection of its full view.  Whatever
    the columns, when the full record is served with metadata and the columns the accounts
    view reads are not all empty, the accounts view is served too and shows the same signers,
    accounts, program ids, status, balances, token balances, rewards and loaded addresses. *)
Theorem accounts_view_projects record tx meta :
  hydrate_full_transaction readers record = Ok (Complete tx meta) ->
  accounts_meta_is_missing (sa_columns (accounts_of record)) = false ->
  (tx_version (s_columns record) = None ->
   meta_loaded_addresses_writable (s_columns record) = [] /\ meta_loaded_addresses_readonly (s_columns record) = []) ->
  hydrate_accounts_transaction readers (accounts_of record) =
    Ok (Complete (mkVersionedTx (vt_signatures tx) (accounts_message (vt_message tx))) (accounts_meta meta)).
Proof.
  intros H Hm Hleg. unfold hydrate_full_transaction in H. apply rbind_ok in H as ([m|] & Hmeta & H).
  2: { unfold build_legacy_transaction in H. do 4 (apply rbind_ok in H as (? & _ & H)). done. }
  apply rbind_ok in H as (t & Ht & [= -> ->]). unfold hydrate_accounts_transaction, build_transaction_status_meta_for_accounts. rewrite Hm.
  unfold build_transaction_status_meta in Hmeta. destruct (meta_is_missing (s_columns record)); [done|].
  apply rbind_ok in Hmeta as (status & Hs & Hmeta). apply rbind_ok in Hmeta as (inner & _ & Hmeta). apply rbind_ok in Hmeta as (logs & _ & Hmeta).
  apply rbind_ok in Hmeta as (pre & Hpre & Hmeta). apply rbind_ok in Hmeta as (post & Hpost & Hmeta). apply rbind_ok in Hmeta as (rewards & Hr & Hmeta).
  apply rbind_ok in Hmeta as (ret & _ & [= <-]). unfold accounts_of. cbn [sa_columns ac_meta_status_ok ac_meta_err ac_meta_pre_token_balances_present
    ac_meta_pre_token ac_meta_post_token_balances_present ac_meta_post_token ac_meta_rewards_present ac_meta_reward].
  rewrite Hs. cbn [rbind]. rewrite Hpre. cbn [rbind]. rewrite Hpost. cbn [rbind]. rewrite Hr. cbn [rbind].
  unfold build_versioned_transaction in Ht. apply rbind_ok in Ht as ([] & Hsig & Ht). apply rbind_ok in Ht as (ixs & Hix & Ht).
  apply rbind_ok in Ht as (msg & Hmsg & [= <-]). unfold build_accounts_versioned_transaction.
  cbn [ac_tx_header ac_tx_signatures ac_tx_account_keys ac_tx_version ac_tx_instructions_program_id_index ac_meta_loaded_addresses_writable ac_meta_loaded_addresses_readonly].
  rewrite Hsig, <- (compiled_ids _ _ Hix), <- bare_instructions. cbn [rbind]. destruct (tx_version (s_columns record)) as [v|].
  - destruct (v =? 0); [by apply rbind_ok in Hmsg as (? & _ & [= <-])|]. destruct (v =? 1); [by apply rbind_ok in Hmsg as (? & _ & [= <-])|done].
  - apply rbind_ok in Hmsg as (? & _ & [= <-]). destruct (Hleg eq_refl) as [-> ->]. done.
Qed.

(** ** Undecodable errors *)

Fixpoint all_hex (s : string) : bool :=
  match s with
  | EmptyString => true
  | String c s => let n := Z.of_nat (Ascii.nat_of_ascii c) in ((48 <=? n) && (n <=? 57) || (97 <=? n) && (n <=? 102)) && all_hex s
  end%bool.

Lemma hex_not_space c s : all_hex (String c s) = true -> is_whitespace c = false.
Proof. cbn. unfold is_whitespace. intros H. apply andb_prop in H as [H _]. zbool; lia. Qed.

Lemma trim_hex s : all_hex s = true -> trim s = s.
Proof.
  intros H. unfold trim. assert (Hs : trim_start s = s) by (destruct s as [|c s]; [done|]; cbn [trim_start]; by rewrite (hex_not_space _ _ H)). rewrite Hs. clear Hs.
  induction s as [|c s IH]; [done|]. pose proof (hex_not_space _ _ H) as Hc. cbn [all_hex] in H. apply andb_prop in H as [_ H]. cbn [trim_end].
  rewrite (IH H). destruct s; [by rewrite Hc|done].
Qed.

Lemma table_not_hex {A} (table : list (string * A)) s :
  forallb (fun e => negb (all_hex (fst e))) table = true -> all_hex s = true -> table_get s table = None.
Proof.
  unfold table_get. intros Ht Hs. induction table as [|[k v] table IH]; [done|]. cbn in *. apply andb_prop in Ht as [Hk Ht].
  destruct (String.eqb_spec k s) as [->|]; [by rewrite Hs in Hk|by apply IH].
Qed.

Lemma hex_prefix p prefix s : all_hex (String p EmptyString) = false -> all_hex s = true -> strip_prefix (String p prefix) s = None.
Proof.
  intros Hp Hs. destruct s as [|c s]; [done|]. cbn [strip_prefix]. destruct (Ascii.eqb_spec p c) as [->|]; [|done]. cbn in Hp, Hs.
  apply andb_prop in Hs as [Hc _]. by rewrite Hc in Hp.
Qed.

Lemma display_hex s : all_hex s = true -> parse_transaction_error_display s = None.
Proof.
  intros H. unfold parse_transaction_error_display, between. rewrite (trim_hex s H), !hex_prefix by done. cbn [mbind option_bind].
  by apply table_not_hex.
Qed.

(** A quoted text. *)
Definition quoted (s : string) : string := (quote ++ s ++ quote)%string.

Lemma trim_end_quote s : trim_end (s ++ quote)%string = (s ++ quote)%string.
Proof.
  induction s as [|c s IH]; [done|]. change (trim_end (String c (s ++ quote)) = String c (s ++ quote)).
  set (t := (s ++ quote)%string) in *. assert (Ht : t <> EmptyString) by (unfold t; by destruct s). clearbody t. cbn [trim_end]. rewrite IH. by destruct t.
Qed.

Lemma trim_quoted s : trim (quoted s) = quoted s.
Proof. unfold quoted, trim. cbn [quote String.append trim_start]. exact (trim_end_quote (quote ++ s)%string). Qed.

Lemma display_quoted s : parse_transaction_error_display (quoted s) = None.
Proof. unfold parse_transaction_error_display. rewrite trim_quoted. done. Qed.

(** The hexadecimal text the ingestor stores for an error it cannot decode is one the server
    cannot parse, so that the transaction, and every block with it, is refused. *)
Theorem undecodable_error_refused slot block_time info row meta bytes :
  map_transaction codecs slot block_time info = Ok row -> ti_meta info = Some meta -> sg_err meta = Some bytes ->
  error_text codecs bytes = None -> all_hex (hex_encode codecs bytes) = true ->
  (forall s, all_hex s = true -> json_error readers (quoted s) = None /\ json_string readers (quoted s) = Some s) ->
  hydrate_full_transaction readers (map_transaction_row (read_row row)) = Err TransactionErrorParse.
Proof.
  intros H Emeta Eerr Etext Hhex Hq. unfold map_transaction in H.
  apply rbind_ok in H as (signature & _ & H). apply rbind_ok in H as (slot_idx & _ & H). apply rbind_ok in H as (tx & _ & H).
  rewrite Emeta in H. cbn [ok_or rbind] in H. do 8 (apply rbind_ok in H as (? & _ & H)). apply rbind_ok in H as (lks & _ & H).
  unfold decode_transaction_error in H. rewrite Eerr, Etext in H. apply rbind_ok in H as (inner & _ & H).
  destruct (if sg_log_messages_none meta then _ else _) as [lpresent logs]. do 4 (apply rbind_ok in H as (? & _ & H)).
  apply rbind_ok in H as ([[? ?] ?] & _ & H). apply rbind_ok in H as (? & _ & [= <-]).
  unfold hydrate_full_transaction, build_transaction_status_meta. rewrite meta_not_missing by done.
  unfold read_row, map_transaction_row, read_columns. cbn [s_columns r_columns t_columns meta_status_ok meta_err].
  unfold build_status, read_flag at 1. cbn [negb Z.eqb]. unfold parse_transaction_error. cbn [ok_or rbind].
  fold (quoted (hex_encode codecs bytes)). rewrite trim_quoted. destruct (Hq _ Hhex) as (-> & ->). cbn [mbind option_bind].
  by rewrite (display_hex _ Hhex), display_quoted.
Qed.
End RoundTrip.
