(* ===== verification/IngestRpc.v ===== *)
(** * IngestRpc: backfilling a slot range over RPC

    Models the pipeline of [crates/superbank/src/ingest/rpc.rs]: slots are discovered with
    getBlocks or read from a list ([range.rs]), a dispatcher deals them to workers, each worker
    fetches and maps its blocks, and the inserter buffers rows and flushes them in concurrent
    insert tasks.  The tasks run concurrently over bounded channels; a state of the pipeline
    ([Pipeline]) holds the channels and where every task waits, and [step] is one step of one
    task between two of its waits.  The node and the database answer as they like: what the
    node may answer is a parameter, and an insert may be stored without its acknowledgement
    ([Answer]).  A block and the rows it maps to are parameters of the section.  Progress
    reports, backoff and metrics are left out. *)

From Stdlib Require Import Ascii.
From S2P Require Import Prelude Text SlotCoverage Hydration Sdk IngestTx IngestBlock IngestGrpc.

Open Scope list_scope.
Open Scope Z_scope.

(** ** The slot list and the range *)

(** [str::split_whitespace] *)
Fixpoint split_whitespace_loop (s token : string) : list string :=
  match s with
  | EmptyString => if is_empty token then [] else [token]
  | String c s =>
      if is_whitespace c then (if is_empty token then [] else [token]) ++ split_whitespace_loop s EmptyString
      else split_whitespace_loop s (token +:+ String c EmptyString)
  end.
Definition split_whitespace (s : string) : list string := split_whitespace_loop s EmptyString.

(** The tokens of a line, up to a comment. *)
Definition starts_comment (token : string) : bool := match token with String c _ => Ascii.eqb c "#"%char | EmptyString => false end.
Fixpoint parse_tokens (tokens : list string) : option (list Z) :=
  match tokens with
  | [] => Some []
  | token :: tokens =>
      if starts_comment token then Some []
      else
        match parse_u64 token, parse_tokens tokens with
        | Some slot, Some slots => Some (slot :: slots)
        | _, _ => None
        end
  end.
Fixpoint parse_lines (lines : list string) : option (list Z) :=
  match lines with
  | [] => Some []
  | line :: lines =>
      match parse_tokens (split_whitespace line), parse_lines lines with
      | Some slots, Some rest => Some (slots ++ rest)
      | _, _ => None
      end
  end.
(** [load_slot_list], from the lines of the file *)
Definition load_slot_list (lines : list string) : option (list Z) :=
  match parse_lines lines with
  | None | Some [] => None
  | Some slots => Some (dedup (merge_sort Z.le slots))
  end.

Record RpcRange := mkRpcRange { rr_start : Z; rr_end : Z }.
Inductive RangeError := NoRows | Unreachable | NoFromSlot | ToBeforeFrom | CountZero | RangeOverflow | BothEnds | NoEnd.

(** [resolve_rpc_range]: [latest] is the newest slot in the database, [first] the earliest block
    of the node. *)
Definition resolve_rpc_range (from : option FromSlotSpec) (to_slot slot_count : option Z) (latest : result (option Z) unit) (first : result Z unit) : result RpcRange RangeError :=
  let? start :=
    match from with
    | Some SpecLatestDb => match latest with Ok (Some slot) => Ok slot | Ok None => Err NoRows | Err _ => Err Unreachable end
    | Some (SpecSlot slot) => if slot =? 0 then match first with Ok slot => Ok slot | Err _ => Err Unreachable end else Ok slot
    | None => Err NoFromSlot
    end in
  let? end_ :=
    match to_slot, slot_count with
    | Some to_slot, None => if to_slot <? start then Err ToBeforeFrom else Ok to_slot
    | None, Some count => if count <? 1 then Err CountZero else if u64_max <? start + (count - 1) then Err RangeOverflow else Ok (start + (count - 1))
    | Some _, Some _ => Err BothEnds
    | None, None => Err NoEnd
    end in
  Ok (mkRpcRange start end_).

(** ** Fetching a block *)

(** An error of the RPC client, as far as it is classified. *)
Inductive RpcClientError :=
| RpcResponseError (code : Z) (message : string)
| Reqwest (timeout connect : bool) (status : option Z)
| Io
| OtherError.
Inductive RpcBlockErrorKind := NotAvailable | SkippedSlot | Retryable | Fatal.

(** [str::contains] of a pattern *)
Definition mentions (pattern s : string) : bool := bool_decide (is_Some (split_once_at pattern s)).

(** [classify_rpc_block_error] *)
Definition classify_rpc_block_error (err : RpcClientError) : RpcBlockErrorKind :=
  match err with
  | RpcResponseError code message =>
      let normalized := to_ascii_lowercase message in
      if mentions "was skipped" normalized || mentions "missing in long-term storage" normalized || (code =? -32009) then SkippedSlot
      else if mentions "block not available" normalized || mentions "block not found" normalized || mentions "slot was not found" normalized || (code =? -32007) then NotAvailable
      else Fatal
  | Reqwest timeout connect status =>
      if timeout || connect || match status with Some code => (code =? 429) || ((500 <=? code) && (code <? 600)) | None => false end then Retryable else Fatal
  | Io => Retryable
  | OtherError => Fatal
  end.

(** ** Discovery *)

(** [uningested_slots] *)
Definition uningested_slots (discovered : list Z) (present : list Z) : list Z := List.filter (fun slot => negb (bool_decide (slot ∈ present))) discovered.
(** The slots a chunk sends: a slot above the range ends the loop. *)
Fixpoint slots_to_send (range : RpcRange) (slots : list Z) : list Z :=
  match slots with
  | [] => []
  | slot :: slots => if rr_end range <? slot then [] else if slot <? rr_start range then slots_to_send range slots else slot :: slots_to_send range slots
  end.
Definition chunk_end (range : RpcRange) (chunk_slots cursor : Z) : Z := Z.min (sat_add cursor (sat_sub chunk_slots 1)) (rr_end range).

(** [Vec::swap_remove] *)
Definition swap_remove {A} (idx : nat) (l : list A) : list A :=
  match last l with
  | Some x => if Nat.eqb (S idx) (length l) then removelast l else <[idx := x]> (removelast l)
  | None => l
  end.

Section Pipeline.
Context {T B Block : Type} (block_slot : B -> Z).
(** [map_rpc_transactions] and [map_rpc_block_metadata] of a fetched block *)
Context (map_block : Z -> Block -> option (list T * B)).

Inductive RpcAnswer := GotBlock (block : Block) | GotError (err : RpcClientError).
Inductive Fetched := FetchRetry | FetchDone (batch : option (list T * B)) | FetchFailed.

(** [fetch_rpc_block_with_retry] and [fetch_rpc_block_batch] after one answer *)
Definition fetch_rpc_block_batch (slot : Z) (answer : RpcAnswer) : Fetched :=
  match answer with
  | GotBlock block => match map_block slot block with Some batch => FetchDone (Some batch) | None => FetchFailed end
  | GotError err =>
      match classify_rpc_block_error err with
      | SkippedSlot => FetchDone None
      | NotAvailable | Retryable => FetchRetry
      | Fatal => FetchFailed
      end
  end.

(** ** States *)

(** [discover_slots] and [enqueue_slot_list]: where they wait, or ended with the sender dropped *)
Inductive Discovery := ListSending (slots : list Z) | Chunk (cursor : Z) | ChunkSending (end_ : Z) (slots : list Z) | Discovered.
(** [run_rpc_dispatcher] *)
Inductive Dispatcher := Receiving | Handing (slot : Z) | DispatcherDone.
(** [run_rpc_worker] with its queue *)
Inductive Fetching := Idle | Fetch (slot : Z) | Sending (slot : Z) (batch : option (list T * B)) | Gone.
Record Worker := mkWorker { w_queue : list Z; w_task : Fetching }.

(** A task of the inserter: rows not stored yet, and attempts left. *)
Inductive Task := Inserting (txs : list T) (blks : list B) (retries : nat) | TaskDone (ok : bool).
(** [run_rpc_inserter]: the loop, a wait of [enqueue_flush], the end of the loop, and
    [drain_insert_tasks]; [Some seen] is a shutdown, with the signals seen. *)
Inductive After := BackToLoop | ToEnd (shutdown : option Z).
Inductive Phase := Looping | Enqueuing (txs : list T) (blks : list B) (after : After) | LoopEnded (shutdown : option Z) | Draining (shutdown : option Z) | Returned (r : result bool unit).
Record Inserter := mkInserter { i_txs : list T; i_blks : list B; i_since : Z; i_tasks : list Task; i_phase : Phase }.

Record Pipeline := mkPipeline {
  discovery : Discovery; slot_queue : list Z; dispatcher : Dispatcher; next_worker : nat; worker_txs : list nat; workers : list Worker;
  results : list (Z * option (list T * B)); fatal : bool; inserter : Inserter;
  tx_rows : list T; blk_rows : list B; shutdown_count : Z; skip_log : list Z;
}.

(** Limits and options of a run *)
Record Config := mkConfig {
  c_range : RpcRange; c_chunk_slots : Z; c_skip_ingested : bool; c_queue_capacity : nat; c_worker_queue_capacity : nat; c_result_capacity : nat;
  c_worker_count : nat; c_insert_concurrency : nat; c_retries : nat; c_flush_every : Z; c_transactions_flush_rows : Z; c_blocks_flush_rows : Z;
}.
Context (c : Config).

(** The capacities of [run_rpc_ingest] *)
Definition run_config (range : RpcRange) (chunk_slots : Z) (skip_ingested : bool) (rpc_max_inflight : nat) (retries : nat) (flush_every tx_flush blk_flush : Z) : Config :=
  let worker_count := Nat.max rpc_max_inflight 1 in
  let queue_capacity := Nat.min (Nat.max (worker_count * 100) 1000) (Z.to_nat 50000) in
  {| c_range := range; c_chunk_slots := chunk_slots; c_skip_ingested := skip_ingested; c_queue_capacity := queue_capacity;
     c_worker_queue_capacity := Nat.max (queue_capacity / worker_count) 1; c_result_capacity := Nat.min (Nat.max (worker_count * 4) 1000) (Z.to_nat 10000);
     c_worker_count := worker_count; c_insert_concurrency := Nat.min (Nat.max worker_count 2) 4; c_retries := retries;
     c_flush_every := Z.max flush_every 1; c_transactions_flush_rows := tx_flush; c_blocks_flush_rows := blk_flush |}.

(** ** The inserter *)

Definition arrive (after : After) : Phase := match after with BackToLoop => Looping | ToEnd shutdown => LoopEnded shutdown end.
Definition in_phase (p : Phase) (i : Inserter) : Inserter := mkInserter (i_txs i) (i_blks i) (i_since i) (i_tasks i) p.
Definition with_tasks (tasks : list Task) (i : Inserter) : Inserter := mkInserter (i_txs i) (i_blks i) (i_since i) tasks (i_phase i).
(** [take_flush_batch], and the wait of [enqueue_flush] when there is a batch *)
Definition begin_flush (after : After) (i : Inserter) : Inserter :=
  match i_txs i, i_blks i with
  | [], [] => in_phase (arrive after) i
  | txs, blks => mkInserter [] [] (i_since i) (i_tasks i) (Enqueuing txs blks after)
  end.
(** A result of a worker *)
Definition take_result (batch : option (list T * B)) (i : Inserter) : Inserter :=
  let i := match batch with Some (txs, b) => mkInserter (i_txs i ++ txs) (i_blks i ++ [b]) (i_since i) (i_tasks i) (i_phase i) | None => i end in
  let since := sat_add (i_since i) 1 in
  if (c_flush_every c <=? since) || (c_transactions_flush_rows c <=? zlen (i_txs i)) || (c_blocks_flush_rows c <=? zlen (i_blks i))
  then begin_flush BackToLoop (mkInserter (i_txs i) (i_blks i) 0 (i_tasks i) (i_phase i))
  else mkInserter (i_txs i) (i_blks i) since (i_tasks i) (i_phase i).
(** [flush_buffers_with_retry], one insert: the task after it and the rows it stored *)
Definition retried (txs : list T) (blks : list B) (retries : nat) : Task := match retries with O => TaskDone false | S n => Inserting txs blks n end.
Definition insert_step (a : Answer) (t : Task) : Task * list T * list B :=
  match t with
  | Inserting [] [] _ => (TaskDone true, [], [])
  | Inserting [] blks retries => (if acknowledged a then Inserting [] [] retries else retried [] blks retries, [], kept a blks)
  | Inserting txs blks retries => (if acknowledged a then Inserting [] blks retries else retried txs blks retries, kept a txs, [])
  | TaskDone ok => (TaskDone ok, [], [])
  end.

(** ** Steps *)

Definition set_discovery (d : Discovery) (p : Pipeline) : Pipeline :=
  mkPipeline d (slot_queue p) (dispatcher p) (next_worker p) (worker_txs p) (workers p) (results p) (fatal p) (inserter p) (tx_rows p) (blk_rows p) (shutdown_count p) (skip_log p).
Definition set_dispatcher (q : list Z) (d : Dispatcher) (next : nat) (senders : list nat) (p : Pipeline) : Pipeline :=
  mkPipeline (discovery p) q d next senders (workers p) (results p) (fatal p) (inserter p) (tx_rows p) (blk_rows p) (shutdown_count p) (skip_log p).
Definition set_worker (i : nat) (w : Worker) (p : Pipeline) : Pipeline :=
  mkPipeline (discovery p) (slot_queue p) (dispatcher p) (next_worker p) (worker_txs p) (<[i := w]> (workers p)) (results p) (fatal p) (inserter p) (tx_rows p) (blk_rows p) (shutdown_count p) (skip_log p).
Definition set_results (r : list (Z * option (list T * B))) (p : Pipeline) : Pipeline :=
  mkPipeline (discovery p) (slot_queue p) (dispatcher p) (next_worker p) (worker_txs p) (workers p) r (fatal p) (inserter p) (tx_rows p) (blk_rows p) (shutdown_count p) (skip_log p).
Definition set_fatal (f : bool) (p : Pipeline) : Pipeline :=
  mkPipeline (discovery p) (slot_queue p) (dispatcher p) (next_worker p) (worker_txs p) (workers p) (results p) f (inserter p) (tx_rows p) (blk_rows p) (shutdown_count p) (skip_log p).
Definition set_inserter (i : Inserter) (p : Pipeline) : Pipeline :=
  mkPipeline (discovery p) (slot_queue p) (dispatcher p) (next_worker p) (worker_txs p) (workers p) (results p) (fatal p) i (tx_rows p) (blk_rows p) (shutdown_count p) (skip_log p).
Definition store_rows (txs : list T) (blks : list B) (p : Pipeline) : Pipeline :=
  mkPipeline (discovery p) (slot_queue p) (dispatcher p) (next_worker p) (worker_txs p) (workers p) (results p) (fatal p) (inserter p) (tx_rows p ++ txs) (blk_rows p ++ blks) (shutdown_count p) (skip_log p).
Definition log_skip (slots : list Z) (p : Pipeline) : Pipeline :=
  mkPipeline (discovery p) (slot_queue p) (dispatcher p) (next_worker p) (worker_txs p) (workers p) (results p) (fatal p) (inserter p) (tx_rows p) (blk_rows p) (shutdown_count p) (slots ++ skip_log p).
Definition signal (p : Pipeline) : Pipeline :=
  mkPipeline (discovery p) (slot_queue p) (dispatcher p) (next_worker p) (worker_txs p) (workers p) (results p) (fatal p) (inserter p) (tx_rows p) (blk_rows p) (shutdown_count p + 1) (skip_log p).

(** [run_rpc_ingest] before its tasks run: the tables hold what earlier runs stored. *)
Definition run_start (slot_list : option (list Z)) (txs : list T) (blks : list B) : Pipeline := {|
  discovery := match slot_list with Some slots => ListSending slots | None => Chunk (rr_start (c_range c)) end;
  slot_queue := []; dispatcher := Receiving; next_worker := 0; worker_txs := seq 0 (c_worker_count c);
  workers := replicate (c_worker_count c) (mkWorker [] Idle); results := []; fatal := false;
  inserter := mkInserter [] [] 0 [] Looping; tx_rows := txs; blk_rows := blks; shutdown_count := 0; skip_log := [];
|}.

(** [fetch_present_slots_in_range]; a failed query counts as nothing present. *)
Definition present_slots (answered : bool) (cursor end_ : Z) (p : Pipeline) : list Z :=
  if c_skip_ingested c && answered then List.filter (fun s => (cursor <=? s) && (s <=? end_)) (block_slot <$> blk_rows p) else [].

Definition returned (p : Pipeline) : bool := match i_phase (inserter p) with Returned _ => true | _ => false end.
Definition all_gone (p : Pipeline) : Prop := Forall (fun w => w_task w = Gone) (workers p).
(** The place of the next worker in the dispatcher's list *)
Definition turn (p : Pipeline) : nat := Nat.modulo (next_worker p) (length (worker_txs p)).

(** What the node may answer: getBlock of a slot, and getBlocks of a range. *)
Context (get_block : Z -> RpcAnswer -> Prop) (get_blocks : Z -> Z -> list Z -> Prop).

Inductive discovery_step (p : Pipeline) : Pipeline -> Prop :=
| DiscoverChunk cursor slots answered : discovery p = Chunk cursor -> cursor <= rr_end (c_range c) ->
    let end_ := chunk_end (c_range c) (c_chunk_slots c) cursor in get_blocks cursor end_ slots ->
    discovery_step p (set_discovery (ChunkSending end_ (slots_to_send (c_range c) (uningested_slots slots (present_slots answered cursor end_ p)))) p)
| DiscoverEnd cursor : discovery p = Chunk cursor -> rr_end (c_range c) < cursor -> discovery_step p (set_discovery Discovered p)
| SendSlot end_ slot slots : discovery p = ChunkSending end_ (slot :: slots) -> dispatcher p <> DispatcherDone -> (length (slot_queue p) < c_queue_capacity c)%nat ->
    discovery_step p (set_dispatcher (slot_queue p ++ [slot]) (dispatcher p) (next_worker p) (worker_txs p) (set_discovery (ChunkSending end_ slots) p))
| SendListed slot slots : discovery p = ListSending (slot :: slots) -> dispatcher p <> DispatcherDone -> (length (slot_queue p) < c_queue_capacity c)%nat ->
    discovery_step p (set_dispatcher (slot_queue p ++ [slot]) (dispatcher p) (next_worker p) (worker_txs p) (set_discovery (ListSending slots) p))
| SendClosed slots : (exists slot rest, slots = slot :: rest) -> (discovery p = ListSending slots \/ exists end_, discovery p = ChunkSending end_ slots) ->
    dispatcher p = DispatcherDone -> discovery_step p (set_discovery Discovered p)
| ChunkSent end_ : discovery p = ChunkSending end_ [] -> discovery_step p (set_discovery (Chunk (sat_add end_ 1)) p)
| ListSent : discovery p = ListSending [] -> discovery_step p (set_discovery Discovered p).

Inductive dispatcher_step (p : Pipeline) : Pipeline -> Prop :=
| TakeSlot slot rest : dispatcher p = Receiving -> slot_queue p = slot :: rest ->
    dispatcher_step p (match worker_txs p with [] => set_dispatcher rest DispatcherDone (next_worker p) [] p | senders => set_dispatcher rest (Handing slot) (next_worker p) senders p end)
| SlotsClosed : dispatcher p = Receiving -> slot_queue p = [] -> discovery p = Discovered ->
    dispatcher_step p (set_dispatcher [] DispatcherDone (next_worker p) [] p)
| NoWorkers slot : dispatcher p = Handing slot -> worker_txs p = [] -> dispatcher_step p (set_dispatcher (slot_queue p) DispatcherDone (next_worker p) [] p)
| HandSlot slot id w : dispatcher p = Handing slot -> worker_txs p !! turn p = Some id -> workers p !! id = Some w -> w_task w <> Gone ->
    (length (w_queue w) < c_worker_queue_capacity c)%nat ->
    dispatcher_step p (set_worker id (mkWorker (w_queue w ++ [slot]) (w_task w)) (set_dispatcher (slot_queue p) Receiving (S (turn p)) (worker_txs p) p))
| WorkerClosed slot id w : dispatcher p = Handing slot -> worker_txs p !! turn p = Some id -> workers p !! id = Some w -> w_task w = Gone ->
    dispatcher_step p (set_dispatcher (slot_queue p) (Handing slot) (next_worker p) (swap_remove (turn p) (worker_txs p)) p)
| DispatcherShutdown : dispatcher p <> DispatcherDone -> 0 < shutdown_count p -> dispatcher_step p (set_dispatcher (slot_queue p) DispatcherDone (next_worker p) [] p).

Inductive worker_step (p : Pipeline) : Pipeline -> Prop :=
| WorkerTakes id slot queue : workers p !! id = Some (mkWorker (slot :: queue) Idle) -> worker_step p (set_worker id (mkWorker queue (Fetch slot)) p)
| WorkerEnds id : workers p !! id = Some (mkWorker [] Idle) -> id ∉ worker_txs p -> worker_step p (set_worker id (mkWorker [] Gone) p)
| WorkerFetches id slot queue answer batch : workers p !! id = Some (mkWorker queue (Fetch slot)) -> get_block slot answer ->
    fetch_rpc_block_batch slot answer = FetchDone batch ->
    worker_step p (log_skip (match batch with Some _ => [] | None => [slot] end) (set_worker id (mkWorker queue (Sending slot batch)) p))
| WorkerFails id slot queue answer : workers p !! id = Some (mkWorker queue (Fetch slot)) -> get_block slot answer ->
    fetch_rpc_block_batch slot answer = FetchFailed -> worker_step p (set_fatal true (set_worker id (mkWorker queue Gone) p))
| WorkerSends id slot queue batch : workers p !! id = Some (mkWorker queue (Sending slot batch)) -> returned p = false -> (length (results p) < c_result_capacity c)%nat ->
    worker_step p (set_results (results p ++ [(slot, batch)]) (set_worker id (mkWorker queue Idle) p))
| WorkerDropped id slot queue batch : workers p !! id = Some (mkWorker queue (Sending slot batch)) -> returned p = true ->
    worker_step p (set_worker id (mkWorker queue Gone) p).

(** When the inserter waits for a task to end *)
Definition joining (p : Pipeline) : bool :=
  match i_phase (inserter p) with
  | Looping | Draining _ => true
  | Enqueuing _ _ _ => (c_insert_concurrency c <=? length (i_tasks (inserter p)))%nat
  | LoopEnded _ | Returned _ => false
  end.

Inductive inserter_step (p : Pipeline) : Pipeline -> Prop :=
| InserterShutdown : i_phase (inserter p) = Looping -> 0 < shutdown_count p -> inserter_step p (set_inserter (begin_flush (ToEnd (Some (shutdown_count p))) (inserter p)) p)
| TaskJoined j : joining p = true -> i_tasks (inserter p) !! j = Some (TaskDone true) -> inserter_step p (set_inserter (with_tasks (delete j (i_tasks (inserter p))) (inserter p)) p)
| TaskFailed j : joining p = true -> i_tasks (inserter p) !! j = Some (TaskDone false) -> inserter_step p (set_inserter (in_phase (Returned (Err tt)) (inserter p)) p)
| FatalReceived : i_phase (inserter p) = Looping -> fatal p = true -> inserter_step p (set_fatal false (set_inserter (in_phase (Returned (Err tt)) (inserter p)) p))
| FlushTick : i_phase (inserter p) = Looping -> inserter_step p (set_inserter (begin_flush BackToLoop (inserter p)) p)
| ResultReceived slot batch rest : i_phase (inserter p) = Looping -> results p = (slot, batch) :: rest -> inserter_step p (set_results rest (set_inserter (take_result batch (inserter p)) p))
| ResultsClosed : i_phase (inserter p) = Looping -> results p = [] -> all_gone p -> inserter_step p (set_inserter (begin_flush (ToEnd None) (inserter p)) p)
| TaskSpawned txs blks after : i_phase (inserter p) = Enqueuing txs blks after -> (length (i_tasks (inserter p)) < c_insert_concurrency c)%nat ->
    inserter_step p (set_inserter (in_phase (arrive after) (with_tasks (i_tasks (inserter p) ++ [Inserting txs blks (c_retries c)]) (inserter p))) p)
| LoopEnd shutdown : i_phase (inserter p) = LoopEnded shutdown ->
    inserter_step p (match shutdown with
                     | None => if fatal p then set_fatal false (set_inserter (in_phase (Returned (Err tt)) (inserter p)) p) else set_inserter (in_phase (Draining None) (inserter p)) p
                     | Some _ => set_inserter (in_phase (Draining shutdown) (inserter p)) p
                     end)
| Drained shutdown : i_phase (inserter p) = Draining shutdown -> i_tasks (inserter p) = [] ->
    inserter_step p (set_inserter (in_phase (Returned (Ok (bool_decide (is_Some shutdown)))) (inserter p)) p)
| SecondSignal seen : i_phase (inserter p) = Draining (Some seen) -> seen < shutdown_count p -> inserter_step p (set_inserter (in_phase (Returned (Ok true)) (inserter p)) p).

Inductive step (p : Pipeline) : Pipeline -> Prop :=
| Discovers p' : discovery_step p p' -> step p p'
| Dispatches p' : dispatcher_step p p' -> step p p'
| Works p' : worker_step p p' -> step p p'
| Inserts p' : inserter_step p p' -> step p p'
| TaskInserts j t answer t' txs blks : i_tasks (inserter p) !! j = Some t -> insert_step answer t = (t', txs, blks) ->
    step p (store_rows txs blks (set_inserter (with_tasks (<[j := t']> (i_tasks (inserter p))) (inserter p)) p))
| Signals : step p (signal p).
End Pipeline.
