(* ===== verification/IngestRpcSound.v ===== *)
(** * IngestRpcSound: a backfill stores what it was asked for

    [content] is what the node says of a slot, as rows.  In every state of a run the tables are
    consistent: a block row is stored after the transaction rows of its block, so a later run
    that skips the slots it finds misses nothing.  A run that ends well without a signal has
    stored every slot it was asked for, but for slots the node reported as skipped.  A run can
    always end. *)

From S2P Require Import Prelude Text BTree SlotCoverage Hydration Sdk IngestTx IngestBlock IngestRpc.

Open Scope list_scope.
Open Scope Z_scope.

(** ** The slot list and the range *)

(** A slot list is the slots of the file, each once and ascending; it is not empty. *)
Theorem load_slot_list_exact lines l : load_slot_list lines = Some l ->
  l <> [] /\ ascending l /\ exists parsed, parse_lines lines = Some parsed /\ forall slot, slot ∈ l <-> slot ∈ parsed.
Proof.
  unfold load_slot_list. destruct (parse_lines lines) as [[|s parsed]|] eqn:E; [done| |done]. intros [= <-].
  assert (Hall : forall slot, slot ∈ dedup (merge_sort Z.le (s :: parsed)) <-> slot ∈ s :: parsed) by (intros; by rewrite elem_of_dedup, merge_sort_Permutation).
  split_and!; [|apply dedup_ascending, StronglySorted_merge_sort; apply _|eauto]. intros En. assert (s ∈ s :: parsed) as Hin by by left. apply Hall in Hin. rewrite En in Hin. by apply elem_of_nil in Hin.
Qed.
(** A resolved range is not empty and ends within 64 bits. *)
Theorem resolve_rpc_range_ok from to_slot count latest first r :
  (forall n, to_slot = Some n -> n <= u64_max) -> resolve_rpc_range from to_slot count latest first = Ok r -> rr_start r <= rr_end r <= u64_max.
Proof.
  intros Hto. unfold resolve_rpc_range. intros (start & _ & (end_ & He & [= <-])%rbind_ok)%rbind_ok. cbn.
  destruct to_slot as [t|], count as [n|]; [done| | |done].
  - specialize (Hto t eq_refl). destruct (Z.ltb_spec t start); [done|]. injection He as <-. lia.
  - destruct (Z.ltb_spec n 1); [done|]. destruct (Z.ltb_spec u64_max (start + (n - 1))); [done|]. injection He as <-. lia.
Qed.

(** ** Lists updated by index *)

Lemma elem_of_update {A} (l : list A) j t t' x : l !! j = Some t -> x ∈ l -> x = t \/ x ∈ <[j := t']> l.
Proof.
  intros Hj [i Hi]%list_elem_of_lookup. destruct (decide (i = j)) as [->|Hn]; [left; congruence|right].
  apply list_elem_of_lookup. exists i. by rewrite list_lookup_insert_ne.
Qed.
Lemma elem_of_updated {A} (l : list A) j t' x : x ∈ <[j := t']> l -> x = t' \/ x ∈ l.
Proof. intros [i Hi]%list_elem_of_lookup. apply list_lookup_insert_Some in Hi as [(_ & -> & _)|[_ Hi]]; [by left|right; by eapply list_elem_of_lookup_2]. Qed.
Lemma elem_of_deleted {A} (l : list A) j t x : l !! j = Some t -> (x ∈ l <-> x = t \/ x ∈ delete j l).
Proof. intros Hj. rewrite (delete_Permutation l j t Hj) at 1. apply elem_of_cons. Qed.

Lemma swap_remove_elem {A} idx (l : list A) x : x ∈ swap_remove idx l -> x ∈ l.
Proof.
  unfold swap_remove. destruct (last l) as [y|] eqn:Hl; [|done]. apply last_Some in Hl as [k ->]. rewrite removelast_last.
  destruct (Nat.eqb _ _); [set_solver|]. intros [->|Hx]%elem_of_updated; set_solver.
Qed.

Lemma swap_remove_length {A} idx (l : list A) : l <> [] -> S (length (swap_remove idx l)) = length l.
Proof.
  intros Hl. unfold swap_remove. destruct (last l) as [y|] eqn:E; [|by apply last_None in E]. apply last_Some in E as [k ->]. rewrite removelast_last.
  destruct (Nat.eqb _ _); rewrite ?length_insert, length_app; cbn; lia.
Qed.
Lemma sum_insert {A} (f : A -> nat) l i x y : l !! i = Some x -> (sum_list_with f (<[i := y]> l) + f x = sum_list_with f l + f y)%nat.
Proof.
  revert i. induction l as [|z l IH]; intros [|i] H; [done|done|injection H as ->; cbn; lia|].
  change (<[S i := y]> (z :: l)) with (z :: <[i := y]> l). pose proof (IH i H) as E. cbn [sum_list_with]. lia.
Qed.
Lemma sum_delete {A} (f : A -> nat) l i x : l !! i = Some x -> (sum_list_with f (delete i l) + f x = sum_list_with f l)%nat.
Proof.
  revert i. induction l as [|z l IH]; intros [|i] H; [done|done|injection H as ->; cbn; lia|].
  change (delete (S i) (z :: l)) with (z :: delete i l). pose proof (IH i H) as E. cbn [sum_list_with]. lia.
Qed.

Section Sound.
Context {T B Block : Type} (block_slot : B -> Z) (map_block : Z -> Block -> option (list T * B)) (c : Config).
Context (get_block : Z -> RpcAnswer (Block := Block) -> Prop) (get_blocks : Z -> Z -> list Z -> Prop).
Local Abbreviation Pipe := (Pipeline (T := T) (B := B)).
Local Abbreviation Step := (step block_slot map_block c get_block get_blocks).

(** What the node says of a slot, as rows *)
Context (content : Z -> option (list T * B)).
Hypothesis Hblock : forall slot block batch, get_block slot (GotBlock block) -> map_block slot block = Some batch -> content slot = Some batch.
Hypothesis Hslot : forall slot txs b, content slot = Some (txs, b) -> block_slot b = slot.

(** ** Rows *)

(** The transactions of some blocks are among given rows. *)
Definition closed (txs : list T) (blks : list B) : Prop :=
  forall b ts b' t, b ∈ blks -> content (block_slot b) = Some (ts, b') -> t ∈ ts -> t ∈ txs.
Lemma closed_mono txs txs' blks blks' : (forall t, t ∈ txs -> t ∈ txs') -> (forall b, b ∈ blks' -> b ∈ blks) -> closed txs blks -> closed txs' blks'.
Proof. unfold closed. intros H1 H2 H b ts b' t Hb. eauto. Qed.
Lemma closed_nil txs : closed txs [].
Proof. intros b ts b' t Hb. by apply elem_of_nil in Hb. Qed.
Lemma closed_add txs blks slot ts b : content slot = Some (ts, b) -> closed txs blks -> closed (txs ++ ts) (blks ++ [b]).
Proof.
  intros Hc H b1 ts1 b1' t Hb Hc1 Ht. apply elem_of_app in Hb as [Hb|Hb]; [apply elem_of_app; left; by eapply H|].
  apply list_elem_of_singleton in Hb as ->. rewrite (Hslot _ _ _ Hc), Hc in Hc1. injection Hc1 as <- <-. set_solver.
Qed.
Lemma closed_app txs blks blks' : closed txs blks -> closed txs blks' -> closed txs (blks ++ blks').
Proof. intros H H' b ts b' t [Hb|Hb]%elem_of_app; eauto. Qed.

Definition task_rows (t : Task (T := T) (B := B)) : list T * list B := match t with Inserting txs blks _ => (txs, blks) | TaskDone _ => ([], []) end.
Definition phase_rows (ph : Phase (T := T) (B := B)) : list T * list B := match ph with Enqueuing txs blks _ => (txs, blks) | _ => ([], []) end.
Definition true_batch (slot : Z) (batch : option (list T * B)) : Prop := forall b, batch = Some b -> content slot = Some b.

(** Block rows are stored after their transactions. *)
Record rows_inv (p : Pipe) : Prop := {
  ri_tables : closed (tx_rows p) (blk_rows p);
  ri_buffer : closed (i_txs (inserter p)) (i_blks (inserter p));
  ri_batch : closed (fst (phase_rows (i_phase (inserter p)))) (snd (phase_rows (i_phase (inserter p))));
  ri_tasks : forall t, t ∈ i_tasks (inserter p) -> closed (tx_rows p ++ fst (task_rows t)) (snd (task_rows t));
  ri_results : forall slot batch, (slot, batch) ∈ results p -> true_batch slot batch;
  ri_workers : forall id w slot batch, workers p !! id = Some w -> w_task w = Sending slot batch -> true_batch slot batch;
}.

Lemma begin_flush_phase after i :
  begin_flush (T := T) (B := B) after i = mkInserter [] [] (i_since i) (i_tasks i) (Enqueuing (i_txs i) (i_blks i) after) \/
  begin_flush after i = in_phase (arrive after) i /\ i_txs i = [] /\ i_blks i = [].
Proof. unfold begin_flush. destruct (i_txs i), (i_blks i); auto. Qed.
Lemma begin_flush_rows after i ph : closed (i_txs i) (i_blks i) -> i_phase i = ph ->
  let i' := begin_flush after i in
  closed (i_txs i') (i_blks i') /\ closed (fst (phase_rows (i_phase i'))) (snd (phase_rows (i_phase i'))) /\ i_tasks i' = i_tasks i.
Proof.
  intros Hb Hp i'. subst i'. destruct (begin_flush_phase after i) as [->|(-> & E1 & E2)]; cbn; split_and!; try done; try apply closed_nil.
  - destruct after; apply closed_nil.
Qed.
Lemma take_result_rows slot batch i : true_batch slot batch -> closed (i_txs i) (i_blks i) -> i_phase i = Looping ->
  let i' := take_result c batch i in
  closed (i_txs i') (i_blks i') /\ closed (fst (phase_rows (i_phase i'))) (snd (phase_rows (i_phase i'))) /\ i_tasks i' = i_tasks i.
Proof.
  intros Ht Hb Hp. unfold take_result.
  set (i1 := match batch with Some _ => _ | None => _ end).
  assert (Hi1 : closed (i_txs i1) (i_blks i1) /\ i_tasks i1 = i_tasks i /\ i_phase i1 = Looping).
  { subst i1. destruct batch as [[ts b]|]; [|done]. cbn. split_and!; [|done|done]. eapply closed_add; [by apply Ht|done]. }
  destruct Hi1 as (H1 & H2 & H3). destruct (_ || _).
  - rewrite <- H2. by apply (begin_flush_rows BackToLoop (mkInserter (i_txs i1) (i_blks i1) 0 (i_tasks i1) (i_phase i1)) Looping).
  - cbn. rewrite H2, H3. split_and!; [done|apply closed_nil|done].
Qed.

Lemma kept_elem {A} a (l : list A) x : x ∈ kept a l -> x ∈ l.
Proof. destruct a; cbn; [done|by intros ?%elem_of_nil|done]. Qed.
Lemma insert_step_rows tx answer t t' txs blks : closed (tx ++ fst (task_rows t)) (snd (task_rows t)) -> insert_step answer t = (t', txs, blks) ->
  closed ((tx ++ txs) ++ fst (task_rows t')) (snd (task_rows t')) /\ closed tx blks.
Proof.
  intros H. destruct t as [[|x l] [|b k] retries|ok]; cbn [insert_step task_rows fst snd] in *; intros [= <- <- <-].
  - split; apply closed_nil.
  - rewrite app_nil_r in *. split.
    + destruct (acknowledged answer); [apply closed_nil|]. destruct retries; [apply closed_nil|]. cbn. by rewrite !app_nil_r.
    + eapply closed_mono; [done|apply kept_elem|exact H].
  - split; [|apply closed_nil]. destruct (acknowledged answer); [apply closed_nil|]. destruct retries; apply closed_nil.
  - split; [|apply closed_nil]. destruct answer; cbn; [rewrite app_nil_r; done|..]; (destruct retries; cbn; [apply closed_nil|]);
      (eapply closed_mono; [|done|exact H]; set_solver).
  - split; apply closed_nil.
Qed.

Lemma set_worker_rows id w p : rows_inv p -> (forall slot batch, w_task w = Sending slot batch -> true_batch slot batch) -> rows_inv (set_worker id w p).
Proof.
  intros [] Hw. split; cbn; try done. intros i w' slot batch Hi. apply list_lookup_insert_Some in Hi as [(_ & <- & _)|[_ Hi]]; eauto.
Qed.
Lemma set_inserter_rows i p : rows_inv p -> closed (i_txs i) (i_blks i) /\ closed (fst (phase_rows (i_phase i))) (snd (phase_rows (i_phase i))) /\ i_tasks i = i_tasks (inserter p) ->
  rows_inv (set_inserter i p).
Proof. intros [] (H1 & H2 & H3). split; cbn; try done. by rewrite H3. Qed.
Lemma fetch_true slot answer batch : get_block slot answer -> fetch_rpc_block_batch map_block slot answer = FetchDone batch -> true_batch slot batch.
Proof.
  intros Ha. unfold fetch_rpc_block_batch. destruct answer as [block|err].
  - destruct (map_block slot block) as [b|] eqn:Hm; intros [= <-]. intros ? [= <-]. eauto.
  - by destruct (classify_rpc_block_error err); intros [= <-].
Qed.

Lemma discovery_rows p p' : rows_inv p -> discovery_step block_slot c get_blocks p p' -> rows_inv p'.
Proof. intros [] H. destruct H; split; done. Qed.
Lemma dispatcher_rows p p' : rows_inv p -> dispatcher_step c p p' -> rows_inv p'.
Proof.
  intros Hi H. destruct H as [? ? ? ?| | |slot id w Hd Ht Hw Hg Hl|?|?]; try (destruct Hi; split; done).
  - destruct (worker_txs p); destruct Hi; split; done.
  - destruct Hi. apply set_worker_rows; [split; done|]. cbn. eauto.
Qed.
Lemma worker_rows p p' : rows_inv p -> worker_step map_block c get_block p p' -> rows_inv p'.
Proof.
  intros Hi H. destruct H as [id slot queue Hw|id Hw Hn|id slot queue answer batch Hw Ha Hf|id slot queue answer Hw Ha Hf|id slot queue batch Hw Hr Hl|id slot queue batch Hw Hr].
  - by apply set_worker_rows.
  - by apply set_worker_rows.
  - assert (rows_inv (set_worker id (mkWorker queue (Sending slot batch)) p)) as [] by (apply set_worker_rows; [done|]; intros ? ? [= <- <-]; by eapply fetch_true). split; done.
  - assert (rows_inv (set_worker id (mkWorker queue Gone) p)) as [] by by apply set_worker_rows. split; done.
  - assert (rows_inv (set_worker id (mkWorker queue Idle) p)) as [] by by apply set_worker_rows. split; cbn in *; try done.
    intros s b [?|Hb]%elem_of_app; [eauto|]. apply list_elem_of_singleton in Hb as [= -> ->]. by eapply (ri_workers p Hi id _ slot batch Hw).
  - by apply set_worker_rows.
Qed.
Lemma inserter_rows p p' : rows_inv p -> inserter_step c p p' -> rows_inv p'.
Proof.
  intros Hi H. destruct H as [Hp Hs|j Hj Ht|j Hj Ht|Hp Hf|Hp|slot batch rest Hp Hr|Hp Hr Hg|txs blks after Hp Hl|shutdown Hp|shutdown Hp Ht|seen Hp Hs].
  - apply set_inserter_rows; [done|]. eapply begin_flush_rows; [apply Hi|done].
  - destruct Hi. split; cbn; try done. intros t Hx. apply ri_tasks0. apply (elem_of_deleted _ j (TaskDone true)); auto.
  - destruct Hi. split; cbn; try done. apply closed_nil.
  - destruct Hi. split; cbn; try done. apply closed_nil.
  - apply set_inserter_rows; [done|]. eapply begin_flush_rows; [apply Hi|done].
  - assert (rows_inv (set_inserter (take_result c batch (inserter p)) p)) as [].
    { apply set_inserter_rows; [done|]. eapply take_result_rows; [apply (ri_results p Hi slot); rewrite Hr; by left|apply Hi|done]. }
    split; cbn in *; try done. intros s b Hb. apply (ri_results p Hi). rewrite Hr. by right.
  - apply set_inserter_rows; [done|]. eapply begin_flush_rows; [apply Hi|done].
  - pose proof (ri_batch p Hi) as Hb. rewrite Hp in Hb. destruct Hi. split; cbn; try done.
    + destruct after; apply closed_nil.
    + intros t [?|Ht]%elem_of_app; [auto|]. apply list_elem_of_singleton in Ht as ->. cbn in *. eapply closed_mono; [|done|exact Hb]. set_solver.
  - destruct shutdown; [|destruct (fatal p)]; destruct Hi; (split; cbn; try done; apply closed_nil).
  - destruct Hi. split; cbn; try done. apply closed_nil.
  - destruct Hi. split; cbn; try done. apply closed_nil.
Qed.

Lemma step_rows p p' : rows_inv p -> Step p p' -> rows_inv p'.
Proof.
  intros Hi H. destruct H as [p' H|p' H|p' H|p' H|j t answer t' txs blks Hj Ht|].
  - by eapply discovery_rows.
  - by eapply dispatcher_rows.
  - by eapply worker_rows.
  - by eapply inserter_rows.
  - destruct (insert_step_rows (tx_rows p) answer t t' txs blks) as [H1 H2]; [apply Hi; by eapply list_elem_of_lookup_2|done|].
    destruct Hi. split; cbn; try done.
    + apply closed_app; [|]; (eapply closed_mono; [|done|eassumption]; set_solver).
    + intros u [->|Hu]%elem_of_updated; [done|]. eapply closed_mono; [|done|by apply ri_tasks0]. set_solver.
  - destruct Hi. split; done.
Qed.

(** ** Control *)

(** A run that will not end well: a signal came, a worker failed or an insert task did. *)
Definition bad (p : Pipe) : Prop :=
  0 < shutdown_count p \/ fatal p = true \/ i_phase (inserter p) = Returned (Err tt) \/ TaskDone false ∈ i_tasks (inserter p).

(** How the loop of the inserter ended, if it did *)
Definition ended (ph : Phase (T := T) (B := B)) : option (option Z) :=
  match ph with
  | Looping | Enqueuing _ _ BackToLoop | Returned (Err _) => None
  | Enqueuing _ _ (ToEnd shutdown) | LoopEnded shutdown | Draining shutdown => Some shutdown
  | Returned (Ok true) => Some (Some 0)
  | Returned (Ok false) => Some None
  end.
Record control (p : Pipe) : Prop := {
  ct_ids : forall id, id ∈ worker_txs p -> (id < length (workers p))%nat;
  ct_dropped : dispatcher p = DispatcherDone -> worker_txs p = [];
  ct_signals : 0 <= shutdown_count p;
  ct_shutdown : forall seen, ended (i_phase (inserter p)) = Some (Some seen) -> 0 < shutdown_count p;
  ct_ended : ended (i_phase (inserter p)) = Some None -> all_gone p /\ results p = [] /\ i_blks (inserter p) = [];
  ct_checked : i_phase (inserter p) = Draining None \/ i_phase (inserter p) = Returned (Ok false) -> fatal p = false;
  ct_drained : i_phase (inserter p) = Returned (Ok false) -> i_tasks (inserter p) = [];
}.

Lemma all_gone_update id w (p : Pipe) : all_gone p -> workers p !! id = Some w -> w_task w = Gone.
Proof. intros H Hw. by eapply Forall_lookup_1 in H. Qed.

Ltac keep := split; cbn in *; try done; try (by intros ? ?%elem_of_nil); try (by intros [|]).

Lemma discovery_control p p' : control p -> discovery_step block_slot c get_blocks p p' -> control p'.
Proof. intros [] H. destruct H; keep. Qed.
Lemma dispatcher_control p p' : control p -> dispatcher_step c p p' -> control p'.
Proof.
  intros Hi H. destruct H as [slot rest Hd Hq|Hd Hq Hds|slot Hd Ht|slot id w Hd Ht Hw Hg Hl|slot id w Hd Ht Hw Hg|Hd Hs].
  - destruct (worker_txs p) eqn:E; destruct Hi; rewrite E in *; keep.
  - destruct Hi. keep.
  - destruct Hi. keep.
  - destruct Hi. keep.
    + intros i Hi. rewrite length_insert. auto.
    + intros He. destruct (ct_ended0 He) as (Hall & _ & _). destruct Hg. by eapply all_gone_update.
  - destruct Hi. keep. intros i Hi. apply ct_ids0. by eapply swap_remove_elem.
  - destruct Hi. keep.
Qed.
Lemma set_worker_control id w w' p : control p -> workers p !! id = Some w -> w_task w <> Gone -> control (set_worker id w' p).
Proof.
  intros Hi Hw Hg. destruct Hi. keep.
  - intros i Hi. rewrite length_insert. auto.
  - intros He. destruct (ct_ended0 He) as (Hall & _ & _). destruct Hg. by eapply all_gone_update.
Qed.
(** While a worker lives, the loop of the inserter has not ended. *)
Lemma worker_alive id w p : control p -> workers p !! id = Some w -> w_task w <> Gone -> ended (i_phase (inserter p)) <> Some None.
Proof. intros Hi Hw Hg He. destruct (ct_ended p Hi He) as (Hall & _ & _). destruct Hg. by eapply all_gone_update. Qed.
Lemma worker_control p p' : control p -> worker_step map_block c get_block p p' -> control p'.
Proof.
  intros Hi H. destruct H as [id slot queue Hw|id Hw Hn|id slot queue answer batch Hw Ha Hf|id slot queue answer Hw Ha Hf|id slot queue batch Hw Hr Hl|id slot queue batch Hw Hr].
  - by eapply set_worker_control.
  - by eapply set_worker_control.
  - assert (control (set_worker id (mkWorker queue (Sending slot batch)) p)) as [] by by eapply set_worker_control. keep.
  - assert (control (set_worker id (mkWorker queue Gone) p)) as [] by by eapply set_worker_control. keep.
    assert (ended (i_phase (inserter p)) <> Some None) as Ha' by by eapply worker_alive. intros [E|E]; by rewrite E in Ha'.
  - assert (control (set_worker id (mkWorker queue Idle) p)) as [] by by eapply set_worker_control. keep.
    assert (ended (i_phase (inserter p)) <> Some None) as Ha' by by eapply worker_alive. done.
  - by eapply set_worker_control.
Qed.

Lemma begin_flush_ended after i : i_phase i = Looping -> ended (i_phase (begin_flush (T := T) (B := B) after i)) = match after with BackToLoop => None | ToEnd shutdown => Some shutdown end /\
  i_blks (begin_flush after i) = [] /\ i_tasks (begin_flush after i) = i_tasks i /\ i_phase (begin_flush after i) <> Draining None /\ i_phase (begin_flush after i) <> Returned (Ok false).
Proof. intros Hp. destruct (begin_flush_phase after i) as [->|(-> & E1 & E2)]; cbn; destruct after; done. Qed.
Lemma take_result_ended batch (i : Inserter (T := T) (B := B)) : i_phase i = Looping -> ended (i_phase (take_result c batch i)) = None.
Proof.
  intros Hp. unfold take_result. set (i1 := match batch with Some _ => _ | None => _ end). assert (H1 : i_phase i1 = Looping) by (subst i1; by destruct batch as [[]|]).
  destruct (_ || _); [|cbn; by rewrite H1]. by apply (begin_flush_ended BackToLoop (mkInserter (i_txs i1) (i_blks i1) 0 (i_tasks i1) (i_phase i1))).
Qed.
Lemma take_result_tasks batch (i : Inserter (T := T) (B := B)) : i_tasks (take_result c batch i) = i_tasks i.
Proof.
  unfold take_result. set (i1 := match batch with Some _ => _ | None => _ end). assert (H1 : i_tasks i1 = i_tasks i) by (subst i1; by destruct batch as [[]|]).
  destruct (_ || _); [|done]. by destruct (begin_flush_phase BackToLoop (mkInserter (i_txs i1) (i_blks i1) 0 (i_tasks i1) (i_phase i1))) as [->|(-> & _ & _)].
Qed.
Lemma open_control i p : control p -> ended (i_phase i) = None -> control (set_inserter i p).
Proof. intros [] He. keep; rewrite ?He; try done; [intros [E|E]|intros E]; by rewrite E in He. Qed.
Lemma set_fatal_control f p : control p -> ended (i_phase (inserter p)) = None -> control (set_fatal f p).
Proof. intros [] He. keep. intros [E|E]; by rewrite E in He. Qed.

Lemma inserter_control p p' : control p -> inserter_step c p p' -> control p'.
Proof.
  intros Hi H. destruct H as [Hp Hs|j Hj Ht|j Hj Ht|Hp Hf|Hp|slot batch rest Hp Hr|Hp Hr Hg|txs blks after Hp Hl|shutdown Hp|shutdown Hp Ht|seen Hp Hs].
  - destruct (begin_flush_ended (ToEnd (Some (shutdown_count p))) _ Hp) as (He & Hb & _ & Hn1 & Hn2). destruct Hi. keep; rewrite ?He; try done; tauto.
  - unfold joining in Hj. destruct Hi. keep. intros E. by rewrite E in Hj.
  - by apply open_control.
  - apply set_fatal_control; [by apply open_control|done].
  - apply open_control; [done|]. by apply begin_flush_ended.
  - assert (control (set_inserter (take_result c batch (inserter p)) p)) as Hc by (apply open_control; [done|by apply take_result_ended]).
    pose proof (take_result_ended batch _ Hp) as He. destruct Hc. keep. by rewrite He.
  - destruct (begin_flush_ended (ToEnd None) _ Hp) as (He & Hb & _ & Hn1 & Hn2). destruct Hi. keep; rewrite ?He; try done; tauto.
  - destruct Hi. rewrite Hp in *. cbn in *. destruct after; keep.
  - destruct Hi. rewrite Hp in *. cbn in *. destruct shutdown; [|destruct (fatal p) eqn:Hf]; keep.
  - destruct Hi. rewrite Hp in *. cbn in *. destruct shutdown; keep; [|tauto]. intros _ _. by eapply ct_shutdown0.
  - destruct Hi. rewrite Hp in *. cbn in *. keep. intros _ _. by eapply ct_shutdown0.
Qed.
Lemma step_control p p' : control p -> Step p p' -> control p'.
Proof.
  intros Hi H. destruct H as [p' H|p' H|p' H|p' H|j t answer t' txs blks Hj Ht|].
  - by eapply discovery_control.
  - by eapply dispatcher_control.
  - by eapply worker_control.
  - by eapply inserter_control.
  - destruct Hi. keep. intros E. rewrite (ct_drained0 E) in Hj. done.
  - destruct Hi. keep; lia.
Qed.

(** Trouble stays. *)
Lemma bad_step p p' : bad p -> Step p p' -> bad p'.
Proof.
  unfold bad. intros Hb H. destruct H as [p' H|p' H|p' H|p' H|j t answer t' txs blks Hj Ht|].
  - destruct H; done.
  - destruct H; try done. by destruct (worker_txs p).
  - destruct H; cbn; tauto.
  - destruct H as [Hp Hs|j Hj Ht|j Hj Ht|Hp Hf|Hp|slot batch rest Hp Hr|Hp Hr Hg|txs blks after Hp Hl|shutdown Hp|shutdown Hp Ht|seen Hp Hs]; cbn; try tauto.
    + destruct Hb as [?|[?|[E|Hb]]]; [tauto|tauto|unfold joining in Hj; by rewrite E in Hj|]. destruct (proj1 (elem_of_deleted _ _ _ _ Ht) Hb) as [?|?]; [done|tauto].
    + destruct (begin_flush_ended BackToLoop _ Hp) as (_ & _ & E & _). rewrite E, Hp in *. naive_solver.
    + rewrite take_result_tasks, Hp in *. naive_solver.
    + destruct (begin_flush_ended (ToEnd None) _ Hp) as (_ & _ & E & _). rewrite E, Hp in *. naive_solver.
    + rewrite Hp in *. set_solver.
    + rewrite Hp in *. destruct shutdown; [|destruct (fatal p)]; cbn; naive_solver.
    + rewrite Hp in *. naive_solver.
    + rewrite Hp in *. naive_solver.
  - cbn. destruct Hb as [?|[?|[?|Hb]]]; [tauto..|]. destruct (elem_of_update _ j t t' _ Hj Hb) as [<-|?]; [|tauto].
    cbn in Ht. injection Ht as <- _ _. do 3 right. apply list_elem_of_lookup. exists j. apply list_lookup_insert_eq. by eapply lookup_lt_Some.
  - cbn. destruct Hb as [?|?]; [left; lia|tauto].
Qed.

(** ** Where slots are *)

Definition w_slots (w : Worker (T := T) (B := B)) : list Z := w_queue w ++ match w_task w with Fetch slot | Sending slot _ => [slot] | Idle | Gone => [] end.
Definition held (i : Inserter (T := T) (B := B)) (b : B) : Prop :=
  b ∈ i_blks i \/ b ∈ snd (phase_rows (i_phase i)) \/ exists t, t ∈ i_tasks i /\ b ∈ snd (task_rows t).
(** A slot that was sent: on its way, its block row buffered or stored, or reported as skipped *)
Definition placed (p : Pipe) (slot : Z) : Prop :=
  slot ∈ slot_queue p \/ dispatcher p = Handing slot \/ (exists id w, workers p !! id = Some w /\ slot ∈ w_slots w) \/ slot ∈ fst <$> results p \/
  (exists b, (held (inserter p) b \/ b ∈ blk_rows p) /\ block_slot b = slot) \/ slot ∈ skip_log p.

Context (has_block : Z -> bool) (slot_list : option (list Z)).
Hypothesis Hblocks : forall a b l, get_blocks a b l -> forall slot, slot ∈ l <-> a <= slot <= b /\ has_block slot = true.

Definition wanted (slot : Z) : Prop :=
  match slot_list with Some l => slot ∈ l | None => rr_start (c_range c) <= slot <= rr_end (c_range c) /\ has_block slot = true end.
Definition unsent (d : Discovery) (slot : Z) : Prop :=
  match d with ListSending l => slot ∈ l | Chunk cursor => cursor <= slot | ChunkSending end_ l => end_ < slot \/ slot ∈ l | Discovered => False end.

Record fine (p : Pipe) : Prop := {
  fi_mode : match discovery p with Chunk _ | ChunkSending _ _ => slot_list = None | _ => True end;
  fi_closed : dispatcher p = DispatcherDone -> discovery p = Discovered /\ slot_queue p = [];
  fi_senders : dispatcher p <> DispatcherDone -> worker_txs p <> [];
  fi_live : forall id w, id ∈ worker_txs p -> workers p !! id = Some w -> w_task w <> Gone;
  fi_gone : forall id w, workers p !! id = Some w -> w_task w = Gone -> w_queue w = [];
  fi_skipped : forall slot, (slot, None) ∈ results p -> slot ∈ skip_log p;
  fi_skipping : forall id w slot, workers p !! id = Some w -> w_task w = Sending slot None -> slot ∈ skip_log p;
  fi_slots : forall slot, wanted slot -> unsent (discovery p) slot \/ placed p slot;
}.

Lemma slots_to_send_elem range l slot : (forall x, x ∈ l -> x <= rr_end range) -> slot ∈ l -> rr_start range <= slot -> slot ∈ slots_to_send range l.
Proof.
  induction l as [|x l IH]; [done|]. intros Hl Hs Hr. cbn. destruct (Z.ltb_spec (rr_end range) x) as [Hx|Hx]; [specialize (Hl x ltac:(by left)); lia|].
  assert (Hl' : forall y, y ∈ l -> y <= rr_end range) by (intros; apply Hl; by right).
  apply elem_of_cons in Hs as [->|Hs]; destruct (Z.ltb_spec x (rr_start range)); [lia|by left|auto|right; auto].
Qed.

Lemma discovery_fine p p' : fine p -> discovery_step block_slot c get_blocks p p' -> fine p'.
Proof.
  intros Hi H. destruct H as [cursor slots answered Hd Hc end_ Hg|cursor Hd Hc|end_ slot slots Hd Hp Hl|slot slots Hd Hp Hl|slots Hs Hd Hp|end_ Hd|Hd].
  - destruct Hi. rewrite Hd in *. split; cbn; try done; [intros Hp; by destruct (fi_closed0 Hp)|]. intros s Hw. destruct (fi_slots0 s Hw) as [Hu|?]; [|by right].
    cbn in Hu. destruct (Z.ltb_spec end_ s) as [?|Hle]; [by left; left|]. unfold wanted in Hw. rewrite fi_mode0 in Hw. destruct Hw as [Hr Hb].
    assert (Hin : s ∈ slots) by by apply (Hblocks _ _ _ Hg).
    destruct (decide (s ∈ present_slots block_slot c answered cursor end_ p)) as [Hpr|Hpr].
    + right. unfold present_slots in Hpr. destruct (_ && _); [|by apply elem_of_nil in Hpr]. apply elem_of_filter_b in Hpr as [Hpr _].
      apply list_elem_of_fmap in Hpr as (b & -> & Hb'). do 4 right. left. eauto.
    + left. right. apply slots_to_send_elem; [| |lia].
      * intros x [Hx _]%elem_of_filter_b. apply (Hblocks _ _ _ Hg) in Hx as [Hx _]. unfold end_, chunk_end in Hx. lia.
      * apply elem_of_filter_b. split; [done|]. by rewrite bool_decide_false.
  - destruct Hi. rewrite Hd in *. split; cbn; try done; [intros Hp; by destruct (fi_closed0 Hp)|]. intros s Hw. destruct (fi_slots0 s Hw) as [Hu|?]; [|by right].
    cbn in Hu. unfold wanted in Hw. rewrite fi_mode0 in Hw. lia.
  - destruct Hi. rewrite Hd in *. split; cbn; try done. intros s Hw. unfold placed in *. cbn. 
    destruct (fi_slots0 s Hw) as [[Hu|[->|Hu]%elem_of_cons]|[Hq|Hp']]; [by left; left| |by left; right| |by right; right]; right; left; apply elem_of_app; [right; by left|by left].
  - destruct Hi. rewrite Hd in *. split; cbn; try done. intros s Hw. unfold placed in *. cbn. 
    destruct (fi_slots0 s Hw) as [[->|Hu]%elem_of_cons|[Hq|Hp']]; [|by left| |by right; right]; right; left; apply elem_of_app; [right; by left|by left].
  - destruct Hi. destruct (fi_closed0 Hp) as [E _], Hs as (? & ? & ->), Hd as [Hd|[? Hd]]; by rewrite E in Hd.
  - destruct Hi. rewrite Hd in *. split; cbn; try done; [intros Hp; by destruct (fi_closed0 Hp)|]. intros s Hw.
    destruct (fi_slots0 s Hw) as [[Hu|Hu]|?]; [left|by apply elem_of_nil in Hu|by right]. unfold wanted in Hw. rewrite fi_mode0 in Hw. sat_lia.
  - destruct Hi. rewrite Hd in *. split; cbn; try done; [intros Hp; by destruct (fi_closed0 Hp)|]. intros s Hw.
    destruct (fi_slots0 s Hw) as [Hu|?]; [by apply elem_of_nil in Hu|by right].
Qed.
Lemma dispatcher_fine p p' : control p -> fine p -> dispatcher_step c p p' -> fine p' \/ bad p'.
Proof.
  intros Hct Hi H. destruct H as [slot rest Hd Hq|Hd Hq Hds|slot Hd Ht|slot id w Hd Ht Hw Hg Hl|slot id w Hd Ht Hw Hg|Hd Hs].
  - left. pose proof (fi_senders p Hi) as Hne. destruct (worker_txs p) eqn:E; [exfalso; apply Hne; congruence|]. rewrite <- E. destruct Hi. split; cbn; try done; [congruence|].
    intros s Hs. destruct (fi_slots0 s Hs) as [?|Hp]; [by left|right]. unfold placed in *. cbn. rewrite Hq, Hd in Hp.
    destruct Hp as [[->|?]%elem_of_cons|[?|?]]; [by right; left|by left|done|by right; right].
  - left. destruct Hi. split; cbn; try done; [by intros ? ? ?%elem_of_nil|]. intros s Hs. destruct (fi_slots0 s Hs) as [?|Hp]; [by left|right].
    unfold placed in *. cbn. rewrite Hq, Hd in Hp. destruct Hp as [?%elem_of_nil|[?|?]]; [done|done|by right; right].
  - exfalso. apply (fi_senders p Hi); congruence.
  - left. destruct Hi. split; cbn; try done.
    + intros _. apply fi_senders0. congruence.
    + intros i w' Hin Hw'. apply list_lookup_insert_Some in Hw' as [(_ & <- & _)|[_ Hw']]; [done|eauto].
    + intros i w' Hw' Hg'. apply list_lookup_insert_Some in Hw' as [(_ & <- & _)|[_ Hw']]; [done|eauto].
    + intros i w' s Hw' Hg'. apply list_lookup_insert_Some in Hw' as [(_ & <- & _)|[_ Hw']]; eauto.
    + intros s Hs. destruct (fi_slots0 s Hs) as [?|Hp]; [by left|right]. unfold placed in *. cbn. rewrite Hd in Hp.
      destruct Hp as [?|[[= <-]|[Hp|Hp]]]; [by left| | |by do 3 right].
      * do 2 right. left. exists id. eexists. split; [apply list_lookup_insert_eq; by eapply lookup_lt_Some|]. unfold w_slots. cbn. rewrite !elem_of_app. left; right; by left.
      * do 2 right. left. destruct Hp as (i & w' & Hw' & Hin). destruct (decide (i = id)) as [->|Hne].
        -- exists id. eexists. split; [apply list_lookup_insert_eq; by eapply lookup_lt_Some|]. unfold w_slots in *. cbn. simplify_eq. rewrite !elem_of_app in *. tauto.
        -- exists i, w'. by rewrite list_lookup_insert_ne.
  - exfalso. eapply (fi_live p Hi id w); [by eapply list_elem_of_lookup_2|done..].
  - right. by left.
Qed.

Lemma set_worker_fine id w w' r l p : fine p -> workers p !! id = Some w -> w_task w <> Gone -> (w_task w' = Gone -> w_queue w' = [] /\ id ∉ worker_txs p) ->
  (forall slot, w_task w' = Sending slot None -> slot ∈ l ++ skip_log p) -> (forall x, x ∈ results p -> x ∈ r) -> (forall slot, (slot, None) ∈ r -> slot ∈ l ++ skip_log p) ->
  (forall slot, slot ∈ w_slots w -> slot ∈ w_slots w' \/ slot ∈ fst <$> r) -> fine (log_skip l (set_results r (set_worker id w' p))).
Proof.
  intros Hi Hw Hg Hgone Hsk Hr Hrs Hslots. destruct Hi. split; cbn; try done.
  - intros i w1 Hin Hw1. apply list_lookup_insert_Some in Hw1 as [(-> & <- & _)|[_ Hw1]]; [|eauto]. intros Hgo. by destruct (Hgone Hgo).
  - intros i w1 Hw1 Hgo. apply list_lookup_insert_Some in Hw1 as [(-> & <- & _)|[_ Hw1]]; [|eauto]. by destruct (Hgone Hgo).
  - intros i w1 s Hw1 Hs. apply list_lookup_insert_Some in Hw1 as [(-> & <- & _)|[_ Hw1]]; [eauto|]. apply elem_of_app. right. eauto.
  - intros s Hs. destruct (fi_slots0 s Hs) as [?|Hp]; [by left|right]. unfold placed in *. cbn.
    destruct Hp as [?|[?|[Hp|[Hp|[?|?]]]]]; [by left|by right; left| | |by do 4 right; left|do 5 right; apply elem_of_app; by right].
    + destruct Hp as (i & w1 & Hw1 & Hin). destruct (decide (i = id)) as [->|Hne].
      * replace w1 with w in * by congruence. destruct (Hslots s Hin) as [?|?]; [|by do 3 right; left].
        do 2 right. left. exists id, w'. split; [|done]. apply list_lookup_insert_eq. by eapply lookup_lt_Some.
      * do 2 right. left. exists i, w1. by rewrite list_lookup_insert_ne.
    + do 3 right. left. apply list_elem_of_fmap in Hp as (x & -> & Hx). apply list_elem_of_fmap. eauto.
Qed.
Lemma worker_fine p p' : control p -> fine p -> worker_step map_block c get_block p p' -> fine p' \/ bad p'.
Proof.
  intros Hct Hi H. destruct H as [id slot queue Hw|id Hw Hn|id slot queue answer batch Hw Ha Hf|id slot queue answer Hw Ha Hf|id slot queue batch Hw Hr Hl|id slot queue batch Hw Hr].
  - left. apply (set_worker_fine id _ (mkWorker queue (Fetch slot)) (results p) [] p Hi Hw); try done; [apply Hi|].
    unfold w_slots. cbn. intros s. rewrite app_nil_r, elem_of_cons, elem_of_app, list_elem_of_singleton. tauto.
  - left. apply (set_worker_fine id _ (mkWorker [] Gone) (results p) [] p Hi Hw); try done; [apply Hi|]. auto.
  - left. apply (set_worker_fine id _ (mkWorker queue (Sending slot batch)) (results p) _ p Hi Hw); try done.
    + intros s [= -> ->]. by left.
    + intros s Hs%(fi_skipped p Hi). apply elem_of_app. by right.
    + intros s Hs. by left.
  - right. right. by left.
  - left. apply (set_worker_fine id _ (mkWorker queue Idle) (results p ++ [(slot, batch)]) [] p Hi Hw); try done.
    + intros x Hx. apply elem_of_app. by left.
    + intros s [Hs|Hs]%elem_of_app; [by apply Hi|]. apply list_elem_of_singleton in Hs as [= -> <-]. by eapply (fi_skipping p Hi).
    + intros s. unfold w_slots. cbn. rewrite fmap_app, !elem_of_app. tauto.
  - right. unfold returned in Hr. destruct (i_phase (inserter p)) as [| | | |[[]|[]]] eqn:Hp; try done.
    + left. eapply (ct_shutdown p Hct 0). by rewrite Hp.
    + exfalso. eapply worker_alive; [done|done|done|by rewrite Hp].
    + do 2 right. by left.
Qed.

Lemma set_inserter_fine i p : fine p -> (forall b, held (inserter p) b -> held i b) -> fine (set_inserter i p).
Proof.
  intros Hi Hh. destruct Hi. split; cbn; try done. intros s Hs. destruct (fi_slots0 s Hs) as [?|Hp]; [by left|right]. unfold placed in *. cbn.
  destruct Hp as [?|[?|[?|[?|[(b & Hb & <-)|?]]]]]; [tauto..| |tauto]. do 4 right. left. exists b. split; [|done]. destruct Hb; [left; auto|by right].
Qed.
Lemma begin_flush_held after i b : i_phase i = Looping -> held i b -> held (begin_flush after i) b.
Proof.
  intros Hp. unfold held. rewrite Hp. destruct (begin_flush_phase after i) as [->|(-> & E1 & E2)]; cbn; [|rewrite E2; destruct after]; intros [?|[?%elem_of_nil|?]]; tauto.
Qed.
Lemma take_result_held batch i b : i_phase i = Looping -> held i b \/ (exists ts, batch = Some (ts, b)) -> held (take_result c batch i) b.
Proof.
  intros Hp Hb. unfold take_result. set (i1 := match batch with Some _ => _ | None => _ end).
  assert (H1 : i_phase i1 = Looping /\ held i1 b).
  { subst i1. destruct batch as [[ts b1]|]; [|destruct Hb as [?|[? ?]]; done]. split; [done|]. unfold held in *. cbn. rewrite elem_of_app, list_elem_of_singleton.
    destruct Hb as [?|[? [= _ ->]]]; tauto. }
  destruct H1 as [H1 H2]. destruct (_ || _); [|exact H2]. by apply (begin_flush_held BackToLoop (mkInserter (i_txs i1) (i_blks i1) 0 (i_tasks i1) (i_phase i1))).
Qed.

Lemma inserter_fine p p' : rows_inv p -> control p -> fine p -> inserter_step c p p' -> fine p' \/ bad p'.
Proof.
  intros Hri Hct Hi H. destruct H as [Hp Hs|j Hj Ht|j Hj Ht|Hp Hf|Hp|slot batch rest Hp Hr|Hp Hr Hg|txs blks after Hp Hl|shutdown Hp|shutdown Hp Ht|seen Hp Hs].
  - right. by left.
  - left. apply set_inserter_fine; [done|]. unfold held. cbn. intros b [?|[?|(t & Hx & Hb)]]; [tauto..|]. do 2 right. exists t. split; [|done].
    destruct (proj1 (elem_of_deleted _ _ _ _ Ht) Hx) as [->|?]; [by apply elem_of_nil in Hb|done].
  - right. do 2 right. by left.
  - right. do 2 right. by left.
  - left. apply set_inserter_fine; [done|]. intros b. by apply begin_flush_held.
  - left. assert (fine (set_inserter (take_result c batch (inserter p)) p)) as Hf.
    { apply set_inserter_fine; [done|]. intros b Hb. apply take_result_held; [done|by left]. }
    pose proof (fi_skipped p Hi slot) as Hsk. pose proof (ri_results p Hri slot batch) as Htrue. destruct Hf. split; cbn in *; try done.
    + intros s Hs. apply fi_skipped0. rewrite Hr. by right.
    + intros s Hs. destruct (fi_slots0 s Hs) as [?|Hpl]; [by left|right]. unfold placed in *. cbn in *. rewrite Hr in *.
      destruct Hpl as [?|[?|[?|[Hpl|?]]]]; [tauto..| |tauto]. rewrite fmap_cons, elem_of_cons in Hpl. destruct Hpl as [->|?]; [|tauto]. cbn [fst] in *.
      destruct batch as [[ts b]|]; [|do 5 right; apply Hsk; by left]. do 4 right. left. exists b. split.
      * left. apply take_result_held; [done|right; eauto].
      * eapply Hslot, Htrue; [by left|done].
  - left. apply set_inserter_fine; [done|]. intros b. by apply begin_flush_held.
  - left. apply set_inserter_fine; [done|]. unfold held. cbn. rewrite Hp. cbn. intros b [?|[?|(t & Hx & Hb)]]; [tauto| |]; do 2 right.
    + eexists. split; [apply elem_of_app; right; by left|done].
    + exists t. split; [apply elem_of_app; by left|done].
  - destruct shutdown as [seen|]; [right; left; eapply (ct_shutdown p Hct seen); by rewrite Hp|]. destruct (fatal p); [right; do 2 right; by left|left].
    apply set_inserter_fine; [done|]. unfold held. by rewrite Hp.
  - left. apply set_inserter_fine; [done|]. unfold held. by rewrite Hp.
  - left. apply set_inserter_fine; [done|]. unfold held. by rewrite Hp.
Qed.

Lemma insert_step_held answer t t' txs blks b : insert_step answer t = (t', txs, blks) -> b ∈ snd (task_rows t) -> b ∈ snd (task_rows t') \/ b ∈ blks \/ t' = TaskDone false.
Proof.
  destruct t as [[|x l] [|y k] retries|ok]; cbn [insert_step task_rows fst snd]; intros [= <- <- <-] Hb; try by apply elem_of_nil in Hb.
  - destruct answer; cbn; [by right; left|destruct retries; cbn; auto..].
  - destruct answer; cbn; [by left|destruct retries; cbn; auto..].
Qed.
Lemma step_fine p p' : rows_inv p -> control p -> fine p -> Step p p' -> fine p' \/ bad p'.
Proof.
  intros Hri Hct Hi H. destruct H as [p' H|p' H|p' H|p' H|j t answer t' txs blks Hj Ht|].
  - left. by eapply discovery_fine.
  - by eapply dispatcher_fine.
  - by eapply worker_fine.
  - by eapply inserter_fine.
  - assert (t' = TaskDone false \/ t' <> TaskDone false) as [->|Hne] by (destruct t' as [| []]; by auto).
    { right. do 3 right. cbn. apply list_elem_of_lookup. exists j. apply list_lookup_insert_eq. by eapply lookup_lt_Some. }
    left. destruct Hi. split; cbn; try done. intros s Hs. destruct (fi_slots0 s Hs) as [?|Hp]; [by left|right]. unfold placed in *. cbn.
    destruct Hp as [?|[?|[?|[?|[(b & Hb & <-)|?]]]]]; [tauto..| |tauto]. do 4 right. left. exists b. split; [|done]. rewrite elem_of_app. unfold held in *. cbn.
    destruct Hb as [[?|[?|(u & Hu & Hb)]]|?]; [tauto..| |tauto]. destruct (elem_of_update _ j t t' _ Hj Hu) as [->|Hu']; [|left; eauto].
    destruct (insert_step_held _ _ _ _ _ _ Ht Hb) as [?|[?|?]]; [|tauto|done]. left. do 2 right. exists t'. split; [|done].
    apply list_elem_of_lookup. exists j. apply list_lookup_insert_eq. by eapply lookup_lt_Some.
  - right. left. cbn. pose proof (ct_signals p Hct). lia.
Qed.

(** ** Runs *)

Context (txs0 : list T) (blks0 : list B) (Hworkers : (0 < c_worker_count c)%nat) (Htables : closed txs0 blks0).
Local Abbreviation Start := (run_start c slot_list txs0 blks0).

Lemma start_rows : rows_inv Start.
Proof.
  split; cbn; try done; try apply closed_nil; try (by intros ? ?%elem_of_nil); try (by intros ? ? ?%elem_of_nil).
  intros id w slot batch [-> _]%lookup_replicate. done.
Qed.
Lemma start_control : control Start.
Proof. split; cbn; try done; try by intros [|]. intros id. rewrite elem_of_seq, length_replicate. lia. Qed.
Lemma start_fine : fine Start.
Proof.
  split; cbn; try done.
  - by destruct slot_list.
  - intros _. destruct (c_worker_count c); [lia|done].
  - intros id w _ [-> _]%lookup_replicate. done.
  - intros id w [-> _]%lookup_replicate. done.
  - by intros ? ?%elem_of_nil.
  - intros id w slot [-> _]%lookup_replicate. done.
  - intros slot Hw. left. unfold wanted in Hw. destruct slot_list; [done|]. cbn. lia.
Qed.

Definition reachable (p : Pipe) : Prop := rtc Step Start p.
Lemma reachable_inv p : reachable p -> rows_inv p /\ control p /\ (fine p \/ bad p).
Proof.
  unfold reachable. revert p. apply rtc_ind_r.
  - split_and!; [apply start_rows|apply start_control|left; apply start_fine].
  - intros p p' _ Hs (Hr & Hc & Hf). split_and!; [by eapply step_rows|by eapply step_control|].
    destruct Hf as [Hf|Hb]; [by eapply step_fine|right; by eapply bad_step].
Qed.

(** The slots of the log were reported as skipped by the node. *)
Lemma skip_log_true p : reachable p -> forall slot, slot ∈ skip_log p -> exists err, get_block slot (GotError err) /\ classify_rpc_block_error err = SkippedSlot.
Proof.
  unfold reachable. revert p.
  apply (rtc_ind_r (fun p => forall slot, slot ∈ skip_log p -> exists err, get_block slot (GotError err) /\ classify_rpc_block_error err = SkippedSlot)); [by intros slot ?%elem_of_nil|].
  intros p p' _ Hs IH slot.
  destruct Hs as [p' H|p' H|p' H|p' H|j t answer t' txs blks Hj Ht|]; [destruct H; cbn; auto| | | |auto|auto].
  - destruct H; cbn; auto. destruct (worker_txs p); cbn; auto.
  - destruct H as [| |id s queue answer batch Hw Ha Hf| | |]; cbn; auto. rewrite elem_of_app. intros [Hin|?]; [|auto]. destruct batch; [by apply elem_of_nil in Hin|].
    apply list_elem_of_singleton in Hin as ->. unfold fetch_rpc_block_batch in Hf. destruct answer as [block|err]; [by destruct (map_block s block)|].
    exists err. destruct (classify_rpc_block_error err); done.
  - destruct H; cbn; auto. destruct shutdown; cbn; auto. destruct (fatal p); cbn; auto.
Qed.

(** A run that returned well without a signal has no trouble, and nothing on its way. *)
Lemma ended_well p ok : reachable p -> i_phase (inserter p) = Returned (Ok ok) -> shutdown_count p = 0 ->
  fine p /\ all_gone p /\ worker_txs p = [] /\ results p = [] /\ (forall b, ~ held (inserter p) b).
Proof.
  intros Hr Hp Hs. destruct (reachable_inv p Hr) as (Hri & Hct & Hf). destruct ok.
  { pose proof (ct_shutdown p Hct 0) as H. rewrite Hp in H. specialize (H eq_refl). lia. }
  destruct (ct_ended p Hct) as (Hg & Hre & Hb); [by rewrite Hp|]. pose proof (ct_drained p Hct Hp) as Ht.
  assert (Hfine : fine p).
  { destruct Hf as [?|[?|[Hfa|[E|Hx]]]]; [done|lia| | |]; [|congruence|rewrite Ht in Hx; by apply elem_of_nil in Hx].
    rewrite (ct_checked p Hct) in Hfa by by right. done. }
  split_and!; [done..| |done|].
  - destruct (worker_txs p) as [|id l] eqn:E; [done|exfalso]. destruct (lookup_lt_is_Some_2 (workers p) id) as [w Hw]; [apply (ct_ids p Hct); rewrite E; by left|].
    eapply (fi_live p Hfine id w); [rewrite E; by left|done|by eapply all_gone_update].
  - intros b. unfold held. rewrite Hb, Ht, Hp. cbn. intros [?%elem_of_nil|[?%elem_of_nil|(t & ?%elem_of_nil & _)]]; done.
Qed.

Lemma run_complete p ok slot : reachable p -> i_phase (inserter p) = Returned (Ok ok) -> shutdown_count p = 0 -> wanted slot ->
  slot ∈ skip_log p \/ exists b, b ∈ blk_rows p /\ block_slot b = slot.
Proof.
  intros Hr Hp Hs Hw. destruct (ended_well p ok Hr Hp Hs) as (Hf & Hg & Ht & Hre & Hh).
  assert (Hd : dispatcher p = DispatcherDone) by (destruct (dispatcher p) eqn:E; [destruct (fi_senders p Hf); congruence..|done]).
  destruct (fi_closed p Hf Hd) as [Hdi Hq]. destruct (fi_slots p Hf slot Hw) as [Hu|Hpl]; [by rewrite Hdi in Hu|].
  unfold placed in Hpl. rewrite Hq, Hd, Hre in Hpl. destruct Hpl as [?%elem_of_nil|[?|[(id & w & Hw' & Hin)|[?%elem_of_nil|[(b & [Hb|Hb] & <-)|?]]]]]; try done; [|by destruct (Hh b)|eauto|by left].
  pose proof (all_gone_update _ _ _ Hg Hw') as Hgo. unfold w_slots in Hin. rewrite Hgo, (fi_gone p Hf id w Hw' Hgo) in Hin. by apply elem_of_nil in Hin.
Qed.

End Sound.

(** ** A run ends *)

Section Ending.
Context {T B Block : Type} (block_slot : B -> Z) (map_block : Z -> Block -> option (list T * B)) (c : Config).
Context (get_block : Z -> RpcAnswer (Block := Block) -> Prop) (get_blocks : Z -> Z -> list Z -> Prop).
Local Abbreviation Pipe := (Pipeline (T := T) (B := B)).
Local Abbreviation Step := (step block_slot map_block c get_block get_blocks).

(** What is left of the discovery, and what is left of everything sent. *)
Definition discovery_left (d : Discovery) : nat :=
  match d with
  | ListSending _ => 1
  | Chunk cursor => 2 * Z.to_nat (rr_end (c_range c) + 1 - cursor) + 2
  | ChunkSending end_ _ => 2 * Z.to_nat (rr_end (c_range c) - end_) + 3
  | Discovered => 0
  end.
Definition sending (d : Discovery) : list Z := match d with ListSending l | ChunkSending _ l => l | _ => [] end.
Definition worker_left (w : Worker (T := T) (B := B)) : nat :=
  (16 + c_retries c) * length (w_queue w) + match w_task w with Idle => 1 | Fetch _ => 15 + c_retries c | Sending _ _ => 13 + c_retries c | Gone => 0 end.
Definition some_rows {A} (l : list A) : nat := match l with [] => 0 | _ => 1 end.
Definition task_left (t : Task (T := T) (B := B)) : nat := match t with Inserting txs blks retries => 2 + some_rows txs + some_rows blks + retries | TaskDone _ => 1 end.
Definition phase_left (ph : Phase (T := T) (B := B)) : nat :=
  match ph with
  | Looping => 20 + c_retries c | Enqueuing _ _ BackToLoop => 26 + 2 * c_retries c | Enqueuing _ _ (ToEnd _) => 9 + c_retries c
  | LoopEnded _ => 3 | Draining _ => 2 | Returned _ => 0
  end.
(** Buffered rows: a flush of them is still to come. *)
Definition buffer_left (i : Inserter (T := T) (B := B)) : nat := match i_txs i, i_blks i with [], [] => 0 | _, _ => 7 + c_retries c end.
Definition dispatcher_left (d : Dispatcher) : nat := match d with Receiving => 1 | Handing _ => 18 + c_retries c | DispatcherDone => 0 end.
Definition left_over (p : Pipe) : nat :=
  (20 + c_retries c) * length (sending (discovery p)) + (19 + c_retries c) * length (slot_queue p) + dispatcher_left (dispatcher p) +
  length (worker_txs p) + sum_list_with worker_left (workers p) + (11 + c_retries c) * length (results p) +
  sum_list_with task_left (i_tasks (inserter p)) + (phase_left (i_phase (inserter p)) + buffer_left (inserter p)).
Definition closer (p' p : Pipe) : Prop :=
  (discovery_left (discovery p') < discovery_left (discovery p))%nat \/ discovery_left (discovery p') = discovery_left (discovery p) /\ (left_over p' < left_over p)%nat.

Hypothesis Hend : rr_end (c_range c) < u64_max.

#[local] Arguments Nat.mul : simpl never.
Ltac further := right; unfold left_over; cbn -[delete]; split; [done|].

Lemma discovery_closer p p' : discovery_step block_slot c get_blocks p p' -> closer p' p.
Proof.
  destruct 1 as [cursor slots answered Hd Hc end_ Hg|cursor Hd Hc|end_ slot slots Hd Hp Hl|slot slots Hd Hp Hl|slots Hs Hd Hp|end_ Hd|Hd].
  - left. rewrite Hd. cbn. unfold end_, chunk_end. sat_lia.
  - left. rewrite Hd. cbn. lia.
  - right. unfold left_over. rewrite Hd. cbn. rewrite length_app. cbn. lia.
  - right. unfold left_over. rewrite Hd. cbn. rewrite length_app. cbn. lia.
  - left. destruct Hd as [->|[? ->]]; cbn; lia.
  - left. rewrite Hd. cbn. sat_lia.
  - left. rewrite Hd. cbn. lia.
Qed.
Lemma dispatcher_closer p p' : dispatcher_step c p p' -> closer p' p.
Proof.
  destruct 1 as [slot rest Hd Hq|Hd Hq Hds|slot Hd Ht|slot id w Hd Ht Hw Hg Hl|slot id w Hd Ht Hw Hg|Hd Hs].
  - destruct (worker_txs p) eqn:E; further; rewrite ?E, Hd, Hq; cbn; lia.
  - further. rewrite Hd, Hq. cbn. lia.
  - further. rewrite Hd, Ht. cbn. lia.
  - further. pose proof (sum_insert worker_left _ id _ (mkWorker (w_queue w ++ [slot]) (w_task w)) Hw) as Hsum. rewrite Hd. unfold worker_left in Hsum at 2 4. cbn in *.
    rewrite length_app in Hsum. cbn in Hsum. lia.
  - further. pose proof (swap_remove_length (turn p) (worker_txs p)) as Hlen. rewrite Hd.
    specialize (Hlen ltac:(intros E; by rewrite E in Ht)). cbn [dispatcher_left]. lia.
  - further. destruct (dispatcher p); [cbn; lia..|done].
Qed.
Lemma worker_closer p p' : worker_step map_block c get_block p p' -> closer p' p.
Proof.
  destruct 1 as [id slot queue Hw|id Hw Hn|id slot queue answer batch Hw Ha Hf|id slot queue answer Hw Ha Hf|id slot queue batch Hw Hr Hl|id slot queue batch Hw Hr];
    pose proof (fun w' => sum_insert worker_left _ id _ w' Hw) as Hsum; further; rewrite ?length_app; cbn [length].
  - specialize (Hsum (mkWorker queue (Fetch slot))). unfold worker_left in Hsum at 2 4. cbn in *. lia.
  - specialize (Hsum (mkWorker [] Gone)). unfold worker_left in Hsum at 2 4. cbn in *. lia.
  - specialize (Hsum (mkWorker queue (Sending slot batch))). unfold worker_left in Hsum at 2 4. cbn in *. lia.
  - specialize (Hsum (mkWorker queue Gone)). unfold worker_left in Hsum at 2 4. cbn in *. lia.
  - specialize (Hsum (mkWorker queue Idle)). unfold worker_left in Hsum at 2 4. cbn in *. lia.
  - specialize (Hsum (mkWorker queue Gone)). unfold worker_left in Hsum at 2 4. cbn in *. lia.
Qed.

(** What a flush of the buffers leaves; with empty buffers a flush does nothing. *)
Definition ahead (i : Inserter (T := T) (B := B)) : nat := phase_left (i_phase i) + buffer_left i.
Lemma begin_flush_ahead after i : i_phase i = Looping ->
  (ahead (begin_flush after i) < ahead i)%nat \/ after = BackToLoop /\ begin_flush after i = i.
Proof.
  intros Hp. unfold ahead, begin_flush. rewrite Hp. destruct i as [txs blks since tasks ph]. cbn in Hp. subst ph.
  destruct txs, blks, after; cbn; auto; left; lia.
Qed.
Lemma take_result_ahead batch i : i_phase i = Looping -> (ahead (take_result c batch i) <= ahead i + 7 + c_retries c)%nat.
Proof.
  intros Hp. unfold take_result. set (i1 := match batch with Some _ => _ | None => _ end).
  assert (H1 : i_phase i1 = Looping /\ (ahead i1 <= ahead i + 7 + c_retries c)%nat).
  { unfold i1, ahead, buffer_left. destruct batch as [[ts b]|]; cbn; rewrite Hp; cbn; (split; [done|]); [destruct (i_txs i ++ ts), (i_blks i ++ [b])|]; cbn; lia. }
  destruct H1 as [H1 H2]. destruct (_ || _); [|exact H2].
  destruct (begin_flush_ahead BackToLoop (mkInserter (i_txs i1) (i_blks i1) 0 (i_tasks i1) (i_phase i1)) H1) as [H|[_ ->]]; unfold ahead, buffer_left in *; cbn in *; lia.
Qed.
Lemma set_inserter_closer i p : (sum_list_with task_left (i_tasks i) + ahead i < sum_list_with task_left (i_tasks (inserter p)) + ahead (inserter p))%nat -> closer (set_inserter i p) p.
Proof. unfold ahead. intros H. further. lia. Qed.
Lemma flush_closer after p : i_phase (inserter p) = Looping -> after <> BackToLoop \/ begin_flush after (inserter p) <> inserter p -> closer (set_inserter (begin_flush after (inserter p)) p) p.
Proof.
  intros Hp Ha. destruct (begin_flush_ended after _ Hp) as (_ & _ & Ht & _). apply set_inserter_closer. rewrite Ht.
  destruct (begin_flush_ahead after _ Hp) as [?|[? ?]]; [lia|]. destruct Ha; done.
Qed.
Lemma in_phase_closer ph p : (phase_left ph < phase_left (i_phase (inserter p)))%nat -> closer (set_inserter (in_phase ph (inserter p)) p) p.
Proof. intros H. apply set_inserter_closer. unfold ahead, buffer_left. cbn. lia. Qed.

(** The only inserter step that is no progress is a tick with nothing to flush. *)
Lemma inserter_closer p p' : inserter_step c p p' -> p' = p \/ closer p' p.
Proof.
  destruct 1 as [Hp Hs|j Hj Ht|j Hj Ht|Hp Hf|Hp|slot batch rest Hp Hr|Hp Hr Hg|txs blks after Hp Hl|shutdown Hp|shutdown Hp Ht|seen Hp Hs].
  - right. apply flush_closer; [done|by left].
  - right. apply set_inserter_closer. cbn -[delete]. pose proof (sum_delete task_left _ j _ Ht) as Hsum. cbn [task_left] in Hsum. unfold ahead, buffer_left. cbn. lia.
  - right. apply in_phase_closer. unfold joining in Hj. destruct (i_phase (inserter p)) as [|? ? []| | |]; cbn; try done; lia.
  - right. apply (in_phase_closer (Returned (Err tt)) p). rewrite Hp. cbn. lia.
  - assert (begin_flush BackToLoop (inserter p) = inserter p \/ begin_flush BackToLoop (inserter p) <> inserter p) as [E|?].
    { destruct (inserter p) as [txs blks since tasks ph]. cbn in Hp. subst ph. destruct txs, blks; [by left|right; discriminate..]. }
    + left. rewrite E. by destruct p.
    + right. apply flush_closer; [done|by right].
  - right. pose proof (take_result_ahead batch _ Hp) as Ha. unfold ahead in Ha. further. rewrite take_result_tasks, Hr. cbn. lia.
  - right. apply flush_closer; [done|by left].
  - right. apply set_inserter_closer. unfold ahead, buffer_left. cbn. rewrite Hp, sum_list_with_app. cbn. destruct after; cbn; destruct txs, blks; cbn; lia.
  - right. destruct shutdown; [|destruct (fatal p)].
    + apply in_phase_closer. rewrite Hp. cbn. lia.
    + apply (in_phase_closer (Returned (Err tt)) p). rewrite Hp. cbn. lia.
    + apply in_phase_closer. rewrite Hp. cbn. lia.
  - right. apply in_phase_closer. rewrite Hp. cbn. lia.
  - right. apply in_phase_closer. rewrite Hp. cbn. lia.
Qed.
(** An insert stores rows or uses up an attempt. *)
Lemma insert_step_left answer t t' txs blks : insert_step (T := T) (B := B) answer t = (t', txs, blks) -> t' = t /\ txs = [] /\ blks = [] \/ (task_left t' < task_left t)%nat.
Proof.
  destruct t as [[|x l] [|y k] retries|ok]; cbn; intros [= <- <- <-]; [right; cbn; lia|right..|by left];
    destruct (acknowledged answer); unfold retried; try destruct retries; cbn; lia.
Qed.
Lemma step_closer p p' : Step p p' -> p' = p \/ p' = signal p \/ closer p' p.
Proof.
  destruct 1 as [p' H|p' H|p' H|p' H|j t answer t' txs blks Hj Ht|].
  - right; right. by eapply discovery_closer.
  - right; right. by eapply dispatcher_closer.
  - right; right. by eapply worker_closer.
  - destruct (inserter_closer _ _ H); auto.
  - destruct (insert_step_left _ _ _ _ _ Ht) as [(-> & -> & ->)|Hlt].
    + left. unfold with_tasks, set_inserter, store_rows. cbn. rewrite list_insert_id, !app_nil_r by done. by destruct p as [? ? ? ? ? ? ? ? [] ? ? ? ?].
    + right; right. pose proof (sum_insert task_left _ j _ t' Hj) as Hsum. further. unfold buffer_left. cbn. lia.
  - by right; left.
Qed.

(** A step that works: all but a tick with nothing to flush and the arrival of a signal, which
    is the environment's.  Between two of them any number of signals may arrive. *)
Definition works (p p' : Pipe) : Prop := Step p p' /\ p' <> p /\ p' <> signal p.
Definition advance (p p' : Pipe) : Prop := exists q, rtc (fun a b => b = signal a) p q /\ works q p'.

Lemma closer_wf : well_founded closer.
Proof.
  assert (H : forall n1 n2 p, discovery_left (discovery p) = n1 -> left_over p = n2 -> Acc closer p); [|intros p; by eapply H].
  intros n1. induction n1 as [n1 IH1] using lt_wf_ind. intros n2. induction n2 as [n2 IH2] using lt_wf_ind. intros p E1 E2. split. intros p' [Hc|[Hc1 Hc2]].
  - eapply IH1; [|done|done]. lia.
  - eapply IH2; [|lia|done]. lia.
Qed.
Lemma signals_closer p q : rtc (fun a b : Pipe => b = signal a) p q -> forall p', closer p' q -> closer p' p.
Proof. induction 1 as [|p p1 q -> _ IH]; [done|]. intros p' H. exact (IH p' H). Qed.
Lemma advance_closer p p' : advance p p' -> closer p' p.
Proof. intros (q & Hq & Hs & Hn1 & Hn2). eapply signals_closer; [done|]. by destruct (step_closer _ _ Hs) as [?|[?|?]]. Qed.
Lemma advance_wf : well_founded (flip advance).
Proof. intros p. induction (closer_wf p) as [p _ IH]. split. intros p' H. apply IH. by apply advance_closer. Qed.
Lemma closer_irrefl p : ~ closer p p.
Proof. intros [?|[_ ?]]; lia. Qed.

(** While the run has not returned, some step works. *)
Hypothesis Hanswers : forall slot, exists answer, get_block slot answer /\ fetch_rpc_block_batch map_block slot answer <> FetchRetry.
Hypothesis Hlists : forall a b, exists l, get_blocks a b l.
Hypothesis Hcaps : (0 < c_queue_capacity c)%nat /\ (0 < c_worker_queue_capacity c)%nat /\ (0 < c_result_capacity c)%nat /\ (0 < c_insert_concurrency c)%nat.

Definition progress (p : Pipe) : Prop := exists p', Step p p' /\ closer p' p.

Lemma discovers p p' : discovery_step block_slot c get_blocks p p' -> progress p.
Proof. intros H. exists p'. split; [by apply Discovers|by apply discovery_closer]. Qed.
Lemma dispatches p p' : dispatcher_step c p p' -> progress p.
Proof. intros H. exists p'. split; [by apply Dispatches|by apply dispatcher_closer]. Qed.
Lemma fetches p p' : worker_step map_block c get_block p p' -> progress p.
Proof. intros H. exists p'. split; [by apply Works|by apply worker_closer]. Qed.
Lemma inserts p p' : inserter_step c p p' -> p' <> p -> progress p.
Proof. intros H Hn. exists p'. split; [by apply Inserts|by destruct (inserter_closer _ _ H)]. Qed.
Lemma moved_on (p p' : Pipe) : i_phase (inserter p') <> i_phase (inserter p) \/ i_tasks (inserter p') <> i_tasks (inserter p) \/ results p' <> results p -> p' <> p.
Proof. intros H ->. tauto. Qed.

(** A task can be inserted or joined. *)
Lemma task_progress p : joining c p = true -> i_tasks (inserter p) <> [] -> progress p.
Proof.
  intros Hj Ht. destruct (i_tasks (inserter p)) as [|t l] eqn:E; [done|]. assert (H0 : i_tasks (inserter p) !! 0%nat = Some t) by by rewrite E.
  destruct t as [txs blks retries|[]].
  - destruct (insert_step Stored (Inserting txs blks retries)) as [[t' txs'] blks'] eqn:Hs. eexists. split; [by eapply TaskInserts|].
    destruct (insert_step_left _ _ _ _ _ Hs) as [(-> & _)|Hlt]; [destruct txs, blks; discriminate|].
    pose proof (sum_insert task_left _ 0 _ t' H0) as Hsum. further. unfold buffer_left. cbn in *. lia.
  - eapply inserts; [by eapply (TaskJoined _ _ 0%nat)|]. apply moved_on. right; left. cbn. rewrite E. cbn. intros Hl. apply (f_equal length) in Hl. cbn in Hl. lia.
  - eapply inserts; [by eapply (TaskFailed _ _ 0%nat)|]. apply moved_on. left. cbn. unfold joining in Hj. intros H. by rewrite <- H in Hj.
Qed.
Lemma worker_progress p id w : i_phase (inserter p) = Looping -> results p = [] -> workers p !! id = Some w ->
  (w_task w = Idle /\ w_queue w <> [] \/ (exists slot, w_task w = Fetch slot) \/ exists slot batch, w_task w = Sending slot batch) -> progress p.
Proof.
  intros Hp Hr Hw Ha. destruct w as [queue task]. cbn in Ha. destruct Ha as [[-> Hq]|[[slot ->]|(slot & batch & ->)]].
  - destruct queue as [|slot queue]; [done|]. eapply fetches. by eapply WorkerTakes.
  - destruct (Hanswers slot) as (answer & Ha & Hn). destruct (fetch_rpc_block_batch map_block slot answer) as [|batch|] eqn:Hf; [done| |].
    + eapply fetches. by eapply WorkerFetches.
    + eapply fetches. by eapply WorkerFails.
  - eapply fetches. eapply WorkerSends; [done|unfold returned; by rewrite Hp|rewrite Hr; apply Hcaps].
Qed.
Lemma discovery_progress p : discovery p <> Discovered -> slot_queue p = [] -> dispatcher p = Receiving -> progress p.
Proof.
  intros Hd Hq Hdi. assert (Hcap : (length (slot_queue p) < c_queue_capacity c)%nat) by (rewrite Hq; apply Hcaps).
  assert (Hn : dispatcher p <> DispatcherDone) by congruence. destruct (discovery p) as [[|slot l]|cursor|end_ [|slot l]|] eqn:E; [..|done].
  - eapply discovers; by eapply ListSent.
  - eapply discovers; by eapply SendListed.
  - destruct (Z.ltb_spec (rr_end (c_range c)) cursor) as [Hc|Hc]; [eapply discovers; by eapply DiscoverEnd|].
    destruct (Hlists cursor (chunk_end (c_range c) (c_chunk_slots c) cursor)) as [l Hl]. eapply discovers. by eapply (DiscoverChunk _ _ _ _ _ _ true).
  - eapply discovers; by eapply ChunkSent.
  - eapply discovers; by eapply SendSlot.
Qed.
Lemma dispatcher_progress p slot : control p -> dispatcher p = Handing slot ->
  (forall id w, workers p !! id = Some w -> w = mkWorker [] Idle \/ w_task w = Gone) -> progress p.
Proof.
  intros Hct Hd Hw. destruct (worker_txs p) as [|id0 l] eqn:E; [eapply dispatches; by eapply NoWorkers|].
  assert (Ht : (turn p < length (worker_txs p))%nat) by (unfold turn; rewrite E; cbn [length]; apply Nat.mod_upper_bound; lia).
  apply lookup_lt_is_Some_2 in Ht as [id Ht]. assert (Hin : id ∈ worker_txs p) by by eapply list_elem_of_lookup_2.
  destruct (lookup_lt_is_Some_2 (workers p) id) as [w Hl]; [by apply (ct_ids p Hct)|]. destruct (Hw id w Hl) as [->|Hg].
  - eapply dispatches. eapply HandSlot; [done|done|done|done|apply Hcaps].
  - eapply dispatches. by eapply WorkerClosed.
Qed.
Lemma closing_progress p : control p -> i_phase (inserter p) = Looping -> results p = [] -> dispatcher p = DispatcherDone ->
  (forall id w, workers p !! id = Some w -> w = mkWorker [] Idle \/ w_task w = Gone) -> progress p.
Proof.
  intros Hct Hp Hr Hd Hw. destruct (decide (Exists (fun w => match w_task w with Idle => true | _ => false end = true) (workers p))) as [(w & Hin & Hi)%Exists_exists|Hn].
  - apply list_elem_of_lookup in Hin as [id Hl]. destruct (Hw id w Hl) as [->|Hg]; [|by rewrite Hg in Hi].
    eapply fetches. eapply WorkerEnds; [done|]. rewrite (ct_dropped p Hct Hd). by intros ?%elem_of_nil.
  - eapply inserts; [eapply ResultsClosed; [done|done|]|].
    + apply Forall_lookup_2. intros id w Hl. destruct (Hw id w Hl) as [->|Hg]; [|done]. destruct Hn. apply Exists_exists. eexists. split; [by eapply list_elem_of_lookup_2|done].
    + apply moved_on. left. cbn. rewrite Hp. by destruct (begin_flush_phase (ToEnd None) (inserter p)) as [->|(-> & _ & _)].
Qed.

Definition resting (w : Worker (T := T) (B := B)) : bool := match w_task w, w_queue w with Gone, _ | Idle, [] => true | _, _ => false end.
Lemma looping_progress p : control p -> i_phase (inserter p) = Looping -> progress p.
Proof.
  intros Hct Hp. destruct (results p) as [|[slot batch] rest] eqn:Hr.
  2: { eapply inserts; [by eapply ResultReceived|]. apply moved_on. right; right. cbn. rewrite Hr. intros H. apply (f_equal length) in H. cbn in H. lia. }
  destruct (decide (Exists (fun w => resting w = false) (workers p))) as [(w & Hin & Hw)%Exists_exists|Hn].
  { apply list_elem_of_lookup in Hin as [id Hl]. eapply worker_progress; [done|done|done|]. unfold resting in Hw. destruct w as [[|s queue] []]; cbn in *; naive_solver. }
  assert (Hrest : forall id w, workers p !! id = Some w -> w = mkWorker [] Idle \/ w_task w = Gone).
  { intros id w Hl. destruct (resting w) eqn:E; [|destruct Hn; apply Exists_exists; eexists; split; [by eapply list_elem_of_lookup_2|done]].
    unfold resting in E. destruct w as [[|] []]; cbn in *; auto; done. }
  destruct (dispatcher p) as [|slot|] eqn:Hd; [|by eapply dispatcher_progress|by eapply closing_progress].
  destruct (slot_queue p) as [|slot rest] eqn:Hq; [|eapply dispatches; by eapply TakeSlot].
  assert (discovery p = Discovered \/ discovery p <> Discovered) as [Hdi|Hdi] by (destruct (discovery p); by auto); [|by apply discovery_progress].
  eapply dispatches. by eapply SlotsClosed.
Qed.
Lemma run_progress p : control p -> returned p = false -> progress p.
Proof.
  intros Hct Hret. destruct (i_phase (inserter p)) as [|txs blks after|shutdown|shutdown|r] eqn:Hp; [by apply looping_progress| | | |unfold returned in Hret; by rewrite Hp in Hret].
  - destruct (decide (length (i_tasks (inserter p)) < c_insert_concurrency c)%nat) as [Hl|Hl].
    + eapply inserts; [by eapply TaskSpawned|]. apply moved_on. left. cbn. rewrite Hp. by destruct after.
    + apply task_progress; [unfold joining; rewrite Hp; apply Nat.leb_le; lia|]. intros E. rewrite E in Hl. cbn in Hl. destruct Hcaps as (_ & _ & _ & ?). lia.
  - eapply inserts; [by eapply LoopEnd|]. apply moved_on. left. destruct shutdown; [|destruct (fatal p)]; cbn; by rewrite Hp.
  - destruct (i_tasks (inserter p)) eqn:E; [|apply task_progress; [unfold joining; by rewrite Hp|by rewrite E]].
    eapply inserts; [by eapply Drained|]. apply moved_on. left. cbn. by rewrite Hp.
Qed.
Lemma stuck_returned p : control p -> (forall p', ~ works p p') -> returned p = true.
Proof.
  intros Hct Hn. destruct (returned p) eqn:Hr; [done|exfalso]. destruct (run_progress p Hct Hr) as (p' & Hs & Hc). apply (Hn p'). split_and!; [done| |]; intros ->.
  - by apply (closer_irrefl p).
  - by apply (closer_irrefl (signal p)).
Qed.
End Ending.

(** What the node promises: a block of a slot maps to the same rows whenever it is asked for,
    with the slot in its block row, and getBlocks lists the slots that have blocks. *)
Record node_true {T B Block : Type} (block_slot : B -> Z) (map_block : Z -> Block -> option (list T * B)) (get_block : Z -> RpcAnswer (Block := Block) -> Prop)
    (get_blocks : Z -> Z -> list Z -> Prop) (content : Z -> option (list T * B)) (has_block : Z -> bool) : Prop := {
  nt_block : forall slot block batch, get_block slot (GotBlock block) -> map_block slot block = Some batch -> content slot = Some batch;
  nt_slot : forall slot txs b, content slot = Some (txs, b) -> block_slot b = slot;
  nt_blocks : forall a b l, get_blocks a b l -> forall slot, slot ∈ l <-> a <= slot <= b /\ has_block slot = true;
}.

Section Capacities.
Context (range : RpcRange) (chunk_slots : Z) (skip : bool) (inflight retries : nat) (flush_every tx_flush blk_flush : Z).
Lemma run_config_capacities :
  let c := run_config range chunk_slots skip inflight retries flush_every tx_flush blk_flush in
  (0 < c_worker_count c)%nat /\ (0 < c_queue_capacity c)%nat /\ (0 < c_worker_queue_capacity c)%nat /\ (0 < c_result_capacity c)%nat /\ (0 < c_insert_concurrency c)%nat.
Proof. unfold run_config. cbn -[Z.to_nat Nat.max Nat.min Nat.div Nat.mul]. lia. Qed.
End Capacities.

(** C11: a backfill that ends well without a signal has stored every slot it was asked for,
    block row and transaction rows, but for slots the node reported as skipped; with
    [skip_ingested] that covers the slots earlier runs stored.  In every state of a run, also
    one that is killed, a stored block row has its transaction rows stored, so that the next
    run may rely on the block rows it finds. *)
Theorem rpc_backfill_complete {T B Block : Type} (block_slot : B -> Z) (map_block : Z -> Block -> option (list T * B)) get_block get_blocks content has_block
    range chunk_slots skip inflight retries flush_every tx_flush blk_flush slot_list txs0 blks0 p :
  let c := run_config range chunk_slots skip inflight retries flush_every tx_flush blk_flush in
  node_true block_slot map_block get_block get_blocks content has_block -> closed block_slot content txs0 blks0 ->
  rtc (step block_slot map_block c get_block get_blocks) (run_start c slot_list txs0 blks0) p ->
  closed block_slot content (tx_rows p) (blk_rows p) /\
  (forall ok slot, i_phase (inserter p) = Returned (Ok ok) -> shutdown_count p = 0 -> wanted c has_block slot_list slot ->
     (exists err, get_block slot (GotError err) /\ classify_rpc_block_error err = SkippedSlot) \/
     (exists b, b ∈ blk_rows p /\ block_slot b = slot) /\ (forall ts b' t, content slot = Some (ts, b') -> t ∈ ts -> t ∈ tx_rows p)).
Proof.
  intros c [Hb Hs Hl] Hc Hp. destruct (run_config_capacities range chunk_slots skip inflight retries flush_every tx_flush blk_flush) as [Hw _]. fold c in Hw.
  destruct (reachable_inv block_slot map_block c get_block get_blocks content Hb Hs has_block slot_list Hl txs0 blks0 Hw Hc p Hp) as (Hri & _ & _).
  split; [apply Hri|]. intros ok slot Hret Hsig Hwant.
  destruct (run_complete block_slot map_block c get_block get_blocks content Hb Hs has_block slot_list Hl txs0 blks0 Hw Hc p ok slot Hp Hret Hsig Hwant) as [Hk|(b & Hin & E)].
  - left. by eapply skip_log_true.
  - right. split; [by exists b|]. intros ts b' t Hct Ht. eapply (ri_tables _ _ p Hri b); [done|by rewrite E|done].
Qed.

(** C12: a backfill ends, also when nobody interrupts it.  From every state a run reaches, with
    full channels, failed workers and failed inserts, there is no infinite sequence of working
    steps (all steps but signals and ticks with nothing to flush), however many signals and idle
    ticks come in between; and when no step that works is left, the run has returned.  The
    node has to answer in the end, and the range has to end below the largest slot number, where
    the discovery would not advance. *)
Theorem rpc_backfill_ends {T B Block : Type} (block_slot : B -> Z) (map_block : Z -> Block -> option (list T * B)) get_block get_blocks
    range chunk_slots skip inflight retries flush_every tx_flush blk_flush slot_list txs0 blks0 p :
  let c := run_config range chunk_slots skip inflight retries flush_every tx_flush blk_flush in
  (forall slot, exists answer, get_block slot answer /\ fetch_rpc_block_batch map_block slot answer <> FetchRetry) -> (forall a b, exists l, get_blocks a b l) ->
  rr_end range < u64_max -> rtc (step block_slot map_block c get_block get_blocks) (run_start c slot_list txs0 blks0) p ->
  Acc (flip (advance block_slot map_block c get_block get_blocks)) p /\
  ((forall p', ~ works block_slot map_block c get_block get_blocks p p') -> returned p = true).
Proof.
  intros c Ha Hl Hr Hp. destruct (run_config_capacities range chunk_slots skip inflight retries flush_every tx_flush blk_flush) as [Hw Hcaps]. fold c in Hcaps, Hw.
  split; [by apply advance_wf|]. apply (stuck_returned block_slot map_block c get_block get_blocks Hr Ha Hl Hcaps).
  revert p Hp. apply (rtc_ind_r (fun p => control p)).
  - by apply start_control.
  - intros p p' _ Hs Hc. by eapply step_control.
Qed.
