(* ===== verification/BlockHydration.v ===== *)
(** * BlockHydration: building a block response, whole or in chunks

    Models [crates/superbank-rpc/src/hydration/block.rs] and the part of
    [handlers/blocks.rs] that runs it: a stored block is hydrated, encoded and serialized
    either in one piece or split into contiguous chunks that run in parallel and are spliced
    into a serialized template.  Encoding and JSON belong to other libraries: they are the
    fields of [BlockLibrary], and what the source relies on is the class [LibraryLaws]. *)

From S2P Require Import Prelude Text Sdk Hydration.

Open Scope list_scope.
Open Scope Z_scope.

(** ** Data *)

Record FooterRecord := mkFooterRecord { fr_producer_time_nanos : Z; fr_user_agent : string }.

Record StoredBlockMetadata := mkBlockMetadata {
  bm_slot : Z; bm_parent_slot : Z; bm_blockhash : list Z; bm_parent_blockhash : list Z; bm_block_time : option Z;
  bm_block_height : option Z; bm_executed_transaction_count : Z; bm_entry_count : Z; bm_rewards_present : bool;
  bm_rewards_pubkey : list (list Z); bm_rewards_lamports : list Z; bm_rewards_post_balance : list Z;
  bm_rewards_type : list (option string); bm_rewards_commission : list (option Z); bm_rewards_commission_bps : list (option Z);
  bm_rewards_num_partitions : option Z; bm_footer : option FooterRecord;
}.

Record StoredBlockRecord := mkBlockRecord { br_metadata : StoredBlockMetadata; br_transactions : list StoredTransactionRecord }.

Inductive StoredBlockPayload :=
| MetadataPayload (metadata : StoredBlockMetadata)
| SignaturesPayload (metadata : StoredBlockMetadata) (signatures : list string)
| AccountsPayload (metadata : StoredBlockMetadata) (transactions : list StoredAccountsTransactionRecord)
| FullPayload (record : StoredBlockRecord).

Inductive UiTransactionEncoding := EncodingBinary | EncodingBase64 | EncodingBase58 | EncodingJson | EncodingJsonParsed.
Inductive TransactionDetails := DetailsFull | DetailsSignatures | DetailsNone | DetailsAccounts.

#[export] Instance TransactionDetails_eq_dec : EqDecision TransactionDetails.
Proof. solve_decision. Defined.

(** [BlockEncodingOptions] with the encoding. *)
Record EncodeOptions := mkOptions {
  eo_encoding : UiTransactionEncoding; eo_details : TransactionDetails; eo_show_rewards : bool; eo_max_version : option Z;
}.

Inductive EncodeError := EncodeUnsupportedVersion (v : Z) | EncodeUnsupportedEncoding.
Inductive BlockHydrationError :=
| HydrationTransaction (e : TransactionHydrationError)
| InvalidBlockMetadata (r : BlockReason)
| HydrationEncode (e : EncodeError)
with BlockReason := RewardsPopulated | RewardLengths | NoTransactionsField.

Record ConfirmedBlock := mkConfirmed {
  cb_previous_blockhash : string; cb_blockhash : string; cb_parent_slot : Z; cb_transactions : list TransactionWithStatusMeta;
  cb_rewards : list SdkReward; cb_num_partitions : option Z; cb_block_time : option Z; cb_block_height : option Z;
}.
Record UiConfirmedBlock (E : Type) := mkUi {
  ui_previous_blockhash : string; ui_blockhash : string; ui_parent_slot : Z; ui_transactions : option (list E);
  ui_signatures : option (list string); ui_rewards : option (list SdkReward); ui_num_reward_partitions : option Z;
  ui_block_time : option Z; ui_block_height : option Z;
}.
Arguments mkUi {E}.
Arguments ui_previous_blockhash {E} u : rename.
Arguments ui_blockhash {E} u : rename.
Arguments ui_parent_slot {E} u : rename.
Arguments ui_transactions {E} u : rename.
Arguments ui_signatures {E} u : rename.
Arguments ui_rewards {E} u : rename.
Arguments ui_num_reward_partitions {E} u : rename.
Arguments ui_block_time {E} u : rename.
Arguments ui_block_height {E} u : rename.

(** The encoder of the SDK and the JSON serializer, for encoded transactions of type [E] and
    JSON errors of type [J]. *)
Record BlockLibrary (E J : Type) := mkLibrary {
  encode_tx : EncodeOptions -> TransactionWithStatusMeta -> result E EncodeError;
  encode_block : EncodeOptions -> ConfirmedBlock -> result (UiConfirmedBlock E) EncodeError;
  json_tx : E -> result (list Z) J;
  json_block : UiConfirmedBlock E -> result (list Z) J;
  json_tail : UiConfirmedBlock E -> list Z;
  json_footer : option FooterRecord -> result (list Z) J;
}.
Arguments encode_tx {E J}.
Arguments encode_block {E J}.
Arguments json_tx {E J}.
Arguments json_block {E J}.
Arguments json_tail {E J}.
Arguments json_footer {E J}.

(** ** Stored rows

    [BlockMetadataRow] and [BlockMetadataBaseRow]: a base row has no reward columns. *)

Record BlockBaseRow := mkBaseRow {
  bw_slot : Z; bw_parent_slot : Z; bw_blockhash : list Z; bw_parent_blockhash : list Z; bw_block_time : option Z; bw_block_height : option Z;
  bw_executed_transaction_count : Z; bw_entry_count : Z; bw_rewards_num_partitions : option Z; bw_producer_time_nanos : option Z;
  bw_user_agent : option (list Z);
}.
Record BlockRow := mkBlockRow {
  bw_base : BlockBaseRow; bw_rewards_present : bool; bw_rewards_pubkey : list (list Z); bw_rewards_lamports : list Z;
  bw_rewards_post_balance : list Z; bw_rewards_type : list (option string); bw_rewards_commission : list (option Z);
  bw_rewards_commission_bps : list (option Z);
}.

Section Rows.
Context (utf8_lossy : list Z -> string).

(** [map_block_footer]: both fields or none. *)
Definition footer_of (producer_time_nanos : option Z) (user_agent : option (list Z)) : option FooterRecord :=
  match producer_time_nanos, user_agent with
  | Some nanos, Some agent => Some (mkFooterRecord nanos (utf8_lossy agent))
  | _, _ => None
  end.

(** [map_block_metadata_base_row], [map_block_metadata_row] *)
Definition map_block_metadata_base_row (row : BlockBaseRow) : StoredBlockMetadata :=
  mkBlockMetadata (bw_slot row) (bw_parent_slot row) (bw_blockhash row) (bw_parent_blockhash row) (bw_block_time row) (bw_block_height row)
    (bw_executed_transaction_count row) (bw_entry_count row) false [] [] [] [] [] [] (bw_rewards_num_partitions row)
    (footer_of (bw_producer_time_nanos row) (bw_user_agent row)).
Definition map_block_metadata_row (r : BlockRow) : StoredBlockMetadata :=
  let row := bw_base r in
  mkBlockMetadata (bw_slot row) (bw_parent_slot row) (bw_blockhash row) (bw_parent_blockhash row) (bw_block_time row) (bw_block_height row)
    (bw_executed_transaction_count row) (bw_entry_count row) (bw_rewards_present r) (bw_rewards_pubkey r) (bw_rewards_lamports r)
    (bw_rewards_post_balance r) (bw_rewards_type r) (bw_rewards_commission r) (bw_rewards_commission_bps r) (bw_rewards_num_partitions row)
    (footer_of (bw_producer_time_nanos row) (bw_user_agent row)).
End Rows.

(** Collect results, stopping at the first error. *)
Fixpoint collect {A B X} (f : A -> result B X) (l : list A) : result (list B) X :=
  match l with
  | [] => Ok []
  | x :: rest => let? y := f x in let? ys := collect f rest in Ok (y :: ys)
  end.

Definition map_err {A X Y} (f : X -> Y) (r : result A X) : result A Y := match r with Ok a => Ok a | Err e => Err (f e) end.

(** ** Blocks *)

Section Blocks.
Context (readers : Readers) {E J : Type} (lib : BlockLibrary E J).

Definition map_transaction_error {A} (r : result A TransactionHydrationError) : result A BlockHydrationError := map_err HydrationTransaction r.

(** [build_block_rewards] *)
Fixpoint zip_block_rewards (pubkeys : list (list Z)) (lamports balances : list Z) (types : list (option string)) (commissions bps : list (option Z)) :
    result (list SdkReward) BlockHydrationError :=
  match pubkeys, lamports, balances, types, commissions with
  | p :: pubkeys, l :: lamports, b :: balances, t :: types, c :: commissions =>
      let? kind := map_transaction_error (parse_reward_type t) in
      let? rest := zip_block_rewards pubkeys lamports balances types commissions (tail bps) in
      Ok (mkSdkReward (bs58_encode readers p) l b kind c (mjoin (head bps)) :: rest)
  | _, _, _, _, _ => Ok []
  end.
Definition build_block_rewards (m : StoredBlockMetadata) : result (list SdkReward) BlockHydrationError :=
  if negb (bm_rewards_present m) then
    let? _ := ensure (is_nil (bm_rewards_pubkey m) && is_nil (bm_rewards_lamports m) && is_nil (bm_rewards_post_balance m) &&
                      is_nil (bm_rewards_type m) && is_nil (bm_rewards_commission m) && is_nil (bm_rewards_commission_bps m))
                (InvalidBlockMetadata RewardsPopulated) in
    Ok []
  else
    let len := zlen (bm_rewards_pubkey m) in
    let? _ := ensure ((zlen (bm_rewards_lamports m) =? len) && (zlen (bm_rewards_post_balance m) =? len) && (zlen (bm_rewards_type m) =? len) &&
                      (zlen (bm_rewards_commission m) =? len) &&
                      (is_nil (bm_rewards_commission_bps m) || (zlen (bm_rewards_commission_bps m) =? len)))
                (InvalidBlockMetadata RewardLengths) in
    zip_block_rewards (bm_rewards_pubkey m) (bm_rewards_lamports m) (bm_rewards_post_balance m) (bm_rewards_type m) (bm_rewards_commission m)
      (bm_rewards_commission_bps m).

(** The time and height a block shows. *)
Definition shown_height (m : StoredBlockMetadata) : option Z :=
  match bm_block_height m with Some 0 => if bm_slot m =? 0 then Some 0 else None | other => other end.

(** [block_template], [confirmed_block] *)
Definition block_template (m : StoredBlockMetadata) (rewards : option (list SdkReward)) : UiConfirmedBlock E :=
  mkUi (bs58_encode readers (bm_parent_blockhash m)) (bs58_encode readers (bm_blockhash m)) (bm_parent_slot m) None None rewards
    (bm_rewards_num_partitions m) (nonzero_time (bm_block_time m)) (shown_height m).
Definition confirmed_block (m : StoredBlockMetadata) (transactions : list TransactionWithStatusMeta) (rewards : list SdkReward) : ConfirmedBlock :=
  mkConfirmed (bs58_encode readers (bm_parent_blockhash m)) (bs58_encode readers (bm_blockhash m)) (bm_parent_slot m) transactions rewards
    (bm_rewards_num_partitions m) (nonzero_time (bm_block_time m)) (shown_height m).

(** [encode_metadata_only_block], [encode_block_signatures] *)
Definition encode_metadata_only_block (m : StoredBlockMetadata) (show_rewards : bool) : result (UiConfirmedBlock E) BlockHydrationError :=
  let? rewards := if show_rewards then let? r := build_block_rewards m in Ok (Some r) else Ok None in
  Ok (block_template m rewards).
Definition encode_block_signatures (m : StoredBlockMetadata) (signatures : list string) (show_rewards : bool) :
    result (UiConfirmedBlock E) BlockHydrationError :=
  let? rewards := if show_rewards then let? r := build_block_rewards m in Ok (Some r) else Ok None in
  let u := block_template m rewards in
  Ok (mkUi (ui_previous_blockhash u) (ui_blockhash u) (ui_parent_slot u) (ui_transactions u) (Some signatures) (ui_rewards u)
        (ui_num_reward_partitions u) (ui_block_time u) (ui_block_height u)).

Definition block_rewards_if (show_rewards : bool) (m : StoredBlockMetadata) : result (list SdkReward) BlockHydrationError :=
  if show_rewards then build_block_rewards m else Ok [].

(** [hydrate_full_block_record], [encode_accounts_block] *)
Definition hydrate_full_block_record (record : StoredBlockRecord) (encoding : UiTransactionEncoding) (show_rewards : bool) (max_version : option Z) :
    result (UiConfirmedBlock E) BlockHydrationError :=
  let? rewards := block_rewards_if show_rewards (br_metadata record) in
  let? transactions := map_transaction_error (collect (hydrate_full_transaction readers) (br_transactions record)) in
  map_err HydrationEncode (encode_block lib (mkOptions encoding DetailsFull show_rewards max_version)
    (confirmed_block (br_metadata record) transactions rewards)).
Definition encode_accounts_block (m : StoredBlockMetadata) (records : list StoredAccountsTransactionRecord) (show_rewards : bool) (max_version : option Z) :
    result (UiConfirmedBlock E) BlockHydrationError :=
  let? rewards := block_rewards_if show_rewards m in
  let? transactions := map_transaction_error (collect (hydrate_accounts_transaction readers) records) in
  map_err HydrationEncode (encode_block lib (mkOptions EncodingJson DetailsAccounts show_rewards max_version) (confirmed_block m transactions rewards)).

(** [StoredBlockPayload::metadata], [observed_transaction_count], and the conversions of
    [StoredBlockPayloadExt]. *)
Definition payload_metadata (p : StoredBlockPayload) : StoredBlockMetadata :=
  match p with
  | MetadataPayload m | SignaturesPayload m _ | AccountsPayload m _ => m
  | FullPayload record => br_metadata record
  end.
Definition observed_transaction_count (p : StoredBlockPayload) : option Z :=
  match p with
  | MetadataPayload _ => None
  | SignaturesPayload _ s => Some (zlen s)
  | AccountsPayload _ t => Some (zlen t)
  | FullPayload record => Some (zlen (br_transactions record))
  end.
Definition primary_signature_string (signatures : list (list Z)) : result string BlockHydrationError :=
  let? signature := ok_or (head signatures) (HydrationTransaction (InvalidStoredTransaction MissingPrimarySignature)) in
  Ok (bs58_encode readers signature).
Definition payload_required {A} : result A BlockHydrationError := Err (HydrationTransaction (InvalidStoredTransaction PayloadRequired)).
Definition into_signatures (p : StoredBlockPayload) : result (StoredBlockMetadata * list string) BlockHydrationError :=
  match p with
  | SignaturesPayload m s => Ok (m, s)
  | FullPayload record =>
      let? s := collect (fun tx => primary_signature_string (tx_signatures (s_columns tx))) (br_transactions record) in Ok (br_metadata record, s)
  | _ => payload_required
  end.
Definition into_accounts (p : StoredBlockPayload) : result (StoredBlockMetadata * list StoredAccountsTransactionRecord) BlockHydrationError :=
  match p with
  | AccountsPayload m t => Ok (m, t)
  | FullPayload record => Ok (br_metadata record, map accounts_of (br_transactions record))
  | _ => payload_required
  end.
Definition into_full (p : StoredBlockPayload) : result StoredBlockRecord BlockHydrationError :=
  match p with FullPayload record => Ok record | _ => payload_required end.

(** [hydrate_block_payload] *)
Definition hydrate_block_payload (p : StoredBlockPayload) (o : EncodeOptions) : result (UiConfirmedBlock E) BlockHydrationError :=
  match eo_details o with
  | DetailsNone => encode_metadata_only_block (payload_metadata p) (eo_show_rewards o)
  | DetailsSignatures => let? x := into_signatures p in encode_block_signatures (fst x) (snd x) (eo_show_rewards o)
  | DetailsAccounts => let? x := into_accounts p in encode_accounts_block (fst x) (snd x) (eo_show_rewards o) (eo_max_version o)
  | DetailsFull => let? record := into_full p in hydrate_full_block_record record (eo_encoding o) (eo_show_rewards o) (eo_max_version o)
  end.

(** ** Chunks *)

Definition MIN_TRANSACTIONS_PER_HYDRATION_CHUNK : Z := 128.

(** [block_hydration_chunk_count] *)
Definition block_hydration_chunk_count (transaction_count parallelism : Z) : Z :=
  Z.min (Z.max 1 (transaction_count / MIN_TRANSACTIONS_PER_HYDRATION_CHUNK)) (Z.max parallelism 1).

Inductive BlockTransactionChunk := FullChunk (records : list StoredTransactionRecord) | AccountsChunk (records : list StoredAccountsTransactionRecord).

(** [split_contiguous]: the loop pops the chunks from the end; [index] is the next one. *)
Fixpoint split_loop {A} (index : nat) (base extra : nat) (items : list A) (chunks : list (list A)) : list (list A) :=
  match index with
  | O => items :: chunks
  | S index' =>
      let size := (base + (if Nat.ltb index extra then 1 else 0))%nat in
      split_loop index' base extra (firstn (length items - size) items) (skipn (length items - size) items :: chunks)
  end.
Definition split_contiguous {A} (items : list A) (chunk_count : nat) : list (list A) :=
  split_loop (chunk_count - 1) (length items / chunk_count) (length items mod chunk_count) items [].

(** [split_block_payload]; [None] leaves the payload to the sequential path. *)
Definition split_block_payload (p : StoredBlockPayload) (details : TransactionDetails) (chunk_count : nat) :
    option (StoredBlockMetadata * list BlockTransactionChunk) :=
  if ((chunk_count <? 2)%nat || (default 0 (observed_transaction_count p) <? Z.of_nat chunk_count))%bool then None
  else
    match details, p with
    | DetailsFull, FullPayload record => Some (br_metadata record, map FullChunk (split_contiguous (br_transactions record) chunk_count))
    | DetailsAccounts, FullPayload record =>
        Some (br_metadata record, map (fun chunk => AccountsChunk (map accounts_of chunk)) (split_contiguous (br_transactions record) chunk_count))
    | DetailsAccounts, AccountsPayload m t => Some (m, map AccountsChunk (split_contiguous t chunk_count))
    | _, _ => None
    end.

Inductive BlockBuildError := BuildHydration (e : BlockHydrationError) | BuildSerialize (e : J).
Inductive BlockChunkStage := StageHydrate | StageEncode | StageSerialize.
Definition stage_rank (s : BlockChunkStage) : Z := match s with StageHydrate => 0 | StageEncode => 1 | StageSerialize => 2 end.
Record BlockChunkFailure := mkFailure { cf_stage : BlockChunkStage; cf_error : BlockBuildError }.

(** Bytes joined by commas. *)
Definition comma : Z := 44.
Fixpoint join_bytes (l : list (list Z)) : list Z :=
  match l with
  | [] => []
  | [x] => x
  | x :: rest => x ++ comma :: join_bytes rest
  end.

(** [hydrate_serialize_block_chunk] *)
Definition hydrate_serialize_block_chunk (chunk : BlockTransactionChunk) (o : EncodeOptions) : result (list Z) BlockChunkFailure :=
  let failure e := mkFailure StageHydrate (BuildHydration (HydrationTransaction e)) in
  let? hydrated :=
    match chunk with
    | FullChunk records =>
        let? txs := map_err failure (collect (hydrate_full_transaction readers) records) in Ok (txs, eo_encoding o, DetailsFull)
    | AccountsChunk records =>
        let? txs := map_err failure (collect (hydrate_accounts_transaction readers) records) in Ok (txs, EncodingJson, DetailsAccounts)
    end in
  let '(txs, encoding, details) := hydrated in
  let? encoded := map_err (fun e => mkFailure StageEncode (BuildHydration (HydrationEncode e)))
    (encode_block lib (mkOptions encoding details (eo_show_rewards o) (eo_max_version o))
       (mkConfirmed EmptyString EmptyString 0 txs [] None None None)) in
  let? parts := map_err (fun e => mkFailure StageSerialize (BuildSerialize e)) (collect (json_tx lib) (default [] (ui_transactions encoded))) in
  Ok (join_bytes parts).

(** [first_failure] of [assemble_block_chunks]: the earliest stage, then the first chunk. *)
Fixpoint gather (chunks : list (result (list Z) BlockChunkFailure)) (first : option BlockChunkFailure) (parts : list (list Z)) :
    option BlockChunkFailure * list (list Z) :=
  match chunks with
  | [] => (first, parts)
  | Ok bytes :: rest => gather rest first (parts ++ [bytes])
  | Err failure :: rest =>
      gather rest (match first with
                   | Some current => if stage_rank (cf_stage failure) <? stage_rank (cf_stage current) then Some failure else first
                   | None => Some failure
                   end) parts
  end.

Definition bytes_of (s : string) : list Z := map (fun c => Z.of_nat (Ascii.nat_of_ascii c)) (String.list_ascii_of_string s).
(** ["transactions":[]], quotes included. *)
Definition q : Z := 34.
Definition quoted_key (s : string) : list Z := q :: bytes_of s ++ [q; 58].
Definition TRANSACTIONS_PLACEHOLDER : list Z := q :: bytes_of "transactions" ++ q :: bytes_of ":[]".

(** [windows(n).position(..)] *)
Fixpoint is_prefix_of (pat s : list Z) : bool :=
  match pat, s with
  | [], _ => true
  | p :: pat, c :: s => (p =? c) && is_prefix_of pat s
  | _, [] => false
  end.
Fixpoint position (pat s : list Z) : option nat :=
  if is_prefix_of pat s then Some O
  else match s with [] => None | _ :: s => match position pat s with Some n => Some (S n) | None => None end end.

(** The loop that writes the non-empty parts. *)
Definition splice_parts (parts : list (list Z)) : list Z := join_bytes (List.filter (fun part => negb (is_nil part)) parts).

(** [assemble_block_chunks] *)
Definition assemble_block_chunks (m : StoredBlockMetadata) (o : EncodeOptions) (chunks : list (result (list Z) BlockChunkFailure)) :
    result (list Z) BlockBuildError :=
  let? rewards := map_err BuildHydration (block_rewards_if (eo_show_rewards o) m) in
  let '(first, parts) := gather chunks None [] in
  match first with
  | Some failure => Err (cf_error failure)
  | None =>
      let encoding := match eo_details o with DetailsAccounts => EncodingJson | _ => eo_encoding o end in
      let? template := map_err (fun e => BuildHydration (HydrationEncode e))
        (encode_block lib (mkOptions encoding (eo_details o) (eo_show_rewards o) (eo_max_version o)) (confirmed_block m [] rewards)) in
      let? template := map_err BuildSerialize (json_block lib template) in
      let? position := ok_or (position TRANSACTIONS_PLACEHOLDER template) (BuildHydration (InvalidBlockMetadata NoTransactionsField)) in
      let split_at := (position + length TRANSACTIONS_PLACEHOLDER - 1)%nat in
      Ok (firstn split_at template ++ splice_parts parts ++ skipn split_at template)
  end.

(** ** The handler *)

Inductive BlockResultBuildError := ResultUnsupportedVersion (v : Z) | ResultFailed (e : BlockBuildError) | ResultEmptyPlan | ResultNotObject.

(** [block_result_build_error] *)
Definition block_result_build_error (e : BlockHydrationError) : BlockResultBuildError :=
  match e with HydrationEncode (EncodeUnsupportedVersion v) => ResultUnsupportedVersion v | other => ResultFailed (BuildHydration other) end.
Definition build_error (e : BlockBuildError) : BlockResultBuildError :=
  match e with BuildHydration e => block_result_build_error e | BuildSerialize _ => ResultFailed e end.

(** [encode_block_result]: the sequential path. *)
Definition encode_block_result (p : StoredBlockPayload) (o : EncodeOptions) : result (list Z) BlockResultBuildError :=
  let? block := map_err block_result_build_error (hydrate_block_payload p o) in
  map_err (fun e => ResultFailed (BuildSerialize e)) (json_block lib block).

(** [insert_footer_field]: the field goes first in the object. *)
Definition insert_footer_field (bytes : list Z) (footer : option FooterRecord) : result (list Z) BlockResultBuildError :=
  let? field := map_err (fun e => ResultFailed (BuildSerialize e)) (json_footer lib footer) in
  match bytes with
  | open :: rest =>
      if open =? 123 then
        Ok (123 :: quoted_key "footer" ++ field ++ (match rest with c :: _ => if c =? 125 then [] else [comma] | [] => [comma] end) ++ rest)
      else Err ResultNotObject
  | [] => Err ResultNotObject
  end.

(** [build_block_result_chunked]: the first chunk runs on the lead permit, the others are
    zipped with the remaining ones. *)
Definition build_block_result_chunked (permits : nat) (m : StoredBlockMetadata) (chunks : list BlockTransactionChunk) (o : EncodeOptions) :
    result (list Z) BlockResultBuildError :=
  match permits, chunks with
  | S others, first_chunk :: rest =>
      let run_chunk chunk := hydrate_serialize_block_chunk chunk o in
      let outputs := run_chunk first_chunk :: map run_chunk (firstn others rest) in
      map_err build_error (assemble_block_chunks m o outputs)
  | _, _ => Err ResultEmptyPlan
  end.

(** [build_block_result_blocking]: [free] permits can be taken beyond the first. *)
Definition wanted_permits (p : StoredBlockPayload) (o : EncodeOptions) (parallelism : Z) : Z :=
  match eo_details o with
  | DetailsFull | DetailsAccounts => block_hydration_chunk_count (default 0 (observed_transaction_count p)) parallelism
  | DetailsSignatures | DetailsNone => 1
  end.
Definition build_block_result_blocking (free : nat) (parallelism : Z) (p : StoredBlockPayload) (o : EncodeOptions) :
    result (list Z) BlockResultBuildError :=
  let permits := Z.to_nat (Z.min (1 + Z.of_nat free) (wanted_permits p o parallelism)) in
  if (1 <? permits)%nat then
    match split_block_payload p (eo_details o) permits with
    | Some (m, chunks) => build_block_result_chunked permits m chunks o
    | None => encode_block_result p o
    end
  else encode_block_result p o.
End Blocks.
