(* ===== verification/BlockHydrationSound.v ===== *)
(** * BlockHydrationSound: a block built in chunks is the block built in one piece

    Whatever number of chunks the free hydration permits allow, the response has the bytes, or
    the error, of the sequential path.  [LibraryLaws] states what the source relies on of the
    SDK encoder, of the JSON serializer and of base58. *)

From S2P Require Import Prelude Text Sdk Hydration BlockHydration.

Open Scope list_scope.
Open Scope Z_scope.

(** ** Splitting *)

Lemma split_loop_concat {A} (index base extra : nat) : forall (items : list A) chunks,
  concat (split_loop index base extra items chunks) = items ++ concat chunks.
Proof.
  induction index as [|index IH]; intros items chunks; cbn [split_loop]; [done|].
  rewrite IH. cbn [concat]. by rewrite app_assoc, firstn_skipn.
Qed.

Lemma split_loop_length {A} (index base extra : nat) : forall (items : list A) chunks,
  length (split_loop index base extra items chunks) = (S index + length chunks)%nat.
Proof. induction index as [|index IH]; intros items chunks; cbn [split_loop]; [done|]. rewrite IH. cbn [length]. lia. Qed.

(** What is left when [index] chunks are still to be cut. *)
Definition chunks_size (index base extra : nat) : nat := (S index * base + Nat.min (S index) extra)%nat.

Lemma split_loop_sizes {A} (base extra : nat) (P : nat -> Prop) :
  P base -> P (S base) ->
  forall index (items : list A) chunks, length items = chunks_size index base extra -> Forall (fun c => P (length c)) chunks ->
  Forall (fun c => P (length c)) (split_loop index base extra items chunks).
Proof.
  intros Hb Hs index. induction index as [|index IH]; intros items chunks Hl Hc; cbn [split_loop].
  - constructor; [|done]. unfold chunks_size in Hl. rewrite Hl. destruct extra; [replace (_ + _)%nat with base by lia|replace (_ + _)%nat with (S base) by lia]; done.
  - unfold chunks_size in Hl. assert (Hsz : (base + (if Nat.ltb (S index) extra then 1 else 0) <= length items)%nat) by (destruct (Nat.ltb_spec (S index) extra); lia).
    apply IH; [|constructor; [|done]].
    + rewrite length_firstn. unfold chunks_size. destruct (Nat.ltb_spec (S index) extra); lia.
    + rewrite length_skipn. destruct (Nat.ltb (S index) extra).
      * replace (_ - _)%nat with (S base) by lia. done.
      * replace (_ - _)%nat with base by lia. done.
Qed.

(** A block's transactions are split into exactly as many contiguous chunks as there are
    permits: together they are the transactions in order, and their sizes differ by at most
    one. *)
Theorem split_contiguous_balanced {A} (items : list A) (n : nat) (Hn : (0 < n)%nat) :
  concat (split_contiguous items n) = items /\ length (split_contiguous items n) = n /\
  Forall (fun chunk => length items / n <= length chunk <= S (length items / n))%nat (split_contiguous items n).
Proof.
  unfold split_contiguous. split_and!.
  - rewrite split_loop_concat. cbn. by rewrite app_nil_r.
  - rewrite split_loop_length. cbn [length]. lia.
  - apply (split_loop_sizes _ _ (fun k => length items / n <= k <= S (length items / n))%nat); [lia|lia| |constructor].
    unfold chunks_size. pose proof (Nat.div_mod_eq (length items) n). pose proof (Nat.mod_upper_bound (length items) n). nia.
Qed.

Lemma split_concat {A} (items : list A) n : concat (split_contiguous items n) = items.
Proof. unfold split_contiguous. rewrite split_loop_concat. cbn. by rewrite app_nil_r. Qed.

Lemma split_length {A} (items : list A) n : (0 < n)%nat -> length (split_contiguous items n) = n.
Proof. intros Hn. unfold split_contiguous. rewrite split_loop_length. cbn [length]. lia. Qed.

(** ** Stages *)

Lemma collect_app {A B X} (f : A -> result B X) l k :
  collect f (l ++ k) = let? a := collect f l in let? b := collect f k in Ok (a ++ b).
Proof.
  induction l as [|x l IH]; cbn; [by destruct (collect f k)|]. destruct (f x); cbn; [|done]. rewrite IH.
  destruct (collect f l); cbn; [|done]. by destruct (collect f k).
Qed.

Section Stages.
Context {A T E J : Type} (hydrate : A -> result T TransactionHydrationError) (encode : T -> result E EncodeError) (serialize : E -> result (list Z) J).

(** The three stages over a list of records. *)
Definition staged (records : list A) : result (list (list Z)) (@BlockChunkFailure J) :=
  let? txs := map_err (fun e => mkFailure StageHydrate (BuildHydration (HydrationTransaction e))) (collect hydrate records) in
  let? encoded := map_err (fun e => mkFailure StageEncode (BuildHydration (HydrationEncode e))) (collect encode txs) in
  map_err (fun e => mkFailure StageSerialize (BuildSerialize e)) (collect serialize encoded).

(** The result of two lists from the results of each: the earlier stage wins, then the first. *)
Definition merge_staged (r s : result (list (list Z)) (@BlockChunkFailure J)) : result (list (list Z)) (@BlockChunkFailure J) :=
  match r, s with
  | Ok a, Ok b => Ok (a ++ b)
  | Err f, Err g => if stage_rank (cf_stage g) <? stage_rank (cf_stage f) then Err g else Err f
  | Err f, Ok _ => Err f
  | Ok _, Err g => Err g
  end.

Lemma staged_app l k : staged (l ++ k) = merge_staged (staged l) (staged k).
Proof.
  unfold staged. rewrite collect_app.
  destruct (collect hydrate l) as [txs|e1] eqn:H1; destruct (collect hydrate k) as [txs'|e2] eqn:H2; cbn; try done.
  - rewrite collect_app. destruct (collect encode txs) as [es|]; destruct (collect encode txs') as [es'|]; cbn; try done.
    + rewrite collect_app. destruct (collect serialize es); by destruct (collect serialize es').
    + by destruct (collect serialize es).
    + by destruct (collect serialize es').
  - destruct (collect encode txs); cbn; [|done]. by destruct (collect serialize _).
  - destruct (collect encode txs'); cbn; [|done]. by destruct (collect serialize _).
Qed.

Lemma merge_nil r : merge_staged r (staged []) = r.
Proof. destruct r; cbn; [by rewrite app_nil_r|done]. Qed.

Lemma merge_assoc a b c : merge_staged (merge_staged a b) c = merge_staged a (merge_staged b c).
Proof.
  destruct a as [x|f]; destruct b as [y|g]; destruct c as [z|h]; cbn -[Z.ltb]; rewrite ?app_assoc; try done;
    repeat (case_match; cbn -[Z.ltb] in *; simplify_eq; try done); zbool; try done; lia.
Qed.

(** The chunks' outputs gathered are the result of all the records. *)
Definition chunk_output (records : list A) : result (list Z) (@BlockChunkFailure J) :=
  let? parts := staged records in Ok (join_bytes parts).
Definition gathered (r : result (list (list Z)) (@BlockChunkFailure J)) (g : option (@BlockChunkFailure J) * list (list Z)) : Prop :=
  match r with
  | Err f => fst g = Some f
  | Ok parts => fst g = None /\ exists pss, snd g = map join_bytes pss /\ concat pss = parts
  end.

Lemma gather_merges chunks : forall first done_parts r, gathered r (first, done_parts) ->
  gathered (merge_staged r (staged (concat chunks))) (gather (map chunk_output chunks) first done_parts).
Proof.
  induction chunks as [|c chunks IH]; intros first parts r H; cbn [concat map gather]; [by rewrite merge_nil|].
  rewrite staged_app, <- merge_assoc. unfold chunk_output at 1. destruct (staged c) as [ps|g] eqn:Hc; cbn [rbind]; apply IH.
  - destruct r as [a|f]; cbn in *; [|done]. destruct H as [-> (pss & -> & <-)]. split; [done|]. exists (pss ++ [ps]).
    rewrite map_app, concat_app. cbn. by rewrite app_nil_r.
  - destruct r as [a|f]; cbn -[Z.ltb] in *; [by destruct H as [-> _]|]. rewrite H. by case_match.
Qed.
End Stages.

(** ** Joining and splicing *)

Lemma join_bytes_app l k : l <> [] -> k <> [] -> join_bytes (l ++ k) = join_bytes l ++ comma :: join_bytes k.
Proof.
  intros Hl Hk. induction l as [|x l IH]; [done|]. destruct l as [|y l].
  - cbn. by destruct k.
  - specialize (IH ltac:(done)). cbn [app join_bytes] in *. rewrite IH. by rewrite <- app_assoc.
Qed.

Lemma join_bytes_nil l : Forall (fun x => x <> []) l -> join_bytes l = [] -> l = [].
Proof. destruct l as [|x [|y l]]; [done|..]; intros H%Forall_cons; destruct H as [Hx _]; destruct x; cbn; congruence. Qed.

Lemma filtered_nonempty (l : list (list Z)) : Forall (fun x => x <> []) (List.filter (fun part => negb (is_nil part)) l).
Proof. apply Forall_forall. intros x [_ Hx]%list_elem_of_In%filter_In. by destruct x. Qed.

Lemma splice_join pss : Forall (Forall (fun x => x <> [])) pss -> splice_parts (map join_bytes pss) = join_bytes (concat pss).
Proof.
  unfold splice_parts. induction pss as [|ps pss IH]; intros H; [done|]. apply Forall_cons in H as [Hps H]. specialize (IH H).
  cbn [map List.filter concat]. destruct (is_nil (join_bytes ps)) eqn:Hn; cbn [negb].
  - destruct (join_bytes ps) eqn:E; [|done]. rewrite (join_bytes_nil _ Hps E). done.
  - assert (Hp : ps <> []) by (intros ->; done). destruct (List.filter _ _) as [|x l] eqn:Hf.
    + cbn [join_bytes] in *. symmetry in IH. apply join_bytes_nil in IH; [|by apply Forall_concat]. rewrite IH, app_nil_r. done.
    + assert (Hc : concat pss <> []) by (intros Hc; rewrite Hc in IH; apply join_bytes_nil in IH; [done|]; rewrite <- Hf; apply filtered_nonempty).
      rewrite join_bytes_app by done. rewrite <- IH. done.
Qed.

(** ** The template *)

Definition plain_byte (c : Z) : bool := (32 <=? c) && (c <? 127) && negb (c =? 34) && negb (c =? 92).
(** Printable ASCII with no quote and no backslash: JSON writes it as it is. *)
Definition plain (s : string) : bool := forallb plain_byte (bytes_of s).
Definition quoted (s : list Z) : list Z := q :: s ++ [q].
Definition key (s : string) : list Z := quoted (bytes_of s) ++ [58].
Definition json_head (previous blockhash : string) (parent_slot : Z) : list Z :=
  bytes_of "{" ++ key "previousBlockhash" ++ quoted (bytes_of previous) ++ [comma] ++ key "blockhash" ++ quoted (bytes_of blockhash) ++
  [comma] ++ key "parentSlot" ++ bytes_of (to_string parent_slot) ++ [comma].

Definition unquoted (s : list Z) : Prop := Forall (fun c => c <> q) s.

Lemma unquoted_test s : forallb (fun c => negb (c =? q)) s = true -> unquoted s.
Proof. intros H. apply Forall_forall. intros c Hc%list_elem_of_In. eapply forallb_forall in H; [|done]. cbn in H. zbool. lia. Qed.

Lemma plain_unquoted s : plain s = true -> unquoted (bytes_of s).
Proof.
  intros H. apply unquoted_test. unfold plain in H. rewrite forallb_forall in *. intros c Hc. specialize (H c Hc). unfold plain_byte, q in *. zbool. lia.
Qed.

Lemma digits_unquoted s : all_digits s = true -> unquoted (bytes_of s).
Proof.
  induction s as [|c s IH]; cbn; [by constructor|]. destruct (digit_value c) eqn:Hc; [|done]. intros H. constructor; [|by apply IH].
  unfold digit_value in Hc. unfold q. destruct (48 <=? _) eqn:Hd; [|done]. zbool. lia.
Qed.

(** *** Finding the field *)

Lemma position_skip s rest : unquoted s -> position TRANSACTIONS_PLACEHOLDER (s ++ rest) = (fun n => (length s + n)%nat) <$> position TRANSACTIONS_PLACEHOLDER rest.
Proof.
  induction s as [|c s IH]; intros H; [cbn [app length]; by destruct (position _ rest)|]. apply Forall_cons in H as [Hc H]. cbn [app].
  change (position TRANSACTIONS_PLACEHOLDER (c :: s ++ rest)) with
    (if is_prefix_of TRANSACTIONS_PLACEHOLDER (c :: s ++ rest) then Some O
     else match position TRANSACTIONS_PLACEHOLDER (s ++ rest) with Some n => Some (S n) | None => None end).
  rewrite IH by done. cbn [TRANSACTIONS_PLACEHOLDER is_prefix_of]. rewrite (proj2 (Z.eqb_neq q c)) by congruence. cbn [andb].
  by destruct (position _ rest).
Qed.

Lemma position_step rest : is_prefix_of (tail TRANSACTIONS_PLACEHOLDER) rest = false ->
  position TRANSACTIONS_PLACEHOLDER (q :: rest) = S <$> position TRANSACTIONS_PLACEHOLDER rest.
Proof.
  intros H. change (position TRANSACTIONS_PLACEHOLDER (q :: rest)) with
    (if (q =? q) && is_prefix_of (tail TRANSACTIONS_PLACEHOLDER) rest then Some O
     else match position TRANSACTIONS_PLACEHOLDER rest with Some n => Some (S n) | None => None end).
  rewrite H, andb_false_r. done.
Qed.

(** A value is followed by a comma, the field's name by a colon. *)
Lemma value_no_match name value x rest : unquoted name -> unquoted value ->
  is_prefix_of (name ++ q :: 58 :: x) (value ++ q :: comma :: rest) = false.
Proof.
  intros Hn. revert value. induction Hn as [|c name Hc Hn IH]; intros value Hv; destruct Hv as [|d value Hd Hv]; cbn [app is_prefix_of].
  - done.
  - rewrite (proj2 (Z.eqb_neq q d)) by congruence. done.
  - rewrite (proj2 (Z.eqb_neq c q)) by congruence. done.
  - rewrite IH by done. apply andb_false_r.
Qed.

Lemma skip_value value rest : unquoted value ->
  position TRANSACTIONS_PLACEHOLDER (quoted value ++ [comma] ++ rest) =
    (fun n => (length (quoted value ++ [comma]) + n)%nat) <$> position TRANSACTIONS_PLACEHOLDER rest.
Proof.
  intros Hv. unfold quoted. cbn [app]. rewrite <- app_assoc. cbn [app]. rewrite position_step.
  - rewrite position_skip by done. rewrite position_step by done. change (comma :: rest) with ([comma] ++ rest).
    rewrite position_skip by (by apply unquoted_test). destruct (position _ rest); cbn -[position]; [|done].
    f_equal. rewrite !length_app. cbn. lia.
  - apply (value_no_match (bytes_of "transactions") value (bytes_of "[]")); [by apply unquoted_test|done].
Qed.

(** A name that does not begin like the field's. *)
Lemma skip_key name c rest : unquoted (bytes_of (String c name)) -> Z.of_nat (Ascii.nat_of_ascii c) <> 116 ->
  position TRANSACTIONS_PLACEHOLDER (key (String c name) ++ rest) =
    (fun n => (length (key (String c name)) + n)%nat) <$> position TRANSACTIONS_PLACEHOLDER rest.
Proof.
  intros Hn Hc. unfold key, quoted. cbn [app]. rewrite <- !app_assoc. cbn [app]. rewrite position_step.
  - rewrite position_skip by done. rewrite position_step by done. change (58 :: rest) with ([58] ++ rest).
    rewrite position_skip by (by apply unquoted_test). destruct (position _ rest); cbn -[position bytes_of]; [|done].
    f_equal. rewrite !length_app. cbn -[bytes_of]. lia.
  - cbn. rewrite (proj2 (Z.eqb_neq 116 _)) by congruence. done.
Qed.

Lemma position_field previous blockhash parent_slot rest : plain previous = true -> plain blockhash = true ->
  position TRANSACTIONS_PLACEHOLDER (json_head previous blockhash parent_slot ++ TRANSACTIONS_PLACEHOLDER ++ rest) =
    Some (length (json_head previous blockhash parent_slot)).
Proof.
  intros Hp%plain_unquoted Hb%plain_unquoted. unfold json_head. rewrite <- !app_assoc. rewrite position_skip by (by apply unquoted_test).
  rewrite skip_key by (by try apply unquoted_test). rewrite skip_value by done. rewrite skip_key by (by try apply unquoted_test).
  rewrite skip_value by done. rewrite skip_key by (by try apply unquoted_test).
  rewrite position_skip by (apply digits_unquoted, to_string_digits). rewrite position_skip by (by apply unquoted_test).
  replace (position TRANSACTIONS_PLACEHOLDER (TRANSACTIONS_PLACEHOLDER ++ rest)) with (Some O) by done.
  cbn [fmap option_fmap option_map]. f_equal. rewrite !length_app. cbn [length]. lia.
Qed.

(** ** What the source relies on of other libraries *)

Definition itemized (d : TransactionDetails) : Prop := d = DetailsFull \/ d = DetailsAccounts.

(** Base58 text needs no escape; a block is encoded transaction by transaction, in order,
    around its other fields; it is serialized field by field in declaration order, and no
    transaction serializes to nothing. *)
Class LibraryLaws (readers : Readers) {E J : Type} (lib : BlockLibrary E J) : Prop := {
  base58_plain : forall bytes, plain (bs58_encode readers bytes) = true;
  encode_block_law : forall o b, itemized (eo_details o) ->
    encode_block lib o b =
      let? ts := collect (encode_tx lib o) (cb_transactions b) in
      Ok (mkUi (cb_previous_blockhash b) (cb_blockhash b) (cb_parent_slot b) (Some ts) None (if eo_show_rewards o then Some (cb_rewards b) else None)
            (cb_num_partitions b) (cb_block_time b) (cb_block_height b));
  json_block_law : forall u ts, ui_transactions u = Some ts -> plain (ui_previous_blockhash u) = true -> plain (ui_blockhash u) = true ->
    json_block lib u =
      let? parts := collect (json_tx lib) ts in
      Ok (json_head (ui_previous_blockhash u) (ui_blockhash u) (ui_parent_slot u) ++ key "transactions" ++ bytes_of "[" ++ join_bytes parts ++
          bytes_of "]" ++ json_tail lib u);
  json_tail_law : forall previous blockhash parent ts ts' signatures rewards partitions time height,
    json_tail lib (mkUi previous blockhash parent ts signatures rewards partitions time height) =
    json_tail lib (mkUi previous blockhash parent ts' signatures rewards partitions time height);
  json_tx_nonempty : forall e bytes, json_tx lib e = Ok bytes -> bytes <> [];
}.

Section Chunked.
Context (readers : Readers) {E J : Type} (lib : BlockLibrary E J) `{!LibraryLaws readers lib}.

Lemma collect_nonempty es : forall parts, collect (json_tx lib) es = Ok parts -> Forall (fun x => x <> []) parts.
Proof.
  induction es as [|e es IH]; intros parts H; cbn in H; [by injection H as <-|]. apply rbind_ok in H as (y & Hy%json_tx_nonempty & H).
  apply rbind_ok in H as (ys & Hys%IH & [= <-]). by constructor.
Qed.

(** The options the transactions are encoded with. *)
Definition item_options (o : EncodeOptions) : EncodeOptions :=
  mkOptions (match eo_details o with DetailsAccounts => EncodingJson | _ => eo_encoding o end) (eo_details o) (eo_show_rewards o) (eo_max_version o).

(** The sequential path over records hydrated by [hydrate]. *)
Definition sequential {A} (hydrate : A -> result TransactionWithStatusMeta TransactionHydrationError) (m : StoredBlockMetadata) (records : list A)
    (o : EncodeOptions) : result (list Z) (@BlockResultBuildError J) :=
  let? block := map_err block_result_build_error
    (let? rewards := block_rewards_if readers (eo_show_rewards o) m in
     let? txs := map_transaction_error (collect hydrate records) in
     map_err HydrationEncode (encode_block lib (item_options o) (confirmed_block readers m txs rewards))) in
  map_err (fun e => ResultFailed (BuildSerialize e)) (json_block lib block).

Lemma splice_template m ts rewards o parts pss : itemized (eo_details o) ->
  collect (json_tx lib) ts = Ok parts -> concat pss = parts ->
  exists template, json_block lib (mkUi (bs58_encode readers (bm_parent_blockhash m)) (bs58_encode readers (bm_blockhash m)) (bm_parent_slot m) (Some []) None
      rewards (bm_rewards_num_partitions m) (nonzero_time (bm_block_time m)) (shown_height m)) = Ok template /\
    exists n, position TRANSACTIONS_PLACEHOLDER template = Some n /\
    let split_at := (n + length TRANSACTIONS_PLACEHOLDER - 1)%nat in
    json_block lib (mkUi (bs58_encode readers (bm_parent_blockhash m)) (bs58_encode readers (bm_blockhash m)) (bm_parent_slot m) (Some ts) None
      rewards (bm_rewards_num_partitions m) (nonzero_time (bm_block_time m)) (shown_height m)) =
    Ok (firstn split_at template ++ splice_parts (map join_bytes pss) ++ skipn split_at template).
Proof.
  intros Ho Hj Hpss. eexists. split; [erewrite json_block_law by (done || apply base58_plain); reflexivity|].
  cbn [ui_previous_blockhash ui_blockhash ui_parent_slot collect join_bytes].
  set (h := json_head _ _ _). set (tl := json_tail lib _). exists (length h).
  change (key "transactions" ++ bytes_of "[" ++ [] ++ bytes_of "]" ++ tl) with (TRANSACTIONS_PLACEHOLDER ++ tl).
  split; [by apply position_field; apply base58_plain|]. erewrite json_block_law by (done || apply base58_plain). rewrite Hj. cbn [rbind].
  cbn [ui_previous_blockhash ui_blockhash ui_parent_slot]. fold h. f_equal. cbn zeta.
  rewrite splice_join by (apply Forall_concat; rewrite Hpss; by eapply collect_nonempty). rewrite Hpss.
  change (TRANSACTIONS_PLACEHOLDER ++ tl) with ((key "transactions" ++ bytes_of "[") ++ bytes_of "]" ++ tl). rewrite (app_assoc h (key "transactions" ++ bytes_of "[")).
  assert (Hl : (length h + length TRANSACTIONS_PLACEHOLDER - 1)%nat = length (h ++ key "transactions" ++ bytes_of "[")) by (rewrite length_app; change (length TRANSACTIONS_PLACEHOLDER) with 17%nat; change (length (key "transactions" ++ bytes_of "[")) with 16%nat; lia).
  rewrite Hl, take_app_length, drop_app_length. rewrite <- !app_assoc. unfold tl. by rewrite (json_tail_law _ _ _ (Some []) (Some ts)).
Qed.

Lemma assemble_sequential {A} (hydrate : A -> result TransactionWithStatusMeta TransactionHydrationError) m o chunks : itemized (eo_details o) ->
  map_err build_error (assemble_block_chunks readers lib m o (map (chunk_output hydrate (encode_tx lib (item_options o)) (json_tx lib)) chunks)) =
  sequential hydrate m (concat chunks) o.
Proof.
  intros Ho. unfold assemble_block_chunks, sequential. destruct (block_rewards_if _ _ _) as [rewards|e]; cbn [map_err rbind build_error]; [|done].
  pose proof (gather_merges hydrate (encode_tx lib (item_options o)) (json_tx lib) chunks None [] (Ok []) (conj eq_refl (ex_intro _ [] (conj eq_refl eq_refl)))) as H.
  destruct (gather _ _ _) as [first parts]. unfold staged in H.
  destruct (collect hydrate _) as [txs|e] eqn:Hh; cbn [rbind map_err map_transaction_error merge_staged gathered fst snd] in H |- *; [|by rewrite H].
  fold (item_options o). rewrite !encode_block_law by done. cbn [cb_transactions confirmed_block].
  destruct (collect (encode_tx _ _) txs) as [ts|e] eqn:He; cbn [rbind map_err merge_staged gathered fst snd app] in H |- *; [|by rewrite H].
  destruct (collect (json_tx lib) ts) as [bytes|e] eqn:Hj; cbn [rbind map_err merge_staged gathered fst snd app] in H |- *.
  - destruct H as [-> (pss & -> & Hpss)].
    destruct (splice_template m ts (if eo_show_rewards o then Some rewards else None) o bytes pss Ho Hj Hpss) as (template & Ht & n & Hn & Heq).
    cbn [confirmed_block item_options eo_show_rewards collect rbind map_err cb_previous_blockhash cb_blockhash cb_parent_slot cb_rewards cb_num_partitions cb_block_time cb_block_height].
    rewrite Ht. cbn [rbind map_err]. rewrite Hn. cbn [rbind map_err ok_or]. rewrite Heq. done.
  - rewrite H. cbn [map_err build_error cf_error].
    erewrite json_block_law by (done || apply base58_plain). rewrite Hj. done.
Qed.

Lemma full_chunk_output o records : eo_details o = DetailsFull ->
  hydrate_serialize_block_chunk readers lib (FullChunk records) o = chunk_output (hydrate_full_transaction readers) (encode_tx lib (item_options o)) (json_tx lib) records.
Proof.
  intros Ho. unfold hydrate_serialize_block_chunk, chunk_output, staged. destruct (collect _ records) as [txs|]; cbn [map_err rbind]; [|done].
  unfold item_options. rewrite Ho, encode_block_law by (by left). cbn [cb_transactions]. destruct (collect _ txs) as [ts|]; cbn [map_err rbind]; done.
Qed.

Lemma accounts_chunk_output o records : eo_details o = DetailsAccounts ->
  hydrate_serialize_block_chunk readers lib (AccountsChunk records) o =
  chunk_output (hydrate_accounts_transaction readers) (encode_tx lib (item_options o)) (json_tx lib) records.
Proof.
  intros Ho. unfold hydrate_serialize_block_chunk, chunk_output, staged. destruct (collect _ records) as [txs|]; cbn [map_err rbind]; [|done].
  unfold item_options. rewrite Ho, encode_block_law by (by right). cbn [cb_transactions]. destruct (collect _ txs) as [ts|]; cbn [map_err rbind]; done.
Qed.

(** With a permit per chunk every chunk runs. *)
Lemma chunked_runs_all permits m chunks o : permits = length chunks -> (0 < permits)%nat ->
  build_block_result_chunked readers lib permits m chunks o =
  map_err build_error (assemble_block_chunks readers lib m o (map (fun c => hydrate_serialize_block_chunk readers lib c o) chunks)).
Proof. intros ->. destruct chunks as [|c chunks]; cbn [length build_block_result_chunked]; [lia|]. intros _. by rewrite firstn_all. Qed.

Lemma full_sequential record o : eo_details o = DetailsFull ->
  encode_block_result readers lib (FullPayload record) o = sequential (hydrate_full_transaction readers) (br_metadata record) (br_transactions record) o.
Proof. intros Ho. unfold encode_block_result, hydrate_block_payload, sequential, item_options. by rewrite Ho. Qed.

Lemma accounts_sequential p o m records : eo_details o = DetailsAccounts -> into_accounts p = Ok (m, records) ->
  encode_block_result readers lib p o = sequential (hydrate_accounts_transaction readers) m records o.
Proof. intros Ho Hp. unfold encode_block_result, hydrate_block_payload, sequential, item_options. by rewrite Ho, Hp. Qed.

Lemma chunked_sequential {A} (hydrate : A -> result TransactionWithStatusMeta TransactionHydrationError) (wrap : list A -> BlockTransactionChunk) m chunks o :
  itemized (eo_details o) -> (0 < length chunks)%nat ->
  (forall records, hydrate_serialize_block_chunk readers lib (wrap records) o = chunk_output hydrate (encode_tx lib (item_options o)) (json_tx lib) records) ->
  build_block_result_chunked readers lib (length chunks) m (map wrap chunks) o = sequential hydrate m (concat chunks) o.
Proof.
  intros Ho Hn Hw. rewrite chunked_runs_all by (rewrite ?length_map; done). rewrite <- assemble_sequential by done.
  rewrite map_map. by rewrite (map_ext _ _ Hw).
Qed.

Lemma blocking_sequential free parallelism p o :
  build_block_result_blocking readers lib free parallelism p o = encode_block_result readers lib p o.
Proof.
  unfold build_block_result_blocking. set (n := Z.to_nat _). destruct (Nat.ltb_spec 1 n) as [Hn|]; [|done].
  unfold split_block_payload. destruct (_ || _); [done|]. destruct (eo_details o) eqn:Ho; destruct p as [m|m s|m t|record]; try done.
  - rewrite <- (split_length (br_transactions record) n) at 1 by lia.
    rewrite (chunked_sequential (hydrate_full_transaction readers)); [|by left|rewrite split_length; lia|intros; by apply full_chunk_output].
    by rewrite split_concat, full_sequential.
  - rewrite <- (split_length t n) at 1 by lia.
    rewrite (chunked_sequential (hydrate_accounts_transaction readers)); [|by right|rewrite split_length; lia|intros; by apply accounts_chunk_output].
    by rewrite split_concat, (accounts_sequential _ _ m t).
  - rewrite <- (split_length (br_transactions record) n) at 1 by lia. rewrite <- (length_map (map accounts_of)).
    rewrite <- (map_map (map accounts_of) AccountsChunk).
    rewrite (chunked_sequential (hydrate_accounts_transaction readers)); [|by right|rewrite length_map, split_length; lia|intros; by apply accounts_chunk_output].
    rewrite <- concat_map, split_concat. symmetry. by apply accounts_sequential.
Qed.

(** C15: however many hydration permits happen to be free, and whatever parallelism is
    configured, the response to a block request has the same bytes, or the same error, as
    the sequential path: the first failing transaction of the earliest failing stage. *)
Theorem parallel_block_same (free : nat) (parallelism : Z) (p : StoredBlockPayload) (o : EncodeOptions) :
  build_block_result_blocking readers lib free parallelism p o = encode_block_result readers lib p o.
Proof. apply blocking_sequential. Qed.
End Chunked.
