(* ===== verification/BlockRoundTrip.v ===== *)
(** * BlockRoundTrip: a streamed block is the served block

    Composes the ingestor's [prepare_block] with the server's block hydration: from the stored
    metadata row and the transaction rows in the order of their index, the server builds a
    block with the streamed hashes, rewards and transactions. *)

From S2P Require Import Prelude Text Sdk IngestTx IngestBlock IngestBlockSound Hydration HydrationSound BlockHydration.

Open Scope list_scope.
Open Scope Z_scope.

(** The stored row as the server reads it; bank identity and hash are not read. *)
Definition read_block_row (row : BlockMetadataRow) : BlockHydration.BlockRow :=
  let w := m_rewards row in
  mkBlockRow
    (mkBaseRow (m_slot row) (m_parent_slot row) (m_blockhash row) (m_parent_blockhash row) (m_block_time row) (m_block_height row)
       (m_executed_transaction_count row) (m_entry_count row) (rewards_num_partitions w) (m_producer_time_nanos row) (m_user_agent row))
    (read_flag (rewards_present w)) (rewards_pubkey w) (rewards_lamports w) (rewards_post_balance w) (rewards_type w) (rewards_commission w)
    (rewards_commission_bps w).

(** A height of zero is shown for slot 0 only. *)
Definition height_view (slot : Z) (height : option Z) : option Z :=
  match height with Some 0 => if slot =? 0 then Some 0 else None | other => other end.
Lemma height_shown m : shown_height m = height_view (bm_slot m) (bm_block_height m).
Proof. unfold shown_height, height_view. by destruct (bm_block_height m) as [[]|]. Qed.

Definition streamed_rewards (block : BlockMsg) : list Reward := match bk_rewards block with Some r => rw_rewards r | None => [] end.
Definition streamed_partitions (block : BlockMsg) : option Z := bk_rewards block ≫= rw_num_partitions.

Definition by_index (a b : TxInfo) : Prop := ti_index a < ti_index b.
Definition by_slot_idx (a b : IngestTx.TransactionRow) : Prop := t_slot_idx a < t_slot_idx b.

Section Blocks.
Context (codecs : Codecs) (readers : Readers) {E J : Type} (lib : BlockLibrary E J) (utf8_lossy : list Z -> string).

(** A streamed transaction and what the server shows of it. *)
Definition served_as (kind : Z -> option RewardType) (info : TxInfo) (view : TransactionWithStatusMeta) : Prop :=
  exists tx msg header meta status, servable codecs readers kind info tx msg header meta status /\
    view = Complete (mkVersionedTx (tr_signatures tx) (message_of header msg)) (meta_view kind status meta).

(** The block the server hands to the encoder. *)
Definition block_view (kind : Z -> option RewardType) (block : BlockMsg) (views : list TransactionWithStatusMeta) (show_rewards : bool) : ConfirmedBlock :=
  mkConfirmed (bk_parent_blockhash block) (bk_blockhash block) (bk_parent_slot block) views
    (if show_rewards then map (reward_view kind) (streamed_rewards block) else []) (streamed_partitions block)
    (nonzero_time (bk_block_time block)) (height_view (bk_slot block) (bk_block_height block)).

Lemma pubkeys_back (Hb : base58_law codecs readers) l : forall keys, map_rows (fun w => decode_base58_32 codecs (rw_pubkey w)) l = Ok keys ->
  map (bs58_encode readers) keys = map rw_pubkey l.
Proof.
  induction l as [|w l IH]; intros keys H; cbn in H; [by injection H as <-|]. apply rbind_ok in H as (key & Hk & H).
  apply rbind_ok in H as (rest & Hr & [= <-]). cbn. by rewrite (decode_back codecs readers Hb _ _ Hk), (IH _ Hr).
Qed.

Lemma zip_block_rewards_back kind l : reward_law codecs kind l -> forall keys, map (bs58_encode readers) keys = map rw_pubkey l ->
  zip_block_rewards readers keys (map rw_lamports l) (map rw_post_balance l) (map (fun w => reward_type_to_string codecs (rw_type w)) l)
    (map (fun w => parse_commission 255 (rw_commission w)) l) (map (fun w => parse_commission 65535 (rw_commission_bps w)) l) =
  Ok (map (reward_view kind) l).
Proof.
  induction 1 as [|w l Hw _ IH]; intros keys Hk; destruct keys as [|key keys]; [done|done|done|]. injection Hk as Hkey Hk.
  cbn [map zip_block_rewards]. rewrite Hw. cbn [map_transaction_error map_err rbind tail head]. rewrite (IH _ Hk). cbn [rbind mjoin option_join].
  unfold reward_view. by rewrite <- Hkey.
Qed.

Lemma block_rewards_back (Hb : base58_law codecs readers) kind block columns : reward_law codecs kind (streamed_rewards block) ->
  reward_columns codecs (bk_rewards block) = Ok columns ->
  rewards_num_partitions columns = streamed_partitions block /\
  forall row, m_rewards row = columns ->
  build_block_rewards readers (map_block_metadata_row utf8_lossy (read_block_row row)) = Ok (map (reward_view kind) (streamed_rewards block)).
Proof.
  unfold streamed_rewards, streamed_partitions, reward_columns. destruct (bk_rewards block) as [r|]; [|intros _ [= <-]; split; [done|]; intros row Hrow].
  - intros Hl H. apply rbind_ok in H as (keys & Hk & [= <-]). split; [done|]. intros row Hrow. pose proof (pubkeys_back Hb _ _ Hk) as Hp.
    assert (Hlen : length keys = length (rw_rewards r)) by (apply (f_equal length) in Hp; by rewrite !length_map in Hp).
    unfold build_block_rewards, map_block_metadata_row, read_block_row. rewrite Hrow.
    cbn [bm_rewards_present bm_rewards_pubkey bm_rewards_lamports bm_rewards_post_balance bm_rewards_type bm_rewards_commission bm_rewards_commission_bps
         bw_rewards_present bw_rewards_pubkey bw_rewards_lamports bw_rewards_post_balance bw_rewards_type bw_rewards_commission bw_rewards_commission_bps
         rewards_present rewards_pubkey rewards_lamports rewards_post_balance rewards_type rewards_commission rewards_commission_bps].
    destruct (rw_rewards r) as [|w l] eqn:Hw; [by destruct keys|]. unfold read_flag. cbn [negb Z.eqb]. rewrite <- Hw in *.
    unfold ensure. rewrite !zlen_eqb by (rewrite !length_map; done). rewrite orb_true_r. cbn [andb rbind]. by apply zip_block_rewards_back.
  - unfold build_block_rewards, map_block_metadata_row, read_block_row. by rewrite Hrow.
Qed.

(** *** Transactions in order *)

Lemma map_rows_forall2 {A B} (f : A -> result B IngestError) l : forall k, map_rows f l = Ok k <-> Forall2 (fun x y => f x = Ok y) l k.
Proof.
  induction l as [|x l IH]; intros k; cbn; [split; [by intros [= <-]|by intros ->%Forall2_nil_inv_l]|]. rewrite rbind_ok. split.
  - intros (y & Hy & H). apply rbind_ok in H as (ys & Hys%IH & [= <-]). by constructor.
  - intros H. apply Forall2_cons_inv_l in H as (y & ys & Hy & Hys%IH & ->). exists y. split; [done|]. by rewrite Hys.
Qed.

Lemma transaction_index slot time info row : map_transaction codecs slot time info = Ok row -> t_slot_idx row = ti_index info.
Proof.
  unfold map_transaction. intros H. apply rbind_ok in H as (signature & _ & H). apply rbind_ok in H as (idx & Hi & H).
  unfold try_u32 in Hi. case_match; [|done]. injection Hi as <-. repeat (apply rbind_ok in H as (? & _ & H)).
  repeat match type of H with context [let '(_, _) := ?x in _] => destruct x; repeat (apply rbind_ok in H as (? & _ & H)) end.
  by injection H as <-.
Qed.

Lemma rows_sorted slot time infos rows : Forall2 (fun info row => map_transaction codecs slot time info = Ok row) infos rows ->
  StronglySorted by_index infos -> StronglySorted by_slot_idx rows.
Proof.
  induction 1 as [|info row infos rows Hr Hrs IH]; intros Hs; [constructor|]. apply StronglySorted_inv in Hs as [Hs Hall]. constructor; [by apply IH|].
  clear IH Hs. induction Hrs as [|info' row' infos rows Hr' _ IH]; [constructor|]. apply Forall_cons in Hall as [Hlt Hall]. constructor; [|by apply IH].
  unfold by_slot_idx. rewrite (transaction_index _ _ _ _ Hr), (transaction_index _ _ _ _ Hr'). exact Hlt.
Qed.

(** The rows read in order are the rows of the transactions in order. *)
Lemma ordered_rows slot time streamed stored infos rows : Forall2 (fun info row => map_transaction codecs slot time info = Ok row) streamed stored ->
  Permutation infos streamed -> StronglySorted by_index infos -> Permutation rows stored -> StronglySorted by_slot_idx rows ->
  Forall2 (fun info row => map_transaction codecs slot time info = Ok row) infos rows.
Proof.
  intros H Hp Hs Hpr Hsr. symmetry in Hp. destruct (Permutation_Forall2 Hp H) as (rows' & Hrows' & H').
  replace rows with rows'; [done|]. apply (StronglySorted_unique_strong by_slot_idx).
  - unfold by_slot_idx. intros. lia.
  - by eapply rows_sorted.
  - done.
  - by rewrite Hpr.
Qed.

Lemma transactions_served kind slot time infos rows views : base58_law codecs readers ->
  Forall2 (fun info row => map_transaction codecs slot time info = Ok row) infos rows -> Forall2 (served_as kind) infos views ->
  collect (hydrate_full_transaction readers) (map (fun row => map_transaction_row (read_row row)) rows) = Ok views.
Proof.
  intros Hb H. revert views. induction H as [|info row infos rows Hr _ IH]; intros views Hv; [by apply Forall2_nil_inv_l in Hv as ->|].
  apply Forall2_cons_inv_l in Hv as (view & vs & (tx & msg & header & meta & status & Hs & ->) & Hvs & ->). cbn [map collect].
  destruct (streamed_served codecs readers kind slot time info row tx msg header meta status Hb Hs Hr) as [_ ->]. cbn [rbind]. by rewrite (IH _ Hvs).
Qed.

(** The stored row: its footer may have been joined. *)
Definition stored_row (footer : option FooterFields) (row : BlockMetadataRow) : BlockMetadataRow :=
  match footer with Some f => apply_footer f row | None => row end.

(** C14: the block that was streamed is the block that is served.  For a block the ingestor
    prepares, with or without a footer joined to its row, whose transactions can each be served
    ([served_as]) and whose reward types the server knows: when the archive returns its
    transaction rows in the order of their index, the server hands to the encoder the block
    with the streamed blockhashes, parent, time and height, the streamed rewards when they
    are requested, and exactly the streamed transactions with their metadata, in the order of
    their index in the block. *)
Theorem ingest_block_roundtrip kind block include_entries prepared footer infos views rows encoding show_rewards max_version :
  base58_law codecs readers -> prepare_block codecs block include_entries = Ok prepared -> reward_law codecs kind (streamed_rewards block) ->
  Permutation infos (bk_transactions block) -> StronglySorted by_index infos -> Forall2 (served_as kind) infos views ->
  Permutation rows (p_transactions prepared) -> StronglySorted by_slot_idx rows ->
  hydrate_full_block_record readers lib
    (mkBlockRecord (map_block_metadata_row utf8_lossy (read_block_row (stored_row footer (p_metadata prepared))))
       (map (fun row => map_transaction_row (read_row row)) rows)) encoding show_rewards max_version =
  map_err HydrationEncode (encode_block lib (mkOptions encoding DetailsFull show_rewards max_version) (block_view kind block views show_rewards)).
Proof.
  intros Hb H Hl Hpi Hsi Hv Hpr Hsr. unfold prepare_block in H. apply rbind_ok in H as (? & _ & H). apply rbind_ok in H as (m & Hm & H).
  apply rbind_ok in H as (txs & Htxs%map_rows_forall2 & H). apply rbind_ok in H as (entries & _ & [= <-]). cbn [p_metadata p_transactions] in *.
  pose proof (ordered_rows _ _ _ _ _ _ Htxs Hpi Hsi Hpr Hsr) as Hrows.
  unfold map_block_metadata in Hm. apply rbind_ok in Hm as (hash & Hhash%(decode_back _ _ Hb) & Hm).
  apply rbind_ok in Hm as (parent & Hparent%(decode_back _ _ Hb) & Hm). apply rbind_ok in Hm as (columns & Hc & [= <-]).
  destruct (block_rewards_back Hb kind block columns Hl Hc) as [Hpart Hrw].
  unfold hydrate_full_block_record. cbn [br_metadata br_transactions].
  assert (Hrewards : block_rewards_if readers show_rewards (map_block_metadata_row utf8_lossy (read_block_row (stored_row footer
      (mkBlockMeta (bk_slot block) (bk_parent_slot block) hash parent (if bk_bank_id block =? 0 then None else Some (bk_bank_id block)) None None None
         (bk_block_time block) (bk_block_height block) (bk_executed_transaction_count block) (bk_entries_count block) columns)))) =
      Ok (if show_rewards then map (reward_view kind) (streamed_rewards block) else [])).
  { destruct show_rewards; [|done]. apply Hrw. by destruct footer. }
  rewrite Hrewards. cbn [rbind]. rewrite (transactions_served kind _ _ _ _ _ Hb Hrows Hv). cbn [map_transaction_error map_err rbind].
  f_equal. f_equal. unfold block_view, confirmed_block. rewrite height_shown, <- Hhash, <- Hparent, <- Hpart. destruct footer; reflexivity.
Qed.
End Blocks.
