(* ===== verification/GetBlock.v ===== *)
(** * GetBlock: the getBlock handler and its response cache

    Models [handle_get_block] and [respond_with_hydrated_block] of
    [crates/superbank-rpc/src/handlers/blocks.rs] with [block_response_cache.rs]: a request is
    looked up in the response cache, then answered by the head cache, the disk cache or the
    archive, and what was built is remembered.  What those tiers answer is a parameter of
    each request ([Tiers]).  Requests interleave at the cache only, so the handler takes the
    cache as it finds it at its lookup and at its insertion. *)

From S2P Require Import Prelude Text BTree SlotCoverage HeadCoverage Sdk Hydration BlockHydration.

Open Scope list_scope.
Open Scope Z_scope.

(** ** Keys *)

Record GetBlockFetchPlan := mkPlan { fp_options : EncodeOptions; fp_footer : bool }.

(** [GetBlockFetchPlan::new] from the optional fields of the request, and [with_footer]. *)
Definition plan_new (encoding : option UiTransactionEncoding) (details : option TransactionDetails) (rewards : option bool) (max_version : option Z)
    (footer : bool) : GetBlockFetchPlan :=
  mkPlan (mkOptions (default EncodingJson encoding) (default DetailsFull details) (default true rewards) max_version) footer.

(** [validate_transaction_encoding] *)
Definition validate_transaction_encoding (encoding : UiTransactionEncoding) (max_version : option Z) : bool :=
  match encoding, max_version with
  | (EncodingBinary | EncodingBase58), Some v => v <? 1
  | _, _ => true
  end.

(** [needs_blocking_hydration] *)
Definition needs_blocking_hydration (p : GetBlockFetchPlan) : bool := negb (bool_decide (eo_details (fp_options p) = DetailsNone)).

Record BlockResponseCacheKey := mkKey {
  k_slot : Z; k_commitment : CommitmentLevel; k_encoding : Z; k_transaction_details : Z; k_show_rewards : bool;
  k_max_version : option Z; k_footer : bool;
}.

#[export] Instance BlockResponseCacheKey_eq_dec : EqDecision BlockResponseCacheKey.
Proof. solve_decision. Defined.

Definition commitment_code (c : CommitmentLevel) : Z := match c with Processed => 0 | Confirmed => 1 | Finalized => 2 end.
#[export] Instance BlockResponseCacheKey_countable : Countable BlockResponseCacheKey.
Proof.
  refine (inj_countable'
    (fun k => (k_slot k, commitment_code (k_commitment k), k_encoding k, k_transaction_details k, k_show_rewards k, k_max_version k, k_footer k))
    (fun '(s, c, e, d, r, v, f) => mkKey s (if c =? 0 then Processed else if c =? 1 then Confirmed else Finalized) e d r v f) _).
  by intros [? [] ? ? ? ? ?].
Defined.

(** [GetBlockFetchPlan::cache_key] *)
Definition encoding_number (e : UiTransactionEncoding) : Z :=
  match e with EncodingBinary => 0 | EncodingBase58 => 1 | EncodingBase64 => 2 | EncodingJson => 3 | EncodingJsonParsed => 4 end.
Definition details_number (d : TransactionDetails) : Z :=
  match d with DetailsFull => 0 | DetailsSignatures => 1 | DetailsNone => 2 | DetailsAccounts => 3 end.
Definition cache_key (p : GetBlockFetchPlan) (slot : Z) (commitment : CommitmentLevel) : BlockResponseCacheKey :=
  let o := fp_options p in
  mkKey slot commitment (encoding_number (eo_encoding o)) (details_number (eo_details o)) (eo_show_rewards o) (eo_max_version o) (fp_footer p).

(** ** The response cache

    Two bounded maps of another library, which may drop an entry at any time; [None] is a
    cache that is switched off. *)

Definition Bytes : Type := list Z.
Record BlockResponseCache := mkCache {
  rc_inner : option (gmap BlockResponseCacheKey Bytes); rc_unsupported_versions : option (gmap BlockResponseCacheKey Z);
}.

(** [BlockResponseCache::new], [with_unsupported_version_cache], [enabled] *)
Definition response_cache_new (max_bytes : Z) (remember_errors : bool) : BlockResponseCache :=
  let on := if 0 <? max_bytes then Some ∅ else None in
  mkCache on (if 0 <? max_bytes then if remember_errors then Some ∅ else None else None).
Definition cache_enabled (c : BlockResponseCache) : bool := bool_decide (is_Some (rc_inner c)).

(** [get], [get_unsupported_transaction_version] *)
Definition cache_get (c : BlockResponseCache) (k : BlockResponseCacheKey) : option Bytes := rc_inner c ≫= (.!! k).
Definition get_unsupported_transaction_version (c : BlockResponseCache) (k : BlockResponseCacheKey) : option Z := rc_unsupported_versions c ≫= (.!! k).

(** [insert_unsupported_transaction_version]: finalized keys only. *)
Definition insert_unsupported_transaction_version (k : BlockResponseCacheKey) (version : Z) (c : BlockResponseCache) : BlockResponseCache :=
  match rc_unsupported_versions c with
  | None => c
  | Some m => if bool_decide (k_commitment k = Finalized) then mkCache (rc_inner c) (Some (<[k := version]> m)) else c
  end.

(** [get_or_try_insert_with]: with the cache off [init] runs; otherwise an entry is returned,
    or the outcome [joined] of another request that is evaluating the key, or [init] runs and
    its success is kept. *)
Definition get_or_try_insert_with {X} (k : BlockResponseCacheKey) (init : result Bytes X) (joined : option (result Bytes X)) (c : BlockResponseCache) :
    result Bytes X * BlockResponseCache :=
  match rc_inner c with
  | None => (init, c)
  | Some m =>
      match m !! k, joined, init with
      | Some bytes, _, _ => (Ok bytes, c)
      | None, Some outcome, _ => (outcome, c)
      | None, None, Ok bytes => (Ok bytes, mkCache (Some (<[k := bytes]> m)) (rc_unsupported_versions c))
      | None, None, Err e => (Err e, c)
      end
  end.

(** ** Answers *)

Inductive DiskBlockResult := DiskFound (p : StoredBlockPayload) | DiskSkipped | DiskNotCovered.

Inductive Answer :=
| OnlyConfirmedOrFinalized
| BlockResult (bytes : Bytes)
| UnsupportedTransactionVersion (v : Z)
| SlotSkipped
| BlockNotAvailable
| InternalError.

(** [classify_get_block_miss] *)
Definition classify_get_block_miss (slot clickhouse_latest : Z) : Answer := if clickhouse_latest <? slot then BlockNotAvailable else SlotSkipped.

(** [block_payload_has_consistent_transaction_count] *)
Definition block_payload_has_consistent_transaction_count (p : StoredBlockPayload) : bool :=
  match observed_transaction_count p with None => true | Some observed => bm_executed_transaction_count (payload_metadata p) =? observed end.

(** What the tiers answer during a request: the head cache and the disk cache, when they are
    configured, the rows of the archive with [None] for a failed query, and its newest slot.
    [free_permits] and [joined] are what the scheduler gives. *)
Record Tiers (J : Type) := mkTiers {
  head_cache : option (option StoredBlockPayload);
  disk_cache : option DiskBlockResult;
  archive_metadata : option (option StoredBlockMetadata);
  archive_signatures : option (list string);
  archive_accounts : option (list StoredAccountsTransactionRecord);
  archive_transactions : option (list StoredTransactionRecord);
  archive_latest : option Z;
  free_permits : nat;
  joined : option (result Bytes (@BlockResultBuildError J));
}.
Arguments head_cache {J}.
Arguments disk_cache {J}.
Arguments archive_metadata {J}.
Arguments archive_signatures {J}.
Arguments archive_accounts {J}.
Arguments archive_transactions {J}.
Arguments archive_latest {J}.
Arguments free_permits {J}.
Arguments joined {J}.

Record Request := mkRequest { rq_slot : Z; rq_commitment : CommitmentLevel; rq_plan : GetBlockFetchPlan }.
(** [get_block_response_cache_share_confirmed], [get_block_hydration_parallelism] *)
Record ServerConfig := mkServerConfig { share_confirmed : bool; hydration_parallelism : Z }.

Section Handler.
Context (readers : Readers) {E J : Type} (lib : BlockLibrary E J) (config : ServerConfig).

(** The build inside [respond_with_hydrated_block]. *)
Definition build_result (free : nat) (plan : GetBlockFetchPlan) (p : StoredBlockPayload) : result Bytes (@BlockResultBuildError J) :=
  let built :=
    if needs_blocking_hydration plan then build_block_result_blocking readers lib free (hydration_parallelism config) p (fp_options plan)
    else encode_block_result readers lib p (fp_options plan) in
  if fp_footer plan then let? bytes := built in insert_footer_field lib bytes (bm_footer (payload_metadata p)) else built.

(** [respond_with_hydrated_block] *)
Definition respond_with_hydrated_block (t : Tiers J) (plan : GetBlockFetchPlan) (p : StoredBlockPayload) (key : option BlockResponseCacheKey)
    (c : BlockResponseCache) : Answer * BlockResponseCache :=
  if negb (block_payload_has_consistent_transaction_count p) then (InternalError, c)
  else
    let init := build_result (free_permits t) plan p in
    let '(built, c) := match key with Some k => get_or_try_insert_with k init (joined t) c | None => (init, c) end in
    match built with
    | Ok bytes => (BlockResult bytes, c)
    | Err (ResultUnsupportedVersion v) =>
        (UnsupportedTransactionVersion v, match key with Some k => insert_unsupported_transaction_version k v c | None => c end)
    | Err _ => (InternalError, c)
    end.

(** The archive's rows for the requested details; [None] when a query fails. *)
Definition join_rows {A} (t : Tiers J) (rows : option A) (wrap : StoredBlockMetadata -> A -> StoredBlockPayload) : option (option StoredBlockPayload) :=
  match archive_metadata t, rows with
  | Some metadata, Some rows => Some ((fun m => wrap m rows) <$> metadata)
  | _, _ => None
  end.
Definition archive_payload (t : Tiers J) (details : TransactionDetails) : option (option StoredBlockPayload) :=
  match details with
  | DetailsNone => join_rows t (Some tt) (fun m _ => MetadataPayload m)
  | DetailsSignatures => join_rows t (archive_signatures t) SignaturesPayload
  | DetailsAccounts => join_rows t (archive_accounts t) AccountsPayload
  | DetailsFull => join_rows t (archive_transactions t) (fun m transactions => FullPayload (mkBlockRecord m transactions))
  end.

(** A head-cache block that is shown: its transaction count is right. *)
Definition head_payload (t : Tiers J) : option StoredBlockPayload :=
  match head_cache t with
  | Some (Some p) => if block_payload_has_consistent_transaction_count p then Some p else None
  | _ => None
  end.

(** [handle_get_block] after its parameters are parsed; [found] is the cache at the lookup, [c]
    the cache at the insertion. *)
Definition uses_response_cache (r : Request) : bool := bool_decide (rq_commitment r = Finalized) || share_confirmed config.
Definition cached_answer (r : Request) (found : BlockResponseCache) : option Answer :=
  let key := cache_key (rq_plan r) (rq_slot r) Finalized in
  if uses_response_cache r && cache_enabled found then
    match cache_get found key with
    | Some bytes => Some (BlockResult bytes)
    | None => UnsupportedTransactionVersion <$> get_unsupported_transaction_version found key
    end
  else None.
(** The tier that answers: a payload with the key its response is kept under, or a reply. *)
Inductive Choice := Respond (p : StoredBlockPayload) (key : option BlockResponseCacheKey) | Reply (answer : Answer).
Definition choose_tier (r : Request) (t : Tiers J) : Choice :=
  let plan := rq_plan r in
  let key := cache_key plan (rq_slot r) Finalized in
  match head_payload t with
  | Some p => Respond p (if bool_decide (rq_commitment r = Finalized) && negb (fp_footer plan) then Some key else None)
  | None =>
      match disk_cache t with
      | Some (DiskFound p) => Respond p (if uses_response_cache r then Some key else None)
      | Some DiskSkipped => Reply SlotSkipped
      | _ =>
          match archive_payload t (eo_details (fp_options plan)) with
          | None => Reply InternalError
          | Some None => Reply (match archive_latest t with Some latest => classify_get_block_miss (rq_slot r) latest | None => InternalError end)
          | Some (Some p) => Respond p (if uses_response_cache r then Some key else None)
          end
      end
  end.

Definition handle_get_block (r : Request) (t : Tiers J) (found c : BlockResponseCache) : Answer * BlockResponseCache :=
  if bool_decide (rq_commitment r = Processed) then (OnlyConfirmedOrFinalized, c)
  else
    match cached_answer r found with
    | Some answer => (answer, c)
    | None =>
        match choose_tier r t with
        | Reply answer => (answer, c)
        | Respond p key => respond_with_hydrated_block t (rq_plan r) p key c
        end
    end.
End Handler.
