(* ===== verification/GetBlockSound.v ===== *)
(** * GetBlockSound: every tier gives the same block

    [chain] is the finalized chain with the blocks as they are stored.  A tier may miss a
    block, and rows of the archive may be missing while they are written, but what it returns
    is of the right block ([tiers_true]).  The answer of a request is then that of the
    reference, the sequential build of the whole block, whichever tier gave the payload,
    however it was hydrated and whatever the response cache kept. *)

From S2P Require Import Prelude Text BTree SlotCoverage HeadCoverage Sdk Hydration BlockHydration BlockHydrationSound GetBlock.

Open Scope list_scope.
Open Scope Z_scope.

(** ** Keys *)

Lemma encoding_number_inj : Inj (=) (=) encoding_number.
Proof. by intros [] []. Qed.
Lemma details_number_inj : Inj (=) (=) details_number.
Proof. by intros [] []. Qed.

Lemma cache_key_inj p p' slot slot' c c' : cache_key p slot c = cache_key p' slot' c' -> p = p' /\ slot = slot' /\ c = c'.
Proof.
  destruct p as [[e d r v] f], p' as [[e' d' r' v'] f']. unfold cache_key. cbn. intros [= -> -> He Hd -> -> ->].
  apply encoding_number_inj in He as ->. apply details_number_inj in Hd as ->. done.
Qed.

Lemma sublist_complete {A} (l k : list A) : l `sublist_of` k -> zlen l = zlen k -> l = k.
Proof.
  unfold zlen. intros H Hl. assert (Hn : (length k <= length l)%nat) by lia. clear Hl. induction H as [|x l k H IH|x l k H IH]; [done|..].
  - f_equal. apply IH. cbn in Hn. lia.
  - apply sublist_length in H. cbn in Hn. lia.
Qed.

(** ** Blocks and their views *)

Definition clear_rewards (m : StoredBlockMetadata) : StoredBlockMetadata :=
  mkBlockMetadata (bm_slot m) (bm_parent_slot m) (bm_blockhash m) (bm_parent_blockhash m) (bm_block_time m) (bm_block_height m)
    (bm_executed_transaction_count m) (bm_entry_count m) false [] [] [] [] [] [] (bm_rewards_num_partitions m) (bm_footer m).
Definition clear_footer (m : StoredBlockMetadata) : StoredBlockMetadata :=
  mkBlockMetadata (bm_slot m) (bm_parent_slot m) (bm_blockhash m) (bm_parent_blockhash m) (bm_block_time m) (bm_block_height m)
    (bm_executed_transaction_count m) (bm_entry_count m) (bm_rewards_present m) (bm_rewards_pubkey m) (bm_rewards_lamports m)
    (bm_rewards_post_balance m) (bm_rewards_type m) (bm_rewards_commission m) (bm_rewards_commission_bps m) (bm_rewards_num_partitions m) None.
Definition without_footer (b : StoredBlockRecord) : StoredBlockRecord := mkBlockRecord (clear_footer (br_metadata b)) (br_transactions b).

(** A complete block, every transaction signed. *)
Record block_ok (b : StoredBlockRecord) : Prop := {
  ok_count : bm_executed_transaction_count (br_metadata b) = zlen (br_transactions b);
  ok_signed : Forall (fun tx => tx_signatures (s_columns tx) <> []) (br_transactions b);
}.

Section Views.
Context (readers : Readers).

(** The metadata read for a request: without the reward columns when they are not shown. *)
Definition metadata_of (show : bool) (b : StoredBlockRecord) (m : StoredBlockMetadata) : Prop :=
  if show then m = br_metadata b else clear_rewards m = clear_rewards (br_metadata b).
Definition signature_text (tx : StoredTransactionRecord) : string := bs58_encode readers (default [] (head (tx_signatures (s_columns tx)))).

(** A payload of the block, possibly with rows missing. *)
Inductive shows (o : EncodeOptions) (b : StoredBlockRecord) : StoredBlockPayload -> Prop :=
| shows_metadata m : eo_details o = DetailsNone -> metadata_of (eo_show_rewards o) b m -> shows o b (MetadataPayload m)
| shows_signatures m s : eo_details o = DetailsSignatures -> metadata_of (eo_show_rewards o) b m ->
    s `sublist_of` map signature_text (br_transactions b) -> shows o b (SignaturesPayload m s)
| shows_accounts m t : eo_details o = DetailsAccounts -> metadata_of (eo_show_rewards o) b m ->
    t `sublist_of` map accounts_of (br_transactions b) -> shows o b (AccountsPayload m t)
| shows_full m t : metadata_of (eo_show_rewards o) b m -> t `sublist_of` br_transactions b -> shows o b (FullPayload (mkBlockRecord m t)).

Lemma metadata_count show b m : metadata_of show b m -> bm_executed_transaction_count m = bm_executed_transaction_count (br_metadata b).
Proof. unfold metadata_of. destruct show; [by intros ->|]. intros H. by apply (f_equal bm_executed_transaction_count) in H. Qed.

Lemma metadata_footer show b m : metadata_of show b m -> bm_footer m = bm_footer (br_metadata b).
Proof. unfold metadata_of. destruct show; [by intros ->|]. intros H. by apply (f_equal bm_footer) in H. Qed.

Lemma signatures_collected txs : Forall (fun tx => tx_signatures (s_columns tx) <> []) txs ->
  collect (fun tx => primary_signature_string readers (tx_signatures (s_columns tx))) txs = Ok (map signature_text txs).
Proof.
  induction 1 as [|tx txs Hs _ IH]; [done|]. cbn [collect map]. rewrite IH. unfold primary_signature_string, signature_text.
  by destruct (tx_signatures (s_columns tx)).
Qed.

Context {E J : Type} (lib : BlockLibrary E J).

(** Encoding reads the rewards only when they are shown, and never the footer. *)
Ltac same_metadata :=
  match goal with
  | H : metadata_of ?show ?b ?m |- _ =>
      unfold metadata_of in H; destruct show; [by rewrite H|];
      destruct b as [bm txs]; cbn [br_metadata br_transactions] in *; destruct m, bm; injection H as; subst; reflexivity
  end.

Lemma metadata_only_same show b m : metadata_of show b m ->
  encode_metadata_only_block readers (E := E) m show = encode_metadata_only_block readers (br_metadata b) show.
Proof. intros H. same_metadata. Qed.

Lemma signatures_same show b m s : metadata_of show b m ->
  encode_block_signatures readers (E := E) m s show = encode_block_signatures readers (br_metadata b) s show.
Proof. intros H. same_metadata. Qed.

Lemma accounts_same show b m t v : metadata_of show b m ->
  encode_accounts_block readers lib m t show v = encode_accounts_block readers lib (br_metadata b) t show v.
Proof. intros H. same_metadata. Qed.

Lemma full_same show b m t e v : metadata_of show b m ->
  hydrate_full_block_record readers lib (mkBlockRecord m t) e show v = hydrate_full_block_record readers lib (mkBlockRecord (br_metadata b) t) e show v.
Proof. intros H. same_metadata. Qed.

Lemma full_payload_same o b m : block_ok b -> metadata_of (eo_show_rewards o) b m ->
  hydrate_block_payload readers lib (FullPayload (mkBlockRecord m (br_transactions b))) o = hydrate_block_payload readers lib (FullPayload b) o.
Proof.
  intros Hb Hm. unfold hydrate_block_payload. destruct b as [bm txs]. cbn [br_transactions] in *. destruct (eo_details o).
  - cbn [into_full rbind]. by apply (full_same _ (mkBlockRecord bm txs)).
  - cbn [into_signatures br_transactions]. rewrite signatures_collected by apply Hb. cbn [rbind fst snd]. by apply (signatures_same _ (mkBlockRecord bm txs)).
  - cbn [payload_metadata]. by apply (metadata_only_same _ (mkBlockRecord bm txs)).
  - cbn [into_accounts rbind fst snd br_metadata br_transactions]. by apply (accounts_same _ (mkBlockRecord bm txs)).
Qed.

(** A payload of the block with the right number of transactions encodes as the block. *)
Lemma shows_encode o b p : block_ok b -> shows o b p -> block_payload_has_consistent_transaction_count p = true ->
  encode_block_result readers lib p o = encode_block_result readers lib (FullPayload b) o.
Proof.
  intros Hb Hs Hc. unfold encode_block_result. f_equal. f_equal. pose proof (ok_count _ Hb) as Hn.
  destruct Hs as [m Ho Hm|m s Ho Hm Hsub|m t Ho Hm Hsub|m t Hm Hsub]; unfold block_payload_has_consistent_transaction_count in Hc;
    cbn [observed_transaction_count payload_metadata br_metadata br_transactions] in Hc; zbool; rewrite ?(metadata_count _ _ _ Hm), ?Hn in Hc.
  - unfold hydrate_block_payload. rewrite Ho. cbn [payload_metadata]. by apply metadata_only_same.
  - apply sublist_complete in Hsub; [|by rewrite <- Hc; unfold zlen; rewrite length_map]. unfold hydrate_block_payload. rewrite Ho.
    cbn [into_signatures]. rewrite signatures_collected by apply Hb. rewrite Hsub. cbn [rbind fst snd]. by apply signatures_same.
  - apply sublist_complete in Hsub; [|by rewrite <- Hc; unfold zlen; rewrite length_map]. unfold hydrate_block_payload. rewrite Ho.
    cbn [into_accounts rbind fst snd]. rewrite Hsub. by apply accounts_same.
  - apply sublist_complete in Hsub; [|done]. rewrite Hsub. by apply full_payload_same.
Qed.

(** The reference answer: the sequential build of the whole block. *)
Definition reference (plan : GetBlockFetchPlan) (b : StoredBlockRecord) : result Bytes (@BlockResultBuildError J) :=
  let built := encode_block_result readers lib (FullPayload b) (fp_options plan) in
  if fp_footer plan then let? bytes := built in insert_footer_field lib bytes (bm_footer (br_metadata b)) else built.

Lemma reference_without_footer plan b : fp_footer plan = false -> reference plan b = reference plan (without_footer b).
Proof.
  intros Hf. unfold reference. rewrite Hf. unfold encode_block_result, hydrate_block_payload. destruct b as [m txs]. 
  destruct (eo_details (fp_options plan)); try reflexivity. cbn [into_signatures without_footer br_transactions br_metadata]. by destruct (collect _ txs).
Qed.

Context `{!LibraryLaws readers lib} (config : ServerConfig).

Lemma build_reference free plan b p : block_ok b -> shows (fp_options plan) b p -> block_payload_has_consistent_transaction_count p = true ->
  build_result readers lib config free plan p = reference plan b.
Proof.
  intros Hb Hs Hc. unfold build_result, reference. rewrite (blocking_sequential readers lib), <- (shows_encode _ _ _ Hb Hs Hc).
  assert (Hf : bm_footer (payload_metadata p) = bm_footer (br_metadata b)) by (destruct Hs; cbn; by eapply metadata_footer).
  rewrite Hf. by destruct (needs_blocking_hydration plan).
Qed.

(** ** Truthful tiers *)

Context (chain : Z -> option StoredBlockRecord).

(** [bank] is the bank the head cache has for the slot: for a finalized request the block of
    the chain, whose footer may not have arrived yet. *)
Record tiers_true (r : Request) (t : Tiers J) (bank : option StoredBlockRecord) : Prop := {
  tt_head : forall p, head_cache t = Some (Some p) -> exists b, bank = Some b /\ block_ok b /\ shows (fp_options (rq_plan r)) b p;
  tt_bank : rq_commitment r = Finalized -> forall b, bank = Some b ->
    exists b0, chain (rq_slot r) = Some b0 /\ without_footer b = without_footer b0;
  tt_disk : forall p, disk_cache t = Some (DiskFound p) -> exists b, chain (rq_slot r) = Some b /\ shows (fp_options (rq_plan r)) b p;
  tt_skipped : disk_cache t = Some DiskSkipped -> chain (rq_slot r) = None;
  tt_metadata : forall m, archive_metadata t = Some (Some m) ->
    exists b, chain (rq_slot r) = Some b /\ metadata_of (eo_show_rewards (fp_options (rq_plan r))) b m;
  tt_signatures : forall s b, archive_signatures t = Some s -> chain (rq_slot r) = Some b -> s `sublist_of` map signature_text (br_transactions b);
  tt_accounts : forall l b, archive_accounts t = Some l -> chain (rq_slot r) = Some b -> l `sublist_of` map accounts_of (br_transactions b);
  tt_transactions : forall l b, archive_transactions t = Some l -> chain (rq_slot r) = Some b -> l `sublist_of` br_transactions b;
}.

(** What a request evaluates under a key. *)
Definition evaluates (r : Request) (t : Tiers J) (key : BlockResponseCacheKey) (outcome : result Bytes (@BlockResultBuildError J)) : Prop :=
  exists p, choose_tier config r t = Respond p (Some key) /\ block_payload_has_consistent_transaction_count p = true /\
            outcome = build_result readers lib config (free_permits t) (rq_plan r) p.
(** A joined outcome is that of another request which evaluates the same key. *)
Definition joined_true (r : Request) (t : Tiers J) : Prop :=
  forall outcome, joined t = Some outcome ->
  exists r' t' bank', tiers_true r' t' bank' /\ evaluates r' t' (cache_key (rq_plan r) (rq_slot r) Finalized) outcome.

(** The cache keeps answers of the reference for blocks of the chain. *)
Record cache_true (c : BlockResponseCache) : Prop := {
  ct_bytes : forall plan slot bytes, cache_get c (cache_key plan slot Finalized) = Some bytes ->
    exists b, chain slot = Some b /\ reference plan b = Ok bytes;
  ct_versions : forall plan slot v, get_unsupported_transaction_version c (cache_key plan slot Finalized) = Some v ->
    exists b, chain slot = Some b /\ reference plan b = Err (ResultUnsupportedVersion v);
}.

Context (Hchain : forall slot b, chain slot = Some b -> block_ok b).

Lemma archive_shows r t bank p : tiers_true r t bank -> archive_payload t (eo_details (fp_options (rq_plan r))) = Some (Some p) ->
  exists b, chain (rq_slot r) = Some b /\ shows (fp_options (rq_plan r)) b p.
Proof.
  intros Ht. unfold archive_payload, join_rows.
  destruct (eo_details (fp_options (rq_plan r))) eqn:Ho; destruct (archive_metadata t) as [[m|]|] eqn:Hm; try case_match; try done; cbn; intros [= <-];
    destruct (tt_metadata _ _ _ Ht m Hm) as (b & Hb & Hmeta); exists b; (split; [done|]).
  - apply shows_full; [done|]. by eapply tt_transactions.
  - apply shows_signatures; [done..|]. by eapply tt_signatures.
  - by apply shows_metadata.
  - apply shows_accounts; [done..|]. by eapply tt_accounts.
Qed.

(** Whatever tier answers, the payload shows the chain's block or the bank of the head cache,
    and the bank only without a key or without a footer. *)
Definition keyed (r : Request) (key : option BlockResponseCacheKey) : Prop :=
  forall k, key = Some k -> k = cache_key (rq_plan r) (rq_slot r) Finalized.
Definition shown_block (r : Request) (bank : option StoredBlockRecord) (key : option BlockResponseCacheKey) (b : StoredBlockRecord) : Prop :=
  chain (rq_slot r) = Some b \/ (bank = Some b /\ (is_Some key -> rq_commitment r = Finalized /\ fp_footer (rq_plan r) = false)).

Lemma keyed_if r (c : bool) : keyed r (if c then Some (cache_key (rq_plan r) (rq_slot r) Finalized) else None).
Proof. intros k. destruct c; [by intros [= <-]|done]. Qed.

Lemma choice_shows r t bank p key : tiers_true r t bank -> choose_tier config r t = Respond p key ->
  keyed r key /\ exists b, shown_block r bank key b /\ block_ok b /\ shows (fp_options (rq_plan r)) b p.
Proof.
  intros Ht. unfold choose_tier. destruct (head_payload t) as [ph|] eqn:Hh.
  - intros [= <- <-]. split; [apply keyed_if|].
    unfold head_payload in Hh. destruct (head_cache t) as [[ph'|]|] eqn:Hhc; [|done|done]. case_match; [|done]. injection Hh as ->.
    destruct (tt_head _ _ _ Ht _ Hhc) as (b & Hb & Hok & Hs). exists b. split_and!; [|done|done]. right. split; [done|].
    destruct (bool_decide (rq_commitment r = Finalized) && negb (fp_footer (rq_plan r))) eqn:Hk; [|by intros [? ?]]. intros _. zbool. split;
    done.
  - assert (Harch : forall p0, archive_payload t (eo_details (fp_options (rq_plan r))) = Some (Some p0) ->
      exists b, shown_block r bank (if uses_response_cache config r then Some (cache_key (rq_plan r) (rq_slot r) Finalized) else None) b /\
        block_ok b /\ shows (fp_options (rq_plan r)) b p0).
    { intros p0 Ha. destruct (archive_shows _ _ _ _ Ht Ha) as (b & Hb & Hs). exists b. split_and!; [by left|by eapply Hchain|done]. }
    destruct (disk_cache t) as [[pd| |]|] eqn:Hd; [|done|..].
    + intros [= <- <-]. split; [apply keyed_if|]. destruct (tt_disk _ _ _ Ht _ Hd) as (b & Hb & Hs). exists b. split_and!; [by left|by eapply Hchain|done].
    + destruct (archive_payload t _) as [[pa|]|] eqn:Ha; [|done|done]. intros [= <- <-]. split; [apply keyed_if|by apply Harch].
    + destruct (archive_payload t _) as [[pa|]|] eqn:Ha; [|done|done]. intros [= <- <-]. split; [apply keyed_if|by apply Harch].
Qed.

(** The reference answer of a finalized bank is that of the chain's block. *)
Lemma bank_reference r t bank b : tiers_true r t bank -> bank = Some b -> rq_commitment r = Finalized -> fp_footer (rq_plan r) = false ->
  exists b0, chain (rq_slot r) = Some b0 /\ reference (rq_plan r) b = reference (rq_plan r) b0.
Proof.
  intros Ht Hb Hf Hp. destruct (tt_bank _ _ _ Ht Hf b Hb) as (b0 & Hc & Heq). exists b0. split; [done|].
  by rewrite reference_without_footer, Heq, <- reference_without_footer.
Qed.

Lemma evaluates_true r t bank plan slot outcome : tiers_true r t bank -> evaluates r t (cache_key plan slot Finalized) outcome ->
  exists b, chain slot = Some b /\ outcome = reference plan b.
Proof.
  intros Ht (p & Hch & Hc & ->). destruct (choice_shows _ _ _ _ _ Ht Hch) as (Hk & b & Hb & Hok & Hs).
  destruct (cache_key_inj _ _ _ _ _ _ (Hk _ eq_refl)) as (-> & -> & _). rewrite (build_reference _ _ _ _ Hok Hs Hc).
  destruct Hb as [Hb|[Hb Hkey]]; [by exists b|]. destruct (Hkey (ex_intro _ _ eq_refl)) as [Hf Hp]. by eapply bank_reference.
Qed.

(** ** The handler *)

Definition showable (r : Request) (bank : option StoredBlockRecord) (b : StoredBlockRecord) : Prop :=
  chain (rq_slot r) = Some b \/ (bank = Some b /\ (rq_commitment r = Finalized -> fp_footer (rq_plan r) = true)).

Definition answer_true (r : Request) (t : Tiers J) (bank : option StoredBlockRecord) (a : Answer) : Prop :=
  match a with
  | OnlyConfirmedOrFinalized => rq_commitment r = Processed
  | BlockResult bytes => exists b, showable r bank b /\ reference (rq_plan r) b = Ok bytes
  | UnsupportedTransactionVersion v => exists b, showable r bank b /\ reference (rq_plan r) b = Err (ResultUnsupportedVersion v)
  | SlotSkipped =>
      chain (rq_slot r) = None \/ (archive_metadata t = Some None /\ exists latest, archive_latest t = Some latest /\ rq_slot r <= latest)
  | BlockNotAvailable => archive_metadata t = Some None /\ exists latest, archive_latest t = Some latest /\ latest < rq_slot r
  | InternalError => True
  end.

Lemma cached_true r found a t bank : cache_true found -> cached_answer config r found = Some a -> answer_true r t bank a.
Proof.
  intros Hc. unfold cached_answer. destruct (_ && _); [|done]. destruct (cache_get found _) as [bytes|] eqn:Hg.
  - intros [= <-]. destruct (ct_bytes _ Hc _ _ _ Hg) as (b & Hb & Hr). exists b. by split; [left|].
  - destruct (get_unsupported_transaction_version found _) as [v|] eqn:Hv; [|done]. intros [= <-].
    destruct (ct_versions _ Hc _ _ _ Hv) as (b & Hb & Hr). exists b. by split; [left|].
Qed.

Lemma showable_of r t bank key b : tiers_true r t bank -> shown_block r bank key b ->
  exists b', showable r bank b' /\ reference (rq_plan r) b = reference (rq_plan r) b'.
Proof.
  intros Ht [Hb|[Hb _]]; [by exists b; split; [left|]|].
  destruct (decide (rq_commitment r = Finalized)) as [Hf|Hf]; [|by exists b; split; [right|]].
  destruct (fp_footer (rq_plan r)) eqn:Hp; [by exists b; split; [right|]|].
  destruct (bank_reference _ _ _ _ Ht Hb Hf Hp) as (b0 & Hb0 & Heq). exists b0. by split; [left|].
Qed.
Lemma insert_bytes_true plan slot bytes c m b : cache_true c -> rc_inner c = Some m -> chain slot = Some b -> reference plan b = Ok bytes ->
  cache_true (mkCache (Some (<[cache_key plan slot Finalized := bytes]> m)) (rc_unsupported_versions c)).
Proof.
  intros Hc Hm Hb Hr. split; [|exact (ct_versions _ Hc)]. intros plan' slot' bytes'. unfold cache_get. cbn [rc_inner mbind option_bind].
  destruct (decide (cache_key plan slot Finalized = cache_key plan' slot' Finalized)) as [He|He].
  - rewrite He, lookup_insert_eq. intros [= <-]. apply cache_key_inj in He as (<- & <- & _). by exists b.
  - rewrite lookup_insert_ne by done. intros Hl. apply (ct_bytes _ Hc). unfold cache_get. by rewrite Hm.
Qed.

Lemma insert_version_true plan slot v c b : cache_true c -> chain slot = Some b -> reference plan b = Err (ResultUnsupportedVersion v) ->
  cache_true (insert_unsupported_transaction_version (cache_key plan slot Finalized) v c).
Proof.
  intros Hc Hb Hr. unfold insert_unsupported_transaction_version. destruct (rc_unsupported_versions c) as [m|] eqn:Hm; [|done].
  case_bool_decide; [|done]. split; [exact (ct_bytes _ Hc)|]. intros plan' slot' v'. unfold get_unsupported_transaction_version.
  cbn [rc_unsupported_versions mbind option_bind].
  destruct (decide (cache_key plan slot Finalized = cache_key plan' slot' Finalized)) as [He|He].
  - rewrite He, lookup_insert_eq. intros [= <-]. apply cache_key_inj in He as (<- & <- & _). by exists b.
  - rewrite lookup_insert_ne by done. intros Hl. apply (ct_versions _ Hc). unfold get_unsupported_transaction_version. by rewrite Hm.
Qed.

(** What a keyed request obtains, from the cache, from another request or by its own build. *)
Lemma obtained_true r t bank p c : tiers_true r t bank -> joined_true r t -> cache_true c ->
  let key := cache_key (rq_plan r) (rq_slot r) Finalized in
  choose_tier config r t = Respond p (Some key) -> block_payload_has_consistent_transaction_count p = true ->
  let obtained := get_or_try_insert_with key (build_result readers lib config (free_permits t) (rq_plan r) p) (joined t) c in
  (exists b, chain (rq_slot r) = Some b /\ fst obtained = reference (rq_plan r) b) /\ cache_true (snd obtained).
Proof.
  intros Ht Hj Hc key Hch Hp obtained.
  destruct (evaluates_true r t bank (rq_plan r) (rq_slot r) _ Ht (ex_intro _ p (conj Hch (conj Hp eq_refl)))) as (b & Hb & Hinit).
  unfold obtained, get_or_try_insert_with. destruct (rc_inner c) as [m|] eqn:Hm; [|by split; [exists b|]].
  destruct (m !! key) as [bytes|] eqn:Hl.
  - split; [|done]. destruct (ct_bytes _ Hc (rq_plan r) (rq_slot r) bytes) as (b' & Hb' & Hr'); [unfold cache_get; by rewrite Hm|]. by exists b'.
  - destruct (joined t) as [outcome|] eqn:Ho.
    + split; [|done]. destruct (Hj _ Ho) as (r' & t' & bank' & Ht' & He). by apply (evaluates_true _ _ _ _ _ _ Ht' He).
    + rewrite Hinit. destruct (reference (rq_plan r) b) as [bytes|e] eqn:Hr; cbn [fst snd]; split; try done; try (by exists b; rewrite Hr).
      by eapply insert_bytes_true.
Qed.

Lemma respond_true r t bank p key c : tiers_true r t bank -> joined_true r t -> cache_true c -> choose_tier config r t = Respond p key ->
  let answered := respond_with_hydrated_block readers lib config t (rq_plan r) p key c in
  answer_true r t bank (fst answered) /\ cache_true (snd answered).
Proof.
  intros Ht Hj Hc Hch. unfold respond_with_hydrated_block. destruct (block_payload_has_consistent_transaction_count p) eqn:Hp; cbn [negb]; [|done].
  destruct (choice_shows _ _ _ _ _ Ht Hch) as (Hk & b & Hb & Hok & Hs). destruct key as [k|].
  - rewrite (Hk _ eq_refl) in Hch |- *. destruct (obtained_true _ _ _ _ _ Ht Hj Hc Hch Hp) as [(b' & Hb' & Hr) Hc'].
    destruct (get_or_try_insert_with _ _ _ c) as [built c']. cbn [fst snd] in Hr, Hc'. subst built.
    destruct (reference (rq_plan r) b') as [bytes|[v|e| |]] eqn:Hr; cbn [fst snd]; split; try done.
    + exists b'. by split; [left|].
    + exists b'. by split; [left|].
    + by eapply insert_version_true.
  - rewrite (build_reference _ _ _ _ Hok Hs Hp). destruct (showable_of _ _ _ _ _ Ht Hb) as (b' & Hb' & ->).
    destruct (reference (rq_plan r) b') as [bytes|[v|e| |]] eqn:Hr; cbn [fst snd]; split; try done; by exists b'.
Qed.

Lemma reply_true r t bank a : tiers_true r t bank -> choose_tier config r t = Reply a -> answer_true r t bank a.
Proof.
  intros Ht. unfold choose_tier. destruct (head_payload t); [done|]. assert (Harch : forall a0,
    match archive_payload t (eo_details (fp_options (rq_plan r))) with
    | None => Reply InternalError
    | Some None => Reply (match archive_latest t with Some latest => classify_get_block_miss (rq_slot r) latest | None => InternalError end)
    | Some (Some p) => Respond p (if uses_response_cache config r then Some (cache_key (rq_plan r) (rq_slot r) Finalized) else None)
    end = Reply a0 -> answer_true r t bank a0).
  { intros a0. destruct (archive_payload t _) as [[p|]|] eqn:Ha; [done| |by intros [= <-]]. intros [= <-].
    assert (Hm : archive_metadata t = Some None).
    { unfold archive_payload, join_rows in Ha. destruct (archive_metadata t) as [[m|]|]; [|done|]; repeat case_match; by simplify_eq/=. }
    destruct (archive_latest t) as [latest|] eqn:Hl; [|done]. unfold classify_get_block_miss. case_match; zbool.
    - split; [done|]. by exists latest.
    - right. split; [done|]. by exists latest. }
  destruct (disk_cache t) as [[pd| |]|] eqn:Hd; [done| |by apply Harch|by apply Harch]. intros [= <-]. left. by apply (tt_skipped _ _ _ Ht).
Qed.

Lemma handle_true r t bank found c : tiers_true r t bank -> joined_true r t -> cache_true found -> cache_true c ->
  let answered := handle_get_block readers lib config r t found c in
  answer_true r t bank (fst answered) /\ cache_true (snd answered).
Proof.
  intros Ht Hj Hf Hc. unfold handle_get_block. case_bool_decide; [done|]. destruct (cached_answer config r found) as [a|] eqn:Ha.
  - split; [|done]. exact (cached_true _ _ _ _ _ Hf Ha).
  - destruct (choose_tier config r t) as [p key|a] eqn:Hch; [by apply respond_true|]. split; [|done]. exact (reply_true _ _ _ _ Ht Hch).
Qed.

(** The library may drop any entry. *)
Definition evicted (c c' : BlockResponseCache) : Prop :=
  (forall k bytes, cache_get c' k = Some bytes -> cache_get c k = Some bytes) /\
  (forall k v, get_unsupported_transaction_version c' k = Some v -> get_unsupported_transaction_version c k = Some v).

(** The caches of a server that has handled any requests in any interleaving. *)
Inductive reachable : BlockResponseCache -> Prop :=
| reach_new max_bytes remember_errors : reachable (response_cache_new max_bytes remember_errors)
| reach_evict c c' : reachable c -> evicted c c' -> reachable c'
| reach_handle r t bank found c : reachable found -> reachable c -> tiers_true r t bank -> joined_true r t ->
    reachable (snd (handle_get_block readers lib config r t found c)).

Lemma reachable_true c : reachable c -> cache_true c.
Proof.
  induction 1 as [max_bytes remember|c c' _ IH [Hb Hv]|r t bank found c _ IHf _ IHc Ht Hj].
  - unfold response_cache_new, cache_get, get_unsupported_transaction_version. split; intros plan slot x; repeat case_match; done.
  - split; intros plan slot x Hx; [by apply (ct_bytes _ IH), Hb|by apply (ct_versions _ IH), Hv].
  - by apply (handle_true r t bank found c).
Qed.

(** Every tier that is asked has the whole block. *)
Record tiers_complete (r : Request) (t : Tiers J) : Prop := {
  tc_disk : forall p, disk_cache t = Some (DiskFound p) -> block_payload_has_consistent_transaction_count p = true;
  tc_archive : exists p, archive_payload t (eo_details (fp_options (rq_plan r))) = Some (Some p) /\ block_payload_has_consistent_transaction_count p = true;
}.

Lemma complete_choice r t bank b : tiers_true r t bank -> tiers_complete r t -> chain (rq_slot r) = Some b ->
  exists p key, choose_tier config r t = Respond p key /\ block_payload_has_consistent_transaction_count p = true.
Proof.
  intros Ht [Hd (pa & Ha & Hpa)] Hb. unfold choose_tier. destruct (head_payload t) as [ph|] eqn:Hh.
  - eexists _, _. split; [done|]. unfold head_payload in Hh. repeat case_match; by simplify_eq.
  - destruct (disk_cache t) as [[pd| |]|] eqn:Hdisk.
    + eexists _, _. split; [done|]. by apply Hd.
    + by rewrite (tt_skipped _ _ _ Ht Hdisk) in Hb.
    + rewrite Ha. by eexists _, _.
    + rewrite Ha. by eexists _, _.
Qed.

Lemma archive_none r t : tiers_complete r t -> archive_metadata t <> Some None.
Proof.
  intros [_ (p & Hp & _)] Hm. unfold archive_payload, join_rows in Hp. rewrite Hm in Hp. by repeat case_match.
Qed.

Lemma showable_finalized r bank b b' : rq_commitment r = Finalized -> fp_footer (rq_plan r) = false -> chain (rq_slot r) = Some b ->
  showable r bank b' -> b' = b.
Proof. intros Hfin Hfoot Hb [Hs|[_ Hs]]; [congruence|]. specialize (Hs Hfin). congruence. Qed.

Lemma complete_not_internal r t bank found c b bytes : reachable c -> tiers_true r t bank -> joined_true r t -> tiers_complete r t ->
  chain (rq_slot r) = Some b -> reference (rq_plan r) b = Ok bytes -> rq_commitment r = Finalized -> fp_footer (rq_plan r) = false ->
  fst (handle_get_block readers lib config r t found c) <> InternalError.
Proof.
  intros Hc Ht Hj Htc Hb Hr Hfin Hfoot. unfold handle_get_block. case_bool_decide; [congruence|].
  destruct (cached_answer config r found) as [a|] eqn:Hca.
  { unfold cached_answer in Hca. destruct (_ && _); [|done]. destruct (cache_get found _); [by injection Hca as <-|].
    destruct (get_unsupported_transaction_version found _); [by injection Hca as <-|done]. }
  destruct (complete_choice _ _ _ _ Ht Htc Hb) as (p & key & Hch & Hp). rewrite Hch. unfold respond_with_hydrated_block. rewrite Hp. cbn [negb].
  destruct (choice_shows _ _ _ _ _ Ht Hch) as (Hk & b1 & Hb1 & Hok & Hs). destruct key as [k|].
  - rewrite (Hk _ eq_refl) in Hch |- *. destruct (obtained_true _ _ _ _ _ Ht Hj (reachable_true _ Hc) Hch Hp) as [(b' & Hb2 & Hr') _].
    destruct (get_or_try_insert_with _ _ _ c) as [built c']. cbn [fst snd] in Hr'. simplify_eq. by rewrite Hr.
  - rewrite (build_reference _ _ _ _ Hok Hs Hp). destruct (showable_of _ _ _ _ _ Ht Hb1) as (b' & Hb' & ->).
    rewrite (showable_finalized _ _ _ _ Hfin Hfoot Hb Hb'). by rewrite Hr.
Qed.

(** C3: every getBlock answer is right, whatever requests interleaved before, whatever the
    response cache kept, dropped or shared between concurrent requests, whichever tier gave
    the block and however it was hydrated.  A block or a version refusal is the reference
    answer for the chain's block (for a confirmed request, or one that asks for the footer,
    possibly that of the head cache's bank); a slot is reported skipped or not available only
    when it has no block or the archive has no row for it.  And when the tiers that are asked
    have the whole block of a finalized request, the reference's bytes are the answer. *)
Theorem handle_get_block_exact r t bank found c :
  reachable found -> reachable c -> tiers_true r t bank -> joined_true r t ->
  let answer := fst (handle_get_block readers lib config r t found c) in
  answer_true r t bank answer /\
  (forall b bytes, rq_commitment r = Finalized -> fp_footer (rq_plan r) = false -> tiers_complete r t ->
   chain (rq_slot r) = Some b -> reference (rq_plan r) b = Ok bytes -> answer = BlockResult bytes).
Proof.
  intros Hf Hc Ht Hj answer. assert (Htrue : answer_true r t bank answer) by (by apply handle_true; try apply reachable_true).
  split; [done|]. intros b bytes Hfin Hfoot Htc Hb Hr.
  assert (Hb' : forall b', showable r bank b' -> b' = b) by (intros b'; by apply showable_finalized).
  destruct answer as [|bytes'|v| | |] eqn:Ha; cbn [answer_true] in Htrue.
  - congruence.
  - destruct Htrue as (b' & ->%Hb' & Hr'). congruence.
  - destruct Htrue as (b' & ->%Hb' & Hr'). congruence.
  - destruct Htrue as [Hn|[Hm _]]; [congruence|]. by destruct (archive_none _ _ Htc).
  - destruct Htrue as [Hm _]. by destruct (archive_none _ _ Htc).
  - by destruct (complete_not_internal r t bank found c b bytes Hc Ht Hj Htc Hb Hr Hfin Hfoot Ha).
Qed.
End Views.
