(* ===== verification/SlotCache.v ===== *)
(** * SlotCache: the single-flight cache of signature positions

    Models [crates/superbank-rpc/src/clickhouse/cache.rs] and the two loops that use it,
    [get_signature_slot_cached] of [clickhouse/signatures.rs] and
    [get_transaction_single_round_trip] of [clickhouse/transactions.rs].  An operation of the
    cache is one critical section; [step] is one step of the requests that share it.  A
    [Notify] is a number, fresh at each allocation, and the instants are numbers. *)

From S2P Require Import Prelude Text Cursors Sdk Hydration.

Open Scope list_scope.
Open Scope Z_scope.

(** ** The cache *)

Definition SignatureBytes : Type := list Z.
Definition MAX_CACHE_CAPACITY : Z := 1000000.

Inductive Entry := Ready (value : option SignatureSlot) (expires_at : Z) | InFlight (notify : Z).
Inductive CacheStart := Hit (value : option SignatureSlot) | Wait (notify : Z) | Leader (notify : Z).

Record SignatureSlotCache := mkSlotCache {
  ttl_found : Z; ttl_missing : Z; capacity : Z; entries : gmap SignatureBytes Entry;
}.
Definition with_entries (c : SignatureSlotCache) (m : gmap SignatureBytes Entry) : SignatureSlotCache :=
  mkSlotCache (ttl_found c) (ttl_missing c) (capacity c) m.

(** [SignatureSlotCache::new] *)
Definition slot_cache_new (ttl_found ttl_missing capacity : Z) : SignatureSlotCache :=
  mkSlotCache ttl_found ttl_missing (Z.max 1 (Z.min capacity MAX_CACHE_CAPACITY)) ∅.

(** [peek] *)
Definition peek (now : Z) (key : SignatureBytes) (c : SignatureSlotCache) : option (option SignatureSlot) :=
  match entries c !! key with Some (Ready value expires_at) => if now <? expires_at then Some value else None | _ => None end.

(** [get_or_start]; [fresh] is the notification it allocates when it starts a lookup. *)
Definition get_or_start (now fresh : Z) (key : SignatureBytes) (c : SignatureSlotCache) : CacheStart * SignatureSlotCache :=
  let start := (Leader fresh, with_entries c (<[key := InFlight fresh]> (delete key (entries c)))) in
  match entries c !! key with
  | Some (Ready value expires_at) => if now <? expires_at then (Hit value, c) else start
  | Some (InFlight notify) => (Wait notify, c)
  | None => start
  end.

(** [evict_if_needed]; [order] is the order in which the table lists its keys. *)
Definition is_ready (e : Entry) : bool := match e with Ready _ _ => true | InFlight _ => false end.
Definition retained (now : Z) (e : Entry) : bool := match e with Ready _ expires_at => now <? expires_at | InFlight _ => true end.
Definition len (m : gmap SignatureBytes Entry) : Z := Z.of_nat (size m).
Definition ready_keys (order : list SignatureBytes) (m : gmap SignatureBytes Entry) : list SignatureBytes :=
  List.filter (fun k => match m !! k with Some e => is_ready e | None => false end) order.
Fixpoint evict_loop (keys : list SignatureBytes) (over_by : Z) (m : gmap SignatureBytes Entry) : gmap SignatureBytes Entry :=
  match keys with
  | [] => m
  | key :: keys => let m := delete key m in let over_by := sat_sub over_by 1 in if over_by =? 0 then m else evict_loop keys over_by m
  end.
Definition evict_if_needed (now : Z) (order : list SignatureBytes) (cap : Z) (m : gmap SignatureBytes Entry) : gmap SignatureBytes Entry :=
  if len m <=? cap then m
  else
    let m := filter (fun kv => retained now kv.2 = true) m in
    if len m <=? cap then m
    else
      let over_by := len m - cap in
      evict_loop (take (Z.to_nat over_by) (ready_keys order m)) over_by m.

(** [finish_leader]; [finished] is the instant it reads before it takes the lock. *)
Definition ttl_of (value : option SignatureSlot) (c : SignatureSlotCache) : Z := match value with Some _ => ttl_found c | None => ttl_missing c end.
Definition finish_leader (finished now : Z) (order : list SignatureBytes) (key : SignatureBytes) (notify : Z) (value : option SignatureSlot)
    (c : SignatureSlotCache) : SignatureSlotCache :=
  let expires_at := finished + ttl_of value c in
  match entries c !! key with
  | Some (InFlight current) =>
      if current =? notify then with_entries c (evict_if_needed now order (capacity c) (<[key := Ready value expires_at]> (entries c))) else c
  | _ => c
  end.

(** [remove_matching_entry], [remove_in_flight] *)
Definition remove_matching_entry (key : SignatureBytes) (notify : Z) (m : gmap SignatureBytes Entry) : gmap SignatureBytes Entry :=
  match m !! key with Some (InFlight current) => if current =? notify then delete key m else m | _ => m end.
Definition remove_in_flight (key : SignatureBytes) (notify : Z) (c : SignatureSlotCache) : SignatureSlotCache :=
  with_entries c (remove_matching_entry key notify (entries c)).

(** ** The requests that share it *)

(** Which query a request asks when it leads: the position, or the row in one round trip. *)
Inductive Kind := PositionLookup | SingleRoundTrip.
(** What a request has when its loop ends: a position, the row the leader fetched, an error. *)
Inductive Outcome := GotPosition (position : option SignatureSlot) | GotRow (row : option TransactionRow) | LookupFailed.

(** A request: at the head of its loop, waiting for the lock with the instant it has read,
    waiting for another's lookup, asking since an instant, with an answer on the way into the
    cache ([asked] is when the database evaluated the query), removing its entry after a
    failure or a cancellation, waking the waiters, or done. *)
Inductive Task :=
| Looping (kind : Kind) (key : SignatureBytes)
| Locking (kind : Kind) (key : SignatureBytes) (read : Z)
| Waiting (kind : Kind) (key : SignatureBytes) (notify : Z)
| Leading (kind : Kind) (key : SignatureBytes) (notify : Z) (since : Z)
| Finishing (key : SignatureBytes) (notify : Z) (value : option SignatureSlot) (outcome : Outcome) (asked finished : Z)
| Cleaning (key : SignatureBytes) (notify : Z)
| Notifying (notify : Z) (key : SignatureBytes) (outcome : Outcome) (at_ : Z)
| Done (key : SignatureBytes) (outcome : Outcome) (at_ : Z).

(** A lookup that ended in the cache, for the statements about what is served. *)
Record Lookup := mkLookup { lk_key : SignatureBytes; lk_value : option SignatureSlot; lk_asked : Z; lk_finished : Z }.

Record Flights := mkFlights { cache : SignatureSlotCache; requests : gmap Z Task; next_notify : Z; clock : Z; lookups : list Lookup }.
Definition flights_new (c : SignatureSlotCache) (now : Z) : Flights := mkFlights c ∅ 0 now [].

(** [notify_waiters] *)
Definition wake (notify : Z) (t : Task) : Task :=
  match t with Waiting kind key n => if n =? notify then Looping kind key else t | _ => t end.

Section System.
(** What the database answers at an instant: the newest position, and the row of the query
    that joins it with the payload table. *)
Context (position_at : Z -> SignatureBytes -> option SignatureSlot) (row_at : Z -> SignatureBytes -> option TransactionRow).

Definition row_position (row : TransactionRow) : SignatureSlot := mkSigSlot (r_slot row) (r_slot_idx row).
Definition ask (kind : Kind) (at_ : Z) (key : SignatureBytes) : option SignatureSlot * Outcome :=
  match kind with
  | PositionLookup => let value := position_at at_ key in (value, GotPosition value)
  | SingleRoundTrip => let row := row_at at_ key in (row_position <$> row, GotRow row)
  end.

(** After [get_or_start]: the loops return a hit, wait, or lead. *)
Definition started (kind : Kind) (key : SignatureBytes) (read now : Z) (start : CacheStart) : Task :=
  match start with
  | Hit value => Done key (GotPosition value) read
  | Wait notify => Waiting kind key notify
  | Leader notify => Leading kind key notify now
  end.
Definition next_after (start : CacheStart) (next : Z) : Z := match start with Leader _ => next + 1 | _ => next end.

(** What a request does by itself: read the clock, take the lock, receive the answer of its
    query, put it into the cache, remove its entry, wake the waiters. *)
Inductive moves (y : Flights) : Flights -> Prop :=
| step_read i kind key : requests y !! i = Some (Looping kind key) ->
    moves y (mkFlights (cache y) (<[i := Locking kind key (clock y)]> (requests y)) (next_notify y) (clock y) (lookups y))
| step_start i kind key read start c : requests y !! i = Some (Locking kind key read) ->
    get_or_start read (next_notify y) key (cache y) = (start, c) ->
    moves y (mkFlights c (<[i := started kind key read (clock y) start]> (requests y)) (next_after start (next_notify y)) (clock y) (lookups y))
| step_answer i kind key notify since asked value outcome : requests y !! i = Some (Leading kind key notify since) ->
    since <= asked <= clock y -> ask kind asked key = (value, outcome) ->
    moves y (mkFlights (cache y) (<[i := Finishing key notify value outcome asked (clock y)]> (requests y)) (next_notify y) (clock y) (lookups y))
| step_finish i key notify value outcome asked finished order : requests y !! i = Some (Finishing key notify value outcome asked finished) ->
    order ≡ₚ (map_to_list (entries (cache y))).*1 ->
    moves y (mkFlights (finish_leader finished (clock y) order key notify value (cache y)) (<[i := Notifying notify key outcome finished]> (requests y))
      (next_notify y) (clock y) (mkLookup key value asked finished :: lookups y))
| step_clean i key notify : requests y !! i = Some (Cleaning key notify) ->
    moves y (mkFlights (remove_in_flight key notify (cache y)) (<[i := Notifying notify key LookupFailed (clock y)]> (requests y))
      (next_notify y) (clock y) (lookups y))
| step_notify i notify key outcome at_ : requests y !! i = Some (Notifying notify key outcome at_) ->
    moves y (mkFlights (cache y) (<[i := Done key outcome at_]> (wake notify <$> requests y)) (next_notify y) (clock y) (lookups y)).

(** Time passes, a client calls, a request moves; a query fails or its request is dropped while
    it leads; a request that leads nothing is dropped by its client. *)
Inductive step (y : Flights) : Flights -> Prop :=
| step_tick now : clock y <= now -> step y (mkFlights (cache y) (requests y) (next_notify y) now (lookups y))
| step_call i kind key : requests y !! i = None ->
    step y (mkFlights (cache y) (<[i := Looping kind key]> (requests y)) (next_notify y) (clock y) (lookups y))
| step_move y' : moves y y' -> step y y'
| step_fail i kind key notify since : requests y !! i = Some (Leading kind key notify since) ->
    step y (mkFlights (cache y) (<[i := Cleaning key notify]> (requests y)) (next_notify y) (clock y) (lookups y))
| step_cancel i key notify value outcome asked finished : requests y !! i = Some (Finishing key notify value outcome asked finished) ->
    step y (mkFlights (cache y) (<[i := Cleaning key notify]> (requests y)) (next_notify y) (clock y) (lookups y))
| step_drop i t : requests y !! i = Some t -> match t with Looping _ _ | Locking _ _ _ | Waiting _ _ _ => True | _ => False end ->
    step y (mkFlights (cache y) (delete i (requests y)) (next_notify y) (clock y) (lookups y)).
End System.
