(* ===== verification/SlotCacheSound.v ===== *)
(** * SlotCacheSound: one lookup per signature, no waiter forgotten, no stale answer

    The invariant of the requests that share the position cache, and what it gives: at most
    one lookup of a signature is under way, whoever waits is woken whatever fails or is
    cancelled, the table stays bounded, and every answer is one the database gave. *)

From S2P Require Import Prelude Text BTree Cursors Sdk Hydration SlotCache.

Open Scope list_scope.
Open Scope Z_scope.

(** ** Who answers for a notification *)

(** The entry a request has in flight, and the notification it will send. *)
Definition leads (t : Task) : option (SignatureBytes * Z) :=
  match t with
  | Leading _ key n _ | Finishing key n _ _ _ _ | Cleaning key n => Some (key, n)
  | _ => None
  end.
Definition notifies (t : Task) : option Z :=
  match t with
  | Leading _ _ n _ | Finishing _ n _ _ _ _ | Cleaning _ n | Notifying n _ _ _ => Some n
  | _ => None
  end.
Definition waits (t : Task) : option Z := match t with Waiting _ _ n => Some n | _ => None end.

Definition count_ready (m : gmap SignatureBytes Entry) : nat := size (filter (fun kv => is_ready kv.2 = true) m).

Lemma leads_notifies t key n : leads t = Some (key, n) -> notifies t = Some n.
Proof. destruct t; naive_solver. Qed.
Lemma waits_leads t n : waits t = Some n -> leads t = None /\ notifies t = None.
Proof. by destruct t. Qed.

Lemma leads_wake n t : leads (wake n t) = leads t.
Proof. destruct t; cbn; try done. by case_match. Qed.
Lemma notifies_wake n t : notifies (wake n t) = notifies t.
Proof. destruct t; cbn; try done. by case_match. Qed.
Lemma waits_wake n t m : waits (wake n t) = Some m -> waits t = Some m /\ m <> n.
Proof. destruct t; cbn; try done. case_match eqn:E; cbn; [done|]. intros [= ->]. apply Z.eqb_neq in E. done. Qed.

(** ** The cache *)

Lemma evict_loop_lookup keys : forall over m k e, evict_loop keys over m !! k = Some e -> m !! k = Some e.
Proof.
  induction keys as [|key keys IH]; intros over m k e; cbn [evict_loop]; [done|].
  case_match; [|intros H2%IH; revert H2]; rewrite lookup_delete_Some; naive_solver.
Qed.

Lemma evict_loop_keeps keys : forall over m k, k ∉ keys -> evict_loop keys over m !! k = m !! k.
Proof.
  induction keys as [|key keys IH]; intros over m k Hk; cbn [evict_loop]; [done|]. apply not_elem_of_cons in Hk as [Hk Hks].
  case_match; [|rewrite IH by done]; by rewrite lookup_delete_ne.
Qed.

Lemma ready_keys_ready order m k : k ∈ ready_keys order m <-> k ∈ order /\ exists e, m !! k = Some e /\ is_ready e = true.
Proof.
  unfold ready_keys. rewrite elem_of_filter_b. split.
  - intros [H1 H2]. destruct (m !! k) as [e|] eqn:E; [|done]. eauto.
  - intros [H1 (e & -> & H2)]. done.
Qed.

(** Eviction drops ready entries only. *)
Lemma evict_lookup now order cap m k e : evict_if_needed now order cap m !! k = Some e -> m !! k = Some e.
Proof.
  unfold evict_if_needed. case_match; [done|]. case_match; [|intros H1%evict_loop_lookup; revert H1]; rewrite map_lookup_filter_Some; naive_solver.
Qed.
Lemma evict_keeps_flights now order cap m k n : m !! k = Some (InFlight n) -> evict_if_needed now order cap m !! k = Some (InFlight n).
Proof.
  intros Hk. unfold evict_if_needed. assert (Hf : filter (fun kv => retained now kv.2 = true) m !! k = Some (InFlight n)) by (by apply map_lookup_filter_Some).
  case_match; [done|]. case_match; [done|]. rewrite evict_loop_keeps; [done|].
  intros Hin. assert (Hin2 : k ∈ ready_keys order (filter (fun kv => retained now kv.2 = true) m)).
  { by eapply subseteq_take. }
  apply ready_keys_ready in Hin2 as (_ & e & He & Hr). rewrite Hf in He. by simplify_eq.
Qed.

(** ** Bounds *)

Lemma count_ready_delete m k e : m !! k = Some e -> is_ready e = true -> count_ready (delete k m) = (count_ready m - 1)%nat.
Proof.
  intros Hk He. unfold count_ready. rewrite map_filter_delete.
  rewrite map_size_delete_Some; [lia|]. exists e. by apply map_lookup_filter_Some.
Qed.
Lemma count_ready_size m : (count_ready m <= size m)%nat.
Proof. apply map_size_filter. Qed.
Lemma count_ready_filter (P : SignatureBytes * Entry -> Prop) `{!forall x, Decision (P x)} m : (count_ready (filter P m) <= count_ready m)%nat.
Proof.
  unfold count_ready. rewrite map_filter_comm. apply map_size_filter.
Qed.

Lemma evict_loop_count keys : forall over m, NoDup keys -> (forall k, k ∈ keys -> exists e, m !! k = Some e /\ is_ready e = true) -> Z.of_nat (length keys) <= over ->
  (count_ready (evict_loop keys over m) = count_ready m - length keys)%nat.
Proof.
  induction keys as [|key keys IH]; intros over m Hd Hr Hover; cbn [evict_loop length]; [lia|]. apply NoDup_cons in Hd as [Hk Hd].
  destruct (Hr key) as (e & He & Hready); [left|]. pose proof (count_ready_delete _ _ _ He Hready) as Hc.
  cbn [length] in Hover. unfold sat_sub in *. case_match eqn:E.
  - destruct keys; [cbn; lia|]. cbn [length] in *. lia.
  - rewrite (IH _ _ Hd); [lia| |lia]. intros k Hin. destruct (Hr k) as (e' & ? & ?); [by right|]. exists e'. rewrite lookup_delete_ne by congruence. done.
Qed.

Lemma ready_keys_length order m : (forall k, is_Some (m !! k) -> k ∈ order) -> (count_ready m <= length (ready_keys order m))%nat.
Proof.
  intros Hall. unfold count_ready. rewrite <- length_map_to_list, <- (length_fmap fst).
  apply submseteq_length, NoDup_submseteq; [apply NoDup_fst_map_to_list|].
  intros k ([k' e] & -> & Hin)%list_elem_of_fmap. apply elem_of_map_to_list, map_lookup_filter_Some in Hin as [Hk Hr]. cbn in *.
  apply ready_keys_ready. split; [apply Hall|]; eauto.
Qed.

Lemma evict_count now order cap m : 0 <= cap -> NoDup order -> (forall k, is_Some (m !! k) -> k ∈ order) ->
  Z.of_nat (count_ready (evict_if_needed now order cap m)) <= cap.
Proof.
  intros Hcap Hd Hall. unfold evict_if_needed, len. case_match eqn:E1; [pose proof (count_ready_size m); lia|].
  set (m' := filter _ m). case_match eqn:E2; [pose proof (count_ready_size m'); lia|].
  assert (Hall' : forall k, is_Some (m' !! k) -> k ∈ order).
  { intros k [e He]. apply Hall. apply map_lookup_filter_Some in He as [He _]. eauto. }
  pose proof (ready_keys_length _ _ Hall') as Hlen. pose proof (count_ready_size m') as Hsize.
  set (over := Z.of_nat (size m') - cap) in *. rewrite evict_loop_count.
  - rewrite length_take. lia.
  - eapply sublist_NoDup; [|apply sublist_take]. by apply NoDup_ListNoDup, List.NoDup_filter, NoDup_ListNoDup.
  - intros k Hk. apply subseteq_take, ready_keys_ready in Hk as [_ Hk]. done.
  - rewrite length_take. lia.
Qed.

(** ** The invariant *)

Section Invariant.
Context (position_at : Z -> SignatureBytes -> option SignatureSlot) (row_at : Z -> SignatureBytes -> option TransactionRow).

(** A lookup in the log is an answer of the database. *)
Definition lookup_true (l : Lookup) : Prop :=
  exists kind, fst (ask position_at row_at kind (lk_asked l) (lk_key l)) = lk_value l /\ lk_asked l <= lk_finished l.

(** What a request returns: its own lookup, or one no older than its time to live. *)
Definition serves (y : Flights) (key : SignatureBytes) (outcome : Outcome) (at_ : Z) : Prop :=
  match outcome with
  | GotPosition value => exists l, l ∈ lookups y /\ lk_key l = key /\ lk_value l = value /\ at_ <= lk_finished l + Z.max 0 (ttl_of value (cache y))
  | GotRow row => exists l, l ∈ lookups y /\ lk_key l = key /\ lk_finished l = at_ /\ lk_asked l <= at_ /\ row = row_at (lk_asked l) key
  | LookupFailed => True
  end.

Definition task_true (y : Flights) (t : Task) : Prop :=
  match t with
  | Locking _ _ read => read <= clock y
  | Leading _ _ _ since => since <= clock y
  | Finishing key _ value outcome asked finished =>
      asked <= finished <= clock y /\ exists kind, ask position_at row_at kind asked key = (value, outcome)
  | Notifying _ key outcome at_ | Done key outcome at_ => at_ <= clock y /\ serves y key outcome at_
  | _ => True
  end.

Record flights_ok (y : Flights) : Prop := {
  fo_led : forall i t key n, requests y !! i = Some t -> leads t = Some (key, n) -> entries (cache y) !! key = Some (InFlight n);
  fo_leader : forall key n, entries (cache y) !! key = Some (InFlight n) -> exists i t, requests y !! i = Some t /\ leads t = Some (key, n);
  fo_unique : forall i j t u n, requests y !! i = Some t -> requests y !! j = Some u -> notifies t = Some n -> notifies u = Some n -> i = j;
  fo_woken : forall i t n, requests y !! i = Some t -> waits t = Some n -> exists j u, requests y !! j = Some u /\ notifies u = Some n;
  fo_fresh : forall i t n, requests y !! i = Some t -> notifies t = Some n -> n < next_notify y;
  fo_ready : forall key value e, entries (cache y) !! key = Some (Ready value e) ->
    exists l, l ∈ lookups y /\ lk_key l = key /\ lk_value l = value /\ e = lk_finished l + ttl_of value (cache y);
  fo_log : forall l, l ∈ lookups y -> lookup_true l;
  fo_tasks : forall i t, requests y !! i = Some t -> task_true y t;
  fo_bound : Z.of_nat (count_ready (entries (cache y))) <= capacity (cache y);
  fo_capacity : 0 <= capacity (cache y);
}.

Lemma flights_ok_new found missing cap now : flights_ok (flights_new (slot_cache_new found missing cap) now).
Proof.
  split; cbn [flights_new slot_cache_new cache requests entries lookups capacity next_notify]; intros; try (by simplify_map_eq); try (by set_solver).
  - unfold count_ready. rewrite map_filter_empty, map_size_empty. lia.
  - lia.
Qed.

(** A request changes and keeps what it leads and whom it will notify. *)
Lemma ok_swap y i t' : flights_ok y -> requests y !! i ≫= leads = leads t' -> requests y !! i ≫= notifies = notifies t' ->
  (forall n, waits t' = Some n -> exists j u, requests y !! j = Some u /\ notifies u = Some n) -> task_true y t' ->
  flights_ok (mkFlights (cache y) (<[i := t']> (requests y)) (next_notify y) (clock y) (lookups y)).
Proof.
  intros Hok Hl Hn Hw Ht. destruct Hok as [Hled Hleader Huniq Hwoken Hfresh Hready Hlog Htasks Hbound Hcap].
  assert (Hback : forall j u n, <[i := t']> (requests y) !! j = Some u -> notifies u = Some n -> exists u', requests y !! j = Some u' /\ notifies u' = Some n).
  { intros j u n. rewrite lookup_insert_Some. intros [[<- <-]|[? ?]] Hu; [|eauto]. rewrite Hu in Hn. destruct (requests y !! i); [eauto|done]. }
  assert (Hforth : forall j u n, requests y !! j = Some u -> notifies u = Some n -> exists u', <[i := t']> (requests y) !! j = Some u' /\ notifies u' = Some n).
  { intros j u n Hj Hu. destruct (decide (i = j)) as [<-|]; [|exists u; by rewrite lookup_insert_ne].
    exists t'. rewrite lookup_insert_eq. rewrite Hj in Hn. cbn in Hn. split; congruence. }
  split; cbn [cache requests next_notify clock lookups]; try done.
  - intros j u key n. rewrite lookup_insert_Some. intros [[<- <-]|[? ?]] Hu; [|eauto]. rewrite Hu in Hl. destruct (requests y !! i) eqn:E; [eauto|done].
  - intros key n Hk. destruct (Hleader _ _ Hk) as (j & u & Hj & Hu). destruct (decide (i = j)) as [<-|]; [|exists j, u; by rewrite lookup_insert_ne].
    exists i, t'. rewrite lookup_insert_eq. rewrite Hj in Hl. cbn in Hl. split; congruence.
  - intros j k u v n Hj Hk Hu Hv. destruct (Hback _ _ _ Hj Hu) as (? & ? & ?), (Hback _ _ _ Hk Hv) as (? & ? & ?). eauto.
  - intros j u n Hj Hu. assert (exists k v, requests y !! k = Some v /\ notifies v = Some n) as (k & v & Hk & Hv).
    { apply lookup_insert_Some in Hj as [[<- <-]|[? ?]]; eauto. }
    destruct (Hforth _ _ _ Hk Hv) as (? & ? & ?). eauto.
  - intros j u n Hj Hu. destruct (Hback _ _ _ Hj Hu) as (? & ? & ?). eauto.
  - intros j u. rewrite lookup_insert_Some. intros [[<- <-]|[? ?]]; [done|]. by apply (Htasks j).
Qed.

Lemma ok_tick y now : flights_ok y -> clock y <= now -> flights_ok (mkFlights (cache y) (requests y) (next_notify y) now (lookups y)).
Proof.
  intros [] Hle. split; cbn; try done. intros i t Hi. pose proof (fo_tasks0 _ _ Hi) as Ht. destruct t; cbn in *; try done; try lia.
  - destruct Ht as [? ?]. split; [lia|done].
  - destruct Ht as [? ?]. split; [lia|done].
  - destruct Ht as [? ?]. split; [lia|done].
Qed.

Lemma ok_drop y i t : flights_ok y -> requests y !! i = Some t -> notifies t = None -> leads t = None ->
  flights_ok (mkFlights (cache y) (delete i (requests y)) (next_notify y) (clock y) (lookups y)).
Proof.
  intros [Hled Hleader Huniq Hwoken Hfresh Hready Hlog Htasks Hbound Hcap] Hi Hn Hl.
  split; cbn [cache requests next_notify clock lookups]; try done.
  - intros j u key n [_ Hj]%lookup_delete_Some. eauto.
  - intros key n Hk. destruct (Hleader _ _ Hk) as (j & u & Hj & Hu). exists j, u. rewrite lookup_delete_ne by congruence. done.
  - intros j k u v n [_ Hj]%lookup_delete_Some [_ Hk]%lookup_delete_Some. eauto.
  - intros j u n [_ Hj]%lookup_delete_Some Hu. destruct (Hwoken _ _ _ Hj Hu) as (k & v & Hk & Hv). exists k, v. rewrite lookup_delete_ne by congruence. done.
  - intros j u n [_ Hj]%lookup_delete_Some. eauto.
  - intros j u [_ Hj]%lookup_delete_Some. by apply (Htasks j).
Qed.

Lemma ok_lead y i kind key read : flights_ok y -> requests y !! i = Some (Locking kind key read) -> (forall n, entries (cache y) !! key <> Some (InFlight n)) ->
  flights_ok (mkFlights (with_entries (cache y) (<[key := InFlight (next_notify y)]> (delete key (entries (cache y)))))
    (<[i := Leading kind key (next_notify y) (clock y)]> (requests y)) (next_notify y + 1) (clock y) (lookups y)).
Proof.
  intros [Hled Hleader Huniq Hwoken Hfresh Hready Hlog Htasks Hbound Hcap] Hi Hkey. rewrite insert_delete_eq.
  assert (Hne : forall j u k n, requests y !! j = Some u -> leads u = Some (k, n) -> k <> key /\ j <> i).
  { intros j u k n Hj Hu. split; [intros ->; by destruct (Hkey n); eapply Hled|]. intros ->. rewrite Hi in Hj. by simplify_eq. }
  assert (Hni : forall j u n, requests y !! j = Some u -> notifies u = Some n -> j <> i).
  { intros j u n Hj Hu ->. rewrite Hi in Hj. by simplify_eq. }
  split; cbn [cache requests next_notify clock lookups with_entries entries capacity]; try done.
  - intros j u k n. rewrite lookup_insert_Some. intros [[<- <-]|[? Hj]] Hu; cbn in *; [simplify_eq; by rewrite lookup_insert_eq|].
    destruct (Hne _ _ _ _ Hj Hu). rewrite lookup_insert_ne by done. eauto.
  - intros k n. rewrite lookup_insert_Some. intros [[<- [= <-]]|[? Hk]]; [exists i; eexists; rewrite lookup_insert_eq; split; reflexivity|].
    destruct (Hleader _ _ Hk) as (j & u & Hj & Hu). destruct (Hne _ _ _ _ Hj Hu). exists j, u. by rewrite lookup_insert_ne.
  - intros j k u v n. rewrite !lookup_insert_Some. intros [[<- <-]|[? Hj]] [[<- <-]|[? Hk]] Hu Hv; cbn in *; simplify_eq; try done.
    + pose proof (Hfresh _ _ _ Hk Hv). lia.
    + pose proof (Hfresh _ _ _ Hj Hu). lia.
    + eauto.
  - intros j u n. rewrite lookup_insert_Some. intros [[<- <-]|[? Hj]] Hu; [done|]. destruct (Hwoken _ _ _ Hj Hu) as (k & v & Hk & Hv).
    exists k, v. rewrite lookup_insert_ne by (symmetry; by eapply Hni). done.
  - intros j u n. rewrite lookup_insert_Some. intros [[<- <-]|[? Hj]] Hu; cbn in *; [simplify_eq; lia|]. pose proof (Hfresh _ _ _ Hj Hu). lia.
  - intros k v e. rewrite lookup_insert_Some. intros [[<- ?]|[? Hk]]; [done|]. by apply Hready.
  - intros j u. rewrite lookup_insert_Some. intros [[<- <-]|[? Hj]]; [cbn; lia|]. pose proof (Htasks _ _ Hj). by destruct u.
  - unfold count_ready in *. rewrite map_filter_insert_False by done. rewrite map_filter_delete.
    etrans; [|exact Hbound]. apply inj_le, map_subseteq_size, delete_subseteq.
Qed.

(** What was served stays served: the log grows and the times to live are fixed. *)
Lemma task_true_mono y y' t : task_true y t -> clock y = clock y' -> lookups y ⊆ lookups y' -> (forall v, ttl_of v (cache y) = ttl_of v (cache y')) ->
  task_true y' t.
Proof.
  intros Ht Hc Hl Httl.
  assert (Hs : forall key outcome at_, at_ <= clock y /\ serves y key outcome at_ -> at_ <= clock y' /\ serves y' key outcome at_).
  { intros key outcome at_ [Hat H]. split; [lia|]. destruct outcome as [v|row|]; cbn in *; [| |done].
    - destruct H as (l & Hl' & ? & ? & ?). exists l. rewrite <- Httl. split_and!; try done. by apply Hl.
    - destruct H as (l & Hl' & ?). exists l. split; [by apply Hl|done]. }
  destruct t; cbn in *; rewrite <- ?Hc; try done; rewrite ?Hc; by apply Hs.
Qed.

(** The leader of [key] leaves: its entry is gone or ready, the others in flight are untouched. *)
Lemma ok_land y i t key n outcome at_ m l : flights_ok y -> requests y !! i = Some t -> leads t = Some (key, n) ->
  (forall k u, m !! k = Some (InFlight u) <-> k <> key /\ entries (cache y) !! k = Some (InFlight u)) ->
  (forall k v e, m !! k = Some (Ready v e) -> entries (cache y) !! k = Some (Ready v e) \/
     exists x, x ∈ l /\ lk_key x = k /\ lk_value x = v /\ e = lk_finished x + ttl_of v (cache y)) ->
  (forall x, x ∈ l -> lookup_true x) -> Z.of_nat (count_ready m) <= capacity (cache y) ->
  let y' := mkFlights (with_entries (cache y) m) (<[i := Notifying n key outcome at_]> (requests y)) (next_notify y) (clock y) (l ++ lookups y) in
  at_ <= clock y -> serves y' key outcome at_ -> flights_ok y'.
Proof.
  intros [Hled Hleader Huniq Hwoken Hfresh Hready Hlog Htasks Hbound Hcap] Hi Hlead Hm Hr Hl Hcount y' Hat Hserved.
  pose proof (leads_notifies _ _ _ Hlead) as Hnot.
  assert (Hback : forall j u x, requests y' !! j = Some u -> notifies u = Some x -> exists u', requests y !! j = Some u' /\ notifies u' = Some x).
  { intros j u x. cbn. rewrite lookup_insert_Some. intros [[<- <-]|[? ?]] Hu; [|eauto]. exists t. cbn in Hu. by simplify_eq. }
  assert (Hforth : forall j u x, requests y !! j = Some u -> notifies u = Some x -> exists u', requests y' !! j = Some u' /\ notifies u' = Some x).
  { intros j u x Hj Hu. cbn. destruct (decide (i = j)) as [<-|]; [|exists u; by rewrite lookup_insert_ne].
    eexists. rewrite lookup_insert_eq. split; [done|]. cbn. congruence. }
  split; cbn [cache requests next_notify clock lookups with_entries entries capacity]; try done.
  - intros j u k x. cbn. rewrite lookup_insert_Some. intros [[<- <-]|[Hne Hj]] Hu; [done|]. apply Hm. split; [|eauto]. intros ->.
    pose proof (Hled _ _ _ _ Hj Hu) as H1. pose proof (Hled _ _ _ _ Hi Hlead) as H2. rewrite H1 in H2. simplify_eq.
    by destruct Hne; apply (Huniq i j t u n Hi Hj Hnot), (leads_notifies _ _ _ Hu).
  - intros k x [Hne Hk]%Hm. destruct (Hleader _ _ Hk) as (j & u & Hj & Hu). exists j, u. cbn. rewrite lookup_insert_ne; [done|]. intros ->.
    rewrite Hi in Hj. by simplify_eq.
  - intros j k u v x Hj Hk Hu Hv. destruct (Hback _ _ _ Hj Hu) as (? & ? & ?), (Hback _ _ _ Hk Hv) as (? & ? & ?). eauto.
  - intros j u x Hj Hu. cbn in Hj. apply lookup_insert_Some in Hj as [[<- <-]|[? Hj]]; [done|]. destruct (Hwoken _ _ _ Hj Hu) as (k & v & Hk & Hv).
    destruct (Hforth _ _ _ Hk Hv) as (? & ? & ?). eauto.
  - intros j u x Hj Hu. destruct (Hback _ _ _ Hj Hu) as (? & ? & ?). eauto.
  - intros k v e Hk. change (ttl_of v _) with (ttl_of v (cache y)). destruct (Hr _ _ _ Hk) as [Hold|(x & ? & ?)].
    + destruct (Hready _ _ _ Hold) as (x & ? & ?). exists x. split; [set_solver|done].
    + exists x. split; [set_solver|done].
  - intros x [Hx|Hx]%elem_of_app; [by apply Hl|by apply Hlog].
  - intros j u. cbn. rewrite lookup_insert_Some. intros [[<- <-]|[? Hj]]; [done|].
    eapply task_true_mono; [exact (Htasks _ _ Hj)|done|cbn; set_solver|done].
Qed.

Lemma ok_clean y i key n : flights_ok y -> requests y !! i = Some (Cleaning key n) ->
  flights_ok (mkFlights (remove_in_flight key n (cache y)) (<[i := Notifying n key LookupFailed (clock y)]> (requests y)) (next_notify y) (clock y) (lookups y)).
Proof.
  intros Hok Hi. pose proof (fo_led _ Hok _ _ key n Hi eq_refl) as Hled. unfold remove_in_flight, remove_matching_entry. rewrite Hled, Z.eqb_refl.
  apply (ok_land y i _ key n _ _ _ [] Hok Hi eq_refl); try done.
  - intros k u. rewrite lookup_delete_Some. naive_solver.
  - intros k v e. rewrite lookup_delete_Some. naive_solver.
  - intros x. set_solver.
  - etrans; [|apply (fo_bound _ Hok)]. unfold count_ready. rewrite map_filter_delete. apply inj_le, map_subseteq_size, delete_subseteq.
Qed.

Lemma ok_finish y i key n value outcome asked finished order : flights_ok y ->
  requests y !! i = Some (Finishing key n value outcome asked finished) -> order ≡ₚ (map_to_list (entries (cache y))).*1 ->
  flights_ok (mkFlights (finish_leader finished (clock y) order key n value (cache y)) (<[i := Notifying n key outcome finished]> (requests y))
    (next_notify y) (clock y) (mkLookup key value asked finished :: lookups y)).
Proof.
  intros Hok Hi Horder. pose proof (fo_led _ Hok _ _ key n Hi eq_refl) as Hled. pose proof (fo_tasks _ Hok _ _ Hi) as (Hasked & kind & Hask).
  unfold finish_leader. rewrite Hled, Z.eqb_refl.
  apply (ok_land y i _ key n outcome finished _ [mkLookup key value asked finished] Hok Hi eq_refl).
  - intros k u. split.
    + intros [[<- ?]|[? ?]]%evict_lookup%lookup_insert_Some; [done|auto].
    + intros [? ?]. apply evict_keeps_flights. by rewrite lookup_insert_ne.
  - intros k v e [[<- [= <- <-]]|[? ?]]%evict_lookup%lookup_insert_Some; [|by left]. right. eexists. split; [by left|done].
  - intros x ->%list_elem_of_singleton. exists kind. cbn. rewrite Hask. split; [done|lia].
  - apply evict_count; [apply (fo_capacity _ Hok)| |].
    + rewrite Horder. apply NoDup_fst_map_to_list.
    + intros k Hk. rewrite Horder. apply list_elem_of_fmap. destruct Hk as [e Hk]. apply lookup_insert_Some in Hk as [[<- _]|[_ Hk]].
      * exists (key, InFlight n). split; [done|]. by apply elem_of_map_to_list.
      * exists (k, e). split; [done|]. by apply elem_of_map_to_list.
  - lia.
  - destruct kind; cbn in Hask; simplify_eq; cbn.
    + eexists. split; [by left|]. cbn. split_and!; try done. lia.
    + eexists. split; [by left|]. cbn. split_and!; try done. lia.
Qed.

Lemma ok_notify y i n key outcome at_ : flights_ok y -> requests y !! i = Some (Notifying n key outcome at_) ->
  flights_ok (mkFlights (cache y) (<[i := Done key outcome at_]> (wake n <$> requests y)) (next_notify y) (clock y) (lookups y)).
Proof.
  intros [Hled Hleader Huniq Hwoken Hfresh Hready Hlog Htasks Hbound Hcap] Hi.
  assert (Hback : forall j u, <[i := Done key outcome at_]> (wake n <$> requests y) !! j = Some u ->
    j = i /\ u = Done key outcome at_ \/ j <> i /\ exists u', requests y !! j = Some u' /\ u = wake n u').
  { intros j u. rewrite lookup_insert_Some, lookup_fmap, fmap_Some. naive_solver. }
  assert (Hforth : forall j u, j <> i -> requests y !! j = Some u -> <[i := Done key outcome at_]> (wake n <$> requests y) !! j = Some (wake n u)).
  { intros j u Hne Hj. by rewrite lookup_insert_ne, lookup_fmap, Hj. }
  split; cbn [cache requests next_notify clock lookups]; try done.
  - intros j u k x [[-> ->]|(? & u' & Hj & ->)]%Hback; [done|]. rewrite leads_wake. eauto.
  - intros k x Hk. destruct (Hleader _ _ Hk) as (j & u & Hj & Hu). exists j, (wake n u). rewrite leads_wake. split; [|done].
    apply Hforth; [|done]. intros ->. rewrite Hi in Hj. by simplify_eq.
  - intros j k u v x [[-> ->]|(? & u' & Hj & ->)]%Hback [[-> ->]|(? & v' & Hk & ->)]%Hback; try done. rewrite !notifies_wake. eauto.
  - intros j u x [[-> ->]|(Hne & u' & Hj & ->)]%Hback; [done|]. intros [Hw Hx]%waits_wake. destruct (Hwoken _ _ _ Hj Hw) as (k & v & Hk & Hv).
    exists k, (wake n v). rewrite notifies_wake. split; [|done]. apply Hforth; [|done]. intros ->. rewrite Hi in Hk. injection Hk as <-. cbn in Hv. congruence.
  - intros j u x [[-> ->]|(? & u' & Hj & ->)]%Hback; [done|]. rewrite notifies_wake. eauto.
  - intros j u [[-> ->]|(? & u' & Hj & ->)]%Hback; [apply (Htasks _ _ Hi)|]. pose proof (Htasks _ _ Hj). destruct u'; cbn in *; try done. by case_match.
Qed.

Lemma ok_step y y' : flights_ok y -> step position_at row_at y y' -> flights_ok y'.
Proof.
  intros Hok Hs. destruct Hs as [now Hnow|i kind key Hi|y' [i kind key Hi|i kind key read start c Hi Hs|i kind key n since asked v o Hi Hle Ha
    |i key n v o asked finished order Hi Ho|i key n Hi|i n key o at_ Hi]|i kind key n since Hi|i key n v o asked finished Hi|i t Hi Ht].
  - by apply ok_tick.
  - apply ok_swap; rewrite ?Hi; done.
  - apply ok_swap; rewrite ?Hi; try done. cbn. lia.
  - unfold get_or_start in Hs. destruct (entries (cache y) !! key) as [[v e|n]|] eqn:E; [destruct (read <? e) eqn:El| |]; simplify_eq; cbn [started next_after].
    + apply ok_swap; rewrite ?Hi; try done. pose proof (fo_tasks _ Hok _ _ Hi) as Hread. cbn in *. split; [done|].
      destruct (fo_ready _ Hok _ _ _ E) as (l & ? & ? & ? & ->). exists l. split_and!; try done. lia.
    + eapply ok_lead; [done|exact Hi|]. intros ?. by rewrite E.
    + apply ok_swap; rewrite ?Hi; try done. intros x [= <-]. destruct (fo_leader _ Hok _ _ E) as (j & u & Hj & Hu%leads_notifies). eauto.
    + eapply ok_lead; [done|exact Hi|]. intros ?. by rewrite E.
  - apply ok_swap; rewrite ?Hi; try done. cbn. split; [lia|eauto].
  - by eapply ok_finish.
  - by apply ok_clean.
  - by apply ok_notify.
  - apply ok_swap; rewrite ?Hi; done.
  - apply ok_swap; rewrite ?Hi; done.
  - eapply ok_drop; [done|exact Hi|by destruct t|by destruct t].
Qed.

Lemma ok_run y y' : flights_ok y -> rtc (step position_at row_at) y y' -> flights_ok y'.
Proof. intros Hok Hrun. induction Hrun as [|y y1 y' Hs _ IH]; [done|]. by apply IH, (ok_step y). Qed.
End Invariant.

(** ** Every request returns

    The steps of the requests alone, without new requests and without time passing. *)

Definition quiet (position_at : Z -> SignatureBytes -> option SignatureSlot) (row_at : Z -> SignatureBytes -> option TransactionRow) (y y' : Flights) : Prop :=
  step position_at row_at y y' /\ y' <> y /\ clock y' = clock y /\ dom (requests y') ⊆ dom (requests y).

Definition unfinished (t : Task) : nat := match t with Done _ _ _ => 0 | _ => 1 end.
Definition task_rank (t : Task) : nat :=
  match t with
  | Looping _ _ => 6 | Locking _ _ _ => 5 | Leading _ _ _ _ => 4 | Finishing _ _ _ _ _ _ => 3 | Cleaning _ _ => 2 | Notifying _ _ _ _ => 1
  | Waiting _ _ _ | Done _ _ _ => 0
  end.
Definition total (f : Task -> nat) (m : gmap Z Task) : nat := map_fold (fun _ t sum => (f t + sum)%nat) 0%nat m.
Definition work (y : Flights) : nat := (total unfinished (requests y) * (6 * size (requests y) + 1) + total task_rank (requests y))%nat.

Lemma total_delete f m i t : m !! i = Some t -> total f m = (f t + total f (delete i m))%nat.
Proof. intros Hi. unfold total. apply (map_fold_delete_L (fun _ t sum => (f t + sum)%nat) 0%nat i t m); [|done]. intros. lia. Qed.
Lemma total_insert f m i t : m !! i = None -> total f (<[i := t]> m) = (f t + total f m)%nat.
Proof. intros Hi. rewrite (total_delete f _ i t) by apply lookup_insert_eq. by rewrite delete_insert_id. Qed.
Lemma total_update f m i t t' : m !! i = Some t -> (total f (<[i := t']> m) + f t = total f m + f t')%nat.
Proof.
  intros Hi. rewrite (total_delete f _ i t' (lookup_insert_eq _ _ _)), (total_delete f m i t Hi), delete_insert_eq. lia.
Qed.
Lemma total_wake f n m : (forall t, f (wake n t) = f t) -> total f (wake n <$> m) = total f m.
Proof.
  intros Hf. induction m as [|i t m Hi IH] using map_ind; [by rewrite fmap_empty|].
  rewrite fmap_insert, !total_insert by (rewrite ?lookup_fmap, ?Hi; done). by rewrite IH, Hf.
Qed.
Lemma total_rank_le m : (total task_rank m <= 6 * size m)%nat.
Proof.
  induction m as [|i t m Hi IH] using map_ind; [unfold total; rewrite map_fold_empty; lia|].
  rewrite total_insert, map_size_insert_None by done. destruct t; cbn [task_rank]; lia.
Qed.

(** A request that moves on, and the one whose notification wakes the others. *)
Lemma work_move y y' i t t' : requests y !! i = Some t -> requests y' = <[i := t']> (requests y) -> (unfinished t' <= unfinished t)%nat -> (task_rank t' < task_rank t)%nat ->
  (work y' < work y)%nat.
Proof.
  intros Hi Hr Hu Hrank. unfold work. rewrite Hr, map_size_insert_Some by eauto.
  pose proof (total_update unfinished _ _ _ t' Hi). pose proof (total_update task_rank _ _ _ t' Hi). nia.
Qed.
Lemma work_notify y y' i t n t' : requests y !! i = Some t -> requests y' = <[i := t']> (wake n <$> requests y) -> unfinished (wake n t) = 1%nat -> unfinished t' = 0%nat ->
  (work y' < work y)%nat.
Proof.
  intros Hi Hr Hu Hu'. unfold work. rewrite Hr. assert (Hi' : (wake n <$> requests y) !! i = Some (wake n t)) by (by rewrite lookup_fmap, Hi).
  rewrite map_size_insert_Some, map_size_fmap by eauto. pose proof (total_update unfinished _ _ _ t' Hi') as H1.
  rewrite total_wake in H1; [|intros []; cbn; try done; by case_match].
  pose proof (total_rank_le (<[i := t']> (wake n <$> requests y))) as H2. rewrite map_size_insert_Some, map_size_fmap in H2 by eauto. nia.
Qed.
Lemma work_drop y y' i t : requests y !! i = Some t -> requests y' = delete i (requests y) -> unfinished t = 1%nat -> (work y' < work y)%nat.
Proof.
  intros Hi Hr Hu. unfold work. rewrite Hr, map_size_delete_Some by eauto. rewrite (total_delete unfinished _ _ _ Hi), (total_delete task_rank _ _ _ Hi). nia.
Qed.

Section Live.
Context (position_at : Z -> SignatureBytes -> option SignatureSlot) (row_at : Z -> SignatureBytes -> option TransactionRow).

Lemma quiet_work y y' : quiet position_at row_at y y' -> (work y' < work y)%nat.
Proof.
  intros (Hs & Hne & Hclock & Hdom). destruct Hs as [now Hnow|i kind key Hi|y' [i kind key Hi|i kind key read start c Hi Hs|i kind key n since asked v o Hi Hle Ha
    |i key n v o asked finished order Hi Ho|i key n Hi|i n key o at_ Hi]|i kind key n since Hi|i key n v o asked finished Hi|i t Hi Ht];
    cbn [requests clock] in *.
  - subst now. by destruct Hne, y.
  - rewrite dom_insert in Hdom. apply not_elem_of_dom in Hi. set_solver.
  - eapply work_move; [exact Hi|done|cbn; lia..].
  - eapply work_move; [exact Hi|done|destruct start; cbn; lia..].
  - eapply work_move; [exact Hi|done|cbn; lia..].
  - eapply work_move; [exact Hi|done|cbn; lia..].
  - eapply work_move; [exact Hi|done|cbn; lia..].
  - by eapply work_notify.
  - eapply work_move; [exact Hi|done|cbn; lia..].
  - eapply work_move; [exact Hi|done|cbn; lia..].
  - eapply work_drop; [exact Hi|done|by destruct t].
Qed.

Lemma quiet_bounded k y y' : nsteps (quiet position_at row_at) k y y' -> (k + work y' <= work y)%nat.
Proof. induction 1 as [|k y y1 y' Hq _ IH]; [lia|]. apply quiet_work in Hq. lia. Qed.

(** A request that has not returned waits for one that can move. *)
Lemma flights_move y i t : flights_ok position_at row_at y -> requests y !! i = Some t -> unfinished t = 1%nat -> exists y', moves position_at row_at y y'.
Proof.
  intros Hok. revert i t.
  assert (Hmove : forall i t n, requests y !! i = Some t -> notifies t = Some n -> exists y', moves position_at row_at y y').
  { intros i t n Hi Hn. destruct t as [| | |kind key n' since|key n' v o asked finished|key n'|n' key o at_|]; try done; eexists.
    - pose proof (fo_tasks _ _ _ Hok _ _ Hi) as Hle. cbn in Hle. eapply step_answer; [exact Hi| |apply surjective_pairing]. split; [reflexivity|exact Hle].
    - eapply step_finish; [exact Hi|reflexivity].
    - eapply step_clean; exact Hi.
    - eapply step_notify; exact Hi. }
  intros i t Hi Hu. destruct t as [kind key|kind key read|kind key n| | | | |]; try done; try (by eapply Hmove).
  - eexists. by eapply step_read.
  - eexists. eapply step_start; [exact Hi|apply surjective_pairing].
  - destruct (fo_woken _ _ _ Hok _ _ _ Hi eq_refl) as (j & u & Hj & Hv). by eapply Hmove.
Qed.

Context (found missing cap start_time : Z).
Abbreviation start := (flights_new (slot_cache_new found missing cap) start_time).
Abbreviation reaches := (rtc (step position_at row_at) start).

Lemma reaches_ok y : reaches y -> flights_ok position_at row_at y.
Proof. apply ok_run, flights_ok_new. Qed.

(** The parameters of the cache are fixed. *)
Lemma reaches_settings y : reaches y -> ttl_found (cache y) = found /\ ttl_missing (cache y) = missing /\ capacity (cache y) = Z.max 1 (Z.min cap MAX_CACHE_CAPACITY).
Proof.
  revert y. apply rtc_ind_r; [done|]. intros y y' _ Hs IH. destruct Hs as [| |y' Hm| | |]; [done|done| |done..]. destruct Hm; cbn [cache]; try done.
  - unfold get_or_start in *. repeat case_match; by simplify_eq.
  - unfold finish_leader. by repeat case_match.
Qed.

(** C18: Single flight, and nobody waits for ever.  In every reachable state of the position
    cache at most one request looks a signature up.  The requests under way take at most [work]
    more steps, in whatever order they move and even when lookups fail and requests are
    dropped; and when no request can move any more ([moves]: drops and failures do not count)
    every request is done, so no wake-up is lost. *)
Theorem slot_cache_flights y : reaches y ->
  (forall i j t u key n m, requests y !! i = Some t -> requests y !! j = Some u -> leads t = Some (key, n) -> leads u = Some (key, m) -> i = j) /\
  (forall k y', nsteps (quiet position_at row_at) k y y' -> (k <= work y)%nat) /\
  ((forall y', ~ moves position_at row_at y y') -> forall i t, requests y !! i = Some t -> exists key outcome at_, t = Done key outcome at_).
Proof.
  intros Hy%reaches_ok. split_and!.
  - intros i j t u key n m Hi Hj Ht Hu. pose proof (fo_led _ _ _ Hy _ _ _ _ Hi Ht) as H1. rewrite (fo_led _ _ _ Hy _ _ _ _ Hj Hu) in H1.
    injection H1 as ->. eapply (fo_unique _ _ _ Hy); [exact Hi|exact Hj|by eapply leads_notifies..].
  - intros k y' Hk. pose proof (quiet_bounded _ _ _ Hk). lia.
  - intros Hstuck i t Hi. destruct t; try (destruct (flights_move _ _ _ Hy Hi eq_refl) as [y' Hq]; by destruct (Hstuck y')). eauto.
Qed.

(** What a request returned: the answer of a lookup of the log, which ended in the cache no
    longer than its time to live before the request read the clock, or the row of its own
    query. *)
Definition answered (log : list Lookup) (key : SignatureBytes) (outcome : Outcome) (at_ : Z) : Prop :=
  match outcome with
  | GotPosition value => exists l kind, l ∈ log /\ lk_key l = key /\ lk_value l = value /\ fst (ask position_at row_at kind (lk_asked l) key) = value /\
      lk_asked l <= lk_finished l /\ at_ <= lk_finished l + Z.max 0 (match value with Some _ => found | None => missing end)
  | GotRow row => exists l, l ∈ log /\ lk_key l = key /\ lk_finished l = at_ /\ lk_asked l <= at_ /\ row = row_at (lk_asked l) key
  | LookupFailed => True
  end.

Lemma done_answered y i key outcome at_ : reaches y -> requests y !! i = Some (Done key outcome at_) -> answered (lookups y) key outcome at_.
Proof.
  intros Hy Hi. destruct (reaches_settings _ Hy) as (Hf & Hm & _). apply reaches_ok in Hy.
  destruct (fo_tasks _ _ _ Hy _ _ Hi) as [_ Hs]. destruct outcome as [v| |]; try done.
  destruct Hs as (l & Hl & <- & <- & Hat). destruct (fo_log _ _ _ Hy _ Hl) as (kind & Hk & Hle).
  unfold ttl_of in Hat. rewrite Hf, Hm in Hat. cbn. exists l, kind. split_and!; try done.
Qed.

(** C19: What the position cache serves is what the database said.  A position or a miss is the
    answer of one of the lookups that ended in the cache (each logged when it ends, with the
    instant its query was evaluated and the instant its answer arrived), for that signature, and
    the request read the clock no later than the lookup's time to live after that answer; a
    leader of the single round trip returns the row of its own query. *)
Theorem slot_cache_truthful y i key outcome at_ : reaches y -> requests y !! i = Some (Done key outcome at_) ->
  match outcome with
  | GotPosition value => exists l kind, l ∈ lookups y /\ lk_key l = key /\ lk_value l = value /\ fst (ask position_at row_at kind (lk_asked l) key) = value /\
      lk_asked l <= lk_finished l /\ at_ <= lk_finished l + Z.max 0 (match value with Some _ => found | None => missing end)
  | GotRow row => exists l, l ∈ lookups y /\ lk_key l = key /\ lk_finished l = at_ /\ lk_asked l <= at_ /\ row = row_at (lk_asked l) key
  | LookupFailed => True
  end.
Proof. apply done_answered. Qed.

(** The position cache is bounded: the finished entries stay within the configured
    capacity, which is at least one and at most a million, and the rest are the lookups
    under way. *)
Theorem slot_cache_bounded y : reaches y ->
  Z.of_nat (count_ready (entries (cache y))) <= Z.max 1 (Z.min cap MAX_CACHE_CAPACITY) /\
  len (entries (cache y)) <= Z.max 1 (Z.min cap MAX_CACHE_CAPACITY) + Z.of_nat (length (omap leads (map_to_list (requests y)).*2)).
Proof.
  intros Hy. destruct (reaches_settings _ Hy) as (_ & _ & <-). apply reaches_ok in Hy. pose proof (fo_bound _ _ _ Hy) as Hb. split; [done|].
  set (m := entries (cache y)) in *. set (flying := filter (fun kv => ~ is_ready kv.2 = true) m).
  assert (Hsize : size m = (count_ready m + size flying)%nat).
  { unfold count_ready, flying. rewrite <- map_size_disj_union by apply map_disjoint_filter_complement. by rewrite map_filter_union_complement. }
  assert (Hf : (size flying <= length (omap leads (map_to_list (requests y)).*2))%nat).
  { rewrite <- length_map_to_list, <- (length_fmap fst), <- (length_fmap fst (omap _ _)). apply submseteq_length, NoDup_submseteq; [apply NoDup_fst_map_to_list|].
    intros k ([k' e] & -> & Hin)%list_elem_of_fmap. apply elem_of_map_to_list, map_lookup_filter_Some in Hin as [Hk Hr]. destruct e as [|n]; [by destruct Hr|].
    destruct (fo_leader _ _ _ Hy _ _ Hk) as (i & t & Hi & Ht). apply list_elem_of_fmap. exists (k', n). split; [done|]. apply list_elem_of_omap. exists t.
    split; [|done]. apply list_elem_of_fmap. exists (i, t). split; [done|]. by apply elem_of_map_to_list. }
  unfold len. lia.
Qed.
End Live.
