(* ===== verification/RefreshCache.v ===== *)
(** * RefreshCache: the latest slot and its block height

    Models [LatestSlotCache] and [LatestBlockHeightCache] of [crates/superbank-rpc/src/state.rs]
    and [get_latest_finalized_slot_since] of [clickhouse/blocks.rs].  The caches are words that
    are read and written one at a time, without the lock: a request reads them field by field,
    takes the refresh lock and reads them again, and then waits for the refresh under way or
    leads one, which stores field by field and is announced through the lock.

    The loads and stores are [Relaxed] (but for the date of the block height): a load may
    return any value its word ever had, independently of the other words, and the date is the
    wall clock's, which may go back.  [now] is not that clock: it orders the queries the
    database evaluates. *)

From S2P Require Import Prelude.

Open Scope Z_scope.

(** ** The query behind the latest slot *)

Definition LATEST_SLOT_HINT_MARGIN : Z := 10000.

(** [SELECT slot ... ORDER BY slot DESC LIMIT 1], from a floor on *)
Definition newest_from (floor : Z) (rows : list Z) : option Z :=
  foldr (fun slot best => if slot <? floor then best else Some (match best with Some b => Z.max slot b | None => slot end)) None rows.

(** [get_latest_finalized_slot_since]: [bounded] and [all] are the rows of the table when its
    one or two queries run; [use_hint] is the configuration. *)
Definition get_latest_finalized_slot_since (use_hint : bool) (hint : option Z) (bounded all : list Z) : option Z :=
  let floor := sat_sub (match hint with Some slot => if use_hint then slot else 0 | None => 0 end) LATEST_SLOT_HINT_MARGIN in
  if 0 <? floor then match newest_from floor bounded with Some slot => Some slot | None => newest_from 0 all end else newest_from 0 all.

(** ** The caches *)

Inductive CacheKind := LatestSlot | BlockHeight.
Inductive Field := FNow | FLast | FValue | FSlot.
#[export] Instance Field_eq_dec : EqDecision Field.
Proof. solve_decision. Defined.
Record Words := mkWords { w_value : Z; w_slot : Z; w_last_updated_ms : Z }.
#[export] Instance Words_eq_dec : EqDecision Words.
Proof. solve_decision. Defined.
Record Got := mkGot { g_now : Z; g_last : Z; g_value : Z; g_slot : Z }.

Definition NONE_SENTINEL : Z := u64_max.
Definition UNKNOWN_SLOT_SENTINEL : Z := u64_max.

(** [LatestSlotCache::new], [LatestBlockHeightCache::new] *)
Definition words_new (kind : CacheKind) : Words :=
  match kind with LatestSlot => mkWords 0 UNKNOWN_SLOT_SENTINEL 0 | BlockHeight => mkWords NONE_SENTINEL UNKNOWN_SLOT_SENTINEL 0 end.

(** The order of the loads, the clock included, and of the stores. *)
Definition loads (kind : CacheKind) : list Field := match kind with LatestSlot => [FLast; FValue; FNow] | BlockHeight => [FNow; FLast; FValue; FSlot] end.
Definition stores (kind : CacheKind) : list Field := match kind with LatestSlot => [FValue; FLast] | BlockHeight => [FValue; FSlot; FLast] end.
Definition nothing_read : Got := mkGot 0 0 0 0.
Definition load (f : Field) (now : Z) (w : Words) (g : Got) : Got :=
  match f with
  | FNow => mkGot now (g_last g) (g_value g) (g_slot g)
  | FLast => mkGot (g_now g) (w_last_updated_ms w) (g_value g) (g_slot g)
  | FValue => mkGot (g_now g) (g_last g) (w_value w) (g_slot g)
  | FSlot => mkGot (g_now g) (g_last g) (g_value g) (w_slot w)
  end.
Definition store (f : Field) (now value slot : Z) (w : Words) : Words :=
  match f with
  | FNow => w
  | FLast => mkWords (w_value w) (w_slot w) now
  | FValue => mkWords value (w_slot w) (w_last_updated_ms w)
  | FSlot => mkWords (w_value w) slot (w_last_updated_ms w)
  end.

(** The test of [fresh_value], and of [LatestBlockHeightCache::get_or_refresh] for a slot. *)
Definition fresh (kind : CacheKind) (ttl asked : Z) (g : Got) : bool :=
  negb (g_last g =? 0) && (sat_sub (g_now g) (g_last g) <=? ttl) &&
  match kind with LatestSlot => true | BlockHeight => (g_slot g =? asked) || (g_slot g =? UNKNOWN_SLOT_SENTINEL) end.
Definition decode (kind : CacheKind) (value : Z) : option Z :=
  match kind with LatestSlot => Some value | BlockHeight => if value =? NONE_SENTINEL then None else Some value end.

(** ** The requests *)

Inductive Reply := Answered (value : option Z) | RefreshFailed.
Inductive Request :=
| RLoading (locked : bool) (asked : Z) (todo : list Field) (got : Got)
| RLocking (asked : Z)
| RWaiting (asked notify : Z)
| RQuerying (asked notify since : Z)
| RStoring (asked notify : Z) (todo : list Field) (value : Z) (queried : Z)
| RFinishing (asked notify : Z) (reply : Reply)
| RNotifying (asked notify : Z) (reply : Reply)
| RDone (asked : Z) (reply : Reply) (read : option Got).

(** A refresh that stored: the value, the slot it was asked for, when the database evaluated
    its query and the date it wrote with the last of its words. *)
Record Refresh := mkRefresh { rf_value : Z; rf_slot : Z; rf_queried : Z; rf_stored : option Z }.

Record RefreshState := mkRefreshState {
  words : Words; refresh_lock : option Z; held : bool; tasks : gmap Z Request; next : Z; now : Z; refreshes : list Refresh;
  past : list Words;
}.
Definition refresh_new (kind : CacheKind) (start : Z) : RefreshState := mkRefreshState (words_new kind) None false ∅ 0 start [] [].

(** [notify_waiters] *)
Definition rewake (kind : CacheKind) (notify : Z) (t : Request) : Request :=
  match t with RWaiting asked n => if n =? notify then RLoading false asked (loads kind) nothing_read else t | _ => t end.
(** [remove_matching_entry] *)
Definition release (notify : Z) (lock : option Z) : option Z := match lock with Some n => if n =? notify then None else Some n | None => None end.

Section System.
Context (kind : CacheKind) (ttl : Z).
(** What the query of a leader finds at an instant: the newest slot, or the height at [asked]
    with the sentinel for none; [None] when it fails or finds no slot. *)
Context (query : Z -> Z -> option Z).

Definition set_task (y : RefreshState) (i : Z) (t : Request) : RefreshState :=
  mkRefreshState (words y) (refresh_lock y) (held y) (<[i := t]> (tasks y)) (next y) (now y) (refreshes y) (past y).
Definition set_held (b : bool) (y : RefreshState) : RefreshState := mkRefreshState (words y) (refresh_lock y) b (tasks y) (next y) (now y) (refreshes y) (past y).
Definition set_lock (l : option Z) (n : Z) (y : RefreshState) : RefreshState := mkRefreshState (words y) l (held y) (tasks y) n (now y) (refreshes y) (past y).
Definition set_words (w : Words) (log : list Refresh) (y : RefreshState) : RefreshState :=
  mkRefreshState w (refresh_lock y) (held y) (tasks y) (next y) (now y) log (words y :: past y).

(** The log at a store: the first store opens an entry, the last one dates it. *)
Definition log_store (f : Field) (wall value asked queried : Z) (y : RefreshState) : list Refresh :=
  match f, refreshes y with
  | FValue, log => mkRefresh value asked queried None :: log
  | FLast, e :: log => mkRefresh (rf_value e) (rf_slot e) (rf_queried e) (Some wall) :: log
  | _, log => log
  end.

Inductive rstep (y : RefreshState) : RefreshState -> Prop :=
| r_tick time : now y <= time -> rstep y (mkRefreshState (words y) (refresh_lock y) (held y) (tasks y) (next y) time (refreshes y) (past y))
| r_call i asked : tasks y !! i = None -> rstep y (set_task y i (RLoading false asked (loads kind) nothing_read))
(** A load sees its word as it is or once was; [wall] is what the clock shows. *)
| r_load i locked asked f todo got seen wall : tasks y !! i = Some (RLoading locked asked (f :: todo) got) -> seen ∈ words y :: past y ->
    rstep y (set_task y i (RLoading locked asked todo (load f wall seen got)))
(** Everything is read: a fresh value is returned, and otherwise the lock is taken, or held. *)
| r_hit i locked asked got : tasks y !! i = Some (RLoading locked asked [] got) -> fresh kind ttl asked got = true ->
    rstep y (set_held (held y && negb locked) (set_task y i (RDone asked (Answered (decode kind (g_value got))) (Some got))))
| r_miss i asked got : tasks y !! i = Some (RLoading false asked [] got) -> fresh kind ttl asked got = false -> rstep y (set_task y i (RLocking asked))
| r_lock i asked : tasks y !! i = Some (RLocking asked) -> held y = false ->
    rstep y (set_held true (set_task y i (RLoading true asked (loads kind) nothing_read)))
| r_wait i asked got notify : tasks y !! i = Some (RLoading true asked [] got) -> fresh kind ttl asked got = false -> refresh_lock y = Some notify ->
    rstep y (set_held false (set_task y i (RWaiting asked notify)))
| r_lead i asked got : tasks y !! i = Some (RLoading true asked [] got) -> fresh kind ttl asked got = false -> refresh_lock y = None ->
    rstep y (set_lock (Some (next y)) (next y + 1) (set_held false (set_task y i (RQuerying asked (next y) (now y)))))
| r_answer i asked notify since queried value : tasks y !! i = Some (RQuerying asked notify since) -> since <= queried <= now y -> query queried asked = Some value ->
    rstep y (set_task y i (RStoring asked notify (stores kind) value queried))
| r_store i asked notify f todo value queried wall : tasks y !! i = Some (RStoring asked notify (f :: todo) value queried) ->
    rstep y (set_words (store f wall value asked (words y)) (log_store f wall value asked queried y) (set_task y i (RStoring asked notify todo value queried)))
| r_stored i asked notify value queried : tasks y !! i = Some (RStoring asked notify [] value queried) ->
    rstep y (set_task y i (RFinishing asked notify (Answered (decode kind value))))
(** The query fails, or the leader is dropped at one of its waits. *)
| r_fail i asked notify since : tasks y !! i = Some (RQuerying asked notify since) -> rstep y (set_task y i (RFinishing asked notify RefreshFailed))
| r_finish i asked notify reply : tasks y !! i = Some (RFinishing asked notify reply) -> held y = false ->
    rstep y (set_lock (release notify (refresh_lock y)) (next y) (set_task y i (RNotifying asked notify reply)))
| r_notify i asked notify reply : tasks y !! i = Some (RNotifying asked notify reply) ->
    rstep y (mkRefreshState (words y) (refresh_lock y) (held y) (<[i := RDone asked reply None]> (rewake kind notify <$> tasks y)) (next y) (now y) (refreshes y) (past y))
(** A client leaves while its request waits for the lock or for a refresh. *)
| r_drop i t : tasks y !! i = Some t -> match t with RLocking _ | RWaiting _ _ => True | _ => False end ->
    rstep y (mkRefreshState (words y) (refresh_lock y) (held y) (delete i (tasks y)) (next y) (now y) (refreshes y) (past y)).
End System.
