(* ===== verification/RefreshCacheSound.v ===== *)
(** * RefreshCacheSound: what the latest slot and its block height can be

    The words of a cache are written by one leader at a time, and what is stored is what the
    archive answered.  A reader may combine a new date with an old value, since the words are
    read without order; the words themselves are right when no leader stores. *)

From S2P Require Import Prelude BTree RefreshCache.

Open Scope Z_scope.

(** ** The bounded query is exact *)

Lemma newest_from_spec floor rows : match newest_from floor rows with
  | Some slot => slot ∈ rows /\ floor <= slot /\ forall s, s ∈ rows -> s <= slot
  | None => forall s, s ∈ rows -> s < floor
  end.
Proof.
  induction rows as [|x rows IH]; cbn [newest_from foldr]; [by intros s ?%elem_of_nil|]. change (foldr _ None rows) with (newest_from floor rows).
  destruct (x <? floor) eqn:E, (newest_from floor rows) as [b|]; setoid_rewrite elem_of_cons.
  - destruct IH as (? & ? & ?). split_and!; [auto|done|]. intros s [->|?]; [lia|auto].
  - intros s [->|?]; [lia|auto].
  - destruct IH as (Hb & ? & Hmax). split; [|split; [lia|]].
    + destruct (Z.max_spec x b) as [[_ ->]|[_ ->]]; auto.
    + intros s [->|Hs]; [lia|]. pose proof (Hmax s Hs). lia.
  - split; [auto|]. split; [lia|]. intros s [->|Hs]; [lia|]. pose proof (IH s Hs). lia.
Qed.

(** ** The invariant *)

Definition leading (t : Request) : option Z := match t with RQuerying _ n _ | RStoring _ n _ _ _ | RFinishing _ n _ => Some n | _ => None end.
Definition storing (t : Request) : bool := match t with RStoring _ _ _ _ _ => true | _ => false end.

Section Invariant.
Context (kind : CacheKind) (ttl : Z) (query : Z -> Z -> option Z).

Definition settled (w : Words) (log : list Refresh) : Prop :=
  match log with
  | [] => w = words_new kind
  | e :: _ => w_value w = rf_value e /\ rf_stored e = Some (w_last_updated_ms w) /\ (kind = BlockHeight -> w_slot w = rf_slot e)
  end.
Definition last_of (log : list Refresh) : Z := match log with e :: _ => default 0 (rf_stored e) | [] => 0 end.

(** Between the stores of a leader. *)
Definition midway (w : Words) (log : list Refresh) (asked value queried : Z) (todo : list Field) : Prop :=
  if bool_decide (FValue ∈ todo) then settled w log
  else exists rest, log = mkRefresh value asked queried (if bool_decide (FLast ∈ todo) then None else Some (w_last_updated_ms w)) :: rest /\
    w_value w = value /\ (FSlot ∉ todo -> kind = BlockHeight -> w_slot w = asked) /\ (FLast ∈ todo -> w_last_updated_ms w = last_of rest).

(** A value the word had: the initial one, or one a refresh stored. *)
Definition known (log : list Refresh) (value : Z) : Prop := value = w_value (words_new kind) \/ exists e, e ∈ log /\ rf_value e = value.
Definition read_true (y : RefreshState) (todo : list Field) (g : Got) : Prop := FValue ∉ todo -> known (refreshes y) (g_value g).

Definition request_true (y : RefreshState) (t : Request) : Prop :=
  match t with
  | RLoading _ _ todo g => todo `suffix_of` loads kind /\ read_true y todo g
  | RQuerying _ _ since => since <= now y /\ forall e, e ∈ refreshes y -> rf_queried e <= since
  | RStoring asked _ todo value queried =>
      todo `suffix_of` stores kind /\ queried <= now y /\ query queried asked = Some value /\
      midway (words y) (refreshes y) asked value queried todo /\ (FValue ∈ todo -> forall e, e ∈ refreshes y -> rf_queried e <= queried)
  | RFinishing asked _ reply | RNotifying asked _ reply | RDone asked reply None =>
      forall v, reply = Answered v -> exists e, e ∈ refreshes y /\ rf_slot e = asked /\ decode kind (rf_value e) = v
  | RDone asked reply (Some g) => reply = Answered (decode kind (g_value g)) /\ fresh kind ttl asked g = true /\ known (refreshes y) (g_value g)
  | _ => True
  end.

Record refresh_ok (y : RefreshState) : Prop := {
  ro_lock : forall i t n, tasks y !! i = Some t -> leading t = Some n -> refresh_lock y = Some n;
  ro_one : forall i j t u n m, tasks y !! i = Some t -> tasks y !! j = Some u -> leading t = Some n -> leading u = Some m -> i = j;
  ro_idle : (forall i t, tasks y !! i = Some t -> storing t = false) -> settled (words y) (refreshes y);
  ro_log : forall e, e ∈ refreshes y -> query (rf_queried e) (rf_slot e) = Some (rf_value e) /\ rf_queried e <= now y;
  ro_known : forall w, w ∈ words y :: past y -> known (refreshes y) (w_value w);
  ro_sorted : Sorted (fun a b => rf_queried b <= rf_queried a) (refreshes y);
  ro_tasks : forall i t, tasks y !! i = Some t -> request_true y t;
}.

Lemma refresh_ok_new start : refresh_ok (refresh_new kind start).
Proof.
  split; cbn [refresh_new tasks refresh_lock words refreshes now past]; try (intros; by simplify_map_eq); try (by set_solver); try done.
  intros w ->%list_elem_of_singleton. by left.
Qed.

(** ** What the words say *)

Lemma words_facts y : refresh_ok y -> w_value (words y) = match refreshes y with [] => w_value (words_new kind) | e :: _ => rf_value e end.
Proof.
  intros Hok. assert (Hs : settled (words y) (refreshes y) -> w_value (words y) = match refreshes y with [] => w_value (words_new kind) | e :: _ => rf_value e end).
  { unfold settled. destruct (refreshes y) as [|e rest]; [by intros ->|]. by intros (? & _). }
  destruct (decide (map_Forall (fun _ t => storing t = false) (tasks y))) as [Hidle|Hbusy].
  { by apply Hs, (ro_idle _ Hok). }
  apply map_not_Forall in Hbusy as (i & t & Hi & Ht); [|apply _]. destruct t as [| | | |asked n todo value queried| | |]; try done.
  destruct (ro_tasks _ Hok _ _ Hi) as (_ & _ & _ & Hmid & _). unfold midway in Hmid. case_bool_decide as Hv; [by apply Hs|].
  destruct Hmid as (rest & Hlog & Hval & _). by rewrite Hlog.
Qed.

(** ** Steps *)

Lemma request_true_same y y' t : words y = words y' -> refreshes y = refreshes y' -> now y = now y' -> request_true y t -> request_true y' t.
Proof. intros Hw Hr Hn. unfold request_true, read_true. by rewrite Hw, Hr, Hn. Qed.

(** One request moves; the words and the log stay. *)
Lemma ok_move y i t' lock' held' next' : refresh_ok y -> (forall n, leading t' = Some n -> lock' = Some n) ->
  (forall j u n, j <> i -> tasks y !! j = Some u -> leading u = Some n -> lock' = Some n /\ leading t' = None) ->
  (forall t, tasks y !! i = Some t -> storing t = true -> storing t' = false -> settled (words y) (refreshes y)) -> request_true y t' ->
  refresh_ok (mkRefreshState (words y) lock' held' (<[i := t']> (tasks y)) next' (now y) (refreshes y) (past y)).
Proof.
  intros [Hlock Hone Hidle Hlog Hknown Hsorted Htasks] Hl Hothers Hset Ht.
  split; cbn [tasks words refresh_lock refreshes now]; try done.
  - intros j u n. rewrite lookup_insert_Some. intros [[<- <-]|[Hne Hj]] Hu; [by apply Hl|]. by apply (Hothers j u).
  - intros j k u v n m. rewrite !lookup_insert_Some. intros [[<- <-]|[? Hj]] [[<- <-]|[? Hk]] Hu Hv; try done.
    + destruct (Hothers k v m) as [_ ?]; [done..|congruence].
    + destruct (Hothers j u n) as [_ ?]; [done..|congruence].
    + by eapply Hone.
  - intros Hno. assert (Ht' : storing t' = false) by (apply (Hno i), lookup_insert_eq).
    destruct (tasks y !! i) as [t|] eqn:Hi; [destruct (storing t) eqn:Est|]; [by eapply Hset| |].
    all: apply Hidle; intros j u Hj; destruct (decide (j = i)) as [->|Hne]; [congruence|]; apply (Hno j); by rewrite lookup_insert_ne.
  - intros j u. rewrite lookup_insert_Some. intros [[<- <-]|[? Hj]]; [|specialize (Htasks _ _ Hj)]; by eapply request_true_same.
Qed.

(** A request that keeps its lead, or has none. *)
Lemma ok_same y i t' held' : refresh_ok y -> tasks y !! i ≫= leading = leading t' ->
  (forall t, tasks y !! i = Some t -> storing t = true -> storing t' = false -> settled (words y) (refreshes y)) -> request_true y t' ->
  refresh_ok (mkRefreshState (words y) (refresh_lock y) held' (<[i := t']> (tasks y)) (next y) (now y) (refreshes y) (past y)).
Proof.
  intros Hok Hl Hset Ht. apply ok_move; try done.
  - intros n Hn. rewrite Hn in Hl. destruct (tasks y !! i) as [t|] eqn:Hi; [|done]. by eapply (ro_lock _ Hok).
  - intros j u n Hne Hj Hu. split; [by eapply (ro_lock _ Hok)|]. destruct (leading t') as [m|]; [|done]. destruct (tasks y !! i) as [t|] eqn:Hi; [|done].
    destruct Hne. eapply (ro_one _ Hok); eauto.
Qed.

Lemma ok_time y time : refresh_ok y -> now y <= time ->
  refresh_ok (mkRefreshState (words y) (refresh_lock y) (held y) (tasks y) (next y) time (refreshes y) (past y)).
Proof.
  intros [Hlock Hone Hidle Hlog Hknown Hsorted Htasks] Hle. split; cbn [tasks words refresh_lock refreshes now past]; try done.
  - intros e He. destruct (Hlog e He). split; [done|lia].
  - intros i t Hi. specialize (Htasks i t Hi). unfold request_true, read_true in *. cbn [tasks words refresh_lock refreshes now].
    destruct t as [locked asked todo g| | |asked n since|asked n todo value queried|asked n reply|asked n reply|asked reply [g|]]; try done.
    + destruct Htasks. split; [lia|done].
    + destruct Htasks as (? & ? & ?). split_and!; [done|lia|naive_solver..].
Qed.

Lemma ok_delete y i t : refresh_ok y -> tasks y !! i = Some t -> storing t = false ->
  refresh_ok (mkRefreshState (words y) (refresh_lock y) (held y) (delete i (tasks y)) (next y) (now y) (refreshes y) (past y)).
Proof.
  intros [Hlock Hone Hidle Hlog Hknown Hsorted Htasks] Hi Ht. split; cbn [tasks words refresh_lock refreshes now]; try done.
  - intros j u n [_ Hj]%lookup_delete_Some. by eapply Hlock.
  - intros j k u v n m [_ Hj]%lookup_delete_Some [_ Hk]%lookup_delete_Some. by eapply Hone.
  - intros Hno. apply Hidle. intros j u Hj. destruct (decide (j = i)) as [->|Hne]; [congruence|]. apply (Hno j). by rewrite lookup_delete_ne.
  - intros j u [_ Hj]%lookup_delete_Some. specialize (Htasks _ _ Hj). by eapply request_true_same.
Qed.

Lemma rewake_same n t : leading (rewake kind n t) = leading t /\ storing (rewake kind n t) = storing t.
Proof. destruct t; cbn; try done. by case_match. Qed.
Lemma rewake_true y n t : request_true y t -> request_true y (rewake kind n t).
Proof.
  destruct t; cbn; try done. case_match; [|done]. intros _. split; [done|]. intros []. destruct kind; set_solver.
Qed.

Lemma ok_wake y n : refresh_ok y -> refresh_ok (mkRefreshState (words y) (refresh_lock y) (held y) (rewake kind n <$> tasks y) (next y) (now y) (refreshes y) (past y)).
Proof.
  intros [Hlock Hone Hidle Hlog Hknown Hsorted Htasks]. split; cbn [tasks words refresh_lock refreshes now]; try done.
  - intros j u m (t & <- & Hj)%lookup_fmap_Some. rewrite (proj1 (rewake_same n t)). by eapply Hlock.
  - intros j k u v m m' (t & <- & Hj)%lookup_fmap_Some (t' & <- & Hk)%lookup_fmap_Some. rewrite !(proj1 (rewake_same n _)). by eapply Hone.
  - intros Hno. apply Hidle. intros j u Hj. rewrite <- (proj2 (rewake_same n u)). apply (Hno j). by rewrite lookup_fmap, Hj.
  - intros j u (t & <- & Hj)%lookup_fmap_Some. specialize (Htasks _ _ Hj). eapply request_true_same; [..|by apply rewake_true]; done.
Qed.

(** ** Stores *)

Lemma suffix_stores f todo : (f :: todo) `suffix_of` stores kind ->
  f = FValue /\ todo = tail (stores kind) \/ f = FSlot /\ todo = [FLast] /\ kind = BlockHeight \/ f = FLast /\ todo = [].
Proof.
  destruct kind; cbn [stores tail]; intros H; repeat (apply suffix_cons_inv in H as [H|H]; [simplify_eq; naive_solver|]); by apply suffix_nil_inv in H.
Qed.

Inductive log_ext (y : RefreshState) : list Refresh -> Prop :=
| ext_same : log_ext y (refreshes y)
| ext_open value asked queried : log_ext y (mkRefresh value asked queried None :: refreshes y)
| ext_date e rest wall : refreshes y = e :: rest -> log_ext y (mkRefresh (rf_value e) (rf_slot e) (rf_queried e) (Some wall) :: rest).

Lemma known_ext y log value : log_ext y log -> known (refreshes y) value -> known log value.
Proof.
  intros Hext [?|(e & He & Hv)]; [by left|right]. destruct Hext as [|v a q|e' rest wall Hlog]; [eauto|exists e; split; [by right|done]|].
  rewrite Hlog in He. apply elem_of_cons in He as [->|He]; [eexists; split; [left|done]|exists e; split; [by right|done]].
Qed.

Lemma own_ext y log asked (reply : Reply) : log_ext y log ->
  (forall v, reply = Answered v -> exists e, e ∈ refreshes y /\ rf_slot e = asked /\ decode kind (rf_value e) = v) ->
  forall v, reply = Answered v -> exists e, e ∈ log /\ rf_slot e = asked /\ decode kind (rf_value e) = v.
Proof.
  intros Hext H v Hv. destruct (H v Hv) as (e & He & Hs & Hd). destruct Hext as [|v' a q|e' rest wall Hlog]; [eauto|exists e; split; [by right|done]|].
  rewrite Hlog in He. apply elem_of_cons in He as [->|He]; [eexists; split; [left|done]|exists e; split; [by right|done]].
Qed.

Lemma ok_store y i asked n f todo value queried wall : refresh_ok y -> tasks y !! i = Some (RStoring asked n (f :: todo) value queried) ->
  let log := log_store f wall value asked queried y in let w := store f wall value asked (words y) in
  let t' := RStoring asked n todo value queried in
  log_ext y log -> midway w log asked value queried todo ->
  Sorted (fun a b => rf_queried b <= rf_queried a) log ->
  (forall e, e ∈ log -> query (rf_queried e) (rf_slot e) = Some (rf_value e) /\ rf_queried e <= now y) -> known log (w_value w) ->
  (FValue ∉ todo) -> refresh_ok (set_words w log (set_task y i t')).
Proof.
  intros Hok Hi log w t' Hext Hmid Hsorted Hlog Hkw Hfv. pose proof (ro_tasks _ Hok _ _ Hi) as (Hsuf & Hq & Hquery & _ & _).
  assert (Hother : forall j u m, j <> i -> tasks y !! j = Some u -> leading u = Some m -> False).
  { intros j u m Hne Hj Hu. apply Hne. eapply (ro_one _ Hok); [exact Hj|exact Hi|exact Hu|done]. }
  split; cbn [set_words set_task tasks words refresh_lock refreshes now]; try done.
  - intros j u m. rewrite lookup_insert_Some. intros [[<- <-]|[Hne Hj]] Hu; [|by destruct (Hother j u m)]. injection Hu as <-. by eapply (ro_lock _ Hok).
  - intros j k u v m m'. rewrite !lookup_insert_Some. intros [[<- <-]|[? Hj]] [[<- <-]|[? Hk]] Hu Hv; try done.
    + by destruct (Hother k v m').
    + by destruct (Hother j u m).
    + by eapply (ro_one _ Hok).
  - intros Hno. by specialize (Hno i t' (lookup_insert_eq _ _ _)).
  - cbn [past]. intros w' [->|Hw']%elem_of_cons; [done|]. eapply known_ext; [done|]. by apply (ro_known _ Hok).
  - intros j u. rewrite lookup_insert_Some. intros [[<- <-]|[Hne Hj]].
    + cbn. split_and!; try done. by eapply suffix_cons_l.
    + pose proof (ro_tasks _ Hok _ _ Hj) as Hu. destruct u as [locked a td g| | |a m since|a m td v q|a m reply|a m reply|a reply [g|]]; try done.
      * destruct Hu as [? Hr]. split; [done|]. intros Hn. by eapply known_ext; [|apply Hr].
      * by destruct (Hother j _ m (not_eq_sym Hne) Hj).
      * by destruct (Hother j _ m (not_eq_sym Hne) Hj).
      * exact (own_ext y log a reply Hext Hu).
      * exact (own_ext y log a reply Hext Hu).
      * destruct Hu as (? & ? & ?). split_and!; [done..|]. by eapply known_ext.
      * exact (own_ext y log a reply Hext Hu).
Qed.

(** [midway] after the value is stored, before and after the date is. *)
Lemma midway_open w log asked value queried todo : FValue ∉ todo -> FLast ∈ todo -> midway w log asked value queried todo <->
  exists rest, log = mkRefresh value asked queried None :: rest /\ w_value w = value /\ (FSlot ∉ todo -> kind = BlockHeight -> w_slot w = asked) /\
    w_last_updated_ms w = last_of rest.
Proof. intros Hv Hl. unfold midway. rewrite bool_decide_false, bool_decide_true by done. naive_solver. Qed.
Lemma midway_closed w log asked value queried : midway w log asked value queried [] <->
  exists rest, log = mkRefresh value asked queried (Some (w_last_updated_ms w)) :: rest /\ w_value w = value /\ (kind = BlockHeight -> w_slot w = asked).
Proof.
  unfold midway. rewrite !bool_decide_false by apply not_elem_of_nil. setoid_rewrite elem_of_nil. naive_solver.
Qed.
Lemma settled_last w log : settled w log -> w_last_updated_ms w = last_of log.
Proof. unfold settled. destruct log as [|e rest]; [intros ->; by destruct kind|]. cbn. by intros (_ & -> & _). Qed.

(** The three stores. *)
Lemma store_value y i asked n todo value queried wall : refresh_ok y -> tasks y !! i = Some (RStoring asked n (FValue :: todo) value queried) ->
  FValue ∉ todo -> FLast ∈ todo -> (kind = BlockHeight -> FSlot ∈ todo) ->
  refresh_ok (set_words (store FValue wall value asked (words y)) (log_store FValue wall value asked queried y) (set_task y i (RStoring asked n todo value queried))).
Proof.
  intros Hok Hi Hv Hl Hk. pose proof (ro_tasks _ Hok _ _ Hi) as (Hsuf & Hq & Hquery & Hmid & Hsort). specialize (Hsort ltac:(left)).
  unfold midway in Hmid. rewrite bool_decide_true in Hmid by left. apply ok_store; try done; cbn [log_store store].
  - apply ext_open.
  - apply midway_open; [done..|]. exists (refreshes y). split_and!; try done; [naive_solver|exact (settled_last _ _ Hmid)].
  - constructor; [apply (ro_sorted _ Hok)|]. destruct (refreshes y) as [|e rest]; constructor. cbn. apply Hsort. left.
  - intros e. rewrite elem_of_cons. intros [->|He]; [cbn; split_and!; done|by apply (ro_log _ Hok)].
  - right. eexists. split; [left|done].
Qed.
Lemma store_slot y i asked n value queried wall : refresh_ok y -> tasks y !! i = Some (RStoring asked n [FSlot; FLast] value queried) ->
  refresh_ok (set_words (store FSlot wall value asked (words y)) (log_store FSlot wall value asked queried y) (set_task y i (RStoring asked n [FLast] value queried))).
Proof.
  intros Hok Hi. pose proof (ro_tasks _ Hok _ _ Hi) as (Hsuf & Hq & Hquery & Hmid & _). apply midway_open in Hmid as (rest & Hlog & ? & _ & ?); [|set_solver..].
  apply ok_store; try done; cbn [log_store store].
  - apply ext_same.
  - apply midway_open; [set_solver..|]. eauto 6.
  - apply (ro_sorted _ Hok).
  - apply (ro_log _ Hok).
  - apply (ro_known _ Hok (words y)). left.
  - set_solver.
Qed.
Lemma store_last y i asked n value queried wall : refresh_ok y -> tasks y !! i = Some (RStoring asked n [FLast] value queried) ->
  refresh_ok (set_words (store FLast wall value asked (words y)) (log_store FLast wall value asked queried y) (set_task y i (RStoring asked n [] value queried))).
Proof.
  intros Hok Hi. pose proof (ro_tasks _ Hok _ _ Hi) as (Hsuf & Hq & Hquery & Hmid & _). apply midway_open in Hmid as (rest & Hlog & ? & Hs & ?); [|set_solver..].
  apply ok_store; try done; unfold log_store; rewrite ?Hlog; cbn [store].
  - by apply (ext_date y _ rest wall Hlog).
  - apply midway_closed. exists rest. split_and!; try done. apply Hs. set_solver.
  - pose proof (ro_sorted _ Hok) as Hsorted. rewrite Hlog in Hsorted. apply Sorted_inv in Hsorted as [? Hd]. constructor; [done|].
    destruct rest as [|e rest]; [constructor|]. apply HdRel_inv in Hd. by constructor.
  - intros e. rewrite elem_of_cons. intros [->|He]; [|apply (ro_log _ Hok); rewrite Hlog; by right]. cbn. by split_and!.
  - eapply (known_ext y); [by apply (ext_date y _ rest wall Hlog)|]. apply (ro_known _ Hok (words y)). left.
  - set_solver.
Qed.
Lemma ok_store_step y i asked n f todo value queried wall : refresh_ok y -> tasks y !! i = Some (RStoring asked n (f :: todo) value queried) ->
  refresh_ok (set_words (store f wall value asked (words y)) (log_store f wall value asked queried y) (set_task y i (RStoring asked n todo value queried))).
Proof.
  intros Hok Hi. pose proof (ro_tasks _ Hok _ _ Hi) as (Hsuf & _). destruct (suffix_stores _ _ Hsuf) as [[-> ->]|[(-> & -> & _)|[-> ->]]].
  - apply store_value; try done; destruct kind; set_solver.
  - by apply store_slot.
  - by apply store_last.
Qed.

(** ** Loads *)

Lemma ok_load y f todo g seen wall : refresh_ok y -> seen ∈ words y :: past y -> read_true y (f :: todo) g -> read_true y todo (load f wall seen g).
Proof.
  intros Hok Hseen Hr Hn. destruct (decide (f = FValue)) as [->|Hf]; [by apply (ro_known _ Hok)|].
  specialize (Hr ltac:(intros [?|?]%elem_of_cons; by auto)). by destruct f.
Qed.

Lemma ok_rstep y y' : refresh_ok y -> rstep kind ttl query y y' -> refresh_ok y'.
Proof.
  intros Hok Hs. destruct Hs as [time Hle|i asked Hi|i locked asked f todo got seen wall Hi Hseen|i locked asked got Hi Hf|i asked got Hi Hf|i asked Hi Hh|i asked got n Hi Hf Hl
    |i asked got Hi Hf Hl|i asked n since queried value Hi Hle Hq|i asked n f todo value queried wall Hi|i asked n value queried Hi|i asked n since Hi
    |i asked n reply Hi Hh|i asked n reply Hi|i t Hi Ht].
  - by apply ok_time.
  - apply ok_same; rewrite ?Hi; try done. split; [done|]. intros []. destruct kind; set_solver.
  - pose proof (ro_tasks _ Hok _ _ Hi) as [Hsuf Hr]. apply ok_same; rewrite ?Hi; try done; try (by intros t [= <-]). split; [by eapply suffix_cons_l|by eapply ok_load].
  - pose proof (ro_tasks _ Hok _ _ Hi) as [Hsuf Hr]. apply (ok_same y i _ (held y && negb locked)); [done|by rewrite Hi|by rewrite Hi; intros t [= <-]|]. split_and!; [done..|]. apply Hr. by intros ?%elem_of_nil.
  - apply ok_same; rewrite ?Hi; try done. by intros t [= <-].
  - apply (ok_same y i _ true); rewrite ?Hi; try done; try (by intros t [= <-]). split; [done|]. intros []. destruct kind; set_solver.
  - apply (ok_same y i _ false); rewrite ?Hi; try done. by intros t [= <-].
  - apply (ok_move y i _ (Some (next y)) false); try done.
    + intros j u n Hne Hj Hu. by rewrite (ro_lock _ Hok _ _ _ Hj Hu) in Hl.
    + by rewrite Hi; intros t [= <-].
    + split; [done|]. intros e He. by apply (ro_log _ Hok).
  - pose proof (ro_tasks _ Hok _ _ Hi) as [Hsince Hlog]. apply ok_same; rewrite ?Hi; try done. split_and!; try done; [lia| |].
    + unfold midway. rewrite bool_decide_true by (destruct kind; set_solver). apply (ro_idle _ Hok). intros j u Hj. destruct (storing u) eqn:Hu; [|done].
      assert (exists m, leading u = Some m) as [m Hm] by (destruct u; naive_solver). assert (j = i) as -> by (by eapply (ro_one _ Hok)). by simplify_eq.
    + intros _ e He. pose proof (Hlog e He). lia.
  - by apply ok_store_step.
  - pose proof (ro_tasks _ Hok _ _ Hi) as (_ & Hle & Hq & Hmid & _). apply ok_same; rewrite ?Hi; try done.
    + intros t [= <-] _ _. apply midway_closed in Hmid as (rest & -> & ? & Hsl). by cbn.
    + cbn. intros v [= <-]. apply midway_closed in Hmid as (rest & -> & _). eexists. split; [left|done].
  - apply ok_same; rewrite ?Hi; try done. by intros t [= <-].
  - pose proof (ro_tasks _ Hok _ _ Hi) as Hr. apply (ok_move y i _ (release n (refresh_lock y)) (held y) (next y)); try done.
    + intros j u m Hne Hj Hu. destruct Hne. by eapply (ro_one _ Hok).
    + by rewrite Hi; intros t [= <-].
  - pose proof (ro_tasks _ Hok _ _ Hi) as Hr. pose proof (ok_wake y n Hok) as Hok'. apply (ok_same _ i (RDone asked reply None) (held y)) in Hok'; cbn in *.
    + exact Hok'.
    + by rewrite lookup_fmap, Hi.
    + rewrite lookup_fmap, Hi. by intros t [= <-].
    + exact Hr.
  - apply (ok_delete y i t Hok Hi). by destruct t.
Qed.

Lemma ok_rrun y y' : refresh_ok y -> rtc (rstep kind ttl query) y y' -> refresh_ok y'.
Proof. intros Hok Hrun. induction Hrun as [|y y1 y' Hs _ IH]; [done|]. by apply IH, (ok_rstep y). Qed.
End Invariant.

(** ** The latest slot *)

(** The bounded query of [get_latest_finalized_slot_since] finds the newest slot of the table,
    and of a table that grows between its two queries, the newest at one of them. *)
Lemma latest_since_exact use_hint hint bounded all : Forall (fun s => 0 <= s) all -> bounded ⊆ all ->
  get_latest_finalized_slot_since use_hint hint bounded all = newest_from 0 all \/
  get_latest_finalized_slot_since use_hint hint bounded all = newest_from 0 bounded /\ is_Some (newest_from 0 bounded).
Proof.
  intros Hall Hsub. unfold get_latest_finalized_slot_since. case_match; [|by left]. set (floor := sat_sub _ _) in *.
  pose proof (newest_from_spec floor bounded) as Hf. destruct (newest_from floor bounded) as [b|]; [|by left]. right. destruct Hf as (Hb & Hle & Hmax).
  pose proof (newest_from_spec 0 bounded) as H0. destruct (newest_from 0 bounded) as [b'|].
  - destruct H0 as (Hb' & _ & Hmax'). pose proof (Hmax b' Hb'). pose proof (Hmax' b Hb). split; [f_equal; lia|done].
  - pose proof (H0 b Hb). rewrite Forall_forall in Hall. pose proof (Hall b (Hsub b Hb)). cbn in *. lia.
Qed.
Lemma latest_since_newest use_hint hint rows : Forall (fun s => 0 <= s) rows -> get_latest_finalized_slot_since use_hint hint rows rows = newest_from 0 rows.
Proof. intros Hr. by destruct (latest_since_exact use_hint hint rows rows Hr) as [?|[? _]]. Qed.

Section Latest.
Context (ttl start : Z) (query : Z -> Z -> option Z).
(** The newest slot of the archive never goes back. *)
Context (Hgrows : forall q1 q2 a1 a2 v1 v2, q1 <= q2 -> query q1 a1 = Some v1 -> query q2 a2 = Some v2 -> 0 <= v1 <= v2).
Local Abbreviation steps := (rstep LatestSlot ttl query).

Lemma step_value y y' : refresh_ok LatestSlot ttl query y -> steps y y' -> w_value (words y) <= w_value (words y').
Proof.
  intros Hok Hs. pose proof (words_facts _ _ _ _ Hok) as Hw. destruct Hs as [| | | | | | | | |i asked n f todo value queried wall Hi| | | | |]; try (cbn; lia). destruct f; cbn; try lia.
  destruct (ro_tasks _ _ _ _ Hok _ _ Hi) as (_ & _ & Hq & _ & Hlog). specialize (Hlog ltac:(left)). rewrite Hw. destruct (refreshes y) as [|e rest] eqn:E.
  - cbn. destruct (Hgrows queried queried asked asked value value); done.
  - destruct (ro_log _ _ _ _ Hok e) as (Hqe & _); [rewrite E; left|]. eapply Hgrows; [|exact Hqe|exact Hq]. apply Hlog. left.
Qed.

End Latest.

(** ** The block height *)

(** C25: The cached block height is the height of the cached slot whenever no leader is storing:
    its three words are then those of one refresh, so the height is what the archive gave for
    the slot that is stored with it. *)
Theorem block_height_coherent ttl query start y : rtc (rstep BlockHeight ttl query) (refresh_new BlockHeight start) y ->
  (forall i t, tasks y !! i = Some t -> storing t = false) -> w_last_updated_ms (words y) <> 0 ->
  exists queried, queried <= now y /\ query queried (w_slot (words y)) = Some (w_value (words y)).
Proof.
  intros Hy Hidle Hne. assert (Hok : refresh_ok BlockHeight ttl query y) by (by eapply ok_rrun; [apply refresh_ok_new|]).
  pose proof (ro_idle _ _ _ _ Hok Hidle) as Hs. unfold settled in Hs. destruct (refreshes y) as [|e rest] eqn:E; [by rewrite Hs in Hne|].
  destruct Hs as (-> & _ & Hsl). rewrite (Hsl eq_refl). exists (rf_queried e). destruct (ro_log _ _ _ _ Hok e) as (? & ?); [rewrite E; left|]. done.
Qed.
