(* ===== verification/GetTransaction.v ===== *)
(** * GetTransaction: the getTransaction handler

    Models [handle_get_transaction] of [crates/superbank-rpc/src/handlers/transactions.rs] from
    its JSON parameters on, with [get_transaction_primary_cache.rs] and the lookups of
    [clickhouse/transactions.rs]: the head cache, the disk cache, the records the archive
    returned before, and the archive are asked in turn.  What the tiers answer is a parameter
    of each request ([TxTiers]); the position of an unpinned lookup comes from [SlotCache]. *)

From S2P Require Import Prelude Text BTree SlotCoverage HeadCoverage CoverageMap Sdk Hydration BlockHydration GetBlock KeyIndex KeyTasks DiskReads Cursors SlotCache.

Open Scope list_scope.
Open Scope Z_scope.

(** ** JSON parameters *)

Set Warnings "-register-all".
Inductive Number := PosInt (n : Z) | NegInt (n : Z) | Float (text : string).
Inductive Value :=
| VNull | VBool (b : bool) | VNumber (n : Number) | VString (s : string) | VArray (items : list Value) | VObject (fields : list (string * Value)).

Definition as_u64 (v : Value) : option Z := match v with VNumber (PosInt n) => Some n | _ => None end.
Definition as_str (v : Value) : option string := match v with VString s => Some s | _ => None end.

(** [reject_unknown_fields] of [handlers/types.rs] *)
Definition reject_unknown_fields (v : Value) (allowed : list string) : result unit string :=
  match v with
  | VObject fields =>
      match List.filter (fun key => negb (existsb (String.eqb key) allowed)) (fst <$> fields) with
      | [] => Ok tt
      | invalid => Err ("Invalid params: unknown field(s) " +:+ String.concat ", " invalid)
      end
  | _ => Ok tt
  end.

Definition GET_TRANSACTION_ALLOWED_FIELDS : list string := ["encoding"; "commitment"; "maxSupportedTransactionVersion"; "minContextSlot"; "slot"]%string.
Definition INVALID_SIGNATURE : string := "Invalid params: signature is not a valid transaction signature".
Definition GET_TRANSACTION_DENYLISTED_SIGNATURES : list string := ["1111111111111111111111111111111111111111111111111111111111111111"]%string.

(** [extract_get_transaction_slot]: the slot, and the object without it. *)
Definition extract_get_transaction_slot (v : Value) : result (option Z * Value) string :=
  match v with
  | VObject fields =>
      match List.find (fun f => String.eqb (fst f) "slot") fields with
      | None => Ok (None, v)
      | Some (_, slot) =>
          let rest := VObject (List.filter (fun f => negb (String.eqb (fst f) "slot")) fields) in
          match slot, as_u64 slot with
          | VNull, _ => Ok (None, rest)
          | _, Some slot => Ok (Some slot, rest)
          | _, None => Err "Invalid params: slot must be a number"%string
          end
      end
  | _ => Ok (None, v)
  end.

(** [RpcTransactionConfig] *)
Record TransactionConfig := mkTxConfig {
  tc_encoding : option UiTransactionEncoding; tc_commitment : option CommitmentLevel; tc_max_version : option Z; tc_min_context_slot : option Z;
}.
Definition default_config : TransactionConfig := mkTxConfig None None None None.

(** The signature parser and the decoder of the configuration, of other libraries. *)
Record ParamReaders := mkParamReaders { signature_from_str : string -> option (list Z); config_from_value : Value -> result TransactionConfig string }.

Definition BASE58_MESSAGE : string := "base58 encoding is not supported with maxSupportedTransactionVersion >= 1".
(** [Signature::default] *)
Definition signature_default : list Z := replicate 64 0.

Section Params.
Context (params_of : ParamReaders).

(** [parse_get_transaction_config_value] *)
Definition parse_get_transaction_config_value (v : Value) : result (TransactionConfig * option Z) string :=
  let? _ := reject_unknown_fields v GET_TRANSACTION_ALLOWED_FIELDS in
  let? '(slot, rest) := extract_get_transaction_slot v in
  let? config :=
    match config_from_value params_of rest with Ok config => Ok config | Err e => Err ("Invalid params: failed to parse config (" +:+ e +:+ ")") end in
  if validate_transaction_encoding (default EncodingJson (tc_encoding config)) (tc_max_version config) then Ok (config, slot) else Err BASE58_MESSAGE.

Record TxRequest := mkTxRequest { tx_signature : list Z; tx_config : TransactionConfig; tx_slot : option Z }.

(** The checks of [handle_get_transaction] before any tier is asked. *)
Definition parse_request (params : option (list Value)) : result TxRequest string :=
  match params with
  | None | Some [] => Err "Invalid params: missing signature"%string
  | Some (signature :: rest) =>
      match as_str signature with
      | None => Err "Invalid params: signature must be a string"%string
      | Some text =>
          if existsb (String.eqb text) GET_TRANSACTION_DENYLISTED_SIGNATURES then Err INVALID_SIGNATURE
          else
            match signature_from_str params_of text with
            | None => Err "Invalid params: signature is not valid base58"%string
            | Some sig =>
                if bool_decide (sig = signature_default) then Err INVALID_SIGNATURE
                else
                  match rest with
                  | [] => Ok (mkTxRequest sig default_config None)
                  | config :: _ => let? '(config, slot) := parse_get_transaction_config_value config in Ok (mkTxRequest sig config slot)
                  end
            end
      end
  end.
End Params.

(** ** The records the archive returned *)

Definition PrimaryTransactionCacheKey : Type := list Z * option Z.
Record PrimaryTransactionCache := mkPrimaryCache { pc_inner : option (gmap PrimaryTransactionCacheKey StoredTransactionRecord); pc_max_bytes : Z }.

(** [PrimaryTransactionCache::new], [get], [insert] *)
Definition primary_cache_new (max_bytes : Z) : PrimaryTransactionCache := mkPrimaryCache (if 0 <? max_bytes then Some ∅ else None) max_bytes.
Definition primary_cache_get (key : PrimaryTransactionCacheKey) (c : PrimaryTransactionCache) : option StoredTransactionRecord := pc_inner c ≫= (.!! key).
Definition primary_cache_insert (key : PrimaryTransactionCacheKey) (record : StoredTransactionRecord) (c : PrimaryTransactionCache) : PrimaryTransactionCache :=
  match pc_inner c with
  | None => c
  | Some m =>
      if bool_decide (s_signature record <> fst key) || match snd key with Some slot => negb (slot =? s_slot record) | None => false end then c
      else mkPrimaryCache (Some (<[key := record]> m)) (pc_max_bytes c)
  end.

(** ** The archive

    The answers to the queries of one read: the table of the shard that holds the slot, when
    the client is configured for it, the distributed table, and the query that ignores the
    index in the slot.  [timed_out] covers the deadline of the operation and the permits. *)

Definition Fault : Type := string.
Record ArchiveAnswers := mkArchive {
  aa_local : option (result (option TransactionRow) Fault); aa_distributed : result (option TransactionRow) Fault;
  aa_legacy : result (option TransactionRow) Fault; aa_timed_out : bool;
}.

(** [fetch_first_transaction_position], and the same query of
    [get_transaction_by_signature_and_slot]: the row and whether the shard answered. *)
Definition fetch_first_transaction_position (a : ArchiveAnswers) : result (option TransactionRow * bool) Fault :=
  match aa_local a with
  | Some (Ok row) => Ok (row, true)
  | Some (Err _) | None => let? row := aa_distributed a in Ok (row, false)
  end.
Definition retry_if (again : bool) (row : option TransactionRow) (query : result (option TransactionRow) Fault) : result (option TransactionRow) Fault :=
  match row with None => if again then query else Ok None | Some row => Ok (Some row) end.

(** [fetch_transaction_at_position] *)
Definition fetch_transaction_at_position (a : ArchiveAnswers) : result (option StoredTransactionRecord) Fault :=
  let? '(row, used_local) := fetch_first_transaction_position a in
  let? row := retry_if used_local row (aa_distributed a) in
  let? row := retry_if true row (aa_legacy a) in
  Ok (map_transaction_row <$> row).

(** [get_transaction_by_signature]: [outcome] is how the loop over the position cache ended, in
    one round trip or not. *)
Definition TIMEOUT : Fault := "timeout".
Definition get_transaction_by_signature (outcome : Outcome) (a : ArchiveAnswers) : result (option StoredTransactionRecord) Fault :=
  if aa_timed_out a then Err TIMEOUT
  else
    match outcome with
    | LookupFailed => Err TIMEOUT
    | GotRow row => Ok (map_transaction_row <$> row)
    | GotPosition None => Ok None
    | GotPosition (Some _) => fetch_transaction_at_position a
    end.

(** [get_transaction_by_signature_and_slot] *)
Definition get_transaction_by_signature_and_slot (a : ArchiveAnswers) : result (option StoredTransactionRecord) Fault :=
  if aa_timed_out a then Err TIMEOUT
  else
    let? '(row, used_local) := fetch_first_transaction_position a in
    let? row := retry_if used_local row (aa_distributed a) in
    Ok (map_transaction_row <$> row).

(** ** The handler *)

Inductive TxAnswer (R : Type) :=
| TxInvalidParams (message : string)
| TxOnlyConfirmed
| TxMinContextSlotNotReached (context_slot : Z)
| TxResult (encoded : R)
| TxNull
| TxUnsupportedVersion (version : Z)
| TxInternalError.
Arguments TxInvalidParams {R}.
Arguments TxOnlyConfirmed {R}.
Arguments TxMinContextSlotNotReached {R}.
Arguments TxResult {R}.
Arguments TxNull {R}.
Arguments TxUnsupportedVersion {R}.
Arguments TxInternalError {R}.

(** What a request finds: the head cache with its newest slot at the commitment and its record
    of the signature, the disk cache's answer, the slot the archive's tip cache gives, the
    outcome of the position lookup, the archive, and whether the hydration task ran. *)
Record TxTiers := mkTxTiers {
  tt_head : option (Z * option StoredTransactionRecord);
  tt_disk : option (DiskTransactionResult StoredTransactionRecord);
  tt_archive_tip : option Z;
  tt_position : Outcome;
  tt_archive : ArchiveAnswers;
  tt_hydration_ran : bool;
}.

Section Handler.
Context (params_of : ParamReaders) (readers : Readers) {E : Type}.
Context (encode : UiTransactionEncoding -> option Z -> TransactionWithStatusMeta -> result E TransactionHydrationError).

Local Abbreviation Encoded := (Z * E * option Z * Z)%type.

(** [AppState::resolve_latest_slot_with_source] *)
Definition resolve_latest_slot (t : TxTiers) : option Z :=
  match tt_head t with Some (head_slot, _) => if 0 <? head_slot then Some head_slot else tt_archive_tip t | None => tt_archive_tip t end.

(** [validate_get_transaction_context] *)
Definition validate_get_transaction_context (t : TxTiers) (commitment : CommitmentLevel) (min_context_slot : option Z) : option (TxAnswer Encoded) :=
  if bool_decide (commitment = Processed) && negb (bool_decide (is_Some (tt_head t))) then Some TxOnlyConfirmed
  else
    match min_context_slot with
    | None => None
    | Some min_slot =>
        match resolve_latest_slot t with
        | None => Some TxInternalError
        | Some context_slot => if context_slot <? min_slot then Some (TxMinContextSlotNotReached context_slot) else None
        end
    end.

(** [respond_with_hydrated_transaction] *)
Definition request_encoding (r : TxRequest) : UiTransactionEncoding := default EncodingJson (tc_encoding (tx_config r)).
Definition hydrated (r : TxRequest) (record : StoredTransactionRecord) : result Encoded TransactionHydrationError :=
  hydrate_transaction_record readers (encode (request_encoding r) (tc_max_version (tx_config r))) record.
Definition respond_with_hydrated_transaction (t : TxTiers) (r : TxRequest) (record : StoredTransactionRecord) : TxAnswer Encoded :=
  if tt_hydration_ran t then
    match hydrated r record with
    | Ok encoded => TxResult encoded
    | Err (Hydration.UnsupportedTransactionVersion version) => TxUnsupportedVersion version
    | Err _ => TxInternalError
    end
  else TxInternalError.

(** A record of the head or the disk cache is shown unless the request pins another slot. *)
Definition at_requested_slot (r : TxRequest) (record : StoredTransactionRecord) : bool :=
  match tx_slot r with Some slot => s_slot record =? slot | None => true end.
Definition respond_at_slot (t : TxTiers) (r : TxRequest) (record : StoredTransactionRecord) : TxAnswer Encoded :=
  if at_requested_slot r record then respond_with_hydrated_transaction t r record else TxNull.

(** The part of [handle_get_transaction] that reads the archive, with the records it returned. *)
Definition archive_record (t : TxTiers) (r : TxRequest) : result (option StoredTransactionRecord) Fault :=
  match tx_slot r with
  | Some _ => get_transaction_by_signature_and_slot (tt_archive t)
  | None => get_transaction_by_signature (tt_position t) (tt_archive t)
  end.
Definition primary_key (r : TxRequest) : PrimaryTransactionCacheKey := (tx_signature r, tx_slot r).
Definition answer_from_primary (t : TxTiers) (r : TxRequest) (found c : PrimaryTransactionCache) : TxAnswer Encoded * PrimaryTransactionCache :=
  match primary_cache_get (primary_key r) found with
  | Some record => (respond_with_hydrated_transaction t r record, c)
  | None =>
      match archive_record t r with
      | Err _ => (TxInternalError, c)
      | Ok None => (TxNull, c)
      | Ok (Some record) => (respond_with_hydrated_transaction t r record, primary_cache_insert (primary_key r) record c)
      end
  end.

(** [handle_get_transaction]; [found] is the cache of records at the lookup, [c] at the insertion. *)
Definition handle_get_transaction (params : option (list Value)) (t : TxTiers) (found c : PrimaryTransactionCache) : TxAnswer Encoded * PrimaryTransactionCache :=
  match parse_request params_of params with
  | Err message => (TxInvalidParams message, c)
  | Ok r =>
      match validate_get_transaction_context t (default Finalized (tc_commitment (tx_config r))) (tc_min_context_slot (tx_config r)) with
      | Some refusal => (refusal, c)
      | None =>
          match tt_head t with
          | Some (_, Some record) => (respond_at_slot t r record, c)
          | _ =>
              match tt_disk t with
              | Some (TxFound _ record) => (respond_at_slot t r record, c)
              | Some TxAbsent => (TxNull, c)
              | _ => answer_from_primary t r found c
              end
          end
      end
  end.
End Handler.
