(* ===== verification/GetTransactionSound.v ===== *)
(** * GetTransactionSound: getTransaction answers with the right transaction

    [finalized] is the finalized transaction of each signature.  What the tiers answer
    relates to it by [tx_tiers_true]; rows of the archive may be missing.  The records the
    server remembers are right whatever requests interleave, and a null is never the answer
    of one shard, nor a miss remembered for longer than its time to live. *)

From S2P Require Import Prelude Text BTree SlotCoverage HeadCoverage CoverageMap Sdk Hydration BlockHydration GetBlock KeyIndex KeyTasks DiskReads Cursors SlotCache SlotCacheSound GetTransaction.

Open Scope list_scope.
Open Scope Z_scope.

(** ** Parameters *)

Section Params.
Context (params_of : ParamReaders).

(** What a request must be, in any order of its checks. *)
Record well_formed (params : list Value) (r : TxRequest) : Prop := {
  wf_signature : exists text rest, params = VString text :: rest /\ signature_from_str params_of text = Some (tx_signature r) /\
    text ∉ GET_TRANSACTION_DENYLISTED_SIGNATURES;
  wf_not_default : tx_signature r <> signature_default;
  wf_config : forall config rest, tail params = config :: rest ->
    (forall fields, config = VObject fields -> Forall (fun f => fst f ∈ GET_TRANSACTION_ALLOWED_FIELDS) fields) /\
    (exists value, extract_get_transaction_slot config = Ok (tx_slot r, value) /\ config_from_value params_of value = Ok (tx_config r)) /\
    validate_transaction_encoding (request_encoding r) (tc_max_version (tx_config r)) = true;
  wf_no_config : tail params = [] -> tx_config r = default_config /\ tx_slot r = None;
}.

Lemma existsb_eqb_elem text l : existsb (String.eqb text) l = bool_decide (text ∈ l).
Proof.
  apply eq_bool_prop_intro. rewrite bool_decide_spec, Is_true_true, existsb_exists. setoid_rewrite String.eqb_eq.
  rewrite list_elem_of_In. naive_solver.
Qed.

Lemma reject_unknown_ok v allowed : reject_unknown_fields v allowed = Ok tt <-> (forall fields, v = VObject fields -> Forall (fun f => fst f ∈ allowed) fields).
Proof.
  destruct v as [| | | | |fields]; cbn; try (split; [by intros _ ?|done]).
  assert (H : List.filter (fun key => negb (existsb (String.eqb key) allowed)) (fst <$> fields) = [] <-> Forall (fun f => fst f ∈ allowed) fields).
  { induction fields as [|[k v] fields IH]; cbn; [split; [constructor|done]|]. rewrite existsb_eqb_elem, Forall_cons. cbn.
    case_bool_decide; cbn; [by rewrite IH; naive_solver|]. naive_solver. }
  split.
  - intros Hr fs [= <-]. apply H. by case_match.
  - intros Hf. by rewrite (proj2 H (Hf _ eq_refl)).
Qed.

Lemma parse_config_ok v config slot : parse_get_transaction_config_value params_of v = Ok (config, slot) <->
  (forall fields, v = VObject fields -> Forall (fun f => fst f ∈ GET_TRANSACTION_ALLOWED_FIELDS) fields) /\
  (exists value, extract_get_transaction_slot v = Ok (slot, value) /\ config_from_value params_of value = Ok config) /\
  validate_transaction_encoding (default EncodingJson (tc_encoding config)) (tc_max_version config) = true.
Proof.
  rewrite <- reject_unknown_ok. unfold parse_get_transaction_config_value. split.
  - intros ([] & Hu & ([s value] & Hs & (cfg & Hcfg & Hv)%rbind_ok)%rbind_ok)%rbind_ok. case_match eqn:E; [|done]. injection Hv as -> ->.
    split; [done|]. split; [|done]. exists value. split; [done|]. destruct (config_from_value params_of value); naive_solver.
  - intros (-> & (value & -> & Hc) & Hv). cbn. rewrite Hc. cbn. by rewrite Hv.
Qed.

Lemma parse_request_ok params r : parse_request params_of (Some params) = Ok r <-> well_formed params r.
Proof.
  split.
  - unfold parse_request. destruct params as [|s rest]; [done|]. destruct (as_str s) as [text|] eqn:Es; [|done]. destruct s; try done. injection Es as ->.
    rewrite existsb_eqb_elem. case_bool_decide as Hdeny; [done|]. destruct (signature_from_str params_of text) as [sig|] eqn:Hsig; [|done].
    case_bool_decide as Hdef; [done|]. intros Hr.
    assert (tx_signature r = sig) as Hs.
    { destruct rest as [|v rest]; [by injection Hr as <-|]. by destruct (parse_get_transaction_config_value params_of v) as [[]|]; simplify_eq/=. }
    split; cbn [tail]; [|congruence| |].
    + exists text, rest. by rewrite Hs.
    + intros v rest' ->. apply rbind_ok in Hr as ([cfg slot] & Hp & [= <-]). cbn. by apply parse_config_ok.
    + intros ->. by injection Hr as <-.
  - intros [(text & rest & -> & Hsig & Hdeny) Hdef Hcfg Hno]. cbn [parse_request as_str]. rewrite existsb_eqb_elem, bool_decide_false, Hsig by done.
    rewrite bool_decide_false by done. cbn [tail] in *. destruct r as [sig cfg slot]. cbn in *. destruct rest as [|v rest].
    + by destruct (Hno eq_refl) as [-> ->].
    + rewrite (proj2 (parse_config_ok v cfg slot)); [done|]. by apply (Hcfg v rest).
Qed.
End Params.

(** ** Answers *)

Section Answers.
Context (params_of : ParamReaders) (readers : Readers) {E : Type}.
Context (encode : UiTransactionEncoding -> option Z -> TransactionWithStatusMeta -> result E TransactionHydrationError).
Local Abbreviation Encoded := (Z * E * option Z * Z)%type.
Local Abbreviation handle := (handle_get_transaction params_of readers encode).
Local Abbreviation hydrates := (hydrated readers encode).

(** An answer that only a request past its checks gets. *)
Definition is_lookup (a : TxAnswer Encoded) : Prop := match a with TxInvalidParams _ | TxOnlyConfirmed | TxMinContextSlotNotReached _ => False | _ => True end.

Lemma respond_lookup t r record : is_lookup (respond_with_hydrated_transaction readers encode t r record).
Proof. unfold respond_with_hydrated_transaction. by repeat case_match. Qed.
Lemma respond_at_slot_lookup t r record : is_lookup (respond_at_slot readers encode t r record).
Proof. unfold respond_at_slot. case_match; [apply respond_lookup|done]. Qed.
Lemma primary_lookup t r found c : is_lookup (fst (answer_from_primary readers encode t r found c)).
Proof. unfold answer_from_primary. case_match; [apply respond_lookup|]. destruct (archive_record t r) as [[]|]; [apply respond_lookup|done..]. Qed.

Definition commitment_of (r : TxRequest) : CommitmentLevel := default Finalized (tc_commitment (tx_config r)).
Local Abbreviation validate t r := (@validate_get_transaction_context E t (commitment_of r) (tc_min_context_slot (tx_config r))).

Lemma handle_checked params t found c r : parse_request params_of params = Ok r -> validate t r = None -> is_lookup (fst (handle params t found c)).
Proof.
  intros Hp Hv. unfold handle_get_transaction. rewrite Hp. unfold commitment_of in Hv. rewrite Hv.
  destruct (tt_head t) as [[? [record|]]|]; [apply respond_at_slot_lookup|..];
    destruct (tt_disk t) as [[slot record| |]|]; try apply respond_at_slot_lookup; try apply primary_lookup; done.
Qed.

Lemma validate_some t r refusal : validate t r = Some refusal ->
  refusal = TxOnlyConfirmed /\ commitment_of r = Processed /\ tt_head t = None \/
  (commitment_of r = Processed -> is_Some (tt_head t)) /\ exists min_slot, tc_min_context_slot (tx_config r) = Some min_slot /\
    (refusal = TxInternalError /\ resolve_latest_slot t = None \/
     exists slot, refusal = TxMinContextSlotNotReached slot /\ resolve_latest_slot t = Some slot /\ slot < min_slot).
Proof.
  unfold validate_get_transaction_context. intros Hr.
  destruct (bool_decide_reflect (commitment_of r = Processed)) as [Hc|Hc], (bool_decide_reflect (is_Some (tt_head t))) as [Hh|Hh]; cbn [andb negb] in Hr.
  2: { injection Hr as <-. left. split_and!; try done. by apply eq_None_not_Some. }
  all: right; split; [done|]; destruct (tc_min_context_slot _) as [m|]; [|done]; exists m; split; [done|].
  all: destruct (resolve_latest_slot t) as [s|]; [|by injection Hr as <-; left]; destruct (s <? m) eqn:El; [|done]; injection Hr as <-.
  all: right; exists s; by rewrite <- Z.ltb_lt.
Qed.

Lemma validate_only_confirmed t r : commitment_of r = Processed -> tt_head t = None -> validate t r = Some TxOnlyConfirmed.
Proof. intros Hc Hh. unfold validate_get_transaction_context. rewrite Hc, Hh. done. Qed.
Lemma validate_min_context t r m slot : (commitment_of r = Processed -> is_Some (tt_head t)) -> tc_min_context_slot (tx_config r) = Some m ->
  resolve_latest_slot t = Some slot -> slot < m -> validate t r = Some (TxMinContextSlotNotReached slot).
Proof.
  intros Hc Hm Hs Hlt. unfold validate_get_transaction_context. rewrite Hm, Hs, (proj2 (Z.ltb_lt _ _) Hlt).
  destruct (bool_decide_reflect (commitment_of r = Processed)); [|done]. by rewrite bool_decide_true by auto.
Qed.

Lemma handle_refused params t found c r refusal : parse_request params_of params = Ok r -> validate t r = Some refusal -> handle params t found c = (refusal, c).
Proof. intros Hp Hv. unfold handle_get_transaction. rewrite Hp. unfold commitment_of in Hv. by rewrite Hv. Qed.
Lemma handle_invalid params t found c message : parse_request params_of params = Err message -> handle params t found c = (TxInvalidParams message, c).
Proof. intros Hp. unfold handle_get_transaction. by rewrite Hp. Qed.

(** The request that [params] decode to, when they decode. *)
Definition requested (params : option (list Value)) (r : TxRequest) : Prop := exists l, params = Some l /\ well_formed params_of l r.
Lemma requested_parse params r : requested params r <-> parse_request params_of params = Ok r.
Proof.
  split; [intros (l & -> & Hwf); by apply parse_request_ok|]. intros Hp. destruct params as [l|]; [|done]. exists l. split; [done|]. by apply parse_request_ok.
Qed.

Lemma handle_cases params t found c : (exists message, parse_request params_of params = Err message /\ handle params t found c = (TxInvalidParams message, c)) \/
  exists r, requested params r /\ ((exists refusal, validate t r = Some refusal /\ handle params t found c = (refusal, c)) \/
    validate t r = None /\ is_lookup (fst (handle params t found c))).
Proof.
  destruct (parse_request params_of params) as [r|message] eqn:Hp; [right|left; eauto using handle_invalid].
  exists r. split; [by apply requested_parse|]. destruct (validate t r) as [refusal|] eqn:Hv; [left|right]; eauto using handle_refused, handle_checked.
Qed.

(** C20: getTransaction refuses exactly the requests it must: parameters that are no request,
    processed commitment without a head cache, and a minimum context slot above the newest
    slot it knows.  A refused request changes nothing that is remembered. *)
Theorem get_transaction_refuses params t found c :
  let answer := fst (handle params t found c) in
  ((exists message, answer = TxInvalidParams message) <-> ~ exists r, requested params r) /\
  (answer = TxOnlyConfirmed <-> exists r, requested params r /\ commitment_of r = Processed /\ tt_head t = None) /\
  (forall slot, answer = TxMinContextSlotNotReached slot <->
    exists r min_slot, requested params r /\ (commitment_of r = Processed -> is_Some (tt_head t)) /\ tc_min_context_slot (tx_config r) = Some min_slot /\
      resolve_latest_slot t = Some slot /\ slot < min_slot) /\
  (~ is_lookup answer -> snd (handle params t found c) = c).
Proof.
  intros answer. subst answer. destruct (handle_cases params t found c) as [(m & Hp & ->)|(r & Hr & [(refusal & Hv & Hh)|[Hv Hl]])].
  - assert (Hno : forall r, ~ requested params r) by (intros r Hr%requested_parse; congruence).
    split_and!; [split; [naive_solver|eauto]|split; [done|naive_solver]|intros slot; split; [done|naive_solver]|done].
  - assert (Huniq : forall r', requested params r' -> r' = r) by (intros r' Hr'%requested_parse; apply requested_parse in Hr; congruence).
    rewrite Hh. cbn [fst snd]. destruct (validate_some _ _ _ Hv) as [(-> & Hc & Hhd)|(Hc & m & Hm & [(-> & Hs)|(slot & -> & Hs & Hlt)])].
    + split_and!; [split; [by intros []|by intros []; eauto]|split; [eauto|done]| |done].
      intros slot. split; [done|]. intros (r' & m' & ->%Huniq & Hhead & _). rewrite Hhd in Hhead. by destruct (Hhead Hc).
    + split_and!; [split; [by intros []|by intros []; eauto]|split; [done|]| |done].
      * intros (r' & ->%Huniq & Hc' & Hn). rewrite Hn in Hc. by destruct (Hc Hc').
      * intros slot. split; [done|]. intros (r' & m' & _ & _ & _ & Hs' & _). congruence.
    + split_and!; [split; [by intros []|by intros []; eauto]|split; [done|]| |done].
      * intros (r' & ->%Huniq & Hc' & Hn). rewrite Hn in Hc. by destruct (Hc Hc').
      * intros slot'. split; [intros [= <-]; eauto 8|]. intros (r' & m' & _ & _ & _ & Hs' & _). congruence.
  - assert (Huniq : forall r', requested params r' -> r' = r) by (intros r' Hr'%requested_parse; apply requested_parse in Hr; congruence).
    destruct (handle params t found c) as [answer c']. cbn [fst snd] in *. split_and!.
    + split; [intros [m ->]; done|]. intros Hno. destruct Hno. eauto.
    + split; [by intros ->|]. intros (r' & ->%Huniq & Hc & Hn). by rewrite validate_only_confirmed in Hv.
    + intros slot. split; [by intros ->|]. intros (r' & m & ->%Huniq & Hc & Hm & Hs & Hlt). by rewrite (validate_min_context t r m slot) in Hv.
    + intros Hn. by destruct Hn.
Qed.

(** ** What the tiers promise *)

Context (finalized : list Z -> option StoredTransactionRecord).
Context (position_at : Z -> SignatureBytes -> option SignatureSlot) (row_at : Z -> SignatureBytes -> option TransactionRow) (ttl_found ttl_missing slots_cached started_at : Z).

(** A row that a query for the signature, and for the pinned slot, returned. *)
Definition row_true (r : TxRequest) (row : TransactionRow) : Prop :=
  finalized (tx_signature r) = Some (map_transaction_row row) /\ at_requested_slot r (map_transaction_row row) = true.

(** [y] is the state of the shared position cache after any history of its requests; the
    position lookup of this request, unless it pins a slot, is one of them, and it read the
    clock at [at_]. *)
Record tx_tiers_true (r : TxRequest) (t : TxTiers) (y : Flights) (at_ : Z) : Prop := {
  xt_signature : forall record, finalized (tx_signature r) = Some record -> s_signature record = tx_signature r;
  xt_disk : forall slot record, tt_disk t = Some (TxFound slot record) -> finalized (tx_signature r) = Some record;
  xt_absent : tt_disk t = Some TxAbsent -> forall record, finalized (tx_signature r) = Some record -> at_requested_slot r record = false;
  xt_local : forall row, aa_local (tt_archive t) = Some (Ok (Some row)) -> row_true r row;
  xt_distributed : forall row, aa_distributed (tt_archive t) = Ok (Some row) -> row_true r row;
  xt_legacy : forall row, aa_legacy (tt_archive t) = Ok (Some row) -> row_true r row;
  xt_reached : rtc (step position_at row_at) (flights_new (slot_cache_new ttl_found ttl_missing slots_cached) started_at) y;
  xt_position : tx_slot r = None -> exists i, requests y !! i = Some (Done (tx_signature r) (tt_position t) at_);
  xt_row : forall asked row, row_at asked (tx_signature r) = Some row -> finalized (tx_signature r) = Some (map_transaction_row row);
}.

(** What the cache of records promises: each is the finalized transaction of its key. *)
Definition primary_true (c : PrimaryTransactionCache) : Prop :=
  forall m sig slot record, pc_inner c = Some m -> m !! (sig, slot) = Some record -> finalized sig = Some record /\ (forall s, slot = Some s -> s_slot record = s).

(** The archive has no row to show: every table it must ask had none, or a lookup of the
    signature that ended in the position cache no longer than the time to live of a miss before
    the request read the clock had found no position, or the request's own query had no row. *)
Definition archive_silent (r : TxRequest) (t : TxTiers) (y : Flights) (at_ : Z) : Prop :=
  aa_distributed (tt_archive t) = Ok None /\ (tx_slot r = None -> aa_legacy (tt_archive t) = Ok None) \/
  tx_slot r = None /\ (exists l kind, l ∈ lookups y /\ lk_key l = tx_signature r /\ lk_value l = None /\
    fst (ask position_at row_at kind (lk_asked l) (tx_signature r)) = None /\ lk_asked l <= lk_finished l /\ at_ <= lk_finished l + Z.max 0 ttl_missing) \/
  tx_slot r = None /\ (exists l, l ∈ lookups y /\ lk_key l = tx_signature r /\ lk_finished l = at_ /\ lk_asked l <= at_ /\ row_at (lk_asked l) (tx_signature r) = None).
Definition archive_failed (t : TxTiers) : Prop :=
  aa_timed_out (tt_archive t) = true \/ tt_position t = LookupFailed \/ (exists e, aa_distributed (tt_archive t) = Err e) \/ (exists e, aa_legacy (tt_archive t) = Err e).

Lemma position_answered r t y at_ : tx_tiers_true r t y at_ -> tx_slot r = None ->
  answered position_at row_at ttl_found ttl_missing (lookups y) (tx_signature r) (tt_position t) at_.
Proof. intros Ht Hs. destruct (xt_position _ _ _ _ Ht Hs) as [i Hi]. eapply done_answered; [by eapply xt_reached|done]. Qed.

Lemma first_position_cases a : (exists row, aa_local a = Some (Ok row) /\ fetch_first_transaction_position a = Ok (row, true)) \/
  (exists row, aa_distributed a = Ok row /\ fetch_first_transaction_position a = Ok (row, false)) \/
  exists e, aa_distributed a = Err e /\ fetch_first_transaction_position a = Err e.
Proof. unfold fetch_first_transaction_position. destruct (aa_local a) as [[row|e]|], (aa_distributed a); eauto. Qed.

(** The row after the distributed table was asked where the shard had none. *)
Lemma located_cases r t y at_ : tx_tiers_true r t y at_ -> let a := tt_archive t in
  match (let? '(row, used_local) := fetch_first_transaction_position a in retry_if used_local row (aa_distributed a)) with
  | Ok (Some row) => row_true r row
  | Ok None => aa_distributed a = Ok None
  | Err e => exists e, aa_distributed a = Err e
  end.
Proof.
  intros Ht a. destruct (first_position_cases a) as [(row & Hl & ->)|[(row & Hd & ->)|(e & Hd & ->)]]; cbn; [| |by eauto].
  - destruct row as [row|]; cbn; [by apply (xt_local _ _ _ _ Ht)|]. destruct (aa_distributed a) as [[row|]|e] eqn:Hd; [by apply (xt_distributed _ _ _ _ Ht)|done|by eauto].
  - destruct row as [row|]; cbn; [by apply (xt_distributed _ _ _ _ Ht)|done].
Qed.

Lemma rbind_assoc {A B C X} (m : result A X) (k : A -> result B X) (h : B -> result C X) : rbind (rbind m k) h = rbind m (fun a => rbind (k a) h).
Proof. by destruct m. Qed.

Lemma archive_cases r t y at_ : tx_tiers_true r t y at_ ->
  match archive_record t r with
  | Ok (Some record) => finalized (tx_signature r) = Some record /\ at_requested_slot r record = true
  | Ok None => archive_silent r t y at_
  | Err _ => archive_failed t
  end.
Proof.
  intros Ht. pose proof (located_cases r t y at_ Ht) as Hloc. cbv zeta in Hloc. unfold archive_record.
  set (located := let? '(row, used_local) := fetch_first_transaction_position (tt_archive t) in retry_if used_local row (aa_distributed (tt_archive t))) in Hloc.
  assert (Hp : get_transaction_by_signature_and_slot (tt_archive t) = if aa_timed_out (tt_archive t) then Err TIMEOUT else let? row := located in Ok (map_transaction_row <$> row)).
  { unfold get_transaction_by_signature_and_slot, located. rewrite rbind_assoc. by destruct (fetch_first_transaction_position _) as [[]|]. }
  assert (Hu : fetch_transaction_at_position (tt_archive t) = let? row := located in let? row := retry_if true row (aa_legacy (tt_archive t)) in Ok (map_transaction_row <$> row)).
  { unfold fetch_transaction_at_position, located. rewrite rbind_assoc. by destruct (fetch_first_transaction_position _) as [[]|]. }
  unfold get_transaction_by_signature, archive_failed, archive_silent. destruct (tx_slot r) as [pin|] eqn:Hpin.
  - rewrite Hp. destruct (aa_timed_out _); [by left|]. destruct located as [[row|]|e]; cbn; [done| |by eauto]. left. split; [done|]. done.
  - destruct (aa_timed_out _); [by left|]. pose proof (position_answered r t y at_ Ht Hpin) as Hpos. destruct (tt_position t) as [[p|]|row|]; [| | |by eauto].
    + rewrite Hu. destruct located as [[row|]|e]; cbn; [done| |by eauto]. destruct (aa_legacy (tt_archive t)) as [[row|]|e] eqn:Hl; cbn; [|by left|by eauto 6].
      by apply (xt_legacy _ _ _ _ Ht).
    + right. left. split; [done|]. exact Hpos.
    + destruct Hpos as (l & Hl & Hk & Hfin & Hle & ->). destruct (row_at (lk_asked l) (tx_signature r)) as [row|] eqn:Hrow; cbn.
      2: { right. right. split; [done|]. exists l. by split_and!. }
      split; [by apply (xt_row _ _ _ _ Ht (lk_asked l))|]. unfold at_requested_slot. by rewrite Hpin.
Qed.

(** ** The records that are remembered *)

(** The cache may drop entries at any time. *)
Definition forgets (c c' : PrimaryTransactionCache) : Prop := forall m', pc_inner c' = Some m' -> exists m, pc_inner c = Some m /\ m' ⊆ m.

Inductive records_reachable : PrimaryTransactionCache -> Prop :=
| records_new max_bytes : records_reachable (primary_cache_new max_bytes)
| records_forget c c' : records_reachable c -> forgets c c' -> records_reachable c'
| records_handle params t found c y at_ : records_reachable found -> records_reachable c -> (forall r, requested params r -> tx_tiers_true r t y at_) ->
    records_reachable (snd (handle params t found c)).

Lemma insert_true r t y at_ record c : tx_tiers_true r t y at_ -> primary_true c -> finalized (tx_signature r) = Some record -> at_requested_slot r record = true ->
  primary_true (primary_cache_insert (primary_key r) record c).
Proof.
  intros Ht Hc Hf Hs. unfold primary_cache_insert. destruct (pc_inner c) as [m|] eqn:Hm; [|done]. case_match; [done|].
  intros m' sig slot rec [= <-]. rewrite lookup_insert_Some. intros [[[= <- <-] <-]|[_ Hl]]; [|by eapply Hc].
  split; [done|]. intros x Hx. unfold at_requested_slot in Hs. rewrite Hx in Hs. lia.
Qed.

Lemma handle_remembers params t found c y at_ : primary_true c -> primary_true found -> (forall r, requested params r -> tx_tiers_true r t y at_) ->
  primary_true (snd (handle params t found c)).
Proof.
  intros Hc Hf Ht. unfold handle_get_transaction. destruct (parse_request params_of params) as [r|] eqn:Hp; [|done]. apply requested_parse in Hp.
  specialize (Ht r Hp). assert (Hprimary : primary_true (snd (answer_from_primary readers encode t r found c))).
  { unfold answer_from_primary. case_match; [done|]. pose proof (archive_cases r t y at_ Ht) as Ha. destruct (archive_record t r) as [[record|]|]; try done.
    destruct Ha. by eapply insert_true. }
  case_match; [done|]. destruct (tt_head t) as [[? [record|]]|]; [done|..]; by destruct (tt_disk t) as [[slot record| |]|].
Qed.

Lemma records_true c : records_reachable c -> primary_true c.
Proof.
  induction 1 as [max_bytes|c c' _ IH Hf|params t found c y at_ _ IHf _ IHc Ht].
  - intros m sig slot record. unfold primary_cache_new. cbn. case_match; [|done]. intros [= <-]. by rewrite lookup_empty.
  - intros m' sig slot record Hm' Hl. destruct (Hf _ Hm') as (m & Hm & Hsub). eapply IH; [done|]. by eapply lookup_weaken.
  - by eapply handle_remembers.
Qed.

(** ** The answer *)

(** The record a request is to see: the head cache's, or else the finalized one. *)
Definition head_record (t : TxTiers) : option StoredTransactionRecord := tt_head t ≫= snd.
Definition to_see (r : TxRequest) (t : TxTiers) (record : StoredTransactionRecord) : Prop :=
  match head_record t with Some shown => record = shown | None => finalized (tx_signature r) = Some record end.

Definition lookup_spec (r : TxRequest) (t : TxTiers) (y : Flights) (at_ : Z) (answer : TxAnswer Encoded) : Prop :=
  match answer with
  | TxResult encoded => exists record, to_see r t record /\ at_requested_slot r record = true /\ hydrates r record = Ok encoded
  | TxUnsupportedVersion version =>
      exists record, to_see r t record /\ at_requested_slot r record = true /\ hydrates r record = Err (Hydration.UnsupportedTransactionVersion version)
  | TxNull => (forall record, to_see r t record -> at_requested_slot r record = false) \/ head_record t = None /\ archive_silent r t y at_
  | TxInternalError => tt_hydration_ran t = false \/ archive_failed t \/ 
      exists record e, to_see r t record /\ hydrates r record = Err e /\ forall version, e <> Hydration.UnsupportedTransactionVersion version
  | _ => False
  end.

Lemma respond_spec r t y at_ record : to_see r t record -> at_requested_slot r record = true -> lookup_spec r t y at_ (respond_with_hydrated_transaction readers encode t r record).
Proof.
  intros Hs Hat. unfold respond_with_hydrated_transaction. destruct (tt_hydration_ran t) eqn:Hran; [|by left].
  destruct (hydrates r record) as [e|e] eqn:Hh; cbn; [by eauto 6|]. destruct e; cbn; eauto 6; right; right; eexists _, _; by split_and!.
Qed.
Lemma respond_at_slot_spec r t y at_ record : to_see r t record -> (forall record', to_see r t record' -> record' = record) ->
  lookup_spec r t y at_ (respond_at_slot readers encode t r record).
Proof.
  intros Hs Huniq. unfold respond_at_slot. destruct (at_requested_slot r record) eqn:Hat; [by apply respond_spec|]. left. intros record' ->%Huniq. done.
Qed.
Lemma to_see_finalized r t record : head_record t = None -> finalized (tx_signature r) = Some record -> to_see r t record /\ forall record', to_see r t record' -> record' = record.
Proof. intros Hh Hf. unfold to_see. rewrite Hh. split; [done|]. congruence. Qed.

Lemma primary_spec r t y at_ found c : tx_tiers_true r t y at_ -> primary_true found -> head_record t = None ->
  lookup_spec r t y at_ (fst (answer_from_primary readers encode t r found c)).
Proof.
  intros Ht Hf Hh. unfold answer_from_primary. destruct (primary_cache_get (primary_key r) found) as [record|] eqn:Hg.
  - unfold primary_cache_get in Hg. destruct (pc_inner found) as [m|] eqn:Hm; [|done]. destruct (Hf _ _ _ _ Hm Hg) as [Hfin Hpin].
    apply respond_spec; [by apply to_see_finalized|]. unfold at_requested_slot. destruct (tx_slot r) as [s|] eqn:Hslot; [|done]. rewrite (Hpin s eq_refl). apply Z.eqb_refl.
  - pose proof (archive_cases r t y at_ Ht) as Ha. destruct (archive_record t r) as [[record|]|]; cbn; [|by right|by right; left].
    destruct Ha. apply respond_spec; [by apply to_see_finalized|done].
Qed.

(** C4: getTransaction answers with the right transaction.  Whatever requests interleaved
    before and whatever the server remembered or forgot, an answer past the checks is the
    hydration of the record the head cache shows at the commitment or else of the finalized
    transaction of the signature, at the pinned slot if one is given; null means that there is
    no such transaction at the pinned slot, or that the archive had no row: never on the word
    of one shard, and never from a miss of the position cache whose lookup ended longer than its
    time to live before the request read the clock. *)
Theorem get_transaction_exact params t found c y at_ r :
  records_reachable found -> requested params r -> tx_tiers_true r t y at_ -> validate t r = None -> lookup_spec r t y at_ (fst (handle params t found c)).
Proof.
  intros Hfound%records_true Hp%requested_parse Ht Hv. unfold handle_get_transaction. rewrite Hp. unfold commitment_of in Hv. rewrite Hv.
  assert (Hlocal : head_record t = None -> lookup_spec r t y at_ (fst (match tt_disk t with
    | Some (TxFound _ record) => (respond_at_slot readers encode t r record, c)
    | Some TxAbsent => (TxNull, c)
    | _ => answer_from_primary readers encode t r found c end))).
  { intros Hh. destruct (tt_disk t) as [[slot record| |]|] eqn:Hd; cbn [fst]; try by apply primary_spec.
    - destruct (to_see_finalized r t record Hh (xt_disk _ _ _ _ Ht _ _ Hd)). by apply respond_at_slot_spec.
    - left. intros record Hs. unfold to_see in Hs. rewrite Hh in Hs. by apply (xt_absent _ _ _ _ Ht Hd). }
  unfold head_record in Hlocal. destruct (tt_head t) as [[? [record|]]|] eqn:Hh; [|by apply Hlocal..].
  cbn [fst]. apply respond_at_slot_spec; unfold to_see, head_record; rewrite Hh; cbn; done.
Qed.
End Answers.
