(* ===== verification/GetSignatures.v ===== *)
(** * GetSignatures: getSignaturesForAddress

    Models [handle_get_signatures_for_address] of
    [crates/superbank-rpc/src/handlers/signatures.rs] from its decoded options on: the
    cursors are resolved in the head cache, the disk cache and the archive, a page is taken
    from the disk cache, from the archive, or from a race of both, rows of the head cache
    are merged in, and addresses without history are remembered ([Watermark]).  What the
    tiers answer is a parameter of each request ([GsfaHead], [GsfaDisk], [GsfaArchive]).  Its
    reads happen one after the other: a field per read, so that two reads of one request may
    answer from different states of a cache. *)

From S2P Require Import Prelude Text BTree Cursors HeadCoverage HeadReaders Watermark Hydration.

Open Scope list_scope.
Open Scope Z_scope.

(** A signature or an address is its text; [I] is the rest of a row. *)
Definition Key : Type := list Z.

Section Gsfa.
Context {I : Type}.

Record SignatureRecord := mkRecord { sg_signature : Key; sg_pos : SignatureSlot; sg_info : I }.
Record DiskGsfaPage := mkPage { pg_records : list SignatureRecord; pg_reached_floor : bool; pg_floor : Z; pg_tip : Z }.

Local Abbreviation Bound := (option SlotBoundary).

(** ** The tiers *)

(** [GsfaCursor], [GsfaMissingCursor], [InlineGsfaPage] *)
Inductive GsfaCursor := Resolved (bound : Bound) | Deferred (signature : Key).
Inductive GsfaMissingCursor := MissingBefore | MissingUntil.
Inductive InlineGsfaPage := InlineRows (records : list SignatureRecord) (before until : option SignatureSlot) | InlineMissing (which : GsfaMissingCursor).

(** The head cache at the requested commitment, read by read: the positions of cursors, the
    floor from which it has all rows of the address (its chain part is read before the rows),
    the rows with their confirmation status (read once: before the page, or after it when a
    cursor is deferred), whether the list of the address is full, and whether it proves every
    slot above one, asked when a watermark is looked up and again with the page of the disk
    cache; both come after the rows.  Then its newest slot. *)
Record GsfaHead := mkGsfaHead {
  gh_position : Key -> option SignatureSlot; gh_rows : Bound -> Bound -> Z -> list (SignatureRecord * string);
  gh_address_floor : option Z; gh_list_full : bool; gh_proves_before : Z -> bool; gh_proves_after : Z -> bool; gh_latest : Z;
}.
(** The disk cache: positions, its span when a watermark is checked, when an archive page
    starts and during the read, its rows between two bounds ([None] when the read fails), and
    [GSFA_RACE_PRIMARY]. *)
Record GsfaDisk := mkGsfaDisk {
  gd_position : Key -> option SignatureSlot; gd_span_before : option (Z * Z); gd_span_fill : option (Z * Z); gd_span : option (Z * Z);
  gd_rows : Bound -> Bound -> Z -> option (list SignatureRecord); gd_race_primary : bool;
}.
(** The archive: [CLICKHOUSE_GSFA_INLINE_CURSOR], the position cache, the position lookup, the
    page, the page with cursors resolved in it, and its newest slot. *)
Record GsfaArchive := mkGsfaArchive {
  ga_inline : bool; ga_cached : Key -> option (option SignatureSlot); ga_position : Key -> result (option SignatureSlot) unit;
  ga_page : Z -> Bound -> Bound -> result (list SignatureRecord) unit; ga_inline_page : Z -> GsfaCursor -> GsfaCursor -> result InlineGsfaPage unit;
  ga_tip : option Z;
}.

(** [signatures_for_address_until] of [disk_cache/key_reads.rs] *)
Definition signatures_for_address_until (d : GsfaDisk) (before until : Bound) (limit : Z) : option DiskGsfaPage :=
  match gd_span d with
  | None => None
  | Some (floor, tip) =>
      let '(until, floor_effective) := clamp_until_to_floor until floor in
      match gd_rows d before until limit with
      | None => None
      | Some records => Some (mkPage records ((zlen records <? limit) && floor_effective) floor tip)
      end
  end.

(** ** Answers *)

Inductive GsfaAnswer :=
| GsfaInvalidParams (message : string)
| GsfaMinContextSlotNotReached (context_slot : Z)
| GsfaNodeUnhealthy
| GsfaStorageUnreachable
| GsfaFilterTransactionNotFound (signature : Key)
| GsfaRows (rows : list (SignatureRecord * string)).

(** ** Options *)

Record GsfaOptions := mkGsfaOptions {
  go_limit : option Z; go_commitment : option string; go_before : option Key; go_until : option Key;
  go_before_slot : option Z; go_until_slot : option Z; go_min_context_slot : option Z;
}.

Definition known_commitments : list string := ["finalized"; "confirmed"; "processed"]%string.
Definition max_message (max_limit : Z) : string := "Invalid limit; max " +:+ to_string max_limit.

(** The checks before any tier is asked: the limit to use. *)
Definition check_options (valid : Key -> bool) (max_limit : Z) (head : option GsfaHead) (o : GsfaOptions) : result Z GsfaAnswer :=
  let requested_limit := default max_limit (go_limit o) in
  let invalid message := GsfaInvalidParams message in
  let? _ := ensure (negb (requested_limit =? 0)) (invalid (max_message max_limit)) in
  let? _ :=
    match go_commitment o with
    | None => Ok tt
    | Some text =>
        let text := to_ascii_lowercase text in
        if existsb (String.eqb text) known_commitments then
          ensure (negb (String.eqb text "processed") || bool_decide (is_Some head)) (invalid "Only confirmed or finalized commitments are supported")
        else Err (invalid ("Invalid params: unsupported commitment '" +:+ text +:+ "'"))
    end in
  let? _ := ensure (from_option valid true (go_before o)) (invalid "Invalid params: before must be a valid signature") in
  let? _ := ensure (from_option valid true (go_until o)) (invalid "Invalid params: until must be a valid signature") in
  let? _ := ensure (negb (bool_decide (is_Some (go_before o)) && bool_decide (is_Some (go_before_slot o))))
    (invalid "Invalid params: before and beforeSlot are mutually exclusive") in
  let? _ := ensure (negb (bool_decide (is_Some (go_until o)) && bool_decide (is_Some (go_until_slot o))))
    (invalid "Invalid params: until and untilSlot are mutually exclusive") in
  Ok (Z.min requested_limit max_limit).

(** The minimum context slot, against [resolve_latest_slot_with_source]. *)
Definition check_context (head : option GsfaHead) (a : GsfaArchive) (o : GsfaOptions) : result unit GsfaAnswer :=
  match go_min_context_slot o with
  | None => Ok tt
  | Some min_context_slot =>
      let latest := match head with Some h => if 0 <? gh_latest h then Some (gh_latest h) else ga_tip a | None => ga_tip a end in
      match latest with
      | None => Err GsfaNodeUnhealthy
      | Some context_slot => ensure (negb (context_slot <? min_context_slot)) (GsfaMinContextSlotNotReached context_slot)
      end
  end.

(** ** Cursors *)

Inductive PrimaryCursor := CursorFound (position : SignatureSlot) | CursorMissing | CursorDeferred.

(** [resolve_cursor_on_primary] *)
Definition resolve_cursor_on_primary (a : GsfaArchive) (signature : Key) : result PrimaryCursor unit :=
  if ga_inline a then
    Ok (match ga_cached a signature with
        | Some (Some position) => CursorFound position
        | Some None => CursorMissing
        | None => CursorDeferred
        end)
  else let? position := ga_position a signature in Ok (match position with Some position => CursorFound position | None => CursorMissing end).

(** A cursor: its bound, and the signature that is left to the page query. *)
Definition resolve_cursor (head : option GsfaHead) (disk : option GsfaDisk) (a : GsfaArchive) (signature : Key) : result (Bound * option Key) GsfaAnswer :=
  match (head ≫= fun h => gh_position h signature), (disk ≫= fun d => gd_position d signature) with
  | Some position, _ | None, Some position => Ok (Some (Position position), None)
  | None, None =>
      match resolve_cursor_on_primary a signature with
      | Err _ => Err GsfaStorageUnreachable
      | Ok (CursorFound position) => Ok (Some (Position position), None)
      | Ok CursorMissing => Err (GsfaFilterTransactionNotFound signature)
      | Ok CursorDeferred => Ok (None, Some signature)
      end
  end.
Definition resolve_bounds (head : option GsfaHead) (disk : option GsfaDisk) (a : GsfaArchive) (o : GsfaOptions) :
    result (Bound * option Key * (Bound * option Key)) GsfaAnswer :=
  let? before := match go_before o with Some signature => resolve_cursor head disk a signature | None => Ok (Slot <$> go_before_slot o, None) end in
  let? until :=
    match go_until o with
    | Some signature => if bool_decide (go_before o = Some signature) then Ok before else resolve_cursor head disk a signature
    | None => Ok (Slot <$> go_until_slot o, None)
    end in
  Ok (before, until).

(** [inline_cursor] *)
Definition inline_cursor (c : Bound * option Key) : GsfaCursor := match snd c with Some signature => Deferred signature | None => Resolved (fst c) end.

(** [inline_cursor_page]: nothing when no cursor is deferred, and otherwise the rows of the
    page, or its error, with the bounds its cursors resolved to. *)
Definition inline_cursor_page (a : GsfaArchive) (limit : Z) (o : GsfaOptions) (before until : Bound * option Key) :
    result (option (result (list SignatureRecord * option SignatureSlot * option SignatureSlot) unit)) GsfaAnswer :=
  match snd before, snd until with
  | None, None => Ok None
  | deferred_before, deferred_until =>
      match ga_inline_page a limit (inline_cursor before) (inline_cursor until) with
      | Err e => Ok (Some (Err e))
      | Ok (InlineMissing which) =>
          Err (GsfaFilterTransactionNotFound (default [] (match which with MissingBefore => go_before o | MissingUntil => go_until o end)))
      | Ok (InlineRows records before_pos until_pos) =>
          let until_pos := if bool_decide (is_Some deferred_until) && bool_decide (deferred_until = deferred_before) then before_pos else until_pos in
          Ok (Some (Ok (records, before_pos, until_pos)))
      end
  end.

(** ** Pages *)

(** The rows of the archive and the page of the disk cache. *)
Local Abbreviation PageResult := (result (list SignatureRecord * option DiskGsfaPage) unit).

(** [serial_gsfa_page] *)
Definition serial_gsfa_page (a : GsfaArchive) (local : option DiskGsfaPage) (limit : Z) (before until : Bound) : PageResult :=
  match local with
  | Some page =>
      if negb (pg_reached_floor page) then Ok ([], Some page)
      else let? records := ga_page a (limit - zlen (pg_records page)) (Some (clamp_before_to_floor before (pg_floor page))) until in Ok (records, Some page)
  | None => let? records := ga_page a limit before until in Ok (records, None)
  end.

(** [race_gsfa_page]; [primary_first] says which future is ready first. *)
Definition complete_page (local : option DiskGsfaPage) : option DiskGsfaPage :=
  match local with Some page => if pg_reached_floor page then None else Some page | None => None end.
Definition race_gsfa_page (primary_first : bool) (local : option DiskGsfaPage) (primary : result (list SignatureRecord) unit) : PageResult :=
  if primary_first then
    match primary with
    | Ok records => Ok (records, None)
    | Err e => match complete_page local with Some page => Ok ([], Some page) | None => Err e end
    end
  else
    match complete_page local with
    | Some page => Ok ([], Some page)
    | None => let? records := primary in Ok (records, None)
    end.

(** [watermark_provable] *)
Definition watermark_provable (h : GsfaHead) (d : GsfaDisk) (watermark : Z) : bool :=
  match gd_span_before d with
  | None => false
  | Some (floor, tip) => local_page_reaches_watermark floor watermark && gh_proves_before h tip
  end.

(** [watermark_gsfa_page] *)
Definition watermark_gsfa_page (h : GsfaHead) (d : GsfaDisk) (a : GsfaArchive) (limit watermark : Z) : PageResult :=
  let primary := let? records := ga_page a limit None None in Ok (records, None) in
  match signatures_for_address_until d None None limit with
  | None => primary
  | Some page =>
      if negb (pg_reached_floor page) || (local_page_reaches_watermark (pg_floor page) watermark && gh_proves_after h (pg_tip page))
      then Ok ([], Some page) else primary
  end.

(** The local page of the serial path and of the race: none when rows above its tip are owed
    that the head cache does not prove. *)
Definition gap_covered (head : option GsfaHead) (page : DiskGsfaPage) (before until : Bound) : bool :=
  tip_gap_covered (gsfa_tip_gap (pg_tip page) before until) (head ≫= gh_address_floor).
Definition serial_local (head : option GsfaHead) (d : GsfaDisk) (before until : Bound) (limit : Z) : option DiskGsfaPage :=
  match signatures_for_address_until d before until limit with
  | Some page => if gap_covered head page before until then Some page else None
  | None => None
  end.
Definition race_local (head : option GsfaHead) (d : GsfaDisk) (before until : Bound) (limit : Z) : option DiskGsfaPage :=
  match signatures_for_address_until d before until limit with
  | Some page => if pg_reached_floor page || gap_covered head page before until then Some page else None
  | None => None
  end.

(** ** The merge *)

(** The rows of a tier whose signatures were not seen before. *)
Fixpoint push_unseen (seen : list Key) (rows : list (SignatureRecord * string)) : list (SignatureRecord * string) :=
  match rows with
  | [] => []
  | row :: rows =>
      if bool_decide (sg_signature (fst row) ∈ seen) then push_unseen seen rows else row :: push_unseen (sg_signature (fst row) :: seen) rows
  end.
Definition finalized_rows (rows : list SignatureRecord) : list (SignatureRecord * string) := (fun r => (r, "finalized"%string)) <$> rows.

(** Slots, then indices, then signatures, descending. *)
Definition row_precedes (x y : SignatureRecord * string) : Prop :=
  let a := fst x in let b := fst y in
  (slot_index_gt (sg_pos a) (sg_pos b) || (bool_decide (sg_pos a = sg_pos b) && sig_leb (sg_signature b) (sg_signature a)))%bool = true.
#[export] Instance row_precedes_dec : RelDecision row_precedes.
Proof. intros x y. unfold row_precedes. apply _. Defined.

Definition merge_pages (limit : Z) (archive disk : list SignatureRecord) (head : list (SignatureRecord * string)) : list (SignatureRecord * string) :=
  let seen := sg_signature <$> archive in
  let others := push_unseen seen (finalized_rows disk ++ head) in
  take (Z.to_nat limit) (merge_sort row_precedes (finalized_rows archive ++ others)).

(** ** The handler *)

Section Handler.
Context (valid : Key -> bool) (max_limit : Z).

(** The page of a request whose cursors are resolved, the watermarks after the lookup, and the
    tip under which an empty page may be remembered. *)
Definition watermark_request (o : GsfaOptions) : bool :=
  bool_decide (go_before o = None) && bool_decide (go_until o = None) && bool_decide (go_before_slot o = None) && bool_decide (go_until_slot o = None).
Definition choose_page (address : Key) (o : GsfaOptions) (head : option GsfaHead) (disk : option GsfaDisk) (a : GsfaArchive) (primary_first : bool) (now : Z)
    (limit : Z) (before until : Bound) (marks : GsfaWatermarks (K := Key)) : PageResult * GsfaWatermarks (K := Key) * option Z :=
  match disk with
  | None => (let? records := ga_page a limit before until in Ok (records, None), marks, None)
  | Some d =>
      if negb (gd_race_primary d) then (serial_gsfa_page a (serial_local head d before until limit) limit before until, marks, None)
      else
        let race := race_gsfa_page primary_first (race_local head d before until limit) (ga_page a limit before until) in
        match head with
        | None => (race, marks, None)
        | Some h =>
            let '(marks, watermark) := if watermark_request o && negb (gh_list_full h) then get address now marks else (marks, None) in
            match watermark with
            | Some watermark =>
                if watermark_provable h d watermark then (watermark_gsfa_page h d a limit watermark, marks, None)
                else (race, marks, if watermark_request o && enabled marks then snd <$> gd_span_fill d else None)
            | None => (race, marks, if watermark_request o && enabled marks then snd <$> gd_span_fill d else None)
            end
        end
  end.

(** Only an empty page of the archive writes a watermark; rows remove it. *)
Definition update_watermarks (address : Key) (o : GsfaOptions) (head : option GsfaHead) (disk : option GsfaDisk) (now : Z) (records : list SignatureRecord)
    (page : option DiskGsfaPage) (fill_tip : option Z) (marks : GsfaWatermarks (K := Key)) : GsfaWatermarks (K := Key) :=
  match head, disk with
  | Some _, Some _ =>
      if watermark_request o then
        match records, page, fill_tip with
        | _ :: _, _, _ => remove_watermark address marks
        | [], None, Some tip => insert_watermark address (fill_watermark tip) now marks
        | _, _, _ => marks
        end
      else marks
  | _, _ => marks
  end.

Definition rows_of (head : option GsfaHead) (before until : Bound) (limit : Z) : list (SignatureRecord * string) :=
  match head with Some h => gh_rows h before until limit | None => [] end.

Definition handle_get_signatures_for_address (address : Key) (o : GsfaOptions) (head : option GsfaHead) (disk : option GsfaDisk) (a : GsfaArchive)
    (primary_first : bool) (now : Z) (marks : GsfaWatermarks (K := Key)) : GsfaAnswer * GsfaWatermarks (K := Key) :=
  let checked :=
    let? limit := check_options valid max_limit head o in
    let? _ := check_context head a o in
    let? bounds := resolve_bounds head disk a o in
    Ok (limit, bounds) in
  match checked with
  | Err refusal => (refusal, marks)
  | Ok (limit, (before, until)) =>
      let deferred := bool_decide (is_Some (snd before)) || bool_decide (is_Some (snd until)) in
      let head_rows := if deferred then [] else rows_of head (fst before) (fst until) limit in
      if (limit <=? zlen head_rows) && bool_decide (is_Some head) then (GsfaRows head_rows, marks)
      else
        match inline_cursor_page a limit o before until with
        | Err refusal => (refusal, marks)
        | Ok inline =>
            let resolved (bound : Bound) (position : option SignatureSlot) := match position with Some p => Some (Position p) | None => bound end in
            let '(page, head_rows, marks, fill_tip) :=
              match inline with
              | Some (Ok (records, before_pos, until_pos)) =>
                  (Ok (records, None), rows_of head (resolved (fst before) before_pos) (resolved (fst until) until_pos) limit, marks, None)
              | Some (Err e) => (Err e, head_rows, marks, None)
              | None =>
                  let '(page, marks, fill_tip) := choose_page address o head disk a primary_first now limit (fst before) (fst until) marks in
                  (page, head_rows, marks, fill_tip)
              end in
            match page with
            | Err _ => (GsfaStorageUnreachable, marks)
            | Ok (records, disk_page) =>
                (GsfaRows (merge_pages limit records (match disk_page with Some page => pg_records page | None => [] end) head_rows),
                 update_watermarks address o head disk now records disk_page fill_tip marks)
            end
        end
  end.
End Handler.
End Gsfa.
