(* ===== verification/GetSignaturesSound.v ===== *)
(** * GetSignaturesSound: pages are the newest rows of the address

    [rows] are the rows of the address that are visible at the commitment of a request,
    newest first.  Every tier answers with the newest of the rows it has; whatever tiers
    answer, the page served is the newest of all rows between the cursors. *)

From S2P Require Import Prelude Text BTree Cursors HeadCoverage HeadReaders HeadReadersSound Watermark Hydration GetSignatures.

Open Scope list_scope.
Open Scope Z_scope.

(** ** The newest of a list *)

Section Newest.
Context {A : Type} (R : A -> A -> Prop).

(** Dropping elements that have [n] others before them does not change the first [n]. *)
Lemma take_filter (u : A -> bool) l : forall n,
  (forall l1 x l2, l = l1 ++ x :: l2 -> u x = false -> (n <= length (List.filter u l1))%nat) -> take n (List.filter u l) = take n l.
Proof.
  induction l as [|x l IH]; intros n Hn; [by destruct n|]. destruct n as [|n]; [done|]. cbn [List.filter].
  destruct (u x) eqn:Hu; cbn [take].
  - f_equal. apply IH. intros l1 y l2 -> Hy. specialize (Hn (x :: l1) y l2 eq_refl Hy). cbn [List.filter] in Hn. rewrite Hu in Hn. cbn in Hn. lia.
  - specialize (Hn [] x l eq_refl Hu). cbn in Hn. lia.
Qed.

Context `{!Transitive R} (Hirr : forall x, ~ R x x).

Lemma sorted_filter (p : A -> bool) l : StronglySorted R l -> StronglySorted R (List.filter p l).
Proof.
  induction 1 as [|x l Hs IH Hf]; cbn; [constructor|]. destruct (p x); [|done]. constructor; [done|].
  rewrite Forall_forall in *. intros y [Hy _]%elem_of_filter_b. auto.
Qed.
Lemma take_elem n (l : list A) x : x ∈ take n l -> x ∈ l.
Proof. rewrite elem_of_take. intros (i & Hi & _). by eapply list_elem_of_lookup_2. Qed.
Lemma sorted_take n l : StronglySorted R l -> StronglySorted R (take n l).
Proof.
  intros Hs. revert n. induction Hs as [|x l Hs IH Hf]; intros [|n]; cbn; constructor; [done|].
  rewrite Forall_forall in *. intros y Hy%take_elem. auto.
Qed.
Lemma sorted_NoDup l : StronglySorted R l -> NoDup l.
Proof. induction 1 as [|x l Hs IH Hf]; constructor; [|done]. intros Hx. rewrite Forall_forall in Hf. exact (Hirr x (Hf x Hx)). Qed.
Lemma sorted_same l k : StronglySorted R l -> StronglySorted R k -> (forall x, x ∈ l <-> x ∈ k) -> l = k.
Proof.
  intros Hl Hk He. apply (StronglySorted_unique_strong R); [|done|done|by apply NoDup_Permutation; [apply sorted_NoDup..|]].
  intros x y _ _ Hxy Hyx. destruct (Hirr x). by trans y.
Qed.

(** The first [n] of a sorted list hold an element or [n] elements before it. *)
Lemma newest_holds n l x : StronglySorted R l -> x ∈ l -> x ∈ take n l \/ length (take n l) = n /\ Forall (fun y => R y x) (take n l).
Proof.
  intros Hs Hx. rewrite <- (take_drop n l) in Hx, Hs. apply elem_of_app in Hx as [Hx|Hx]; [by left|right]. split.
  - rewrite length_take. assert (length (drop n l) <> 0)%nat by (destruct (drop n l); [by apply elem_of_nil in Hx|done]). rewrite length_drop in *. lia.
  - apply Forall_forall. intros y Hy. by eapply sorted_app.
Qed.

(** What a merge of sources yields: the first [n] of [l], when each source is in [l] and an
    element that no source has comes after [n] elements of the sources. *)
Lemma sources_newest `{!EqDecision A} n (l k : list A) : StronglySorted R l -> StronglySorted R k -> (forall x, x ∈ k -> x ∈ l) ->
  (forall x, x ∈ l -> x ∈ k \/ exists m, NoDup m /\ (forall y, y ∈ m -> y ∈ k /\ R y x) /\ (n <= length m)%nat) ->
  take n k = take n l.
Proof.
  intros Hl Hk Hsub Hcover. set (u := fun x => bool_decide (x ∈ k)).
  assert (Hf : k = List.filter u l).
  { apply sorted_same; [done|by apply sorted_filter|]. intros x. rewrite elem_of_filter_b. unfold u. rewrite bool_decide_eq_true. naive_solver. }
  rewrite Hf. apply take_filter. intros l1 x l2 -> Hx. unfold u in Hx. apply bool_decide_eq_false in Hx.
  destruct (Hcover x) as [?|(m & Hm & Hin & Hlen)]; [set_solver|done|]. etrans; [exact Hlen|].
  apply submseteq_length, NoDup_submseteq; [done|]. intros y Hy. destruct (Hin y Hy) as [Hyk HR]. apply elem_of_filter_b. split; [|by unfold u; rewrite bool_decide_eq_true].
  apply Hsub in Hyk. apply elem_of_app in Hyk as [?|Hyk]; [done|exfalso]. apply elem_of_cons in Hyk as [->|Hyk]; [by destruct (Hirr x)|].
  assert (R x y). { eapply (sorted_app R (l1 ++ [x]) l2); [by rewrite <- app_assoc|set_solver|done]. } destruct (Hirr x). by trans y.
Qed.
End Newest.

Lemma sorted_trichotomy {A} (R : A -> A -> Prop) l x y : StronglySorted R l -> x ∈ l -> y ∈ l -> x = y \/ R x y \/ R y x.
Proof.
  induction 1 as [|z l Hs IH Hf]; [by intros ?%elem_of_nil|]. rewrite Forall_forall in Hf. rewrite !elem_of_cons. naive_solver.
Qed.

(** Watermarks are not made up by evictions. *)
Lemma evict_sub {K} `{Countable K} limit order : forall (e : gmap K (Z * Z)) a x, entries (evict limit e order) !! a = Some x -> e !! a = Some x.
Proof.
  induction order as [|[k t] order IH]; intros e a x; cbn [evict]; [done|]. destruct (limit <? Z.of_nat (size e)); [|done].
  intros Hx%IH. destruct (live e (k, t)); [|done]. by apply lookup_delete_Some in Hx as [_ Hx].
Qed.
Lemma insert_watermark_sub {K} `{Countable K} (g : GsfaWatermarks (K := K)) a w now b x :
  entries (inner (insert_watermark a w now g)) !! b = Some x -> entries (inner g) !! b = Some x \/ b = a /\ x = (w, now).
Proof.
  unfold insert_watermark. destruct (enabled g); [|by left]. cbn [negb]. set (i := evict _ _ _). intros Hx.
  assert (Hi : entries i !! b = Some x) by by destruct (_ <? _). apply evict_sub in Hi. apply lookup_insert_Some in Hi as [[-> <-]|[_ Hi]]; auto.
Qed.
Lemma remove_watermark_sub {K} `{Countable K} (g : GsfaWatermarks (K := K)) a b x : entries (inner (remove_watermark a g)) !! b = Some x -> entries (inner g) !! b = Some x.
Proof. unfold remove_watermark. destruct (enabled g); [|done]. cbn. by intros [_ Hx]%lookup_delete_Some. Qed.
Lemma get_watermark_sub {K} `{Countable K} (g g' : GsfaWatermarks (K := K)) a now w b x :
  get a now g = (g', w) -> (entries (inner g') !! b = Some x -> entries (inner g) !! b = Some x) /\ (forall v, w = Some v -> exists t, entries (inner g) !! a = Some (v, t)).
Proof.
  unfold get. destruct (enabled g); cbn [negb]; [|by intros [= <- <-]]. destruct (entries (inner g) !! a) as [[v t]|]; [|by intros [= <- <-]].
  destruct (fresh g now t); intros [= <- <-]; [naive_solver|]. split; [|done]. cbn. by intros [_ Hx]%lookup_delete_Some.
Qed.

(** ** Rows and merges *)

Section Truth.
Context {I : Type} `{!EqDecision I}.
Local Abbreviation Rec := (SignatureRecord (I := I)).

#[export] Instance SignatureRecord_eq_dec : EqDecision Rec.
Proof. solve_decision. Defined.

Definition newer (a b : Rec) : Prop := pos_lt (sg_pos b) (sg_pos a).
#[export] Instance newer_trans : Transitive newer.
Proof. intros x y z. unfold newer, pos_lt. lia. Qed.
Lemma newer_irrefl x : ~ newer x x.
Proof. unfold newer, pos_lt. lia. Qed.

#[export] Instance row_precedes_total : Total (row_precedes (I := I)).
Proof.
  intros [x s] [y t]. unfold row_precedes. cbn [fst]. unfold slot_index_gt. destruct (sg_pos x) as [a b], (sg_pos y) as [c d]. cbn.
  destruct (sig_leb_total (sg_signature y) (sg_signature x)) as [H|H]; rewrite H; (do 2 case_bool_decide); simplify_eq; try lia;
    match goal with Hn : mkSigSlot _ _ <> mkSigSlot _ _ |- _ => assert (~ (a = c /\ b = d)) by (intros [-> ->]; done); lia end.
Qed.
#[export] Instance row_precedes_trans : Transitive (row_precedes (I := I)).
Proof.
  intros [x s] [y t] [z u]. unfold row_precedes. cbn [fst]. rewrite !orb_true_iff, !andb_true_iff, !bool_decide_eq_true, !slot_index_gt_spec.
  unfold pos_lt. intros [?|[E1 H1]] [?|[E2 H2]]; [left; lia|rewrite <- E2; by left|rewrite E1; by left|right]. split; [congruence|].
  by eapply sig_leb_trans.
Qed.

(** The rows of the address at the commitment of the request, newest first. *)
Record rows_ok (rows : list Rec) : Prop := {
  ro_sorted : StronglySorted newer rows;
  ro_signatures : forall x y, x ∈ rows -> y ∈ rows -> sg_signature x = sg_signature y -> x = y;
  ro_slots : forall x, x ∈ rows -> is_u64 (ss_slot (sg_pos x));
}.

Context (rows : list Rec) (Hrows : rows_ok rows).

Definition between (before until : option SlotBoundary) : list Rec := List.filter (fun r => in_bounds before until (sg_pos r)) rows.
(** The newest [n] rows of a tier between two bounds. *)
Definition newest (tier : Rec -> bool) (n : Z) (before until : option SlotBoundary) : list Rec :=
  take (Z.to_nat n) (List.filter tier (between before until)).

Lemma between_elem b u x : x ∈ between b u <-> x ∈ rows /\ before_ok b (sg_pos x) /\ until_ok u (sg_pos x).
Proof. unfold between. by rewrite elem_of_filter_b, in_bounds_spec. Qed.
Lemma between_sorted b u : StronglySorted newer (between b u).
Proof. apply sorted_filter, Hrows. Qed.
Lemma newest_sorted tier n b u : StronglySorted newer (newest tier n b u).
Proof. apply sorted_take, sorted_filter, between_sorted. Qed.
Lemma newest_NoDup tier n b u : NoDup (newest tier n b u).
Proof. eapply sorted_NoDup, newest_sorted. apply newer_irrefl. Qed.
Lemma newest_elem tier n b u x : x ∈ newest tier n b u -> x ∈ between b u /\ tier x = true.
Proof. intros Hx%take_elem. by apply elem_of_filter_b in Hx. Qed.
Lemma newest_length tier n b u : 0 <= n -> zlen (newest tier n b u) <= n.
Proof. intros. unfold newest, zlen. rewrite length_take. lia. Qed.

(** A row is covered by sources when they have it or [n] newer rows. *)
Definition covered (n : Z) (sources : list Rec) (x : Rec) : Prop :=
  x ∈ sources \/ exists m, NoDup m /\ (forall y, y ∈ m -> y ∈ sources /\ newer y x) /\ (Z.to_nat n <= length m)%nat.

Lemma newest_covers tier n b u x : x ∈ between b u -> tier x = true -> covered n (newest tier n b u) x.
Proof.
  intros Hx Ht. destruct (newest_holds newer (Z.to_nat n) (List.filter tier (between b u)) x) as [?|[Hl Hf]];
    [apply sorted_filter, between_sorted|by apply elem_of_filter_b|by left|right].
  exists (newest tier n b u). split_and!; [apply newest_NoDup| |unfold newest; lia]. intros y Hy. split; [done|]. by eapply Forall_forall in Hf.
Qed.
Lemma covered_mono n s s' x : (forall y, y ∈ s -> y ∈ s') -> covered n s x -> covered n s' x.
Proof. intros Hs [?|(m & ? & Hm & ?)]; [left; auto|right]. exists m. split_and!; [done| |done]. intros y Hy. destruct (Hm y Hy). auto. Qed.

(** Pushing rows whose signatures were not seen: a row of the address is pushed unless it was
    seen, and once. *)
Lemma push_unseen_spec seen (l : list (Rec * string)) : (forall x, x ∈ fst <$> l -> x ∈ rows) ->
  NoDup (fst <$> push_unseen seen l) /\
  (forall x, x ∈ fst <$> push_unseen seen l <-> x ∈ fst <$> l /\ sg_signature x ∉ seen).
Proof.
  revert seen. induction l as [|[x t] l IH]; intros seen Hl; cbn [push_unseen]; [split; [constructor|set_solver]|]. cbn [fst].
  assert (Hl' : forall y, y ∈ fst <$> l -> y ∈ rows) by (intros; apply Hl; rewrite fmap_cons; by right).
  assert (Hx : x ∈ rows) by (apply Hl; rewrite fmap_cons; by left).
  case_bool_decide as Hs.
  - destruct (IH seen Hl') as [Hn He]. split; [done|]. intros y. rewrite He, fmap_cons, elem_of_cons. cbn [fst]. naive_solver.
  - destruct (IH (sg_signature x :: seen) Hl') as [Hn He]. rewrite !fmap_cons. cbn [fst]. split.
    + constructor; [|done]. rewrite He. set_solver.
    + intros y. rewrite !elem_of_cons, He, not_elem_of_cons. split; [naive_solver|]. intros [[->|Hy] Hn']; [by left|].
      destruct (decide (y = x)) as [->|Hyx]; [by left|right]. split_and!; [done| |done]. intros E. destruct Hyx. apply (ro_signatures rows Hrows); auto.
Qed.

(** Rows of the address in the order of the merge are newest first. *)
Lemma precedes_sorted (l : list (Rec * string)) : StronglySorted row_precedes l -> NoDup (fst <$> l) -> (forall x, x ∈ fst <$> l -> x ∈ rows) ->
  StronglySorted newer (fst <$> l).
Proof.
  induction 1 as [|[x t] l Hs IH Hf]; intros Hn Hl; [constructor|]. rewrite fmap_cons in *. cbn [fst] in *.
  apply NoDup_cons in Hn as [Hx Hn]. constructor; [apply IH; [done|]; intros; apply Hl; by right|].
  rewrite Forall_forall in Hf. rewrite Forall_forall. intros y Hy. assert (Hyr : y ∈ rows) by (apply Hl; by right). assert (Hxr : x ∈ rows) by (apply Hl; by left).
  apply list_elem_of_fmap in Hy as ([y' t'] & -> & Hy). specialize (Hf _ Hy). cbn [fst] in *.
  destruct (sorted_trichotomy newer rows x y') as [->|[?|Hlt]]; [apply Hrows|done|done| |done|exfalso].
  - destruct Hx. apply list_elem_of_fmap. by exists (y', t').
  - unfold row_precedes in Hf. cbn [fst] in Hf. rewrite orb_true_iff, andb_true_iff, bool_decide_eq_true, slot_index_gt_spec in Hf.
    unfold newer, pos_lt in *. destruct Hf as [?|[E _]]; [lia|]. rewrite E in Hlt. lia.
Qed.

Lemma finalized_rows_fst (l : list Rec) : fst <$> finalized_rows l = l.
Proof. unfold finalized_rows. rewrite <- list_fmap_compose. apply list_fmap_id. Qed.

(** A merge whose sources cover the rows between the bounds is the newest of them. *)
Lemma merge_exact limit archive disk head b u :
  NoDup archive -> (forall x, x ∈ archive ++ disk ++ (fst <$> head) -> x ∈ between b u) ->
  (forall x, x ∈ between b u -> covered limit (archive ++ disk ++ (fst <$> head)) x) ->
  fst <$> merge_pages limit archive disk head = take (Z.to_nat limit) (between b u).
Proof.
  intros Hn Hsub Hcov. unfold merge_pages. set (others := push_unseen _ _). set (all := finalized_rows archive ++ others).
  assert (Hrow : forall x, x ∈ archive ++ disk ++ (fst <$> head) -> x ∈ rows) by (intros x [? _]%Hsub%between_elem; done).
  destruct (push_unseen_spec (sg_signature <$> archive) (finalized_rows disk ++ head)) as [Hno Heo].
  { intros x. rewrite fmap_app, finalized_rows_fst. set_solver. }
  fold others in Hno, Heo. setoid_rewrite fmap_app in Heo. setoid_rewrite finalized_rows_fst in Heo.
  assert (Hall : forall x, x ∈ fst <$> all <-> x ∈ archive ++ disk ++ (fst <$> head)).
  { intros x. unfold all. rewrite fmap_app, finalized_rows_fst, elem_of_app, Heo, !elem_of_app. split; [tauto|]. intros Hx.
    destruct (decide (x ∈ archive)); [by left|right]. split; [tauto|]. intros (y & Ey & Hy)%list_elem_of_fmap.
    assert (x = y); [|congruence]. apply (ro_signatures rows Hrows); [apply Hrow|apply Hrow|done]; rewrite !elem_of_app; tauto. }
  assert (Hnd : NoDup (fst <$> all)).
  { unfold all. rewrite fmap_app, finalized_rows_fst. apply NoDup_app. split_and!; [done| |done]. intros x Hx [_ Hs]%Heo. destruct Hs.
    apply list_elem_of_fmap. eauto. }
  assert (Hp : fst <$> merge_sort row_precedes all ≡ₚ fst <$> all) by (f_equiv; apply merge_sort_Permutation).
  rewrite fmap_take. apply sources_newest with (R := newer).
  - apply _.
  - apply newer_irrefl.
  - apply _.
  - apply between_sorted.
  - apply precedes_sorted; [apply StronglySorted_merge_sort; apply _|by rewrite Hp|]. intros x. rewrite Hp, Hall. apply Hrow.
  - intros x. rewrite Hp, Hall. apply Hsub.
  - intros x Hx. destruct (Hcov x Hx) as [Hc|(m & Hm & Hin & Hl)]; [left; by rewrite Hp, Hall|right]. exists m. split_and!; [done| |done].
    intros y Hy. rewrite Hp, Hall. by apply Hin.
Qed.

(** ** What the tiers promise *)

Context (place : Key -> option SignatureSlot) (in_head in_disk in_archive : Rec -> bool).

(** The head cache: [in_head] are the rows it has when they are read.  They are upward closed,
    and complete from the floor of the address, whose chain part was read before them. *)
Record head_true (h : GsfaHead (I := I)) : Prop := {
  ht_position : forall s p, gh_position h s = Some p -> place s = Some p;
  ht_rows : forall b u n, 0 < n -> fst <$> gh_rows h b u n = newest in_head n b u;
  ht_upward : forall x y, x ∈ rows -> in_head y = true -> newer x y -> in_head x = true;
  ht_floor : forall f x, gh_address_floor h = Some f -> x ∈ rows -> f <= ss_slot (sg_pos x) -> in_head x = true;
}.
(** What the watermark path takes for granted: the slots the head cache proves when a watermark
    is looked up were in it already when its rows were read, which was earlier. *)
Definition proof_in_rows (h : GsfaHead (I := I)) : Prop :=
  forall t x, gh_list_full h = false -> gh_proves_before h t = true -> x ∈ rows -> t < ss_slot (sg_pos x) -> in_head x = true.
(** The disk cache: it has the rows of its span, its tip does not retreat during a request, and
    the archive has every row at or below it. *)
Record disk_true (d : GsfaDisk (I := I)) : Prop := {
  dt_position : forall s p, gd_position d s = Some p -> place s = Some p;
  dt_rows : forall b u n l, gd_rows d b u n = Some l -> l = newest in_disk n b u;
  dt_span : forall f t x, gd_span d = Some (f, t) -> x ∈ rows -> f <= ss_slot (sg_pos x) <= t -> in_disk x = true;
  dt_floor : forall f t, gd_span d = Some (f, t) -> is_u64 f;
  dt_tip : forall f t f' t', gd_span_before d = Some (f, t) -> gd_span d = Some (f', t') -> t <= t';
  dt_fill : forall f t, gd_span_fill d = Some (f, t) -> 0 <= t /\ forall x, x ∈ rows -> ss_slot (sg_pos x) <= t -> in_archive x = true;
}.
(** The archive: the bounds of an inline page are the places of its deferred cursors. *)
Definition cursor_place (c : GsfaCursor) : option SignatureSlot := match c with Resolved _ => None | Deferred s => place s end.
Definition cursor_bound (c : GsfaCursor) : option SlotBoundary := match c with Resolved b => b | Deferred s => Position <$> place s end.
Record archive_true (a : GsfaArchive (I := I)) : Prop := {
  at_cached : forall s p, ga_cached a s = Some (Some p) -> place s = Some p;
  at_position : forall s p, ga_position a s = Ok (Some p) -> place s = Some p;
  at_page : forall n b u l, ga_page a n b u = Ok l -> l = newest in_archive n b u;
  at_inline : forall n cb cu l bp up, ga_inline_page a n cb cu = Ok (InlineRows l bp up) ->
    l = newest in_archive n (cursor_bound cb) (cursor_bound cu) /\ bp = cursor_place cb /\
    ((forall s, cb = Deferred s -> cu <> Deferred s) -> up = cursor_place cu) /\
    (forall s, cb = Deferred s \/ cu = Deferred s -> is_Some (place s));
}.
(** A request with the tiers of the server: every row is in the archive or in the head cache. *)
Record tiers_true (head : option (GsfaHead (I := I))) (disk : option (GsfaDisk (I := I))) (a : GsfaArchive (I := I)) : Prop := {
  tt_head : forall h, head = Some h -> head_true h;
  tt_disk : forall d, disk = Some d -> disk_true d;
  tt_archive : archive_true a;
  tt_all : forall x, x ∈ rows -> in_archive x = true \/ is_Some head /\ in_head x = true;
}.

Section Tiers.
Context (head : option (GsfaHead (I := I))) (disk : option (GsfaDisk (I := I))) (a : GsfaArchive (I := I)) (Ht : tiers_true head disk a).
Context (limit : Z) (Hlimit : 0 < limit) (b u : option SlotBoundary).
Local Abbreviation head_rows := (rows_of head b u limit).

Lemma head_rows_elem x : x ∈ fst <$> head_rows -> x ∈ between b u.
Proof.
  destruct head as [h|] eqn:E; cbn [rows_of]; [|by intros ?%elem_of_nil]. rewrite (ht_rows h); [|by apply Ht|done]. by intros [? _]%newest_elem.
Qed.
Lemma head_rows_cover x : x ∈ between b u -> is_Some head -> in_head x = true -> covered limit (fst <$> head_rows) x.
Proof. intros Hx [h ->] Hi. cbn [rows_of]. rewrite (ht_rows h); [|by apply Ht|done]. by apply newest_covers. Qed.

(** A page of the archive, merged with the head cache. *)
Lemma archive_merge l : l = newest in_archive limit b u -> fst <$> merge_pages limit l [] head_rows = take (Z.to_nat limit) (between b u).
Proof.
  intros ->. apply merge_exact; [apply newest_NoDup| |].
  - intros x [[? _]%newest_elem|Hx]%elem_of_app; [done|]. by apply head_rows_elem.
  - intros x Hx. destruct (tt_all _ _ _ Ht x) as [Hi|[Hs Hi]]; [by apply between_elem in Hx as [? _]| |].
    + eapply covered_mono; [|by apply newest_covers]. set_solver.
    + eapply covered_mono; [|by apply head_rows_cover]. cbn [app]. set_solver.
Qed.

(** A page of the disk cache: its rows are at or above the floor; it has the rows of the span,
    or it is full; rows below the floor are owed only when it reached the floor. *)
Record page_true (d : GsfaDisk (I := I)) (page : DiskGsfaPage (I := I)) : Prop := {
  pt_span : gd_span d = Some (pg_floor page, pg_tip page);
  pt_rows : forall x, x ∈ pg_records page -> x ∈ between b u /\ pg_floor page <= ss_slot (sg_pos x);
  pt_NoDup : NoDup (pg_records page);
  pt_covers : forall x, x ∈ between b u -> pg_floor page <= ss_slot (sg_pos x) <= pg_tip page -> covered limit (pg_records page) x;
  pt_complete : pg_reached_floor page = false -> forall x, x ∈ between b u -> ss_slot (sg_pos x) < pg_floor page -> covered limit (pg_records page) x;
  pt_short : pg_reached_floor page = true -> zlen (pg_records page) < limit;
}.

Lemma disk_page_true d page : disk = Some d ->
  (forall f t q, gd_span d = Some (f, t) -> u = Some (Position q) -> ss_slot q + 1 <> f) ->
  signatures_for_address_until d b u limit = Some page -> page_true d page.
Proof.
  intros Hd Hq. unfold signatures_for_address_until. pose proof (tt_disk _ _ _ Ht d Hd) as Hdt.
  destruct (gd_span d) as [[f t]|] eqn:Hs; [|done]. destruct (clamp_until_to_floor u f) as [u' effective] eqn:Hc.
  destruct (gd_rows d b u' limit) as [l|] eqn:Hl; [|done]. apply (dt_rows d Hdt) in Hl. intros [= <-].
  assert (Hu : forall x, x ∈ rows -> (until_ok u' (sg_pos x) <-> until_ok u (sg_pos x) /\ f <= ss_slot (sg_pos x)) /\
                                      (effective = false -> until_ok u (sg_pos x) -> f <= ss_slot (sg_pos x))).
  { intros x Hx. apply (clamp_until_spec u f u'); [by eapply dt_floor|by apply (ro_slots rows Hrows)|done|eauto]. }
  assert (Hb : forall x, x ∈ between b u' <-> x ∈ between b u /\ f <= ss_slot (sg_pos x)).
  { intros x. rewrite !between_elem. split; [intros (Hx & ? & ?)|intros ((Hx & ? & ?) & ?)]; destruct (Hu x Hx); tauto. }
  assert (Hin : forall x, x ∈ l -> x ∈ between b u /\ f <= ss_slot (sg_pos x)) by (intros x; rewrite Hl; intros [? _]%newest_elem; by apply Hb).
  split; cbn [pg_records pg_reached_floor pg_floor pg_tip].
  - done.
  - exact Hin.
  - rewrite Hl. apply newest_NoDup.
  - intros x Hx Hr. rewrite Hl. apply newest_covers; [apply Hb; split; [done|lia]|]. eapply dt_span; [done..|by apply between_elem in Hx as [? _]|done].
  - intros Hr x Hx Hlt. right. exists l. split_and!; [rewrite Hl; apply newest_NoDup| |].
    + intros y Hy. split; [done|]. apply Hin in Hy as [_ ?]. unfold newer, pos_lt. lia.
    + apply andb_false_iff in Hr as [Hr|Hr]; [unfold zlen in Hr; lia|]. apply between_elem in Hx as (Hx & _ & Hux). destruct (Hu x Hx) as [_ He].
      specialize (He Hr Hux). lia.
  - intros [? _]%andb_true_iff. lia.
Qed.

(** A page of the disk cache merged with the head cache, when the head cache has the rows above
    its tip and no row below its floor is owed. *)
Lemma disk_merge d page : page_true d page ->
  (forall x, x ∈ between b u -> pg_tip page < ss_slot (sg_pos x) -> is_Some head /\ in_head x = true) ->
  (forall x, x ∈ between b u -> ss_slot (sg_pos x) < pg_floor page -> covered limit (pg_records page) x) ->
  fst <$> merge_pages limit [] (pg_records page) head_rows = take (Z.to_nat limit) (between b u).
Proof.
  intros Hp Habove Hbelow. apply merge_exact; [constructor| |]; cbn [app].
  - intros x [Hx|Hx]%elem_of_app; [by apply (pt_rows d page Hp)|by apply head_rows_elem].
  - intros x Hx. destruct (decide (pg_tip page < ss_slot (sg_pos x))) as [Ha|Ha].
    { destruct (Habove x Hx Ha). eapply covered_mono; [|by apply head_rows_cover]. set_solver. }
    eapply (covered_mono _ (pg_records page)); [set_solver|]. destruct (decide (ss_slot (sg_pos x) < pg_floor page)); [auto|].
    apply (pt_covers d page Hp); [done|lia].
Qed.

Lemma gap_covered_above page x : gap_covered head page b u = true -> x ∈ between b u -> pg_tip page < ss_slot (sg_pos x) -> is_Some head /\ in_head x = true.
Proof.
  intros Hg (Hx & Hb & Hu)%between_elem Hlt. unfold gap_covered in Hg.
  destruct (gsfa_tip_gap_spec (pg_tip page) b u (sg_pos x)) as (start & E & Hs); [by apply (ro_slots rows Hrows)|done..|].
  rewrite E in Hg. cbn [tip_gap_covered] in Hg. destruct head as [h|] eqn:Eh; [|done]. cbn in Hg.
  destruct (gh_address_floor h) as [f|] eqn:Ef; [|done]. split; [done|]. eapply (ht_floor h); [by apply Ht|done|done|lia].
Qed.

Lemma complete_merge d page : page_true d page -> pg_reached_floor page = false -> gap_covered head page b u = true ->
  fst <$> merge_pages limit [] (pg_records page) head_rows = take (Z.to_nat limit) (between b u).
Proof.
  intros Hp Hf Hg. eapply disk_merge; [done|by intros; eapply gap_covered_above|by apply (pt_complete d page Hp)].
Qed.

(** A short page, the remainder of the archive below its floor, and the head cache. *)
Lemma remainder_merge d page l : page_true d page -> pg_reached_floor page = true -> gap_covered head page b u = true ->
  l = newest in_archive (limit - zlen (pg_records page)) (Some (clamp_before_to_floor b (pg_floor page))) u ->
  fst <$> merge_pages limit l (pg_records page) head_rows = take (Z.to_nat limit) (between b u).
Proof.
  intros Hp Hf Hg Hl. pose proof (pt_short d page Hp Hf) as Hshort.
  assert (Hb : forall x, x ∈ between (Some (clamp_before_to_floor b (pg_floor page))) u <-> x ∈ between b u /\ ss_slot (sg_pos x) < pg_floor page).
  { intros x. rewrite !between_elem, clamp_before_spec. tauto. }
  assert (Hin : forall x, x ∈ l -> x ∈ between b u /\ ss_slot (sg_pos x) < pg_floor page) by (intros x; rewrite Hl; intros [? _]%newest_elem; by apply Hb).
  apply merge_exact; [rewrite Hl; apply newest_NoDup| |].
  - intros x. rewrite !elem_of_app. intros [Hx|[Hx|Hx]]; [by apply Hin|by apply (pt_rows d page Hp)|by apply head_rows_elem].
  - intros x Hx. destruct (decide (pg_tip page < ss_slot (sg_pos x))) as [Ha|Ha].
    { destruct (gap_covered_above page x Hg Hx Ha). eapply covered_mono; [|by apply head_rows_cover]. set_solver. }
    destruct (decide (ss_slot (sg_pos x) < pg_floor page)) as [Hlow|Hlow].
    2: { eapply (covered_mono _ (pg_records page)); [set_solver|]. apply (pt_covers d page Hp); [done|lia]. }
    destruct (tt_all _ _ _ Ht x) as [Hi|[Hs Hi]]; [by apply between_elem in Hx as [? _]| |].
    2: { eapply covered_mono; [|by apply head_rows_cover]. set_solver. }
    destruct (newest_covers in_archive (limit - zlen (pg_records page)) _ u x (proj2 (Hb x) (conj Hx Hlow)) Hi) as [Hc|(m & Hm & Hmin & Hlen)];
      rewrite <- Hl in *; [left; set_solver|right]. exists (pg_records page ++ m). split_and!.
    + apply NoDup_app. split_and!; [apply (pt_NoDup d page Hp)| |done]. intros y Hy Hym.
      apply (pt_rows d page Hp) in Hy as [_ Hy]. apply Hmin in Hym as [Hym _]. apply Hin in Hym as [_ Hym]. lia.
    + intros y [Hy|Hy]%elem_of_app; [|destruct (Hmin y Hy); set_solver]. split; [set_solver|].
      apply (pt_rows d page Hp) in Hy as [_ Hy]. unfold newer, pos_lt. lia.
    + rewrite length_app. unfold zlen in *. lia.
Qed.

(** ** Pages *)

Definition page_rows (page : option (DiskGsfaPage (I := I))) : list Rec := match page with Some page => pg_records page | None => [] end.
(** What a page of the archive and the disk cache has to be. *)
Definition page_exact (r : list Rec * option (DiskGsfaPage (I := I))) : Prop :=
  fst <$> merge_pages limit (fst r) (page_rows (snd r)) head_rows = take (Z.to_nat limit) (between b u) /\
  (snd r = None -> fst r = newest in_archive limit b u).

Context (Hq : forall d f t q, disk = Some d -> gd_span d = Some (f, t) -> u = Some (Position q) -> ss_slot q + 1 <> f).

Lemma archive_exact l : ga_page a limit b u = Ok l -> page_exact (l, None).
Proof. intros Hl%(at_page a (tt_archive _ _ _ Ht)). split; [by apply archive_merge|done]. Qed.
Lemma serial_local_true d page : disk = Some d -> serial_local head d b u limit = Some page -> page_true d page /\ gap_covered head page b u = true.
Proof.
  intros Hd. unfold serial_local. destruct (signatures_for_address_until d b u limit) as [p|] eqn:Hp; [|done].
  destruct (gap_covered head p b u) eqn:Hg; [|done]. intros [= ->]. split; [|done]. eapply disk_page_true; eauto.
Qed.
Lemma race_local_true d page : disk = Some d -> race_local head d b u limit = Some page ->
  page_true d page /\ (pg_reached_floor page = false -> gap_covered head page b u = true).
Proof.
  intros Hd. unfold race_local. destruct (signatures_for_address_until d b u limit) as [p|] eqn:Hp; [|done].
  destruct (pg_reached_floor p || gap_covered head p b u) eqn:Hg; [|done]. intros [= ->]. split; [eapply disk_page_true; eauto|].
  intros Hr. by rewrite Hr in Hg.
Qed.

(** The serial path *)
Lemma serial_exact d r : disk = Some d -> serial_gsfa_page a (serial_local head d b u limit) limit b u = Ok r -> page_exact r.
Proof.
  intros Hd. unfold serial_gsfa_page. destruct (serial_local head d b u limit) as [page|] eqn:Hl.
  - destruct (serial_local_true d page Hd Hl) as [Hp Hg]. destruct (pg_reached_floor page) eqn:Hf; cbn [negb].
    + intros (l & Hpage & [= <-])%rbind_ok. apply (at_page a (tt_archive _ _ _ Ht)) in Hpage. split; [|done]. by eapply remainder_merge.
    + intros [= <-]. split; [|done]. by eapply complete_merge.
  - intros (l & Hpage & [= <-])%rbind_ok. by apply archive_exact.
Qed.

(** The race, whichever side is first *)
Lemma race_exact first d r : disk = Some d -> race_gsfa_page first (race_local head d b u limit) (ga_page a limit b u) = Ok r -> page_exact r.
Proof.
  intros Hd.
  assert (Hc : forall page, complete_page (race_local head d b u limit) = Some page -> page_exact ([], Some page)).
  { intros page. unfold complete_page. destruct (race_local head d b u limit) as [p|] eqn:Hl; [|done].
    destruct (race_local_true d p Hd Hl) as [Hp Hg]. destruct (pg_reached_floor p) eqn:Hf; [done|]. intros [= <-]. split; [|done].
    eapply complete_merge; eauto. }
  unfold race_gsfa_page. destruct first, (complete_page _) as [page|] eqn:Hpage, (ga_page a limit b u) as [l|e] eqn:Hl; cbn [rbind]; intros [= <-];
    auto using archive_exact.
Qed.

(** ** Watermarks *)

Context (address : Key).
Definition marks_true (marks : GsfaWatermarks (K := Key)) : Prop :=
  forall w t x, entries (inner marks) !! address = Some (w, t) -> x ∈ rows -> w < ss_slot (sg_pos x).

Lemma watermark_exact h d w r : head = Some h -> disk = Some d -> b = None -> u = None -> gh_list_full h = false -> proof_in_rows h ->
  (forall x, x ∈ rows -> w < ss_slot (sg_pos x)) -> watermark_provable h d w = true -> watermark_gsfa_page h d a limit w = Ok r -> page_exact r.
Proof.
  intros Hh Hd Eb Eu Hfull Hin Hw Hprov. unfold watermark_gsfa_page.
  assert (Hprimary : (let? records := ga_page a limit None None in Ok (records, None)) = Ok r -> page_exact r).
  { intros (l & Hl & [= <-])%rbind_ok. apply archive_exact. by rewrite Eb, Eu. }
  destruct (signatures_for_address_until d None None limit) as [page|] eqn:Hp; [|done].
  assert (Hpt : page_true d page) by (eapply disk_page_true; [done|eauto|by rewrite Eb, Eu]).
  destruct (_ || _) eqn:Hserve; [|done]. intros [= <-]. split; [|done].
  assert (Habove : exists t, t <= pg_tip page /\ gh_proves_before h t = true).
  { unfold watermark_provable in Hprov. destruct (gd_span_before d) as [[f t]|] eqn:Hb; [|done]. apply andb_true_iff in Hprov as [_ Hprov].
    exists t. split; [|done]. eapply (dt_tip d); [by apply Ht|done|apply Hpt]. }
  eapply disk_merge; [done| |].
  - intros x [Hx _]%between_elem Hlt. destruct Habove as (t & Hle & Hpr). split; [by rewrite Hh|]. eapply (Hin t); [done|done|done|lia].
  - intros x Hx Hlt. apply orb_true_iff in Hserve as [Hs%negb_true_iff|[Hreach _]%andb_true_iff]; [by apply (pt_complete d page Hpt)|exfalso].
    apply between_elem in Hx as [Hx _]. specialize (Hw x Hx). unfold local_page_reaches_watermark in Hreach. pose proof (ro_slots rows Hrows x Hx). sat_lia.
Qed.

Lemma choose_page_exact o primary_first now marks r marks' fill : marks_true marks -> (watermark_request o = true -> b = None /\ u = None) ->
  (watermark_request o = true -> forall h, head = Some h -> proof_in_rows h) ->
  choose_page address o head disk a primary_first now limit b u marks = (Ok r, marks', fill) ->
  page_exact r /\ marks_true marks' /\ (forall t, fill = Some t -> 0 <= t /\ forall x, x ∈ rows -> ss_slot (sg_pos x) <= t -> in_archive x = true).
Proof.
  intros Hm Hreq Hnew. unfold choose_page. case_eq disk; [intros d Hd|intros Hd].
  2: { intros [= H <- <-]. apply rbind_ok in H as (l & Hl & [= <-]). split_and!; [by apply archive_exact|done..]. }
  destruct (gd_race_primary d); cbn [negb].
  2: { intros [= H <- <-]. split_and!; [by eapply serial_exact|done..]. }
  case_eq head; [intros h Hh|intros Hh].
  2: { intros [= H <- <-]. rewrite <- Hh in H. split_and!; [by eapply race_exact|done..]. }
  set (g := if watermark_request o && negb (gh_list_full h) then get address now marks else (marks, None)).
  destruct g as [marks2 w] eqn:Hg.
  assert (Hg2 : marks_true marks2 /\ (forall v, w = Some v -> watermark_request o = true /\ gh_list_full h = false /\ forall x, x ∈ rows -> v < ss_slot (sg_pos x))).
  { subst g. destruct (watermark_request o); cbn [andb] in Hg; [|by inversion Hg; subst]. destruct (gh_list_full h); cbn [negb] in Hg; [by inversion Hg; subst|].
    split.
    - intros v t x Hv. destruct (get_watermark_sub _ _ _ _ _ address (v, t) Hg) as [Hsub _]. eauto.
    - intros v ->. destruct (get_watermark_sub _ _ _ _ _ address (v, 0) Hg) as [_ Hw]. destruct (Hw v eq_refl) as [t Hw']. split_and!; [done|done|]. eauto. }
  destruct Hg2 as [Hm2 Hw]. clear Hg g.
  assert (Hfill : forall t, (if watermark_request o && enabled marks2 then snd <$> gd_span_fill d else None) = Some t ->
    0 <= t /\ forall x, x ∈ rows -> ss_slot (sg_pos x) <= t -> in_archive x = true).
  { intros t. destruct (_ && _); [|done]. intros ([f t'] & Hs & ->)%fmap_Some. cbn [snd]. eapply (dt_fill d); [by apply Ht|done]. }
  assert (Hrace : forall r, race_gsfa_page primary_first (race_local (Some h) d b u limit) (ga_page a limit b u) = Ok r -> page_exact r).
  { intros r' Hr'. rewrite <- Hh in Hr'. eapply race_exact; [done|exact Hr']. }
  destruct w as [v|]; [|intros [= H <- <-]; auto]. destruct (Hw v eq_refl) as (Hr & Hfull & Hv). destruct (Hreq Hr) as [Eb Eu].
  destruct (watermark_provable h d v) eqn:Hprov; intros [= H <- <-]; [|auto]. split_and!; [eapply watermark_exact; eauto|done..].
Qed.

Lemma update_true o now r fill marks : page_exact r -> marks_true marks -> (watermark_request o = true -> b = None /\ u = None) ->
  (forall t, fill = Some t -> 0 <= t /\ forall x, x ∈ rows -> ss_slot (sg_pos x) <= t -> in_archive x = true) ->
  marks_true (update_watermarks address o head disk now (fst r) (snd r) fill marks).
Proof.
  intros [_ Hr] Hm Hreq Hfill. unfold update_watermarks. case head; [intros h|done]. case disk; [intros d|done].
  destruct (watermark_request o); [|done]. destruct (Hreq eq_refl) as [Eb Eu]. destruct r as [[|row l] [page|]]; cbn [fst snd] in *; [done| | |].
  - destruct fill as [tip|]; [|done]. intros w t x Hx Hin. apply insert_watermark_sub in Hx as [Hx|[_ [= -> ->]]]; [by eapply Hm|].
    specialize (Hr eq_refl). destruct (Hfill tip eq_refl) as [Htip Hall]. destruct (decide (ss_slot (sg_pos x) <= tip)) as [Hle|Hgt].
    + pose proof (Hall x Hin Hle) as Hi. destruct (newest_covers in_archive limit b u x) as [Hc|(m & _ & Hc & Hl)]; [|done|..].
      * apply between_elem. by rewrite Eb, Eu.
      * rewrite <- Hr in Hc. by apply elem_of_nil in Hc.
      * destruct m as [|y m]; [cbn in Hl; lia|]. destruct (Hc y) as [Hy _]; [by left|]. rewrite <- Hr in Hy. by apply elem_of_nil in Hy.
    + pose proof (ro_slots rows Hrows x Hin). unfold fill_watermark, GSFA_WATERMARK_TIP_MARGIN_SLOTS. sat_lia.
  - intros w t x Hx%remove_watermark_sub. by eapply Hm.
  - intros w t x Hx%remove_watermark_sub. by eapply Hm.
Qed.
End Tiers.

(** ** Cursors *)

Definition bound_for (cursor : option Key) (slot : option Z) : option SlotBoundary :=
  match cursor with Some s => Position <$> place s | None => Slot <$> slot end.
Definition found (cursor : option Key) : Prop := match cursor with Some s => is_Some (place s) | None => True end.
(** A resolved cursor has its bound, a deferred one its signature. *)
Definition cursor_true (cursor : option Key) (slot : option Z) (c : option SlotBoundary * option Key) : Prop :=
  match snd c with None => fst c = bound_for cursor slot /\ found cursor | Some s => cursor = Some s /\ fst c = None end.

Section Cursor.
Context (head : option (GsfaHead (I := I))) (disk : option (GsfaDisk (I := I))) (a : GsfaArchive (I := I)) (Ht : tiers_true head disk a).

Lemma resolve_cursor_true s slot c : resolve_cursor head disk a s = Ok c -> cursor_true (Some s) slot c.
Proof.
  assert (Hplace : forall p, place s = Some p -> cursor_true (Some s) slot (Some (Position p), None)).
  { intros p Hp. unfold cursor_true. cbn. rewrite Hp. by eauto. }
  unfold resolve_cursor, resolve_cursor_on_primary. pose proof (tt_archive _ _ _ Ht) as Ha.
  destruct (head ≫= fun h => gh_position h s) as [p|] eqn:Hh.
  { intros [= <-]. apply bind_Some in Hh as (h & Hh & Hp). apply Hplace. eapply ht_position; [by apply Ht|done]. }
  destruct (disk ≫= fun d => gd_position d s) as [p|] eqn:Hd.
  { intros [= <-]. apply bind_Some in Hd as (d & Hd & Hp). apply Hplace. eapply dt_position; [by apply Ht|done]. }
  destruct (ga_inline a).
  - destruct (ga_cached a s) as [[p|]|] eqn:Hc; intros [= <-]; [|done]. apply Hplace. by eapply at_cached.
  - destruct (ga_position a s) as [[p|]|] eqn:Hc; cbn [rbind]; intros [= <-]. apply Hplace. by eapply at_position.
Qed.

Lemma resolve_bounds_true o before until : resolve_bounds head disk a o = Ok (before, until) ->
  cursor_true (go_before o) (go_before_slot o) before /\ cursor_true (go_until o) (go_until_slot o) until.
Proof.
  unfold resolve_bounds. intros (b & Hb & (u & Hu & [= <- <-])%rbind_ok)%rbind_ok.
  assert (Hbt : cursor_true (go_before o) (go_before_slot o) b).
  { destruct (go_before o) as [s|]; [by eapply resolve_cursor_true|]. injection Hb as <-. done. }
  split; [done|]. destruct (go_until o) as [s|]; [|by injection Hu as <-]. case_bool_decide as E; [|by eapply resolve_cursor_true].
  injection Hu as <-. rewrite E in Hbt. unfold cursor_true in *. destruct (snd b); [done|]. by cbn in *.
Qed.
End Cursor.

(** ** Requests *)

Definition resolved (bound : option SlotBoundary) (position : option SignatureSlot) : option SlotBoundary :=
  match position with Some p => Some (Position p) | None => bound end.

Lemma inline_cursor_bound cursor slot c : cursor_true cursor slot c -> (forall s, inline_cursor c = Deferred s -> is_Some (place s)) ->
  cursor_bound (inline_cursor c) = bound_for cursor slot /\ found cursor /\ resolved (fst c) (cursor_place (inline_cursor c)) = bound_for cursor slot.
Proof.
  destruct c as [bound [s|]]; unfold cursor_true, inline_cursor; cbn [fst snd].
  - intros [-> ->] Hs. destruct (Hs s eq_refl) as [p Hp]. cbn. by rewrite Hp.
  - intros [-> Hf] _. done.
Qed.

(** A page with deferred cursors is the newest rows of the archive between their places. *)
Lemma inline_exact head disk a limit o before until l bp up : tiers_true head disk a ->
  cursor_true (go_before o) (go_before_slot o) before -> cursor_true (go_until o) (go_until_slot o) until ->
  inline_cursor_page a limit o before until = Ok (Some (Ok (l, bp, up))) ->
  let b := bound_for (go_before o) (go_before_slot o) in let u := bound_for (go_until o) (go_until_slot o) in
  l = newest in_archive limit b u /\ resolved (fst before) bp = b /\ resolved (fst until) up = u /\ found (go_before o) /\ found (go_until o).
Proof.
  intros Ht Hb Hu Hpage.
  assert (exists up', ga_inline_page a limit (inline_cursor before) (inline_cursor until) = Ok (InlineRows l bp up') /\
    up = (if bool_decide (is_Some (snd until)) && bool_decide (snd until = snd before) then bp else up')) as (up' & Hi & ->).
  { unfold inline_cursor_page in Hpage. destruct (ga_inline_page _ _ _ _) as [[l' bp' up'|[]]|] eqn:Hi; destruct (snd before), (snd until);
      simplify_eq; eauto. }
  destruct (at_inline a (tt_archive _ _ _ Ht) _ _ _ _ _ _ Hi) as (-> & -> & Hup & Hd).
  destruct (inline_cursor_bound _ _ _ Hb (fun s E => Hd s (or_introl E))) as (Eb & Fb & Rb).
  destruct (inline_cursor_bound _ _ _ Hu (fun s E => Hd s (or_intror E))) as (Eu & Fu & Ru).
  cbn zeta. rewrite Eb, Eu. split_and!; [done|done| |done|done].
  rewrite <- Ru. f_equal. destruct (_ && _) eqn:Hsame.
  - apply andb_true_iff in Hsame as [_ Hsame%bool_decide_eq_true]. unfold inline_cursor. rewrite Hsame. by destruct (snd before) eqn:E; [|rewrite <- Hsame in E].
  - apply Hup. intros s Es Es'. unfold inline_cursor in Es, Es'. destruct (snd before), (snd until); simplify_eq.
    apply andb_false_iff in Hsame as [H|H]; apply bool_decide_eq_false in H; [destruct H; eauto|done].
Qed.
Lemma inline_none a limit o before until : inline_cursor_page (I := I) a limit o before until = Ok None -> snd before = None /\ snd until = None.
Proof. unfold inline_cursor_page. destruct (snd before), (snd until); [..|done]; by destruct (ga_inline_page _ _ _ _) as [[]|]. Qed.

Lemma watermark_request_bounds o : watermark_request o = true ->
  bound_for (go_before o) (go_before_slot o) = None /\ bound_for (go_until o) (go_until_slot o) = None.
Proof.
  unfold watermark_request. rewrite !andb_true_iff, !bool_decide_eq_true. intros [[[E1 E2] E3] E4]. by rewrite E1, E2, E3, E4.
Qed.

Definition request_limit (max_limit : Z) (o : GsfaOptions) : Z := Z.min (default max_limit (go_limit o)) max_limit.
Lemma check_options_limit valid max_limit (head : option (GsfaHead (I := I))) o limit :
  check_options (I := I) valid max_limit head o = Ok limit -> limit = request_limit max_limit o /\ default max_limit (go_limit o) <> 0.
Proof.
  unfold check_options. intros (? & Hz & H)%rbind_ok. apply rbind_ok in H as (? & _ & H). apply rbind_ok in H as (? & _ & H).
  apply rbind_ok in H as (? & _ & H). apply rbind_ok in H as (? & _ & H). apply rbind_ok in H as (? & _ & H). injection H as <-. split; [done|].
  unfold ensure in Hz. destruct (Z.eqb_spec (default max_limit (go_limit o)) 0); done.
Qed.

(** The head cache alone: as many rows as asked for are the newest. *)
Lemma head_only h disk a limit b u : tiers_true (Some h) disk a -> 0 < limit -> limit <= zlen (gh_rows h b u limit) ->
  fst <$> gh_rows h b u limit = take (Z.to_nat limit) (between b u).
Proof.
  intros Ht Hlim Hl. assert (Hh : head_true h) by by apply Ht. rewrite (ht_rows h Hh) by done. unfold newest. apply take_filter.
  intros l1 x l2 E Hx.
  assert (Hlen : (Z.to_nat limit <= length (List.filter in_head (between b u)))%nat).
  { assert (zlen (newest in_head limit b u) = zlen (gh_rows h b u limit)) as E2 by (rewrite <- (ht_rows h Hh) by done; unfold zlen; by rewrite length_fmap).
    unfold newest, zlen in *. rewrite length_take in E2. lia. }
  rewrite E, List.filter_app, length_app in Hlen. cbn [List.filter] in Hlen. rewrite Hx in Hlen.
  replace (List.filter in_head l2) with (@nil Rec) in Hlen; [cbn in Hlen; lia|]. symmetry. apply elem_of_nil_inv. intros y [Hy Hi]%elem_of_filter_b.
  assert (in_head x = true); [|congruence]. eapply (ht_upward h Hh x y); [|done|].
  - assert (x ∈ between b u) as [? _]%between_elem by (rewrite E; set_solver). done.
  - pose proof (between_sorted b u) as Hs. rewrite E in Hs. eapply (sorted_app newer (l1 ++ [x]) l2); [by rewrite <- app_assoc|set_solver|done].
Qed.

(** A failed page does not touch watermarks, except for expired ones. *)
Lemma choose_page_marks address o head disk a primary_first now limit b u marks r marks' fill : marks_true address marks ->
  choose_page (I := I) address o head disk a primary_first now limit b u marks = (r, marks', fill) -> marks_true address marks'.
Proof.
  intros Hm. unfold choose_page. destruct disk as [d|]; [|by intros [= _ <- _]]. destruct (gd_race_primary d); cbn [negb]; [|by intros [= _ <- _]].
  destruct head as [h|]; [|by intros [= _ <- _]]. set (g := if watermark_request o && negb (gh_list_full h) then get address now marks else (marks, None)).
  destruct g as [marks2 w] eqn:Hg. assert (marks_true address marks2).
  { subst g. destruct (_ && _); [|by inversion Hg; subst]. intros v t x Hv. destruct (get_watermark_sub _ _ _ _ _ address (v, t) Hg) as [Hsub _]. eauto. }
  destruct w as [v|]; [destruct (watermark_provable h d v)|]; by intros [= _ <- _].
Qed.

(** The archive answers. *)
Record archive_reachable (a : GsfaArchive (I := I)) : Prop := {
  ar_position : forall s, exists r, ga_position a s = Ok r;
  ar_page : forall n b u, exists l, ga_page a n b u = Ok l;
  ar_inline : forall n b u, exists r, ga_inline_page a n b u = Ok r;
}.

Lemma choose_page_reachable address o head disk a primary_first now limit b u marks : archive_reachable a ->
  exists r, fst (fst (choose_page (I := I) address o head disk a primary_first now limit b u marks)) = Ok r.
Proof.
  intros Ha. unfold choose_page.
  assert (Hp : forall n b u (p : option (DiskGsfaPage (I := I))), exists r, (let? records := ga_page a n b u in Ok (records, p)) = Ok r).
  { intros n b' u' p. destruct (ar_page a Ha n b' u') as [l ->]. cbn. eauto. }
  destruct disk as [d|]; [|apply Hp]. destruct (gd_race_primary d); cbn [negb fst].
  2: { unfold serial_gsfa_page. destruct (serial_local _ _ _ _ _) as [page|]; [|apply Hp]. destruct (pg_reached_floor page); cbn [negb]; [apply Hp|eauto]. }
  assert (Hrace : exists r, race_gsfa_page primary_first (race_local head d b u limit) (ga_page a limit b u) = Ok r).
  { unfold race_gsfa_page. destruct (ar_page a Ha limit b u) as [l ->]. destruct primary_first; [eauto|]. destruct (complete_page _); cbn; eauto. }
  destruct head as [h|]; [|done]. destruct (if watermark_request o && negb (gh_list_full h) then get address now marks else (marks, None)) as [marks2 [v|]]; [|done].
  destruct (watermark_provable h d v); [|done]. cbn [fst]. unfold watermark_gsfa_page.
  destruct (signatures_for_address_until d None None limit) as [page|]; [|apply Hp]. destruct (_ || _); [eauto|apply Hp].
Qed.

(** Refusals: not rows, and not of the archive when it answers. *)
Definition proper_refusal (a : GsfaArchive (I := I)) (e : GsfaAnswer (I := I)) : Prop :=
  (archive_reachable a -> e <> GsfaStorageUnreachable) /\ forall page, e <> GsfaRows page.
Definition refuses {A} (a : GsfaArchive (I := I)) (m : result A (GsfaAnswer (I := I))) : Prop := forall e, m = Err e -> proper_refusal a e.

Lemma ensure_refuses a (c : bool) e : proper_refusal a e -> refuses a (ensure c e).
Proof. unfold ensure, refuses. destruct c; [done|]. by intros ? ? [= <-]. Qed.
Lemma rbind_refuses {A B} a (m : result A (GsfaAnswer (I := I))) (k : A -> result B (GsfaAnswer (I := I))) :
  refuses a m -> (forall x, refuses a (k x)) -> refuses a (rbind m k).
Proof. unfold refuses. destruct m; cbn; [eauto|]. intros H _ ? [= <-]. auto. Qed.
Lemma resolve_cursor_refuses head disk a s : refuses a (resolve_cursor (I := I) head disk a s).
Proof.
  unfold refuses, proper_refusal, resolve_cursor, resolve_cursor_on_primary. destruct (head ≫= _) as [?|]; [done|]. destruct (disk ≫= _) as [?|]; [done|].
  destruct (ga_inline a); [by destruct (ga_cached a s) as [[]|]; intros e [= <-]|].
  destruct (ga_position a s) as [[]|[]] eqn:Hp; cbn [rbind]; intros e [= <-]; [done|]. split; [|done]. intros Ha.
  destruct (ar_position a Ha s) as [r Hr]. congruence.
Qed.

(** The checks and the cursors of a request *)
Definition checked valid max_limit (head : option (GsfaHead (I := I))) disk a o :=
  let? limit := check_options valid max_limit head o in
  let? _ := check_context head a o in
  let? bounds := resolve_bounds head disk a o in
  Ok (limit, bounds).

Lemma checked_refuses valid max_limit head disk a o : refuses a (checked valid max_limit head disk a o).
Proof.
  unfold checked, check_options. apply rbind_refuses; [|intros limit; apply rbind_refuses; [|intros _; apply rbind_refuses; [|done]]].
  - apply rbind_refuses; [by apply ensure_refuses|intros _]. apply rbind_refuses.
    { destruct (go_commitment o) as [text|]; [|done]. destruct (existsb _ _); [by apply ensure_refuses|by intros e [= <-]]. }
    intros _. do 4 (apply rbind_refuses; [by apply ensure_refuses|intros _]). done.
  - unfold check_context. destruct (go_min_context_slot o); [|done].
    destruct (match head with Some h => _ | None => _ end); [by apply ensure_refuses|by intros e [= <-]].
  - unfold resolve_bounds. apply rbind_refuses; [destruct (go_before o); [by apply resolve_cursor_refuses|done]|intros before].
    apply rbind_refuses; [|done]. destruct (go_until o); [|done]. case_bool_decide; [done|by apply resolve_cursor_refuses].
Qed.
Lemma checked_true valid max_limit head disk a o limit before until : tiers_true head disk a -> checked valid max_limit head disk a o = Ok (limit, (before, until)) ->
  (limit = request_limit max_limit o /\ default max_limit (go_limit o) <> 0) /\
  cursor_true (go_before o) (go_before_slot o) before /\ cursor_true (go_until o) (go_until_slot o) until.
Proof.
  intros Ht. unfold checked. intros (l & Hl & H)%rbind_ok. apply rbind_ok in H as (? & _ & H). apply rbind_ok in H as ([b' u'] & Hb & H).
  injection H as <- <- <-. split; [by eapply check_options_limit|by eapply resolve_bounds_true].
Qed.

Section Request.
Context (valid : Key -> bool) (max_limit : Z) (address : Key) (o : GsfaOptions).
Context (head : option (GsfaHead (I := I))) (disk : option (GsfaDisk (I := I))) (a : GsfaArchive (I := I)).
Let b := bound_for (go_before o) (go_before_slot o).
Let u := bound_for (go_until o) (go_until_slot o).
Let limit := request_limit max_limit o.

(** What an answer has to be: the watermarks stay true, the archive is not blamed when it
    answers, and rows are the newest between the cursors. *)
Definition answer_exact (r : GsfaAnswer (I := I) * GsfaWatermarks (K := Key)) : Prop :=
  marks_true address (snd r) /\ (archive_reachable a -> fst r <> GsfaStorageUnreachable) /\
  forall page, fst r = GsfaRows page -> found (go_before o) /\ found (go_until o) /\ fst <$> page = take (Z.to_nat limit) (between b u).

Context (Ht : tiers_true head disk a) (Hmax : 0 < max_limit) (Hlim : forall n, go_limit o = Some n -> 0 <= n).
Context (Hnew : watermark_request o = true -> forall h, head = Some h -> proof_in_rows h).
Context (Hq : forall d f t s q, disk = Some d -> gd_span d = Some (f, t) -> go_until o = Some s -> place s = Some q -> ss_slot q + 1 <> f).

Lemma limit_positive : default max_limit (go_limit o) <> 0 -> 0 < limit.
Proof. unfold limit, request_limit. destruct (go_limit o) as [n|]; cbn; [specialize (Hlim n eq_refl)|]; lia. Qed.
Lemma until_floor d f t q : disk = Some d -> gd_span d = Some (f, t) -> u = Some (Position q) -> ss_slot q + 1 <> f.
Proof. intros Hd Hs. unfold u, bound_for. destruct (go_until o) as [s|] eqn:E; [intros (p & Hp & [= <-])%fmap_Some; eauto|by destruct (go_until_slot o)]. Qed.
Lemma refused marks refusal : marks_true address marks -> proper_refusal a refusal -> answer_exact (refusal, marks).
Proof. intros Hm [Hr Hp]. split_and!; [done|done|]. cbn. intros page E. by destruct (Hp page). Qed.

(** Rows merged from an exact page *)
Lemma rows_exact r now fill marks : 0 < limit -> found (go_before o) -> found (go_until o) -> page_exact head limit b u r -> marks_true address marks ->
  (forall t, fill = Some t -> 0 <= t /\ forall x, x ∈ rows -> ss_slot (sg_pos x) <= t -> in_archive x = true) ->
  answer_exact (GsfaRows (merge_pages limit (fst r) (page_rows (snd r)) (rows_of head b u limit)), update_watermarks address o head disk now (fst r) (snd r) fill marks).
Proof.
  intros Hpos Fb Fu Hr Hm Hfill. split_and!; cbn [fst snd]; [|done|].
  - eapply update_true; [exact Hpos|exact Hr|done|apply watermark_request_bounds|done].
  - intros page [= <-]. split_and!; [done|done|apply Hr].
Qed.

Lemma inline_refuses before until : refuses a (inline_cursor_page a limit o before until).
Proof.
  intros e. unfold inline_cursor_page. destruct (snd before), (snd until); [..|done]; destruct (ga_inline_page _ _ _ _) as [[]|]; by intros [= <-].
Qed.

Lemma inline_error before until : inline_cursor_page a limit o before until = Ok (Some (Err tt)) -> proper_refusal a GsfaStorageUnreachable.
Proof.
  intros Hi. split; [|done]. intros Ha. destruct (ar_inline a Ha limit (inline_cursor before) (inline_cursor until)) as [r Hr].
  unfold inline_cursor_page in Hi. rewrite Hr in Hi. by destruct (snd before), (snd until), r.
Qed.
Lemma resolved_cursor cursor slot c : cursor_true cursor slot c -> snd c = None -> fst c = bound_for cursor slot /\ found cursor.
Proof. unfold cursor_true. intros H E. by rewrite E in H. Qed.

(** Rows of the head cache alone *)
Lemma head_rows_exact marks : 0 < limit -> found (go_before o) -> found (go_until o) -> marks_true address marks -> is_Some head ->
  limit <= zlen (rows_of head b u limit) -> answer_exact (GsfaRows (rows_of head b u limit), marks).
Proof.
  intros Hl Fb Fu Hm [h Eh] Hlen. split_and!; [done|done|]. cbn [fst]. intros page [= <-]. split_and!; [done|done|]. rewrite Eh in *. cbn [rows_of] in *.
  eapply head_only; done.
Qed.

Lemma handle_exact primary_first now marks : marks_true address marks ->
  answer_exact (handle_get_signatures_for_address valid max_limit address o head disk a primary_first now marks).
Proof.
  intros Hm. unfold handle_get_signatures_for_address. fold (checked valid max_limit head disk a o).
  destruct (checked valid max_limit head disk a o) as [[l [before until]]|refusal] eqn:Hc; [|apply refused; [done|by eapply checked_refuses]].
  apply checked_true in Hc as ([-> Hl%limit_positive] & Hb & Hu); [|done]. fold limit.
  destruct (decide (is_Some (snd before) \/ is_Some (snd until))) as [Hd|Hd].
  - assert (bool_decide (is_Some (snd before)) || bool_decide (is_Some (snd until)) = true) as -> by (rewrite orb_true_iff, !bool_decide_eq_true; tauto).
    assert ((limit <=? zlen (@nil (Rec * string))) = false) as -> by (apply Z.leb_gt; by rewrite zlen_nil). cbn [andb].
    destruct (inline_cursor_page a limit o before until) as [[[[[l bp] up]|[]]|]|refusal] eqn:Hi.
    + destruct (inline_exact _ _ _ _ _ _ _ _ _ _ Ht Hb Hu Hi) as (Hpage & Rb & Ru & Fb & Fu). fold b in Rb, Hpage. fold u in Ru, Hpage.
      unfold resolved in Rb, Ru. rewrite Rb, Ru.
      apply (rows_exact (l, None)); [done|done|done| |done|done]. split; [by eapply archive_merge|done].
    + apply refused; [done|by eapply inline_error].
    + apply inline_none in Hi as [E1 E2]. rewrite E1, E2 in Hd. destruct Hd as [[]|[]]; done.
    + apply refused; [done|by eapply inline_refuses].
  - assert (snd before = None) as Eb by (destruct (snd before); [destruct Hd; eauto|done]).
    assert (snd until = None) as Eu by (destruct (snd until); [destruct Hd; eauto|done]).
    destruct (resolved_cursor _ _ _ Hb Eb) as [Bb Fb]. destruct (resolved_cursor _ _ _ Hu Eu) as [Bu Fu].
    unfold inline_cursor_page. rewrite Eb, Eu, Bb, Bu. fold b u. rewrite !bool_decide_false by (intros []; done). cbn [orb].
    destruct ((limit <=? zlen (rows_of head b u limit)) && bool_decide (is_Some head)) eqn:Hshort.
    { apply andb_true_iff in Hshort as [Hs Hh%bool_decide_eq_true]. apply head_rows_exact; [done..|lia]. }
    destruct (choose_page address o head disk a primary_first now limit b u marks) as [[[r|[]] marks'] fill] eqn:Hp.
    + edestruct (choose_page_exact head disk a Ht limit Hl b u) as (Hx & Hm' & Hfill); [intros; by eapply until_floor|exact Hm| |exact Hnew|exact Hp|].
      { apply watermark_request_bounds. }
      destruct r as [l page]. by apply (rows_exact (l, page)).
    + apply refused; [by eapply choose_page_marks|]. split; [|done]. intros Ha.
      destruct (choose_page_reachable address o head disk a primary_first now limit b u marks Ha) as [r Hr]. by rewrite Hp in Hr.
Qed.
End Request.
End Truth.

