(* ===== verification/RpcWitnesses.v ===== *)
(** * RpcWitnesses: the properties of the RPC server's coverage at concrete inputs

    A small world of four blocks, a head cache that saw the last two, a disk cache
    that covers a middle stretch and a primary that knows them all; each lemma applies
    one property to it (or to a literal) with all hypotheses evaluated. *)

From S2P Require Import Prelude BTree SlotCoverage CoverageMap HeadCoverage BlockRanges.

Open Scope Z_scope.

Definition blocks : list Z := [3; 5; 10; 12].
Definition has_block (x : Z) : Prop := x ∈ blocks.

(** The answer of a source that knows [blocks] on [a..b]. *)
Lemma window_truthful lo hi a b :
  lo <= a -> b <= hi -> truthful has_block lo hi (SlotCoverage_new (between a b blocks) a b).
Proof.
  intros Ha Hb.
  assert (Hc : forall x, complete_at (SlotCoverage_new (between a b blocks) a b) x <-> a <= x <= b)
    by (intros x; unfold complete_at; simpl; rewrite in_ranges_cons, in_ranges_nil; tauto).
  split.
  - split; cbn [SlotCoverage_new sc_slots sc_intervals].
    + repeat constructor.
    + apply between_ascending. repeat constructor.
    + intros x [_ Hx]%elem_of_between. by apply Hc.
  - intros x Hx%Hc. split; [lia|]. cbn [SlotCoverage_new sc_slots]. rewrite elem_of_between. unfold has_block. tauto.
Qed.

(** A cache that covers [floor..tip]. *)
Definition window_source (floor tip : Z) : RangeSource := fun lo hi =>
  let a := Z.max lo floor in let b := Z.min hi tip in
  if b <? a then SlotCoverage_default else SlotCoverage_new (between a b blocks) a b.

Lemma window_source_truthful floor tip : truthful_source has_block (window_source floor tip).
Proof.
  intros lo hi. unfold range_coverage, window_source. cbv zeta.
  destruct (Z.min hi tip <? Z.max lo floor); [apply default_truthful|]. apply window_truthful; lia.
Qed.

Definition primary_reads (lo hi : Z) : result (list Z) unit := Ok (between lo hi blocks).

Lemma primary_truthful : truthful_primary has_block primary_reads.
Proof.
  intros lo hi rows E. assert (rows = between lo hi blocks) as -> by (unfold primary_reads in E; congruence).
  split; [apply between_ascending; repeat constructor|].
  intros x. rewrite elem_of_between. unfold has_block. tauto.
Qed.

Definition hash_of (slot : Z) : list Z := [slot].
Definition bank (slot parent : Z) : Link := mkLink slot (hash_of slot) parent (hash_of parent).

(** The subscription selected and finalized the banks at 10 and 12. *)
Definition head_ops : list head_op :=
  [OpConnect; OpSelectBank (bank 10 5); OpPublish 10 Finalized; OpSelectBank (bank 12 10);
   OpPublish 12 Finalized; OpObserve 12 Finalized 500; OpRetain 12 100].
Definition head12 : HeadCoverage := foldl head_step HeadCoverage_default head_ops.

Definition small_sources : Sources :=
  mkSources (Some (head12, true)) None (Some (window_source 4 6)) primary_reads (Err tt).

Example get_blocks_runs :
  handle_get_blocks small_sources 3 (Some 40) Finalized 600 = Some (RSlots [3; 5; 10; 12]) /\
  handle_get_blocks small_sources 3 None Finalized 600 = Some (RSlots [3; 5; 10; 12]) /\
  handle_get_blocks small_sources 3 None Finalized 5000000000 = Some RInternalError /\
  handle_get_blocks small_sources 9 (Some 8) Finalized 600 = Some RInvalidParams /\
  handle_get_blocks_with_limit small_sources 4 7 Finalized 600 = Some (RSlots [5; 10]).
Proof. repeat split; vm_compute; reflexivity. Qed.

Lemma small_memory range :
  br_start range = 3 \/ br_start range = 4 -> br_head range = SlotCoverage_new [10; 12] 10 12 \/
    br_head range = SlotCoverage_new [10] 10 10 ->
  (br_head range = SlotCoverage_new [10; 12] 10 12 -> 12 <= br_end range) ->
  (br_head range = SlotCoverage_new [10] 10 10 -> 10 <= br_end range) ->
  memory_sound has_block small_sources range.
Proof.
  intros Hs Hh H12 H10.
  assert (Ht : truthful has_block (br_start range) (br_end range) (br_head range)).
  { destruct Hh as [E|E]; rewrite E.
    - apply (window_truthful _ _ 10 12); [lia|auto].
    - apply (window_truthful _ _ 10 10); [lia|auto]. }
  split; [apply Ht|exact Ht].
Qed.

Lemma get_blocks_exact_witness :
  (exists hi, resolved_end small_sources (Some 40) Finalized 600 hi /\ exact_answer has_block 3 hi [3; 5; 10; 12] /\ zlen [3; 5; 10; 12] <= MAX_GET_BLOCKS_RANGE + 1) /\
  exists l, handle_get_blocks small_sources 3 (Some 40) Finalized 600 = Some (RSlots l).
Proof.
  destruct (get_blocks_exact has_block small_sources 3 (Some 40) Finalized 600) as [H1 H2].
  - intros range o E. vm_compute in E. injection E as <- <-. apply small_memory; simpl; auto; lia.
  - apply window_source_truthful.
  - apply primary_truthful.
  - split; [apply H1; vm_compute; reflexivity|]. eapply H2; [vm_compute; reflexivity|reflexivity|intros e [= <-]; vm_compute; split; discriminate|vm_compute; discriminate|discriminate].
Defined.

(** Without a head cache. *)
Definition plain_sources : Sources :=
  mkSources None None (Some (window_source 4 6)) primary_reads (Ok (12, true)).

Lemma get_blocks_with_limit_exact_witness :
  exists hi, exact_answer has_block 4 hi [5; 10] /\ hi < 4 + 7 /\ zlen [5; 10] <= 7.
Proof.
  apply (get_blocks_with_limit_exact has_block plain_sources 4 7 Finalized 600).
  - vm_compute. split; congruence.
  - vm_compute. split; congruence.
  - intros e range o [= <- <-]. split; apply (default_truthful has_block 4 e).
  - apply window_source_truthful.
  - apply primary_truthful.
  - vm_compute. reflexivity.
Defined.

Lemma merge_sorted_exact_witness :
  ascending (merge_sorted_block_slots [1; 4] [2; 4; 9]) /\
  forall x, x ∈ merge_sorted_block_slots [1; 4] [2; 4; 9] <-> x ∈ [1; 4] \/ x ∈ [2; 4; 9].
Proof. apply (merge_sorted_exact [1; 4] [2; 4; 9]); repeat constructor. Defined.

(** An index that believes slot 11 holds a block. *)
Definition wrong_index : RangeSource := fun lo hi => SlotCoverage_new [11] 10 11.
Definition head_range (authoritative : bool) : BlockRange :=
  mkBlockRange 10 12 (SlotCoverage_new [10; 12] 10 12) authoritative.
Definition disputed_sources : Sources :=
  mkSources (Some (head12, true)) (Some wrong_index) None primary_reads (Err tt).

Lemma contradiction_discards_memory_witness :
  fst (get_block_slots_response_for_range disputed_sources (head_range true) RangeObservation_new) =
  RInternalError.
Proof.
  apply (contradiction_discards_memory disputed_sources (head_range true) RangeObservation_new wrong_index).
  - reflexivity.
  - apply (window_truthful 10 12 10 12); lia.
  - split; simpl; [repeat constructor|repeat constructor|].
    intros x ->%list_elem_of_singleton. apply in_ranges_cons. lia.
  - exists 10, (10, 12), (10, 11), 11. simpl.
    split; [apply list_elem_of_here|]. split; [apply list_elem_of_here|].
    split; [lia|]. split; [lia|]. split; [lia|]. split; [lia|]. intros [_ Hx].
    specialize (Hx (list_elem_of_here _ _)). set_solver.
  - reflexivity.
Defined.

Lemma gaps_exact_witness :
  in_ranges 7 (gaps 3 12 (mkSlotCoverage [3; 10] [(3, 5); (9, 10)])) /\
  ~ in_ranges 4 (gaps 3 12 (mkSlotCoverage [3; 10] [(3, 5); (9, 10)])).
Proof.
  assert (Hs : sorted_intervals [(3, 5); (9, 10)]).
  { by repeat constructor. }
  split.
  - apply (gaps_exact (mkSlotCoverage [3; 10] [(3, 5); (9, 10)]) 3 12 7 Hs).
    unfold complete_at. simpl. rewrite !in_ranges_cons, in_ranges_nil. lia.
  - rewrite (gaps_exact (mkSlotCoverage [3; 10] [(3, 5); (9, 10)]) 3 12 4 Hs).
    unfold complete_at. simpl. rewrite !in_ranges_cons, in_ranges_nil. lia.
Defined.

Lemma merge_checked_sound_witness :
  let '(r, changed) := merge_checked (SlotCoverage_new [10; 12] 10 12) (SlotCoverage_new [11; 12; 13] 11 13) in
  coverage_ok r /\ changed = true /\ gaps 10 13 r = [(11, 12)].
Proof.
  pose proof (merge_checked_sound (SlotCoverage_new [10; 12] 10 12)
    (SlotCoverage_new [11; 12; 13] 11 13) 12) as H.
  split; [|split; vm_compute; reflexivity].
  apply H; split; simpl; try (by repeat constructor);
    intros x; rewrite !elem_of_cons, elem_of_nil; unfold complete_at; simpl;
    rewrite in_ranges_cons, in_ranges_nil; lia.
Defined.

Lemma coverage_map_refines_set_witness :
  contains_slot 15 (foldl coverage_step coverage_new
    [InsertRange 10 20; InsertSlot 21; RemoveSlot 15; RemoveBelow 12]) = false.
Proof.
  refine (proj2 (coverage_map_refines_set
    [InsertRange 10 20; InsertSlot 21; RemoveSlot 15; RemoveBelow 12] _) 15).
  repeat constructor; unfold is_u64, u64_max; lia.
Defined.

Lemma coverage_queries_exact_witness :
  in_ranges 22 (holes_in 15 35 (foldl coverage_step coverage_new [InsertRange 10 20; InsertRange 30 40])).
Proof.
  apply (coverage_queries_exact (foldl coverage_step coverage_new [InsertRange 10 20; InsertRange 30 40])
    15 35).
  - apply (coverage_run_represents _ coverage_new (fun _ => false)).
    + split; [apply new_ok|]. intros x. by rewrite in_ranges_nil.
    + repeat constructor; unfold is_u64, u64_max; lia.
  - split; [lia|].
    assert (E : foldl coverage_step coverage_new [InsertRange 10 20; InsertRange 30 40] =
                [(10, 20); (30, 40)]) by (vm_compute; reflexivity).
    rewrite E, !in_ranges_cons, in_ranges_nil. lia.
Defined.

Lemma invalidation_reaches_descendants_witness :
  usable_link 12 Finalized head12 = Some (bank 12 10) /\
  usable_link 12 Finalized (invalidate_branch 10 head12) = None.
Proof.
  split; [vm_compute; reflexivity|].
  apply (invalidation_reaches_descendants head_ops 10 12 (Some (hash_of 12)) Finalized).
  eapply (descends_child _ _ _ 10 (Some (hash_of 10)) 12 (mkNode (Some (bank 12 10)) (Some Finalized) false)
    (bank 12 10)).
  - apply descends_base. reflexivity.
  - vm_compute. apply list_elem_of_further, list_elem_of_here.
  - lia.
  - reflexivity.
  - reflexivity.
  - lia.
  - by right.
Defined.
