(* ===== verification/HeadWitnesses.v ===== *)
(** * HeadWitnesses: the banks and the readers of the head cache at concrete inputs

    A subscription at Confirmed that streams two competing banks of slot 10 and one bank
    of slot 11, for the properties of [BanksSound]; then its stream up to and beyond its
    commitment, read as a block, as an address history and through cursors. *)

From S2P Require Import Prelude BTree SlotCoverage HeadCoverage HeadCache Banks BanksSound.

Open Scope Z_scope.

(** ** Banks *)

(** Every transaction converts and touches the address in its payload. *)
Definition convert (slot : Z) (tx : TransactionInfo) : option StoredTransactionRecord :=
  Some (mkRecord [ti_payload tx] [] [] None).

Definition bytes (len b : Z) : list Z := repeat b (Z.to_nat len).
Definition tx_of (index b : Z) : TransactionInfo := mkTxInfo (bytes 64 b) index (bytes 32 7).
Definition meta_of (slot parent b : Z) (count : Z) : BlockMetadataRecord :=
  mkMetadata slot parent (bytes 32 b) (bytes 32 (b - 1)) (Some 1700) (Some slot) count 1 None.
Definition entry_of (slot id count : Z) : EntryUpdate := mkEntryUpdate slot id 0 0 count (bytes 32 9).

Definition stream : list bank_op :=
  [StartSession Confirmed;
   StageMetadata 1 1 (meta_of 10 9 3 2); StageEntry 1 (entry_of 10 1 2);
   StageMetadata 1 2 (meta_of 10 9 5 1); StageEntry 1 (entry_of 10 2 1);
   Freeze 1 10 2 (bytes 32 5) [tx_of 0 50];
   Freeze 1 10 1 (bytes 32 3) [tx_of 1 31; tx_of 0 30]].

Definition after_stream : BankState := foldl (bank_step convert) (state_new 16 4) stream.

(** The commitment update for bank 1, then a late one for bank 2 and the next slot. *)
Definition rest : list bank_op :=
  [Commit 1 10 2 Finalized (Some 9) 100; StageMetadata 1 3 (meta_of 11 10 4 0);
   Discard 1 10 2; Commit 1 11 3 Confirmed (Some 10) 120].

Definition final : BankState :=
  foldl (bank_step convert) (commit_bank convert 1 10 1 Confirmed (Some 9) 90 after_stream) rest.

(** Nothing is published before the commitment; then bank 1 is, with its transactions. *)
Example stream_publishes :
  slot_block_metadata (blocks (cache after_stream)) !! 10 = None /\
  selected final !! 10 = Some 1 /\
  option_map m_blockhash (slot_block_metadata (blocks (cache final)) !! 10) = Some (bytes 32 3) /\
  option_map tm_pos (meta_by_signature (txs (cache final)) !! bytes 64 31) = Some (mkPos 10 1) /\
  meta_by_signature (txs (cache final)) !! bytes 64 50 = None /\
  option_map (map key_pos) (sigs_by_address (txs (cache final)) !! bytes 32 7) = Some [mkPos 10 1; mkPos 10 0] /\
  selected final !! 11 = None.
Proof. vm_compute. repeat split. Qed.

Definition commit_one : bank_op := Commit 1 10 1 Confirmed (Some 9) 90.

Lemma head_shows_sealed_bank_witness :
  sealed_selection (foldl (bank_step convert) (state_new 16 4) (stream ++ commit_one :: rest)) 10 (bytes 32 3).
Proof.
  destruct (slot_block_metadata (blocks (cache (foldl (bank_step convert) (state_new 16 4) (stream ++ commit_one :: rest)))) !! 10)
    as [m|] eqn:E.
  - replace (bytes 32 3) with (m_blockhash m).
    + apply (head_shows_sealed_bank convert 16 4 (stream ++ commit_one :: rest) 10).
      * vm_compute. discriminate.
      * exact E.
    + vm_compute in E. by injection E as <-.
  - exfalso. vm_compute in E. discriminate E.
Defined.

Lemma canonical_bank_final_witness :
  (forall other, accept_bank final 1 (10, other) = true -> other = 1) /\
  (forall other, selected final !! 10 = Some other -> other = 1).
Proof.
  destruct (canonical_bank_final convert 16 4 stream 1 10 1 Confirmed (Some 9) 90 rest) as [H|H].
  - vm_compute. reflexivity.
  - discriminate.
  - repeat constructor.
  - exfalso. vm_compute in H. discriminate H.
  - exact H.
Defined.

Definition whole_bank : Bank :=
  mkBank (Some (meta_of 10 9 3 2)) None None None [entry_of 10 1 2] 0 None.

Lemma complete_bank_exact_witness :
  complete_bank convert whole_bank 10 [tx_of 1 31; tx_of 0 30] = true /\
  NoDup (map ti_index [tx_of 1 31; tx_of 0 30]).
Proof.
  split; [vm_compute; reflexivity|].
  destruct (complete_bank_exact convert whole_bank 10 [tx_of 1 31; tx_of 0 30]) as [H _].
  - vm_compute. discriminate.
  - repeat constructor. vm_compute. discriminate.
  - destruct H as (m & es & _ & _ & _ & Hn & _); [vm_compute; reflexivity|exact Hn].
Defined.

(** ** Readers *)

From S2P Require Import Cursors HeadReaders HeadIndex HeadTxs HeadReadersSound.

(** A stand-in for base58: the first byte in unary. *)
Definition unary (sig : Signature) : string := String.concat "" (map (fun _ => "x"%string) (seq 0 (Z.to_nat (hd 0 sig)))).

Definition history : list bank_op := stream ++ commit_one :: rest.
Definition head_state : BankState := foldl (bank_step convert) (state_new 16 4) history.
Definition counts (slot : Z) (hash : list Z) : Z := if bool_decide (hash = bytes 32 3) then 2 else if bool_decide (hash = bytes 32 5) then 1 else 0.

Definition block_10 : option StoredBlockPayload := get_block unary (cache head_state) 10 Confirmed DetailsSignatures.

Example block_10_signatures :
  block_10 = Some (PayloadSignatures (meta_of 10 9 3 2) (map (fun b => unary (bytes 64 b)) [30; 31])).
Proof. vm_compute. reflexivity. Qed.

Lemma get_block_exact_witness :
  exists l, m_executed_transaction_count (meta_of 10 9 3 2) = zlen l /\
    payload_is convert unary DetailsSignatures 10 (meta_of 10 9 3 2) l
      (PayloadSignatures (meta_of 10 9 3 2) (map (fun b => unary (bytes 64 b)) [30; 31])).
Proof.
  destruct (get_block_exact convert unary counts 16 4 history 10 Confirmed DetailsSignatures
    (PayloadSignatures (meta_of 10 9 3 2) (map (fun b => unary (bytes 64 b)) [30; 31])))
    as (id & bank & m & l & _ & _ & _ & _ & Hc & Hp).
  - repeat constructor.
  - vm_compute. discriminate.
  - vm_compute. reflexivity.
  - exists l. destruct Hp as (l' & Ho & E). assert (Em : meta_of 10 9 3 2 = m) by (by injection E).
    subst m. split; [exact Hc|]. exists l'. split; [exact Ho|exact E].
Defined.

(** Two of the three cached transactions touch the address; the limit keeps the newer. *)
Lemma address_history_exact_witness :
  map fst (signatures_for_address (cache head_state) (bytes 32 7) None None 1 Confirmed) = [bytes 64 31] /\
  StronglySorted newer_entry (signatures_for_address (cache head_state) (bytes 32 7) None None 1 Confirmed).
Proof.
  split; [vm_compute; reflexivity|].
  destruct (address_history_exact convert 16 4 history (bytes 32 7) None None 1 Confirmed 10 10) as (_ & Hs & _).
  - lia.
  - vm_compute. reflexivity.
  - exact Hs.
Defined.

(** Block 10 counted on top of an archive at slot 9. *)
Example overlay_10 :
  transaction_count_overlay_at_least (cache head_state) Confirmed 9 = Some (mkOverlay 10 10 2) /\
  transaction_count_overlay_at_least (cache head_state) Confirmed 8 = None.
Proof. vm_compute. split; reflexivity. Qed.

Definition request_until : option SlotBoundary := Some (Position (mkSigSlot 90 5)).

Lemma page_and_remainder_split_witness :
  clamp_until_to_floor request_until 100 = (Some (Slot 99), true) /\
  (in_bounds None request_until (mkSigSlot 95 1) = true <->
   in_bounds None (Some (Slot 99)) (mkSigSlot 95 1) = true \/
   true = true /\ in_bounds (Some (clamp_before_to_floor None 100)) request_until (mkSigSlot 95 1) = true).
Proof.
  split; [reflexivity|].
  apply (page_and_remainder_split None request_until 100 (Some (Slot 99)) true (mkSigSlot 95 1)).
  - by vm_compute.
  - by vm_compute.
  - reflexivity.
  - intros q [= <-]. discriminate.
Defined.

Lemma tip_gap_exact_witness :
  exists start, gsfa_tip_gap 100 None request_until = Some start /\ start <= 105.
Proof.
  apply (tip_gap_exact 100 None request_until (mkSigSlot 105 0)); [by vm_compute|reflexivity|simpl; lia].
Defined.

Definition tfa_query : TfaQuery := mkTfa Desc (Some (mkSigSlot 120 3)) None None.

Lemma tfa_bounds_sound_witness :
  fst (tfa_window (100, 130) tfa_query) <= 110 <= snd (tfa_window (100, 130) tfa_query) /\
  lower_bound_reaches_floor tfa_query 100 = true.
Proof.
  split; [|reflexivity].
  apply (tfa_bounds_sound (100, 130) tfa_query (mkSigSlot 110 0)).
  - by vm_compute.
  - split; [done|]. split; [done|]. intros v [= <-]. left. reflexivity.
  - simpl. lia.
Defined.
