(* ===== verification/IndexWitnesses.v ===== *)
(** * IndexWitnesses: the block index and the watermark table at concrete inputs

    A chain of four blocks around a segment boundary, an honest source that once misses
    the third block, an in-memory implementation of the local reads with its laws proved,
    and a worker history with a failed write and a restart. *)

From S2P Require Import Prelude BTree SlotCoverage CoverageMap HeadCoverage BlockRanges BlockIndex BlockIndexScan Watermark.

Open Scope Z_scope.

Definition chain_rows : list BlockTimeRangeRow :=
  [mkRow 999996 999990 (Some 100); mkRow 999998 999996 None; mkRow 1000001 999998 (Some 200);
   mkRow 1000002 1000001 (Some 201)].

Definition chain_truth (x : Z) : option (option Z) :=
  option_map row_block_time (List.find (fun row => row_slot row =? x) chain_rows).

Lemma chain_times : times_in_range chain_truth.
Proof.
  intros x t. unfold chain_truth. cbn [List.find chain_rows row_slot].
  repeat (destruct (_ =? _); [intros [= <-]; unfold NULL_TIME; lia|]). done.
Qed.

Lemma chain_true row : row ∈ chain_rows -> row_true chain_truth row.
Proof.
  unfold chain_rows. rewrite !elem_of_cons, elem_of_nil.
  intros [->|[->|[->|[->|[]]]]]; vm_compute; reflexivity.
Qed.

Lemma chain_block x : block_at chain_truth x -> exists row, row ∈ chain_rows /\ row_slot row = x.
Proof.
  unfold block_at, chain_truth. destruct (List.find _ chain_rows) as [row|] eqn:E; [|done].
  intros _. apply find_some in E as [Hr Hx]. zbool. exists row. by rewrite list_elem_of_In.
Qed.

Lemma chain_linked row : row ∈ chain_rows -> link_true chain_truth (row_slot row) (row_parent_slot row).
Proof.
  intros Hr x Hx Hb. destruct (chain_block x Hb) as (row' & Hr' & <-).
  unfold chain_rows in *. rewrite !elem_of_cons, elem_of_nil in Hr, Hr'.
  destruct Hr as [->|[->|[->|[->|[]]]]], Hr' as [->|[->|[->|[->|[]]]]]; simpl in Hx; lia.
Qed.

(** A source that has the rows [known]. *)
Definition row_source (known : list BlockTimeRangeRow) : ScanSource :=
  mkSource
    (fun a b => Ok (List.filter (fun row => (a <=? row_slot row) && (row_slot row <=? b))%bool known))
    (fun a => Ok (option_map (fun row => (row_slot row, row_parent_slot row))
                    (List.find (fun row => a <? row_slot row) known))).

Lemma filter_rows_ascending p l : ascending (map row_slot l) -> ascending (map row_slot (List.filter p l)).
Proof.
  induction l as [|a l IH]; intros Ha; [constructor|]. cbn [map] in Ha. apply ascending_cons in Ha as [Hf Ha].
  cbn [List.filter]. destruct (p a); [|by apply IH]. cbn [map]. apply ascending_cons. split; [|by apply IH].
  apply Forall_forall. intros x (row & -> & [Hr _]%elem_of_filter_b)%list_elem_of_fmap.
  rewrite Forall_forall in Hf. apply Hf, list_elem_of_fmap. eauto.
Qed.

Lemma row_source_honest known :
  ascending (map row_slot known) -> (forall row, row ∈ known -> row ∈ chain_rows) ->
  source_honest chain_truth (row_source known).
Proof.
  intros Ha Hk. split.
  - intros a b rows [= <-]. split; [by apply filter_rows_ascending|].
    intros row [Hr Hb]%elem_of_filter_b. zbool. apply Hk in Hr.
    split; [lia|]. split; [by apply chain_true|by apply chain_linked].
  - intros a s p. cbn. destruct (List.find _ known) as [row|] eqn:E; [|done]. intros [= <- <-].
    apply find_some in E as [Hr Hx]. zbool. split; [done|]. apply chain_linked, Hk. by rewrite list_elem_of_In.
Qed.

(** ** The local reads in memory *)

Definition stored_slots (t : LocalTables) (a b : Z) : list Z :=
  dedup (sort_slots (List.filter (fun x => (a <=? x) && (x <=? b))%bool (map p_slot (block_times t)))).

Definition stored_row (t : LocalTables) (x : Z) : BlockTimeRangeRow :=
  mkRow x 0 (match List.find (fun d => p_slot d =? x) (block_times t) with
             | Some d => p_block_time d | None => None end).

Instance memory_reads : LocalReads := {
  read_coverage t := Ok (map (fun k => (range_start k, range_end k)) (reverse (proven_coverage t)));
  read_rows t a b := Ok (map (stored_row t) (stored_slots t a b));
}.

Lemma stored_slots_spec t a b :
  ascending (stored_slots t a b) /\
  forall x, x ∈ stored_slots t a b <-> a <= x <= b /\ exists d, d ∈ block_times t /\ p_slot d = x.
Proof.
  split; [apply dedup_ascending, StronglySorted_merge_sort; apply _|].
  intros x. unfold stored_slots, sort_slots. rewrite elem_of_dedup, merge_sort_Permutation, elem_of_filter_b, list_elem_of_fmap.
  rewrite andb_true_iff, !Z.leb_le. split.
  - intros [(d & -> & Hd) Hx]. eauto.
  - intros [Hx (d & Hd & <-)]. split; [by exists d|done].
Qed.

#[export] Instance memory_reads_laws : LocalReadsLaws memory_reads.
Proof.
  split.
  - intros t l [= <-] r (k & -> & Hk)%list_elem_of_fmap. rewrite elem_of_reverse in Hk. exists (c_version k). by destruct k.
  - intros t a b rows [= <-]. destruct (stored_slots_spec t a b) as [Ha Hx].
    split; [by rewrite map_map, map_id|]. split.
    + intros row (x & -> & (Hb & d & Hd & Ed)%Hx)%list_elem_of_fmap. cbn [stored_row row_slot row_block_time].
      split; [done|]. destruct (List.find _ _) as [d'|] eqn:E.
      * apply find_some in E as [Hd' Ex]. zbool. exists (p_version d'). rewrite <- Ex.
        rewrite list_elem_of_In. by destruct d'.
      * pose proof (find_none _ _ E d) as Hn. cbn in Hn. rewrite Ed, Z.eqb_refl in Hn.
        discriminate Hn. by rewrite <- list_elem_of_In.
    + intros d Hd Hb. exists (stored_row t (p_slot d)). split; [|done]. apply list_elem_of_fmap.
      exists (p_slot d). split; [done|]. apply Hx. eauto.
Qed.

(** ** A worker's history *)

Definition index_config : BlockIndexConfig := mkIndexConfig 20000000 10.

(** A scan of the tip while the block at 1000001 is missing from the source, one whose
    coverage write fails, a restart, and scans of the complete source. *)
Definition history : list worker_event :=
  [Turn (row_source [mkRow 999996 999990 (Some 100); mkRow 999998 999996 None; mkRow 1000002 1000001 (Some 201)])
     1000002 1 Stored Stored;
   Turn (row_source chain_rows) 1000002 2 Stored (Failed 0);
   NoTip;
   Restart memory_reads;
   Turn (row_source chain_rows) 1000003 3 Stored Stored;
   Turn (row_source chain_rows) 1000003 4 (Failed 1) Stored;
   Turn (row_source chain_rows) 1000003 5 Stored Stored].

Lemma history_ok : Forall (event_ok chain_truth) history.
Proof.
  assert (Hfull : source_honest chain_truth (row_source chain_rows)).
  { apply row_source_honest; [repeat constructor|done]. }
  assert (Hpart : source_honest chain_truth
    (row_source [mkRow 999996 999990 (Some 100); mkRow 999998 999996 None; mkRow 1000002 1000001 (Some 201)])).
  { apply row_source_honest; [repeat constructor|]. intros row.
    unfold chain_rows. rewrite !elem_of_cons, elem_of_nil. tauto. }
  assert (Hturn : forall src latest v d k, source_honest chain_truth src -> 0 <= latest <= 2000000 ->
    event_ok chain_truth (Turn src latest v d k)).
  { intros src latest v d k Hs Hl. split; [done|]. unfold u64_max, SEGMENT_SLOTS. lia. }
  unfold history. repeat (apply Forall_cons; split; [|]); try exact I; try exact memory_reads_laws;
    try (apply Hturn; [done|lia]). apply Forall_nil. done.
Qed.

Definition first_worker : Worker := mkWorker (mkCursors None None) (mkIndex index_config ∅ [] []) (mkTables [] []).
Definition last_index : BlockIndex := index (foldl (worker_step index_config) first_worker history).

Example history_answers :
  map (block_time last_index) [999990; 999994; 999996; 999997; 999998; 999999; 1000001; 1000002; 1000003] =
    [NotCovered; Skipped; Found (Some 100); Skipped; Found None; Skipped; Found (Some 200); Found (Some 201); NotCovered] /\
  sc_slots (index_range_coverage last_index 999995 1000005) = [999996; 999998; 1000001; 1000002].
Proof. vm_compute. split; reflexivity. Qed.

Lemma index_worker_truthful_witness :
  truthful_source (block_at chain_truth) (index_range_coverage last_index) /\
  (block_time last_index 1000001 = NotCovered \/ block_time last_index 1000001 = Found (Some 200)) /\
  Z.of_nat (size (segments last_index)) * segment_memory_bytes <= 20000000.
Proof.
  destruct (index_worker_truthful chain_truth memory_reads index_config history first_worker) as (H1 & H2 & _ & H4).
  - apply memory_reads_laws.
  - apply chain_times.
  - vm_compute. reflexivity.
  - apply history_ok.
  - split; [exact H1|]. split; [exact (H2 1000001)|exact H4].
Defined.

(** ** Publication into a full index *)

(** Room for one segment. *)
Definition small_config : BlockIndexConfig := mkIndexConfig 9000000 10.
Definition small_index : BlockIndex := mkIndex small_config ∅ [] [].

Lemma small_index_ok : index_ok chain_truth small_index.
Proof. apply (open_ok chain_truth small_config). vm_compute. reflexivity. Qed.

Lemma publish_memory_exact_witness :
  index_ok chain_truth (fst (publish_memory 999997 1000002 chain_rows small_index)) /\
  map (fun x => contains_slot x (coverage (fst (publish_memory 999997 1000002 chain_rows small_index))))
    [999998; 1000000] = [false; true] /\
  snd (publish_memory 999997 1000002 chain_rows small_index) = false.
Proof.
  destruct (publish_memory_exact chain_truth 999997 1000002 chain_rows small_index) as [_ H].
  - apply chain_times.
  - apply small_index_ok.
  - lia.
  - unfold u64_max, SEGMENT_SLOTS. lia.
  - split.
    + repeat constructor.
    + intros row Hr _. by apply chain_true.
    + intros x _ Hx. by apply chain_block.
  - destruct (publish_memory 999997 1000002 chain_rows small_index) as [b all] eqn:E.
    destruct H as [H _]. split; [exact H|]. vm_compute in E. injection E as <- <-. vm_compute. split; reflexivity.
Defined.

Definition some_segment : Segment := foldl store_row new_segment (take 2 chain_rows).

Lemma segment_slots_exact_witness :
  segment_slots some_segment 0 999990 999998 = [999996; 999998] /\
  segment_slots some_segment 0 999990 999998 =
    List.filter (fun x => produced_at some_segment (x mod SEGMENT_SLOTS)) (range_inclusive 999990 999998).
Proof.
  split; [vm_compute; reflexivity|]. apply (segment_slots_exact some_segment 0 999990 999998).
  - apply (store_rows_ok chain_truth 0 (take 2 chain_rows) new_segment chain_times (new_segment_ok chain_truth 0)).
    apply Forall_cons; split; [split; vm_compute; reflexivity|].
    apply Forall_cons; split; [split; vm_compute; reflexivity|]. apply Forall_nil. done.
  - lia.
  - reflexivity.
  - reflexivity.
Defined.

(** ** Proofs and plans *)

Definition gap_links : list (Z * Z) := [(10, 9); (12, 10); (15, 14); (18, 15)].

Lemma proven_ranges_exact_witness :
  proven_ranges 10 16 gap_links = [(10, 12); (15, 16)] /\ ranges_apart (proven_ranges 10 16 gap_links).
Proof.
  split; [vm_compute; reflexivity|]. apply (proven_ranges_exact 10 16 gap_links).
  - lia.
  - unfold u64_max. lia.
  - repeat constructor.
Defined.

Lemma plan_scan_exact_witness :
  plan_scan 10 16 (proven_ranges 10 16 gap_links) 12 = mkPlan [(10, 12)] 13 /\
  plan_exact 10 16 12 (proven_ranges 10 16 gap_links) [(10, 12)] 13.
Proof.
  split; [vm_compute; reflexivity|].
  apply (plan_scan_exact 10 16 gap_links 12).
  - lia.
  - unfold u64_max. lia.
  - repeat constructor.
Defined.

(** ** Watermarks *)

(** Two entries at most: the third address evicts the oldest, a repeated insertion
    refreshes its address, and an old entry expires. *)
Definition watermark_ops : list (@op Z) :=
  [OInsert 1 500 10; OInsert 2 600 20; OInsert 1 700 30; OInsert 3 800 40; OGet 2 45; OGet 1 45; OGet 3 45;
   ORemove 3; OGet 3 46; OGet 1 130].

Lemma watermarks_refine_recency_list_witness :
  snd (run_ops op_step (watermarks_new 100 2) watermark_ops) =
    [None; None; None; None; None; Some 700; Some 800; None; None; None] /\
  run_ops (spec_step 100 2) [] watermark_ops =
    (live_entries (inner (fst (run_ops op_step (watermarks_new 100 2) watermark_ops))),
     snd (run_ops op_step (watermarks_new 100 2) watermark_ops)).
Proof.
  split; [vm_compute; reflexivity|].
  pose proof (watermarks_refine_recency_list watermark_ops 100 2) as H.
  destruct (run_ops op_step (watermarks_new 100 2) watermark_ops) as [g outs].
  apply H.
  - lia.
  - repeat constructor.
  - repeat constructor.
Defined.
