(* ===== verification/KeyWitnesses.v ===== *)
(** * KeyWitnesses: the key index and the forwarder on concrete schedules

    [exec] runs a schedule of the tasks of [KeyTasks], one action at a time, and every
    schedule it accepts is a run of the step relation.  Applied to concrete schedules it
    instantiates the properties of [KeyTasksSound], and exhibits the run in which a writer
    beyond the tracking limit hides a covered row. *)

From S2P Require Import Prelude BTree CoverageMap KeyIndex KeyTasks KeyFacts KeyTasksSound.

Open Scope Z_scope.

Section Exec.
Context (ix : KeyIndex) (blake3 : list Z -> list Z).

(** The next critical section of a task, when its program point determines it. *)
Definition advance (t : Task) (y : System) : option (Task * System) :=
  match t with
  | Fill a b (FillChecked repair) =>
      Some (Fill a b (FillInvalidated repair), set_index (if repair then invalidate_reads (index y) else index y) y)
  | Fill a b (FillInvalidated repair) =>
      let m := mutation ix a b (index y) in Some (Fill a b (FillBegun (snd m) repair), set_index (fst m) y)
  | Fill a b (FillBegun id repair) => Some (Fill a b (FillWriting id repair), set_index (signature_fill id repair (index y)) y)
  | Fill a b (FillWriting id repair) => Some (Fill a b (FillEnsuring id repair ∅ (a / width ix) EnsureCheck), y)
  | Fill a b (FillEnsuring id repair tokens next e) =>
      if next <=? b / width ix then
        match ensure_next ix true next (coverage y) e (index y) with
        | (s, inl e') => Some (Fill a b (FillEnsuring id repair tokens next e'), set_index s y)
        | (s, inr (Some token)) =>
            Some (Fill a b (FillEnsuring id repair (<[next := token]> tokens) (next + 1) EnsureCheck), set_index s y)
        | (_, inr None) => None
        end
      else
        match e with
        | EnsureCheck => Some (Fill a b (FillScanning id repair tokens [] (signature_scan (in_range (a, b)) (rows y))), y)
        | _ => None
        end
  | Fill a b (FillScanning id repair tokens seen pending) =>
      if (length pending <? UPDATE_BATCH)%nat then
        match insert_signature_hashes ix tokens (hashed blake3 pending) (index y) with
        | (s, true) => Some (Fill a b (FillScanned id repair), set_index s y)
        | (_, false) => None
        end
      else None
  | Fill a b (FillScanned id repair) =>
      Some (Fill a b (FillUpdated id repair true), set_index (finish_signatures id true (index y)) y)
  | Fill a b (FillPersisted id repair success slots) =>
      Some (Fill a b (FillPublished id repair success), set_coverage (foldl (fun m slot => insert_slot slot m) (coverage y) slots) y)
  | AddressBuild p token filters (family :: todo) =>
      Some (AddressBuild p token (set_family family (family_filter blake3 8 3 true (family_keys ix p family (rows y))) filters) todo, y)
  | Poison slot None => let m := mutation ix slot slot (index y) in Some (Poison slot (Some (snd m)), set_index (fst m) y)
  | _ => None
  end.

Inductive action :=
| Advance (n : Z)
| Write (n : Z) (new : list Row)
| Persist (n : Z) (statuses : list (Z * SlotStatus))
| EndTask (n : Z)
| FinishAddress (n : Z)
| StartFill (n a b : Z)
| StartAddress (n p : Z)
| StartPoison (n slot : Z).

Definition all_tasks (p : Task -> bool) (y : System) : bool := forallb (fun e => p (snd e)) (map_to_list (tasks y)).
Definition apart (a b : Z) (t : Task) : bool := match t with Fill a' b' _ => (b <? a') || (b' <? a) | _ => true end.
Definition u64b (x : Z) : bool := (0 <=? x) && (x <=? u64_max).

Definition exec1 (y : System) (act : action) : option System :=
  match act with
  | Advance n => match tasks y !! n with Some t => (fun r => set_task n (fst r) (snd r)) <$> advance t y | None => None end
  | Write n new =>
      match tasks y !! n with
      | Some (Fill a b (FillWriting id repair)) =>
          if forallb (fun r => (a <=? r_slot r) && (r_slot r <=? b)) new
          then Some (set_task n (Fill a b (FillWriting id repair)) (set_rows (new ++ rows y) y)) else None
      | _ => None
      end
  | Persist n statuses =>
      match tasks y !! n with
      | Some (Fill a b (FillUpdated id repair success)) =>
          if forallb (fun e => (a <=? fst e) && (fst e <=? b) && served (snd e)) statuses
          then Some (set_task n (Fill a b (FillPersisted id repair success (map fst statuses)))
                       (set_persisted (foldl (fun m e => <[fst e := snd e]> m) (persisted y) statuses) y))
          else None
      | _ => None
      end
  | EndTask n => Some (end_task n y)
  | FinishAddress n =>
      match tasks y !! n with
      | Some (AddressBuild p token filters []) => Some (end_task n (set_index (index_finish p token (Some filters) (index y)) y))
      | _ => None
      end
  | StartFill n a b =>
      if (bool_decide (tasks y !! n = None) && u64b a && u64b b && (a <=? b) && all_tasks (fun t => negb (is_maintenance t)) y && all_tasks (apart a b) y)%bool
      then Some (set_task n (Fill a b (FillChecked (intersects a b (coverage y)))) y) else None
  | StartAddress n p =>
      if bool_decide (tasks y !! n = None) then
        match index_begin ix p (index y) with
        | (s, Some token) => Some (set_task n (AddressBuild p token (mkFilters None None None) [Address; HotAddress; Owner]) (set_index s y))
        | _ => None
        end
      else None
  | StartPoison n slot =>
      if (bool_decide (tasks y !! n = None) && u64b slot)%bool then Some (set_task n (Poison slot None) y) else None
  end.

Fixpoint exec (calm : bool) (y : System) (schedule : list action) : option System :=
  match schedule with
  | [] => Some y
  | act :: rest =>
      match exec1 y act with
      | Some y' =>
          if (negb calm || (untracked_writers (index y') <=? untracked_writers (index y)))%bool then exec calm y' rest else None
      | None => None
      end
  end.

Lemma advance_sound t y t' y' : advance t y = Some (t', y') -> task_step ix blake3 t y t' y'.
Proof.
  destruct t as [a b phase|p phase|p token filters todo|slot id|floor id|id cleared]; cbn [advance]; try done.
  - destruct phase as [repair|repair|id repair|id repair|id repair tokens next e|id repair tokens seen pending|id repair|id repair success|id repair success slots|id repair success]; try done.
    + intros [= <- <-]. constructor.
    + destruct (mutation _ _ _ _) as [s id] eqn:E. intros [= <- <-]. by constructor.
    + intros [= <- <-]. constructor.
    + intros [= <- <-]. constructor.
    + destruct (Z.leb_spec next (b / width ix)).
      * destruct (ensure_next _ _ _ _ _ _) as [s [e'|[token|]]] eqn:E; [| |done]; intros [= <- <-].
        -- by eapply StepFillEnsure.
        -- by eapply StepFillEnsured.
      * destruct e; [|done|done]. intros [= <- <-]. apply StepFillScan. lia.
    + destruct (Nat.ltb_spec (length pending) UPDATE_BATCH); [|done]. destruct (insert_signature_hashes _ _ _ _) as [s []] eqn:E; [|done].
      intros [= <- <-]. by eapply StepFillScanned.
    + intros [= <- <-]. constructor.
    + intros [= <- <-]. constructor.
  - destruct todo; [done|]. intros [= <- <-]. apply StepAddressFamily. lia.
  - destruct id; [done|]. destruct (mutation _ _ _ _) as [s id] eqn:E. intros [= <- <-]. by constructor.
Qed.

Lemma all_tasks_spec p y : all_tasks p y = true -> forall n t, tasks y !! n = Some t -> p t = true.
Proof.
  intros H n t Ht. unfold all_tasks in H. rewrite forallb_forall in H. apply (H (n, t)). by apply list_elem_of_In, elem_of_map_to_list.
Qed.

Lemma forallb_Forall {A} (p : A -> bool) l : forallb p l = true -> Forall (fun x => p x = true) l.
Proof. intros H. rewrite forallb_forall in H. apply Forall_forall. intros x Hx. apply H. by apply list_elem_of_In. Qed.

Lemma exec1_sound y act y' : exec1 y act = Some y' -> step ix blake3 y y'.
Proof.
  destruct act as [n|n new|n statuses|n|n|n a b|n p|n slot]; cbn.
  - destruct (tasks y !! n) as [t|] eqn:Et; [|done]. destruct (advance t y) as [[t' y1]|] eqn:Ea; [|done]. cbn. intros [= <-].
    by eapply StepTask; [|apply advance_sound].
  - destruct (tasks y !! n) as [[a b [| | |id repair| | | | | |]| | | | |]|] eqn:Et; try done. destruct (forallb _ _) eqn:Ef; [|done]. intros [= <-].
    eapply StepTask; [done|]. constructor. apply forallb_Forall in Ef. eapply Forall_impl; [exact Ef|]. cbn. intros r Hr. lia.
  - destruct (tasks y !! n) as [[a b [| | | | | | |id repair success| |]| | | | |]|] eqn:Et; try done. destruct (forallb _ _) eqn:Ef; [|done]. intros [= <-].
    eapply StepTask; [done|]. constructor. apply forallb_Forall in Ef. eapply Forall_impl; [exact Ef|]. cbn. intros e He. zbool. split; [lia|].
    intros Ee. match goal with H : served _ = true |- _ => by rewrite Ee in H end.
  - intros [= <-]. apply StepEnd.
  - destruct (tasks y !! n) as [[| |p token filters []| | |]|] eqn:Et; try done. intros [= <-]. by eapply StepAddressEnd.
  - destruct (_ && _)%bool eqn:E; [|done]. intros [= <-]. unfold u64b in E. zbool. apply StepFillStart; unfold is_u64; try done; try lia.
    + intros m t Ht. apply negb_true_iff. by eapply (all_tasks_spec (fun t => negb (is_maintenance t))).
    + intros m a' b' phase Ht. pose proof (all_tasks_spec _ _ H0 m _ Ht) as Hap. cbn in Hap. lia.
  - destruct (bool_decide _) eqn:E; [|done]. destruct (index_begin _ _ _) as [s [token|]] eqn:Eb; [|done]. intros [= <-]. zbool. by eapply StepAddressStart.
  - destruct (_ && _)%bool eqn:E; [|done]. intros [= <-]. unfold u64b in E. zbool. apply StepPoisonStart; [done|]. unfold is_u64. lia.
Qed.

Lemma exec_sound y schedule y' : exec false y schedule = Some y' -> rtc (step ix blake3) y y'.
Proof.
  revert y. induction schedule as [|act rest IH]; intros y; cbn; [by intros [= <-]|].
  destruct (exec1 y act) as [y1|] eqn:E; [|done]. intros H. eapply rtc_l; [by apply (exec1_sound y act)|auto].
Qed.

Lemma exec_calm y schedule y' : exec true y schedule = Some y' -> rtc (calm_step ix blake3) y y'.
Proof.
  revert y. induction schedule as [|act rest IH]; intros y; cbn; [by intros [= <-]|].
  destruct (exec1 y act) as [y1|] eqn:E; [|done]. destruct (Z.leb_spec (untracked_writers (index y1)) (untracked_writers (index y))); [|done].
  intros Hr. eapply rtc_l; [|by apply IH]. split; [by apply (exec1_sound y act)|]. lia.
Qed.

End Exec.

(** ** Schedules *)

(** Partitions of ten slots; a digest that depends on the first byte of the key. *)
Definition small_ix : KeyIndex := key_index_new 100 10 (RESERVE + 12 * (1024 + 24)).
Definition digest (key : list Z) : list Z := map (fun i => (hd 0 key * 37 + Z.of_nat i) mod 256) (seq 0 32).

Definition sig_row (slot : Z) (key : list Z) : Row := mkRow slot SignatureTable key.
Definition empty_open : System := system_open [] ∅ coverage_new.

Lemma empty_tables : open_tables [] ∅ coverage_new.
Proof. split; [apply new_ok|constructor|]. intros k v H. by rewrite lookup_empty in H. Defined.

(** A fill from its start to the end of its scan. *)
Definition fill_scan (n a b : Z) (new : list Row) : list action :=
  [StartFill n a b; Advance n; Advance n; Advance n; Write n new; Advance n;
   Advance n; Advance n; Advance n; Advance n; Advance n; Advance n].

(** A fill, published, and an address build of its partition. *)
Definition one_fill : list action :=
  fill_scan 1 3 4 [sig_row 3 [7]; mkRow 3 (KeyTable Owner) [8]] ++ [Persist 1 [(3, Covered 1); (4, Skipped)]; Advance 1; EndTask 1;
   StartAddress 3 0; Advance 3; Advance 3; Advance 3; FinishAddress 3].

Definition served_state : System := default empty_open (exec small_ix digest true empty_open one_fill).

Lemma served_run : rtc (calm_step small_ix digest) empty_open served_state.
Proof. apply (exec_calm _ _ _ one_fill). vm_compute. reflexivity. Qed.

Lemma signature_lookup_complete_witness :
  candidate_partitions (signature_candidates 0 3 (hash_of digest [7]) (index served_state)) = [3; 2; 1; 0] /\
  candidate_partitions (signature_candidates 0 0 (hash_of digest [9]) (index served_state)) = [] /\
  3 / width small_ix ∈ candidate_partitions (signature_candidates 0 3 (hash_of digest [7]) (index served_state)).
Proof.
  split; [vm_compute; reflexivity|]. split; [vm_compute; reflexivity|].
  apply (signature_lookup_complete small_ix digest [] ∅ coverage_new served_state 0 3 (sig_row 3 [7])).
  - vm_compute. reflexivity.
  - vm_compute. discriminate.
  - exact empty_tables.
  - exact served_run.
  - vm_compute. left.
  - reflexivity.
  - apply contains_slot_spec; [|vm_compute; reflexivity].
    apply (o_data _ _ _ (run_ok small_ix digest ltac:(vm_compute; reflexivity) ltac:(vm_compute; discriminate) _ _ (system_open_ok _ _ _ _ _ new_ok ltac:(constructor) (ot_persisted _ _ _ empty_tables)) served_run)).
  - vm_compute. split; discriminate.
Defined.

Lemma address_absence_sound_witness :
  membership 0 [Owner] (hash_of digest [8]) (index served_state) = Some true /\
  membership 0 [Owner] (hash_of digest [9]) (index served_state) = Some false /\ [8] <> [9].
Proof.
  split; [vm_compute; reflexivity|]. split; [vm_compute; reflexivity|].
  apply (address_absence_sound small_ix digest [] ∅ coverage_new served_state 0 [Owner] [9] Owner (mkRow 3 (KeyTable Owner) [8])).
  - vm_compute. reflexivity.
  - vm_compute. discriminate.
  - exact empty_tables.
  - exact served_run.
  - vm_compute. reflexivity.
  - left.
  - vm_compute. right. left.
  - reflexivity.
  - reflexivity.
Defined.

(** A poisoned slot elsewhere that has not begun its mutation moves no token. *)
Definition beside_state : System := default served_state (exec small_ix digest true served_state [StartPoison 9 77; StartFill 5 50 55]).

Lemma range_token_snapshot_witness :
  range_read_token small_ix 0 9 (index beside_state) = range_read_token small_ix 0 9 (index served_state) /\
  (sig_row 3 [7] ∈ rows served_state <-> sig_row 3 [7] ∈ rows beside_state).
Proof.
  split; [vm_compute; reflexivity|].
  destruct (range_token_snapshot small_ix digest [] ∅ coverage_new served_state beside_state beside_state 0 9
    (default (0, 0) (range_read_token small_ix 0 9 (index served_state)))) as [H _].
  - vm_compute. reflexivity.
  - vm_compute. discriminate.
  - exact empty_tables.
  - exact served_run.
  - apply (exec_calm _ _ _ [StartPoison 9 77; StartFill 5 50 55]). vm_compute. reflexivity.
  - apply rtc_refl.
  - vm_compute. reflexivity.
  - vm_compute. reflexivity.
  - apply H. vm_compute. split; discriminate.
Defined.

(** ** The tracking limit *)

(** 128 slots are poisoned at once, beside a fill of slot 0 that has finished its scan: the
    last poison is not tracked and clears the filters.  A second fill of the partition then
    allocates an empty filter that counts as complete, because nothing is covered yet, and
    the first fill publishes its slot. *)
Definition poisons : list action :=
  flat_map (fun i => [StartPoison (1000 + i) (500 + i); Advance (1000 + i)]) (seqZ 0 128).

Definition race : list action :=
  fill_scan 1 0 0 [sig_row 0 [7]] ++ poisons ++ map (fun i => EndTask (1000 + i)) (seqZ 0 128) ++
  fill_scan 2 1 1 [sig_row 1 [9]] ++ [Persist 1 [(0, Covered 1)]; Advance 1; EndTask 1; Persist 2 [(1, Covered 1)]; Advance 2; EndTask 2].

Definition raced_state : System := default empty_open (exec small_ix digest false empty_open race).

(** Beyond the tracking limit the lookup can miss a row: a run of the tasks after which no
    task is left, slot 0 is covered and holds the signature, and its partition is not among
    the candidates. *)
Theorem untracked_writer_hides_row :
  rtc (step small_ix digest) empty_open raced_state /\ tasks raced_state = ∅ /\
  sig_row 0 [7] ∈ rows raced_state /\ contains_slot 0 (coverage raced_state) = true /\
  candidate_partitions (signature_candidates 0 0 (hash_of digest [7]) (index raced_state)) = [] /\
  unknown_partitions (signature_candidates 0 0 (hash_of digest [7]) (index raced_state)) = [].
Proof.
  split; [apply (exec_sound _ _ _ race); vm_compute; reflexivity|]. split; [vm_compute; reflexivity|].
  split; [vm_compute; right; left|]. vm_compute. split_and!; reflexivity.
Qed.

(** ** The forwarder *)

From S2P Require Import Filler FillerSound.

(** The window 100..112 with 104..106 covered and slot 110 given up. *)
Definition demo_cover : CoverageMap := insert_range 104 106 coverage_new.
Definition demo_attempts : FillAttempts := mkAttempts 2 600 {[110 := 2]} {[110 := 50]} ∅.

Lemma demo_cover_ok : map_ok demo_cover.
Proof. apply insert_range_spec; [apply new_ok|vm_compute; split; discriminate|vm_compute; split; discriminate]. Qed.

Lemma plan_ranges_exact_witness :
  plan_ranges (holes_in 100 112 demo_cover) demo_attempts 2 6 =
    [mkRange 111 112; mkRange 108 109; mkRange 107 107; mkRange 103 103] /\
  ~ in_plan 110 (plan_ranges (holes_in 100 112 demo_cover) demo_attempts 2 6) /\
  ~ in_plan 102 (plan_ranges (holes_in 100 112 demo_cover) demo_attempts 2 6).
Proof.
  split; [vm_compute; reflexivity|].
  destruct (plan_ranges_exact demo_cover demo_attempts 100 112 2 6 demo_cover_ok ltac:(lia) ltac:(vm_compute; discriminate) ltac:(lia)) as (_ & _ & H).
  rewrite !H. split; intros (_ & Hw & Hn); [by vm_compute in Hw|by vm_compute in Hn].
Defined.

(** A source that answers for slot 11 and never has the blocks of the others. *)
Definition demo_outcome (r : SlotRange) : option (gset Z) :=
  Some (if ((range_start r <=? 11) && (11 <=? range_end r))%bool then {[11]} else ∅).

Lemma demo_answers : answers demo_outcome.
Proof.
  intros r. eexists. split; [done|]. intros x. case_match; zbool; [|set_solver]. intros ->%elem_of_singleton. lia.
Qed.

Lemma filler_settles_witness :
  let st := rounds (mkFiller 3 2 1 0) 10 12 (map (fun t => (t, demo_outcome)) [5; 6; 7; 8; 9; 10]) (attempts_new 2 600, coverage_new) in
  covers (snd st) 11 /\ forall x, 10 <= x <= 12 -> covers (snd st) x \/ is_given_up (fst st) x = true.
Proof.
  intros st. split.
  - exists (11, 11). split; [|cbn; lia]. vm_compute. left.
  - apply (filler_settles (mkFiller 3 2 1 0) 10 12 2 600 coverage_new (map (fun t => (t, demo_outcome)) [5; 6; 7; 8; 9; 10]) 5);
      [apply new_ok|lia|vm_compute; discriminate|lia| |cbn; lia].
    repeat (apply List.Forall_cons; [split; [exact demo_answers|cbn; lia]|]). apply List.Forall_nil.
Defined.

(** Slots 100, 101 and 105 have blocks; 106 and later are unknown. *)
Definition demo_chain : list (Z * Z * Z) := [(100, 99, 7); (101, 100, 5000000000); (105, 101, 2)].

Lemma demo_linked : linked demo_chain.
Proof. split; repeat (apply SSorted_cons || apply SSorted_nil || apply List.Forall_cons || apply List.Forall_nil || (vm_compute; intuition discriminate)). Qed.

Lemma batch_statuses_exact_witness :
  exists covered, coverage_from_metadata (mkRange 101 103) (blocks_between demo_chain (mkRange 101 103)) (next_block_after demo_chain 103) = Some covered /\
  covered !! 101 = Some (Covered 4294967295) /\ covered !! 103 = Some Skipped /\ covered !! 104 = None.
Proof.
  destruct (batch_statuses_exact demo_chain (mkRange 101 103) demo_linked) as (covered & E & H1 & H2 & _).
  exists covered. split; [exact E|]. split_and!.
  - apply H1. split; [unfold in_slots; cbn; lia|]. exists 100, 5000000000. split; [vm_compute; right; left|reflexivity].
  - apply H2. split_and!; [unfold in_slots; cbn; lia| |].
    + intros Hin. vm_compute in Hin. repeat (apply elem_of_cons in Hin as [Hin|Hin]; [discriminate|]). by apply elem_of_nil in Hin.
    + exists 105, 101, 2. split_and!; [vm_compute; right; right; left|lia|lia|unfold MAX_SKIPPED_RUN; lia].
  - vm_compute in E. injection E as <-. reflexivity.
Defined.
