(* ===== verification/IngestWitnesses.v ===== *)
(** * IngestWitnesses: the ingestor's theorems on concrete streams

    Small streams whose blocks, footers, flushes and failing inserts exercise the hypotheses
    of the ingestor's theorems, and two runs that lose data. *)

From S2P Require Import Prelude Text Sdk IngestTx IngestBlock IngestBlockSound IngestTables IngestGrpc IngestGrpcSound IngestGrpcTruth Fumarole FumaroleSound.

Open Scope list_scope.
Open Scope Z_scope.

Definition demo_bytes (s : string) : list Z := map (fun c => Z.of_nat (Ascii.nat_of_ascii c)) (String.list_ascii_of_string s).
Definition demo_bs58 (s : string) : option (list Z) := Some (firstn 32 (demo_bytes s ++ replicate 32 0)).
Definition demo_reward (n : Z) : option string := if n =? 1 then Some "Fee"%string else None.
Definition demo_serialize (m : VersionedMessage) : list Z :=
  match m with LegacyMessage _ keys hash _ => concat keys ++ hash | MessageV0 _ keys hash _ _ => 0 :: concat keys ++ hash | MessageV1 _ _ hash keys _ => 1 :: concat keys ++ hash end.
Definition demo_blake3 (l : list Z) : list Z := firstn 32 (l ++ replicate 32 0).
Definition demo_error (bytes : list Z) : option string := match bytes with [6] => Some "AlreadyProcessed"%string | _ => None end.
Definition demo_hex (bytes : list Z) : string := "00"%string.
Definition demo_codecs : Codecs := mkCodecs demo_bs58 demo_reward demo_serialize demo_blake3 demo_error demo_hex.
Definition demo_fetch (slots : list Z) : option (gmap Z FooterFields) := Some ∅.

Definition demo_message (tag : Z) : MessageMsg :=
  mkMessageMsg (Some (mkHeader 1 0 0)) [replicate 32 tag; replicate 32 2] (replicate 32 3) [mkInstruction 1 [0] [tag]] false [] None.
Definition demo_status_meta : StatusMetaMsg :=
  mkStatusMetaMsg None 5000 [10; 20] [5; 25] [] true [] false [] [] [] [] [] None true (Some 150) None.
Definition demo_tx (index tag : Z) : TxInfo :=
  mkTxInfo (replicate 64 tag) false (Some (mkTransactionMsg [replicate 64 tag] (Some (demo_message tag)))) (Some demo_status_meta) index.
Definition demo_entry (slot index start count : Z) : EntryMsg := mkEntryMsg slot index 5 start count 12 (replicate 32 index).
Definition demo_block (slot : Z) : BlockMsg :=
  mkBlockMsg slot 5 "hash" None (Some 1700) (Some (slot - 90)) (slot - 1) "parent" 2 [demo_tx 1 8; demo_tx 0 7] 2
    [demo_entry slot 1 2 0; demo_entry slot 0 0 2].

Lemma validate_block_exact_witness :
  validate_block_completeness (demo_block 100) true = Ok tt /\ block_complete (demo_block 100) true.
Proof.
  assert (H : validate_block_completeness (demo_block 100) true = Ok tt) by (vm_compute; reflexivity). split; [exact H|].
  refine (proj2 (proj2 (proj1 (validate_block_exact (demo_block 100) true _) H))).
  split_and!; [vm_compute; intuition discriminate|vm_compute; discriminate| |];
    repeat (apply List.Forall_cons; [vm_compute; intuition discriminate|]); apply List.Forall_nil.
Defined.

Definition demo_status (slot : Z) (st : SlotState) : Event := Received (SlotUpdate (mkSlotMsg slot (Some st) (Some 5))) 10.
Definition demo_footer (slot : Z) : FooterMsg := mkFooterMsg slot 5 (replicate 32 9) 42 [1].
Definition demo_grpc_args : GrpcArgs := mkGrpcArgs true 1000 100 true 0 None.

(** Two blocks with their statuses, a footer for the first, and an insert that fails. *)
Definition demo_events : list Event :=
  [ Received (FooterUpdate (demo_footer 100)) 5; demo_status 100 Finalized; Received (BlockUpdate (demo_block 100) 700) 11;
    demo_status 101 Confirmed; Received (BlockUpdate (demo_block 101) 700) 12; ShutdownSignal 13 ].
Definition demo_run (answers : list Answer) (events : list Event) : Run :=
  grpc_run demo_codecs demo_fetch demo_grpc_args None answers events.

Definition demo_row (slot : Z) (footer : option FooterFields) : BlockMetadataRow :=
  let row := mkBlockMeta slot (slot - 1) (demo_bytes "hash" ++ replicate 28 0) (demo_bytes "parent" ++ replicate 26 0) (Some 5) None None None
               (Some 1700) (Some (slot - 90)) 2 2 (mkRewardColumns 0 [] [] [] [] [] [] None) in
  match footer with Some f => apply_footer f row | None => row end.
Definition demo_fields : FooterFields := mkFooter (replicate 32 9) 42 [1].

Lemma demo_run_table :
  block_table (world (run_grpc (demo_run [Stored; Stored; Unsure] demo_events))) = [demo_row 100 (Some demo_fields)].
Proof. vm_compute. reflexivity. Qed.

Lemma demo_ascending : ascending (map bk_slot (concat (map blocks_of_event demo_events))).
Proof. repeat (apply SSorted_cons || apply SSorted_nil || apply List.Forall_cons || apply List.Forall_nil || reflexivity). Qed.

Lemma grpc_restart_complete_witness :
  exists p, prepared demo_codecs true (demo_block 100) p /\
    announced (world (run_grpc (demo_run [Stored; Stored; Unsure] demo_events))) (core p).
Proof.
  destruct (grpc_restart_complete demo_codecs demo_fetch demo_grpc_args None [Stored; Stored; Unsure] demo_events (demo_block 100)) as [H _].
  - exact demo_ascending.
  - vm_compute. left.
  - apply (H (demo_row 100 (Some demo_fields))); [|vm_compute; discriminate].
    change (demo_row 100 (Some demo_fields) ∈ block_table (world (run_grpc (demo_run [Stored; Stored; Unsure] demo_events)))).
    rewrite demo_run_table. left.
Defined.

Lemma grpc_rows_true_witness :
  row_true (updates_of demo_events) demo_codecs demo_fetch demo_grpc_args (demo_row 100 (Some demo_fields)).
Proof.
  apply (grpc_rows_true demo_codecs demo_fetch demo_grpc_args None [Stored; Stored; Unsure] demo_events).
  change (demo_row 100 (Some demo_fields) ∈ block_table (world (run_grpc (demo_run [Stored; Stored; Unsure] demo_events)))).
  rewrite demo_run_table. left.
Defined.

(** The same stream before the shutdown. *)
Definition demo_prefix : list Event := firstn 5 demo_events.
Definition is_running (r : Run) : bool := match r with Running _ => true | Returned _ _ => false end.

Lemma running_eq r : is_running r = true -> r = Running (run_grpc r).
Proof. by destruct r. Qed.

Lemma grpc_join_bounded_witness :
  bounded (join (run_grpc (demo_run [] demo_prefix))) /\ zlen (block_table (world (run_grpc (demo_run [] demo_prefix)))) = 1.
Proof.
  split; [|vm_compute; reflexivity].
  apply (grpc_join_bounded demo_codecs demo_fetch demo_grpc_args None [] demo_prefix).
  - repeat (apply List.Forall_cons; [intros u now Hu; injection Hu as <- <-; vm_compute; try exact I; discriminate|]). apply List.Forall_nil.
  - apply (running_eq (demo_run [] demo_prefix)). vm_compute. reflexivity.
Defined.

(** The entries of a batch are inserted after its metadata rows: when that insert fails and the
    process stops, the newest stored block is in the batch, and a restart that resumes from
    the newest stored block never reads the entries of the earlier ones again. *)
Definition batch_run (answers : list Answer) : Run :=
  grpc_run demo_codecs demo_fetch (mkGrpcArgs false 1000 2 true 0 None) None answers
    [ Received (FooterUpdate (demo_footer 100)) 5; demo_status 100 Finalized; Received (BlockUpdate (demo_block 100) 700) 11;
      Received (FooterUpdate (demo_footer 101)) 12; demo_status 101 Finalized; Received (BlockUpdate (demo_block 101) 700) 13 ].

Theorem entries_lost_on_restart :
  let g := run_grpc (batch_run [Stored; Stored; Refused; Refused]) in
  is_running (batch_run [Stored; Stored; Refused; Refused]) = false /\
  map m_slot (block_table (world g)) = [100; 101] /\ entry_table (world g) = [] /\
  fst (resolve_initial_from_slot (Some SpecLatestDb) (max_block_slot (block_table (world g)))) = Some 101.
Proof. vm_compute. repeat split. Qed.

(** ** The persisted stream *)

Definition demo_meta (slot : Z) (hash : string) : MetaMsg := mkMetaMsg slot 5 hash None (Some 1700) (Some 10) (slot - 1) "parent" 2 2.
Definition demo_key (slot : Z) : BankKey := (slot, Some "hash"%string).
Definition demo_payloads (slot : Z) : list LoopEvent :=
  map (fun p => Streamed (Data (demo_key slot) p 100) None)
    [ PTransaction slot 5 (Some (demo_tx 1 8)); PMeta (demo_meta slot "hash"); PEntry (demo_entry slot 0 0 2);
      PTransaction slot 5 (Some (demo_tx 0 7)); PEntry (demo_entry slot 1 2 0) ].
Definition demo_end (slot : Z) : LoopEvent := Streamed (SlotEnded (demo_key slot)) None.

Definition demo_fumarole_args (bound : option Z) : FumaroleArgs := mkFumaroleArgs true 1000 100 true None bound 0.

(** Two banks whose payloads interleave; the second one ends after the first is flushed. *)
Definition demo_stream : list LoopEvent := demo_payloads 100 ++ demo_payloads 101 ++ [demo_end 100; demo_end 101].
Definition demo_fumarole (bound : option Z) (events : list LoopEvent) : FumaroleRun :=
  fumarole_run demo_codecs demo_fetch (demo_fumarole_args bound) None [] events.

Lemma fumarole_commit_durable_witness :
  fu_acknowledged (run_state (demo_fumarole None (firstn 11 demo_stream))) = 0 /\
  exists b q, carries (concat (map stream_events demo_stream)) (demo_key 101) (PTransaction 101 5 (Some (demo_tx 0 7))) b /\
    prepared demo_codecs true b q /\ stored true (fu_world (run_state (demo_fumarole None demo_stream))) (core q).
Proof.
  split; [vm_compute; reflexivity|].
  apply (fumarole_commit_durable demo_codecs demo_fetch (demo_fumarole_args None) None [] demo_stream 8 _ _ 100);
    vm_compute; reflexivity || exact I.
Defined.

Definition demo_fumarole_row (slot : Z) : BlockMetadataRow :=
  mkBlockMeta slot (slot - 1) (demo_bytes "hash" ++ replicate 28 0) (demo_bytes "parent" ++ replicate 26 0) (Some 5) None None None
    (Some 1700) (Some 10) 2 2 (mkRewardColumns 0 [] [] [] [] [] [] None).

Lemma fumarole_rows_authentic_witness :
  exists b q, prepared demo_codecs true b q /\ strip (demo_fumarole_row 101) = strip (p_metadata q) /\
    authentic (concat (map stream_events demo_stream)) b /\ within_bound (demo_fumarole_args (Some 200)) (bk_slot b).
Proof.
  apply (fumarole_rows_authentic demo_codecs demo_fetch (demo_fumarole_args (Some 200)) None [] demo_stream (demo_fumarole_row 101)).
  vm_compute. right. left.
Defined.

(** With a historical bound, a payload beyond it is dropped while an earlier bank is still
    incomplete; when that bank completes and is flushed, the commit acknowledges the dropped
    payload with it, and the process then stops to report that nothing rejected was
    acknowledged. *)
Theorem dropped_payload_acknowledged :
  let s := run_state (demo_fumarole (Some 100) (demo_payloads 100 ++ demo_payloads 101 ++ [demo_end 100])) in
  demo_fumarole (Some 100) (demo_payloads 100 ++ demo_payloads 101 ++ [demo_end 100]) = FReturned s (Err BoundReached) /\
  fu_acknowledged s = 11 /\ map m_slot (block_table (fu_world s)) = [100] /\ pending_slots (fu_assembler s) = 0.
Proof. vm_compute. repeat split. Qed.

(** ** A backfill

    Two slots are asked for; the first has a block with two transactions, the second none.  One
    worker fetches, every result is flushed. *)

From S2P Require Import BTree Hydration IngestRpc IngestRpcSound.

Definition demo_has_block (slot : Z) : bool := slot =? 100.
Definition demo_content (slot : Z) : option (list Z * Z) := if slot =? 100 then Some ([7; 8], 100) else None.
Definition demo_map (slot : Z) (block : unit) : option (list Z * Z) := Some ([7; 8], slot).
Definition demo_get_block (slot : Z) (answer : RpcAnswer (Block := unit)) : Prop := answer = (if slot =? 100 then GotBlock tt else GotError (RpcResponseError (-32009) "")).
Definition demo_get_blocks (a b : Z) (l : list Z) : Prop := l = (if (a <=? 100) && (100 <=? b) then [100] else []).
Definition demo_config : Config := run_config (mkRpcRange 100 101) 10 true 1 3 1 1000 1000.

Lemma demo_node : node_true (fun b : Z => b) demo_map demo_get_block demo_get_blocks demo_content demo_has_block.
Proof.
  split; unfold demo_get_block, demo_map, demo_content, demo_get_blocks, demo_has_block.
  - intros slot block batch Hb [= <-]. destruct (Z.eqb_spec slot 100) as [->|]; [done|discriminate].
  - intros slot txs b. destruct (Z.eqb_spec slot 100) as [->|]; by intros [= <- <-].
  - intros a b l -> slot. destruct (Z.leb_spec a 100), (Z.leb_spec 100 b); cbn [andb]; rewrite ?list_elem_of_singleton, ?elem_of_nil, Z.eqb_eq; lia.
Qed.

Ltac side := solve [reflexivity | discriminate | vm_compute; reflexivity | vm_compute; discriminate | apply Nat.ltb_lt; vm_compute; reflexivity | by intros ?%elem_of_nil | by repeat constructor].
Ltac go tac := eapply rtc_l; [tac; side|cbn -[run_config]].

(** The run: discovery, one fetch, one flush, and the end. *)
Lemma demo_backfill : exists p, rtc (step (fun b : Z => b) demo_map demo_config demo_get_block demo_get_blocks) (run_start demo_config None [] []) p /\
  i_phase (inserter p) = Returned (Ok false) /\ shutdown_count p = 0 /\ tx_rows p = [7; 8] /\ blk_rows p = [100].
Proof.
  eexists. split.
  - unfold run_start. cbn -[run_config].
    go ltac:(apply Discovers; eapply (DiscoverChunk _ _ _ _ 100 _ true)).
    go ltac:(apply Discovers; eapply SendSlot).
    go ltac:(apply Discovers; eapply ChunkSent).
    go ltac:(apply Discovers; eapply DiscoverEnd).
    go ltac:(apply Dispatches; eapply TakeSlot).
    go ltac:(apply Dispatches; eapply HandSlot).
    go ltac:(apply Dispatches; eapply SlotsClosed).
    go ltac:(apply Works; eapply (WorkerTakes _ _ _ _ 0%nat)).
    go ltac:(apply Works; eapply (WorkerFetches _ _ _ _ 0%nat)).
    go ltac:(apply Works; eapply (WorkerSends _ _ _ _ 0%nat)).
    go ltac:(apply Works; eapply (WorkerEnds _ _ _ _ 0%nat)).
    go ltac:(apply Inserts; eapply ResultReceived).
    go ltac:(apply Inserts; eapply TaskSpawned).
    go ltac:(eapply (TaskInserts _ _ _ _ _ _ 0%nat _ Stored)).
    go ltac:(eapply (TaskInserts _ _ _ _ _ _ 0%nat _ Stored)).
    go ltac:(eapply (TaskInserts _ _ _ _ _ _ 0%nat _ Stored)).
    go ltac:(apply Inserts; eapply (TaskJoined _ _ 0%nat)).
    go ltac:(apply Inserts; eapply ResultsClosed).
    go ltac:(apply Inserts; eapply LoopEnd).
    go ltac:(apply Inserts; eapply Drained).
    apply rtc_refl.
  - vm_compute. repeat split.
Qed.

Lemma rpc_backfill_complete_witness :
  exists p, rtc (step (fun b : Z => b) demo_map demo_config demo_get_block demo_get_blocks) (run_start demo_config None [] []) p /\
    i_phase (inserter p) = Returned (Ok false) /\ closed (fun b : Z => b) demo_content (tx_rows p) (blk_rows p) /\
    (exists b, b ∈ blk_rows p /\ b = 100) /\ 7 ∈ tx_rows p.
Proof.
  destruct demo_backfill as (p & Hp & Hr & Hs & _). exists p.
  destruct (rpc_backfill_complete (fun b : Z => b) demo_map demo_get_block demo_get_blocks demo_content demo_has_block
    (mkRpcRange 100 101) 10 true 1 3 1 1000 1000 None [] [] p demo_node (closed_nil _ _ _) Hp) as [Hc Hw].
  split; [exact Hp|]. split; [exact Hr|]. split; [exact Hc|].
  destruct (Hw false 100 Hr Hs) as [(err & Herr & _)|[Hb Ht]].
  - split; [vm_compute; split; discriminate|reflexivity].
  - discriminate Herr.
  - split; [exact Hb|]. apply (Ht [7; 8] 100 7); [reflexivity|left].
Defined.

Lemma rpc_backfill_ends_witness :
  let start := run_start demo_config None [] [] in let works := works (fun b : Z => b) demo_map demo_config demo_get_block demo_get_blocks in
  Acc (flip (advance (fun b : Z => b) demo_map demo_config demo_get_block demo_get_blocks)) start /\ ((forall p', ~ works start p') -> returned start = true) /\
  exists p', works start p'.
Proof.
  assert (H := rpc_backfill_ends (fun b : Z => b) demo_map demo_get_block demo_get_blocks (mkRpcRange 100 101) 10 true 1 3 1 1000 1000 None [] [] (run_start demo_config None [] [])).
  destruct H as [H1 H2].
  - intros slot. eexists. split; [reflexivity|]. destruct (slot =? 100); discriminate.
  - intros a b. eexists. reflexivity.
  - reflexivity.
  - apply rtc_refl.
  - split; [exact H1|]. split; [exact H2|]. eexists. split; [|split].
    + apply Discovers. eapply (DiscoverChunk _ _ _ _ 100 _ true); side.
    + discriminate.
    + discriminate.
Defined.
