(* ===== verification/HydrationWitnesses.v ===== *)
(** * HydrationWitnesses: served transactions and blocks on concrete data

    A streamed version-0 transaction with lookups, inner instructions, token balances, a
    reward and an error, and blocks built in chunks by a small encoder and serializer. *)

From S2P Require Import Prelude Text Sdk IngestTx IngestBlockSound Hydration HydrationSound BlockHydration BlockHydrationSound.

Open Scope list_scope.
Open Scope Z_scope.

(** ** A streamed transaction *)

Definition mint_key : list Z := replicate 32 7.
Definition owner_key : list Z := replicate 32 8.
Definition table_decode (s : string) : option (list Z) :=
  if String.eqb s "mint" then Some mint_key else if String.eqb s "owner" then Some owner_key else None.
Definition table_encode (b : list Z) : string :=
  if bool_decide (b = mint_key) then "mint" else if bool_decide (b = owner_key) then "owner" else "other".
Definition already_processed : string := (quote ++ "AlreadyProcessed" ++ quote)%string.
Definition sample_codecs : Codecs :=
  mkCodecs table_decode (fun n => if n =? 1 then Some "Fee"%string else None) (fun m => match m with MessageV0 _ _ hash _ _ => 128 :: hash | _ => [] end)
    (fun bytes => firstn 32 bytes) (fun bytes => match bytes with [6] => Some already_processed | _ => None end) (fun _ => "00"%string).
Definition sample_readers : Readers :=
  mkReaders table_encode (fun s => if String.eqb s already_processed then Some TE_AlreadyProcessed else None) (fun _ => None).

Definition sample_header : MessageHeader := mkHeader 1 0 1.
Definition sample_message : MessageMsg :=
  mkMessageMsg (Some sample_header) [replicate 32 1; replicate 32 2] (replicate 32 3) [mkInstruction 1 [0; 2] [9; 9]] true
    [mkLookup (replicate 32 4) [0] []] None.
Definition sample_tx : TransactionMsg := mkTransactionMsg [replicate 64 5] (Some sample_message).
Definition sample_meta : StatusMetaMsg :=
  mkStatusMetaMsg (Some [6]) 5000 [10; 20; 30] [5; 25; 30] [mkInners 0 [mkInner (mkInstruction 1 [0] [1]) (Some 2)]] false [] false
    [mkTokenBalanceMsg 0 "mint" (Some (mkUiAmountMsg 0 6 "0" "0")) "owner" EmptyString] [] [mkReward "who" 3 13 1 EmptyString EmptyString]
    [replicate 32 6] [] None true (Some 150) None.
Definition sample_info : TxInfo := mkTxInfo (replicate 64 5) false (Some sample_tx) (Some sample_meta) 0.
Definition sample_kind (n : Z) : option RewardType := if n =? 1 then Some Fee else None.
Definition sample_row : result IngestTx.TransactionRow IngestError := map_transaction sample_codecs 100 (Some 1700) sample_info.
Definition row_or_default : IngestTx.TransactionRow :=
  match sample_row with Ok row => row | Err _ => mkTxRow [] 0 0 None [] (mkColumns 0 None (mkConfig None None None None) [] sample_header [] []
    (mkInstructionColumns [] [] []) 0 (mkLookupColumns [] [] []) 0 None 0 [] [] 0 (mkInnerColumns [] [] [] [] []) 0 [] 0
    (mkTokenColumns [] [] [] [] [] [] [] []) 0 (mkTokenColumns [] [] [] [] [] [] [] []) 0 (mkRewardArrays [] [] [] [] [] []) [] [] 0 None None None None) end.
Definition sample_record : StoredTransactionRecord := map_transaction_row (read_row row_or_default).

Lemma sample_base58 : base58_law sample_codecs sample_readers.
Proof.
  intros s b. cbn [bs58_decode bs58_encode sample_codecs sample_readers]. unfold table_decode.
  destruct (String.eqb_spec s "mint") as [->|]; [by intros [= <-]|]. destruct (String.eqb_spec s "owner") as [->|]; [by intros [= <-]|done].
Qed.

Lemma sample_servable :
  servable sample_codecs sample_readers sample_kind sample_info sample_tx sample_message sample_header sample_meta (Err TE_AlreadyProcessed).
Proof.
  split; try reflexivity; [vm_compute; discriminate|done|repeat constructor|]. exists already_processed, TE_AlreadyProcessed. by split_and!.
Qed.

Lemma ingest_hydrate_roundtrip_witness :
  sample_row = Ok row_or_default /\
  hydrate_full_transaction sample_readers sample_record =
    Ok (Complete (mkVersionedTx (tr_signatures sample_tx) (message_of sample_header sample_message))
          (meta_view sample_kind (Err TE_AlreadyProcessed) sample_meta)).
Proof.
  split; [vm_compute; reflexivity|].
  apply (ingest_hydrate_roundtrip sample_codecs sample_readers sample_kind 100 (Some 1700) sample_info row_or_default sample_tx sample_message
           sample_header sample_meta (Err TE_AlreadyProcessed)); [exact sample_base58|exact sample_servable|vm_compute; reflexivity].
Defined.

Lemma accounts_view_projects_witness :
  hydrate_accounts_transaction sample_readers (accounts_of sample_record) =
    Ok (Complete (mkVersionedTx (tr_signatures sample_tx) (accounts_message (message_of sample_header sample_message)))
          (accounts_meta (meta_view sample_kind (Err TE_AlreadyProcessed) sample_meta))).
Proof.
  apply (accounts_view_projects sample_readers sample_record
           (mkVersionedTx (tr_signatures sample_tx) (message_of sample_header sample_message)) (meta_view sample_kind (Err TE_AlreadyProcessed) sample_meta));
    vm_compute; [reflexivity|reflexivity|discriminate].
Defined.

(** ** Blocks *)

Definition sample_encode (o : EncodeOptions) (t : TransactionWithStatusMeta) : result Z EncodeError :=
  match t with
  | Complete tx meta =>
      match vt_message tx, eo_max_version o with MessageV0 _ _ _ _ _, None => Err (EncodeUnsupportedVersion 0) | _, _ => Ok (sm_fee meta) end
  | MissingMetadata _ _ _ _ _ => Ok 0
  end.
Definition sample_tail {E} (u : UiConfirmedBlock E) : list Z :=
  match ui_block_height u with Some h => comma :: key "blockHeight" ++ bytes_of (to_string h) | None => [] end ++ bytes_of "}".
Definition sample_json_tx (n : Z) : result (list Z) unit := Ok (if n <? 0 then [45] else bytes_of (to_string n) ++ [32]).
Definition sample_library : BlockLibrary Z unit :=
  mkLibrary Z unit sample_encode
    (fun o b => let? ts := collect (sample_encode o) (cb_transactions b) in
       Ok (mkUi (cb_previous_blockhash b) (cb_blockhash b) (cb_parent_slot b) (Some ts) None (if eo_show_rewards o then Some (cb_rewards b) else None)
             (cb_num_partitions b) (cb_block_time b) (cb_block_height b)))
    sample_json_tx
    (fun u => let? parts := collect sample_json_tx (default [] (ui_transactions u)) in
       Ok (json_head (ui_previous_blockhash u) (ui_blockhash u) (ui_parent_slot u) ++ key "transactions" ++ bytes_of "[" ++ join_bytes parts ++
           bytes_of "]" ++ sample_tail u))
    sample_tail (fun footer => Ok (match footer with Some f => bytes_of (to_string (fr_producer_time_nanos f)) | None => bytes_of "null" end)).

#[export] Instance sample_laws : LibraryLaws sample_readers sample_library.
Proof.
  split.
  - intros bytes. cbn. unfold table_encode. by repeat case_bool_decide.
  - done.
  - intros u ts Hu _ _. cbn [json_block sample_library]. by rewrite Hu.
  - done.
  - intros e bytes. cbn. unfold sample_json_tx. case_match; intros [= <-]; [done|]. by destruct (bytes_of _).
Qed.

Definition sample_metadata : StoredBlockMetadata :=
  mkBlockMetadata 100 99 mint_key owner_key (Some 1700) (Some 90) 300 2 false [] [] [] [] [] [] None None.
Definition sample_block : StoredBlockPayload := FullPayload (mkBlockRecord sample_metadata (replicate 300 sample_record)).
Definition sample_options : EncodeOptions := mkOptions EncodingBase64 DetailsFull true (Some 0).

(** Two chunks of 150 transactions run, and the bytes are those of the sequential path. *)
Lemma parallel_block_same_witness :
  (length <$> (snd <$> split_block_payload sample_block DetailsFull 2)) = Some 2%nat /\
  build_block_result_blocking sample_readers sample_library 5 4 sample_block sample_options =
    encode_block_result sample_readers sample_library sample_block sample_options.
Proof. split; [vm_compute; reflexivity|]. exact (parallel_block_same sample_readers sample_library 5 4 sample_block sample_options). Defined.

Lemma split_contiguous_balanced_witness : map length (split_contiguous (seq 0 11) 3) = [4; 4; 3]%nat /\ concat (split_contiguous (seq 0 11) 3) = seq 0 11.
Proof. split; [reflexivity|]. apply (split_contiguous_balanced (seq 0 11) 3). lia. Defined.
