(* ===== verification/GetBlockWitnesses.v ===== *)
(** * GetBlockWitnesses: a streamed block stored, served and cached

    A block of two transactions, streamed out of order, goes through the ingestor, the archive
    and the getBlock handler. *)

From S2P Require Import Prelude Text BTree SlotCoverage HeadCoverage Sdk IngestTx IngestBlock IngestBlockSound Hydration HydrationSound BlockHydration BlockHydrationSound BlockRoundTrip GetBlock GetBlockSound HydrationWitnesses.

Open Scope list_scope.
Open Scope Z_scope.

(** ** Streamed *)

Definition second_tx : TransactionMsg := mkTransactionMsg [replicate 64 9] (Some sample_message).
Definition second_info : TxInfo := mkTxInfo (replicate 64 9) false (Some second_tx) (Some sample_meta) 1.
Definition sample_block_msg : BlockMsg :=
  mkBlockMsg 100 5 "mint" (Some (mkRewards [mkReward "owner" 7 17 1 EmptyString EmptyString] None)) (Some 1700) (Some 90) 99 "owner" 2
    [second_info; sample_info] 1 [mkEntryMsg 100 0 0 0 2 12 (replicate 32 1)].
Definition prepared_or_default : PreparedBlock :=
  match prepare_block sample_codecs sample_block_msg true with
  | Ok p => p
  | Err _ => mkPrepared (mkBlockMeta 0 0 [] [] None None None None None None 0 0 (mkRewardColumns 0 [] [] [] [] [] [] None)) [] [] 0
  end.
Definition sample_infos : list TxInfo := [sample_info; second_info].
Definition sample_rows : list IngestTx.TransactionRow := rev (p_transactions prepared_or_default).
Definition sample_view (tx : TransactionMsg) : TransactionWithStatusMeta :=
  Complete (mkVersionedTx (tr_signatures tx) (message_of sample_header sample_message)) (meta_view sample_kind (Err TE_AlreadyProcessed) sample_meta).
Definition sample_footer : FooterFields := mkFooter (replicate 32 2) 77 [65].
Definition sample_lossy (agent : list Z) : string := "agent".

Lemma second_servable :
  servable sample_codecs sample_readers sample_kind second_info second_tx sample_message sample_header sample_meta (Err TE_AlreadyProcessed).
Proof.
  split; try reflexivity; [vm_compute; discriminate|done|repeat constructor|]. exists already_processed, TE_AlreadyProcessed. by split_and!.
Qed.

Lemma sample_served : Forall2 (served_as sample_codecs sample_readers sample_kind) sample_infos [sample_view sample_tx; sample_view second_tx].
Proof.
  constructor; [|constructor; [|constructor]].
  - exists sample_tx, sample_message, sample_header, sample_meta, (Err TE_AlreadyProcessed). split; [exact sample_servable|done].
  - exists second_tx, sample_message, sample_header, sample_meta, (Err TE_AlreadyProcessed). split; [exact second_servable|done].
Qed.

Definition stored_sample : StoredBlockRecord :=
  mkBlockRecord (map_block_metadata_row sample_lossy (read_block_row (stored_row (Some sample_footer) (p_metadata prepared_or_default))))
    (map (fun row => map_transaction_row (read_row row)) sample_rows).

Lemma ingest_block_roundtrip_witness :
  prepare_block sample_codecs sample_block_msg true = Ok prepared_or_default /\
  hydrate_full_block_record sample_readers sample_library stored_sample EncodingJson true (Some 0) =
  map_err HydrationEncode (encode_block sample_library (mkOptions EncodingJson DetailsFull true (Some 0))
    (block_view sample_kind sample_block_msg [sample_view sample_tx; sample_view second_tx] true)).
Proof.
  split; [vm_compute; reflexivity|].
  apply (ingest_block_roundtrip sample_codecs sample_readers sample_library sample_lossy sample_kind sample_block_msg true prepared_or_default
           (Some sample_footer) sample_infos [sample_view sample_tx; sample_view second_tx] sample_rows EncodingJson true (Some 0)).
  - exact sample_base58.
  - vm_compute. reflexivity.
  - repeat constructor.
  - apply perm_swap.
  - repeat constructor.
  - exact sample_served.
  - symmetry. apply Permutation_rev.
  - vm_compute. repeat constructor.
Defined.

(** ** Served *)

Definition sample_chain (slot : Z) : option StoredBlockRecord := if slot =? 100 then Some stored_sample else None.
Definition sample_request : Request := mkRequest 100 Finalized (plan_new None (Some DetailsSignatures) None (Some 0) false).
Definition sample_signatures : list string := map (signature_text sample_readers) (br_transactions stored_sample).
(** The head cache misses, the disk cache does not cover the slot, the archive has all rows. *)
Definition sample_tiers : Tiers unit :=
  mkTiers unit (Some None) (Some DiskNotCovered) (Some (Some (br_metadata stored_sample))) (Some sample_signatures) None None (Some 100) 3 None.
Definition sample_config : ServerConfig := mkServerConfig true 4.
Definition fresh_cache : BlockResponseCache := response_cache_new 1000000 true.
Definition sample_answer (found c : BlockResponseCache) : Answer * BlockResponseCache :=
  handle_get_block sample_readers sample_library sample_config sample_request sample_tiers found c.

Lemma sample_chain_ok slot b : sample_chain slot = Some b -> block_ok b.
Proof. unfold sample_chain. case_match; [|done]. intros [= <-]. split; [vm_compute; reflexivity|]. repeat constructor; vm_compute; discriminate. Qed.

Lemma sample_tiers_true : tiers_true sample_readers sample_chain sample_request sample_tiers None.
Proof.
  split; try discriminate.
  - intros m [= <-]. by exists stored_sample.
  - intros s b [= <-] [= <-]. done.
Qed.

Lemma sample_complete : tiers_complete sample_request sample_tiers.
Proof. split; [discriminate|]. exists (SignaturesPayload (br_metadata stored_sample) sample_signatures). split; [done|vm_compute; reflexivity]. Qed.

Lemma handle_get_block_exact_witness :
  exists bytes, reference sample_readers sample_library (rq_plan sample_request) stored_sample = Ok bytes /\
    fst (sample_answer fresh_cache fresh_cache) = BlockResult bytes.
Proof.
  destruct (handle_get_block_exact sample_readers sample_library sample_config sample_chain sample_chain_ok sample_request sample_tiers None fresh_cache
              fresh_cache) as [_ H]; [constructor|constructor|exact sample_tiers_true|intros outcome Ho; discriminate Ho|].
  eexists. split; [vm_compute; reflexivity|]. apply (H stored_sample); [reflexivity|reflexivity|exact sample_complete|reflexivity|vm_compute; reflexivity].
Defined.

(** The next request is answered from the cache. *)
Example second_request_cached :
  fst (sample_answer (snd (sample_answer fresh_cache fresh_cache)) fresh_cache) = fst (sample_answer fresh_cache fresh_cache) /\
  cached_answer sample_config sample_request (snd (sample_answer fresh_cache fresh_cache)) <> None.
Proof. split; [vm_compute; reflexivity|vm_compute; discriminate]. Qed.
