(* ===== verification/ReadWitnesses.v ===== *)
(** * ReadWitnesses: local reads and signature statuses on concrete data

    A small disk cache read in every way, and two getSignatureStatuses requests of which the
    second is answered without the archive. *)

From S2P Require Import Prelude Text BTree SlotCoverage CoverageMap HeadCoverage KeyIndex KeyTasks KeyFacts KeyTasksSound DiskReads DiskReadsSound SignatureStatuses SignatureStatusesSound.

Open Scope list_scope.
Open Scope Z_scope.

(** ** A disk cache of partitions of ten slots *)

Definition small_index : KeyIndex := mkKeyIndex 10 1000 4.
Definition small_blake3 (bytes : list Z) : list Z := bytes ++ replicate 32 0.
Definition small_rows : list Row := [mkRow 12 SignatureTable [1]; mkRow 35 SignatureTable [2]; mkRow 47 SignatureTable [3]].
Definition small_coverage : CoverageMap := [(10, 40)].
Definition small_db : Local Z := mkLocal Z (system_open small_rows ∅ small_coverage) true 11 (fun key slot => Some slot).

Lemma small_tables : open_tables small_rows ∅ small_coverage.
Proof.
  split.
  - split.
    + constructor; constructor.
    + intros s e [= -> ->]%list_elem_of_singleton. vm_compute. repeat split; discriminate.
    + intros s e s' e' [= -> ->]%list_elem_of_singleton [= -> ->]%list_elem_of_singleton. lia.
  - unfold small_rows. repeat (apply List.Forall_cons; [vm_compute; split; discriminate|]). apply List.Forall_nil.
  - apply map_Forall_empty.
Qed.

#[export] Instance small_complete : IndexComplete small_index small_blake3 (lo_system small_db).
Proof.
  apply (index_complete_run small_index small_blake3 small_rows ∅ small_coverage); [done|done|exact small_tables|apply rtc_refl].
Qed.

Lemma small_fit floor tip : covered_span (coverage (lo_system small_db)) = Some (floor, tip) -> 0 <= floor /\ tip + width small_index <= u64_max.
Proof. intros [= <- <-]. vm_compute. split; discriminate. Qed.

Lemma small_lands_once : lands_once small_db.
Proof.
  intros r r' Hr Hr' _ _. cbn in Hr, Hr'. unfold small_rows in *. rewrite !elem_of_cons, elem_of_nil in Hr, Hr'.
  destruct Hr as [->|[->|[->|[]]]], Hr' as [->|[->|[->|[]]]]; cbn; congruence.
Qed.

(** Slot 35 is covered; slot 47 is not, and the requested slot 30 is. *)
Lemma get_tx_exact_witness :
  read_transaction small_index small_blake3 small_db (mkReadConfig true true true) [2] None = TxFound 35 35 /\
  read_transaction small_index small_blake3 small_db (mkReadConfig true true true) [3] None = TxUnavailable.
Proof.
  split; [|vm_compute; reflexivity].
  apply (get_tx_exact small_index small_blake3 small_db small_fit (mkReadConfig true true true) [2] None small_lands_once).
  split; [|reflexivity]. split; [vm_compute; reflexivity|]. exists (mkRow 35 SignatureTable [2]). split_and!; [cbn; right; left|done..].
Defined.


(** ** Two status requests *)

Definition sample_landing (sig : Sig) : option Z := if bool_decide (sig = [1]) then Some 20 else None.
(** Banks 100 to 102, finalized. *)
Definition linked (slot : Z) : Z * Node := (slot, mkNode (Some (mkLink slot [slot] (slot - 1) [slot - 1])) (Some Finalized) false).
Definition sample_head : HeadCoverage := mkHead true (map linked [100; 101; 102]) [Some (mkTip 102 5); Some (mkTip 102 5); Some (mkTip 102 5)] 102.
Definition sample_observed (archive_ok : bool) : Observed :=
  mkObserved (Some 102) (Some (mkHeadTier sample_head 5 ∅ 102 100 sample_head)) (Some (mkDiskTier (fun _ => DiskStatusAbsent) (Some (50, 100)))) 100
    (fun sig => (fun slot => (slot, None)) <$> sample_landing sig) archive_ok 6.
Definition sample_status_request : StatusRequest := mkStatusRequest [Some [2]; None; Some [2]] true None.
Definition fresh_history : StatusHistoryCache := history_new 100 100000 1000000.
Definition warm_history : StatusHistoryCache := snd (handle_get_signature_statuses (sample_observed true) sample_status_request fresh_history fresh_history).

Lemma sample_observed_true ok : observed_true sample_landing (sample_observed ok) (fun slot => slot <= 100).
Proof.
  assert (Hl : forall sig slot, sample_landing sig = Some slot -> slot = 20) by (intros sig slot; unfold sample_landing; case_bool_decide; congruence).
  split.
  - intros sig slot err. cbn. destruct (sample_landing sig) as [x|] eqn:Hx; [|done]. intros [= <- _]. rewrite (Hl _ _ Hx). split; [done|lia].
  - intros sig slot Ha Hx. cbn in Ha. by rewrite Hx in Ha.
  - intros d floor tip sig slot [= <-] [= <- <-] _ ->%Hl. lia.
  - intros d floor tip sig slot [= <-] [= <- <-] ->%Hl _. lia.
  - intros h start lookup_tip end_ coverage sig slot [= <-] _ Hret _ _ _ ->%Hl Hr _. cbn in Hret. lia.
  - intros h lookup_tip sig slot [= <-] Ht ->%Hl _. vm_compute in Ht. injection Ht as <-. lia.
Qed.

(** The archive is down, and the absence it reported before still answers. *)
Lemma signature_statuses_exact_witness :
  fst (handle_get_signature_statuses (sample_observed false) sample_status_request warm_history warm_history) = Statuses 102 [None; None; None] /\
  fst (handle_get_signature_statuses (sample_observed true) sample_status_request warm_history warm_history) =
    reference_answer (sample_observed true) sample_status_request.
Proof.
  split; [vm_compute; reflexivity|].
  destruct (signature_statuses_exact sample_landing (sample_observed true) (fun slot => slot <= 100) sample_status_request warm_history warm_history) as [H|[H _]].
  - apply (history_request _ _ (fun slot => slot <= 100)); [constructor|constructor|apply sample_observed_true].
  - apply (history_request _ _ (fun slot => slot <= 100)); [constructor|constructor|apply sample_observed_true].
  - apply sample_observed_true.
  - exact H.
  - discriminate H.
Defined.
