(* ===== verification/TransactionWitnesses.v ===== *)
(** * TransactionWitnesses: the position cache and getTransaction at concrete inputs *)

From S2P Require Import Prelude Text BTree SlotCoverage HeadCoverage CoverageMap Sdk Hydration BlockHydration GetBlock KeyIndex KeyTasks DiskReads Cursors SlotCache SlotCacheSound GetTransaction GetTransactionSound IngestTx HydrationSound HydrationWitnesses.

Open Scope list_scope.
Open Scope Z_scope.

(** ** A schedule of the position cache *)

Inductive Act := ActTick (now : Z) | ActCall (i : Z) (kind : Kind) (key : SignatureBytes) | ActMove (i asked : Z) | ActFail (i : Z).

Section Exec.
Context (position_at : Z -> SignatureBytes -> option SignatureSlot) (row_at : Z -> SignatureBytes -> option Hydration.TransactionRow).

(** The next step of a request, [asked] being when the database evaluates its query. *)
Definition move (y : Flights) (i asked : Z) : option Flights :=
  let put c t := mkFlights c (<[i := t]> (requests y)) (next_notify y) (clock y) (lookups y) in
  match requests y !! i with
  | Some (Looping kind key) => Some (put (cache y) (Locking kind key (clock y)))
  | Some (Locking kind key read) =>
      let '(start, c) := get_or_start read (next_notify y) key (cache y) in
      Some (mkFlights c (<[i := started kind key read (clock y) start]> (requests y)) (next_after start (next_notify y)) (clock y) (lookups y))
  | Some (Leading kind key notify since) =>
      if (since <=? asked) && (asked <=? clock y) then
        let '(value, outcome) := ask position_at row_at kind asked key in
        Some (put (cache y) (Finishing key notify value outcome asked (clock y)))
      else None
  | Some (Finishing key notify value outcome asked finished) =>
      Some (mkFlights (finish_leader finished (clock y) (map_to_list (entries (cache y))).*1 key notify value (cache y))
        (<[i := Notifying notify key outcome finished]> (requests y)) (next_notify y) (clock y) (mkLookup key value asked finished :: lookups y))
  | Some (Cleaning key notify) => Some (put (remove_in_flight key notify (cache y)) (Notifying notify key LookupFailed (clock y)))
  | Some (Notifying notify key outcome at_) =>
      Some (mkFlights (cache y) (<[i := Done key outcome at_]> (wake notify <$> requests y)) (next_notify y) (clock y) (lookups y))
  | _ => None
  end.
Definition exec1 (y : Flights) (a : Act) : option Flights :=
  match a with
  | ActTick now => if clock y <=? now then Some (mkFlights (cache y) (requests y) (next_notify y) now (lookups y)) else None
  | ActCall i kind key =>
      match requests y !! i with
      | None => Some (mkFlights (cache y) (<[i := Looping kind key]> (requests y)) (next_notify y) (clock y) (lookups y))
      | Some _ => None
      end
  | ActMove i asked => move y i asked
  | ActFail i =>
      match requests y !! i with
      | Some (Leading _ key notify _) => Some (mkFlights (cache y) (<[i := Cleaning key notify]> (requests y)) (next_notify y) (clock y) (lookups y))
      | _ => None
      end
  end.
Fixpoint exec (y : Flights) (acts : list Act) : option Flights := match acts with [] => Some y | a :: acts => exec1 y a ≫= fun y => exec y acts end.

Lemma exec1_step y a y' : exec1 y a = Some y' -> step position_at row_at y y'.
Proof.
  destruct a as [now|i kind key|i asked|i]; cbn [exec1].
  - case_match eqn:El; [|done]. intros [= <-]. apply step_tick. lia.
  - case_match eqn:Hi; [done|]. intros [= <-]. by apply step_call.
  - unfold move. destruct (requests y !! i) as [[kind key|kind key read| |kind key n since|key n v o asked' fin|key n|n key o at_|]|] eqn:Hi; try done.
    + intros [= <-]. by apply step_move, step_read.
    + destruct (get_or_start read (next_notify y) key (cache y)) as [start c] eqn:Hs. intros [= <-]. by eapply step_move, step_start.
    + destruct ((since <=? asked) && (asked <=? clock y)) eqn:Hle; [|done]. destruct (ask position_at row_at kind asked key) as [v o] eqn:Ha. intros [= <-].
      apply andb_true_iff in Hle as [? ?]. eapply step_move, step_answer; [exact Hi|lia|exact Ha].
    + intros [= <-]. by eapply step_move, step_finish.
    + intros [= <-]. by apply step_move, step_clean.
    + intros [= <-]. by apply step_move, step_notify.
  - destruct (requests y !! i) as [[]|] eqn:Hi; try done. intros [= <-]. by eapply step_fail.
Qed.
Lemma exec_run acts : forall y y', exec y acts = Some y' -> rtc (step position_at row_at) y y'.
Proof.
  induction acts as [|a acts IH]; intros y y'; cbn [exec]; [intros [= <-]; apply rtc_refl|]. destruct (exec1 y a) as [y1|] eqn:H1; [|done].
  intros H2. eapply rtc_l; [by eapply exec1_step|by apply IH].
Qed.
End Exec.

(** The database learns the position of one signature at instant 100. *)
Definition sig7 : SignatureBytes := replicate 64 7.
Definition learned (at_ : Z) (key : SignatureBytes) : option SignatureSlot :=
  if bool_decide (key = sig7) && (100 <=? at_) then Some (mkSigSlot 42 3) else None.
Definition no_row (at_ : Z) (key : SignatureBytes) : option Hydration.TransactionRow := None.

Abbreviation fresh_flights := (flights_new (slot_cache_new 21600 1 50000) 99).
(** Two requests for it: the first leads and fails, the second waited, leads and finds it. *)
Definition opening : list Act :=
  [ActCall 0 PositionLookup sig7; ActMove 0 0; ActMove 0 0; ActCall 1 PositionLookup sig7; ActMove 1 0; ActMove 1 0].
Definition closing : list Act :=
  [ActFail 0; ActMove 0 0; ActMove 0 0; ActTick 101; ActMove 1 0; ActMove 1 0; ActMove 1 101; ActMove 1 0; ActMove 1 0].
Definition state_after (acts : list Act) : Flights := default fresh_flights (exec learned no_row fresh_flights acts).

Lemma opening_reached : rtc (step learned no_row) fresh_flights (state_after opening).
Proof. apply (exec_run learned no_row opening). vm_compute. reflexivity. Qed.
Lemma closing_reached : rtc (step learned no_row) fresh_flights (state_after (opening ++ closing)).
Proof. apply (exec_run learned no_row (opening ++ closing)). vm_compute. reflexivity. Qed.

Lemma slot_cache_flights_witness :
  requests (state_after opening) !! 1 = Some (Waiting PositionLookup sig7 0) /\
  (forall k y', nsteps (quiet learned no_row) k (state_after opening) y' -> (k <= 30)%nat).
Proof.
  split; [by vm_compute|]. intros k y' Hk.
  destruct (slot_cache_flights learned no_row 21600 1 50000 99 (state_after opening) opening_reached) as (_ & H & _).
  assert (Hw : work (state_after opening) = 30%nat) by (by vm_compute). rewrite <- Hw. exact (H k y' Hk).
Defined.

Lemma slot_cache_truthful_witness :
  requests (state_after (opening ++ closing)) !! 1 = Some (Done sig7 (GotPosition (Some (mkSigSlot 42 3))) 101) /\
  exists l kind, l ∈ lookups (state_after (opening ++ closing)) /\ lk_key l = sig7 /\ lk_value l = Some (mkSigSlot 42 3) /\
    fst (ask learned no_row kind (lk_asked l) sig7) = Some (mkSigSlot 42 3) /\ lk_asked l <= lk_finished l /\ 101 <= lk_finished l + 21600.
Proof.
  split; [by vm_compute|].
  exact (slot_cache_truthful learned no_row 21600 1 50000 99 (state_after (opening ++ closing)) 1 sig7 (GotPosition (Some (mkSigSlot 42 3))) 101
    closing_reached ltac:(by vm_compute)).
Defined.

Lemma slot_cache_bounded_witness : len (entries (cache (state_after (opening ++ closing)))) <= 50000 + 0.
Proof. exact (proj2 (slot_cache_bounded learned no_row 21600 1 50000 99 (state_after (opening ++ closing)) closing_reached)). Defined.

(** ** A request that only the archive can answer

    Its shard has no row, the distributed table has; the position is looked up first. *)

Definition sig5 : list Z := replicate 64 5.
Definition small_params : ParamReaders :=
  mkParamReaders (fun text => if String.eqb text "five" then Some sig5 else None) (fun v => Ok default_config).
Definition history (sig : list Z) : option StoredTransactionRecord := if bool_decide (sig = sig5) then Some sample_record else None.
Definition known (at_ : Z) (key : SignatureBytes) : option SignatureSlot := if bool_decide (key = sig5) then Some (mkSigSlot 100 0) else None.
Definition sample_tiers : TxTiers :=
  mkTxTiers None (Some TxUnavailable) None (GotPosition (Some (mkSigSlot 100 0)))
    (mkArchive (Some (Ok None)) (Ok (Some (read_row row_or_default))) (Ok None) false) true.
Definition count_encode (e : UiTransactionEncoding) (v : option Z) (tx : TransactionWithStatusMeta) : result Z TransactionHydrationError := Ok 1.
Definition sample_request : TxRequest := mkTxRequest sig5 default_config None.

(** The position cache after the request's lookup, which was answered at instant 99. *)
Definition asking : list Act := [ActCall 0 PositionLookup sig5; ActMove 0 0; ActMove 0 0; ActMove 0 99; ActMove 0 0; ActMove 0 0].
Definition asked_once : Flights := default fresh_flights (exec known no_row fresh_flights asking).
Lemma asked_once_reached : rtc (step known no_row) fresh_flights asked_once.
Proof. apply (exec_run known no_row asking). vm_compute. reflexivity. Qed.

Lemma archive_tiers_true : tx_tiers_true history known no_row 21600 1 50000 99 sample_request sample_tiers asked_once 99.
Proof.
  assert (Hrow : row_true history sample_request (read_row row_or_default)) by (split; by vm_compute).
  split; cbn [sample_tiers sample_request tt_disk tt_archive tt_position aa_local aa_distributed aa_legacy tx_slot tx_signature]; try done.
  - intros record. vm_compute. by intros [= <-].
  - intros row [= <-]. exact Hrow.
  - exact asked_once_reached.
  - intros _. exists 0. by vm_compute.
Qed.

Lemma get_transaction_exact_witness :
  fst (handle_get_transaction small_params sample_readers count_encode (Some [VString "five"]) sample_tiers (primary_cache_new 1000) (primary_cache_new 1000)) =
    TxResult (100, 1, Some 1700, 0) /\
  lookup_spec sample_readers count_encode history known no_row 1 sample_request sample_tiers asked_once 99 (TxResult (100, 1, Some 1700, 0)).
Proof.
  assert (Ha : fst (handle_get_transaction small_params sample_readers count_encode (Some [VString "five"]) sample_tiers (primary_cache_new 1000) (primary_cache_new 1000)) =
    TxResult (100, 1, Some 1700, 0)) by (by vm_compute).
  split; [exact Ha|]. rewrite <- Ha.
  exact (get_transaction_exact small_params sample_readers count_encode history known no_row 21600 1 50000 99 (Some [VString "five"]) sample_tiers (primary_cache_new 1000)
    (primary_cache_new 1000) asked_once 99 sample_request (records_new _ _ _ _ _ _ _ _ _ _ 1000) (proj2 (requested_parse small_params (Some [VString "five"]) sample_request) ltac:(by vm_compute)) archive_tiers_true ltac:(by vm_compute)).
Defined.
