(* ===== verification/RefreshWitnesses.v ===== *)
(** * RefreshWitnesses: schedules of the latest-slot and block-height caches

    A request that is served, and a schedule in which the words of the block height are read
    while a leader stores them. *)

From S2P Require Import Prelude RefreshCache RefreshCacheSound.

Open Scope Z_scope.

Section Exec.
Context (kind : CacheKind) (ttl : Z) (query : Z -> Z -> option Z).

(** The next step of a request; a query is evaluated at once, and loads see the newest words. *)
Definition radvance (y : RefreshState) (i : Z) : option RefreshState :=
  match tasks y !! i with
  | Some (RLoading locked asked (f :: todo) got) => Some (set_task y i (RLoading locked asked todo (load f (now y) (words y) got)))
  | Some (RLoading locked asked [] got) =>
      if fresh kind ttl asked got then
        Some (set_held (held y && negb locked) (set_task y i (RDone asked (Answered (decode kind (g_value got))) (Some got))))
      else if locked then
        match refresh_lock y with
        | Some notify => Some (set_held false (set_task y i (RWaiting asked notify)))
        | None => Some (set_lock (Some (next y)) (next y + 1) (set_held false (set_task y i (RQuerying asked (next y) (now y)))))
        end
      else Some (set_task y i (RLocking asked))
  | Some (RLocking asked) => if held y then None else Some (set_held true (set_task y i (RLoading true asked (loads kind) nothing_read)))
  | Some (RQuerying asked notify since) =>
      if since <=? now y then
        match query (now y) asked with
        | Some value => Some (set_task y i (RStoring asked notify (stores kind) value (now y)))
        | None => Some (set_task y i (RFinishing asked notify RefreshFailed))
        end
      else None
  | Some (RStoring asked notify (f :: todo) value queried) =>
      Some (set_words (store f (now y) value asked (words y)) (log_store f (now y) value asked queried y) (set_task y i (RStoring asked notify todo value queried)))
  | Some (RStoring asked notify [] value queried) => Some (set_task y i (RFinishing asked notify (Answered (decode kind value))))
  | Some (RFinishing asked notify reply) =>
      if held y then None else Some (set_lock (release notify (refresh_lock y)) (next y) (set_task y i (RNotifying asked notify reply)))
  | Some (RNotifying asked notify reply) =>
      Some (mkRefreshState (words y) (refresh_lock y) (held y) (<[i := RDone asked reply None]> (rewake kind notify <$> tasks y)) (next y) (now y) (refreshes y) (past y))
  | _ => None
  end.
Lemma radvance_step y i y' : radvance y i = Some y' -> rstep kind ttl query y y'.
Proof.
  unfold radvance. destruct (tasks y !! i) as [[locked asked [|f todo] got|asked|asked n|asked n since|asked n [|f todo] v q|asked n r|asked n r|asked r g]|] eqn:Hi; try done.
  - destruct (fresh kind ttl asked got) eqn:Hf; [intros [= <-]; by apply r_hit|]. destruct locked; [|intros [= <-]; by eapply r_miss].
    destruct (refresh_lock y) as [n|] eqn:Hl; intros [= <-]; [by eapply r_wait|by eapply r_lead].
  - intros [= <-]. apply r_load; [done|left].
  - destruct (held y) eqn:Hh; [done|]. intros [= <-]. by apply r_lock.
  - destruct (since <=? now y) eqn:Hle; [|done]. destruct (query (now y) asked) as [v|] eqn:Hq; intros [= <-]; [|by eapply r_fail].
    eapply r_answer; [exact Hi|lia|done].
  - intros [= <-]. by eapply r_stored.
  - intros [= <-]. by apply r_store.
  - destruct (held y) eqn:Hh; [done|]. intros [= <-]. by apply r_finish.
  - intros [= <-]. by apply r_notify.
Qed.

(** A schedule: a call with its slot, or the next step of a request, repeated. *)
Inductive Turn := Ask (i asked : Z) | Turns (n : nat) (i : Z).
Fixpoint advance_times (n : nat) (i : Z) (y : RefreshState) : option RefreshState :=
  match n with O => Some y | S n => radvance y i ≫= advance_times n i end.
Definition take_turn (y : RefreshState) (t : Turn) : option RefreshState :=
  match t with
  | Ask i asked => match tasks y !! i with None => Some (set_task y i (RLoading false asked (loads kind) nothing_read)) | Some _ => None end
  | Turns n i => advance_times n i y
  end.
Fixpoint schedule (ts : list Turn) (y : RefreshState) : option RefreshState := match ts with [] => Some y | t :: ts => take_turn y t ≫= schedule ts end.

Lemma advance_run n i : forall y y', advance_times n i y = Some y' -> rtc (rstep kind ttl query) y y'.
Proof.
  induction n as [|n IH]; intros y y'; cbn [advance_times]; [intros [= <-]; apply rtc_refl|]. destruct (radvance y i) as [y1|] eqn:H1; [|done].
  intros H2. eapply rtc_l; [by eapply radvance_step|by apply IH].
Qed.
Lemma schedule_run ts : forall y y', schedule ts y = Some y' -> rtc (rstep kind ttl query) y y'.
Proof.
  induction ts as [|t ts IH]; intros y y'; cbn [schedule]; [intros [= <-]; apply rtc_refl|]. destruct (take_turn y t) as [y1|] eqn:H1; [|done].
  intros H2. etrans; [|by apply IH]. destruct t as [i asked|n i]; cbn in H1; [|by eapply advance_run].
  destruct (tasks y !! i) eqn:Hi; [done|]. injection H1 as <-. by apply rtc_once, r_call.
Qed.
End Exec.

(** ** The latest slot: one request leads, the next one is served *)

Definition tip_at (queried asked : Z) : option Z := Some 400.
Abbreviation tip_start := (refresh_new LatestSlot 50).
Definition tip_turns : list Turn := [Ask 0 0; Turns 15 0; Ask 1 0; Turns 4 1].
Definition tip_state : RefreshState := default tip_start (schedule LatestSlot 1000 tip_at tip_turns tip_start).
Lemma tip_reached : rtc (rstep LatestSlot 1000 tip_at) tip_start tip_state.
Proof. apply (schedule_run LatestSlot 1000 tip_at tip_turns). vm_compute. reflexivity. Qed.


(** The words are read without order: request 1 sees the date of the first refresh and the value
    from before it, and returns slot 0. *)
Definition dated_turns : list Turn := [Ask 0 0; Turns 15 0; Ask 1 0; Turns 1 1].
Definition dated_state : RefreshState := default tip_start (schedule LatestSlot 1000 tip_at dated_turns tip_start).
Lemma stale_value_read : exists y, rtc (rstep LatestSlot 1000 tip_at) tip_start y /\ tasks y !! 1 = Some (RDone 0 (Answered (Some 0)) (Some (mkGot 50 50 0 0))) /\
  w_value (words y) = 400.
Proof.
  eexists. split; [eapply rtc_r; [eapply rtc_r; [eapply rtc_r; [apply (schedule_run LatestSlot 1000 tip_at dated_turns tip_start dated_state); vm_compute; reflexivity|]|]|]|].
  - apply (r_load _ _ _ dated_state 1 false 0 FValue [FNow] (mkGot 0 50 0 0) (words_new LatestSlot) 50); [vm_compute; reflexivity|].
    apply (bool_decide_eq_true_1 (words_new LatestSlot ∈ words dated_state :: past dated_state)). vm_compute. reflexivity.
  - eapply (r_load _ _ _ _ 1 false 0 FNow [] (mkGot 0 50 0 0) _ 50); [vm_compute; reflexivity|left].
  - eapply (r_hit _ _ _ _ 1 false 0 (mkGot 50 50 0 0)); vm_compute; reflexivity.
  - split; vm_compute; reflexivity.
Qed.

(** ** The block height *)

Definition height_at (queried slot : Z) : option Z := Some (slot * 10).
Abbreviation height_start := (refresh_new BlockHeight 50).
(** One refresh for slot 1. *)
Definition quiet_turns : list Turn := [Ask 0 1; Turns 18 0].
Definition quiet_state : RefreshState := default height_start (schedule BlockHeight 1000 height_at quiet_turns height_start).
Lemma quiet_reached : rtc (rstep BlockHeight 1000 height_at) height_start quiet_state.
Proof. apply (schedule_run BlockHeight 1000 height_at quiet_turns). vm_compute. reflexivity. Qed.
Lemma block_height_coherent_witness :
  words quiet_state = mkWords 10 1 50 /\ exists queried, queried <= now quiet_state /\ height_at queried (w_slot (words quiet_state)) = Some (w_value (words quiet_state)).
Proof.
  split; [by vm_compute|]. apply (block_height_coherent 1000 height_at 50 quiet_state quiet_reached).
  - apply (bool_decide_eq_true_1 (map_Forall (fun _ t => storing t = false) (tasks quiet_state))). by vm_compute.
  - by vm_compute.
Defined.

(** Request 1 refreshes slot 2 while request 2 reads: request 2 loads the old height, request 1
    stores height and slot, request 2 loads the new slot.  It returns the height of slot 1. *)
Definition torn_turns : list Turn := quiet_turns ++ [Ask 1 2; Turns 12 1; Ask 2 2; Turns 3 2; Turns 2 1; Turns 2 2].
Definition torn_state : RefreshState := default height_start (schedule BlockHeight 1000 height_at torn_turns height_start).
Lemma height_torn_read :
  rtc (rstep BlockHeight 1000 height_at) height_start torn_state /\
  tasks torn_state !! 2 = Some (RDone 2 (Answered (Some 10)) (Some (mkGot 50 50 10 2))) /\ height_at 50 2 = Some 20.
Proof.
  split; [|by vm_compute]. apply (schedule_run BlockHeight 1000 height_at torn_turns). vm_compute. reflexivity.
Qed.
