(* ===== verification/SignaturesWitnesses.v ===== *)
(** * SignaturesWitnesses: getSignaturesForAddress at concrete inputs

    An address with five rows: the newest is in the head cache only, two are in the disk
    cache, and all but the newest are in the archive. *)

From S2P Require Import Prelude Text BTree Cursors HeadCoverage HeadReaders Watermark Hydration GetSignatures GetSignaturesSound.

Open Scope list_scope.
Open Scope Z_scope.

Local Abbreviation Rec := (SignatureRecord (I := Z)).

Definition gsfa_row (key slot idx : Z) : Rec := mkRecord [key] (mkSigSlot slot idx) key.
Definition gsfa_rows : list Rec := [gsfa_row 5 105 0; gsfa_row 4 103 1; gsfa_row 3 101 0; gsfa_row 2 99 0; gsfa_row 1 50 2].
Definition gsfa_place (rows : list Rec) (s : Key) : option SignatureSlot := sg_pos <$> List.find (fun r => bool_decide (sg_signature r = s)) rows.

Definition head_has (r : Rec) : bool := 104 <=? ss_slot (sg_pos r).
Definition disk_has (r : Rec) : bool := (100 <=? ss_slot (sg_pos r)) && (ss_slot (sg_pos r) <=? 103).
Definition archive_has (r : Rec) : bool := ss_slot (sg_pos r) <=? 103.

Definition gsfa_head (rows : list Rec) : GsfaHead (I := Z) := {|
  gh_position := fun _ => None;
  gh_rows := fun b u n => (fun r => (r, "confirmed"%string)) <$> newest rows head_has n b u;
  gh_address_floor := Some 104; gh_list_full := false; gh_proves_before := Z.leb 103; gh_proves_after := Z.leb 103; gh_latest := 105;
|}.
Definition gsfa_disk (rows : list Rec) (race : bool) : GsfaDisk (I := Z) := {|
  gd_position := fun _ => None; gd_span_before := Some (100, 103); gd_span_fill := Some (100, 103); gd_span := Some (100, 103);
  gd_rows := fun b u n => Some (newest rows disk_has n b u); gd_race_primary := race;
|}.
Definition gsfa_archive (rows : list Rec) : GsfaArchive (I := Z) := {|
  ga_inline := false; ga_cached := fun _ => None; ga_position := fun s => Ok (gsfa_place rows s);
  ga_page := fun n b u => Ok (newest rows archive_has n b u); ga_inline_page := fun _ _ _ => Err tt; ga_tip := Some 103;
|}.
Definition gsfa_marks : GsfaWatermarks (K := Key) := watermarks_new 1000 16.
Definition gsfa_until : GsfaOptions := mkGsfaOptions (Some 4) (Some "confirmed"%string) None (Some [1]) None None None.

Lemma gsfa_rows_ok : rows_ok gsfa_rows.
Proof.
  split.
  - unfold gsfa_rows. repeat (constructor; [|repeat constructor; unfold newer, pos_lt; cbn; lia]). constructor.
  - intros x y Hx Hy E. unfold gsfa_rows in *. rewrite !elem_of_cons, !elem_of_nil in Hx, Hy.
    destruct Hx as [->|[->|[->|[->|[->|[]]]]]], Hy as [->|[->|[->|[->|[->|[]]]]]]; done.
  - intros x Hx. unfold gsfa_rows in Hx. rewrite !elem_of_cons, !elem_of_nil in Hx. destruct Hx as [->|[->|[->|[->|[->|[]]]]]]; cbn; unfold is_u64, u64_max; lia.
Qed.

Lemma gsfa_tiers_true race : tiers_true gsfa_rows (gsfa_place gsfa_rows) head_has disk_has archive_has (Some (gsfa_head gsfa_rows)) (Some (gsfa_disk gsfa_rows race)) (gsfa_archive gsfa_rows).
Proof.
  split.
  - intros h [= <-]. split; cbn [gsfa_head gh_position gh_rows gh_address_floor gh_list_full].
    + done.
    + intros b u n _. rewrite <- list_fmap_compose. apply list_fmap_id.
    + unfold head_has, newer, pos_lt. lia.
    + intros f x [= <-] _. unfold head_has. lia.
  - intros d [= <-]. split; cbn [gsfa_disk gd_position gd_rows gd_span gd_span_before gd_span_fill].
    + done.
    + congruence.
    + intros f t x [= <- <-] _. unfold disk_has. lia.
    + intros f t [= <- <-]. unfold is_u64, u64_max. lia.
    + intros f t f' t' [= <- <-] [= <- <-]. lia.
    + intros f t [= <- <-]. split; [lia|]. intros x _. unfold archive_has. lia.
  - split; cbn [gsfa_archive ga_cached ga_position ga_page ga_inline_page]; [done|congruence|congruence|done].
  - intros x _. unfold archive_has, head_has. destruct (Z.leb_spec (ss_slot (sg_pos x)) 103); [by left|right]. split; [done|lia].
Qed.


(** The excluded case: an [until] cursor in the slot just below the floor.  The page of the disk
    cache passes for complete, and the row of slot 99 above the cursor is not served. *)
Definition rows_at_floor : list Rec := [gsfa_row 5 105 0; gsfa_row 4 103 1; gsfa_row 3 101 0; gsfa_row 2 99 1; gsfa_row 1 99 0].
Theorem until_below_floor_page_short :
  in_bounds None (bound_for (gsfa_place rows_at_floor) (go_until gsfa_until) None) (sg_pos (gsfa_row 2 99 1)) = true /\
  fst (handle_get_signatures_for_address (fun _ => true) 1000 [9] gsfa_until (Some (gsfa_head rows_at_floor)) (Some (gsfa_disk rows_at_floor true))
    (gsfa_archive rows_at_floor) false 0 gsfa_marks) =
    GsfaRows [(gsfa_row 5 105 0, "confirmed"); (gsfa_row 4 103 1, "finalized"); (gsfa_row 3 101 0, "finalized")]%string.
Proof. split; vm_compute; reflexivity. Qed.
